(* ===== verification/_CoqProject ===== *)
-Q . S2P
Prelude.v
Error.v
Json.v
Job.v
Progress.v
Ring.v
Rotation.v
F64.v
Dispatcher.v
DispatcherFacts.v
Routing.v
Rows.v
Lanes.v
LanesFacts.v
Enqueue.v
LaneGuarantees.v
AtomicLanes.v
QueueStore.v
Attempts.v
Callbacks.v
AttemptRescue.v
Completion.v
StoreAdmin.v
QueueOps.v
StoreFacts.v
AttemptFacts.v
OperationFacts.v
ClaimFacts.v
Canonical.v
SqlInsert.v
StoreGuarantees.v
Stripes.v
StoreEdges.v
CanonicalFacts.v
Lifecycle.v
Executor.v
ExecutorFacts.v
Batcher.v
QueueRead.v
QueueExecutor.v
QueueFinish.v
Finish.v
Buffers.v
System.v
Finalize.v
Rescue.v
Guarantees.v
Batch.v
BatchFacts.v
BatchRuns.v
BatchCanonical.v
BatchQueue.v
BatchGuarantees.v
Transition.v
Crossing.v
TransitionRuns.v
TransitionGuarantees.v
Cron.v
CronFires.v
Reconcile.v
ReconcileFacts.v
CronTables.v
CronGuarantees.v
Migrations.v
CallbackRouting.v
CallbackGuarantees.v
HttpCallbacks.v
