(* ===== verification/Prelude.v ===== *)
(** A verification development of awa, a job queue on Postgres.

    * The program

    awa-model holds the data model and every statement against the database,
    awa-worker the runtime.  A producer prepares a job (insert.rs) and inserts
    it; a dispatcher claims available jobs and hands them to workers; a handler
    runs, may report progress, record an output, stage follow-up jobs or park
    for a callback, and returns a result; the executor finalizes the attempt in
    one transaction, guarded by the run lease its claim handed out, and retries
    that transaction when the connection is lost.  A maintenance leader rescues
    attempts whose worker went silent, promotes scheduled and retryable jobs,
    ages priorities and deletes old jobs; an admin API retries, cancels, pauses
    and resolves callbacks.  Two storage engines exist: the canonical tables
    ([awa.jobs_hot], [awa.scheduled_jobs], [awa.job_unique_claims]) and queue
    storage, whose partitioned tables rotate through rings of slots.

    * What models what

    - Error.v: [AwaError] and its classification (error.rs).
    - Json.v: JSON values, the NUL screens, the runtime payload and retained
      outputs (output.rs, queue_storage.rs, insert.rs).
    - Job.v: states, rows, kinds, unique keys and masks, insert preparation
      (job.rs, kind.rs, unique.rs, trace.rs, insert.rs).
    - Progress.v: a handler's progress buffer, the sharded in-flight registry,
      and its two writers, the heartbeat and [flush_progress] (runtime.rs,
      heartbeat.rs, context.rs).
    - Ring.v, Rotation.v: the rings of queue storage: slot arithmetic, the
      rotation tick with its gates, the ledger and the flip of the cursor's
      authority (queue_storage.rs, v023 and v043 migrations).
    - F64.v: the double-precision arithmetic of the rate limiter and the
      overflow pool, on the Standard Library's [SpecFloat].
    - Dispatcher.v: what a worker may claim and run: the builder's checks, token
      buckets, the overflow pool, permits, a poll in its two halves, runtime
      overrides, and a runtime whose polls and tasks interleave (dispatcher.rs,
      client.rs).
    - Routing.v: enqueue shards in Rust and in SQL, partitioned queues, queue
      stripes (queue_storage.rs, partitioned_queue.rs, v018 migration).
    - Rows.v: the row types a job of queue storage passes through and their
      conversions; Lanes.v, Enqueue.v: its lanes, that is sequences, segments,
      the claim function, cursor advances, tombstones and moves
      (queue_storage.rs, v023 migration).
    - QueueStore.v: the other tables of queue storage (receipt closures, leases,
      attempt state, deferred, terminal and dead-letter rows, unique claims, the
      counters' deltas) and the inserts into them; Attempts.v: what ends a
      running attempt; Callbacks.v: heartbeats, materialized leases and
      callbacks; AttemptRescue.v: the rescues with their scan cursors;
      Completion.v: batched completion, compact and slow; StoreAdmin.v:
      promotion, retry, cancel and the dead-letter queue; QueueOps.v: enqueue,
      claim, moves, aging and pruning as whole operations (queue_storage.rs,
      dlq.rs).
    - Canonical.v: the canonical tables with the unique-claim trigger, and one
      definition per statement or handler: claim, completion, heartbeat,
      rescheduling, rescue, promotion, aging, retention, admin calls, callbacks
      (v001, v012, v018 migrations; dispatcher.rs, completion.rs, heartbeat.rs,
      reschedule.rs, maintenance.rs, admin.rs).
    - Executor.v: [complete_job_canonical], every handler result, with
      registered and staged follow-ups in the finalizing transaction
      (executor.rs, enqueue_specs.rs).
    - Buffers.v: the output slot and the staged follow-ups (output.rs,
      follow_ups.rs, executor.rs).
    - Finalize.v: [finalize_with_retry] (executor.rs).
    - System.v: the whole canonical system: a database, what workers remember
      of the jobs handed to them, and 22 kinds of operations that may
      interleave in any order.
    - Batch.v: batch operations: their two tables, every statement and the
      runner's call as a sequence of transactions over the class [JobEngine];
      BatchCanonical.v, BatchQueue.v: the two storage engines as instances
      (batch_operations.rs, v029 migration).
    - Transition.v: the storage transition, which takes a cluster from the
      canonical tables to queue storage: its commands, the routing functions,
      the status report, the promotion of a fresh cluster, the gate of the
      migration runner, and how a worker picks its engine; Crossing.v: the
      canonical attempt that re-schedules after the flip (storage.rs,
      reschedule.rs, client.rs, admin.rs, the v010-v014, v020, v037 and v040
      migrations).
    - Stripes.v: enqueue and claim of a striped queue; SqlInsert.v: the
      queue-storage branch of [awa.insert_job_compat] (queue_storage.rs, v018
      migration).
    - Batcher.v: the completion batcher and its flush on both engines
      (completion.rs); QueueRead.v: [load_job]; QueueExecutor.v:
      [complete_job_queue_storage] (queue_storage.rs, executor.rs).
    - Cron.v: schedules, their table, due fires and the leader's evaluation;
      Reconcile.v: manifests, declarations, the reconciliation of an owner's
      schedules and the operator's actions (cron.rs, cron_reconciliation.rs,
      maintenance.rs, v045 migration).
    - Migrations.v: the migration runner: versions, gates, scripts and retries
      (migrations.rs).
    - CallbackRouting.v: the callback calls of the admin API over both engines,
      CEL policies included (admin.rs); HttpCallbacks.v: the signed callback
      contract, the HTTP worker, the receiver's handlers and router
      (callback_contract.rs, http_worker.rs, awa-ui).

    State is passed explicitly.  A database operation returns a result whose
    error leaves the database as it was, as its rolled-back transaction does;
    an operation of several transactions returns the database of those that
    committed.  Tables are finite maps by id; a scan whose order Postgres does
    not fix takes that order, and the rows it may lock, as arguments.  Clocks,
    jitter, hashes, serialized lengths and user closures are arguments too.

    * What is shown

    - CanonicalFacts.v: the invariant of the tables and the effect of each kind
      of row write; Lifecycle.v: an abstract lifecycle machine ([db_step]) and
      that every statement refines it; ExecutorFacts.v, Finish.v: the same for
      finalization, and what a finalization does to a live and to a stale
      attempt, whatever batch it is flushed with; Rescue.v: what a rescue does to one row.
    - Guarantees.v: for every interleaving, an attempt closes at most once,
      unique keys are exclusive, attempt counters stay in budget, every
      operation refines the lifecycle; finalization applies the handler's
      result exactly when the lease still holds, and can be replayed; claims
      take the best rows; inserts store or conflict; rescues close what they
      pick up; and two runs that show where a unique mask that misses a state
      costs a job its key.
    - Finalize.v: the retry loop ends in its window.  Its fuel, 67 calls, is
      proved enough for every behaviour of the calls: three deadlock retries,
      one schema retry, sixty-two reconnects that fit in two minutes and the
      first call.
    - Progress.v, Buffers.v: the registry is one map, heartbeat progress is
      durable (and a flush can be overwritten), a sealed output is final,
      staged follow-ups are all or nothing.
    - Ring.v, Rotation.v: slots and generations correspond, a rotation opens
      only an empty slot, cursors advance one generation at a time whatever
      rotates them, the flip keeps them, and a slot does not stay open beyond
      its age ceiling.
    - DispatcherFacts.v: capacity and permits for every interleaving, the
      settlement of a poll (permits and rate tokens, bit for bit), the overflow
      pool's grants, and that overrides leave no trace.
    - Routing.v: Rust and SQL agree on a key's shard, routes stay within the
      queues they should and read back.
    - LanesFacts.v, LaneGuarantees.v, Enqueue.v: for every interleaving of the
      transactions of a lane, cursor advances and aborts included, no job is
      stranded behind the cursor and claims are in order; a claim hands out the
      first live jobs, polling reaches every job, an enqueue stores its batch
      whole; and two runs where a lagging cursor, or a job older than the
      aging cast allows, does harm.
    - AtomicLanes.v, StoreFacts.v, AttemptFacts.v, OperationFacts.v,
      ClaimFacts.v: the invariant of the store and that each operation keeps
      it; StoreGuarantees.v: over sequences of whole operations (a claim with
      the advance of its cursor) in which no rescue takes an attempt twice, a job
      is in one place, none is lost, an attempt ends once and a running attempt
      can always be ended; StoreEdges.v: closed runs that show what the operations
      do at their edges (aged priorities, stale leases, leaked unique keys,
      undecodable metadata).
    - BatchFacts.v, BatchRuns.v, BatchGuarantees.v: for every interleaving with
      the runner's transactions, an operation changes no job twice and its
      counters and items agree; a call ends; and by the laws of [JobEngineLaws],
      which both engines satisfy, an operation changes exactly the jobs it
      matched.
    - Crossing.v, TransitionRuns.v, TransitionGuarantees.v: over the runs of a
      cluster in transition under a careful operator, with both engines at work
      and producers that route and write in one step, no job is left where
      routing does not point, SQL and Rust route alike, a crossing attempt is neither lost nor copied, the report and the
      gate say what the commands do, and workers come up where jobs go; and what
      an abort does when the details name no schema or the transition is over,
      and an insert that comes after the transition it was routed before.
    - Stripes.v, Batcher.v, QueueFinish.v: a striped claim runs, an SQL insert
      misses the stripes, a batcher flushes each request once and answers the
      truth, and a finalization on queue storage does what the handler's result
      means.
    - CronFires.v, ReconcileFacts.v, CronTables.v, CronGuarantees.v: due fires
      are those of a walk over the iterator; over every interleaving of leaders,
      clients, operators and admins a fire is enqueued once, a synchronized hash
      certifies the schedules, reconciliation converges, and retirement waits for
      its grace.
    - Migrations.v: a run brings any supported database up to date and is gated
      as documented; retries are bounded.
    - CallbackGuarantees.v, HttpCallbacks.v: a callback goes to the engine that
      owns it, a policy resolves as written on either; what the worker posts is
      what the receiver accepts, and nothing forged is.
    - Json.v, Job.v: round trips, screens, masks and the hashed text of unique
      keys.

    Other recursion is structural; batch sizes are those of the source.

    * What is not modelled

    Of queue storage, stores without receipts, the lease ring's prune, the
    rollup of the counters' deltas, the COPY staging of large batches and what
    only reads (listings, counts); leader election, the wake-up loops of the
    services, and the other front ends and bindings.  Notifications, metrics and
    logs have no effect on the modelled state.  Ids drawn by a failed insert are
    not skipped.  The rotator of release 0.6, whose code is not in the repository,
    follows its description (queue_storage.rs:4558).  The runs of the store do not interleave a
    claim with the advance of its cursor (those of its lanes do), nor those of a
    cluster in transition a producer's routing with its write.  Of a database
    connection that is lost, the item of a batch operation whose transaction fails
    is modelled; elsewhere the transaction is simply not a step.

    This file holds what the others share: results and their notation, machine
    integers, strings as bytes, tactics and generic lemmas. *)

From Stdlib Require Export ZArith Lia String Ascii.
From stdpp Require Export base decidable option list gmap strings sorting.

Global Open Scope Z_scope.

(** * Fallible code

    [Result<T, E>] of the source, with the [?] operator as a binder. *)
Inductive result (E A : Type) : Type :=
  | Ok (a : A)
  | Err (e : E).
Arguments Ok {E A} a.
Arguments Err {E A} e.

Definition rbind {E A B} (m : result E A) (f : A -> result E B) : result E B :=
  match m with
  | Ok a => f a
  | Err e => Err e
  end.

Declare Scope awa_scope.
Delimit Scope awa_scope with awa.
Notation "'let?' x := m 'in' k" := (rbind m (fun x => k))
  (at level 10, x pattern, m at level 100, k at level 200) : awa_scope.
Notation "'check?' m ; k" := (rbind m (fun _ : unit => k))
  (at level 10, m at level 100, k at level 200) : awa_scope.
(** Left-to-right application, for chains of field updates. *)
Notation "x |> f" := (f x) (at level 45, left associativity, only parsing) : awa_scope.
Global Open Scope awa_scope.

(** * Machine integers

    A [w]-bit integer is a [Z]; the wrap-around is explicit. *)
Definition u64_mod : Z := 2 ^ 64.
Definition wrap_u64 (x : Z) : Z := x mod u64_mod.
Definition wrap_u32 (x : Z) : Z := x mod 2 ^ 32.
Definition wrap_u16 (x : Z) : Z := x mod 2 ^ 16.
Definition u32_max : Z := 2 ^ 32 - 1.
Definition u64_max : Z := 2 ^ 64 - 1.
Definition i16_max : Z := 2 ^ 15 - 1.
Definition i64_max : Z := 2 ^ 63 - 1.
(** Two's complement reading of a 64-bit pattern ([as i64]). *)
Definition as_i64 (x : Z) : Z := (x + 2 ^ 63) mod 2 ^ 64 - 2 ^ 63.
Definition as_i16 (x : Z) : Z := (x + 2 ^ 15) mod 2 ^ 16 - 2 ^ 15.
(** [saturating_sub] on an unsigned type and [saturating_add] below [m]. *)
Definition sat_sub (a b : Z) : Z := Z.max 0 (a - b).
Definition sat_add (m a b : Z) : Z := Z.min m (a + b).
(** [i64::rem_euclid] by a positive divisor is the floor remainder. *)
Definition rem_euclid (a b : Z) : Z := a mod b.

Definition is_u64 (x : Z) : Prop := 0 <= x < 2 ^ 64.
Definition is_byte (x : Z) : Prop := 0 <= x < 256.

(** * Time

    [DateTime<Utc>] and [timestamptz] at Postgres' resolution: microseconds. *)
Abbreviation time := Z (only parsing).
Definition us_per_sec : Z := 1000000.

(** * Strings as bytes *)
Definition ascii_code (c : ascii) : Z := Z.of_N (N_of_ascii c).
(** [str::chars().count()]: the bytes of a UTF-8 text that start a character. *)
Fixpoint char_count (s : string) : Z :=
  match s with
  | EmptyString => 0
  | String c s => (if Z.land (ascii_code c) 192 =? 128 then 0 else 1) + char_count s
  end.
Definition string_bytes (s : string) : list Z := map ascii_code (list_ascii_of_string s).

(** * Tactics *)

(** Case analysis on the scrutinee of a [match] or [if] in the goal or in a
    hypothesis, with its equation. *)
Ltac case_match_goal :=
  match goal with
  | |- context [match ?x with _ => _ end] => destruct x eqn:?
  end.
Ltac case_match_in H :=
  match type of H with
  | context [match ?x with _ => _ end] => destruct x eqn:?
  end.
(** Split conjunctions and existentials of the context, drop [Ok]/[Err]
    equations by injection. *)
Ltac inv_results :=
  repeat match goal with
  | H : _ /\ _ |- _ => destruct H
  | H : exists _, _ |- _ => destruct H
  | H : Ok _ = Ok _ |- _ => injection H as H; subst
  | H : Err _ = Err _ |- _ => injection H as H; subst
  | H : Ok _ = Err _ |- _ => discriminate H
  | H : Err _ = Ok _ |- _ => discriminate H
  | H : Some _ = Some _ |- _ => injection H as H; subst
  | H : None = Some _ |- _ => discriminate H
  | H : Some _ = None |- _ => discriminate H
  | H : (_, _) = (_, _) |- _ => injection H as H; subst
  end.

Create HintDb awa discriminated.
Create Rewrite HintDb awa_simpl.

(** [lia] with quotients and remainders expanded. *)
Ltac div_lia := Z.div_mod_to_equations; nia.

(** * Generic lemmas *)

Lemma rbind_Ok {E A B} (m : result E A) (f : A -> result E B) (b : B) :
  rbind m f = Ok b <-> exists a, m = Ok a /\ f a = Ok b.
Proof. destruct m; simpl; naive_solver. Qed.

Lemma rbind_Err {E A B} (m : result E A) (f : A -> result E B) (e : E) :
  rbind m f = Err e <-> m = Err e \/ exists a, m = Ok a /\ f a = Err e.
Proof. destruct m; simpl; naive_solver. Qed.

Lemma wrap_u64_range (x : Z) : is_u64 (wrap_u64 x).
Proof. unfold wrap_u64, is_u64, u64_mod. apply Z.mod_pos_bound. lia. Qed.

Lemma wrap_u64_id (x : Z) : is_u64 x -> wrap_u64 x = x.
Proof. intros. apply Z.mod_small. exact H. Qed.

Lemma sat_sub_nonneg (a b : Z) : 0 <= sat_sub a b.
Proof. unfold sat_sub. lia. Qed.

Lemma sat_sub_le (a b : Z) : 0 <= a -> 0 <= b -> sat_sub a b <= a.
Proof. unfold sat_sub. lia. Qed.

(** A bit beyond the width of a 64-bit value is zero. *)
Lemma u64_testbit_high (x n : Z) : is_u64 x -> 64 <= n -> Z.testbit x n = false.
Proof.
  intros [H0 H1] Hn. destruct (decide (x = 0)) as [->|]; [apply Z.bits_0|].
  apply Z.bits_above_log2; [exact H0|].
  apply Z.log2_lt_pow2; [lia|]. eapply Z.lt_le_trans; [exact H1|].
  apply Z.pow_le_mono_r; lia.
Qed.

Lemma u64_of_testbit (x : Z) :
  0 <= x -> (forall n, 64 <= n -> Z.testbit x n = false) -> is_u64 x.
Proof.
  intros H0 Hb. split; [exact H0|]. destruct (decide (x = 0)) as [->|Hx]; [lia|].
  apply Z.log2_lt_pow2; [lia|]. destruct (decide (Z.log2 x < 64)) as [|Hl]; [assumption|].
  specialize (Hb (Z.log2 x) ltac:(lia)). rewrite Z.bit_log2 in Hb by lia. discriminate.
Qed.

Lemma lxor_u64 (x y : Z) : is_u64 x -> is_u64 y -> is_u64 (Z.lxor x y).
Proof.
  intros Hx Hy. apply u64_of_testbit.
  - apply Z.lxor_nonneg. destruct Hx, Hy. tauto.
  - intros n Hn. rewrite Z.lxor_spec, !u64_testbit_high by assumption. reflexivity.
Qed.

Lemma shiftr_u64 (x n : Z) : 0 <= n -> is_u64 x -> is_u64 (Z.shiftr x n).
Proof.
  intros Hn [H0 H1]. rewrite Z.shiftr_div_pow2 by exact Hn. split.
  - apply Z.div_pos; [exact H0|]. apply Z.pow_pos_nonneg; lia.
  - apply Z.div_lt_upper_bound; [apply Z.pow_pos_nonneg; lia|].
    assert (1 <= 2 ^ n) by (apply (Z.pow_le_mono_r 2 0 n); lia). nia.
Qed.

#[export] Hint Resolve wrap_u64_range sat_sub_nonneg lxor_u64 shiftr_u64 : awa.

Lemma NoDup_map_filter {A B} (f : A -> B) (p : A -> bool) (l : list A) :
  NoDup (map f l) -> NoDup (map f (List.filter p l)).
Proof.
  induction l as [|a l IH]; simpl; [auto|]. intros [Ha Hl]%NoDup_cons.
  destruct (p a); simpl; [|auto]. apply NoDup_cons. split; [|auto].
  intros Hin. apply Ha. apply list_elem_of_In, in_map_iff in Hin as (x & Hx & Hin).
  apply filter_In in Hin as [Hin _]. apply list_elem_of_In, in_map_iff. eauto.
Qed.
Lemma NoDup_map_inj {A B} (f : A -> B) (l : list A) x y : NoDup (map f l) -> x ∈ l -> y ∈ l -> f x = f y -> x = y.
Proof.
  induction l as [|z l IH]; simpl; [by intros _ ?%elem_of_nil|]. intros [Hz Hl]%NoDup_cons Hx Hy E.
  apply elem_of_cons in Hx as [->|Hx], Hy as [->|Hy]; auto; exfalso; apply Hz; [rewrite E|rewrite <- E];
    by apply list_elem_of_fmap_2.
Qed.
Lemma filter_perm {A} (f : A -> bool) l l' : l ≡ₚ l' -> List.filter f l ≡ₚ List.filter f l'.
Proof. induction 1; simpl; repeat case_match; try done; [by constructor|by constructor|by etrans]. Qed.

(** * Lists *)

(** [max(...)] over rows, NULL without any. *)
Definition max_of (l : list Z) : option Z :=
  match l with
  | [] => None
  | x :: l => Some (foldr Z.max x l)
  end.

Lemma head_elem {A} (l : list A) x : head l = Some x -> x ∈ l.
Proof. destruct l; [done|]. intros [= ->]. constructor. Qed.

Lemma head_sorted {A} (R : A -> A -> Prop) `{!RelDecision R, !Total R, !Transitive R} (l : list A) x y :
  head (merge_sort R l) = Some x -> y ∈ l -> R x y.
Proof.
  intros Hh Hy. pose proof (StronglySorted_merge_sort R l) as Hs. rewrite <- (merge_sort_Permutation R l) in Hy.
  destruct (merge_sort R l) as [|z l']; [done|]. injection Hh as ->. apply StronglySorted_inv in Hs as [_ Hs].
  apply elem_of_cons in Hy as [->|Hy].
  - destruct (total R x x); done.
  - rewrite Forall_forall in Hs. by apply Hs.
Qed.

Lemma elem_of_filter_b {A} (f : A -> bool) l x : x ∈ List.filter f l <-> f x = true /\ x ∈ l.
Proof. rewrite !list_elem_of_In, filter_In. tauto. Qed.

Lemma existsb_elem {A} (f : A -> bool) l : existsb f l = true <-> exists x, x ∈ l /\ f x = true.
Proof. rewrite existsb_exists. by setoid_rewrite list_elem_of_In. Qed.

Lemma max_of_spec l m : max_of l = Some m -> m ∈ l /\ forall x, x ∈ l -> x <= m.
Proof.
  destruct l as [|a l]; [done|]. intros [= <-].
  induction l as [|b l [IHi IHm]]; simpl.
  - split; [constructor|]. intros x Hx%list_elem_of_singleton. lia.
  - split.
    + destruct (Z.max_spec b (foldr Z.max a l)) as [[_ ->]|[_ ->]]; [set_solver|set_solver].
    + intros x Hx. assert (x = b \/ x ∈ a :: l) as [->|H] by set_solver; [lia|]. specialize (IHm x H). lia.
Qed.

Lemma max_of_None l : max_of l = None -> l = [].
Proof. by destruct l. Qed.

(** * Counting the entries of a map *)

Section Count.
Context {K V : Type} `{Countable K} (P : K * V -> Prop) `{!∀ x, Decision (P x)}.
Definition cnt (m : gmap K V) : Z := Z.of_nat (size (filter P m)).
Definition holds (k : K) (v : V) : Z := if decide (P (k, v)) then 1 else 0.

Lemma cnt_insert_new k v m : m !! k = None -> cnt (<[k := v]> m) = cnt m + holds k v.
Proof.
  intros Hk. unfold cnt, holds. destruct (decide (P (k, v))) as [Hp|Hp].
  - rewrite map_filter_insert_True, map_size_insert_None; [lia| |done].
    apply map_lookup_filter_None. by left.
  - rewrite map_filter_insert_False by done. rewrite delete_id by done. lia.
Qed.
Lemma cnt_lookup k v m : m !! k = Some v -> cnt m = cnt (delete k m) + holds k v.
Proof. intros Hk. rewrite <- (insert_delete_id m k v) at 1 by done. apply cnt_insert_new. apply lookup_delete_eq. Qed.
Lemma cnt_insert k v v' m : m !! k = Some v -> cnt (<[k := v']> m) = cnt m - holds k v + holds k v'.
Proof.
  intros Hk. rewrite (cnt_lookup k v m Hk). rewrite <- insert_delete_eq. rewrite cnt_insert_new; [lia|apply lookup_delete_eq].
Qed.
Lemma cnt_nonneg m : 0 <= cnt m.
Proof. unfold cnt. lia. Qed.
Lemma cnt_zero m : cnt m = 0 <-> forall k v, m !! k = Some v -> ~ P (k, v).
Proof.
  unfold cnt. split.
  - intros Hc k v Hk Hp. assert (filter P m !! k = Some v) as Hf by (apply map_lookup_filter_Some; done).
    assert (size (filter P m) = 0)%nat as Hs by lia. apply map_size_empty_inv in Hs. rewrite Hs in Hf. by rewrite lookup_empty in Hf.
  - intros Hn. replace (filter P m) with (∅ : gmap K V); [by rewrite map_size_empty|].
    symmetry. apply map_empty. intros k. apply map_lookup_filter_None. right. intros v Hk. by apply Hn.
Qed.
End Count.
