(* ===== verification/Error.v ===== *)
(** Errors of the model crate (awa-model/src/error.rs): the error type, the
    classification the worker's retry logic rests on, and the mapping of a
    driver error. *)

From S2P Require Import Prelude.

(** What the code inspects of a [sqlx::Error]; a database error carries its
    SQLSTATE and constraint name. *)
Inductive sqlx_error : Type :=
  | SqlxIo
  | SqlxPoolTimedOut
  | SqlxPoolClosed
  | SqlxProtocol
  | SqlxTls
  | SqlxRowNotFound
  | SqlxDatabase (code : option string) (constraint_name : option string).

Inductive AwaError : Type :=
  | JobNotFound (id : Z)
  | CallbackNotFound (callback_id : Z)
  | UniqueConflict (constraint_name : option string)
  | SchemaNotMigrated (expected found : Z)
  | SchemaNewerThanBinary (found supported : Z)
  | LiveRuntimesRequireExclusiveWindow (migration_version count newest_secs : Z) (instances : string)
  | RuntimeVersionFloorNotMet (migration_version : Z) (minimum_version : string) (count : Z) (instances : string)
  | StorageNotFinalized (state : string)
  | UnknownJobKind (kind : string)
  | Validation (msg : string)
  | Serialization
  | Database (e : sqlx_error).

(** [code().as_deref() == Some(c)] on a database error. *)
Definition has_code (e : AwaError) (c : string) : bool :=
  match e with
  | Database (SqlxDatabase (Some code) _) => String.eqb code c
  | _ => false
  end.

Definition is_deadlock (e : AwaError) : bool := has_code e "40P01".
Definition is_undefined_column (e : AwaError) : bool := has_code e "42703".

Definition is_connection_lost (e : AwaError) : bool :=
  match e with
  | Database SqlxIo | Database SqlxPoolTimedOut | Database SqlxProtocol | Database SqlxTls => true
  | Database (SqlxDatabase code _) =>
      match code with
      | Some code =>
          String.prefix "08" code
          || (String.eqb code "57P01" || String.eqb code "57P02"
              || String.eqb code "57P03" || String.eqb code "25006")
      | None => false
      end
  | _ => false
  end.

(** [map_sqlx_error]: a unique violation becomes [UniqueConflict]. *)
Definition map_sqlx_error (err : sqlx_error) : AwaError :=
  match err with
  | SqlxDatabase (Some code) constraint_name =>
      if String.eqb code "23505" then UniqueConflict constraint_name else Database err
  | _ => Database err
  end.

(** The maintenance loop's test for a row whose unique key is owned by
    another job (awa-worker/src/maintenance.rs). *)
Definition is_unique_claim_conflict (e : AwaError) : bool := has_code e "23505".

(** No error is both a deadlock abort and a lost connection: the first means
    nothing was applied, the second leaves it open. *)
Lemma deadlock_not_connection_lost (e : AwaError) :
  is_deadlock e = true -> is_connection_lost e = false.
Proof.
  destruct e as [| | | | | | | | | | |[| | | | | |[code|] c]]; try discriminate.
  intros H. apply String.eqb_eq in H. subst. reflexivity.
Qed.
