(* ===== verification/Json.v ===== *)
(** JSON values as the program handles them.

    [json] is [serde_json::Value] (built without [preserve_order], so an
    object is a map sorted by key), with the accessors the source calls on
    it.  The rest of the file is the program's own JSON code:
    [reject_null_bytes] (awa-model/src/insert.rs), [contains_nul],
    [validate_output] and [strip_error_outputs] (awa-model/src/output.rs) and
    the queue-storage payload envelope [RuntimePayload]
    (awa-model/src/queue_storage.rs). *)

From S2P Require Import Prelude.
From S2P Require Import Error.

(** A JSON number: unsigned, negative, or an [f64] by its bit pattern. *)
Inductive number : Type :=
  | PosInt (n : Z)
  | NegInt (n : Z)
  | Float (bits : Z).

#[warnings="-register-all"]
Inductive json : Type :=
  | JNull
  | JBool (b : bool)
  | JNumber (n : number)
  | JString (s : string)
  | JArray (l : list json)
  | JObject (m : list (string * json)).

(** * Objects *)

Fixpoint map_get (k : string) (m : list (string * json)) : option json :=
  match m with
  | [] => None
  | (k', v) :: m => if String.eqb k k' then Some v else map_get k m
  end.

(** Sorted insertion, replacing the value of a key already present. *)
Fixpoint map_insert (k : string) (v : json) (m : list (string * json)) : list (string * json) :=
  match m with
  | [] => [(k, v)]
  | (k', v') :: m' =>
      match String.compare k k' with
      | Lt => (k, v) :: m
      | Eq => (k, v) :: m'
      | Gt => (k', v') :: map_insert k v m'
      end
  end.

Definition map_remove (k : string) (m : list (string * json)) : list (string * json) :=
  List.filter (fun kv => negb (String.eqb k (fst kv))) m.

Definition map_contains_key (k : string) (m : list (string * json)) : bool :=
  match map_get k m with Some _ => true | None => false end.

(** [Value::get(key)]: [None] on anything but an object. *)
Definition get (k : string) (v : json) : option json :=
  match v with
  | JObject m => map_get k m
  | _ => None
  end.

Definition is_null (v : json) : bool := match v with JNull => true | _ => false end.
Definition is_object (v : json) : bool := match v with JObject _ => true | _ => false end.
Definition as_object (v : json) : option (list (string * json)) :=
  match v with JObject m => Some m | _ => None end.

(** [value[key] = x] on an object (the only use in the source). *)
Definition set_key (k : string) (x : json) (v : json) : json :=
  match v with
  | JObject m => JObject (map_insert k x m)
  | JNull => JObject [(k, x)]
  | _ => v
  end.

(** [PartialEq] of numbers: the two zeros of [f64] are equal. *)
Definition float_is_zero (bits : Z) : bool := Z.eqb bits 0 || Z.eqb bits (2 ^ 63).
Definition number_eqb (a b : number) : bool :=
  match a, b with
  | PosInt x, PosInt y | NegInt x, NegInt y => Z.eqb x y
  | Float x, Float y => Z.eqb x y || (float_is_zero x && float_is_zero y)
  | _, _ => false
  end.

Fixpoint json_eqb (a b : json) {struct a} : bool :=
  match a, b with
  | JNull, JNull => true
  | JBool x, JBool y => Bool.eqb x y
  | JNumber x, JNumber y => number_eqb x y
  | JString x, JString y => String.eqb x y
  | JArray x, JArray y =>
      (fix go (x y : list json) : bool :=
         match x, y with
         | [], [] => true
         | a :: x, b :: y => json_eqb a b && go x y
         | _, _ => false
         end) x y
  | JObject x, JObject y =>
      (fix go (x y : list (string * json)) : bool :=
         match x, y with
         | [], [] => true
         | (k, a) :: x, (k', b) :: y => String.eqb k k' && json_eqb a b && go x y
         | _, _ => false
         end) x y
  | _, _ => false
  end.

(** * NUL screening *)

Definition nul : ascii := Ascii.zero.
Fixpoint contains_char (c : ascii) (s : string) : bool :=
  match s with
  | EmptyString => false
  | String c' s => Ascii.eqb c c' || contains_char c s
  end.

(** [reject_null_bytes] (insert.rs). *)
Fixpoint reject_null_bytes (value : json) : result AwaError unit :=
  match value with
  | JString s =>
      if contains_char nul s
      then Err (Validation "job args/metadata must not contain null bytes (\u0000): Postgres JSONB does not support them")
      else Ok tt
  | JArray arr =>
      (fix go (arr : list json) : result AwaError unit :=
         match arr with
         | [] => Ok tt
         | v :: arr => check? reject_null_bytes v; go arr
         end) arr
  | JObject map =>
      (fix go (map : list (string * json)) : result AwaError unit :=
         match map with
         | [] => Ok tt
         | (k, v) :: map =>
             if contains_char nul k
             then Err (Validation "job args/metadata keys must not contain null bytes (\u0000)")
             else check? reject_null_bytes v; go map
         end) map
  | _ => Ok tt
  end.

(** [contains_nul] (output.rs). *)
Fixpoint contains_nul (value : json) : bool :=
  match value with
  | JString s => contains_char nul s
  | JArray items =>
      (fix go (items : list json) : bool :=
         match items with [] => false | v :: items => contains_nul v || go items end) items
  | JObject map =>
      (fix go (map : list (string * json)) : bool :=
         match map with
         | [] => false
         | (k, v) :: map => (contains_char nul k || contains_nul v) || go map
         end) map
  | _ => false
  end.

(** * Outputs (awa-model/src/output.rs) *)

Definition MAX_OUTPUT_BYTES : Z := 4 * 1024.
Definition ERROR_ENTRY_OUTPUT_KEY : string := "output".

Inductive OutputError : Type :=
  | Invalid (msg : string)
  | TooLarge (size_bytes limit_bytes : Z)
  | Sealed.

(** [json_len] is the length of [serde_json::to_vec]'s compact text, or its
    error message. *)
Definition validate_output (json_len : json -> result string Z) (value : json)
    : result OutputError (option json) :=
  if is_null value then Ok None
  else if contains_nul value
  then Err (Invalid "strings and keys must not contain NUL (\u0000)")
  else match json_len value with
       | Err msg => Err (Invalid msg)
       | Ok size_bytes =>
           if MAX_OUTPUT_BYTES <? size_bytes
           then Err (TooLarge size_bytes MAX_OUTPUT_BYTES)
           else Ok (Some value)
       end.

Definition strip_error_output (entry : json) : json :=
  match entry with
  | JObject map => JObject (map_remove ERROR_ENTRY_OUTPUT_KEY map)
  | _ => entry
  end.
Definition strip_error_outputs (errors : list json) : list json :=
  map strip_error_output errors.

Definition has_output (entry : json) : bool :=
  match get ERROR_ENTRY_OUTPUT_KEY entry with Some _ => true | None => false end.

(** * The queue-storage payload envelope (queue_storage.rs) *)

Definition is_empty_json_object (value : json) : bool :=
  match as_object value with Some [] => true | _ => false end.

Definition is_compact_receipt_completion_metadata (value : json) : bool :=
  match as_object value with
  | None => false
  | Some metadata =>
      forallb (fun key => String.eqb key "_awa_original_priority"
                          || String.eqb key "_awa_original_queue") (map fst metadata)
  end.

Record RuntimePayload : Type := {
  p_metadata : json;
  p_tags : list string;
  p_errors : list json;
  p_progress : option json
}.

Definition default_payload : RuntimePayload :=
  {| p_metadata := JObject []; p_tags := []; p_errors := []; p_progress := None |}.

(** Field decoders of the derived [Deserialize]. *)
Fixpoint strings_of (l : list json) : result AwaError (list string) :=
  match l with
  | [] => Ok []
  | JString s :: l => let? ss := strings_of l in Ok (s :: ss)
  | _ :: _ => Err Serialization
  end.
Definition de_tags (v : json) : result AwaError (list string) :=
  match v with JArray l => strings_of l | _ => Err Serialization end.
Definition de_errors (v : json) : result AwaError (list json) :=
  match v with JArray l => Ok l | _ => Err Serialization end.
Definition de_progress (v : json) : option json :=
  match v with JNull => None | v => Some v end.

Definition de_payload (metadata tags errors progress : option json) : result AwaError RuntimePayload :=
  let? tags := match tags with Some v => de_tags v | None => Ok [] end in
  let? errors := match errors with Some v => de_errors v | None => Ok [] end in
  Ok {| p_metadata := default (JObject []) metadata;
        p_tags := tags;
        p_errors := errors;
        p_progress := progress ≫= de_progress |}.

(** [serde_json::from_value::<RuntimePayload>]: fields by name from an object
    (unknown keys ignored, absent ones defaulted), by position from an array
    of at most four elements. *)
Definition payload_from_value (value : json) : result AwaError RuntimePayload :=
  match value with
  | JObject m =>
      de_payload (map_get "metadata" m) (map_get "tags" m) (map_get "errors" m) (map_get "progress" m)
  | JArray l =>
      let? p := de_payload (l !! 0%nat) (l !! 1%nat) (l !! 2%nat) (l !! 3%nat) in
      if (4 <? Z.of_nat (length l)) then Err Serialization else Ok p
  | _ => Err Serialization
  end.

Definition from_json (value : json) : result AwaError RuntimePayload :=
  if is_null value then Ok default_payload
  else
    let? payload := payload_from_value value in
    if negb (is_object (p_metadata payload))
    then Err (Validation "queue storage payload metadata must be a JSON object")
    else Ok payload.

(** [into_json]: the derived [Serialize] with its [skip_serializing_if]s. *)
Definition into_json (p : RuntimePayload) : json :=
  let m := [] in
  let m := if is_empty_json_object (p_metadata p) then m else map_insert "metadata" (p_metadata p) m in
  let m := match p_tags p with [] => m | tags => map_insert "tags" (JArray (map JString tags)) m end in
  let m := match p_errors p with [] => m | errors => map_insert "errors" (JArray errors) m end in
  let m := match p_progress p with None => m | Some v => map_insert "progress" v m end in
  JObject m.

Definition errors_option (p : RuntimePayload) : option (list json) :=
  match p_errors p with [] => None | errors => Some errors end.

Definition push_error (error : json) (p : RuntimePayload) : RuntimePayload :=
  let errors := if has_output error then strip_error_outputs (p_errors p) else p_errors p in
  {| p_metadata := p_metadata p; p_tags := p_tags p;
     p_errors := errors ++ [error]; p_progress := p_progress p |}.

Definition set_progress (progress : option json) (p : RuntimePayload) : RuntimePayload :=
  {| p_metadata := p_metadata p; p_tags := p_tags p;
     p_errors := p_errors p; p_progress := progress |}.

(** [None] is the [expect] panic on non-object metadata. *)
Definition insert_callback_result (payload : option json) (p : RuntimePayload) : option RuntimePayload :=
  match p_metadata p with
  | JObject metadata =>
      Some {| p_metadata := JObject (map_insert "_awa_callback_result" (default JNull payload) metadata);
              p_tags := p_tags p; p_errors := p_errors p; p_progress := p_progress p |}
  | _ => None
  end.

Definition is_storage_payload_empty (value : json) : bool :=
  is_null value || is_empty_json_object value.
Definition storage_payload (value : json) : option json :=
  if is_storage_payload_empty value then None else Some value.
Definition terminal_storage_payload (value : json) (ready_payload : option json) : option json :=
  if is_storage_payload_empty value
     || match ready_payload with Some ready => json_eqb ready value | None => false end
  then None else Some value.

(** [lifecycle_error] and [lifecycle_entry]; [at_text] is [to_rfc3339()] of
    the current time. *)
Definition i64_number (n : Z) : json :=
  JNumber (if n <? 0 then NegInt n else PosInt n).
Record AttemptError : Type := { ae_message : string; ae_output : option json }.

Definition lifecycle_error (at_text : string) (error : string) (attempt : Z) (terminal : bool) : json :=
  let value := JObject [("at", JString at_text); ("attempt", i64_number attempt); ("error", JString error)] in
  if terminal then set_key "terminal" (JBool true) value else value.

Definition lifecycle_entry (at_text : string) (error : AttemptError) (attempt : Z) (terminal : bool) : json :=
  let value := lifecycle_error at_text (ae_message error) attempt terminal in
  match ae_output error with
  | Some output => set_key ERROR_ENTRY_OUTPUT_KEY output value
  | None => value
  end.

(** * Lemmas *)

(** Induction over values, with the hypothesis for every array element and
    object member. *)
Lemma json_nested_ind (P : json -> Prop) :
  P JNull -> (forall b, P (JBool b)) -> (forall n, P (JNumber n)) -> (forall s, P (JString s)) ->
  (forall l, Forall P l -> P (JArray l)) ->
  (forall m, Forall (fun kv => P (snd kv)) m -> P (JObject m)) ->
  forall v, P v.
Proof.
  intros Hnull Hbool Hnum Hstr Harr Hobj. fix IH 1. intros [|b|n|s|l|m].
  - exact Hnull.
  - apply Hbool.
  - apply Hnum.
  - apply Hstr.
  - apply Harr. induction l as [|v l IHl]; constructor; [apply IH|exact IHl].
  - apply Hobj. induction m as [|[k v] m IHm]; constructor; [apply IH|exact IHm].
Qed.

Lemma json_eqb_refl (v : json) : json_eqb v v = true.
Proof.
  induction v as [|b|n|s|l IH|m IH] using json_nested_ind; simpl.
  - reflexivity.
  - apply Bool.eqb_reflx.
  - destruct n; simpl; rewrite Z.eqb_refl; reflexivity.
  - apply String.eqb_refl.
  - induction IH as [|v l Hv Hl IH]; [reflexivity|]. rewrite Hv. exact IH.
  - induction IH as [|[k v] m Hv Hm IH]; [reflexivity|]. simpl in Hv.
    rewrite String.eqb_refl, Hv. exact IH.
Qed.

Lemma string_compare_refl (s : string) : String.compare s s = Eq.
Proof.
  induction s as [|c s IH]; [reflexivity|]. simpl.
  unfold Ascii.compare. rewrite N.compare_refl. exact IH.
Qed.

Lemma map_get_insert_eq (k : string) (v : json) (m : list (string * json)) :
  map_get k (map_insert k v m) = Some v.
Proof.
  induction m as [|[k' v'] m IH]; simpl; [rewrite String.eqb_refl; reflexivity|].
  destruct (String.compare k k') eqn:Hc; simpl; rewrite ?String.eqb_refl; try reflexivity.
  destruct (String.eqb_spec k k') as [->|]; [|exact IH].
  rewrite string_compare_refl in Hc. discriminate.
Qed.

Lemma map_get_insert_ne (k k' : string) (v : json) (m : list (string * json)) :
  k <> k' -> map_get k' (map_insert k v m) = map_get k' m.
Proof.
  intros Hne. induction m as [|[k0 v0] m IH]; simpl.
  - destruct (String.eqb_spec k' k); [congruence|reflexivity].
  - destruct (String.compare k k0) eqn:Hc; simpl.
    + apply String.compare_eq_iff in Hc. subst k0.
      destruct (String.eqb_spec k' k); [congruence|reflexivity].
    + destruct (String.eqb_spec k' k); [congruence|reflexivity].
    + destruct (String.eqb k' k0); [reflexivity|exact IH].
Qed.

Lemma map_get_remove (k : string) (m : list (string * json)) : map_get k (map_remove k m) = None.
Proof.
  induction m as [|[k' v'] m IH]; [reflexivity|]. unfold map_remove. simpl.
  destruct (String.eqb k k') eqn:He; simpl; [exact IH|]. rewrite He. exact IH.
Qed.

Lemma map_get_remove_ne (k k' : string) (m : list (string * json)) :
  k <> k' -> map_get k' (map_remove k m) = map_get k' m.
Proof.
  intros Hne. induction m as [|[k0 v0] m IH]; [reflexivity|]. unfold map_remove. simpl.
  destruct (String.eqb_spec k k0) as [<-|]; simpl.
  - destruct (String.eqb_spec k' k); [congruence|exact IH].
  - destruct (String.eqb k' k0); [reflexivity|exact IH].
Qed.

#[export] Hint Rewrite map_get_insert_eq map_get_remove : awa_simpl.
#[export] Hint Rewrite map_get_insert_ne map_get_remove_ne using discriminate : awa_simpl.

Lemma strings_of_map (ss : list string) : strings_of (map JString ss) = Ok ss.
Proof. induction ss as [|s ss IH]; [reflexivity|]. simpl. rewrite IH. reflexivity. Qed.

Lemma strip_has_output (e : json) : has_output (strip_error_output e) = false.
Proof.
  destruct e; try reflexivity. unfold has_output, strip_error_output, get.
  rewrite map_get_remove. reflexivity.
Qed.

Lemma filter_strip (l : list json) :
  List.filter has_output (strip_error_outputs l) = [].
Proof.
  induction l as [|e l IH]; [reflexivity|]. unfold strip_error_outputs in *. simpl.
  rewrite strip_has_output. exact IH.
Qed.

Lemma push_error_outputs (e : json) (p : RuntimePayload) :
  List.filter has_output (p_errors (push_error e p)) =
  if has_output e then [e] else List.filter has_output (p_errors p).
Proof.
  unfold push_error. simpl. rewrite List.filter_app. simpl.
  destruct (has_output e) eqn:He; [rewrite filter_strip; reflexivity|].
  rewrite app_nil_r. reflexivity.
Qed.

Lemma reject_null_bytes_ok (v : json) : reject_null_bytes v = Ok tt <-> contains_nul v = false.
Proof.
  induction v as [|b|n|s|l IH|m IH] using json_nested_ind; simpl; try tauto.
  - destruct (contains_char nul s); naive_solver.
  - induction IH as [|v l Hv Hl IH]; [tauto|].
    rewrite rbind_Ok, orb_false_iff, <- Hv, <- IH. split; [|naive_solver].
    intros ([] & H1 & H2). auto.
  - induction IH as [|[k v] m Hv Hm IH]; [tauto|]. simpl in Hv.
    rewrite !orb_false_iff, <- Hv, <- IH. destruct (contains_char nul k); [naive_solver|].
    rewrite rbind_Ok. split; [|naive_solver]. intros ([] & H1 & H2). auto.
Qed.

Lemma reject_null_bytes_validation (v : json) (e : AwaError) :
  reject_null_bytes v = Err e -> exists msg, e = Validation msg.
Proof.
  revert e. induction v as [|b|n|s|l IH|m IH] using json_nested_ind; simpl; try discriminate; intros e.
  - destruct (contains_char nul s); naive_solver.
  - induction IH as [|v l Hv Hl IH]; [discriminate|]. rewrite rbind_Err. naive_solver.
  - induction IH as [|[k v] m Hv Hm IH]; [discriminate|]. simpl in Hv.
    destruct (contains_char nul k); [naive_solver|]. rewrite rbind_Err. naive_solver.
Qed.

Lemma reject_null_bytes_err (v : json) (e : AwaError) :
  reject_null_bytes v = Err e -> contains_nul v = true /\ exists msg, e = Validation msg.
Proof.
  intros He. split; [|eapply reject_null_bytes_validation, He].
  apply not_false_iff_true. rewrite <- reject_null_bytes_ok, He. discriminate.
Qed.

(** * Properties *)

(** The insert-time screen and the output-time screen reject exactly the same
    values, and the first only ever fails with a validation error. *)
Theorem null_screens_agree (v : json) :
  (reject_null_bytes v = Ok tt <-> contains_nul v = false)
  /\ (forall e, reject_null_bytes v = Err e -> contains_nul v = true /\ exists msg, e = Validation msg).
Proof. split; [apply reject_null_bytes_ok|apply reject_null_bytes_err]. Qed.

(** A payload survives storage. *)
Theorem payload_roundtrip (p : RuntimePayload) :
  is_object (p_metadata p) = true -> p_progress p <> Some JNull ->
  from_json (into_json p) = Ok p.
Proof.
  destruct p as [md tags errors progress]. simpl. intros Hm Hp.
  destruct md as [| | | | |[|kv m]]; try discriminate;
    destruct tags, errors, progress as [v|];
    unfold from_json, into_json; simpl; unfold de_payload; simpl; rewrite ?strings_of_map;
    simpl; try reflexivity; destruct v; simpl; congruence.
Qed.

Lemma payload_roundtrip_witness :
  let p := Build_RuntimePayload (JObject [("k", JString "v")]) ["a"; "b"] [JObject [("error", JString "boom")]] (Some (JBool true)) in
  from_json (into_json p) = Ok p.
Proof. apply payload_roundtrip; [reflexivity|discriminate]. Defined.

(** Exactly one error entry keeps an output: the last one pushed with one. *)
Theorem push_errors_keep_last_output (es : list json) (p : RuntimePayload) :
  List.filter has_output (p_errors (fold_left (fun p e => push_error e p) es p)) =
  match last (List.filter has_output es) with
  | Some e => [e]
  | None => List.filter has_output (p_errors p)
  end.
Proof.
  induction es as [|e es IH] using rev_ind; [reflexivity|].
  rewrite fold_left_app, List.filter_app. cbn [fold_left].
  rewrite push_error_outputs, IH. simpl.
  destruct (has_output e); simpl; [rewrite last_snoc; reflexivity|].
  rewrite app_nil_r. reflexivity.
Qed.
