(* ===== verification/Job.v ===== *)
(** The job data model: states, rows, insert options, the uniqueness bitmask
    and key, and insert preparation (awa-model/src/job.rs, kind.rs,
    unique.rs, insert.rs, trace.rs). *)

From S2P Require Import Prelude.
From S2P Require Import Error.
From S2P Require Import Json.

(** * States *)

Inductive JobState : Type :=
  | Scheduled
  | Available
  | Running
  | Completed
  | Retryable
  | Failed
  | Cancelled
  | WaitingExternal.

#[export] Instance JobState_eq_dec : EqDecision JobState.
Proof. solve_decision. Defined.

Definition all_states : list JobState :=
  [Scheduled; Available; Running; Completed; Retryable; Failed; Cancelled; WaitingExternal].

Definition state_from_str (s : string) : result string JobState :=
  if String.eqb s "scheduled" then Ok Scheduled
  else if String.eqb s "available" then Ok Available
  else if String.eqb s "running" then Ok Running
  else if String.eqb s "completed" then Ok Completed
  else if String.eqb s "retryable" then Ok Retryable
  else if String.eqb s "failed" then Ok Failed
  else if String.eqb s "cancelled" then Ok Cancelled
  else if String.eqb s "waiting_external" then Ok WaitingExternal
  else Err (String.append "unknown job state: " s).

Definition as_str (st : JobState) : string :=
  match st with
  | Scheduled => "scheduled"
  | Available => "available"
  | Running => "running"
  | Completed => "completed"
  | Retryable => "retryable"
  | Failed => "failed"
  | Cancelled => "cancelled"
  | WaitingExternal => "waiting_external"
  end.

Definition bit_position (st : JobState) : Z :=
  match st with
  | Scheduled => 0
  | Available => 1
  | Running => 2
  | Completed => 3
  | Retryable => 4
  | Failed => 5
  | Cancelled => 6
  | WaitingExternal => 7
  end.

Definition is_terminal (st : JobState) : bool :=
  match st with Completed | Failed | Cancelled => true | _ => false end.

Definition state_rank (st : JobState) : Z :=
  match st with
  | Running | WaitingExternal => 4
  | Retryable | Scheduled => 3
  | Available => 2
  | Completed | Failed | Cancelled => 1
  end.

(** * Rows

    A row of [awa.jobs].  [j_unique_states] is the [BIT(8)] column as its
    bit string (the [FromRow] struct skips it). *)
Record JobRow : Type := mkJobRow {
  j_id : Z;
  j_kind : string;
  j_queue : string;
  j_args : json;
  j_state : JobState;
  j_priority : Z;
  j_attempt : Z;
  j_run_lease : Z;
  j_max_attempts : Z;
  j_run_at : time;
  j_heartbeat_at : option time;
  j_deadline_at : option time;
  j_attempted_at : option time;
  j_finalized_at : option time;
  j_created_at : time;
  j_errors : option (list json);
  j_metadata : json;
  j_tags : list string;
  j_unique_key : option (list Z);
  j_unique_states : option string;
  j_callback_id : option Z;
  j_callback_timeout_at : option time;
  j_callback_filter : option string;
  j_callback_on_complete : option string;
  j_callback_on_fail : option string;
  j_callback_transform : option string;
  j_progress : option json;
  j_output : option json
}.

(** Column updates of an [UPDATE ... SET]. *)
Definition set_id (v : Z) (r : JobRow) : JobRow :=
  mkJobRow v (j_kind r) (j_queue r) (j_args r) (j_state r) (j_priority r) (j_attempt r)
    (j_run_lease r) (j_max_attempts r) (j_run_at r) (j_heartbeat_at r) (j_deadline_at r)
    (j_attempted_at r) (j_finalized_at r) (j_created_at r) (j_errors r) (j_metadata r)
    (j_tags r) (j_unique_key r) (j_unique_states r) (j_callback_id r) (j_callback_timeout_at r)
    (j_callback_filter r) (j_callback_on_complete r) (j_callback_on_fail r)
    (j_callback_transform r) (j_progress r) (j_output r).
Definition set_state (v : JobState) (r : JobRow) : JobRow :=
  mkJobRow (j_id r) (j_kind r) (j_queue r) (j_args r) v (j_priority r) (j_attempt r)
    (j_run_lease r) (j_max_attempts r) (j_run_at r) (j_heartbeat_at r) (j_deadline_at r)
    (j_attempted_at r) (j_finalized_at r) (j_created_at r) (j_errors r) (j_metadata r)
    (j_tags r) (j_unique_key r) (j_unique_states r) (j_callback_id r) (j_callback_timeout_at r)
    (j_callback_filter r) (j_callback_on_complete r) (j_callback_on_fail r)
    (j_callback_transform r) (j_progress r) (j_output r).
Definition set_priority (v : Z) (r : JobRow) : JobRow :=
  mkJobRow (j_id r) (j_kind r) (j_queue r) (j_args r) (j_state r) v (j_attempt r)
    (j_run_lease r) (j_max_attempts r) (j_run_at r) (j_heartbeat_at r) (j_deadline_at r)
    (j_attempted_at r) (j_finalized_at r) (j_created_at r) (j_errors r) (j_metadata r)
    (j_tags r) (j_unique_key r) (j_unique_states r) (j_callback_id r) (j_callback_timeout_at r)
    (j_callback_filter r) (j_callback_on_complete r) (j_callback_on_fail r)
    (j_callback_transform r) (j_progress r) (j_output r).
Definition set_attempt (v : Z) (r : JobRow) : JobRow :=
  mkJobRow (j_id r) (j_kind r) (j_queue r) (j_args r) (j_state r) (j_priority r) v
    (j_run_lease r) (j_max_attempts r) (j_run_at r) (j_heartbeat_at r) (j_deadline_at r)
    (j_attempted_at r) (j_finalized_at r) (j_created_at r) (j_errors r) (j_metadata r)
    (j_tags r) (j_unique_key r) (j_unique_states r) (j_callback_id r) (j_callback_timeout_at r)
    (j_callback_filter r) (j_callback_on_complete r) (j_callback_on_fail r)
    (j_callback_transform r) (j_progress r) (j_output r).
Definition set_run_lease (v : Z) (r : JobRow) : JobRow :=
  mkJobRow (j_id r) (j_kind r) (j_queue r) (j_args r) (j_state r) (j_priority r) (j_attempt r) v
    (j_max_attempts r) (j_run_at r) (j_heartbeat_at r) (j_deadline_at r) (j_attempted_at r)
    (j_finalized_at r) (j_created_at r) (j_errors r) (j_metadata r) (j_tags r) (j_unique_key r)
    (j_unique_states r) (j_callback_id r) (j_callback_timeout_at r) (j_callback_filter r)
    (j_callback_on_complete r) (j_callback_on_fail r) (j_callback_transform r) (j_progress r)
    (j_output r).
Definition set_run_at (v : time) (r : JobRow) : JobRow :=
  mkJobRow (j_id r) (j_kind r) (j_queue r) (j_args r) (j_state r) (j_priority r) (j_attempt r)
    (j_run_lease r) (j_max_attempts r) v (j_heartbeat_at r) (j_deadline_at r) (j_attempted_at r)
    (j_finalized_at r) (j_created_at r) (j_errors r) (j_metadata r) (j_tags r) (j_unique_key r)
    (j_unique_states r) (j_callback_id r) (j_callback_timeout_at r) (j_callback_filter r)
    (j_callback_on_complete r) (j_callback_on_fail r) (j_callback_transform r) (j_progress r)
    (j_output r).
Definition set_heartbeat_at (v : option time) (r : JobRow) : JobRow :=
  mkJobRow (j_id r) (j_kind r) (j_queue r) (j_args r) (j_state r) (j_priority r) (j_attempt r)
    (j_run_lease r) (j_max_attempts r) (j_run_at r) v (j_deadline_at r) (j_attempted_at r)
    (j_finalized_at r) (j_created_at r) (j_errors r) (j_metadata r) (j_tags r) (j_unique_key r)
    (j_unique_states r) (j_callback_id r) (j_callback_timeout_at r) (j_callback_filter r)
    (j_callback_on_complete r) (j_callback_on_fail r) (j_callback_transform r) (j_progress r)
    (j_output r).
Definition set_deadline_at (v : option time) (r : JobRow) : JobRow :=
  mkJobRow (j_id r) (j_kind r) (j_queue r) (j_args r) (j_state r) (j_priority r) (j_attempt r)
    (j_run_lease r) (j_max_attempts r) (j_run_at r) (j_heartbeat_at r) v (j_attempted_at r)
    (j_finalized_at r) (j_created_at r) (j_errors r) (j_metadata r) (j_tags r) (j_unique_key r)
    (j_unique_states r) (j_callback_id r) (j_callback_timeout_at r) (j_callback_filter r)
    (j_callback_on_complete r) (j_callback_on_fail r) (j_callback_transform r) (j_progress r)
    (j_output r).
Definition set_attempted_at (v : option time) (r : JobRow) : JobRow :=
  mkJobRow (j_id r) (j_kind r) (j_queue r) (j_args r) (j_state r) (j_priority r) (j_attempt r)
    (j_run_lease r) (j_max_attempts r) (j_run_at r) (j_heartbeat_at r) (j_deadline_at r) v
    (j_finalized_at r) (j_created_at r) (j_errors r) (j_metadata r) (j_tags r) (j_unique_key r)
    (j_unique_states r) (j_callback_id r) (j_callback_timeout_at r) (j_callback_filter r)
    (j_callback_on_complete r) (j_callback_on_fail r) (j_callback_transform r) (j_progress r)
    (j_output r).
Definition set_finalized_at (v : option time) (r : JobRow) : JobRow :=
  mkJobRow (j_id r) (j_kind r) (j_queue r) (j_args r) (j_state r) (j_priority r) (j_attempt r)
    (j_run_lease r) (j_max_attempts r) (j_run_at r) (j_heartbeat_at r) (j_deadline_at r)
    (j_attempted_at r) v (j_created_at r) (j_errors r) (j_metadata r) (j_tags r)
    (j_unique_key r) (j_unique_states r) (j_callback_id r) (j_callback_timeout_at r)
    (j_callback_filter r) (j_callback_on_complete r) (j_callback_on_fail r)
    (j_callback_transform r) (j_progress r) (j_output r).
Definition set_errors (v : option (list json)) (r : JobRow) : JobRow :=
  mkJobRow (j_id r) (j_kind r) (j_queue r) (j_args r) (j_state r) (j_priority r) (j_attempt r)
    (j_run_lease r) (j_max_attempts r) (j_run_at r) (j_heartbeat_at r) (j_deadline_at r)
    (j_attempted_at r) (j_finalized_at r) (j_created_at r) v (j_metadata r) (j_tags r)
    (j_unique_key r) (j_unique_states r) (j_callback_id r) (j_callback_timeout_at r)
    (j_callback_filter r) (j_callback_on_complete r) (j_callback_on_fail r)
    (j_callback_transform r) (j_progress r) (j_output r).
Definition set_metadata (v : json) (r : JobRow) : JobRow :=
  mkJobRow (j_id r) (j_kind r) (j_queue r) (j_args r) (j_state r) (j_priority r) (j_attempt r)
    (j_run_lease r) (j_max_attempts r) (j_run_at r) (j_heartbeat_at r) (j_deadline_at r)
    (j_attempted_at r) (j_finalized_at r) (j_created_at r) (j_errors r) v (j_tags r)
    (j_unique_key r) (j_unique_states r) (j_callback_id r) (j_callback_timeout_at r)
    (j_callback_filter r) (j_callback_on_complete r) (j_callback_on_fail r)
    (j_callback_transform r) (j_progress r) (j_output r).
Definition set_progress (v : option json) (r : JobRow) : JobRow :=
  mkJobRow (j_id r) (j_kind r) (j_queue r) (j_args r) (j_state r) (j_priority r) (j_attempt r)
    (j_run_lease r) (j_max_attempts r) (j_run_at r) (j_heartbeat_at r) (j_deadline_at r)
    (j_attempted_at r) (j_finalized_at r) (j_created_at r) (j_errors r) (j_metadata r)
    (j_tags r) (j_unique_key r) (j_unique_states r) (j_callback_id r) (j_callback_timeout_at r)
    (j_callback_filter r) (j_callback_on_complete r) (j_callback_on_fail r)
    (j_callback_transform r) v (j_output r).
Definition set_output (v : option json) (r : JobRow) : JobRow :=
  mkJobRow (j_id r) (j_kind r) (j_queue r) (j_args r) (j_state r) (j_priority r) (j_attempt r)
    (j_run_lease r) (j_max_attempts r) (j_run_at r) (j_heartbeat_at r) (j_deadline_at r)
    (j_attempted_at r) (j_finalized_at r) (j_created_at r) (j_errors r) (j_metadata r)
    (j_tags r) (j_unique_key r) (j_unique_states r) (j_callback_id r) (j_callback_timeout_at r)
    (j_callback_filter r) (j_callback_on_complete r) (j_callback_on_fail r)
    (j_callback_transform r) (j_progress r) v.
(** The callback columns, set together. *)
Definition set_callback (id timeout_at : option Z) (r : JobRow) : JobRow :=
  mkJobRow (j_id r) (j_kind r) (j_queue r) (j_args r) (j_state r) (j_priority r) (j_attempt r)
    (j_run_lease r) (j_max_attempts r) (j_run_at r) (j_heartbeat_at r) (j_deadline_at r)
    (j_attempted_at r) (j_finalized_at r) (j_created_at r) (j_errors r) (j_metadata r)
    (j_tags r) (j_unique_key r) (j_unique_states r) id timeout_at None None None None
    (j_progress r) (j_output r).
Definition set_callback_timeout_at (v : option time) (r : JobRow) : JobRow :=
  mkJobRow (j_id r) (j_kind r) (j_queue r) (j_args r) (j_state r) (j_priority r) (j_attempt r)
    (j_run_lease r) (j_max_attempts r) (j_run_at r) (j_heartbeat_at r) (j_deadline_at r)
    (j_attempted_at r) (j_finalized_at r) (j_created_at r) (j_errors r) (j_metadata r)
    (j_tags r) (j_unique_key r) (j_unique_states r) (j_callback_id r) v (j_callback_filter r)
    (j_callback_on_complete r) (j_callback_on_fail r) (j_callback_transform r) (j_progress r)
    (j_output r).
Definition clear_callback (r : JobRow) : JobRow := set_callback None None r.

Definition transition_timestamp (job : JobRow) : time :=
  match j_finalized_at job, j_heartbeat_at job, j_deadline_at job, j_attempted_at job with
  | Some t, _, _, _ => t
  | None, Some t, _, _ => t
  | None, None, Some t, _ => t
  | None, None, None, Some t => t
  | None, None, None, None => j_run_at job
  end.

(** The value [error_output_as] decodes: the latest entry with a non-null
    output. *)
Fixpoint find_map {A B} (f : A -> option B) (l : list A) : option B :=
  match l with
  | [] => None
  | a :: l => match f a with Some b => Some b | None => find_map f l end
  end.
Definition error_output (job : JobRow) : option json :=
  find_map (fun entry =>
              match get ERROR_ENTRY_OUTPUT_KEY entry with
              | Some output => if is_null output then None else Some output
              | None => None
              end) (rev (default [] (j_errors job))).

(** * Kinds (kind.rs), over ASCII names *)

Definition is_uppercase (c : ascii) : bool := (65 <=? ascii_code c) && (ascii_code c <=? 90).
Definition is_lowercase (c : ascii) : bool := (97 <=? ascii_code c) && (ascii_code c <=? 122).
Definition is_ascii_digit (c : ascii) : bool := (48 <=? ascii_code c) && (ascii_code c <=? 57).
Definition to_lowercase (c : ascii) : ascii :=
  if is_uppercase c then ascii_of_N (Z.to_N (ascii_code c + 32)) else c.

(** The loop of [camel_to_snake]; [prev] is [chars[i - 1]], absent at 0. *)
Fixpoint camel_to_snake_from (prev : option ascii) (chars : list ascii) : list ascii :=
  match chars with
  | [] => []
  | current :: rest =>
      (if is_uppercase current
       then
         let needs_separator :=
           match prev with
           | None => false
           | Some p =>
               (is_lowercase p || is_ascii_digit p)
               || (is_uppercase p
                   && match rest with next :: _ => is_lowercase next | [] => false end)
           end in
         (if needs_separator then ["_"%char] else []) ++ [to_lowercase current]
       else [current])
      ++ camel_to_snake_from (Some current) rest
  end.
Definition camel_to_snake (name : string) : string :=
  string_of_list_ascii (camel_to_snake_from None (list_ascii_of_string name)).

(** * Insert options *)

Record UniqueOpts : Type := {
  by_queue : bool;
  by_args : bool;
  by_period : option Z;
  states : Z
}.
Definition default_unique_opts : UniqueOpts :=
  {| by_queue := false; by_args := true; by_period := None; states := 31 |}.

Record InsertOpts : Type := {
  o_queue : string;
  o_priority : Z;
  o_max_attempts : Z;
  o_run_at : option time;
  o_deadline_duration : option Z;
  o_metadata : json;
  o_tags : list string;
  o_unique : option UniqueOpts;
  o_ordering_key : option (list Z)
}.
Definition default_insert_opts : InsertOpts :=
  {| o_queue := "default"; o_priority := 2; o_max_attempts := 25; o_run_at := None;
     o_deadline_duration := None; o_metadata := JObject []; o_tags := [];
     o_unique := None; o_ordering_key := None |}.

Record PreparedJobInsert : Type := {
  pi_kind : string;
  pi_queue : string;
  pi_args : json;
  pi_state : JobState;
  pi_priority : Z;
  pi_max_attempts : Z;
  pi_run_at : option time;
  pi_metadata : json;
  pi_tags : list string;
  pi_unique_key : option (list Z);
  pi_unique_states : option string;
  pi_ordering_key : option (list Z)
}.

(** [i64::to_le_bytes]. *)
Definition to_le_bytes (x : Z) : list Z :=
  map (fun i => Z.land (Z.shiftr (x mod 2 ^ 64) (8 * i)) 255) [0; 1; 2; 3; 4; 5; 6; 7].

(** The text [unique_states] is built as: bit [i] of the mask at position
    [i] from the left. *)
Definition unique_states_string (mask : Z) : string :=
  string_of_list_ascii
    (map (fun i => if Z.land mask (Z.shiftl 1 i) =? 0 then "0"%char else "1"%char)
         [0; 1; 2; 3; 4; 5; 6; 7]).

(** [unique_state_claims] (queue_storage.rs). *)
Definition unique_state_claims (unique_states : option string) (st : JobState) : bool :=
  match unique_states with
  | None => false
  | Some bitmask =>
      match String.get (Z.to_nat (bit_position st)) bitmask with
      | Some bit => Ascii.eqb bit "1"%char
      | None => false
      end
  end.

(** [awa.job_state_in_bitmask(bitmask, state)] (v001_canonical_schema.sql):
    [get_bit] counts from the left. *)
Definition get_bit (bitmask : string) (n : nat) : Z :=
  match String.get n bitmask with
  | Some c => if Ascii.eqb c "1"%char then 1 else 0
  | None => 0
  end.
Definition job_state_in_bitmask (bitmask : string) (st : JobState) : bool :=
  match st with
  | Scheduled => get_bit bitmask 0 =? 1
  | Available => get_bit bitmask 1 =? 1
  | Running => get_bit bitmask 2 =? 1
  | Completed => get_bit bitmask 3 =? 1
  | Retryable => get_bit bitmask 4 =? 1
  | Failed => get_bit bitmask 5 =? 1
  | Cancelled => get_bit bitmask 6 =? 1
  | WaitingExternal => get_bit bitmask 7 =? 1
  end.

Definition TRACEPARENT_METADATA_KEY : string := "awa:traceparent".

Section Insert.
  (** [blake3] maps the hashed bytes to its 32-byte digest, [to_vec] is
      [serde_json::to_vec], [ambient] the traceparent of the current span
      ([None] also when capture is disabled). *)
  Variable blake3 : list Z -> list Z.
  Variable to_vec : json -> list Z.
  Variable ambient : option string.

Definition unique_preimage (kind : string) (queue : option string) (args : option json)
    (period_bucket : option Z) : list Z :=
  string_bytes kind
  ++ match queue with Some q => 0 :: string_bytes q | None => [] end
  ++ match args with Some a => 0 :: to_vec a | None => [] end
  ++ match period_bucket with Some b => 0 :: to_le_bytes b | None => [] end.

Definition compute_unique_key (kind : string) (queue : option string) (args : option json)
    (period_bucket : option Z) : list Z :=
  take 16 (blake3 (unique_preimage kind queue args period_bucket)).

Definition compute_unique_fields (kind : string) (args : json) (opts : InsertOpts)
    : option (list Z) * option string :=
  (option_map (fun u =>
     compute_unique_key kind
       (if by_queue u then Some (o_queue opts) else None)
       (if by_args u then Some args else None)
       (by_period u)) (o_unique opts),
   option_map (fun u => unique_states_string (states u)) (o_unique opts)).

Definition inject_traceparent (metadata : json) : json :=
  match metadata with
  | JObject m =>
      if negb (map_contains_key TRACEPARENT_METADATA_KEY m)
      then match ambient with
           | Some tp => JObject (map_insert TRACEPARENT_METADATA_KEY (JString tp) m)
           | None => metadata
           end
      else metadata
  | _ => metadata
  end.

Definition prepare_raw_job_insert (kind : string) (args : json) (opts : InsertOpts)
    : result AwaError PreparedJobInsert :=
  let metadata := inject_traceparent (o_metadata opts) in
  check? reject_null_bytes args;
  check? reject_null_bytes metadata;
  let state := match o_run_at opts with Some _ => Scheduled | None => Available end in
  let '(unique_key, unique_states) := compute_unique_fields kind args opts in
  Ok {| pi_kind := kind; pi_queue := o_queue opts; pi_args := args; pi_state := state;
        pi_priority := o_priority opts; pi_max_attempts := o_max_attempts opts;
        pi_run_at := o_run_at opts; pi_metadata := metadata; pi_tags := o_tags opts;
        pi_unique_key := unique_key; pi_unique_states := unique_states;
        pi_ordering_key := o_ordering_key opts |}.

(** [precompute_rows]: the first failing row aborts the batch. *)
Fixpoint precompute_rows (jobs : list (string * json * InsertOpts))
    : result AwaError (list PreparedJobInsert) :=
  match jobs with
  | [] => Ok []
  | (kind, args, opts) :: jobs =>
      let? row := prepare_raw_job_insert kind args opts in
      let? rows := precompute_rows jobs in
      Ok (row :: rows)
  end.
End Insert.

(** * Lemmas *)

Lemma land_shiftl_1 (mask i : Z) : 0 <= i ->
  (Z.land mask (Z.shiftl 1 i) =? 0) = negb (Z.testbit mask i).
Proof.
  intros Hi. rewrite Z.shiftl_1_l. destruct (Z.testbit mask i) eqn:Hb; simpl.
  - apply Z.eqb_neq. intros H0. assert (Z.testbit (Z.land mask (2 ^ i)) i = true) as Ht.
    { rewrite Z.land_spec, Hb, Z.pow2_bits_true by lia. reflexivity. }
    rewrite H0, Z.bits_0 in Ht. discriminate.
  - apply Z.eqb_eq, Z.bits_inj'. intros n Hn.
    rewrite Z.land_spec, Z.bits_0, Z.pow2_bits_eqb by lia.
    destruct (Z.eqb_spec i n); subst; rewrite ?Hb, ?andb_false_r; reflexivity.
Qed.

Lemma unique_states_string_get (mask : Z) (st : JobState) :
  String.get (Z.to_nat (bit_position st)) (unique_states_string mask) =
  Some (if Z.testbit mask (bit_position st) then "1"%char else "0"%char).
Proof.
  unfold unique_states_string. cbn [map]. rewrite !land_shiftl_1 by lia.
  destruct st; cbn [bit_position];
    repeat match goal with |- context [Z.testbit mask ?i] => destruct (Z.testbit mask i) end;
    reflexivity.
Qed.

Lemma get_bit_claims (bitmask : string) (st : JobState) :
  job_state_in_bitmask bitmask st = unique_state_claims (Some bitmask) st.
Proof.
  destruct st; unfold unique_state_claims, job_state_in_bitmask, get_bit, bit_position;
    match goal with |- context [Z.to_nat ?z] =>
      let v := eval vm_compute in (Z.to_nat z) in change (Z.to_nat z) with v end;
    destruct (String.get _ bitmask) as [c|]; try destruct (Ascii.eqb c "1"); reflexivity.
Qed.

Lemma bitmask_testbit (mask : Z) (st : JobState) :
  unique_state_claims (Some (unique_states_string mask)) st = Z.testbit mask (bit_position st).
Proof.
  unfold unique_state_claims. rewrite unique_states_string_get.
  destruct (Z.testbit mask (bit_position st)); reflexivity.
Qed.

(** Splitting at the first separator: two NUL-free prefixes followed by a NUL
    are equal when the whole texts are. *)
Lemma split_at_zero (l1 l2 r1 r2 : list Z) :
  Forall (fun b => b <> 0) l1 -> Forall (fun b => b <> 0) l2 ->
  l1 ++ 0 :: r1 = l2 ++ 0 :: r2 -> l1 = l2 /\ r1 = r2.
Proof.
  intros H1. revert l2. induction H1 as [|x l1 Hx H1 IH]; intros l2 H2 Heq;
    destruct H2 as [|y l2 Hy H2]; cbn in Heq.
  - split; congruence.
  - congruence.
  - congruence.
  - injection Heq as Hh Ht. destruct (IH l2 H2 Ht). split; congruence.
Qed.

Lemma to_le_bytes_length (x : Z) : length (to_le_bytes x) = 8%nat.
Proof. reflexivity. Qed.

(** Reading the bytes back gives the pattern. *)
Fixpoint from_le_bytes (bs : list Z) : Z :=
  match bs with [] => 0 | b :: bs => b + 256 * from_le_bytes bs end.

Lemma from_to_le_bytes (x : Z) : from_le_bytes (to_le_bytes x) = x mod 2 ^ 64.
Proof.
  unfold to_le_bytes. cbn [map]. set (y := x mod 2 ^ 64).
  assert (0 <= y < 2 ^ 64) as Hy by (apply Z.mod_pos_bound; lia).
  change 255 with (Z.ones 8). rewrite !Z.land_ones, !Z.shiftr_div_pow2 by lia.
  cbn [from_le_bytes]. clearbody y. change (2 ^ 8) with 256.
  repeat match goal with |- context [2 ^ (8 * ?i)] =>
    let v := eval vm_compute in (2 ^ (8 * i)) in change (2 ^ (8 * i)) with v end.
  Z.div_mod_to_equations. lia.
Qed.

Lemma to_le_bytes_inj (x y : Z) :
  - 2 ^ 63 <= x < 2 ^ 63 -> - 2 ^ 63 <= y < 2 ^ 63 -> to_le_bytes x = to_le_bytes y -> x = y.
Proof.
  intros Hx Hy H%(f_equal from_le_bytes). rewrite !from_to_le_bytes in H.
  Z.div_mod_to_equations. lia.
Qed.

(** * Properties *)

(** The mask a producer asks for is the mask both engines test: the bit
    string built at insert time claims a state exactly when its bit is set in
    [states], whether read by the Rust test or by the SQL function. *)
Theorem unique_mask_faithful (mask : Z) (st : JobState) :
  unique_state_claims (Some (unique_states_string mask)) st = Z.testbit mask (bit_position st)
  /\ job_state_in_bitmask (unique_states_string mask) st = Z.testbit mask (bit_position st).
Proof. rewrite get_bit_claims, bitmask_testbit. split; reflexivity. Qed.

Lemma ascii_code_inj (a b : ascii) : ascii_code a = ascii_code b -> a = b.
Proof.
  unfold ascii_code. intros H%N2Z.inj. rewrite <- (ascii_N_embedding a), <- (ascii_N_embedding b).
  congruence.
Qed.

Lemma string_bytes_inj (s s' : string) : string_bytes s = string_bytes s' -> s = s'.
Proof.
  unfold string_bytes. revert s'. induction s as [|c s IH]; intros [|c' s']; simpl; try discriminate.
  - reflexivity.
  - intros H. injection H as Hc Hs. apply ascii_code_inj in Hc. apply IH in Hs. congruence.
Qed.

Lemma string_bytes_nul_free (s : string) :
  contains_char nul s = false -> Forall (fun b => b <> 0) (string_bytes s).
Proof.
  induction s as [|c s IH]; [constructor|]. cbn [contains_char]. intros [Hc Hs]%orb_false_iff.
  constructor; [|apply IH, Hs]. intros H0. apply Ascii.eqb_neq in Hc. apply Hc.
  symmetry. apply ascii_code_inj. exact H0.
Qed.

(** The hashed text of a unique key, as its parts. *)
Definition sep_part (p : option (list Z)) : list Z :=
  match p with Some l => 0 :: l | None => [] end.

Lemma sep_parts_inj (k k' : list Z) (p p' : option (list Z)) (r r' : list Z) :
  Forall (fun b => b <> 0) k -> Forall (fun b => b <> 0) k' ->
  (is_Some p <-> is_Some p') -> (exists l, r = sep_part l) -> (exists l, r' = sep_part l) ->
  (r = [] <-> r' = []) ->
  (forall l, p = Some l -> Forall (fun b => b <> 0) l) ->
  (forall l, p' = Some l -> Forall (fun b => b <> 0) l) ->
  k ++ sep_part p ++ r = k' ++ sep_part p' ++ r' -> k = k' /\ p = p' /\ r = r'.
Proof.
  intros Hk Hk' Hs [o ->] [o' ->] Hr Hp Hp' Heq.
  destruct p as [l|], p' as [l'|]; simpl in *.
  2: { destruct Hs as [Hs _]. destruct (Hs (mk_is_Some _ _ eq_refl)). congruence. }
  2: { destruct Hs as [_ Hs]. destruct (Hs (mk_is_Some _ _ eq_refl)). congruence. }
  - apply split_at_zero in Heq as [-> Heq]; [|assumption..].
    specialize (Hp _ eq_refl). specialize (Hp' _ eq_refl).
    destruct o as [l0|], o' as [l0'|]; simpl in *.
    + apply split_at_zero in Heq as [-> ->]; auto.
    + destruct Hr as [_ Hr]. discriminate Hr. reflexivity.
    + destruct Hr as [Hr _]. discriminate Hr. reflexivity.
    + rewrite !app_nil_r in Heq. subst. auto.
  - destruct o as [l0|], o' as [l0'|]; simpl in *.
    + apply split_at_zero in Heq as [-> ->]; auto.
    + destruct Hr as [_ Hr]. discriminate Hr. reflexivity.
    + destruct Hr as [Hr _]. discriminate Hr. reflexivity.
    + rewrite !app_nil_r in Heq. subst. auto.
Qed.

Lemma sep_part_app (p q : option (list Z)) :
  exists l, sep_part p ++ sep_part q = sep_part l.
Proof. destruct p as [l|]; [exists (Some (l ++ sep_part q))|exists q]; reflexivity. Qed.

Lemma sep_part_nil (p p' q q' : option (list Z)) :
  (is_Some p <-> is_Some p') -> (is_Some q <-> is_Some q') ->
  (sep_part p ++ sep_part q = [] <-> sep_part p' ++ sep_part q' = []).
Proof.
  intros Hp Hq. destruct p, p', q, q'; simpl; try tauto;
    (destruct Hp as [H1 H2], Hq as [H3 H4]; split; intros; try discriminate;
     repeat match goal with H : is_Some (Some ?x) -> _ |- _ =>
       specialize (H (mk_is_Some _ _ eq_refl)); destruct H; try discriminate end).
Qed.

Lemma unique_preimage_parts (to_vec : json -> list Z) kind queue args b :
  unique_preimage to_vec kind queue args b =
  string_bytes kind ++ sep_part (string_bytes <$> queue)
    ++ (sep_part (to_vec <$> args) ++ sep_part (to_le_bytes <$> b)).
Proof. destruct queue, args, b; reflexivity. Qed.

Lemma fmap_is_Some_iff {A B} (f : A -> B) (p p' : option A) :
  (is_Some p <-> is_Some p') -> (is_Some (f <$> p) <-> is_Some (f <$> p')).
Proof. rewrite !fmap_is_Some. tauto. Qed.

Lemma Forall_option_list {A} (P : A -> Prop) (p : option A) :
  Forall P (option_list p) <-> forall x, p = Some x -> P x.
Proof.
  destruct p as [x|]; simpl.
  - rewrite Forall_singleton. naive_solver.
  - split; [discriminate|constructor].
Qed.

Lemma fmap_all {A B} (f : A -> B) (P : B -> Prop) (p : option A) :
  (forall x, p = Some x -> P (f x)) -> forall l, f <$> p = Some l -> P l.
Proof. destruct p; naive_solver. Qed.

(** Within one choice of optional parts, the text hashed into a unique key
    determines the kind, the queue, the serialized args and the period bucket
    (kinds and queues without NUL, JSON text without NUL, buckets in [i64]). *)
Theorem unique_preimage_injective (to_vec : json -> list Z) (kind kind' : string)
    (queue queue' : option string) (args args' : option json) (b b' : option Z) :
  Forall (fun s => contains_char nul s = false) ([kind; kind'] ++ option_list queue ++ option_list queue') ->
  Forall (fun v => Forall (fun b => b <> 0) (to_vec v)) (option_list args ++ option_list args') ->
  Forall (fun x => - 2 ^ 63 <= x < 2 ^ 63) (option_list b ++ option_list b') ->
  (is_Some queue <-> is_Some queue') -> (is_Some args <-> is_Some args') -> (is_Some b <-> is_Some b') ->
  unique_preimage to_vec kind queue args b = unique_preimage to_vec kind' queue' args' b' ->
  kind = kind' /\ queue = queue' /\ to_vec <$> args = to_vec <$> args' /\ b = b'.
Proof.
  rewrite !Forall_app, !Forall_cons, !Forall_option_list, !unique_preimage_parts.
  intros ((Hk & Hk' & _) & Hq & Hq') [Ha Ha'] [Hb Hb'] Sq Sa Sb Heq.
  apply sep_parts_inj in Heq as (Hkind & Hqueue & Heq).
  - apply (sep_parts_inj [] [] _ _ _ _) in Heq as (_ & Hargs & Hbs).
    + split; [apply string_bytes_inj, Hkind|]. split; [|split; [exact Hargs|]].
      * destruct queue, queue'; simplify_eq/=; try reflexivity.
        f_equal. apply string_bytes_inj. congruence.
      * destruct b as [x|], b' as [y|]; [|discriminate Hbs..|reflexivity].
        f_equal. apply to_le_bytes_inj; auto. exact (f_equal tail Hbs).
    + constructor.
    + constructor.
    + apply fmap_is_Some_iff, Sa.
    + eauto.
    + eauto.
    + destruct b, b'; simpl; naive_solver.
    + apply fmap_all, Ha.
    + apply fmap_all, Ha'.
  - apply string_bytes_nul_free, Hk.
  - apply string_bytes_nul_free, Hk'.
  - apply fmap_is_Some_iff, Sq.
  - apply sep_part_app.
  - apply sep_part_app.
  - apply sep_part_nil; apply fmap_is_Some_iff; assumption.
  - apply fmap_all. intros x Hx. apply string_bytes_nul_free, Hq, Hx.
  - apply fmap_all. intros x Hx. apply string_bytes_nul_free, Hq', Hx.
Qed.

(** Moving a letter from the kind to the queue changes the hashed text. *)
Lemma unique_preimage_injective_witness :
  unique_preimage (fun _ => [123; 125]) "ab" (Some "c") (Some JNull) (Some 5)
  <> unique_preimage (fun _ => [123; 125]) "a" (Some "bc") (Some JNull) (Some 5).
Proof.
  intros H. apply unique_preimage_injective in H as [H _]; [discriminate H|..]; simpl;
    repeat (constructor || lia || reflexivity || discriminate); eauto.
Defined.

Lemma ascii_code_of_N (n : N) : (n < 256)%N -> ascii_code (ascii_of_N n) = Z.of_N n.
Proof. intros H. unfold ascii_code. rewrite N_ascii_embedding by exact H. reflexivity. Qed.

Lemma to_lowercase_not_upper (c : ascii) : is_uppercase (to_lowercase c) = false.
Proof.
  unfold to_lowercase. destruct (is_uppercase c) eqn:Hc; [|exact Hc].
  unfold is_uppercase in *. apply andb_true_iff in Hc as [H1%Z.leb_le H2%Z.leb_le].
  rewrite ascii_code_of_N by lia.
  apply andb_false_iff. right. apply Z.leb_gt. lia.
Qed.

Lemma camel_to_snake_from_fixed (l : list ascii) :
  Forall (fun c => is_uppercase c = false) l -> forall prev, camel_to_snake_from prev l = l.
Proof.
  induction 1 as [|c l Hc Hl IH]; intros prev; [reflexivity|].
  cbn [camel_to_snake_from]. rewrite Hc, IH. reflexivity.
Qed.

Lemma camel_to_snake_from_lower (l : list ascii) (prev : option ascii) :
  Forall (fun c => is_uppercase c = false) (camel_to_snake_from prev l).
Proof.
  revert prev. induction l as [|c l IH]; intros prev; [constructor|].
  cbn [camel_to_snake_from]. apply Forall_app. split; [|apply IH].
  destruct (is_uppercase c) eqn:Hc; [|constructor; [exact Hc|constructor]].
  apply Forall_app. split; [case_match_goal; repeat constructor|].
  constructor; [apply to_lowercase_not_upper|constructor].
Qed.

(** A derived kind has no upper-case letter, and deriving it again changes
    nothing. *)
Theorem camel_to_snake_normal (name : string) :
  Forall (fun c => is_uppercase c = false) (list_ascii_of_string (camel_to_snake name))
  /\ camel_to_snake (camel_to_snake name) = camel_to_snake name.
Proof.
  unfold camel_to_snake. rewrite !list_ascii_of_string_of_list_ascii. split.
  - apply camel_to_snake_from_lower.
  - rewrite camel_to_snake_from_fixed; [reflexivity|]. apply camel_to_snake_from_lower.
Qed.

Lemma contains_nul_members (m : list (string * json)) :
  contains_nul (JObject m) = false <->
  Forall (fun kv => contains_char nul (fst kv) = false /\ contains_nul (snd kv) = false) m.
Proof.
  cbn [contains_nul]. induction m as [|[k v] m IH].
  - split; [constructor|reflexivity].
  - rewrite Forall_cons, !orb_false_iff, IH. reflexivity.
Qed.

Lemma map_insert_Forall (P : string * json -> Prop) (k : string) (v : json) (m : list (string * json)) :
  P (k, v) -> Forall P m -> Forall P (map_insert k v m).
Proof.
  intros Hkv. induction 1 as [|[k' v'] m Hp Hm IH]; cbn [map_insert]; [auto|].
  destruct (String.compare k k'); auto.
Qed.

Lemma map_insert_Forall_inv (P : string * json -> Prop) (k : string) (v : json) (m : list (string * json)) :
  map_get k m = None -> Forall P (map_insert k v m) -> Forall P m.
Proof.
  induction m as [|[k' v'] m IH]; cbn [map_insert map_get]; [intros; constructor|].
  destruct (String.eqb_spec k k') as [->|Hne]; [discriminate|]. intros Hg.
  destruct (String.compare k k') eqn:Hc; rewrite ?Forall_cons; try tauto.
  apply String.compare_eq_iff in Hc. contradiction.
Qed.

Lemma inject_traceparent_nul (ambient : option string) (md : json) :
  (forall tp, ambient = Some tp -> contains_char nul tp = false) ->
  contains_nul (inject_traceparent ambient md) = contains_nul md.
Proof.
  intros Ha. destruct md as [| | | | |m]; try reflexivity. cbn [inject_traceparent].
  unfold map_contains_key. destruct (map_get TRACEPARENT_METADATA_KEY m) eqn:Hg; [reflexivity|].
  destruct ambient as [tp|]; [|reflexivity]. simpl negb. cbv iota.
  apply eq_true_iff_eq. rewrite <- !not_false_iff_true, !contains_nul_members.
  split; intros Hn H; apply Hn.
  - apply map_insert_Forall; [|exact H]. split; [reflexivity|]. apply Ha, eq_refl.
  - eapply map_insert_Forall_inv; eassumption.
Qed.

(** Insert preparation fails exactly on a NUL in the args or the caller's
    metadata, and otherwise carries every option into the row: deferred
    exactly when [run_at] is given, keyed exactly when uniqueness is asked
    for, a caller's [awa:traceparent] untouched. *)
Theorem prepare_raw_job_insert_spec (blake3 : list Z -> list Z) (to_vec : json -> list Z)
    (ambient : option string) (kind : string) (args : json) (opts : InsertOpts) :
  (forall tp, ambient = Some tp -> contains_char nul tp = false) ->
  match prepare_raw_job_insert blake3 to_vec ambient kind args opts with
  | Ok row =>
      contains_nul args = false /\ contains_nul (o_metadata opts) = false
      /\ pi_state row = match o_run_at opts with Some _ => Scheduled | None => Available end
      /\ (is_Some (pi_unique_key row) <-> is_Some (o_unique opts))
      /\ (forall u st, o_unique opts = Some u ->
           unique_state_claims (pi_unique_states row) st = Z.testbit (states u) (bit_position st))
      /\ (forall tp, get TRACEPARENT_METADATA_KEY (o_metadata opts) = Some tp ->
           pi_metadata row = o_metadata opts)
  | Err e =>
      (contains_nul args = true \/ contains_nul (o_metadata opts) = true)
      /\ exists msg, e = Validation msg
  end.
Proof.
  intros Ha. unfold prepare_raw_job_insert.
  destruct (reject_null_bytes args) as [[]|e] eqn:H1; cbn [rbind].
  2: { apply reject_null_bytes_err in H1. tauto. }
  rewrite reject_null_bytes_ok in H1.
  destruct (reject_null_bytes (inject_traceparent ambient (o_metadata opts))) as [[]|e] eqn:H2; cbn [rbind].
  2: { apply reject_null_bytes_err in H2. rewrite inject_traceparent_nul in H2 by exact Ha. tauto. }
  rewrite reject_null_bytes_ok, inject_traceparent_nul in H2 by exact Ha.
  cbn. repeat split; try assumption.
  - destruct (o_unique opts); simpl; [eauto|intros [? ?]; discriminate].
  - destruct (o_unique opts); simpl; [eauto|intros [? ?]; discriminate].
  - intros u st Hu. rewrite Hu. cbn [option_map]. apply bitmask_testbit.
  - intros tp Htp. destruct (o_metadata opts) as [| | | | |m]; try reflexivity.
    cbn [inject_traceparent]. unfold map_contains_key. cbn [get] in Htp. rewrite Htp. reflexivity.
Qed.

Lemma prepare_raw_job_insert_spec_witness :
  match prepare_raw_job_insert (fun _ => []) (fun _ => []) (Some "00-a-b-01") "k" JNull default_insert_opts with
  | Ok row => pi_state row = Available
  | Err _ => False
  end.
Proof.
  pose proof (prepare_raw_job_insert_spec (fun _ => []) (fun _ => []) (Some "00-a-b-01") "k" JNull default_insert_opts
                ltac:(intros ? [= <-]; reflexivity)) as H.
  destruct (prepare_raw_job_insert _ _ _ _ _ _) as [row|e] eqn:E; [apply H|]. vm_compute in E. discriminate E.
Defined.
