(* ===== verification/Progress.v ===== *)
(** Progress of an in-flight attempt: the buffer a handler writes
    ([ProgressState]), the sharded registry the heartbeat walks
    ([InFlightRegistry], awa-worker/src/runtime.rs), and the two ways the
    buffer reaches the job row: the heartbeat's batched write
    (awa-worker/src/heartbeat.rs) and the handler's explicit
    [flush_progress] (awa-worker/src/context.rs). *)

From S2P Require Import Prelude.
From S2P Require Import Json.

(** * The progress buffer *)

(** Generations are [u64] counters of handler-side mutations. *)
Record ProgressState : Type := mkProgress {
  latest : option json;
  generation : Z;
  acked_generation : Z;
  in_flight : option (Z * json)
}.

Definition progress_new (initial : option json) : ProgressState := mkProgress initial 0 0 None.

Definition has_pending (p : ProgressState) : bool := acked_generation p <? generation p.

Definition set_progress (percent : Z) (message : option string) (p : ProgressState) : ProgressState :=
  let percent := Z.min percent 100 in
  let existing_metadata := match latest p with Some v => get "metadata" v | None => None end in
  let value := JObject [("percent", JNumber (PosInt percent))] in
  let value := match message with Some msg => set_key "message" (JString msg) value | None => value end in
  let value := match existing_metadata with Some meta => set_key "metadata" meta value | None => value end in
  mkProgress (Some value) (generation p + 1) (acked_generation p) (in_flight p).

(** [None] is the [expect] on a progress value that is not an object. *)
Definition merge_metadata (updates : list (string * json)) (p : ProgressState) : option (bool * ProgressState) :=
  match default (JObject []) (latest p) with
  | JObject m =>
      match default (JObject []) (map_get "metadata" m) with
      | JObject meta =>
          let meta := fold_left (fun m '(k, v) => map_insert k v m) updates meta in
          Some (true, mkProgress (Some (JObject (map_insert "metadata" (JObject meta) m)))
                        (generation p + 1) (acked_generation p) (in_flight p))
      | _ => Some (false, p)
      end
  | _ => None
  end.

Definition pending_snapshot (p : ProgressState) : option (json * Z) :=
  if generation p <=? acked_generation p then None
  else match latest p with Some v => Some (v, generation p) | None => None end.

Definition ack (g : Z) (p : ProgressState) : ProgressState :=
  if acked_generation p <? g then mkProgress (latest p) (generation p) g (in_flight p) else p.

(** The heartbeat's view of one buffer: take a snapshot, and settle it. *)
Definition snapshot_pending (p : ProgressState) : option (Z * json) * ProgressState :=
  match has_pending p, in_flight p, latest p with
  | true, None, Some value =>
      (Some (generation p, value),
       mkProgress (latest p) (generation p) (acked_generation p) (Some (generation p, value)))
  | _, _, _ => (None, p)
  end.

Definition in_flight_is (g : Z) (p : ProgressState) : bool :=
  match in_flight p with Some (g', _) => g' =? g | None => false end.
Definition ack_in_flight (g : Z) (p : ProgressState) : ProgressState :=
  if in_flight_is g p
  then mkProgress (latest p) (generation p) (Z.max (acked_generation p) g) None
  else p.
Definition clear_in_flight (g : Z) (p : ProgressState) : ProgressState :=
  if in_flight_is g p then mkProgress (latest p) (generation p) (acked_generation p) None else p.

(** * The in-flight registry *)

Definition IN_FLIGHT_SHARDS : nat := 64.
Abbreviation InFlightKey := (Z * Z)%type.

Section Registry.
  (** [ClaimHeartbeatRef], and [DefaultHasher] on a key. *)
  Context {Claim : Type}.
  Variable hash : InFlightKey -> Z.

Record InFlightState : Type := mkInFlight {
  cancel : bool;
  progress : ProgressState;
  claim : option Claim
}.

Abbreviation Registry := (list (gmap InFlightKey InFlightState)).
Definition registry_default : Registry := replicate IN_FLIGHT_SHARDS ∅.

Definition shard_for (key : InFlightKey) (reg : Registry) : nat := Z.to_nat (hash key mod Z.of_nat (length reg)).

Definition registry_insert (key : InFlightKey) (state : InFlightState) (reg : Registry) : Registry :=
  alter (fun m => <[key := state]> m) (shard_for key reg) reg.
Definition registry_remove (key : InFlightKey) (reg : Registry) : Registry :=
  alter (fun m => delete key m) (shard_for key reg) reg.
Definition registry_get (key : InFlightKey) (reg : Registry) : option InFlightState :=
  match reg !! shard_for key reg with Some m => m !! key | None => None end.
Definition get_cancel (key : InFlightKey) (reg : Registry) : option bool :=
  option_map cancel (registry_get key reg).

(** The order of a [HashMap] walk is unspecified; [map_to_list] is one. *)
Definition claim_refs (reg : Registry) : list (InFlightKey * option Claim) :=
  concat (map (fun m => map (fun '(key, state) => (key, claim state)) (map_to_list m)) reg).
Definition flags (reg : Registry) : list bool :=
  concat (map (fun m => map (fun '(_, state) => cancel state) (map_to_list m)) reg).

Definition with_progress (f : ProgressState -> ProgressState) (s : InFlightState) : InFlightState :=
  mkInFlight (cancel s) (f (progress s)) (claim s).

Definition snapshot_entry (entry : InFlightKey * InFlightState) : option (InFlightKey * Z * json) :=
  let '(key, s) := entry in
  match fst (snapshot_pending (progress s)) with
  | Some (g, v) => Some (key, g, v)
  | None => None
  end.
Definition snapshot_pending_progress (reg : Registry) : list (InFlightKey * Z * json) * Registry :=
  (concat (map (fun m => omap snapshot_entry (map_to_list m)) reg),
   map (fun m => with_progress (fun p => snd (snapshot_pending p)) <$> m) reg).

Definition update_progress (f : Z -> ProgressState -> ProgressState) (reg : Registry) (entry : InFlightKey * Z)
    : Registry :=
  let '(key, g) := entry in
  alter (fun m => alter (with_progress (f g)) key m) (shard_for key reg) reg.
Definition ack_progress (acked : list (InFlightKey * Z)) (reg : Registry) : Registry :=
  fold_left (update_progress ack_in_flight) acked reg.
Definition clear_in_flight_progress (failed : list (InFlightKey * Z)) (reg : Registry) : Registry :=
  fold_left (update_progress clear_in_flight) failed reg.

(** * The registry is a map *)

(** Sixty-four shards, each key in its own. *)
Definition registry_wf (reg : Registry) : Prop :=
  length reg = IN_FLIGHT_SHARDS
  /\ forall i m key s, reg !! i = Some m -> m !! key = Some s -> i = shard_for key reg.

(** What the worker relies on: lookups see the last insert or removal of the
    key and nothing else, and the walks visit each attempt once. *)
Class InFlightLaws : Prop := {
  law_default : registry_wf registry_default /\ forall key, registry_get key registry_default = None;
  law_insert key s reg : registry_wf reg ->
    registry_wf (registry_insert key s reg)
    /\ forall key', registry_get key' (registry_insert key s reg)
                    = if decide (key' = key) then Some s else registry_get key' reg;
  law_remove key reg : registry_wf reg ->
    registry_wf (registry_remove key reg)
    /\ forall key', registry_get key' (registry_remove key reg)
                    = if decide (key' = key) then None else registry_get key' reg;
  law_refs reg : registry_wf reg ->
    NoDup (map fst (claim_refs reg))
    /\ forall key c, (key, c) ∈ claim_refs reg <-> exists s, registry_get key reg = Some s /\ claim s = c
}.

Lemma shard_lt key reg : registry_wf reg -> is_Some (reg !! shard_for key reg).
Proof.
  intros [Hl _]. apply lookup_lt_is_Some. unfold shard_for. rewrite Hl.
  pose proof (Z.mod_pos_bound (hash key) (Z.of_nat IN_FLIGHT_SHARDS) ltac:(reflexivity)). lia.
Qed.

(** An in-place update of the key's shard that touches only that key. *)
Lemma registry_alter (key : InFlightKey) (f : gmap InFlightKey InFlightState -> gmap InFlightKey InFlightState)
    (v : option InFlightState -> option InFlightState) (reg : Registry) :
  registry_wf reg -> (forall m (key' : InFlightKey), f m !! key' = if decide (key' = key) then v (m !! key) else m !! key') ->
  registry_wf (alter f (shard_for key reg) reg)
  /\ forall key', registry_get key' (alter f (shard_for key reg) reg)
                  = if decide (key' = key) then v (registry_get key reg) else registry_get key' reg.
Proof.
  intros Hwf Hf. pose proof (shard_lt key reg Hwf) as [m0 Hm0].
  assert (forall k, shard_for k (alter f (shard_for key reg) reg) = shard_for k reg) as Hsh.
  { intros k. change (Z.to_nat (hash k mod Z.of_nat (length (alter f (shard_for key reg) reg))) = shard_for k reg).
    rewrite length_alter. reflexivity. }
  split.
  - split; [rewrite length_alter; apply Hwf|]. intros i m k s Hi Hk. rewrite Hsh.
    destruct (decide (i = shard_for key reg)) as [->|Hne].
    + rewrite list_lookup_alter_eq, Hm0 in Hi. injection Hi as <-. rewrite Hf in Hk.
      destruct (decide (k = key)) as [->|]; [reflexivity|]. eapply (proj2 Hwf); eassumption.
    + rewrite list_lookup_alter_ne in Hi by congruence. eapply (proj2 Hwf); eassumption.
  - intros k. unfold registry_get. rewrite Hsh. destruct (decide (shard_for k reg = shard_for key reg)) as [He|Hne].
    + rewrite He, list_lookup_alter_eq, Hm0. simpl. rewrite Hf. reflexivity.
    + rewrite list_lookup_alter_ne by congruence. destruct (decide (k = key)) as [->|]; [congruence|reflexivity].
Qed.

Lemma elem_of_concat_map {A B} (f : A -> list B) (l : list A) x :
  x ∈ concat (map f l) <-> exists i a, l !! i = Some a /\ x ∈ f a.
Proof.
  rewrite list_elem_of_In, in_concat. setoid_rewrite in_map_iff. split.
  - intros (y & (a & <- & Ha) & Hx). apply list_elem_of_In, list_elem_of_lookup in Ha as [i Hi].
    exists i, a. split; [exact Hi|]. apply list_elem_of_In, Hx.
  - intros (i & a & Hi & Hx). exists (f a). split; [|apply list_elem_of_In, Hx].
    exists a. split; [reflexivity|]. eapply list_elem_of_In, list_elem_of_lookup_2, Hi.
Qed.

Lemma refs_spec reg key c :
  registry_wf reg -> (key, c) ∈ claim_refs reg <-> exists s, registry_get key reg = Some s /\ claim s = c.
Proof.
  intros Hwf. unfold claim_refs. rewrite elem_of_concat_map. split.
  - intros (i & m & Hi & Hx). apply list_elem_of_In, in_map_iff in Hx as ([k s] & [= -> <-] & Hin).
    apply list_elem_of_In, elem_of_map_to_list in Hin. exists s. split; [|reflexivity].
    pose proof (proj2 Hwf _ _ _ _ Hi Hin) as Hsh. unfold registry_get. rewrite <- Hsh, Hi. exact Hin.
  - intros (s & Hg & <-). unfold registry_get in Hg. destruct (reg !! shard_for key reg) as [m|] eqn:Hm; [|discriminate].
    exists (shard_for key reg), m. split; [exact Hm|]. apply list_elem_of_In, in_map_iff. exists (key, s).
    split; [reflexivity|]. apply list_elem_of_In, elem_of_map_to_list, Hg.
Qed.

Lemma refs_NoDup reg : registry_wf reg -> NoDup (map fst (claim_refs reg)).
Proof.
  intros [_ Hwf]. unfold claim_refs. rewrite concat_map, map_map.
  assert (forall m : gmap InFlightKey InFlightState,
    map fst (map (fun '(key, state) => (key, claim state)) (map_to_list m)) = map fst (map_to_list m)) as Hk.
  { intros m. rewrite map_map. apply map_ext. intros [k s]. reflexivity. }
  assert (forall i j (m m' : gmap InFlightKey InFlightState) k, reg !! i = Some m -> reg !! j = Some m' -> is_Some (m !! k) -> is_Some (m' !! k) -> i = j) as Hd.
  { intros i j m m' k Hi Hj [s Hs] [s' Hs']. rewrite (Hwf _ _ _ _ Hi Hs). symmetry. apply (Hwf _ _ _ _ Hj Hs'). }
  clear Hwf. revert Hd. generalize reg. intros l. induction l as [|m l IH]; intros Hd; simpl; [constructor|].
  apply NoDup_app. rewrite Hk. split; [apply NoDup_fst_map_to_list|]. split.
  - intros k Hin Hin'. apply list_elem_of_In, in_map_iff in Hin as ([k' s] & <- & Hin).
    apply list_elem_of_In, elem_of_map_to_list in Hin. apply elem_of_concat_map in Hin' as (j & m' & Hj & Hx).
    rewrite Hk in Hx. apply list_elem_of_In, in_map_iff in Hx as ([k'' s'] & Heq & Hx). simpl in Heq. subst k''.
    apply list_elem_of_In, elem_of_map_to_list in Hx.
    specialize (Hd 0%nat (S j) m m' k' eq_refl Hj ltac:(eauto) ltac:(eauto)). discriminate.
  - apply IH. intros i j a b k Hi Hj Ha Hb. specialize (Hd (S i) (S j) a b k Hi Hj Ha Hb). congruence.
Qed.

#[global]
Instance registry_laws : InFlightLaws.
Proof.
  split.
  - split.
    + split; [apply length_replicate|]. intros i m k s Hi Hm. apply lookup_replicate in Hi as [-> _].
      rewrite lookup_empty in Hm. discriminate.
    + intros k. unfold registry_get. destruct (registry_default !! _) as [m|] eqn:Hm; [|reflexivity].
      apply lookup_replicate in Hm as [-> _]. apply lookup_empty.
  - intros key s reg Hwf. apply (registry_alter key _ (fun _ => Some s) reg Hwf). intros m k.
    destruct (decide (k = key)) as [->|Hne]; [apply lookup_insert_eq|apply lookup_insert_ne; congruence].
  - intros key reg Hwf. apply (registry_alter key _ (fun _ => None) reg Hwf). intros m k.
    destruct (decide (k = key)) as [->|Hne]; [apply lookup_delete_eq|apply lookup_delete_ne; congruence].
  - intros reg Hwf. split; [apply refs_NoDup, Hwf|]. intros key c. apply refs_spec, Hwf.
Qed.

(** Operations of the registry, and the single map they stand for. *)
Inductive reg_op : Type :=
  | RegInsert (key : InFlightKey) (s : InFlightState)
  | RegRemove (key : InFlightKey)
  | RegSnapshot
  | RegAck (acked : list (InFlightKey * Z))
  | RegClear (failed : list (InFlightKey * Z)).

Definition reg_exec (reg : Registry) (o : reg_op) : Registry :=
  match o with
  | RegInsert key s => registry_insert key s reg
  | RegRemove key => registry_remove key reg
  | RegSnapshot => snd (snapshot_pending_progress reg)
  | RegAck acked => ack_progress acked reg
  | RegClear failed => clear_in_flight_progress failed reg
  end.

Definition spec_update (f : Z -> ProgressState -> ProgressState) (m : gmap InFlightKey InFlightState)
    (entry : InFlightKey * Z) : gmap InFlightKey InFlightState :=
  alter (with_progress (f (snd entry))) (fst entry) m.
Definition spec_exec (m : gmap InFlightKey InFlightState) (o : reg_op) : gmap InFlightKey InFlightState :=
  match o with
  | RegInsert key s => <[key := s]> m
  | RegRemove key => delete key m
  | RegSnapshot => with_progress (fun p => snd (snapshot_pending p)) <$> m
  | RegAck acked => fold_left (spec_update ack_in_flight) acked m
  | RegClear failed => fold_left (spec_update clear_in_flight) failed m
  end.

Definition represents (reg : Registry) (m : gmap InFlightKey InFlightState) : Prop :=
  registry_wf reg /\ forall key, registry_get key reg = m !! key.

Lemma represents_update f reg m entry :
  represents reg m -> represents (update_progress f reg entry) (spec_update f m entry).
Proof.
  intros [Hwf Hm]. destruct entry as [key g]. unfold update_progress, spec_update. simpl.
  destruct (registry_alter key (fun m => alter (with_progress (f g)) key m) (fmap (with_progress (f g))) reg Hwf) as [Hwf' Hg].
  { intros m0 k. destruct (decide (k = key)) as [->|Hne]; [apply lookup_alter_eq|apply lookup_alter_ne; congruence]. }
  split; [exact Hwf'|]. intros k. rewrite Hg. destruct (decide (k = key)) as [->|Hne].
  - rewrite lookup_alter_eq, Hm. reflexivity.
  - rewrite lookup_alter_ne by congruence. apply Hm.
Qed.

Lemma represents_updates f entries reg m :
  represents reg m ->
  represents (fold_left (update_progress f) entries reg) (fold_left (spec_update f) entries m).
Proof. revert reg m. induction entries as [|e l IH]; intros reg m H; [exact H|]. apply IH, represents_update, H. Qed.

Lemma represents_snapshot f reg m :
  represents reg m -> represents (map (fmap (with_progress f)) reg) (with_progress f <$> m).
Proof.
  intros [Hwf Hm]. assert (forall k, shard_for k (map (fmap (with_progress f)) reg) = shard_for k reg) as Hsh.
  { intros k. unfold shard_for. rewrite length_map. reflexivity. }
  assert (forall i, map (fmap (with_progress f)) reg !! i = fmap (with_progress f) <$> reg !! i) as Hl.
  { intros i. apply list_lookup_fmap. }
  split; [split|].
  - rewrite length_map. apply Hwf.
  - intros i m0 k s Hi Hk. rewrite Hsh. rewrite Hl in Hi. destruct (reg !! i) as [m1|] eqn:Hr; [|discriminate].
    injection Hi as <-. rewrite lookup_fmap in Hk. destruct (m1 !! k) as [s1|] eqn:Hs; [|discriminate].
    eapply (proj2 Hwf); eassumption.
  - intros k. unfold registry_get. rewrite Hsh, Hl, lookup_fmap. specialize (Hm k). unfold registry_get in Hm.
    destruct (reg !! shard_for k reg) as [m1|]; simpl; [|rewrite <- Hm; reflexivity].
    rewrite lookup_fmap, Hm. reflexivity.
Qed.

Lemma represents_exec reg m o : represents reg m -> represents (reg_exec reg o) (spec_exec m o).
Proof.
  intros H. destruct o as [key s|key| |acked|failed]; simpl.
  - destruct (law_insert key s reg (proj1 H)) as [Hwf Hg]. split; [exact Hwf|]. intros k. rewrite Hg.
    destruct (decide (k = key)) as [->|Hne]; [rewrite lookup_insert_eq|rewrite lookup_insert_ne by congruence; apply H]; reflexivity.
  - destruct (law_remove key reg (proj1 H)) as [Hwf Hg]. split; [exact Hwf|]. intros k. rewrite Hg.
    destruct (decide (k = key)) as [->|Hne]; [rewrite lookup_delete_eq|rewrite lookup_delete_ne by congruence; apply H]; reflexivity.
  - apply represents_snapshot, H.
  - apply represents_updates, H.
  - apply represents_updates, H.
Qed.
End Registry.

(** The sharded registry is one map: after any sequence of inserts,
    removals, snapshots, acknowledgements and failed flushes, looking up a key
    gives what a single map would hold, and the walk over the shards visits
    every in-flight attempt exactly once. *)
Theorem registry_refines_map {Claim : Type} (hash : InFlightKey -> Z) (ops : list (@reg_op Claim)) :
  let reg := fold_left (reg_exec hash) ops registry_default in
  let m := fold_left spec_exec ops ∅ in
  (forall key, registry_get hash key reg = m !! key)
  /\ NoDup (map fst (claim_refs reg))
  /\ (forall key c, (key, c) ∈ claim_refs reg <-> exists s, m !! key = Some s /\ claim s = c).
Proof.
  intros reg m. assert (represents hash reg m) as [Hwf Hm].
  { unfold reg, m. assert (represents hash (registry_default (Claim := Claim)) ∅) as H.
    { destruct (@law_default Claim hash _) as [Hwf Hg]. split; [exact Hwf|].
      intros key. rewrite Hg, lookup_empty. reflexivity. }
    revert H. generalize (registry_default (Claim := Claim)) (∅ : gmap InFlightKey (InFlightState (Claim := Claim))).
    induction ops as [|o ops IH]; intros r n H; [exact H|]. apply IH, represents_exec, H. }
  split; [exact Hm|]. split; [apply (refs_NoDup hash), Hwf|].
  intros key c. rewrite (refs_spec hash reg key c Hwf). setoid_rewrite Hm. reflexivity.
Qed.

(** * Flushing progress to the job row *)

(** One running attempt: its buffer, the [progress] column of its row, the
    heartbeat's write and the explicit flush under way (snapshot generation,
    value, whether the statement has run), and whether the row still runs
    under this lease. *)
Record Attempt : Type := mkAttempt {
  buffer : ProgressState;
  stored : option json;
  heartbeat : option (Z * json * bool);
  flush : option (Z * json * bool);
  live : bool
}.
Definition attempt_new (initial : option json) : Attempt := mkAttempt (progress_new initial) initial None None true.

Inductive progress_event : Type :=
  | EvSetProgress (percent : Z) (message : option string)
  | EvMergeMetadata (updates : list (string * json))
  | EvHeartbeatSnapshot
  | EvHeartbeatWrite
  | EvHeartbeatOk
  | EvHeartbeatFailed
  | EvFlushSnapshot
  | EvFlushWrite
  | EvFlushReturn
  | EvLoseRow.

Definition write_progress (v : json) (a : Attempt) : option json := if live a then Some v else stored a.

(** An event that is not enabled leaves the attempt as it is. *)
Definition progress_step (a : Attempt) (e : progress_event) : Attempt :=
  let '(mkAttempt b st hb fl lv) := a in
  match e with
  | EvSetProgress percent message => mkAttempt (set_progress percent message b) st hb fl lv
  | EvMergeMetadata updates =>
      match merge_metadata updates b with
      | Some (_, b') => mkAttempt b' st hb fl lv
      | None => a
      end
  | EvHeartbeatSnapshot =>
      match hb with
      | None => let '(snap, b') := snapshot_pending b in
                mkAttempt b' st (option_map (fun '(g, v) => (g, v, false)) snap) fl lv
      | Some _ => a
      end
  | EvHeartbeatWrite =>
      match hb with
      | Some (g, v, false) => mkAttempt b (write_progress v a) (Some (g, v, true)) fl lv
      | _ => a
      end
  | EvHeartbeatOk =>
      match hb with
      | Some (g, _, true) => mkAttempt (ack_in_flight g b) st None fl lv
      | _ => a
      end
  | EvHeartbeatFailed =>
      match hb with
      | Some (g, _, false) => mkAttempt (clear_in_flight g b) st None fl lv
      | _ => a
      end
  | EvFlushSnapshot =>
      match fl, pending_snapshot b with
      | None, Some (v, g) => mkAttempt b st hb (Some (g, v, false)) lv
      | _, _ => a
      end
  | EvFlushWrite =>
      match fl with
      | Some (g, v, false) => mkAttempt b (write_progress v a) hb (if lv then Some (g, v, true) else None) lv
      | _ => a
      end
  | EvFlushReturn =>
      match fl with
      | Some (g, _, true) => mkAttempt (ack g b) st hb None lv
      | _ => a
      end
  | EvLoseRow => mkAttempt b st hb fl false
  end.
Definition progress_run (es : list progress_event) (a : Attempt) : Attempt := fold_left progress_step es a.

Definition is_flush_event (e : progress_event) : bool :=
  match e with EvFlushSnapshot | EvFlushWrite | EvFlushReturn => true | _ => false end.

(** The value of the buffer after its [g]-th mutation. *)
Definition value_at (initial : option json) (hist : list json) (g : Z) : option json :=
  if g <=? 0 then initial else hist !! Z.to_nat (g - 1).

Record flush_inv (initial : option json) (hist : list json) (a : Attempt) : Prop := {
  fi_gen : generation (buffer a) = Z.of_nat (length hist);
  fi_acked : 0 <= acked_generation (buffer a) <= generation (buffer a);
  fi_latest : value_at initial hist (generation (buffer a)) = latest (buffer a);
  fi_flush : flush a = None;
  fi_in_flight : in_flight (buffer a) = option_map (fun '(g, v, _) => (g, v)) (heartbeat a);
  fi_heartbeat : forall g v w, heartbeat a = Some (g, v, w) ->
    acked_generation (buffer a) < g <= generation (buffer a) /\ value_at initial hist g = Some v
    /\ (w = true -> live a = true -> stored a = Some v);
  fi_stored : (forall g v, heartbeat a <> Some (g, v, true)) -> live a = true ->
    stored a = value_at initial hist (acked_generation (buffer a))
}.

Lemma value_at_old initial hist v g :
  g <= Z.of_nat (length hist) -> value_at initial (hist ++ [v]) g = value_at initial hist g.
Proof.
  intros Hg. unfold value_at. destruct (Z.leb_spec g 0); [reflexivity|]. apply lookup_app_l. lia.
Qed.
Lemma value_at_new initial hist v : value_at initial (hist ++ [v]) (Z.of_nat (length hist) + 1) = Some v.
Proof.
  unfold value_at. destruct (Z.leb_spec (Z.of_nat (length hist) + 1) 0); [lia|].
  replace (Z.to_nat (Z.of_nat (length hist) + 1 - 1)) with (length hist) by lia. apply list_lookup_middle. reflexivity.
Qed.

(** A mutation by the handler. *)
Lemma flush_inv_mutate initial hist a b' v :
  flush_inv initial hist a -> latest b' = Some v -> generation b' = generation (buffer a) + 1 ->
  acked_generation b' = acked_generation (buffer a) -> in_flight b' = in_flight (buffer a) ->
  flush_inv initial (hist ++ [v]) (mkAttempt b' (stored a) (heartbeat a) (flush a) (live a)).
Proof.
  intros [Hg Ha Hl Hf Hi Hh Hs] Hv Hg' Ha' Hi'. split; simpl; rewrite ?Hg', ?Ha', ?Hi'; auto.
  - rewrite length_app. simpl. lia.
  - lia.
  - rewrite Hg, value_at_new, Hv. reflexivity.
  - intros g w applied H. destruct (Hh g w applied H) as (H1 & H2 & H3). split; [lia|].
    split; [|exact H3]. rewrite value_at_old by lia. exact H2.
  - intros H Hlv. rewrite value_at_old by lia. apply Hs; assumption.
Qed.

Lemma merge_metadata_spec updates p b p' :
  merge_metadata updates p = Some (b, p') ->
  p' = p \/ (exists v, latest p' = Some v) /\ generation p' = generation p + 1
            /\ acked_generation p' = acked_generation p /\ in_flight p' = in_flight p.
Proof.
  unfold merge_metadata. destruct (default (JObject []) (latest p)); try discriminate.
  destruct (default (JObject []) (map_get "metadata" m)); intros H; injection H as <- <-; auto.
  right. simpl. eauto.
Qed.

Lemma flush_inv_heartbeat initial hist a e :
  flush_inv initial hist a ->
  match e with EvHeartbeatSnapshot | EvHeartbeatWrite | EvHeartbeatOk | EvHeartbeatFailed => True | _ => False end ->
  flush_inv initial hist (progress_step a e).
Proof.
  destruct a as [b st hb fl lv]. intros [Hg Ha Hl Hf Hi Hh Hs] He. simpl in *.
  destruct e; try contradiction; simpl.
  - destruct hb as [[[g v] w]|]; [split; assumption|]. unfold snapshot_pending, has_pending.
    destruct (Z.ltb_spec (acked_generation b) (generation b)) as [Hlt|_]; [|split; assumption].
    destruct (in_flight b) eqn:Hin; [discriminate|]. destruct (latest b) as [v|] eqn:Hla; [|split; simpl; try assumption; congruence].
    split; simpl; try assumption; try congruence.
    + intros g v' w [= <- <- <-]. split; [lia|]. split; [congruence|discriminate].
    + intros _. apply Hs. discriminate.
  - destruct hb as [[[g v] [|]]|]; [split; assumption| |split; assumption].
    destruct (Hh _ _ _ eq_refl) as (H1 & H2 & _). split; simpl; try assumption.
    + intros g' v' w [= <- <- <-]. split; [exact H1|]. split; [exact H2|]. intros _ Hlv. unfold write_progress. simpl.
      rewrite Hlv. reflexivity.
    + intros H. exfalso. exact (H g v eq_refl).
  - destruct hb as [[[g v] [|]]|]; [|split; assumption..]. destruct (Hh _ _ _ eq_refl) as (H1 & H2 & H3).
    unfold ack_in_flight, in_flight_is. rewrite Hi. simpl. rewrite Z.eqb_refl. split; simpl; try assumption; try lia; try discriminate.
    + reflexivity.
    + intros _ Hlv. rewrite H3 by auto. replace (Z.max (acked_generation b) g) with g by lia. symmetry. exact H2.
  - destruct hb as [[[g v] [|]]|]; [split; assumption| |split; assumption].
    unfold clear_in_flight, in_flight_is. rewrite Hi. simpl. rewrite Z.eqb_refl. split; simpl; try assumption; try discriminate.
    + reflexivity.
    + intros _. apply Hs. discriminate.
Qed.

Lemma flush_inv_step initial hist a e :
  flush_inv initial hist a -> is_flush_event e = false -> exists hist', flush_inv initial hist' (progress_step a e).
Proof.
  intros H He. destruct e; try discriminate; try (exists hist; apply flush_inv_heartbeat; [exact H|exact I]).
  - destruct a as [b st hb fl lv]. eexists. eapply (flush_inv_mutate _ _ _ _ _ H); reflexivity.
  - destruct a as [b st hb fl lv]. simpl. destruct (merge_metadata updates b) as [[r b']|] eqn:Hm; [|eauto].
    destruct (merge_metadata_spec _ _ _ _ Hm) as [->|([v Hv] & Hg & Ha & Hi)]; [eauto|].
    eexists. eapply (flush_inv_mutate _ _ _ _ _ H); eassumption.
  - destruct a as [b st hb fl lv], H as [Hg Ha Hl Hf Hi Hh Hs]. exists hist. split; simpl in *; try assumption.
    + intros g v w Hw. destruct (Hh g v w Hw) as (H1 & H2 & _). split; [exact H1|]. split; [exact H2|discriminate].
    + discriminate.
Qed.

(** Heartbeat flushes are durable: along any interleaving of progress
    updates and heartbeat writes that succeed or fail cleanly, when nothing is
    pending and no flush is under way, the row of the running job holds
    exactly the latest progress value. *)
Theorem heartbeat_progress_durable initial es :
  forallb (fun e => negb (is_flush_event e)) es = true ->
  let a := progress_run es (attempt_new initial) in
  live a = true -> has_pending (buffer a) = false -> heartbeat a = None -> stored a = latest (buffer a).
Proof.
  intros Hes a Hl Hp Hh. assert (exists hist, flush_inv initial hist a) as [hist [Hg Ha Hla _ _ _ Hs]].
  { unfold a. assert (exists hist, flush_inv initial hist (attempt_new initial)) as H.
    { exists []. split; simpl; try reflexivity; try lia; discriminate. }
    revert H. generalize (attempt_new initial). clear a Hl Hp Hh. induction es as [|e es IH]; intros a [hist H]; [eauto|].
    simpl in Hes. apply andb_true_iff in Hes as [He Hes]. apply negb_true_iff in He.
    apply IH; [exact Hes|]. eapply flush_inv_step; eassumption. }
  rewrite Hs; [|rewrite Hh; discriminate|exact Hl]. unfold has_pending in Hp. apply Z.ltb_ge in Hp.
  replace (acked_generation (buffer a)) with (generation (buffer a)) by lia. exact Hla.
Qed.

Lemma heartbeat_progress_durable_witness :
  let es := [EvSetProgress 50 (Some "half"); EvHeartbeatSnapshot; EvHeartbeatWrite; EvSetProgress 90 None;
             EvHeartbeatOk; EvHeartbeatSnapshot; EvHeartbeatFailed; EvHeartbeatSnapshot; EvHeartbeatWrite; EvHeartbeatOk] in
  let a := progress_run es (attempt_new None) in
  stored a = latest (buffer a) /\ stored a <> None.
Proof.
  intros es a. split; [|vm_compute; discriminate].
  apply (heartbeat_progress_durable None es); vm_compute; reflexivity.
Defined.

(** The explicit flush is not safe against a heartbeat write that is
    already under way: there is a run in which [flush_progress] has returned,
    nothing is pending and nothing is in flight, yet the running job's row
    holds an older progress value than the buffer, and no later heartbeat will
    repair it. *)
Theorem flush_progress_overwritten :
  exists es, let a := progress_run es (attempt_new None) in
    live a = true /\ has_pending (buffer a) = false /\ heartbeat a = None /\ flush a = None
    /\ stored a <> latest (buffer a) /\ progress_step a EvHeartbeatSnapshot = a.
Proof.
  exists [EvSetProgress 50 None; EvHeartbeatSnapshot; EvSetProgress 90 None; EvFlushSnapshot; EvFlushWrite;
          EvFlushReturn; EvHeartbeatWrite; EvHeartbeatOk].
  vm_compute. repeat split. discriminate.
Qed.
