(* ===== verification/Ring.v ===== *)
(** Slot arithmetic of the rings of queue storage
    (awa-model/src/queue_storage.rs): which generation a slot last held, which
    slots are sealed and which one prune reclaims.  A ring of [n] slots is
    written at the slot of its current generation, [generation mod n]. *)

From stdpp Require Import pretty.
From S2P Require Import Prelude.
From S2P Require Import Error.

(** * Slot arithmetic *)

Definition ring_slot_index (slot slot_count : Z) (ring : string) : result AwaError Z :=
  if slot <? 0 then
    Err (Validation ("invalid " +:+ ring +:+ " ring slot " +:+ pretty slot +:+ ": slot must be non-negative"))
  else if slot_count <=? slot then
    Err (Validation ("invalid " +:+ ring +:+ " ring slot " +:+ pretty slot +:+ ": configured slot count is " +:+ pretty slot_count))
  else Ok slot.

Definition oldest_initialized_ring_slot (current_slot generation slot_count : Z) : option (Z * Z) :=
  if slot_count <=? 1 then None
  else
    let initialized_slots := Z.min (generation + 1) slot_count in
    if initialized_slots <=? 1 then None
    else
      let offset := initialized_slots - 1 in
      let oldest_slot := rem_euclid (current_slot - offset) slot_count in
      let oldest_generation := generation - offset in
      if oldest_generation <? 0 then None else Some (oldest_slot, oldest_generation).

Definition ring_slot_generation (current_slot generation slot_count slot : Z) : option Z :=
  if (slot_count <=? 0) || (slot <? 0) || (slot_count <=? slot) then None
  else
    let offset := rem_euclid (current_slot - slot) slot_count in
    let slot_generation := generation - offset in
    if 0 <=? slot_generation then Some slot_generation else None.

(** [(1..initialized_slots).rev()] mapped to slots and generations. *)
Definition initialized_sealed_ring_slots (current_slot generation slot_count : Z) : list (Z * Z) :=
  if slot_count <=? 1 then []
  else
    let initialized_slots := Z.min (generation + 1) slot_count in
    map (fun offset => (rem_euclid (current_slot - offset) slot_count, generation - offset))
        (rev (map Z.of_nat (seq 1 (Z.to_nat (initialized_slots - 1))))).

(** The generations [lo <= g < hi], ascending. *)
Definition z_range (lo hi : Z) : list Z := map (fun i => lo + Z.of_nat i) (seq 0 (Z.to_nat (hi - lo))).

Lemma rev_seq_1 k : rev (seq 1 k) = map (fun i => k - i)%nat (seq 0 k).
Proof.
  induction k as [|k IH]; [reflexivity|].
  rewrite seq_S, rev_app_distr. simpl rev at 1. simpl app at 1. rewrite IH.
  change (seq 0 (S k)) with (0%nat :: seq 1 k). rewrite <- (seq_shift k 0), map_cons, map_map. f_equal; lia.
Qed.

(** Two generations of the same slot within one lap are the same. *)
Lemma mod_window_inj x y n : 0 < n -> x mod n = y mod n -> - n < x - y < n -> x = y.
Proof.
  intros Hn Hm Hw. pose proof (Z.div_mod x n ltac:(lia)) as E1. pose proof (Z.div_mod y n ltac:(lia)) as E2.
  rewrite Hm in E1. assert (x - y = n * (x / n - y / n)) as E by lia.
  assert (x / n - y / n = 0) as H0 by (clear - E Hw Hn; nia). lia.
Qed.

(** Latest generation of each slot. *)
Lemma ring_slot_generation_spec gen n slot g :
  0 < n -> 0 <= gen ->
  ring_slot_generation (gen mod n) gen n slot = Some g
  <-> 0 <= slot < n /\ 0 <= g /\ gen - n < g <= gen /\ g mod n = slot.
Proof.
  intros Hn Hg. unfold ring_slot_generation, rem_euclid.
  pose proof (Z.mod_pos_bound gen n Hn) as Hgb. pose proof (Z.mod_pos_bound (gen mod n - slot) n Hn) as Hb.
  destruct (Z.leb_spec n 0); [lia|]. destruct (Z.ltb_spec slot 0); simpl; [split; [discriminate|lia]|].
  destruct (Z.leb_spec n slot); [split; [discriminate|lia]|].
  assert ((gen - (gen mod n - slot) mod n) mod n = slot) as Hslot.
  { rewrite Zminus_mod, Z.mod_mod, <- Zminus_mod by lia. replace (gen - (gen mod n - slot)) with (slot + (gen / n) * n).
    - rewrite Z.mod_add, Z.mod_small by lia. reflexivity.
    - pose proof (Z.div_mod gen n ltac:(lia)). lia. }
  assert (Z.abs n = n) as Habs by lia. rewrite ?Habs.
  destruct (Z.leb_spec 0 (gen - (gen mod n - slot) mod n)) as [Hle|Hgt].
  - split.
    + intros [= <-]. repeat split; try lia.
    + intros (_ & Hg0 & Hrange & Hmod). f_equal. apply (mod_window_inj _ _ n); lia.
  - split; [discriminate|]. intros (_ & Hg0 & Hrange & Hmod). exfalso.
    pose proof (mod_window_inj (gen - (gen mod n - slot) mod n) g n Hn ltac:(lia) ltac:(lia)). lia.
Qed.

Lemma sealed_slots_range gen n :
  1 < n -> 0 <= gen ->
  initialized_sealed_ring_slots (gen mod n) gen n = map (fun g => (g mod n, g)) (z_range (Z.max 0 (gen - n + 1)) gen).
Proof.
  intros Hn Hg. unfold initialized_sealed_ring_slots, z_range, rem_euclid. destruct (Z.leb_spec n 1); [lia|].
  rewrite <- map_rev, rev_seq_1, !map_map. set (k := Z.to_nat (Z.min (gen + 1) n - 1)).
  replace (Z.to_nat (gen - Z.max 0 (gen - n + 1))) with k by lia.
  apply map_ext_in. intros i Hi. apply in_seq in Hi.
  assert (gen - Z.of_nat (k - i) = Z.max 0 (gen - n + 1) + Z.of_nat i) as He by lia.
  rewrite <- He. f_equal. apply Zminus_mod_idemp_l.
Qed.

Lemma z_range_cons lo hi : lo < hi -> z_range lo hi = lo :: z_range (lo + 1) hi.
Proof.
  intros H. unfold z_range. replace (Z.to_nat (hi - lo)) with (S (Z.to_nat (hi - (lo + 1)))) by lia.
  simpl. f_equal; [lia|]. rewrite <- seq_shift, map_map. apply map_ext. intros i. lia.
Qed.

Lemma z_range_nil lo hi : hi <= lo -> z_range lo hi = [].
Proof. intros H. unfold z_range. replace (Z.to_nat (hi - lo)) with O by lia. reflexivity. Qed.

(** Slot arithmetic of a ring whose cursor is at [gen mod n]: a slot's
    generation is the last one that opened it, if it ever was open; the sealed
    slots are the generations of the last lap before the current one, oldest
    first; and the prune target is the oldest of them, which on a full ring is
    the very slot rotation would open next. *)
Theorem ring_slots_spec gen n :
  1 < n -> 0 <= gen ->
  (forall slot g, ring_slot_generation (gen mod n) gen n slot = Some g
                  <-> 0 <= slot < n /\ 0 <= g /\ gen - n < g <= gen /\ g mod n = slot)
  /\ initialized_sealed_ring_slots (gen mod n) gen n
     = map (fun g => (g mod n, g)) (z_range (Z.max 0 (gen - n + 1)) gen)
  /\ oldest_initialized_ring_slot (gen mod n) gen n = head (initialized_sealed_ring_slots (gen mod n) gen n)
  /\ (n <= gen + 1 ->
      oldest_initialized_ring_slot (gen mod n) gen n = Some (rem_euclid (gen mod n + 1) n, gen - n + 1)).
Proof.
  intros Hn Hg. split; [intros; apply ring_slot_generation_spec; lia|]. rewrite sealed_slots_range by assumption.
  split; [reflexivity|]. unfold oldest_initialized_ring_slot, rem_euclid. destruct (Z.leb_spec n 1); [lia|].
  assert (forall k, (gen mod n - k) mod n = (gen - k) mod n) as Hm by (intros; apply Zminus_mod_idemp_l).
  split.
  - destruct (Z.leb_spec (Z.min (gen + 1) n) 1); [rewrite z_range_nil by lia; reflexivity|].
    destruct (Z.ltb_spec (gen - (Z.min (gen + 1) n - 1)) 0); [lia|]. rewrite z_range_cons by lia. simpl. rewrite Hm.
    repeat f_equal; lia.
  - intros Hfull. destruct (Z.leb_spec (Z.min (gen + 1) n) 1); [lia|]. replace (Z.min (gen + 1) n) with n by lia.
    destruct (Z.ltb_spec (gen - (n - 1)) 0); [lia|]. rewrite Hm. f_equal. f_equal; [|lia].
    rewrite Zplus_mod_idemp_l. replace (gen - (n - 1)) with (gen + 1 + (-1) * n) by lia. apply Z.mod_add. lia.
Qed.

Lemma ring_slots_spec_witness :
  oldest_initialized_ring_slot 3 19 16 = Some (4, 4) /\ ring_slot_generation 3 19 16 15 = Some 15.
Proof.
  destruct (ring_slots_spec 19 16 ltac:(lia) ltac:(lia)) as (H1 & _ & _ & H4). split.
  - apply H4. lia.
  - apply (H1 15 15). vm_compute. repeat split; discriminate || reflexivity.
Defined.
