(* ===== verification/Rotation.v ===== *)
(** Rotation of the rings of queue storage (awa-model/src/queue_storage.rs) and
    the staged move of the ring cursor from the pre-0.7 singleton columns to the
    append-only ledger ([awa.flip_ring_authority],
    v043_ring_rotation_ledger.sql).

    The rings, their children and the authority row are [Schema]; [rotate] is
    one maintenance tick of any of the three rings.  For the cursor itself a
    rotator is also modelled in two steps, reading the cursor and appending,
    without the locks that serialize it, interleaved with rotators of the
    previous version (which know only the columns), the ledger fold and the
    flip: what is shown of that interleaving rests on the compare-and-swap and
    on the update trigger alone. *)

From S2P Require Import Prelude.
From S2P Require Import Error.
From S2P Require Import Ring.

Inductive RingFamily : Type := QueueRing | LeaseRing | ClaimRing.
#[export] Instance RingFamily_eq_dec : EqDecision RingFamily.
Proof. solve_decision. Defined.

Inductive RingAuthority : Type := Columns | Ledger.
#[export] Instance RingAuthority_eq_dec : EqDecision RingAuthority.
Proof. solve_decision. Defined.

(** [{ring}_ring_state], [{ring}_ring_slots] and [{ring}_ring_rotations] (rows
    [(generation, slot)]) of one ring. *)
Record RingState : Type := mkRing {
  slot_count : Z;
  current_slot : Z;
  generation : Z;
  slot_generations : gmap Z Z;
  ledger : list (Z * Z)
}.

(** [child_rows f slot] counts the rows of each child relation of a slot, in
    the order the code lists them: eight for the queue ring, one for the lease
    ring, four for the claim ring. *)
Record Schema : Type := mkSchema {
  authority : RingAuthority;
  ring : RingFamily -> RingState;
  child_rows : RingFamily -> Z -> list Z
}.

Definition set_ring (f : RingFamily) (r : RingState) (s : Schema) : Schema :=
  mkSchema (authority s) (fun f' => if decide (f' = f) then r else ring s f') (child_rows s).
Definition set_ledger (l : list (Z * Z)) (r : RingState) : RingState :=
  mkRing (slot_count r) (current_slot r) (generation r) (slot_generations r) l.

(** * The ledger *)

(** [ORDER BY generation DESC LIMIT 1]. *)
Fixpoint ledger_max (l : list (Z * Z)) : option (Z * Z) :=
  match l with
  | [] => None
  | (g, s) :: l =>
      match ledger_max l with
      | Some (g', s') => if g' <? g then Some (g, s) else Some (g', s')
      | None => Some (g, s)
      end
  end.

(** [INSERT ... ON CONFLICT (generation) DO NOTHING]; tells whether the row
    went in. *)
Definition ledger_insert (g s : Z) (l : list (Z * Z)) : bool * list (Z * Z) :=
  if existsb (fun e => fst e =? g) l then (false, l) else (true, (g, s) :: l).

(** [((g % n) + n) % n], with SQL's truncating remainder. *)
Definition sql_slot (g n : Z) : Z := Z.rem (Z.rem g n + n) n.

(** The reconciling insert over
    [generate_series(COALESCE(max(generation), -1) + 1, hi)]. *)
Definition ledger_backfill (hi n : Z) (l : list (Z * Z)) : list (Z * Z) :=
  let top := match ledger_max l with Some (g, _) => g | None => -1 end in
  fold_left (fun l g => snd (ledger_insert g (sql_slot g n) l)) (z_range (top + 1) (hi + 1)) l.

(** * The cursor *)

(** [ring_cursor_tx]: [(slot, generation)]. *)
Definition ring_cursor (a : RingAuthority) (r : RingState) : result AwaError (Z * Z) :=
  match a with
  | Ledger =>
      match ledger_max (ledger r) with
      | Some (g, s) => Ok (s, g)
      | None => Err (map_sqlx_error SqlxRowNotFound)
      end
  | Columns => Ok (current_slot r, generation r)
  end.

(** [UPDATE {ring}_ring_state SET current_slot, generation], under the trigger
    [reject_compat_ring_cursor_update_after_flip]. *)
Definition update_compat_cursor (a : RingAuthority) (slot gen : Z) (r : RingState) : result AwaError RingState :=
  if bool_decide (a = Ledger) && negb ((slot =? current_slot r) && (gen =? generation r))
  then Err (map_sqlx_error (SqlxDatabase (Some "55000") None))
  else Ok (mkRing (slot_count r) slot gen (slot_generations r) (ledger r)).

(** [UPDATE {ring}_ring_slots SET generation = gen WHERE slot = slot]. *)
Definition stamp_slot (slot gen : Z) (r : RingState) : RingState :=
  mkRing (slot_count r) (current_slot r) (generation r) (alter (fun _ => gen) slot (slot_generations r)) (ledger r).

(** [append_ring_rotation_tx], for a rotator that runs in mode [a]. *)
Definition append_ring_rotation (a : RingAuthority) (f : RingFamily) (next_generation next_slot : Z) (s : Schema)
    : result AwaError (bool * Schema) :=
  let r := ring s f in
  match a with
  | Ledger =>
      let '(inserted, l) := ledger_insert next_generation next_slot (ledger r) in
      Ok (inserted, set_ring f (set_ledger l r) s)
  | Columns =>
      if generation r =? next_generation - 1
      then
        let? r := update_compat_cursor (authority s) next_slot next_generation r in
        let r := stamp_slot next_slot next_generation r in
        Ok (true, set_ring f (set_ledger (ledger_backfill next_generation (slot_count r) (ledger r)) r) s)
      else Ok (false, s)
  end.

(** * A rotation tick *)

Record BusyCounts : Type := mkBusy {
  queue_ready : Z;
  queue_claim_attempt_batches : Z;
  queue_done : Z;
  queue_tombstones : Z;
  queue_ready_segments : Z;
  queue_receipt_completion_batches : Z;
  queue_receipt_completion_tombstones : Z;
  queue_terminal_deltas : Z;
  leases : Z;
  claims : Z;
  closures : Z;
  closure_batches : Z
}.
Definition busy_default : BusyCounts := mkBusy 0 0 0 0 0 0 0 0 0 0 0 0.

Inductive RotateOutcome : Type :=
  | Rotated (slot gen : Z)
  | SkippedBusy (slot : Z) (busy : BusyCounts)
  | SkippedIdle (slot gen : Z)
  | SkippedFilling (slot gen : Z).

(** Durations in nanoseconds. *)
Record RingRotationCadence : Type := mkCadence {
  min_slot_age : Z;
  target_slot_bytes : Z;
  min_slot_rows : Z;
  max_slot_age : Z
}.
Definition EAGER : RingRotationCadence := mkCadence 0 0 0 0.
Definition DEFAULT : RingRotationCadence := mkCadence (5 * 10 ^ 9) (2 * 1024 * 1024) 256 (60 * 10 ^ 9).

Record SlotFillObservation : Type := mkObservation { obs_cursor : Z * Z; first_nonempty_at : Z }.
Abbreviation observations := (RingFamily -> option SlotFillObservation) (only parsing).
Definition observe (f : RingFamily) (o : option SlotFillObservation) (m : observations) : observations :=
  fun f' => if decide (f' = f) then o else m f'.

(** What a tick reads besides the rings: whether the advisory lock of the ring
    was free, the process's monotonic clock, the physical size of the current
    slot's children, the time since the current generation's ledger row was
    written ([None] when that row is absent; the server's clock may be behind
    it) and, for the lease ring, whether any lease child has storage to
    reclaim. *)
Record Tick : Type := mkTick {
  lock_free : bool;
  now : Z;
  slot_bytes : Z;
  open_secs : option Z;
  reclaimable : bool
}.

Definition sum (l : list Z) : Z := fold_right Z.add 0 l.
(** [(SELECT 1 FROM child LIMIT limit)] for every child, counted. *)
Definition sampled_rows (limit : Z) (rows : list Z) : Z := sum (map (Z.min limit) rows).

(** [slot_still_filling_tx]. *)
Definition slot_still_filling (f : RingFamily) (cursor : Z * Z) (cadence : RingRotationCadence) (rows : list Z)
    (t : Tick) (m : observations) : bool * observations :=
  if min_slot_age cadence =? 0 then (false, m)
  else
    let sample_limit := Z.min (Z.max (min_slot_rows cadence) 1) i64_max in
    let sampled := sampled_rows sample_limit rows in
    let bytes := if 0 <? sampled then slot_bytes t else 0 in
    let has_rows := 0 <? sampled in
    if negb has_rows then (false, observe f None m)
    else
      let o := match m f with
               | Some o => if decide (obs_cursor o = cursor) then o else mkObservation cursor (now t)
               | None => mkObservation cursor (now t)
               end in
      let m := observe f (Some o) m in
      let bytes := Z.max 0 bytes in
      if (0 <? target_slot_bytes cadence) && (target_slot_bytes cadence <=? bytes) then (false, m)
      else
        let age := now t - first_nonempty_at o in
        let open_for := match open_secs t with Some s => if 0 <? s then s else 0 | None => 0 end in
        if negb (max_slot_age cadence =? 0) && (max_slot_age cadence <=? Z.max age open_for) then (false, m)
        else if age <? min_slot_age cadence then (true, m)
        else if sampled <? min_slot_rows cadence then (true, m)
        else (false, m).

(** [busy_indicator(relation_has_rows_tx(child))]. *)
Definition has_rows (count : Z) : bool := negb (count =? 0).
Definition busy_indicator (b : bool) : Z := if b then 1 else 0.

(** The [BusyCounts] of each ring, from its children's row counts. *)
Definition busy_counts (f : RingFamily) (rows : list Z) : BusyCounts :=
  let busy i := has_rows (nth i rows 0) in
  match f with
  | QueueRing =>
      mkBusy (busy_indicator (busy 0%nat)) (busy_indicator (busy 1%nat)) (busy_indicator (busy 2%nat))
        (busy_indicator (busy 3%nat)) (busy_indicator (busy 4%nat)) (busy_indicator (busy 5%nat))
        (busy_indicator (busy 6%nat)) (busy_indicator (busy 7%nat)) 0 0 0 0
  | LeaseRing => mkBusy 0 0 0 0 0 0 0 0 (busy_indicator (busy 0%nat)) 0 0 0
  | ClaimRing =>
      mkBusy 0 0 0 0 0 0 0 0 0 (busy_indicator (busy 0%nat || busy 1%nat)) (busy_indicator (busy 2%nat))
        (busy_indicator (busy 3%nat))
  end.

(** The idle gate: the whole ring is empty, or for the lease ring has nothing
    to reclaim. *)
Definition ring_idle (f : RingFamily) (t : Tick) (s : Schema) : bool :=
  match f with
  | LeaseRing => negb (reclaimable t)
  | _ => forallb (fun slot => negb (existsb has_rows (child_rows s f slot))) (z_range 0 (slot_count (ring s f)))
  end.

(** [acquire_ring_serializer_tx]. *)
Definition acquire_ring_serializer (t : Tick) (s : Schema) : RingAuthority * bool :=
  match authority s with
  | Columns => (Columns, true)
  | Ledger => (Ledger, lock_free t)
  end.

(** [rotate_with_cadence], [rotate_leases_with_cadence] and
    [rotate_claims_with_cadence]. *)
Definition rotate (f : RingFamily) (cadence : RingRotationCadence) (t : Tick) (m : observations) (s : Schema)
    : result AwaError (RotateOutcome * observations * Schema) :=
  let '(a, acquired) := acquire_ring_serializer t s in
  let? (slot, gen) := ring_cursor a (ring s f) in
  let n := slot_count (ring s f) in
  let next_slot := rem_euclid (slot + 1) n in
  if negb acquired then Ok (SkippedBusy next_slot busy_default, m, s)
  else
    let '(filling, m) := slot_still_filling f (slot, gen) cadence (child_rows s f slot) t m in
    if filling then Ok (SkippedFilling slot gen, m, s)
    else
      let rows := child_rows s f next_slot in
      if existsb has_rows rows then Ok (SkippedBusy next_slot (busy_counts f rows), m, s)
      else if ring_idle f t s then Ok (SkippedIdle slot gen, m, s)
      else
        let next_generation := gen + 1 in
        let? (advanced, s) := append_ring_rotation a f next_generation next_slot s in
        if advanced then Ok (Rotated next_slot next_generation, m, s)
        else Ok (SkippedBusy next_slot busy_default, m, s).

(** * Fold and flip *)

(** [DELETE ... WHERE generation < max(generation) - (slot_count - 1)]. *)
Definition fold_ledger (r : RingState) : RingState :=
  match ledger_max (ledger r) with
  | None => r
  | Some (top, _) => set_ledger (List.filter (fun e => negb (fst e <? top - (slot_count r - 1))) (ledger r)) r
  end.
(** [fold_ring_rotation_ledgers]; [pinned] tells whether another backend pins
    the MVCC horizon. *)
Definition fold_ring_rotation_ledgers (pinned : bool) (s : Schema) : Schema :=
  if pinned then s else mkSchema (authority s) (fun f => fold_ledger (ring s f)) (child_rows s).

(** The errors raised by [awa.flip_ring_authority]. *)
Definition raise_55000 : AwaError := map_sqlx_error (SqlxDatabase (Some "55000") None).

(** One turn of the flip's loop: check the compat cursor, reconcile the ledger,
    check that the row being promoted is the cursor. *)
Definition flip_reconcile (r : RingState) : result AwaError RingState :=
  let n := slot_count r in
  if (generation r <? 0) || (current_slot r <? 0) || (n <=? current_slot r)
     || negb (current_slot r =? sql_slot (generation r) n)
  then Err raise_55000
  else if match ledger_max (ledger r) with Some (g, _) => generation r <? g | None => false end
  then Err raise_55000
  else
    let l := ledger_backfill (generation r) n (ledger r) in
    match ledger_max l with
    | Some (g, s) =>
        if (s =? current_slot r) && (g =? generation r) then Ok (set_ledger l r) else Err raise_55000
    | None => Err raise_55000
    end.

(** The fence: both cursor columns and every slot's generation become -1. *)
Definition poison (r : RingState) : RingState :=
  mkRing (slot_count r) (-1) (-1) ((fun _ => -1) <$> slot_generations r) (ledger r).

(** [awa.flip_ring_authority]; [blocking] counts the fresh runtimes that are
    not known to be flip-aware. An error aborts the transaction. *)
Definition flip_ring_authority (force : bool) (blocking : Z) (s : Schema) : result AwaError Schema :=
  match authority s with
  | Ledger => Ok s
  | Columns =>
      if negb force && (0 <? blocking) then Err raise_55000
      else
        let? q := flip_reconcile (ring s QueueRing) in
        let? l := flip_reconcile (ring s LeaseRing) in
        let? c := flip_reconcile (ring s ClaimRing) in
        Ok (mkSchema Ledger
              (fun f => poison (match f with QueueRing => q | LeaseRing => l | ClaimRing => c end))
              (child_rows s))
  end.

(** * Unserialized rotators *)

(** What a rotator holds between reading the cursor and appending: the mode it
    resolved and the cursor it read. [old] marks a rotator of the previous
    version, which reads and advances only the columns. *)
Record Rotator : Type := mkRotator {
  rot_family : RingFamily;
  rot_old : bool;
  rot_mode : RingAuthority;
  rot_cursor : Z * Z
}.
Record RingSys : Type := mkRingSys { sys_schema : Schema; rotators : gmap nat Rotator }.

Inductive ring_op : Type :=
  | RotRead (w : nat) (f : RingFamily) (old : bool)
  | RotAppend (w : nat)
  | Fold (pinned : bool)
  | Flip (force : bool) (blocking : Z)
  | Rows (rows : RingFamily -> Z -> list Z).

(** The column compare-and-swap and slot stamp of a rotator of the previous
    version, as [append_ring_rotation_tx] describes it. *)
Definition old_append (f : RingFamily) (next_generation next_slot : Z) (s : Schema) : result AwaError (bool * Schema) :=
  let r := ring s f in
  if generation r =? next_generation - 1
  then
    let? r := update_compat_cursor (authority s) next_slot next_generation r in
    Ok (true, set_ring f (stamp_slot next_slot next_generation r) s)
  else Ok (false, s).

Definition rotator_append (r : Rotator) (s : Schema) : result AwaError (bool * Schema) :=
  let '(slot, gen) := rot_cursor r in
  let next_slot := rem_euclid (slot + 1) (slot_count (ring s (rot_family r))) in
  if rot_old r then old_append (rot_family r) (gen + 1) next_slot s
  else append_ring_rotation (rot_mode r) (rot_family r) (gen + 1) next_slot s.

(** A failed transaction leaves the schema as it was. *)
Definition committed {A} (s : Schema) (r : result AwaError (A * Schema)) : Schema :=
  match r with Ok (_, s') => s' | Err _ => s end.

Definition ring_exec (o : ring_op) (y : RingSys) : RingSys :=
  let s := sys_schema y in
  match o with
  | RotRead w f old =>
      let mode := if old then Columns else authority s in
      match ring_cursor mode (ring s f) with
      | Ok c => mkRingSys s (<[w := mkRotator f old mode c]> (rotators y))
      | Err _ => y
      end
  | RotAppend w =>
      match rotators y !! w with
      | Some r => mkRingSys (committed s (rotator_append r s)) (delete w (rotators y))
      | None => y
      end
  | Fold pinned => mkRingSys (fold_ring_rotation_ledgers pinned s) (rotators y)
  | Flip force blocking =>
      mkRingSys (match flip_ring_authority force blocking s with Ok s' => s' | Err _ => s end) (rotators y)
  | Rows rows => mkRingSys (mkSchema (authority s) (ring s) rows) (rotators y)
  end.
Definition ring_run (ops : list ring_op) (y : RingSys) : RingSys := fold_left (fun y o => ring_exec o y) ops y.

(** * Facts *)

Definition entry_ok (n : Z) (e : Z * Z) : Prop := 0 <= fst e /\ snd e = fst e mod n.

Definition ring_ok (a : RingAuthority) (r : RingState) : Prop :=
  1 < slot_count r
  /\ ledger r <> []
  /\ Forall (entry_ok (slot_count r)) (ledger r)
  /\ match a with
     | Columns =>
         0 <= generation r /\ current_slot r = generation r mod slot_count r
         /\ Forall (fun e => fst e <= generation r) (ledger r)
     | Ledger => generation r = -1 /\ current_slot r = -1
     end.
Definition schema_ok (s : Schema) : Prop := forall f, ring_ok (authority s) (ring s f).

(** The generation the cursor stands at. *)
Definition cursor_gen (s : Schema) (f : RingFamily) : Z :=
  match ring_cursor (authority s) (ring s f) with Ok (_, g) => g | Err _ => -1 end.

Lemma sql_slot_mod g n : 0 <= g -> 0 < n -> sql_slot g n = g mod n.
Proof.
  intros Hg Hn. unfold sql_slot. rewrite (Z.rem_mod_nonneg g n) by lia.
  pose proof (Z.mod_pos_bound g n Hn). rewrite Z.rem_mod_nonneg by lia.
  replace (g mod n + n) with (g mod n + 1 * n) by lia. rewrite Z.mod_add, Z.mod_mod by lia. reflexivity.
Qed.

Lemma ledger_max_spec l g s :
  ledger_max l = Some (g, s) -> In (g, s) l /\ Forall (fun e => fst e <= g) l.
Proof.
  revert g s. induction l as [|[g0 s0] l IH]; simpl; intros g s H; [discriminate|].
  destruct (ledger_max l) as [[g1 s1]|] eqn:E.
  - destruct (IH _ _ eq_refl) as [Hin Hall]. destruct (Z.ltb_spec g1 g0); injection H as <- <-.
    + split; [left; reflexivity|]. constructor; [simpl; lia|]. eapply Forall_impl; [exact Hall|]. simpl. lia.
    + split; [right; exact Hin|]. constructor; [simpl; lia|exact Hall].
  - injection H as <- <-. destruct l as [|[g1 s1] l].
    + split; [left; reflexivity|]. repeat constructor. simpl. lia.
    + simpl in E. destruct (ledger_max l) as [[? ?]|]; [destruct (_ <? _)|]; discriminate E.
Qed.

Lemma ledger_max_None l : ledger_max l = None -> l = [].
Proof.
  destruct l as [|[g s] l]; [reflexivity|]. simpl.
  destruct (ledger_max l) as [[? ?]|]; [destruct (_ <? _)|]; discriminate.
Qed.

(** The row of the highest generation is the maximum. *)
Lemma ledger_max_top n l g :
  Forall (entry_ok n) l -> In (g, g mod n) l -> Forall (fun e => fst e <= g) l -> ledger_max l = Some (g, g mod n).
Proof.
  intros Hok Hin Hle. destruct (ledger_max l) as [[g' s']|] eqn:E.
  - apply ledger_max_spec in E as [Hin' Hle']. rewrite Forall_forall in *.
    assert (g' = g) as ->.
    { pose proof (Hle _ (proj2 (list_elem_of_In _ _) Hin')) as H1.
      pose proof (Hle' _ (proj2 (list_elem_of_In _ _) Hin)) as H2. simpl in *. lia. }
    destruct (Hok _ (proj2 (list_elem_of_In _ _) Hin')) as [_ Hs]. simpl in Hs. subst s'. reflexivity.
  - apply ledger_max_None in E. subst. destruct Hin.
Qed.

Lemma ledger_insert_snd g s l :
  snd (ledger_insert g s l) = if existsb (fun e => fst e =? g) l then l else (g, s) :: l.
Proof. unfold ledger_insert. case_match; reflexivity. Qed.

Lemma existsb_gen g l : existsb (fun e : Z * Z => fst e =? g) l = true <-> exists s, In (g, s) l.
Proof.
  rewrite existsb_exists. split.
  - intros ([g' s] & Hin & He). apply Z.eqb_eq in He. simpl in He. subst. eauto.
  - intros (s & Hin). exists (g, s). split; [exact Hin|apply Z.eqb_refl].
Qed.

Lemma in_z_range x lo hi : In x (z_range lo hi) <-> lo <= x < hi.
Proof.
  unfold z_range. rewrite in_map_iff. split.
  - intros (i & <- & Hi). apply in_seq in Hi. lia.
  - intros H. exists (Z.to_nat (x - lo)). rewrite in_seq. lia.
Qed.

(** Inserting a batch of generations keeps the rows, adds only rows of the
    batch, and leaves a row for every generation of it. *)
Lemma insert_batch_spec n gs : 0 < n -> (forall g, In g gs -> 0 <= g) -> forall l,
  Forall (entry_ok n) l ->
  let l' := fold_left (fun l g => snd (ledger_insert g (sql_slot g n) l)) gs l in
  Forall (entry_ok n) l'
  /\ (forall e, In e l -> In e l')
  /\ (forall e, In e l' -> In e l \/ In (fst e) gs)
  /\ (forall g, In g gs -> In (g, g mod n) l').
Proof.
  intros Hn. induction gs as [|g gs IH]; intros Hgs l Hl; simpl; [split_and!; auto; tauto|].
  assert (0 <= g) as Hg by (apply Hgs; left; reflexivity).
  set (l1 := snd (ledger_insert g (sql_slot g n) l)).
  assert (Forall (entry_ok n) l1 /\ (forall e, In e l -> In e l1)
          /\ (forall e, In e l1 -> In e l \/ fst e = g) /\ In (g, g mod n) l1) as (H1 & H2 & H3 & H4).
  { unfold l1. rewrite ledger_insert_snd, sql_slot_mod by lia. destruct (existsb _ _) eqn:E.
    - apply existsb_gen in E as (s & Hs). pose proof (proj1 (Forall_forall _ _) Hl _ (proj2 (list_elem_of_In _ _) Hs)) as [_ E].
      simpl in E. subst s. split_and!; auto.
    - split_and!; [constructor; [split; simpl; auto|exact Hl]|right; auto| |left; reflexivity].
      intros e [<-|]; [right; reflexivity|left; assumption]. }
  destruct (IH (fun g' H => Hgs g' (or_intror H)) l1 H1) as (I1 & I2 & I3 & I4). split_and!; auto.
  - intros e He. destruct (I3 e He) as [He'|]; [|auto]. destruct (H3 e He') as [|<-]; auto.
  - intros g' [<-|]; auto.
Qed.

Lemma backfill_spec n hi l :
  1 < n -> 0 <= hi -> Forall (entry_ok n) l -> Forall (fun e => fst e <= hi) l ->
  Forall (entry_ok n) (ledger_backfill hi n l)
  /\ Forall (fun e => fst e <= hi) (ledger_backfill hi n l)
  /\ ledger_max (ledger_backfill hi n l) = Some (hi, hi mod n).
Proof.
  intros Hn Hhi Hok Hle. unfold ledger_backfill.
  set (top := match ledger_max l with Some (g, _) => g | None => -1 end).
  assert (-1 <= top <= hi /\ (top = hi -> In (hi, hi mod n) l)) as [Htop Hin].
  { unfold top. destruct (ledger_max l) as [[g s]|] eqn:E; [|lia].
    apply ledger_max_spec in E as [Hin _]. apply list_elem_of_In in Hin. rewrite Forall_forall in Hok, Hle.
    destruct (Hok _ Hin) as [H0 H1]. pose proof (Hle _ Hin). simpl in *. split; [lia|].
    intros ->. subst s. apply list_elem_of_In. exact Hin. }
  destruct (insert_batch_spec n (z_range (top + 1) (hi + 1)) ltac:(lia)
              (fun g H => ltac:(apply in_z_range in H; lia)) l Hok) as (I1 & I2 & I3 & I4).
  set (l' := fold_left _ _ l) in *.
  assert (Forall (fun e => fst e <= hi) l') as Hle'.
  { apply Forall_forall. intros e He. apply list_elem_of_In in He. destruct (I3 e He) as [Hl|Hr].
    - rewrite Forall_forall in Hle. apply Hle, list_elem_of_In, Hl.
    - apply in_z_range in Hr. lia. }
  split_and!; [exact I1|exact Hle'|]. apply ledger_max_top; [exact I1| |exact Hle'].
  destruct (decide (top = hi)) as [E|E]; [apply I2, Hin, E|apply I4, in_z_range; lia].
Qed.

Definition cursor_at (a : RingAuthority) (r : RingState) (g : Z) : Prop :=
  ring_cursor a r = Ok (g mod slot_count r, g).

Lemma ring_ok_cursor a r : ring_ok a r ->
  exists g, cursor_at a r g /\ 0 <= g /\ Forall (fun e => fst e <= g) (ledger r).
Proof.
  intros (Hn & Hne & Hok & Ha). unfold cursor_at, ring_cursor. destruct a.
  - destruct Ha as (H0 & H1 & H2). exists (generation r). rewrite H1. auto.
  - destruct (ledger_max (ledger r)) as [[g s]|] eqn:E; [|apply ledger_max_None in E; congruence].
    apply ledger_max_spec in E as [Hin Hle]. exists g. rewrite Forall_forall in Hok.
    destruct (Hok _ (proj2 (list_elem_of_In _ _) Hin)) as [H0 H1]. simpl in *. subst s. auto.
Qed.

Lemma cursor_gen_at s f g : cursor_at (authority s) (ring s f) g -> cursor_gen s f = g.
Proof. unfold cursor_at, cursor_gen. intros ->. reflexivity. Qed.

Lemma schema_cursor s f : schema_ok s ->
  cursor_at (authority s) (ring s f) (cursor_gen s f) /\ 0 <= cursor_gen s f
  /\ Forall (fun e => fst e <= cursor_gen s f) (ledger (ring s f)).
Proof.
  intros H. destruct (ring_ok_cursor _ _ (H f)) as (g & Hg & H0 & Hle). rewrite (cursor_gen_at _ _ _ Hg). auto.
Qed.

Lemma ring_set_ring_eq f r s : ring (set_ring f r s) f = r.
Proof. simpl. rewrite decide_True by reflexivity. reflexivity. Qed.
Lemma ring_set_ring_ne f f' r s : f' <> f -> ring (set_ring f r s) f' = ring s f'.
Proof. intros. simpl. rewrite decide_False by assumption. reflexivity. Qed.

Lemma schema_ok_set_ring f r s : schema_ok s -> ring_ok (authority s) r -> schema_ok (set_ring f r s).
Proof. intros Hs Hr f'. simpl. case_decide; auto. Qed.

Lemma succ_slot g n : 0 < n -> rem_euclid (g mod n + 1) n = (g + 1) mod n.
Proof. intros. unfold rem_euclid. apply Zplus_mod_idemp_l. Qed.

(** Appending to the ledger a successor of a generation that was the cursor. *)
Lemma ledger_append_spec r c g :
  ring_ok Ledger r -> cursor_at Ledger r c -> 0 <= g <= c ->
  let '(inserted, l) := ledger_insert (g + 1) ((g + 1) mod slot_count r) (ledger r) in
  ring_ok Ledger (set_ledger l r) /\ cursor_at Ledger (set_ledger l r) (Z.max c (g + 1)) /\ (g = c -> inserted = true).
Proof.
  intros (Hn & Hne & Hok & Ha) Hc Hg. unfold cursor_at, ring_cursor in *.
  destruct (ledger_max (ledger r)) as [[c' s]|] eqn:E; [|discriminate]. injection Hc as -> ->.
  pose proof (ledger_max_spec _ _ _ E) as [Hin Hle].
  unfold ledger_insert. destruct (existsb _ _) eqn:Ex.
  - apply existsb_gen in Ex as (s & Hs). rewrite Forall_forall in Hle.
    pose proof (Hle _ (proj2 (list_elem_of_In _ _) Hs)) as H1. simpl in H1.
    rewrite Z.max_l by lia. split_and!; [exact (conj Hn (conj Hne (conj Hok Ha)))|simpl; rewrite E; reflexivity|lia].
  - split_and!; [|simpl|reflexivity].
    + unfold ring_ok. simpl. split_and!; [exact Hn|discriminate| |apply Ha|apply Ha].
      constructor; [split; simpl; lia|exact Hok].
    + rewrite E. destruct (Z.ltb_spec c (g + 1)); repeat f_equal; lia.
Qed.

(** The column compare-and-swap from the cursor, with or without the ledger
    reconciliation. *)
Lemma columns_advance_spec r gens l :
  ring_ok Columns r -> let g := generation r + 1 in
  l = ledger r \/ l = ledger_backfill g (slot_count r) (ledger r) ->
  ring_ok Columns (mkRing (slot_count r) (g mod slot_count r) g gens l)
  /\ cursor_at Columns (mkRing (slot_count r) (g mod slot_count r) g gens l) g.
Proof.
  intros (Hn & Hne & Hok & H0 & H1 & H2) g Hl.
  assert (Forall (fun e : Z * Z => fst e <= g) (ledger r)) as H3
    by (eapply Forall_impl; [exact H2|simpl; unfold g; lia]).
  split; [|reflexivity]. unfold ring_ok. simpl.
  destruct Hl as [->| ->]; [split_and!; auto; unfold g; lia|].
  destruct (backfill_spec (slot_count r) g (ledger r) Hn ltac:(unfold g; lia) Hok H3) as (I1 & I2 & I3).
  split_and!; auto; [|unfold g; lia]. intros E. rewrite E in I3. discriminate.
Qed.

(** What a rotator may hold: a cursor that was current once, or, for one of
    the previous version after the flip, the poisoned columns. *)
Definition rotator_ok (s : Schema) (r : Rotator) : Prop :=
  (rot_mode r = Ledger -> authority s = Ledger)
  /\ (rot_old r = true -> rot_mode r = Columns)
  /\ ((exists g, rot_cursor r = (g mod slot_count (ring s (rot_family r)), g) /\ 0 <= g <= cursor_gen s (rot_family r))
      \/ (rot_old r = true /\ rot_cursor r = (-1, -1) /\ authority s = Ledger)).

(** One step of the cursors: all stay, or the one of [r]'s ring leaves the
    generation [r] had read for the next. *)
Definition cursors_step (s : Schema) (r : Rotator) (s' : Schema) : Prop :=
  authority s' = authority s
  /\ (forall f, slot_count (ring s' f) = slot_count (ring s f))
  /\ forall f, cursor_gen s' f = cursor_gen s f
               \/ (f = rot_family r /\ snd (rot_cursor r) = cursor_gen s f /\ cursor_gen s' f = cursor_gen s f + 1).

Lemma cursors_step_refl s r : cursors_step s r s.
Proof. repeat split; auto. Qed.

Lemma cursors_step_ring s r f r' c :
  rot_family r = f -> slot_count r' = slot_count (ring s f) -> cursor_at (authority s) r' c ->
  c = cursor_gen s f \/ (snd (rot_cursor r) = cursor_gen s f /\ c = cursor_gen s f + 1) ->
  cursors_step s r (set_ring f r' s).
Proof.
  intros Hf Hn Hc Hor. split; [reflexivity|]. split; intros f'; (destruct (decide (f' = f)) as [->|Hne]).
  - rewrite ring_set_ring_eq. exact Hn.
  - rewrite ring_set_ring_ne by exact Hne. reflexivity.
  - rewrite (cursor_gen_at (set_ring f r' s) f c) by (rewrite ring_set_ring_eq; exact Hc). destruct Hor as [?|[? ?]]; auto.
  - left. unfold cursor_gen. rewrite ring_set_ring_ne by exact Hne. reflexivity.
Qed.

(** The compare-and-swap of either version against the columns: it changes
    something only in compat authority, from the cursor. *)
Lemma columns_cas_step s r g next gens l :
  schema_ok s -> let f := rot_family r in
  authority s = Columns -> generation (ring s f) = g -> snd (rot_cursor r) = g ->
  next = (g + 1) mod slot_count (ring s f) ->
  l = ledger (ring s f) \/ l = ledger_backfill (g + 1) (slot_count (ring s f)) (ledger (ring s f)) ->
  let s' := set_ring f (mkRing (slot_count (ring s f)) next (g + 1) gens l) s in
  schema_ok s' /\ cursors_step s r s'.
Proof.
  intros Hs f Ha <- Hr -> Hl. pose proof (Hs f) as Hf. rewrite Ha in Hf.
  destruct (columns_advance_spec _ gens l Hf Hl) as [H1 H2]. split.
  - apply schema_ok_set_ring; [exact Hs|rewrite Ha; exact H1].
  - apply cursors_step_ring with (generation (ring s f) + 1); [reflexivity|reflexivity|rewrite Ha; exact H2|].
    right. unfold cursor_gen. rewrite Ha. simpl. auto.
Qed.

Lemma poisoned_columns s f : schema_ok s -> authority s = Ledger -> generation (ring s f) = -1.
Proof. intros Hs Ha. specialize (Hs f). rewrite Ha in Hs. apply Hs. Qed.

Lemma update_compat_Ledger slot gen r :
  gen <> generation r -> update_compat_cursor Ledger slot gen r = Err (map_sqlx_error (SqlxDatabase (Some "55000") None)).
Proof.
  intros H. unfold update_compat_cursor. rewrite bool_decide_true by reflexivity.
  apply Z.eqb_neq in H. rewrite H, andb_false_r. reflexivity.
Qed.

Lemma update_compat_Columns slot gen r :
  update_compat_cursor Columns slot gen r = Ok (mkRing (slot_count r) slot gen (slot_generations r) (ledger r)).
Proof. reflexivity. Qed.

Lemma rotator_append_step s r :
  schema_ok s -> rotator_ok s r ->
  let s' := committed s (rotator_append r s) in schema_ok s' /\ cursors_step s r s'.
Proof.
  intros Hs (Hmode & Hold & Hcur). unfold rotator_append. set (f := rot_family r) in *.
  assert (1 < slot_count (ring s f)) as Hn by apply Hs.
  destruct Hcur as [(g & Hc & Hg)|(Ho & Hc & Ha)]; rewrite Hc.
  - rewrite succ_slot by lia.
    assert (snd (rot_cursor r) = g) as Hsnd by (rewrite Hc; reflexivity).
    destruct (rot_mode r) eqn:Hm.
    + (* compare-and-swap on the columns *)
      unfold old_append, append_ring_rotation. replace (g + 1 - 1) with g by lia.
      destruct (Z.eqb_spec (generation (ring s f)) g) as [E|E];
        [|destruct (rot_old r); (split; [exact Hs|apply cursors_step_refl])].
      destruct (authority s) eqn:Ha; [|pose proof (poisoned_columns s f Hs Ha); lia].
      rewrite update_compat_Columns. destruct (rot_old r); simpl; eapply columns_cas_step; eauto.
    + (* ledger append *)
      destruct (rot_old r) eqn:Ho; [discriminate (Hold eq_refl)|]. specialize (Hmode eq_refl).
      destruct (schema_cursor s f Hs) as (Hcur & _). pose proof (Hs f) as Hf. rewrite Hmode in Hcur, Hf.
      pose proof (ledger_append_spec _ _ g Hf Hcur Hg) as H. unfold append_ring_rotation.
      destruct (ledger_insert _ _ _) as [ins l]. destruct H as (H1 & H2 & _). simpl. split.
      * apply schema_ok_set_ring; [exact Hs|rewrite Hmode; exact H1].
      * apply cursors_step_ring with (Z.max (cursor_gen s f) (g + 1)); [reflexivity|reflexivity|rewrite Hmode; exact H2|].
        rewrite Hsnd. lia.
  - rewrite Ho. unfold old_append. rewrite (poisoned_columns s f Hs Ha). simpl. rewrite Ha, update_compat_Ledger.
    + split; [exact Hs|apply cursors_step_refl].
    + rewrite (poisoned_columns s f Hs Ha). lia.
Qed.

(** The fold keeps the newest row. *)
Lemma fold_ledger_ok a r c : ring_ok a r -> cursor_at a r c ->
  ring_ok a (fold_ledger r) /\ cursor_at a (fold_ledger r) c /\ slot_count (fold_ledger r) = slot_count r.
Proof.
  intros (Hn & Hne & Hok & Ha) Hc. unfold fold_ledger.
  destruct (ledger_max (ledger r)) as [[top s]|] eqn:E; [|apply ledger_max_None in E; congruence].
  set (l := List.filter _ _).
  assert (forall P, Forall P (ledger r) -> Forall P l) as Hsub.
  { intros P. rewrite !Forall_forall. intros H e He. apply H, list_elem_of_In.
    apply list_elem_of_In, List.filter_In in He. apply He. }
  pose proof (ledger_max_spec _ _ _ E) as [Hin Hle].
  assert (In (top, s) l) as Hin'.
  { apply List.filter_In. split; [exact Hin|]. simpl. destruct (Z.ltb_spec top (top - (slot_count r - 1))); [lia|reflexivity]. }
  assert (l <> []) as Hl by (intros El; rewrite El in Hin'; exact Hin').
  split_and!; [|unfold cursor_at, ring_cursor in *; simpl|reflexivity].
  - unfold ring_ok. simpl. split_and!; auto. destruct a; [|exact Ha]. destruct Ha as (H0 & H1 & H2). auto.
  - destruct a; [exact Hc|]. rewrite E in Hc. injection Hc as -> ->.
    rewrite (ledger_max_top (slot_count r) l c); auto.
Qed.

(** The flip of one ring keeps its cursor and leaves the columns poisoned. *)
Lemma flip_ring_ok r r' : ring_ok Columns r -> flip_reconcile r = Ok r' ->
  ring_ok Ledger (poison r') /\ cursor_at Ledger (poison r') (generation r) /\ slot_count r' = slot_count r.
Proof.
  intros (Hn & Hne & Hok & H0 & H1 & H2) H. unfold flip_reconcile in H.
  destruct (backfill_spec (slot_count r) (generation r) (ledger r) Hn H0 Hok H2) as (I1 & I2 & I3).
  destruct (_ || _); [discriminate|].
  destruct (match ledger_max (ledger r) with Some (g, _) => generation r <? g | None => false end); [discriminate|].
  rewrite I3 in H. destruct (_ && _); [|discriminate]. injection H as <-.
  split_and!; [|unfold cursor_at; simpl; rewrite I3; reflexivity|reflexivity].
  unfold ring_ok. simpl. split_and!; auto. intros E. rewrite E in I3. discriminate.
Qed.

(** In a well-formed schema the flip's own checks never fail. *)
Lemma flip_reconcile_Ok r : ring_ok Columns r -> exists r', flip_reconcile r = Ok r'.
Proof.
  intros (Hn & Hne & Hok & H0 & H1 & H2). unfold flip_reconcile.
  destruct (backfill_spec (slot_count r) (generation r) (ledger r) Hn H0 Hok H2) as (I1 & I2 & I3).
  pose proof (Z.mod_pos_bound (generation r) (slot_count r) ltac:(lia)). rewrite sql_slot_mod, H1, Z.eqb_refl by lia.
  destruct (Z.ltb_spec (generation r) 0); [lia|]. destruct (Z.ltb_spec (generation r mod slot_count r) 0); [lia|].
  destruct (Z.leb_spec (slot_count r) (generation r mod slot_count r)); [lia|]. simpl.
  destruct (ledger_max (ledger r)) as [[g s]|] eqn:E; [|apply ledger_max_None in E; congruence].
  apply ledger_max_spec in E as [Hin _]. rewrite Forall_forall in H2.
  pose proof (H2 _ (proj2 (list_elem_of_In _ _) Hin)) as Hg. simpl in Hg.
  destruct (Z.ltb_spec (generation r) g); [lia|]. rewrite I3, !Z.eqb_refl. eauto.
Qed.

Definition ring_inv (y : RingSys) : Prop :=
  schema_ok (sys_schema y) /\ map_Forall (fun _ r => rotator_ok (sys_schema y) r) (rotators y).

(** What every step of the system keeps: the ring widths, the one-way
    authority and the order of the cursors. *)
Definition schema_le (s s' : Schema) : Prop :=
  (authority s = Ledger -> authority s' = Ledger)
  /\ forall f, slot_count (ring s' f) = slot_count (ring s f) /\ cursor_gen s f <= cursor_gen s' f.

#[export] Instance schema_le_preorder : PreOrder schema_le.
Proof.
  split; [intros s; split; auto with lia|]. intros s1 s2 s3 [A1 H1] [A2 H2]. split; [auto|].
  intros f. destruct (H1 f), (H2 f). split; [congruence|lia].
Qed.

Lemma rotator_ok_le s s' r : schema_le s s' -> rotator_ok s r -> rotator_ok s' r.
Proof.
  intros [Ha H] (Hm & Ho & Hc). destruct (H (rot_family r)) as [Hn Hg].
  split; [auto|]. split; [exact Ho|]. destruct Hc as [(g & Hr & Hle)|(H1 & H2 & H3)]; [left|right; auto].
  exists g. rewrite Hn. split; [exact Hr|lia].
Qed.

Lemma ring_inv_intro s y rots : ring_inv y -> schema_le (sys_schema y) s -> schema_ok s ->
  (forall w r, rots !! w = Some r -> rotators y !! w = Some r \/ rotator_ok s r) -> ring_inv (mkRingSys s rots).
Proof.
  intros [_ Hr] Hle Hs H. split; [exact Hs|]. intros w r Hw. destruct (H w r Hw) as [Hy|]; [|assumption].
  eapply rotator_ok_le; [exact Hle|]. exact (Hr w r Hy).
Qed.

Lemma cursors_step_le s r s' : cursors_step s r s' -> schema_le s s'.
Proof. intros (Ha & Hn & Hc). split; [congruence|]. intros f. split; [apply Hn|]. destruct (Hc f) as [|(_ & _ & ?)]; lia. Qed.

(** A step that moves no cursor. *)
Definition cursors_stay (s s' : Schema) : Prop :=
  schema_le s s' /\ forall f, cursor_gen s' f = cursor_gen s f.

Lemma cursors_stay_intro s s' (c : RingFamily -> Z) :
  (authority s = Ledger -> authority s' = Ledger) ->
  (forall f, slot_count (ring s' f) = slot_count (ring s f)
             /\ cursor_at (authority s) (ring s f) (c f) /\ cursor_at (authority s') (ring s' f) (c f)) ->
  cursors_stay s s'.
Proof.
  intros Ha H. assert (forall f, cursor_gen s' f = cursor_gen s f) as E.
  { intros f. destruct (H f) as (_ & H1 & H2). rewrite (cursor_gen_at _ _ _ H1), (cursor_gen_at _ _ _ H2). reflexivity. }
  split; [split; [exact Ha|]|exact E]. intros f. rewrite E. split; [apply H|lia].
Qed.

Lemma fold_stays pinned s : schema_ok s ->
  schema_ok (fold_ring_rotation_ledgers pinned s) /\ cursors_stay s (fold_ring_rotation_ledgers pinned s).
Proof.
  intros Hs. unfold fold_ring_rotation_ledgers. destruct pinned; [split; [exact Hs|split; reflexivity]|].
  assert (forall f, ring_ok (authority s) (fold_ledger (ring s f))
                    /\ cursor_at (authority s) (fold_ledger (ring s f)) (cursor_gen s f)
                    /\ slot_count (fold_ledger (ring s f)) = slot_count (ring s f)) as H
    by (intros f; apply fold_ledger_ok; [apply Hs|apply schema_cursor, Hs]).
  split; [intros f; apply H|]. apply cursors_stay_intro with (cursor_gen s); [auto|].
  intros f. split_and!; [apply H|apply schema_cursor, Hs|apply H].
Qed.

Lemma flip_stays force blocking s s' : schema_ok s -> flip_ring_authority force blocking s = Ok s' ->
  schema_ok s' /\ cursors_stay s s' /\ authority s' = Ledger /\ child_rows s' = child_rows s.
Proof.
  intros Hs H. unfold flip_ring_authority in H. destruct (authority s) eqn:Ha.
  2: { injection H as <-. split_and!; [exact Hs|split; reflexivity|exact Ha|reflexivity]. }
  destruct (_ && _); [discriminate|].
  apply rbind_Ok in H as (q & Hq & H). apply rbind_Ok in H as (l & Hl & H). apply rbind_Ok in H as (c & Hc & H).
  injection H as <-.
  assert (forall f, ring_ok Columns (ring s f)) as Hok by (intros f; specialize (Hs f); rewrite Ha in Hs; exact Hs).
  pose proof (flip_ring_ok _ _ (Hok QueueRing) Hq). pose proof (flip_ring_ok _ _ (Hok LeaseRing) Hl).
  pose proof (flip_ring_ok _ _ (Hok ClaimRing) Hc).
  split_and!; [intros []; simpl; tauto| |reflexivity|reflexivity].
  apply cursors_stay_intro with (fun f => generation (ring s f)); [congruence|].
  intros f. split_and!; [destruct f; simpl; tauto| |destruct f; simpl; tauto].
  rewrite Ha. destruct (Hok f) as (_ & _ & _ & _ & Hsl & _). unfold cursor_at. simpl. rewrite Hsl. reflexivity.
Qed.

Definition may_advance (o : ring_op) (y : RingSys) (f : RingFamily) : Prop :=
  exists w r, o = RotAppend w /\ rotators y !! w = Some r /\ rot_family r = f
              /\ snd (rot_cursor r) = cursor_gen (sys_schema y) f.

Lemma ring_step o y : ring_inv y ->
  let y' := ring_exec o y in
  ring_inv y' /\ schema_le (sys_schema y) (sys_schema y')
  /\ forall f, cursor_gen (sys_schema y') f = cursor_gen (sys_schema y) f
               \/ (may_advance o y f /\ cursor_gen (sys_schema y') f = cursor_gen (sys_schema y) f + 1).
Proof.
  intros Hy. pose proof Hy as [Hs Hr]. destruct o as [w f old|w|pinned|force blocking|rows]; simpl.
  - destruct (schema_cursor (sys_schema y) f Hs) as (Hc & H0 & _).
    destruct (ring_cursor _ _) as [[slot g]|] eqn:E; [|split_and!; [exact Hy|reflexivity|auto]].
    split_and!; [|reflexivity|auto]. apply (ring_inv_intro _ y); [exact Hy|reflexivity|exact Hs|].
    intros w' r. destruct (decide (w' = w)) as [->|Hne]; [|rewrite lookup_insert_ne by congruence; auto].
    rewrite lookup_insert_eq. intros [= <-]. right. destruct y as [s rots]. simpl in *. split_and!; simpl.
    + destruct old; [discriminate|auto].
    + intros ->. reflexivity.
    + pose proof (Hs f) as Hf. unfold cursor_at in Hc. destruct old; [|left; rewrite E in Hc; injection Hc as -> ->; eauto with lia].
      destruct (authority s); [left; rewrite E in Hc; injection Hc as -> ->; eauto with lia|right].
      destruct Hf as (_ & _ & _ & Hg & Hsl). simpl in E. rewrite Hg, Hsl in E. injection E as <- <-. auto.
  - destruct (rotators y !! w) as [r|] eqn:E; [|split_and!; [exact Hy|reflexivity|auto]]. simpl.
    destruct (rotator_append_step (sys_schema y) r Hs (Hr w r E)) as [H1 H2]. split_and!.
    + apply (ring_inv_intro _ y); [exact Hy|exact (cursors_step_le _ _ _ H2)|exact H1|].
      intros w' r' H. apply lookup_delete_Some in H as [_ H]. auto.
    + exact (cursors_step_le _ _ _ H2).
    + intros f. destruct H2 as (_ & _ & Hf). destruct (Hf f) as [|(-> & Hg & Hc)]; [auto|]. right. split; [|exact Hc].
      exists w, r. auto.
  - destruct (fold_stays pinned _ Hs) as (H1 & H2 & H3).
    split_and!; [apply (ring_inv_intro _ y)| |]; auto.
  - destruct (flip_ring_authority _ _ _) as [s'|] eqn:E; [|destruct y; split_and!; [exact Hy|reflexivity|auto]].
    destruct (flip_stays _ _ _ _ Hs E) as (H1 & (H2 & H3) & _).
    split_and!; [apply (ring_inv_intro _ y)| |]; auto.
  - assert (schema_le (sys_schema y) (mkSchema (authority (sys_schema y)) (ring (sys_schema y)) rows)) as Hle
      by (split; [auto|]; intros f; split; [reflexivity|apply Z.le_refl]).
    split_and!; [apply (ring_inv_intro _ y)| |]; auto.
Qed.

Lemma ring_run_inv ops y : ring_inv y ->
  ring_inv (ring_run ops y) /\ schema_le (sys_schema y) (sys_schema (ring_run ops y)).
Proof.
  revert y. induction ops as [|o ops IH]; intros y Hy; [split; [exact Hy|reflexivity]|].
  destruct (ring_step o y Hy) as (H1 & H2 & _). destruct (IH _ H1) as [H3 H4].
  split; [exact H3|]. etransitivity; [exact H2|exact H4].
Qed.

(** * Properties *)

Module RotationDemo.

(** An upgraded schema of three rings, still in compat authority: the columns
    are two rotations ahead of the ledger. *)
Definition upgraded : Schema :=
  mkSchema Columns (fun _ => mkRing 4 2 6 {[0 := 4; 1 := 5; 2 := 6; 3 := 3]} [(4, 0); (3, 3)])
    (fun _ slot => if slot =? 2 then [7] else [0]).
Definition start : RingSys := mkRingSys upgraded ∅.

Lemma upgraded_ok : schema_ok upgraded.
Proof.
  intros f. unfold ring_ok. simpl. split_and!; try lia; try discriminate; try reflexivity;
    repeat constructor; simpl; lia || reflexivity.
Qed.

Lemma start_inv : ring_inv start.
Proof. split; [exact upgraded_ok|]. apply map_Forall_empty. Qed.

End RotationDemo.

(** C39. Rotators of both versions, the ledger fold and the flip interleave in
    any order, without any lock between a rotator's read and its append. The
    cursor of each ring is always the slot of its generation, never goes back,
    and moves by exactly one generation, only when a rotator that read the
    current cursor appends. *)
Theorem ring_cursor_advances_by_one (y : RingSys) (ops : list ring_op) (o : ring_op) (f : RingFamily) :
  ring_inv y ->
  let before := ring_run ops y in
  let s := sys_schema before in
  let s' := sys_schema (ring_exec o before) in
  cursor_gen (sys_schema y) f <= cursor_gen s f
  /\ ring_cursor (authority s') (ring s' f) = Ok (cursor_gen s' f mod slot_count (ring s' f), cursor_gen s' f)
  /\ (cursor_gen s' f = cursor_gen s f
      \/ (cursor_gen s' f = cursor_gen s f + 1
          /\ exists w r, o = RotAppend w /\ rotators before !! w = Some r /\ rot_family r = f
                         /\ snd (rot_cursor r) = cursor_gen s f)).
Proof.
  intros Hy before s s'. destruct (ring_run_inv ops y Hy) as [H1 [_ Hle]].
  destruct (ring_step o _ H1) as ([H2 _] & _ & Hf). split_and!; [apply Hle|apply schema_cursor, H2|].
  destruct (Hf f) as [|[(w & r & Hw) Hc]]; [auto|]. right. split; [exact Hc|]. exists w, r. exact Hw.
Qed.

(** A rotator of the previous version wins against a current one, the flip
    promotes its cursor, and a rotator that comes back from before the flip
    appends nothing. *)
Lemma ring_cursor_advances_by_one_witness :
  let ops := [RotRead 0 QueueRing false; RotRead 1 QueueRing true; RotRead 2 QueueRing true;
              RotAppend 1; RotAppend 0; Flip false 0; RotAppend 2; RotRead 3 QueueRing false] in
  let y := ring_run ops RotationDemo.start in
  cursor_gen (sys_schema y) QueueRing = 7
  /\ cursor_gen (sys_schema (ring_exec (RotAppend 3) y)) QueueRing = 8
  /\ 6 <= cursor_gen (sys_schema y) QueueRing.
Proof.
  intros ops y. split_and!; [vm_compute; reflexivity|vm_compute; reflexivity|].
  apply (ring_cursor_advances_by_one RotationDemo.start ops (RotAppend 3) QueueRing RotationDemo.start_inv).
Defined.

(** The flip to ledger authority succeeds on a well-formed schema unless
    runtimes that are not flip-aware block it; it keeps the cursor of all three
    rings even when the ledger lags behind the columns, and from then on no
    append of a rotator of the previous version changes anything. *)
Theorem flip_keeps_cursors (force : bool) (blocking : Z) (s : Schema) :
  schema_ok s ->
  (authority s = Columns /\ force = false /\ 0 < blocking /\ flip_ring_authority force blocking s = Err raise_55000)
  \/ exists s', flip_ring_authority force blocking s = Ok s'
       /\ authority s' = Ledger
       /\ (forall f, ring_cursor (authority s') (ring s' f) = ring_cursor (authority s) (ring s f))
       /\ child_rows s' = child_rows s
       /\ (forall f gen slot, 0 <= gen -> committed s' (old_append f gen slot s') = s')
       /\ flip_ring_authority force blocking s' = Ok s'.
Proof.
  intros Hs.
  assert ((authority s = Columns /\ force = false /\ 0 < blocking /\ flip_ring_authority force blocking s = Err raise_55000)
          \/ exists s', flip_ring_authority force blocking s = Ok s') as [H|[s' H]].
  { unfold flip_ring_authority. destruct (authority s) eqn:Ha; [|eauto].
    destruct force; simpl; [|destruct (Z.ltb_spec 0 blocking); [auto|]]; right;
      (assert (forall f, exists r', flip_reconcile (ring s f) = Ok r') as Hr
         by (intros f; apply flip_reconcile_Ok; specialize (Hs f); rewrite Ha in Hs; exact Hs));
      destruct (Hr QueueRing) as [? ->], (Hr LeaseRing) as [? ->], (Hr ClaimRing) as [? ->]; simpl; eauto. }
  - left. exact H.
  - right. exists s'. destruct (flip_stays _ _ _ _ Hs H) as (Hs' & [[_ Hn] Hc] & Ha & Hrows).
    split_and!; [exact H|exact Ha| |exact Hrows| |unfold flip_ring_authority; rewrite Ha; reflexivity].
    + intros f. destruct (schema_cursor s f Hs) as (-> & _), (schema_cursor s' f Hs') as (-> & _).
      destruct (Hn f) as [-> _]. rewrite Hc. reflexivity.
    + intros f gen slot Hg. unfold old_append. destruct (_ =? _); [|reflexivity].
      rewrite Ha, update_compat_Ledger; [reflexivity|]. rewrite (poisoned_columns s' f Hs' Ha). lia.
Qed.

Lemma flip_keeps_cursors_witness :
  exists s', flip_ring_authority false 0 RotationDemo.upgraded = Ok s'
             /\ ring_cursor (authority s') (ring s' LeaseRing) = Ok (2, 6).
Proof.
  destruct (flip_keeps_cursors false 0 RotationDemo.upgraded RotationDemo.upgraded_ok)
    as [(_ & _ & H & _)|(s' & H & _ & Hc & _)]; [lia|].
  exists s'. split; [exact H|]. rewrite Hc. reflexivity.
Defined.

(** * The fill gate *)

Definition nonneg (rows : list Z) : Prop := Forall (fun c => 0 <= c) rows.

Lemma sum_nonneg rows : nonneg rows -> 0 <= sum rows.
Proof. induction 1; simpl; lia. Qed.

(** The bounded probe decides the comparisons the exact count would. *)
Lemma sampled_rows_spec limit rows k :
  nonneg rows -> 0 <= k <= limit ->
  0 <= sampled_rows limit rows <= sum rows /\ (sampled_rows limit rows < k <-> sum rows < k).
Proof.
  intros Hrows Hk.
  assert (0 <= sampled_rows limit rows <= sum rows
          /\ (sampled_rows limit rows < limit -> sampled_rows limit rows = sum rows)) as [H1 H2].
  { unfold sampled_rows, sum. induction Hrows as [|c rows Hc Hrows IH]; simpl in *; [lia|]. destruct IH as [I1 I2].
    set (a := foldr Z.add 0 (map (Z.min limit) rows)) in *. clearbody a.
    split; [lia|]. intros H. specialize (I2 ltac:(lia)). lia. }
  split; [exact H1|]. split; intros H; [rewrite <- H2 by lia; exact H|lia].
Qed.

(** Since when this process has seen the slot of [cursor] hold rows. *)
Definition filling_since (f : RingFamily) (cursor : Z * Z) (t : Tick) (m : observations) : Z :=
  match m f with
  | Some o => if decide (obs_cursor o = cursor) then first_nonempty_at o else now t
  | None => now t
  end.
Definition slot_open_for (t : Tick) : Z :=
  match open_secs t with Some s => Z.max 0 s | None => 0 end.

Lemma observe_eq f o m : observe f o m f = o.
Proof. unfold observe. apply decide_True. reflexivity. Qed.

Lemma slot_still_filling_cases f cursor cadence rows t m :
  nonneg rows -> 0 <= min_slot_rows cadence <= i64_max -> min_slot_age cadence <> 0 -> 0 < sum rows ->
  let since := filling_since f cursor t m in
  slot_still_filling f cursor cadence rows t m
  = (negb ((0 <? target_slot_bytes cadence) && (target_slot_bytes cadence <=? Z.max 0 (slot_bytes t)))
     && negb (negb (max_slot_age cadence =? 0) && (max_slot_age cadence <=? Z.max (now t - since) (slot_open_for t)))
     && ((now t - since <? min_slot_age cadence) || (sum rows <? min_slot_rows cadence)),
     observe f (Some (mkObservation cursor since)) m).
Proof.
  intros Hrows Hmin Hage Hsum since. unfold slot_still_filling. apply Z.eqb_neq in Hage. rewrite Hage.
  set (limit := Z.min _ _). assert (1 <= limit /\ min_slot_rows cadence <= limit) as [Hl1 Hl2]
    by (pose proof (eq_refl : (0 <? i64_max) = true) as Hi; apply Z.ltb_lt in Hi; unfold limit; lia).
  destruct (sampled_rows_spec limit rows 1 Hrows ltac:(lia)) as [Hb H1].
  destruct (sampled_rows_spec limit rows (min_slot_rows cadence) Hrows ltac:(lia)) as [_ H2].
  assert ((0 <? sampled_rows limit rows) = true) as -> by (apply Z.ltb_lt; lia). simpl negb at 1. cbv iota.
  assert ((sampled_rows limit rows <? min_slot_rows cadence) = (sum rows <? min_slot_rows cadence)) as ->
    by (destruct (Z.ltb_spec (sampled_rows limit rows) (min_slot_rows cadence)), (Z.ltb_spec (sum rows) (min_slot_rows cadence)); lia || reflexivity).
  set (o := match m f with Some _ => _ | None => _ end).
  assert (o = mkObservation cursor since) as ->.
  { unfold o, since, filling_since. destruct (m f) as [[c x]|]; [|reflexivity]. simpl. case_decide; simpl; congruence. }
  assert (match open_secs t with Some s => if 0 <? s then s else 0 | None => 0 end = slot_open_for t) as ->.
  { unfold slot_open_for. destruct (open_secs t) as [s|]; [|reflexivity]. destruct (Z.ltb_spec 0 s); lia. }
  simpl first_nonempty_at. destruct ((0 <? target_slot_bytes cadence) && _); [reflexivity|].
  destruct (negb (max_slot_age cadence =? 0) && _); [reflexivity|].
  destruct (now t - since <? min_slot_age cadence); [reflexivity|]. destruct (sum rows <? _); reflexivity.
Qed.

Lemma slot_still_filling_empty f cursor cadence rows t m :
  nonneg rows -> sum rows <= 0 -> fst (slot_still_filling f cursor cadence rows t m) = false.
Proof.
  intros Hrows Hsum. unfold slot_still_filling. destruct (min_slot_age cadence =? 0); [reflexivity|].
  set (limit := Z.min _ _). assert (0 <= limit) as Hl by (unfold limit, i64_max; lia).
  destruct (sampled_rows_spec limit rows 0 Hrows ltac:(lia)) as [Hb _].
  destruct (Z.ltb_spec 0 (sampled_rows limit rows)); [lia|]. reflexivity.
Qed.

(** The fill gate, whose probe reads at most [min_slot_rows] rows of each
    child, keeps a slot open exactly when the cadence says so of the exact row
    count: a window is set, the slot holds rows, neither the byte target nor
    the age ceiling is reached, and it is younger than the window or holds
    fewer rows than the floor. *)
Theorem slot_still_filling_exact (f : RingFamily) (cursor : Z * Z) (cadence : RingRotationCadence) (rows : list Z)
    (t : Tick) (m : observations) :
  nonneg rows -> 0 <= min_slot_rows cadence <= i64_max ->
  let age := now t - filling_since f cursor t m in
  fst (slot_still_filling f cursor cadence rows t m) = true
  <-> min_slot_age cadence <> 0
      /\ 0 < sum rows
      /\ ~ (0 < target_slot_bytes cadence <= Z.max 0 (slot_bytes t))
      /\ ~ (max_slot_age cadence <> 0 /\ max_slot_age cadence <= Z.max age (slot_open_for t))
      /\ (age < min_slot_age cadence \/ sum rows < min_slot_rows cadence).
Proof.
  intros Hrows Hmin age. destruct (decide (min_slot_age cadence = 0)) as [E|E].
  { unfold slot_still_filling. rewrite E. simpl. split; [discriminate|tauto]. }
  destruct (decide (0 < sum rows)) as [Hs|Hs].
  - rewrite slot_still_filling_cases by assumption. simpl. fold age.
    rewrite !andb_true_iff, !negb_true_iff, !andb_false_iff, orb_true_iff, negb_false_iff,
      !Z.ltb_lt, !Z.ltb_ge, !Z.leb_gt, Z.eqb_eq. lia.
  - rewrite slot_still_filling_empty by (assumption || lia). split; [discriminate|tauto].
Qed.

Lemma slot_still_filling_exact_witness :
  fst (slot_still_filling QueueRing (2, 6) DEFAULT [40; 0; 3] (mkTick true (6 * 10 ^ 9) 8192 None false)
         (fun _ => Some (mkObservation (2, 6) 0))) = true.
Proof.
  apply slot_still_filling_exact; [repeat constructor; lia|vm_compute; split; discriminate|].
  vm_compute. split_and!; try discriminate; try (intros []; discriminate || congruence); auto.
Defined.

(** Ticks that all see rows in the slot of one cursor. *)
Fixpoint fill_ticks (f : RingFamily) (cursor : Z * Z) (cadence : RingRotationCadence) (ticks : list (list Z * Tick))
    (m : observations) : observations :=
  match ticks with
  | [] => m
  | (rows, t) :: ticks =>
      fill_ticks f cursor cadence ticks (snd (slot_still_filling f cursor cadence rows t m))
  end.

Lemma fill_ticks_observed f cursor cadence ticks : forall m x,
  0 <= min_slot_rows cadence <= i64_max -> min_slot_age cadence <> 0 ->
  Forall (fun p => nonneg (fst p) /\ 0 < sum (fst p)) ticks ->
  m f = Some (mkObservation cursor x) -> fill_ticks f cursor cadence ticks m f = Some (mkObservation cursor x).
Proof.
  induction ticks as [|[rows t] ticks IH]; intros m x Hmin Hage Hall Hm; [exact Hm|].
  apply Forall_cons in Hall as [[Hn Hs] Hall']. simpl in Hn, Hs. simpl. rewrite slot_still_filling_cases by assumption.
  apply IH; [assumption..|]. simpl. rewrite observe_eq. unfold filling_since. rewrite Hm. simpl.
  rewrite decide_True by reflexivity. reflexivity.
Qed.

(** With an age ceiling set, a slot cannot be kept open for ever: from the
    first tick that sees rows in it on, whatever the ticks in between saw of
    its rows and size, a tick at least [max_slot_age] later seals it. *)
Theorem slot_seals_within_max_age (f : RingFamily) (cursor : Z * Z) (cadence : RingRotationCadence)
    (first : list Z * Tick) (ticks : list (list Z * Tick)) (last : list Z * Tick) (m : observations) :
  0 <= min_slot_rows cadence <= i64_max -> max_slot_age cadence <> 0 ->
  Forall (fun p => nonneg (fst p) /\ 0 < sum (fst p)) (first :: ticks) ->
  nonneg (fst last) ->
  (forall o, m f = Some o -> first_nonempty_at o <= now (snd first)) ->
  now (snd first) + max_slot_age cadence <= now (snd last) ->
  fst (slot_still_filling f cursor cadence (fst last) (snd last) (fill_ticks f cursor cadence (first :: ticks) m)) = false.
Proof.
  intros Hmin Hmax Hall Hlast Hm Hnow. destruct (decide (min_slot_age cadence = 0)) as [E|E].
  { unfold slot_still_filling. rewrite E. reflexivity. }
  destruct (decide (0 < sum (fst last))); [|apply slot_still_filling_empty; [exact Hlast|lia]].
  rewrite slot_still_filling_cases by assumption. simpl. destruct first as [rows t].
  apply Forall_cons in Hall as [[Hn Hs] Hall']. simpl in Hn, Hs.
  assert (exists x, x <= now t /\ fill_ticks f cursor cadence ((rows, t) :: ticks) m f = Some (mkObservation cursor x))
    as (x & Hx & Hobs).
  { exists (filling_since f cursor t m). split.
    - unfold filling_since. destruct (m f) as [o|]; [|lia]. specialize (Hm o eq_refl). simpl in Hm. case_decide; lia.
    - simpl. apply fill_ticks_observed; [assumption..|]. rewrite slot_still_filling_cases by assumption. apply observe_eq. }
  unfold filling_since. simpl in Hobs, Hnow. rewrite Hobs. simpl. rewrite decide_True by reflexivity.
  apply Z.eqb_neq in Hmax. rewrite Hmax. destruct (Z.leb_spec (max_slot_age cadence) (Z.max (now (snd last) - x) (slot_open_for (snd last)))).
  - rewrite andb_false_r. reflexivity.
  - lia.
Qed.

Lemma slot_seals_within_max_age_witness :
  let at_sec s := mkTick true (s * 10 ^ 9) 8192 None false in
  fst (slot_still_filling QueueRing (2, 6) DEFAULT [3] (at_sec 61)
         (fill_ticks QueueRing (2, 6) DEFAULT [([1], at_sec 1); ([2], at_sec 30)] (fun _ => None))) = false.
Proof.
  intros at_sec. apply (slot_seals_within_max_age QueueRing (2, 6) DEFAULT ([1], at_sec 1) [([2], at_sec 30)] ([3], at_sec 61)).
  - vm_compute. split; discriminate.
  - vm_compute. discriminate.
  - repeat constructor; lia.
  - repeat constructor; lia.
  - discriminate.
  - vm_compute. discriminate.
Defined.

(** * The whole tick *)

(** Appending under the serializer, from the current cursor. *)
Lemma append_current s f : schema_ok s ->
  let g := cursor_gen s f + 1 in
  exists r', append_ring_rotation (authority s) f g (g mod slot_count (ring s f)) s = Ok (true, set_ring f r' s)
    /\ ring_ok (authority s) r' /\ cursor_at (authority s) r' g /\ slot_count r' = slot_count (ring s f).
Proof.
  intros Hs g. destruct (schema_cursor s f Hs) as (Hc & H0 & _). pose proof (Hs f) as Hf. unfold append_ring_rotation.
  destruct (authority s) eqn:Ha.
  - assert (cursor_gen s f = generation (ring s f)) as Hg by (unfold cursor_gen; rewrite Ha; reflexivity).
    assert ((generation (ring s f) =? g - 1) = true) as -> by (apply Z.eqb_eq; unfold g; lia).
    rewrite update_compat_Columns. unfold g. rewrite Hg. simpl. eexists. split; [reflexivity|].
    pose proof (columns_advance_spec (ring s f) (alter (fun _ => generation (ring s f) + 1)
      ((generation (ring s f) + 1) mod slot_count (ring s f)) (slot_generations (ring s f))) _ Hf (or_intror eq_refl)) as [H1 H2].
    split_and!; [exact H1|exact H2|reflexivity].
  - pose proof (ledger_append_spec _ _ (cursor_gen s f) Hf Hc ltac:(lia)) as H. fold g in H.
    destruct (ledger_insert _ _ _) as [ins l]. destruct H as (H1 & H2 & H3). rewrite (H3 eq_refl). eexists.
    split_and!; [reflexivity|exact H1| |reflexivity]. replace g with (Z.max (cursor_gen s f) g) by (unfold g; lia). exact H2.
Qed.

Lemma existsb_has_rows rows : existsb has_rows rows = false -> Forall (fun c => c = 0) rows.
Proof.
  intros H. apply Forall_forall. intros c Hc. apply list_elem_of_In in Hc.
  destruct (Z.eqb_spec c 0) as [|E]; [assumption|]. exfalso. apply not_true_iff_false in H. apply H, existsb_exists.
  exists c. split; [exact Hc|]. unfold has_rows. apply Z.eqb_neq in E. rewrite E. reflexivity.
Qed.

(** C40. A rotation tick on a well-formed schema never errs. When it rotates it
    opens the next generation in the next slot, in the cursor's authoritative
    representation and in no other ring, and every child of that slot was
    empty; so a slot still holding rows is never reopened. When it does not,
    nothing changes, and the outcome names the gate: the ring's lock was taken,
    the next slot holds rows, the ring is idle, or the current slot is still
    filling. Under the lock no compare-and-swap is lost. *)
Theorem rotate_spec (f : RingFamily) (cadence : RingRotationCadence) (t : Tick) (m : observations) (s : Schema) :
  schema_ok s ->
  let g := cursor_gen s f in
  let n := slot_count (ring s f) in
  exists out m' s', rotate f cadence t m s = Ok (out, m', s')
    /\ match out with
       | Rotated slot gen =>
           gen = g + 1 /\ slot = gen mod n
           /\ Forall (fun c => c = 0) (child_rows s f slot)
           /\ ring_idle f t s = false
           /\ ring_cursor (authority s') (ring s' f) = Ok (slot, gen)
           /\ (forall f', f' <> f -> ring s' f' = ring s f')
           /\ authority s' = authority s /\ child_rows s' = child_rows s /\ schema_ok s'
       | SkippedBusy slot busy =>
           s' = s /\ slot = (g + 1) mod n
           /\ ((authority s = Ledger /\ lock_free t = false)
               \/ (existsb has_rows (child_rows s f slot) = true /\ busy = busy_counts f (child_rows s f slot)))
       | SkippedIdle slot gen => s' = s /\ slot = g mod n /\ gen = g /\ ring_idle f t s = true
       | SkippedFilling slot gen =>
           s' = s /\ slot = g mod n /\ gen = g
           /\ fst (slot_still_filling f (slot, gen) cadence (child_rows s f slot) t m) = true
       end.
Proof.
  intros Hs g n. assert (1 < n) as Hn by apply Hs. destruct (schema_cursor s f Hs) as (Hc & _).
  unfold cursor_at in Hc. fold g n in Hc. unfold rotate.
  assert (fst (acquire_ring_serializer t s) = authority s
          /\ (snd (acquire_ring_serializer t s) = false -> authority s = Ledger /\ lock_free t = false)) as [E1 E2]
    by (unfold acquire_ring_serializer; destruct (authority s); simpl; split; auto; discriminate).
  destruct (acquire_ring_serializer t s) as [a acq]. simpl in E1, E2. subst a. rewrite Hc. simpl. fold n.
  rewrite succ_slot by lia. destruct acq; simpl.
  2: { do 3 eexists. split; [reflexivity|]. simpl. auto. }
  destruct (slot_still_filling _ _ _ _ _ _) as [filling m'] eqn:Ef. destruct filling.
  { do 3 eexists. split; [reflexivity|]. simpl. rewrite Ef. auto. }
  destruct (existsb _ _) eqn:Eb; [do 3 eexists; split; [reflexivity|]; simpl; auto|].
  destruct (ring_idle f t s) eqn:Ei; [do 3 eexists; split; [reflexivity|]; simpl; auto|].
  destruct (append_current s f Hs) as (r' & Happ & Hok & Hcur & Hcount). fold g n in Happ, Hcur, Hcount. rewrite Happ. simpl.
  do 3 eexists. split; [reflexivity|]. split_and!; auto.
  - apply existsb_has_rows, Eb.
  - rewrite ring_set_ring_eq. unfold cursor_at in Hcur. rewrite Hcount in Hcur. exact Hcur.
  - intros f' Hne. apply ring_set_ring_ne, Hne.
  - apply schema_ok_set_ring; assumption.
Qed.

Lemma rotate_spec_witness :
  exists m' s', rotate QueueRing EAGER (mkTick false 0 0 None false) (fun _ => None) RotationDemo.upgraded
                = Ok (Rotated 3 7, m', s')
    /\ ring_cursor (authority s') (ring s' QueueRing) = Ok (3, 7).
Proof.
  pose proof (rotate_spec QueueRing EAGER (mkTick false 0 0 None false) (fun _ => None) RotationDemo.upgraded
                RotationDemo.upgraded_ok) as H.
  destruct H as (out & m' & s' & H & Hout). pose proof H as Hrot. vm_compute in H. injection H as <- _ _.
  exists m', s'. split; [exact Hrot|]. apply Hout.
Defined.
