(* ===== verification/F64.v ===== *)
(** IEEE 754 binary64, as the rate limiter and the overflow pool compute with
    it ([f64] in dispatcher.rs).

    The arithmetic is the Standard Library's executable specification
    ([SpecFloat]) at 53 bits of precision; this file adds what Rust's [f64]
    offers on top of it (conversions, [floor], [ceil], [min], the saturating
    [as u32]) and the facts the bucket needs: results of the arithmetic are
    well formed, whole steps are exact, comparison is comparison of values. *)

From Stdlib Require Import SpecFloat.
From S2P Require Import Prelude.

Abbreviation f64 := spec_float (only parsing).
Abbreviation prec := 53 (only parsing).
Abbreviation emax := 1024 (only parsing).

(** * Operations *)

Definition f64_add : f64 -> f64 -> f64 := SFadd prec emax.
Definition f64_sub : f64 -> f64 -> f64 := SFsub prec emax.
Definition f64_mul : f64 -> f64 -> f64 := SFmul prec emax.
Definition f64_div : f64 -> f64 -> f64 := SFdiv prec emax.
Definition f64_le (x y : f64) : bool := SFleb x y.

(** [n as f64], for an unsigned [n]. *)
Definition as_f64 (n : Z) : f64 := binary_normalize prec emax n 0 false.

(** [f64::min]: a NaN operand is ignored. *)
Definition f64_min (x y : f64) : f64 :=
  match x, y with
  | S754_nan, _ => y
  | _, S754_nan => x
  | _, _ => if SFleb x y then x else y
  end.

(** [f64::floor] and [f64::ceil]. *)
Definition f64_floor (x : f64) : f64 :=
  match x with
  | S754_finite s m e =>
      if 0 <=? e then x
      else binary_normalize prec emax (cond_Zopp s (Zpos m) / 2 ^ (- e)) 0 s
  | _ => x
  end.
Definition f64_ceil (x : f64) : f64 :=
  match x with
  | S754_finite s m e =>
      if 0 <=? e then x
      else binary_normalize prec emax (- ((- cond_Zopp s (Zpos m)) / 2 ^ (- e))) 0 s
  | _ => x
  end.

(** [x as u32]: truncation, saturating at both ends, [0] for a NaN. *)
Definition as_u32 (x : f64) : Z :=
  match x with
  | S754_nan | S754_zero _ | S754_infinity true => 0
  | S754_infinity false => u32_max
  | S754_finite true _ _ => 0
  | S754_finite false m e =>
      Z.min u32_max (if 0 <=? e then Zpos m * 2 ^ e else Zpos m / 2 ^ (- e))
  end.

(** [Duration::as_secs_f64], on nanoseconds. *)
Definition as_secs_f64 (nanos : Z) : f64 :=
  f64_add (as_f64 (nanos / 1000000000))
    (f64_div (as_f64 (nanos mod 1000000000)) (as_f64 1000000000)).

(** * Well-formed numbers and their values *)

(** A non-negative number in canonical form, and its value in units of the
    smallest positive number, [2 ^ -1074]. *)
Definition nonneg (x : f64) : Prop :=
  match x with
  | S754_zero _ => True
  | S754_finite s m e => s = false /\ bounded prec emax m e = true
  | _ => False
  end.
Definition units (x : f64) : Z :=
  match x with
  | S754_finite false m e => Zpos m * 2 ^ (e + 1074)
  | _ => 0
  end.
Definition one_units : Z := 2 ^ 1074.

(** * Digits and shifts *)

Lemma digits2_log2 (p : positive) : Z.pos (digits2_pos p) = Z.log2 (Z.pos p) + 1.
Proof.
  induction p as [p IH|p IH|]; simpl digits2_pos; [| |done].
  - rewrite Pos2Z.inj_succ, IH, (Pos2Z.inj_xI p), Z.log2_succ_double; lia.
  - rewrite Pos2Z.inj_succ, IH, (Pos2Z.inj_xO p), Z.log2_double; lia.
Qed.

Lemma digits_range (m : Z) : 0 < m -> 2 ^ (Zdigits2 m - 1) <= m < 2 ^ Zdigits2 m.
Proof.
  destruct m as [|p|]; try lia. intros _. unfold Zdigits2. rewrite digits2_log2.
  destruct (Z.log2_spec (Z.pos p)); [lia|].
  replace (Z.log2 (Z.pos p) + 1 - 1) with (Z.log2 (Z.pos p)) by lia. by rewrite <- Z.add_1_r in *.
Qed.

Lemma digits_pos (m : Z) : 0 < m -> 0 < Zdigits2 m.
Proof. destruct m; simpl; lia. Qed.

Lemma digits_nonneg (m : Z) : 0 <= Zdigits2 m.
Proof. destruct m; simpl; lia. Qed.

Lemma digits_unique (m d : Z) : 0 < d -> 2 ^ (d - 1) <= m < 2 ^ d -> Zdigits2 m = d.
Proof.
  intros Hd Hm.
  assert (0 < m) by (pose proof (Z.pow_pos_nonneg 2 (d - 1)); lia).
  destruct m as [|p|]; try lia. unfold Zdigits2. rewrite digits2_log2.
  rewrite (Z.log2_unique (Z.pos p) (d - 1)); [lia|lia|].
  by replace (Z.succ (d - 1)) with d by lia.
Qed.

Lemma digits_shl (m k : Z) : 0 < m -> 0 <= k -> Zdigits2 (m * 2 ^ k) = Zdigits2 m + k.
Proof.
  intros Hm Hk. pose proof (digits_range m Hm). pose proof (digits_pos m Hm).
  apply digits_unique; [lia|].
  replace (Zdigits2 m + k - 1) with (Zdigits2 m - 1 + k) by lia.
  rewrite !Z.pow_add_r by lia. pose proof (Z.pow_pos_nonneg 2 k). nia.
Qed.

Lemma digits_shr (m k : Z) :
  0 <= m -> 0 <= k -> Zdigits2 (m / 2 ^ k) = Z.max 0 (Zdigits2 m - k).
Proof.
  intros Hm Hk. destruct (decide (m = 0)) as [->|]; [rewrite Z.div_0_l; simpl; lia|].
  pose proof (digits_range m ltac:(lia)) as [Hlo Hhi]. pose proof (digits_pos m ltac:(lia)).
  destruct (decide (Zdigits2 m <= k)).
  - rewrite Z.div_small; [simpl; lia|]. split; [lia|].
    eapply Z.lt_le_trans; [exact Hhi|]. apply Z.pow_le_mono_r; lia.
  - rewrite Z.max_r by lia. apply digits_unique; [lia|].
    pose proof (Z.pow_pos_nonneg 2 k). split.
    + apply Z.div_le_lower_bound; [lia|]. rewrite <- Z.pow_add_r by lia.
      by replace (k + (Zdigits2 m - k - 1)) with (Zdigits2 m - 1) by lia.
    + apply Z.div_lt_upper_bound; [lia|]. rewrite <- Z.pow_add_r by lia.
      by replace (k + (Zdigits2 m - k)) with (Zdigits2 m) by lia.
Qed.

Lemma digits_mono (m n : Z) : 0 <= m <= n -> Zdigits2 m <= Zdigits2 n.
Proof.
  intros H. destruct (decide (m = 0)) as [->|]; [apply digits_nonneg|].
  destruct m as [|p|], n as [|q|]; try lia. unfold Zdigits2. rewrite !digits2_log2.
  pose proof (Z.log2_le_mono (Z.pos p) (Z.pos q)). lia.
Qed.

Lemma iter_pos_iter {A} (f : A -> A) (p : positive) (x : A) : SpecFloat.iter_pos f p x = @Pos.iter A f x p.
Proof.
  revert x. induction p as [p IH|p IH|]; intros x; simpl; [| |done].
  - rewrite !IH. by rewrite <- !Pos.iter_swap.
  - by rewrite !IH.
Qed.

Lemma shr_1_m (r : shr_record) : 0 <= shr_m r -> shr_m (shr_1 r) = shr_m r / 2.
Proof. destruct r as [[|[p|p|]|] ? ?]; simpl; intros; div_lia. Qed.

Lemma iter_shr_m (p : positive) (r : shr_record) :
  0 <= shr_m r -> shr_m (SpecFloat.iter_pos shr_1 p r) = shr_m r / 2 ^ Z.pos p.
Proof.
  rewrite iter_pos_iter. intros Hr.
  induction p as [|p IH] using Pos.peano_ind; [by apply shr_1_m|].
  rewrite Pos.iter_succ, shr_1_m; rewrite IH; [|apply Z.div_pos; lia].
  rewrite Z.div_div, Pos2Z.inj_succ, Z.pow_succ_r by lia. f_equal. lia.
Qed.

(** * Rounding *)

Abbreviation fexp64 := (fexp prec emax) (only parsing).

(** What rounding returns for a number of sign [s]. *)
Definition rounded (s : bool) (x : f64) : Prop :=
  match x with
  | S754_zero s' | S754_infinity s' => s' = s
  | S754_finite s' m e => s' = s /\ bounded prec emax m e = true
  | S754_nan => False
  end.

Lemma fexp64_eq (z : Z) : fexp64 z = Z.max (z - 53) (-1074).
Proof. done. Qed.

Lemma shr_record_of_loc_m (m : Z) (l : location) : shr_m (shr_record_of_loc m l) = m.
Proof. by destruct l as [|[]]. Qed.

Lemma shr_fexp_spec (m e : Z) (l : location) :
  0 <= m -> e <= fexp64 (Zdigits2 m + e) ->
  shr_m (fst (shr_fexp prec emax m e l)) = m / 2 ^ (fexp64 (Zdigits2 m + e) - e)
  /\ snd (shr_fexp prec emax m e l) = fexp64 (Zdigits2 m + e).
Proof.
  intros Hm He. unfold shr_fexp, shr.
  destruct (fexp64 (Zdigits2 m + e) - e) as [|p|p] eqn:Hn; [| |lia]; cbn [fst snd].
  - rewrite shr_record_of_loc_m, Z.div_1_r. lia.
  - rewrite iter_shr_m; rewrite shr_record_of_loc_m; [|done]. lia.
Qed.

(** One shift makes a mantissa canonical, or loses it in the smallest
    exponent. *)
Lemma shift_canonical (m e : Z) :
  0 <= m -> e <= fexp64 (Zdigits2 m + e) ->
  let e' := fexp64 (Zdigits2 m + e) in
  let m' := m / 2 ^ (e' - e) in
  fexp64 (Zdigits2 m' + e') = e' /\ 0 <= m' /\ (m' = 0 -> e' = -1074).
Proof.
  intros Hm He e' m'. unfold m'. rewrite digits_shr by (unfold e'; lia).
  assert (0 <= m / 2 ^ (e' - e)) by (apply Z.div_pos; lia).
  assert (m / 2 ^ (e' - e) = 0 -> Zdigits2 m <= e' - e) as Hz.
  { intros Hz. pose proof (digits_shr m (e' - e) Hm ltac:(unfold e'; lia)) as Hd.
    rewrite Hz in Hd. simpl in Hd. lia. }
  pose proof (digits_nonneg m).
  unfold e' in *. rewrite fexp64_eq in *. repeat split; [|done|intros ?%Hz]; rewrite ?fexp64_eq; lia.
Qed.

Lemma round_nearest_even_range (m : Z) (l : location) :
  m <= round_nearest_even m l <= m + 1.
Proof. destruct l as [|[]]; simpl; try case_match; lia. Qed.

(** Rounding up by one adds at most one digit. *)
Lemma digits_succ (m m' : Z) :
  0 <= m -> m <= m' <= m + 1 -> Zdigits2 m <= Zdigits2 m' <= Zdigits2 m + 1.
Proof.
  intros Hm Hm'. split; [apply digits_mono; lia|].
  destruct (decide (m = 0)) as [->|].
  { assert (m' = 0 \/ m' = 1) as [-> | ->] by lia; simpl; lia. }
  pose proof (digits_range m ltac:(lia)). pose proof (digits_pos m ltac:(lia)).
  rewrite <- digits_shl by lia. change (2 ^ 1) with 2.
  apply digits_mono. lia.
Qed.

Lemma binary_round_aux_rounded (s : bool) (m e : Z) (l : location) :
  0 <= m -> e <= fexp64 (Zdigits2 m + e) ->
  rounded s (binary_round_aux prec emax s m e l).
Proof.
  intros Hm He. unfold binary_round_aux.
  destruct (shr_fexp_spec m e l Hm He) as [Hm1 He1].
  destruct (shr_fexp prec emax m e l) as [r1 e1]. simpl in Hm1, He1. subst e1.
  pose proof (shift_canonical m e Hm He) as (Hc & Hpos & Hzero). rewrite <- Hm1 in Hc, Hpos, Hzero.
  pose proof (round_nearest_even_range (shr_m r1) (loc_of_shr_record r1)) as Hr.
  set (m1 := round_nearest_even _ _) in *. set (e1 := fexp64 (Zdigits2 m + e)) in *.
  pose proof (digits_succ _ _ Hpos Hr) as Hd.
  assert (e1 <= fexp64 (Zdigits2 m1 + e1)) as He2 by (rewrite fexp64_eq in *; lia).
  destruct (shr_fexp_spec m1 e1 loc_Exact ltac:(lia) He2) as [Hm2 He2'].
  destruct (shr_fexp prec emax m1 e1 loc_Exact) as [r2 e2]. simpl in Hm2, He2'. subst e2.
  pose proof (shift_canonical m1 e1 ltac:(lia) He2) as (Hc2 & Hpos2 & _). rewrite <- Hm2 in Hc2, Hpos2.
  destruct (shr_m r2) as [|m2|m2] eqn:Hr2; [done| |lia].
  destruct (Z.leb_spec (fexp64 (Zdigits2 m1 + e1)) (emax - prec)) as [Hle|]; [|done].
  split; [done|]. unfold bounded, canonical_mantissa.
  apply andb_true_iff. split; [apply Z.eqb_eq; exact Hc2|by apply Z.leb_le].
Qed.

Lemma pos_iter_xO (m d : positive) : Z.pos (Pos.iter xO m d) = Z.pos m * 2 ^ Z.pos d.
Proof.
  induction d as [|d IH] using Pos.peano_ind; [simpl; lia|].
  rewrite Pos.iter_succ, Pos2Z.inj_xO, IH, Pos2Z.inj_succ, Z.pow_succ_r by lia. lia.
Qed.

Lemma shl_align_spec (m : positive) (e e' : Z) :
  Z.pos (fst (shl_align m e e')) = Z.pos m * 2 ^ (e - Z.min e e')
  /\ snd (shl_align m e e') = Z.min e e'.
Proof.
  unfold shl_align. destruct (e' - e) as [|p|p] eqn:Hd; cbn [fst snd].
  - rewrite Z.min_l by lia. replace (e - e) with 0 by lia. lia.
  - rewrite Z.min_l by lia. replace (e - e) with 0 by lia. lia.
  - rewrite pos_iter_xO, Z.min_r by lia. by replace (Z.pos p) with (e - e') by lia.
Qed.

(** The left shift of [binary_round]: the mantissa is wide enough to round. *)
Lemma align_wide (m : positive) (e : Z) :
  let a := shl_align m e (fexp64 (Zdigits2 (Z.pos m) + e)) in
  Zdigits2 (Z.pos (fst a)) + snd a = Zdigits2 (Z.pos m) + e
  /\ snd a <= fexp64 (Zdigits2 (Z.pos m) + e).
Proof.
  intros a. destruct (shl_align_spec m e (fexp64 (Zdigits2 (Z.pos m) + e))) as [Hm He].
  fold a in Hm, He. rewrite Hm, He, digits_shl by lia. lia.
Qed.

Lemma binary_round_rounded (s : bool) (m : positive) (e : Z) :
  rounded s (binary_round prec emax s m e).
Proof.
  unfold binary_round. change (Z.pos (digits2_pos m)) with (Zdigits2 (Z.pos m)).
  pose proof (align_wide m e) as [Hd He].
  destruct (shl_align _ _ _) as [mz ez]. cbn [fst snd] in *.
  apply binary_round_aux_rounded; [lia|]. by rewrite Hd.
Qed.

(** ** Exactness *)

Lemma iter_shr_exact (p : positive) (m : Z) :
  0 <= m ->
  SpecFloat.iter_pos shr_1 p (Build_shr_record (m * 2 ^ Z.pos p) false false)
  = Build_shr_record m false false.
Proof.
  rewrite iter_pos_iter. revert m. induction p as [|p IH] using Pos.peano_ind; intros m Hm.
  - simpl. destruct m; simpl; [done| |lia]. by rewrite Pos.mul_comm.
  - rewrite Pos.iter_succ_r, Pos2Z.inj_succ, Z.pow_succ_r by lia.
    replace (shr_1 _) with (Build_shr_record (m * 2 ^ Z.pos p) false false); [by apply IH|].
    replace (m * (2 * 2 ^ Z.pos p)) with (2 * (m * 2 ^ Z.pos p)) by lia.
    assert (0 <= m * 2 ^ Z.pos p) as Hp by (apply Z.mul_nonneg_nonneg; lia).
    by destruct (m * 2 ^ Z.pos p).
Qed.

Lemma shr_fexp_exact (m e k : Z) :
  0 <= m -> 0 <= k -> fexp64 (Zdigits2 (m * 2 ^ k) + (e - k)) = e ->
  shr_fexp prec emax (m * 2 ^ k) (e - k) loc_Exact = (Build_shr_record m false false, e).
Proof.
  intros Hm Hk He. unfold shr_fexp. rewrite He. replace (e - (e - k)) with k by lia.
  destruct k as [|p|p]; [| |lia]; cbn [shr shr_record_of_loc].
  - rewrite Z.mul_1_r. by replace (e - 0) with e by lia.
  - rewrite iter_shr_exact by done. f_equal. lia.
Qed.

Lemma binary_round_aux_exact (s : bool) (m : positive) (e k : Z) :
  bounded prec emax m e = true -> 0 <= k ->
  binary_round_aux prec emax s (Z.pos m * 2 ^ k) (e - k) loc_Exact = S754_finite s m e.
Proof.
  intros [Hc%Z.eqb_eq Hmax%Z.leb_le]%andb_true_iff Hk.
  change (Z.pos (digits2_pos m)) with (Zdigits2 (Z.pos m)) in Hc. unfold binary_round_aux.
  rewrite shr_fexp_exact;
    [|lia|lia|rewrite digits_shl by lia; etransitivity; [|exact Hc]; f_equal; lia].
  cbn [shr_m loc_of_shr_record round_nearest_even].
  pose proof (shr_fexp_exact (Z.pos m) e 0) as Hs. rewrite Z.mul_1_r, Z.sub_0_r in Hs.
  rewrite Hs by (lia || exact Hc). cbn [shr_m]. by rewrite (proj2 (Z.leb_le _ _) Hmax).
Qed.

Lemma binary_round_exact (s : bool) (m v : positive) (e ev : Z) :
  bounded prec emax m e = true ->
  Z.pos v * 2 ^ (ev - Z.min ev e) = Z.pos m * 2 ^ (e - Z.min ev e) ->
  binary_round prec emax s v ev = S754_finite s m e.
Proof.
  intros Hb Hv. pose proof Hb as [Hc%Z.eqb_eq _]%andb_true_iff.
  change (Z.pos (digits2_pos m)) with (Zdigits2 (Z.pos m)) in Hc.
  assert (Zdigits2 (Z.pos v) + ev = Zdigits2 (Z.pos m) + e) as Hd.
  { apply (f_equal Zdigits2) in Hv. rewrite !digits_shl in Hv by lia. lia. }
  unfold binary_round. change (Z.pos (digits2_pos v)) with (Zdigits2 (Z.pos v)). rewrite Hd, Hc.
  destruct (shl_align_spec v ev e) as [Hz Hez]. destruct (shl_align v ev e) as [mz ez].
  cbn [fst snd] in Hz, Hez. rewrite Hv in Hz. rewrite Hz.
  replace ez with (e - (e - Z.min ev e)) by lia. apply binary_round_aux_exact; [done|lia].
Qed.

(** * Values *)

Lemma one_units_pos : 0 < one_units.
Proof. done. Qed.

Lemma bounded_spec (m : positive) (e : Z) :
  bounded prec emax m e = true ->
  Z.max (Zdigits2 (Z.pos m) + e - 53) (-1074) = e /\ e <= 971
  /\ 2 ^ (Zdigits2 (Z.pos m) - 1) <= Z.pos m < 2 ^ Zdigits2 (Z.pos m) /\ 0 < Zdigits2 (Z.pos m).
Proof.
  intros [Hc%Z.eqb_eq Hmax%Z.leb_le]%andb_true_iff.
  repeat split; [exact Hc | lia | apply digits_range; lia..].
Qed.

Lemma units_nonneg (x : f64) : 0 <= units x.
Proof. destruct x as [| | |[] m e]; simpl; lia. Qed.

(** A smaller exponent is a smaller value. *)
Lemma units_lt_exponent (m1 m2 : positive) (e1 e2 : Z) :
  bounded prec emax m1 e1 = true -> bounded prec emax m2 e2 = true -> e1 < e2 ->
  units (S754_finite false m1 e1) < units (S754_finite false m2 e2).
Proof.
  intros (H1 & _ & [_ Hm1] & ?)%bounded_spec (H2 & _ & [Hm2 _] & ?)%bounded_spec He. simpl.
  assert (Zdigits2 (Z.pos m2) = 53) as Hd2 by lia. rewrite Hd2 in Hm2.
  set (d1 := Zdigits2 (Z.pos m1)) in *.
  apply Z.lt_le_trans with (2 ^ d1 * 2 ^ (e1 + 1074));
    [apply Z.mul_lt_mono_pos_r; [apply Z.pow_pos_nonneg|]; lia|].
  apply Z.le_trans with (2 ^ (53 - 1) * 2 ^ (e2 + 1074));
    [|apply Z.mul_le_mono_nonneg_r; [apply Z.pow_nonneg|]; lia].
  rewrite <- !Z.pow_add_r by lia. apply Z.pow_le_mono_r; lia.
Qed.

Lemma units_cmp_mantissa (m1 m2 : positive) (e : Z) :
  -1074 <= e ->
  (units (S754_finite false m1 e) ?= units (S754_finite false m2 e)) = (m1 ?= m2)%positive.
Proof.
  intros He. cbn [units]. pose proof (Z.pow_pos_nonneg 2 (e + 1074)).
  change (m1 ?= m2)%positive with (Z.pos m1 ?= Z.pos m2).
  destruct (Z.compare_spec (Z.pos m1) (Z.pos m2));
    [apply Z.compare_eq_iff | apply Z.compare_lt_iff | apply Z.compare_gt_iff]; nia.
Qed.

Lemma units_finite_pos (m : positive) (e : Z) :
  bounded prec emax m e = true -> 0 < units (S754_finite false m e).
Proof.
  intros (? & _)%bounded_spec. simpl. apply Z.mul_pos_pos; [lia|]. apply Z.pow_pos_nonneg; lia.
Qed.

Lemma SFcompare_units (x y : f64) :
  nonneg x -> nonneg y -> SFcompare x y = Some (units x ?= units y).
Proof.
  destruct x as [sx| | |sx m1 e1], y as [sy| | |sy m2 e2]; try done.
  - intros _ [-> H%units_finite_pos]. cbn [SFcompare]. f_equal. symmetry. by apply Z.compare_lt_iff.
  - intros [-> H%units_finite_pos] _. cbn [SFcompare]. f_equal. symmetry. by apply Z.compare_gt_iff.
  - intros [-> H1] [-> H2]. cbn [SFcompare]. f_equal.
    destruct (Z.compare_spec e1 e2) as [<-|He|He]; symmetry.
    + apply units_cmp_mantissa. pose proof (bounded_spec _ _ H1). lia.
    + apply Z.compare_lt_iff. by apply units_lt_exponent.
    + apply Z.compare_gt_iff. by apply units_lt_exponent.
Qed.

(** [<=] compares values. *)
Lemma f64_le_units (x y : f64) :
  nonneg x -> nonneg y -> f64_le x y = (units x <=? units y).
Proof.
  intros Hx Hy. unfold f64_le, SFleb, Z.leb. rewrite SFcompare_units by done. by destruct (_ ?= _).
Qed.

(** A positive number is determined by its value. *)
Lemma units_inj (x y : f64) :
  nonneg x -> nonneg y -> 0 < units x -> units x = units y -> x = y.
Proof.
  destruct x as [sx| | |sx m1 e1], y as [sy| | |sy m2 e2]; simpl nonneg; try done;
    [intros ? ? H E; cbn [units] in *; lia|].
  intros [-> H1] [-> H2] _ Hu.
  destruct (Z.lt_trichotomy e1 e2) as [He|[<-|He]];
    [pose proof (units_lt_exponent _ _ _ _ H1 H2 He); lia| |
     pose proof (units_lt_exponent _ _ _ _ H2 H1 He); lia].
  pose proof (bounded_spec _ _ H1). f_equal. apply Pos.compare_eq.
  rewrite <- (units_cmp_mantissa _ _ e1) by lia. by apply Z.compare_eq_iff.
Qed.

(** Rounding returns a number whose value is that of its argument. *)
Lemma binary_normalize_exact (x : f64) (v e : Z) :
  nonneg x -> 0 < v -> -1074 <= e -> units x = v * 2 ^ (e + 1074) ->
  binary_normalize prec emax v e false = x.
Proof.
  destruct x as [s| | |s m ex]; simpl nonneg; try done.
  { intros _ Hv He Hu. cbn [units] in Hu. pose proof (Z.pow_pos_nonneg 2 (e + 1074)). nia. }
  intros [-> Hb] Hv He Hu. destruct v as [|v|]; try lia. cbn [binary_normalize].
  apply binary_round_exact; [done|]. cbn [units] in Hu.
  pose proof (bounded_spec _ _ Hb) as (? & _).
  set (k := Z.min e ex) in *.
  replace (e + 1074) with ((e - k) + (k + 1074)) in Hu by lia.
  replace (ex + 1074) with ((ex - k) + (k + 1074)) in Hu by lia.
  rewrite (Z.pow_add_r 2 (e - k)), (Z.pow_add_r 2 (ex - k)) in Hu by lia.
  pose proof (Z.pow_pos_nonneg 2 (k + 1074)).
  apply (Z.mul_reg_r _ _ (2 ^ (k + 1074))); [lia|]. rewrite <- !Z.mul_assoc. by symmetry.
Qed.

(** Every value of at most 53 digits in range is a number. *)
Lemma representable (v e : Z) :
  0 < v -> Zdigits2 v <= 53 -> -1074 <= e <= 971 ->
  exists x, nonneg x /\ units x = v * 2 ^ (e + 1074).
Proof.
  intros Hv Hd He. set (e' := fexp64 (Zdigits2 v + e)).
  assert (e' <= e) by (unfold e'; rewrite fexp64_eq; lia).
  assert (-1074 <= e') by (unfold e'; rewrite fexp64_eq; lia).
  assert (0 < v * 2 ^ (e - e')) as Hm by (apply Z.mul_pos_pos; [lia|apply Z.pow_pos_nonneg; lia]).
  exists (S754_finite false (Z.to_pos (v * 2 ^ (e - e'))) e'). cbn [nonneg units].
  rewrite Z2Pos.id by done. split.
  - split; [done|]. unfold bounded, canonical_mantissa. apply andb_true_iff.
    change (Z.pos (digits2_pos ?p)) with (Zdigits2 (Z.pos p)).
    rewrite Z2Pos.id, digits_shl by lia.
    split; [apply Z.eqb_eq; unfold e'; f_equal; lia|apply Z.leb_le; lia].
  - rewrite <- Z.mul_assoc, <- Z.pow_add_r by lia. do 2 f_equal. lia.
Qed.

(** * Arithmetic on well-formed numbers *)

(** Anything but a negative number. *)
Definition unsigned (x : f64) : Prop :=
  match x with
  | S754_nan | S754_zero _ => True
  | S754_infinity s => s = false
  | S754_finite s m e => s = false /\ bounded prec emax m e = true
  end.

Lemma nonneg_unsigned (x : f64) : nonneg x -> unsigned x.
Proof. by destruct x. Qed.

Lemma rounded_unsigned (x : f64) : rounded false x -> unsigned x.
Proof. by destruct x. Qed.

Lemma as_f64_units (n : Z) :
  0 <= n < 2 ^ 53 -> nonneg (as_f64 n) /\ units (as_f64 n) = n * one_units.
Proof.
  intros Hn. destruct (decide (n = 0)) as [->|]; [done|].
  assert (Zdigits2 n <= 53) as Hd.
  { apply Z.le_trans with (Zdigits2 (2 ^ 53 - 1)); [apply digits_mono; lia|done]. }
  destruct (representable n 0 ltac:(lia) Hd ltac:(lia)) as (x & Hx & Hu).
  assert (as_f64 n = x) as -> by (apply binary_normalize_exact; [done|lia|lia|done]).
  by rewrite Hu.
Qed.

Lemma as_f64_unsigned (n : Z) : 0 <= n -> rounded false (as_f64 n).
Proof. intros Hn. destruct n; [done|apply binary_round_rounded|lia]. Qed.

Lemma f64_add_unsigned (x y : f64) : unsigned x -> unsigned y -> unsigned (f64_add x y).
Proof.
  destruct x as [sx|sx| |sx m1 e1], y as [sy|sy| |sy m2 e2]; simpl; try done; intros Hx Hy.
  - by destruct sx, sy.
  - by rewrite Hx, Hy.
  - destruct Hx as [-> _], Hy as [-> _]. unfold f64_add, SFadd. cbn [cond_Zopp].
    destruct (_ + _) eqn:Hs; [done| |lia]. apply rounded_unsigned, binary_round_rounded.
Qed.

Lemma digits_mul (m n : Z) : 0 < m -> 0 < n -> Zdigits2 m + Zdigits2 n - 1 <= Zdigits2 (m * n).
Proof.
  intros Hm Hn. pose proof (digits_range m Hm). pose proof (digits_range n Hn).
  pose proof (digits_pos m Hm). pose proof (digits_pos n Hn).
  rewrite <- (digits_unique (2 ^ (Zdigits2 m - 1 + (Zdigits2 n - 1))) (Zdigits2 m + Zdigits2 n - 1)).
  - apply digits_mono. rewrite Z.pow_add_r by lia. nia.
  - lia.
  - split; [apply Z.pow_le_mono_r|apply Z.pow_lt_mono_r]; lia.
Qed.

Lemma f64_mul_unsigned (x y : f64) : unsigned x -> unsigned y -> unsigned (f64_mul x y).
Proof.
  destruct x as [sx|sx| |sx m1 e1], y as [sy|sy| |sy m2 e2]; simpl; try done; intros Hx Hy;
    try (by destruct sx, sy; intuition congruence).
  destruct Hx as [-> H1], Hy as [-> H2]. unfold f64_mul, SFmul. cbn [xorb].
  apply rounded_unsigned, binary_round_aux_rounded; [lia|].
  apply bounded_spec in H1 as (H1 & _ & _ & ?), H2 as (H2 & _ & _ & ?).
  pose proof (digits_mul (Z.pos m1) (Z.pos m2) ltac:(lia) ltac:(lia)).
  rewrite fexp64_eq. change (Z.pos (m1 * m2)) with (Z.pos m1 * Z.pos m2). lia.
Qed.

Lemma digits_div (m n s : Z) :
  0 < m -> 0 < n -> 0 <= s -> Zdigits2 m + s - Zdigits2 n <= Zdigits2 (m * 2 ^ s / n).
Proof.
  intros Hm Hn Hs. pose proof (digits_range n Hn) as [_ Hhi].
  rewrite <- (digits_shl m s) by lia.
  set (a := m * 2 ^ s). assert (0 < a) by (unfold a; pose proof (Z.pow_pos_nonneg 2 s); nia).
  apply Z.le_trans with (Zdigits2 (a / 2 ^ Zdigits2 n)).
  - rewrite digits_shr by (pose proof (digits_nonneg n); lia). lia.
  - apply digits_mono. split; [apply Z.div_pos; [lia|]; apply Z.pow_pos_nonneg;
      pose proof (digits_nonneg n); lia|]. apply Z.div_le_compat_l; lia.
Qed.

Lemma f64_div_unsigned (x y : f64) : unsigned x -> nonneg y -> 0 < units y -> unsigned (f64_div x y).
Proof.
  destruct y as [sy|sy| |sy m2 e2]; try done; intros Hx Hy Hu.
  destruct x as [sx|sx| |sx m1 e1]; simpl in *; try done; destruct Hy as [-> H2]; [by subst|].
  destruct Hx as [-> H1]. unfold f64_div, SFdiv, SFdiv_core_binary. cbn [xorb].
  set (e' := Z.min _ _). set (s := e1 - e2 - e').
  assert (0 <= s) by (unfold s, e'; lia).
  assert ((match s with Z0 => Z.pos m1 | Z.pos _ => Z.shiftl (Z.pos m1) s | Z.neg _ => 0 end)
          = Z.pos m1 * 2 ^ s) as ->.
  { destruct s; [lia|by rewrite Z.shiftl_mul_pow2|lia]. }
  pose proof (digits_div (Z.pos m1) (Z.pos m2) s ltac:(lia) ltac:(lia) ltac:(done)) as Hd.
  unfold Z.div in Hd.
  destruct (Z.div_eucl (Z.pos m1 * 2 ^ s) (Z.pos m2)) as [q r] eqn:Hqr.
  assert (0 <= q).
  { pose proof (Z.div_pos (Z.pos m1 * 2 ^ s) (Z.pos m2)) as Hp. unfold Z.div in Hp. rewrite Hqr in Hp.
    apply Hp; lia. }
  apply rounded_unsigned, binary_round_aux_rounded; [done|].
  fold (Zdigits2 (Z.pos m1)) (Zdigits2 (Z.pos m2)) in *.
  assert (e' <= fexp64 (Zdigits2 (Z.pos m1) + e1 - (Zdigits2 (Z.pos m2) + e2))) as He by (unfold e'; lia).
  clear Hqr. unfold s in *. clearbody e'. rewrite fexp64_eq in *. lia.
Qed.

(** [min] with a finite bound. *)
Lemma f64_min_bound (x b : f64) :
  unsigned x -> nonneg b -> nonneg (f64_min x b) /\ units (f64_min x b) <= units b.
Proof.
  intros Hx Hb.
  assert (x = S754_nan \/ f64_min x b = if f64_le x b then x else b) as [-> | ->]; [|done|].
  { destruct x, b; simpl in *; auto; done. }
  destruct x as [|[]| |]; try done.
  - destruct (f64_le _ _); [|done]. split; [done|apply units_nonneg].
  - replace (f64_le _ b) with false by (by destruct b). done.
  - rewrite f64_le_units by done. by destruct (Z.leb_spec (units (S754_finite s m e)) (units b)).
Qed.

Lemma f64_min_id (x b : f64) :
  nonneg x -> nonneg b -> units x <= units b -> f64_min x b = x.
Proof.
  intros Hx Hb Hle%Z.leb_le. rewrite <- f64_le_units in Hle by done. unfold f64_le in Hle.
  destruct x, b; simpl in *; try done; by rewrite Hle.
Qed.

(** [floor], [as u32]: the whole part of the value. *)
Lemma as_u32_units (x : f64) : nonneg x -> as_u32 x = Z.min u32_max (units x / one_units).
Proof.
  destruct x as [| | |s m e]; simpl nonneg; try done.
  intros [-> (? & _)%bounded_spec]. cbn [as_u32 units]. f_equal. unfold one_units.
  destruct (Z.leb_spec 0 e).
  - rewrite Z.pow_add_r, Z.mul_assoc, Z.div_mul by lia. done.
  - replace 1074 with (- e + (e + 1074)) at 2 by lia.
    pose proof (Z.pow_pos_nonneg 2 (e + 1074)).
    pose proof (Z.pow_pos_nonneg 2 (- e)).
    rewrite (Z.pow_add_r 2 (- e)) by lia. by rewrite Z.div_mul_cancel_r by lia.
Qed.

Lemma f64_floor_units (x : f64) :
  nonneg x -> nonneg (f64_floor x) /\ units (f64_floor x) = units x / one_units * one_units.
Proof.
  destruct x as [| | |s m e]; simpl nonneg; try done.
  intros [-> Hb]. pose proof (bounded_spec _ _ Hb) as (? & _ & Hm & ?).
  unfold f64_floor. cbn [cond_Zopp]. unfold one_units. destruct (Z.leb_spec 0 e).
  - split; [done|]. cbn [units]. by rewrite Z.pow_add_r, Z.mul_assoc, Z.div_mul by lia.
  - cbn [units]. replace (2 ^ 1074) with (2 ^ (- e) * 2 ^ (e + 1074))
      by (rewrite <- Z.pow_add_r by lia; f_equal; lia).
    pose proof (Z.pow_pos_nonneg 2 (e + 1074)). pose proof (Z.pow_pos_nonneg 2 (- e)).
    rewrite Z.div_mul_cancel_r by lia.
    assert (0 <= Z.pos m / 2 ^ (- e) < 2 ^ 53) as Hq.
    { split; [apply Z.div_pos; lia|]. apply Z.div_lt_upper_bound; [lia|].
      apply Z.lt_le_trans with (2 ^ 53); [|nia].
      apply Z.lt_le_trans with (2 ^ Zdigits2 (Z.pos m)); [lia|]. apply Z.pow_le_mono_r; lia. }
    destruct (as_f64_units _ Hq) as [Hn Hu]. split; [exact Hn|].
    etransitivity; [exact Hu|]. f_equal. unfold one_units.
    rewrite <- Z.pow_add_r by lia. f_equal. lia.
Qed.

(** ** Whole steps are exact *)

Lemma shl_align_min (m : positive) (e e' : Z) :
  e' <= e -> Z.pos (fst (shl_align m e e')) = Z.pos m * 2 ^ (e - e').
Proof. intros He. destruct (shl_align_spec m e e') as [-> _]. by rewrite Z.min_r by lia. Qed.

Lemma f64_add_exact (x y z : f64) :
  nonneg x -> nonneg y -> nonneg z -> 0 < units y -> units x + units y = units z -> f64_add x y = z.
Proof.
  destruct y as [sy| | |sy m2 e2]; simpl nonneg; try done.
  intros Hx [-> H2] Hz Hy Hs. destruct x as [sx| | |sx m1 e1]; simpl nonneg in Hx; try done.
  - apply units_inj; done.
  - destruct Hx as [-> H1]. unfold f64_add, SFadd. cbn [cond_Zopp].
    rewrite !shl_align_min by lia.
    pose proof (bounded_spec _ _ H1) as (? & _). pose proof (bounded_spec _ _ H2) as (? & _).
    apply binary_normalize_exact; [done | | lia |].
    + pose proof (Z.pow_pos_nonneg 2 (e1 - e1 `min` e2)). pose proof (Z.pow_pos_nonneg 2 (e2 - e1 `min` e2)). nia.
    + rewrite <- Hs. cbn [units]. rewrite Z.mul_add_distr_r, <- !Z.mul_assoc, <- !Z.pow_add_r by lia.
      f_equal; do 2 f_equal; lia.
Qed.

Lemma f64_sub_exact (x y z : f64) :
  nonneg x -> nonneg y -> nonneg z -> 0 < units y -> 0 < units z ->
  units x - units y = units z -> f64_sub x y = z.
Proof.
  destruct y as [sy| | |sy m2 e2]; simpl nonneg; try done.
  intros Hx [-> H2] Hz Hy Hzp Hs. destruct x as [sx| | |sx m1 e1]; simpl nonneg in Hx; try done;
    [cbn [units] in *; lia|].
  destruct Hx as [-> H1]. unfold f64_sub, SFsub. cbn [cond_Zopp].
  rewrite !shl_align_min by lia.
  pose proof (bounded_spec _ _ H1) as (? & _). pose proof (bounded_spec _ _ H2) as (? & _).
  set (k := e1 `min` e2) in *.
  assert ((Z.pos m1 * 2 ^ (e1 - k) - Z.pos m2 * 2 ^ (e2 - k)) * 2 ^ (k + 1074) = units z) as Hv.
  { rewrite <- Hs. cbn [units]. rewrite Z.mul_sub_distr_r, <- !Z.mul_assoc, <- !Z.pow_add_r by lia.
    f_equal; do 2 f_equal; lia. }
  apply binary_normalize_exact; [done | | lia | by rewrite Hv].
  pose proof (Z.pow_pos_nonneg 2 (k + 1074)). nia.
Qed.

(** ** One *)

Lemma as_f64_one : as_f64 1 = S754_finite false (2 ^ 52) (-52).
Proof. by vm_compute. Qed.

Lemma f64_mul_one (x : f64) : nonneg x -> 0 < units x -> f64_mul x (as_f64 1) = x.
Proof.
  rewrite as_f64_one. destruct x as [| | |s m e]; simpl nonneg; try done. intros [-> Hb] _.
  unfold f64_mul, SFmul. cbn [xorb]. by apply (binary_round_aux_exact false m e 52).
Qed.

(** A positive number divided by itself. *)
Lemma f64_div_self (x : f64) : nonneg x -> 0 < units x -> f64_div x x = as_f64 1.
Proof.
  rewrite as_f64_one. destruct x as [| | |s m e]; simpl nonneg; try done. intros [-> Hb] _.
  unfold f64_div, SFdiv, SFdiv_core_binary. cbn [xorb]. rewrite !Z.sub_diag.
  change (Z.min (fexp64 0) 0) with (-53). change (0 - -53) with 53. rewrite Z.shiftl_mul_pow2 by lia.
  assert (Z.div_eucl (Z.pos m * 2 ^ 53) (Z.pos m) = (2 ^ 53, 0)) as ->.
  { pose proof (Z.div_mul (2 ^ 53) (Z.pos m)) as Hq. pose proof (Z.mod_mul (2 ^ 53) (Z.pos m)) as Hr.
    unfold Z.div, Z.modulo in Hq, Hr. rewrite Z.mul_comm.
    destruct (Z.div_eucl _ _) as [q r]. rewrite Hq, Hr by lia. done. }
  replace (new_location (Z.pos m) 0) with loc_Exact; [by vm_compute|].
  unfold new_location, new_location_even, new_location_odd. by destruct (Z.even _).
Qed.

Lemma f64_ceil_whole (n : Z) : 0 <= n < 2 ^ 53 -> f64_ceil (as_f64 n) = as_f64 n.
Proof.
  intros Hn. destruct (as_f64_units n Hn) as [Hnn Hu].
  destruct (as_f64 n) as [| | |s m e] eqn:Hx; try done. destruct Hnn as [-> (? & _)%bounded_spec].
  unfold f64_ceil. destruct (Z.leb_spec 0 e) as [|He]; [done|]. rewrite <- Hx. unfold as_f64. f_equal.
  cbn [units cond_Zopp] in *.
  assert (one_units = 2 ^ (- e) * 2 ^ (e + 1074)) as Hone
    by (unfold one_units; rewrite <- Z.pow_add_r by lia; f_equal; lia).
  rewrite Hone, Z.mul_assoc in Hu. pose proof (Z.pow_pos_nonneg 2 (e + 1074)).
  apply Z.mul_reg_r in Hu; [|lia]. pose proof (Z.pow_pos_nonneg 2 (- e)).
  rewrite Hu, <- Z.mul_opp_l, Z.div_mul by lia. lia.
Qed.
