(* ===== verification/Dispatcher.v ===== *)
(** The dispatcher (dispatcher.rs): what it may claim and how it hands capacity
    out.

    Queue configuration and its validation (client.rs), the token bucket of a
    rate limit, the overflow pool weighted queues share, the permits a poll
    acquires, one poll in its phases, the runtime overrides, and the pool of
    dispatchers of one runtime whose polls and tasks interleave.

    What the storage answers to a claim is an input of a poll; clocks are
    inputs, in nanoseconds. *)

From S2P Require Import Prelude.
From S2P Require Import Rotation.
From S2P Require Import F64.

(** * Durations

    Nanoseconds; [Duration] saturates at [u64::MAX] seconds. *)
Definition DURATION_MAX : Z := u64_max * 1000000000 + 999999999.
Definition from_millis (ms : Z) : Z := ms * 1000000.
Definition from_secs (s : Z) : Z := s * 1000000000.
Definition is_zero (d : Z) : bool := d =? 0.

Definition idle_poll_sleep (poll_interval idle_poll_interval idle_polls : Z) : Z :=
  Z.min (Z.min DURATION_MAX (poll_interval * Z.shiftl 1 (Z.min idle_polls 16)))
        (Z.max idle_poll_interval poll_interval).

(** * Rate limits *)

Record RateLimit : Type := mkRateLimit {
  max_rate : f64;
  burst : Z
}.

Record TokenBucket : Type := mkBucket {
  tokens : f64;
  max_tokens : f64;
  refill_rate : f64;
  last_refill : Z
}.

(** The burst a limit asks for; [0] derives it from the rate. *)
Definition effective_burst (rate_limit : RateLimit) : Z :=
  if burst rate_limit =? 0 then Z.max (as_u32 (f64_ceil (max_rate rate_limit))) 1
  else burst rate_limit.

Definition bucket_new (rate_limit : RateLimit) (now : Z) : TokenBucket :=
  let b := as_f64 (effective_burst rate_limit) in
  mkBucket b b (max_rate rate_limit) now.

(** [Instant::duration_since] saturates at zero. *)
Definition available (b : TokenBucket) (now : Z) : Z * TokenBucket :=
  let elapsed := as_secs_f64 (sat_sub now (last_refill b)) in
  let t := f64_min (f64_add (tokens b) (f64_mul elapsed (refill_rate b))) (max_tokens b) in
  (as_u32 (f64_floor t), mkBucket t (max_tokens b) (refill_rate b) now).

Definition consume (b : TokenBucket) (n : Z) : TokenBucket :=
  mkBucket (f64_sub (tokens b) (as_f64 n)) (max_tokens b) (refill_rate b) (last_refill b).

Definition refund (b : TokenBucket) (n : Z) : TokenBucket :=
  mkBucket (f64_min (f64_add (tokens b) (as_f64 n)) (max_tokens b))
    (max_tokens b) (refill_rate b) (last_refill b).

Definition reconfigure (b : TokenBucket) (rate_limit : RateLimit) : TokenBucket :=
  let m := as_f64 (effective_burst rate_limit) in
  mkBucket (f64_min (tokens b) m) m (max_rate rate_limit) (last_refill b).

(** * Queue configuration *)

Record QueueConfig : Type := mkConfig {
  max_workers : Z;
  poll_interval : Z;
  deadline_duration : Z;
  priority_aging_interval : Z;
  rate_limit : option RateLimit;
  min_workers : Z;
  weight : Z;
  claimers : Z;
  claim_batch_size : Z
}.

Definition DEFAULT_CLAIM_BATCH_LIMIT : Z := 512.
Definition default_config : QueueConfig :=
  mkConfig 50 (from_millis 200) (from_secs 300) (from_secs 60) None 0 1 1 DEFAULT_CLAIM_BATCH_LIMIT.

Definition shared_rate_limiter (config : QueueConfig) (now : Z) : option TokenBucket :=
  (fun rl => bucket_new rl now) <$> rate_limit config.

(** * The overflow pool

    [u32] counters; a sum that overflows wraps (with overflow checks off). *)
Record OverflowPool : Type := mkPool {
  total : Z;
  held : gmap string Z;
  demand : gmap string Z;
  weights : gmap string Z
}.

Definition pool_new (total : Z) (weights : gmap string Z) : OverflowPool :=
  mkPool total ∅ ∅ weights.

Definition get_or (d : Z) (m : gmap string Z) (q : string) : Z := default d (m !! q).
Definition sum_values (m : gmap string Z) : Z := map_fold (fun _ v acc => v + acc) 0 m.

Definition contending (p : OverflowPool) (q : string) : bool :=
  (0 <? get_or 0 (demand p) q) || (0 <? get_or 0 (held p) q).

Definition contending_weight (p : OverflowPool) : Z :=
  wrap_u32 (map_fold (fun q w acc => if contending p q then w + acc else acc) 0 (weights p)).

Definition fair_share (p : OverflowPool) (my_weight contending_weight : Z) : Z :=
  as_u32 (f64_ceil (f64_mul (as_f64 (total p)) (f64_div (as_f64 my_weight) (as_f64 contending_weight)))).

Definition try_acquire (p : OverflowPool) (queue : string) (wanted : Z) : Z * OverflowPool :=
  let p := mkPool (total p) (held p) (<[queue := wanted]> (demand p)) (weights p) in
  if wanted =? 0 then (0, p)
  else
    let currently_used := wrap_u32 (sum_values (held p)) in
    let avail := sat_sub (total p) currently_used in
    if avail =? 0 then (0, p)
    else
      let my_weight := get_or 1 (weights p) queue in
      let cw := contending_weight p in
      if cw =? 0 then (0, p)
      else
        let my_fair_share := fair_share p my_weight cw in
        let my_held := get_or 0 (held p) queue in
        let room := sat_sub my_fair_share my_held in
        let granted := Z.min (Z.min wanted avail) room in
        if 0 <? granted
        then (granted, mkPool (total p) (<[queue := my_held + granted]> (held p)) (demand p) (weights p))
        else (granted, p).

Definition pool_release (p : OverflowPool) (queue : string) (n : Z) : OverflowPool :=
  match held p !! queue with
  | Some h => mkPool (total p) (<[queue := sat_sub h n]> (held p)) (demand p) (weights p)
  | None => p
  end.

Definition pool_held (p : OverflowPool) (queue : string) : Z := get_or 0 (held p) queue.

(** * Building a runtime (client.rs) *)

Inductive BuildError : Type :=
  | NoQueuesConfigured
  | InvalidPeriodicReconciliation (message : string)
  | QueueDescriptorWithoutQueue (queue : string)
  | DuplicateQueue (queue : string)
  | MinWorkersExceedGlobal (total_min global_max : Z)
  | InvalidRateLimit
  | InvalidWeight
  | InvalidClaimers
  | InvalidClaimBatchSize
  | InvalidBatchSize
  | InvalidDlqBatchSize
  | InvalidTerminalCountRollupInterval
  | InvalidHeartbeatInterval
  | InvalidQueueStorage (message : string)
  | InvalidHealthAddr (raw : string).

(** The part of a builder [build] checks.  [periodic_error] is what validating the periodic
    jobs says (cron_reconciliation.rs), [storage_error] what an earlier setter
    recorded, [cadence] the rotation cadence when the storage is queue storage,
    [bad_health_addr] an [AWA_HEALTH_ADDR] that does not parse. *)
Record ClientBuilder : Type := mkBuilder {
  periodic_error : option string;
  storage_error : option BuildError;
  cadence : option RingRotationCadence;
  bad_health_addr : option string;
  queues : list (string * QueueConfig);
  queue_descriptors : list string;
  cleanup_batch_size : option Z;
  dlq_cleanup_batch_size : option Z;
  terminal_count_rollup_interval : option Z;
  heartbeat_interval : Z;
  global_max_workers : option Z
}.

Definition guard (ok : bool) (e : BuildError) : result BuildError () := if ok then Ok tt else Err e.

Fixpoint check_duplicates (seen : list string) (qs : list (string * QueueConfig)) : result BuildError () :=
  match qs with
  | [] => Ok tt
  | (q, _) :: qs =>
      if bool_decide (q ∈ seen) then Err (DuplicateQueue q) else check_duplicates (q :: seen) qs
  end.

Fixpoint check_descriptors (names : list string) (ds : list string) : result BuildError () :=
  match ds with
  | [] => Ok tt
  | d :: ds => if bool_decide (d ∈ names) then check_descriptors names ds
               else Err (QueueDescriptorWithoutQueue d)
  end.

Definition check_config (config : QueueConfig) : result BuildError () :=
  check? (match rate_limit config with
          | Some rl => guard (negb (f64_le (max_rate rl) (as_f64 0))) InvalidRateLimit
          | None => Ok tt
          end);
  check? (guard (negb (weight config =? 0)) InvalidWeight);
  check? (guard (negb (claimers config =? 0)) InvalidClaimers);
  guard (negb (claim_batch_size config =? 0)) InvalidClaimBatchSize.

Fixpoint check_configs (qs : list (string * QueueConfig)) : result BuildError () :=
  match qs with
  | [] => Ok tt
  | (_, c) :: qs => check? (check_config c); check_configs qs
  end.

Definition positive_or (size : option Z) (e : BuildError) : result BuildError () :=
  match size with
  | Some bs => guard (0 <? bs) e
  | None => Ok tt
  end.

Definition or_error {A} (found : option A) (e : A -> BuildError) : result BuildError () :=
  match found with
  | Some x => Err (e x)
  | None => Ok tt
  end.

Definition UNSEALABLE : string :=
  "ring_rotation_cadence: min_slot_rows needs max_slot_age or target_slot_bytes, otherwise a slot whose rows are deleted may never seal".

Definition check_cadence (cadence : option RingRotationCadence) : result BuildError () :=
  match cadence with
  | Some c =>
      guard (negb (negb (is_zero (min_slot_age c)) && (0 <? min_slot_rows c)
                   && is_zero (max_slot_age c) && (target_slot_bytes c =? 0)))
        (InvalidQueueStorage UNSEALABLE)
  | None => Ok tt
  end.

Definition sum_by {A} (f : A -> Z) (l : list A) : Z := foldr (fun x acc => f x + acc) 0 l.

(** The overflow pool of weighted mode. *)
Definition weighted_pool (b : ClientBuilder) : result BuildError (option OverflowPool) :=
  match global_max_workers b with
  | None => Ok None
  | Some global_max =>
      let total_min := wrap_u32 (sum_by (fun qc => min_workers (snd qc)) (queues b)) in
      if global_max <? total_min then Err (MinWorkersExceedGlobal total_min global_max)
      else Ok (Some (pool_new (global_max - total_min)
                       (list_to_map (map (fun qc => (fst qc, Z.max (weight (snd qc)) 1)) (queues b)))))
  end.

(** [build]: every check in order; of the client it returns, the overflow pool. *)
Definition build (b : ClientBuilder) : result BuildError (option OverflowPool) :=
  check? (or_error (periodic_error b) InvalidPeriodicReconciliation);
  check? (guard (negb (Nat.eqb (length (queues b)) 0)) NoQueuesConfigured);
  check? (or_error (storage_error b) id);
  check? (check_cadence (cadence b));
  check? (check_duplicates [] (queues b));
  check? (check_descriptors (map fst (queues b)) (queue_descriptors b));
  check? (check_configs (queues b));
  check? (positive_or (cleanup_batch_size b) InvalidBatchSize);
  check? (positive_or (dlq_cleanup_batch_size b) InvalidDlqBatchSize);
  check? (match terminal_count_rollup_interval b with
          | Some i => guard (negb (is_zero i)) InvalidTerminalCountRollupInterval
          | None => Ok tt
          end);
  check? (guard (negb (is_zero (heartbeat_interval b))) InvalidHeartbeatInterval);
  let? pool := weighted_pool b in
  check? (or_error (bad_health_addr b) InvalidHealthAddr);
  Ok pool.

(** What the dispatchers of one runtime share: a semaphore per queue (its free
    permits), the overflow pool, a bucket per limited queue. *)
Record Shared : Type := mkShared {
  semaphores : gmap string Z;
  overflow_pool : option OverflowPool;
  limiters : gmap string TokenBucket
}.

(** The semaphore a queue gets from [start]: all its workers, or the guaranteed
    ones in weighted mode. *)
Definition reserved (pool : option OverflowPool) (c : QueueConfig) : Z :=
  match pool with
  | None => max_workers c
  | Some _ => min_workers c
  end.

Definition start (b : ClientBuilder) (pool : option OverflowPool) (now : Z) : Shared :=
  mkShared
    (list_to_map (map (fun qc => (fst qc, reserved pool (snd qc))) (queues b)))
    pool
    (list_to_map (omap (fun qc => pair (fst qc) <$> shared_rate_limiter (snd qc) now) (queues b))).

(** * Permits *)

(** A permit carries what its drop releases. *)
Inductive DispatchPermit : Type :=
  | Hard (queue : string)
  | Local (queue : string)
  | Overflow (queue : string).
#[export] Instance DispatchPermit_eq_dec : EqDecision DispatchPermit.
Proof. solve_decision. Defined.

Definition drop_permit (s : Shared) (p : DispatchPermit) : Shared :=
  match p with
  | Hard q | Local q => mkShared (alter (Z.add 1) q (semaphores s)) (overflow_pool s) (limiters s)
  | Overflow q => mkShared (semaphores s) ((fun p => pool_release p q 1) <$> overflow_pool s) (limiters s)
  end.
Definition drop_permits (s : Shared) (ps : list DispatchPermit) : Shared := fold_left drop_permit ps s.

(** [for _ in 0..n { match semaphore.try_acquire_owned() .. }]: the permits taken
    and what is left. *)
Fixpoint take_permits (n : nat) (free : Z) : nat * Z :=
  match n with
  | O => (O, free)
  | S n => if 0 <? free then let '(k, free) := take_permits n (free - 1) in (S k, free) else (O, free)
  end.

Definition acquire_permits (queue : string) (batch : Z) (s : Shared) : list DispatchPermit * Shared :=
  let '(k, free) := take_permits (Z.to_nat batch) (get_or 0 (semaphores s) queue) in
  let sems := <[queue := free]> (semaphores s) in
  match overflow_pool s with
  | None => (replicate k (Hard queue), mkShared sems None (limiters s))
  | Some pool =>
      let overflow_wanted := wrap_u32 (sat_sub batch (Z.of_nat k)) in
      let '(granted, pool) := try_acquire pool queue overflow_wanted in
      (replicate k (Local queue) ++ replicate (Z.to_nat granted) (Overflow queue),
       mkShared sems (Some pool) (limiters s))
  end.

Definition set_limiter (queue : string) (b : TokenBucket) (s : Shared) : Shared :=
  mkShared (semaphores s) (overflow_pool s) (<[queue := b]> (limiters s)).

Definition refund_rate_limit (queue : string) (n : Z) (s : Shared) : Shared :=
  if n =? 0 then s
  else match limiters s !! queue with
       | Some b => set_limiter queue (refund b (wrap_u32 n)) s
       | None => s
       end.

(** * One poll

    [poll_once] up to the claim: [None] when it returns [false] there, else the
    permits it holds and the size of the batch it asks for. *)
Definition begin_poll (queue : string) (batch now : Z) (s : Shared) : option (list DispatchPermit * Z) * Shared :=
  let '(permits, s) := acquire_permits queue batch s in
  if Nat.eqb (length permits) 0 then (None, s)
  else
    let len := Z.of_nat (length permits) in
    let '(batch_size, s) :=
      match limiters s !! queue with
      | Some b =>
          let '(rate_available, b) := available b now in
          let batch_size := Z.min (Z.min len rate_available) batch in
          let b := if 0 <? batch_size then consume b (wrap_u32 batch_size) else b in
          (batch_size, set_limiter queue b s)
      | None => (Z.min len batch, s)
      end in
    if batch_size =? 0 then (None, drop_permits s permits)
    else
      let keep := Z.to_nat batch_size in
      (Some (take keep permits, batch_size), drop_permits s (reverse (drop keep permits))).

(** What came of the claim: the gate was closed or dispatch cancelled before
    it, the statement failed, or it returned jobs. *)
Inductive ClaimOutcome (J : Type) : Type :=
  | NoClaim
  | ClaimFailed
  | ClaimReturned (jobs : list J).
Arguments NoClaim {J}.
Arguments ClaimFailed {J}.
Arguments ClaimReturned {J} jobs.

Definition claimed_jobs {J} (outcome : ClaimOutcome J) : list J :=
  match outcome with ClaimReturned jobs => jobs | _ => [] end.

(** The rest of [poll_once]: the tasks it spawns, each with its permit, whether
    the caller keeps polling. *)
Definition finish_poll {J} (queue : string) (permits : list DispatchPermit) (batch_size : Z)
    (outcome : ClaimOutcome J) (s : Shared) : list (J * DispatchPermit) * bool * Shared :=
  match outcome with
  | NoClaim | ClaimFailed => ([], false, drop_permits (refund_rate_limit queue batch_size s) permits)
  | ClaimReturned jobs =>
      let n := Z.of_nat (length jobs) in
      let s := if n <? batch_size then refund_rate_limit queue (batch_size - n) s else s in
      let s := drop_permits s (reverse (drop (length jobs) permits)) in
      let permits := take (length jobs) permits in
      match jobs with
      | [] => ([], false,
               mkShared (semaphores s) ((fun p => snd (try_acquire p queue 0)) <$> overflow_pool s) (limiters s))
      | _ => (combine jobs permits, true, s)
      end
  end.

(** The whole poll, when nothing interleaves with it; [claim] answers for a
    batch size. *)
Definition poll_once {J} (queue : string) (batch now : Z) (claim : Z -> ClaimOutcome J) (s : Shared)
    : list (J * DispatchPermit) * bool * Shared :=
  match begin_poll queue batch now s with
  | (None, s) => ([], false, s)
  | (Some (permits, n), s) => finish_poll queue permits n (claim n) s
  end.

(** * A runtime's dispatchers

    The polls between their two halves, and the tasks spawned. *)
Record Runtime (J : Type) : Type := mkRuntime {
  shared : Shared;
  polls : list (string * (list DispatchPermit * Z));
  tasks : list (J * DispatchPermit)
}.
Arguments mkRuntime {J} _ _ _.
Arguments shared {J} _.
Arguments polls {J} _.
Arguments tasks {J} _.

(** A limit the program works with: its rate not negative (it may be infinite or
    NaN), its burst a [u32]. *)
Definition limit_ok (rl : RateLimit) : Prop := unsigned (max_rate rl) /\ 0 <= burst rl <= u32_max.

(** Any claimer may begin a poll of its queue with any batch size, polls finish
    in any order, tasks end in any order and drop their permit, limits are
    retuned. *)
Inductive run_step {J : Type} : Runtime J -> Runtime J -> Prop :=
  | StepBegin r queue batch now :
      is_Some (semaphores (shared r) !! queue) -> 0 <= batch ->
      run_step r
        (let '(begun, s) := begin_poll queue batch now (shared r) in
         mkRuntime s (match begun with Some pb => (queue, pb) :: polls r | None => polls r end) (tasks r))
  | StepFinish r before queue permits batch after outcome :
      polls r = before ++ (queue, (permits, batch)) :: after ->
      run_step r
        (let '(spawned, _, s) := finish_poll queue permits batch outcome (shared r) in
         mkRuntime s (before ++ after) (spawned ++ tasks r))
  | StepTaskEnds r before job permit after :
      tasks r = before ++ (job, permit) :: after ->
      run_step r (mkRuntime (drop_permit (shared r) permit) (polls r) (before ++ after))
  | StepRetune r queue bucket rl :
      limiters (shared r) !! queue = Some bucket -> limit_ok rl ->
      run_step r (mkRuntime (set_limiter queue (reconfigure bucket rl) (shared r)) (polls r) (tasks r)).

Definition started {J} (b : ClientBuilder) (pool : option OverflowPool) (now : Z) : Runtime J :=
  mkRuntime (start b pool now) [] [].

(** * Runtime overrides

    A row of [awa.queue_meta]; [None] fields revert to the builder's values. *)
Record QueueRuntimeOverrides : Type := mkOverrides {
  o_poll_interval_ms : option Z;
  o_claim_batch_size : option Z;
  o_rate_limit : option f64;
  o_deadline_ms : option Z
}.
Definition default_overrides : QueueRuntimeOverrides := mkOverrides None None None None.

(** The derived [==]: on rates it is that of [f64], so a NaN differs from
    itself. *)
Definition rate_eqb (a b : option f64) : bool :=
  match a, b with
  | None, None => true
  | Some x, Some y => SpecFloat.SFeqb x y
  | _, _ => false
  end.
Definition overrides_eqb (a b : QueueRuntimeOverrides) : bool :=
  bool_decide (o_poll_interval_ms a = o_poll_interval_ms b)
  && bool_decide (o_claim_batch_size a = o_claim_batch_size b)
  && rate_eqb (o_rate_limit a) (o_rate_limit b)
  && bool_decide (o_deadline_ms a = o_deadline_ms b).

(** The hot-reloadable part of a [Dispatcher]. *)
Record Dispatcher : Type := mkDispatcher {
  config : QueueConfig;
  base_poll_interval : Z;
  base_claim_batch_size : Z;
  base_deadline_duration : Z;
  base_rate_limit : option RateLimit;
  overrides_refreshed_at : option Z;
  applied_overrides : QueueRuntimeOverrides
}.

Definition with_concurrency (config : QueueConfig) : Dispatcher :=
  mkDispatcher config (poll_interval config) (claim_batch_size config) (deadline_duration config)
    (rate_limit config) None default_overrides.

Definition abandon_after (d : Dispatcher) (abandon_grace : Z) : option Z :=
  let deadline := deadline_duration (config d) in
  if is_zero deadline then None else Some (deadline + abandon_grace).

(** [as u64], [as usize] of a signed column sign-extend. *)
Definition overridden_config (d : Dispatcher) (o : QueueRuntimeOverrides) : QueueConfig :=
  let c := config d in
  mkConfig (max_workers c)
    (match o_poll_interval_ms o with Some ms => from_millis (wrap_u64 ms) | None => base_poll_interval d end)
    (match o_deadline_ms o with
     | Some ms =>
         if Bool.eqb (is_zero (base_deadline_duration d)) (ms =? 0) then from_millis (wrap_u64 ms)
         else base_deadline_duration d
     | None => base_deadline_duration d
     end)
    (priority_aging_interval c) (rate_limit c) (min_workers c) (weight c) (claimers c)
    (match o_claim_batch_size o with Some n => Z.max (wrap_u64 n) 1 | None => base_claim_batch_size d end).

Definition effective_limit (base : RateLimit) (o : QueueRuntimeOverrides) : RateLimit :=
  mkRateLimit (default (max_rate base) (o_rate_limit o))
    (match o_rate_limit o with Some _ => 0 | None => burst base end).

(** [refresh_runtime_overrides], with the queue's bucket; [answer] is what the
    read of the row gave. *)
Definition refresh_runtime_overrides {E} (interval now : Z)
    (answer : result E (option QueueRuntimeOverrides)) (d : Dispatcher) (limiter : option TokenBucket)
    : Dispatcher * option TokenBucket :=
  let due := match overrides_refreshed_at d with
             | None => true
             | Some at_ => interval <=? sat_sub now at_
             end in
  if negb due then (d, limiter)
  else
    let d := mkDispatcher (config d) (base_poll_interval d) (base_claim_batch_size d)
               (base_deadline_duration d) (base_rate_limit d) (Some now) (applied_overrides d) in
    match answer with
    | Err _ => (d, limiter)
    | Ok row =>
        let o := default default_overrides row in
        if overrides_eqb o (applied_overrides d) then (d, limiter)
        else
          (mkDispatcher (overridden_config d o) (base_poll_interval d) (base_claim_batch_size d)
             (base_deadline_duration d) (base_rate_limit d) (Some now) o,
           match limiter, base_rate_limit d with
           | Some b, Some base => Some (reconfigure b (effective_limit base o))
           | _, _ => limiter
           end)
    end.
