(* ===== verification/DispatcherFacts.v ===== *)
(** What the dispatcher guarantees: capacity is never exceeded and never leaks,
    whatever polls and tasks interleave; the token bucket stays within its
    burst; a poll that claims nothing costs nothing; a queue alone in contention
    may take the whole overflow pool; overrides leave no trace of earlier
    ones. *)

From S2P Require Import Prelude.
From S2P Require Import Rotation.
From S2P Require Import F64.
From S2P Require Import Dispatcher.

(** * Sums *)

Lemma sum_by_app {A} (f : A -> Z) (l k : list A) : sum_by f (l ++ k) = sum_by f l + sum_by f k.
Proof. induction l as [|x l IH]; simpl; [done|]. rewrite IH. lia. Qed.

#[export] Instance sum_by_perm {A} (f : A -> Z) : Proper (Permutation ==> eq) (sum_by f).
Proof. intros l k. unfold sum_by. apply foldr_permutation_proper; [apply _|..]; solve_proper || (intros; lia). Qed.

Lemma sum_by_replicate {A} (f : A -> Z) (n : nat) (x : A) : sum_by f (replicate n x) = Z.of_nat n * f x.
Proof. induction n as [|n IH]; simpl; [lia|]. rewrite IH. lia. Qed.

Lemma sum_by_le {A} (f g : A -> Z) (l : list A) : (forall x, f x <= g x) -> sum_by f l <= sum_by g l.
Proof. intros H. induction l as [|x l IH]; simpl; [lia|]. pose proof (H x). lia. Qed.

Lemma sum_by_nonneg {A} (f : A -> Z) (l : list A) : (forall x, 0 <= f x) -> 0 <= sum_by f l.
Proof. intros H. induction l as [|x l IH]; simpl; [lia|]. pose proof (H x). lia. Qed.

Lemma sum_by_Forall {A} (f : A -> Z) (l : list A) : Forall (fun x => 0 <= f x) l -> 0 <= sum_by f l.
Proof. induction 1; simpl; lia. Qed.

Lemma get_or_insert d m q v : get_or d (<[q := v]> m) q = v.
Proof. unfold get_or. by rewrite lookup_insert_eq. Qed.

Lemma get_or_insert_ne d m q q' v : q <> q' -> get_or d (<[q := v]> m) q' = get_or d m q'.
Proof. intros. unfold get_or. by rewrite lookup_insert_ne. Qed.

Lemma sum_values_insert_new m q v : m !! q = None -> sum_values (<[q := v]> m) = v + sum_values m.
Proof. intros H. unfold sum_values. rewrite map_fold_insert_L; [done|intros; lia|done]. Qed.

Lemma sum_values_insert m q v : sum_values (<[q := v]> m) = sum_values m - get_or 0 m q + v.
Proof.
  unfold get_or. destruct (m !! q) as [w|] eqn:Hq; simpl.
  - rewrite <- (insert_delete_id m q w Hq) at 2. rewrite <- insert_delete_eq.
    rewrite !sum_values_insert_new by apply lookup_delete_eq. lia.
  - rewrite sum_values_insert_new by done. lia.
Qed.

Lemma sum_values_nonneg m : (forall q v, m !! q = Some v -> 0 <= v) -> 0 <= sum_values m.
Proof.
  induction m as [|q v m Hq IH] using map_ind; intros H; [done|].
  rewrite sum_values_insert_new by done.
  assert (0 <= sum_values m).
  { apply IH. intros q' v' Hv. apply (H q'). rewrite lookup_insert_ne; [done|congruence]. }
  pose proof (H q v (lookup_insert_eq _ _ _)). lia.
Qed.

(** * Accounting for permits *)

Definition permit_queue (p : DispatchPermit) : string :=
  match p with Hard q | Local q | Overflow q => q end.
Definition is_overflow (p : DispatchPermit) : bool :=
  match p with Overflow _ => true | _ => false end.

(** How many permits satisfy a test. *)
Definition count (f : DispatchPermit -> bool) (ps : list DispatchPermit) : Z :=
  sum_by (fun p => if f p then 1 else 0) ps.
Definition of_queue (q : string) (p : DispatchPermit) : bool := bool_decide (permit_queue p = q).
Definition reserved_of (q : string) (p : DispatchPermit) : bool := negb (is_overflow p) && of_queue q p.
Definition overflow_of (q : string) (p : DispatchPermit) : bool := is_overflow p && of_queue q p.

Definition pool_of (s : Shared) : OverflowPool := default (pool_new 0 ∅) (overflow_pool s).

(** Free and outstanding permits add up to the capacity: queue by queue and in
    total, for the semaphores and for the pool. *)
Record accounted (cap : gmap string Z) (t : option Z) (s : Shared) (ps : list DispatchPermit) : Prop := {
  acc_dom : dom (semaphores s) = dom cap;
  acc_free q f : semaphores s !! q = Some f -> 0 <= f;
  acc_queue q : get_or 0 (semaphores s) q + count (reserved_of q) ps = get_or 0 cap q;
  acc_all : sum_values (semaphores s) + count (fun p => negb (is_overflow p)) ps = sum_values cap;
  acc_total : total <$> overflow_pool s = t;
  acc_range : 0 <= default 0 t <= u32_max;
  acc_held q : get_or 0 (held (pool_of s)) q = count (overflow_of q) ps;
  acc_held_all : sum_values (held (pool_of s)) = count is_overflow ps;
  acc_bound : count is_overflow ps <= default 0 t
}.

Arguments count : simpl never.

Lemma count_app f ps qs : count f (ps ++ qs) = count f ps + count f qs.
Proof. apply sum_by_app. Qed.

Lemma count_cons f p ps : count f (p :: ps) = (if f p then 1 else 0) + count f ps.
Proof. done. Qed.

Lemma count_replicate f n p : count f (replicate n p) = if f p then Z.of_nat n else 0.
Proof. unfold count. rewrite sum_by_replicate. destruct (f p); lia. Qed.

Lemma count_nonneg f ps : 0 <= count f ps.
Proof. apply sum_by_nonneg. intros p. by destruct (f p). Qed.

#[export] Instance count_perm f : Proper (Permutation ==> eq) (count f).
Proof. apply sum_by_perm. Qed.

#[export] Instance accounted_perm cap t s : Proper (Permutation ==> impl) (accounted cap t s).
Proof.
  intros ps qs Hp []. split; try done; intros; rewrite <- ?Hp; eauto.
Qed.

Lemma reserved_of_eq q p : reserved_of q p = negb (is_overflow p) && bool_decide (permit_queue p = q).
Proof. done. Qed.
Lemma overflow_of_eq q p : overflow_of q p = is_overflow p && bool_decide (permit_queue p = q).
Proof. done. Qed.

Ltac count_simpl :=
  rewrite ?count_app, ?count_cons, ?count_replicate, ?reserved_of_eq, ?overflow_of_eq in *;
  cbn [is_overflow permit_queue negb andb] in *.

(** A semaphore gains [k] permits ([k] negative: loses). *)
Lemma accounted_semaphore cap t s ps q free k s' ps' :
  accounted cap t s ps -> is_Some (semaphores s !! q) ->
  0 <= free -> get_or 0 (semaphores s) q = free - k ->
  semaphores s' = <[q := free]> (semaphores s) -> overflow_pool s' = overflow_pool s ->
  (forall q', count (reserved_of q') ps' = count (reserved_of q') ps - (if decide (q = q') then k else 0)) ->
  count (fun p => negb (is_overflow p)) ps' = count (fun p => negb (is_overflow p)) ps - k ->
  (forall q', count (overflow_of q') ps' = count (overflow_of q') ps) ->
  count is_overflow ps' = count is_overflow ps ->
  accounted cap t s' ps'.
Proof.
  intros [] Hq Hf Hget Hsem Hpool Hr Hra Ho Hoa.
  split; unfold pool_of; rewrite ?Hsem, ?Hpool, ?Hra, ?Hoa; try done.
  - rewrite dom_insert_L, <- acc_dom0. apply elem_of_dom in Hq. set_solver.
  - intros q' f [[<- <-]|[? ?]]%lookup_insert_Some; [done|eauto].
  - intros q'. rewrite Hr. specialize (acc_queue0 q'). destruct (decide (q = q')) as [<-|].
    + rewrite get_or_insert. lia.
    + rewrite get_or_insert_ne by done. lia.
  - rewrite sum_values_insert. lia.
  - intros q'. rewrite Ho. apply acc_held0.
Qed.

(** The pool's holding of a queue changes by [k]. *)
Lemma accounted_pool cap t s ps p q k s' ps' h :
  accounted cap t s ps -> overflow_pool s = Some p ->
  semaphores s' = semaphores s -> total <$> overflow_pool s' = Some (total p) ->
  held (pool_of s') = h ->
  (h = held p /\ k = 0 \/ h = <[q := get_or 0 (held p) q + k]> (held p)) ->
  (forall q', count (reserved_of q') ps' = count (reserved_of q') ps) ->
  count (fun p => negb (is_overflow p)) ps' = count (fun p => negb (is_overflow p)) ps ->
  (forall q', count (overflow_of q') ps' = count (overflow_of q') ps + (if decide (q = q') then k else 0)) ->
  count is_overflow ps' = count is_overflow ps + k ->
  count is_overflow ps + k <= total p ->
  accounted cap t s' ps'.
Proof.
  intros [] Hp Hsem Htot Hheld Hh Hr Hra Ho Hoa Hle.
  assert (held (pool_of s) = held p) as Hps by (unfold pool_of; by rewrite Hp).
  rewrite Hp in acc_total0. simpl in acc_total0. rewrite Hps in acc_held0, acc_held_all0.
  split; rewrite ?Hsem, ?Hra, ?Hheld, ?Hoa; try done.
  - intros q'. by rewrite Hr.
  - by rewrite Htot.
  - intros q'. rewrite Ho. specialize (acc_held0 q').
    destruct Hh as [[-> ->]| ->]; destruct (decide (q = q')) as [<-|]; try lia.
    + rewrite get_or_insert. lia.
    + rewrite get_or_insert_ne by done. lia.
  - destruct Hh as [[-> ->]| ->]; [lia|]. rewrite sum_values_insert. lia.
  - subst t. exact Hle.
Qed.

Lemma drop_reserved_accounted cap t s p q ps :
  is_overflow p = false -> permit_queue p = q -> accounted cap t s (p :: ps) ->
  accounted cap t (mkShared (alter (Z.add 1) q (semaphores s)) (overflow_pool s) (limiters s)) ps.
Proof.
  intros Hp Hq H. pose proof (acc_queue _ _ _ _ H q) as Hsem.
  rewrite count_cons, reserved_of_eq, Hp, Hq, bool_decide_true in Hsem by done. simpl in Hsem.
  pose proof (count_nonneg (reserved_of q) ps).
  destruct (semaphores s !! q) as [f|] eqn:Hf.
  2: { assert (cap !! q = None) as Hc.
       { apply not_elem_of_dom. rewrite <- (acc_dom _ _ _ _ H). by apply not_elem_of_dom. }
       unfold get_or in Hsem. rewrite Hf, Hc in Hsem. simpl in Hsem. lia. }
  pose proof (acc_free _ _ _ _ H _ _ Hf).
  apply (accounted_semaphore cap t s (p :: ps) q (1 + f) 1); simpl; try done; try lia.
  - unfold get_or. rewrite Hf. simpl. lia.
  - apply map_eq. intros q'. destruct (decide (q = q')) as [<-|].
    + by rewrite lookup_alter_eq, lookup_insert_eq, Hf.
    + by rewrite lookup_alter_ne, lookup_insert_ne.
  - intros q'. rewrite count_cons, reserved_of_eq, Hp. simpl.
    destruct (decide (q = q')); [rewrite bool_decide_true by congruence|rewrite bool_decide_false by congruence]; lia.
  - rewrite count_cons, Hp. simpl. lia.
  - intros q'. rewrite count_cons, overflow_of_eq, Hp. simpl. lia.
  - rewrite count_cons, Hp. lia.
Qed.

Lemma drop_overflow_accounted cap t s q ps :
  accounted cap t s (Overflow q :: ps) -> accounted cap t (drop_permit s (Overflow q)) ps.
Proof.
  intros H. pose proof (acc_held _ _ _ _ H q) as Hq. pose proof (acc_bound _ _ _ _ H) as Hb.
  pose proof (acc_total _ _ _ _ H) as Ht. unfold pool_of in Hq. count_simpl.
  rewrite bool_decide_true in Hq by done. pose proof (count_nonneg (overflow_of q) ps).
  destruct (overflow_pool s) as [p|] eqn:Hp; simpl in *; [|unfold get_or in Hq; rewrite lookup_empty in Hq; simpl in Hq; lia].
  assert (held p !! q = Some (1 + count (overflow_of q) ps)) as Hh.
  { unfold get_or in Hq. destruct (held p !! q); simpl in Hq; [by subst|lia]. }
  subst t. apply (accounted_pool cap _ s (Overflow q :: ps) p q (-1) _ _
           (<[q := sat_sub (1 + count (overflow_of q) ps) 1]> (held p))); try done; cbn [overflow_pool].
  - rewrite Hp. simpl. unfold pool_release. by rewrite Hh.
  - unfold pool_of. cbn [overflow_pool]. rewrite Hp. simpl. unfold pool_release. by rewrite Hh.
  - right. f_equal. unfold sat_sub. rewrite Hq. lia.
  - intros q'. count_simpl. destruct (decide (q = q')); [rewrite bool_decide_true by done|rewrite bool_decide_false by done]; lia.
  - count_simpl. lia.
  - count_simpl. simpl in Hb. lia.
Qed.

Lemma drop_permit_accounted cap t s p ps :
  accounted cap t s (p :: ps) -> accounted cap t (drop_permit s p) ps.
Proof.
  intros H. destruct p as [q|q|q]; [by apply (drop_reserved_accounted _ _ _ (Hard q) q)
    |by apply (drop_reserved_accounted _ _ _ (Local q) q)|by apply drop_overflow_accounted].
Qed.

Lemma drop_permits_accounted cap t s ps qs :
  accounted cap t s (ps ++ qs) -> accounted cap t (drop_permits s ps) qs.
Proof.
  revert s. induction ps as [|p ps IH]; intros s H; [done|]. by apply IH, drop_permit_accounted.
Qed.

(** ** Acquiring *)

Lemma take_permits_spec n free :
  0 <= free ->
  let '(k, free') := take_permits n free in free = free' + Z.of_nat k /\ 0 <= free' /\ (k <= n)%nat
    /\ (k = n \/ free' = 0).
Proof.
  revert free. induction n as [|n IH]; intros free Hf; simpl; [lia|].
  destruct (Z.ltb_spec 0 free); [|lia].
  specialize (IH (free - 1) ltac:(lia)). destruct (take_permits n (free - 1)) as [k free']. lia.
Qed.

(** [try_acquire]: what it grants and what it changes. *)
Lemma try_acquire_spec p q wanted :
  0 <= wanted -> 0 <= sum_values (held p) <= total p -> total p <= u32_max ->
  let '(granted, p') := try_acquire p q wanted in
  0 <= granted <= wanted /\ granted <= total p - sum_values (held p)
  /\ total p' = total p /\ weights p' = weights p /\ demand p' = <[q := wanted]> (demand p)
  /\ (held p' = held p /\ granted = 0 \/ held p' = <[q := get_or 0 (held p) q + granted]> (held p)).
Proof.
  intros Hw Hs Ht. unfold try_acquire. cbn [total held demand weights].
  assert (wrap_u32 (sum_values (held p)) = sum_values (held p)) as ->.
  { unfold wrap_u32. apply Z.mod_small. unfold u32_max in Ht. lia. }
  destruct (Z.eqb_spec wanted 0); [cbn; intuition lia|].
  unfold sat_sub at 1 2 3.
  destruct (Z.eqb_spec (Z.max 0 (total p - sum_values (held p))) 0); [cbn; intuition lia|].
  destruct (contending_weight _ =? 0); [cbn; intuition lia|].
  set (granted := Z.min _ _).
  assert (0 <= granted) by (unfold granted, sat_sub; lia).
  destruct (Z.ltb_spec 0 granted); cbn; unfold granted in *; intuition lia.
Qed.

Lemma acquire_reserved_accounted cap t q s ps p k free lim :
  is_overflow p = false -> permit_queue p = q -> is_Some (semaphores s !! q) ->
  get_or 0 (semaphores s) q = free + Z.of_nat k -> 0 <= free -> accounted cap t s ps ->
  accounted cap t (mkShared (<[q := free]> (semaphores s)) (overflow_pool s) lim) (replicate k p ++ ps).
Proof.
  intros Hp Hpq Hq Hk Hf H. apply (accounted_semaphore cap t s ps q free (- Z.of_nat k)); try done; try lia.
  - intros q'. count_simpl. rewrite Hp, Hpq. simpl. destruct (decide (q = q'));
      [rewrite bool_decide_true by done|rewrite bool_decide_false by done]; lia.
  - count_simpl. rewrite Hp. simpl. lia.
  - intros q'. count_simpl. rewrite Hp. simpl. lia.
  - count_simpl. rewrite Hp. lia.
Qed.

Lemma acquire_overflow_accounted cap t q s ps p wanted :
  overflow_pool s = Some p -> 0 <= wanted -> accounted cap t s ps ->
  let '(granted, p') := try_acquire p q wanted in
  accounted cap t (mkShared (semaphores s) (Some p') (limiters s))
    (replicate (Z.to_nat granted) (Overflow q) ++ ps).
Proof.
  intros Hp Hw H. pose proof (acc_total _ _ _ _ H) as Ht. rewrite Hp in Ht. simpl in Ht. subst t.
  pose proof (acc_range _ _ _ _ H) as Hr. pose proof (acc_bound _ _ _ _ H) as Hb.
  pose proof (acc_held_all _ _ _ _ H) as Ha. unfold pool_of in Ha. rewrite Hp in Ha. simpl in Hr, Hb, Ha.
  pose proof (count_nonneg is_overflow ps).
  pose proof (try_acquire_spec p q wanted Hw ltac:(lia) ltac:(lia)) as Htry.
  destruct (try_acquire p q wanted) as [granted p'].
  destruct Htry as (Hg & Hle & Htot & _ & _ & Hh).
  apply (accounted_pool cap _ s ps p q granted _ _ (held p')); try done; simpl.
  - by rewrite Htot.
  - intros q'. count_simpl. lia.
  - count_simpl. lia.
  - intros q'. count_simpl. destruct (decide (q = q'));
      [rewrite bool_decide_true by done|rewrite bool_decide_false by done]; lia.
  - count_simpl. lia.
  - lia.
Qed.

Lemma acquire_permits_accounted cap t q batch s ps :
  is_Some (semaphores s !! q) -> accounted cap t s ps ->
  let '(new, s') := acquire_permits q batch s in accounted cap t s' (new ++ ps).
Proof.
  intros Hq H. unfold acquire_permits.
  assert (0 <= get_or 0 (semaphores s) q) as Hfree.
  { destruct Hq as [f Hf]. unfold get_or. rewrite Hf. simpl. eapply acc_free; eauto. }
  pose proof (take_permits_spec (Z.to_nat batch) _ Hfree) as Htake.
  destruct (take_permits (Z.to_nat batch) (get_or 0 (semaphores s) q)) as [k free].
  destruct Htake as (Hk & Hf & _ & _).
  destruct (overflow_pool s) as [p|] eqn:Hp.
  - pose proof (acquire_reserved_accounted cap t q s ps (Local q) k free (limiters s)
      eq_refl eq_refl Hq Hk Hf H) as Hres. rewrite Hp in Hres.
    apply (acquire_overflow_accounted cap t q _ _ p (wrap_u32 (sat_sub batch (Z.of_nat k)))) in Hres;
      [|done|apply Z.mod_pos_bound; lia].
    destruct (try_acquire p q _) as [granted p']. simpl in Hres |- *. rewrite <- app_assoc.
    eapply accounted_perm; [|exact Hres]. apply Permutation_app_swap_app.
  - pose proof (acquire_reserved_accounted cap t q s ps (Hard q) k free (limiters s)) as Hres.
    rewrite Hp in Hres. auto.
Qed.

(** ** Polls *)

Lemma accounted_limiters cap t sems pool l l' ps :
  accounted cap t (mkShared sems pool l) ps -> accounted cap t (mkShared sems pool l') ps.
Proof. intros []. by split. Qed.

Lemma set_limiter_accounted cap t q b s ps : accounted cap t s ps -> accounted cap t (set_limiter q b s) ps.
Proof. destruct s. apply accounted_limiters. Qed.

Lemma refund_rate_limit_accounted cap t q n s ps :
  accounted cap t s ps -> accounted cap t (refund_rate_limit q n s) ps.
Proof. unfold refund_rate_limit. intros. repeat case_match; auto using set_limiter_accounted. Qed.

#[local] Hint Resolve set_limiter_accounted refund_rate_limit_accounted drop_permits_accounted : awa.

(** Keeping the first permits of a poll and dropping the rest, last first. *)
Lemma drop_excess_accounted cap t s n permits ps :
  accounted cap t s (permits ++ ps) ->
  accounted cap t (drop_permits s (reverse (drop n permits))) (take n permits ++ ps).
Proof.
  intros H. apply drop_permits_accounted. eapply accounted_perm; [|exact H].
  rewrite reverse_Permutation, app_assoc. apply Permutation_app_tail.
  rewrite Permutation_app_comm. by rewrite take_drop.
Qed.

Lemma begin_poll_accounted cap t q batch now s ps :
  is_Some (semaphores s !! q) -> accounted cap t s ps ->
  let '(begun, s') := begin_poll q batch now s in
  accounted cap t s' (match begun with Some (permits, _) => permits ++ ps | None => ps end).
Proof.
  intros Hq H. pose proof (acquire_permits_accounted cap t q batch s ps Hq H) as Ha. unfold begin_poll.
  destruct (acquire_permits q batch s) as [permits s1].
  destruct permits as [|p permits]; [done|]. cbn [length Nat.eqb].
  set (limited := match limiters s1 !! q with Some _ => _ | None => _ end).
  assert (accounted cap t (snd limited) ((p :: permits) ++ ps)) as Hl.
  { unfold limited. destruct (limiters s1 !! q) as [b|]; [|exact Ha].
    destruct (available b now). by apply set_limiter_accounted. }
  destruct limited as [n s2]. simpl in Hl.
  destruct (n =? 0); [by apply drop_permits_accounted|by apply drop_excess_accounted].
Qed.

Lemma map_snd_combine {A B} (l : list A) (k : list B) :
  (length k <= length l)%nat -> map snd (combine l k) = k.
Proof.
  revert k. induction l as [|x l IH]; intros [|y k] Hl; simpl in *; try done; [lia|]. by rewrite IH by lia.
Qed.

Lemma finish_poll_accounted {J} cap t q permits batch (outcome : ClaimOutcome J) s ps :
  accounted cap t s (permits ++ ps) ->
  let '(spawned, _, s') := finish_poll q permits batch outcome s in
  accounted cap t s' (map snd spawned ++ ps).
Proof.
  intros H. destruct outcome as [| |jobs]; simpl; [by auto with awa..|].
  set (s1 := if Z.of_nat _ <? _ then _ else s).
  assert (accounted cap t s1 (permits ++ ps)) as H1 by (unfold s1; case_match; auto with awa).
  apply (drop_excess_accounted _ _ _ (length jobs)) in H1.
  destruct jobs as [|j jobs].
  - simpl in H1 |- *. destruct (drop_permits _ _) as [sems [p|] lims]; simpl in *; [|done].
    by apply (acquire_overflow_accounted cap t q _ _ p 0) in H1; [|done..].
  - cbv beta iota. rewrite map_snd_combine; [exact H1|]. rewrite length_take. lia.
Qed.

(** ** Runs *)

(** Every permit that is out: held by a poll or by a task. *)
Definition outstanding {J} (r : Runtime J) : list DispatchPermit :=
  concat (map (fun p => fst (snd p)) (polls r)) ++ map snd (tasks r).

Lemma run_step_accounted {J} cap t (r r' : Runtime J) :
  run_step r r' -> accounted cap t (shared r) (outstanding r) -> accounted cap t (shared r') (outstanding r').
Proof.
  intros Hstep H. destruct Hstep as [r q batch now Hq _|r before q permits batch after outcome Hp
    |r before job permit after Ht|r q bucket rl Hb Hl]; unfold outstanding in *.
  - pose proof (begin_poll_accounted cap t q batch now _ _ Hq H) as Hb.
    destruct (begin_poll q batch now (shared r)) as [[[permits n]|] s']; simpl; [|exact Hb].
    by rewrite <- app_assoc.
  - rewrite Hp, map_app, concat_app in H. simpl in H.
    assert (accounted cap t (shared r) (permits ++ concat (map (fun p => fst (snd p)) (before ++ after))
      ++ map snd (tasks r))) as H'.
    { eapply accounted_perm; [|exact H]. rewrite map_app, concat_app, !app_assoc.
      do 2 apply Permutation_app_tail. apply Permutation_app_comm. }
    apply (finish_poll_accounted cap t q permits batch outcome) in H'.
    destruct (finish_poll q permits batch outcome (shared r)) as [[spawned more] s']. simpl.
    rewrite (map_app snd). eapply accounted_perm; [|exact H']. apply Permutation_app_swap_app.
  - rewrite Ht, map_app in H. simpl in H |- *. apply drop_permit_accounted.
    eapply accounted_perm; [|exact H]. rewrite map_app. rewrite app_assoc.
    rewrite <- Permutation_middle. by rewrite <- app_assoc.
  - by apply set_limiter_accounted.
Qed.

Lemma run_accounted {J} cap t (r r' : Runtime J) :
  rtc run_step r r' -> accounted cap t (shared r) (outstanding r) -> accounted cap t (shared r') (outstanding r').
Proof. induction 1; eauto using run_step_accounted. Qed.

(** * The token bucket *)

(** Between no tokens and the burst, a whole number of at least one. *)
Record bucket_ok (b : TokenBucket) : Prop := {
  bk_tokens : nonneg (tokens b);
  bk_max : nonneg (max_tokens b);
  bk_le : units (tokens b) <= units (max_tokens b);
  bk_burst : exists n, 1 <= n <= u32_max /\ units (max_tokens b) = n * one_units;
  bk_rate : unsigned (refill_rate b)
}.

Lemma as_u32_range (x : f64) : 0 <= as_u32 x <= u32_max.
Proof.
  assert (0 < u32_max) by done. destruct x as [|[]| |[] m e]; cbn [as_u32]; try lia.
  assert (0 <= (if 0 <=? e then Z.pos m * 2 ^ e else Z.pos m / 2 ^ (- e))); [|lia].
  case_match; [lia|]. apply Z.div_pos; [lia|]. apply Z.pow_pos_nonneg; lia.
Qed.

Lemma effective_burst_range (rl : RateLimit) : limit_ok rl -> 1 <= effective_burst rl <= u32_max.
Proof.
  intros [_ Hb]. unfold effective_burst. destruct (Z.eqb_spec (burst rl) 0); [|lia].
  pose proof (as_u32_range (f64_ceil (max_rate rl))). unfold u32_max in *. lia.
Qed.

(** A [u32] as an [f64] is exact. *)
Lemma as_f64_u32 (n : Z) :
  0 <= n <= u32_max -> nonneg (as_f64 n) /\ units (as_f64 n) = n * one_units.
Proof. intros Hn. apply as_f64_units. unfold u32_max in Hn. lia. Qed.

Lemma as_secs_f64_unsigned (nanos : Z) : 0 <= nanos -> unsigned (as_secs_f64 nanos).
Proof.
  intros Hn. unfold as_secs_f64.
  apply f64_add_unsigned; [apply rounded_unsigned, as_f64_unsigned, Z.div_pos; lia|].
  apply f64_div_unsigned; [apply rounded_unsigned, as_f64_unsigned, Z.mod_pos_bound; lia|done|].
  by vm_compute.
Qed.

Lemma bucket_new_ok rl now : limit_ok rl -> bucket_ok (bucket_new rl now).
Proof.
  intros Hl. pose proof (effective_burst_range rl Hl) as Hb.
  destruct (as_f64_u32 (effective_burst rl)) as [Hn Hu]; [lia|].
  split; simpl; try done; [eauto|apply Hl].
Qed.

(** [available] refills up to the burst and reports the whole tokens. *)
Lemma available_ok b now :
  bucket_ok b ->
  let '(n, b') := available b now in
  bucket_ok b' /\ max_tokens b' = max_tokens b /\ n = units (tokens b') / one_units
  /\ 0 <= n <= u32_max /\ n * one_units <= units (tokens b').
Proof.
  intros []. unfold available.
  set (t := f64_min _ _).
  destruct (f64_min_bound (f64_add (tokens b) (f64_mul (as_secs_f64 (sat_sub now (last_refill b))) (refill_rate b)))
    (max_tokens b)) as [Hn Hle]; [|done|].
  { apply f64_add_unsigned; [by apply nonneg_unsigned|].
    apply f64_mul_unsigned; [apply as_secs_f64_unsigned, sat_sub_nonneg|done]. }
  fold t in Hn, Hle. destruct (f64_floor_units t Hn) as [Hfn Hfu].
  pose proof one_units_pos as H1. pose proof (units_nonneg t) as H0.
  destruct bk_burst0 as (m & Hm & Hmu).
  assert (0 <= units t / one_units <= u32_max) as Hr.
  { split; [apply Z.div_pos; lia|]. apply Z.le_trans with m; [|lia].
    apply Z.div_le_upper_bound; [lia|]. rewrite Z.mul_comm. lia. }
  assert (as_u32 (f64_floor t) = units t / one_units) as ->.
  { rewrite as_u32_units, Hfu, Z.div_mul by (done || lia). lia. }
  repeat split; simpl; try done; [eauto|lia|lia|].
  pose proof (Z.mul_div_le (units t) one_units). lia.
Qed.

Lemma f64_sub_self (x : f64) : nonneg x -> units (f64_sub x x) = 0 /\ nonneg (f64_sub x x).
Proof.
  destruct x as [[]| | |s m e]; simpl; try done. intros [-> _]. unfold f64_sub, SpecFloat.SFsub.
  cbn [SpecFloat.cond_Zopp]. by rewrite Z.sub_diag.
Qed.

(** Below [2 ^ 53] the difference with a whole number is a number. *)
Lemma whole_difference (x : f64) (n : Z) :
  nonneg x -> units x <= u32_max * one_units -> 0 <= n -> n * one_units < units x ->
  exists z, nonneg z /\ units z = units x - n * one_units.
Proof.
  destruct x as [s| | |s m e]; simpl nonneg; try done.
  { intros _ _ Hn Hlt. cbn [units] in Hlt. pose proof one_units_pos. nia. }
  intros [-> Hb] Hle Hn Hlt. pose proof (bounded_spec _ _ Hb) as (He & _ & Hm & Hd).
  cbn [units] in *. assert (e < 0) as Hneg.
  { destruct (Z.lt_ge_cases e 0) as [|Hge]; [done|].
    assert (SpecFloat.Zdigits2 (Z.pos m) = 53) as H53 by lia. rewrite H53 in Hm.
    rewrite Z.pow_add_r, Z.mul_assoc in Hle by lia.
    apply Z.mul_le_mono_pos_r in Hle; [|apply one_units_pos].
    pose proof (Z.pow_pos_nonneg 2 e). unfold u32_max in Hle. nia. }
  assert (one_units = 2 ^ (- e) * 2 ^ (e + 1074)) as Hone.
  { unfold one_units. rewrite <- Z.pow_add_r by lia. f_equal. lia. }
  rewrite Hone, Z.mul_assoc in Hlt |- *.
  pose proof (Z.pow_pos_nonneg 2 (e + 1074)) as Hp.
  apply Z.mul_lt_mono_pos_r in Hlt; [|lia].
  destruct (representable (Z.pos m - n * 2 ^ (- e)) e) as (z & Hz & Hu); [lia| |lia|].
  - apply Z.le_trans with (SpecFloat.Zdigits2 (Z.pos m)); [|lia]. apply digits_mono.
    pose proof (Z.pow_pos_nonneg 2 (- e)). nia.
  - exists z. split; [done|]. rewrite Hu. lia.
Qed.

Lemma consume_exact b n :
  bucket_ok b -> 1 <= n <= u32_max -> n * one_units <= units (tokens b) ->
  nonneg (tokens (consume b n)) /\ units (tokens (consume b n)) = units (tokens b) - n * one_units.
Proof.
  intros [] Hn Hle. simpl. destruct (as_f64_u32 n) as [Hfn Hfu]; [lia|].
  pose proof one_units_pos as H1.
  destruct (Z.eq_dec (units (tokens b)) (n * one_units)) as [Heq|Hne].
  - rewrite (units_inj (tokens b) (as_f64 n)) by (done || nia).
    destruct (f64_sub_self (as_f64 n) Hfn) as [-> ?]. rewrite Hfu. split; [done|lia].
  - destruct bk_burst0 as (m & Hm & Hmu).
    destruct (whole_difference (tokens b) n) as (z & Hz & Hu); [done|nia|lia|lia|].
    rewrite (f64_sub_exact (tokens b) (as_f64 n) z) by (done || nia). done.
Qed.

Lemma consume_ok b n :
  bucket_ok b -> 1 <= n <= u32_max -> n * one_units <= units (tokens b) -> bucket_ok (consume b n).
Proof.
  intros Hb Hn Hle. destruct (consume_exact b n Hb Hn Hle) as [Hnn Hu]. destruct Hb.
  pose proof one_units_pos. split; try done. rewrite Hu. simpl. nia.
Qed.

Lemma refund_ok b n : bucket_ok b -> 0 <= n -> bucket_ok (refund b n).
Proof.
  intros [] Hn. destruct (f64_min_bound (f64_add (tokens b) (as_f64 n)) (max_tokens b)) as [? ?]; [|done|by split].
  apply f64_add_unsigned; [by apply nonneg_unsigned|]. by apply rounded_unsigned, as_f64_unsigned.
Qed.

Lemma reconfigure_ok b rl : bucket_ok b -> limit_ok rl -> bucket_ok (reconfigure b rl).
Proof.
  intros [] Hl. pose proof (effective_burst_range rl Hl) as Hb.
  destruct (as_f64_u32 (effective_burst rl)) as [Hn Hu]; [lia|].
  destruct (f64_min_bound (tokens b) (as_f64 (effective_burst rl))) as [? ?]; [by apply nonneg_unsigned|done|].
  split; simpl; try done; [eauto|apply Hl].
Qed.

(** What was consumed and is refunded leaves no trace. *)
Lemma refund_consume b n :
  bucket_ok b -> 1 <= n <= u32_max -> n * one_units <= units (tokens b) -> refund (consume b n) n = b.
Proof.
  intros Hb Hn Hle. destruct (consume_exact b n Hb Hn Hle) as [Hnn Hu]. destruct Hb.
  destruct (as_f64_u32 n) as [Hfn Hfu]; [lia|]. pose proof one_units_pos.
  unfold refund. cbn [max_tokens refill_rate last_refill] in *.
  rewrite (f64_add_exact (tokens (consume b n)) (as_f64 n) (tokens b)) by (done || nia).
  cbn [consume max_tokens refill_rate last_refill]. rewrite f64_min_id by done. by destruct b.
Qed.

(** * What a runtime starts with *)

(** The fields of a builder are [u32]s and [f64]s, and the guaranteed workers
    add up without wrapping. *)
Record builder_ok (b : ClientBuilder) : Prop := {
  bo_workers : Forall (fun qc => 0 <= max_workers (snd qc) /\ 0 <= min_workers (snd qc)) (queues b);
  bo_min : sum_by (fun qc => min_workers (snd qc)) (queues b) <= u32_max;
  bo_global : 0 <= default 0 (global_max_workers b) <= u32_max;
  bo_rates : Forall (fun qc => match rate_limit (snd qc) with
                               | Some rl => SpecFloat.valid_binary prec emax (max_rate rl) = true
                                            /\ 0 <= burst rl <= u32_max
                               | None => True
                               end) (queues b)
}.

Lemma guard_Ok ok e x : guard ok e = Ok x -> ok = true.
Proof. by destruct ok. Qed.

Lemma check_duplicates_NoDup seen qs :
  check_duplicates seen qs = Ok tt -> NoDup (map fst qs) /\ (forall q, q ∈ map fst qs -> q ∉ seen).
Proof.
  revert seen. induction qs as [|[q c] qs IH]; intros seen; simpl.
  { intros _. split; [constructor|]. intros q Hq. by apply not_elem_of_nil in Hq. }
  destruct (bool_decide_reflect (q ∈ seen)) as [|Hn]; [done|]. intros [Hnd Hs]%IH. split.
  - constructor; [|done]. intros Hq. apply (Hs q Hq). set_solver.
  - intros q' [->|Hq]%elem_of_cons; [done|]. apply Hs in Hq. set_solver.
Qed.

(** What [build] has checked when it succeeds. *)
Lemma build_Ok b pool :
  build b = Ok pool ->
  NoDup (map fst (queues b)) /\ check_configs (queues b) = Ok tt
  /\ match global_max_workers b with
     | None => pool = None
     | Some g =>
         exists w, let m := wrap_u32 (sum_by (fun qc => min_workers (snd qc)) (queues b)) in
         pool = Some (pool_new (g - m) w) /\ m <= g
     end.
Proof.
  unfold build. intros H.
  do 11 (apply rbind_Ok in H as ([] & ? & H)). apply rbind_Ok in H as (p & Hp & H).
  apply rbind_Ok in H as ([] & _ & [= <-]).
  split; [by eapply check_duplicates_NoDup|]. split; [done|]. unfold weighted_pool in Hp.
  destruct (global_max_workers b); [|by injection Hp]. case_match eqn:Hlt; [done|].
  apply Z.ltb_ge in Hlt. injection Hp as <-. eauto.
Qed.

Lemma check_configs_limits qs :
  check_configs qs = Ok tt ->
  Forall (fun qc => match rate_limit (snd qc) with
                    | Some rl => f64_le (max_rate rl) (as_f64 0) = false
                    | None => True
                    end) qs.
Proof.
  induction qs as [|[q c] qs IH]; simpl; [constructor|].
  intros ([] & Hc & H)%rbind_Ok. constructor; [|by apply IH]. simpl.
  unfold check_config in Hc. apply rbind_Ok in Hc as ([] & Hc & _).
  destruct (rate_limit c); [|done]. by apply guard_Ok, negb_true_iff in Hc.
Qed.

(** A rate that is not [<= 0.0] is positive or NaN. *)
Lemma rate_unsigned (x : f64) :
  SpecFloat.valid_binary prec emax x = true -> f64_le x (as_f64 0) = false -> unsigned x.
Proof. by destruct x as [|[]| |[] m e]. Qed.

Lemma sum_values_list_to_map (l : list (string * Z)) :
  NoDup (map fst l) -> sum_values (list_to_map l) = sum_by snd l.
Proof.
  induction l as [|[q v] l IH]; simpl; [done|]. intros [Hq Hnd]%NoDup_cons.
  rewrite sum_values_insert_new, IH; [done|done|]. by apply not_elem_of_list_to_map_1.
Qed.

Definition capacity (b : ClientBuilder) (pool : option OverflowPool) : gmap string Z :=
  semaphores (start b pool 0).

Lemma sum_by_map {A B} (f : B -> Z) (g : A -> B) (l : list A) : sum_by f (map g l) = sum_by (fun x => f (g x)) l.
Proof. induction l as [|x l IH]; simpl; [done|]. by rewrite IH. Qed.

Lemma capacity_sum b pool :
  NoDup (map fst (queues b)) ->
  sum_values (capacity b pool) = sum_by (fun qc => reserved pool (snd qc)) (queues b).
Proof.
  intros Hnd. unfold capacity, start. cbn [semaphores].
  rewrite sum_values_list_to_map; [by rewrite sum_by_map|]. rewrite map_map. exact Hnd.
Qed.

Lemma capacity_lookup b pool q c :
  NoDup (map fst (queues b)) -> (q, c) ∈ queues b -> capacity b pool !! q = Some (reserved pool c).
Proof.
  intros Hnd Hq. unfold capacity, start. cbn [semaphores].
  apply elem_of_list_to_map_1; [rewrite <- list_fmap_compose; exact Hnd|].
  apply list_elem_of_fmap. by exists (q, c).
Qed.

Lemma started_accounted {J} b pool now :
  builder_ok b -> build b = Ok pool ->
  accounted (capacity b pool) (total <$> pool) (shared (@started J b pool now)) (outstanding (@started J b pool now)).
Proof.
  intros Hb (Hnd & _ & Hpool)%build_Ok. unfold started, outstanding. cbn [shared polls tasks map concat app].
  assert (match pool with Some p => 0 <= total p <= u32_max /\ held p = ∅ | None => True end) as Hp.
  { destruct Hb, (global_max_workers b) as [g|]; simpl in *; [|by subst].
    destruct Hpool as (w & -> & Hle). simpl. split; [|done].
    pose proof (Z.mod_pos_bound (sum_by (fun qc => min_workers (snd qc)) (queues b)) (2 ^ 32)).
    unfold wrap_u32 in *. lia. }
  assert (held (pool_of (start b pool now)) = ∅) as Hh.
  { unfold pool_of. simpl. destruct pool as [p|]; simpl; [apply Hp|done]. }
  split; rewrite ?Hh; unfold count; simpl; try done.
  - intros q f Hf. apply elem_of_list_to_map_2, list_elem_of_fmap in Hf as ([q' c] & [= -> ->] & Hin).
    pose proof (bo_workers b Hb) as Hw. rewrite Forall_forall in Hw. specialize (Hw _ Hin). simpl in Hw.
    unfold reserved. destruct pool; lia.
  - intros q. unfold capacity, start. simpl. lia.
  - unfold capacity, start. simpl. lia.
  - destruct pool as [p|]; simpl; [apply Hp|done].
  - destruct pool as [p|]; simpl; [apply Hp|done].
Qed.

(** ** Buckets along a run *)

Definition limiters_ok (s : Shared) : Prop := forall q b, limiters s !! q = Some b -> bucket_ok b.

Lemma start_limiters_ok b pool now : builder_ok b -> build b = Ok pool -> limiters_ok (start b pool now).
Proof.
  intros Hb (_ & Hc%check_configs_limits & _)%build_Ok q bucket Hq. unfold start in Hq. cbn [limiters] in Hq.
  apply elem_of_list_to_map_2, list_elem_of_omap in Hq as ([q' c] & Hin & Hq).
  pose proof (bo_rates b Hb) as Hr. rewrite Forall_forall in Hr, Hc.
  specialize (Hr _ Hin). specialize (Hc _ Hin). simpl in *. unfold shared_rate_limiter in Hq.
  destruct (rate_limit c) as [rl|]; simpl in *; [|done]. injection Hq as -> <-.
  apply bucket_new_ok. split; [apply rate_unsigned; [apply Hr|done]|apply Hr].
Qed.

Lemma drop_permits_limiters s ps : limiters (drop_permits s ps) = limiters s.
Proof.
  revert s. induction ps as [|p ps IH]; intros s; [done|]. simpl. rewrite IH. by destruct p.
Qed.

Lemma acquire_permits_limiters q batch s : limiters (snd (acquire_permits q batch s)) = limiters s.
Proof.
  unfold acquire_permits. destruct (take_permits _ _). destruct (overflow_pool s); [|done].
  by destruct (try_acquire _ _ _).
Qed.

(** The bucket of a queue after a poll began. *)
Lemma begin_poll_bucket q batch now s b :
  0 <= batch -> limiters s !! q = Some b -> bucket_ok b ->
  let '(begun, s') := begin_poll q batch now s in
  let b1 := snd (available b now) in
  bucket_ok b1 /\ exists b', limiters s' !! q = Some b'
  /\ match begun with
     | Some (permits, n) =>
         1 <= n <= u32_max /\ n * one_units <= units (tokens b1) /\ b' = consume b1 n
     | None => b' = b \/ b' = b1
     end.
Proof.
  intros Hbatch Hq Hb. unfold begin_poll.
  pose proof (acquire_permits_limiters q batch s) as Hl.
  destruct (acquire_permits q batch s) as [permits s1]. simpl in Hl.
  pose proof (available_ok b now Hb) as Ha.
  destruct permits as [|p permits]; cbn [length Nat.eqb];
    [destruct (available b now); split; [apply Ha|]; rewrite Hl; eauto|].
  rewrite Hl, Hq. destruct (available b now) as [n b1]. destruct Ha as (Hb1 & _ & _ & Hn & Hle).
  set (k := Z.min (Z.min (Z.of_nat (S (length permits))) n) batch).
  pose proof one_units_pos as H1.
  destruct (Z.eqb_spec k 0) as [Hk|Hk]; rewrite drop_permits_limiters; cbn [set_limiter limiters snd];
    rewrite lookup_insert_eq; (split; [done|]); (eexists; split; [done|]).
  - rewrite Hk. by right.
  - assert (1 <= k <= n) as Hkr by (unfold k in *; lia). clearbody k. rewrite (proj2 (Z.ltb_lt 0 k)) by lia.
    assert (wrap_u32 k = k) as -> by (apply Z.mod_small; unfold u32_max in *; lia).
    split; [lia|]. split; [nia|done].
Qed.

Lemma refund_rate_limit_ok q n s : 0 <= n -> limiters_ok s -> limiters_ok (refund_rate_limit q n s).
Proof.
  intros Hn Hs q' b. unfold refund_rate_limit. destruct (n =? 0); [apply Hs|].
  destruct (limiters s !! q) as [b0|] eqn:Hq; [|apply Hs]. simpl.
  intros [[<- <-]|[? ?]]%lookup_insert_Some; [|by eapply Hs].
  apply refund_ok; [by eapply Hs|]. apply Z.mod_pos_bound. lia.
Qed.

Lemma begin_poll_limiters_ne q q' batch now s :
  q <> q' -> limiters (snd (begin_poll q batch now s)) !! q' = limiters s !! q'.
Proof.
  intros Hne. unfold begin_poll. pose proof (acquire_permits_limiters q batch s) as Hl.
  destruct (acquire_permits q batch s) as [permits s1]. simpl in Hl. rewrite <- Hl.
  destruct (Nat.eqb _ _); [done|]. destruct (limiters s1 !! q) as [b|]; [destruct (available b now)|];
    case_match; simpl; rewrite drop_permits_limiters; simpl; by rewrite ?lookup_insert_ne.
Qed.

Lemma begin_poll_limiters_none q batch now s :
  limiters s !! q = None -> limiters (snd (begin_poll q batch now s)) = limiters s.
Proof.
  intros Hn. unfold begin_poll. pose proof (acquire_permits_limiters q batch s) as Hl.
  destruct (acquire_permits q batch s) as [permits s1]. simpl in Hl. rewrite Hl, Hn.
  destruct (Nat.eqb _ _); [done|]. case_match; simpl; by rewrite drop_permits_limiters.
Qed.

Lemma begin_poll_limiters_ok q batch now s :
  0 <= batch -> limiters_ok s -> limiters_ok (snd (begin_poll q batch now s)).
Proof.
  intros Hbatch Hs q' b Hb. destruct (decide (q = q')) as [<-|Hne].
  - destruct (limiters s !! q) as [b0|] eqn:Hq; [|rewrite begin_poll_limiters_none in Hb by done; by eapply Hs].
    pose proof (begin_poll_bucket q batch now s b0 Hbatch Hq (Hs _ _ Hq)) as H.
    destruct (begin_poll q batch now s) as [begun s']. destruct H as (Hb1 & b' & Hb' & H).
    simpl in Hb. rewrite Hb' in Hb. injection Hb as <-. destruct begun as [[permits n]|].
    + destruct H as (Hn & Hle & ->). by apply consume_ok.
    + destruct H as [-> | ->]; [by eapply Hs|done].
  - rewrite begin_poll_limiters_ne in Hb by done. by eapply Hs.
Qed.

Lemma finish_poll_limiters_ok {J} q permits n (outcome : ClaimOutcome J) s :
  0 <= n -> limiters_ok s -> limiters_ok (snd (finish_poll q permits n outcome s)).
Proof.
  intros Hn Hs.
  assert (limiters_ok (refund_rate_limit q n s)) as Hr by by apply refund_rate_limit_ok.
  destruct outcome as [| |jobs]; simpl; try (intros q' b; rewrite drop_permits_limiters; apply Hr).
  set (s1 := if _ <? _ then _ else s).
  assert (limiters_ok s1) as H1.
  { unfold s1. destruct (Z.ltb_spec (Z.of_nat (length jobs)) n); [apply refund_rate_limit_ok; [lia|]|]; done. }
  destruct jobs; intros q' b; simpl; rewrite drop_permits_limiters; apply H1.
Qed.

(** A poll holds one permit for each job it asks for. *)
Lemma begin_poll_size q batch now s permits n :
  0 <= batch -> limiters_ok s ->
  fst (begin_poll q batch now s) = Some (permits, n) -> Z.of_nat (length permits) = n /\ 0 < n.
Proof.
  intros Hbatch Hs. unfold begin_poll. pose proof (acquire_permits_limiters q batch s) as Hl.
  destruct (acquire_permits q batch s) as [[|p ps] s1]; [done|]. simpl in Hl. cbn [length Nat.eqb].
  set (limited := match limiters s1 !! q with Some _ => _ | None => _ end).
  assert (0 <= fst limited <= Z.of_nat (length (p :: ps))) as Hk.
  { unfold limited. destruct (limiters s1 !! q) as [b|] eqn:Hb; [|simpl; lia].
    rewrite Hl in Hb. pose proof (available_ok b now (Hs _ _ Hb)) as Ha. destruct (available b now); simpl. lia. }
  destruct limited as [k s2]. simpl in Hk. destruct (Z.eqb_spec k 0); [done|].
  intros [= <- <-]. rewrite length_take. simpl. lia.
Qed.

Record run_ok {J} (r : Runtime J) : Prop := {
  ro_limiters : limiters_ok (shared r);
  ro_polls : Forall (fun p => Z.of_nat (length (fst (snd p))) = snd (snd p) /\ 0 < snd (snd p)) (polls r)
}.

Lemma run_step_ok {J} (r r' : Runtime J) : run_step r r' -> run_ok r -> run_ok r'.
Proof.
  intros Hstep [Hl Hp]. destruct Hstep as [r q batch now Hq Hbatch|r before q permits batch after outcome Hpolls
    |r before job permit after Ht|r q bucket rl Hb Hlim].
  - pose proof (begin_poll_limiters_ok q batch now _ Hbatch Hl) as H.
    pose proof (begin_poll_size q batch now (shared r)) as Hsize.
    destruct (begin_poll q batch now (shared r)) as [[[permits n]|] s']; split; simpl in *; try done.
    constructor; [|done]. simpl. by apply Hsize.
  - rewrite Hpolls in Hp. apply Forall_app in Hp as [Hb (Hn & Ha)%Forall_cons]. simpl in Hn.
    pose proof (finish_poll_limiters_ok q permits batch outcome (shared r) ltac:(lia) Hl) as H.
    destruct (finish_poll q permits batch outcome (shared r)) as [[spawned more] s'].
    split; [exact H|]. by apply Forall_app.
  - split; [|done]. intros q b. simpl. by destruct permit; apply Hl.
  - split; [|done]. intros q' b. simpl. intros [[<- <-]|[? ?]]%lookup_insert_Some; [|by eapply Hl].
    apply reconfigure_ok; [by eapply Hl|done].
Qed.

Lemma run_runs_ok {J} (r r' : Runtime J) : rtc run_step r r' -> run_ok r -> run_ok r'.
Proof. induction 1; eauto using run_step_ok. Qed.

Lemma started_ok {J} b pool now : builder_ok b -> build b = Ok pool -> run_ok (@started J b pool now).
Proof. intros Hb Hpool. split; [by apply start_limiters_ok|constructor]. Qed.

(** * Guarantees *)

Lemma count_of_queue q ps : count (of_queue q) ps = count (reserved_of q) ps + count (overflow_of q) ps.
Proof.
  induction ps as [|p ps IH]; [done|]. rewrite !count_cons, IH. unfold reserved_of, overflow_of.
  destruct (is_overflow p), (of_queue q p); simpl; lia.
Qed.

Lemma count_length ps : Z.of_nat (length ps) = count (fun p => negb (is_overflow p)) ps + count is_overflow ps.
Proof. induction ps as [|p ps IH]; [done|]. rewrite !count_cons. simpl length. destruct (is_overflow p); simpl; lia. Qed.

Lemma count_overflow_le q ps : count (overflow_of q) ps <= count is_overflow ps.
Proof. apply sum_by_le. intros p. unfold overflow_of. by destruct (is_overflow p), (of_queue q p). Qed.

(** Permits of tasks are among those that are out. *)
Lemma tasks_outstanding {J} f (r : Runtime J) : count f (map snd (tasks r)) <= count f (outstanding r).
Proof. unfold outstanding. rewrite count_app. pose proof (count_nonneg f (concat (map (fun p => fst (snd p)) (polls r)))). lia. Qed.

Definition tasks_of {J} (q : string) (r : Runtime J) : Z := count (of_queue q) (map snd (tasks r)).

Lemma accounted_free_nonneg cap t s ps q : accounted cap t s ps -> 0 <= get_or 0 (semaphores s) q.
Proof.
  intros []. unfold get_or. destruct (semaphores s !! q) eqn:Hq; simpl; [by eapply acc_free0|lia].
Qed.

Lemma accounted_queue_bound cap t s ps q :
  accounted cap t s ps -> count (of_queue q) ps <= get_or 0 cap q + default 0 t.
Proof.
  intros H. pose proof (accounted_free_nonneg _ _ _ _ q H). destruct H.
  rewrite count_of_queue. pose proof (count_overflow_le q ps). specialize (acc_queue0 q). lia.
Qed.

Lemma accounted_total_bound cap t s ps :
  accounted cap t s ps -> Z.of_nat (length ps) <= sum_values cap + default 0 t.
Proof.
  intros []. rewrite count_length. pose proof (sum_values_nonneg (semaphores s) acc_free0). lia.
Qed.

(** A free reserved permit is always handed out. *)
Lemma free_permit_acquired q batch s :
  0 < batch -> 0 < get_or 0 (semaphores s) q -> fst (acquire_permits q batch s) <> [].
Proof.
  intros Hb Hf. unfold acquire_permits.
  destruct (Z.to_nat batch) as [|n] eqn:Hn; [lia|]. simpl. rewrite (proj2 (Z.ltb_lt _ _) Hf).
  destruct (take_permits _ _) as [k free]. destruct (overflow_pool s); [|done]. by destruct (try_acquire _ _ _).
Qed.

(** C36. Capacity holds for every interleaving of polls, claims, task ends and
    retuned limits of a runtime [build] accepted: a queue runs at most its
    [max_workers] tasks (in weighted mode its guaranteed workers plus the
    overflow pool), all queues of a weighted runtime together at most
    [global_max_workers]; a queue with fewer than its reserved permits out gets
    one on its next poll; and when nothing is running every permit is back. *)
Theorem dispatch_within_capacity {J} b pool now (r : Runtime J) :
  builder_ok b -> build b = Ok pool -> rtc run_step (started b pool now) r ->
  (forall q c, (q, c) ∈ queues b ->
     tasks_of q r <= match pool with None => max_workers c | Some p => min_workers c + total p end
     /\ (count (reserved_of q) (outstanding r) < reserved pool c ->
         forall batch, 0 < batch -> fst (acquire_permits q batch (shared r)) <> [])
     /\ (outstanding r = [] -> get_or 0 (semaphores (shared r)) q = reserved pool c
                              /\ pool_held (pool_of (shared r)) q = 0))
  /\ (forall g, global_max_workers b = Some g -> Z.of_nat (length (tasks r)) <= g).
Proof.
  intros Hb Hpool Hrun. pose proof (run_accounted _ _ _ _ Hrun (started_accounted b pool now Hb Hpool)) as H.
  destruct (build_Ok _ _ Hpool) as (Hnd & _ & Hg). split.
  - intros q c Hq. pose proof (capacity_lookup b pool q c Hnd Hq) as Hcap.
    assert (get_or 0 (capacity b pool) q = reserved pool c) as Hc by (unfold get_or; by rewrite Hcap).
    pose proof (acc_queue _ _ _ _ H q) as Hsem. rewrite Hc in Hsem.
    split_and!; [| |intros Hout; split].
    + pose proof (accounted_queue_bound _ _ _ _ q H) as Hle. pose proof (tasks_outstanding (of_queue q) r).
      rewrite Hc in Hle. unfold tasks_of. destruct pool as [p|]; simpl in *; lia.
    + intros Hlt batch Hbatch. apply free_permit_acquired; [done|lia].
    + rewrite Hout in Hsem. unfold count in Hsem. simpl in Hsem. lia.
    + pose proof (acc_held _ _ _ _ H q) as Hh. by rewrite Hout in Hh.
  - intros g Hgm. pose proof (accounted_total_bound _ _ _ _ H) as Hle.
    assert (Z.of_nat (length (tasks r)) <= Z.of_nat (length (outstanding r))).
    { unfold outstanding. rewrite length_app, length_map. lia. }
    rewrite Hgm in Hg. destruct Hg as (w & -> & Hmin). rewrite (capacity_sum _ _ Hnd) in Hle. simpl in Hle.
    assert (wrap_u32 (sum_by (fun qc => min_workers (snd qc)) (queues b))
            = sum_by (fun qc => min_workers (snd qc)) (queues b)) as Hw.
    { apply Z.mod_small. split; [|pose proof (bo_min b Hb); unfold u32_max in *; lia].
      apply sum_by_Forall. eapply Forall_impl; [apply (bo_workers b Hb)|]. simpl. lia. }
    lia.
Qed.

(** ** A poll settles *)

Lemma consume_refund_units b n k :
  bucket_ok b -> 0 <= k < n -> n <= u32_max -> n * one_units <= units (tokens b) ->
  units (tokens (refund (consume b n) (n - k))) = units (tokens b) - k * one_units.
Proof.
  intros Hb Hk Hn Hle. destruct (consume_exact b n Hb ltac:(lia) Hle) as [Hnn Hu].
  destruct (as_f64_u32 (n - k)) as [Hfn Hfu]; [lia|]. pose proof one_units_pos as H1. destruct Hb.
  destruct bk_burst0 as (m & Hm & Hmu).
  destruct (whole_difference (tokens b) k) as (z & Hz & Hzu); [done|nia|lia|nia|].
  unfold refund. cbn [tokens].
  rewrite (f64_add_exact (tokens (consume b n)) (as_f64 (n - k)) z) by (done || nia).
  cbn [consume max_tokens]. rewrite f64_min_id by (done || nia). done.
Qed.

(** The bucket after the second half of a poll that dispatched [k] of [n] jobs. *)
Lemma refund_rate_limit_bucket q n k s b :
  bucket_ok b -> 1 <= n <= u32_max -> 0 <= k <= n -> n * one_units <= units (tokens b) ->
  limiters s !! q = Some (consume b n) ->
  exists b', limiters (refund_rate_limit q (n - k) s) !! q = Some b'
    /\ units (tokens b') = units (tokens b) - k * one_units /\ (k = 0 -> b' = b).
Proof.
  intros Hb Hn Hk Hle Hq. unfold refund_rate_limit. destruct (Z.eqb_spec (n - k) 0) as [Hz|Hz].
  - exists (consume b n). split; [done|]. destruct (consume_exact b n Hb Hn Hle) as [_ ->].
    split; [|lia]. f_equal. f_equal. lia.
  - rewrite Hq. assert (wrap_u32 (n - k) = n - k) as ->
      by (apply Z.mod_small; unfold u32_max in *; lia).
    eexists. simpl. rewrite lookup_insert_eq. split; [done|]. split.
    + apply consume_refund_units; (done || lia).
    + intros ->. rewrite Z.sub_0_r. by apply refund_consume.
Qed.

Lemma refund_zero q s : refund_rate_limit q 0 s = s.
Proof. done. Qed.

Lemma finish_poll_limiters {J} q permits n (outcome : ClaimOutcome J) s :
  Z.of_nat (length (claimed_jobs outcome)) <= n ->
  limiters (snd (finish_poll q permits n outcome s))
  = limiters (refund_rate_limit q (n - Z.of_nat (length (claimed_jobs outcome))) s).
Proof.
  intros Hn. destruct outcome as [| |jobs]; simpl in *; [by rewrite drop_permits_limiters, Z.sub_0_r..|].
  assert (limiters (if Z.of_nat (length jobs) <? n then refund_rate_limit q (n - Z.of_nat (length jobs)) s else s)
          = limiters (refund_rate_limit q (n - Z.of_nat (length jobs)) s)) as Hl.
  { destruct (Z.ltb_spec (Z.of_nat (length jobs)) n); [done|].
    replace (n - Z.of_nat (length jobs)) with 0 by lia. by rewrite refund_zero. }
  destruct jobs as [|j jobs]; cbn [snd limiters]; by rewrite drop_permits_limiters.
Qed.

Lemma map_fst_combine {A B} (l : list A) (k : list B) : length l = length k -> map fst (combine l k) = l.
Proof. revert k. induction l as [|x l IH]; intros [|y k] Hl; simpl in *; try done. by rewrite IH by lia. Qed.

Lemma finish_poll_jobs {J} q permits n (outcome : ClaimOutcome J) s :
  Z.of_nat (length permits) = n -> Z.of_nat (length (claimed_jobs outcome)) <= n ->
  map fst (fst (fst (finish_poll q permits n outcome s))) = claimed_jobs outcome
  /\ snd (fst (finish_poll q permits n outcome s)) = negb (Nat.eqb (length (claimed_jobs outcome)) 0).
Proof.
  intros Hl Hn. destruct outcome as [| |[|j jobs]]; try done. split; [|done].
  cbn [finish_poll fst claimed_jobs] in *. apply map_fst_combine. rewrite length_take. lia.
Qed.

Lemma acquired_of_queue q batch s : Forall (fun p => of_queue q p = true) (fst (acquire_permits q batch s)).
Proof.
  assert (forall k p, permit_queue p = q -> Forall (fun p => of_queue q p = true) (replicate k p)) as Hr.
  { intros k p Hp. apply Forall_replicate. by apply bool_decide_eq_true_2. }
  unfold acquire_permits. destruct (take_permits _ _). destruct (overflow_pool s); [|by apply Hr].
  destruct (try_acquire _ _ _). apply Forall_app; split; by apply Hr.
Qed.

Lemma begin_poll_of_queue q batch now s permits n :
  fst (begin_poll q batch now s) = Some (permits, n) -> Forall (fun p => of_queue q p = true) permits.
Proof.
  unfold begin_poll. pose proof (acquired_of_queue q batch s) as Ha.
  destruct (acquire_permits q batch s) as [ps s1]. simpl in Ha. destruct (Nat.eqb _ _); [done|].
  set (limited := match limiters s1 !! q with Some _ => _ | None => _ end). destruct limited as [k s2].
  destruct (k =? 0); [done|]. intros [= <- <-]. by apply Forall_take.
Qed.

Lemma finish_poll_of_queue {J} q permits n (outcome : ClaimOutcome J) s :
  Forall (fun p => of_queue q p = true) permits ->
  Forall (fun p => of_queue q p = true) (map snd (fst (fst (finish_poll q permits n outcome s)))).
Proof.
  intros Hp. destruct outcome as [| |[|j jobs]]; try (by constructor). cbn [finish_poll fst].
  rewrite map_snd_combine by (rewrite length_take; lia). by apply Forall_take.
Qed.

(** What a poll leaves of its queue's bucket. *)
Definition bucket_spent (b b' : TokenBucket) (now spent : Z) : Prop :=
  b' = b /\ spent = 0
  \/ let b1 := snd (available b now) in
     units (tokens b') = units (tokens b1) - spent * one_units /\ (spent = 0 -> b' = b1).

Lemma poll_once_bucket {J} q batch now (claim : Z -> ClaimOutcome J) s b :
  0 <= batch -> limiters_ok s -> (forall n, Z.of_nat (length (claimed_jobs (claim n))) <= Z.max 0 n) ->
  limiters s !! q = Some b ->
  let '(spawned, _, s') := poll_once q batch now claim s in
  exists b', limiters s' !! q = Some b' /\ bucket_spent b b' now (Z.of_nat (length spawned)).
Proof.
  intros Hbatch Hs Hclaim Hq. pose proof (begin_poll_bucket q batch now s b Hbatch Hq (Hs _ _ Hq)) as Hb.
  pose proof (begin_poll_size q batch now s) as Hsize. unfold poll_once, bucket_spent.
  destruct (begin_poll q batch now s) as [[[permits n]|] s1]; destruct Hb as (Hb1 & b' & Hb' & H).
  - destruct (Hsize permits n Hbatch Hs eq_refl) as [Hlen Hn]. destruct H as (Hr & Hle & ->).
    specialize (Hclaim n). rewrite Z.max_r in Hclaim by lia.
    destruct (finish_poll_jobs q permits n (claim n) s1 Hlen Hclaim) as [Hjobs _].
    pose proof (finish_poll_limiters q permits n (claim n) s1 Hclaim) as Hlim.
    destruct (finish_poll q permits n (claim n) s1) as [[spawned more] s']. simpl in Hjobs, Hlim.
    assert (length spawned = length (claimed_jobs (claim n))) as Hk by (rewrite <- Hjobs; by rewrite length_map).
    destruct (refund_rate_limit_bucket q n (Z.of_nat (length spawned)) s1 (snd (available b now)))
      as (b2 & Hb2 & Hu); [done|lia|lia|done|done|].
    exists b2. rewrite Hlim, <- Hk. split; [done|]. right. exact Hu.
  - exists b'. split; [done|]. destruct H as [-> | ->]; [by left|right]. simpl. split; [lia|done].
Qed.


(** * The overflow pool of a single contender *)

Lemma sum_values_lone m q : (forall q', q' <> q -> get_or 0 m q' = 0) -> sum_values m = get_or 0 m q.
Proof.
  intros Hm. assert (sum_values (delete q m) = 0) as H0.
  { assert (forall q', get_or 0 (delete q m) q' = 0) as Hd.
    { intros q'. unfold get_or. destruct (decide (q = q')) as [<-|]; [by rewrite lookup_delete_eq|].
      rewrite lookup_delete_ne by done. by apply Hm. }
    clear Hm. revert Hd. generalize (delete q m). clear m. intros m.
    induction m as [|q' v m Hq IH] using map_ind; intros Hd; [done|].
    rewrite sum_values_insert_new, IH by done || (intros q''; specialize (Hd q'');
      destruct (decide (q' = q'')) as [<-|]; [unfold get_or; by rewrite Hq|by rewrite get_or_insert_ne in Hd]).
    specialize (Hd q'). rewrite get_or_insert in Hd. lia. }
  destruct (m !! q) as [v|] eqn:Hq; unfold get_or; rewrite Hq; simpl.
  - rewrite <- (insert_delete_id m q v Hq), sum_values_insert_new by apply lookup_delete_eq. lia.
  - by rewrite delete_id in H0.
Qed.

(** The weight of the contenders is that of the only one. *)
Lemma contending_weight_lone p q w :
  weights p !! q = Some w -> 0 <= w <= u32_max -> contending p q = true ->
  (forall q', q' <> q -> contending p q' = false) -> contending_weight p = w.
Proof.
  intros Hq Hw Hc Hn. unfold contending_weight.
  rewrite <- (insert_delete_id (weights p) q w Hq), map_fold_insert_L;
    [|intros; repeat case_match; lia|apply lookup_delete_eq].
  rewrite Hc. assert (map_fold (fun q w acc => if contending p q then w + acc else acc) 0 (delete q (weights p)) = 0) as ->.
  { assert (delete q (weights p) !! q = None) as Hd by apply lookup_delete_eq. revert Hd.
    generalize (delete q (weights p)). intros m.
    induction m as [|q' v m Hq' IH] using map_ind; intros Hd; [done|].
    apply lookup_insert_None in Hd as [Hd Hne]. rewrite map_fold_insert_L, Hn, IH; try done.
    intros; repeat case_match; lia. }
  rewrite Z.add_0_r. apply Z.mod_small. unfold u32_max in Hw. lia.
Qed.

Lemma fair_share_lone p w :
  0 < total p <= u32_max -> 0 < w <= u32_max -> fair_share p w w = total p.
Proof.
  intros Ht Hw. unfold fair_share. pose proof one_units_pos.
  destruct (as_f64_u32 w) as [Hwn Hwu]; [lia|]. destruct (as_f64_u32 (total p)) as [Htn Htu]; [lia|].
  rewrite f64_div_self, f64_mul_one by (done || nia).
  rewrite f64_ceil_whole by (unfold u32_max in *; lia).
  rewrite as_u32_units, Htu, Z.div_mul by (done || lia). lia.
Qed.

Lemma try_acquire_lone p q w wanted :
  0 <= wanted -> 0 <= get_or 0 (held p) q <= total p -> total p <= u32_max ->
  weights p !! q = Some w -> 0 < w <= u32_max ->
  (forall q', q' <> q -> get_or 0 (demand p) q' = 0 /\ pool_held p q' = 0) ->
  fst (try_acquire p q wanted) = Z.min wanted (total p - pool_held p q).
Proof.
  intros Hw Hheld Ht Hwq Hwr Halone. unfold pool_held in *. unfold try_acquire. cbn [total held demand weights].
  assert (sum_values (held p) = get_or 0 (held p) q) as -> by (apply sum_values_lone; apply Halone).
  assert (wrap_u32 (get_or 0 (held p) q) = get_or 0 (held p) q) as ->
    by (apply Z.mod_small; unfold u32_max in *; lia).
  set (p1 := mkPool (total p) (held p) (<[q := wanted]> (demand p)) (weights p)) in *.
  destruct (Z.eqb_spec wanted 0) as [|Hne]; [simpl; lia|]. unfold sat_sub.
  destruct (Z.eqb_spec (Z.max 0 (total p - get_or 0 (held p) q)) 0); [simpl; lia|].
  assert (contending_weight p1 = w) as ->.
  { apply (contending_weight_lone p1 q); [done|lia| |].
    - unfold contending, p1. cbn [demand held]. rewrite get_or_insert.
      apply orb_true_iff. left. apply Z.ltb_lt. lia.
    - intros q' Hq'. unfold contending, p1. cbn [demand held]. rewrite get_or_insert_ne by congruence.
      by destruct (Halone q' Hq') as [-> ->]. }
  assert (get_or 1 (weights p) q = w) as -> by (unfold get_or; by rewrite Hwq).
  rewrite (fair_share_lone p1 w) by (cbn; lia). cbn [p1 total].
  destruct (Z.eqb_spec w 0); [lia|]. case_match; simpl; lia.
Qed.

(** The overflow pool: a grant is at most what was asked and what is free,
    and it is added to the queue's holding and to no other's; with every permit
    accounted for, the pool's [u32] sums do not wrap; and a queue that contends
    alone is granted everything it asks for as far as the pool reaches, whatever
    its weight. *)
Theorem overflow_pool_spec p q wanted :
  0 <= wanted -> 0 <= get_or 0 (held p) q -> 0 <= sum_values (held p) <= total p -> total p <= u32_max ->
  let '(granted, p') := try_acquire p q wanted in
  0 <= granted <= wanted /\ sum_values (held p') = sum_values (held p) + granted
  /\ sum_values (held p') <= total p
  /\ (forall q', pool_held p' q' = pool_held p q' + (if decide (q = q') then granted else 0))
  /\ (forall w, weights p !! q = Some w -> 0 < w <= u32_max ->
      (forall q', q' <> q -> get_or 0 (demand p) q' = 0 /\ pool_held p q' = 0) ->
      granted = Z.min wanted (total p - pool_held p q)).
Proof.
  intros Hw Hpos Hs Ht. pose proof (try_acquire_spec p q wanted Hw Hs Ht) as H.
  pose proof (fun w => try_acquire_lone p q w wanted Hw) as Hlone.
  destruct (try_acquire p q wanted) as [granted p']. destruct H as (Hg & Hle & _ & _ & _ & Hh).
  assert (sum_values (held p') = sum_values (held p) + granted) as Hsum.
  { destruct Hh as [[-> ->]| ->]; [lia|]. rewrite sum_values_insert. lia. }
  split; [done|]. split; [done|]. split; [lia|]. split.
  - intros q'. unfold pool_held. destruct Hh as [[-> ->]| ->]; destruct (decide (q = q')) as [<-|]; try lia.
    + by rewrite get_or_insert.
    + rewrite get_or_insert_ne by done. lia.
  - intros w Hwq Hwr Halone. apply (Hlone w); try done. split; [done|].
    rewrite <- (sum_values_lone (held p) q); [lia|]. apply Halone.
Qed.

(** * Overrides leave no trace *)

(** The bucket a base limit and overrides call for. *)
Definition tuned (limiter : option TokenBucket) (d : Dispatcher) : Prop :=
  match limiter, base_rate_limit d with
  | Some b, Some base =>
      refill_rate b = max_rate (effective_limit base (applied_overrides d))
      /\ max_tokens b = as_f64 (effective_burst (effective_limit base (applied_overrides d)))
  | _, _ => True
  end.

Record settled (c : QueueConfig) (d : Dispatcher) (limiter : option TokenBucket) : Prop := {
  se_base : base_poll_interval d = poll_interval c /\ base_claim_batch_size d = claim_batch_size c
            /\ base_deadline_duration d = deadline_duration c /\ base_rate_limit d = rate_limit c;
  se_config : config d = overridden_config (with_concurrency c) (applied_overrides d);
  se_tuned : tuned limiter d
}.

Lemma with_concurrency_settled c now : settled c (with_concurrency c) (shared_rate_limiter c now).
Proof.
  split; [done|by destruct c|]. unfold tuned, shared_rate_limiter. simpl.
  by destruct (rate_limit c) as [[rate [|n|n]]|].
Qed.

Lemma refresh_settled {E} c interval now (answer : result E (option QueueRuntimeOverrides)) d limiter :
  settled c d limiter ->
  let '(d', limiter') := refresh_runtime_overrides interval now answer d limiter in settled c d' limiter'.
Proof.
  intros [(H1 & H2 & H3 & H4) Hc Ht]. unfold refresh_runtime_overrides.
  destruct (negb _); [by split|]. destruct answer as [row|e]; [|by split].
  cbn [applied_overrides]. destruct (overrides_eqb _ _); [by split|]. split; simpl; [done| |].
  - unfold overridden_config. simpl. rewrite H1, H2, H3, Hc. done.
  - unfold tuned in *. simpl. rewrite H4. by destruct limiter, (rate_limit c).
Qed.

Fixpoint refresh_all {E} (interval : Z) (reads : list (Z * result E (option QueueRuntimeOverrides)))
    (d : Dispatcher) (limiter : option TokenBucket) : Dispatcher * option TokenBucket :=
  match reads with
  | [] => (d, limiter)
  | (now, answer) :: reads =>
      let '(d, limiter) := refresh_runtime_overrides interval now answer d limiter in
      refresh_all interval reads d limiter
  end.

Lemma refresh_all_settled {E} c interval (reads : list (Z * result E (option QueueRuntimeOverrides))) d limiter :
  settled c d limiter ->
  let '(d', limiter') := refresh_all interval reads d limiter in settled c d' limiter'.
Proof.
  revert d limiter. induction reads as [|[now answer] reads IH]; intros d limiter H; [done|]. simpl.
  pose proof (refresh_settled c interval now answer d limiter H) as H'.
  destruct (refresh_runtime_overrides _ _ _ _ _). by apply IH.
Qed.

(** A deadline read from its [BIGINT] column. *)
Definition deadline_i64 (o : QueueRuntimeOverrides) : Prop :=
  match o_deadline_ms o with Some ms => -2 ^ 63 <= ms < 2 ^ 63 | None => True end.

Lemma refresh_applied {E} (P : QueueRuntimeOverrides -> Prop) interval
    (reads : list (Z * result E (option QueueRuntimeOverrides))) d limiter :
  P default_overrides -> (forall now o, (now, Ok (Some o)) ∈ reads -> P o) -> P (applied_overrides d) ->
  P (applied_overrides (fst (refresh_all interval reads d limiter))).
Proof.
  intros Hdef. revert d limiter. induction reads as [|[now answer] reads IH]; intros d limiter Hr Hd; [done|].
  simpl. destruct (refresh_runtime_overrides interval now answer d limiter) as [d1 l1] eqn:Hx.
  apply IH; [intros; eapply Hr; by right|].
  unfold refresh_runtime_overrides in Hx. destruct (negb _); [by simplify_eq|].
  destruct answer as [row|e]; [|by simplify_eq]. cbn [applied_overrides] in Hx.
  destruct (overrides_eqb _ _); [by simplify_eq|]. injection Hx as <- _. simpl.
  destruct row as [o|]; simpl; [|done]. eapply Hr. by left.
Qed.

Lemma overridden_deadline_zero c o :
  deadline_i64 o ->
  is_zero (deadline_duration (overridden_config (with_concurrency c) o)) = is_zero (deadline_duration c).
Proof.
  unfold deadline_i64, overridden_config. simpl. destruct (o_deadline_ms o) as [ms|]; [|done]. intros Hms.
  destruct (is_zero (deadline_duration c)) eqn:Hz, (Z.eqb_spec ms 0) as [->|Hne]; simpl; try done.
  unfold is_zero, from_millis, wrap_u64, u64_mod. apply Z.eqb_neq. intros H.
  assert (ms mod 2 ^ 64 = 0) as [k Hk]%Z.mod_divide by lia; lia.
Qed.

(** Overrides leave no trace: after any sequence of refreshes, failed ones
    included, a dispatcher's configuration is the builder's overlaid with the
    overrides last applied, and so are its bucket's rate and burst; a batch is
    never empty; and the deadline is zero exactly when the builder's is, so the
    claim mode never changes. *)
Theorem overrides_leave_no_trace {E} c now interval (reads : list (Z * result E (option QueueRuntimeOverrides))) :
  (forall now o, (now, Ok (Some o)) ∈ reads -> deadline_i64 o) -> 1 <= claim_batch_size c ->
  let '(d, limiter) := refresh_all interval reads (with_concurrency c) (shared_rate_limiter c now) in
  config d = overridden_config (with_concurrency c) (applied_overrides d)
  /\ tuned limiter d
  /\ 1 <= claim_batch_size (config d)
  /\ is_zero (deadline_duration (config d)) = is_zero (deadline_duration c).
Proof.
  intros Hr Hb. pose proof (refresh_all_settled c interval reads _ _ (with_concurrency_settled c now)) as H.
  pose proof (refresh_applied deadline_i64 interval reads (with_concurrency c) (shared_rate_limiter c now) I Hr I) as Ha.
  destruct (refresh_all interval reads _ _) as [d limiter]. simpl in Ha. destruct H as [_ Hc Ht].
  split; [done|]. split; [done|]. rewrite Hc. split; [|by apply overridden_deadline_zero].
  simpl. case_match; lia.
Qed.

(** ** Idle polls *)

Lemma idle_poll_sleep_range poll idle n :
  0 <= poll <= DURATION_MAX -> 0 <= n ->
  poll <= idle_poll_sleep poll idle n <= Z.max idle poll.
Proof.
  intros Hp Hn. unfold idle_poll_sleep. rewrite Z.shiftl_1_l.
  pose proof (Z.pow_pos_nonneg 2 (Z.min n 16)). nia.
Qed.

(** * Examples *)

Module DispatchDemo.
(** Two weighted queues, the first limited to ten jobs a second. *)
Definition config_a : QueueConfig :=
  mkConfig 50 (from_millis 200) 0 (from_secs 60) (Some (mkRateLimit (as_f64 10) 0)) 1 3 1 8.
Definition config_b : QueueConfig := mkConfig 50 (from_millis 200) 0 (from_secs 60) None 2 1 1 8.
Definition builder : ClientBuilder :=
  mkBuilder None None (Some DEFAULT) None [("a", config_a); ("b", config_b)] ["a"] None None None (from_secs 5) (Some 6).
Definition weights_ab : gmap string Z := list_to_map [("a", 3); ("b", 1)].
Definition pool : OverflowPool := pool_new 3 weights_ab.
(** A storage with two jobs to give. *)
Definition two_jobs (n : Z) : ClaimOutcome Z := ClaimReturned (take (Z.to_nat n) [1; 2]).

(** One poll of the first queue, begun and finished. *)
Definition fresh : Runtime Z := started builder (Some pool) 0.
Definition begun : Runtime Z :=
  let '(begun, s) := begin_poll "a" 8 0 (shared fresh) in
  mkRuntime s (match begun with Some pb => ("a", pb) :: polls fresh | None => polls fresh end) (tasks fresh).
Definition permits : list DispatchPermit := [Local "a"; Overflow "a"; Overflow "a"; Overflow "a"].
Definition runtime : Runtime Z :=
  let '(spawned, _, s) := finish_poll "a" permits 4 (two_jobs 4) (shared begun) in
  mkRuntime s ([] ++ []) (spawned ++ tasks begun).
End DispatchDemo.

Lemma demo_builds : build DispatchDemo.builder = Ok (Some DispatchDemo.pool).
Proof. by vm_compute. Qed.

Lemma demo_builder_ok : builder_ok DispatchDemo.builder.
Proof.
  split; [| by vm_compute | by vm_compute |]; apply Forall_cons; (split; [by vm_compute|]);
    apply Forall_cons; (split; [by vm_compute|]); constructor.
Qed.

Lemma demo_runs : rtc run_step DispatchDemo.fresh DispatchDemo.runtime.
Proof.
  apply (rtc_l _ _ DispatchDemo.begun).
  - apply (StepBegin DispatchDemo.fresh "a" 8 0); [by exists 1|done].
  - apply rtc_once.
    apply (StepFinish DispatchDemo.begun [] "a" DispatchDemo.permits 4 [] (DispatchDemo.two_jobs 4)).
    by vm_compute.
Qed.

Lemma dispatch_within_capacity_witness :
  tasks DispatchDemo.runtime = [(1, Local "a"); (2, Overflow "a")]
  /\ tasks_of "a" DispatchDemo.runtime <= 1 + 3 /\ Z.of_nat (length (tasks DispatchDemo.runtime)) <= 6.
Proof.
  destruct (dispatch_within_capacity DispatchDemo.builder (Some DispatchDemo.pool) 0 DispatchDemo.runtime
    demo_builder_ok demo_builds demo_runs) as [Hq Hg].
  split; [by vm_compute|]. split; [|by apply Hg].
  apply (Hq "a" DispatchDemo.config_a). by left.
Defined.


Lemma overflow_pool_spec_witness :
  fst (try_acquire DispatchDemo.pool "a" 8) = 3.
Proof.
  pose proof (overflow_pool_spec DispatchDemo.pool "a" 8) as H.
  destruct (try_acquire DispatchDemo.pool "a" 8) as [granted p'].
  destruct H as (_ & _ & _ & _ & H); [lia|by vm_compute|by vm_compute|by vm_compute|].
  rewrite (H 3); [done|done|done|]. intros q' Hq'. by split.
Defined.

Lemma overrides_leave_no_trace_witness :
  let reads := [(0, Ok (Some (mkOverrides None (Some 4) None (Some 1000)))); (1, Err tt); (20, Ok None)] in
  let '(d, _) := refresh_all 10 reads (with_concurrency DispatchDemo.config_b)
                   (shared_rate_limiter DispatchDemo.config_b 0) in
  config d = DispatchDemo.config_b.
Proof.
  intros reads. pose proof (overrides_leave_no_trace DispatchDemo.config_b 0 10 reads) as H.
  assert (applied_overrides (fst (refresh_all 10 reads (with_concurrency DispatchDemo.config_b)
    (shared_rate_limiter DispatchDemo.config_b 0))) = default_overrides) as Ha by (by vm_compute).
  destruct (refresh_all 10 reads _ _) as [d l]. simpl in Ha.
  destruct H as (Hc & _); [|by vm_compute|by rewrite Hc, Ha].
  intros now o [[= -> ->]|[[=]|[[=]|[]%not_elem_of_nil]%elem_of_cons]%elem_of_cons]%elem_of_cons.
  unfold deadline_i64. cbn [o_deadline_ms]. lia.
Defined.

(** ** Two consequences of the arithmetic *)

(** A NaN rate passes validation, and its bucket refills at once: eight jobs
    dispatched, no time gone by, and the burst is back. *)
Lemma nan_rate_is_no_limit :
  let rl := mkRateLimit SpecFloat.S754_nan 8 in
  let c := mkConfig 50 0 0 0 (Some rl) 0 1 1 8 in
  check_config c = Ok tt
  /\ fst (available (consume (snd (available (bucket_new rl 0) 0)) 8) 0) = 8.
Proof. by vm_compute. Qed.

(** [100 * (7 / 25)] rounds to just above 28, so its ceiling is 29. *)
Lemma fair_share_rounds_up : fair_share (pool_new 100 ∅) 7 25 = 29.
Proof. by vm_compute. Qed.
