(* ===== verification/Routing.v ===== *)
(** Where a job goes: enqueue shards by ordering key, in Rust and in SQL
    (queue_storage.rs, v018_insert_job_compat_ordering_key.sql), partitioned
    queues (partitioned_queue.rs) and queue stripes (queue_storage.rs).

    [DefaultHasher] on a unique key is a parameter. *)

From Stdlib Require Finite.
From stdpp Require Import pretty.
From S2P Require Import Prelude.
From S2P Require Import Json.
From S2P Require Import Job.
From S2P Require Import Ring.

(** * Enqueue shards *)

(** The accumulator is a [u128]; [wrapping_mul] and [wrapping_add] are modulo
    [2 ^ 128]. *)
Definition wrap_u128 (x : Z) : Z := x mod 2 ^ 128.
Definition HASH_BASIS : Z := 14695981039346656037.
Definition HASH_PRIME : Z := 1099511628211.

Definition ordering_key_hash64 (ordering_key : list Z) : Z :=
  fold_left (fun hash byte => Z.land (wrap_u128 (wrap_u128 (hash * HASH_PRIME) + byte)) u64_max)
    ordering_key HASH_BASIS.

(** Shard counts and shards are [i16]. *)
Definition shard_for_ordering_key (ordering_key : list Z) (shards : Z) : Z :=
  if shards <=? 1 then 0 else as_i16 (ordering_key_hash64 ordering_key mod shards).

(** The hash loop of [awa.insert_job_compat], on [NUMERIC]. *)
Definition sql_hash (ordering_key : list Z) : Z :=
  fold_left (fun hash byte => (hash * 1099511628211 + byte) mod 18446744073709551616)
    ordering_key 14695981039346656037.
Definition sql_enqueue_shard (ordering_key : option (list Z)) (backend_pid shards : Z) : Z :=
  match ordering_key with
  | Some key => sql_hash key mod shards
  | None => backend_pid mod shards
  end.

(** [pick_shard]; [rotor] is the store's [AtomicU16]. *)
Definition pick_shard (shards : Z) (ordering_key : option (list Z)) (rotor : Z) : Z * Z :=
  if shards <=? 1 then (0, rotor)
  else match ordering_key with
       | Some key => (shard_for_ordering_key key shards, rotor)
       | None => (as_i16 (rem_euclid rotor shards), wrap_u16 (rotor + 1))
       end.

(** Consecutive picks without a key. *)
Fixpoint pick_shards (n : nat) (shards rotor : Z) : list Z :=
  match n with
  | O => []
  | S n => let '(shard, rotor) := pick_shard shards None rotor in shard :: pick_shards n shards rotor
  end.

(** * Partitioned queues *)

Definition PARTITION_HASH_DOMAIN : Z := 0x9d4d1b2f53a70c91.
Definition xorshift (k x : Z) : Z := Z.lxor x (Z.shiftr x k).

Definition partition_hash64 (ordering_key : list Z) : Z :=
  let value := Z.lxor (ordering_key_hash64 ordering_key) PARTITION_HASH_DOMAIN in
  let value := xorshift 30 value in
  let value := wrap_u64 (value * 0xbf58476d1ce4e5b9) in
  let value := xorshift 27 value in
  let value := wrap_u64 (value * 0x94d049bb133111eb) in
  xorshift 31 value.
Definition partition_for_ordering_key (ordering_key : list Z) (partitions : nat) : nat :=
  if (partitions <=? 1)%nat then 0%nat
  else Z.to_nat (partition_hash64 ordering_key mod Z.of_nat partitions).

Inductive PartitionedQueueError : Type :=
  | EmptyLogicalQueue
  | ZeroPartitions
  | TooManyPhysicalQueues (got max : nat)
  | EmptyPhysicalQueue
  | DuplicatePhysicalQueue (queue : string).

Record PartitionedQueue : Type := mkPartitioned {
  logical_queue : string;
  physical_queues : list string
}.

Definition validate_logical_queue (queue : string) : result PartitionedQueueError unit :=
  if String.eqb queue EmptyString then Err EmptyLogicalQueue else Ok tt.
Definition validate_physical_count (count : nat) : result PartitionedQueueError unit :=
  if (count =? 0)%nat then Err ZeroPartitions
  else
    let max := Z.to_nat i16_max in
    if (max <? count)%nat then Err (TooManyPhysicalQueues count max) else Ok tt.
Fixpoint validate_physical_queues (seen : gset string) (queues : list string) : result PartitionedQueueError unit :=
  match queues with
  | [] => Ok tt
  | queue :: queues =>
      if String.eqb queue EmptyString then Err EmptyPhysicalQueue
      else if bool_decide (queue ∈ seen) then Err (DuplicatePhysicalQueue queue)
      else validate_physical_queues ({[queue]} ∪ seen) queues
  end.

(** [{logical_queue}__p{idx}]. *)
Definition partition_name (queue : string) (idx : nat) : string := queue +:+ "__p" +:+ pretty (N.of_nat idx).

Definition partitioned_new (queue : string) (partitions : nat) : result PartitionedQueueError PartitionedQueue :=
  check? validate_logical_queue queue;
  check? validate_physical_count partitions;
  Ok (mkPartitioned queue (queue :: map (partition_name queue) (seq 1 (partitions - 1)))).
Definition from_physical_queues (queue : string) (queues : list string)
    : result PartitionedQueueError PartitionedQueue :=
  check? validate_logical_queue queue;
  check? validate_physical_count (length queues);
  check? validate_physical_queues ∅ queues;
  Ok (mkPartitioned queue queues).

Definition partitions (q : PartitionedQueue) : nat := length (physical_queues q).
(** Indexing panics out of range ([None]). *)
Definition queue_for_key (key : list Z) (q : PartitionedQueue) : option string :=
  physical_queues q !! partition_for_ordering_key key (partitions q).
Definition queue_for_index (index : nat) (q : PartitionedQueue) : option string :=
  physical_queues q !! (index mod partitions q)%nat.

Definition set_queue (queue : string) (o : InsertOpts) : InsertOpts :=
  {| o_queue := queue; o_priority := o_priority o; o_max_attempts := o_max_attempts o; o_run_at := o_run_at o;
     o_deadline_duration := o_deadline_duration o; o_metadata := o_metadata o; o_tags := o_tags o;
     o_unique := o_unique o; o_ordering_key := o_ordering_key o |}.
Definition set_ordering_key (key : list Z) (o : InsertOpts) : InsertOpts :=
  {| o_queue := o_queue o; o_priority := o_priority o; o_max_attempts := o_max_attempts o; o_run_at := o_run_at o;
     o_deadline_duration := o_deadline_duration o; o_metadata := o_metadata o; o_tags := o_tags o;
     o_unique := o_unique o; o_ordering_key := Some key |}.
Definition route_opts_by_key (opts : InsertOpts) (key : list Z) (q : PartitionedQueue) : option InsertOpts :=
  (fun queue => set_ordering_key key (set_queue queue opts)) <$> queue_for_key key q.
Definition route_opts_by_index (opts : InsertOpts) (index : nat) (q : PartitionedQueue) : option InsertOpts :=
  (fun queue => set_queue queue opts) <$> queue_for_index index q.

(** * Queue stripes *)

Definition QUEUE_STRIPE_DELIMITER : ascii := "#".

(** [str::rsplit_once]. *)
Fixpoint rsplit_once (d : ascii) (s : string) : option (string * string) :=
  match s with
  | EmptyString => None
  | String c s =>
      match rsplit_once d s with
      | Some (p, q) => Some (String c p, q)
      | None => if Ascii.eqb c d then Some (EmptyString, s) else None
      end
  end.

(** [str::parse::<usize>()]: an optional [+], at least one digit, no overflow. *)
Fixpoint parse_digits (acc : Z) (s : string) : option Z :=
  match s with
  | EmptyString => Some acc
  | String c s =>
      if is_ascii_digit c
      then
        let acc := acc * 10 + (ascii_code c - 48) in
        if u64_max <? acc then None else parse_digits acc s
      else None
  end.
Definition parse_usize (s : string) : option Z :=
  let digits := match s with String c rest => if Ascii.eqb c "+" then rest else s | EmptyString => s end in
  match digits with EmptyString => None | _ => parse_digits 0 digits end.

Section Stripes.
  Variable hash : list Z -> Z.
  Variable stripe_count : nat.

Definition uses_queue_striping : bool := (1 <? stripe_count)%nat.
(** [rsplit_once(#)] with a suffix that parses. *)
Definition stripe_prefix (queue : string) : option string :=
  match rsplit_once QUEUE_STRIPE_DELIMITER queue with
  | Some (prefix, suffix) => match parse_usize suffix with Some _ => Some prefix | None => None end
  | None => None
  end.
Definition is_physical_stripe_queue (queue : string) : bool :=
  uses_queue_striping && bool_decide (is_Some (stripe_prefix queue)).
Definition physical_queue_for_stripe (queue : string) (stripe : nat) : string :=
  queue +:+ String QUEUE_STRIPE_DELIMITER (pretty (N.of_nat stripe)).
Definition physical_queues_for_logical (queue : string) : list string :=
  if negb uses_queue_striping || is_physical_stripe_queue queue then [queue]
  else map (physical_queue_for_stripe queue) (seq 0 stripe_count).
Definition logical_queue_name (queue : string) : string :=
  if negb uses_queue_striping then queue else default queue (stripe_prefix queue).
Definition queue_stripe_for_enqueue (queue : string) (unique_key : option (list Z)) (salt : Z) : string :=
  if negb uses_queue_striping || is_physical_stripe_queue queue then queue
  else
    let stripe := match unique_key with
                  | Some key => hash key mod Z.of_nat stripe_count
                  | None => rem_euclid salt (Z.of_nat stripe_count)
                  end in
    physical_queue_for_stripe queue (Z.to_nat stripe).
End Stripes.

(** * Hashing *)

Lemma land_u64_max x : Z.land x u64_max = x mod 2 ^ 64.
Proof. change u64_max with (Z.ones 64). apply Z.land_ones. lia. Qed.

Lemma mod_u128_u64 x : wrap_u128 x mod 2 ^ 64 = x mod 2 ^ 64.
Proof.
  unfold wrap_u128. change (2 ^ 128) with (2 ^ 64 * 2 ^ 64). rewrite Z.rem_mul_r, Z.mul_comm by lia.
  rewrite Z.mod_add, Z.mod_mod by lia. reflexivity.
Qed.

Lemma hash_step h b : Z.land (wrap_u128 (wrap_u128 (h * HASH_PRIME) + b)) u64_max = (h * HASH_PRIME + b) mod 2 ^ 64.
Proof.
  rewrite land_u64_max, mod_u128_u64. rewrite Zplus_mod, mod_u128_u64, <- Zplus_mod. reflexivity.
Qed.

Lemma hash_eq_sql key : ordering_key_hash64 key = sql_hash key.
Proof.
  unfold ordering_key_hash64, sql_hash, HASH_BASIS. generalize 14695981039346656037.
  induction key as [|b key IH]; intros h; [reflexivity|]. cbn [fold_left]. rewrite hash_step. apply IH.
Qed.

Lemma hash_u64 key : is_u64 (ordering_key_hash64 key).
Proof.
  unfold ordering_key_hash64. assert (is_u64 HASH_BASIS) as H by (split; reflexivity || discriminate).
  revert H. generalize HASH_BASIS. induction key as [|b key IH]; intros h H; [exact H|]. cbn [fold_left]. apply IH.
  rewrite hash_step. apply (wrap_u64_range (h * HASH_PRIME + b)).
Qed.

Lemma as_i16_small x : 0 <= x < 2 ^ 15 -> as_i16 x = x.
Proof. intros H. unfold as_i16. rewrite Z.mod_small; lia. Qed.

Lemma shard_for_key_mod key shards : 1 <= shards < 2 ^ 15 ->
  shard_for_ordering_key key shards = ordering_key_hash64 key mod shards.
Proof.
  intros H. unfold shard_for_ordering_key. destruct (Z.leb_spec shards 1).
  - replace shards with 1 by lia. rewrite Z.mod_1_r. reflexivity.
  - pose proof (Z.mod_pos_bound (ordering_key_hash64 key) shards ltac:(lia)). apply as_i16_small. lia.
Qed.

(** Bits of an xorshift. *)
Lemma xorshift_testbit k x i : 0 <= k -> 0 <= i ->
  Z.testbit (xorshift k x) i = xorb (Z.testbit x i) (Z.testbit x (i + k)).
Proof. intros. unfold xorshift. rewrite Z.lxor_spec, Z.shiftr_spec by lia. reflexivity. Qed.

Lemma xorshift_inj k x y : 0 < k -> is_u64 x -> is_u64 y -> xorshift k x = xorshift k y -> x = y.
Proof.
  intros Hk Hx Hy H. apply Z.bits_inj'. intros n Hn.
  (* by induction from the top bit down *)
  assert (forall m i, (0 <= i) -> 64 - i <= Z.of_nat m -> Z.testbit x i = Z.testbit y i) as Hall.
  { induction m as [|m IH]; intros i Hi Hm.
    - rewrite !u64_testbit_high by (assumption || lia). reflexivity.
    - pose proof (f_equal (fun z => Z.testbit z i) H) as Hb. simpl in Hb.
      rewrite !xorshift_testbit in Hb by lia. rewrite (IH (i + k)) in Hb by lia.
      destruct (Z.testbit x i), (Z.testbit y i), (Z.testbit y (i + k)); simpl in Hb; congruence. }
  apply (Hall (Z.to_nat (64 - n))); lia.
Qed.

Lemma xorshift_u64 k x : 0 < k -> is_u64 x -> is_u64 (xorshift k x).
Proof. intros Hk Hx. apply lxor_u64; [exact Hx|]. apply shiftr_u64; [lia|exact Hx]. Qed.

(** Multiplying by a constant with an inverse modulo [2 ^ 64]. *)
Lemma mul_u64_inj c inv x y : (c * inv) mod 2 ^ 64 = 1 -> is_u64 x -> is_u64 y ->
  wrap_u64 (x * c) = wrap_u64 (y * c) -> x = y.
Proof.
  intros Hc Hx Hy H. assert (forall z, is_u64 z -> wrap_u64 (wrap_u64 (z * c) * inv) = z) as Hi.
  { intros z Hz. unfold wrap_u64, u64_mod in *. rewrite Zmult_mod_idemp_l, <- Z.mul_assoc, Zmult_mod, Hc, Z.mul_1_r, Z.mod_mod by lia.
    apply Z.mod_small, Hz. }
  rewrite <- (Hi x Hx), <- (Hi y Hy), H. reflexivity.
Qed.

Lemma lxor_inj_l x y d : Z.lxor x d = Z.lxor y d -> x = y.
Proof.
  intros H. rewrite <- (Z.lxor_0_r x), <- (Z.lxor_0_r y), <- (Z.lxor_nilpotent d), <- !Z.lxor_assoc, H. reflexivity.
Qed.

Lemma partition_hash_inj k k' :
  partition_hash64 k = partition_hash64 k' -> ordering_key_hash64 k = ordering_key_hash64 k'.
Proof.
  unfold partition_hash64. intros H. apply (lxor_inj_l _ _ PARTITION_HASH_DOMAIN).
  assert (forall key, is_u64 (Z.lxor (ordering_key_hash64 key) PARTITION_HASH_DOMAIN)) as H0
    by (intros; apply lxor_u64; [apply hash_u64|split; discriminate || reflexivity]).
  assert (forall x, is_u64 (wrap_u64 x)) as Hw by apply wrap_u64_range.
  apply (xorshift_inj 31) in H; [|lia|apply Hw|apply Hw].
  apply (mul_u64_inj _ 0x319642b2d24d8ec3) in H; [|reflexivity|apply xorshift_u64; [lia|apply Hw]|apply xorshift_u64; [lia|apply Hw]].
  apply (xorshift_inj 27) in H; [|lia|apply Hw|apply Hw].
  apply (mul_u64_inj _ 0x96de1b173f119089) in H; [|reflexivity|apply xorshift_u64; [lia|apply H0]|apply xorshift_u64; [lia|apply H0]].
  apply (xorshift_inj 30) in H; [exact H|lia|apply H0|apply H0].
Qed.

Lemma pick_shards_window shards : 1 <= shards <= 64 -> forall n rotor,
  0 <= rotor -> rotor + Z.of_nat n <= 2 ^ 16 ->
  pick_shards n shards rotor = map (fun i => (rotor + Z.of_nat i) mod shards) (seq 0 n).
Proof.
  intros Hs n. induction n as [|n IH]; intros rotor H0 H1; [reflexivity|].
  simpl pick_shards. simpl seq. rewrite map_cons, Z.add_0_r, <- seq_shift, map_map. unfold pick_shard.
  destruct (Z.leb_spec shards 1).
  - replace shards with 1 in * by lia. rewrite Z.mod_1_r. f_equal. rewrite IH by lia.
    apply map_ext. intros i. rewrite !Z.mod_1_r. reflexivity.
  - pose proof (Z.mod_pos_bound rotor shards ltac:(lia)). unfold rem_euclid. rewrite as_i16_small by lia. f_equal.
    destruct n as [|n]; [reflexivity|]. unfold wrap_u16. rewrite (Z.mod_small (rotor + 1)) by lia. rewrite IH by lia.
    apply map_ext. intros i. f_equal. lia.
Qed.

Lemma mod_window_perm r n : 0 < n ->
  Permutation (map (fun i => (r + Z.of_nat i) mod n) (seq 0 (Z.to_nat n))) (map Z.of_nat (seq 0 (Z.to_nat n))).
Proof.
  intros Hn. apply Permutation.NoDup_Permutation_bis.
  - apply Finite.Injective_map_NoDup_in; [|apply seq_NoDup]. intros x y Hx Hy H. apply in_seq in Hx, Hy.
    apply (mod_window_inj _ _ n) in H; lia.
  - rewrite !length_map. reflexivity.
  - intros x Hx. apply in_map_iff in Hx as (i & <- & _). apply in_map_iff.
    pose proof (Z.mod_pos_bound (r + Z.of_nat i) n Hn). exists (Z.to_nat ((r + Z.of_nat i) mod n)). rewrite in_seq. lia.
Qed.

(** A key's shard is the same whether Rust or SQL picks it and lies within the
    queue's shards; the partition hash separates exactly the keys the ordering
    hash separates; and consecutive keyless picks of one producer visit every
    shard once per lap. *)
Theorem ordering_key_routing (shards : Z) :
  1 <= shards <= 64 ->
  (forall key pid, shard_for_ordering_key key shards = sql_enqueue_shard (Some key) pid shards
                   /\ 0 <= shard_for_ordering_key key shards < shards)
  /\ (forall key key', partition_hash64 key = partition_hash64 key' <-> ordering_key_hash64 key = ordering_key_hash64 key')
  /\ (forall rotor, 0 <= rotor -> rotor + shards <= 2 ^ 16 ->
        Permutation (pick_shards (Z.to_nat shards) shards rotor) (map Z.of_nat (seq 0 (Z.to_nat shards)))).
Proof.
  intros Hs. split_and!.
  - intros key pid. rewrite shard_for_key_mod by lia. split; [rewrite hash_eq_sql; reflexivity|].
    apply Z.mod_pos_bound. lia.
  - intros key key'. split; [apply partition_hash_inj|]. intros H. unfold partition_hash64. rewrite H. reflexivity.
  - intros rotor H0 H1. rewrite pick_shards_window by lia. apply mod_window_perm. lia.
Qed.

Lemma ordering_key_routing_witness :
  Permutation (pick_shards 4 4 6) [0; 1; 2; 3]
  /\ shard_for_ordering_key [99; 117; 115; 116; 45; 52; 50] 4 = sql_enqueue_shard (Some [99; 117; 115; 116; 45; 52; 50]) 7 4.
Proof.
  destruct (ordering_key_routing 4 ltac:(lia)) as (H1 & _ & H3). split; [apply (H3 6); lia|apply H1].
Defined.

(** * Partitions *)

Lemma validate_physical_queues_Ok seen qs :
  validate_physical_queues seen qs = Ok tt
  <-> Forall (fun q => q <> EmptyString) qs /\ NoDup qs /\ Forall (fun q => q ∉ seen) qs.
Proof.
  revert seen. induction qs as [|q qs IH]; intros seen; simpl.
  - split; [|reflexivity]. intros _. repeat constructor.
  - rewrite !Forall_cons, NoDup_cons. destruct (String.eqb_spec q EmptyString) as [->|Hne].
    { split; [discriminate|]. intros [[[] _] _]. reflexivity. }
    case_bool_decide as Hin; [split; [discriminate|tauto]|]. rewrite IH.
    assert (Forall (fun q' => q' ∉ (({[q]} ∪ seen) : gset string)) qs <-> (q ∉ qs) /\ Forall (fun q' => q' ∉ seen) qs) as ->.
    { rewrite !Forall_forall. split.
      - intros H. split; [|set_solver]. intros Hq. specialize (H q Hq). set_solver.
      - intros [H1 H2] x Hx. specialize (H2 x Hx). set_unfold. intros [->|]; auto. }
    tauto.
Qed.

Lemma string_length_app s t : String.length (s +:+ t) = (String.length s + String.length t)%nat.
Proof. induction s as [|c s IH]; simpl; [reflexivity|]. rewrite IH. reflexivity. Qed.

Lemma partition_name_ne queue idx : partition_name queue idx <> queue.
Proof.
  intros H%(f_equal String.length). unfold partition_name in H. rewrite !string_length_app in H. simpl in H. lia.
Qed.

Lemma partition_name_inj queue i j : partition_name queue i = partition_name queue j -> i = j.
Proof.
  unfold partition_name. intros H. apply (inj (String.append queue)) in H. apply (inj (String.append "__p")) in H.
  apply (inj pretty) in H. lia.
Qed.

Lemma default_names_NoDup queue n : NoDup (queue :: map (partition_name queue) (seq 1 n)).
Proof.
  apply NoDup_cons. split.
  - intros H. apply list_elem_of_In, in_map_iff in H as (i & H & _). exact (partition_name_ne queue i H).
  - apply NoDup_ListNoDup, Finite.Injective_map_NoDup_in; [|apply seq_NoDup].
    intros i j _ _. apply partition_name_inj.
Qed.

Lemma queue_for_key_total key q : (0 < partitions q)%nat -> is_Some (queue_for_key key q).
Proof.
  intros H. unfold queue_for_key. apply lookup_lt_is_Some. unfold partition_for_ordering_key, partitions in *.
  destruct (Nat.leb_spec (length (physical_queues q)) 1); [lia|].
  pose proof (Z.mod_pos_bound (partition_hash64 key) (Z.of_nat (length (physical_queues q))) ltac:(lia)). lia.
Qed.

Lemma queue_for_index_hits q p : p ∈ physical_queues q -> exists i, (i < partitions q)%nat /\ queue_for_index i q = Some p.
Proof.
  intros H. apply list_elem_of_lookup in H as [i Hi]. pose proof (lookup_lt_Some _ _ _ Hi) as Hlt.
  exists i. split; [exact Hlt|]. unfold queue_for_index. rewrite Nat.mod_small by exact Hlt. exact Hi.
Qed.

(** A partitioned queue of [n] partitions is built exactly for a named queue and
    1 to 32767 partitions. Its physical queues are distinct, start with the
    logical name and would be accepted as explicit names; every key and every
    index is routed to one of them, each is reached by some index, and routing
    by key carries the key on, so jobs of one key share queue and shard. *)
Theorem partitioned_queue_spec (queue : string) (n : nat) :
  match partitioned_new queue n with
  | Ok q =>
      queue <> EmptyString /\ (1 <= n <= Z.to_nat i16_max)%nat
      /\ logical_queue q = queue /\ head (physical_queues q) = Some queue
      /\ partitions q = n /\ NoDup (physical_queues q)
      /\ from_physical_queues queue (physical_queues q) = Ok q
      /\ (forall opts key, exists o, route_opts_by_key opts key q = Some o
            /\ o_queue o ∈ physical_queues q /\ Some (o_queue o) = queue_for_key key q /\ o_ordering_key o = Some key)
      /\ (forall p, p ∈ physical_queues q -> exists i, (i < n)%nat /\ queue_for_index i q = Some p)
  | Err _ => queue = EmptyString \/ n = 0%nat \/ (Z.to_nat i16_max < n)%nat
  end.
Proof.
  unfold partitioned_new, validate_logical_queue. destruct (String.eqb_spec queue EmptyString) as [->|Hq]; [left; reflexivity|].
  simpl rbind at 1. cbv beta. unfold validate_physical_count at 1.
  destruct (Nat.eqb_spec n 0) as [->|Hn]; [right; left; reflexivity|].
  destruct (Nat.ltb_spec (Z.to_nat i16_max) n) as [Hbig|Hle]; [right; right; exact Hbig|]. cbn [rbind].
  set (q := mkPartitioned _ _).
  assert (partitions q = n) as Hp by (unfold partitions, q; cbn [physical_queues length]; rewrite length_map, length_seq; lia).
  assert (NoDup (physical_queues q)) as Hnd by apply default_names_NoDup.
  assert (Forall (fun p => p <> EmptyString) (physical_queues q)) as Hne.
  { constructor; [exact Hq|]. apply Forall_forall. intros p Hin. apply list_elem_of_In, in_map_iff in Hin as (i & <- & _).
    unfold partition_name. destruct queue; [congruence|discriminate]. }
  split_and!; auto; try lia.
  - unfold from_physical_queues, validate_logical_queue. destruct (String.eqb_spec queue EmptyString); [congruence|]. cbn [rbind].
    fold (partitions q). rewrite Hp. unfold validate_physical_count. destruct (Nat.eqb_spec n 0); [congruence|].
    destruct (Nat.ltb_spec (Z.to_nat i16_max) n); [lia|]. cbn [rbind].
    assert (validate_physical_queues ∅ (physical_queues q) = Ok tt) as ->; [|reflexivity].
    apply validate_physical_queues_Ok. split_and!; [exact Hne|exact Hnd|]. apply Forall_forall. set_solver.
  - intros opts key. destruct (queue_for_key_total key q ltac:(lia)) as [p Hkey]. unfold route_opts_by_key. rewrite Hkey.
    eexists. split_and!; [reflexivity| |reflexivity|reflexivity]. simpl. eapply list_elem_of_lookup_2, Hkey.
  - intros p Hin. rewrite <- Hp. apply queue_for_index_hits, Hin.
Qed.

(** * Stripes *)

Lemma pretty_char_digit (x : N) : (x < 10)%N ->
  is_ascii_digit (pretty_N_char x) = true /\ ascii_code (pretty_N_char x) - 48 = Z.of_N x.
Proof.
  intros H. assert (x = 0 \/ x = 1 \/ x = 2 \/ x = 3 \/ x = 4 \/ x = 5 \/ x = 6 \/ x = 7 \/ x = 8 \/ x = 9)%N as Hc by lia.
  repeat destruct Hc as [->|Hc]; try (split; reflexivity). subst. split; reflexivity.
Qed.

(** Reading back the digits of a printed number. *)
Lemma parse_pretty_go (x : N) : Z.of_N x <= u64_max -> forall s,
  parse_digits 0 (pretty_N_go x s) = parse_digits (Z.of_N x) s.
Proof.
  induction (N.lt_wf_0 x) as [x _ IH]. intros Hx s. destruct (decide (x = 0%N)) as [->|Hne].
  - rewrite pretty_N_go_0. reflexivity.
  - rewrite pretty_N_go_step by lia.
    assert (x `div` 10 < x)%N as Hlt by (apply N.div_lt; lia). rewrite IH by lia. cbn [parse_digits].
    destruct (pretty_char_digit (x `mod` 10)) as [Hd Hc]; [apply N.mod_lt; lia|]. rewrite Hd, Hc.
    replace (Z.of_N (x `div` 10) * 10 + Z.of_N (x `mod` 10)) with (Z.of_N x) by (pose proof (N.div_mod x 10); lia).
    destruct (Z.ltb_spec u64_max (Z.of_N x)); [lia|reflexivity].
Qed.

Fixpoint all_digits (s : string) : bool :=
  match s with EmptyString => true | String c s => is_ascii_digit c && all_digits s end.

Lemma pretty_go_digits (x : N) : forall s, all_digits s = true -> all_digits (pretty_N_go x s) = true.
Proof.
  induction (N.lt_wf_0 x) as [x _ IH]. intros s Hs. destruct (decide (x = 0%N)) as [->|Hne].
  - rewrite pretty_N_go_0. exact Hs.
  - rewrite pretty_N_go_step by lia. apply IH; [apply N.div_lt; lia|]. cbn [all_digits].
    destruct (pretty_char_digit (x `mod` 10)) as [-> _]; [apply N.mod_lt; lia|exact Hs].
Qed.

Lemma pretty_digits (x : N) : all_digits (pretty x) = true /\ pretty x <> EmptyString.
Proof.
  unfold pretty, pretty_N. destruct (decide (x = 0%N)); [split; [reflexivity|discriminate]|].
  split; [apply pretty_go_digits; reflexivity|]. rewrite pretty_N_go_step by lia.
  generalize (x `div` 10)%N. intros y. generalize (pretty_N_char (x `mod` 10)). intros c.
  assert (forall z s, s <> EmptyString -> pretty_N_go z s <> EmptyString) as H; [|apply H; discriminate].
  clear. intros z. induction (N.lt_wf_0 z) as [z _ IH]. intros s Hs. destruct (decide (z = 0%N)) as [->|Hne].
  - rewrite pretty_N_go_0. exact Hs.
  - rewrite pretty_N_go_step by lia. apply IH; [apply N.div_lt; lia|discriminate].
Qed.

Lemma parse_usize_pretty (x : N) : Z.of_N x <= u64_max -> parse_usize (pretty x) = Some (Z.of_N x).
Proof.
  intros Hx. destruct (pretty_digits x) as [Hd Hne].
  assert (parse_digits 0 (pretty x) = Some (Z.of_N x)) as Hp.
  { unfold pretty, pretty_N. destruct (decide (x = 0%N)) as [->|]; [reflexivity|]. apply parse_pretty_go, Hx. }
  unfold parse_usize. destruct (pretty x) as [|c s]; [congruence|]. destruct (Ascii.eqb_spec c "+") as [->|].
  - discriminate Hd.
  - exact Hp.
Qed.

Lemma rsplit_digits s : all_digits s = true -> rsplit_once QUEUE_STRIPE_DELIMITER s = None.
Proof.
  induction s as [|c s IH]; simpl; [reflexivity|]. intros [Hc Hs]%andb_true_iff. rewrite IH by exact Hs.
  destruct (Ascii.eqb_spec c QUEUE_STRIPE_DELIMITER) as [->|]; [discriminate Hc|reflexivity].
Qed.

Lemma rsplit_app q s : all_digits s = true ->
  rsplit_once QUEUE_STRIPE_DELIMITER (q +:+ String QUEUE_STRIPE_DELIMITER s) = Some (q, s).
Proof.
  intros Hs. induction q as [|c q IH]; simpl; [rewrite rsplit_digits by exact Hs; reflexivity|].
  change (rsplit_once QUEUE_STRIPE_DELIMITER (q +:+ String QUEUE_STRIPE_DELIMITER s) = Some (q, s)) in IH.
  unfold QUEUE_STRIPE_DELIMITER in *. rewrite IH. reflexivity.
Qed.

Lemma stripe_prefix_physical queue stripe : Z.of_nat stripe <= u64_max ->
  stripe_prefix (physical_queue_for_stripe queue stripe) = Some queue.
Proof.
  intros H. unfold stripe_prefix, physical_queue_for_stripe. rewrite rsplit_app by apply pretty_digits.
  rewrite parse_usize_pretty by lia. reflexivity.
Qed.

Lemma physical_stripe_inj queue i j :
  physical_queue_for_stripe queue i = physical_queue_for_stripe queue j -> i = j.
Proof.
  unfold physical_queue_for_stripe. intros H. apply (inj (String.append queue)) in H. injection H as H.
  apply (inj pretty) in H. lia.
Qed.

(** However a queue is striped, its physical queues are distinct, a job is
    enqueued to one of them, and reading the stripe's name back gives the queue;
    a physical queue is routed to itself and stands for itself, so routing is
    idempotent and claiming over the physical queues of a logical one sees
    every job. *)
Theorem striped_queue_spec (hash : list Z -> Z) (stripe_count : nat) (queue : string)
    (unique_key : option (list Z)) (salt : Z) :
  Z.of_nat stripe_count <= u64_max ->
  let p := queue_stripe_for_enqueue hash stripe_count queue unique_key salt in
  p ∈ physical_queues_for_logical stripe_count queue
  /\ NoDup (physical_queues_for_logical stripe_count queue)
  /\ logical_queue_name stripe_count p = logical_queue_name stripe_count queue
  /\ (is_physical_stripe_queue stripe_count queue = false -> logical_queue_name stripe_count p = queue)
  /\ (forall key salt', queue_stripe_for_enqueue hash stripe_count p key salt' = p)
  /\ physical_queues_for_logical stripe_count p = [p].
Proof.
  intros Hcount p. unfold p, queue_stripe_for_enqueue, physical_queues_for_logical, logical_queue_name, is_physical_stripe_queue.
  destruct (uses_queue_striping stripe_count) eqn:Hs; simpl.
  2: { split_and!; auto; [left|apply NoDup_singleton]. }
  apply Nat.ltb_lt in Hs. destruct (stripe_prefix queue) as [prefix|] eqn:Hpre.
  { rewrite bool_decide_true by eauto. simpl. rewrite Hpre, bool_decide_true by eauto. split_and!; auto; [left|apply NoDup_singleton|].
    intros H. discriminate H. }
  rewrite (bool_decide_false (is_Some None)) by (intros [? H]; discriminate H). simpl.
  set (stripe := match unique_key with Some key => _ | None => _ end).
  assert (0 <= stripe < Z.of_nat stripe_count) as Hb by (unfold stripe, rem_euclid; destruct unique_key; apply Z.mod_pos_bound; lia).
  rewrite stripe_prefix_physical by lia. rewrite bool_decide_true by eauto. simpl. split_and!; auto.
  - apply list_elem_of_In, in_map_iff. exists (Z.to_nat stripe). rewrite in_seq. split; [reflexivity|lia].
  - apply NoDup_ListNoDup, Finite.Injective_map_NoDup_in; [|apply seq_NoDup]. intros i j _ _. apply physical_stripe_inj.
Qed.

Lemma striped_queue_spec_witness :
  let p := queue_stripe_for_enqueue (fun _ => 11) 4 "email" (Some [1; 2]) 0 in
  p = "email#3" /\ logical_queue_name 4 p = "email".
Proof.
  intros p. split; [vm_compute; reflexivity|].
  destruct (striped_queue_spec (fun _ => 11) 4 "email" (Some [1; 2]) 0 ltac:(vm_compute; discriminate)) as (_ & _ & _ & H & _).
  apply H. vm_compute. reflexivity.
Defined.
