(* ===== verification/Rows.v ===== *)
(** The rows of queue storage and their conversions
    (awa-model/src/queue_storage.rs).

    Queue storage keeps a job in the table of its state: [ready_entries],
    [deferred_jobs], [leases] and the claim ledgers, [done_entries],
    [dlq_entries].  The Rust structs of those rows repeat the same fourteen
    columns; they are [Columns] here, which is also the struct
    [ExistingReadyRow], and a row struct is its columns and what it adds. *)

From S2P Require Import Prelude.
From S2P Require Import Error.
From S2P Require Import Json.
From S2P Require Import Job.

(** * Rows *)

Record Columns : Type := mkColumns {
  c_job_id : Z;
  c_kind : string;
  c_queue : string;
  c_args : json;
  c_priority : Z;
  c_attempt : Z;
  c_run_lease : Z;
  c_max_attempts : Z;
  c_run_at : time;
  c_attempted_at : option time;
  c_created_at : time;
  c_unique_key : option (list Z);
  c_unique_states : option string;
  c_payload : json
}.
Abbreviation ExistingReadyRow := Columns (only parsing).

(** Where a row of the ready ring sits: its ring slot and generation, and its
    place in its lane. *)
Record Position : Type := mkPosition {
  ready_slot : Z;
  ready_generation : Z;
  lane_seq : Z;
  enqueue_shard : Z
}.

(** A row of [ready_entries]. *)
Record ReadyTransitionRow : Type := mkReady { rt_pos : Position; rt_columns : Columns }.
Abbreviation ReadyEntry := ReadyTransitionRow (only parsing).

(** A job to enqueue: its id may still have to be drawn, in which case the one
    in the columns is not read. *)
Record RuntimeReadyRow : Type := mkRuntimeReady {
  rr_job_id : option Z;
  rr_columns : Columns;
  rr_ordering_key : option (list Z)
}.

Record RuntimeReadyInsert : Type := mkReadyInsert {
  ri_lane_seq : Z;
  ri_enqueue_shard : Z;
  ri_columns : Columns
}.

Record DeferredJobRow : Type := mkDeferred {
  df_columns : Columns;
  df_state : JobState;
  df_finalized_at : option time
}.

Record DoneJobRow : Type := mkDone {
  dn_pos : Position;
  dn_columns : Columns;
  dn_state : JobState;
  dn_finalized_at : time;
  dn_output : option json
}.

Record DlqJobRow : Type := mkDlq {
  dq_columns : Columns;
  dq_state : JobState;
  dq_finalized_at : time;
  dlq_reason : string;
  dlq_at : time;
  original_run_lease : Z
}.

(** What a deleted lease or a closed receipt returns, before its job is joined
    back ([hydrate_deleted_leases_tx]). *)
Record DeletedLeaseRow : Type := mkDeletedLease {
  dl_pos : Position;
  dl_job_id : Z;
  dl_queue : string;
  dl_state : JobState;
  dl_priority : Z;
  dl_attempt : Z;
  dl_run_lease : Z;
  dl_max_attempts : Z;
  dl_attempted_at : option time
}.

Record AttemptStateRow : Type := mkAttemptState {
  as_job_id : Z;
  as_run_lease : Z;
  as_progress : option json;
  as_callback_filter : option string;
  as_callback_on_complete : option string;
  as_callback_on_fail : option string;
  as_callback_transform : option string;
  as_callback_result : option json
}.

Record LeaseTransitionRow : Type := mkLease {
  lt_pos : Position;
  lt_columns : Columns;
  lt_state : JobState;
  lt_progress : option json
}.

Record LeaseJobRow : Type := mkLeaseJob {
  lj_columns : Columns;
  lj_state : JobState;
  lj_heartbeat_at : option time;
  lj_deadline_at : option time;
  lj_finalized_at : option time;
  lj_callback_id : option Z;
  lj_callback_timeout_at : option time;
  lj_callback_filter : option string;
  lj_callback_on_complete : option string;
  lj_callback_on_fail : option string;
  lj_callback_transform : option string;
  lj_progress : option json;
  lj_callback_result : option json
}.

(** A row returned by [claim_ready_runtime]; [c_priority] is the effective
    (aged) priority, [rl_lane_priority] the lane's. *)
Record ReadyJobLeaseRow : Type := mkReadyLease {
  rl_pos : Position;
  rl_columns : Columns;
  rl_lane_priority : Z;
  rl_lease_slot : Z;
  rl_lease_generation : Z;
  rl_claim_slot : Z;
  rl_receipt_id : option Z;
  rl_claim_batch_id : option Z;
  rl_claim_batch_index : option Z;
  rl_heartbeat_at : option time;
  rl_deadline_at : option time
}.

Record ClaimedEntry : Type := mkClaimedEntry {
  ce_pos : Position;
  ce_queue : string;
  ce_priority : Z;
  ce_lease_slot : Z;
  ce_lease_generation : Z;
  ce_claim_slot : Z;
  ce_receipt_id : option Z;
  ce_claim_batch_id : option Z;
  ce_claim_batch_index : option Z;
  ce_lease_claim_receipt : bool
}.

Record ClaimedRuntimeJob : Type := mkClaimedJob {
  cj_claim : ClaimedEntry;
  cj_job : JobRow;
  cj_unique_states : option string
}.

(** * Column updates *)

Definition with_route (queue : string) (priority : Z) (c : Columns) : Columns :=
  mkColumns (c_job_id c) (c_kind c) queue (c_args c) priority (c_attempt c) (c_run_lease c)
    (c_max_attempts c) (c_run_at c) (c_attempted_at c) (c_created_at c) (c_unique_key c)
    (c_unique_states c) (c_payload c).
Definition with_attempt (attempt : Z) (attempted_at : option time) (c : Columns) : Columns :=
  mkColumns (c_job_id c) (c_kind c) (c_queue c) (c_args c) (c_priority c) attempt (c_run_lease c)
    (c_max_attempts c) (c_run_at c) attempted_at (c_created_at c) (c_unique_key c)
    (c_unique_states c) (c_payload c).
Definition with_run_lease (run_lease : Z) (c : Columns) : Columns :=
  mkColumns (c_job_id c) (c_kind c) (c_queue c) (c_args c) (c_priority c) (c_attempt c) run_lease
    (c_max_attempts c) (c_run_at c) (c_attempted_at c) (c_created_at c) (c_unique_key c)
    (c_unique_states c) (c_payload c).
Definition with_run_at (run_at : time) (c : Columns) : Columns :=
  mkColumns (c_job_id c) (c_kind c) (c_queue c) (c_args c) (c_priority c) (c_attempt c) (c_run_lease c)
    (c_max_attempts c) run_at (c_attempted_at c) (c_created_at c) (c_unique_key c)
    (c_unique_states c) (c_payload c).
Definition with_payload (payload : json) (c : Columns) : Columns :=
  mkColumns (c_job_id c) (c_kind c) (c_queue c) (c_args c) (c_priority c) (c_attempt c) (c_run_lease c)
    (c_max_attempts c) (c_run_at c) (c_attempted_at c) (c_created_at c) (c_unique_key c)
    (c_unique_states c) payload.
Definition with_job_id (job_id : Z) (c : Columns) : Columns :=
  mkColumns job_id (c_kind c) (c_queue c) (c_args c) (c_priority c) (c_attempt c) (c_run_lease c)
    (c_max_attempts c) (c_run_at c) (c_attempted_at c) (c_created_at c) (c_unique_key c)
    (c_unique_states c) (c_payload c).

(** * To [JobRow]

    What the seven [into_job_row] share: the columns, a decoded payload, and
    nothing of a callback. *)
Definition job_row_of (c : Columns) (state : JobState) (payload : RuntimePayload)
    (heartbeat_at deadline_at finalized_at : option time) (output : option json) : JobRow :=
  mkJobRow (c_job_id c) (c_kind c) (c_queue c) (c_args c) state (c_priority c) (c_attempt c)
    (c_run_lease c) (c_max_attempts c) (c_run_at c) heartbeat_at deadline_at (c_attempted_at c)
    finalized_at (c_created_at c) (errors_option payload) (p_metadata payload) (p_tags payload)
    (c_unique_key c) None None None None None None None (p_progress payload) output.

Definition ready_into_job_row (c : Columns) : result AwaError JobRow :=
  let? payload := from_json (c_payload c) in
  Ok (job_row_of c Available payload None None None None).

Definition deferred_into_job_row (r : DeferredJobRow) : result AwaError JobRow :=
  let? payload := from_json (c_payload (df_columns r)) in
  Ok (job_row_of (df_columns r) (df_state r) payload None None (df_finalized_at r) None).

Definition done_into_job_row (r : DoneJobRow) : result AwaError JobRow :=
  let? payload := from_json (c_payload (dn_columns r)) in
  Ok (job_row_of (dn_columns r) (dn_state r) payload None None (Some (dn_finalized_at r)) (dn_output r)).

Definition dlq_into_job_row (r : DlqJobRow) : result AwaError JobRow :=
  let? payload := from_json (c_payload (dq_columns r)) in
  Ok (job_row_of (dq_columns r) (dq_state r) payload None None (Some (dq_finalized_at r)) None).

Definition METADATA_MUST_BE_OBJECT : AwaError :=
  Validation "queue storage payload metadata must be a JSON object".

(** [as_object_mut], then [entry(key).or_insert_with]. *)
Definition entry_or_insert (key : string) (v : json) (p : RuntimePayload) : result AwaError RuntimePayload :=
  match p_metadata p with
  | JObject m =>
      Ok {| p_metadata := JObject (if map_contains_key key m then m else map_insert key v m);
            p_tags := p_tags p; p_errors := p_errors p; p_progress := p_progress p |}
  | _ => Err METADATA_MUST_BE_OBJECT
  end.

Definition lease_row_into_job_row (r : ReadyJobLeaseRow) : result AwaError JobRow :=
  let c := rl_columns r in
  let? payload := from_json (c_payload c) in
  let? payload :=
    if c_priority c <? rl_lane_priority r
    then entry_or_insert "_awa_original_priority" (i64_number (rl_lane_priority r)) payload
    else Ok payload in
  Ok (job_row_of c Running payload (rl_heartbeat_at r) (rl_deadline_at r) None None).

Definition claim_ref (lease_claim_receipt : bool) (r : ReadyJobLeaseRow) : ClaimedEntry :=
  mkClaimedEntry (rl_pos r) (c_queue (rl_columns r)) (rl_lane_priority r) (rl_lease_slot r)
    (rl_lease_generation r) (rl_claim_slot r) (rl_receipt_id r) (rl_claim_batch_id r)
    (rl_claim_batch_index r) lease_claim_receipt.

Definition into_claimed_runtime_job (lease_claim_receipt : bool) (r : ReadyJobLeaseRow)
    : result AwaError ClaimedRuntimeJob :=
  let? job := lease_row_into_job_row r in
  Ok (mkClaimedJob (claim_ref lease_claim_receipt r) job (c_unique_states (rl_columns r))).

(** * Payloads *)

Definition set_progress_opt (progress : option json) (p : RuntimePayload) : RuntimePayload :=
  match progress with Some _ => Json.set_progress progress p | None => p end.

(** [insert_callback_result] panics on metadata that is no object, which
    [from_json] has excluded. *)
Definition materialize_runtime_payload (payload : json) (progress callback_result : option json)
    : result AwaError RuntimePayload :=
  let? payload := from_json payload in
  let payload := set_progress_opt progress payload in
  match callback_result with
  | Some v => from_option Ok (Err METADATA_MUST_BE_OBJECT) (insert_callback_result (Some v) payload)
  | None => Ok payload
  end.

Definition payload_with_attempt_state (payload : json) (progress : option json) : result AwaError json :=
  let? payload := from_json payload in
  Ok (into_json (set_progress_opt progress payload)).

Definition payload_from_parts (metadata : json) (tags : list string) (errors : option (list json))
    (progress : option json) : json :=
  into_json {| p_metadata := metadata; p_tags := tags; p_errors := default [] errors; p_progress := progress |}.

Definition lease_into_job_row (r : LeaseJobRow) : result AwaError JobRow :=
  let c := lj_columns r in
  let? payload := materialize_runtime_payload (c_payload c) (lj_progress r) (lj_callback_result r) in
  Ok (mkJobRow (c_job_id c) (c_kind c) (c_queue c) (c_args c) (lj_state r) (c_priority c) (c_attempt c)
        (c_run_lease c) (c_max_attempts c) (c_run_at c) (lj_heartbeat_at r) (lj_deadline_at r)
        (c_attempted_at c) (lj_finalized_at r) (c_created_at c) (errors_option payload)
        (p_metadata payload) (p_tags payload) (c_unique_key c) None (lj_callback_id r)
        (lj_callback_timeout_at r) (lj_callback_filter r) (lj_callback_on_complete r)
        (lj_callback_on_fail r) (lj_callback_transform r) (p_progress payload) None).

(** * From one table to another *)

Definition into_existing_ready_row (queue : string) (priority : Z) (payload : json)
    (r : ReadyTransitionRow) : ExistingReadyRow :=
  with_payload payload (with_route queue priority (rt_columns r)).

Definition ready_into_done_row (state : JobState) (finalized_at : time) (payload : json)
    (r : ReadyTransitionRow) : DoneJobRow :=
  mkDone (rt_pos r) (with_payload payload (rt_columns r)) state finalized_at None.

Definition lease_into_done_row (state : JobState) (finalized_at : time) (payload : json)
    (r : LeaseTransitionRow) : DoneJobRow :=
  mkDone (lt_pos r) (with_payload payload (lt_columns r)) state finalized_at None.

Definition lease_into_deferred_row (state : JobState) (run_at : time) (finalized_at : option time)
    (payload : json) (r : LeaseTransitionRow) : DeferredJobRow :=
  mkDeferred (with_payload payload (with_run_at run_at (lt_columns r))) state finalized_at.

Definition lease_into_ready_row (run_at : time) (payload : json) (r : LeaseTransitionRow) : ExistingReadyRow :=
  with_payload payload (with_run_at run_at (lt_columns r)).

Definition lease_into_dlq_row (finalized_at : time) (payload : json) (reason : string) (at_ : time)
    (r : LeaseTransitionRow) : DlqJobRow :=
  mkDlq (with_payload payload (lt_columns r)) Failed finalized_at reason at_ (c_run_lease (lt_columns r)).

Definition done_into_dlq_row (reason : string) (at_ : time) (r : DoneJobRow) : DlqJobRow :=
  mkDlq (dn_columns r) (dn_state r) (dn_finalized_at r) reason at_ (c_run_lease (dn_columns r)).

Definition into_retry_ready_row (queue : string) (priority : Z) (run_at : time) (payload : json)
    (r : DlqJobRow) : ExistingReadyRow :=
  with_payload payload (with_run_at run_at (with_attempt 0 None (with_route queue priority (dq_columns r)))).

Definition into_retry_deferred_row (queue : string) (priority : Z) (run_at : time) (payload : json)
    (r : DlqJobRow) : DeferredJobRow :=
  mkDeferred (into_retry_ready_row queue priority run_at payload r) Scheduled None.

(** [ClaimedRuntimeJob::into_done_row]. *)
Definition claimed_into_done_row (finalized_at : time) (r : ClaimedRuntimeJob) : DoneJobRow :=
  let j := cj_job r in
  mkDone (ce_pos (cj_claim r))
    (mkColumns (j_id j) (j_kind j) (j_queue j) (j_args j) (ce_priority (cj_claim r)) (j_attempt j)
       (j_run_lease j) (j_max_attempts j) (j_run_at j) (j_attempted_at j) (j_created_at j)
       (j_unique_key j) (cj_unique_states r)
       (payload_from_parts (j_metadata j) (j_tags j) (j_errors j) None))
    Completed finalized_at (j_output j).
