(* ===== verification/Lanes.v ===== *)
(** The lanes of queue storage: how a ready job gets its place, and how claims
    walk a lane (awa-model/src/queue_storage.rs and
    v023_install_queue_storage_substrate.sql).

    A lane is a queue, a priority and an enqueue shard.  A producer reserves
    lane sequence numbers, inserts its rows into the slot the queue ring points
    at and records segments of consecutive rows.  A claim resolves the lane's
    next segment from the claim cursor, catches the cursor up over committed
    claims, and takes rows of one slot; what it took is recorded in an attempt
    batch.  The cursor is a Postgres sequence: its moves are not undone when the
    transaction aborts, which is what the protocol is about.

    [Store] holds the committed tables and the sequences, [Sys] adds the open
    transactions.  Claims are those of a store with lease-claim receipts, the
    default; the statement's checks for the other mode are left out.  Statements
    run at READ COMMITTED: each sees what is committed when it starts, the
    writers' own rows included. *)

From S2P Require Import Prelude.
From S2P Require Import Error.
From S2P Require Import F64.
From S2P Require Import Json.
From S2P Require Import Job.
From S2P Require Import Routing.
From S2P Require Import Rows.

(** * Sequences

    [sequence_next_value], [set_sequence_next] and [nextval]. *)
Record Sequence : Type := mkSequence { last_value : Z; is_called : bool }.
Definition new_sequence : Sequence := mkSequence 1 false.

Definition sequence_next_value (s : Sequence) : Z :=
  if is_called s then last_value s + 1 else last_value s.
Definition set_sequence_next (p_next : Z) (s : Sequence) : Sequence :=
  let p_next := Z.max p_next (sequence_next_value s) in
  if p_next <=? 1 then mkSequence 1 false else mkSequence (p_next - 1) true.
Definition nextval (s : Sequence) : Z * Sequence :=
  let v := sequence_next_value s in (v, mkSequence v true).

(** [reserve_enqueue_seq], the lane's lock held. *)
Definition reserve_enqueue_seq (p_count : Z) (s : Sequence) : Z * Sequence :=
  if p_count <=? 0 then (sequence_next_value s, s)
  else
    let '(v_start, s) := nextval s in
    (v_start, if 1 <? p_count then mkSequence (v_start + p_count - 1) true else s).

(** * Tables *)

Abbreviation LaneKey := (string * Z * Z)%type (only parsing).
Abbreviation RingCursor := (Z * Z)%type (only parsing).

Definition lane_of (r : ReadyEntry) : LaneKey :=
  (c_queue (rt_columns r), c_priority (rt_columns r), enqueue_shard (rt_pos r)).
Definition ring_of (r : ReadyEntry) : RingCursor := (ready_slot (rt_pos r), ready_generation (rt_pos r)).
Definition seq_of (r : ReadyEntry) : Z := lane_seq (rt_pos r).
Definition run_at_of (r : ReadyEntry) : time := c_run_at (rt_columns r).

Record ReadySegment : Type := mkSegment {
  sg_ring : RingCursor;
  sg_lane : LaneKey;
  first_lane_seq : Z;
  next_lane_seq : Z;
  first_run_at : time
}.

Record Tombstone : Type := mkTombstone {
  tb_ring : RingCursor;
  tb_lane : LaneKey;
  tb_seq : Z;
  tb_job : Z
}.

(** [lane_ranges] by its members. *)
Record AttemptBatch : Type := mkAttemptBatch {
  ab_ring : RingCursor;
  ab_lane : LaneKey;
  ab_claim_slot : Z;
  ab_first : Z;
  ab_next : Z;
  ab_count : Z;
  lane_ranges : list Z;
  ab_claimed_at : time
}.

(** One job of a [lease_claim_batches] row, across its arrays. *)
Record ClaimItem : Type := mkClaimItem {
  ci_job_id : Z;
  ci_run_lease : Z;
  ci_receipt_id : Z;
  ci_lane_seq : Z;
  ci_attempt : Z;
  ci_max_attempts : Z
}.
Record ClaimBatch : Type := mkClaimBatch {
  cb_claim_slot : Z;
  cb_batch_id : Z;
  cb_ring : RingCursor;
  cb_queue : string;
  cb_priority : Z;
  cb_shard : Z;
  cb_items : list ClaimItem;
  cb_deadline_at : option time;
  cb_claimed_at : time
}.

Record Tables : Type := mkTables {
  ready_entries : list ReadyEntry;
  ready_segments : list ReadySegment;
  ready_tombstones : list Tombstone;
  attempt_batches : list AttemptBatch;
  claim_batches : list ClaimBatch
}.
Definition no_tables : Tables := mkTables [] [] [] [] [].
Definition tables_app (t u : Tables) : Tables :=
  mkTables (ready_entries t ++ ready_entries u) (ready_segments t ++ ready_segments u)
    (ready_tombstones t ++ ready_tombstones u) (attempt_batches t ++ attempt_batches u)
    (claim_batches t ++ claim_batches u).

(** * Enqueue *)

(** [ready_segments_from_rows]: maximal runs of consecutive rows of a lane with
    one [run_at].  [open] is the run under way: its first and last row. *)
Definition ri_lane (r : RuntimeReadyInsert) : LaneKey :=
  (c_queue (ri_columns r), c_priority (ri_columns r), ri_enqueue_shard r).
Definition splits (previous current : RuntimeReadyInsert) : bool :=
  negb (bool_decide (c_queue (ri_columns previous) = c_queue (ri_columns current)))
  || negb (c_priority (ri_columns previous) =? c_priority (ri_columns current))
  || negb (ri_enqueue_shard previous =? ri_enqueue_shard current)
  || negb (ri_lane_seq previous + 1 =? ri_lane_seq current)
  || negb (c_run_at (ri_columns previous) =? c_run_at (ri_columns current)).
Definition segment_of (ring : RingCursor) (first last : RuntimeReadyInsert) : ReadySegment :=
  mkSegment ring (ri_lane first) (ri_lane_seq first) (ri_lane_seq last + 1) (c_run_at (ri_columns first)).
Fixpoint segments_from (ring : RingCursor) (first last : RuntimeReadyInsert) (rows : list RuntimeReadyInsert)
    : list ReadySegment :=
  match rows with
  | [] => [segment_of ring first last]
  | r :: rows => if splits last r then segment_of ring first last :: segments_from ring r r rows
                 else segments_from ring first r rows
  end.
Definition ready_segments_from_rows (ring : RingCursor) (rows : list RuntimeReadyInsert) : list ReadySegment :=
  match rows with
  | [] => []
  | r :: rows => segments_from ring r r rows
  end.

(** A row as [execute_ready_inserts_tx] (or the COPY path) stores it. *)
Definition ready_entry (ring : RingCursor) (r : RuntimeReadyInsert) : ReadyEntry :=
  mkReady (mkPosition (fst ring) (snd ring) (ri_lane_seq r) (ri_enqueue_shard r)) (ri_columns r).

(** A [BTreeMap] by lane, as the list of its entries in order. *)
Definition string_ltb (a b : string) : bool := match String.compare a b with Lt => true | _ => false end.
Definition lane_ltb (a b : LaneKey) : bool :=
  let '(q, p, s) := a in let '(q', p', s') := b in
  string_ltb q q' || (String.eqb q q' && ((p <? p') || ((p =? p') && (s <? s')))).
Fixpoint push_entry {A} (lane : LaneKey) (rows : list A) (m : list (LaneKey * list A)) : list (LaneKey * list A) :=
  match m with
  | [] => [(lane, rows)]
  | (lane', rows') :: m' =>
      if lane_ltb lane lane' then (lane, rows) :: m
      else if lane_ltb lane' lane then (lane', rows') :: push_entry lane rows m'
      else (lane', rows' ++ rows) :: m'
  end.

(** [group_ready_rows_by_shard]: by queue and priority first; keyed rows by
    their key's shard, the others of a bucket together by one rotor pick. *)
Definition rr_route (r : RuntimeReadyRow) : LaneKey := (c_queue (rr_columns r), c_priority (rr_columns r), 0).
Definition bucket_by_route (rows : list RuntimeReadyRow) : list (LaneKey * list RuntimeReadyRow) :=
  fold_left (fun m r => push_entry (rr_route r) [r] m) rows [].
Fixpoint push_keyed (shards : Z) (lane : LaneKey) (rows : list RuntimeReadyRow)
    (m : list (LaneKey * list RuntimeReadyRow)) : list (LaneKey * list RuntimeReadyRow) :=
  match rows with
  | [] => m
  | r :: rows =>
      match rr_ordering_key r with
      | Some key => push_keyed shards lane rows (push_entry (fst lane, fst (pick_shard shards (Some key) 0)) [r] m)
      | None => push_keyed shards lane rows m
      end
  end.
Definition is_rotor_row (r : RuntimeReadyRow) : bool :=
  match rr_ordering_key r with None => true | Some _ => false end.
Definition push_bucket (shards_of : string -> Z) (acc : list (LaneKey * list RuntimeReadyRow) * Z)
    (bucket : LaneKey * list RuntimeReadyRow) : list (LaneKey * list RuntimeReadyRow) * Z :=
  let '(m, rotor) := acc in
  let '(lane, rows) := bucket in
  let shards := shards_of (fst (fst lane)) in
  let m := push_keyed shards lane rows m in
  match List.filter is_rotor_row rows with
  | [] => (m, rotor)
  | rotor_rows => let '(shard, rotor) := pick_shard shards None rotor in
                  (push_entry (fst lane, shard) rotor_rows m, rotor)
  end.
Definition group_ready_rows_by_shard (shards_of : string -> Z) (rotor : Z) (rows : list RuntimeReadyRow)
    : list (LaneKey * list RuntimeReadyRow) * Z :=
  fold_left (push_bucket shards_of) (bucket_by_route rows) ([], rotor).

(** The drawn ids, in the order of the grouped rows. *)
Fixpoint assign_ids (rows : list RuntimeReadyRow) (ids : list Z) : result AwaError (list Columns * list Z) :=
  match rows with
  | [] => Ok ([], ids)
  | r :: rows =>
      let? (id, ids) := match rr_job_id r, ids with
                        | Some id, _ => Ok (id, ids)
                        | None, id :: ids => Ok (id, ids)
                        | None, [] => Err (Validation "queue storage job id allocation underflow")
                        end in
      let? (cs, ids) := assign_ids rows ids in
      Ok (with_job_id id (rr_columns r) :: cs, ids)
  end.
Fixpoint assign_lane_ids (grouped : list (LaneKey * list RuntimeReadyRow)) (ids : list Z)
    : result AwaError (list (LaneKey * list Columns)) :=
  match grouped with
  | [] => Ok []
  | (lane, rows) :: grouped =>
      let? (cs, ids) := assign_ids rows ids in
      let? grouped := assign_lane_ids grouped ids in
      Ok ((lane, cs) :: grouped)
  end.

(** [insert_existing_ready_rows_tx] groups by queue and priority and picks one
    shard for each. *)
Definition group_existing (shards_of : string -> Z) (rotor : Z) (rows : list ExistingReadyRow)
    : list (LaneKey * list Columns) * Z :=
  let buckets := fold_left (fun m c => push_entry (c_queue c, c_priority c, 0) [c] m) rows [] in
  fold_left (fun acc bucket =>
               let '(m, rotor) := (acc : list (LaneKey * list Columns) * Z) in
               let '(lane, cs) := (bucket : LaneKey * list Columns) in
               let '(shard, rotor) := pick_shard (shards_of (fst (fst lane))) None rotor in
               (m ++ [((fst lane, shard), cs)], rotor)) buckets ([], rotor).

(** [advance_enqueue_head] for each lane in turn; a lane not seen before starts
    a new sequence ([ensure_lane]). *)
Abbreviation sequences := (gmap LaneKey Sequence) (only parsing).
Definition seq_at (lane : LaneKey) (m : sequences) : Sequence := default new_sequence (m !! lane).
Definition place_lane (lane : LaneKey) (start : Z) (cs : list Columns) : list RuntimeReadyInsert :=
  imap (fun i c => mkReadyInsert (start + Z.of_nat i) (snd lane) c) cs.
Fixpoint reserve_lanes (grouped : list (LaneKey * list Columns)) (m : sequences)
    : list RuntimeReadyInsert * sequences :=
  match grouped with
  | [] => ([], m)
  | (lane, cs) :: grouped =>
      let '(start, s) := reserve_enqueue_seq (Z.of_nat (length cs)) (seq_at lane m) in
      let '(rows, m) := reserve_lanes grouped (<[lane := s]> m) in
      (place_lane lane start cs ++ rows, m)
  end.

(** * The store

    The committed tables, the sequences, the registry of lanes, the queue ring's
    cursor, paused queues and the counters of receipts and claim batches. *)
Record Store : Type := mkStore {
  tables : Tables;
  enqueue_seqs : sequences;
  claim_seqs : sequences;
  claim_heads : list LaneKey;
  queue_ring : RingCursor;
  paused : string -> bool;
  next_receipt : Z;
  next_batch : Z
}.
Definition set_tables (t : Tables) (s : Store) : Store :=
  mkStore t (enqueue_seqs s) (claim_seqs s) (claim_heads s) (queue_ring s) (paused s) (next_receipt s) (next_batch s).
Definition set_enqueue_seqs (m : sequences) (s : Store) : Store :=
  mkStore (tables s) m (claim_seqs s) (claim_heads s) (queue_ring s) (paused s) (next_receipt s) (next_batch s).
Definition set_claim_seq (lane : LaneKey) (q : Sequence) (s : Store) : Store :=
  mkStore (tables s) (enqueue_seqs s) (<[lane := q]> (claim_seqs s)) (claim_heads s) (queue_ring s) (paused s)
    (next_receipt s) (next_batch s).
Definition set_queue_ring (ring : RingCursor) (s : Store) : Store :=
  mkStore (tables s) (enqueue_seqs s) (claim_seqs s) (claim_heads s) ring (paused s) (next_receipt s) (next_batch s).
Definition draw_ids (receipts batches : Z) (s : Store) : Store :=
  mkStore (tables s) (enqueue_seqs s) (claim_seqs s) (claim_heads s) (queue_ring s) (paused s)
    (next_receipt s + receipts) (next_batch s + batches).

Definition claim_cursor (s : Store) (lane : LaneKey) : Z := sequence_next_value (seq_at lane (claim_seqs s)).
Definition enqueue_cursor (s : Store) (lane : LaneKey) : Z := sequence_next_value (seq_at lane (enqueue_seqs s)).

(** [ensure_lane]: the head rows exist; registering them at once rather than at
    commit only adds a lane without segments. *)
Definition ensure_lane (lane : LaneKey) (s : Store) : Store :=
  if bool_decide (lane ∈ claim_heads s) then s
  else mkStore (tables s) (enqueue_seqs s) (claim_seqs s) (claim_heads s ++ [lane]) (queue_ring s) (paused s)
         (next_receipt s) (next_batch s).

(** From the reservations on: lane numbers, then the ring's cursor, the rows
    and their segments. *)
Definition insert_grouped_rows (grouped : list (LaneKey * list Columns)) (s : Store) : Tables * Store :=
  let s := fold_left (fun s lane => ensure_lane lane s) (map fst grouped) s in
  let '(rows, m) := reserve_lanes grouped (enqueue_seqs s) in
  let s := set_enqueue_seqs m s in
  let ring := queue_ring s in
  (mkTables (map (ready_entry ring) rows) (ready_segments_from_rows ring rows) [] [] [], s).

(** What [insert_ready_rows_tx] and [insert_existing_ready_rows_tx] do beside
    the rows' unique claims. *)
Definition place_ready_rows (shards_of : string -> Z) (rotor : Z) (ids : list Z) (rows : list RuntimeReadyRow)
    (s : Store) : result AwaError (Tables * Store) :=
  let '(grouped, _) := group_ready_rows_by_shard shards_of rotor rows in
  let? grouped := assign_lane_ids grouped ids in
  Ok (insert_grouped_rows grouped s).
Definition place_existing_ready_rows (shards_of : string -> Z) (rotor : Z) (rows : list ExistingReadyRow)
    (s : Store) : Tables * Store :=
  insert_grouped_rows (fst (group_existing shards_of rotor rows)) s.

(** * Claim *)

(** The parameters of [claim_ready_runtime] and the cursors and clock it reads;
    the deadline is the interval [make_interval] gives, zero for none.  One
    reading of the clock stands for those of a call. *)
Record ClaimEnv : Type := mkClaimEnv {
  clock_timestamp : time;
  p_max_batch : Z;
  p_deadline : Z;
  p_aging_secs : f64;
  lease_ring : RingCursor;
  claim_ring_slot : Z
}.

(** [EXTRACT(EPOCH FROM interval)] as a double, and the cast of a floored double
    to [smallint], which raises out of range. *)
Definition epoch (interval : Z) : f64 := f64_div (as_f64 interval) (as_f64 us_per_sec).
Definition whole (x : f64) : option Z :=
  match x with
  | SpecFloat.S754_zero _ => Some 0
  | SpecFloat.S754_finite s m e =>
      Some (SpecFloat.cond_Zopp s (if 0 <=? e then Zpos m * 2 ^ e else Zpos m / 2 ^ (- e)))
  | _ => None
  end.
Definition SMALLINT_OUT_OF_RANGE : AwaError := Database (SqlxDatabase (Some "22003") None).
Definition smallint (n : Z) : result AwaError Z :=
  if (- 2 ^ 15 <=? n) && (n <? 2 ^ 15) then Ok n else Err SMALLINT_OUT_OF_RANGE.
Definition floor_smallint (x : f64) : result AwaError Z :=
  match whole (f64_floor x) with
  | Some n => smallint n
  | None => Err SMALLINT_OUT_OF_RANGE
  end.
Definition f64_pos (x : f64) : bool := negb (f64_le x (as_f64 0)) && f64_le x x.

Definition effective_priority (env : ClaimEnv) (priority : Z) (run_at : time) : result AwaError Z :=
  if f64_pos (p_aging_secs env) then
    let? n := floor_smallint (f64_div (epoch (clock_timestamp env - run_at)) (p_aging_secs env)) in
    let? p := smallint (priority - n) in
    Ok (Z.max 1 p)
  else Ok priority.

(** The lane's next segment: the smallest [next_lane_seq] beyond the cursor. *)
Definition segment_le (a b : ReadySegment) : Prop := next_lane_seq a <= next_lane_seq b.
#[global] Instance segment_le_dec : RelDecision segment_le := fun a b => Z_le_dec _ _.
Definition first_segment (t : Tables) (lane : LaneKey) (cursor : Z) : option ReadySegment :=
  head (merge_sort segment_le
          (List.filter (fun g => bool_decide (sg_lane g = lane) && (cursor <? next_lane_seq g)) (ready_segments t))).

(** Routing: the queue's lanes with unclaimed numbers by aged priority, run-at
    and priority, lanes without a segment last; the first whose head row is not
    locked. *)
Record Candidate : Type := mkCandidate { cd_lane : LaneKey; cd_key : option (Z * Z) }.
Definition candidate_le (a b : Candidate) : Prop :=
  match cd_key a, cd_key b with
  | Some (p, run_at), Some (p', run_at') =>
      p < p' \/ p = p' /\ (run_at < run_at' \/ run_at = run_at' /\ snd (fst (cd_lane a)) <= snd (fst (cd_lane b)))
  | Some _, None => True
  | None, Some _ => False
  | None, None => snd (fst (cd_lane a)) <= snd (fst (cd_lane b))
  end.
#[global] Instance candidate_le_dec : RelDecision candidate_le.
Proof. intros [la [[p1 r1]|]] [lb [[p2 r2]|]]; unfold candidate_le; simpl; solve_decision. Defined.

Definition candidate (env : ClaimEnv) (s : Store) (lane : LaneKey) : result AwaError Candidate :=
  match first_segment (tables s) lane (claim_cursor s lane) with
  | Some g => let? p := effective_priority env (snd (fst lane)) (first_run_at g) in
              Ok (mkCandidate lane (Some (p, first_run_at g)))
  | None => Ok (mkCandidate lane None)
  end.
Fixpoint all_ok {A B} (f : A -> result AwaError B) (l : list A) : result AwaError (list B) :=
  match l with
  | [] => Ok []
  | x :: l => let? y := f x in let? ys := all_ok f l in Ok (y :: ys)
  end.
Definition routable (s : Store) (queue : string) (lane : LaneKey) : bool :=
  bool_decide (fst (fst lane) = queue) && negb (paused s queue) && (claim_cursor s lane <? enqueue_cursor s lane).
Definition route (env : ClaimEnv) (locked : LaneKey -> bool) (queue : string) (s : Store)
    : result AwaError (option LaneKey) :=
  let? cs := all_ok (candidate env s) (List.filter (routable s queue) (claim_heads s)) in
  Ok (cd_lane <$> List.find (fun c => negb (locked (cd_lane c))) (merge_sort candidate_le cs)).

(** Rows of one slot of a lane from the cursor on, in order. *)
Definition seq_le (a b : ReadyEntry) : Prop := seq_of a <= seq_of b.
#[global] Instance seq_le_dec : RelDecision seq_le := fun a b => Z_le_dec _ _.
Definition rows_from (t : Tables) (lane : LaneKey) (ring : RingCursor) (cursor : Z) : list ReadyEntry :=
  merge_sort seq_le
    (List.filter (fun r => bool_decide (lane_of r = lane) && bool_decide (ring_of r = ring) && (cursor <=? seq_of r))
       (ready_entries t)).

Definition tombstoned (t : Tables) (r : ReadyEntry) : bool :=
  existsb (fun b => bool_decide (tb_ring b = ring_of r) && bool_decide (tb_lane b = lane_of r) && (tb_seq b =? seq_of r))
    (ready_tombstones t).
Definition in_ranges (s : Z) (b : AttemptBatch) : bool :=
  (ab_first b <=? s) && (s <? ab_next b) && existsb (Z.eqb s) (lane_ranges b).
Definition attempted_at (t : Tables) (ring : RingCursor) (lane : LaneKey) (s : Z) : bool :=
  existsb (fun b => bool_decide (ab_ring b = ring) && bool_decide (ab_lane b = lane) && in_ranges s b)
    (attempt_batches t).
Definition attempted (t : Tables) (r : ReadyEntry) : bool := attempted_at t (ring_of r) (lane_of r) (seq_of r).
Definition spent (t : Tables) (r : ReadyEntry) : bool := tombstoned t r || attempted t r.


(** The claims already committed in the slot beyond the cursor. *)
Definition evidence_next (t : Tables) (lane : LaneKey) (ring : RingCursor) (cursor : Z) : option Z :=
  max_of (map ab_next
    (List.filter (fun b => bool_decide (ab_ring b = ring) && bool_decide (ab_lane b = lane) && (cursor <? ab_next b))
       (attempt_batches t))).

(** The end of the run of spent rows that starts at the cursor: rows numbered
    among the spent ones, in the group of the cursor. *)
Definition spent_prefix (t : Tables) (cursor : Z) (selected : list ReadyEntry) : option Z :=
  let numbered := imap (fun i r => (seq_of r, seq_of r - (Z.of_nat i + 1))) (List.filter (spent t) selected) in
  (fun m => m + 1) <$> max_of (map fst (List.filter (fun x => snd x =? cursor - 1) numbered)).

(** What a claim wrote and returned. *)
Record Claimed : Type := mkClaimed {
  cl_attempts : AttemptBatch;
  cl_batches : list ClaimBatch;
  cl_rows : list ReadyJobLeaseRow
}.

(** A claimed row with its effective priority and its receipt. *)
Definition claim_item (receipt : Z) (r : ReadyEntry) : ClaimItem :=
  let c := rt_columns r in
  mkClaimItem (c_job_id c) (c_run_lease c + 1) receipt (seq_of r) (c_attempt c + 1) (c_max_attempts c).
Definition with_receipts (base : Z) (rows : list (ReadyEntry * Z)) : list (ClaimItem * ReadyEntry * Z) :=
  imap (fun i rp => (claim_item (base + Z.of_nat i) (fst rp), fst rp, snd rp)) rows.

(** [compact_claim_batches]: one batch for each effective priority. *)
Definition claim_groups (items : list (ClaimItem * ReadyEntry * Z)) : list Z :=
  remove_dups (map snd items).
Definition deadline_at (env : ClaimEnv) : option time :=
  if 0 <? p_deadline env then Some (clock_timestamp env + p_deadline env) else None.
Definition claim_batch_of (env : ClaimEnv) (lane : LaneKey) (ring : RingCursor)
    (items : list (ClaimItem * ReadyEntry * Z)) (id p : Z) : ClaimBatch :=
  mkClaimBatch (claim_ring_slot env) id ring (fst (fst lane)) p (snd lane)
    (map (fun x => fst (fst x)) (List.filter (fun x => snd x =? p) items)) (deadline_at env) (clock_timestamp env).

(** A returned row: its batch's id and its place in the batch. *)
Definition claimed_row (env : ClaimEnv) (lane : LaneKey) (batches : list ClaimBatch)
    (x : ClaimItem * ReadyEntry * Z) : ReadyJobLeaseRow :=
  let '(item, r, p) := x in
  let batch := List.find (fun b => cb_priority b =? p) batches in
  let at_ := if 0 <? p_deadline env then Some (clock_timestamp env) else None in
  let c := rt_columns r in
  mkReadyLease (rt_pos r)
    (mkColumns (c_job_id c) (c_kind c) (c_queue c) (c_args c) p (ci_attempt item) (ci_run_lease item)
       (c_max_attempts c) (c_run_at c) at_ (c_created_at c) (c_unique_key c) (c_unique_states c) (c_payload c))
    (c_priority c) (fst (lease_ring env)) (snd (lease_ring env)) (claim_ring_slot env)
    (Some (ci_receipt_id item)) (cb_batch_id <$> batch)
    ((fun b => Z.of_nat (length (List.filter (fun i => ci_lane_seq i <=? ci_lane_seq item) (cb_items b)))) <$> batch)
    at_ (deadline_at env).

(** [claim_ready_slot_N] on the selected rows; the statement raises when a
    row's effective priority does. *)
Definition claim_ready_slot (env : ClaimEnv) (t : Tables) (lane : LaneKey) (ring : RingCursor)
    (receipt batch : Z) (selected : list ReadyEntry) : result AwaError (option Claimed) :=
  let? aged := all_ok (fun r => let? p := effective_priority env (c_priority (rt_columns r)) (run_at_of r) in Ok (r, p))
                 selected in
  let rows := List.filter (fun rp => negb (tombstoned t (fst rp))) aged in
  match rows with
  | [] => Ok None
  | (r, _) :: _ =>
      let seqs := map (fun rp => seq_of (fst rp)) rows in
      let items := with_receipts receipt rows in
      let batches := imap (fun i p => claim_batch_of env lane ring items (batch + Z.of_nat i) p) (claim_groups items) in
      Ok (Some (mkClaimed
        (mkAttemptBatch ring lane (claim_ring_slot env) (foldr Z.min (seq_of r) seqs)
           (foldr Z.max (seq_of r) seqs + 1) (Z.of_nat (length rows)) seqs (clock_timestamp env))
        batches
        (map (claimed_row env lane batches) items)))
  end.

(** [claim_ready_runtime] on the lane routing picked: the claim cursor's
    sequence as the call leaves it, and what the call returns. *)
Definition claim_ready_lane (env : ClaimEnv) (t : Tables) (lane : LaneKey) (v_lane_next_seq receipt batch : Z)
    (q : Sequence) : Sequence * result AwaError (option Claimed) :=
  let cursor := sequence_next_value q in
  match first_segment t lane cursor with
  | None => (q, Ok None)
  | Some g =>
      let '(q, cursor, target) :=
        match evidence_next t lane (sg_ring g) cursor with
        | Some n => (set_sequence_next n q, n, sg_ring <$> first_segment t lane n)
        | None => (q, cursor, Some (sg_ring g))
        end in
      match target with
      | None => (q, Ok None)
      | Some ring =>
          match head (rows_from t lane ring cursor) with
          | None => (q, Ok None)
          | Some h =>
              let '(q, cursor) :=
                if cursor <? seq_of h then (set_sequence_next (seq_of h) q, seq_of h) else (q, cursor) in
              let v_claim_limit := Z.min (Z.max (v_lane_next_seq - cursor) 0) (p_max_batch env) in
              if v_claim_limit <=? 0 then (q, Ok None)
              else
                let selected := take (Z.to_nat v_claim_limit) (rows_from t lane ring cursor) in
                if spent t h
                then (match spent_prefix t cursor selected with Some n => set_sequence_next n q | None => q end, Ok None)
                else (q, claim_ready_slot env t lane ring receipt batch selected)
          end
      end
  end.

(** The whole call: the moves of the sequence stay whatever comes of it. *)
Definition claim_ready_runtime (env : ClaimEnv) (locked : LaneKey -> bool) (queue : string) (s : Store)
    : result AwaError (option Claimed) * Store :=
  match route env locked queue s with
  | Err e => (Err e, s)
  | Ok None => (Ok None, s)
  | Ok (Some lane) =>
      let '(q, r) := claim_ready_lane env (tables s) lane (enqueue_cursor s lane) (next_receipt s) (next_batch s)
                       (seq_at lane (claim_seqs s)) in
      let s := set_claim_seq lane q s in
      match r with
      | Ok (Some c) => (r, draw_ids (Z.of_nat (length (cl_rows c))) (Z.of_nat (length (cl_batches c))) s)
      | _ => (r, s)
      end
  end.

(** * Advances of the cursor after the commit *)

Record ClaimEvidence : Type := mkEvidence { ev_ring : RingCursor; ev_seq : Z }.
Record ClaimCursorAdvance : Type := mkAdvance {
  adv_lane : LaneKey;
  adv_next : Z;
  only_if_current : option Z;
  evidence : option ClaimEvidence
}.

(** [claim_cursor_advances]: for each lane the row furthest along. *)
Definition rl_lane (r : ReadyJobLeaseRow) : LaneKey :=
  (c_queue (rl_columns r), rl_lane_priority r, enqueue_shard (rl_pos r)).
Definition further (a b : ReadyJobLeaseRow) : ReadyJobLeaseRow :=
  if lane_seq (rl_pos a) <? lane_seq (rl_pos b) then b else a.
Definition last_by_lane (rows : list ReadyJobLeaseRow) : gmap LaneKey ReadyJobLeaseRow :=
  fold_left (fun m r => <[rl_lane r := match m !! rl_lane r with Some c => further c r | None => r end]> m) rows ∅.
Definition advance_of (lane : LaneKey) (r : ReadyJobLeaseRow) : ClaimCursorAdvance :=
  mkAdvance lane (lane_seq (rl_pos r) + 1) None
    (Some (mkEvidence (ready_slot (rl_pos r), ready_generation (rl_pos r)) (lane_seq (rl_pos r)))).
Definition claim_cursor_advances (rows : list ReadyJobLeaseRow) : list ClaimCursorAdvance :=
  map (fun kv => advance_of (fst kv) (snd kv)) (map_to_list (last_by_lane rows)).

(** What a cancel of a ready row asks for. *)
Definition cancel_advance (b : Tombstone) : ClaimCursorAdvance :=
  mkAdvance (tb_lane b) (tb_seq b + 1) (Some (tb_seq b)) None.

(** [normalize_claim_cursor_advances]: for each lane the furthest unconditional
    advance or, without one, the furthest for each condition. *)
Abbreviation Grouped := (option (Z * option ClaimEvidence) * gmap Z Z)%type (only parsing).
Definition group_advance (m : gmap LaneKey Grouped) (a : ClaimCursorAdvance) : gmap LaneKey Grouped :=
  let '(unconditional, conditional) := default (None, ∅) (m !! adv_lane a) in
  let entry :=
    match only_if_current a with
    | Some k => (unconditional,
                 <[k := match conditional !! k with Some n => Z.max n (adv_next a) | None => adv_next a end]> conditional)
    | None =>
        (match unconditional with
         | Some (n, _) => if n <? adv_next a then Some (adv_next a, evidence a) else unconditional
         | None => Some (adv_next a, evidence a)
         end, conditional)
    end in
  <[adv_lane a := entry]> m.
Definition normalized_lane (kv : LaneKey * Grouped) : list ClaimCursorAdvance :=
  match kv with
  | (lane, (Some (n, e), _)) => [mkAdvance lane n None e]
  | (lane, (None, conditional)) => map (fun kn => mkAdvance lane (snd kn) (Some (fst kn)) None) (map_to_list conditional)
  end.
Definition normalize_claim_cursor_advances (advances : list ClaimCursorAdvance) : list ClaimCursorAdvance :=
  concat (map normalized_lane (map_to_list (fold_left group_advance advances ∅))).

(** One statement of [advance_claim_cursors_strict]. *)
Definition advance_applies (s : Store) (a : ClaimCursorAdvance) : bool :=
  match only_if_current a with Some k => claim_cursor s (adv_lane a) =? k | None => true end
  && match evidence a with
     | Some e => attempted_at (tables s) (ev_ring e) (adv_lane a) (ev_seq e)
     | None => true
     end.
Definition advance_claim_cursor (a : ClaimCursorAdvance) (s : Store) : Store :=
  if advance_applies s a
  then set_claim_seq (adv_lane a) (set_sequence_next (adv_next a) (seq_at (adv_lane a) (claim_seqs s))) s
  else s.
Definition advance_claim_cursors_strict (advances : list ClaimCursorAdvance) (s : Store) : Store :=
  fold_left (fun s a => advance_claim_cursor a s) advances s.

(** * Ready rows that leave without a claim *)

(** The target of [cancel_job_tx], [move_ready_batch_fields_tx] and
    [age_waiting_priorities]: a row at or beyond its lane's cursor without a
    tombstone. *)
Definition unclaimed (s : Store) (r : ReadyEntry) : bool :=
  (claim_cursor s (lane_of r) <=? seq_of r) && negb (tombstoned (tables s) r).
Definition seq_ge (a b : ReadyEntry) : Prop := seq_of b <= seq_of a.
#[global] Instance seq_ge_dec : RelDecision seq_ge := fun a b => Z_le_dec _ _.
Definition unclaimed_target (s : Store) (job_id : Z) : option ReadyEntry :=
  head (merge_sort seq_ge
          (List.filter (fun r => (c_job_id (rt_columns r) =? job_id) && unclaimed s r) (ready_entries (tables s)))).
Definition tombstone_of (r : ReadyEntry) : Tombstone :=
  mkTombstone (ring_of r) (lane_of r) (seq_of r) (c_job_id (rt_columns r)).
Definition only_tombstone (r : ReadyEntry) : Tables := mkTables [] [] [tombstone_of r] [] [].

(** [cancel_job_tx], its branch for a ready row: the tombstone, the terminal row
    and the advance to issue after the commit. *)
Definition cancel_ready_tx (now : time) (job_id : Z) (s : Store)
    : option (Tables * DoneJobRow * ClaimCursorAdvance) :=
  match unclaimed_target s job_id with
  | Some r =>
      Some (only_tombstone r, ready_into_done_row Cancelled now (c_payload (rt_columns r)) r, cancel_advance (tombstone_of r))
  | None => None
  end.

(** [move_ready_batch_fields_tx]: a new queue or priority is a tombstone and a
    new row.  [stripe_count] is the store's. *)
Definition stamp_original (queue : option string) (priority : option Z) (old_logical_queue : string) (old_priority : Z)
    (p : RuntimePayload) : result AwaError RuntimePayload :=
  let? p := match queue with
            | Some _ => entry_or_insert "_awa_original_queue" (JString old_logical_queue) p
            | None => Ok p
            end in
  match priority with
  | Some _ => entry_or_insert "_awa_original_priority" (i64_number old_priority) p
  | None => Ok p
  end.
Definition moved_route (logical : string -> string) (stripe : string -> string) (queue : option string)
    (priority : option Z) (r : ReadyEntry) : string * Z :=
  let old_queue := c_queue (rt_columns r) in
  let requested := default old_queue queue in
  (if (match queue with Some _ => true | None => false end)
      && negb (String.eqb requested old_queue) && negb (String.eqb requested (logical old_queue))
   then stripe requested else old_queue,
   default (c_priority (rt_columns r)) priority).
Definition move_ready_batch_fields_tx (shards_of : string -> Z) (rotor : Z)
    (logical : string -> string) (stripe : string -> string) (job_id : Z)
    (queue : option string) (priority : option Z) (s : Store) : result AwaError (option (Tables * Store)) :=
  match unclaimed_target s job_id with
  | None => Ok None
  | Some r =>
      let c := rt_columns r in
      let '(new_queue, new_priority) := moved_route logical stripe queue priority r in
      if String.eqb new_queue (c_queue c) && (new_priority =? c_priority c) then Ok None
      else
        let? payload := from_json (c_payload c) in
        let? payload := stamp_original queue priority (logical (c_queue c)) (c_priority c) payload in
        let row := into_existing_ready_row new_queue new_priority (into_json payload) r in
        let '(t, s) := place_existing_ready_rows shards_of rotor [row] s in
        Ok (Some (tables_app (only_tombstone r) t, s))
  end.

(** * Prune *)

(** [queue_prune_has_pending_ready_tx]. *)
Definition queue_prune_has_pending_ready (s : Store) (ring : RingCursor) : bool :=
  existsb (fun lane => existsb (fun r => bool_decide (ring_of r = ring) && bool_decide (lane_of r = lane)
                                         && (claim_cursor s lane <=? seq_of r)) (ready_entries (tables s)))
    (claim_heads s).
(** The truncation of a slot's children; an initialized slot holds rows of one
    generation. *)
Definition truncate_slot (ring : RingCursor) (t : Tables) : Tables :=
  mkTables (List.filter (fun r => negb (bool_decide (ring_of r = ring))) (ready_entries t))
    (List.filter (fun g => negb (bool_decide (sg_ring g = ring))) (ready_segments t))
    (List.filter (fun b => negb (bool_decide (tb_ring b = ring))) (ready_tombstones t))
    (List.filter (fun b => negb (bool_decide (ab_ring b = ring))) (attempt_batches t))
    (claim_batches t).

(** * Transactions that interleave

    Open writers with what they wrote and the lane locks they hold until they
    end, open claims, and the advances committed transactions have issued: each
    may still run, any number of times, or be lost.  [claim_log] is what claims
    committed have handed out, in order. *)
Record Writer : Type := mkWriter { wr_tables : Tables; wr_lanes : list LaneKey }.
Record Sys : Type := mkSys {
  store : Store;
  writers : gmap Z Writer;
  open_claims : list Claimed;
  issued : list ClaimCursorAdvance;
  claim_log : list ReadyJobLeaseRow
}.
Definition writer (y : Sys) (tx : Z) : Writer := default (mkWriter no_tables []) (writers y !! tx).
(** The lane's advisory lock is free for [tx]. *)
Definition lane_free (y : Sys) (tx : Z) (lane : LaneKey) : Prop :=
  forall tx' w, writers y !! tx' = Some w -> lane ∈ wr_lanes w -> tx' = tx.
Definition claim_locked (y : Sys) (lane : LaneKey) : bool :=
  existsb (fun c => bool_decide (ab_lane (cl_attempts c) = lane)) (open_claims y).
Definition pending (y : Sys) (r : ReadyEntry) : Prop :=
  exists tx w, writers y !! tx = Some w /\ r ∈ ready_entries (wr_tables w).
Definition commit_claim (c : Claimed) : Tables := mkTables [] [] [] [cl_attempts c] (cl_batches c).
(** Each bucket's rows belong to its lane. *)
Definition grouped_ok (grouped : list (LaneKey * list Columns)) : Prop :=
  forall lane cs c, (lane, cs) ∈ grouped -> c ∈ cs -> (c_queue c, c_priority c) = fst lane.

Inductive lane_step : Sys -> Sys -> Prop :=
  | StepInsert y tx grouped t s :
      grouped_ok grouped -> (forall lane, lane ∈ map fst grouped -> lane_free y tx lane) ->
      insert_grouped_rows grouped (store y) = (t, s) ->
      lane_step y (mkSys s (<[tx := mkWriter (tables_app (wr_tables (writer y tx)) t)
                                     (wr_lanes (writer y tx) ++ map fst grouped)]> (writers y))
                     (open_claims y) (issued y) (claim_log y))
  | StepTombstone y tx r :
      r ∈ ready_entries (tables (store y)) -> unclaimed (store y) r = true ->
      lane_step y (mkSys (store y) (<[tx := mkWriter (tables_app (wr_tables (writer y tx)) (only_tombstone r))
                                             (wr_lanes (writer y tx))]> (writers y))
                     (open_claims y) (issued y) (claim_log y))
  | StepCommit y tx w :
      writers y !! tx = Some w ->
      lane_step y (mkSys (set_tables (tables_app (tables (store y)) (wr_tables w)) (store y))
                     (delete tx (writers y)) (open_claims y)
                     (issued y ++ map cancel_advance (ready_tombstones (wr_tables w))) (claim_log y))
  | StepAbort y tx :
      lane_step y (mkSys (store y) (delete tx (writers y)) (open_claims y) (issued y) (claim_log y))
  | StepClaim y env queue res s :
      claim_ready_runtime env (claim_locked y) queue (store y) = (res, s) ->
      lane_step y (mkSys s (writers y)
                     (match res with Ok (Some c) => c :: open_claims y | _ => open_claims y end)
                     (issued y) (claim_log y))
  | StepClaimCommit y before c after :
      open_claims y = before ++ c :: after ->
      lane_step y (mkSys (set_tables (tables_app (tables (store y)) (commit_claim c)) (store y))
                     (writers y) (before ++ after) (issued y ++ claim_cursor_advances (cl_rows c))
                     (claim_log y ++ cl_rows c))
  | StepClaimAbort y before c after :
      open_claims y = before ++ c :: after ->
      lane_step y (mkSys (store y) (writers y) (before ++ after) (issued y) (claim_log y))
  | StepAdvance y advances :
      Forall (fun a => a ∈ issued y) advances ->
      (forall a, a ∈ normalize_claim_cursor_advances advances -> claim_locked y (adv_lane a) = false) ->
      lane_step y (mkSys (advance_claim_cursors_strict (normalize_claim_cursor_advances advances) (store y))
                     (writers y) (open_claims y) (issued y) (claim_log y))
  | StepRotate y slot :
      lane_step y (mkSys (set_queue_ring (slot, snd (queue_ring (store y)) + 1) (store y))
                     (writers y) (open_claims y) (issued y) (claim_log y))
  | StepPrune y ring :
      queue_prune_has_pending_ready (store y) ring = false ->
      snd ring < snd (queue_ring (store y)) ->
      (forall tx w r, writers y !! tx = Some w -> r ∈ ready_entries (wr_tables w) -> ring_of r <> ring) ->
      (forall tx w b, writers y !! tx = Some w -> b ∈ ready_tombstones (wr_tables w) -> tb_ring b <> ring) ->
      (forall c, c ∈ open_claims y -> ab_ring (cl_attempts c) <> ring) ->
      lane_step y (mkSys (set_tables (truncate_slot ring (tables (store y))) (store y))
                     (writers y) (open_claims y) (issued y) (claim_log y))
  | StepPause y p :
      lane_step y (mkSys (mkStore (tables (store y)) (enqueue_seqs (store y)) (claim_seqs (store y))
                            (claim_heads (store y)) (queue_ring (store y)) p (next_receipt (store y))
                            (next_batch (store y)))
                     (writers y) (open_claims y) (issued y) (claim_log y)).

Definition empty_store (ring : RingCursor) : Store :=
  mkStore no_tables ∅ ∅ [] ring (fun _ => false) 1 1.
Definition empty_sys (ring : RingCursor) : Sys := mkSys (empty_store ring) ∅ [] [] [].
Definition lane_reachable (y : Sys) : Prop := exists ring, rtc lane_step (empty_sys ring) y.
