(* ===== verification/LanesFacts.v ===== *)
(** What the lane protocol guarantees, for every interleaving of enqueues,
    claims, aborts, lost advances, cancels, rotations and prunes.

    The invariant [lane_inv] says that every committed row the claim cursor has
    passed is spent (claimed or tombstoned), that rows not yet committed lie
    beyond the cursor, and that claims follow each other in lane order. *)

From S2P Require Import Prelude.
From S2P Require Import Error.
From S2P Require Import F64.
From S2P Require Import Json.
From S2P Require Import Job.
From S2P Require Import Routing.
From S2P Require Import Rows.
From S2P Require Import Lanes.

Create HintDb lanes.

(** * Sequences *)

Lemma next_set_sequence p s :
  1 <= sequence_next_value s -> sequence_next_value (set_sequence_next p s) = Z.max p (sequence_next_value s).
Proof.
  unfold set_sequence_next. intros H. cbv zeta. destruct (_ <=? 1) eqn:Hp; unfold sequence_next_value at 1; simpl; lia.
Qed.

Lemma reserve_start n s : fst (reserve_enqueue_seq n s) = sequence_next_value s.
Proof. unfold reserve_enqueue_seq, nextval. by destruct (n <=? 0). Qed.

Lemma reserve_next n s :
  0 <= n -> sequence_next_value (snd (reserve_enqueue_seq n s)) = sequence_next_value s + n.
Proof.
  intros Hn. unfold reserve_enqueue_seq, nextval. destruct (n <=? 0) eqn:H0; [simpl; lia|].
  destruct (1 <? n) eqn:H1; unfold sequence_next_value at 1; simpl; lia.
Qed.

Lemma seq_at_insert lane q m lane' :
  seq_at lane' (<[lane := q]> m) = if decide (lane = lane') then q else seq_at lane' m.
Proof.
  unfold seq_at. destruct (decide (lane = lane')) as [<-|]; [by rewrite lookup_insert_eq|].
  by rewrite lookup_insert_ne.
Qed.

(** * Sorted lists *)

#[global] Instance seq_le_total : Total seq_le.
Proof. intros a b. unfold seq_le. lia. Qed.
#[global] Instance seq_le_trans : Transitive seq_le.
Proof. intros a b c. unfold seq_le. lia. Qed.
#[global] Instance segment_le_total : Total segment_le.
Proof. intros a b. unfold segment_le. lia. Qed.
#[global] Instance segment_le_trans : Transitive segment_le.
Proof. intros a b c. unfold segment_le. lia. Qed.

(** * Segments *)

(** The segments of a set of rows: each row is in one of its lane and slot, and
    a segment is full. *)
Record segs_ok (rows : list ReadyEntry) (segs : list ReadySegment) : Prop := {
  sg_cover : forall r, r ∈ rows -> exists g, g ∈ segs /\ sg_lane g = lane_of r /\ sg_ring g = ring_of r
               /\ first_lane_seq g <= seq_of r < next_lane_seq g;
  sg_solid : forall g n, g ∈ segs -> first_lane_seq g <= n < next_lane_seq g ->
               exists r, r ∈ rows /\ lane_of r = sg_lane g /\ ring_of r = sg_ring g /\ seq_of r = n;
  sg_nonempty : forall g, g ∈ segs -> first_lane_seq g < next_lane_seq g
}.

Lemma segs_ok_app rows segs rows' segs' :
  segs_ok rows segs -> segs_ok rows' segs' -> segs_ok (rows ++ rows') (segs ++ segs').
Proof.
  intros [H1 H2 H3] [H1' H2' H3']. split.
  - intros r [Hr|Hr]%elem_of_app; [destruct (H1 r Hr) as (g & ? & ?)|destruct (H1' r Hr) as (g & ? & ?)];
      exists g; rewrite elem_of_app; tauto.
  - intros g n [Hg|Hg]%elem_of_app Hn; [destruct (H2 g n Hg Hn) as (r & ? & ?)|destruct (H2' g n Hg Hn) as (r & ? & ?)];
      exists r; rewrite elem_of_app; tauto.
  - intros g [Hg|Hg]%elem_of_app; auto.
Qed.

Lemma splits_false a b :
  splits a b = false ->
  ri_lane a = ri_lane b /\ ri_lane_seq b = ri_lane_seq a + 1 /\ c_run_at (ri_columns a) = c_run_at (ri_columns b).
Proof.
  unfold splits, ri_lane. rewrite !orb_false_iff, !negb_false_iff, bool_decide_eq_true, !Z.eqb_eq.
  intros ((((-> & ->) & ->) & <-) & ->). done.
Qed.

(** The run under way: its numbers are those of rows of one lane. *)
Definition run_ok (rows : list RuntimeReadyInsert) (first last : RuntimeReadyInsert) : Prop :=
  ri_lane last = ri_lane first /\ c_run_at (ri_columns last) = c_run_at (ri_columns first)
  /\ ri_lane_seq first <= ri_lane_seq last
  /\ forall n, ri_lane_seq first <= n <= ri_lane_seq last ->
       exists r, r ∈ rows /\ ri_lane r = ri_lane first /\ ri_lane_seq r = n
                 /\ c_run_at (ri_columns r) = c_run_at (ri_columns first).

(** A segment covers a row: same lane, its number within, its [run_at]. *)
Definition covers (ring : Z * Z) (g : ReadySegment) (r : RuntimeReadyInsert) : Prop :=
  sg_ring g = ring /\ sg_lane g = ri_lane r /\ first_lane_seq g <= ri_lane_seq r < next_lane_seq g
  /\ first_run_at g = c_run_at (ri_columns r).
Definition filled (ring : Z * Z) (rows : list RuntimeReadyInsert) (g : ReadySegment) : Prop :=
  sg_ring g = ring /\ first_lane_seq g < next_lane_seq g
  /\ forall n, first_lane_seq g <= n < next_lane_seq g ->
       exists r, r ∈ rows /\ ri_lane r = sg_lane g /\ ri_lane_seq r = n /\ c_run_at (ri_columns r) = first_run_at g.

Lemma run_filled ring rows first last : run_ok rows first last -> filled ring rows (segment_of ring first last).
Proof.
  intros (Hl & Hr & Hle & Hn). split; [done|]. split; simpl; [lia|]. intros n ?.
  destruct (Hn n) as (r & ? & ? & ? & ?); [lia|]. by exists r.
Qed.

Lemma segments_from_spec ring all rows first last :
  run_ok all first last -> (forall r, r ∈ rows -> r ∈ all) ->
  (forall g, g ∈ segments_from ring first last rows -> filled ring all g)
  /\ (exists g, g ∈ segments_from ring first last rows /\ sg_ring g = ring /\ sg_lane g = ri_lane first
        /\ first_lane_seq g = ri_lane_seq first /\ ri_lane_seq last < next_lane_seq g
        /\ first_run_at g = c_run_at (ri_columns first))
  /\ (forall r, r ∈ rows -> exists g, g ∈ segments_from ring first last rows /\ covers ring g r).
Proof.
  revert first last. induction rows as [|b rows IH]; intros first last Hrun Hall; simpl.
  { split; [|split; [|by intros r ?%elem_of_nil]].
    - intros g ->%list_elem_of_singleton. by apply run_filled.
    - eexists. split; [by left|]. simpl. repeat split; lia. }
  assert (b ∈ all) as Hb by (apply Hall; left).
  assert (forall r, r ∈ rows -> r ∈ all) as Hall' by (intros; apply Hall; by right).
  destruct (splits last b) eqn:Hs.
  - destruct (IH b b) as (Hf & (g & Hg & Hgr & Hgl & Hg1 & Hg2 & Hg3) & Hc); [|done|].
    { repeat split; try lia. intros n ?. exists b. repeat split; auto; lia. }
    split; [|split].
    + intros h [->|Hh]%elem_of_cons; [by apply run_filled|auto].
    + eexists. split; [left|]. simpl. repeat split; lia.
    + intros r [->|Hr]%elem_of_cons; [exists g|destruct (Hc r Hr) as (h & ? & ?); exists h];
        (split; [by right|]); [|done]. repeat split; auto; lia.
  - apply splits_false in Hs as (Hl & Hseq & Hrat). destruct Hrun as (Hl1 & Hr1 & Hle & Hn).
    destruct (IH first b) as (Hf & (g & Hg & Hgr & Hgl & Hg1 & Hg2 & Hg3) & Hc); [|done|].
    { split; [congruence|]. split; [congruence|]. split; [lia|]. intros n Hnn.
      destruct (decide (n = ri_lane_seq b)) as [->|]; [|apply Hn; lia].
      exists b. repeat split; auto; congruence. }
    split; [done|]. split.
    + exists g. repeat split; auto; lia.
    + intros r [->|Hr]%elem_of_cons; [|auto]. exists g. split; [done|].
      split; [done|]. split; [congruence|]. split; [lia|congruence].
Qed.

Lemma ready_segments_spec_of ring rows :
  (forall g, g ∈ ready_segments_from_rows ring rows -> filled ring rows g)
  /\ (forall r, r ∈ rows -> exists g, g ∈ ready_segments_from_rows ring rows /\ covers ring g r).
Proof.
  destruct rows as [|b rows]; simpl; [split; by intros ? ?%elem_of_nil|].
  destruct (segments_from_spec ring (b :: rows) rows b b) as (Hf & (g & Hg & Hgr & Hgl & Hg1 & Hg2 & Hg3) & Hc).
  - repeat split; try lia. intros n ?. exists b. repeat split; [left|lia].
  - intros; by right.
  - split; [done|]. intros r [->|Hr]%elem_of_cons; [|auto]. exists g. split; [done|]. repeat split; auto; lia.
Qed.

Lemma ready_segments_ok ring rows : segs_ok (map (ready_entry ring) rows) (ready_segments_from_rows ring rows).
Proof.
  destruct (ready_segments_spec_of ring rows) as [Hf Hc]. destruct ring as [slot gen]. split.
  - intros e (r & -> & Hr)%list_elem_of_fmap. destruct (Hc r Hr) as (g & Hg & H1 & H2 & H3 & _).
    exists g. unfold lane_of, ring_of, seq_of. simpl. auto.
  - intros g n Hg Hn. destruct (Hf g Hg) as (H1 & _ & H2). destruct (H2 n Hn) as (r & Hr & Hl & Hs & _).
    exists (ready_entry (slot, gen) r). split; [by apply list_elem_of_fmap_2|].
    unfold lane_of, ring_of, seq_of. simpl. rewrite H1. auto.
  - intros g Hg. by apply Hf.
Qed.

(** * Reservations *)

Definition next_at (m : gmap (string * Z * Z) Sequence) (lane : string * Z * Z) : Z := sequence_next_value (seq_at lane m).
Definition ri_key (r : RuntimeReadyInsert) : string * Z * Z * Z := (ri_lane r, ri_lane_seq r).

Lemma elem_of_imap_iff {A B} (f : nat -> A -> B) l y :
  y ∈ imap f l <-> exists i x, l !! i = Some x /\ y = f i x.
Proof.
  rewrite list_elem_of_lookup. setoid_rewrite list_lookup_imap. split.
  - intros (i & Hi). destruct (l !! i) as [x|] eqn:E; [|done]. injection Hi as <-. eauto.
  - intros (i & x & Hi & ->). exists i. by rewrite Hi.
Qed.

Lemma place_lane_elem lane start cs r :
  r ∈ place_lane lane start cs <->
  exists i c, cs !! i = Some c /\ r = mkReadyInsert (start + Z.of_nat i) (snd lane) c.
Proof. apply elem_of_imap_iff. Qed.

Lemma place_lane_key lane start cs r :
  (forall c, c ∈ cs -> (c_queue c, c_priority c) = fst lane) -> r ∈ place_lane lane start cs ->
  ri_lane r = lane /\ start <= ri_lane_seq r < start + Z.of_nat (length cs) /\ ri_columns r ∈ cs.
Proof.
  intros Hg (i & c & Hc & ->)%place_lane_elem. apply lookup_lt_Some in Hc as Hi.
  assert (c ∈ cs) as Hin by by eapply list_elem_of_lookup_2. unfold ri_lane. simpl.
  specialize (Hg c Hin). rewrite Hg. destruct lane as [[q p] s]. simpl. repeat split; auto; lia.
Qed.

Lemma place_lane_NoDup lane start cs : NoDup (map ri_key (place_lane lane start cs)).
Proof.
  revert start. induction cs as [|c cs IH]; intros start; [constructor|].
  unfold place_lane. simpl. rewrite (imap_ext _ (fun i c => mkReadyInsert (start + 1 + Z.of_nat i) (snd lane) c)).
  2:{ intros. simpl. f_equal. lia. }
  constructor; [|apply IH]. intros (r & Hk & Hr)%list_elem_of_fmap.
  apply place_lane_elem in Hr as (i & c' & _ & ->). unfold ri_key in Hk. simpl in Hk. injection Hk as _ _ Hk. lia.
Qed.

Lemma reserve_lanes_spec grouped m rows m' :
  grouped_ok grouped -> reserve_lanes grouped m = (rows, m') ->
  (forall lane, next_at m lane <= next_at m' lane)
  /\ (forall r, r ∈ rows -> ri_lane r ∈ map fst grouped /\ next_at m (ri_lane r) <= ri_lane_seq r < next_at m' (ri_lane r))
  /\ NoDup (map ri_key rows)
  /\ (forall lane cs c, (lane, cs) ∈ grouped -> c ∈ cs -> exists r, r ∈ rows /\ ri_columns r = c /\ ri_lane r = lane).
Proof.
  revert m rows m'. induction grouped as [|[lane cs] grouped IH]; intros m rows m' Hok H.
  { injection H as <- <-. split; [lia|]. split; [by intros r ?%elem_of_nil|].
    split; [constructor|by intros ? ? ? ?%elem_of_nil]. }
  simpl in H. destruct (reserve_enqueue_seq _ _) as [start s] eqn:Hres.
  destruct (reserve_lanes grouped (<[lane := s]> m)) as [rows' m2] eqn:Hrec. injection H as <- <-.
  pose proof (reserve_start (Z.of_nat (length cs)) (seq_at lane m)) as Hst.
  pose proof (reserve_next (Z.of_nat (length cs)) (seq_at lane m) ltac:(lia)) as Hnx. rewrite Hres in Hst, Hnx. simpl in *.
  assert (forall c, c ∈ cs -> (c_queue c, c_priority c) = fst lane) as Hcs.
  { intros c Hc. eapply Hok; [left|done]. }
  edestruct IH as (Hmono & Hrows & Hnd & Hall); [|exact Hrec|].
  { intros l' cs' c Hin. apply Hok. by right. }
  assert (forall l, next_at m l <= next_at (<[lane := s]> m) l) as Hm.
  { intros l. unfold next_at. rewrite seq_at_insert. case_decide; subst; lia. }
  assert (next_at (<[lane := s]> m) lane = next_at m lane + Z.of_nat (length cs)) as Hs.
  { unfold next_at. rewrite seq_at_insert, decide_True by done. lia. }
  split; [intros l; specialize (Hmono l); specialize (Hm l); lia|]. split; [|split].
  - intros r [Hr|Hr]%elem_of_app.
    + apply place_lane_key in Hr as (-> & ? & _); [|done]. split; [left|]. specialize (Hmono lane). unfold next_at in *. lia.
    + destruct (Hrows r Hr) as [Hl Hb]. split; [by right|]. specialize (Hm (ri_lane r)). lia.
  - rewrite map_app. apply NoDup_app. split; [apply place_lane_NoDup|]. split; [|done].
    intros k (r & -> & Hr)%list_elem_of_fmap (r' & Hk & Hr')%list_elem_of_fmap.
    apply place_lane_key in Hr as (Hl & ? & _); [|done]. destruct (Hrows r' Hr') as [_ Hb].
    apply pair_equal_spec in Hk as [E1 E2]. rewrite <- E1, Hl in Hb. unfold next_at in *. lia.
  - intros l cs' c [[= -> ->]|Hin]%elem_of_cons Hc.
    + apply list_elem_of_lookup in Hc as Hi. destruct Hi as (i & Hi).
      exists (mkReadyInsert (start + Z.of_nat i) (snd lane) c). split; [apply elem_of_app; left; apply place_lane_elem; eauto|].
      split; [done|]. unfold ri_lane. simpl. rewrite (Hcs c Hc). by destruct lane as [[??]?].
    + destruct (Hall l cs' c Hin Hc) as (r & ? & ?). exists r. rewrite elem_of_app. auto.
Qed.

Lemma reserve_lanes_ok grouped m :
  (forall lane, 1 <= next_at m lane) -> forall lane, 1 <= next_at (snd (reserve_lanes grouped m)) lane.
Proof.
  revert m. induction grouped as [|[l cs] grouped IH]; intros m Hm lane; simpl; [done|].
  destruct (reserve_enqueue_seq _ _) as [start s] eqn:Hres.
  pose proof (reserve_next (Z.of_nat (length cs)) (seq_at l m) ltac:(lia)) as Hnx. rewrite Hres in Hnx. simpl in Hnx.
  specialize (IH (<[l := s]> m)). destruct (reserve_lanes grouped _) as [rows' m2]. simpl in *. apply IH.
  intros l'. unfold next_at. rewrite seq_at_insert. case_decide; [subst; specialize (Hm l'); unfold next_at in Hm; lia|apply Hm].
Qed.

(** * The invariant *)

Definition row_key (r : ReadyEntry) : string * Z * Z * Z := (lane_of r, seq_of r).
Definition gen_of (r : ReadyEntry) : Z := snd (ring_of r).
Definition pending_in (W : gmap Z Writer) (r : ReadyEntry) : Prop :=
  exists tx w, W !! tx = Some w /\ r ∈ ready_entries (wr_tables w).
Definition known (C : list ReadyEntry) (W : gmap Z Writer) (r : ReadyEntry) : Prop := r ∈ C \/ pending_in W r.

(** Where rows lie: below the enqueue sequence, open writers' beyond those
    committed, later generations later in a lane. *)
Record layout (C : list ReadyEntry) (S : list ReadySegment) (W : gmap Z Writer)
    (E : gmap (string * Z * Z) Sequence) (H : list (string * Z * Z)) (R : Z * Z) : Prop := {
  ly_seqs : forall lane, 1 <= next_at E lane;
  ly_placed : forall r, known C W r -> seq_of r < next_at E (lane_of r) /\ lane_of r ∈ H;
  ly_order : forall r p, r ∈ C -> pending_in W p -> lane_of r = lane_of p -> seq_of r < seq_of p;
  ly_locked : forall tx w r, W !! tx = Some w -> r ∈ ready_entries (wr_tables w) -> lane_of r ∈ wr_lanes w;
  ly_locks : forall tx tx' w w' lane, W !! tx = Some w -> W !! tx' = Some w' ->
               lane ∈ wr_lanes w -> lane ∈ wr_lanes w' -> tx = tx';
  ly_unique : NoDup (map row_key C);
  ly_unique_pending : forall tx w, W !! tx = Some w -> NoDup (map row_key (ready_entries (wr_tables w)));
  ly_current : forall r, known C W r -> gen_of r <= snd R /\ (gen_of r = snd R -> ring_of r = R);
  ly_rings : forall r r', known C W r -> known C W r' -> gen_of r = gen_of r' -> ring_of r = ring_of r';
  ly_gens : forall r r', known C W r -> known C W r' -> lane_of r = lane_of r' -> seq_of r <= seq_of r' ->
              gen_of r <= gen_of r';
  ly_segs : segs_ok C S;
  ly_segs_pending : forall tx w, W !! tx = Some w -> segs_ok (ready_entries (wr_tables w)) (ready_segments (wr_tables w));
  ly_writes : forall tx w, W !! tx = Some w -> attempt_batches (wr_tables w) = [];
  ly_tombs : forall tx w b, W !! tx = Some w -> b ∈ ready_tombstones (wr_tables w) -> exists r, r ∈ C /\ b = tombstone_of r
}.

Arguments ly_seqs {C S W E H R}.
Arguments ly_placed {C S W E H R}.
Arguments ly_order {C S W E H R}.
Arguments ly_locked {C S W E H R}.
Arguments ly_locks {C S W E H R}.
Arguments ly_unique {C S W E H R}.
Arguments ly_unique_pending {C S W E H R}.
Arguments ly_current {C S W E H R}.
Arguments ly_rings {C S W E H R}.
Arguments ly_gens {C S W E H R}.
Arguments ly_segs {C S W E H R}.
Arguments ly_segs_pending {C S W E H R}.
Arguments ly_writes {C S W E H R}.
Arguments ly_tombs {C S W E H R}.

Definition layout_of (y : Sys) : Prop :=
  layout (ready_entries (tables (store y))) (ready_segments (tables (store y))) (writers y)
    (enqueue_seqs (store y)) (claim_heads (store y)) (queue_ring (store y)).

(** Every committed row of the lane with a number in [P] is spent, and no other
    row ever will have one. *)
Record covered (y : Sys) (lane : string * Z * Z) (P : Z -> Prop) : Prop := {
  cv_spent : forall r, r ∈ ready_entries (tables (store y)) -> lane_of r = lane -> P (seq_of r) ->
               spent (tables (store y)) r = true;
  cv_pending : forall p, pending_in (writers y) p -> lane_of p = lane -> ~ P (seq_of p);
  cv_below : forall n, P n -> n < enqueue_cursor (store y) lane
}.

Definition batch_ok (y : Sys) (b : AttemptBatch) : Prop :=
  covered y (ab_lane b) (fun n => n < ab_next b)
  /\ forall n, n ∈ lane_ranges b -> ab_first b <= n < ab_next b.

Definition lease_key (x : ReadyJobLeaseRow) : string * Z * Z * Z := (rl_lane x, lane_seq (rl_pos x)).
Definition lease_ring_of (x : ReadyJobLeaseRow) : Z * Z := (ready_slot (rl_pos x), ready_generation (rl_pos x)).

(** An open claim: rows of one slot, in order, and nothing live before its end
    but those rows. *)
Record claim_ok (y : Sys) (c : Claimed) : Prop := {
  ck_covered : covered y (ab_lane (cl_attempts c))
                 (fun n => n < ab_next (cl_attempts c) /\ n ∉ lane_ranges (cl_attempts c));
  ck_rows : forall n, n ∈ lane_ranges (cl_attempts c) ->
              ab_first (cl_attempts c) <= n < ab_next (cl_attempts c)
              /\ exists r, r ∈ ready_entries (tables (store y)) /\ lane_of r = ab_lane (cl_attempts c)
                   /\ seq_of r = n /\ ring_of r = ab_ring (cl_attempts c);
  ck_last : ab_next (cl_attempts c) - 1 ∈ lane_ranges (cl_attempts c);
  ck_sorted : StronglySorted Z.lt (lane_ranges (cl_attempts c));
  ck_returned : map lease_key (cl_rows c) = map (pair (ab_lane (cl_attempts c))) (lane_ranges (cl_attempts c))
                /\ Forall (fun x => lease_ring_of x = ab_ring (cl_attempts c)) (cl_rows c)
}.

(** An advance that may still run. *)
Definition sound (y : Sys) (a : ClaimCursorAdvance) : Prop :=
  match only_if_current a, evidence a with
  | None, Some e => adv_next a = ev_seq e + 1
  | Some k, None => adv_next a = k + 1 /\ covered y (adv_lane a) (fun n => n = k)
  | _, _ => False
  end.

Definition in_lane_order (x x' : ReadyJobLeaseRow) : Prop :=
  rl_lane x = rl_lane x' -> lane_seq (rl_pos x) < lane_seq (rl_pos x').

Record lane_inv (y : Sys) : Prop := {
  li_layout : layout_of y;
  li_seqs : forall lane, 1 <= claim_cursor (store y) lane;
  li_cursor : forall lane, covered y lane (fun n => n < claim_cursor (store y) lane);
  li_batches : forall b, b ∈ attempt_batches (tables (store y)) -> batch_ok y b;
  li_open : forall c, c ∈ open_claims y -> claim_ok y c;
  li_open_lanes : NoDup (map (fun c => ab_lane (cl_attempts c)) (open_claims y));
  li_log : forall x, x ∈ claim_log y -> covered y (rl_lane x) (fun n => n <= lane_seq (rl_pos x));
  li_log_open : forall x c n, x ∈ claim_log y -> c ∈ open_claims y -> rl_lane x = ab_lane (cl_attempts c) ->
                  n ∈ lane_ranges (cl_attempts c) -> lane_seq (rl_pos x) < n;
  li_log_sorted : StronglySorted in_lane_order (claim_log y);
  li_issued : forall a, a ∈ issued y -> sound y a
}.

(** ** Coverage only grows *)

Record grows (y y' : Sys) : Prop := {
  gr_rows : forall r, r ∈ ready_entries (tables (store y')) ->
              (r ∈ ready_entries (tables (store y))
               /\ (spent (tables (store y)) r = true -> spent (tables (store y')) r = true))
              \/ pending_in (writers y) r;
  gr_pending : forall p, pending_in (writers y') p ->
                 pending_in (writers y) p \/ enqueue_cursor (store y) (lane_of p) <= seq_of p;
  gr_enqueue : forall lane, enqueue_cursor (store y) lane <= enqueue_cursor (store y') lane
}.

Lemma covered_grows y y' lane P : grows y y' -> covered y lane P -> covered y' lane P.
Proof.
  intros [Hr Hp He] [H1 H2 H3]. split.
  - intros r Hin Hl HP. destruct (Hr r Hin) as [[Hy Hs]|Hpend]; [auto|]. by destruct (H2 r Hpend Hl).
  - intros p Hpend Hl HP. destruct (Hp p Hpend) as [Hy|Hge]; [by apply (H2 p Hy Hl)|].
    specialize (H3 _ HP). rewrite Hl in Hge. lia.
  - intros n HP. specialize (H3 n HP). specialize (He lane). lia.
Qed.

Lemma covered_weaken y lane (P Q : Z -> Prop) : (forall n, Q n -> P n) -> covered y lane P -> covered y lane Q.
Proof. intros HPQ [H1 H2 H3]. split; eauto. intros p Hp Hl HQ. apply (H2 p Hp Hl). auto. Qed.

Lemma covered_union y lane (P Q : Z -> Prop) :
  covered y lane P -> covered y lane Q -> covered y lane (fun n => P n \/ Q n).
Proof.
  intros [H1 H2 H3] [H1' H2' H3']. split.
  - intros r Hr Hl [HP|HQ]; auto.
  - intros p Hp Hl [HP|HQ]; [by apply (H2 p)|by apply (H2' p)].
  - intros n [HP|HQ]; auto.
Qed.

Lemma grows_refl y : grows y y.
Proof. split; auto. lia. Qed.

(** ** The layout under each step *)

Lemma pending_insert W tx w r :
  pending_in (<[tx := w]> W) r ->
  r ∈ ready_entries (wr_tables w) \/ exists tx' w', tx' <> tx /\ W !! tx' = Some w' /\ r ∈ ready_entries (wr_tables w').
Proof. intros (tx' & w' & [[<- <-]|[? ?]]%lookup_insert_Some & Hr); eauto 10. Qed.

Lemma pending_delete W tx r : pending_in (delete tx W) r -> pending_in W r.
Proof. intros (tx' & w' & [_ ?]%lookup_delete_Some & Hr). by exists tx', w'. Qed.

Lemma known_delete C W tx r : known C (delete tx W) r -> known C W r.
Proof. intros [?|?%pending_delete]; [by left|by right]. Qed.

Lemma layout_abort C S W E H R tx : layout C S W E H R -> layout C S (delete tx W) E H R.
Proof.
  intros []. split; try done; eauto using known_delete, pending_delete.
  - intros tx' w r [_ ?]%lookup_delete_Some. eauto.
  - intros t1 t2 w1 w2 lane [_ ?]%lookup_delete_Some [_ ?]%lookup_delete_Some. eauto.
  - intros tx' w [_ ?]%lookup_delete_Some. eauto.
  - intros tx' w [_ ?]%lookup_delete_Some. eauto.
  - intros tx' w [_ ?]%lookup_delete_Some. eauto.
  - intros tx' w b [_ ?]%lookup_delete_Some. eauto.
Qed.

(** A writer's rows leave it for the tables. *)
Lemma known_commit C W tx w r :
  W !! tx = Some w -> known (C ++ ready_entries (wr_tables w)) (delete tx W) r -> known C W r.
Proof.
  intros Hw [[Hr|Hr]%elem_of_app|Hr%pending_delete]; [by left| |by right]. right. by exists tx, w.
Qed.

Lemma pending_other C S W E H R tx w r p :
  layout C S W E H R -> W !! tx = Some w -> r ∈ ready_entries (wr_tables w) -> pending_in (delete tx W) p ->
  lane_of r <> lane_of p.
Proof.
  intros L Hw Hr (tx' & w' & [Hne Hw']%lookup_delete_Some & Hp) Hl. apply Hne.
  apply (ly_locks L tx tx' w w' (lane_of r) Hw Hw'); [eapply ly_locked; eauto|].
  rewrite Hl. eapply ly_locked; eauto.
Qed.

Lemma NoDup_keys_app C W tx w S E H R :
  layout C S W E H R -> W !! tx = Some w -> NoDup (map row_key (C ++ ready_entries (wr_tables w))).
Proof.
  intros L Hw. rewrite map_app. apply NoDup_app. split; [apply L|]. split; [|eapply ly_unique_pending; eauto].
  intros k (r & -> & Hr)%list_elem_of_fmap (p & Hk & Hp)%list_elem_of_fmap.
  apply pair_equal_spec in Hk as [Hl Hs]. assert (seq_of r < seq_of p); [|lia].
  eapply ly_order; eauto. by exists tx, w.
Qed.

Lemma layout_commit C S W E H R tx w :
  layout C S W E H R -> W !! tx = Some w ->
  layout (C ++ ready_entries (wr_tables w)) (S ++ ready_segments (wr_tables w)) (delete tx W) E H R.
Proof.
  intros L Hw. pose proof (known_commit C W tx w) as Hk. pose proof (layout_abort _ _ _ _ _ _ tx L) as L'.
  split; try apply L'; eauto using ly_placed, ly_current, ly_rings, ly_gens, NoDup_keys_app.
  - intros r p [Hr|Hr]%elem_of_app Hp Hl.
    + eapply ly_order; eauto using pending_delete.
    + exfalso. by apply (pending_other _ _ _ _ _ _ _ _ r p L Hw Hr Hp).
  - apply segs_ok_app; [apply L|apply (ly_segs_pending L tx w Hw)].
  - intros tx' w' b [_ Hw']%lookup_delete_Some Hb. destruct (ly_tombs L tx' w' b Hw' Hb) as (r & ? & ?).
    exists r. rewrite elem_of_app. auto.
Qed.

(** A writer that writes no row. *)
Lemma layout_tombstone C S W E H R tx r0 :
  layout C S W E H R -> r0 ∈ C ->
  let w := default (mkWriter no_tables []) (W !! tx) in
  layout C S (<[tx := mkWriter (tables_app (wr_tables w) (only_tombstone r0)) (wr_lanes w)]> W) E H R.
Proof.
  intros L H0 w. set (w' := mkWriter _ _).
  assert (ready_entries (wr_tables w') = ready_entries (wr_tables w)) as Er by (simpl; apply app_nil_r).
  assert (ready_segments (wr_tables w') = ready_segments (wr_tables w)) as Es by (simpl; apply app_nil_r).
  assert (forall r, r ∈ ready_entries (wr_tables w) -> W !! tx = Some w) as Hex.
  { subst w. intros r Hr. destruct (W !! tx); [done|]. by apply elem_of_nil in Hr. }
  assert (forall r, pending_in (<[tx := w']> W) r -> pending_in W r) as Hp.
  { intros r [Hr|(t & v & _ & ? & ?)]%pending_insert; [|by exists t, v]. rewrite Er in Hr. exists tx, w. eauto. }
  assert (forall r, known C (<[tx := w']> W) r -> known C W r) as Hk by (intros r [?|?]; [left|right]; auto).
  assert (forall lane, lane ∈ wr_lanes w -> W !! tx = Some w) as Hlock.
  { subst w. intros lane Hl. destruct (W !! tx); [done|]. by apply elem_of_nil in Hl. }
  split; try apply L; eauto using ly_placed, ly_current, ly_rings, ly_gens, ly_order.
  - intros t v r [[<- <-]|[? ?]]%lookup_insert_Some Hr; [|eapply ly_locked; eauto].
    rewrite Er in Hr. change (wr_lanes w') with (wr_lanes w). eapply ly_locked; eauto.
  - intros t1 t2 w1 w2 lane [[<- <-]|[? ?]]%lookup_insert_Some [[<- <-]|[? ?]]%lookup_insert_Some Hl1 Hl2;
      try done; eapply (ly_locks L); eauto.
  - intros t v [[<- <-]|[? ?]]%lookup_insert_Some; [|eapply ly_unique_pending; eauto]. rewrite Er.
    subst w. destruct (W !! tx) eqn:E0; [eapply ly_unique_pending; eauto|constructor].
  - intros t v [[<- <-]|[? ?]]%lookup_insert_Some; [|eapply ly_segs_pending; eauto]. rewrite Er, Es.
    subst w. destruct (W !! tx) eqn:E0; [eapply ly_segs_pending; eauto|]. simpl.
    split; by intros ? ?%elem_of_nil || intros ? ? ?%elem_of_nil.
  - intros t v [[<- <-]|[? ?]]%lookup_insert_Some; [|eapply ly_writes; eauto]. simpl. rewrite app_nil_r.
    subst w. destruct (W !! tx) eqn:E0; [eapply ly_writes; eauto|done].
  - intros t v b [[<- <-]|[? ?]]%lookup_insert_Some Hb; [|eapply ly_tombs; eauto].
    simpl in Hb. apply elem_of_app in Hb as [Hb|Hb%list_elem_of_singleton]; [|eauto].
    subst w. destruct (W !! tx) eqn:E0; [eapply ly_tombs; eauto|]. by apply elem_of_nil in Hb.
Qed.

Lemma layout_rotate C S W E H R slot : layout C S W E H R -> layout C S W E H (slot, snd R + 1).
Proof.
  intros L. split; try apply L. intros r Hr. destruct (ly_current L r Hr). simpl. split; [lia|]. lia.
Qed.

Lemma elem_of_filter_ring {A} (f : A -> Z * Z) ring (l : list A) x :
  x ∈ List.filter (fun a => negb (bool_decide (f a = ring))) l <-> x ∈ l /\ f x <> ring.
Proof. rewrite elem_of_filter_b, negb_true_iff, bool_decide_eq_false. tauto. Qed.

Lemma segs_ok_truncate ring rows segs :
  segs_ok rows segs ->
  segs_ok (List.filter (fun r => negb (bool_decide (ring_of r = ring))) rows)
    (List.filter (fun g => negb (bool_decide (sg_ring g = ring))) segs).
Proof.
  intros [H1 H2 H3]. split.
  - intros r [Hr Hne]%elem_of_filter_ring. destruct (H1 r Hr) as (g & Hg & Hl & Hrg & Hs). exists g.
    rewrite elem_of_filter_ring. repeat split; auto; try lia. congruence.
  - intros g n [Hg Hne]%elem_of_filter_ring Hn. destruct (H2 g n Hg Hn) as (r & Hr & Hl & Hrg & Hs). exists r.
    rewrite elem_of_filter_ring. repeat split; auto. congruence.
  - intros g [Hg _]%elem_of_filter_ring. auto.
Qed.

Lemma layout_prune C S W E H R ring :
  layout C S W E H R ->
  (forall tx w b, W !! tx = Some w -> b ∈ ready_tombstones (wr_tables w) -> tb_ring b <> ring) ->
  layout (List.filter (fun r => negb (bool_decide (ring_of r = ring))) C)
    (List.filter (fun g => negb (bool_decide (sg_ring g = ring))) S) W E H R.
Proof.
  intros L Hb. set (C' := List.filter _ C).
  assert (forall r, r ∈ C' -> r ∈ C) as HC by (intros r [? _]%elem_of_filter_ring; done).
  assert (forall r, known C' W r -> known C W r) as Hk by (intros r [?|?]; [left|right]; auto).
  split; try apply L; eauto using ly_placed, ly_current, ly_rings, ly_gens, ly_order.
  - apply NoDup_map_filter, L.
  - apply segs_ok_truncate, L.
  - intros tx w b Hw Hin. destruct (ly_tombs L tx w b Hw Hin) as (r & Hr & ->). exists r. split; [|done].
    apply elem_of_filter_ring. split; [done|]. apply (Hb tx w _ Hw Hin).
Qed.

(** ** Inserting *)

Lemma ensure_lanes_frame lanes s :
  let s' := fold_left (fun s lane => ensure_lane lane s) lanes s in
  tables s' = tables s /\ enqueue_seqs s' = enqueue_seqs s /\ claim_seqs s' = claim_seqs s
  /\ queue_ring s' = queue_ring s /\ paused s' = paused s
  /\ (forall lane, lane ∈ claim_heads s' <-> lane ∈ claim_heads s \/ lane ∈ lanes).
Proof.
  revert s. induction lanes as [|l lanes IH]; intros s; simpl.
  { split_and!; try done. intros lane. rewrite elem_of_nil. tauto. }
  specialize (IH (ensure_lane l s)). simpl in IH. destruct IH as (-> & -> & -> & -> & -> & Hh). unfold ensure_lane in *.
  case_bool_decide as Hin; split_and!; try done; intros lane; rewrite Hh, elem_of_cons; [|].
  - split; [tauto|]. intros [?|[->|?]]; auto.
  - simpl. rewrite elem_of_app, list_elem_of_singleton. tauto.
Qed.

Lemma insert_grouped_spec grouped s t s' :
  grouped_ok grouped -> insert_grouped_rows grouped s = (t, s') ->
  tables s' = tables s /\ claim_seqs s' = claim_seqs s /\ queue_ring s' = queue_ring s
  /\ ready_tombstones t = [] /\ attempt_batches t = [] /\ segs_ok (ready_entries t) (ready_segments t)
  /\ (forall lane, next_at (enqueue_seqs s) lane <= next_at (enqueue_seqs s') lane)
  /\ NoDup (map row_key (ready_entries t))
  /\ (forall lane, lane ∈ claim_heads s' <-> lane ∈ claim_heads s \/ lane ∈ map fst grouped)
  /\ (forall r, r ∈ ready_entries t -> ring_of r = queue_ring s /\ lane_of r ∈ map fst grouped
        /\ next_at (enqueue_seqs s) (lane_of r) <= seq_of r < next_at (enqueue_seqs s') (lane_of r)).
Proof.
  intros Hok H. unfold insert_grouped_rows in H.
  destruct (ensure_lanes_frame (map fst grouped) s) as (Et & Ee & Ec & Eq & _ & Hh).
  set (s0 := fold_left _ (map fst grouped) s) in *. cbv zeta in H.
  destruct (reserve_lanes grouped (enqueue_seqs s0)) as [rows m] eqn:Hres. injection H as <- <-. simpl.
  rewrite Et, Ec, Eq, Ee in *. destruct (reserve_lanes_spec _ _ _ _ Hok Hres) as (Hm & Hr & Hnd & _).
  split_and!; try done.
  - apply ready_segments_ok.
  - rewrite map_map. erewrite map_ext; [exact Hnd|]. done.
  - intros e (r & -> & Hin)%list_elem_of_fmap. destruct (Hr r Hin) as [Hl Hb].
    unfold ring_of, lane_of, seq_of. simpl. by destruct (queue_ring s).
Qed.

Lemma insert_grouped_seqs grouped s :
  (forall lane, 1 <= next_at (enqueue_seqs s) lane) ->
  forall lane, 1 <= next_at (enqueue_seqs (snd (insert_grouped_rows grouped s))) lane.
Proof.
  intros Hs. unfold insert_grouped_rows. cbv zeta.
  destruct (ensure_lanes_frame (map fst grouped) s) as (_ & Ee & _). set (s0 := fold_left _ (map fst grouped) s) in *.
  pose proof (reserve_lanes_ok grouped (enqueue_seqs s0)) as H. rewrite Ee in *.
  destruct (reserve_lanes grouped (enqueue_seqs s)). simpl in *. auto.
Qed.

(** What an insert adds to a writer. *)
Record inserted (N : list ReadyEntry) (E E' : gmap (string * Z * Z) Sequence) (lanes H H' : list (string * Z * Z))
    (R : Z * Z) : Prop := {
  in_seqs : forall lane, next_at E lane <= next_at E' lane;
  in_rows : forall r, r ∈ N -> ring_of r = R /\ lane_of r ∈ lanes
              /\ next_at E (lane_of r) <= seq_of r < next_at E' (lane_of r);
  in_unique : NoDup (map row_key N);
  in_heads : forall lane, lane ∈ H' <-> lane ∈ H \/ lane ∈ lanes
}.

Arguments in_seqs {N E E' lanes H H' R}.
Arguments in_rows {N E E' lanes H H' R}.
Arguments in_unique {N E E' lanes H H' R}.
Arguments in_heads {N E E' lanes H H' R}.

Section LayoutInsert.
Context {C : list ReadyEntry} {S : list ReadySegment} {W : gmap Z Writer}.
Context {E E' : gmap (string * Z * Z) Sequence} {lanes H H' : list (string * Z * Z)} {R : Z * Z}.
Context {N : list ReadyEntry} {tx : Z} {w' : Writer}.
Let w : Writer := default (mkWriter no_tables []) (W !! tx).
Hypothesis L : layout C S W E H R.
Hypothesis I : inserted N E E' lanes H H' R.
Hypothesis Er : ready_entries (wr_tables w') = ready_entries (wr_tables w) ++ N.
Hypothesis El : wr_lanes w' = wr_lanes w ++ lanes.
Hypothesis Hfree : forall tx' v lane, lane ∈ lanes -> W !! tx' = Some v -> lane ∈ wr_lanes v -> tx' = tx.

Lemma ins_old r : r ∈ ready_entries (wr_tables w) -> W !! tx = Some w /\ pending_in W r.
Proof.
  subst w. intros Hr. destruct (W !! tx) as [w|] eqn:Ew; [|by apply elem_of_nil in Hr]. split; [done|]. by exists tx, w.
Qed.

Lemma ins_lane lane : lane ∈ wr_lanes w -> W !! tx = Some w.
Proof. subst w. intros Hl. destruct (W !! tx); [done|]. by apply elem_of_nil in Hl. Qed.

Lemma ins_pending r : pending_in (<[tx := w']> W) r -> pending_in W r \/ r ∈ N.
Proof.
  intros [Hr|(t & v & _ & ? & ?)]%pending_insert; [|left; by exists t, v].
  rewrite Er in Hr. apply elem_of_app in Hr as [Hr|Hr]; [|by right]. left. by apply ins_old.
Qed.

Lemma ins_known r : known C (<[tx := w']> W) r -> known C W r \/ r ∈ N.
Proof. intros [Hr|[Hr|Hr]%ins_pending]; [left; by left|left; by right|by right]. Qed.

Lemma ins_after r n : known C W r -> n ∈ N -> lane_of r = lane_of n -> seq_of r < seq_of n.
Proof.
  intros Hr Hn Hl. destruct (ly_placed L r Hr) as [Hlt _]. destruct (in_rows I n Hn) as (_ & _ & ? & _).
  rewrite Hl in Hlt. lia.
Qed.

Lemma ins_placed r : known C (<[tx := w']> W) r -> seq_of r < next_at E' (lane_of r) /\ lane_of r ∈ H'.
Proof.
  rewrite (in_heads I). intros [Hr|Hr]%ins_known.
  - destruct (ly_placed L r Hr) as [? ?]. pose proof (in_seqs I (lane_of r)). split; [lia|auto].
  - destruct (in_rows I r Hr) as (_ & ? & ?). split; [lia|auto].
Qed.

Lemma ins_locked t v r :
  <[tx := w']> W !! t = Some v -> r ∈ ready_entries (wr_tables v) -> lane_of r ∈ wr_lanes v.
Proof.
  intros [[<- <-]|[? ?]]%lookup_insert_Some Hr; [|eapply (ly_locked L); eauto].
  rewrite El, elem_of_app. rewrite Er in Hr. apply elem_of_app in Hr as [Hr|Hr].
  - left. destruct (ins_old r Hr) as [Ew _]. apply (ly_locked L tx w r Ew Hr).
  - right. by destruct (in_rows I r Hr) as (_ & ? & _).
Qed.

Lemma ins_locks t1 t2 w1 w2 lane :
  <[tx := w']> W !! t1 = Some w1 -> <[tx := w']> W !! t2 = Some w2 ->
  lane ∈ wr_lanes w1 -> lane ∈ wr_lanes w2 -> t1 = t2.
Proof.
  intros [[<- <-]|[? Hw1]]%lookup_insert_Some [[<- <-]|[? Hw2]]%lookup_insert_Some Hl1 Hl2; try done.
  - rewrite El in Hl1. apply elem_of_app in Hl1 as [Hl1|Hl1]; [|symmetry; eapply Hfree; eauto].
    eapply (ly_locks L); eauto using ins_lane.
  - rewrite El in Hl2. apply elem_of_app in Hl2 as [Hl2|Hl2]; [|eapply Hfree; eauto].
    eapply (ly_locks L); eauto using ins_lane.
  - eapply (ly_locks L); eauto.
Qed.

Lemma ins_unique t v : <[tx := w']> W !! t = Some v -> NoDup (map row_key (ready_entries (wr_tables v))).
Proof.
  intros [[<- <-]|[? ?]]%lookup_insert_Some; [|eapply (ly_unique_pending L); eauto].
  rewrite Er, map_app. apply NoDup_app. split; [|split; [|apply I]].
  - subst w. destruct (W !! tx) eqn:Ew; [eapply (ly_unique_pending L); eauto|constructor].
  - intros k (r & -> & Hr)%list_elem_of_fmap (n & Hk & Hn)%list_elem_of_fmap.
    apply pair_equal_spec in Hk as [Hl Hs]. assert (seq_of r < seq_of n); [|lia].
    apply ins_after; auto. right. by apply ins_old.
Qed.

Lemma ins_ring n : n ∈ N -> ring_of n = R.
Proof. apply (in_rows I). Qed.

Lemma ins_current r : known C (<[tx := w']> W) r -> gen_of r <= snd R /\ (gen_of r = snd R -> ring_of r = R).
Proof.
  intros [Hr|Hr]%ins_known; [by apply (ly_current L)|]. unfold gen_of. rewrite (ins_ring r Hr). split; [lia|done].
Qed.

Lemma ins_rings r r' :
  known C (<[tx := w']> W) r -> known C (<[tx := w']> W) r' -> gen_of r = gen_of r' -> ring_of r = ring_of r'.
Proof.
  intros [Hr|Hr]%ins_known [Hr'|Hr']%ins_known Hg; [by apply (ly_rings L)| | |].
  - rewrite (ins_ring r' Hr'). apply (ly_current L); [done|]. unfold gen_of in *. by rewrite Hg, (ins_ring r').
  - rewrite (ins_ring r Hr). symmetry. apply (ly_current L); [done|]. unfold gen_of in *. by rewrite <- Hg, (ins_ring r).
  - by rewrite !ins_ring.
Qed.

Lemma ins_gens r r' :
  known C (<[tx := w']> W) r -> known C (<[tx := w']> W) r' -> lane_of r = lane_of r' -> seq_of r <= seq_of r' ->
  gen_of r <= gen_of r'.
Proof.
  intros [Hr|Hr]%ins_known [Hr'|Hr']%ins_known Hl Hs; [by apply (ly_gens L)| | |].
  - unfold gen_of at 2. rewrite (ins_ring r' Hr'). apply (ly_current L r Hr).
  - pose proof (ins_after r' r Hr' Hr (eq_sym Hl)). lia.
  - unfold gen_of. by rewrite !ins_ring.
Qed.

Lemma layout_insert :
  segs_ok (ready_entries (wr_tables w')) (ready_segments (wr_tables w')) ->
  ready_tombstones (wr_tables w') = ready_tombstones (wr_tables w) ->
  attempt_batches (wr_tables w') = attempt_batches (wr_tables w) ->
  layout C S (<[tx := w']> W) E' H' R.
Proof.
  intros Es Et Ea.
  split; try apply L; eauto using ins_placed, ins_locked, ins_locks, ins_unique, ins_current, ins_rings, ins_gens.
  - intros lane. pose proof (ly_seqs L lane). pose proof (in_seqs I lane). lia.
  - intros r p Hr [Hp|Hn]%ins_pending Hl; [by apply (ly_order L)|]. apply ins_after; auto. by left.
  - intros t v [[<- <-]|[? ?]]%lookup_insert_Some; [done|eapply (ly_segs_pending L); eauto].
  - intros t v [[<- <-]|[? ?]]%lookup_insert_Some; [|eapply (ly_writes L); eauto]. rewrite Ea.
    subst w. destruct (W !! tx) eqn:Ew; [eapply (ly_writes L); eauto|done].
  - intros t v b [[<- <-]|[? ?]]%lookup_insert_Some Hb; [|eapply (ly_tombs L); eauto]. rewrite Et in Hb.
    subst w. destruct (W !! tx) eqn:Ew; [eapply (ly_tombs L); eauto|by apply elem_of_nil in Hb].
Qed.
End LayoutInsert.

(** ** Spent rows stay spent *)

Lemma tombstoned_spec t r :
  tombstoned t r = true <->
  exists b, b ∈ ready_tombstones t /\ tb_ring b = ring_of r /\ tb_lane b = lane_of r /\ tb_seq b = seq_of r.
Proof.
  unfold tombstoned. rewrite existsb_elem. setoid_rewrite andb_true_iff. setoid_rewrite andb_true_iff.
  setoid_rewrite bool_decide_eq_true. setoid_rewrite Z.eqb_eq. naive_solver.
Qed.

Lemma attempted_at_spec t ring lane n :
  attempted_at t ring lane n = true <->
  exists b, b ∈ attempt_batches t /\ ab_ring b = ring /\ ab_lane b = lane
            /\ n ∈ lane_ranges b /\ ab_first b <= n < ab_next b.
Proof.
  unfold attempted_at, in_ranges. rewrite existsb_elem. split.
  - intros (b & Hb & H). rewrite !andb_true_iff, !bool_decide_eq_true, existsb_elem in H.
    destruct H as ((? & ?) & (? & ?) & (x & ? & ->%Z.eqb_eq)). exists b. repeat split; auto; lia.
  - intros (b & Hb & Hring & Hlane & Hn & Hr). exists b. split; [done|].
    rewrite !andb_true_iff, !bool_decide_eq_true, existsb_elem. split; [done|]. split; [lia|]. exists n. split; [done|lia].
Qed.

Lemma spent_spec t r :
  spent t r = true <->
  (exists b, b ∈ ready_tombstones t /\ tb_ring b = ring_of r /\ tb_lane b = lane_of r /\ tb_seq b = seq_of r)
  \/ (exists b, b ∈ attempt_batches t /\ ab_ring b = ring_of r /\ ab_lane b = lane_of r
                /\ seq_of r ∈ lane_ranges b /\ ab_first b <= seq_of r < ab_next b).
Proof. unfold spent, attempted. by rewrite orb_true_iff, tombstoned_spec, attempted_at_spec. Qed.

Lemma spent_mono t t' r :
  (forall b, b ∈ ready_tombstones t -> tb_ring b = ring_of r -> b ∈ ready_tombstones t') ->
  (forall b, b ∈ attempt_batches t -> ab_ring b = ring_of r -> b ∈ attempt_batches t') ->
  spent t r = true -> spent t' r = true.
Proof. intros Ht Hb. rewrite !spent_spec. naive_solver. Qed.

Lemma spent_app t u r : spent t r = true -> spent (tables_app t u) r = true.
Proof. apply spent_mono; intros b Hb _; apply elem_of_app; auto. Qed.

(** ** Steps that leave claims alone *)

Lemma claim_ok_grows y y' c :
  grows y y' ->
  (forall r, r ∈ ready_entries (tables (store y)) -> ring_of r = ab_ring (cl_attempts c) ->
     r ∈ ready_entries (tables (store y'))) ->
  claim_ok y c -> claim_ok y' c.
Proof.
  intros Hg Hr [H1 H2 H3 H4 H5]. split; try done; [eauto using covered_grows|].
  intros n Hn. destruct (H2 n Hn) as (? & r & Hin & ? & ? & ?). eauto 10.
Qed.

Lemma sound_grows y y' a : grows y y' -> sound y a -> sound y' a.
Proof.
  intros Hg. unfold sound. destruct (only_if_current a), (evidence a); try done.
  intros [? ?]. eauto using covered_grows.
Qed.

Lemma inv_frame y y' :
  lane_inv y -> grows y y' -> layout_of y' ->
  claim_seqs (store y') = claim_seqs (store y) ->
  (forall b, b ∈ attempt_batches (tables (store y')) -> b ∈ attempt_batches (tables (store y))) ->
  (forall c r, c ∈ open_claims y' -> r ∈ ready_entries (tables (store y)) -> ring_of r = ab_ring (cl_attempts c) ->
     r ∈ ready_entries (tables (store y'))) ->
  open_claims y' `sublist_of` open_claims y -> claim_log y' = claim_log y ->
  (forall a, a ∈ issued y' -> a ∈ issued y \/ sound y' a) ->
  lane_inv y'.
Proof.
  intros [] Hg Hl Hc Hb Hr Ho Elog Hi.
  assert (forall c, c ∈ open_claims y' -> c ∈ open_claims y) as Hsub.
  { intros c Hin. eapply elem_of_submseteq; [done|]. by apply sublist_submseteq. }
  assert (forall lane, claim_cursor (store y') lane = claim_cursor (store y) lane) as Hcur.
  { intros lane. unfold claim_cursor. by rewrite Hc. }
  split; rewrite ?Elog; try done.
  - intros lane. by rewrite Hcur.
  - intros lane. rewrite Hcur. eauto using covered_grows.
  - intros b Hin. destruct (li_batches0 b (Hb b Hin)) as [? ?]. split; eauto using covered_grows.
  - intros c Hin. eauto using claim_ok_grows.
  - eapply sublist_NoDup; [exact li_open_lanes0|]. by apply (fmap_sublist (fun c => ab_lane (cl_attempts c))).
  - intros x Hx. eauto using covered_grows.
  - eauto.
  - intros a [Ha|Ha]%Hi; eauto using sound_grows.
Qed.

Lemma step_insert_inv y tx grouped t s :
  lane_inv y -> grouped_ok grouped -> (forall lane, lane ∈ map fst grouped -> lane_free y tx lane) ->
  insert_grouped_rows grouped (store y) = (t, s) ->
  lane_inv (mkSys s (<[tx := mkWriter (tables_app (wr_tables (writer y tx)) t)
                               (wr_lanes (writer y tx) ++ map fst grouped)]> (writers y))
              (open_claims y) (issued y) (claim_log y)).
Proof.
  intros Hinv Hok Hfree Hins. pose proof (li_layout y Hinv) as L.
  destruct (insert_grouped_spec _ _ _ _ Hok Hins) as (Et & Ec & Eq & Eb & Ea & Hsegs & Hm & Hnd & Hh & Hr).
  assert (inserted (ready_entries t) (enqueue_seqs (store y)) (enqueue_seqs s) (map fst grouped)
            (claim_heads (store y)) (claim_heads s) (queue_ring (store y))) as I by (split; auto).
  set (w' := mkWriter _ _).
  assert (ready_entries (wr_tables w')
          = ready_entries (wr_tables (default (mkWriter no_tables []) (writers y !! tx))) ++ ready_entries t) as Er by done.
  assert (wr_lanes w' = wr_lanes (default (mkWriter no_tables []) (writers y !! tx)) ++ map fst grouped) as El by done.
  apply (inv_frame y); simpl; try done; rewrite ?Et; auto.
  - split; simpl; rewrite ?Et; [auto|intros p [Hp|Hn]%(ins_pending (W := writers y) (tx := tx) Er El); [auto|right; apply Hr; auto]|exact Hm].
  - unfold layout_of. simpl. rewrite Et, Eq. eapply (layout_insert L I); simpl; try done.
    + intros tx' v lane Hl Hv Hlv. eapply Hfree; eauto.
    + apply segs_ok_app; [|done]. unfold writer. destruct (writers y !! tx) eqn:Ew; [eapply (ly_segs_pending L); eauto|].
      split; by intros ? ?%elem_of_nil || intros ? ? ?%elem_of_nil.
    + by rewrite Eb, app_nil_r.
    + by rewrite Ea, app_nil_r.
Qed.

Lemma step_tombstone_inv y tx r :
  lane_inv y -> r ∈ ready_entries (tables (store y)) ->
  lane_inv (mkSys (store y) (<[tx := mkWriter (tables_app (wr_tables (writer y tx)) (only_tombstone r))
                                      (wr_lanes (writer y tx))]> (writers y))
              (open_claims y) (issued y) (claim_log y)).
Proof.
  intros Hinv Hr. pose proof (li_layout y Hinv) as L.
  apply (inv_frame y); simpl; try done; auto.
  - split; simpl; [auto| |lia]. intros p [Hp|(t & v & _ & ? & ?)]%pending_insert; [|left; by exists t, v].
    left. simpl in Hp. rewrite app_nil_r in Hp. unfold writer in Hp.
    destruct (writers y !! tx) as [w|] eqn:Ew; [by exists tx, w|by apply elem_of_nil in Hp].
  - by apply layout_tombstone.
Qed.

(** A cancel's advance, once its tombstone is committed. *)
Lemma cancel_advance_sound y y' tx w b :
  layout_of y -> writers y !! tx = Some w -> b ∈ ready_tombstones (wr_tables w) -> layout_of y' ->
  (forall r, r ∈ ready_entries (tables (store y)) -> r ∈ ready_entries (tables (store y'))) ->
  (forall b, b ∈ ready_tombstones (wr_tables w) -> b ∈ ready_tombstones (tables (store y'))) ->
  sound y' (cancel_advance b).
Proof.
  intros L Hw Hb L' Hrows Htombs. destruct (ly_tombs L tx w b Hw Hb) as (r0 & H0 & ->).
  apply Hrows in H0. unfold sound. simpl. split; [done|]. split.
  - intros r Hr Hl Hs. assert (r = r0) as ->; [|apply spent_spec; left; exists (tombstone_of r0); auto].
    apply (NoDup_map_inj _ _ _ _ (ly_unique L')); auto. unfold row_key. by rewrite Hl, Hs.
  - intros p Hp Hl Hs. pose proof (ly_order L' r0 p H0 Hp (eq_sym Hl)). lia.
  - intros n ->. apply (ly_placed L'). by left.
Qed.

Lemma step_commit_inv y tx w :
  lane_inv y -> writers y !! tx = Some w ->
  lane_inv (mkSys (set_tables (tables_app (tables (store y)) (wr_tables w)) (store y))
              (delete tx (writers y)) (open_claims y)
              (issued y ++ map cancel_advance (ready_tombstones (wr_tables w))) (claim_log y)).
Proof.
  intros Hinv Hw. pose proof (li_layout y Hinv) as L.
  set (y' := mkSys _ _ _ _ _).
  assert (layout_of y') as L' by by apply layout_commit.
  apply (inv_frame y); simpl; try done.
  - split; simpl; [|intros p Hp; left; by eapply pending_delete|intros lane; unfold enqueue_cursor; simpl; lia].
    intros r [Hr|Hr]%elem_of_app; [left; eauto using spent_app|right; by exists tx, w].
  - intros b. rewrite (ly_writes L tx w Hw), app_nil_r. done.
  - intros c r _ Hr _. apply elem_of_app. by left.
  - intros a [Ha|(b & -> & Hb)%list_elem_of_fmap]%elem_of_app; [by left|right].
    eapply (cancel_advance_sound y y'); eauto; intros; apply elem_of_app; auto.
Qed.

Lemma step_abort_inv y tx :
  lane_inv y -> lane_inv (mkSys (store y) (delete tx (writers y)) (open_claims y) (issued y) (claim_log y)).
Proof.
  intros Hinv. apply (inv_frame y); simpl; try done; auto.
  - split; simpl; [auto|intros p Hp; left; by eapply pending_delete|lia].
  - apply layout_abort, (li_layout y Hinv).
Qed.

Lemma step_rotate_inv y slot :
  lane_inv y ->
  lane_inv (mkSys (set_queue_ring (slot, snd (queue_ring (store y)) + 1) (store y))
              (writers y) (open_claims y) (issued y) (claim_log y)).
Proof.
  intros Hinv. apply (inv_frame y); simpl; try done; auto.
  - split; simpl; [auto|auto|]. intros lane. unfold enqueue_cursor. simpl. lia.
  - apply layout_rotate, (li_layout y Hinv).
Qed.

Lemma step_pause_inv y p :
  lane_inv y ->
  lane_inv (mkSys (mkStore (tables (store y)) (enqueue_seqs (store y)) (claim_seqs (store y))
                     (claim_heads (store y)) (queue_ring (store y)) p (next_receipt (store y)) (next_batch (store y)))
              (writers y) (open_claims y) (issued y) (claim_log y)).
Proof.
  intros Hinv. apply (inv_frame y); simpl; try done; auto.
  - split; simpl; [auto|auto|]. intros lane. unfold enqueue_cursor. simpl. lia.
  - apply (li_layout y Hinv).
Qed.

Lemma step_claim_abort_inv y before c after :
  lane_inv y -> open_claims y = before ++ c :: after ->
  lane_inv (mkSys (store y) (writers y) (before ++ after) (issued y) (claim_log y)).
Proof.
  intros Hinv Ho. apply (inv_frame y); simpl; try done; auto.
  - split; simpl; [auto|auto|lia].
  - apply (li_layout y Hinv).
  - rewrite Ho. apply sublist_app; [done|]. by apply sublist_cons.
Qed.

Lemma step_prune_inv y ring :
  lane_inv y ->
  (forall tx w b, writers y !! tx = Some w -> b ∈ ready_tombstones (wr_tables w) -> tb_ring b <> ring) ->
  (forall c, c ∈ open_claims y -> ab_ring (cl_attempts c) <> ring) ->
  lane_inv (mkSys (set_tables (truncate_slot ring (tables (store y))) (store y))
              (writers y) (open_claims y) (issued y) (claim_log y)).
Proof.
  intros Hinv Ht Hc. apply (inv_frame y); simpl; try done; auto.
  - split; simpl; [|auto|intros lane; unfold enqueue_cursor; simpl; lia]. intros r [Hr Hne]%elem_of_filter_ring. left. split; [done|].
    apply spent_mono; intros b Hb Hring; apply elem_of_filter_ring; split; congruence.
  - apply layout_prune; [apply (li_layout y Hinv)|done].
  - intros b [Hb _]%elem_of_filter_ring. done.
  - intros c r Hin Hr Hring. apply elem_of_filter_ring. split; [done|]. rewrite Hring. by apply Hc.
Qed.

(** ** Moving the cursor *)

Definition with_store (s : Store) (y : Sys) : Sys := mkSys s (writers y) (open_claims y) (issued y) (claim_log y).

Lemma grows_same y y' :
  tables (store y') = tables (store y) -> writers y' = writers y -> enqueue_seqs (store y') = enqueue_seqs (store y) ->
  grows y y'.
Proof.
  intros Et Ew Ee. split; rewrite ?Et, ?Ew; auto. intros lane. unfold enqueue_cursor. rewrite Ee. lia.
Qed.

Lemma claim_cursor_set lane q s lane' :
  claim_cursor (set_claim_seq lane q s) lane' = if decide (lane = lane') then sequence_next_value q else claim_cursor s lane'.
Proof. unfold claim_cursor. simpl. rewrite seq_at_insert. by case_decide. Qed.

Lemma inv_cursor y lane q :
  lane_inv y -> 1 <= sequence_next_value q -> covered y lane (fun n => n < sequence_next_value q) ->
  lane_inv (with_store (set_claim_seq lane q (store y)) y).
Proof.
  intros [] Hq Hc. assert (grows y (with_store (set_claim_seq lane q (store y)) y)) as Hg by by apply grows_same.
  split; try done.
  - intros l. cbn [store with_store]. rewrite claim_cursor_set. by case_decide.
  - intros l. cbn [store with_store]. rewrite claim_cursor_set. case_decide; subst; eauto using covered_grows.
  - intros b Hb. destruct (li_batches0 b Hb) as [? ?]. split; eauto using covered_grows.
  - intros c Hin. eauto using claim_ok_grows.
  - intros x Hx. eauto using covered_grows.
  - intros a Ha. eauto using sound_grows.
Qed.

(** A lane may be advanced to any covered number. *)
Lemma inv_advance y lane n :
  lane_inv y -> covered y lane (fun m => m < n) ->
  lane_inv (with_store (set_claim_seq lane (set_sequence_next n (seq_at lane (claim_seqs (store y)))) (store y)) y).
Proof.
  intros Hinv Hc. pose proof (li_seqs y Hinv lane) as Hs. unfold claim_cursor in Hs.
  apply inv_cursor; [done|rewrite next_set_sequence by done; lia|].
  eapply covered_weaken; [|apply (covered_union _ _ _ _ Hc (li_cursor y Hinv lane))].
  intros m Hm. rewrite next_set_sequence in Hm by done. unfold claim_cursor. lia.
Qed.

Lemma evidence_covered y ring lane n :
  lane_inv y -> attempted_at (tables (store y)) ring lane n = true -> covered y lane (fun m => m < n + 1).
Proof.
  intros Hinv (b & Hb & _ & <- & Hn & Hr)%attempted_at_spec. destruct (li_batches y Hinv b Hb) as [Hc _].
  eapply covered_weaken; [|exact Hc]. simpl. lia.
Qed.

Lemma advance_one_inv y a :
  lane_inv y -> sound y a -> lane_inv (with_store (advance_claim_cursor a (store y)) y).
Proof.
  intros Hinv Ha. unfold advance_claim_cursor. destruct (advance_applies (store y) a) eqn:Happ; [|by destruct y].
  unfold advance_applies in Happ. apply andb_true_iff in Happ as [Hk He]. apply inv_advance; [done|].
  unfold sound in Ha. destruct (only_if_current a) as [k|], (evidence a) as [e|]; try done.
  - apply Z.eqb_eq in Hk. destruct Ha as [-> Ha].
    eapply covered_weaken; [|apply (covered_union _ _ _ _ (li_cursor y Hinv (adv_lane a)) Ha)]. simpl. lia.
  - rewrite Ha. by eapply evidence_covered.
Qed.

Lemma advance_frame a s :
  tables (advance_claim_cursor a s) = tables s /\ enqueue_seqs (advance_claim_cursor a s) = enqueue_seqs s.
Proof. unfold advance_claim_cursor. by destruct (advance_applies s a). Qed.

Lemma advance_all_inv y advances :
  lane_inv y -> Forall (sound y) advances -> lane_inv (with_store (advance_claim_cursors_strict advances (store y)) y).
Proof.
  revert y. induction advances as [|a l IH]; intros y Hinv Hs; [by destruct y|].
  apply Forall_cons in Hs as [Ha Hl]. unfold advance_claim_cursors_strict. simpl.
  apply (IH (with_store (advance_claim_cursor a (store y)) y)); [by apply advance_one_inv|].
  eapply Forall_impl; [exact Hl|]. intros b. apply sound_grows. apply grows_same; simpl; try done; apply advance_frame.
Qed.

(** ** Normalized advances *)

Definition group_sound (y : Sys) (m : gmap (string * Z * Z) (option (Z * option ClaimEvidence) * gmap Z Z)) : Prop :=
  forall lane u cond, m !! lane = Some (u, cond) ->
    (forall n e, u = Some (n, e) -> sound y (mkAdvance lane n None e))
    /\ (forall k n, cond !! k = Some n -> sound y (mkAdvance lane n (Some k) None)).

Lemma group_advance_sound y m a : group_sound y m -> sound y a -> group_sound y (group_advance m a).
Proof.
  intros Hm Ha lane u cond. unfold group_advance.
  destruct (default (None, ∅) (m !! adv_lane a)) as [u0 c0] eqn:Hd.
  assert ((forall n e, u0 = Some (n, e) -> sound y (mkAdvance (adv_lane a) n None e))
          /\ (forall k n, c0 !! k = Some n -> sound y (mkAdvance (adv_lane a) n (Some k) None))) as [Hu Hc].
  { destruct (m !! adv_lane a) as [[u1 c1]|] eqn:Hl; simpl in Hd; injection Hd as <- <-; [by apply Hm|].
    split; [done|]. intros k n Hk. by rewrite lookup_empty in Hk. }
  destruct a as [l n only ev]. simpl in *. intros [[<- Heq]|[_ Hl]]%lookup_insert_Some; [|by apply Hm].
  destruct only as [k|].
  - injection Heq as <- <-. split; [done|]. intros k' n' [[<- <-]|[_ Hk]]%lookup_insert_Some; [|by apply Hc].
    destruct (c0 !! k) as [n0|] eqn:H0; [|by destruct ev].
    specialize (Hc k n0 H0). unfold sound in *. simpl in *. destruct ev; [done|]. destruct Ha as [-> ?], Hc as [-> ?].
    split; [lia|done].
  - injection Heq as <- <-. split; [|done]. intros n' e. destruct u0 as [[n0 e0]|].
    + destruct (n0 <? n); intros [= <- <-]; [done|]. by apply Hu.
    + by intros [= <- <-].
Qed.

Lemma normalize_sound y l : Forall (sound y) l -> Forall (sound y) (normalize_claim_cursor_advances l).
Proof.
  intros Hl. unfold normalize_claim_cursor_advances.
  assert (group_sound y (fold_left group_advance l ∅)) as Hg.
  { assert (group_sound y ∅) as H0 by (intros lane u c Hl0; by rewrite lookup_empty in Hl0).
    revert H0. generalize (∅ : gmap (string * Z * Z) (option (Z * option ClaimEvidence) * gmap Z Z)).
    induction Hl as [|a l Ha Hl IH]; intros m Hm; [done|]. simpl. apply IH. by apply group_advance_sound. }
  apply Forall_concat, Forall_map, Forall_forall. intros [lane [[[n e]|] cond]] Hin%elem_of_map_to_list;
    destruct (Hg _ _ _ Hin) as [Hu Hc]; simpl.
  - constructor; [by apply Hu|constructor].
  - apply Forall_map, Forall_forall. intros [k n] Hk%elem_of_map_to_list. by apply Hc.
Qed.

Lemma step_advance_inv y advances :
  lane_inv y -> Forall (fun a => a ∈ issued y) advances ->
  lane_inv (mkSys (advance_claim_cursors_strict (normalize_claim_cursor_advances advances) (store y))
              (writers y) (open_claims y) (issued y) (claim_log y)).
Proof.
  intros Hinv Ha. apply (advance_all_inv y); [done|]. apply normalize_sound.
  eapply Forall_impl; [exact Ha|]. apply (li_issued y Hinv).
Qed.

(** ** Claiming *)

Lemma first_segment_Some t lane cursor g :
  first_segment t lane cursor = Some g ->
  g ∈ ready_segments t /\ sg_lane g = lane /\ cursor < next_lane_seq g
  /\ forall g', g' ∈ ready_segments t -> sg_lane g' = lane -> cursor < next_lane_seq g' -> next_lane_seq g <= next_lane_seq g'.
Proof.
  unfold first_segment. intros H. pose proof (head_elem _ _ H) as Hin.
  rewrite (merge_sort_Permutation segment_le), elem_of_filter_b, andb_true_iff, bool_decide_eq_true, Z.ltb_lt in Hin.
  destruct Hin as [[? ?] ?]. split_and!; try done. intros g' Hg' Hl Hc.
  eapply (head_sorted segment_le); [exact H|]. by rewrite elem_of_filter_b, andb_true_iff, bool_decide_eq_true, Z.ltb_lt.
Qed.

Lemma merge_sort_nil {A} (R : A -> A -> Prop) `{!RelDecision R} l : head (merge_sort R l) = None -> l = [].
Proof.
  intros H. apply Permutation_nil_r. rewrite <- (merge_sort_Permutation R l). by destruct (merge_sort R l).
Qed.

Lemma first_segment_None t lane cursor g :
  first_segment t lane cursor = None -> g ∈ ready_segments t -> sg_lane g = lane -> next_lane_seq g <= cursor.
Proof.
  intros H%merge_sort_nil Hg Hl. destruct (decide (cursor < next_lane_seq g)) as [Hlt|]; [|lia]. exfalso.
  eapply not_elem_of_nil. rewrite <- H. by rewrite elem_of_filter_b, andb_true_iff, bool_decide_eq_true, Z.ltb_lt.
Qed.

Lemma rows_from_elem t lane ring cursor r :
  r ∈ rows_from t lane ring cursor <->
  r ∈ ready_entries t /\ lane_of r = lane /\ ring_of r = ring /\ cursor <= seq_of r.
Proof.
  unfold rows_from.
  rewrite (merge_sort_Permutation seq_le), elem_of_filter_b, !andb_true_iff, !bool_decide_eq_true, Z.leb_le. tauto.
Qed.

Definition seq_lt (a b : ReadyEntry) : Prop := seq_of a < seq_of b.

Lemma StronglySorted_strict l lane :
  StronglySorted seq_le l -> NoDup (map row_key l) -> (forall r, r ∈ l -> lane_of r = lane) -> StronglySorted seq_lt l.
Proof.
  induction l as [|r l IH]; intros Hs Hn Hl; [constructor|]. apply StronglySorted_inv in Hs as [Hs Hr].
  apply NoDup_cons in Hn as [Hnr Hn]. constructor; [apply IH; auto; intros; apply Hl; by right|].
  rewrite Forall_forall in *. intros x Hx. specialize (Hr x Hx). unfold seq_le, seq_lt in *.
  assert (seq_of r <> seq_of x); [|lia]. intros E. apply Hnr. apply list_elem_of_fmap. exists x. split; [|done].
  unfold row_key. rewrite E. f_equal. rewrite (Hl r), (Hl x); [done|by right|by left].
Qed.

Lemma rows_from_sorted t lane ring cursor :
  NoDup (map row_key (ready_entries t)) -> StronglySorted seq_lt (rows_from t lane ring cursor).
Proof.
  intros Hn. apply (StronglySorted_strict _ lane).
  - apply (StronglySorted_merge_sort seq_le).
  - unfold rows_from. rewrite (merge_sort_Permutation seq_le). by apply NoDup_map_filter.
  - intros r Hr. apply rows_from_elem in Hr as (_ & ? & _). done.
Qed.

Lemma sorted_take_prefix {A} (R : A -> A -> Prop) (l : list A) n x y :
  StronglySorted R l -> (forall a b, R a b -> ~ R b a) -> (forall a, ~ R a a) ->
  x ∈ take n l -> y ∈ l -> R y x -> y ∈ take n l.
Proof.
  intros Hs Ha Hi. revert n. induction Hs as [|z l Hs IH Hz]; intros n; [destruct n; by intros ?%elem_of_nil|].
  destruct n as [|n]; simpl; [by intros ?%elem_of_nil|]. intros Hx Hy HR.
  apply elem_of_cons in Hy as [->|Hy]; [left|]. apply elem_of_cons in Hx as [->|Hx]; [|right; by apply IH].
  rewrite Forall_forall in Hz. by destruct (Ha z y (Hz y Hy)).
Qed.

Lemma sorted_lower (l : list ReadyEntry) k c r :
  StronglySorted seq_lt l -> (forall x, x ∈ l -> c <= seq_of x) -> l !! k = Some r -> c + Z.of_nat k <= seq_of r.
Proof.
  intros Hs. revert k c. induction Hs as [|r0 l Hs IH H0]; intros k c Hge Hk; [done|].
  destruct k as [|k]; simpl in Hk; [injection Hk as ->; specialize (Hge r ltac:(left)); lia|].
  specialize (Hge r0 ltac:(left)). assert (c + 1 + Z.of_nat k <= seq_of r); [|lia]. apply IH; [|done].
  rewrite Forall_forall in H0. intros x Hx. specialize (H0 x Hx). unfold seq_lt in H0. lia.
Qed.

Lemma StronglySorted_filter_b {A} (R : A -> A -> Prop) (f : A -> bool) l :
  StronglySorted R l -> StronglySorted R (List.filter f l).
Proof.
  induction 1 as [|x l Hs IH Hx]; simpl; [constructor|]. destruct (f x); [|done]. constructor; [done|].
  rewrite Forall_forall in *. intros z [_ Hz]%elem_of_filter_b. auto.
Qed.

Lemma StronglySorted_take {A} (R : A -> A -> Prop) n l : StronglySorted R l -> StronglySorted R (take n l).
Proof.
  intros Hs. revert n. induction Hs as [|x l Hs IH Hx]; intros [|n]; simpl; try constructor; auto.
  rewrite Forall_forall in *. intros z Hz. apply Hx. rewrite <- (take_drop n l). apply elem_of_app. by left.
Qed.

Lemma foldr_max_elem x l : x ∈ l -> foldr Z.max x l ∈ l /\ forall z, z ∈ l -> z <= foldr Z.max x l.
Proof.
  intros Hx. destruct (max_of_spec (x :: l) (foldr Z.max x l) eq_refl) as [Hin Hle]. split.
  - apply elem_of_cons in Hin as [->|Hin]; done.
  - intros z Hz. apply Hle. by right.
Qed.

Lemma foldr_min_le x l z : z ∈ l -> foldr Z.min x l <= z.
Proof. induction l as [|a l IH]; simpl; [by intros ?%elem_of_nil|]. intros [->|Hz%IH]%elem_of_cons; lia. Qed.

Lemma aged_fst {A B} (g : A -> result AwaError B) (l : list A) aged :
  all_ok (fun r => let? p := g r in Ok (r, p)) l = Ok aged -> map fst aged = l.
Proof.
  revert aged. induction l as [|r l IH]; intros aged H; simpl in H; [by injection H as <-|].
  apply rbind_Ok in H as ([r' p] & Hr & H). apply rbind_Ok in Hr as (p' & _ & [= <- <-]).
  apply rbind_Ok in H as (ys & Hys & [= <-]). simpl. by rewrite (IH ys Hys).
Qed.

Lemma filter_map_fst {A B} (f : A -> bool) (l : list (A * B)) :
  map fst (List.filter (fun x => f (fst x)) l) = List.filter f (map fst l).
Proof. induction l as [|[a b] l IH]; [done|]. simpl. destruct (f a); simpl; by rewrite IH. Qed.

Lemma receipts_fst base rows : map (fun x => snd (fst x)) (with_receipts base rows) = map fst rows.
Proof.
  unfold with_receipts. etransitivity; [apply (fmap_imap _ (fun x => snd (fst x)))|].
  etransitivity; [|exact (imap_const fst rows)]. by apply imap_ext.
Qed.

Lemma Ok_Some_inj {E A} (a b : A) : @Ok E _ (Some a) = Ok (Some b) -> a = b.
Proof. congruence. Qed.

Definition live_rows (t : Tables) (selected : list ReadyEntry) : list ReadyEntry :=
  List.filter (fun r => negb (tombstoned t r)) selected.

(** What [claim_ready_slot] takes: the selected rows without a tombstone. *)
Lemma claim_slot_shape env t lane ring receipt batch selected c :
  claim_ready_slot env t lane ring receipt batch selected = Ok (Some c) ->
  let b := cl_attempts c in
  ab_ring b = ring /\ ab_lane b = lane /\ lane_ranges b = map seq_of (live_rows t selected)
  /\ ab_next b - 1 ∈ lane_ranges b /\ (forall n, n ∈ lane_ranges b -> ab_first b <= n < ab_next b)
  /\ exists rows base batches, map fst rows = live_rows t selected
       /\ cl_rows c = map (claimed_row env lane batches) (with_receipts base rows).
Proof.
  unfold claim_ready_slot. intros H. apply rbind_Ok in H as (aged & Haged & H). apply aged_fst in Haged.
  pose proof (filter_map_fst (fun r => negb (tombstoned t r)) aged) as Hlive. rewrite Haged in Hlive.
  fold (live_rows t selected) in Hlive. cbv zeta in H.
  destruct (List.filter _ aged) as [|[r p] rows] eqn:Hf; [done|]. apply Ok_Some_inj in H as <-. cbn [cl_attempts cl_rows].
  set (seqs := map (fun rp : ReadyEntry * Z => seq_of (fst rp)) ((r, p) :: rows)).
  assert (seqs = map seq_of (live_rows t selected)) as Hseqs.
  { rewrite <- Hlive, map_map. done. }
  assert (seq_of r ∈ seqs) as Hr by left.
  destruct (foldr_max_elem (seq_of r) seqs Hr) as [Hmax Hle].
  split; [done|]. split; [done|]. split; [exact Hseqs|]. cbn [lane_ranges ab_next ab_first].
  split; [|split].
  - replace (_ + 1 - 1) with (foldr Z.max (seq_of r) seqs) by lia. done.
  - intros n Hn. pose proof (foldr_min_le (seq_of r) seqs n Hn). specialize (Hle n Hn). lia.
  - by eexists ((r, p) :: rows), receipt, _.
Qed.

Lemma claimed_rows_keys env lane batches base rows :
  map lease_key (map (claimed_row env lane batches) (with_receipts base rows)) = map (fun rp => row_key (fst rp)) rows
  /\ map lease_ring_of (map (claimed_row env lane batches) (with_receipts base rows)) = map (fun rp => ring_of (fst rp)) rows.
Proof.
  rewrite !map_map. rewrite <- (map_map fst row_key), <- (map_map fst ring_of), <- (receipts_fst base rows), !map_map.
  split; apply map_ext; by intros [[item r] p].
Qed.

Section ClaimLane.
Context (y : Sys) (Hinv : lane_inv y) (lane : string * Z * Z).
Abbreviation t := (tables (store y)) (only parsing).
Abbreviation rows := (ready_entries t) (only parsing).
Let L : layout_of y := li_layout y Hinv.

Lemma row_eq r r' : r ∈ rows -> r' ∈ rows -> lane_of r = lane_of r' -> seq_of r = seq_of r' -> r = r'.
Proof.
  intros Hr Hr' Hl Hs. apply (NoDup_map_inj _ _ _ _ (ly_unique L)); auto. unfold row_key. by rewrite Hl, Hs.
Qed.

Lemma segment_last g :
  g ∈ ready_segments t -> exists r, r ∈ rows /\ lane_of r = sg_lane g /\ ring_of r = sg_ring g /\ seq_of r = next_lane_seq g - 1.
Proof.
  intros Hg. apply (sg_solid _ _ (ly_segs L) g); [done|]. pose proof (sg_nonempty _ _ (ly_segs L) g Hg). lia.
Qed.

(** The first row of the segment's slot is the lane's first from the cursor. *)
Lemma head_first cursor g h r :
  first_segment t lane cursor = Some g -> head (rows_from t lane (sg_ring g) cursor) = Some h ->
  r ∈ rows -> lane_of r = lane -> cursor <= seq_of r -> seq_of h <= seq_of r.
Proof.
  intros Hg Hh Hr Hl Hc. destruct (first_segment_Some _ _ _ _ Hg) as (Hgin & Hgl & Hgn & Hmin).
  destruct (decide (seq_of h <= seq_of r)) as [|Hlt]; [done|]. exfalso.
  assert (forall x, x ∈ rows_from t lane (sg_ring g) cursor -> seq_of h <= seq_of x) as Hhd.
  { intros x Hx. eapply (head_sorted seq_le); [exact Hh|]. unfold rows_from in Hx. by rewrite (merge_sort_Permutation seq_le) in Hx. }
  destruct (sg_cover _ _ (ly_segs L) r Hr) as (g' & Hg' & Hl' & Hr' & Hs').
  destruct (segment_last g Hgin) as (l & Hlin & Hll & Hlr & Hls).
  assert (next_lane_seq g <= next_lane_seq g') by (apply Hmin; [done|congruence|lia]).
  assert (seq_of h <= seq_of l) by (apply Hhd, rows_from_elem; repeat split; auto; [congruence|lia]).
  destruct (sg_solid _ _ (ly_segs L) g' (seq_of l) Hg') as (l' & Hl'in & Hl'l & Hl'r & Hl's); [lia|].
  assert (l' = l) as -> by (apply row_eq; auto; congruence).
  assert (seq_of h <= seq_of r); [|lia]. apply Hhd, rows_from_elem. repeat split; auto; congruence.
Qed.

Lemma head_exists cursor g :
  first_segment t lane cursor = Some g -> head (rows_from t lane (sg_ring g) cursor) <> None.
Proof.
  intros Hg Hn. destruct (first_segment_Some _ _ _ _ Hg) as (Hgin & Hgl & Hgn & _).
  destruct (segment_last g Hgin) as (l & Hlin & Hll & Hlr & Hls).
  assert (l ∈ rows_from t lane (sg_ring g) cursor) as Hin by (apply rows_from_elem; repeat split; auto; [congruence|lia]).
  destruct (rows_from t lane (sg_ring g) cursor); [by apply elem_of_nil in Hin|done].
Qed.

Lemma covered_to_row cursor r :
  covered y lane (fun n => n < cursor) -> r ∈ rows -> lane_of r = lane ->
  (forall x, x ∈ rows -> lane_of x = lane -> cursor <= seq_of x -> seq_of r <= seq_of x) ->
  covered y lane (fun n => n < seq_of r).
Proof.
  intros [H1 H2 H3] Hr Hl Hmin. split.
  - intros x Hx Hxl Hs. destruct (decide (seq_of x < cursor)); [auto|]. specialize (Hmin x Hx Hxl). lia.
  - intros p Hp Hpl Hs. pose proof (ly_order L r p Hr Hp (eq_trans Hl (eq_sym Hpl))). lia.
  - intros n Hn. destruct (ly_placed L r (or_introl Hr)) as [Hlt _]. rewrite Hl in Hlt.
    change (enqueue_cursor (store y) lane) with (next_at (enqueue_seqs (store y)) lane). lia.
Qed.

(** Past a spent row. *)
Lemma covered_past_row r :
  covered y lane (fun n => n < seq_of r) -> r ∈ rows -> lane_of r = lane -> spent t r = true ->
  covered y lane (fun n => n < seq_of r + 1).
Proof.
  intros [H1 H2 H3] Hr Hl Hspent. split.
  - intros x Hx Hxl Hs. destruct (decide (seq_of x < seq_of r)); [auto|].
    assert (x = r) as ->; [|done]. apply row_eq; auto; [congruence|lia].
  - intros p Hp Hpl Hs. pose proof (ly_order L r p Hr Hp (eq_trans Hl (eq_sym Hpl))). lia.
  - intros n Hn. destruct (ly_placed L r (or_introl Hr)) as [Hlt _]. rewrite Hl in Hlt.
    change (enqueue_cursor (store y) lane) with (next_at (enqueue_seqs (store y)) lane). lia.
Qed.

Lemma catch_up_covered ring cursor n :
  evidence_next t lane ring cursor = Some n -> covered y lane (fun m => m < n) /\ cursor < n.
Proof.
  unfold evidence_next. intros [Hin _]%max_of_spec. apply list_elem_of_fmap in Hin as (b & -> & Hb).
  rewrite elem_of_filter_b, !andb_true_iff, !bool_decide_eq_true, Z.ltb_lt in Hb.
  destruct Hb as [[[_ <-] ?] Hb]. split; [apply (li_batches y Hinv b Hb)|done].
Qed.

(** The spent run from the cursor on. *)
Lemma prefix_covered (l : list ReadyEntry) k cursor r :
  StronglySorted seq_lt l -> (forall x, x ∈ l -> x ∈ rows /\ lane_of x = lane /\ spent t x = true) ->
  (forall x, x ∈ l -> cursor <= seq_of x) -> covered y lane (fun n => n < cursor) ->
  l !! k = Some r -> seq_of r = cursor + Z.of_nat k -> covered y lane (fun n => n < seq_of r + 1).
Proof.
  intros Hs. revert k cursor. induction Hs as [|r0 l Hs IH H0]; intros k cursor Hl Hge Hc Hk Hr; [done|].
  destruct (Hl r0) as (? & ? & ?); [left|].
  destruct k as [|k]; simpl in Hk.
  - injection Hk as ->. apply covered_past_row; auto. eapply covered_weaken; [|exact Hc]. simpl. lia.
  - assert (seq_of r0 + 1 + Z.of_nat k <= seq_of r) as Hlow.
    { apply (sorted_lower l); auto. rewrite Forall_forall in H0. intros x Hx. specialize (H0 x Hx). unfold seq_lt in H0. lia. }
    specialize (Hge r0 ltac:(left)). assert (seq_of r0 = cursor) as E by lia.
    apply (IH k (cursor + 1)); [intros; apply Hl; by right| | |done|lia].
    + rewrite Forall_forall in H0. intros x Hx. specialize (H0 x Hx). unfold seq_lt in H0. lia.
    + rewrite <- E. apply covered_past_row; auto. by rewrite E.
Qed.

Lemma spent_prefix_covered cursor selected n :
  StronglySorted seq_lt selected -> (forall x, x ∈ selected -> x ∈ rows /\ lane_of x = lane /\ cursor <= seq_of x) ->
  covered y lane (fun m => m < cursor) -> spent_prefix t cursor selected = Some n -> covered y lane (fun m => m < n).
Proof.
  intros Hs Hsel Hc Hn. unfold spent_prefix in Hn. cbv zeta in Hn.
  destruct (max_of _) as [m|] eqn:Hm; [|done]. injection Hn as <-. apply max_of_spec in Hm as [Hin _].
  apply list_elem_of_fmap in Hin as ([s d] & -> & Hin). apply elem_of_filter_b in Hin as [Hd Hin].
  apply elem_of_imap_iff in Hin as (k & r & Hk & [= -> ->]). simpl in *. apply Z.eqb_eq in Hd.
  assert (forall x, x ∈ List.filter (spent t) selected -> spent t x = true /\ x ∈ selected) as Hf.
  { intros x. by rewrite elem_of_filter_b. }
  apply (prefix_covered (List.filter (spent t) selected) k cursor); auto; [| | |lia].
  - by apply StronglySorted_filter_b.
  - intros x [? [? [? ?]]%Hsel]%Hf. auto.
  - intros x [? [? [? ?]]%Hsel]%Hf. auto.
Qed.

Lemma spent_prefix_moves cursor h selected :
  seq_of h = cursor -> spent t h = true -> exists n, spent_prefix t cursor (h :: selected) = Some n /\ cursor < n.
Proof.
  intros Hh Hs. unfold spent_prefix. simpl. rewrite Hs. simpl. rewrite Hh.
  assert ((cursor - (Z.of_nat 0 + 1) =? cursor - 1) = true) as -> by (apply Z.eqb_eq; lia). simpl.
  eexists. split; [reflexivity|]. induction (map fst _) as [|a l IH]; simpl; lia.
Qed.

(** A row of the lane that is not spent comes after every claim. *)
Lemma live_after_batches r b :
  r ∈ rows -> lane_of r = lane -> spent t r = false -> b ∈ attempt_batches t -> ab_lane b = lane -> ab_next b <= seq_of r.
Proof.
  intros Hr Hl Hs Hb Hbl. destruct (decide (ab_next b <= seq_of r)) as [|Hlt]; [done|].
  destruct (li_batches y Hinv b Hb) as [[Hc _ _] _]. rewrite (Hc r) in Hs; [done|done|congruence|lia].
Qed.

Lemma live_after_log r x :
  r ∈ rows -> lane_of r = lane -> spent t r = false -> x ∈ claim_log y -> rl_lane x = lane -> lane_seq (rl_pos x) < seq_of r.
Proof.
  intros Hr Hl Hs Hx Hxl. destruct (decide (lane_seq (rl_pos x) < seq_of r)) as [|Hge]; [done|].
  destruct (li_log y Hinv x Hx) as [Hc _ _]. rewrite (Hc r) in Hs; [done|done|congruence|lia].
Qed.

(** The rows selected from a head that is not spent. *)
Section Selected.
Context (ring : Z * Z) (h : ReadyEntry) (k : nat).
Hypothesis Hc : covered y lane (fun n => n < seq_of h).
Hypothesis Hh : head (rows_from t lane ring (seq_of h)) = Some h.
Hypothesis Hlive : spent t h = false.
Let selected : list ReadyEntry := take k (rows_from t lane ring (seq_of h)).

Lemma head_row : h ∈ rows /\ lane_of h = lane /\ ring_of h = ring.
Proof. apply head_elem, rows_from_elem in Hh as (? & ? & ? & _). auto. Qed.

Lemma selected_elem r : r ∈ selected -> r ∈ rows /\ lane_of r = lane /\ ring_of r = ring /\ seq_of h <= seq_of r.
Proof.
  intros Hr. apply (rows_from_elem t lane ring (seq_of h)). unfold selected in Hr.
  rewrite <- (take_drop k (rows_from _ _ _ _)). apply elem_of_app. by left.
Qed.

Lemma selected_sorted : StronglySorted seq_lt selected.
Proof. apply StronglySorted_take, rows_from_sorted, (ly_unique L). Qed.

Lemma live_selected_spent r : r ∈ live_rows t selected -> r ∈ selected /\ spent t r = false.
Proof.
  intros [Ht Hr]%elem_of_filter_b. split; [done|]. apply negb_true_iff in Ht. unfold spent. rewrite Ht. simpl.
  destruct (attempted t r) eqn:Ha; [|done]. apply attempted_at_spec in Ha as (b & Hb & Hbr & Hbl & _ & Hbn).
  destruct (selected_elem r Hr) as (Hin & Hl & Hrr & Hge). destruct head_row as (Hhr & Hhl & _).
  pose proof (live_after_batches h b Hhr Hhl Hlive Hb). rewrite Hbl in *. specialize (H Hl). lia.
Qed.

(** Everything of the lane up to the last row selected is behind the head, or
    selected too. *)
Lemma selected_upto r x :
  r ∈ rows -> lane_of r = lane -> x ∈ selected -> seq_of r <= seq_of x -> spent t r = true \/ r ∈ selected.
Proof.
  intros Hr Hl Hx Hle. destruct (selected_elem x Hx) as (Hxr & Hxl & Hxring & Hxge).
  destruct head_row as (Hhr & Hhl & Hhring).
  destruct (decide (seq_of r < seq_of h)) as [Hlt|Hge]; [left; by apply Hc|]. right.
  assert (ring_of r = ring) as Hring.
  { rewrite <- Hhring. apply (ly_rings L); [by left|by left|].
    pose proof (ly_gens L h r (or_introl Hhr) (or_introl Hr) (eq_trans Hhl (eq_sym Hl)) ltac:(lia)).
    pose proof (ly_gens L r x (or_introl Hr) (or_introl Hxr) (eq_trans Hl (eq_sym Hxl)) ltac:(lia)).
    assert (gen_of x = gen_of h) by (unfold gen_of; congruence). lia. }
  assert (r ∈ rows_from t lane ring (seq_of h)) as Hin by (apply rows_from_elem; repeat split; auto; lia).
  destruct (decide (seq_of r = seq_of x)) as [E|Hne].
  - assert (r = x) as -> by (apply row_eq; auto; congruence). done.
  - eapply (sorted_take_prefix seq_lt); [apply rows_from_sorted, (ly_unique L)| | |exact Hx|done|];
      unfold seq_lt; intros; lia.
Qed.

Lemma claim_slot_ok env receipt batch c :
  claim_ready_slot env t lane ring receipt batch selected = Ok (Some c) ->
  ab_lane (cl_attempts c) = lane /\ claim_ok y c
  /\ (forall n, n ∈ lane_ranges (cl_attempts c) -> exists r, r ∈ rows /\ lane_of r = lane /\ seq_of r = n /\ spent t r = false).
Proof.
  intros (Er & El & Eranges & Hlast & Hbounds & rs & base & batches & Hrs & Erows)%claim_slot_shape.
  set (b := cl_attempts c) in *.
  assert (forall n, n ∈ lane_ranges b -> exists r, r ∈ live_rows t selected /\ seq_of r = n) as Hn.
  { intros n Hin. rewrite Eranges in Hin. apply list_elem_of_fmap in Hin as (r & -> & Hr). eauto. }
  destruct (Hn _ Hlast) as (x & Hx & Hxs). apply live_selected_spent in Hx as [Hx _].
  split; [done|]. split; [split|].
  - fold b. rewrite El. split.
    + intros r Hr Hl [Hlt Hnot]. destruct (selected_upto r x Hr Hl Hx ltac:(lia)) as [|Hsel]; [done|].
      destruct (tombstoned t r) eqn:Ht; [unfold spent; by rewrite Ht|]. exfalso. apply Hnot. rewrite Eranges.
      apply list_elem_of_fmap_2, elem_of_filter_b. by rewrite Ht.
    + intros p Hp Hpl [Hlt _]. destruct (selected_elem x Hx) as (Hxr & Hxl & _).
      pose proof (ly_order L x p Hxr Hp (eq_trans Hxl (eq_sym Hpl))). lia.
    + intros n [Hlt _]. destruct (selected_elem x Hx) as (Hxr & Hxl & _).
      destruct (ly_placed L x (or_introl Hxr)) as [Hp _]. rewrite Hxl in Hp.
      change (enqueue_cursor (store y) lane) with (next_at (enqueue_seqs (store y)) lane). lia.
  - intros n Hin. split; [by apply Hbounds|]. destruct (Hn n Hin) as (r & [Hr _]%live_selected_spent & Hs).
    destruct (selected_elem r Hr) as (? & ? & ? & _). exists r. fold b. rewrite El, Er. auto.
  - done.
  - fold b. rewrite Eranges. pose proof (StronglySorted_filter_b _ (fun r => negb (tombstoned t r)) _ selected_sorted) as Hs.
    fold (live_rows t selected) in Hs. clear -Hs. induction Hs as [|r l Hs IH Hr]; simpl; constructor; [done|].
    apply Forall_map. eapply Forall_impl; [exact Hr|]. done.
  - fold b. rewrite Erows, Eranges, El, Er. destruct (claimed_rows_keys env lane batches base rs) as [Hk Hring]. split.
    + rewrite Hk, <- (map_map fst row_key), Hrs, map_map. apply map_ext_Forall, Forall_forall.
      intros r [Hr _]%live_selected_spent. unfold row_key. by destruct (selected_elem r Hr) as (_ & -> & _).
    + apply Forall_forall. intros z Hz. apply (list_elem_of_fmap_2 lease_ring_of) in Hz.
      change (lease_ring_of <$> ?l) with (map lease_ring_of l) in Hz. rewrite Hring, <- (map_map fst ring_of), Hrs in Hz.
      apply list_elem_of_fmap in Hz as (r & -> & [Hr _]%live_selected_spent). by destruct (selected_elem r Hr) as (_ & _ & ? & _).
  - intros n Hin. destruct (Hn n Hin) as (r & [Hr Hs]%live_selected_spent & Hsn).
    destruct (selected_elem r Hr) as (? & ? & _). eauto.
Qed.
End Selected.

Lemma rows_from_head_self ring cursor h :
  head (rows_from t lane ring cursor) = Some h -> head (rows_from t lane ring (seq_of h)) = Some h.
Proof.
  intros Hh. pose proof Hh as (Hin & Hl & Hr & Hc)%head_elem%rows_from_elem.
  assert (h ∈ rows_from t lane ring (seq_of h)) as Hself by (apply rows_from_elem; auto with lia).
  destruct (head (rows_from t lane ring (seq_of h))) as [h'|] eqn:Hh'.
  - f_equal. pose proof Hh' as (Hin' & Hl' & Hr' & Hc')%head_elem%rows_from_elem. apply row_eq; auto; [congruence|].
    assert (seq_of h <= seq_of h').
    { apply (head_sorted seq_le _ _ _ Hh). rewrite <- (merge_sort_Permutation seq_le). apply rows_from_elem. auto with lia. }
    assert (seq_of h' <= seq_of h); [|lia].
    apply (head_sorted seq_le _ _ _ Hh'). rewrite <- (merge_sort_Permutation seq_le). apply rows_from_elem. auto with lia.
  - exfalso. by destruct (rows_from t lane ring (seq_of h)); [apply elem_of_nil in Hself|].
Qed.

(** What a claim of the lane does: the cursor ends at a covered number, and what
    is claimed is a claim of live rows.  With a segment beyond the cursor and a
    batch to fill, it claims, or it raises, or the cursor has moved. *)
Definition claims_live (c : Claimed) : Prop :=
  ab_lane (cl_attempts c) = lane /\ claim_ok y c
  /\ forall n, n ∈ lane_ranges (cl_attempts c) -> exists r, r ∈ rows /\ lane_of r = lane /\ seq_of r = n /\ spent t r = false.

Definition lane_outcome (env : ClaimEnv) (start next : Z) (res : result AwaError (option Claimed)) : Prop :=
  start <= next /\ covered y lane (fun n => n < next)
  /\ (forall c, res = Ok (Some c) -> claims_live c)
  /\ (first_segment t lane start <> None -> 1 <= p_max_batch env ->
        (exists c, res = Ok (Some c)) \/ (exists e, res = Err e) \/ start < next).

Lemma claim_from_head env v_next receipt batch ring h q :
  sequence_next_value q = seq_of h -> 1 <= seq_of h -> covered y lane (fun n => n < seq_of h) ->
  head (rows_from t lane ring (seq_of h)) = Some h -> v_next = enqueue_cursor (store y) lane ->
  let v_claim_limit := Z.min (Z.max (v_next - seq_of h) 0) (p_max_batch env) in
  let selected := take (Z.to_nat v_claim_limit) (rows_from t lane ring (seq_of h)) in
  let '(q', res) :=
    if v_claim_limit <=? 0 then (q, Ok None)
    else if spent t h
    then (match spent_prefix t (seq_of h) selected with Some n => set_sequence_next n q | None => q end, Ok None)
    else (q, claim_ready_slot env t lane ring receipt batch selected) in
  lane_outcome env (seq_of h) (sequence_next_value q') res.
Proof.
  intros Hq H1 Hc Hh Hnext limit selected.
  pose proof Hh as (Hhr & Hhl & _ & _)%head_elem%rows_from_elem.
  assert (seq_of h < v_next) as Hbelow.
  { destruct (ly_placed L h (or_introl Hhr)) as [Hlt _]. rewrite Hhl in Hlt. by subst v_next. }
  destruct (limit <=? 0) eqn:Hlimit.
  { rewrite Hq. split; [lia|]. split; [done|]. split; [done|]. intros _ Hmax. lia. }
  assert (exists tl, selected = h :: tl) as [tl Hsel].
  { subst selected. destruct (rows_from t lane ring (seq_of h)) as [|h0 tl]; [done|]. injection Hh as ->.
    destruct (Z.to_nat limit) eqn:Hn; [lia|]. simpl. eauto. }
  destruct (spent t h) eqn:Hs.
  - destruct (spent_prefix_moves (seq_of h) h tl eq_refl Hs) as (n & Hn & Hlt). rewrite Hsel, Hn.
    rewrite next_set_sequence, Hq by lia. split; [lia|]. split.
    + eapply covered_weaken; [|apply (spent_prefix_covered (seq_of h) selected n); [| |exact Hc|by rewrite Hsel]].
      * simpl. lia.
      * apply selected_sorted.
      * intros x Hx. apply (selected_elem ring h) in Hx as (? & ? & _ & ?). auto.
    + split; [done|]. intros. right. right. lia.
  - rewrite Hq. split; [lia|]. split; [done|]. split.
    + intros c Hclaim. apply (claim_slot_ok ring h (Z.to_nat limit) Hc Hh Hs env receipt batch c Hclaim).
    + intros _ _. destruct (claim_ready_slot _ _ _ _ _ _ _) as [[c|]|e] eqn:Hres; eauto. exfalso.
      apply rbind_Ok in Hres as (aged & Haged%aged_fst & Hres). cbv zeta in Hres.
      pose proof (filter_map_fst (fun r => negb (tombstoned t r)) aged) as Hlive. rewrite Haged, Hsel in Hlive.
      simpl in Hlive. unfold spent in Hs. apply orb_false_iff in Hs as [Ht _]. rewrite Ht in Hlive. simpl in Hlive.
      destruct (List.filter _ aged) as [|[??] ?]; done.
Qed.

Lemma outcome_later env start start' next res :
  start < start' -> lane_outcome env start' next res -> lane_outcome env start next res.
Proof.
  intros Hle (H1 & H2 & H3 & H4). split; [lia|]. split; [done|]. split; [done|]. intros. right. right. lia.
Qed.

Lemma live_at_cursor r : r ∈ rows -> lane_of r = lane -> spent t r = false -> claim_cursor (store y) lane <= seq_of r.
Proof.
  intros Hr Hl Hs. destruct (decide (claim_cursor (store y) lane <= seq_of r)) as [|Hlt]; [done|].
  destruct (li_cursor y Hinv lane) as [Hc _ _]. rewrite (Hc r) in Hs; [done|done|done|lia].
Qed.

Lemma live_has_segment cursor r :
  r ∈ rows -> lane_of r = lane -> cursor <= seq_of r -> first_segment t lane cursor <> None.
Proof.
  intros Hr Hl Hc Hn. destruct (sg_cover _ _ (ly_segs L) r Hr) as (g & Hg & Hgl & _ & Hs).
  pose proof (first_segment_None _ _ _ g Hn Hg (eq_trans Hgl Hl)). lia.
Qed.

(** From a slot and a cursor on. *)
Lemma claim_from_slot env receipt batch g cursor q :
  first_segment t lane cursor = Some g -> sequence_next_value q = cursor -> 1 <= cursor ->
  covered y lane (fun n => n < cursor) ->
  let '(q', res) :=
    match head (rows_from t lane (sg_ring g) cursor) with
    | None => (q, Ok None)
    | Some h =>
        let '(q, cursor) :=
          if cursor <? seq_of h then (set_sequence_next (seq_of h) q, seq_of h) else (q, cursor) in
        let v_claim_limit := Z.min (Z.max (enqueue_cursor (store y) lane - cursor) 0) (p_max_batch env) in
        if v_claim_limit <=? 0 then (q, Ok None)
        else
          let selected := take (Z.to_nat v_claim_limit) (rows_from t lane (sg_ring g) cursor) in
          if spent t h
          then (match spent_prefix t cursor selected with Some n => set_sequence_next n q | None => q end, Ok None)
          else (q, claim_ready_slot env t lane (sg_ring g) receipt batch selected)
    end in
  lane_outcome env cursor (sequence_next_value q') res.
Proof.
  intros Hg Hq H1 Hc. destruct (head (rows_from t lane (sg_ring g) cursor)) as [h|] eqn:Hh.
  2:{ by destruct (head_exists cursor g Hg). }
  pose proof Hh as (Hhr & Hhl & _ & Hhc)%head_elem%rows_from_elem.
  assert (covered y lane (fun n => n < seq_of h)) as Hc'.
  { apply (covered_to_row cursor); auto. intros x Hx Hxl Hxc. by apply (head_first cursor g h x). }
  pose proof (rows_from_head_self _ _ _ Hh) as Hself.
  destruct (cursor <? seq_of h) eqn:Hlt.
  - pose proof (claim_from_head env (enqueue_cursor (store y) lane) receipt batch (sg_ring g) h
                  (set_sequence_next (seq_of h) q)) as H. rewrite next_set_sequence in H by lia.
    specialize (H ltac:(lia) ltac:(lia) Hc' Hself eq_refl). cbv beta iota zeta in *.
    match type of H with match ?e with pair _ _ => _ end => destruct e as [q' res] end. eapply outcome_later; [|exact H]. lia.
  - assert (cursor = seq_of h) as -> by lia.
    by apply (claim_from_head env (enqueue_cursor (store y) lane) receipt batch (sg_ring g) h q).
Qed.

Lemma claim_lane_outcome env receipt batch :
  let '(q', res) := claim_ready_lane env t lane (enqueue_cursor (store y) lane) receipt batch
                      (seq_at lane (claim_seqs (store y))) in
  lane_outcome env (claim_cursor (store y) lane) (sequence_next_value q') res.
Proof.
  unfold claim_ready_lane. set (q := seq_at lane (claim_seqs (store y))).
  change (claim_cursor (store y) lane) with (sequence_next_value q).
  pose proof (li_seqs y Hinv lane) as H1. change (1 <= sequence_next_value q) in H1.
  pose proof (li_cursor y Hinv lane) as Hc. change (covered y lane (fun n => n < sequence_next_value q)) in Hc.
  destruct (first_segment t lane (sequence_next_value q)) as [g|] eqn:Hg.
  2:{ split; [lia|]. split; [done|]. split; [done|]. by rewrite Hg. }
  destruct (evidence_next t lane (sg_ring g) (sequence_next_value q)) as [n|] eqn:He.
  - destruct (catch_up_covered _ _ _ He) as [Hn Hlt].
    assert (sequence_next_value (set_sequence_next n q) = n) as Hset by (rewrite next_set_sequence; lia).
    destruct (first_segment t lane n) as [g'|] eqn:Hg'; simpl.
    + pose proof (claim_from_slot env receipt batch g' n (set_sequence_next n q) Hg' Hset ltac:(lia) Hn) as H.
      cbv beta iota zeta in *. match type of H with match ?e with pair _ _ => _ end => destruct e as [q' res] end.
      eapply outcome_later; [|exact H]. lia.
    + rewrite Hset. split; [lia|]. split; [done|]. split; [done|]. intros. right. right. lia.
  - apply (claim_from_slot env receipt batch g (sequence_next_value q) q Hg eq_refl H1 Hc).
Qed.
End ClaimLane.

(** ** Claim steps *)

Lemma find_elem {A} (f : A -> bool) l x : List.find f l = Some x -> x ∈ l /\ f x = true.
Proof. intros H. apply find_some in H. by rewrite list_elem_of_In. Qed.

Lemma all_ok_elem {A B} (f : A -> result AwaError B) l ys z :
  all_ok f l = Ok ys -> z ∈ ys -> exists x, x ∈ l /\ f x = Ok z.
Proof.
  revert ys. induction l as [|x l IH]; intros ys H Hz; simpl in H.
  { injection H as <-. by apply elem_of_nil in Hz. }
  apply rbind_Ok in H as (w & Hw & H). apply rbind_Ok in H as (ys' & Hys & [= <-]).
  apply elem_of_cons in Hz as [->|Hz]; [exists x; split; [left|done]|].
  destruct (IH ys' Hys Hz) as (x' & ? & ?). exists x'. split; [by right|done].
Qed.

Lemma candidate_lane env s lane c : candidate env s lane = Ok c -> cd_lane c = lane.
Proof.
  unfold candidate. destruct (first_segment _ _ _); [|by intros [= <-]].
  intros (p & _ & [= <-])%rbind_Ok. done.
Qed.

Lemma route_Some env locked queue s lane :
  route env locked queue s = Ok (Some lane) ->
  locked lane = false /\ lane ∈ claim_heads s /\ routable s queue lane = true.
Proof.
  unfold route. intros (cs & Hcs & H)%rbind_Ok. injection H as H.
  destruct (List.find _ _) as [c|] eqn:Hf; [|done]. injection H as <-.
  apply find_elem in Hf as [Hin Hl%negb_true_iff]. rewrite (merge_sort_Permutation candidate_le) in Hin.
  destruct (all_ok_elem _ _ _ _ Hcs Hin) as (x & [Hx Hxh]%elem_of_filter_b & <-%candidate_lane). done.
Qed.

Lemma inv_open y c :
  lane_inv y -> claims_live y (ab_lane (cl_attempts c)) c ->
  claim_locked y (ab_lane (cl_attempts c)) = false ->
  lane_inv (mkSys (store y) (writers y) (c :: open_claims y) (issued y) (claim_log y)).
Proof.
  intros Hinv (_ & Hok & Hlive) Hlock. set (y' := mkSys _ _ _ _ _).
  assert (grows y y') as Hg by by apply grows_same. pose proof Hinv as [].
  assert (forall c', c' ∈ open_claims y -> ab_lane (cl_attempts c') <> ab_lane (cl_attempts c)) as Hfree.
  { intros c' Hin E. assert (claim_locked y (ab_lane (cl_attempts c)) = true); [|congruence].
    apply existsb_elem. exists c'. split; [done|]. by apply bool_decide_eq_true. }
  split; try done.
  - intros lane. eapply covered_grows; eauto.
  - intros b Hb. destruct (li_batches0 b Hb). split; eauto using covered_grows.
  - intros c' [->|Hin]%elem_of_cons; eapply claim_ok_grows; eauto.
  - simpl. constructor; [|done]. intros (c' & E & Hin)%list_elem_of_fmap. by apply (Hfree c' Hin).
  - intros x Hx. eapply covered_grows; eauto.
  - intros x c' n Hx [->|Hin]%elem_of_cons Hl Hn; [|by eapply li_log_open0].
    destruct (Hlive n Hn) as (r & Hr & Hrl & <- & Hs). eapply live_after_log; eauto.
  - intros a Ha. eapply sound_grows; eauto.
Qed.

Lemma inv_draw y receipts batches :
  lane_inv y -> lane_inv (with_store (draw_ids receipts batches (store y)) y).
Proof.
  intros Hinv. apply (inv_frame y); simpl; try done; auto; [by apply grows_same|apply (li_layout y Hinv)].
Qed.

Lemma claims_live_grows y y' lane c :
  tables (store y') = tables (store y) -> writers y' = writers y -> enqueue_seqs (store y') = enqueue_seqs (store y) ->
  claims_live y lane c -> claims_live y' lane c.
Proof.
  intros Et Ew Ee (H1 & H2 & H3). split; [done|]. split; [|by rewrite Et].
  eapply claim_ok_grows; [by apply grows_same| |exact H2]. by rewrite Et.
Qed.

(** Whoever else holds head rows: those of open claims are held. *)
Lemma claim_any_inv y env locked queue res s :
  lane_inv y -> (forall lane, locked lane = false -> claim_locked y lane = false) ->
  claim_ready_runtime env locked queue (store y) = (res, s) ->
  lane_inv (mkSys s (writers y) (match res with Ok (Some c) => c :: open_claims y | _ => open_claims y end)
              (issued y) (claim_log y)).
Proof.
  intros Hinv Hlocked. unfold claim_ready_runtime.
  destruct (route env locked queue (store y)) as [[lane|]|e] eqn:Hroute;
    [|intros [= <- <-]; by destruct y|intros [= <- <-]; by destruct y].
  apply route_Some in Hroute as (Hlock%Hlocked & _ & _).
  pose proof (claim_lane_outcome y Hinv lane env (next_receipt (store y)) (next_batch (store y))) as Hout.
  destruct (claim_ready_lane _ _ _ _ _ _ _) as [q' r]. destruct Hout as (Hle & Hc & Hclaims & _).
  pose proof (li_seqs y Hinv lane). assert (1 <= sequence_next_value q') as Hq by lia.
  pose proof (inv_cursor y lane q' Hinv Hq Hc) as Hinv'.
  destruct r as [[c|]|e]; intros [= <- <-]; [|exact Hinv'|exact Hinv'].
  specialize (Hclaims c eq_refl). pose proof Hclaims as (Hl & _ & _).
  apply (inv_open (with_store _ y) c).
  - apply (inv_draw (with_store (set_claim_seq lane q' (store y)) y)). exact Hinv'.
  - rewrite Hl. by eapply claims_live_grows; [..|exact Hclaims].
  - rewrite Hl. exact Hlock.
Qed.

Lemma step_claim_inv y env queue res s :
  lane_inv y -> claim_ready_runtime env (claim_locked y) queue (store y) = (res, s) ->
  lane_inv (mkSys s (writers y) (match res with Ok (Some c) => c :: open_claims y | _ => open_claims y end)
              (issued y) (claim_log y)).
Proof. intros Hinv. by apply claim_any_inv. Qed.

(** The rows of a claim, once it is committed. *)
Lemma commit_covered y y' c :
  lane_inv y -> grows y y' -> claim_ok y c -> layout_of y' ->
  ready_entries (tables (store y')) = ready_entries (tables (store y)) ->
  cl_attempts c ∈ attempt_batches (tables (store y')) ->
  covered y' (ab_lane (cl_attempts c)) (fun n => n < ab_next (cl_attempts c)).
Proof.
  intros Hinv Hg Hok L' Er Hb. set (b := cl_attempts c) in *.
  destruct (ck_rows y c Hok _ (ck_last y c Hok)) as (_ & x & Hx & Hxl & Hxs & _). fold b in Hxl, Hxs.
  rewrite <- Er in Hx. split.
  - intros r Hr Hl Hlt. destruct (decide (seq_of r ∈ lane_ranges b)) as [Hin|Hout].
    + destruct (ck_rows y c Hok _ Hin) as (Hbounds & z & Hz & Hzl & Hzs & Hzr). fold b in Hbounds, Hzl, Hzr.
      rewrite <- Er in Hz. assert (z = r) as ->.
      { apply (NoDup_map_inj _ _ _ _ (ly_unique L')); auto. unfold row_key. by rewrite Hzl, Hl, Hzs. }
      apply spent_spec. right. exists b. auto.
    + destruct (covered_grows _ _ _ _ Hg (ck_covered y c Hok)) as [H1 _ _]. auto.
  - intros p Hp Hpl Hlt. pose proof (ly_order L' x p Hx Hp (eq_trans Hxl (eq_sym Hpl))). lia.
  - intros n Hn. destruct (ly_placed L' x (or_introl Hx)) as [Hp _]. rewrite Hxl in Hp.
    change (enqueue_cursor (store y') ?l) with (next_at (enqueue_seqs (store y')) l). lia.
Qed.

Lemma claim_rows_keys y c x :
  claim_ok y c -> x ∈ cl_rows c -> rl_lane x = ab_lane (cl_attempts c) /\ lane_seq (rl_pos x) ∈ lane_ranges (cl_attempts c).
Proof.
  intros [_ _ _ _ [Hk _]] Hx. apply (list_elem_of_fmap_2 lease_key) in Hx.
  change (lease_key <$> ?l) with (map lease_key l) in Hx. rewrite Hk in Hx.
  apply list_elem_of_fmap in Hx as (n & E & Hn). apply pair_equal_spec in E as [-> ->]. done.
Qed.

Lemma claim_rows_sorted y c : claim_ok y c -> StronglySorted in_lane_order (cl_rows c).
Proof.
  intros [_ _ _ Hs [Hk _]]. revert Hs Hk. generalize (lane_ranges (cl_attempts c)) as ranges.
  induction (cl_rows c) as [|x rows IH]; intros ranges Hs Hk; [constructor|].
  destruct ranges as [|n ranges]; [done|]. simpl in Hk. injection Hk as _ Hn Hk.
  apply StronglySorted_inv in Hs as [Hs Hlt]. constructor; [by eapply IH|].
  apply Forall_forall. intros z Hz _. apply (list_elem_of_fmap_2 lease_key) in Hz.
  change (lease_key <$> ?l) with (map lease_key l) in Hz. rewrite Hk in Hz.
  apply list_elem_of_fmap in Hz as (m & E & Hm). apply pair_equal_spec in E as [_ ->].
  rewrite Forall_forall in Hlt. rewrite Hn. by apply Hlt.
Qed.

Lemma StronglySorted_app_2 {A} (R : A -> A -> Prop) l l' :
  StronglySorted R l -> StronglySorted R l' -> (forall x x', x ∈ l -> x' ∈ l' -> R x x') -> StronglySorted R (l ++ l').
Proof.
  induction 1 as [|x l Hs IH Hx]; intros Hl' HR; [done|]. simpl. constructor; [apply IH; auto; intros; apply HR; auto; by right|].
  apply Forall_app. split; [done|]. apply Forall_forall. intros z Hz. apply HR; [left|done].
Qed.

Lemma claim_advance_sound y rows a : a ∈ claim_cursor_advances rows -> sound y a.
Proof. intros ([lane r] & -> & _)%list_elem_of_fmap. done. Qed.

Lemma step_claim_commit_inv y before c after :
  lane_inv y -> open_claims y = before ++ c :: after ->
  lane_inv (mkSys (set_tables (tables_app (tables (store y)) (commit_claim c)) (store y))
              (writers y) (before ++ after) (issued y ++ claim_cursor_advances (cl_rows c))
              (claim_log y ++ cl_rows c)).
Proof.
  intros Hinv Ho. set (y' := mkSys _ _ _ _ _).
  assert (ready_entries (tables (store y')) = ready_entries (tables (store y))) as Er by apply app_nil_r.
  assert (ready_segments (tables (store y')) = ready_segments (tables (store y))) as Es by apply app_nil_r.
  assert (layout_of y') as L'.
  { unfold layout_of. rewrite Er, Es. apply (li_layout y Hinv). }
  assert (grows y y') as Hg.
  { split; [|by left|intros lane; unfold enqueue_cursor; simpl; lia]. intros r Hr. rewrite Er in Hr. left.
    split; [done|]. apply spent_app. }
  pose proof Hinv as [].
  assert (c ∈ open_claims y) as Hc by (rewrite Ho; apply elem_of_app; right; left).
  pose proof (li_open0 c Hc) as Hok.
  assert (covered y' (ab_lane (cl_attempts c)) (fun n => n < ab_next (cl_attempts c))) as Hcov.
  { apply (commit_covered y); auto. apply elem_of_app. right. by left. }
  assert (NoDup (map (fun c => ab_lane (cl_attempts c)) (c :: before ++ after))) as [Hfresh Hnd]%NoDup_cons.
  { rewrite (Permutation_middle before after c), <- Ho. exact li_open_lanes0. }
  assert (forall c', c' ∈ before ++ after -> c' ∈ open_claims y /\ ab_lane (cl_attempts c') <> ab_lane (cl_attempts c)) as Hrest.
  { intros c' Hin. rewrite Ho. split; [set_solver|]. intros E. apply Hfresh. rewrite <- E. by apply (list_elem_of_fmap_2 (fun c => ab_lane (cl_attempts c))). }
  split; try done.
  - intros lane. eapply covered_grows; [done|]. apply li_cursor0.
  - intros b [Hb|Hb%list_elem_of_singleton]%elem_of_app.
    + destruct (li_batches0 b Hb). split; eauto using covered_grows.
    + subst b. split; [done|]. intros n Hin. by apply (ck_rows y c Hok).
  - intros c' Hin. destruct (Hrest c' Hin). eapply claim_ok_grows; [done| |by apply li_open0]. intros r Hr _. by rewrite Er.
  - intros x [Hx|Hx]%elem_of_app; [eauto using covered_grows|].
    destruct (claim_rows_keys y c x Hok Hx) as [-> Hn]. eapply covered_weaken; [|exact Hcov].
    destruct (ck_rows y c Hok _ Hn). simpl. lia.
  - intros x c' n [Hx|Hx]%elem_of_app Hin Hl Hn; destruct (Hrest c' Hin) as [? Hne]; [by eapply li_log_open0|].
    destruct (claim_rows_keys y c x Hok Hx) as [E _]. congruence.
  - apply StronglySorted_app_2; [done|by eapply claim_rows_sorted|]. intros x x' Hx Hx' Hl.
    destruct (claim_rows_keys y c x' Hok Hx') as [E Hn]. eapply li_log_open0; eauto. congruence.
  - intros a [Ha|Ha]%elem_of_app; [eauto using sound_grows|by eapply claim_advance_sound].
Qed.

Lemma lane_step_inv y y' : lane_step y y' -> lane_inv y -> lane_inv y'.
Proof.
  intros [] Hinv; eauto using step_insert_inv, step_tombstone_inv, step_commit_inv, step_abort_inv, step_claim_inv,
    step_claim_commit_inv, step_claim_abort_inv, step_advance_inv, step_rotate_inv, step_prune_inv, step_pause_inv.
Qed.

Lemma no_writer tx w : (∅ : gmap Z Writer) !! tx = Some w -> False.
Proof. by rewrite lookup_empty. Qed.

Lemma nothing_known r : known [] ∅ r -> False.
Proof. intros [?%elem_of_nil|(tx & w & Hw & _)]; [done|]. by apply no_writer in Hw. Qed.

(** Nothing is there yet. *)
Ltac nothing :=
  solve [ match goal with
          | H : _ ∈ [] |- _ => by apply elem_of_nil in H
          | H : known [] ∅ _ |- _ => by destruct (nothing_known _ H)
          | H : ∅ !! _ = Some _ |- _ => by destruct (no_writer _ _ H)
          end ].

Lemma next_at_empty lane : next_at ∅ lane = 1.
Proof. unfold next_at, seq_at. by rewrite lookup_empty. Qed.

Lemma empty_layout ring : layout_of (empty_sys ring).
Proof.
  split; simpl; intros; try nothing.
  - rewrite next_at_empty. lia.
  - constructor.
  - split; intros; nothing.
Qed.

Lemma empty_covered ring lane : covered (empty_sys ring) lane (fun n => n < 1).
Proof.
  split; simpl; intros; try nothing.
  - destruct H as (tx & w & Hw & _). nothing.
  - change (n < next_at ∅ lane). by rewrite next_at_empty.
Qed.

Lemma empty_lane_inv ring : lane_inv (empty_sys ring).
Proof.
  assert (forall lane, claim_cursor (empty_store ring) lane = 1) as Hc by apply next_at_empty.
  split; cbn [store tables attempt_batches claim_log open_claims issued empty_sys empty_store no_tables];
    fold (empty_store ring); intros; try nothing.
  - apply empty_layout.
  - rewrite Hc. lia.
  - rewrite Hc. apply empty_covered.
  - constructor.
  - constructor.
Qed.

Lemma lane_reachable_inv y : lane_reachable y -> lane_inv y.
Proof.
  intros (ring & H). remember (empty_sys ring) as y0. assert (lane_inv y0) as H0 by (subst; apply empty_lane_inv). clear Heqy0.
  induction H; eauto using lane_step_inv.
Qed.
