(* ===== verification/Enqueue.v ===== *)
(** Enqueueing to lanes: the grouping of a batch by queue, priority and shard
    loses no job, keeps each in a lane of its queue and priority (and of its
    ordering key), and gives every job its id and a place. *)

From S2P Require Import Prelude.
From S2P Require Import Error.
From S2P Require Import Json.
From S2P Require Import Job.
From S2P Require Import Routing.
From S2P Require Import Rows.
From S2P Require Import Lanes.
From S2P Require Import LanesFacts.

(** * The map of buckets *)

Lemma string_ltb_total a b : string_ltb a b = false -> string_ltb b a = false -> a = b.
Proof.
  unfold string_ltb. rewrite (String.compare_antisym a b). destruct (String.compare b a) eqn:H; try done.
  intros _ _. symmetry. by apply String.compare_eq_iff.
Qed.

Lemma lane_ltb_total (a b : string * Z * Z) : lane_ltb a b = false -> lane_ltb b a = false -> a = b.
Proof.
  destruct a as [[q p] s], b as [[q' p'] s']. unfold lane_ltb. rewrite !orb_false_iff. intros [H1 H2] [H3 H4].
  assert (q = q') as <- by by apply string_ltb_total. rewrite String.eqb_refl in *. simpl in *.
  rewrite !orb_false_iff in *. assert (p = p') as <- by lia. rewrite Z.eqb_refl in *. simpl in *. f_equal. lia.
Qed.

Section Buckets.
Context {A : Type}.
Abbreviation buckets := (list ((string * Z * Z) * list A)) (only parsing).

Definition jobs_of (m : buckets) : list A := concat (map snd m).
Definition each_in (f : string * Z * Z -> A -> Prop) (m : buckets) : Prop :=
  forall lane rows r, (lane, rows) ∈ m -> r ∈ rows -> f lane r.

Lemma push_entry_jobs lane rows (m : buckets) : jobs_of (push_entry lane rows m) ≡ₚ rows ++ jobs_of m.
Proof.
  unfold jobs_of. induction m as [|[l rs] m IH]; simpl; [done|].
  destruct (lane_ltb lane l); [done|]. destruct (lane_ltb l lane); simpl.
  - rewrite IH. rewrite !app_assoc. f_equiv. apply Permutation_app_comm.
  - rewrite <- app_assoc. rewrite !(app_assoc _ _ (concat _)). f_equiv. apply Permutation_app_comm.
Qed.

Lemma push_entry_each f lane rows (m : buckets) :
  each_in f m -> (forall r, r ∈ rows -> f lane r) -> each_in f (push_entry lane rows m).
Proof.
  intros Hm Hr. induction m as [|[l rs] m IH]; simpl.
  { intros l rs r [= -> ->]%list_elem_of_singleton. auto. }
  assert (each_in f m) as Hm' by (intros l' rs' r Hin; apply Hm; by right).
  destruct (lane_ltb lane l) eqn:H1; [|destruct (lane_ltb l lane) eqn:H2].
  - intros l' rs' r [[= -> ->]|Hin]%elem_of_cons; [auto|by apply Hm].
  - intros l' rs' r [[= -> ->]|Hin]%elem_of_cons; [apply Hm; left|by apply IH].
  - rewrite (lane_ltb_total lane l H1 H2) in *. intros l' rs' r [[= -> ->]|Hin]%elem_of_cons; [|by apply Hm'].
    intros [Hin|Hin]%elem_of_app; [eapply Hm; [left|done]|auto].
Qed.
End Buckets.

(** * Grouping *)

Lemma bucket_by_route_spec rows :
  jobs_of (bucket_by_route rows) ≡ₚ rows /\ each_in (fun lane r => lane = rr_route r) (bucket_by_route rows).
Proof.
  unfold bucket_by_route.
  assert (forall m : list ((string * Z * Z) * list RuntimeReadyRow), each_in (fun lane r => lane = rr_route r) m ->
    jobs_of (fold_left (fun m r => push_entry (rr_route r) [r] m) rows m) ≡ₚ jobs_of m ++ rows
    /\ each_in (fun lane r => lane = rr_route r) (fold_left (fun m r => push_entry (rr_route r) [r] m) rows m)) as H.
  { induction rows as [|r rows IH]; intros m Hm; simpl; [by rewrite app_nil_r|].
    destruct (IH (push_entry (rr_route r) [r] m)) as [Hp He].
    - apply push_entry_each; [done|]. by intros x ->%list_elem_of_singleton.
    - split; [|done]. rewrite Hp, push_entry_jobs. simpl. by rewrite Permutation_middle. }
  destruct (H []) as [Hp He]; [by intros ? ? ? ?%elem_of_nil|]. done.
Qed.

(** The lane of a row: its queue and priority, and its key's shard. *)
Definition lane_fits (shards_of : string -> Z) (lane : string * Z * Z) (r : RuntimeReadyRow) : Prop :=
  fst lane = fst (rr_route r)
  /\ forall key, rr_ordering_key r = Some key -> snd lane = fst (pick_shard (shards_of (c_queue (rr_columns r))) (Some key) 0).

Lemma push_keyed_spec shards_of lane rows m :
  (forall r, r ∈ rows -> lane = rr_route r) -> each_in (lane_fits shards_of) m ->
  jobs_of (push_keyed (shards_of (fst (fst lane))) lane rows m)
    ≡ₚ List.filter (fun r => negb (is_rotor_row r)) rows ++ jobs_of m
  /\ each_in (lane_fits shards_of) (push_keyed (shards_of (fst (fst lane))) lane rows m).
Proof.
  revert m. induction rows as [|r rows IH]; intros m Hl Hm; simpl; [done|].
  assert (forall x, x ∈ rows -> lane = rr_route x) as Hl' by (intros; apply Hl; by right).
  unfold is_rotor_row at 1. destruct (rr_ordering_key r) as [key|] eqn:Hk; simpl; [|by apply IH].
  destruct (IH (push_entry (fst lane, fst (pick_shard (shards_of (fst (fst lane))) (Some key) 0)) [r] m) Hl') as [Hp He].
  - apply push_entry_each; [done|]. intros x ->%list_elem_of_singleton. rewrite (Hl r) by left. split; [done|].
    intros k Hk'. rewrite Hk in Hk'. by injection Hk' as <-.
  - split; [|done]. rewrite Hp, push_entry_jobs. simpl. by rewrite Permutation_middle.
Qed.

Lemma filter_split {A} (f : A -> bool) l : List.filter f l ++ List.filter (fun x => negb (f x)) l ≡ₚ l.
Proof.
  induction l as [|x l IH]; [done|]. simpl. destruct (f x); simpl; [by rewrite IH|].
  rewrite <- Permutation_middle. by rewrite IH.
Qed.

Lemma push_bucket_spec shards_of lane rows m rotor :
  (forall r, r ∈ rows -> lane = rr_route r) -> each_in (lane_fits shards_of) m ->
  jobs_of (fst (push_bucket shards_of (m, rotor) (lane, rows))) ≡ₚ rows ++ jobs_of m
  /\ each_in (lane_fits shards_of) (fst (push_bucket shards_of (m, rotor) (lane, rows))).
Proof.
  intros Hl Hm. destruct (push_keyed_spec shards_of lane rows m Hl Hm) as [Hp He].
  unfold push_bucket. pose proof (filter_split is_rotor_row rows) as Hs.
  destruct (List.filter is_rotor_row rows) as [|r rs] eqn:Hf.
  { simpl in *. rewrite Hp. rewrite Hs. done. }
  destruct (pick_shard _ None rotor) as [shard rotor']. cbn [fst]. split.
  - rewrite push_entry_jobs, Hp, app_assoc, Hs. done.
  - apply push_entry_each; [done|]. intros x Hx. rewrite <- Hf in Hx. apply elem_of_filter_b in Hx as [Hr Hin].
    rewrite (Hl x Hin). split; [done|]. unfold is_rotor_row in Hr. by destruct (rr_ordering_key x).
Qed.

Lemma group_ready_rows_spec shards_of rotor rows :
  let grouped := fst (group_ready_rows_by_shard shards_of rotor rows) in
  jobs_of grouped ≡ₚ rows /\ each_in (lane_fits shards_of) grouped.
Proof.
  unfold group_ready_rows_by_shard. destruct (bucket_by_route_spec rows) as [Hp He].
  assert (forall bs m rotor, each_in (fun lane r => lane = rr_route r) bs -> each_in (lane_fits shards_of) m ->
    jobs_of (fst (fold_left (push_bucket shards_of) bs (m, rotor))) ≡ₚ jobs_of bs ++ jobs_of m
    /\ each_in (lane_fits shards_of) (fst (fold_left (push_bucket shards_of) bs (m, rotor)))) as H.
  { induction bs as [|[lane rs] bs IH]; intros m rot Hb Hm; [done|]. cbn [fold_left].
    destruct (push_bucket_spec shards_of lane rs m rot) as [Hp1 He1]; [intros r Hr; eapply Hb; [left|done]|done|].
    destruct (push_bucket shards_of (m, rot) (lane, rs)) as [m1 rot1]. cbn [fst] in *.
    destruct (IH m1 rot1) as [Hp2 He2]; [intros l' rs' r Hin; apply Hb; by right|done|]. split; [|done].
    rewrite Hp2, Hp1. unfold jobs_of. simpl. rewrite !app_assoc. f_equiv. apply Permutation_app_comm. }
  destruct (H (bucket_by_route rows) [] rotor He) as [H1 H2]; [by intros ? ? ? ?%elem_of_nil|].
  split; [|done]. rewrite H1. unfold jobs_of at 2. simpl. by rewrite app_nil_r.
Qed.

(** * Ids and places *)

Definition missing_id (r : RuntimeReadyRow) : bool := match rr_job_id r with None => true | Some _ => false end.
Definition but_id (c : Columns) : Columns := with_job_id 0 c.

Lemma filter_bool_perm {A} (f : A -> bool) l k : l ≡ₚ k -> List.filter f l ≡ₚ List.filter f k.
Proof.
  induction 1; simpl; try destruct (f x); try destruct (f y); try done; try by constructor. by etrans.
Qed.

Lemma assign_ids_spec rows ids :
  (length (List.filter missing_id rows) <= length ids)%nat ->
  exists cs taken rest, assign_ids rows ids = Ok (cs, rest) /\ ids = taken ++ rest
    /\ length taken = length (List.filter missing_id rows)
    /\ map but_id cs = map (fun r => but_id (rr_columns r)) rows
    /\ map c_job_id cs ≡ₚ omap rr_job_id rows ++ taken
    /\ map (fun c => (c_queue c, c_priority c)) cs = map (fun r => fst (rr_route r)) rows.
Proof.
  revert ids. induction rows as [|r rows IH]; intros ids Hlen; [by exists [], [], ids|].
  simpl in *. unfold missing_id in Hlen at 1. unfold missing_id at 1. destruct (rr_job_id r) as [id|] eqn:Hid; simpl in *.
  - destruct (IH ids Hlen) as (cs & taken & rest & -> & -> & Hl & Hc & Hi & Hr). simpl.
    eexists _, taken, rest. split; [done|]. split; [done|]. split; [done|]. simpl. by rewrite Hc, Hi, Hr.
  - destruct ids as [|id ids]; [simpl in Hlen; lia|].
    destruct (IH ids) as (cs & taken & rest & Ha & -> & Hl & Hc & Hi & Hr); [simpl in Hlen; lia|]. simpl. rewrite Ha. simpl.
    eexists _, (id :: taken), rest. split; [done|]. split; [done|]. simpl. split; [by rewrite Hl|].
    rewrite Hc, Hi, Hr. split; [done|]. split; [apply Permutation_middle|done].
Qed.

Lemma assign_lane_ids_spec grouped ids :
  length ids = length (List.filter missing_id (jobs_of grouped)) ->
  exists out, assign_lane_ids grouped ids = Ok out
    /\ map but_id (jobs_of out) = map (fun r => but_id (rr_columns r)) (jobs_of grouped)
    /\ map c_job_id (jobs_of out) ≡ₚ omap rr_job_id (jobs_of grouped) ++ ids
    /\ (forall f, each_in (fun lane r => fst lane = fst (rr_route r) /\ f lane r) grouped -> grouped_ok out).
Proof.
  revert ids. induction grouped as [|[lane rows] grouped IH]; intros ids Hlen.
  { destruct ids; [|done]. exists []. split_and!; try done. intros f _ ? ? ? ?%elem_of_nil. done. }
  unfold jobs_of in *. simpl in *. rewrite List.filter_app, length_app in Hlen.
  destruct (assign_ids_spec rows ids) as (cs & taken & rest & Ha & -> & Hl & Hc & Hi & Hr); [lia|].
  rewrite length_app in Hlen. destruct (IH rest) as (out & Ho & Hc' & Hi' & Hg); [lia|].
  exists ((lane, cs) :: out). simpl. rewrite Ha. simpl. rewrite Ho. split; [done|]. simpl.
  rewrite !map_app, Hc, Hc'. split; [done|]. split.
  - rewrite Hi, Hi', omap_app. rewrite <- !app_assoc. f_equiv. rewrite !app_assoc. f_equiv. apply Permutation_app_comm.
  - intros f He l cs' c [[= -> ->]|Hin]%elem_of_cons Hcin.
    + assert ((c_queue c, c_priority c) ∈ map (fun r => fst (rr_route r)) rows) as Hin.
      { rewrite <- Hr. by apply (list_elem_of_fmap_2 (fun c => (c_queue c, c_priority c))). }
      apply list_elem_of_fmap in Hin as (r & -> & Hrin). symmetry. eapply He; [left|done].
    + eapply Hg; [|done|done]. intros l' rs' r Hin' Hr'. apply (He l' rs'); [by right|done].
Qed.

Lemma reserve_lanes_columns grouped m : map ri_columns (fst (reserve_lanes grouped m)) = jobs_of grouped.
Proof.
  unfold jobs_of. revert m. induction grouped as [|[lane cs] grouped IH]; intros m; [done|]. simpl.
  destruct (reserve_enqueue_seq _ _) as [start s]. specialize (IH (<[lane := s]> m)).
  destruct (reserve_lanes grouped (<[lane := s]> m)) as [rows m']. simpl in *. rewrite map_app, IH. f_equal.
  etransitivity; [apply (fmap_imap _ ri_columns)|]. etransitivity; [|apply list_fmap_id]. rewrite <- (imap_const id cs).
  by apply imap_ext.
Qed.

Lemma insert_grouped_columns grouped s :
  map rt_columns (ready_entries (fst (insert_grouped_rows grouped s))) = jobs_of grouped.
Proof.
  unfold insert_grouped_rows. cbv zeta. set (s0 := fold_left _ _ s).
  pose proof (reserve_lanes_columns grouped (enqueue_seqs s0)) as H.
  destruct (reserve_lanes grouped (enqueue_seqs s0)) as [rows m]. simpl in *. by rewrite map_map.
Qed.

(** C19. Enqueueing places every job: given an id for each row that has none, the
    batch is stored whole; apart from drawn ids the rows are those given, the
    ids are the given and the drawn ones, each job gets a lane position of its
    own among the numbers its lane reserved, in the slot the ring points at,
    and a segment of its lane covers it; rows with one ordering key go to one
    shard. *)
Theorem enqueue_places_every_job shards_of rotor ids rows s :
  length ids = length (List.filter missing_id rows) ->
  exists grouped t s',
    place_ready_rows shards_of rotor ids rows s = Ok (t, s')
    /\ grouped_ok grouped /\ insert_grouped_rows grouped s = (t, s')
    /\ map (fun e => but_id (rt_columns e)) (ready_entries t) ≡ₚ map (fun r => but_id (rr_columns r)) rows
    /\ map (fun e => c_job_id (rt_columns e)) (ready_entries t) ≡ₚ omap rr_job_id rows ++ ids
    /\ NoDup (map row_key (ready_entries t))
    /\ (forall e, e ∈ ready_entries t -> ring_of e = queue_ring s
          /\ enqueue_cursor s (lane_of e) <= seq_of e < enqueue_cursor s' (lane_of e)
          /\ exists g, g ∈ ready_segments t /\ sg_lane g = lane_of e /\ first_lane_seq g <= seq_of e < next_lane_seq g)
    /\ each_in (lane_fits shards_of) (fst (group_ready_rows_by_shard shards_of rotor rows)).
Proof.
  intros Hlen. unfold place_ready_rows. pose proof (group_ready_rows_spec shards_of rotor rows) as [Hp He].
  destruct (group_ready_rows_by_shard shards_of rotor rows) as [grouped rotor']. cbn [fst] in *.
  destruct (assign_lane_ids_spec grouped ids) as (out & Ho & Hc & Hi & Hg).
  { rewrite Hlen. by apply Permutation_length, filter_bool_perm. }
  rewrite Ho. simpl. pose proof (Hg _ He) as Hok. destruct (insert_grouped_rows out s) as [t s'] eqn:Hins.
  pose proof (insert_grouped_columns out s) as Hcols. rewrite Hins in Hcols. cbn [fst] in Hcols.
  destruct (insert_grouped_spec _ _ _ _ Hok Hins) as (_ & _ & _ & _ & _ & Hsegs & _ & Hnd & _ & Hr).
  exists out, t, s'. split; [done|]. split; [done|]. split; [done|].
  split; [|split; [|split; [done|split; [|done]]]].
  - rewrite <- (map_map rt_columns but_id), Hcols, Hc. by rewrite Hp.
  - rewrite <- (map_map rt_columns c_job_id), Hcols, Hi. by rewrite Hp.
  - intros e Hein. destruct (Hr e Hein) as (Hring & _ & Hb). split; [done|]. split; [done|].
    destruct (sg_cover _ _ Hsegs e Hein) as (g & ? & ? & _ & ?). eauto.
Qed.

Lemma enqueue_places_every_job_witness :
  let column id q p := mkColumns id "k" q (JObject []) p 0 0 25 0 None 0 None None (JObject []) in
  let rows := [mkRuntimeReady None (column 0 "q" 2) None; mkRuntimeReady (Some 5) (column 5 "r" 1) (Some [7; 9]);
               mkRuntimeReady None (column 0 "q" 2) (Some [7; 9])] in
  exists grouped t s', place_ready_rows (fun _ => 3) 1 [11; 12] rows (empty_store (0, 1)) = Ok (t, s')
    /\ grouped_ok grouped /\ insert_grouped_rows grouped (empty_store (0, 1)) = (t, s')
    /\ map (fun e => but_id (rt_columns e)) (ready_entries t) ≡ₚ map (fun r => but_id (rr_columns r)) rows
    /\ map (fun e => c_job_id (rt_columns e)) (ready_entries t) ≡ₚ omap rr_job_id rows ++ [11; 12]
    /\ NoDup (map row_key (ready_entries t)).
Proof.
  intros column rows.
  destruct (enqueue_places_every_job (fun _ => 3) 1 [11; 12] rows (empty_store (0, 1))) as (g & t & s' & ? & ? & ? & ? & ? & ? & _).
  - reflexivity.
  - exists g, t, s'. repeat split; assumption.
Defined.
