(* ===== verification/LaneGuarantees.v ===== *)
(** What queue storage promises of its lanes: no job is stranded behind the
    claim cursor, a lane's jobs are handed out once each and in order, polling
    a queue with a live job reaches one; and two runs that show where the
    promises end. *)

From S2P Require Import Prelude.
From S2P Require Import Error.
From S2P Require Import F64.
From S2P Require Import Json.
From S2P Require Import Job.
From S2P Require Import Routing.
From S2P Require Import Rows.
From S2P Require Import Lanes.
From S2P Require Import LanesFacts.

(** * Polling *)

(** Claims of a queue one after the other, none committed, until one returns
    jobs. *)
Fixpoint claim_rounds (fuel : nat) (env : ClaimEnv) (queue : string) (s : Store) : result AwaError (option Claimed) :=
  match fuel with
  | O => Ok None
  | S fuel =>
      match claim_ready_runtime env (fun _ => false) queue s with
      | (Ok None, s) => claim_rounds fuel env queue s
      | (r, _) => r
      end
  end.

(** Numbers reserved and not yet passed, over the store's lanes. *)
Definition lag (s : Store) (lane : string * Z * Z) : Z := Z.max 0 (enqueue_cursor s lane - claim_cursor s lane).
Definition backlog (s : Store) : Z := foldr (fun lane n => lag s lane + n) 0 (claim_heads s).

(** The aged priorities of the queue's rows fit a [smallint]. *)
Definition ages (env : ClaimEnv) (s : Store) (queue : string) : Prop :=
  (forall r, r ∈ ready_entries (tables s) -> c_queue (rt_columns r) = queue ->
     exists p, effective_priority env (c_priority (rt_columns r)) (run_at_of r) = Ok p)
  /\ (forall g, g ∈ ready_segments (tables s) -> fst (fst (sg_lane g)) = queue ->
     exists p, effective_priority env (snd (fst (sg_lane g))) (first_run_at g) = Ok p).

Lemma backlog_nonneg s : 0 <= backlog s.
Proof.
  unfold backlog. induction (claim_heads s) as [|l ls IH]; simpl; [lia|].
  assert (0 <= lag s l) by (unfold lag; lia). lia.
Qed.

Lemma all_ok_all {A B} (f : A -> result AwaError B) l :
  (forall x, x ∈ l -> exists z, f x = Ok z) -> exists ys, all_ok f l = Ok ys /\ forall x, x ∈ l -> exists z, f x = Ok z /\ z ∈ ys.
Proof.
  induction l as [|x l IH]; intros H; [exists []; split; [done|by intros ? ?%elem_of_nil]|].
  destruct (H x) as (z & Hz); [left|]. destruct IH as (ys & Hys & Hin); [intros; apply H; by right|].
  exists (z :: ys). simpl. rewrite Hz. simpl. rewrite Hys. split; [done|].
  intros x' [->|Hx]%elem_of_cons; [exists z; split; [done|left]|]. destruct (Hin x' Hx) as (z' & ? & ?).
  exists z'. split; [done|by right].
Qed.

#[global] Instance candidate_le_total : Total candidate_le.
Proof. intros [la [[p r]|]] [lb [[p' r']|]]; unfold candidate_le; simpl; [lia|by left|by right|lia]. Qed.
#[global] Instance candidate_le_trans : Transitive candidate_le.
Proof.
  intros [la [[p r]|]] [lb [[p' r']|]] [lc [[p'' r'']|]]; unfold candidate_le; simpl; try done; lia.
Qed.

Lemma candidate_ages env s queue lane :
  ages env s queue -> fst (fst lane) = queue -> exists c, candidate env s lane = Ok c.
Proof.
  intros [_ Hg] Hq. unfold candidate. destruct (first_segment _ _ _) as [g|] eqn:Hs; [|eauto].
  apply first_segment_Some in Hs as (Hin & Hl & _). destruct (Hg g Hin) as (p & Hp); [by rewrite Hl|].
  rewrite Hl in Hp. rewrite Hp. simpl. eauto.
Qed.

(** With a segment somewhere in the queue, routing picks a lane with one. *)
Lemma route_picks env s queue lane :
  ages env s queue -> lane ∈ claim_heads s -> routable s queue lane = true ->
  first_segment (tables s) lane (claim_cursor s lane) <> None ->
  exists lane', route env (fun _ => false) queue s = Ok (Some lane')
    /\ first_segment (tables s) lane' (claim_cursor s lane') <> None.
Proof.
  intros Ha Hh Hr Hs. unfold route.
  destruct (all_ok_all (candidate env s) (List.filter (routable s queue) (claim_heads s))) as (cs & Hcs & Hin).
  { intros l [Hl _]%elem_of_filter_b. apply (candidate_ages env s queue); [done|].
    unfold routable in Hl. rewrite !andb_true_iff, bool_decide_eq_true in Hl. apply Hl. }
  rewrite Hcs. simpl. destruct (Hin lane) as (c & Hc & Hcin); [by apply elem_of_filter_b|].
  destruct (merge_sort candidate_le cs) as [|d ds] eqn:Hsort.
  { rewrite <- (merge_sort_Permutation candidate_le), Hsort in Hcin. by apply elem_of_nil in Hcin. }
  simpl. exists (cd_lane d). split; [done|].
  assert (candidate_le d c) as Hle by (apply (head_sorted candidate_le cs); [by rewrite Hsort|done]).
  assert (d ∈ cs) as Hd by (rewrite <- (merge_sort_Permutation candidate_le), Hsort; left).
  destruct (all_ok_elem _ _ _ _ Hcs Hd) as (l & _ & Hld). pose proof (candidate_lane _ _ _ _ Hld) as ->.
  unfold candidate in Hc, Hld. destruct (first_segment (tables s) lane _) as [g|]; [|done].
  apply rbind_Ok in Hc as (p & _ & [= <-]). destruct (first_segment (tables s) l _); [done|].
  injection Hld as <-. done.
Qed.

Lemma backlog_drops s lane q :
  lane ∈ claim_heads s -> claim_cursor s lane < sequence_next_value q <= enqueue_cursor s lane ->
  backlog (set_claim_seq lane q s) < backlog s.
Proof.
  intros Hin Hq. unfold backlog. change (claim_heads (set_claim_seq lane q s)) with (claim_heads s).
  assert (forall l, lag (set_claim_seq lane q s) l <= lag s l) as Hle.
  { intros l. unfold lag. rewrite claim_cursor_set. change (enqueue_cursor (set_claim_seq lane q s) l) with (enqueue_cursor s l).
    case_decide; subst; lia. }
  assert (lag (set_claim_seq lane q s) lane < lag s lane) as Hlt.
  { unfold lag. rewrite claim_cursor_set, decide_True by done.
    change (enqueue_cursor (set_claim_seq lane q s) lane) with (enqueue_cursor s lane). lia. }
  revert Hle Hlt. generalize (lag (set_claim_seq lane q s)) (lag s). intros f g Hle Hlt.
  assert (forall ls, foldr (fun l n => f l + n) 0 ls <= foldr (fun l n => g l + n) 0 ls) as Hall.
  { induction ls as [|l ls IH]; simpl; [lia|]. specialize (Hle l). lia. }
  clear Hq. induction (claim_heads s) as [|l ls IH]; [by apply elem_of_nil in Hin|]. simpl.
  apply elem_of_cons in Hin as [<-|Hin]; [specialize (Hall ls)|specialize (IH Hin); specialize (Hle l)]; lia.
Qed.

Lemma covered_bound y lane n : covered y lane (fun m => m < n) -> n <= enqueue_cursor (store y) lane.
Proof. intros [_ _ H]. specialize (H (n - 1) ltac:(lia)). lia. Qed.

(** The queue has a job that is neither claimed nor cancelled. *)
Definition has_live (y : Sys) (queue : string) : Prop :=
  exists r, r ∈ ready_entries (tables (store y)) /\ c_queue (rt_columns r) = queue /\ spent (tables (store y)) r = false.

Lemma live_routable y queue :
  lane_inv y -> has_live y queue -> paused (store y) queue = false ->
  exists lane, lane ∈ claim_heads (store y) /\ routable (store y) queue lane = true
    /\ first_segment (tables (store y)) lane (claim_cursor (store y) lane) <> None.
Proof.
  intros Hinv (r & Hr & Hq & Hs) Hp. pose proof (live_at_cursor y Hinv (lane_of r) r Hr eq_refl Hs) as Hc.
  destruct (ly_placed (li_layout y Hinv) r (or_introl Hr)) as [Hlt Hh].
  exists (lane_of r). split; [done|]. split; [|by apply (live_has_segment y Hinv (lane_of r) _ r)].
  unfold routable. rewrite !andb_true_iff, bool_decide_eq_true, negb_true_iff, Z.ltb_lt. split; [done|].
  change (enqueue_cursor (store y) (lane_of r)) with (next_at (enqueue_seqs (store y)) (lane_of r)). lia.
Qed.

(** A claim with nothing to return has moved a cursor forward. *)
Lemma claim_round_drops y env queue s :
  lane_inv y -> open_claims y = [] -> ages env (store y) queue -> 1 <= p_max_batch env ->
  has_live y queue -> paused (store y) queue = false ->
  claim_ready_runtime env (fun _ => false) queue (store y) = (Ok None, s) ->
  lane_inv (with_store s y) /\ tables s = tables (store y) /\ paused s = paused (store y) /\ backlog s < backlog (store y).
Proof.
  intros Hinv Ho Ha Hm Hlive Hp H. pose proof H as Hclaim.
  destruct (live_routable y queue Hinv Hlive Hp) as (lane & Hh & Hr & Hs).
  destruct (route_picks env (store y) queue lane Ha Hh Hr Hs) as (lane' & Hroute & Hs').
  pose proof (route_Some _ _ _ _ _ Hroute) as (_ & Hh' & _).
  unfold claim_ready_runtime in H. rewrite Hroute in H.
  pose proof (claim_lane_outcome y Hinv lane' env (next_receipt (store y)) (next_batch (store y))) as Hout.
  destruct (claim_ready_lane _ _ _ _ _ _ _) as [q' r]. destruct Hout as (_ & Hc & _ & Hprog).
  destruct r as [[c|]|e]; [done| |done]. injection H as <-.
  assert (lane_inv (with_store (set_claim_seq lane' q' (store y)) y)) as Hinv'.
  { assert (claim_locked y = fun _ => false) as Hlock by (unfold claim_locked; by rewrite Ho).
    rewrite <- Hlock in Hclaim. exact (step_claim_inv y env queue _ _ Hinv Hclaim). }
  split; [done|]. split; [done|]. split; [done|].
  destruct (Hprog Hs' Hm) as [(c & ?)|[(e & ?)|Hlt]]; [done|done|]. apply backlog_drops; [done|].
  apply covered_bound in Hc. lia.
Qed.

Lemma claim_slot_total env t lane ring receipt batch selected :
  (forall r, r ∈ selected -> exists p, effective_priority env (c_priority (rt_columns r)) (run_at_of r) = Ok p) ->
  exists o, claim_ready_slot env t lane ring receipt batch selected = Ok o.
Proof.
  intros H. unfold claim_ready_slot.
  destruct (all_ok_all (fun r => let? p := effective_priority env (c_priority (rt_columns r)) (run_at_of r) in Ok (r, p))
              selected) as (aged & Haged & _).
  { intros r (p & Hp)%H. rewrite Hp. eexists. reflexivity. }
  rewrite Haged. simpl. destruct (List.filter _ aged) as [|[r p] rows]; eauto.
Qed.

(** What a claim of a lane returns comes from [claim_ready_slot]. *)
Lemma claim_lane_slot env t lane v_next receipt batch q q' res :
  claim_ready_lane env t lane v_next receipt batch q = (q', res) -> res <> Ok None ->
  exists ring cursor k, Z.of_nat k <= p_max_batch env
    /\ res = claim_ready_slot env t lane ring receipt batch (take k (rows_from t lane ring cursor)).
Proof.
  intros H Hres. unfold claim_ready_lane in H.
  destruct (first_segment t lane (sequence_next_value q)) as [g|]; [|congruence].
  destruct (match evidence_next t lane (sg_ring g) (sequence_next_value q) with Some _ => _ | None => _ end)
    as [[q1 cursor] [ring|]]; [|congruence].
  destruct (head (rows_from t lane ring cursor)) as [h|]; [|congruence].
  destruct (if cursor <? seq_of h then _ else _) as [q2 cursor2]. cbv zeta in H.
  destruct (_ <=? 0) eqn:Hl; [congruence|]. destruct (spent t h); [congruence|].
  exists ring, cursor2, (Z.to_nat (Z.min (Z.max (v_next - cursor2) 0) (p_max_batch env))).
  split; [lia|]. congruence.
Qed.

Lemma claim_runtime_slot env locked queue s res s' :
  claim_ready_runtime env locked queue s = (res, s') -> (forall e, route env locked queue s <> Err e) -> res <> Ok None ->
  exists lane ring cursor k, Z.of_nat k <= p_max_batch env /\ route env locked queue s = Ok (Some lane)
    /\ fst (fst lane) = queue
    /\ res = claim_ready_slot env (tables s) lane ring (next_receipt s) (next_batch s)
               (take k (rows_from (tables s) lane ring cursor)).
Proof.
  unfold claim_ready_runtime. intros H Hok Hres. destruct (route env locked queue s) as [[lane|]|e] eqn:Hroute; [| |by destruct (Hok e)].
  2:{ injection H as <- _. done. }
  destruct (claim_ready_lane _ _ _ _ _ _ _) as [q' r] eqn:Hl.
  assert (r = res) as -> by (destruct r as [[c|]|e]; congruence).
  destruct (claim_lane_slot _ _ _ _ _ _ _ _ _ Hl Hres) as (ring & cursor & k & Hk & E). exists lane, ring, cursor, k.
  split_and!; try done. apply route_Some in Hroute as (_ & _ & Hr).
  unfold routable in Hr. rewrite !andb_true_iff, bool_decide_eq_true in Hr. apply Hr.
Qed.

Lemma claim_never_raises env queue s e s' :
  ages env s queue -> claim_ready_runtime env (fun _ => false) queue s <> (Err e, s').
Proof.
  intros Ha H.
  assert (forall e, route env (fun _ => false) queue s <> Err e) as Hroute.
  { intros e' Hr. unfold route in Hr.
    destruct (all_ok_all (candidate env s) (List.filter (routable s queue) (claim_heads s))) as (cs & Hcs & _).
    - intros l [Hl _]%elem_of_filter_b. apply (candidate_ages env s queue); [done|].
      unfold routable in Hl. rewrite !andb_true_iff, bool_decide_eq_true in Hl. apply Hl.
    - by rewrite Hcs in Hr. }
  destruct (claim_runtime_slot _ _ _ _ _ _ H Hroute) as (lane & ring & cursor & k & _ & _ & Hq & E); [done|].
  destruct (claim_slot_total env (tables s) lane ring (next_receipt s) (next_batch s)
              (take k (rows_from (tables s) lane ring cursor))) as (o & Ho); [|congruence].
  intros r Hr. apply Ha.
  - assert (r ∈ rows_from (tables s) lane ring cursor) as Hin.
    { rewrite <- (take_drop k (rows_from _ _ _ _)). apply elem_of_app. by left. }
    by apply rows_from_elem in Hin as (? & _).
  - assert (r ∈ rows_from (tables s) lane ring cursor) as Hin.
    { rewrite <- (take_drop k (rows_from _ _ _ _)). apply elem_of_app. by left. }
    apply rows_from_elem in Hin as (_ & Hl & _). rewrite <- Hq, <- Hl. done.
Qed.

Lemma claim_rounds_reach fuel y env queue :
  lane_inv y -> open_claims y = [] -> ages env (store y) queue -> 1 <= p_max_batch env ->
  has_live y queue -> paused (store y) queue = false -> backlog (store y) < Z.of_nat fuel ->
  exists c, claim_rounds fuel env queue (store y) = Ok (Some c).
Proof.
  revert y. induction fuel as [|fuel IH]; intros y Hinv Ho Ha Hm Hlive Hp Hf; [pose proof (backlog_nonneg (store y)); lia|].
  simpl. destruct (claim_ready_runtime env (fun _ => false) queue (store y)) as [[[c|]|e] s] eqn:Hc; [eauto| |].
  - destruct (claim_round_drops y env queue s Hinv Ho Ha Hm Hlive Hp Hc) as (Hinv' & Et & Ep & Hlt).
    apply (IH (with_store s y)); auto; unfold has_live, ages; cbn [store with_store]; rewrite ?Et, ?Ep; auto; lia.
  - by destruct (claim_never_raises env queue (store y) e s Ha).
Qed.

(** * Guarantees *)

(** C15. No job is stranded: whatever commits, aborts, is cancelled, rotated or
    pruned in between, and whether or not the advances of the cursor run, a
    committed job that is neither claimed nor cancelled is at or beyond its
    lane's claim cursor, and so is every job not yet committed; and a slot that
    passes the prune gate holds only claimed or cancelled jobs. *)
Theorem no_job_stranded y :
  lane_reachable y ->
  (forall r, r ∈ ready_entries (tables (store y)) -> spent (tables (store y)) r = false ->
     claim_cursor (store y) (lane_of r) <= seq_of r)
  /\ (forall r, pending y r -> claim_cursor (store y) (lane_of r) <= seq_of r)
  /\ (forall ring, queue_prune_has_pending_ready (store y) ring = false ->
      forall r, r ∈ ready_entries (tables (store y)) -> ring_of r = ring -> spent (tables (store y)) r = true).
Proof.
  intros Hinv%lane_reachable_inv. split; [|split].
  - intros r Hr Hs. by apply (live_at_cursor y Hinv (lane_of r)).
  - intros r Hr. destruct (li_cursor y Hinv (lane_of r)) as [_ H _]. specialize (H r Hr eq_refl). simpl in H. lia.
  - intros ring Hgate r Hr Hring. destruct (li_cursor y Hinv (lane_of r)) as [H _ _]. apply H; [done|done|].
    destruct (ly_placed (li_layout y Hinv) r (or_introl Hr)) as [_ Hh].
    destruct (decide (seq_of r < claim_cursor (store y) (lane_of r))) as [|Hge]; [done|].
    assert (queue_prune_has_pending_ready (store y) ring = true); [|congruence].
    apply existsb_elem. exists (lane_of r). split; [done|]. apply existsb_elem. exists r. split; [done|].
    rewrite !andb_true_iff, !bool_decide_eq_true. split; [done|lia].
Qed.

(** C16. A lane's jobs are handed out in order and once: committed claims of a
    lane have increasing numbers, so no number is claimed twice, and none
    overtakes a job of the lane that is still to be claimed. *)
Theorem lane_claims_in_order y :
  lane_reachable y ->
  (forall (i j : nat) x x', (i < j)%nat -> claim_log y !! i = Some x -> claim_log y !! j = Some x' ->
     rl_lane x = rl_lane x' -> lane_seq (rl_pos x) < lane_seq (rl_pos x'))
  /\ (forall x r, x ∈ claim_log y -> r ∈ ready_entries (tables (store y)) -> lane_of r = rl_lane x ->
      spent (tables (store y)) r = false -> lane_seq (rl_pos x) < seq_of r).
Proof.
  intros Hinv%lane_reachable_inv. split.
  - pose proof (li_log_sorted y Hinv) as Hs. induction Hs as [|a l Hs IH Ha]; intros i j x x' Hij Hi Hj; [done|].
    destruct j as [|j]; [lia|]. destruct i as [|i]; simpl in *; [|apply (IH i j); auto; lia].
    injection Hi as ->. rewrite Forall_forall in Ha. apply Ha. by eapply list_elem_of_lookup_2.
  - intros x r Hx Hr Hl Hs. by apply (live_after_log y Hinv (lane_of r)).
Qed.

(** The row a claim returns for a ready row. *)
Definition handed_out (r : ReadyEntry) (x : ReadyJobLeaseRow) : Prop :=
  let c := rt_columns r in let d := rl_columns x in
  rl_pos x = rt_pos r /\ rl_lane_priority x = c_priority c
  /\ c_job_id d = c_job_id c /\ c_kind d = c_kind c /\ c_queue d = c_queue c /\ c_args d = c_args c
  /\ c_run_lease d = c_run_lease c + 1 /\ c_attempt d = c_attempt c + 1 /\ c_max_attempts d = c_max_attempts c
  /\ c_run_at d = c_run_at c /\ c_created_at d = c_created_at c /\ c_unique_key d = c_unique_key c
  /\ c_unique_states d = c_unique_states c /\ c_payload d = c_payload c /\ is_Some (rl_receipt_id x).

Lemma receipts_items base rows x : x ∈ with_receipts base rows -> exists n, fst (fst x) = claim_item n (snd (fst x)).
Proof. intros (i & rp & _ & ->)%elem_of_imap_iff. by eexists. Qed.

Lemma claimed_rows_handed env lane batches base (rows : list (ReadyEntry * Z)) :
  Forall2 handed_out (map fst rows) (map (claimed_row env lane batches) (with_receipts base rows)).
Proof.
  rewrite <- (receipts_fst base rows). pose proof (receipts_items base rows) as Hi.
  induction (with_receipts base rows) as [|[[item r] p] l IH]; simpl; constructor; [|apply IH; intros; apply Hi; by right].
  destruct (Hi (item, r, p) ltac:(left)) as (n & E). simpl in E. subst item. unfold handed_out. cbn. by split_and!.
Qed.

Lemma Forall2_handed_keys rs xs : Forall2 handed_out rs xs -> map seq_of rs = map (fun x => lane_seq (rl_pos x)) xs.
Proof. induction 1 as [|r x rs xs (E & _) _ IH]; simpl; [done|]. unfold seq_of at 1. by rewrite E, IH. Qed.

(** C17. What a claim of a reachable store hands out: at least one and at most
    the batch's size of the jobs of one lane of the queue, live, in lane order
    and with no live job of the lane before or between them left out; each with
    one more attempt, a fresh run lease and a receipt, and otherwise as it was
    stored. *)
Theorem claim_hands_out_first_live y env queue c s :
  lane_reachable y -> claim_ready_runtime env (claim_locked y) queue (store y) = (Ok (Some c), s) ->
  exists lane rs, fst (fst lane) = queue /\ claim_locked y lane = false
    /\ Forall2 handed_out rs (cl_rows c)
    /\ 1 <= Z.of_nat (length rs) <= p_max_batch env
    /\ (forall r, r ∈ rs -> r ∈ ready_entries (tables (store y)) /\ lane_of r = lane /\ spent (tables (store y)) r = false)
    /\ StronglySorted Z.lt (map seq_of rs)
    /\ (forall r x, r ∈ ready_entries (tables (store y)) -> lane_of r = lane -> spent (tables (store y)) r = false ->
         x ∈ rs -> seq_of r <= seq_of x -> r ∈ rs).
Proof.
  intros Hinv%lane_reachable_inv Hc. pose proof Hc as Hclaim. unfold claim_ready_runtime in Hc.
  destruct (route env (claim_locked y) queue (store y)) as [[lane|]|e] eqn:Hroute; [|done|done].
  pose proof (claim_lane_outcome y Hinv lane env (next_receipt (store y)) (next_batch (store y))) as Hout.
  destruct (claim_ready_lane _ _ _ _ _ _ _) as [q' res] eqn:Hlane. destruct Hout as (_ & _ & Hclaims & _).
  assert (res = Ok (Some c)) as -> by (destruct res as [[?|]|?]; congruence).
  destruct (Hclaims c eq_refl) as (Hl & Hok & Hlive).
  destruct (claim_lane_slot _ _ _ _ _ _ _ _ _ Hlane) as (ring & cursor & k & Hk & Hslot); [done|].
  symmetry in Hslot. apply claim_slot_shape in Hslot as (_ & _ & Eranges & Hlast & _ & rows & base & batches & Hrs & Erows).
  set (t := tables (store y)) in *. set (rs := live_rows t (take k (rows_from t lane ring cursor))) in *.
  apply route_Some in Hroute as (Hfree & _ & Hr). unfold routable in Hr. rewrite !andb_true_iff, bool_decide_eq_true in Hr.
  exists lane, rs. split; [apply Hr|]. split; [done|].
  assert (forall r, r ∈ rs -> r ∈ ready_entries t /\ lane_of r = lane) as Hin.
  { intros r [_ Hr']%elem_of_filter_b. assert (r ∈ rows_from t lane ring cursor) as H.
    { rewrite <- (take_drop k (rows_from _ _ _ _)). apply elem_of_app. by left. }
    apply rows_from_elem in H as (? & ? & _). done. }
  assert (forall r, r ∈ rs -> seq_of r ∈ lane_ranges (cl_attempts c)) as Hrange.
  { intros r Hr'. rewrite Eranges. by apply list_elem_of_fmap_2. }
  split; [rewrite <- Hrs, Erows; apply claimed_rows_handed|]. split; [split|split; [|split]].
  - destruct rs as [|r rs'] eqn:Ers; [|simpl; lia]. rewrite Eranges in Hlast. by apply elem_of_nil in Hlast.
  - etransitivity; [|exact Hk]. unfold rs, live_rows.
    pose proof (List.filter_length_le (fun r => negb (tombstoned t r)) (take k (rows_from t lane ring cursor))) as H.
    rewrite length_take in H. lia.
  - intros r Hr'. destruct (Hin r Hr') as [Hrr Hrl]. split; [done|]. split; [done|].
    destruct (Hlive _ (Hrange r Hr')) as (r' & ? & ? & ? & ?). assert (r' = r) as <-; [|done].
    apply (row_eq y Hinv); auto; congruence.
  - pose proof (ck_sorted y c Hok) as Hs. rewrite Eranges in Hs. exact Hs.
  - intros r x Hrr Hrl Hrs' Hx Hle. pose proof (ck_covered y c Hok) as [Hcov _ _].
    destruct (decide (seq_of r ∈ lane_ranges (cl_attempts c))) as [Hn|Hn].
    + rewrite Eranges in Hn. apply list_elem_of_fmap in Hn as (z & Hz & Hzin). destruct (Hin z Hzin).
      assert (r = z) as ->; [|done]. apply (row_eq y Hinv); auto; congruence.
    + destruct (ck_rows y c Hok _ (Hrange x Hx)) as [? _]. rewrite Hcov in Hrs'; [done|done|congruence|]. split; [lia|done].
Qed.

(** C18. Polling makes progress.  In any state a run of the lanes reaches, whatever
    its claims, cancels and lost advances left the cursors behind: if no claim is
    open, the queue is not paused and has a live job, its jobs' waiting times give
    aged priorities that fit a [smallint], and the poll asks for at least one job,
    then a bounded number of polls with nothing in between (one more than the
    numbers the lanes have reserved and not yet passed) returns jobs. *)
Theorem polling_reaches_live_job y env queue :
  lane_reachable y -> open_claims y = [] -> ages env (store y) queue -> 1 <= p_max_batch env ->
  has_live y queue -> paused (store y) queue = false ->
  exists c, claim_rounds (Z.to_nat (backlog (store y)) + 1) env queue (store y) = Ok (Some c).
Proof.
  intros Hinv%lane_reachable_inv. intros. apply claim_rounds_reach; auto.
  pose proof (backlog_nonneg (store y)). lia.
Qed.

(** * Runs *)

Module LaneRuns.
(** Each step as a function of the state. *)
Definition insert (tx : Z) (grouped : list ((string * Z * Z) * list Columns)) (y : Sys) : Sys :=
  let ts := insert_grouped_rows grouped (store y) in
  mkSys (snd ts) (<[tx := mkWriter (tables_app (wr_tables (writer y tx)) (fst ts))
                            (wr_lanes (writer y tx) ++ map fst grouped)]> (writers y))
    (open_claims y) (issued y) (claim_log y).
Definition tombstone (tx job_id : Z) (y : Sys) : Sys :=
  match unclaimed_target (store y) job_id with
  | Some r => mkSys (store y) (<[tx := mkWriter (tables_app (wr_tables (writer y tx)) (only_tombstone r))
                                        (wr_lanes (writer y tx))]> (writers y))
                (open_claims y) (issued y) (claim_log y)
  | None => y
  end.
Definition commit (tx : Z) (y : Sys) : Sys :=
  match writers y !! tx with
  | Some w => mkSys (set_tables (tables_app (tables (store y)) (wr_tables w)) (store y))
                (delete tx (writers y)) (open_claims y)
                (issued y ++ map cancel_advance (ready_tombstones (wr_tables w))) (claim_log y)
  | None => y
  end.
Definition claim (env : ClaimEnv) (queue : string) (y : Sys) : Sys :=
  let rs := claim_ready_runtime env (claim_locked y) queue (store y) in
  mkSys (snd rs) (writers y) (match fst rs with Ok (Some c) => c :: open_claims y | _ => open_claims y end)
    (issued y) (claim_log y).
Definition commit_claims (y : Sys) : Sys :=
  match open_claims y with
  | c :: after => mkSys (set_tables (tables_app (tables (store y)) (commit_claim c)) (store y))
                    (writers y) after (issued y ++ claim_cursor_advances (cl_rows c)) (claim_log y ++ cl_rows c)
  | [] => y
  end.
Definition advance_all (y : Sys) : Sys :=
  mkSys (advance_claim_cursors_strict (normalize_claim_cursor_advances (issued y)) (store y))
    (writers y) (open_claims y) (issued y) (claim_log y).

(** The attempts handed out: job and run lease. *)
Definition attempts_of (log : list ReadyJobLeaseRow) : list (Z * Z) :=
  map (fun x => (c_job_id (rl_columns x), c_run_lease (rl_columns x))) log.

(** A job of the queue [q], its payload empty. *)
Definition job (id priority : Z) (run_at : time) : Columns :=
  mkColumns id "k" "q" (JObject []) priority 0 0 25 run_at None run_at None None (JObject []).
Definition env_at (now : time) : ClaimEnv := mkClaimEnv now 10 0 (as_secs_f64 (60 * 10 ^ 9)) (0, 0) 0.

(** Job 7 is enqueued at priority 2 and claimed; the advance is lost. *)
Definition claimed : Sys :=
  empty_sys (0, 0) |> insert 1 [(("q", 2, 0), [job 7 2 0])] |> commit 1 |> claim (env_at 1000000) "q" |> commit_claims.
(** Its priority is set to 1. *)
Definition moving : Sys :=
  claimed |> tombstone 2 7 |> insert 2 [(("q", 1, 0), [with_payload (JObject [("metadata", JObject [("_awa_original_priority", i64_number 2)])]) (job 7 1 0)])].
Definition claimed_again : Sys := moving |> commit 2 |> claim (env_at 2000000) "q" |> commit_claims.

(** Job 2 has waited since time 0 at priority 2; job 1 was enqueued later at
    priority 1. *)
Definition waited : time := 32768 * 60 * us_per_sec.
Definition two_lanes : Sys :=
  empty_sys (0, 0) |> insert 1 [(("q", 2, 0), [job 2 2 0])] |> commit 1
  |> insert 1 [(("q", 1, 0), [job 1 1 (waited - 1000000)])] |> commit 1.
End LaneRuns.

Import LaneRuns.

Lemma run_insert tx grouped y :
  grouped_ok grouped -> (forall lane, lane ∈ map fst grouped -> lane_free y tx lane) -> lane_step y (insert tx grouped y).
Proof. intros Hg Hf. eapply StepInsert; eauto. unfold insert. by destruct (insert_grouped_rows _ _). Qed.

Lemma run_tombstone tx job_id y : rtc lane_step y (tombstone tx job_id y).
Proof.
  unfold tombstone. destruct (unclaimed_target (store y) job_id) as [r|] eqn:Hr; [|constructor].
  apply rtc_once. apply head_elem in Hr. rewrite (merge_sort_Permutation seq_ge), elem_of_filter_b, andb_true_iff in Hr.
  destruct Hr as [[_ Hu] Hin]. by apply StepTombstone.
Qed.

Lemma tombstone_writers tx job_id y tx' w :
  writers y = ∅ -> writers (tombstone tx job_id y) !! tx' = Some w -> tx' = tx.
Proof.
  unfold tombstone. intros H. destruct (unclaimed_target (store y) job_id); simpl; rewrite H; [|by rewrite lookup_empty].
  by intros [[<- _]|[_ Hw]]%lookup_insert_Some; [|rewrite lookup_empty in Hw].
Qed.

Lemma run_commit tx y : rtc lane_step y (commit tx y).
Proof. unfold commit. destruct (writers y !! tx) eqn:Hw; [by apply rtc_once, StepCommit|constructor]. Qed.

Lemma run_claim env queue y : lane_step y (claim env queue y).
Proof. unfold claim. eapply StepClaim. apply surjective_pairing. Qed.

Lemma run_commit_claims y : rtc lane_step y (commit_claims y).
Proof.
  unfold commit_claims. destruct (open_claims y) as [|c after] eqn:Ho; [constructor|].
  apply rtc_once, (StepClaimCommit y [] c after Ho).
Qed.

Lemma one_lane_ok lane c : (c_queue c, c_priority c) = fst lane -> grouped_ok [(lane, [c])].
Proof. intros H l cs c' [= -> ->]%list_elem_of_singleton ->%list_elem_of_singleton. done. Qed.

Lemma no_writer_free y tx lane : writers y = ∅ -> lane_free y tx lane.
Proof. intros H tx' w Hw. rewrite H, lookup_empty in Hw. done. Qed.

Lemma claimed_reachable : lane_reachable claimed.
Proof.
  exists (0, 0). unfold claimed. etrans; [|apply run_commit_claims].
  eapply rtc_r; [|apply run_claim]. etrans; [|apply run_commit].
  apply rtc_once, run_insert; [by apply one_lane_ok|]. intros lane _. by apply no_writer_free.
Qed.

Lemma claimed_again_runs : rtc lane_step moving claimed_again.
Proof.
  unfold claimed_again. etrans; [|apply run_commit_claims]. eapply rtc_r; [|apply run_claim]. apply run_commit.
Qed.

Lemma moving_runs : rtc lane_step claimed moving.
Proof.
  unfold moving. eapply rtc_r; [apply run_tombstone|]. apply run_insert; [by apply one_lane_ok|].
  intros lane _ tx w Hw _. eapply tombstone_writers; [|exact Hw]. by vm_compute.
Qed.

Lemma two_lanes_reachable : lane_reachable two_lanes.
Proof.
  exists (0, 0). unfold two_lanes. etrans; [|apply run_commit].
  eapply rtc_r; [|apply run_insert; [by apply one_lane_ok|intros lane _; apply no_writer_free; by vm_compute]].
  etrans; [|apply run_commit]. apply rtc_once, run_insert; [by apply one_lane_ok|]. intros lane _. by apply no_writer_free.
Qed.

(** C29. Whether a ready job is unclaimed is read off the claim cursor, which may
    lag a committed claim: there is a run in which job 7 is running, its claim
    committed and its advance lost; setting its priority still finds it
    unclaimed, and moves it; and the next claim hands it out a second time with
    the same run lease. *)
Theorem moved_job_claimed_twice :
  exists y y1 y',
    lane_reachable y /\ rtc lane_step y y1 /\ rtc lane_step y1 y'
    /\ attempts_of (claim_log y) = [(7, 1)]
    /\ move_ready_batch_fields_tx (fun _ => 1) 0 id id 7 None (Some 1) (store y)
       = Ok (Some (wr_tables (writer y1 2), store y1))
    /\ attempts_of (claim_log y') = [(7, 1); (7, 1)].
Proof.
  exists claimed, moving, claimed_again. split; [apply claimed_reachable|]. split; [apply moving_runs|].
  split; [apply claimed_again_runs|]. split; [vm_compute; reflexivity|].
  split; [vm_compute; reflexivity|]. vm_compute. reflexivity.
Qed.

(** One job that has waited 32768 aging intervals (22.8 days at the default
    of 60 seconds) stops its whole queue: the routing query casts the number of
    intervals to [smallint] and raises, so no claim of the queue succeeds and
    the store does not change, although another lane has a live job, which the
    same claim returns a microsecond earlier. *)
Theorem one_old_job_blocks_its_queue :
  exists y, lane_reachable y /\ open_claims y = [] /\ paused (store y) "q" = false
    /\ length (List.filter (fun r => negb (spent (tables (store y)) r)) (ready_entries (tables (store y)))) = 2%nat
    /\ (forall locked, claim_ready_runtime (env_at waited) locked "q" (store y) = (Err SMALLINT_OUT_OF_RANGE, store y))
    /\ (exists c s, claim_ready_runtime (env_at (waited - 1)) (fun _ => false) "q" (store y) = (Ok (Some c), s)).
Proof.
  exists two_lanes. split; [apply two_lanes_reachable|]. split; [by vm_compute|]. split; [by vm_compute|].
  split; [by vm_compute|]. split.
  - intros locked. vm_compute. reflexivity.
  - eexists _, _. vm_compute. reflexivity.
Qed.

(** * Witnesses *)

Definition row_2 : ReadyEntry := ready_entry (0, 0) (mkReadyInsert 1 0 (job 2 2 0)).
Definition row_1 : ReadyEntry := ready_entry (0, 0) (mkReadyInsert 1 0 (job 1 1 (waited - 1000000))).

Lemma two_lanes_rows : ready_entries (tables (store two_lanes)) = [row_2; row_1].
Proof. vm_compute. reflexivity. Qed.

Lemma two_lanes_segments :
  ready_segments (tables (store two_lanes)) = [mkSegment (0, 0) ("q", 2, 0) 1 2 0; mkSegment (0, 0) ("q", 1, 0) 1 2 (waited - 1000000)].
Proof. vm_compute. reflexivity. Qed.

Lemma no_job_stranded_witness : claim_cursor (store two_lanes) ("q", 2, 0) <= 1.
Proof.
  destruct (no_job_stranded two_lanes two_lanes_reachable) as (H & _). apply (H row_2).
  - rewrite two_lanes_rows. left.
  - vm_compute. reflexivity.
Defined.

Lemma lane_claims_in_order_witness :
  exists x, x ∈ claim_log claimed /\
    forall r, r ∈ ready_entries (tables (store claimed)) -> lane_of r = rl_lane x ->
      spent (tables (store claimed)) r = false -> lane_seq (rl_pos x) < seq_of r.
Proof.
  pose proof (proj2 (lane_claims_in_order claimed claimed_reachable)) as H.
  destruct (claim_log claimed) as [|x l] eqn:E; [exfalso; vm_compute in E; discriminate E|].
  exists x. split; [left|]. intros r. apply H. left.
Defined.

Lemma claim_hands_out_first_live_witness :
  exists c (lane : string * Z * Z) rs, fst (fst lane) = "q" /\ Forall2 handed_out rs (cl_rows c) /\ 1 <= Z.of_nat (length rs) <= 10.
Proof.
  destruct (claim_ready_runtime (env_at (waited - 1)) (claim_locked two_lanes) "q" (store two_lanes))
    as [[[c|]|e] s] eqn:Hc; [|vm_compute in Hc; discriminate Hc|vm_compute in Hc; discriminate Hc].
  destruct (claim_hands_out_first_live two_lanes (env_at (waited - 1)) "q" c s two_lanes_reachable Hc)
    as (lane & rs & H1 & _ & H2 & H3 & _).
  exists c, lane, rs. split; [exact H1|]. split; [exact H2|exact H3].
Defined.

Lemma two_lanes_ages : ages (env_at (waited - 1)) (store two_lanes) "q".
Proof.
  split.
  - rewrite two_lanes_rows. intros r Hr _. apply elem_of_cons in Hr as [->|Hr]; [|apply list_elem_of_singleton in Hr as ->];
      eexists; vm_compute; reflexivity.
  - rewrite two_lanes_segments. intros g Hg _. apply elem_of_cons in Hg as [->|Hg]; [|apply list_elem_of_singleton in Hg as ->];
      eexists; vm_compute; reflexivity.
Qed.

Lemma polling_reaches_live_job_witness :
  exists c, claim_rounds 3 (env_at (waited - 1)) "q" (store two_lanes) = Ok (Some c).
Proof.
  change 3%nat with (Z.to_nat 2 + 1)%nat.
  assert (backlog (store two_lanes) = 2) as <- by (vm_compute; reflexivity).
  apply polling_reaches_live_job.
  - exact two_lanes_reachable.
  - vm_compute. reflexivity.
  - exact two_lanes_ages.
  - vm_compute. discriminate.
  - exists row_2. rewrite two_lanes_rows. split; [left|]. split; vm_compute; reflexivity.
  - vm_compute. reflexivity.
Defined.
