(* ===== verification/AtomicLanes.v ===== *)
(** Lanes whose transactions run one at a time: every writer commits at once, and
    a claim commits and advances the cursor before anything else happens.  Then
    the rows at or beyond the claim cursor without a tombstone are exactly the
    ready jobs, and each operation changes that list the way its caller counts
    on. *)

From S2P Require Import Prelude.
From S2P Require Import Error.
From S2P Require Import Json.
From S2P Require Import Job.
From S2P Require Import Routing.
From S2P Require Import Rows.
From S2P Require Import Lanes.
From S2P Require Import LanesFacts.
From S2P Require Import Enqueue.
From S2P Require Import LaneGuarantees.

Definition quiet (s : Store) : Sys := mkSys s ∅ [] [] [].
Definition live (s : Store) : list ReadyEntry := List.filter (unclaimed s) (ready_entries (tables s)).

Record calm (s : Store) : Prop := {
  cm_inv : lane_inv (quiet s);
  cm_batches : forall b, b ∈ attempt_batches (tables s) -> ab_next b <= claim_cursor s (ab_lane b);
  cm_tombs : forall b, b ∈ ready_tombstones (tables s) -> tb_seq b < enqueue_cursor s (tb_lane b)
}.

Lemma inv_forget s i l : lane_inv (mkSys s ∅ [] i l) -> lane_inv (quiet s).
Proof.
  intros []. set (y := mkSys s ∅ [] i l) in *. assert (grows y (quiet s)) as Hg by by apply grows_same.
  split; simpl; try done; try by intros ? ?%elem_of_nil.
  - intros lane. eapply covered_grows; eauto.
  - intros b Hb. destruct (li_batches b Hb). split; eauto using covered_grows.
  - by intros ? ? ? ?%elem_of_nil.
  - constructor.
Qed.

Lemma calm_empty ring : calm (empty_store ring).
Proof. split; [apply empty_lane_inv|by intros ? ?%elem_of_nil..]. Qed.

(** Nothing of the lanes but their tables, sequences, heads and ring matters. *)
Lemma calm_frame s s' :
  calm s -> ready_entries (tables s') = ready_entries (tables s) -> ready_segments (tables s') = ready_segments (tables s) ->
  ready_tombstones (tables s') = ready_tombstones (tables s) -> attempt_batches (tables s') = attempt_batches (tables s) ->
  enqueue_seqs s' = enqueue_seqs s -> claim_seqs s' = claim_seqs s ->
  (forall lane, lane ∈ claim_heads s -> lane ∈ claim_heads s') -> queue_ring s' = queue_ring s -> calm s'.
Proof.
  intros [Hinv Hb Ht] Er Es Et Ea Ee Ec Hh Eq. pose proof (li_layout _ Hinv) as L.
  split; unfold claim_cursor, enqueue_cursor; rewrite ?Ea, ?Et, ?Ec, ?Ee; [|exact Hb|exact Ht].
  apply (inv_frame (quiet s)); simpl; try done; rewrite ?Ea, ?Er; auto.
  - split; simpl; [|by left|intros lane; unfold enqueue_cursor; by rewrite Ee].
    intros r Hr. rewrite Er in Hr. left. split; [done|]. unfold spent, tombstoned, attempted, attempted_at. by rewrite Et, Ea.
  - unfold layout_of in *. simpl in *. rewrite Er, Es, Ee, Eq. destruct L. split; try done.
    intros r Hr. destruct (ly_placed r Hr). auto.
Qed.

Lemma live_frame s s' :
  ready_entries (tables s') = ready_entries (tables s) -> ready_tombstones (tables s') = ready_tombstones (tables s) ->
  claim_seqs s' = claim_seqs s -> live s' = live s.
Proof.
  intros Er Et Ec. unfold live. rewrite Er. apply List.filter_ext. intros r.
  unfold unclaimed, claim_cursor, tombstoned. by rewrite Ec, Et.
Qed.

Lemma live_elem s r :
  r ∈ live s <-> r ∈ ready_entries (tables s) /\ claim_cursor s (lane_of r) <= seq_of r /\ tombstoned (tables s) r = false.
Proof. unfold live, unclaimed. rewrite elem_of_filter_b, andb_true_iff, negb_true_iff, Z.leb_le. tauto. Qed.

Lemma rows_NoDup s : calm s -> NoDup (ready_entries (tables s)).
Proof. intros [Hinv _ _]. eapply NoDup_fmap_1, (ly_unique (li_layout _ Hinv)). Qed.
Lemma live_NoDup s : calm s -> NoDup (live s).
Proof. intros Hc%rows_NoDup. apply NoDup_ListNoDup. apply List.NoDup_filter. by apply NoDup_ListNoDup. Qed.

Lemma row_by_key s r r' :
  calm s -> r ∈ ready_entries (tables s) -> r' ∈ ready_entries (tables s) -> lane_of r = lane_of r' -> seq_of r = seq_of r' -> r = r'.
Proof. intros [Hinv _ _]. by apply (row_eq (quiet s) Hinv). Qed.

(** In a calm store only a tombstone spends a row from the cursor on. *)
Lemma spent_from_cursor s r :
  calm s -> r ∈ ready_entries (tables s) -> claim_cursor s (lane_of r) <= seq_of r -> spent (tables s) r = true ->
  tombstoned (tables s) r = true.
Proof.
  intros [_ Hb _] Hr Hc. unfold spent. rewrite orb_true_iff. intros [?|(b & Hin & _ & Hl & _ & Hlt)%attempted_at_spec]; [done|].
  specialize (Hb b Hin). rewrite Hl in Hb. lia.
Qed.

Lemma covered_live s lane n r :
  calm s -> covered (quiet s) lane (fun m => m < n) -> r ∈ live s -> lane_of r = lane -> n <= seq_of r.
Proof.
  intros Hc [Hs _ _] (Hr & Hcur & Ht)%live_elem Hl. destruct (decide (n <= seq_of r)) as [|Hlt]; [done|].
  rewrite (spent_from_cursor s r) in Ht; auto; [done|]. apply Hs; auto. lia.
Qed.

(** The cursor moves over spent rows. *)
Lemma calm_cursor s lane q :
  calm s -> claim_cursor s lane <= sequence_next_value q -> covered (quiet s) lane (fun n => n < sequence_next_value q) ->
  calm (set_claim_seq lane q s) /\ live (set_claim_seq lane q s) = live s.
Proof.
  intros Hc Hle Hcov. pose proof Hc as [Hinv Hb Ht]. pose proof (li_seqs _ Hinv lane) as H1. simpl in H1. split.
  - split; [|intros b Hin; rewrite claim_cursor_set; case_decide as E; [subst; specialize (Hb b Hin); lia|auto]|exact Ht].
    apply (inv_cursor (quiet s)); [done|lia|done].
  - unfold live. apply List.filter_ext_in. intros r Hr%list_elem_of_In. unfold unclaimed. rewrite claim_cursor_set.
    case_decide as E; [|done]. subst lane. cbn [tables set_claim_seq].
    destruct (claim_cursor s (lane_of r) <=? seq_of r) eqn:Hcur; simpl.
    + destruct (tombstoned (tables s) r) eqn:Htb; simpl; [by rewrite !andb_false_r|].
      rewrite !andb_true_r. apply Z.leb_le. apply (covered_live s (lane_of r)); auto. apply live_elem. auto with lia.
    + apply Z.leb_gt in Hcur. assert ((sequence_next_value q <=? seq_of r) = false) as -> by lia. done.
Qed.

(** * Inserts and tombstones *)

Lemma ensure_lanes_counters lanes s :
  let s' := fold_left (fun s lane => ensure_lane lane s) lanes s in
  next_receipt s' = next_receipt s /\ next_batch s' = next_batch s.
Proof.
  revert s. induction lanes as [|l lanes IH]; intros s; [done|]. simpl. destruct (IH (ensure_lane l s)) as [-> ->].
  unfold ensure_lane. by case_bool_decide.
Qed.
Lemma insert_grouped_frame grouped s t s' :
  insert_grouped_rows grouped s = (t, s') ->
  claim_batches t = [] /\ next_receipt s' = next_receipt s /\ next_batch s' = next_batch s.
Proof.
  unfold insert_grouped_rows. cbv zeta. destruct (ensure_lanes_counters (map fst grouped) s) as [E1 E2].
  set (s0 := fold_left _ _ s) in *. destruct (reserve_lanes grouped (enqueue_seqs s0)). intros [= <- <-]. simpl. by rewrite E1, E2.
Qed.

Lemma filter_all {A} (f : A -> bool) l : (forall x, x ∈ l -> f x = true) -> List.filter f l = l.
Proof.
  induction l as [|x l IH]; [done|]. intros H. simpl. rewrite (H x) by left. f_equal. apply IH. intros y Hy. apply H. by right.
Qed.
Lemma filter_none {A} (f : A -> bool) l : (forall x, x ∈ l -> f x = false) -> List.filter f l = [].
Proof. induction l as [|x l IH]; [done|]. intros H. simpl. rewrite (H x) by left. apply IH. intros y Hy. apply H. by right. Qed.

Lemma filter_filter_weaker {A} (f g : A -> bool) l :
  (forall x, x ∈ l -> f x = true -> g x = true) -> List.filter f l = List.filter f (List.filter g l).
Proof.
  induction l as [|x l IH]; [done|]. intros H. simpl. rewrite IH by (intros; apply H; [by right|done]).
  destruct (f x) eqn:Hf; [rewrite (H x) by (by left || done); simpl; by rewrite Hf|].
  destruct (g x); [simpl; by rewrite Hf|done].
Qed.

Lemma claim_below_enqueue s lane : calm s -> claim_cursor s lane <= enqueue_cursor s lane.
Proof. intros [Hinv _ _]. by apply (covered_bound (quiet s)), (li_cursor _ Hinv). Qed.

Lemma calm_insert grouped s t s' :
  grouped_ok grouped -> insert_grouped_rows grouped s = (t, s') -> calm s ->
  let s'' := set_tables (tables_app (tables s') t) s' in
  calm s'' /\ live s'' = live s ++ ready_entries t
  /\ ready_entries (tables s'') = ready_entries (tables s) ++ ready_entries t
  /\ claim_batches (tables s'') = claim_batches (tables s)
  /\ next_receipt s'' = next_receipt s /\ next_batch s'' = next_batch s.
Proof.
  intros Hok Hins Hc s''. pose proof Hc as [Hinv Hb Ht].
  pose proof (step_insert_inv (quiet s) 0 grouped t s' Hinv Hok) as H1. specialize (H1 ltac:(by intros ? ? ? ? ?) Hins).
  destruct (insert_grouped_spec _ _ _ _ Hok Hins) as (Et & Ec & Eq & Eb & Ea & _ & Hm & _ & _ & Hr).
  destruct (insert_grouped_frame _ _ _ _ Hins) as (Ecb & En & Enb).
  assert (forall lane, claim_cursor s'' lane = claim_cursor s lane) as Hcur by (intros; unfold claim_cursor; simpl; by rewrite Ec).
  assert (ready_tombstones (tables s'') = ready_tombstones (tables s)) as Etb by (simpl; by rewrite Et, Eb, app_nil_r).
  split_and!.
  - split.
    + pose proof (step_commit_inv _ 0 _ H1 (lookup_insert_eq _ _ _)) as H2. simpl in H2. unfold writer in H2. simpl in H2.
      rewrite delete_insert_id in H2 by done. apply inv_forget in H2. unfold s''. by destruct t.
    + intros b. rewrite Hcur. unfold s''. simpl. rewrite Ea, app_nil_r, Et. apply Hb.
    + intros b. rewrite Etb. intros Hin%Ht. unfold enqueue_cursor in *. simpl.
      pose proof (Hm (tb_lane b)) as H. unfold next_at in H. lia.
  - unfold live. unfold s'' at 2. simpl. rewrite Et, List.filter_app. f_equal.
    + apply List.filter_ext. intros r. unfold unclaimed. rewrite Hcur. unfold tombstoned. by rewrite Etb.
    + apply filter_all. intros r Hin. unfold unclaimed. rewrite Hcur. destruct (Hr r Hin) as (_ & _ & Hlo & _).
      pose proof (claim_below_enqueue s (lane_of r) Hc) as Hle. unfold enqueue_cursor in Hle. unfold next_at in Hlo.
      apply andb_true_iff. split; [lia|]. apply negb_true_iff, not_true_iff_false.
      intros (b & Hbin & _ & Hl & Hs)%tombstoned_spec. rewrite Etb in Hbin. specialize (Ht b Hbin).
      unfold enqueue_cursor in Ht. rewrite Hl in Ht. lia.
  - unfold s''. simpl. by rewrite Et.
  - unfold s''. simpl. by rewrite Ecb, app_nil_r, Et.
  - done.
  - done.
Qed.

(** A ready job leaves by its tombstone; the cursor may then step over it. *)
Lemma calm_tombstone s r :
  calm s -> r ∈ live s ->
  let s' := set_tables (tables_app (tables s) (only_tombstone r)) s in
  calm s' /\ live s ≡ₚ r :: live s' /\ sound (quiet s') (cancel_advance (tombstone_of r)).
Proof.
  intros Hc Hr s'. pose proof Hc as [Hinv Hb Ht]. pose proof Hr as (Hin & Hcur & Htb)%live_elem.
  pose proof (step_tombstone_inv (quiet s) 0 r Hinv Hin) as H1.
  pose proof (step_commit_inv _ 0 _ H1 (lookup_insert_eq _ _ _)) as H2. simpl in H2. unfold writer in H2. simpl in H2.
  rewrite delete_insert_id, lookup_empty in H2 by done. simpl in H2. fold s' in H2.
  assert (forall r', r' ∈ ready_entries (tables s) ->
            (unclaimed s' r' = true <-> unclaimed s r' = true /\ r' <> r)) as Hun.
  { intros r' Hin'. unfold unclaimed. change (claim_cursor s' (lane_of r')) with (claim_cursor s (lane_of r')).
    rewrite !andb_true_iff, !negb_true_iff, <- !not_true_iff_false, !tombstoned_spec. simpl. split.
    - intros (H & Hn). split; [split; [done|]|].
      + intros (b & ? & ?). apply Hn. exists b. rewrite elem_of_app. auto.
      + intros ->. apply Hn. exists (tombstone_of r). rewrite elem_of_app, list_elem_of_singleton. auto.
    - intros ((H & Hn) & Hne). split; [done|]. intros (b & [Hbin|Heq%list_elem_of_singleton]%elem_of_app & H3 & H4 & H5).
      + apply Hn. eauto.
      + subst b. apply Hne. by apply (row_by_key s). }
  split_and!.
  - split; [by eapply inv_forget| |].
    + intros b. unfold s'. simpl. rewrite app_nil_r. apply Hb.
    + intros b [Hbin|Heq%list_elem_of_singleton]%elem_of_app; [by apply Ht|subst b].
      apply (ly_placed (li_layout _ Hinv) r). by left.
  - apply NoDup_Permutation; [by apply live_NoDup| |].
    + constructor; [|apply NoDup_ListNoDup, List.NoDup_filter, NoDup_ListNoDup; unfold s'; simpl; rewrite app_nil_r; by apply rows_NoDup].
      intros [Hx _]%elem_of_filter_b. apply Hun in Hx as [_ Hx]; [done|done].
    + intros x. rewrite elem_of_cons. unfold live at 2. rewrite elem_of_filter_b. unfold s' at 2. simpl. rewrite app_nil_r. split.
      * intros Hx%elem_of_filter_b. destruct Hx as [Hx Hxin]. destruct (decide (row_key x = row_key r)) as [Hk|Hne].
        -- left. apply pair_equal_spec in Hk as [El Es]. by apply (row_by_key s).
        -- right. rewrite Hun by done. split; [split; [done|congruence]|done].
      * intros [->|[Hx Hxin]]; [done|]. apply elem_of_filter_b. split; [|done]. by apply Hun in Hx as [? _].
  - eapply sound_grows; [|apply (li_issued _ H2); simpl; left]. by apply grows_same.
Qed.

(** An advance that is sound moves the cursor over spent rows. *)
Lemma calm_advance s a : calm s -> sound (quiet s) a -> calm (advance_claim_cursor a s) /\ live (advance_claim_cursor a s) = live s.
Proof.
  intros Hc Ha. pose proof Hc as [Hinv _ _]. unfold advance_claim_cursor. destruct (advance_applies s a) eqn:Happ; [|done].
  pose proof (advance_one_inv (quiet s) a Hinv Ha) as H. unfold advance_claim_cursor in H. simpl in H. rewrite Happ in H.
  pose proof (li_seqs _ Hinv (adv_lane a)) as H1. unfold claim_cursor in H1. simpl in H1.
  apply calm_cursor; [done|unfold claim_cursor; rewrite next_set_sequence by done; lia|].
  pose proof (li_cursor _ H (adv_lane a)) as Hcov. simpl in Hcov. rewrite claim_cursor_set, decide_True in Hcov by done.
  eapply covered_grows; [|exact Hcov]. by apply grows_same.
Qed.

Lemma calm_advances s l :
  calm s -> Forall (sound (quiet s)) l ->
  calm (advance_claim_cursors_strict l s) /\ live (advance_claim_cursors_strict l s) = live s
  /\ tables (advance_claim_cursors_strict l s) = tables s
  /\ next_receipt (advance_claim_cursors_strict l s) = next_receipt s
  /\ next_batch (advance_claim_cursors_strict l s) = next_batch s.
Proof.
  revert s. induction l as [|a l IH]; intros s Hc Hl; [done|]. apply Forall_cons in Hl as [Ha Hl].
  destruct (calm_advance s a Hc Ha) as [Hc' Hlive]. simpl.
  destruct (IH (advance_claim_cursor a s) Hc') as (H1 & H2 & H3 & H4 & H5).
  - eapply Forall_impl; [exact Hl|]. intros b. apply sound_grows, grows_same; simpl; try done; apply advance_frame.
  - unfold advance_claim_cursors_strict in *. rewrite H2, H3, H4, H5, Hlive. destruct (advance_frame a s) as [-> _].
    split_and!; try done; unfold advance_claim_cursor; by destruct (advance_applies s a).
Qed.

(** * Rotation, pause and prune *)

Lemma calm_rotate s slot : calm s -> calm (set_queue_ring (slot, snd (queue_ring s) + 1) s).
Proof. intros [Hinv Hb Ht]. split; [|exact Hb|exact Ht]. apply (step_rotate_inv (quiet s) slot Hinv). Qed.

(** The gate leaves no ready job in the slot. *)
Lemma calm_prune s ring :
  calm s -> queue_prune_has_pending_ready s ring = false ->
  calm (set_tables (truncate_slot ring (tables s)) s) /\ live (set_tables (truncate_slot ring (tables s)) s) = live s.
Proof.
  intros Hc Hgate. pose proof Hc as [Hinv Hb Ht]. split.
  - split.
    + apply (step_prune_inv (quiet s) ring Hinv); simpl; [by intros tx w b ?%no_writer|by intros c ?%elem_of_nil].
    + intros b [Hin _]%elem_of_filter_ring. apply Hb, Hin.
    + intros b [Hin _]%elem_of_filter_ring. apply Ht, Hin.
  - assert (forall r, r ∈ ready_entries (tables s) -> ring_of r = ring -> unclaimed s r = false) as Hgone.
    { intros r Hr Hring. unfold unclaimed. destruct (claim_cursor s (lane_of r) <=? seq_of r) eqn:Hcur; [|done].
      exfalso. apply not_true_iff_false in Hgate. apply Hgate. apply existsb_elem. exists (lane_of r).
      split; [apply (ly_placed (li_layout _ Hinv) r); by left|]. apply existsb_elem. exists r. split; [done|].
      rewrite !bool_decide_true by done. by rewrite Hcur. }
    unfold live. simpl. rewrite (filter_filter_weaker (unclaimed s) (fun r => negb (bool_decide (ring_of r = ring)))).
    + apply List.filter_ext_in. intros r [Hr Hne]%list_elem_of_In%elem_of_filter_ring. unfold unclaimed. f_equal. f_equal.
      apply eq_true_iff_eq. rewrite !tombstoned_spec. simpl. setoid_rewrite elem_of_filter_ring. naive_solver.
    + intros r Hr Hun. apply negb_true_iff, bool_decide_eq_false. intros Hring. by rewrite (Hgone r Hr Hring) in Hun.
Qed.

(** * Claims *)

(** What a claim wrote, from the rows it took and their effective priorities. *)
Record took (env : ClaimEnv) (s : Store) (lane : string * Z * Z) (rows : list (ReadyEntry * Z)) (c : Claimed) : Prop := {
  tk_ranges : lane_ranges (cl_attempts c) = map (fun rp => seq_of (fst rp)) rows;
  tk_ring : forall rp, rp ∈ rows -> rp.1 ∈ ready_entries (tables s) /\ lane_of rp.1 = lane /\ ring_of rp.1 = ab_ring (cl_attempts c)
              /\ spent (tables s) rp.1 = false;
  tk_batches : cl_batches c
    = imap (fun i p => claim_batch_of env lane (ab_ring (cl_attempts c)) (with_receipts (next_receipt s) rows)
                         (next_batch s + Z.of_nat i) p) (claim_groups (with_receipts (next_receipt s) rows));
  tk_rows : cl_rows c = map (claimed_row env lane (cl_batches c)) (with_receipts (next_receipt s) rows)
}.

Lemma claim_slot_rows env t lane ring receipt batch selected c :
  claim_ready_slot env t lane ring receipt batch selected = Ok (Some c) ->
  exists rows, map fst rows = live_rows t selected
    /\ lane_ranges (cl_attempts c) = map (fun rp => seq_of (fst rp)) rows /\ ab_ring (cl_attempts c) = ring
    /\ cl_batches c = imap (fun i p => claim_batch_of env lane ring (with_receipts receipt rows) (batch + Z.of_nat i) p)
                        (claim_groups (with_receipts receipt rows))
    /\ cl_rows c = map (claimed_row env lane (cl_batches c)) (with_receipts receipt rows).
Proof.
  unfold claim_ready_slot. intros H. apply rbind_Ok in H as (aged & Haged & H). apply aged_fst in Haged.
  pose proof (filter_map_fst (fun r => negb (tombstoned t r)) aged) as Hlive. rewrite Haged in Hlive.
  fold (live_rows t selected) in Hlive. cbv zeta in H.
  destruct (List.filter _ aged) as [|[r p] rows] eqn:Hf; [done|]. apply Ok_Some_inj in H as <-.
  exists ((r, p) :: rows). split_and!; try done.
Qed.

(** A call on a calm store: the cursor of one lane moved over spent rows, and
    what was claimed was live. *)
Lemma claim_calls env locked queue s res s' :
  calm s -> claim_ready_runtime env locked queue s = (res, s') ->
  (forall c, res <> Ok (Some c)) /\ s' = s
  \/ exists lane q, claim_cursor s lane <= sequence_next_value q /\ covered (quiet s) lane (fun n => n < sequence_next_value q)
       /\ match res with
          | Ok (Some c) => s' = draw_ids (Z.of_nat (length (cl_rows c))) (Z.of_nat (length (cl_batches c))) (set_claim_seq lane q s)
                           /\ claims_live (quiet s) lane c /\ exists rows, took env s lane rows c /\ rows <> []
          | _ => s' = set_claim_seq lane q s
          end.
Proof.
  intros Hc H. unfold claim_ready_runtime in H. destruct (route env locked queue s) as [[lane|]|e];
    [|left; injection H as <- <-; done|left; injection H as <- <-; done]. right.
  pose proof Hc as [Hinv _ _].
  pose proof (claim_lane_outcome (quiet s) Hinv lane env (next_receipt s) (next_batch s)) as Hout.
  change (store (quiet s)) with s in Hout.
  destruct (claim_ready_lane _ _ _ _ _ _ _) as [q r] eqn:Hl. destruct Hout as (Hle & Hcov & Hclaims & _).
  exists lane, q. split; [done|]. split; [done|].
  destruct r as [[c|]|e]; injection H as <- <-; [|done|done]. split; [done|].
  specialize (Hclaims c eq_refl). split; [done|].
  destruct (claim_lane_slot _ _ _ _ _ _ _ _ _ Hl ltac:(done)) as (ring & cursor & k & _ & E). symmetry in E.
  destruct (claim_slot_rows _ _ _ _ _ _ _ _ E) as (rows & Hrows & Er & Ering & Eb & Ec).
  exists rows. split.
  - split; [done| |by rewrite Ering|done]. intros rp Hin. destruct Hclaims as (_ & _ & Hlive).
    assert (rp.1 ∈ live_rows (tables s) (take k (rows_from (tables s) lane ring cursor))) as Hin'.
    { rewrite <- Hrows. by apply list_elem_of_fmap_2. }
    apply elem_of_filter_b in Hin' as [_ Hin']. apply elem_of_take in Hin' as (i & Hi & _).
    apply list_elem_of_lookup_2, rows_from_elem in Hi as (Hin1 & Hl1 & Hr1 & _). rewrite Ering. split_and!; try done.
    destruct (Hlive (seq_of rp.1)) as (r & Hr & Hrl & Hrs & Hsp).
    { rewrite Er. by apply (list_elem_of_fmap_2 (fun rp : ReadyEntry * Z => seq_of rp.1)). }
    by rewrite (row_by_key s rp.1 r) by (auto; congruence).
  - intros ->. destruct Hclaims as (_ & Hok & _). pose proof (ck_last _ _ Hok) as Hlast. rewrite Er in Hlast. by apply elem_of_nil in Hlast.
Qed.

(** The advances of rows of one lane come down to one, to behind the last. *)
Lemma last_of_lane lane rows :
  rows <> [] -> (forall x, x ∈ rows -> rl_lane x = lane) ->
  exists x, x ∈ rows /\ (forall y, y ∈ rows -> lane_seq (rl_pos y) <= lane_seq (rl_pos x))
    /\ last_by_lane rows = {[lane := x]}.
Proof.
  intros Hne Hl. unfold last_by_lane.
  assert (forall rows, (forall x, x ∈ rows -> rl_lane x = lane) -> forall x,
    exists z, (z = x \/ z ∈ rows) /\ lane_seq (rl_pos x) <= lane_seq (rl_pos z)
      /\ (forall y, y ∈ rows -> lane_seq (rl_pos y) <= lane_seq (rl_pos z))
      /\ fold_left (fun m r => <[rl_lane r := match m !! rl_lane r with Some c => further c r | None => r end]> m) rows
           ({[lane := x]} : gmap (string * Z * Z) ReadyJobLeaseRow) = {[lane := z]}) as H.
  { clear. induction rows as [|r rows IH]; intros Hl x; simpl.
    - exists x. split_and!; [by left|lia|by intros ? ?%elem_of_nil|done].
    - rewrite (Hl r) by left. rewrite lookup_singleton_eq, insert_singleton_eq.
      destruct (IH ltac:(intros; apply Hl; by right) (further x r)) as (z & Hz & Hxz & Hy & E). exists z.
      assert (lane_seq (rl_pos x) <= lane_seq (rl_pos (further x r)) /\ lane_seq (rl_pos r) <= lane_seq (rl_pos (further x r))
              /\ (further x r = x \/ further x r = r)) as (H1 & H2 & H3).
      { unfold further. destruct (lane_seq (rl_pos x) <? lane_seq (rl_pos r)) eqn:Hlt; auto with lia. }
      split_and!; [|lia| |done].
      + destruct Hz as [->|Hz]; [destruct H3 as [->| ->]; [by left|right; left]|right; by right].
      + intros y [->|Hin]%elem_of_cons; [lia|by apply Hy]. }
  destruct rows as [|r rows]; [done|]. simpl. rewrite (Hl r) by left. rewrite lookup_empty, insert_empty.
  destruct (H rows ltac:(intros; apply Hl; by right) r) as (z & Hz & Hrz & Hy & E). exists z. split_and!; [|intros y [->|Hin]%elem_of_cons; [lia|auto]|done].
  destruct Hz as [->|Hz]; [left|by right].
Qed.

Lemma normalize_one a :
  only_if_current a = None -> normalize_claim_cursor_advances [a] = [a].
Proof.
  intros Ha. unfold normalize_claim_cursor_advances. simpl. unfold group_advance. rewrite lookup_empty. simpl. rewrite Ha.
  rewrite insert_empty, map_to_list_singleton. simpl. destruct a as [lane n only ev]. simpl in *. by subst only.
Qed.

Lemma took_advances env s lane rows c :
  claim_ok (quiet s) c -> ab_lane (cl_attempts c) = lane -> took env s lane rows c -> rows <> [] ->
  exists x, normalize_claim_cursor_advances (claim_cursor_advances (cl_rows c)) = [advance_of lane x]
    /\ lane_seq (rl_pos x) + 1 = ab_next (cl_attempts c) /\ lane_seq (rl_pos x) ∈ lane_ranges (cl_attempts c)
    /\ (ready_slot (rl_pos x), ready_generation (rl_pos x)) = ab_ring (cl_attempts c).
Proof.
  intros Hok Hl Ht Hne.
  assert (forall x, x ∈ cl_rows c -> rl_lane x = lane /\ lane_seq (rl_pos x) ∈ lane_ranges (cl_attempts c)) as Hrows.
  { intros x Hx. rewrite <- Hl. by apply (claim_rows_keys (quiet s) c x). }
  destruct (last_of_lane lane (cl_rows c)) as (x & Hx & Hmax & E).
  { rewrite (tk_rows _ _ _ _ _ Ht). unfold with_receipts. destruct rows; done. }
  { intros x Hx. by apply Hrows. }
  exists x. unfold claim_cursor_advances. rewrite E, map_to_list_singleton. simpl.
  split; [by apply normalize_one|]. destruct (Hrows x Hx) as [_ Hin]. split_and!; [|done|].
  - destruct (ck_rows _ _ Hok _ Hin) as [? _]. destruct (ck_returned _ _ Hok) as [Hk _].
    pose proof (ck_last _ _ Hok) as Hlast.
    assert ((ab_lane (cl_attempts c), ab_next (cl_attempts c) - 1) ∈ map lease_key (cl_rows c)) as Hin'.
    { rewrite Hk. by apply (list_elem_of_fmap_2 (pair (ab_lane (cl_attempts c)))). }
    apply list_elem_of_fmap in Hin' as (z & Ez & Hz). specialize (Hmax z Hz). apply pair_equal_spec in Ez as [_ Ez]. lia.
  - destruct (ck_returned _ _ Hok) as [_ Hr]. rewrite Forall_forall in Hr. apply (Hr x Hx).
Qed.

Lemma calm_claim_none env locked queue s res s' :
  calm s -> claim_ready_runtime env locked queue s = (res, s') -> (forall c, res <> Ok (Some c)) ->
  calm s' /\ live s' = live s /\ tables s' = tables s /\ next_receipt s' = next_receipt s /\ next_batch s' = next_batch s.
Proof.
  intros Hc H Hn. destruct (claim_calls _ _ _ _ _ _ Hc H) as [[_ ->]|(lane & q & Hle & Hcov & Hm)]; [done|].
  destruct res as [[c|]|e]; [by destruct (Hn c)| |]; subst s'; by destruct (calm_cursor s lane q Hc Hle Hcov).
Qed.

(** The claim committed and its cursor advanced. *)
Definition after_claim (c : Claimed) (s : Store) : Store :=
  advance_claim_cursors_strict (normalize_claim_cursor_advances (claim_cursor_advances (cl_rows c)))
    (set_tables (tables_app (tables s) (commit_claim c)) s).

Lemma claim_inv env locked queue s c s' :
  lane_inv (quiet s) -> claim_ready_runtime env locked queue s = (Ok (Some c), s') -> lane_inv (quiet (after_claim c s')).
Proof.
  intros Hinv H. apply (claim_any_inv (quiet s)) in H; [|done|done]. simpl in H.
  apply (step_claim_commit_inv _ [] c []) in H; [|done]. simpl in H.
  apply (step_advance_inv _ (claim_cursor_advances (cl_rows c))) in H; [|by apply Forall_forall]. by eapply inv_forget.
Qed.

Lemma after_claim_cursor env s lane q c rows n m :
  calm s -> claims_live (quiet s) lane c -> took env s lane rows c -> rows <> [] -> claim_cursor s lane <= sequence_next_value q ->
  let s' := after_claim c (draw_ids n m (set_claim_seq lane q s)) in
  tables s' = tables_app (tables s) (commit_claim c) /\ enqueue_seqs s' = enqueue_seqs s
  /\ next_receipt s' = next_receipt s + n /\ next_batch s' = next_batch s + m
  /\ ab_next (cl_attempts c) <= claim_cursor s' lane
  /\ forall l, claim_cursor s l <= claim_cursor s' l.
Proof.
  intros Hc (Hl & Hok & _) Ht Hne Hle s'. destruct (took_advances env s lane rows c Hok Hl Ht Hne) as (x & E & Hnext & Hin & Hring).
  assert (1 <= claim_cursor s lane) as H1 by apply (li_seqs _ (cm_inv s Hc) lane).
  unfold s', after_claim. rewrite E. cbn [advance_claim_cursors_strict fold_left].
  set (s2 := set_tables _ _). assert (advance_applies s2 (advance_of lane x) = true) as Happ.
  { unfold advance_applies. simpl. apply attempted_at_spec. exists (cl_attempts c). rewrite Hring. split_and!; try done.
    - apply elem_of_app. right. by left.
    - by apply (ck_rows _ _ Hok). - by apply (ck_rows _ _ Hok). }
  unfold advance_claim_cursor. rewrite Happ. cbn [adv_lane advance_of adv_next].
  assert (seq_at lane (claim_seqs s2) = q) as Eq by (simpl; by rewrite seq_at_insert, decide_True).
  split_and!; try done.
  - rewrite claim_cursor_set, decide_True, Eq, next_set_sequence by (done || lia). lia.
  - intros l. rewrite claim_cursor_set. case_decide as El; [subst l; rewrite Eq, next_set_sequence by lia; lia|].
    unfold s2. unfold claim_cursor at 2. simpl. rewrite seq_at_insert, decide_False by done. done.
Qed.

Lemma took_NoDup env s lane rows c : claim_ok (quiet s) c -> took env s lane rows c -> NoDup (map fst rows).
Proof.
  intros Hok Ht. pose proof (ck_sorted _ _ Hok) as Hs. rewrite (tk_ranges _ _ _ _ _ Ht), <- (map_map fst seq_of) in Hs.
  apply (NoDup_fmap_1 seq_of). change (NoDup (map seq_of (map fst rows))). revert Hs. generalize (map seq_of (map fst rows)) as l.
  induction 1 as [|n l Hs IH Hn]; constructor; [|done].
  intros Hin. rewrite Forall_forall in Hn. specialize (Hn n Hin). lia.
Qed.

Lemma claim_live_perm env s lane rows c s' :
  calm s -> calm s' -> tables s' = tables_app (tables s) (commit_claim c) ->
  claims_live (quiet s) lane c -> took env s lane rows c ->
  ab_next (cl_attempts c) <= claim_cursor s' lane -> (forall l, claim_cursor s l <= claim_cursor s' l) ->
  live s ≡ₚ map fst rows ++ live s'.
Proof.
  intros Hc Hc' Et (Hl & Hok & _) Ht Hcur Hmono.
  assert (ready_entries (tables s') = ready_entries (tables s)) as Er by (rewrite Et; apply app_nil_r).
  assert (ready_tombstones (tables s') = ready_tombstones (tables s)) as Etb by (rewrite Et; apply app_nil_r).
  assert (forall r, tombstoned (tables s') r = tombstoned (tables s) r) as Htb by (intros; unfold tombstoned; by rewrite Etb).
  assert (forall r, r ∈ map fst rows -> r ∈ live s /\ seq_of r < ab_next (cl_attempts c) /\ lane_of r = lane) as Hrows.
  { intros r (rp & -> & Hin)%list_elem_of_fmap. destruct (tk_ring _ _ _ _ _ Ht rp Hin) as (Hr & Hrl & _ & Hs). split_and!; [|..|done].
    - apply live_elem. split; [done|]. split; [by apply (live_at_cursor (quiet s) (cm_inv s Hc))|].
      unfold spent in Hs. by apply orb_false_iff in Hs as [? _].
    - apply (ck_rows _ _ Hok). rewrite (tk_ranges _ _ _ _ _ Ht). by apply (list_elem_of_fmap_2 (fun rp : ReadyEntry * Z => seq_of rp.1)). }
  apply NoDup_Permutation; [by apply live_NoDup| |].
  - apply NoDup_app. split; [by eapply took_NoDup|]. split; [|by apply live_NoDup].
    intros r (_ & Hlt & Hrl)%Hrows (_ & Hle & _)%live_elem. rewrite Hrl in Hle. lia.
  - intros r. rewrite elem_of_app. split.
    + intros (Hr & Hle & Hnt)%live_elem. destruct (decide (claim_cursor s' (lane_of r) <= seq_of r)) as [|Hlt].
      { right. apply live_elem. by rewrite Er, Htb. }
      left. assert (spent (tables s') r = true) as Hsp.
      { apply (li_cursor _ (cm_inv s' Hc') (lane_of r)); simpl; [by rewrite Er|done|lia]. }
      unfold spent in Hsp. rewrite Htb, Hnt in Hsp. simpl in Hsp. apply attempted_at_spec in Hsp as (b & Hb & Hbr & Hbl & Hin & Hbs).
      rewrite Et in Hb. simpl in Hb. apply elem_of_app in Hb as [Hb|Hb%list_elem_of_singleton].
      * pose proof (cm_batches s Hc b Hb). rewrite Hbl in *. lia.
      * subst b. rewrite (tk_ranges _ _ _ _ _ Ht) in Hin. apply list_elem_of_fmap in Hin as (rp & E & Hin).
        destruct (tk_ring _ _ _ _ _ Ht rp Hin) as (Hrp & Hrl & _). apply list_elem_of_fmap. exists rp. split; [|done].
        apply (row_by_key s); auto. congruence.
    + intros [Hr|Hr]; [by apply Hrows|]. apply live_elem in Hr as (Hr & Hle & Hnt). apply live_elem.
      rewrite Er in Hr. rewrite Htb in Hnt. split_and!; [done| |done]. specialize (Hmono (lane_of r)). lia.
Qed.

(** A claim is of a lane of the queue asked for. *)
Lemma claim_lane_queue env locked queue s c s' :
  claim_ready_runtime env locked queue s = (Ok (Some c), s') -> (ab_lane (cl_attempts c)).1.1 = queue.
Proof.
  unfold claim_ready_runtime. destruct (route env locked queue s) as [[lane|]|e] eqn:Hr; try done.
  apply route_Some in Hr as (_ & _ & Hq). unfold routable in Hq. apply andb_true_iff in Hq as [Hq _]. apply andb_true_iff in Hq as [Hq%bool_decide_eq_true _].
  destruct (claim_ready_lane _ _ _ _ _ _ _) as [n r] eqn:Hl. destruct r as [[c'|]|e]; try done. intros [= -> _].
  destruct (claim_lane_slot _ _ _ _ _ _ _ _ _ Hl ltac:(done)) as (ring & cursor & k & _ & E). symmetry in E.
  unfold claim_ready_slot in E. apply rbind_Ok in E as (aged & _ & E). cbv zeta in E.
  destruct (List.filter _ aged) as [|[r p] rows]; [done|]. apply Ok_Some_inj in E as <-. done.
Qed.

Lemma calm_claim env locked queue s c s' :
  calm s -> claim_ready_runtime env locked queue s = (Ok (Some c), s') ->
  exists lane rows, took env s lane rows c /\ rows <> [] /\ ab_lane (cl_attempts c) = lane
    /\ calm (after_claim c s') /\ live s ≡ₚ map fst rows ++ live (after_claim c s')
    /\ tables (after_claim c s') = tables_app (tables s) (commit_claim c)
    /\ next_receipt (after_claim c s') = next_receipt s + Z.of_nat (length rows)
    /\ next_batch (after_claim c s') = next_batch s + Z.of_nat (length (cl_batches c)).
Proof.
  intros Hc H. pose proof Hc as [Hinv Hb Ht]. pose proof (claim_inv _ _ _ _ _ _ Hinv H) as Hinv'.
  destruct (claim_calls _ _ _ _ _ _ Hc H) as [[Hn _]|(lane & q & Hle & Hcov & -> & Hlive & rows & Htook & Hne)]; [by destruct (Hn c)|].
  destruct (after_claim_cursor env s lane q c rows (Z.of_nat (length (cl_rows c))) (Z.of_nat (length (cl_batches c)))
              Hc Hlive Htook Hne Hle) as (Et & Ee & En & Enb & Hcur & Hmono).
  set (s3 := after_claim c _) in *. exists lane, rows. pose proof Hlive as (Hl & Hok & _).
  assert (calm s3) as Hc3.
  { split; [done| |].
    - intros b. rewrite Et. intros [Hin|Hin%list_elem_of_singleton]%elem_of_app; [|by subst b; rewrite Hl].
      specialize (Hb b Hin). specialize (Hmono (ab_lane b)). lia.
    - intros b. rewrite Et. simpl. rewrite app_nil_r. intros Hin%Ht. unfold enqueue_cursor in *. by rewrite Ee. }
  split_and!; try done.
  - by eapply claim_live_perm.
  - rewrite En. do 2 f_equal. rewrite (tk_rows _ _ _ _ _ Htook), length_map. unfold with_receipts. by rewrite length_imap.
Qed.
