(* ===== verification/QueueStore.v ===== *)
(** The tables of queue storage and the statements that write a job into one of
    them (awa-model/src/queue_storage.rs, v023_install_queue_storage_substrate.sql).

    A job is in the ready ring ([Lanes]), in an attempt (a receipt of
    [lease_claim_batches], perhaps materialized in [leases]), deferred, terminal
    in [done_entries] or [receipt_completion_batches], or in the dead-letter
    queue.  The store is one with lease-claim receipts, the default.
    [lease_claims] and [lease_claim_closures], which since v042 hold only claims
    in flight during an upgrade, are empty here. *)

From S2P Require Import Prelude.
From S2P Require Import Error.
From S2P Require Import F64.
From S2P Require Import Json.
From S2P Require Import Job.
From S2P Require Import Routing.
From S2P Require Import Rows.
From S2P Require Import Lanes.

(** * Tables *)

(** One receipt of a [lease_claim_closure_batches] row, across its array. *)
Record Closure : Type := mkClosure {
  co_claim_slot : Z;
  co_ring : Z * Z;
  co_outcome : string;
  co_receipt_id : Z
}.

(** A row of [leases]: what its deletion returns, and the rest. *)
Record LeaseRow : Type := mkLeaseRow {
  ls_lease_slot : Z;
  ls_row : DeletedLeaseRow;
  ls_heartbeat_at : option time;
  ls_deadline_at : option time;
  ls_callback_id : option Z;
  ls_callback_timeout_at : option time
}.

(** A row of [attempt_state]. *)
Record AttemptState : Type := mkAttempt {
  at_row : AttemptStateRow;
  at_heartbeat_at : option time
}.

(** A row of [done_entries] by its primary key: slot, queue, priority, shard and
    lane number.  A row backed by its ready row leaves out what that row holds. *)
Abbreviation DoneKey := (Z * string * Z * Z * Z)%type (only parsing).
Record DoneEntry : Type := mkDoneEntry {
  de_generation : Z;
  de_job_id : Z;
  de_kind : string;
  de_args : option json;
  de_state : JobState;
  de_attempt : Z;
  de_run_lease : Z;
  de_max_attempts : option Z;
  de_run_at : option time;
  de_attempted_at : option time;
  de_finalized_at : time;
  de_created_at : option time;
  de_unique_key : option (list Z);
  de_unique_states : option string;
  de_stored_payload : option json;
  de_output : option json
}.

(** One job of a [receipt_completion_batches] row, across its arrays. *)
Record Completion : Type := mkCompletion {
  cp_pos : Position;
  cp_claim_slot : Z;
  cp_queue : string;
  cp_priority : Z;
  cp_job_id : Z;
  cp_run_lease : Z;
  cp_attempt : Z;
  cp_attempted_at : option time;
  cp_finalized_at : time;
  cp_output : option json
}.

(** [queue_terminal_count_deltas]: slot, generation, queue, priority, shard and
    bucket, with the signed count. *)
Abbreviation CounterKey := (Z * Z * string * Z * Z * Z)%type (only parsing).

(** The store.  The two scan cursors of a claim slot are absent while they are
    at minus infinity. *)
Record QStore : Type := mkQStore {
  lanes : Store;
  claims : gmap (list Z) Z;
  closures : list Closure;
  leases : list LeaseRow;
  attempt_state : gmap (Z * Z) AttemptState;
  deferred_jobs : gmap Z DeferredJobRow;
  done_entries : gmap DoneKey DoneEntry;
  completions : list Completion;
  dlq_entries : gmap Z DlqJobRow;
  count_deltas : list (CounterKey * Z);
  job_id_seq : Z;
  rescue_cursors : gmap Z (time * Z * Z);
  deadline_cursors : gmap Z (time * Z)
}.

Definition set_lanes (s : Store) (q : QStore) : QStore :=
  mkQStore s (claims q) (closures q) (leases q) (attempt_state q) (deferred_jobs q) (done_entries q)
    (completions q) (dlq_entries q) (count_deltas q) (job_id_seq q) (rescue_cursors q) (deadline_cursors q).
Definition set_unique (c : gmap (list Z) Z) (q : QStore) : QStore :=
  mkQStore (lanes q) c (closures q) (leases q) (attempt_state q) (deferred_jobs q) (done_entries q)
    (completions q) (dlq_entries q) (count_deltas q) (job_id_seq q) (rescue_cursors q) (deadline_cursors q).
Definition set_closures (l : list Closure) (q : QStore) : QStore :=
  mkQStore (lanes q) (claims q) l (leases q) (attempt_state q) (deferred_jobs q) (done_entries q)
    (completions q) (dlq_entries q) (count_deltas q) (job_id_seq q) (rescue_cursors q) (deadline_cursors q).
Definition set_leases (l : list LeaseRow) (q : QStore) : QStore :=
  mkQStore (lanes q) (claims q) (closures q) l (attempt_state q) (deferred_jobs q) (done_entries q)
    (completions q) (dlq_entries q) (count_deltas q) (job_id_seq q) (rescue_cursors q) (deadline_cursors q).
Definition set_attempts (m : gmap (Z * Z) AttemptState) (q : QStore) : QStore :=
  mkQStore (lanes q) (claims q) (closures q) (leases q) m (deferred_jobs q) (done_entries q)
    (completions q) (dlq_entries q) (count_deltas q) (job_id_seq q) (rescue_cursors q) (deadline_cursors q).
Definition set_deferred (m : gmap Z DeferredJobRow) (q : QStore) : QStore :=
  mkQStore (lanes q) (claims q) (closures q) (leases q) (attempt_state q) m (done_entries q)
    (completions q) (dlq_entries q) (count_deltas q) (job_id_seq q) (rescue_cursors q) (deadline_cursors q).
Definition set_done (m : gmap DoneKey DoneEntry) (q : QStore) : QStore :=
  mkQStore (lanes q) (claims q) (closures q) (leases q) (attempt_state q) (deferred_jobs q) m
    (completions q) (dlq_entries q) (count_deltas q) (job_id_seq q) (rescue_cursors q) (deadline_cursors q).
Definition set_completions (l : list Completion) (q : QStore) : QStore :=
  mkQStore (lanes q) (claims q) (closures q) (leases q) (attempt_state q) (deferred_jobs q) (done_entries q)
    l (dlq_entries q) (count_deltas q) (job_id_seq q) (rescue_cursors q) (deadline_cursors q).
Definition set_dlq (m : gmap Z DlqJobRow) (q : QStore) : QStore :=
  mkQStore (lanes q) (claims q) (closures q) (leases q) (attempt_state q) (deferred_jobs q) (done_entries q)
    (completions q) m (count_deltas q) (job_id_seq q) (rescue_cursors q) (deadline_cursors q).
Definition set_deltas (l : list (CounterKey * Z)) (q : QStore) : QStore :=
  mkQStore (lanes q) (claims q) (closures q) (leases q) (attempt_state q) (deferred_jobs q) (done_entries q)
    (completions q) (dlq_entries q) l (job_id_seq q) (rescue_cursors q) (deadline_cursors q).
Definition set_job_id_seq (n : Z) (q : QStore) : QStore :=
  mkQStore (lanes q) (claims q) (closures q) (leases q) (attempt_state q) (deferred_jobs q) (done_entries q)
    (completions q) (dlq_entries q) (count_deltas q) n (rescue_cursors q) (deadline_cursors q).
Definition set_rescue_cursors (m : gmap Z (time * Z * Z)) (q : QStore) : QStore :=
  mkQStore (lanes q) (claims q) (closures q) (leases q) (attempt_state q) (deferred_jobs q) (done_entries q)
    (completions q) (dlq_entries q) (count_deltas q) (job_id_seq q) m (deadline_cursors q).
Definition set_deadline_cursors (m : gmap Z (time * Z)) (q : QStore) : QStore :=
  mkQStore (lanes q) (claims q) (closures q) (leases q) (attempt_state q) (deferred_jobs q) (done_entries q)
    (completions q) (dlq_entries q) (count_deltas q) (job_id_seq q) (rescue_cursors q) m.

Definition ready_rows (q : QStore) : list ReadyEntry := ready_entries (tables (lanes q)).

(** The clock (one instant for [Utc::now()], [now()] and [clock_timestamp()]),
    its text, the backoff, the shard counts and rotor of the process, the
    lease ring's slot, the claim ring (current slot, generation, number of
    slots), and whether the ring's authority has flipped to the
    ledger, which is when terminal counts are kept per lane. *)
Record StoreEnv : Type := mkStoreEnv {
  sv_now : time;
  sv_at_text : string;
  sv_backoff : Z -> Z -> Z;
  sv_shards_of : string -> Z;
  sv_rotor : Z;
  sv_lease_slot : Z;
  sv_claim_ring : Z * Z * Z;
  sv_per_lane : bool
}.

(** * Unique claims *)

Definition UNIQUE_CONFLICT : AwaError := UniqueConflict (Some "idx_awa_jobs_unique").
Definition claims_in (unique_states : option string) (state : option JobState) : bool :=
  match state with Some st => unique_state_claims unique_states st | None => false end.

(** The upsert that takes a key unless another job has it. *)
Definition take_key (job_id : Z) (key : list Z) (m : gmap (list Z) Z) : result AwaError (gmap (list Z) Z) :=
  match m !! key with
  | Some owner => if owner =? job_id then Ok m else Err UNIQUE_CONFLICT
  | None => Ok (<[key := job_id]> m)
  end.

Definition sync_unique_claim (c : Columns) (old_state new_state : option JobState) (m : gmap (list Z) Z)
    : result AwaError (gmap (list Z) Z) :=
  let old_claim := claims_in (c_unique_states c) old_state in
  let new_claim := claims_in (c_unique_states c) new_state in
  match c_unique_key c with
  | None => Ok m
  | Some key =>
      if old_claim && negb new_claim
      then Ok (if bool_decide (m !! key = Some (c_job_id c)) then delete key m else m)
      else if new_claim && negb old_claim then take_key (c_job_id c) key m
      else Ok m
  end.

(** [Option<Vec<u8>>::cmp], then the id. *)
Fixpoint bytes_le (a b : list Z) : bool :=
  match a, b with
  | [], _ => true
  | _ :: _, [] => false
  | x :: a, y :: b => (x <? y) || ((x =? y) && bytes_le a b)
  end.
Definition key_le (a b : option (list Z)) : bool :=
  match a, b with
  | None, _ => true
  | Some _, None => false
  | Some a, Some b => bytes_le a b
  end.
Definition unique_order (a b : Columns * JobState) : Prop :=
  let '(a, _) := a in let '(b, _) := b in
  (if bool_decide (c_unique_key a = c_unique_key b) then c_job_id a <=? c_job_id b
   else key_le (c_unique_key a) (c_unique_key b)) = true.
#[global] Instance unique_order_dec : RelDecision unique_order.
Proof. intros [a sa] [b sb]. unfold unique_order. solve_decision. Defined.

Fixpoint sync_each (old_state : option JobState) (rows : list (Columns * JobState)) (m : gmap (list Z) Z)
    : result AwaError (gmap (list Z) Z) :=
  match rows with
  | [] => Ok m
  | (c, st) :: rows => let? m := sync_unique_claim c old_state (Some st) m in sync_each old_state rows m
  end.
(** The loop the inserts of a transition share: rows by key, then id. *)
Definition sync_unique_claims (old_state : option JobState) (rows : list (Columns * JobState)) (q : QStore)
    : result AwaError QStore :=
  let? m := sync_each old_state (merge_sort unique_order rows) (claims q) in
  Ok (set_unique m q).

(** Enqueues: two rows with one key conflict, else each key is taken. *)
Fixpoint take_keys (l : list (list Z * Z)) (m : gmap (list Z) Z) : result AwaError (gmap (list Z) Z) :=
  match l with
  | [] => Ok m
  | (key, job_id) :: l => let? m := take_key job_id key m in take_keys l m
  end.
Definition sync_enqueue_unique_claims (l : list (list Z * Z)) (q : QStore) : result AwaError QStore :=
  if bool_decide (NoDup (map fst l)) then let? m := take_keys l (claims q) in Ok (set_unique m q)
  else Err UNIQUE_CONFLICT.
Definition enqueue_claims (rows : list (Columns * JobState)) : list (list Z * Z) :=
  omap (fun r => if unique_state_claims (c_unique_states (fst r)) (snd r)
                 then (fun key => (key, c_job_id (fst r))) <$> c_unique_key (fst r) else None) rows.
Definition sync_ready_enqueue_unique_claims (rows : list Columns) : QStore -> result AwaError QStore :=
  sync_enqueue_unique_claims (enqueue_claims (map (fun c => (c, Available)) rows)).
Definition sync_deferred_enqueue_unique_claims (rows : list DeferredJobRow) : QStore -> result AwaError QStore :=
  sync_enqueue_unique_claims (enqueue_claims (map (fun r => (df_columns r, df_state r)) rows)).

(** * Inserts *)

(** An empty payload is stored as NULL, which every read makes an empty object. *)
Definition stored (c : Columns) : Columns := with_payload (default (JObject []) (storage_payload (c_payload c))) c.

(** [next_job_ids], nobody else drawing meanwhile. *)
Definition next_job_ids (count : nat) (q : QStore) : list Z * QStore :=
  (imap (fun i _ => job_id_seq q + Z.of_nat i) (replicate count tt), set_job_id_seq (job_id_seq q + Z.of_nat count) q).

Definition place_ready (grouped : list (LaneKey * list Columns)) (q : QStore) : QStore :=
  let '(t, s) := insert_grouped_rows grouped (lanes q) in
  set_lanes (set_tables (tables_app (tables s) t) s) q.
Definition add_ready (grouped : list (LaneKey * list Columns)) : QStore -> QStore :=
  place_ready (map (fun lr => (fst lr, map stored (snd lr))) grouped).

Definition insert_ready_rows_tx (env : StoreEnv) (rows : list RuntimeReadyRow) (unique_claims_synced : bool) (q : QStore)
    : result AwaError QStore :=
  match rows with
  | [] => Ok q
  | _ =>
      let '(grouped, _) := group_ready_rows_by_shard (sv_shards_of env) (sv_rotor env) rows in
      let missing := List.filter (fun r => match rr_job_id r with None => true | _ => false end)
                       (concat (map snd grouped)) in
      let '(ids, q) := next_job_ids (length missing) q in
      let? grouped := assign_lane_ids grouped ids in
      let? q := if unique_claims_synced then Ok q
                else sync_ready_enqueue_unique_claims (concat (map snd grouped)) q in
      Ok (add_ready grouped q)
  end.

Definition insert_existing_ready_rows_tx (env : StoreEnv) (rows : list ExistingReadyRow) (old_state : option JobState)
    (q : QStore) : result AwaError QStore :=
  match rows with
  | [] => Ok q
  | _ =>
      let? q := sync_unique_claims old_state (map (fun c => (c, Available)) rows) q in
      Ok (add_ready (fst (group_existing (sv_shards_of env) (sv_rotor env) rows)) q)
  end.

(** A primary key or a check violated.  The name of a partition's constraint is
    not modelled. *)
Definition PKEY_VIOLATION : AwaError := UniqueConflict None.
Definition DEFERRED_STATE_CHECK : AwaError := Database (SqlxDatabase (Some "23514") (Some "deferred_jobs_state_check")).

Fixpoint execute_deferred_inserts_tx (rows : list DeferredJobRow) (m : gmap Z DeferredJobRow)
    : result AwaError (gmap Z DeferredJobRow) :=
  match rows with
  | [] => Ok m
  | r :: rows =>
      if negb (bool_decide (df_state r = Scheduled \/ df_state r = Retryable)) then Err DEFERRED_STATE_CHECK
      else match m !! c_job_id (df_columns r) with
           | Some _ => Err PKEY_VIOLATION
           | None => execute_deferred_inserts_tx rows
                       (<[c_job_id (df_columns r) := mkDeferred (stored (df_columns r)) (df_state r) (df_finalized_at r)]> m)
           end
  end.
Definition insert_deferred_rows_tx (rows : list DeferredJobRow) (old_state : option JobState) (q : QStore)
    : result AwaError QStore :=
  let? q := match rows, old_state with
            | [], _ => Ok q
            | _, None => sync_deferred_enqueue_unique_claims rows q
            | _, Some _ => sync_unique_claims old_state (map (fun r => (df_columns r, df_state r)) rows) q
            end in
  let? m := execute_deferred_inserts_tx rows (deferred_jobs q) in
  Ok (set_deferred m q).

Fixpoint execute_dlq_inserts (rows : list DlqJobRow) (m : gmap Z DlqJobRow) : result AwaError (gmap Z DlqJobRow) :=
  match rows with
  | [] => Ok m
  | r :: rows =>
      match m !! c_job_id (dq_columns r) with
      | Some _ => Err PKEY_VIOLATION
      | None => execute_dlq_inserts rows
                  (<[c_job_id (dq_columns r) := mkDlq (stored (dq_columns r)) (dq_state r) (dq_finalized_at r)
                                                  (dlq_reason r) (dlq_at r) (original_run_lease r)]> m)
      end
  end.
Definition insert_dlq_rows_tx (rows : list DlqJobRow) (old_state : option JobState) (q : QStore) : result AwaError QStore :=
  let? q := sync_unique_claims old_state (map (fun r => (dq_columns r, Failed)) rows) q in
  let? m := execute_dlq_inserts rows (dlq_entries q) in
  Ok (set_dlq m q).

(** * Terminal rows *)

Definition done_key (r : DoneJobRow) : DoneKey :=
  (ready_slot (dn_pos r), c_queue (dn_columns r), c_priority (dn_columns r), enqueue_shard (dn_pos r), lane_seq (dn_pos r)).
#[global] Instance position_eq_dec : EqDecision Position.
Proof. solve_decision. Defined.
(** The ready row at a position of the lane of a queue and a priority. *)
Definition ready_at (rows : list ReadyEntry) (pos : Position) (queue : string) (priority : Z) : option ReadyEntry :=
  List.find (fun r => bool_decide (rt_pos r = pos) && String.eqb (c_queue (rt_columns r)) queue
                      && (c_priority (rt_columns r) =? priority)) rows.
(** [ready_payloads_for_done_rows_tx] for one row. *)
Definition ready_payload_for (q : QStore) (r : DoneJobRow) : option json :=
  (fun e => c_payload (rt_columns e)) <$> ready_at (ready_rows q) (dn_pos r) (c_queue (dn_columns r)) (c_priority (dn_columns r)).

(** A row as [insert_done_rows_tx] stores it: one of a running or parked attempt
    leaves to its ready row what that row has. *)
Definition done_entry (q : QStore) (keep_ready_backing : bool) (r : DoneJobRow) : DoneEntry :=
  let c := dn_columns r in
  let payload := terminal_storage_payload (c_payload c) (ready_payload_for q r) in
  if keep_ready_backing && (0 <=? lane_seq (dn_pos r))
  then mkDoneEntry (ready_generation (dn_pos r)) (c_job_id c) (c_kind c) None (dn_state r) (c_attempt c) (c_run_lease c)
         None None (c_attempted_at c) (dn_finalized_at r) None None None payload (dn_output r)
  else mkDoneEntry (ready_generation (dn_pos r)) (c_job_id c) (c_kind c) (Some (c_args c)) (dn_state r) (c_attempt c)
         (c_run_lease c) (Some (c_max_attempts c)) (Some (c_run_at c)) (c_attempted_at c) (dn_finalized_at r)
         (Some (c_created_at c)) (c_unique_key c) (c_unique_states c) payload (dn_output r).
Fixpoint execute_done_inserts (q : QStore) (keep : bool) (rows : list DoneJobRow) (m : gmap DoneKey DoneEntry)
    : result AwaError (gmap DoneKey DoneEntry) :=
  match rows with
  | [] => Ok m
  | r :: rows =>
      match m !! done_key r with
      | Some _ => Err PKEY_VIOLATION
      | None => execute_done_inserts q keep rows (<[done_key r := done_entry q keep r]> m)
      end
  end.

(** [append_terminal_count_deltas_tx]: signed counts by key, zeros dropped. *)
Definition terminal_counter_bucket (job_id : Z) : Z := rem_euclid job_id 256.
Definition counter_key (env : StoreEnv) (r : DoneJobRow) : CounterKey :=
  (ready_slot (dn_pos r), ready_generation (dn_pos r), c_queue (dn_columns r), c_priority (dn_columns r),
   enqueue_shard (dn_pos r), if sv_per_lane env then 0 else terminal_counter_bucket (c_job_id (dn_columns r))).
Definition tally (delta : Z) (keys : list CounterKey) : gmap CounterKey Z :=
  fold_left (fun m k => <[k := default 0 (m !! k) + delta]> m) keys ∅.
Definition append_terminal_count_deltas_tx (env : StoreEnv) (delta : Z) (rows : list DoneJobRow) (q : QStore) : QStore :=
  set_deltas (count_deltas q
              ++ List.filter (fun kd => negb (snd kd =? 0)) (map_to_list (tally delta (map (counter_key env) rows)))) q.
Definition increment_live_terminal_counters_tx (env : StoreEnv) := append_terminal_count_deltas_tx env 1.
Definition decrement_live_terminal_counters_tx (env : StoreEnv) := append_terminal_count_deltas_tx env (-1).

Definition insert_done_rows_tx (env : StoreEnv) (rows : list DoneJobRow) (old_state : option JobState) (q : QStore)
    : result AwaError QStore :=
  let? q := sync_unique_claims old_state (map (fun r => (dn_columns r, dn_state r)) rows) q in
  let keep_ready_backing := bool_decide (old_state = Some Running \/ old_state = Some WaitingExternal) in
  let? m := execute_done_inserts q keep_ready_backing rows (done_entries q) in
  Ok (increment_live_terminal_counters_tx env rows (set_done m q)).

(** [done_row_projection] over [done_ready_join]. *)
Definition done_pos (k : DoneKey) (d : DoneEntry) : Position :=
  let '(slot, _, _, shard, seq) := k in mkPosition slot (de_generation d) seq shard.
Definition coalesce {A} (a b : option A) : option A := match a with Some _ => a | None => b end.
Definition done_row (q : QStore) (k : DoneKey) (d : DoneEntry) : DoneJobRow :=
  let '(_, queue, priority, _, _) := k in
  let ready := rt_columns <$> ready_at (ready_rows q) (done_pos k d) queue priority in
  mkDone (done_pos k d)
    (mkColumns (de_job_id d) (de_kind d) queue
       (default (JObject []) (coalesce (de_args d) (c_args <$> ready)))
       priority (de_attempt d) (de_run_lease d)
       (default 25 (coalesce (de_max_attempts d) (c_max_attempts <$> ready)))
       (default (de_finalized_at d) (coalesce (de_run_at d) (c_run_at <$> ready)))
       (coalesce (de_attempted_at d) (ready ≫= c_attempted_at))
       (default (de_finalized_at d) (coalesce (de_created_at d) (c_created_at <$> ready)))
       (coalesce (de_unique_key d) (ready ≫= c_unique_key))
       (coalesce (de_unique_states d) (ready ≫= c_unique_states))
       (default (JObject []) (coalesce (de_stored_payload d) (c_payload <$> ready))))
    (de_state d) (de_finalized_at d) None.

(** * Attempts *)

Definition receipts (q : QStore) : list (ClaimBatch * ClaimItem) :=
  concat (map (fun b => map (fun i => (b, i)) (cb_items b)) (claim_batches (tables (lanes q)))).
Definition attempt_of (x : ClaimBatch * ClaimItem) : Z * Z := (ci_job_id (snd x), ci_run_lease (snd x)).

Definition closed_receipt (q : QStore) (claim_slot receipt_id : Z) : bool :=
  existsb (fun c => (co_claim_slot c =? claim_slot) && (co_receipt_id c =? receipt_id)) (closures q).
Definition lease_attempt (l : LeaseRow) : Z * Z := (dl_job_id (ls_row l), dl_run_lease (ls_row l)).
Definition has_lease (q : QStore) (a : Z * Z) : bool := existsb (fun l => bool_decide (lease_attempt l = a)) (leases q).
(** A later row of the attempt: terminal, deferred or dead-lettered. *)
Definition has_outcome_row (q : QStore) (a : Z * Z) : bool :=
  existsb (fun d => bool_decide ((de_job_id (snd d), de_run_lease (snd d)) = a)) (map_to_list (done_entries q))
  || match deferred_jobs q !! fst a with Some r => c_run_lease (df_columns r) =? snd a | None => false end
  || match dlq_entries q !! fst a with Some r => c_run_lease (dq_columns r) =? snd a | None => false end.
(** The [NOT EXISTS] evidence of the statements that look for an open receipt
    not yet materialized ([open_receipt_running_claims_sql]). *)
Definition open_receipt (q : QStore) (x : ClaimBatch * ClaimItem) : bool :=
  negb (closed_receipt q (cb_claim_slot (fst x)) (ci_receipt_id (snd x)))
  && negb (has_lease q (attempt_of x)) && negb (has_outcome_row q (attempt_of x)).
Definition open_receipt_running_claims (q : QStore) : list (ClaimBatch * ClaimItem) := List.filter (open_receipt q) (receipts q).

(** What a receipt returns, as a running attempt. *)
Definition receipt_row (x : ClaimBatch * ClaimItem) : DeletedLeaseRow :=
  let '(b, i) := x in
  mkDeletedLease (mkPosition (fst (cb_ring b)) (snd (cb_ring b)) (ci_lane_seq i) (cb_shard b)) (ci_job_id i) (cb_queue b)
    Running (cb_priority b) (ci_attempt i) (ci_run_lease i) (ci_max_attempts i) (Some (cb_claimed_at b)).
Definition closure_of (outcome : string) (x : ClaimBatch * ClaimItem) : Closure :=
  mkClosure (cb_claim_slot (fst x)) (cb_ring (fst x)) outcome (ci_receipt_id (snd x)).
Definition close_receipts (outcome : string) (xs : list (ClaimBatch * ClaimItem)) (q : QStore) : QStore :=
  set_closures (closures q ++ map (closure_of outcome) xs) q.
