(* ===== verification/Attempts.v ===== *)
(** The attempts of queue storage: from the receipt a claim wrote to the row of
    its outcome (awa-model/src/queue_storage.rs).

    Each operation is one transaction.  Those that end an attempt take its
    advisory lock first, so on one attempt they run one after the other; an
    operation is therefore a function of the store, and its error leaves the
    store as it was.  Times in the future are not checked against the range of
    [DateTime]. *)

From stdpp Require Import pretty.
From S2P Require Import Prelude.
From S2P Require Import Error.
From S2P Require Import Json.
From S2P Require Import Job.
From S2P Require Import Rows.
From S2P Require Import Lanes.
From S2P Require Import QueueStore.

(** * Taking an attempt *)

(** The ready row of an attempt, whatever priority its lane has; of two the
    [BTreeMap] keeps the later. *)
Definition snapshot_of (rows : list ReadyEntry) (d : DeletedLeaseRow) : option ReadyEntry :=
  List.find (fun r => bool_decide (rt_pos r = dl_pos d) && String.eqb (c_queue (rt_columns r)) (dl_queue d)
                      && (c_job_id (rt_columns r) =? dl_job_id d)) (rev rows).
Definition READY_ROW_MISSING (d : DeletedLeaseRow) : AwaError :=
  Validation ("queue storage ready row missing for deleted lease job " +:+ pretty (dl_job_id d)
              +:+ " run_lease " +:+ pretty (dl_run_lease d)).
Definition dl_attempt_of (d : DeletedLeaseRow) : Z * Z := (dl_job_id d, dl_run_lease d).
Definition hydrated (d : DeletedLeaseRow) (r : ReadyEntry) (attempt : option AttemptState) : LeaseTransitionRow :=
  let c := rt_columns r in
  mkLease (dl_pos d)
    (mkColumns (dl_job_id d) (c_kind c) (c_queue c) (c_args c) (dl_priority d) (dl_attempt d) (dl_run_lease d)
       (dl_max_attempts d) (c_run_at c) (dl_attempted_at d) (c_created_at c) (c_unique_key c) (c_unique_states c)
       (c_payload c))
    (dl_state d) (attempt ≫= fun a => as_progress (at_row a)).

(** The receipts a hydration closes: those of the attempts not closed yet. *)
Definition receipts_to_close (q : QStore) (deleted : list DeletedLeaseRow) : list (ClaimBatch * ClaimItem) :=
  concat (map (fun d => List.filter (fun x => bool_decide (attempt_of x = dl_attempt_of d)
                                              && negb (closed_receipt q (cb_claim_slot (fst x)) (ci_receipt_id (snd x))))
                          (receipts q)) deleted).
Definition delete_attempts (deleted : list DeletedLeaseRow) (q : QStore) : QStore :=
  set_attempts (foldr (fun d m => delete (dl_attempt_of d) m) (attempt_state q) deleted) q.
Definition hydrate_row (q : QStore) (d : DeletedLeaseRow) : result AwaError LeaseTransitionRow :=
  match snapshot_of (ready_rows q) d with
  | Some r => Ok (hydrated d r (attempt_state q !! dl_attempt_of d))
  | None => Err (READY_ROW_MISSING d)
  end.
Definition hydrate_deleted_leases_tx (deleted : list DeletedLeaseRow) (write_receipt_closures : bool) (q : QStore)
    : result AwaError (list LeaseTransitionRow * QStore) :=
  let? rows := all_ok (hydrate_row q) deleted in
  let q := delete_attempts deleted q in
  Ok (rows, if write_receipt_closures then close_receipts "rescue" (receipts_to_close q deleted) q else q).

(** [close_compact_receipt_claim_tx]: by the batch's identity and the item's
    index. *)
Definition close_compact_receipt_claim_tx (job_id run_lease : Z) (outcome : string)
    (claim_slot batch_id batch_index receipt_id : Z) (q : QStore) : result AwaError (list DeletedLeaseRow * QStore) :=
  if claim_slot <? 0 then Err (Validation ("invalid claim slot " +:+ pretty claim_slot))
  else
    let batch := List.find (fun b => (cb_claim_slot b =? claim_slot) && (cb_batch_id b =? batch_id))
                   (claim_batches (tables (lanes q))) in
    let target := batch ≫= fun b => (fun i => (b, i)) <$> (if 1 <=? batch_index then cb_items b !! Z.to_nat (batch_index - 1) else None) in
    match target with
    | Some x =>
        if (ci_job_id (snd x) =? job_id) && (ci_run_lease (snd x) =? run_lease) && (ci_receipt_id (snd x) =? receipt_id)
           && open_receipt q x
        then Ok ([receipt_row x], close_receipts outcome [x] q)
        else Ok ([], q)
    | None => Ok ([], q)
    end.

Definition close_open_receipt_claim_tx (job_id run_lease : Z) (outcome : string) (claim : option ClaimedEntry) (q : QStore)
    : result AwaError (option LeaseTransitionRow * QStore) :=
  let by_attempt :=
    match List.filter (fun x => bool_decide (attempt_of x = (job_id, run_lease)) && open_receipt q x) (receipts q) with
    | [] => Ok (None, q)
    | x :: _ =>
        let? (moved, q) := hydrate_deleted_leases_tx [receipt_row x] true (close_receipts outcome [x] q) in
        Ok (head moved, q)
    end in
  match claim with
  | Some claim =>
      match ce_lease_claim_receipt claim, ce_claim_batch_id claim, ce_claim_batch_index claim, ce_receipt_id claim with
      | true, Some batch_id, Some batch_index, Some receipt_id =>
          let? (deleted, q) := close_compact_receipt_claim_tx job_id run_lease outcome (ce_claim_slot claim)
                                 batch_id batch_index receipt_id q in
          match deleted with
          | [] => Ok (None, q)
          | _ => let? (moved, q) := hydrate_deleted_leases_tx deleted false q in Ok (head moved, q)
          end
      | _, _, _, _ => by_attempt
      end
  | None => by_attempt
  end.

(** [DELETE FROM leases ... RETURNING]. *)
Definition delete_leases (target : LeaseRow -> bool) (q : QStore) : list DeletedLeaseRow * QStore :=
  (map ls_row (List.filter target (leases q)), set_leases (List.filter (fun l => negb (target l)) (leases q)) q).
Definition running_lease_of (job_id run_lease : Z) (l : LeaseRow) : bool :=
  bool_decide (lease_attempt l = (job_id, run_lease)) && bool_decide (dl_state (ls_row l) = Running).

Definition take_running_attempt_tx (job_id run_lease : Z) (receipt_outcome : string) (claim : option ClaimedEntry)
    (q : QStore) : result AwaError (option LeaseTransitionRow * QStore) :=
  let? (moved, q) := close_open_receipt_claim_tx job_id run_lease receipt_outcome claim q in
  match moved with
  | Some moved => Ok (Some moved, q)
  | None =>
      match delete_leases (running_lease_of job_id run_lease) q with
      | ([], q) => Ok (None, q)
      | (deleted, q) => let? (moved, q) := hydrate_deleted_leases_tx deleted true q in Ok (head moved, q)
      end
  end.

(** * Outcomes *)

Definition with_progress (payload : json) (progress : option json) : result AwaError json :=
  let? payload := from_json payload in Ok (into_json (Json.set_progress progress payload)).
(** [progress.or(moved.progress)], written into the payload. *)
Definition moved_payload (progress : option json) (moved : LeaseTransitionRow) : result AwaError json :=
  with_progress (c_payload (lt_columns moved)) (match progress with Some _ => progress | None => lt_progress moved end).
Definition backoff_at (env : StoreEnv) (attempt max_attempts : Z) : time := sv_now env + sv_backoff env attempt max_attempts.
(** [TimeDelta::from_std] of a duration in microseconds. *)
Definition from_std (what : string) (duration : Z) : result AwaError Z :=
  if duration / 1000 <=? i64_max then Ok duration
  else Err (Validation (what +:+ ": Source duration value is out of range for the target type")).

(** [retry_after_with_output_in_tx]; [secs_text] is the delay in seconds as
    [f64] displays it. *)
Definition retry_after (env : StoreEnv) (job_id run_lease delay : Z) (secs_text : string) (progress : option json)
    (claim : option ClaimedEntry) (output : option json) (q : QStore) : result AwaError (option JobRow * QStore) :=
  let? (moved, q) := take_running_attempt_tx job_id run_lease "retryable" claim q in
  match moved with
  | None => Ok (None, q)
  | Some moved =>
      let? payload := moved_payload progress moved in
      let? payload :=
        match output with
        | Some _ =>
            let? p := from_json payload in
            Ok (into_json (push_error
                  (lifecycle_entry (sv_at_text env)
                     {| ae_message := "retry requested after " +:+ secs_text +:+ "s"; ae_output := output |}
                     (c_attempt (lt_columns moved)) false) p))
        | None => Ok payload
        end in
      let? delay := from_std "invalid retry_after duration" delay in
      let deferred := lease_into_deferred_row Retryable (sv_now env + delay) (Some (sv_now env)) payload moved in
      let? q := insert_deferred_rows_tx [deferred] (Some (lt_state moved)) q in
      let? row := deferred_into_job_row deferred in
      Ok (Some row, q)
  end.

(** [i16::saturating_sub]. *)
Definition i16_saturating_sub (a b : Z) : Z := Z.max (- 2 ^ 15) (a - b).
Definition df_with_attempt (attempt : Z) (r : DeferredJobRow) : DeferredJobRow :=
  mkDeferred (with_attempt attempt (c_attempted_at (df_columns r)) (df_columns r)) (df_state r) (df_finalized_at r).
Definition snooze (env : StoreEnv) (job_id run_lease snooze_for : Z) (progress : option json)
    (claim : option ClaimedEntry) (q : QStore) : result AwaError (option JobRow * QStore) :=
  let? (moved, q) := take_running_attempt_tx job_id run_lease "scheduled" claim q in
  match moved with
  | None => Ok (None, q)
  | Some moved =>
      let? payload := moved_payload progress moved in
      let? snooze_for := from_std "invalid snooze duration" snooze_for in
      let deferred := lease_into_deferred_row Scheduled (sv_now env + snooze_for) None payload moved in
      let deferred := df_with_attempt (i16_saturating_sub (c_attempt (df_columns deferred)) 1) deferred in
      let? q := insert_deferred_rows_tx [deferred] (Some (lt_state moved)) q in
      let? row := deferred_into_job_row deferred in
      Ok (Some row, q)
  end.

Definition push_lifecycle (env : StoreEnv) (error : AttemptError) (attempt : Z) (terminal : bool) (payload : json)
    : result AwaError json :=
  let? p := from_json payload in
  Ok (into_json (push_error (lifecycle_entry (sv_at_text env) error attempt terminal) p)).

Definition cancel_running (env : StoreEnv) (job_id run_lease : Z) (reason : AttemptError) (progress : option json)
    (claim : option ClaimedEntry) (q : QStore) : result AwaError (option JobRow * QStore) :=
  let? (moved, q) := take_running_attempt_tx job_id run_lease "cancelled" claim q in
  match moved with
  | None => Ok (None, q)
  | Some moved =>
      let? payload := moved_payload progress moved in
      let? payload := push_lifecycle env {| ae_message := "cancelled: " +:+ ae_message reason; ae_output := ae_output reason |}
                        (c_attempt (lt_columns moved)) false payload in
      let done := lease_into_done_row Cancelled (sv_now env) payload moved in
      let? q := insert_done_rows_tx env [done] (Some (lt_state moved)) q in
      let? row := done_into_job_row done in
      Ok (Some row, q)
  end.

Definition fail_terminal (env : StoreEnv) (job_id run_lease : Z) (error : AttemptError) (progress : option json)
    (claim : option ClaimedEntry) (q : QStore) : result AwaError (option JobRow * QStore) :=
  let? (moved, q) := take_running_attempt_tx job_id run_lease "failed" claim q in
  match moved with
  | None => Ok (None, q)
  | Some moved =>
      let? payload := moved_payload progress moved in
      let? payload := push_lifecycle env error (c_attempt (lt_columns moved)) true payload in
      let done := lease_into_done_row Failed (sv_now env) payload moved in
      let? q := insert_done_rows_tx env [done] (Some (lt_state moved)) q in
      let? row := done_into_job_row done in
      Ok (Some row, q)
  end.

Definition fail_to_dlq (env : StoreEnv) (job_id run_lease : Z) (dlq_reason : string) (error : AttemptError)
    (progress : option json) (claim : option ClaimedEntry) (q : QStore) : result AwaError (option JobRow * QStore) :=
  let? (moved, q) := take_running_attempt_tx job_id run_lease "dlq" claim q in
  match moved with
  | None => Ok (None, q)
  | Some moved =>
      let? payload := moved_payload progress moved in
      let? payload := push_lifecycle env error (c_attempt (lt_columns moved)) true payload in
      let dlq_row := lease_into_dlq_row (sv_now env) payload dlq_reason (sv_now env) moved in
      let? q := insert_dlq_rows_tx [dlq_row] (Some (lt_state moved)) q in
      let? row := dlq_into_job_row dlq_row in
      Ok (Some row, q)
  end.

(** [fail_retryable_at_tx]; without a delay the backoff. *)
Definition fail_retryable (env : StoreEnv) (job_id run_lease : Z) (error : AttemptError) (progress : option json)
    (claim : option ClaimedEntry) (delay : option Z) (q : QStore) : result AwaError (option JobRow * QStore) :=
  let? (moved, q) := take_running_attempt_tx job_id run_lease "retryable" claim q in
  match moved with
  | None => Ok (None, q)
  | Some moved =>
      let c := lt_columns moved in
      let exhausted := c_max_attempts c <=? c_attempt c in
      let? payload := moved_payload progress moved in
      let? payload := push_lifecycle env error (c_attempt c) exhausted payload in
      if exhausted then
        let done := lease_into_done_row Failed (sv_now env) payload moved in
        let? q := insert_done_rows_tx env [done] (Some (lt_state moved)) q in
        let? row := done_into_job_row done in
        Ok (Some row, q)
      else
        let? run_at := match delay with
                       | Some delay => let? delay := from_std "invalid retry delay" delay in Ok (sv_now env + delay)
                       | None => Ok (backoff_at env (c_attempt c) (c_max_attempts c))
                       end in
        let deferred := lease_into_deferred_row Retryable run_at (Some (sv_now env)) payload moved in
        let? q := insert_deferred_rows_tx [deferred] (Some (lt_state moved)) q in
        let? row := deferred_into_job_row deferred in
        Ok (Some row, q)
  end.
