(* ===== verification/Callbacks.v ===== *)
(** Running attempts of queue storage that change without ending: heartbeats,
    progress, materialization into a lease, and callbacks up to their resolution
    (awa-model/src/queue_storage.rs).  A UUID is an integer here. *)

From S2P Require Import Prelude.
From S2P Require Import Error.
From S2P Require Import Json.
From S2P Require Import Job.
From S2P Require Import Rows.
From S2P Require Import Lanes.
From S2P Require Import QueueStore.
From S2P Require Import Attempts.

(** * Heartbeats and progress *)

(** A receipt without closure evidence, materialized or not. *)
Definition unclosed_receipt (q : QStore) (x : ClaimBatch * ClaimItem) : bool :=
  negb (closed_receipt q (cb_claim_slot (fst x)) (ci_receipt_id (snd x))) && negb (has_outcome_row q (attempt_of x)).
Definition unclosed_receipts_of (q : QStore) (a : Z * Z) : list (ClaimBatch * ClaimItem) :=
  List.filter (fun x => bool_decide (attempt_of x = a) && unclosed_receipt q x) (receipts q).

Definition new_attempt (a : Z * Z) : AttemptState :=
  mkAttempt (mkAttemptState (fst a) (snd a) None None None None None None) None.
Definition attempt_at (q : QStore) (a : Z * Z) : AttemptState := default (new_attempt a) (attempt_state q !! a).
Definition as_set_progress (progress : json) (r : AttemptStateRow) : AttemptStateRow :=
  mkAttemptState (as_job_id r) (as_run_lease r) (Some progress) (as_callback_filter r) (as_callback_on_complete r)
    (as_callback_on_fail r) (as_callback_transform r) (as_callback_result r).
Definition as_set_config (filter on_complete on_fail transform : option string) (r : AttemptStateRow) : AttemptStateRow :=
  mkAttemptState (as_job_id r) (as_run_lease r) (as_progress r) filter on_complete on_fail transform (as_callback_result r).
Definition as_set_result (result : option json) (r : AttemptStateRow) : AttemptStateRow :=
  mkAttemptState (as_job_id r) (as_run_lease r) (as_progress r) (as_callback_filter r) (as_callback_on_complete r)
    (as_callback_on_fail r) (as_callback_transform r) result.

(** [upsert_attempt_state_from_receipts_tx] and its variant with progress; the
    attempts are the keys of a map, so each comes once. *)
Definition upsert_attempt_state_from_receipts_tx (env : StoreEnv) (jobs : list (Z * Z)) (q : QStore) : QStore :=
  let open := List.filter (fun a => match unclosed_receipts_of q a with [] => false | _ => true end) jobs in
  set_attempts (foldr (fun a m => <[a := mkAttempt (at_row (attempt_at q a)) (Some (sv_now env))]> m) (attempt_state q) open) q.
Definition upsert_attempt_state_progress_from_receipts_tx (env : StoreEnv) (jobs : list (Z * Z * json)) (q : QStore) : QStore :=
  let open := List.filter (fun j => match unclosed_receipts_of q (fst j) with [] => false | _ => true end) jobs in
  set_attempts (foldr (fun j m => <[fst j := mkAttempt (as_set_progress (snd j) (at_row (attempt_at q (fst j)))) (Some (sv_now env))]> m)
                  (attempt_state q) open) q.
Definition heartbeat_batch (env : StoreEnv) (jobs : list (Z * Z)) (q : QStore) : QStore :=
  upsert_attempt_state_from_receipts_tx env jobs q.
Definition heartbeat_progress_batch (env : StoreEnv) (jobs : list (Z * Z * json)) (q : QStore) : QStore :=
  upsert_attempt_state_progress_from_receipts_tx env jobs q.

(** [heartbeat_claims_batch]: by batch and index. *)
Record ClaimHeartbeatRef : Type := mkHeartbeatRef {
  hr_job_id : Z;
  hr_run_lease : Z;
  hr_claim_slot : Z;
  hr_claim_batch_id : Z;
  hr_claim_batch_index : Z;
  hr_receipt_id : Z
}.
Definition claim_ref_open (q : QStore) (r : ClaimHeartbeatRef) : bool :=
  existsb (fun b =>
    (cb_claim_slot b =? hr_claim_slot r) && (cb_batch_id b =? hr_claim_batch_id r) && (1 <=? hr_claim_batch_index r)
    && match cb_items b !! Z.to_nat (hr_claim_batch_index r - 1) with
       | Some i => (ci_job_id i =? hr_job_id r) && (ci_run_lease i =? hr_run_lease r) && (ci_receipt_id i =? hr_receipt_id r)
                   && unclosed_receipt q (b, i)
       | None => false
       end) (claim_batches (tables (lanes q))).
Definition heartbeat_claims_batch (env : StoreEnv) (refs : list ClaimHeartbeatRef) (q : QStore) : QStore :=
  set_attempts (foldr (fun r m => let a := (hr_job_id r, hr_run_lease r) in
                                  <[a := mkAttempt (at_row (attempt_at q a)) (Some (sv_now env))]> m)
                  (attempt_state q) (List.filter (claim_ref_open q) refs)) q.

Definition live_lease (l : LeaseRow) : bool :=
  bool_decide (dl_state (ls_row l) = Running \/ dl_state (ls_row l) = WaitingExternal).
Definition flush_progress (env : StoreEnv) (job_id run_lease : Z) (progress : json) (q : QStore) : QStore :=
  let a := (job_id, run_lease) in
  let q := upsert_attempt_state_progress_from_receipts_tx env [(a, progress)] q in
  if existsb (fun l => bool_decide (lease_attempt l = a) && live_lease l) (leases q)
  then set_attempts (<[a := mkAttempt (as_set_progress progress (at_row (attempt_at q a))) (at_heartbeat_at (attempt_at q a))]>
                       (attempt_state q)) q
  else q.

(** * Materialization *)

(** The primary key of [leases]. *)
Definition lease_pkey (l : LeaseRow) : Z * string * Z * Z * Z :=
  (ls_lease_slot l, dl_queue (ls_row l), dl_priority (ls_row l), enqueue_shard (dl_pos (ls_row l)), lane_seq (dl_pos (ls_row l))).
Definition materialized (env : StoreEnv) (x : ClaimBatch * ClaimItem) : LeaseRow :=
  mkLeaseRow (sv_lease_slot env) (receipt_row x) (Some (sv_now env)) (cb_deadline_at (fst x)) None None.
Fixpoint insert_leases (rows ls : list LeaseRow) : result AwaError (list LeaseRow) :=
  match rows with
  | [] => Ok ls
  | r :: rows => if existsb (fun l => bool_decide (lease_pkey l = lease_pkey r)) ls then Err PKEY_VIOLATION
                 else insert_leases rows (ls ++ [r])
  end.
Definition ensure_running_leases_from_receipts_tx (env : StoreEnv) (jobs : list (Z * Z)) (q : QStore) : result AwaError QStore :=
  let claim_refs := concat (map (unclosed_receipts_of q) jobs) in
  let? ls := insert_leases (map (materialized env) (List.filter (fun x => negb (has_lease q (attempt_of x))) claim_refs)) (leases q) in
  Ok (set_leases ls q).

(** * Registration *)

Definition ls_set_callback (id : option Z) (timeout_at : option time) (l : LeaseRow) : LeaseRow :=
  mkLeaseRow (ls_lease_slot l) (ls_row l) (ls_heartbeat_at l) (ls_deadline_at l) id timeout_at.
Definition dl_set_state (st : JobState) (d : DeletedLeaseRow) : DeletedLeaseRow :=
  mkDeletedLease (dl_pos d) (dl_job_id d) (dl_queue d) st (dl_priority d) (dl_attempt d) (dl_run_lease d)
    (dl_max_attempts d) (dl_attempted_at d).
Definition update_leases (target : LeaseRow -> bool) (f : LeaseRow -> LeaseRow) (q : QStore) : QStore :=
  set_leases (map (fun l => if target l then f l else l) (leases q)) q.

Definition NOT_RUNNING : AwaError := Validation "job is not in running state".
(** The lease of the running attempt gets a callback. *)
Definition set_callback (env : StoreEnv) (job_id run_lease callback_id timeout : Z) (q : QStore) : result AwaError QStore :=
  let? q := ensure_running_leases_from_receipts_tx env [(job_id, run_lease)] q in
  if existsb (running_lease_of job_id run_lease) (leases q)
  then Ok (update_leases (running_lease_of job_id run_lease)
             (ls_set_callback (Some callback_id) (Some (sv_now env + timeout))) q)
  else Err NOT_RUNNING.
(** The attempt's callback configuration cleared, its row deleted when nothing
    but a heartbeat is left. *)
Definition attempt_is_empty (r : AttemptStateRow) : bool :=
  match as_progress r, as_callback_result r, as_callback_filter r, as_callback_on_complete r, as_callback_on_fail r,
        as_callback_transform r with
  | None, None, None, None, None, None => true
  | _, _, _, _, _, _ => false
  end.
Definition clear_config (a : Z * Z) (q : QStore) : QStore :=
  match attempt_state q !! a with
  | Some s =>
      let r := as_set_config None None None None (at_row s) in
      set_attempts (if attempt_is_empty r then delete a (attempt_state q)
                    else <[a := mkAttempt r (at_heartbeat_at s)]> (attempt_state q)) q
  | None => q
  end.
Definition register_callback (env : StoreEnv) (job_id run_lease callback_id timeout : Z) (q : QStore) : result AwaError QStore :=
  let? q := set_callback env job_id run_lease callback_id timeout q in
  Ok (clear_config (job_id, run_lease) q).

(** [register_callback_with_config]; [compile] is the CEL check of one named
    expression. *)
Record CallbackConfig : Type := mkCallbackConfig {
  cc_filter : option string;
  cc_on_complete : option string;
  cc_on_fail : option string;
  cc_transform : option string
}.
Definition config_is_empty (c : CallbackConfig) : bool :=
  match cc_filter c, cc_on_complete c, cc_on_fail c, cc_transform c with
  | None, None, None, None => true
  | _, _, _, _ => false
  end.
Definition check_expr (compile : string -> string -> result AwaError unit) (name : string) (e : option string)
    : result AwaError unit :=
  match e with Some src => compile name src | None => Ok tt end.
Definition register_callback_with_config (compile : string -> string -> result AwaError unit) (env : StoreEnv)
    (job_id run_lease callback_id timeout : Z) (config : CallbackConfig) (q : QStore) : result AwaError QStore :=
  if config_is_empty config then register_callback env job_id run_lease callback_id timeout q
  else
    check? check_expr compile "filter" (cc_filter config);
    check? check_expr compile "on_complete" (cc_on_complete config);
    check? check_expr compile "on_fail" (cc_on_fail config);
    check? check_expr compile "transform" (cc_transform config);
    let? q := set_callback env job_id run_lease callback_id timeout q in
    let a := (job_id, run_lease) in
    let r := as_set_config (cc_filter config) (cc_on_complete config) (cc_on_fail config) (cc_transform config)
               (at_row (attempt_at q a)) in
    Ok (set_attempts (<[a := mkAttempt r (at_heartbeat_at (attempt_at q a))]> (attempt_state q)) q).

Definition cancel_callback (job_id run_lease : Z) (q : QStore) : bool * QStore :=
  let target l := running_lease_of job_id run_lease l && match ls_callback_id l with Some _ => true | None => false end in
  if existsb target (leases q)
  then (true, clear_config (job_id, run_lease) (update_leases target (ls_set_callback None None) q))
  else (false, q).

Definition enter_callback_wait (job_id run_lease callback_id : Z) (q : QStore) : bool * QStore :=
  let target l := running_lease_of job_id run_lease l && bool_decide (ls_callback_id l = Some callback_id) in
  (existsb target (leases q),
   update_leases target (fun l => mkLeaseRow (ls_lease_slot l) (dl_set_state WaitingExternal (ls_row l)) None None
                                    (ls_callback_id l) (ls_callback_timeout_at l)) q).

(** The row [heartbeat_callback] answers with, from [load_job], is left out. *)
Definition heartbeat_callback (env : StoreEnv) (callback_id timeout : Z) (q : QStore) : result AwaError QStore :=
  let target l := bool_decide (ls_callback_id l = Some callback_id) && bool_decide (dl_state (ls_row l) = WaitingExternal) in
  if existsb target (leases q)
  then Ok (update_leases target (fun l => ls_set_callback (ls_callback_id l) (Some (sv_now env + timeout)) l) q)
  else Err (CallbackNotFound callback_id).

(** * Lookup *)

(** The lease joined with its ready row and its attempt. *)
Definition lease_job_row (q : QStore) (l : LeaseRow) : option LeaseJobRow :=
  let d := ls_row l in
  (fun r =>
     let c := rt_columns r in
     let a := attempt_state q !! lease_attempt l in
     mkLeaseJob
       (mkColumns (dl_job_id d) (c_kind c) (c_queue c) (c_args c) (dl_priority d) (dl_attempt d) (dl_run_lease d)
          (dl_max_attempts d) (c_run_at c) (dl_attempted_at d) (c_created_at c) (c_unique_key c) (c_unique_states c)
          (c_payload c))
       (dl_state d) (coalesce (a ≫= at_heartbeat_at) (ls_heartbeat_at l)) (ls_deadline_at l) None
       (ls_callback_id l) (ls_callback_timeout_at l)
       (a ≫= fun s => as_callback_filter (at_row s)) (a ≫= fun s => as_callback_on_complete (at_row s))
       (a ≫= fun s => as_callback_on_fail (at_row s)) (a ≫= fun s => as_callback_transform (at_row s))
       (a ≫= fun s => as_progress (at_row s)) (a ≫= fun s => as_callback_result (at_row s)))
  <$> ready_at (ready_rows q) (dl_pos d) (dl_queue d) (dl_priority d).
Definition lease_read (row : option LeaseJobRow) : result AwaError (option JobRow) :=
  match row with Some r => let? j := lease_into_job_row r in Ok (Some j) | None => Ok None end.

Definition load_active_lease_in_tx (job_id run_lease : Z) (q : QStore) : result AwaError (option JobRow) :=
  lease_read (head (omap (lease_job_row q)
    (List.filter (fun l => bool_decide (lease_attempt l = (job_id, run_lease))) (leases q)))).

(** Leases by their callback, of one run lease or of any. *)
Definition callback_target (callback_id : Z) (run_lease : option Z) (l : LeaseRow) : bool :=
  bool_decide (ls_callback_id l = Some callback_id)
  && match run_lease with Some n => dl_run_lease (ls_row l) =? n | None => true end.
Definition lease_ge (a b : LeaseRow) : Prop := dl_run_lease (ls_row b) <= dl_run_lease (ls_row a).
#[global] Instance lease_ge_dec : RelDecision lease_ge := fun a b => Z_le_dec _ _.
Definition callback_job_in_tx (callback_id : Z) (run_lease : option Z) (q : QStore) : result AwaError (option JobRow) :=
  lease_read (head (omap (lease_job_row q)
    (merge_sort lease_ge (List.filter (fun l => callback_target callback_id run_lease l && live_lease l) (leases q))))).

(** [take_callback_result]. *)
Definition take_callback_result (a : Z * Z) (q : QStore) : json * QStore :=
  match attempt_state q !! a with
  | None => (JNull, q)
  | Some s =>
      let r := as_set_result None (at_row s) in
      (default JNull (as_callback_result (at_row s)),
       set_attempts (if attempt_is_empty r then delete a (attempt_state q)
                     else <[a := mkAttempt r (at_heartbeat_at s)]> (attempt_state q)) q)
  end.
(** [check_callback_state] up to its answer for a job without a lease, which
    [loaded] gives. *)
Inductive CallbackPollResult : Type :=
  | PollResolved (result : json)
  | PollStale (token current : Z) (state : JobState)
  | PollPending
  | PollUnexpectedState (token : Z) (state : JobState)
  | PollNotFound.
Definition check_callback_state (loaded : option JobState) (job_id callback_id : Z) (q : QStore)
    : CallbackPollResult * QStore :=
  match merge_sort lease_ge (List.filter (fun l => dl_job_id (ls_row l) =? job_id) (leases q)) with
  | [] => (match loaded with Some st => PollUnexpectedState callback_id st | None => PollNotFound end, q)
  | l :: _ =>
      let st := dl_state (ls_row l) in
      let result := attempt_state q !! lease_attempt l ≫= fun s => as_callback_result (at_row s) in
      match st, ls_callback_id l, result with
      | Running, None, Some _ => let '(v, q) := take_callback_result (lease_attempt l) q in (PollResolved v, q)
      | _, Some current, _ =>
          if negb (current =? callback_id) then (PollStale callback_id current st, q)
          else if bool_decide (st = WaitingExternal) then (PollPending, q)
          else (PollUnexpectedState callback_id st, q)
      | _, None, _ => (PollUnexpectedState callback_id st, q)
      end
  end.

(** * Resolution *)

(** [close_receipt_pairs_tx]: the pairs as a set. *)
Definition close_receipt_pairs_tx (pairs : list (Z * Z)) (outcome : string) (q : QStore) : QStore :=
  close_receipts outcome (concat (map (unclosed_receipts_of q) (remove_dups pairs))) q.

Definition complete_external_resume (env : StoreEnv) (callback_id : Z) (payload : option json) (run_lease : option Z)
    (q : QStore) : result AwaError (JobRow * QStore) :=
  let target l := callback_target callback_id run_lease l && live_lease l in
  match List.filter target (leases q) with
  | [] => Err (CallbackNotFound callback_id)
  | l :: _ =>
      let a := lease_attempt l in
      let q := update_leases target (fun l => mkLeaseRow (ls_lease_slot l) (dl_set_state Running (ls_row l))
                                                (Some (sv_now env)) (ls_deadline_at l) None None) q in
      let s := attempt_at q a in
      let r := as_set_result (Some (default JNull payload)) (as_set_config None None None None (at_row s)) in
      let q := set_attempts (<[a := mkAttempt r (at_heartbeat_at s)]> (attempt_state q)) q in
      let? row := load_active_lease_in_tx (fst a) (snd a) q in
      match row with Some row => Ok (row, q) | None => Err (CallbackNotFound callback_id) end
  end.

(** The three that end the attempt delete its lease, close its receipt and
    hydrate it first. *)
Definition take_callback_lease (target : LeaseRow -> bool) (callback_id : Z) (outcome : string) (q : QStore)
    : result AwaError (LeaseTransitionRow * QStore) :=
  match delete_leases target q with
  | ([], _) => Err (CallbackNotFound callback_id)
  | (deleted, q) =>
      let q := close_receipt_pairs_tx (map dl_attempt_of deleted) outcome q in
      let? (moved, q) := hydrate_deleted_leases_tx deleted true q in
      match moved with
      | moved :: _ => Ok (moved, q)
      | [] => Err (CallbackNotFound callback_id)
      end
  end.
Definition dn_set_output (output : option json) (r : DoneJobRow) : DoneJobRow :=
  mkDone (dn_pos r) (dn_columns r) (dn_state r) (dn_finalized_at r) output.

(** [complete_external_with_output_in_tx]; [supports_job_output] is whether the
    schema has the output columns. *)
Definition complete_external_with_output (supports_job_output : bool) (env : StoreEnv) (callback_id : Z)
    (run_lease : option Z) (output : option json) (q : QStore) : result AwaError (JobRow * QStore) :=
  let output := if supports_job_output then output else None in
  let? (moved, q) := take_callback_lease (fun l => callback_target callback_id run_lease l && live_lease l)
                       callback_id "completed" q in
  let? payload := payload_with_attempt_state (c_payload (lt_columns moved)) (lt_progress moved) in
  let? payload := from_json payload in
  let done_row := dn_set_output output
                    (lease_into_done_row Completed (sv_now env) (into_json (Json.set_progress None payload)) moved) in
  let? q := insert_done_rows_tx env [done_row] (Some (lt_state moved)) q in
  let? row := done_into_job_row done_row in
  Ok (row, q).
Definition complete_external (env : StoreEnv) (callback_id : Z) (payload : option json) (run_lease : option Z)
    (resume : bool) (q : QStore) : result AwaError (JobRow * QStore) :=
  if resume then complete_external_resume env callback_id payload run_lease q
  else complete_external_with_output true env callback_id run_lease None q.

(** The entry's defaults. *)
Definition or_insert (key : string) (v : json) (m : list (string * json)) : list (string * json) :=
  if map_contains_key key m then m else map_insert key v m.
Definition external_error_entry (env : StoreEnv) (attempt : Z) (entry : json) : json :=
  let m := match entry with JObject m => m | other => [("error", other)] end in
  JObject (or_insert "terminal" (JBool true) (or_insert "at" (JString (sv_at_text env)) (or_insert "attempt" (i64_number attempt) m))).
Definition fail_external (env : StoreEnv) (callback_id : Z) (error_entry : json) (run_lease : option Z) (q : QStore)
    : result AwaError (JobRow * QStore) :=
  let? (moved, q) := take_callback_lease (fun l => callback_target callback_id run_lease l && live_lease l)
                       callback_id "failed" q in
  let? payload := payload_with_attempt_state (c_payload (lt_columns moved)) (lt_progress moved) in
  let? payload := from_json payload in
  let payload := push_error (external_error_entry env (c_attempt (lt_columns moved)) error_entry) payload in
  let done_row := lease_into_done_row Failed (sv_now env) (into_json payload) moved in
  let? q := insert_done_rows_tx env [done_row] (Some (lt_state moved)) q in
  let? row := done_into_job_row done_row in
  Ok (row, q).

Definition retry_external (env : StoreEnv) (callback_id : Z) (run_lease : option Z) (q : QStore)
    : result AwaError (JobRow * QStore) :=
  let? (moved, q) := take_callback_lease
                       (fun l => callback_target callback_id run_lease l && bool_decide (dl_state (ls_row l) = WaitingExternal))
                       callback_id "retryable" q in
  let? payload := payload_with_attempt_state (c_payload (lt_columns moved)) (lt_progress moved) in
  let ready := lease_into_ready_row (sv_now env) payload moved in
  let ready_row := with_attempt 0 (c_attempted_at ready) ready in
  let? q := insert_existing_ready_rows_tx env [ready_row] (Some (lt_state moved)) q in
  let? row := ready_into_job_row ready_row in
  Ok (row, q).
