(* ===== verification/AttemptRescue.v ===== *)
(** Rescue in queue storage: attempts whose worker went silent, whose deadline
    passed or whose callback timed out (awa-model/src/queue_storage.rs).

    A rescue is one transaction over many attempts.  It deletes stale leases,
    scans the claim slots for stale receipts from a cursor that wraps around,
    and settles what it took one by one; an attempt whose unique key a newer job
    holds is cancelled instead of aborting the others. *)

From S2P Require Import Prelude.
From S2P Require Import Error.
From S2P Require Import Json.
From S2P Require Import Job.
From S2P Require Import Ring.
From S2P Require Import Rows.
From S2P Require Import Lanes.
From S2P Require Import QueueStore.
From S2P Require Import Attempts.

(** * Settling one attempt *)

(** A savepoint: a unique conflict rolls back to it and goes on with [k]. *)
Definition or_on_conflict {A} (m : result AwaError A) (k : result AwaError A) : result AwaError A :=
  match m with
  | Err (UniqueConflict _) => k
  | _ => m
  end.

Definition strip_unique (r : DoneJobRow) : DoneJobRow :=
  let c := dn_columns r in
  mkDone (dn_pos r)
    (mkColumns (c_job_id c) (c_kind c) (c_queue c) (c_args c) (c_priority c) (c_attempt c) (c_run_lease c)
       (c_max_attempts c) (c_run_at c) (c_attempted_at c) (c_created_at c) None None (c_payload c))
    (dn_state r) (dn_finalized_at r) (dn_output r).
Definition insert_done_row (env : StoreEnv) (done : DoneJobRow) (old_state : JobState) (q : QStore)
    : result AwaError (JobRow * QStore) :=
  let? q := insert_done_rows_tx env [done] (Some old_state) q in
  let? row := done_into_job_row done in
  Ok (row, q).

Definition DUPLICATE_ERROR : string := "rescued as duplicate: unique claim held by a newer job".
Definition cancel_rescued_duplicate_tx (env : StoreEnv) (row : LeaseTransitionRow) (base_payload : json) (q : QStore)
    : result AwaError (JobRow * QStore) :=
  let? payload := from_json base_payload in
  let payload := push_error (lifecycle_error (sv_at_text env) DUPLICATE_ERROR (c_attempt (lt_columns row)) true) payload in
  let done := lease_into_done_row Cancelled (sv_now env) (into_json payload) row in
  or_on_conflict (insert_done_row env done (lt_state row) q) (insert_done_row env (strip_unique done) (lt_state row) q).

Definition insert_rescued_deferred_or_cancel_tx (env : StoreEnv) (row : LeaseTransitionRow) (deferred : DeferredJobRow)
    (q : QStore) : result AwaError (JobRow * QStore) :=
  or_on_conflict
    (let? q := insert_deferred_rows_tx [deferred] (Some (lt_state row)) q in
     let? j := deferred_into_job_row deferred in
     Ok (j, q))
    (cancel_rescued_duplicate_tx env row (c_payload (df_columns deferred)) q).
Definition insert_rescued_done_or_cancel_tx (env : StoreEnv) (row : LeaseTransitionRow) (done : DoneJobRow)
    (q : QStore) : result AwaError (JobRow * QStore) :=
  or_on_conflict (insert_done_row env done (lt_state row) q)
    (cancel_rescued_duplicate_tx env row (c_payload (dn_columns done)) q).
Definition insert_rescued_dlq_or_cancel_tx (env : StoreEnv) (row : LeaseTransitionRow) (dlq : DlqJobRow)
    (q : QStore) : result AwaError (JobRow * QStore) :=
  or_on_conflict
    (let? q := insert_dlq_rows_tx [dlq] (Some (lt_state row)) q in
     let? j := dlq_into_job_row dlq in
     Ok (j, q))
    (cancel_rescued_duplicate_tx env row (c_payload (dq_columns dlq)) q).

Definition settle_rescued_attempt_tx (env : StoreEnv) (row : LeaseTransitionRow) (error : string)
    (dlq_reason : option string) (q : QStore) : result AwaError (JobRow * QStore) :=
  let c := lt_columns row in
  let? payload := payload_with_attempt_state (c_payload c) (lt_progress row) in
  let? payload := from_json payload in
  let exhausted := c_max_attempts c <=? c_attempt c in
  let payload := into_json (push_error (lifecycle_error (sv_at_text env) error (c_attempt c) exhausted) payload) in
  if exhausted then
    match dlq_reason with
    | Some reason =>
        insert_rescued_dlq_or_cancel_tx env row (lease_into_dlq_row (sv_now env) payload reason (sv_now env) row) q
    | None => insert_rescued_done_or_cancel_tx env row (lease_into_done_row Failed (sv_now env) payload row) q
    end
  else
    insert_rescued_deferred_or_cancel_tx env row
      (lease_into_deferred_row Retryable (backoff_at env (c_attempt c) (c_max_attempts c)) (Some (sv_now env)) payload row) q.

Fixpoint settle_rescued (env : StoreEnv) (error reason : string) (dlq_enabled : string -> bool)
    (rows : list LeaseTransitionRow) (q : QStore) : result AwaError (list JobRow * QStore) :=
  match rows with
  | [] => Ok ([], q)
  | row :: rows =>
      let dlq_reason := if dlq_enabled (c_queue (lt_columns row)) then Some reason else None in
      let? (j, q) := settle_rescued_attempt_tx env row error dlq_reason q in
      let? (js, q) := settle_rescued env error reason dlq_enabled rows q in
      Ok (j :: js, q)
  end.

(** * Scanning receipts *)

Definition RECEIPT_RESCUE_BATCH_LIMIT : Z := 500.
Definition RECEIPT_RESCUE_CURSOR_SCAN_LIMIT : nat := Z.to_nat 10000.

(** The first [limit] of a sorted list from the cursor on, wrapping around. *)
Definition scan_window {A} (after : A -> bool) (limit : nat) (sorted : list A) : list A :=
  let a := take limit (List.filter after sorted) in
  a ++ take (limit - length a) (List.filter (fun x => negb (after x)) sorted).
(** The last of the leading elements that may be passed. *)
Fixpoint advance_target {A} (advanceable : A -> bool) (l : list A) : option A :=
  match l with
  | [] => None
  | x :: l => if advanceable x then match advance_target advanceable l with Some y => Some y | None => Some x end else None
  end.

(** A receipt's place in the scan: when it was claimed, its job, its lease. *)
Definition scan_key (x : ClaimBatch * ClaimItem) : time * Z * Z := (cb_claimed_at (fst x), ci_job_id (snd x), ci_run_lease (snd x)).
Definition key3_lt (a b : time * Z * Z) : bool :=
  let '(x, y, z) := a in let '(x', y', z') := b in
  (x <? x') || ((x =? x') && ((y <? y') || ((y =? y') && (z <? z')))).
Definition scan_le (a b : ClaimBatch * ClaimItem) : Prop := key3_lt (scan_key b) (scan_key a) = false.
#[global] Instance scan_le_dec : RelDecision scan_le := fun a b => bool_eq_dec _ _.

(** [COALESCE(attempt.heartbeat_at, claimed_at) < cutoff]. *)
Definition receipt_stale (q : QStore) (cutoff : time) (x : ClaimBatch * ClaimItem) : bool :=
  default (cb_claimed_at (fst x)) (attempt_state q !! attempt_of x ≫= at_heartbeat_at) <? cutoff.
Definition stale_candidates (q : QStore) (slot : Z) (cutoff : time) : list (ClaimBatch * ClaimItem) :=
  merge_sort scan_le
    (List.filter (fun x => (cb_claim_slot (fst x) =? slot) && (cb_claimed_at (fst x) <? cutoff)) (receipts q)).
Definition after_rescue_cursor (q : QStore) (slot : Z) (x : ClaimBatch * ClaimItem) : bool :=
  match rescue_cursors q !! slot with Some k => key3_lt k (scan_key x) | None => true end.

(** [rescue_stale_receipt_claims_for_slot_tx]; [lockable] is whether the
    attempt's lock and the batch's row are free.  The join of the candidate keys
    back to their receipts is the identity, an attempt having one receipt. *)
Definition rescue_stale_receipt_claims_for_slot_tx (lockable : ClaimBatch * ClaimItem -> bool) (scan_limit : nat) (slot : Z)
    (cutoff : time) (rescue_limit : Z) (q : QStore) : list DeletedLeaseRow * QStore :=
  let candidates := scan_window (after_rescue_cursor q slot) scan_limit (stale_candidates q slot cutoff) in
  let stale x := open_receipt q x && receipt_stale q cutoff x in
  let stale_locked := List.filter lockable (take (Z.to_nat rescue_limit) (List.filter stale candidates)) in
  let closed_now x := existsb (fun y => bool_decide (attempt_of y = attempt_of x)) stale_locked in
  let q' := close_receipts "rescued" stale_locked q in
  (map receipt_row stale_locked,
   match advance_target (fun x => negb (stale x) || closed_now x) candidates with
   | Some x => set_rescue_cursors (<[slot := scan_key x]> (rescue_cursors q')) q'
   | None => q'
   end).

(** The slots in the order both rescues visit them. *)
Definition rescue_slots (env : StoreEnv) : list Z :=
  let '(current, generation, count) := sv_claim_ring env in
  let all := map Z.of_nat (seq 0 (Z.to_nat count)) in
  match oldest_initialized_ring_slot current generation count with
  | Some (slot, _) => if (0 <=? slot) && (slot <? count)
                      then slot :: List.filter (fun s => negb (s =? slot)) all else all
  | None => all
  end.
Fixpoint rescue_over_slots (scan : Z -> Z -> QStore -> list DeletedLeaseRow * QStore) (slots : list Z) (remaining : Z)
    (q : QStore) : list DeletedLeaseRow * QStore :=
  match slots with
  | [] => ([], q)
  | slot :: slots =>
      let '(rescued, q) := scan slot remaining q in
      let remaining := remaining - Z.of_nat (length rescued) in
      if remaining =? 0 then (rescued, q)
      else let '(rest, q) := rescue_over_slots scan slots remaining q in (rescued ++ rest, q)
  end.
Definition rescue_stale_receipt_claims_tx (lockable : ClaimBatch * ClaimItem -> bool) (env : StoreEnv) (cutoff : time)
    (q : QStore) : list DeletedLeaseRow * QStore :=
  rescue_over_slots (fun slot => rescue_stale_receipt_claims_for_slot_tx lockable RECEIPT_RESCUE_CURSOR_SCAN_LIMIT slot cutoff)
    (rescue_slots env) RECEIPT_RESCUE_BATCH_LIMIT q.

(** Deadlines: whole batches, in the order of their deadline. *)
Definition batch_key (b : ClaimBatch) : time * Z := (default 0 (cb_deadline_at b), cb_batch_id b).
Definition key2_lt (a b : time * Z) : bool := (fst a <? fst b) || ((fst a =? fst b) && (snd a <? snd b)).
Definition batch_le (a b : ClaimBatch) : Prop := key2_lt (batch_key b) (batch_key a) = false.
#[global] Instance batch_le_dec : RelDecision batch_le := fun a b => bool_eq_dec _ _.
Definition receipt_le (a b : ClaimBatch * ClaimItem) : Prop := ci_receipt_id (snd a) <= ci_receipt_id (snd b).
#[global] Instance receipt_le_dec : RelDecision receipt_le := fun a b => Z_le_dec _ _.
Definition members (b : ClaimBatch) : list (ClaimBatch * ClaimItem) := merge_sort receipt_le (map (fun i => (b, i)) (cb_items b)).
Definition expired_batches (env : StoreEnv) (q : QStore) (slot : Z) : list ClaimBatch :=
  merge_sort batch_le
    (List.filter (fun b => (cb_claim_slot b =? slot)
                           && match cb_deadline_at b with Some d => d <? sv_now env | None => false end)
       (claim_batches (tables (lanes q)))).
Definition after_deadline_cursor (q : QStore) (slot : Z) (b : ClaimBatch) : bool :=
  match deadline_cursors q !! slot with Some k => key2_lt k (batch_key b) | None => true end.

Definition rescue_expired_batch_deadlines_for_slot_tx (lockable : ClaimBatch * ClaimItem -> bool) (scan_limit : nat)
    (env : StoreEnv) (slot rescue_limit : Z) (q : QStore) : list DeletedLeaseRow * QStore :=
  if rescue_limit <=? 0 then ([], q)
  else
    let batches := scan_window (after_deadline_cursor q slot) scan_limit (expired_batches env q slot) in
    let expired := List.filter (open_receipt q) (concat (map members batches)) in
    let expired_locked := List.filter lockable (take (Z.to_nat rescue_limit) expired) in
    let closed_now x := existsb (fun y => bool_decide (attempt_of y = attempt_of x)) expired_locked in
    let q' := close_receipts "deadline_expired" expired_locked q in
    (map receipt_row expired_locked,
     match advance_target (fun b => forallb (fun x => negb (open_receipt q x) || closed_now x) (members b)) batches with
     | Some b => set_deadline_cursors (<[slot := batch_key b]> (deadline_cursors q')) q'
     | None => q'
     end).
Definition rescue_expired_receipt_deadlines_tx (lockable : ClaimBatch * ClaimItem -> bool) (env : StoreEnv) (q : QStore)
    : list DeletedLeaseRow * QStore :=
  rescue_over_slots (fun slot => rescue_expired_batch_deadlines_for_slot_tx lockable RECEIPT_RESCUE_CURSOR_SCAN_LIMIT env slot)
    (rescue_slots env) RECEIPT_RESCUE_BATCH_LIMIT q.

(** * The three rescues *)

(** At most 500 leases, oldest first, those locked elsewhere skipped. *)
Definition LEASE_RESCUE_LIMIT : nat := 500.
Definition age_le (age : LeaseRow -> option time) (a b : LeaseRow) : Prop := default 0 (age a) <= default 0 (age b).
#[global] Instance age_le_dec age : RelDecision (age_le age) := fun a b => Z_le_dec _ _.
Definition oldest_leases (age : LeaseRow -> option time) (bound : time) (lockable : LeaseRow -> bool) (ls : list LeaseRow)
    : list LeaseRow :=
  take LEASE_RESCUE_LIMIT
    (merge_sort (age_le age)
       (List.filter (fun l => match age l with Some t => t <? bound | None => false end && lockable l) ls)).
Definition lease_heartbeat (q : QStore) (l : LeaseRow) : option time :=
  coalesce (attempt_state q !! lease_attempt l ≫= at_heartbeat_at) (ls_heartbeat_at l).
Definition in_state (st : JobState) (l : LeaseRow) : bool := bool_decide (dl_state (ls_row l) = st).

Definition rescue_stale_heartbeats (lease_lockable : LeaseRow -> bool) (lockable : ClaimBatch * ClaimItem -> bool)
    (env : StoreEnv) (staleness : Z) (dlq_enabled : string -> bool) (q : QStore) : result AwaError (list JobRow * QStore) :=
  let? staleness := from_std "invalid staleness" staleness in
  let cutoff := sv_now env - staleness in
  let targets := map lease_attempt
                   (oldest_leases (lease_heartbeat q) cutoff lease_lockable (List.filter (in_state Running) (leases q))) in
  let '(deleted, q) := delete_leases (fun l => bool_decide (lease_attempt l ∈ targets)) q in
  let '(rescued_receipts, q) := rescue_stale_receipt_claims_tx lockable env cutoff q in
  let? (moved_leases, q) := hydrate_deleted_leases_tx deleted true q in
  let? (moved_receipts, q) := hydrate_deleted_leases_tx rescued_receipts true q in
  let? (a, q) := settle_rescued env "heartbeat stale: worker presumed dead" "heartbeat_stale" dlq_enabled moved_leases q in
  let? (b, q) := settle_rescued env "receipt claim stale: worker presumed dead" "heartbeat_stale" dlq_enabled moved_receipts q in
  Ok (a ++ b, q).

(** The deadline and callback rescues delete by job id. *)
Definition delete_leases_of_jobs (targets : list LeaseRow) (q : QStore) : list DeletedLeaseRow * QStore :=
  delete_leases (fun l => bool_decide (dl_job_id (ls_row l) ∈ map (fun l => dl_job_id (ls_row l)) targets)) q.
Definition rescue_expired_deadlines (lease_lockable : LeaseRow -> bool) (lockable : ClaimBatch * ClaimItem -> bool)
    (env : StoreEnv) (dlq_enabled : string -> bool) (q : QStore) : result AwaError (list JobRow * QStore) :=
  let '(deleted, q) := delete_leases_of_jobs
                         (oldest_leases ls_deadline_at (sv_now env) lease_lockable (List.filter (in_state Running) (leases q))) q in
  let '(receipt_deleted, q) := rescue_expired_receipt_deadlines_tx lockable env q in
  let? (moved, q) := hydrate_deleted_leases_tx deleted true q in
  let? (moved', q) := hydrate_deleted_leases_tx receipt_deleted true q in
  settle_rescued env "hard deadline exceeded" "deadline_exceeded" dlq_enabled (moved ++ moved') q.
(** What a pass takes, the leases it deletes and the receipts it closes; and
    whether it takes an attempt both ways. *)
Abbreviation pass := (list DeletedLeaseRow * list DeletedLeaseRow)%type.
Definition heartbeat_pass (lease_lockable : LeaseRow -> bool) (lockable : ClaimBatch * ClaimItem -> bool) (env : StoreEnv)
    (staleness : Z) (q : QStore) : pass :=
  let cutoff := sv_now env - staleness in
  let targets := map lease_attempt
                   (oldest_leases (lease_heartbeat q) cutoff lease_lockable (List.filter (in_state Running) (leases q))) in
  let '(deleted, q) := delete_leases (fun l => bool_decide (lease_attempt l ∈ targets)) q in
  (deleted, fst (rescue_stale_receipt_claims_tx lockable env cutoff q)).
Definition deadline_pass (lease_lockable : LeaseRow -> bool) (lockable : ClaimBatch * ClaimItem -> bool) (env : StoreEnv)
    (q : QStore) : pass :=
  let '(deleted, q) := delete_leases_of_jobs
                         (oldest_leases ls_deadline_at (sv_now env) lease_lockable (List.filter (in_state Running) (leases q))) q in
  (deleted, fst (rescue_expired_receipt_deadlines_tx lockable env q)).
Definition takes_twice (p : pass) : bool :=
  existsb (fun d => bool_decide (dl_attempt_of d ∈ map dl_attempt_of (snd p))) (fst p).
Definition rescue_expired_callbacks (lease_lockable : LeaseRow -> bool) (env : StoreEnv) (dlq_enabled : string -> bool)
    (q : QStore) : result AwaError (list JobRow * QStore) :=
  let '(deleted, q) := delete_leases_of_jobs
                         (oldest_leases ls_callback_timeout_at (sv_now env) lease_lockable
                            (List.filter (in_state WaitingExternal) (leases q))) q in
  let? (moved, q) := hydrate_deleted_leases_tx deleted true q in
  settle_rescued env "callback timed out" "callback_timeout" dlq_enabled moved q.
