(* ===== verification/Completion.v ===== *)
(** Completion in queue storage (awa-model/src/queue_storage.rs): the compact
    path, which appends receipts to two ledgers and writes no row per job, and
    the path that writes [done_entries], for receipts and for leases. *)

From stdpp Require Import pretty.
From S2P Require Import Prelude.
From S2P Require Import Error.
From S2P Require Import Json.
From S2P Require Import Job.
From S2P Require Import Ring.
From S2P Require Import Rows.
From S2P Require Import Lanes.
From S2P Require Import QueueStore.
From S2P Require Import Attempts.
From S2P Require Import Callbacks.

(** What the worker remembers of a claim. *)
Definition cj_attempt (e : ClaimedRuntimeJob) : Z * Z := (j_id (cj_job e), j_run_lease (cj_job e)).
(** The receipt its batch identity points at, when job, lease and receipt
    agree. *)
Definition receipt_ref (q : QStore) (e : ClaimedRuntimeJob) : option (ClaimBatch * ClaimItem) :=
  let c := cj_claim e in
  match ce_claim_batch_id c, ce_claim_batch_index c, ce_receipt_id c with
  | Some batch_id, Some index, Some receipt_id =>
      List.find (fun b => (cb_claim_slot b =? ce_claim_slot c) && (cb_batch_id b =? batch_id))
        (claim_batches (tables (lanes q)))
      ≫= fun b => (if 1 <=? index then cb_items b !! Z.to_nat (index - 1) else None)
      ≫= fun i => if bool_decide ((ci_job_id i, ci_run_lease i) = cj_attempt e) && (ci_receipt_id i =? receipt_id)
                  then Some (b, i) else None
  | _, _, _ => None
  end.

(** * The compact path *)

Definition receipt_fast_complete_candidate (e : ClaimedRuntimeJob) : bool :=
  ce_lease_claim_receipt (cj_claim e)
  && match ce_receipt_id (cj_claim e) with Some _ => true | None => false end
  && match j_unique_key (cj_job e) with None => true | Some _ => false end
  && is_compact_receipt_completion_metadata (j_metadata (cj_job e))
  && match j_tags (cj_job e) with [] => true | _ => false end
  && match j_errors (cj_job e) with None | Some [] => true | _ => false end.

Definition completion_of (env : StoreEnv) (e : ClaimedRuntimeJob) : Completion :=
  let c := cj_claim e in let j := cj_job e in
  mkCompletion (ce_pos c) (ce_claim_slot c) (j_queue j) (ce_priority c) (j_id j) (j_run_lease j) (j_attempt j)
    (j_attempted_at j) (sv_now env) (j_output j).
(** The closure it appends names the slot the worker remembers. *)
Definition completed_closure (e : ClaimedRuntimeJob) : list Closure :=
  match ce_receipt_id (cj_claim e) with
  | Some receipt_id =>
      [mkClosure (ce_claim_slot (cj_claim e))
         (ready_slot (ce_pos (cj_claim e)), ready_generation (ce_pos (cj_claim e))) "completed" receipt_id]
  | None => []
  end.
(** Its evidence: no closure and no lease; outcome rows are not probed. *)
Definition fast_completable (q : QStore) (e : ClaimedRuntimeJob) : bool :=
  match receipt_ref q e with
  | Some x => negb (closed_receipt q (cb_claim_slot (fst x)) (ci_receipt_id (snd x))) && negb (has_lease q (attempt_of x))
  | None => false
  end.
(** Outputs split a partition into several rows of the same transaction. *)
Definition complete_receipt_runtime_batch_fast (env : StoreEnv) (claimed : list ClaimedRuntimeJob) (q : QStore)
    : result AwaError (list (Z * Z) * QStore) :=
  let '(_, _, claim_slot_count) := sv_claim_ring env in
  let? _ := all_ok (fun e => ring_slot_index (ce_claim_slot (cj_claim e)) claim_slot_count "claim") claimed in
  let completed := List.filter (fast_completable q) claimed in
  Ok (map cj_attempt completed,
      q |> set_attempts (foldr (fun e m => delete (cj_attempt e) m) (attempt_state q) completed)
        |> set_closures (closures q ++ concat (map completed_closure completed))
        |> set_completions (completions q ++ map (completion_of env) completed)).

(** * The path through [done_entries] *)

(** [claimed_map.get]: of several entries of an attempt the last. *)
Definition remembered (claimed : list ClaimedRuntimeJob) (a : Z * Z) : option ClaimedRuntimeJob :=
  List.find (fun e => bool_decide (cj_attempt e = a)) (rev claimed).
Definition done_rows_for (env : StoreEnv) (claimed : list ClaimedRuntimeJob) (attempts : list (Z * Z)) : list DoneJobRow :=
  omap (fun a => claimed_into_done_row (sv_now env) <$> remembered claimed a) attempts.

Definition slow_completable (q : QStore) (e : ClaimedRuntimeJob) : option (ClaimBatch * ClaimItem) :=
  match receipt_ref q e with
  | Some x => if open_receipt q x then Some x else None
  | None => None
  end.
Definition RECEIPT_ID_REQUIRED : AwaError := Validation "receipt-backed slow completion requires receipt_id".
(** The receipts; the missing id is the [expect]. *)
Definition complete_receipts (env : StoreEnv) (claimed receipt_claimed : list ClaimedRuntimeJob) (q : QStore)
    : result AwaError (list (Z * Z) * QStore) :=
  if existsb (fun e => match ce_receipt_id (cj_claim e) with None => true | Some _ => false end) receipt_claimed
  then Err RECEIPT_ID_REQUIRED
  else
    let locked := omap (slow_completable q) receipt_claimed in
    let updated := map attempt_of locked in
    let q := set_attempts (foldr (fun a m => delete a m) (attempt_state q) updated) q in
    let q := close_receipts "completed" locked q in
    let? q := insert_done_rows_tx env (done_rows_for env claimed updated) (Some Running) q in
    Ok (updated, q).

(** The leases, by the lane and the attempt the worker remembers. *)
Definition lease_matches (e : ClaimedRuntimeJob) (l : LeaseRow) : bool :=
  bool_decide (dl_pos (ls_row l) = ce_pos (cj_claim e))
  && bool_decide (lease_attempt l = cj_attempt e)
  && String.eqb (dl_queue (ls_row l)) (ce_queue (cj_claim e))
  && (dl_priority (ls_row l) =? ce_priority (cj_claim e)).
Definition complete_leases (env : StoreEnv) (claimed materialized_claimed : list ClaimedRuntimeJob) (q : QStore)
    : result AwaError (list (Z * Z) * QStore) :=
  let '(deleted, q) := delete_leases (fun l => existsb (fun e => lease_matches e l) materialized_claimed) q in
  let attempts := map dl_attempt_of deleted in
  let q := set_attempts (foldr (fun a m => delete a m) (attempt_state q) attempts) q in
  let q := close_receipt_pairs_tx attempts "completed" q in
  let? q := insert_done_rows_tx env (done_rows_for env claimed attempts) (Some Running) q in
  Ok (List.filter (fun a => match remembered claimed a with Some _ => true | None => false end) attempts, q).

Definition complete_runtime_batch_slow (env : StoreEnv) (claimed : list ClaimedRuntimeJob) (q : QStore)
    : result AwaError (list (Z * Z) * QStore) :=
  let receipt_claimed := List.filter (fun e => ce_lease_claim_receipt (cj_claim e)) claimed in
  let materialized := List.filter (fun e => negb (ce_lease_claim_receipt (cj_claim e))) claimed in
  let? (updated, q) := complete_receipts env claimed receipt_claimed q in
  let escalated := List.filter (fun e => negb (bool_decide (cj_attempt e ∈ updated))) receipt_claimed in
  let? (updated', q) := complete_leases env claimed (materialized ++ escalated) q in
  Ok (updated ++ updated', q).

(** [complete_runtime_batch]: up to two transactions. *)
Definition complete_runtime_batch (env : StoreEnv) (claimed : list ClaimedRuntimeJob) (q : QStore)
    : result AwaError (list (Z * Z)) * QStore :=
  let slow entries q :=
    match complete_runtime_batch_slow env entries q with
    | Ok (updated, q) => (Ok updated, q)
    | Err e => (Err e, q)
    end in
  match claimed with
  | [] => (Ok [], q)
  | _ =>
      if forallb receipt_fast_complete_candidate claimed then
        match complete_receipt_runtime_batch_fast env claimed q with
        | Err e => (Err e, q)
        | Ok (updated, q) =>
            let missed := List.filter (fun e => negb (bool_decide (cj_attempt e ∈ updated))) claimed in
            match missed with
            | [] => (Ok updated, q)
            | _ => match slow missed q with
                   | (Ok more, q) => (Ok (updated ++ more), q)
                   | (Err e, q) => (Err e, q)
                   end
            end
        end
      else slow claimed q
  end.

(** * By id *)

Fixpoint completed_rows (env : StoreEnv) (rows : list LeaseTransitionRow) : result AwaError (list DoneJobRow) :=
  match rows with
  | [] => Ok []
  | row :: rows =>
      let? payload := payload_with_attempt_state (c_payload (lt_columns row)) (lt_progress row) in
      let? payload := from_json payload in
      let? rest := completed_rows env rows in
      Ok (lease_into_done_row Completed (sv_now env) (into_json (Json.set_progress None payload)) row :: rest)
  end.
(** The leases of a target completed from what their ready rows hold. *)
Definition complete_deleted_leases (env : StoreEnv) (target : LeaseRow -> bool) (q : QStore)
    : result AwaError (list (Z * Z) * QStore) :=
  let '(deleted, q) := delete_leases target q in
  let q := close_receipt_pairs_tx (map dl_attempt_of deleted) "completed" q in
  let? (moved, q) := hydrate_deleted_leases_tx deleted true q in
  let? rows := completed_rows env moved in
  let? q := insert_done_rows_tx env rows (Some Running) q in
  Ok (map (fun r => (c_job_id (lt_columns r), c_run_lease (lt_columns r))) moved, q).
(** [complete_job_batch_by_id_in_tx]: leases only. *)
Definition complete_job_batch_by_id (env : StoreEnv) (pairs : list (Z * Z)) : QStore -> result AwaError (list (Z * Z) * QStore) :=
  complete_deleted_leases env (fun l => bool_decide (lease_attempt l ∈ pairs)).
(** By the lease's own key, whatever attempt holds it. *)
Definition claimed_lease (c : ClaimedEntry) (l : LeaseRow) : bool :=
  let pos := dl_pos (ls_row l) in
  (ls_lease_slot l =? ce_lease_slot c) && String.eqb (dl_queue (ls_row l)) (ce_queue c)
  && (dl_priority (ls_row l) =? ce_priority c) && (enqueue_shard pos =? enqueue_shard (ce_pos c))
  && (lane_seq pos =? lane_seq (ce_pos c)).
Definition complete_claimed_batch (env : StoreEnv) (claimed : list ClaimedEntry) : QStore -> result AwaError (list (Z * Z) * QStore) :=
  complete_deleted_leases env (fun l => existsb (fun c => claimed_lease c l) claimed).
