(* ===== verification/StoreAdmin.v ===== *)
(** The rows of queue storage at rest: promotion of deferred jobs, retry and
    cancel by id, moves of scheduled jobs, and the dead-letter queue
    (awa-model/src/queue_storage.rs). *)

From S2P Require Import Prelude.
From S2P Require Import Error.
From S2P Require Import Json.
From S2P Require Import Job.
From S2P Require Import Rows.
From S2P Require Import Lanes.
From S2P Require Import QueueStore.
From S2P Require Import Attempts.
From S2P Require Import Callbacks.

(** * Promotion *)

Definition due_le (a b : DeferredJobRow) : Prop :=
  let ca := df_columns a in let cb := df_columns b in
  c_run_at ca < c_run_at cb
  \/ c_run_at ca = c_run_at cb
     /\ (c_priority ca < c_priority cb \/ c_priority ca = c_priority cb /\ c_job_id ca <= c_job_id cb).
#[global] Instance due_le_dec : RelDecision due_le.
Proof. intros a b. unfold due_le. solve_decision. Defined.
(** The due rows, those locked elsewhere skipped. *)
Definition due_rows (env : StoreEnv) (lockable : Z -> bool) (state : JobState) (batch_size : Z) (q : QStore)
    : list DeferredJobRow :=
  take (Z.to_nat batch_size)
    (merge_sort due_le
       (List.filter (fun r => bool_decide (df_state r = state) && (c_run_at (df_columns r) <=? sv_now env)
                              && negb (paused (lanes q) (c_queue (df_columns r))) && lockable (c_job_id (df_columns r)))
          (map snd (map_to_list (deferred_jobs q))))).
Definition delete_deferred (ids : list Z) (q : QStore) : QStore :=
  set_deferred (foldr (fun id m => delete id m) (deferred_jobs q) ids) q.
Definition promote_due (env : StoreEnv) (lockable : Z -> bool) (state : JobState) (batch_size : Z) (q : QStore)
    : result AwaError (nat * QStore) :=
  if negb (bool_decide (state = Scheduled \/ state = Retryable)) || (batch_size <=? 0) then Ok (0%nat, q)
  else
    let moved := due_rows env lockable state batch_size q in
    let q := delete_deferred (map (fun r => c_job_id (df_columns r)) moved) q in
    let? q := insert_existing_ready_rows_tx env (map (fun r => with_run_at (sv_now env) (df_columns r)) moved) (Some state) q in
    Ok (length moved, q).

(** * Retry *)

(** The terminal rows of a job in some states, the latest first; the statements
    delete the rows that share its finalization time. *)
Definition finalized_ge (a b : DoneKey * DoneEntry) : Prop := de_finalized_at (snd b) <= de_finalized_at (snd a).
#[global] Instance finalized_ge_dec : RelDecision finalized_ge := fun a b => Z_le_dec _ _.
Definition latest_done (states : list JobState) (job_id : Z) (q : QStore) : option (DoneKey * DoneEntry) :=
  head (merge_sort finalized_ge
          (List.filter (fun kd => (de_job_id (snd kd) =? job_id) && bool_decide (de_state (snd kd) ∈ states))
             (map_to_list (done_entries q)))).
Definition delete_done (target : DoneKey * DoneEntry -> bool) (q : QStore) : list DoneJobRow * QStore :=
  let deleted := List.filter target (map_to_list (done_entries q)) in
  (map (fun kd => done_row q (fst kd) (snd kd)) deleted,
   set_done (foldr (fun kd m => delete (fst kd) m) (done_entries q) deleted) q).
Definition take_latest_done (states : list JobState) (job_id : Z) (q : QStore) : option DoneJobRow * QStore :=
  match latest_done states job_id q with
  | None => (None, q)
  | Some (_, d) =>
      let '(rows, q) := delete_done (fun kd => (de_job_id (snd kd) =? job_id)
                                               && (de_finalized_at (snd kd) =? de_finalized_at d)) q in
      (head rows, q)
  end.

(** The row a retry puts back: no attempts used. *)
Definition revived (env : StoreEnv) (c : Columns) : ExistingReadyRow := with_run_at (sv_now env) (with_attempt 0 None c).
Definition retry_job_tx (env : StoreEnv) (job_id : Z) (q : QStore) : result AwaError (option JobRow * QStore) :=
  match delete_leases (fun l => (dl_job_id (ls_row l) =? job_id) && bool_decide (dl_state (ls_row l) = WaitingExternal)) q with
  | ((_ :: _) as deleted, q) =>
      let? (moved, q) := hydrate_deleted_leases_tx deleted true q in
      match moved with
      | [] => Ok (None, q)
      | waiting :: _ =>
          let? payload := payload_with_attempt_state (c_payload (lt_columns waiting)) (lt_progress waiting) in
          let ready_row := revived env (lease_into_ready_row (sv_now env) payload waiting) in
          let? q := insert_existing_ready_rows_tx env [ready_row] (Some (lt_state waiting)) q in
          let? row := ready_into_job_row ready_row in
          Ok (Some row, q)
      end
  | ([], _) =>
      match take_latest_done [Failed; Cancelled] job_id q with
      | (Some terminal, q) =>
          let q := decrement_live_terminal_counters_tx env [terminal] q in
          let ready_row := revived env (dn_columns terminal) in
          let? q := insert_existing_ready_rows_tx env [ready_row] (Some (dn_state terminal)) q in
          let? row := ready_into_job_row ready_row in
          Ok (Some row, q)
      | (None, _) => Ok (None, q)
      end
  end.

(** * Cancel *)

Definition cancel_materialized_lease_tx (env : StoreEnv) (job_id : Z) (run_lease : option Z) (q : QStore)
    : result AwaError (option JobRow * QStore) :=
  match delete_leases (fun l => (dl_job_id (ls_row l) =? job_id) && live_lease l
                                && match run_lease with Some n => dl_run_lease (ls_row l) =? n | None => true end) q with
  | ([], q) => Ok (None, q)
  | (deleted, q) =>
      let? (moved, q) := hydrate_deleted_leases_tx deleted true q in
      match moved with
      | [] => Ok (None, q)
      | lease :: _ =>
          let? payload := payload_with_attempt_state (c_payload (lt_columns lease)) (lt_progress lease) in
          let done := lease_into_done_row Cancelled (sv_now env) payload lease in
          let? q := insert_done_rows_tx env [done] (Some (lt_state lease)) q in
          let q := close_receipt_pairs_tx [(c_job_id (lt_columns lease), c_run_lease (lt_columns lease))] "cancelled" q in
          let? row := done_into_job_row done in
          Ok (Some row, q)
      end
  end.

(** [try_cancel_running_attempt_tx] when nobody else holds the attempt, so that
    none of its steps finds it busy or changed. *)
Inductive RunningAttemptCancel : Type :=
  | AttemptCancelled (row : JobRow)
  | AttemptLeft
  | NotRunning.
Definition item_ge (a b : ClaimBatch * ClaimItem) : Prop := ci_run_lease (snd b) <= ci_run_lease (snd a).
#[global] Instance item_ge_dec : RelDecision item_ge := fun a b => Z_le_dec _ _.
Definition open_receipt_of (job_id : Z) (q : QStore) : option (ClaimBatch * ClaimItem) :=
  head (merge_sort item_ge (List.filter (fun x => (ci_job_id (snd x) =? job_id) && open_receipt q x) (receipts q))).
(** The ready row it reads back: by job, slot, queue and number. *)
Definition ready_of_receipt (q : QStore) (x : ClaimBatch * ClaimItem) : option ReadyEntry :=
  List.find (fun r => (c_job_id (rt_columns r) =? ci_job_id (snd x)) && bool_decide (ring_of r = cb_ring (fst x))
                      && String.eqb (c_queue (rt_columns r)) (cb_queue (fst x)) && (seq_of r =? ci_lane_seq (snd x)))
    (ready_rows q).
Definition cancelled_receipt_row (env : StoreEnv) (x : ClaimBatch * ClaimItem) (r : ReadyEntry) : DoneJobRow :=
  let '(b, i) := x in let c := rt_columns r in
  mkDone (mkPosition (fst (cb_ring b)) (snd (cb_ring b)) (ci_lane_seq i) (enqueue_shard (rt_pos r)))
    (mkColumns (ci_job_id i) (c_kind c) (cb_queue b) (c_args c) (cb_priority b) (ci_attempt i) (ci_run_lease i)
       (ci_max_attempts i) (c_run_at c) (Some (cb_claimed_at b)) (c_created_at c) (c_unique_key c) (c_unique_states c)
       (c_payload c))
    Cancelled (sv_now env) None.
Definition try_cancel_running_attempt_tx (env : StoreEnv) (job_id : Z) (q : QStore)
    : result AwaError (RunningAttemptCancel * QStore) :=
  match merge_sort lease_ge (List.filter (fun l => (dl_job_id (ls_row l) =? job_id) && live_lease l) (leases q)) with
  | l :: _ =>
      let? (row, q) := cancel_materialized_lease_tx env job_id (Some (dl_run_lease (ls_row l))) q in
      Ok (match row with Some row => AttemptCancelled row | None => AttemptLeft end, q)
  | [] =>
      match open_receipt_of job_id q with
      | None => Ok (NotRunning, q)
      | Some x =>
          match ready_of_receipt q x with
          | None => Ok (AttemptLeft, q)
          | Some r =>
              let done := cancelled_receipt_row env x r in
              let? q := insert_done_rows_tx env [done] (Some Running) q in
              let q := close_receipts "cancelled" [x] q in
              let? row := done_into_job_row done in
              Ok (AttemptCancelled row, q)
          end
      end
  end.

(** The terminal row of a deferred job, numbered by its id from below. *)
Definition deferred_done_row (env : StoreEnv) (ring : RingCursor) (r : DeferredJobRow) : DoneJobRow :=
  mkDone (mkPosition (fst ring) (snd ring) (- c_job_id (df_columns r)) 0) (df_columns r) Cancelled (sv_now env) None.
Definition ensure_lane_tx (lane : LaneKey) (q : QStore) : QStore := set_lanes (ensure_lane lane (lanes q)) q.
Definition cancel_deferred (env : StoreEnv) (job_id : Z) (q : QStore) : result AwaError (option JobRow * QStore) :=
  match deferred_jobs q !! job_id with
  | None => Ok (None, q)
  | Some r =>
      let q := delete_deferred [job_id] q in
      let done := deferred_done_row env (queue_ring (lanes q)) r in
      let q := ensure_lane_tx (c_queue (df_columns r), c_priority (df_columns r), 0) q in
      let? q := insert_done_rows_tx env [done] (Some (df_state r)) q in
      let? row := done_into_job_row done in
      Ok (Some row, q)
  end.

(** [cancel_job] with its advance of the claim cursor after the commit. *)
Definition cancel_job (env : StoreEnv) (job_id : Z) (q : QStore) : result AwaError (option JobRow * QStore) :=
  match cancel_ready_tx (sv_now env) job_id (lanes q) with
  | Some (t, done, advance) =>
      let q := set_lanes (set_tables (tables_app (tables (lanes q)) t) (lanes q)) q in
      let? q := insert_done_rows_tx env [done] (Some Available) q in
      let? row := done_into_job_row done in
      Ok (Some row, set_lanes (advance_claim_cursors_strict [advance] (lanes q)) q)
  | None =>
      let? (outcome, q) := try_cancel_running_attempt_tx env job_id q in
      match outcome with
      | AttemptCancelled row => Ok (Some row, q)
      | AttemptLeft => Ok (None, q)
      | NotRunning => cancel_deferred env job_id q
      end
  end.

(** * Moves *)

(** [update_deferred_batch_fields_tx]: scheduled jobs only. *)
Definition update_deferred_batch_fields_tx (logical stripe : string -> string) (job_id : Z) (queue : option string)
    (priority : option Z) (q : QStore) : result AwaError (bool * QStore) :=
  match deferred_jobs q !! job_id with
  | Some r =>
      if negb (bool_decide (df_state r = Scheduled)) then Ok (false, q)
      else
        let c := df_columns r in
        let requested := default (c_queue c) queue in
        let new_queue := if (match queue with Some _ => true | None => false end)
                            && negb (String.eqb requested (c_queue c)) && negb (String.eqb requested (logical (c_queue c)))
                         then stripe requested else c_queue c in
        let new_priority := default (c_priority c) priority in
        if String.eqb new_queue (c_queue c) && (new_priority =? c_priority c) then Ok (false, q)
        else
          let? payload := from_json (c_payload c) in
          let? payload := stamp_original queue priority (logical (c_queue c)) (c_priority c) payload in
          let c := stored (with_payload (into_json payload) (with_route new_queue new_priority c)) in
          Ok (true, set_deferred (<[job_id := mkDeferred c (df_state r) (df_finalized_at r)]> (deferred_jobs q)) q)
  | None => Ok (false, q)
  end.

(** * The dead-letter queue *)

Definition move_failed_to_dlq (env : StoreEnv) (job_id : Z) (reason : string) (q : QStore)
    : result AwaError (option JobRow * QStore) :=
  match take_latest_done [Failed] job_id q with
  | (None, _) => Ok (None, q)
  | (Some moved, q) =>
      let q := decrement_live_terminal_counters_tx env [moved] q in
      let dlq_row := done_into_dlq_row reason (sv_now env) moved in
      let? q := insert_dlq_rows_tx [dlq_row] (Some (dn_state moved)) q in
      let? row := dlq_into_job_row dlq_row in
      Ok (Some row, q)
  end.

Definition matches_opt (filter : option string) (v : string) : bool :=
  match filter with Some f => String.eqb f v | None => true end.
Definition bulk_move_failed_to_dlq (env : StoreEnv) (kind queue : option string) (reason : string) (q : QStore)
    : result AwaError (nat * QStore) :=
  let '(moved, q) := delete_done (fun kd => bool_decide (de_state (snd kd) = Failed) && matches_opt kind (de_kind (snd kd))
                                            && matches_opt queue (snd (fst (fst (fst (fst kd)))))) q in
  let q := decrement_live_terminal_counters_tx env moved q in
  let? q := insert_dlq_rows_tx (map (done_into_dlq_row reason (sv_now env)) moved) (Some Failed) q in
  Ok (length moved, q).

Record RetryFromDlqOpts : Type := mkRetryOpts { ro_run_at : option time; ro_priority : option Z; ro_queue : option string }.
Definition delete_dlq (ids : list Z) (q : QStore) : QStore := set_dlq (foldr (fun id m => delete id m) (dlq_entries q) ids) q.
Definition without_progress (payload : json) : result AwaError json := with_progress payload None.
Definition retry_from_dlq (env : StoreEnv) (job_id : Z) (opts : RetryFromDlqOpts) (q : QStore)
    : result AwaError (option JobRow * QStore) :=
  match dlq_entries q !! job_id with
  | None => Ok (None, q)
  | Some moved =>
      let q := delete_dlq [job_id] q in
      let queue := default (c_queue (dq_columns moved)) (ro_queue opts) in
      let priority := default (c_priority (dq_columns moved)) (ro_priority opts) in
      let? payload := without_progress (c_payload (dq_columns moved)) in
      match ro_run_at opts with
      | Some run_at =>
          if sv_now env <? run_at then
            let deferred := into_retry_deferred_row queue priority run_at payload moved in
            let? q := insert_deferred_rows_tx [deferred] (Some Failed) q in
            let? row := deferred_into_job_row deferred in
            Ok (Some row, q)
          else
            let ready := into_retry_ready_row queue priority (sv_now env) payload moved in
            let? q := insert_existing_ready_rows_tx env [ready] (Some Failed) q in
            let? row := ready_into_job_row ready in
            Ok (Some row, q)
      | None =>
          let ready := into_retry_ready_row queue priority (sv_now env) payload moved in
          let? q := insert_existing_ready_rows_tx env [ready] (Some Failed) q in
          let? row := ready_into_job_row ready in
          Ok (Some row, q)
      end
  end.

(** [bulk_retry_from_dlq]. *)
Record ListDlqFilter : Type := mkDlqFilter {
  lf_kind : option string;
  lf_queue : option string;
  lf_tag : option string;
  lf_before_id : option Z;
  lf_before_dlq_at : option time
}.
Definition before_cursor (f : ListDlqFilter) (r : DlqJobRow) : bool :=
  let id := c_job_id (dq_columns r) in
  match lf_before_id f, lf_before_dlq_at f with
  | None, None => true
  | Some n, None => id <? n
  | None, Some t => dlq_at r <? t
  | Some n, Some t => (dlq_at r <? t) || ((dlq_at r =? t) && (id <? n))
  end.
(** [payload -> 'tags' ? tag]. *)
Definition has_tag (tag : option string) (payload : json) : bool :=
  match tag with
  | None => true
  | Some tag =>
      match get "tags" payload with
      | Some (JArray l) => existsb (fun v => match v with JString s => String.eqb s tag | _ => false end) l
      | Some (JObject m) => map_contains_key tag m
      | Some (JString s) => String.eqb s tag
      | _ => false
      end
  end.
Definition dlq_matches (f : ListDlqFilter) (r : DlqJobRow) : bool :=
  matches_opt (lf_kind f) (c_kind (dq_columns r)) && matches_opt (lf_queue f) (c_queue (dq_columns r))
  && has_tag (lf_tag f) (c_payload (dq_columns r)) && before_cursor f r.
Definition revive_dlq_row (env : StoreEnv) (r : DlqJobRow) : result AwaError ExistingReadyRow :=
  let? payload := without_progress (c_payload (dq_columns r)) in
  Ok (into_retry_ready_row (c_queue (dq_columns r)) (c_priority (dq_columns r)) (sv_now env) payload r).
Definition bulk_retry_from_dlq (env : StoreEnv) (f : ListDlqFilter) (q : QStore) : result AwaError (nat * QStore) :=
  let moved := List.filter (dlq_matches f) (map snd (map_to_list (dlq_entries q))) in
  let q := delete_dlq (map (fun r => c_job_id (dq_columns r)) moved) q in
  let? rows := all_ok (revive_dlq_row env) moved in
  let? q := insert_existing_ready_rows_tx env rows (Some Failed) q in
  Ok (length moved, q).

(** [discard_failed_by_kind]: terminal and dead-letter rows leave, and with them
    the keys they hold. *)
Fixpoint release_each (rows : list (Columns * JobState)) (m : gmap (list Z) Z) : result AwaError (gmap (list Z) Z) :=
  match rows with
  | [] => Ok m
  | (c, st) :: rows => let? m := sync_unique_claim c (Some st) None m in release_each rows m
  end.
Definition discard_failed_by_kind (env : StoreEnv) (kind : string) (q : QStore) : result AwaError (nat * QStore) :=
  let '(deleted_done, q) := delete_done (fun kd => String.eqb (de_kind (snd kd)) kind && bool_decide (de_state (snd kd) = Failed)) q in
  let deleted_dlq := List.filter (fun r => String.eqb (c_kind (dq_columns r)) kind) (map snd (map_to_list (dlq_entries q))) in
  let q := delete_dlq (map (fun r => c_job_id (dq_columns r)) deleted_dlq) q in
  let q := decrement_live_terminal_counters_tx env deleted_done q in
  let? m := release_each (merge_sort unique_order (map (fun r => (dn_columns r, dn_state r)) deleted_done
                                                   ++ map (fun r => (dq_columns r, dq_state r)) deleted_dlq)) (claims q) in
  Ok ((length deleted_done + length deleted_dlq)%nat, set_unique m q).
