(* ===== verification/QueueOps.v ===== *)
(** Queue storage as its callers see it: enqueue, claim, moves of ready jobs,
    and the prunes that reclaim a slot (awa-model/src/queue_storage.rs). *)

From S2P Require Import Prelude.
From S2P Require Import Error.
From S2P Require Import Json.
From S2P Require Import Job.
From S2P Require Import Ring.
From S2P Require Import Routing.
From S2P Require Import Rows.
From S2P Require Import Lanes.
From S2P Require Import QueueStore.
From S2P Require Import Attempts.
From S2P Require Import StoreAdmin.

(** * Enqueue *)

Section Enqueue.
  (** The stripe hash and count, and the digest, serializer and traceparent that
      prepare a row. *)
  Variable hash : list Z -> Z.
  Variable stripe_count : nat.
  Variable blake3 : list Z -> list Z.
  Variable to_vec : json -> list Z.
  Variable ambient : option string.

Definition unsupported_state (st : JobState) : AwaError :=
  Validation ("queue storage does not support initial state " +:+ as_str st).
(** The columns of a new row; its id is drawn later. *)
Definition new_columns (env : StoreEnv) (idx : Z) (p : PreparedJobInsert) : Columns :=
  mkColumns 0 (pi_kind p) (queue_stripe_for_enqueue hash stripe_count (pi_queue p) (pi_unique_key p) idx) (pi_args p)
    (pi_priority p) 0 0 (pi_max_attempts p) (default (sv_now env) (pi_run_at p)) None (sv_now env) (pi_unique_key p)
    (pi_unique_states p) (payload_from_parts (pi_metadata p) (pi_tags p) None None).
(** Ready and deferred rows, in the order given. *)
Fixpoint prepare_rows (env : StoreEnv) (idx : Z) (jobs : list (string * json * InsertOpts))
    : result AwaError (list RuntimeReadyRow * list DeferredJobRow) :=
  match jobs with
  | [] => Ok ([], [])
  | (kind, args, opts) :: jobs =>
      let? p := prepare_raw_job_insert blake3 to_vec ambient kind args opts in
      let c := new_columns env idx p in
      let? row := match pi_state p with
                  | Available => Ok (inl (mkRuntimeReady None c (pi_ordering_key p)))
                  | Scheduled => Ok (inr (mkDeferred c Scheduled None))
                  | other => Err (unsupported_state other)
                  end in
      let? (ready, deferred) := prepare_rows env (idx + 1) jobs in
      Ok (match row with inl r => (r :: ready, deferred) | inr d => (ready, d :: deferred) end)
  end.

Definition with_ready_id (r : RuntimeReadyRow) (id : Z) : RuntimeReadyRow :=
  mkRuntimeReady (Some id) (with_job_id id (rr_columns r)) (rr_ordering_key r).
Definition with_deferred_id (r : DeferredJobRow) (id : Z) : DeferredJobRow :=
  mkDeferred (with_job_id id (df_columns r)) (df_state r) (df_finalized_at r).
(** [batch_enqueue_unique_claims]. *)
Definition batch_enqueue_unique_claims (ready : list RuntimeReadyRow) (deferred : list DeferredJobRow) : list (list Z * Z) :=
  enqueue_claims (map (fun r => (rr_columns r, Available)) ready ++ map (fun r => (df_columns r, df_state r)) deferred).
Definition enqueue_params_batch (env : StoreEnv) (jobs : list (string * json * InsertOpts)) (q : QStore)
    : result AwaError (nat * QStore) :=
  match jobs with
  | [] => Ok (0%nat, q)
  | _ =>
      let? (ready, deferred) := prepare_rows env 0 jobs in
      let '(ids, q) := next_job_ids (length ready + length deferred) q in
      let ready := zip_with with_ready_id ready (take (length ready) ids) in
      let deferred := zip_with with_deferred_id deferred (drop (length ready) ids) in
      let? q := sync_enqueue_unique_claims (batch_enqueue_unique_claims ready deferred) q in
      let? q := insert_ready_rows_tx env ready true q in
      let? m := execute_deferred_inserts_tx deferred (deferred_jobs q) in
      Ok ((length ready + length deferred)%nat, set_deferred m q)
  end.
End Enqueue.

(** * Claim *)

(** [claim_runtime_batch_with_aging_physical] in a store with receipts: the
    claim, the unique claims of its rows, the commit, the cursor's advance and
    the conversion, which runs when the claim is already committed. *)
Definition claim_runtime_batch (env : ClaimEnv) (locked : LaneKey -> bool) (queue : string) (q : QStore)
    : result AwaError (list ClaimedRuntimeJob) * QStore :=
  if p_max_batch env <=? 0 then (Ok [], q)
  else
    match claim_ready_runtime env locked queue (lanes q) with
    | (Err e, s) => (Err e, set_lanes s q)
    | (Ok None, s) => (Ok [], set_lanes s q)
    | (Ok (Some c), s) =>
        let keyed := map (fun r => (rl_columns r, Running)) (cl_rows c) in
        match sync_each (Some Available) (merge_sort unique_order keyed) (claims q) with
        | Err e => (Err e, set_lanes s q)
        | Ok m =>
            let s := set_tables (tables_app (tables s) (commit_claim c)) s in
            let s := advance_claim_cursors_strict (normalize_claim_cursor_advances (claim_cursor_advances (cl_rows c))) s in
            (all_ok (into_claimed_runtime_job true) (cl_rows c), set_unique m (set_lanes s q))
        end
    end.

(** The claim of a logical queue: its stripes in turn from where the probe
    starts, each a call of its own, for what the ones before left of the batch.
    An error after some were claimed ends the call with those. *)
Definition with_max_batch (n : Z) (env : ClaimEnv) : ClaimEnv :=
  mkClaimEnv (clock_timestamp env) n (p_deadline env) (p_aging_secs env) (lease_ring env) (claim_ring_slot env).
Fixpoint claim_stripes (max_batch : Z) (calls : list (ClaimEnv * (LaneKey -> bool) * string)) (claimed : list ClaimedRuntimeJob)
    (q : QStore) : result AwaError (list ClaimedRuntimeJob) * QStore :=
  match calls with
  | [] => (Ok claimed, q)
  | (env, locked, stripe_queue) :: calls =>
      let remaining := max_batch - Z.of_nat (length claimed) in
      if remaining <=? 0 then (Ok claimed, q)
      else
        match claim_runtime_batch (with_max_batch remaining env) locked stripe_queue q with
        | (Ok stripe_claims, q) => claim_stripes max_batch calls (claimed ++ stripe_claims) q
        | (Err e, q) => (match claimed with [] => Err e | _ => Ok claimed end, q)
        end
  end.
Definition rotate_from {A} (start : nat) (l : list A) : list A := drop start l ++ take start l.
Definition stripe_probe_start (next_stripe_probe stripe_count : nat) : nat :=
  if (stripe_count <=? 1)%nat then 0%nat else (next_stripe_probe mod stripe_count)%nat.
(** [at_stripe]: the clock, rings and locked lanes each call finds. *)
Definition claim_runtime_batch_with_aging (stripe_count next_stripe_probe : nat)
    (at_stripe : string -> ClaimEnv * (LaneKey -> bool)) (max_batch : Z) (queue : string) (q : QStore)
    : result AwaError (list ClaimedRuntimeJob) * QStore :=
  if max_batch <=? 0 then (Ok [], q)
  else
    let stripe_queues := physical_queues_for_logical stripe_count queue in
    if (1 <? length stripe_queues)%nat
    then claim_stripes max_batch
           (map (fun s => (at_stripe s, s)) (rotate_from (stripe_probe_start next_stripe_probe (length stripe_queues)) stripe_queues)) [] q
    else
      let s := default queue (head stripe_queues) in
      claim_runtime_batch (with_max_batch max_batch (fst (at_stripe s))) (snd (at_stripe s)) s q.

(** * Moves of ready jobs *)

(** [move_ready_batch_fields_tx] with its unique claims. *)
Definition move_ready (env : StoreEnv) (logical stripe : string -> string) (job_id : Z) (queue : option string)
    (priority : option Z) (q : QStore) : result AwaError (bool * QStore) :=
  match unclaimed_target (lanes q) job_id with
  | None => Ok (false, q)
  | Some r =>
      let c := rt_columns r in
      let '(new_queue, new_priority) := moved_route logical stripe queue priority r in
      if String.eqb new_queue (c_queue c) && (new_priority =? c_priority c) then Ok (false, q)
      else
        let q := set_lanes (set_tables (tables_app (tables (lanes q)) (only_tombstone r)) (lanes q)) q in
        let? payload := from_json (c_payload c) in
        let? payload := stamp_original queue priority (logical (c_queue c)) (c_priority c) payload in
        let row := into_existing_ready_row new_queue new_priority (into_json payload) r in
        let? q := insert_existing_ready_rows_tx env [row] (Some Available) q in
        Ok (true, q)
  end.
Definition PRIORITY_RANGE : AwaError := Validation "priority must be between 1 and 4".
Definition QUEUE_RANGE : AwaError := Validation "destination queue must be 1..=200 characters".
Definition move_either (env : StoreEnv) (logical stripe : string -> string) (job_id : Z) (queue : option string)
    (priority : option Z) (q : QStore) : result AwaError (bool * QStore) :=
  let? (moved, q) := update_deferred_batch_fields_tx logical stripe job_id queue priority q in
  if (moved : bool) then Ok (true, q) else move_ready env logical stripe job_id queue priority q.
Definition set_priority_tx (env : StoreEnv) (logical stripe : string -> string) (job_id priority : Z) (q : QStore)
    : result AwaError (bool * QStore) :=
  if (1 <=? priority) && (priority <=? 4) then move_either env logical stripe job_id None (Some priority) q
  else Err PRIORITY_RANGE.
(** [queue.len()] is in bytes. *)
Definition move_queue_tx (env : StoreEnv) (logical stripe : string -> string) (job_id : Z) (queue : string)
    (priority : option Z) (q : QStore) : result AwaError (bool * QStore) :=
  if (String.length queue =? 0)%nat || (200 <? String.length queue)%nat then Err QUEUE_RANGE
  else if match priority with Some p => (1 <=? p) && (p <=? 4) | None => true end
  then move_either env logical stripe job_id (Some queue) priority q
  else Err PRIORITY_RANGE.

(** [age_waiting_priorities]: the physical pass.  Rows locked elsewhere are
    skipped; the tombstones are all written before the rows. *)
Definition waiting_le (a b : ReadyEntry) : Prop :=
  c_run_at (rt_columns a) < c_run_at (rt_columns b)
  \/ c_run_at (rt_columns a) = c_run_at (rt_columns b) /\ seq_of a <= seq_of b.
#[global] Instance waiting_le_dec : RelDecision waiting_le.
Proof. intros a b. unfold waiting_le. solve_decision. Defined.
Definition waiting_rows (lockable : ReadyEntry -> bool) (cutoff limit : Z) (s : Store) : list ReadyEntry :=
  take (Z.to_nat limit)
    (merge_sort waiting_le
       (List.filter (fun r => unclaimed s r && (1 <? c_priority (rt_columns r)) && (c_run_at (rt_columns r) <=? cutoff) && lockable r)
          (ready_entries (tables s)))).
Definition tombstone_row (r : ReadyEntry) (q : QStore) : QStore :=
  set_lanes (set_tables (tables_app (tables (lanes q)) (only_tombstone r)) (lanes q)) q.
Definition aged_row (r : ReadyEntry) : result AwaError ExistingReadyRow :=
  let c := rt_columns r in
  let? payload := from_json (c_payload c) in
  let? payload := entry_or_insert "_awa_original_priority" (i64_number (c_priority c)) payload in
  Ok (into_existing_ready_row (c_queue c) (c_priority c - 1) (into_json payload) r).
Definition age_waiting_priorities (env : StoreEnv) (lockable : ReadyEntry -> bool) (aging_interval limit : Z) (q : QStore)
    : result AwaError (list Z * QStore) :=
  if limit <=? 0 then Ok ([], q)
  else
    let? interval := from_std "invalid aging interval" aging_interval in
    let moved := waiting_rows lockable (sv_now env - interval) limit (lanes q) in
    match moved with
    | [] => Ok ([], q)
    | _ =>
        let q := foldr tombstone_row q moved in
        let? rows := all_ok aged_row moved in
        let? q := insert_existing_ready_rows_tx env rows (Some Available) q in
        Ok (map (fun r => c_job_id (rt_columns r)) moved, q)
    end.

(** * Queue prune *)

Definition queue_prune_has_active_leases (q : QStore) (ring : RingCursor) : bool :=
  existsb (fun l => bool_decide ((ready_slot (dl_pos (ls_row l)), ready_generation (dl_pos (ls_row l))) = ring)) (leases q).
(** Claims and closures of the slot, counted. *)
Definition queue_prune_has_unclosed_claim_refs (q : QStore) (ring : RingCursor) : bool :=
  negb (Nat.eqb (length (List.filter (fun x => bool_decide (cb_ring (fst x) = ring)) (receipts q)))
          (length (List.filter (fun c => bool_decide (co_ring c = ring)) (closures q)))).

(** A failed row inside the retention floor moves to the current slot, widened
    from its ready row. *)
Definition kept_failed (env : StoreEnv) (retention_secs : Z) (d : DoneEntry) : bool :=
  bool_decide (de_state d = Failed) && (sv_now env - retention_secs * us_per_sec <=? de_finalized_at d).
Definition carry_key (slot : Z) (k : DoneKey) : DoneKey := let '(_, queue, priority, shard, seq) := k in (slot, queue, priority, shard, seq).
Definition carried (generation : Z) (r : DoneJobRow) : DoneEntry :=
  let c := dn_columns r in
  mkDoneEntry generation (c_job_id c) (c_kind c) (Some (c_args c)) (dn_state r) (c_attempt c) (c_run_lease c)
    (Some (c_max_attempts c)) (Some (c_run_at c)) (c_attempted_at c) (dn_finalized_at r) (Some (c_created_at c))
    (c_unique_key c) (c_unique_states c) (Some (c_payload c)) None.
Definition key_slot (k : DoneKey) : Z := let '(slot, _, _, _, _) := k in slot.
Definition slot_done (slot : Z) (q : QStore) : list (DoneKey * DoneEntry) :=
  List.filter (fun kd => key_slot (fst kd) =? slot) (map_to_list (done_entries q)).
Fixpoint carry_rows (q : QStore) (ring : RingCursor) (rows : list (DoneKey * DoneEntry)) (m : gmap DoneKey DoneEntry)
    : result AwaError (gmap DoneKey DoneEntry) :=
  match rows with
  | [] => Ok m
  | (k, d) :: rows =>
      match m !! carry_key (fst ring) k with
      | Some _ => Err PKEY_VIOLATION
      | None => carry_rows q ring rows (<[carry_key (fst ring) k := carried (snd ring) (done_row q k d)]> m)
      end
  end.
(** The deltas of carried rows keep their bucket, also after the flip. *)
Definition carried_deltas (ring : RingCursor) (rows : list (DoneKey * DoneEntry)) : list (CounterKey * Z) :=
  map_to_list (tally 1 (map (fun kd => let '(_, queue, priority, shard, _) := fst kd in
                                       (fst ring, snd ring, queue, priority, shard, terminal_counter_bucket (de_job_id (snd kd)))) rows)).
Definition delta_slot (kd : CounterKey * Z) : Z := let '(slot, _, _, _, _, _) := fst kd in slot.

Inductive PruneOutcome : Type :=
  | Noop
  | SkippedActiveLeases (slot : Z)
  | SkippedPendingReady (slot : Z)
  | SkippedUnclosedClaims (slot : Z)
  | Pruned (slot generation : Z) (carried_failed_rows : nat).

(** The truncation of everything the slot holds. *)
Definition truncate_queue_slot (ring : RingCursor) (q : QStore) : QStore :=
  q |> set_lanes (set_tables (truncate_slot ring (tables (lanes q))) (lanes q))
    |> set_done (filter (fun kd => key_slot (fst kd) <> fst ring) (done_entries q))
    |> set_completions (List.filter (fun c => negb (ready_slot (cp_pos c) =? fst ring)) (completions q))
    |> set_deltas (List.filter (fun kd => negb (delta_slot kd =? fst ring)) (count_deltas q)).

(** [prune_oldest] with the ring's lock and the table locks taken; the rollup of
    the truncated counts is left out.  [retention_secs] is the floor for failed
    rows, zero for none. *)
Definition prune_oldest (env : StoreEnv) (slot_count retention_secs : Z) (q : QStore) : result AwaError (PruneOutcome * QStore) :=
  let current := queue_ring (lanes q) in
  match oldest_initialized_ring_slot (fst current) (snd current) slot_count with
  | None => Ok (Noop, q)
  | Some (slot, generation) =>
      let ring := (slot, generation) in
      if queue_prune_has_active_leases q ring then Ok (SkippedActiveLeases slot, q)
      else if queue_prune_has_pending_ready (lanes q) ring then Ok (SkippedPendingReady slot, q)
      else if queue_prune_has_unclosed_claim_refs q ring then Ok (SkippedUnclosedClaims slot, q)
      else
        let kept := if 0 <? retention_secs then List.filter (fun kd => kept_failed env retention_secs (snd kd)) (slot_done slot q) else [] in
        let? m := carry_rows q current kept (done_entries q) in
        let q := set_deltas (count_deltas q ++ carried_deltas current kept) (set_done m q) in
        Ok (Pruned slot generation (length kept), truncate_queue_slot ring q)
  end.

(** * Claim prune *)

Definition claim_prune_has_open_claims (q : QStore) (slot : Z) : bool :=
  negb (Nat.eqb (length (List.filter (fun x => cb_claim_slot (fst x) =? slot) (receipts q)))
          (length (List.filter (fun c => co_claim_slot c =? slot) (closures q)))).
Definition drop_claim_slot (slot : Z) (t : Tables) : Tables :=
  mkTables (ready_entries t) (ready_segments t) (ready_tombstones t) (attempt_batches t)
    (List.filter (fun b => negb (cb_claim_slot b =? slot)) (claim_batches t)).
Definition truncate_claim_slot (slot : Z) (q : QStore) : QStore :=
  q |> set_lanes (set_tables (drop_claim_slot slot (tables (lanes q))) (lanes q))
    |> set_closures (List.filter (fun c => negb (co_claim_slot c =? slot)) (closures q))
    |> set_rescue_cursors (delete slot (rescue_cursors q))
    |> set_deadline_cursors (delete slot (deadline_cursors q)).
(** [prune_oldest_claims]: whether the oldest slot was reclaimed. *)
Definition prune_oldest_claims (env : StoreEnv) (q : QStore) : bool * QStore :=
  let '(current, generation, slot_count) := sv_claim_ring env in
  match oldest_initialized_ring_slot current generation slot_count with
  | None => (false, q)
  | Some (slot, _) =>
      if claim_prune_has_open_claims q slot || (current =? slot) then (false, q)
      else (true, truncate_claim_slot slot q)
  end.
