(* ===== verification/StoreFacts.v ===== *)
(** Where a job of queue storage is, and that operations move it without losing
    or copying it.

    A job is ready, running (it has an unclosed receipt), deferred, terminal (in
    [done_entries] or in the completion ledger) or dead-lettered; [places] lists
    all jobs with their run lease.  An operation takes jobs out of their place
    and puts them elsewhere: in between they are in transit, the list [E] of
    the invariant [sinv].  [D] are the attempts that have ended. *)

From S2P Require Import Prelude.
From S2P Require Import Error.
From S2P Require Import Json.
From S2P Require Import Job.
From S2P Require Import Routing.
From S2P Require Import Rows.
From S2P Require Import Lanes.
From S2P Require Import LanesFacts.
From S2P Require Import Enqueue.
From S2P Require Import LaneGuarantees.
From S2P Require Import AtomicLanes.
From S2P Require Import QueueStore.
From S2P Require Import Attempts.
From S2P Require Import Callbacks.
From S2P Require Import StoreAdmin.

(** * Places *)

Definition place_of (c : Columns) : Z * Z := (c_job_id c, c_run_lease c).
Definition unclosed (q : QStore) (x : ClaimBatch * ClaimItem) : bool :=
  negb (closed_receipt q (cb_claim_slot (fst x)) (ci_receipt_id (snd x))).
Definition running (q : QStore) : list (ClaimBatch * ClaimItem) := List.filter (unclosed q) (receipts q).

Definition ready_places (q : QStore) : list (Z * Z) := map (fun r => place_of (rt_columns r)) (live (lanes q)).
Definition running_places (q : QStore) : list (Z * Z) := map attempt_of (running q).
Definition deferred_places (q : QStore) : list (Z * Z) := map (fun kv => place_of (df_columns (snd kv))) (map_to_list (deferred_jobs q)).
Definition done_places (q : QStore) : list (Z * Z) :=
  map (fun kv => (de_job_id (snd kv), de_run_lease (snd kv))) (map_to_list (done_entries q)).
Definition completed_places (q : QStore) : list (Z * Z) := map (fun c => (cp_job_id c, cp_run_lease c)) (completions q).
Definition dlq_places (q : QStore) : list (Z * Z) := map (fun kv => place_of (dq_columns (snd kv))) (map_to_list (dlq_entries q)).
Definition places (q : QStore) : list (Z * Z) :=
  ready_places q ++ running_places q ++ deferred_places q ++ done_places q ++ completed_places q ++ dlq_places q.

(** * The invariant *)

(** Of the jobs at a place or in transit, below the next id: one each, and none
    behind an attempt of its that has ended. *)
Record accounting (D L : list (Z * Z)) (next : Z) : Prop := {
  ac_one : NoDup (map fst L);
  ac_ids : forall a, a ∈ L -> fst a < next;
  ac_ended : forall a, a ∈ D -> fst a < next;
  ac_later : forall j l l', (j, l) ∈ D -> (j, l') ∈ L -> l <= l'
}.

Definition receipt_id (x : ClaimBatch * ClaimItem) : Z := ci_receipt_id (snd x).
Definition closure_key (c : Closure) : Z * Z := (co_claim_slot c, co_receipt_id c).
Definition receipt_key (x : ClaimBatch * ClaimItem) : Z * Z := (cb_claim_slot (fst x), ci_receipt_id (snd x)).
(** The ready row of a claimed job. *)
Definition backs (r : ReadyEntry) (x : ClaimBatch * ClaimItem) : Prop :=
  rt_pos r = dl_pos (receipt_row x) /\ c_queue (rt_columns r) = cb_queue (fst x) /\ c_job_id (rt_columns r) = ci_job_id (snd x).

(** The ledgers: receipts are unique, closures close one each, leases belong to
    a running attempt and wait for callbacks of their own, and a running attempt
    has its ready row. *)
Record ledger (D : list (Z * Z)) (q : QStore) : Prop := {
  lg_calm : calm (lanes q);
  lg_receipts : NoDup (map receipt_id (receipts q));
  lg_receipt_ids : forall x, x ∈ receipts q -> receipt_id x < next_receipt (lanes q);
  lg_batches : NoDup (map cb_batch_id (claim_batches (tables (lanes q))));
  lg_batch_ids : forall b, b ∈ claim_batches (tables (lanes q)) -> cb_batch_id b < next_batch (lanes q);
  lg_attempts : NoDup (map attempt_of (receipts q));
  lg_closures : NoDup (map closure_key (closures q));
  lg_closed : forall c, c ∈ closures q -> exists x, x ∈ receipts q /\ c = closure_of (co_outcome c) x;
  lg_leases : NoDup (map lease_attempt (leases q));
  lg_leased : forall l, l ∈ leases q -> exists x, x ∈ running q /\ dl_set_state Running (ls_row l) = receipt_row x;
  lg_callbacks : forall l l' c, l ∈ leases q -> l' ∈ leases q -> ls_callback_id l = Some c -> ls_callback_id l' = Some c -> l = l';
  lg_backed : forall x, x ∈ running q -> exists r, r ∈ ready_rows q /\ backs r x;
  lg_open : forall x, x ∈ running q -> attempt_of x ∉ D;
  lg_ended : forall x, x ∈ receipts q -> unclosed q x = false -> attempt_of x ∈ D
}.

Record sinv (D E : list (Z * Z)) (q : QStore) : Prop := {
  si_ledger : ledger D q;
  si_places : accounting D (E ++ places q) (job_id_seq q);
  si_deferred : forall j r, deferred_jobs q !! j = Some r -> c_job_id (df_columns r) = j;
  si_dlq : forall j r, dlq_entries q !! j = Some r -> c_job_id (dq_columns r) = j
}.

(** * Accounting *)

Lemma NoDup_numbers {A} (base : Z) (l : list A) : NoDup (imap (fun i _ => base + Z.of_nat i) l).
Proof.
  revert base. induction l as [|x l IH]; intros base; simpl; [constructor|]. constructor.
  - rewrite elem_of_imap_iff. intros (i & u & _ & E). simpl in E. lia.
  - rewrite (imap_ext _ (fun i _ => base + 1 + Z.of_nat i)) by (intros; simpl; lia). apply IH.
Qed.

Lemma accounting_perm D L L' next : L ≡ₚ L' -> accounting D L next -> accounting D L' next.
Proof.
  intros HL [H1 H2 H3 H4]. split; [by rewrite <- HL| |done|]; intros *; rewrite <- HL; eauto.
Qed.
#[global] Instance accounting_proper D : Proper ((≡ₚ) ==> (=) ==> (↔)) (accounting D).
Proof. intros L L' HL n ? <-. split; apply accounting_perm; by rewrite HL. Qed.

Lemma accounting_sub D L L' next : L' ⊆+ L -> accounting D L next -> accounting D L' next.
Proof.
  intros HL [H1 H2 H3 H4]. pose proof (elem_of_submseteq L' L) as Hin. split; [|eauto..].
  apply submseteq_Permutation in HL as (k & Hk). rewrite Hk, map_app in H1. by apply NoDup_app in H1 as [? _].
Qed.

Lemma accounting_end D L next xs : (forall a, a ∈ xs -> a ∈ L) -> accounting D L next -> accounting (xs ++ D) L next.
Proof.
  intros Hxs [H1 H2 H3 H4]. split; [done|done| |].
  - intros a [Ha|Ha]%elem_of_app; auto.
  - intros j l l' [Ha|Ha]%elem_of_app Hl; [|eauto]. apply Hxs in Ha.
    assert ((j, l) = (j, l')) as [= ->]; [|lia]. by apply (NoDup_map_inj fst L).
Qed.

(** * Moves *)

(** The claim names its batch, of the ring it says. *)
Definition claim_faithful (q : QStore) (e : ClaimedRuntimeJob) : Prop :=
  forall b, b ∈ claim_batches (tables (lanes q)) -> ce_claim_batch_id (cj_claim e) = Some (cb_batch_id b) ->
    cb_ring b = (ready_slot (ce_pos (cj_claim e)), ready_generation (ce_pos (cj_claim e))).
(** A claim the store handed out. *)
Definition handed (q : QStore) (e : ClaimedRuntimeJob) : Prop :=
  claim_faithful q e /\ forall id, ce_claim_batch_id (cj_claim e) = Some id -> id < next_batch (lanes q).

(** From one store to the next nothing is lost or copied, counting what is in
    transit. *)
Record keeps (D E : list (Z * Z)) (q : QStore) (D' E' : list (Z * Z)) (q' : QStore) : Prop := {
  kp_inv : sinv D' E' q';
  kp_places : E' ++ places q' ≡ₚ E ++ places q;
  kp_ended : forall a, a ∈ D -> a ∈ D';
  kp_seq : job_id_seq q' = job_id_seq q;
  kp_handed : forall e, handed q e -> handed q' e;
  kp_receipts : forall x, x ∈ receipts q -> x ∈ receipts q'
}.

Lemma keeps_refl D E q : sinv D E q -> keeps D E q D E q.
Proof. intros H. by split. Qed.
Lemma keeps_trans D1 E1 q1 D2 E2 q2 D3 E3 q3 :
  keeps D1 E1 q1 D2 E2 q2 -> keeps D2 E2 q2 D3 E3 q3 -> keeps D1 E1 q1 D3 E3 q3.
Proof.
  intros [_ P1 H1 S1 C1 R1] [I2 P2 H2 S2 C2 R2]. split; [done|by rewrite P2|auto|congruence|auto|auto].
Qed.

Lemma sinv_perm E E' D q : E ≡ₚ E' -> sinv D E q -> sinv D E' q.
Proof. intros HE []. split; try done. by rewrite <- HE. Qed.
Lemma keeps_perm E1 E1' D q D' E' q' : E1 ≡ₚ E1' -> keeps D E1 q D' E' q' -> keeps D E1' q D' E' q'.
Proof. intros HE []. split; try done. by rewrite <- HE. Qed.

Lemma keeps_intro D E q xs E' q' :
  sinv D E q -> ledger (xs ++ D) q' -> E' ++ places q' ≡ₚ E ++ places q -> job_id_seq q' = job_id_seq q ->
  (forall a, a ∈ xs -> a ∈ E ++ places q) ->
  (forall j r, deferred_jobs q' !! j = Some r -> c_job_id (df_columns r) = j) ->
  (forall j r, dlq_entries q' !! j = Some r -> c_job_id (dq_columns r) = j) ->
  (forall e, handed q e -> handed q' e) -> (forall x, x ∈ receipts q -> x ∈ receipts q') ->
  keeps D E q (xs ++ D) E' q'.
Proof.
  intros [Hl Ha _ _] Hl' HP Hs Hxs H1 H2 Hh Hr. split; [split|..]; try done.
  - rewrite HP, Hs. by apply accounting_end.
  - intros a Hin. apply elem_of_app. by right.
Qed.

(** What the invariant reads of a store. *)
Definition view (q : QStore) :=
  (lanes q, closures q, leases q, (deferred_jobs q, done_entries q, completions q, dlq_entries q, job_id_seq q)).

Lemma ledger_view D q q' :
  lanes q' = lanes q -> closures q' = closures q -> leases q' = leases q -> ledger D q -> ledger D q'.
Proof. destruct q, q'. simpl. intros -> -> -> []. by split. Qed.
Lemma sinv_view D E q q' : view q' = view q -> sinv D E q -> sinv D E q'.
Proof.
  destruct q, q'. unfold view. simpl. intros [= -> -> -> -> -> -> -> ->] [Hl ? ? ?]. split; try done.
  by eapply ledger_view; [..|exact Hl].
Qed.
Lemma keeps_view D E q q' : view q' = view q -> sinv D E q -> keeps D E q D E q'.
Proof.
  intros Hv H. split; [by eapply sinv_view| |done|..]; destruct q, q'; unfold view in Hv; simpl in Hv;
    injection Hv as -> -> -> -> -> -> -> ->; done.
Qed.

(** ** Into a table *)

Section Tables.
Context {K V : Type} `{Countable K} (f : V -> Z * Z).
Lemma rows_insert (m : gmap K V) k v :
  m !! k = None -> map (fun kv => f kv.2) (map_to_list (<[k := v]> m)) ≡ₚ f v :: map (fun kv => f kv.2) (map_to_list m).
Proof. intros Hk. by rewrite map_to_list_insert. Qed.
Lemma rows_delete (m : gmap K V) k v :
  m !! k = Some v -> map (fun kv => f kv.2) (map_to_list m) ≡ₚ f v :: map (fun kv => f kv.2) (map_to_list (delete k m)).
Proof. intros Hk. by rewrite <- (map_to_list_delete m k v Hk). Qed.
End Tables.

Lemma stored_place c : place_of (stored c) = place_of c.
Proof. done. Qed.

Lemma execute_deferred_rows rows m m' :
  execute_deferred_inserts_tx rows m = Ok m' ->
  map (fun kv => place_of (df_columns kv.2)) (map_to_list m')
    ≡ₚ map (fun r => place_of (df_columns r)) rows ++ map (fun kv => place_of (df_columns kv.2)) (map_to_list m)
  /\ ((forall j r, m !! j = Some r -> c_job_id (df_columns r) = j) -> forall j r, m' !! j = Some r -> c_job_id (df_columns r) = j).
Proof.
  revert m. induction rows as [|r rows IH]; intros m; simpl; [by intros [= ->]|].
  destruct (negb _); [done|]. destruct (m !! _) eqn:Hm; [done|]. intros H. destruct (IH _ H) as [Hp Hk]. split.
  - rewrite Hp, (rows_insert (fun r => place_of (df_columns r))) by done. simpl. rewrite stored_place. symmetry. apply Permutation_middle.
  - intros Hkeys. apply Hk. intros j r' [[<- <-]|[_ ?]]%lookup_insert_Some; [done|by apply Hkeys].
Qed.

Lemma put_deferred D E q rows m :
  sinv D (map (fun r => place_of (df_columns r)) rows ++ E) q -> execute_deferred_inserts_tx rows (deferred_jobs q) = Ok m ->
  keeps D (map (fun r => place_of (df_columns r)) rows ++ E) q D E (set_deferred m q).
Proof.
  intros Hs H. destruct (execute_deferred_rows _ _ _ H) as [Hp Hk]. pose proof Hs as [Hl _ H1 H2].
  apply (keeps_intro _ _ _ []); try done.
  - by apply (ledger_view D q).
  - unfold places. unfold deferred_places at 1. cbn [deferred_jobs set_deferred]. rewrite Hp.
    change (map _ (map_to_list (deferred_jobs q))) with (deferred_places q). simpl. solve_Permutation.
  - by intros a ?%elem_of_nil.
  - by apply Hk.
Qed.

Lemma execute_dlq_rows rows m m' :
  execute_dlq_inserts rows m = Ok m' ->
  map (fun kv => place_of (dq_columns kv.2)) (map_to_list m')
    ≡ₚ map (fun r => place_of (dq_columns r)) rows ++ map (fun kv => place_of (dq_columns kv.2)) (map_to_list m)
  /\ ((forall j r, m !! j = Some r -> c_job_id (dq_columns r) = j) -> forall j r, m' !! j = Some r -> c_job_id (dq_columns r) = j).
Proof.
  revert m. induction rows as [|r rows IH]; intros m; simpl; [by intros [= ->]|].
  destruct (m !! _) eqn:Hm; [done|]. intros H. destruct (IH _ H) as [Hp Hk]. split.
  - rewrite Hp, (rows_insert (fun r => place_of (dq_columns r))) by done. simpl. rewrite stored_place. symmetry. apply Permutation_middle.
  - intros Hkeys. apply Hk. intros j r' [[<- <-]|[_ ?]]%lookup_insert_Some; [done|by apply Hkeys].
Qed.

Lemma put_dlq D E q rows m :
  sinv D (map (fun r => place_of (dq_columns r)) rows ++ E) q -> execute_dlq_inserts rows (dlq_entries q) = Ok m ->
  keeps D (map (fun r => place_of (dq_columns r)) rows ++ E) q D E (set_dlq m q).
Proof.
  intros Hs H. destruct (execute_dlq_rows _ _ _ H) as [Hp Hk]. pose proof Hs as [Hl _ H1 H2].
  apply (keeps_intro _ _ _ []); try done.
  - by apply (ledger_view D q).
  - unfold places. unfold dlq_places at 1. cbn [dlq_entries set_dlq]. rewrite Hp.
    change (map _ (map_to_list (dlq_entries q))) with (dlq_places q). simpl. solve_Permutation.
  - by intros a ?%elem_of_nil.
  - by apply Hk.
Qed.

Definition done_place (d : DoneEntry) : Z * Z := (de_job_id d, de_run_lease d).
Lemma done_entry_place q keep r : done_place (done_entry q keep r) = place_of (dn_columns r).
Proof. unfold done_entry. cbv zeta. by destruct (keep && _). Qed.

Lemma execute_done_rows q keep rows m m' :
  execute_done_inserts q keep rows m = Ok m' ->
  map (fun kv => done_place kv.2) (map_to_list m')
    ≡ₚ map (fun r => place_of (dn_columns r)) rows ++ map (fun kv => done_place kv.2) (map_to_list m).
Proof.
  revert m. induction rows as [|r rows IH]; intros m; simpl; [by intros [= ->]|].
  destruct (m !! _) eqn:Hm; [done|]. intros H. rewrite (IH _ H), (rows_insert done_place) by done.
  rewrite done_entry_place. symmetry. apply Permutation_middle.
Qed.

Lemma put_done D E q q0 keep rows m :
  sinv D (map (fun r => place_of (dn_columns r)) rows ++ E) q -> execute_done_inserts q0 keep rows (done_entries q) = Ok m ->
  keeps D (map (fun r => place_of (dn_columns r)) rows ++ E) q D E (set_done m q).
Proof.
  intros Hs H%execute_done_rows. pose proof Hs as [Hl _ H1 H2]. apply (keeps_intro _ _ _ []); try done.
  - by apply (ledger_view D q).
  - unfold places. change (done_places (set_done m q)) with (map (fun kv => done_place kv.2) (map_to_list m)). rewrite H.
    change (map (fun kv => done_place kv.2) (map_to_list (done_entries q))) with (done_places q). simpl. solve_Permutation.
  - by intros a ?%elem_of_nil.
Qed.

(** The three inserts with their unique claims. *)
Lemma sync_unique_view old rows q q' : sync_unique_claims old rows q = Ok q' -> view q' = view q.
Proof. unfold sync_unique_claims. intros (m & _ & [= <-])%rbind_Ok. done. Qed.
Lemma sync_enqueue_view l q q' : sync_enqueue_unique_claims l q = Ok q' -> view q' = view q.
Proof. unfold sync_enqueue_unique_claims. case_bool_decide; [|done]. intros (m & _ & [= <-])%rbind_Ok. done. Qed.

Lemma insert_deferred_keeps D E rows old q q' :
  insert_deferred_rows_tx rows old q = Ok q' -> sinv D (map (fun r => place_of (df_columns r)) rows ++ E) q ->
  keeps D (map (fun r => place_of (df_columns r)) rows ++ E) q D E q'.
Proof.
  unfold insert_deferred_rows_tx. intros (q1 & H1 & (m & Hm & [= <-])%rbind_Ok)%rbind_Ok Hs.
  assert (view q1 = view q) as Hv.
  { destruct rows as [|r rows]; [by injection H1 as ->|]. destruct old; [by eapply sync_unique_view|by eapply sync_enqueue_view]. }
  eapply keeps_trans; [by apply (keeps_view _ _ _ q1)|]. apply put_deferred; [by eapply sinv_view|done].
Qed.

Lemma insert_dlq_keeps D E rows old q q' :
  insert_dlq_rows_tx rows old q = Ok q' -> sinv D (map (fun r => place_of (dq_columns r)) rows ++ E) q ->
  keeps D (map (fun r => place_of (dq_columns r)) rows ++ E) q D E q'.
Proof.
  unfold insert_dlq_rows_tx. intros (q1 & H1%sync_unique_view & (m & Hm & [= <-])%rbind_Ok)%rbind_Ok Hs.
  eapply keeps_trans; [by apply (keeps_view _ _ _ q1)|]. apply put_dlq; [by eapply sinv_view|done].
Qed.

Lemma insert_done_keeps D E env rows old q q' :
  insert_done_rows_tx env rows old q = Ok q' -> sinv D (map (fun r => place_of (dn_columns r)) rows ++ E) q ->
  keeps D (map (fun r => place_of (dn_columns r)) rows ++ E) q D E q'.
Proof.
  unfold insert_done_rows_tx. intros (q1 & H1%sync_unique_view & H)%rbind_Ok Hs. cbv zeta in H.
  apply rbind_Ok in H as (m & Hm & [= <-]).
  eapply keeps_trans; [by apply (keeps_view _ _ _ q1)|].
  pose proof (sinv_view _ _ _ _ H1 Hs) as Hs1. eapply keeps_trans; [by eapply put_done|].
  apply keeps_view; [done|]. by eapply kp_inv, put_done.
Qed.

(** ** Ready again *)

Lemma place_ready_keeps D E q grouped :
  grouped_ok grouped -> sinv D (map place_of (jobs_of grouped) ++ E) q ->
  keeps D (map place_of (jobs_of grouped) ++ E) q D E (place_ready grouped q).
Proof.
  intros Hok Hs. unfold place_ready. pose proof (insert_grouped_columns grouped (lanes q)) as Hcols.
  destruct (insert_grouped_rows grouped (lanes q)) as [t s] eqn:Hins. simpl in Hcols.
  pose proof Hs as [Hl _ H1 H2].
  destruct (calm_insert _ _ _ _ Hok Hins (lg_calm _ _ Hl)) as (Hc & Hlive & Hrows & Hcb & Hn & Hnb).
  set (s' := set_tables _ s) in *. clearbody s'.
  assert (receipts (set_lanes s' q) = receipts q) as Hrec by (unfold receipts; simpl; by rewrite Hcb).
  assert (running (set_lanes s' q) = running q) as Hrun by (unfold running; by rewrite Hrec).
  apply (keeps_intro _ _ _ []); try done.
  - destruct Hl. split; rewrite ?Hrec, ?Hrun; simpl; rewrite ?Hcb, ?Hn, ?Hnb; try done.
    intros x (r & Hr & Hb)%lg_backed0. exists r. split; [|done]. unfold ready_rows. simpl. rewrite Hrows. apply elem_of_app. by left.
  - unfold places. unfold ready_places at 1. unfold running_places at 1. rewrite Hrun. cbn [lanes set_lanes].
    rewrite Hlive, map_app, <- (map_map rt_columns place_of (ready_entries t)), Hcols.
    change (map _ (live (lanes q))) with (ready_places q). simpl. unfold running_places. solve_Permutation.
  - by intros a ?%elem_of_nil.
  - intros e. unfold handed, claim_faithful. simpl. by rewrite Hcb, Hnb.
  - intros x. by rewrite Hrec.
Qed.
Lemma add_ready_keeps D E q grouped :
  grouped_ok grouped -> sinv D (map place_of (jobs_of grouped) ++ E) q ->
  keeps D (map place_of (jobs_of grouped) ++ E) q D E (add_ready grouped q).
Proof.
  intros Hok Hs. unfold add_ready. set (stored_rows := map _ grouped).
  assert (map place_of (jobs_of stored_rows) = map place_of (jobs_of grouped)) as Eplace.
  { unfold jobs_of, stored_rows. clear. induction grouped as [|[l cs] g IH]; [done|]. simpl. rewrite !map_app, IH. f_equal.
    rewrite map_map. by apply map_ext. }
  rewrite <- Eplace in Hs |- *. apply place_ready_keeps; [|done].
  intros lane cs c ([lane' cs'] & [= -> ->] & Hin)%list_elem_of_fmap (c' & -> & Hc)%list_elem_of_fmap. by apply (Hok lane' cs' c').
Qed.

Lemma buckets_spec (rows : list Columns) :
  let bs := fold_left (fun m c => push_entry (c_queue c, c_priority c, 0) [c] m) rows [] in
  jobs_of bs ≡ₚ rows /\ each_in (fun lane c => lane = (c_queue c, c_priority c, 0)) bs.
Proof.
  assert (forall m : list ((string * Z * Z) * list Columns), each_in (fun lane c => lane = (c_queue c, c_priority c, 0)) m ->
    jobs_of (fold_left (fun m c => push_entry (c_queue c, c_priority c, 0) [c] m) rows m) ≡ₚ jobs_of m ++ rows
    /\ each_in (fun lane c => lane = (c_queue c, c_priority c, 0))
         (fold_left (fun m c => push_entry (c_queue c, c_priority c, 0) [c] m) rows m)) as H.
  { induction rows as [|r rows IH]; intros m Hm; simpl; [by rewrite app_nil_r|].
    destruct (IH (push_entry (c_queue r, c_priority r, 0) [r] m)) as [Hp He].
    - apply push_entry_each; [done|]. by intros x ->%list_elem_of_singleton.
    - split; [|done]. rewrite Hp, push_entry_jobs. simpl. by rewrite Permutation_middle. }
  destruct (H []) as [Hp He]; [by intros ? ? ? ?%elem_of_nil|]. done.
Qed.

Lemma group_existing_spec shards_of rotor rows :
  let grouped := fst (group_existing shards_of rotor rows) in jobs_of grouped ≡ₚ rows /\ grouped_ok grouped.
Proof.
  unfold group_existing. destruct (buckets_spec rows) as [Hp He]. set (bs := fold_left _ rows []) in *. clearbody bs.
  assert (forall m rotor, grouped_ok m ->
    let out := fst (fold_left (fun acc bucket =>
               let '(m, rotor) := (acc : list ((string * Z * Z) * list Columns) * Z) in
               let '(lane, cs) := (bucket : (string * Z * Z) * list Columns) in
               let '(shard, rotor) := pick_shard (shards_of (fst (fst lane))) None rotor in
               (m ++ [((fst lane, shard), cs)], rotor)) bs (m, rotor)) in
    jobs_of out = jobs_of m ++ jobs_of bs /\ grouped_ok out) as H.
  { clear Hp. induction bs as [|[lane cs] bs IH]; intros m r Hm; simpl.
    - split; [|done]. unfold jobs_of. simpl. by rewrite app_nil_r.
    - destruct (pick_shard _ None r) as [shard r']. destruct (IH ltac:(intros l rs c ?; eapply He; by right) (m ++ [((lane.1, shard), cs)]) r') as [E Hok].
      + intros l rs c [Hin|Hin%list_elem_of_singleton]%elem_of_app Hc; [by eapply Hm|]. injection Hin as -> ->.
        simpl. rewrite (He lane cs c ltac:(left) Hc). done.
      + split; [|done]. rewrite E. unfold jobs_of. rewrite map_app, concat_app. simpl. by rewrite app_nil_r, <- app_assoc. }
  destruct (H [] rotor) as [E Hok]; [by intros ? ? ? ?%elem_of_nil|]. split; [|done]. by rewrite E.
Qed.

Lemma insert_ready_keeps D E env rows old q q' :
  insert_existing_ready_rows_tx env rows old q = Ok q' -> sinv D (map place_of rows ++ E) q ->
  keeps D (map place_of rows ++ E) q D E q'.
Proof.
  unfold insert_existing_ready_rows_tx. destruct rows as [|r rows']; [intros [= <-]; apply keeps_refl|].
  set (rows := r :: rows'). clearbody rows. clear r rows'. intros (q1 & H1%sync_unique_view & [= <-])%rbind_Ok Hs.
  destruct (group_existing_spec (sv_shards_of env) (sv_rotor env) rows) as [Hp Hok].
  eapply keeps_trans; [by apply (keeps_view _ _ _ q1)|]. pose proof (sinv_view _ _ _ _ H1 Hs) as Hs1.
  apply (keeps_perm (map place_of (jobs_of (fst (group_existing (sv_shards_of env) (sv_rotor env) rows))) ++ E)); [by rewrite Hp|].
  apply add_ready_keeps; [done|]. eapply sinv_perm; [|exact Hs1]. by rewrite Hp.
Qed.

(** ** Out of a table *)

Section Deletes.
Context {K V : Type} `{Countable K} (f : V -> Z * Z).
Lemma rows_delete_all (kvs : list (K * V)) (m : gmap K V) :
  NoDup (map fst kvs) -> (forall kv, kv ∈ kvs -> m !! kv.1 = Some kv.2) ->
  map (fun kv => f kv.2) (map_to_list m)
    ≡ₚ map (fun kv => f kv.2) kvs ++ map (fun kv => f kv.2) (map_to_list (foldr (fun k m => delete k m) m (map fst kvs))).
Proof.
  induction kvs as [|[k v] kvs IH]; intros Hn Hm; [done|]. simpl in *. apply NoDup_cons in Hn as [Hk Hn].
  rewrite (IH Hn) by (intros; apply Hm; by right).
  rewrite (rows_delete f (foldr (fun k m => delete k m) m (map fst kvs)) k v).
  - by rewrite <- Permutation_middle.
  - assert (m !! k = Some v) as Hkv by apply (Hm (k, v) ltac:(left)). clear -Hk Hkv. induction (map fst kvs) as [|k' ks IH]; [done|].
    simpl. rewrite not_elem_of_cons in Hk. rewrite lookup_delete_ne; naive_solver.
Qed.
Lemma lookup_delete_all (ks : list K) (m : gmap K V) k v : foldr (fun k m => delete k m) m ks !! k = Some v -> m !! k = Some v.
Proof. induction ks as [|k' ks IH]; [done|]. simpl. intros [_ ?]%lookup_delete_Some. auto. Qed.
End Deletes.

Lemma take_deferred D E q rows :
  sinv D E q -> NoDup (map (fun r => c_job_id (df_columns r)) rows) ->
  (forall r, r ∈ rows -> deferred_jobs q !! c_job_id (df_columns r) = Some r) ->
  keeps D E q D (map (fun r => place_of (df_columns r)) rows ++ E) (delete_deferred (map (fun r => c_job_id (df_columns r)) rows) q).
Proof.
  intros Hs Hn Hr. pose proof Hs as [Hl _ H1 H2]. apply (keeps_intro _ _ _ []); try done.
  - by apply (ledger_view D q).
  - pose proof (rows_delete_all (fun r => place_of (df_columns r)) (map (fun r => (c_job_id (df_columns r), r)) rows) (deferred_jobs q)) as Hp.
    rewrite !map_map in Hp. specialize (Hp Hn). unfold places. unfold deferred_places at 2. rewrite Hp.
    + change (map _ (map_to_list (foldr _ _ _)))
        with (deferred_places (delete_deferred (map (fun r => c_job_id (df_columns r)) rows) q)). simpl. solve_Permutation.
    + intros kv (r & -> & Hin)%list_elem_of_fmap. by apply Hr.
  - by intros a ?%elem_of_nil.
  - intros j r Hj. apply (H1 j r). simpl in Hj. by apply lookup_delete_all in Hj.
Qed.

Lemma take_dlq D E q rows :
  sinv D E q -> NoDup (map (fun r => c_job_id (dq_columns r)) rows) ->
  (forall r, r ∈ rows -> dlq_entries q !! c_job_id (dq_columns r) = Some r) ->
  keeps D E q D (map (fun r => place_of (dq_columns r)) rows ++ E) (delete_dlq (map (fun r => c_job_id (dq_columns r)) rows) q).
Proof.
  intros Hs Hn Hr. pose proof Hs as [Hl _ H1 H2]. apply (keeps_intro _ _ _ []); try done.
  - by apply (ledger_view D q).
  - pose proof (rows_delete_all (fun r => place_of (dq_columns r)) (map (fun r => (c_job_id (dq_columns r), r)) rows) (dlq_entries q)) as Hp.
    rewrite !map_map in Hp. specialize (Hp Hn). unfold places. unfold dlq_places at 2. rewrite Hp.
    + change (map _ (map_to_list (foldr _ _ _)))
        with (dlq_places (delete_dlq (map (fun r => c_job_id (dq_columns r)) rows) q)). simpl. solve_Permutation.
    + intros kv (r & -> & Hin)%list_elem_of_fmap. by apply Hr.
  - by intros a ?%elem_of_nil.
  - intros j r Hj. apply (H2 j r). simpl in Hj. by apply lookup_delete_all in Hj.
Qed.

Lemma done_row_place q k d : place_of (dn_columns (done_row q k d)) = done_place d.
Proof. by destruct k as [[[[? ?] ?] ?] ?]. Qed.

Lemma take_done D E q target rows q' :
  delete_done target q = (rows, q') -> sinv D E q -> keeps D E q D (map (fun r => place_of (dn_columns r)) rows ++ E) q'.
Proof.
  unfold delete_done. set (deleted := List.filter target _). intros [= <- <-] Hs. pose proof Hs as [Hl _ H1 H2].
  apply (keeps_intro _ _ _ []); try done.
  - by apply (ledger_view D q).
  - pose proof (rows_delete_all done_place deleted (done_entries q)) as Hp.
    unfold places. change (done_places q) with (map (fun kv => done_place kv.2) (map_to_list (done_entries q))). rewrite Hp.
    + rewrite map_map, (map_ext (fun x => place_of (dn_columns (done_row q x.1 x.2))) (fun kv => done_place kv.2)) by (intros; apply done_row_place).
      change (done_places (set_done ?m q)) with (map (fun kv => done_place kv.2) (map_to_list m)).
      assert (foldr (fun kd m => delete kd.1 m) (done_entries q) deleted
              = foldr (fun k m => delete k m) (done_entries q) (map fst deleted)) as -> by (clear; induction deleted; simpl; congruence).
      simpl. solve_Permutation.
    + apply NoDup_map_filter, NoDup_fst_map_to_list.
    + intros [k d] [_ Hin]%elem_of_filter_b. by apply elem_of_map_to_list.
  - by intros a ?%elem_of_nil.
Qed.

(** ** Out of a lane *)

Lemma ledger_lanes D q s :
  ledger D q -> calm s -> ready_entries (tables s) = ready_rows q -> claim_batches (tables s) = claim_batches (tables (lanes q)) ->
  next_receipt (lanes q) <= next_receipt s -> next_batch (lanes q) <= next_batch s -> ledger D (set_lanes s q).
Proof.
  intros Hl Hc Hr Hcb Hn Hnb.
  assert (receipts (set_lanes s q) = receipts q) as Hrec by (unfold receipts; simpl; by rewrite Hcb).
  assert (running (set_lanes s q) = running q) as Hrun by (unfold running; by rewrite Hrec).
  destruct Hl. split; rewrite ?Hrec, ?Hrun; simpl; rewrite ?Hcb; try done.
  - intros x Hx%lg_receipt_ids0. lia.
  - intros b Hb%lg_batch_ids0. lia.
  - unfold ready_rows in *. simpl. by rewrite Hr.
Qed.

(** Only the ready jobs changed. *)
Lemma lanes_keeps D E E' q s :
  sinv D E q -> calm s -> ready_entries (tables s) = ready_rows q -> claim_batches (tables s) = claim_batches (tables (lanes q)) ->
  next_receipt (lanes q) <= next_receipt s -> next_batch (lanes q) <= next_batch s ->
  E' ++ map (fun r => place_of (rt_columns r)) (live s) ≡ₚ E ++ ready_places q ->
  keeps D E q D E' (set_lanes s q).
Proof.
  intros Hs Hc Hr Hcb Hn Hnb Hp. pose proof Hs as [Hl _ H1 H2]. apply (keeps_intro _ _ _ []); try done.
  - by apply ledger_lanes.
  - unfold places. assert (running_places (set_lanes s q) = running_places q) as ->.
    { unfold running_places, running, receipts. simpl. by rewrite Hcb. }
    change (ready_places (set_lanes s q)) with (map (fun r => place_of (rt_columns r)) (live s)).
    rewrite !app_assoc. by rewrite Hp.
  - by intros a ?%elem_of_nil.
  - intros e [He Hid]. split; [|intros id Hi%Hid; simpl; lia]. unfold claim_faithful in *. simpl. by rewrite Hcb.
  - intros x. unfold receipts. simpl. by rewrite Hcb.
Qed.

Lemma take_ready D E q r :
  sinv D E q -> r ∈ live (lanes q) ->
  let s := set_tables (tables_app (tables (lanes q)) (only_tombstone r)) (lanes q) in
  keeps D E q D (place_of (rt_columns r) :: E) (set_lanes s q) /\ sound (quiet s) (cancel_advance (tombstone_of r)).
Proof.
  intros Hs Hr s. pose proof (lg_calm _ _ (si_ledger _ _ _ Hs)) as Hc.
  destruct (calm_tombstone (lanes q) r Hc Hr) as (Hc' & Hp & Hsound). split; [|done].
  apply lanes_keeps; try done; [simpl; by rewrite app_nil_r..|]. unfold ready_places. rewrite Hp. simpl. apply Permutation_middle.
Qed.

Lemma advance_keeps D E q l :
  sinv D E q -> Forall (sound (quiet (lanes q))) l -> keeps D E q D E (set_lanes (advance_claim_cursors_strict l (lanes q)) q).
Proof.
  intros Hs Hl. pose proof (lg_calm _ _ (si_ledger _ _ _ Hs)) as Hc.
  destruct (calm_advances (lanes q) l Hc Hl) as (Hc' & Hlive & Et & En & Enb).
  apply lanes_keeps; try done; rewrite ?Et; try done; [by rewrite En|by rewrite Enb|by rewrite Hlive].
Qed.

(** ** Ending attempts *)

Lemma closed_receipt_spec q slot id : closed_receipt q slot id = true <-> (slot, id) ∈ map closure_key (closures q).
Proof.
  unfold closed_receipt. rewrite existsb_elem. split.
  - intros (c & Hc & [H1%Z.eqb_eq H2%Z.eqb_eq]%andb_true_iff). apply list_elem_of_fmap. exists c. split; [|done].
    unfold closure_key. by rewrite H1, H2.
  - intros (c & [= -> ->] & Hc)%list_elem_of_fmap. exists c. split; [done|]. by rewrite !Z.eqb_refl.
Qed.
Lemma unclosed_spec q x : unclosed q x = true <-> receipt_key x ∉ map closure_key (closures q).
Proof. unfold unclosed. rewrite negb_true_iff, <- not_true_iff_false, closed_receipt_spec. done. Qed.
Lemma running_elem q x : x ∈ running q <-> x ∈ receipts q /\ receipt_key x ∉ map closure_key (closures q).
Proof. unfold running. rewrite elem_of_filter_b, unclosed_spec. tauto. Qed.

Lemma receipt_by_id D q x y : ledger D q -> x ∈ receipts q -> y ∈ receipts q -> receipt_id x = receipt_id y -> x = y.
Proof. intros Hl. apply NoDup_map_inj, Hl. Qed.
Lemma receipt_by_attempt D q x y : ledger D q -> x ∈ receipts q -> y ∈ receipts q -> attempt_of x = attempt_of y -> x = y.
Proof. intros Hl. apply NoDup_map_inj, Hl. Qed.
Lemma running_NoDup D q : ledger D q -> NoDup (running q).
Proof.
  intros Hl. apply NoDup_ListNoDup, List.NoDup_filter, NoDup_ListNoDup. eapply NoDup_fmap_1, (lg_attempts _ _ Hl).
Qed.

Section Close.
Context (D : list (Z * Z)) (q : QStore) (outcome : string) (xs : list (ClaimBatch * ClaimItem)).
Hypothesis Hl : ledger D q.
Hypothesis Hrun : forall x, x ∈ xs -> x ∈ running q.
Hypothesis Hnd : NoDup (map attempt_of xs).
Let q' := close_receipts outcome xs q.

Lemma close_receipts_in x : x ∈ xs -> x ∈ receipts q.
Proof. intros Hx%Hrun. by apply running_elem in Hx as [? _]. Qed.

Lemma close_keys : map closure_key (closures q') = map closure_key (closures q) ++ map receipt_key xs.
Proof. unfold q', close_receipts. simpl. rewrite map_app, map_map. done. Qed.

Lemma close_receipt_in x : x ∈ receipts q -> (receipt_key x ∈ map receipt_key xs <-> x ∈ xs).
Proof.
  intros Hx. split; [|apply (list_elem_of_fmap_2 receipt_key)]. intros (y & E & Hy)%list_elem_of_fmap.
  assert (x = y) as ->; [|done]. injection E as _ E. apply (receipt_by_id D q); auto. by apply Hrun, running_elem in Hy as [? _].
Qed.

Lemma close_running x : x ∈ running q' <-> x ∈ running q /\ x ∉ xs.
Proof.
  rewrite !running_elem, close_keys, not_elem_of_app. change (receipts q') with (receipts q). split.
  - intros (Hx & Hk & Hn). rewrite close_receipt_in in Hn by done. tauto.
  - intros ((Hx & Hk) & Hn). rewrite close_receipt_in by done. tauto.
Qed.

Lemma close_perm : running q ≡ₚ xs ++ running q'.
Proof.
  assert (NoDup xs) as Hxs by by eapply NoDup_fmap_1.
  apply NoDup_Permutation; [by eapply running_NoDup| |].
  - apply NoDup_app. split; [done|]. split; [by intros x Hx [_ Hn]%close_running|].
    apply NoDup_ListNoDup, List.NoDup_filter, NoDup_ListNoDup. eapply NoDup_fmap_1, (lg_attempts _ _ Hl).
  - intros x. rewrite elem_of_app, close_running. split; [|intros [Hx|[Hx _]]; auto].
    intros Hx. destruct (decide (receipt_id x ∈ map receipt_id xs)) as [Hin|Hn].
    + left. apply list_elem_of_fmap in Hin as (y & E & Hy). assert (x = y) as ->; [|done].
      apply (receipt_by_id D q); auto; [by apply running_elem in Hx as [? _]|by apply Hrun, running_elem in Hy as [? _]].
    + right. split; [done|]. intros Hin. apply Hn. by apply list_elem_of_fmap_2.
Qed.

Lemma close_ledger :
  (forall l, l ∈ leases q -> lease_attempt l ∉ map attempt_of xs) -> ledger (map attempt_of xs ++ D) q'.
Proof.
  intros Hls. pose proof Hl as []. split; try done.
  - rewrite close_keys. apply NoDup_app. split; [done|]. split.
    + intros k Hk (x & -> & Hx)%list_elem_of_fmap. by apply Hrun, running_elem in Hx as [_ ?].
    + assert (NoDup (map receipt_id xs)) as Hids.
      { clear Hls. assert (NoDup xs) as Hxs by by eapply NoDup_fmap_1. apply NoDup_fmap_2_strong; [|done].
        intros x y E Hx Hy. apply (receipt_by_id D q); auto using close_receipts_in. }
      apply (NoDup_fmap_1 snd). change (snd <$> map receipt_key xs) with (map snd (map receipt_key xs)). by rewrite map_map.
  - intros c [Hc|(x & -> & Hx)%list_elem_of_fmap]%elem_of_app; [by apply lg_closed0|].
    exists x. split; [by apply Hrun, running_elem in Hx as [? _]|done].
  - intros l Hin. destruct (lg_leased0 l Hin) as (x & Hx & E). exists x. split; [|done]. apply close_running. split; [done|].
    intros Hxs. apply (Hls l Hin). apply list_elem_of_fmap. exists x. split; [|done]. destruct x as [b i].
    injection E. intros. unfold lease_attempt, attempt_of. simpl. congruence.
  - intros x [Hx _]%close_running. by apply lg_backed0.
  - intros x [Hx Hn]%close_running. rewrite not_elem_of_app. split; [|by apply lg_open0].
    intros (y & E & Hy)%list_elem_of_fmap. apply Hn. assert (x = y) as ->; [|done].
    apply (receipt_by_attempt D q); auto; [by apply running_elem in Hx as [? _]|by apply Hrun, running_elem in Hy as [? _]].
  - intros x Hx Hc. change (receipts q') with (receipts q) in Hx. apply elem_of_app.
    apply not_true_iff_false in Hc. rewrite unclosed_spec, close_keys, not_elem_of_app in Hc.
    destruct (decide (receipt_key x ∈ map receipt_key xs)) as [Hin|Hn].
    + left. apply list_elem_of_fmap_2. by apply close_receipt_in.
    + right. apply lg_ended0; [done|]. apply not_true_iff_false. rewrite unclosed_spec. tauto.
Qed.
End Close.

Lemma close_keeps D E q outcome xs :
  sinv D E q -> (forall x, x ∈ xs -> x ∈ running q) -> NoDup (map attempt_of xs) ->
  (forall l, l ∈ leases q -> lease_attempt l ∉ map attempt_of xs) ->
  keeps D E q (map attempt_of xs ++ D) (map attempt_of xs ++ E) (close_receipts outcome xs q).
Proof.
  intros Hs Hrun Hnd Hls. pose proof Hs as [Hl _ H1 H2].
  pose proof (close_perm D q outcome xs Hl Hrun Hnd) as Hp. apply keeps_intro; try done.
  - by apply close_ledger.
  - unfold places. unfold running_places at 2. rewrite Hp, map_app.
    change (map attempt_of (running (close_receipts outcome xs q))) with (running_places (close_receipts outcome xs q)).
    change (ready_places (close_receipts outcome xs q)) with (ready_places q). simpl. solve_Permutation.
  - intros a (x & -> & Hx)%list_elem_of_fmap. rewrite elem_of_app. right. unfold places. rewrite !elem_of_app. right. left.
    apply list_elem_of_fmap_2. by apply Hrun.
Qed.

(** Leases come and go with running attempts. *)
Lemma leases_keeps D E q ls :
  sinv D E q -> NoDup (map lease_attempt ls) ->
  (forall l, l ∈ ls -> exists x, x ∈ running q /\ dl_set_state Running (ls_row l) = receipt_row x) ->
  (forall l l' c, l ∈ ls -> l' ∈ ls -> ls_callback_id l = Some c -> ls_callback_id l' = Some c -> l = l') ->
  keeps D E q D E (set_leases ls q).
Proof.
  intros Hs Hn Hls Hc. pose proof Hs as [Hl Ha H1 H2]. split; try done. split; try done. destruct Hl. by split.
Qed.

Lemma delete_leases_keeps D E q target deleted q' :
  delete_leases target q = (deleted, q') -> sinv D E q -> keeps D E q D E q'.
Proof.
  unfold delete_leases. intros [= <- <-] Hs. pose proof (si_ledger _ _ _ Hs) as Hl. apply leases_keeps; [done|..].
  - apply NoDup_map_filter, Hl.
  - intros l [_ Hin]%elem_of_filter_b. by apply Hl.
  - intros l l' c [_ H1]%elem_of_filter_b [_ H2]%elem_of_filter_b. by apply Hl.
Qed.

(** An update that keeps the attempt, and the callback or its absence or one
    nobody waits for. *)
Lemma update_leases_keeps D E q target f fresh :
  (forall l, dl_set_state Running (ls_row (f l)) = dl_set_state Running (ls_row l)) ->
  (forall l, target l = true -> ls_callback_id (f l) = ls_callback_id l \/ ls_callback_id (f l) = None
     \/ ls_callback_id (f l) = Some fresh /\ (forall l', l' ∈ leases q -> ls_callback_id l' <> Some fresh)
        /\ (forall l', target l' = true -> lease_attempt l' = lease_attempt l)) ->
  sinv D E q -> keeps D E q D E (update_leases target f q).
Proof.
  intros Hf Hcb Hs. pose proof (si_ledger _ _ _ Hs) as Hl.
  assert (forall l, lease_attempt (f l) = lease_attempt l) as Ha.
  { intros l. specialize (Hf l). unfold lease_attempt. unfold dl_set_state in Hf. congruence. }
  unfold update_leases. apply leases_keeps; [done|..].
  - rewrite map_map. erewrite map_ext; [apply (lg_leases _ _ Hl)|]. intros l. by destruct (target l).
  - intros l (l' & -> & Hin)%list_elem_of_fmap. destruct (lg_leased _ _ Hl l' Hin) as (x & Hx & E'). exists x. split; [done|].
    destruct (target l'); [by rewrite Hf|done].
  - intros l l' c (l1 & -> & H1)%list_elem_of_fmap (l2 & -> & H2)%list_elem_of_fmap E1 E2.
    assert (l1 = l2) as ->; [|done]. pose proof (lg_callbacks _ _ Hl l1 l2) as Hu.
    assert (lease_attempt l1 = lease_attempt l2 -> l1 = l2) as Hat by by apply (NoDup_map_inj lease_attempt (leases q) l1 l2 (lg_leases _ _ Hl)).
    destruct (target l1) eqn:T1, (target l2) eqn:T2.
    + destruct (Hcb l1 T1) as [C1|[C1|(C1 & F1 & A1)]], (Hcb l2 T2) as [C2|[C2|(C2 & F2 & A2)]];
        rewrite ?C1, ?C2 in *; try done; try (by apply (Hu c)); apply Hat; solve [auto | symmetry; auto].
    + destruct (Hcb l1 T1) as [C1|[C1|(C1 & F1 & A1)]]; rewrite ?C1 in *; try done; [by apply (Hu c)|].
      injection E1 as <-. by destruct (F1 l2 H2).
    + destruct (Hcb l2 T2) as [C2|[C2|(C2 & F2 & A2)]]; rewrite ?C2 in *; try done; [by apply (Hu c)|].
      injection E2 as <-. by destruct (F2 l1 H1).
    + by apply (Hu c).
Qed.
