(* ===== verification/AttemptFacts.v ===== *)
(** Operations of queue storage keep every job in one place: taking a running
    attempt and settling its outcome, callbacks, completion and rescue. *)

From S2P Require Import Prelude.
From S2P Require Import Error.
From S2P Require Import Json.
From S2P Require Import Job.
From S2P Require Import Rows.
From S2P Require Import Lanes.
From S2P Require Import LanesFacts.
From S2P Require Import Enqueue.
From S2P Require Import AtomicLanes.
From S2P Require Import QueueStore.
From S2P Require Import Attempts.
From S2P Require Import Callbacks.
From S2P Require Import AttemptRescue.
From S2P Require Import Completion.
From S2P Require Import StoreAdmin.
From S2P Require Import StoreFacts.

(** * Hydration *)

Lemma filter_unique {A B} `{EqDecision B} (f : A -> B) (g : A -> bool) (l : list A) x :
  NoDup (map f l) -> x ∈ l ->
  List.filter (fun y => bool_decide (f y = f x) && g y) l = if g x then [x] else [].
Proof.
  induction l as [|y l IH]; [by intros _ ?%elem_of_nil|]. simpl. intros [Hy Hl]%NoDup_cons [->|Hx]%elem_of_cons.
  - rewrite bool_decide_true by done. simpl. assert (List.filter (fun z => bool_decide (f z = f y) && g z) l = []) as E.
    { apply filter_none. intros z Hz. rewrite bool_decide_false; [done|]. intros Ez. apply Hy. rewrite <- Ez. by apply list_elem_of_fmap_2. }
    by destruct (g y); rewrite E.
  - rewrite bool_decide_false by (intros Ez; apply Hy; rewrite Ez; by apply list_elem_of_fmap_2). simpl. by apply IH.
Qed.

Lemma hydrate_rows_places q deleted rows :
  all_ok (hydrate_row q) deleted = Ok rows -> map (fun r => place_of (lt_columns r)) rows = map dl_attempt_of deleted.
Proof.
  revert rows. induction deleted as [|d deleted IH]; simpl; intros rows; [by intros [= <-]|].
  intros (r & Hr & (rs & Hrs & [= <-])%rbind_Ok)%rbind_Ok. simpl. rewrite (IH rs Hrs). f_equal.
  unfold hydrate_row in Hr. destruct (snapshot_of _ d); [|done]. by injection Hr as <-.
Qed.

(** Attempts whose receipt is open, and no longer leased. *)
Lemma hydrate_keeps D E q deleted rows q' :
  hydrate_deleted_leases_tx deleted true q = Ok (rows, q') -> sinv D E q -> NoDup (map dl_attempt_of deleted) ->
  (forall d, d ∈ deleted -> exists x, x ∈ running q /\ attempt_of x = dl_attempt_of d) ->
  (forall l, l ∈ leases q -> lease_attempt l ∉ map dl_attempt_of deleted) ->
  map (fun r => place_of (lt_columns r)) rows = map dl_attempt_of deleted
  /\ keeps D E q (map dl_attempt_of deleted ++ D) (map dl_attempt_of deleted ++ E) q'.
Proof.
  unfold hydrate_deleted_leases_tx. intros (rows' & Hr & [= <- <-])%rbind_Ok Hs Hn Hx Hl.
  split; [by eapply hydrate_rows_places|]. pose proof (si_ledger _ _ _ Hs) as HL.
  set (q1 := delete_attempts deleted q). assert (view q1 = view q) as Hv by done.
  assert (map attempt_of (receipts_to_close q1 deleted) = map dl_attempt_of deleted
          /\ forall x, x ∈ receipts_to_close q1 deleted -> x ∈ running q) as [E1 E2].
  { unfold receipts_to_close. change (receipts q1) with (receipts q). change (closed_receipt q1) with (closed_receipt q).
    clear Hr Hn Hl Hv. clearbody q1. induction deleted as [|d ds IH]; [by split; [|intros ? ?%elem_of_nil]|].
    destruct (Hx d ltac:(left)) as (x & [Hxin Hxo]%running_elem & Ed).
    destruct IH as [IH1 IH2]; [intros; apply Hx; by right|]. simpl.
    assert (List.filter (fun y => bool_decide (attempt_of y = dl_attempt_of d)
              && negb (closed_receipt q (cb_claim_slot y.1) (ci_receipt_id y.2))) (receipts q) = [x]) as Ex.
    { rewrite <- Ed. etransitivity; [apply (filter_unique attempt_of (unclosed q) (receipts q) x); [apply HL|done]|].
      apply unclosed_spec in Hxo. by rewrite Hxo. }
    rewrite Ex. simpl. split; [by rewrite IH1, Ed|]. intros y [->|Hy]%elem_of_cons; [by apply running_elem|]. by apply IH2. }
  eapply keeps_trans; [by apply (keeps_view D E q q1)|]. rewrite <- E1. apply close_keeps; [by eapply sinv_view|done|by rewrite E1|by rewrite E1].
Qed.

(** Attempts whose receipt is closed already. *)
Lemma hydrate_closed_view deleted write q rows q' :
  hydrate_deleted_leases_tx deleted write q = Ok (rows, q') ->
  (forall d x, d ∈ deleted -> x ∈ receipts q -> attempt_of x = dl_attempt_of d -> unclosed q x = false) ->
  view q' = view q /\ map (fun r => place_of (lt_columns r)) rows = map dl_attempt_of deleted.
Proof.
  unfold hydrate_deleted_leases_tx. intros (rows' & Hr & [= <- <-])%rbind_Ok Hx. split; [|by eapply hydrate_rows_places].
  destruct write; [|done]. assert (receipts_to_close (delete_attempts deleted q) deleted = []) as ->.
  { clear Hr. unfold receipts_to_close. change (receipts (delete_attempts deleted q)) with (receipts q).
    change (closed_receipt (delete_attempts deleted q)) with (closed_receipt q).
    induction deleted as [|d ds IH]; [done|]. simpl. rewrite IH by (intros; eapply Hx; [by right|done|done]). rewrite app_nil_r.
    apply filter_none. intros x Hxin. case_bool_decide as E; [|done]. simpl. exact (Hx d x ltac:(left) Hxin E). }
  unfold close_receipts. simpl. unfold view. simpl. by rewrite app_nil_r.
Qed.

(** * Taking an attempt *)

Lemma has_lease_spec q a : has_lease q a = false <-> forall l, l ∈ leases q -> lease_attempt l <> a.
Proof.
  unfold has_lease. rewrite <- not_true_iff_false, existsb_elem. setoid_rewrite bool_decide_eq_true. naive_solver.
Qed.
Lemma open_receipt_spec q x :
  open_receipt q x = true -> unclosed q x = true /\ (forall l, l ∈ leases q -> lease_attempt l <> attempt_of x) /\ has_outcome_row q (attempt_of x) = false.
Proof.
  unfold open_receipt. rewrite !andb_true_iff, !negb_true_iff, has_lease_spec. unfold unclosed. rewrite negb_true_iff. tauto.
Qed.

(** One open receipt closed and hydrated. *)
Lemma close_one_keeps D E q outcome x write rows q' :
  x ∈ receipts q -> open_receipt q x = true -> sinv D E q ->
  hydrate_deleted_leases_tx [receipt_row x] write (close_receipts outcome [x] q) = Ok (rows, q') ->
  exists moved, rows = [moved] /\ place_of (lt_columns moved) = attempt_of x
    /\ keeps D E q (attempt_of x :: D) (attempt_of x :: E) q' /\ (attempt_of x ∉ D).
Proof.
  intros Hx (Hu & Hl & _)%open_receipt_spec Hs H. pose proof (si_ledger _ _ _ Hs) as HL.
  assert (attempt_of x ∉ D) as Hopen by (apply (lg_open _ _ HL); by apply elem_of_filter_b).
  assert (keeps D E q (attempt_of x :: D) (attempt_of x :: E) (close_receipts outcome [x] q)) as K.
  { apply (close_keeps D E q outcome [x]); [done|..].
    - intros y ->%list_elem_of_singleton. apply running_elem. by apply unclosed_spec in Hu.
    - by apply NoDup_singleton.
    - intros l Hin ?%list_elem_of_singleton. by apply (Hl l). }
  destruct (hydrate_closed_view _ _ _ _ _ H) as [Hv Hp].
  - intros d y ->%list_elem_of_singleton Hy E'. change (receipts (close_receipts outcome [x] q)) with (receipts q) in Hy.
    assert (y = x) as -> by (apply (receipt_by_attempt D q); auto; by destruct x).
    apply not_true_iff_false. rewrite unclosed_spec, close_keys, elem_of_app. intros Hn. apply Hn. right. by left.
  - destruct rows as [|moved [|? ?]]; try done. exists moved. split; [done|]. split; [transitivity (dl_attempt_of (receipt_row x)); [simpl in Hp; congruence|by destruct x]|].
    split; [|done]. eapply keeps_trans; [exact K|]. by apply keeps_view, K.
Qed.

(** What a deletion of leases returns. *)
Lemma deleted_leases D q target deleted q' :
  delete_leases target q = (deleted, q') -> ledger D q ->
  NoDup (map dl_attempt_of deleted)
  /\ (forall d, d ∈ deleted -> exists x, x ∈ running q' /\ attempt_of x = dl_attempt_of d)
  /\ (forall l, l ∈ leases q' -> lease_attempt l ∉ map dl_attempt_of deleted).
Proof.
  unfold delete_leases. intros [= <- <-] HL. split_and!.
  - rewrite map_map. apply (NoDup_map_filter lease_attempt), HL.
  - intros d (l & -> & [_ Hin]%elem_of_filter_b)%list_elem_of_fmap. destruct (lg_leased _ _ HL l Hin) as (x & Hx & E).
    exists x. split; [done|]. destruct x as [b i]. unfold attempt_of, dl_attempt_of. injection E. simpl. congruence.
  - intros l [Hn Hin]%elem_of_filter_b. rewrite map_map. intros (l' & E & [Ht Hin']%elem_of_filter_b)%list_elem_of_fmap.
    assert (l = l') as -> by by apply (NoDup_map_inj lease_attempt _ _ _ (lg_leases _ _ HL)). by rewrite Ht in Hn.
Qed.

Lemma deleted_open D q target deleted q' d :
  delete_leases target q = (deleted, q') -> ledger D q -> d ∈ deleted -> dl_attempt_of d ∉ D.
Proof.
  intros Hd HL Hin. destruct (deleted_leases _ _ _ _ _ Hd HL) as (_ & Hx & _). destruct (Hx d Hin) as (x & Hr & <-).
  unfold delete_leases in Hd. injection Hd as _ <-. by apply (lg_open _ _ HL).
Qed.

Lemma take_leases_keeps D E q target deleted q1 rows q' :
  delete_leases target q = (deleted, q1) -> hydrate_deleted_leases_tx deleted true q1 = Ok (rows, q') -> sinv D E q ->
  map (fun r => place_of (lt_columns r)) rows = map dl_attempt_of deleted
  /\ keeps D E q (map dl_attempt_of deleted ++ D) (map dl_attempt_of deleted ++ E) q'.
Proof.
  intros Hd Hh Hs. destruct (deleted_leases _ _ _ _ _ Hd (si_ledger _ _ _ Hs)) as (Hn & Hx & Hl).
  pose proof (delete_leases_keeps _ _ _ _ _ _ Hd Hs) as K1.
  destruct (hydrate_keeps _ _ _ _ _ _ Hh (kp_inv _ _ _ _ _ _ K1) Hn Hx Hl) as [Hp K2].
  split; [done|]. by eapply keeps_trans.
Qed.

(** A deletion of leases of one attempt takes one. *)
Lemma deleted_one D q target d deleted q' a :
  delete_leases target q = (d :: deleted, q') -> ledger D q -> (forall l, target l = true -> lease_attempt l = a) ->
  deleted = [] /\ dl_attempt_of d = a.
Proof.
  intros H HL Ht. destruct (deleted_leases _ _ _ _ _ H HL) as (Hn & _). unfold delete_leases in H.
  injection H as Hd _. assert (forall d', d' ∈ d :: deleted -> dl_attempt_of d' = a) as Ha.
  { intros d'. rewrite <- Hd. intros (l & -> & [Hl _]%elem_of_filter_b)%list_elem_of_fmap. by apply Ht. }
  split; [|apply Ha; left]. destruct deleted as [|d' deleted]; [done|]. simpl in Hn. apply NoDup_cons in Hn as [Hn _].
  destruct Hn. rewrite (Ha d) by left. rewrite <- (Ha d') by (right; left). left.
Qed.

(** The outcome of a taking: nothing, or the attempt in transit. *)
Definition taken (D E : list (Z * Z)) (q : QStore) (a : Z * Z) (moved : option LeaseTransitionRow) (q' : QStore) : Prop :=
  match moved with
  | Some m => place_of (lt_columns m) = a /\ keeps D E q (a :: D) (a :: E) q' /\ (a ∉ D)
  | None => keeps D E q D E q'
  end.

Lemma claim_batch_receipt q b i : b ∈ claim_batches (tables (lanes q)) -> i ∈ cb_items b -> (b, i) ∈ receipts q.
Proof.
  intros Hb Hi. unfold receipts. apply list_elem_of_In, in_concat. exists (map (fun i => (b, i)) (cb_items b)). split.
  - apply list_elem_of_In. by apply (list_elem_of_fmap_2 (fun b => map (fun i => (b, i)) (cb_items b))).
  - apply list_elem_of_In. by apply (list_elem_of_fmap_2 (fun i => (b, i))).
Qed.

Lemma close_open_receipt_taken D E job_id run_lease outcome claim q moved q' :
  close_open_receipt_claim_tx job_id run_lease outcome claim q = Ok (moved, q') -> sinv D E q ->
  taken D E q (job_id, run_lease) moved q' /\ (moved = None -> q' = q).
Proof.
  intros H Hs.
  assert (forall r q2, match List.filter (fun x => bool_decide (attempt_of x = (job_id, run_lease)) && open_receipt q x) (receipts q) with
            | [] => Ok (None, q)
            | x :: _ => let? (moved, q) := hydrate_deleted_leases_tx [receipt_row x] true (close_receipts outcome [x] q) in
                        Ok (head moved, q)
            end = @Ok AwaError _ (r, q2) -> taken D E q (job_id, run_lease) r q2 /\ (r = None -> q2 = q)) as Hby.
  { intros r q2. destruct (List.filter _ _) as [|x xs] eqn:Hf; [intros [= <- <-]; split; [by apply keeps_refl|done]|].
    assert (x ∈ x :: xs) as Hx by left. rewrite <- Hf in Hx. apply elem_of_filter_b in Hx as [[Ha%bool_decide_eq_true Ho]%andb_true_iff Hx].
    intros ([rows q3] & Hh & [= <- <-])%rbind_Ok.
    destruct (close_one_keeps D E q outcome x true rows q3 Hx Ho Hs Hh) as (m & -> & Hp & K & Hn). rewrite Ha in *. by split. }
  unfold close_open_receipt_claim_tx in H. destruct claim as [claim|]; [|by apply Hby].
  destruct (ce_lease_claim_receipt claim), (ce_claim_batch_id claim) as [batch_id|], (ce_claim_batch_index claim) as [index|],
    (ce_receipt_id claim) as [rid|]; try by apply Hby.
  apply rbind_Ok in H as ([deleted q1] & Hc & H). unfold close_compact_receipt_claim_tx in Hc.
  destruct (ce_claim_slot claim <? 0); [done|]. set (target := _ ≫= _) in Hc.
  assert (forall x, target = Some x -> x ∈ receipts q) as Htarget.
  { intros x. unfold target. destruct (List.find _ _) as [b|] eqn:Hb; [|done]. simpl. destruct (1 <=? index); [|done].
    destruct (cb_items b !! _) as [i|] eqn:Hi; [|done]. intros [= <-]. apply claim_batch_receipt; [by apply find_elem in Hb as [? _]|].
    by eapply list_elem_of_lookup_2. }
  destruct target as [x|]; [|injection Hc as <- <-; injection H as <- <-; split; [by apply keeps_refl|done]].
  destruct (_ && open_receipt q x) eqn:Hg; [|injection Hc as <- <-; injection H as <- <-; split; [by apply keeps_refl|done]].
  injection Hc as <- <-. apply rbind_Ok in H as ([rows q3] & Hh & [= <- <-]).
  rewrite !andb_true_iff, !Z.eqb_eq in Hg. destruct Hg as [[[H1 H2] _] Ho].
  destruct (close_one_keeps D E q outcome x false rows q3 (Htarget x eq_refl) Ho Hs Hh) as (m & -> & Hp & K & Hn).
  assert (attempt_of x = (job_id, run_lease)) as Ea by (unfold attempt_of; by rewrite H1, H2). rewrite Ea in *. by split.
Qed.

Lemma take_running_taken D E job_id run_lease outcome claim q moved q' :
  take_running_attempt_tx job_id run_lease outcome claim q = Ok (moved, q') -> sinv D E q ->
  taken D E q (job_id, run_lease) moved q'.
Proof.
  intros H Hs. unfold take_running_attempt_tx in H. apply rbind_Ok in H as ([m q1] & Hc & H).
  destruct (close_open_receipt_taken _ _ _ _ _ _ _ _ _ Hc Hs) as [Ht Hn].
  destruct m as [m|]; [by injection H as <- <-|]. rewrite (Hn eq_refl) in H. clear Hc Ht Hn q1.
  destruct (delete_leases _ q) as [deleted q2] eqn:Hd. pose proof (delete_leases_keeps _ _ _ _ _ _ Hd Hs) as K.
  destruct deleted as [|d deleted]; [injection H as <- <-; exact K|].
  apply rbind_Ok in H as ([rows q3] & Hh & [= <- <-]).
  destruct (deleted_one D q _ d deleted q2 (job_id, run_lease) Hd (si_ledger _ _ _ Hs)) as [-> Ha].
  { intros l [Hl%bool_decide_eq_true _]%andb_true_iff. done. }
  pose proof (deleted_open D q _ _ _ d Hd (si_ledger _ _ _ Hs) ltac:(left)) as Hopen.
  destruct (take_leases_keeps _ _ _ _ _ _ _ _ Hd Hh Hs) as [Hp K2]. simpl in *. rewrite Ha in *.
  destruct rows as [|m [|? ?]]; try done. simpl. split; [simpl in Hp; congruence|done].
Qed.

(** * Outcomes *)

(** The attempt may have ended. *)
Definition settles (D E : list (Z * Z)) (q : QStore) (a : Z * Z) (r : option JobRow) (q' : QStore) : Prop :=
  exists D', keeps D E q D' E q' /\ (r <> None -> a ∈ D' /\ a ∉ D).

Lemma settles_none D E q a q' : taken D E q a None q' -> settles D E q a None q'.
Proof. intros K. by exists D. Qed.
Lemma settles_some D E q a m q1 r q' :
  taken D E q a (Some m) q1 -> keeps (a :: D) (place_of (lt_columns m) :: E) q1 (a :: D) E q' -> settles D E q a r q'.
Proof.
  intros (Hp & K1 & Hn) K2. rewrite Hp in K2. exists (a :: D). split; [by eapply keeps_trans|]. intros _. split; [left|done].
Qed.

(** One row put where it belongs. *)
Lemma one_deferred_keeps D E row old q q' :
  insert_deferred_rows_tx [row] old q = Ok q' -> sinv D (place_of (df_columns row) :: E) q ->
  keeps D (place_of (df_columns row) :: E) q D E q'.
Proof. apply (insert_deferred_keeps D E [row]). Qed.
Lemma one_done_keeps D E env row old q q' :
  insert_done_rows_tx env [row] old q = Ok q' -> sinv D (place_of (dn_columns row) :: E) q ->
  keeps D (place_of (dn_columns row) :: E) q D E q'.
Proof. apply (insert_done_keeps D E env [row]). Qed.
Lemma one_dlq_keeps D E row old q q' :
  insert_dlq_rows_tx [row] old q = Ok q' -> sinv D (place_of (dq_columns row) :: E) q ->
  keeps D (place_of (dq_columns row) :: E) q D E q'.
Proof. apply (insert_dlq_keeps D E [row]). Qed.
Lemma one_ready_keeps D E env row old q q' :
  insert_existing_ready_rows_tx env [row] old q = Ok q' -> sinv D (place_of row :: E) q ->
  keeps D (place_of row :: E) q D E q'.
Proof. apply (insert_ready_keeps D E env [row]). Qed.

(** Open the binds of an operation that returned. *)
Ltac open_binds :=
  repeat match goal with
  | H : rbind _ _ = Ok _ |- _ => apply rbind_Ok in H; destruct H as (? & ? & H)
  | H : Ok _ = Ok _ |- _ => injection H as H
  | H : Err _ = Ok _ |- _ => discriminate H
  | H : (let '(_, _) := ?p in _) = Ok _ |- _ => destruct p
  | H : _ = _ /\ _ |- _ => destruct H
  end.
(** The row in transit goes where the operation put it. *)
Ltac put_row Hinv :=
  match goal with
  | Hi : insert_deferred_rows_tx [?row] ?old ?q = Ok ?q' |- keeps ?D (_ :: ?E) _ _ _ _ => exact (one_deferred_keeps D E row old q q' Hi Hinv)
  | Hi : insert_done_rows_tx ?env [?row] ?old ?q = Ok ?q' |- keeps ?D (_ :: ?E) _ _ _ _ => exact (one_done_keeps D E env row old q q' Hi Hinv)
  | Hi : insert_dlq_rows_tx [?row] ?old ?q = Ok ?q' |- keeps ?D (_ :: ?E) _ _ _ _ => exact (one_dlq_keeps D E row old q q' Hi Hinv)
  | Hi : insert_existing_ready_rows_tx ?env [?row] ?old ?q = Ok ?q' |- keeps ?D (_ :: ?E) _ _ _ _ =>
      exact (one_ready_keeps D E env row old q q' Hi Hinv)
  end.
(** An operation that took an attempt and put its row. *)
Ltac settle :=
  match goal with
  | Ht : taken _ _ _ _ (Some ?m) _ |- settles _ _ _ _ _ _ =>
      let Hp := fresh in let Hinv := fresh in
      eapply settles_some; [exact Ht|]; destruct Ht as (Hp & [Hinv _ _ _ _] & _); rewrite <- Hp in Hinv at 2; put_row Hinv
  end.

Section Outcomes.
Context (D E : list (Z * Z)) (env : StoreEnv) (job_id run_lease : Z) (claim : option ClaimedEntry) (q : QStore).
Hypothesis Hs : sinv D E q.
Abbreviation a := (job_id, run_lease) (only parsing).

Lemma retry_after_settles delay secs progress output r q' :
  retry_after env job_id run_lease delay secs progress claim output q = Ok (r, q') -> settles D E q a r q'.
Proof.
  unfold retry_after. intros ([m q1] & Ht & H)%rbind_Ok. apply (take_running_taken D E) in Ht; [|exact Hs].
  destruct m as [m|]; [|injection H as <- <-; by apply settles_none]. open_binds. subst. settle.
Qed.

Lemma snooze_settles snooze_for progress r q' :
  snooze env job_id run_lease snooze_for progress claim q = Ok (r, q') -> settles D E q a r q'.
Proof.
  unfold snooze. intros ([m q1] & Ht & H)%rbind_Ok. apply (take_running_taken D E) in Ht; [|exact Hs].
  destruct m as [m|]; [|injection H as <- <-; by apply settles_none]. open_binds. subst. settle.
Qed.

Lemma cancel_running_settles reason progress r q' :
  cancel_running env job_id run_lease reason progress claim q = Ok (r, q') -> settles D E q a r q'.
Proof.
  unfold cancel_running. intros ([m q1] & Ht & H)%rbind_Ok. apply (take_running_taken D E) in Ht; [|exact Hs].
  destruct m as [m|]; [|injection H as <- <-; by apply settles_none]. open_binds. subst. settle.
Qed.

Lemma fail_terminal_settles error progress r q' :
  fail_terminal env job_id run_lease error progress claim q = Ok (r, q') -> settles D E q a r q'.
Proof.
  unfold fail_terminal. intros ([m q1] & Ht & H)%rbind_Ok. apply (take_running_taken D E) in Ht; [|exact Hs].
  destruct m as [m|]; [|injection H as <- <-; by apply settles_none]. open_binds. subst. settle.
Qed.

Lemma fail_to_dlq_settles reason error progress r q' :
  fail_to_dlq env job_id run_lease reason error progress claim q = Ok (r, q') -> settles D E q a r q'.
Proof.
  unfold fail_to_dlq. intros ([m q1] & Ht & H)%rbind_Ok. apply (take_running_taken D E) in Ht; [|exact Hs].
  destruct m as [m|]; [|injection H as <- <-; by apply settles_none]. open_binds. subst. settle.
Qed.

Lemma fail_retryable_settles error progress delay r q' :
  fail_retryable env job_id run_lease error progress claim delay q = Ok (r, q') -> settles D E q a r q'.
Proof.
  unfold fail_retryable. intros ([m q1] & Ht & H)%rbind_Ok. apply (take_running_taken D E) in Ht; [|exact Hs].
  destruct m as [m|]; [|injection H as <- <-; by apply settles_none].
  destruct (_ <=? _); open_binds; subst; [settle|settle].
Qed.
End Outcomes.

(** * A running job is nowhere else *)

Lemma NoDup_fst_app (A B : list (Z * Z)) j l l' : NoDup (map fst (A ++ B)) -> (j, l) ∈ A -> (j, l') ∈ B -> False.
Proof.
  rewrite map_app. intros (_ & Hd & _)%NoDup_app Ha Hb. apply (Hd j); [|by apply (list_elem_of_fmap_2 fst _ (j, l'))].
  by apply (list_elem_of_fmap_2 fst _ (j, l)).
Qed.

Lemma running_alone D E q j l l' :
  sinv D E q -> (j, l) ∈ running_places q ->
  (j, l') ∈ deferred_places q ++ done_places q ++ completed_places q ++ dlq_places q -> False.
Proof.
  intros [_ [Hn _ _ _] _ _] Hr Hd. unfold places in Hn. rewrite app_assoc, map_app in Hn. apply NoDup_app in Hn as (_ & _ & Hn).
  by eapply NoDup_fst_app.
Qed.

Lemma running_no_outcome D E q x : sinv D E q -> x ∈ running q -> has_outcome_row q (attempt_of x) = false.
Proof.
  intros Hs Hx. assert (attempt_of x ∈ running_places q) as Hr by by apply list_elem_of_fmap_2.
  destruct (attempt_of x) as [j l]. apply not_true_iff_false. unfold has_outcome_row. rewrite !orb_true_iff, existsb_elem.
  intros [[([k d] & Hd & E'%bool_decide_eq_true)|Hd]|Hd]; apply (running_alone _ _ _ j l l Hs Hr); rewrite !elem_of_app.
  - right. left. rewrite <- E'. by apply (list_elem_of_fmap_2 (fun kv : _ * DoneEntry => (de_job_id kv.2, de_run_lease kv.2)) _ (k, d)).
  - left. simpl in Hd. destruct (deferred_jobs q !! j) as [r|] eqn:Hj; [|done]. apply Z.eqb_eq in Hd.
    apply list_elem_of_fmap. exists (j, r). split; [|by apply elem_of_map_to_list].
    unfold place_of. simpl. by rewrite (si_deferred _ _ _ Hs j r Hj), Hd.
  - right. right. right. simpl in Hd. destruct (dlq_entries q !! j) as [r|] eqn:Hj; [|done]. apply Z.eqb_eq in Hd.
    apply list_elem_of_fmap. exists (j, r). split; [|by apply elem_of_map_to_list].
    unfold place_of. simpl. by rewrite (si_dlq _ _ _ Hs j r Hj), Hd.
Qed.

Lemma NoDup_running_jobs D E q : sinv D E q -> NoDup (map (fun x => ci_job_id x.2) (running q)).
Proof.
  intros [_ [Hn _ _ _] _ _]. unfold places in Hn. rewrite !map_app in Hn. apply NoDup_app in Hn as (_ & _ & Hn).
  apply NoDup_app in Hn as (_ & _ & Hn). apply NoDup_app in Hn as (Hn & _). unfold running_places in Hn. by rewrite map_map in Hn.
Qed.

(** At most one lease of a job. *)
Lemma lease_by_job D E q l l' :
  sinv D E q -> l ∈ leases q -> l' ∈ leases q -> dl_job_id (ls_row l) = dl_job_id (ls_row l') -> l = l'.
Proof.
  intros Hs Hl Hl' Ej. pose proof (si_ledger _ _ _ Hs) as HL.
  destruct (lg_leased _ _ HL l Hl) as ([b i] & Hx & E1), (lg_leased _ _ HL l' Hl') as ([b' i'] & Hx' & E2).
  assert ((b, i) = (b', i')) as E3.
  { apply (NoDup_map_inj (fun x => ci_job_id x.2) (running q)); [by eapply NoDup_running_jobs|done|done|].
    unfold dl_set_state in E1, E2. simpl in *. congruence. }
  apply (NoDup_map_inj lease_attempt (leases q)); [apply HL|done|done|]. unfold lease_attempt.
  unfold dl_set_state in E1, E2. simpl in *. congruence.
Qed.

Lemma deleted_one_job D E q target d deleted q' job_id :
  delete_leases target q = (d :: deleted, q') -> sinv D E q -> (forall l, target l = true -> dl_job_id (ls_row l) = job_id) ->
  deleted = [].
Proof.
  intros H Hs Ht. unfold delete_leases in H. injection H as Hd _.
  destruct (List.filter target (leases q)) as [|l [|l' ls]] eqn:Hf; try done; [by injection Hd as _ <-|].
  assert (NoDup (l :: l' :: ls)) as [Hn _]%NoDup_cons.
  { rewrite <- Hf. apply (NoDup_fmap_1 lease_attempt), NoDup_map_filter, (si_ledger _ _ _ Hs). }
  assert (forall z, z ∈ l :: l' :: ls -> z ∈ leases q /\ dl_job_id (ls_row z) = job_id) as Hz.
  { intros z. rewrite <- Hf. intros [Hz ?]%elem_of_filter_b. auto. }
  destruct (Hz l ltac:(left)) as [Hl Ej], (Hz l' ltac:(right; left)) as [Hl' Ej']. destruct Hn.
  rewrite (lease_by_job D E q l l' Hs Hl Hl') by congruence. left.
Qed.

(** * Attempts that go on *)

Lemma heartbeat_keeps D E env jobs q : sinv D E q -> keeps D E q D E (heartbeat_batch env jobs q).
Proof. by apply keeps_view. Qed.
Lemma heartbeat_progress_keeps D E env jobs q : sinv D E q -> keeps D E q D E (heartbeat_progress_batch env jobs q).
Proof. by apply keeps_view. Qed.
Lemma heartbeat_claims_keeps D E env refs q : sinv D E q -> keeps D E q D E (heartbeat_claims_batch env refs q).
Proof. by apply keeps_view. Qed.
Lemma flush_progress_keeps D E env job_id run_lease progress q :
  sinv D E q -> keeps D E q D E (flush_progress env job_id run_lease progress q).
Proof. apply keeps_view. unfold flush_progress. by destruct (existsb _ _). Qed.

Lemma insert_leases_app rows ls ls' : insert_leases rows ls = Ok ls' -> ls' = ls ++ rows.
Proof.
  revert ls. induction rows as [|r rows IH]; intros ls; simpl; [intros [= <-]; by rewrite app_nil_r|].
  destruct (existsb _ ls); [done|]. intros ->%IH. by rewrite <- app_assoc.
Qed.

Lemma unclosed_receipts_of_spec q a x : x ∈ unclosed_receipts_of q a -> x ∈ running q /\ attempt_of x = a.
Proof.
  unfold unclosed_receipts_of. intros [[Ha%bool_decide_eq_true Hu]%andb_true_iff Hx]%elem_of_filter_b.
  unfold unclosed_receipt in Hu. apply andb_true_iff in Hu as [Hu _]. split; [|done]. by apply elem_of_filter_b.
Qed.

Lemma ensure_leases_keeps D E env a q q' :
  ensure_running_leases_from_receipts_tx env [a] q = Ok q' -> sinv D E q -> keeps D E q D E q'.
Proof.
  unfold ensure_running_leases_from_receipts_tx. simpl. rewrite app_nil_r. set (xs := List.filter _ _).
  intros (ls & ->%insert_leases_app & [= <-])%rbind_Ok Hs. pose proof (si_ledger _ _ _ Hs) as HL.
  assert (forall x, x ∈ xs -> x ∈ running q /\ forall l, l ∈ leases q -> lease_attempt l <> attempt_of x) as Hxs.
  { intros x [Hn%negb_true_iff Hx]%elem_of_filter_b. apply unclosed_receipts_of_spec in Hx as [Hx _].
    split; [done|]. by apply has_lease_spec. }
  assert (map lease_attempt (map (materialized env) xs) = map attempt_of xs) as Ea by (rewrite map_map; by apply map_ext; intros [b i]).
  apply leases_keeps; [done|..].
  - rewrite map_app, Ea. apply NoDup_app. split; [apply HL|]. split.
    + intros k (l & -> & Hl)%list_elem_of_fmap (x & E' & Hx)%list_elem_of_fmap. by apply (Hxs x Hx) in E'.
    + apply NoDup_map_filter, NoDup_map_filter, HL.
  - intros l [Hl|(x & -> & Hx)%list_elem_of_fmap]%elem_of_app; [by apply HL|]. exists x. split; [by apply Hxs|]. by destruct x.
  - intros l l' c [Hl|(x & -> & Hx)%list_elem_of_fmap]%elem_of_app [Hl'|(x' & -> & Hx')%list_elem_of_fmap]%elem_of_app; try done. by apply HL.
Qed.

Lemma ensure_leases_new env a q q' l :
  ensure_running_leases_from_receipts_tx env [a] q = Ok q' -> l ∈ leases q' -> l ∈ leases q \/ ls_callback_id l = None.
Proof.
  unfold ensure_running_leases_from_receipts_tx. intros (ls & ->%insert_leases_app & [= <-])%rbind_Ok. simpl.
  intros [Hl|(x & -> & _)%list_elem_of_fmap]%elem_of_app; auto.
Qed.

(** The id of a new callback is nobody's. *)
Definition fresh_callback (q : QStore) (callback_id : Z) : Prop := forall l, l ∈ leases q -> ls_callback_id l <> Some callback_id.

Lemma set_callback_keeps D E env job_id run_lease callback_id timeout q q' :
  set_callback env job_id run_lease callback_id timeout q = Ok q' -> fresh_callback q callback_id -> sinv D E q ->
  keeps D E q D E q'.
Proof.
  unfold set_callback. intros (q1 & H1 & H)%rbind_Ok Hf Hs. pose proof (ensure_leases_keeps _ _ _ _ _ _ H1 Hs) as K.
  destruct (existsb _ _); [|done]. injection H as <-. eapply keeps_trans; [exact K|].
  apply (update_leases_keeps _ _ _ _ _ callback_id); [done| |by apply K]. intros l Hl. right. right. split; [done|]. split.
  - intros l' Hin E'. destruct (ensure_leases_new _ _ _ _ l' H1 Hin) as [Hin'|Hn]; [by apply (Hf l')|congruence].
  - unfold running_lease_of in Hl. apply andb_true_iff in Hl as [Hl%bool_decide_eq_true _].
    intros l' [Hl'%bool_decide_eq_true _]%andb_true_iff. congruence.
Qed.

Lemma clear_config_view a q : view (clear_config a q) = view q.
Proof. unfold clear_config. by destruct (attempt_state q !! a). Qed.

Lemma register_callback_keeps D E env job_id run_lease callback_id timeout q q' :
  register_callback env job_id run_lease callback_id timeout q = Ok q' -> fresh_callback q callback_id -> sinv D E q ->
  keeps D E q D E q'.
Proof.
  unfold register_callback. intros (q1 & H1 & [= <-])%rbind_Ok Hf Hs.
  pose proof (set_callback_keeps _ _ _ _ _ _ _ _ _ H1 Hf Hs) as K. eapply keeps_trans; [exact K|].
  apply keeps_view; [apply clear_config_view|apply K].
Qed.

Lemma register_with_config_keeps D E compile env job_id run_lease callback_id timeout config q q' :
  register_callback_with_config compile env job_id run_lease callback_id timeout config q = Ok q' ->
  fresh_callback q callback_id -> sinv D E q -> keeps D E q D E q'.
Proof.
  unfold register_callback_with_config. destruct (config_is_empty config); [by apply register_callback_keeps|].
  intros H Hf Hs. open_binds. subst. eapply keeps_trans; [eapply set_callback_keeps; eassumption|].
  apply keeps_view; [done|]. eapply kp_inv, set_callback_keeps; eassumption.
Qed.

Lemma cancel_callback_keeps D E job_id run_lease q b q' :
  cancel_callback job_id run_lease q = (b, q') -> sinv D E q -> keeps D E q D E q'.
Proof.
  unfold cancel_callback. cbv zeta. destruct (existsb _ _); intros [= <- <-] Hs; [|by apply keeps_refl].
  set (target := fun l => _). pose proof (update_leases_keeps D E q target (ls_set_callback None None) 0) as K.
  eapply keeps_trans; [apply K; auto|]. apply keeps_view; [apply clear_config_view|apply K; auto].
Qed.

Lemma enter_callback_wait_keeps D E job_id run_lease callback_id q b q' :
  enter_callback_wait job_id run_lease callback_id q = (b, q') -> sinv D E q -> keeps D E q D E q'.
Proof.
  unfold enter_callback_wait. cbv zeta. intros [= _ <-]. apply (update_leases_keeps D E q _ _ 0); auto.
Qed.

Lemma heartbeat_callback_keeps D E env callback_id timeout q q' :
  heartbeat_callback env callback_id timeout q = Ok q' -> sinv D E q -> keeps D E q D E q'.
Proof.
  unfold heartbeat_callback. cbv zeta. destruct (existsb _ _); [|done]. intros [= <-]. apply (update_leases_keeps D E q _ _ 0); auto.
Qed.

Lemma take_result_view a q : view (take_callback_result a q).2 = view q.
Proof. unfold take_callback_result. by destruct (attempt_state q !! a). Qed.
Lemma check_callback_keeps D E loaded job_id callback_id q r q' :
  check_callback_state loaded job_id callback_id q = (r, q') -> sinv D E q -> keeps D E q D E q'.
Proof.
  unfold check_callback_state. intros H. apply keeps_view. destruct (merge_sort _ _) as [|l ?]; [by injection H as _ <-|].
  pose proof (take_result_view (lease_attempt l) q) as Hv.
  destruct (take_callback_result (lease_attempt l) q) as [v q1]. cbv zeta in H. simpl in Hv.
  repeat case_match_in H; try (by injection H as _ <-); injection H as _ <-; congruence.
Qed.

(** * Callbacks that resolve *)

Lemma complete_external_resume_keeps D E env callback_id payload run_lease q row q' :
  complete_external_resume env callback_id payload run_lease q = Ok (row, q') -> sinv D E q -> keeps D E q D E q'.
Proof.
  unfold complete_external_resume. cbv zeta. destruct (List.filter _ _) as [|l ?]; [done|].
  intros (r & _ & H)%rbind_Ok Hs. destruct r; [|done]. injection H as <- <-.
  match goal with |- keeps _ _ _ _ _ (set_attempts _ ?u) => assert (keeps D E q D E u) as K by (apply (update_leases_keeps D E q _ _ 0); auto) end.
  eapply keeps_trans; [exact K|]. by apply keeps_view, K.
Qed.

Lemma remove_dups_id {A} `{EqDecision A} (l : list A) : NoDup l -> remove_dups l = l.
Proof. induction 1 as [|x l Hx Hl IH]; [done|]. simpl. case_match; [done|]. by rewrite IH. Qed.

(** The receipts of the attempts, each open. *)
Lemma receipts_of_pairs D E q pairs :
  sinv D E q -> NoDup pairs -> (forall a, a ∈ pairs -> exists x, x ∈ running q /\ attempt_of x = a) ->
  let xs := concat (map (unclosed_receipts_of q) (remove_dups pairs)) in
  map attempt_of xs = pairs /\ forall x, x ∈ xs -> x ∈ running q.
Proof.
  intros Hs Hn Hx. simpl. rewrite remove_dups_id by done. clear Hn. induction pairs as [|a pairs IH]; [by split; [|intros ? ?%elem_of_nil]|].
  destruct IH as [IH1 IH2]; [intros; apply Hx; by right|]. destruct (Hx a ltac:(left)) as (x & Hr & Ha). simpl.
  assert (unclosed_receipts_of q a = [x]) as ->.
  { unfold unclosed_receipts_of. rewrite <- Ha. pose proof Hr as [Hxr Hxo]%running_elem.
    etransitivity; [apply (filter_unique attempt_of (unclosed_receipt q) (receipts q) x); [apply (si_ledger _ _ _ Hs)|done]|].
    unfold unclosed_receipt. rewrite (running_no_outcome D E q x Hs Hr), andb_true_r. apply unclosed_spec in Hxo. unfold unclosed in Hxo.
    by rewrite Hxo. }
  simpl. split; [by rewrite IH1, Ha|]. intros y [->|Hy]%elem_of_cons; auto.
Qed.

Lemma close_pairs_keeps D E q pairs outcome :
  sinv D E q -> NoDup pairs -> (forall a, a ∈ pairs -> exists x, x ∈ running q /\ attempt_of x = a) ->
  (forall l, l ∈ leases q -> lease_attempt l ∉ pairs) ->
  keeps D E q (pairs ++ D) (pairs ++ E) (close_receipt_pairs_tx pairs outcome q).
Proof.
  intros Hs Hn Hx Hl. destruct (receipts_of_pairs D E q pairs Hs Hn Hx) as [Ea Hr]. unfold close_receipt_pairs_tx.
  rewrite <- Ea at 1 2. apply close_keeps; [done|done|by rewrite Ea|by rewrite Ea].
Qed.
(** Nothing left to close. *)
Lemma close_pairs_none q pairs outcome :
  (forall a x, a ∈ pairs -> x ∈ receipts q -> attempt_of x = a -> unclosed q x = false) ->
  view (close_receipt_pairs_tx pairs outcome q) = view q.
Proof.
  intros Hx. unfold close_receipt_pairs_tx. assert (concat (map (unclosed_receipts_of q) (remove_dups pairs)) = []) as ->.
  { assert (forall a, a ∈ remove_dups pairs -> a ∈ pairs) as Hr by (intros a; by rewrite elem_of_remove_dups).
    induction (remove_dups pairs) as [|a ps IH]; [done|]. simpl. rewrite IH by (intros; apply Hr; by right). rewrite app_nil_r.
    apply filter_none. intros x Hin. case_bool_decide as E; [|done]. unfold unclosed_receipt.
    specialize (Hx a x (Hr a ltac:(left)) Hin E). unfold unclosed in Hx. by rewrite Hx. }
  unfold close_receipts, view. simpl. by rewrite app_nil_r.
Qed.

Lemma deleted_one_callback D q target d deleted q' c :
  delete_leases target q = (d :: deleted, q') -> ledger D q -> (forall l, target l = true -> ls_callback_id l = Some c) -> deleted = [].
Proof.
  intros H HL Ht. unfold delete_leases in H. injection H as Hd _.
  destruct (List.filter target (leases q)) as [|l [|l' ls]] eqn:Hf; try done; [by injection Hd as _ <-|].
  assert (NoDup (l :: l' :: ls)) as [Hn _]%NoDup_cons.
  { rewrite <- Hf. apply (NoDup_fmap_1 lease_attempt), NoDup_map_filter, HL. }
  assert (forall z, z ∈ l :: l' :: ls -> z ∈ leases q /\ ls_callback_id z = Some c) as Hz.
  { intros z. rewrite <- Hf. intros [Hz ?]%elem_of_filter_b. auto. }
  destruct (Hz l ltac:(left)) as [Hl Ej], (Hz l' ltac:(right; left)) as [Hl' Ej']. destruct Hn.
  rewrite (lg_callbacks _ _ HL l l' c Hl Hl' Ej Ej'). left.
Qed.

(** Leases deleted, their receipts closed, and hydrated. *)
Lemma end_leases_keeps D E q target deleted q1 outcome rows q' :
  delete_leases target q = (deleted, q1) ->
  hydrate_deleted_leases_tx deleted true (close_receipt_pairs_tx (map dl_attempt_of deleted) outcome q1) = Ok (rows, q') ->
  sinv D E q ->
  map (fun r => place_of (lt_columns r)) rows = map dl_attempt_of deleted
  /\ keeps D E q (map dl_attempt_of deleted ++ D) (map dl_attempt_of deleted ++ E) q'.
Proof.
  intros Hd Hh Hs. destruct (deleted_leases _ _ _ _ _ Hd (si_ledger _ _ _ Hs)) as (Hn & Hx & Hl).
  pose proof (delete_leases_keeps _ _ _ _ _ _ Hd Hs) as K1. pose proof (kp_inv _ _ _ _ _ _ K1) as Hs1.
  assert (keeps D E q1 (map dl_attempt_of deleted ++ D) (map dl_attempt_of deleted ++ E)
            (close_receipt_pairs_tx (map dl_attempt_of deleted) outcome q1)) as K2.
  { apply close_pairs_keeps; [done|done| |done]. intros a (d & -> & Hin)%list_elem_of_fmap. by apply Hx. }
  pose proof (kp_inv _ _ _ _ _ _ K2) as Hs2. destruct (hydrate_closed_view _ _ _ _ _ Hh) as [Hv Hp].
  - intros d x Hin Hxr Ea. apply not_true_iff_false. intros Hu%unclosed_spec.
    apply (lg_open _ _ (si_ledger _ _ _ Hs2) x); [by apply running_elem|]. apply elem_of_app. left. rewrite Ea. by apply list_elem_of_fmap_2.
  - split; [done|]. eapply keeps_trans; [exact K1|]. eapply keeps_trans; [exact K2|]. by apply keeps_view.
Qed.

Lemma take_callback_taken D E q target callback_id outcome moved q' :
  take_callback_lease target callback_id outcome q = Ok (moved, q') -> sinv D E q ->
  (forall l, target l = true -> ls_callback_id l = Some callback_id) ->
  exists a, taken D E q a (Some moved) q'.
Proof.
  unfold take_callback_lease. intros H Hs Ht. destruct (delete_leases target q) as [deleted q1] eqn:Hd.
  destruct deleted as [|d deleted]; [done|]. apply rbind_Ok in H as ([rows q2] & Hh & H).
  pose proof (deleted_one_callback _ _ _ _ _ _ _ Hd (si_ledger _ _ _ Hs) Ht) as ->.
  destruct (end_leases_keeps _ _ _ _ _ _ _ _ _ Hd Hh Hs) as [Hp K].
  destruct rows as [|m rows]; [done|]. injection H as <- <-. exists (dl_attempt_of d). split; [simpl in Hp; congruence|]. split; [done|].
  eapply deleted_open; [exact Hd|apply Hs|left].
Qed.

(** It ended with its callback. *)
Definition resolves (D E : list (Z * Z)) (q q' : QStore) : Prop := exists D', keeps D E q D' E q'.
Lemma settles_resolves D E q a r q' : settles D E q a r q' -> resolves D E q q'.
Proof. intros (D' & K & _). by exists D'. Qed.

Lemma callback_target_id callback_id run_lease l b :
  callback_target callback_id run_lease l && b = true -> ls_callback_id l = Some callback_id.
Proof. unfold callback_target. rewrite !andb_true_iff, bool_decide_eq_true. tauto. Qed.

Lemma complete_external_resolves D E env callback_id payload run_lease resume q row q' :
  complete_external env callback_id payload run_lease resume q = Ok (row, q') -> sinv D E q -> resolves D E q q'.
Proof.
  unfold complete_external. destruct resume; [intros H Hs; exists D; by eapply complete_external_resume_keeps|].
  unfold complete_external_with_output. intros ([m q1] & Ht & H)%rbind_Ok Hs.
  apply (take_callback_taken D E) in Ht as (a & Ht); [|done|intros l; apply callback_target_id].
  open_binds. subst. apply (settles_resolves _ _ _ a (Some row)). settle.
Qed.

Lemma fail_external_resolves D E env callback_id error run_lease q row q' :
  fail_external env callback_id error run_lease q = Ok (row, q') -> sinv D E q -> resolves D E q q'.
Proof.
  unfold fail_external. intros ([m q1] & Ht & H)%rbind_Ok Hs.
  apply (take_callback_taken D E) in Ht as (a & Ht); [|done|intros l; apply callback_target_id].
  open_binds. subst. apply (settles_resolves _ _ _ a (Some row)). settle.
Qed.

Lemma retry_external_resolves D E env callback_id run_lease q row q' :
  retry_external env callback_id run_lease q = Ok (row, q') -> sinv D E q -> resolves D E q q'.
Proof.
  unfold retry_external. intros ([m q1] & Ht & H)%rbind_Ok Hs.
  apply (take_callback_taken D E) in Ht as (a & Ht); [|done|intros l; apply callback_target_id].
  open_binds. subst. apply (settles_resolves _ _ _ a (Some row)). settle.
Qed.

(** * A running attempt can be taken *)

Lemma find_exists {A} (f : A -> bool) l x : x ∈ l -> f x = true -> exists y, List.find f l = Some y /\ f y = true.
Proof.
  intros Hx Hf. destruct (List.find f l) as [y|] eqn:Hy; [exists y; split; [done|by apply find_elem in Hy as [_ ?]]|].
  apply list_elem_of_In in Hx. by rewrite (find_none f l Hy x Hx) in Hf.
Qed.

(** The ready row is found for what was read off the receipt or its lease. *)
Lemma snapshot_found D q x d :
  ledger D q -> x ∈ running q -> dl_pos d = dl_pos (receipt_row x) -> dl_queue d = cb_queue (fst x) -> dl_job_id d = ci_job_id (snd x) ->
  exists r, snapshot_of (ready_rows q) d = Some r.
Proof.
  intros HL Hx Ep Eq Ej. destruct (lg_backed _ _ HL x Hx) as (r & Hr & Hp & Hq & Hj).
  destruct (find_exists (fun r => bool_decide (rt_pos r = dl_pos d) && String.eqb (c_queue (rt_columns r)) (dl_queue d)
                          && (c_job_id (rt_columns r) =? dl_job_id d)) (rev (ready_rows q)) r) as (y & Hy & _).
  - by apply list_elem_of_In, in_rev; rewrite rev_involutive; apply list_elem_of_In.
  - rewrite !andb_true_iff, bool_decide_eq_true, Z.eqb_eq, String.eqb_eq. split_and!; congruence.
  - by exists y.
Qed.

Lemma hydrate_total D q q1 deleted write :
  ledger D q -> ready_rows q1 = ready_rows q ->
  (forall d, d ∈ deleted -> exists x, x ∈ running q /\ dl_set_state Running d = receipt_row x) ->
  exists rows q', hydrate_deleted_leases_tx deleted write q1 = Ok (rows, q') /\ length rows = length deleted.
Proof.
  intros HL Er Hd. unfold hydrate_deleted_leases_tx.
  assert (exists rows, all_ok (hydrate_row q1) deleted = Ok rows /\ length rows = length deleted) as (rows & -> & Hlen).
  { induction deleted as [|d ds IH]; [by exists []|]. simpl. destruct (Hd d ltac:(left)) as ([b i] & Hx & E).
    unfold hydrate_row at 1. rewrite Er. destruct (snapshot_found D q (b, i) d HL Hx) as (r & ->).
    1-3: by apply (f_equal (fun z => (dl_pos z, dl_queue z, dl_job_id z))) in E; simpl in E; injection E.
    destruct IH as (rows & -> & Hl); [by intros; apply Hd; right|]. simpl. eexists. split; [done|]. simpl. lia. }
  simpl. destruct write; by eexists _, _.
Qed.

(** Whether the attempt has a lease or only its receipt, unless it waits for a
    callback. *)
Lemma take_total D E q x outcome :
  sinv D E q -> x ∈ running q -> (forall l, l ∈ leases q -> lease_attempt l = attempt_of x -> dl_state (ls_row l) = Running) ->
  exists m q', take_running_attempt_tx (ci_job_id (snd x)) (ci_run_lease (snd x)) outcome None q = Ok (Some m, q').
Proof.
  intros Hs Hx Hst. pose proof (si_ledger _ _ _ Hs) as HL. unfold take_running_attempt_tx. cbn [close_open_receipt_claim_tx].
  pose proof (proj1 (running_elem _ _) Hx) as [Hrec _]. assert (unclosed q x = true) as Hu by by apply elem_of_filter_b in Hx as [? _].
  destruct (has_lease q (attempt_of x)) eqn:Hl.
  - rewrite filter_none.
    2: { intros y Hy. apply andb_false_iff. destruct (bool_decide _) eqn:Hb; [right|by left]. apply bool_decide_eq_true in Hb.
         unfold open_receipt. change (ci_job_id x.2, ci_run_lease x.2) with (attempt_of x) in Hb. rewrite Hb, Hl. by rewrite !andb_false_r. }
    cbn [rbind]. unfold has_lease in Hl. apply existsb_elem in Hl as (l & Hin & Ha%bool_decide_eq_true).
    destruct (delete_leases _ q) as [deleted q1] eqn:Hd. pose proof Hd as Hd'. unfold delete_leases in Hd'. injection Hd' as Ed Eq.
    destruct (hydrate_total D q q1 deleted true HL) as (rows & q2 & Hh & Hlen); [by subst q1| |].
    { intros d. rewrite <- Ed. intros (l' & -> & [_ Hin']%elem_of_filter_b)%list_elem_of_fmap. by apply (lg_leased _ _ HL). }
    destruct deleted as [|d ds].
    + assert (l ∈ List.filter (running_lease_of (ci_job_id x.2) (ci_run_lease x.2)) (leases q)) as Hf.
      { apply elem_of_filter_b. split; [|done]. unfold running_lease_of. by rewrite !bool_decide_eq_true_2 by auto. }
      apply map_eq_nil in Ed. rewrite Ed in Hf. by apply elem_of_nil in Hf.
    + rewrite Hh. simpl. destruct rows; [done|]. by eexists _, _.
  - destruct (List.filter _ (receipts q)) as [|y ys] eqn:Hf.
    + exfalso. assert (x ∈ List.filter (fun y => bool_decide (attempt_of y = attempt_of x) && open_receipt q y) (receipts q)) as Hin.
      { apply elem_of_filter_b. split; [|done]. rewrite bool_decide_eq_true_2 by done. unfold open_receipt, unclosed in *.
        by rewrite Hu, Hl, (running_no_outcome _ _ _ _ Hs Hx). }
      change (attempt_of x) with (ci_job_id x.2, ci_run_lease x.2) in Hin. rewrite Hf in Hin. by apply elem_of_nil in Hin.
    + assert (y ∈ y :: ys) as Hy by left. rewrite <- Hf in Hy. apply elem_of_filter_b in Hy as [[Ey%bool_decide_eq_true _]%andb_true_iff Hy].
      assert (y = x) as -> by by apply (receipt_by_attempt D q).
      destruct (hydrate_total D q (close_receipts outcome [x] q) [receipt_row x] true HL) as (rows & q2 & Hh & Hlen); [done| |].
      { intros d ->%list_elem_of_singleton. exists x. split; [done|]. by destruct x. }
      rewrite Hh. simpl. destruct rows; [done|]. simpl. by eexists _, _.
Qed.

(** What is taken for the attempt of [x]: the attempt as it was claimed, and the
    job as its ready row [r] has it. *)
Record gives (x : ClaimBatch * ClaimItem) (r : ReadyEntry) (m : LeaseTransitionRow) : Prop := {
  gv_backs : backs r x;
  gv_pos : lt_pos m = rt_pos r;
  gv_attempt : place_of (lt_columns m) = attempt_of x /\ c_attempt (lt_columns m) = ci_attempt (snd x)
               /\ c_max_attempts (lt_columns m) = ci_max_attempts (snd x) /\ c_priority (lt_columns m) = cb_priority (fst x)
               /\ c_attempted_at (lt_columns m) = Some (cb_claimed_at (fst x));
  gv_job : c_kind (lt_columns m) = c_kind (rt_columns r) /\ c_queue (lt_columns m) = c_queue (rt_columns r)
           /\ c_args (lt_columns m) = c_args (rt_columns r) /\ c_payload (lt_columns m) = c_payload (rt_columns r)
           /\ c_run_at (lt_columns m) = c_run_at (rt_columns r) /\ c_created_at (lt_columns m) = c_created_at (rt_columns r)
           /\ c_unique_key (lt_columns m) = c_unique_key (rt_columns r) /\ c_unique_states (lt_columns m) = c_unique_states (rt_columns r)
}.

Lemma hydrated_gives q d x r a :
  dl_set_state Running d = receipt_row x -> snapshot_of (ready_rows q) d = Some r -> r ∈ ready_rows q /\ gives x r (hydrated d r a).
Proof.
  intros E Hs. apply find_elem in Hs as [Hin Hf]. rewrite !andb_true_iff, bool_decide_eq_true, String.eqb_eq, Z.eqb_eq in Hf.
  destruct Hf as [[Hp Hq] Hj]. split; [by apply list_elem_of_In, in_rev, list_elem_of_In|].
  destruct x as [b i], d as [pos j qu st pr at_ l mx t]. injection E as -> -> -> -> -> -> -> ->. simpl in Hp, Hq, Hj. by repeat split.
Qed.
Lemma hydrate_head_gives q deleted write q0 rows q1 x m :
  hydrate_deleted_leases_tx deleted write q0 = Ok (rows, q1) -> ready_rows q0 = ready_rows q ->
  (forall d, d ∈ deleted -> dl_set_state Running d = receipt_row x) -> head rows = Some m ->
  exists r, r ∈ ready_rows q /\ gives x r m.
Proof.
  unfold hydrate_deleted_leases_tx. intros (rows' & Hr & [= <- _])%rbind_Ok E0 Hd Hm%head_elem.
  destruct (all_ok_elem _ _ _ _ Hr Hm) as (d & Hin & H). unfold hydrate_row in H. rewrite E0 in H.
  destruct (snapshot_of (ready_rows q) d) as [r|] eqn:Hs; [|done]. injection H as <-. exists r. by apply hydrated_gives; [apply Hd|].
Qed.

Lemma take_gives D E q x outcome m q' :
  take_running_attempt_tx (ci_job_id (snd x)) (ci_run_lease (snd x)) outcome None q = Ok (Some m, q') -> sinv D E q -> x ∈ running q ->
  exists r, r ∈ ready_rows q /\ gives x r m.
Proof.
  unfold take_running_attempt_tx. cbn [close_open_receipt_claim_tx]. intros H Hs Hx. pose proof (si_ledger _ _ _ Hs) as HL.
  pose proof (proj1 (running_elem _ _) Hx) as [Hrec _].
  destruct (List.filter _ (receipts q)) as [|y ys] eqn:Hf.
  - cbn [rbind] in H. destruct (delete_leases _ q) as [deleted q2] eqn:Hd. destruct deleted as [|d ds]; [done|].
    apply rbind_Ok in H as ([rows q3] & Hh & [= Hm _]). unfold delete_leases in Hd. injection Hd as Hd <-.
    eapply (hydrate_head_gives q); [exact Hh|done| |exact Hm]. intros d' Hin. rewrite <- Hd in Hin.
    apply list_elem_of_fmap in Hin as (l & -> & [Ht Hl]%elem_of_filter_b). destruct (lg_leased _ _ HL l Hl) as (z & Hz & Ez).
    assert (z = x) as <-; [|done]. apply running_elem in Hz as [Hz _]. apply (receipt_by_attempt D q); [done..|].
    unfold running_lease_of in Ht. apply andb_true_iff in Ht as [Ht%bool_decide_eq_true _].
    destruct z as [b i]. injection Ez as _ Ej _ _ _ El _ _. unfold attempt_of, lease_attempt in *. simpl in *. congruence.
  - assert (y ∈ y :: ys) as Hy by left. rewrite <- Hf in Hy. apply elem_of_filter_b in Hy as [[Ey%bool_decide_eq_true _]%andb_true_iff Hy].
    assert (y = x) as -> by by apply (receipt_by_attempt D q).
    apply rbind_Ok in H as ([m1 q1] & H1 & H). apply rbind_Ok in H1 as ([rows q2] & Hh & [= Hm1 <-]).
    destruct m1 as [m1|].
    + injection H as -> _. eapply (hydrate_head_gives q); [exact Hh|done| |exact Hm1]. intros d ->%list_elem_of_singleton. by destruct x.
    + exfalso. destruct (hydrate_total D q (close_receipts outcome [x] q) [receipt_row x] true HL) as (rows' & q2' & Hh' & Hlen); [done| |].
      { intros d ->%list_elem_of_singleton. exists x. split; [done|]. by destruct x. }
      rewrite Hh in Hh'. injection Hh' as <- _. by destruct rows.
Qed.

(** * Rescue *)

Lemma or_on_conflict_Ok {A} (m k : result AwaError A) x : or_on_conflict m k = Ok x -> m = Ok x \/ k = Ok x.
Proof. unfold or_on_conflict. destruct m as [a|[]]; auto. Qed.

Lemma insert_done_row_keeps D E env done old q row q' :
  insert_done_row env done old q = Ok (row, q') -> sinv D (place_of (dn_columns done) :: E) q ->
  keeps D (place_of (dn_columns done) :: E) q D E q'.
Proof. unfold insert_done_row. intros H Hs. open_binds. subst. by eapply one_done_keeps. Qed.

Lemma cancel_duplicate_keeps D E env row payload q j q' :
  cancel_rescued_duplicate_tx env row payload q = Ok (j, q') -> sinv D (place_of (lt_columns row) :: E) q ->
  keeps D (place_of (lt_columns row) :: E) q D E q'.
Proof.
  unfold cancel_rescued_duplicate_tx. intros (p & _ & H)%rbind_Ok Hs. cbv zeta in H.
  apply or_on_conflict_Ok in H as [H|H]; exact (insert_done_row_keeps D E _ _ _ _ _ _ H Hs).
Qed.

Lemma settle_rescued_keeps D E env row error reason q j q' :
  settle_rescued_attempt_tx env row error reason q = Ok (j, q') -> sinv D (place_of (lt_columns row) :: E) q ->
  keeps D (place_of (lt_columns row) :: E) q D E q'.
Proof.
  unfold settle_rescued_attempt_tx. cbv zeta. intros (p & _ & H)%rbind_Ok Hs. apply rbind_Ok in H as (p' & _ & H).
  destruct (_ <=? _); [destruct reason|].
  - unfold insert_rescued_dlq_or_cancel_tx in H. apply or_on_conflict_Ok in H as [H|H]; [|by eapply cancel_duplicate_keeps].
    open_binds. subst. put_row Hs.
  - unfold insert_rescued_done_or_cancel_tx in H. apply or_on_conflict_Ok in H as [H|H]; [|by eapply cancel_duplicate_keeps].
    exact (insert_done_row_keeps D E _ _ _ _ _ _ H Hs).
  - unfold insert_rescued_deferred_or_cancel_tx in H. apply or_on_conflict_Ok in H as [H|H]; [|by eapply cancel_duplicate_keeps].
    open_binds. subst. put_row Hs.
Qed.

Lemma settle_all_keeps D E env error reason dlq rows q js q' :
  settle_rescued env error reason dlq rows q = Ok (js, q') ->
  sinv D (map (fun r => place_of (lt_columns r)) rows ++ E) q ->
  keeps D (map (fun r => place_of (lt_columns r)) rows ++ E) q D E q'.
Proof.
  revert q js. induction rows as [|row rows IH]; intros q js; simpl; [intros [= <- <-]; apply keeps_refl|].
  intros ([j q1] & H1 & ([js' q2] & H2 & [= <- <-])%rbind_Ok)%rbind_Ok Hs.
  pose proof (settle_rescued_keeps _ _ _ _ _ _ _ _ _ H1 Hs) as K. eapply keeps_trans; [exact K|]. by eapply IH, K.
Qed.

Lemma keeps_perm_r E1 E1' D E q D' q' : E1 ≡ₚ E1' -> keeps D E q D' E1 q' -> keeps D E q D' E1' q'.
Proof. intros HE [H1 H2 H3 H4 H5 H6]. split; [by eapply sinv_perm|by rewrite <- HE|done..]. Qed.

(** Receipts closed and returned, their attempts in transit. *)
Definition rescues (D E : list (Z * Z)) (q : QStore) (rows : list DeletedLeaseRow) (q' : QStore) : Prop :=
  (exists D', keeps D E q D' (map dl_attempt_of rows ++ E) q' /\ (forall d, d ∈ rows -> dl_attempt_of d ∈ D'))
  /\ leases q' = leases q
  /\ (forall x, x ∈ running q -> attempt_of x ∉ map dl_attempt_of rows -> x ∈ running q').
Lemma rescues_none D E q : sinv D E q -> rescues D E q [] q.
Proof. intros Hs. split; [|done]. exists D. split; [by apply keeps_refl|by intros ? ?%elem_of_nil]. Qed.

Lemma scan_window_sub {A} (after : A -> bool) limit l : scan_window after limit l ⊆+ l.
Proof.
  unfold scan_window. set (a := take limit _). transitivity (List.filter after l ++ List.filter (fun x => negb (after x)) l).
  - apply submseteq_app; apply sublist_submseteq, sublist_take.
  - by rewrite filter_split.
Qed.

Lemma close_rescues D E q outcome xs q' :
  sinv D E q -> xs ⊆+ receipts q -> (forall x, x ∈ xs -> open_receipt q x = true) ->
  view q' = view (close_receipts outcome xs q) -> rescues D E q (map receipt_row xs) q'.
Proof.
  intros Hs Hsub Ho Hv. unfold rescues.
  assert (map dl_attempt_of (map receipt_row xs) = map attempt_of xs) as -> by (rewrite map_map; by apply map_ext; intros [b i]).
  assert (lanes q' = lanes q /\ closures q' = closures q ++ map (closure_of outcome) xs /\ leases q' = leases q) as (El & Ec & Els).
  { unfold view, close_receipts in Hv. cbn in Hv. by injection Hv. }
  split; [|split; [done|]].
  2: { intros x [Hx Hk]%running_elem Hn. apply running_elem. unfold receipts in *. rewrite El, Ec, map_app. split; [done|].
       intros [?|Hin]%elem_of_app; [done|]. rewrite map_map in Hin. apply list_elem_of_fmap in Hin as (y & Ey & Hy). apply Hn.
       assert (x = y) as ->; [|by apply list_elem_of_fmap_2].
       apply (receipt_by_id D q); [apply Hs|done|by eapply elem_of_submseteq|].
       by destruct x, y; apply (f_equal snd) in Ey. }
  exists (map attempt_of xs ++ D).
  assert (keeps D E q (map attempt_of xs ++ D) (map attempt_of xs ++ E) (close_receipts outcome xs q)) as K.
  { apply close_keeps; [done|..].
    - intros x Hx. apply running_elem. split; [by eapply elem_of_submseteq|]. by apply unclosed_spec, open_receipt_spec, Ho.
    - apply submseteq_Permutation in Hsub as (k & Hk). pose proof (lg_attempts _ _ (si_ledger _ _ _ Hs)) as Hn.
      rewrite Hk, map_app in Hn. by apply NoDup_app in Hn as [? _].
    - intros l Hl (x & E' & Hx)%list_elem_of_fmap. by apply (proj1 (proj2 (open_receipt_spec q x (Ho x Hx))) l). }
  split; [eapply keeps_trans; [exact K|]; by apply keeps_view, K|].
  intros d (x & -> & Hx)%list_elem_of_fmap. apply elem_of_app. left. destruct x as [b i].
  by apply (list_elem_of_fmap_2 attempt_of _ (b, i)).
Qed.

Lemma filter_take_sub {A} (f : A -> bool) l : List.filter f l ⊆+ l.
Proof. induction l as [|x l IH]; [done|]. simpl. destruct (f x); [by apply submseteq_skip|by apply submseteq_cons]. Qed.

Lemma rescue_slot_rescues D E lockable limit slot cutoff n q rows q' :
  rescue_stale_receipt_claims_for_slot_tx lockable limit slot cutoff n q = (rows, q') -> sinv D E q -> rescues D E q rows q'.
Proof.
  unfold rescue_stale_receipt_claims_for_slot_tx. cbv zeta. intros [= <- <-] Hs. eapply close_rescues; [done|..].
  - etransitivity; [apply filter_take_sub|]. etransitivity; [apply sublist_submseteq, sublist_take|].
    etransitivity; [apply filter_take_sub|]. etransitivity; [apply scan_window_sub|]. unfold stale_candidates.
    rewrite (merge_sort_Permutation scan_le). apply filter_take_sub.
  - intros x [_ Hx]%elem_of_filter_b. apply elem_of_take in Hx as (i & Hx & _). apply list_elem_of_lookup_2, elem_of_filter_b in Hx as [Hx _].
    by apply andb_true_iff in Hx as [? _].
  - by destruct (advance_target _ _).
Qed.

Lemma concat_members_sub bs : concat (map members bs) ⊆+ concat (map (fun b => map (fun i => (b, i)) (cb_items b)) bs).
Proof.
  induction bs as [|b bs IH]; [done|]. simpl. apply submseteq_app; [|done]. unfold members. by rewrite (merge_sort_Permutation receipt_le).
Qed.
Lemma concat_map_sub {A B} (f : A -> list B) l k : l ⊆+ k -> concat (map f l) ⊆+ concat (map f k).
Proof.
  induction 1 as [|x l k _ IH|x y l|x l k _ IH|l k m _ IH1 _ IH2]; simpl; [done|by apply submseteq_skips_l| |by apply submseteq_inserts_l|by etransitivity].
  rewrite !app_assoc. apply submseteq_app; [|done]. apply Permutation_submseteq, Permutation_app_comm.
Qed.

Lemma deadline_slot_rescues D E lockable limit env slot n q rows q' :
  rescue_expired_batch_deadlines_for_slot_tx lockable limit env slot n q = (rows, q') -> sinv D E q -> rescues D E q rows q'.
Proof.
  unfold rescue_expired_batch_deadlines_for_slot_tx. cbv zeta. destruct (n <=? 0); [intros [= <- <-]; apply rescues_none|].
  intros [= <- <-] Hs. eapply close_rescues; [done|..].
  - etransitivity; [apply filter_take_sub|]. etransitivity; [apply sublist_submseteq, sublist_take|].
    etransitivity; [apply filter_take_sub|]. etransitivity; [apply concat_members_sub|]. unfold receipts. apply concat_map_sub.
    etransitivity; [apply scan_window_sub|]. unfold expired_batches. rewrite (merge_sort_Permutation batch_le). apply filter_take_sub.
  - intros x [_ Hx]%elem_of_filter_b. apply elem_of_take in Hx as (i & Hx & _). by apply list_elem_of_lookup_2, elem_of_filter_b in Hx as [Hx _].
  - by destruct (advance_target _ _).
Qed.

Lemma over_slots_rescues D E scan slots remaining q rows q' :
  (forall D E slot n q rows q', scan slot n q = (rows, q') -> sinv D E q -> rescues D E q rows q') ->
  rescue_over_slots scan slots remaining q = (rows, q') -> sinv D E q -> rescues D E q rows q'.
Proof.
  intros Hscan. revert D E remaining q rows. induction slots as [|slot slots IH]; intros D E remaining q rows; simpl.
  { intros [= <- <-]. apply rescues_none. }
  destruct (scan slot remaining q) as [first q1] eqn:H1. intros H Hs. destruct (Hscan D E _ _ _ _ _ H1 Hs) as ((D1 & K1 & HD1) & L1 & R1).
  destruct (_ =? 0); [injection H as <- <-; split; [by exists D1|done]|].
  destruct (rescue_over_slots scan slots _ q1) as [rest q2] eqn:H2. injection H as <- <-.
  destruct (IH _ _ _ _ _ H2 (kp_inv _ _ _ _ _ _ K1)) as ((D2 & K2 & HD2) & L2 & R2). split; [exists D2; split|split].
  - eapply keeps_perm_r; [|eapply keeps_trans; [exact K1|exact K2]]. rewrite map_app. solve_Permutation.
  - intros d [Hd|Hd]%elem_of_app; [by apply (kp_ended _ _ _ _ _ _ K2), HD1|by apply HD2].
  - congruence.
  - intros x Hx. rewrite map_app, not_elem_of_app. intros [Hn1 Hn2]. by apply R2, Hn2; apply R1.
Qed.

(** A pass that takes no attempt twice: its leases deleted, its receipts
    closed, both hydrated. *)
Lemma pass_keeps D E q target deleted q1 rescued q2 moved q3 moved' q4 :
  delete_leases target q = (deleted, q1) -> sinv D E q -> rescues D E q1 rescued q2 -> takes_twice (deleted, rescued) = false ->
  hydrate_deleted_leases_tx deleted true q2 = Ok (moved, q3) -> hydrate_deleted_leases_tx rescued true q3 = Ok (moved', q4) ->
  exists D', keeps D E q D' (map (fun r => place_of (lt_columns r)) (moved ++ moved') ++ E) q4.
Proof.
  intros Hd Hs ((D2 & K2 & HD2) & L2 & R2) Htw Hh Hh'.
  destruct (deleted_leases _ _ _ _ _ Hd (si_ledger _ _ _ Hs)) as (Hn & Hx & Hl).
  pose proof (delete_leases_keeps _ _ _ _ _ _ Hd Hs) as K1.
  assert (forall d, d ∈ deleted -> dl_attempt_of d ∉ map dl_attempt_of rescued) as Hap.
  { intros d Hin Hr. unfold takes_twice in Htw. apply not_true_iff_false in Htw. apply Htw, existsb_elem. exists d.
    split; [done|]. by apply bool_decide_eq_true. }
  destruct (hydrate_keeps D2 (map dl_attempt_of rescued ++ E) q2 deleted moved q3 Hh (kp_inv _ _ _ _ _ _ K2) Hn) as [Hp K3].
  - intros d Hin. destruct (Hx d Hin) as (x & Hr & Ex). exists x. split; [|done]. apply R2; [done|]. rewrite Ex. by apply Hap.
  - by rewrite L2.
  - pose proof (kp_inv _ _ _ _ _ _ K3) as Hs3. destruct (hydrate_closed_view _ _ _ _ _ Hh') as [Hv Hp'].
    + intros d x Hin Hxr Ea. apply not_true_iff_false. intros Hu%unclosed_spec.
      apply (lg_open _ _ (si_ledger _ _ _ Hs3) x); [by apply running_elem|]. rewrite Ea. apply elem_of_app. right. by apply HD2.
    + eexists. rewrite map_app, Hp, Hp', <- app_assoc. eapply keeps_trans; [exact K1|]. eapply keeps_trans; [exact K2|].
      eapply keeps_trans; [exact K3|]. by apply keeps_view.
Qed.

(** A rescue of silent attempts that takes none twice resolves each it takes. *)
Lemma rescue_heartbeats_resolves D E lease_lockable lockable env staleness dlq q js q' :
  rescue_stale_heartbeats lease_lockable lockable env staleness dlq q = Ok (js, q') ->
  takes_twice (heartbeat_pass lease_lockable lockable env staleness q) = false -> sinv D E q -> resolves D E q q'.
Proof.
  unfold rescue_stale_heartbeats, heartbeat_pass. intros (st & Hst & H)%rbind_Ok Htw Hs. assert (st = staleness) as ->.
  { unfold from_std in Hst. destruct (_ <=? _); congruence. }
  cbv zeta in H, Htw. destruct (delete_leases _ q) as [deleted q1] eqn:Hd.
  destruct (rescue_stale_receipt_claims_tx _ _ _ q1) as [rescued q2] eqn:Hr. simpl in Htw.
  assert (rescues D E q1 rescued q2) as Hres.
  { eapply over_slots_rescues; [|exact Hr|by eapply kp_inv, delete_leases_keeps]. intros D0 E0 slot n q0 rows q0'. apply rescue_slot_rescues. }
  apply rbind_Ok in H as ([moved q3] & Hh & H). apply rbind_Ok in H as ([moved' q4] & Hh' & H).
  apply rbind_Ok in H as ([a q5] & Ha & H). apply rbind_Ok in H as ([b q6] & Hb & [= <- <-]).
  destruct (pass_keeps _ _ _ _ _ _ _ _ _ _ _ _ Hd Hs Hres Htw Hh Hh') as (D' & K). rewrite map_app, <- app_assoc in K.
  exists D'. eapply keeps_trans; [exact K|]. pose proof (settle_all_keeps _ _ _ _ _ _ _ _ _ _ Ha (kp_inv _ _ _ _ _ _ K)) as K5.
  eapply keeps_trans; [exact K5|]. eapply settle_all_keeps; [exact Hb|apply K5].
Qed.

(** The same of deadlines. *)
Lemma rescue_deadlines_resolves D E lease_lockable lockable env dlq q js q' :
  rescue_expired_deadlines lease_lockable lockable env dlq q = Ok (js, q') ->
  takes_twice (deadline_pass lease_lockable lockable env q) = false -> sinv D E q -> resolves D E q q'.
Proof.
  unfold rescue_expired_deadlines, deadline_pass, delete_leases_of_jobs. intros H Htw Hs.
  destruct (delete_leases _ q) as [deleted q1] eqn:Hd.
  destruct (rescue_expired_receipt_deadlines_tx _ _ q1) as [rescued q2] eqn:Hr. simpl in Htw.
  assert (rescues D E q1 rescued q2) as Hres.
  { eapply over_slots_rescues; [|exact Hr|by eapply kp_inv, delete_leases_keeps]. intros D0 E0 slot n q0 rows q0'. apply deadline_slot_rescues. }
  apply rbind_Ok in H as ([moved q3] & Hh & H). apply rbind_Ok in H as ([moved' q4] & Hh' & Hset).
  destruct (pass_keeps _ _ _ _ _ _ _ _ _ _ _ _ Hd Hs Hres Htw Hh Hh') as (D' & K).
  exists D'. eapply keeps_trans; [exact K|]. eapply settle_all_keeps; [exact Hset|apply K].
Qed.

Lemma rescue_callbacks_resolves D E lease_lockable env dlq q js q' :
  rescue_expired_callbacks lease_lockable env dlq q = Ok (js, q') -> sinv D E q -> resolves D E q q'.
Proof.
  unfold rescue_expired_callbacks, delete_leases_of_jobs. destruct (delete_leases _ q) as [deleted q1] eqn:Hd.
  intros ([moved q2] & Hh & Hset)%rbind_Ok Hs. destruct (take_leases_keeps _ _ _ _ _ _ _ _ Hd Hh Hs) as [Hp K].
  exists (map dl_attempt_of deleted ++ D). eapply keeps_trans; [exact K|]. rewrite <- Hp.
  eapply settle_all_keeps; [exact Hset|]. rewrite Hp. apply K.
Qed.
