(* ===== verification/OperationFacts.v ===== *)
(** Operations of queue storage keep every job in one place: completion, the
    administration of jobs at rest, enqueue, claim and the prunes. *)

From S2P Require Import Prelude.
From S2P Require Import Error.
From S2P Require Import Json.
From S2P Require Import Job.
From S2P Require Import Ring.
From S2P Require Import Routing.
From S2P Require Import Rows.
From S2P Require Import Lanes.
From S2P Require Import LanesFacts.
From S2P Require Import Enqueue.
From S2P Require Import LaneGuarantees.
From S2P Require Import AtomicLanes.
From S2P Require Import QueueStore.
From S2P Require Import Attempts.
From S2P Require Import Callbacks.
From S2P Require Import AttemptRescue.
From S2P Require Import Completion.
From S2P Require Import StoreAdmin.
From S2P Require Import QueueOps.
From S2P Require Import StoreFacts.
From S2P Require Import AttemptFacts.

(** * Completion *)

Lemma resolves_refl D E q : sinv D E q -> resolves D E q q.
Proof. intros Hs. exists D. by apply keeps_refl. Qed.
Lemma resolves_keeps D E q q' : keeps D E q D E q' -> resolves D E q q'.
Proof. intros K. by exists D. Qed.

(** The attempts that are reported had not ended, and have now. *)
Definition finishes (D E : list (Z * Z)) (q : QStore) (reported : list (Z * Z)) (q' : QStore) : Prop :=
  exists D', keeps D E q D' E q' /\ forall a, a ∈ reported -> a ∈ D' /\ a ∉ D.
Lemma finishes_resolves D E q reported q' : finishes D E q reported q' -> resolves D E q q'.
Proof. intros (D' & K & _). by exists D'. Qed.
Lemma finishes_none D E q : sinv D E q -> finishes D E q [] q.
Proof. intros Hs. exists D. split; [by apply keeps_refl|]. by intros a ?%elem_of_nil. Qed.
Lemma finishes_app D E q xs q1 ys q2 :
  finishes D E q xs q1 -> (forall D', sinv D' E q1 -> finishes D' E q1 ys q2) -> finishes D E q (xs ++ ys) q2.
Proof.
  intros (D1 & K1 & Hx) H. destruct (H D1) as (D2 & K2 & Hy); [apply K1|]. exists D2. split; [by eapply keeps_trans|].
  intros a [Ha|Ha]%elem_of_app.
  - destruct (Hx a Ha). split; [by apply (kp_ended _ _ _ _ _ _ K2)|done].
  - destruct (Hy a Ha) as [? Hn]. split; [done|]. intros Hd. by apply Hn, (kp_ended _ _ _ _ _ _ K1).
Qed.
(** Running attempts that end. *)
Lemma finishes_running D E q xs q' :
  sinv D E q -> (forall a, a ∈ xs -> exists x, x ∈ running q /\ attempt_of x = a) -> keeps D E q (xs ++ D) E q' -> finishes D E q xs q'.
Proof.
  intros Hs Hx K. exists (xs ++ D). split; [done|]. intros a Ha. split; [apply elem_of_app; by left|].
  destruct (Hx a Ha) as (x & Hr & <-). by apply (lg_open _ _ (si_ledger _ _ _ Hs)).
Qed.

Lemma receipt_ref_spec q e x :
  receipt_ref q e = Some x ->
  x ∈ receipts q /\ attempt_of x = cj_attempt e /\ cb_claim_slot x.1 = ce_claim_slot (cj_claim e)
  /\ ce_claim_batch_id (cj_claim e) = Some (cb_batch_id x.1) /\ ce_receipt_id (cj_claim e) = Some (ci_receipt_id x.2)
  /\ x.1 ∈ claim_batches (tables (lanes q)).
Proof.
  unfold receipt_ref. destruct (ce_claim_batch_id (cj_claim e)) as [id|]; [|done].
  destruct (ce_claim_batch_index (cj_claim e)) as [index|]; [|done]. destruct (ce_receipt_id (cj_claim e)) as [rid|]; [|done].
  destruct (List.find _ _) as [b|] eqn:Hb; [|done]. simpl. destruct (1 <=? index); [|done].
  destruct (cb_items b !! _) as [i|] eqn:Hi; [|done]. simpl.
  destruct (_ && _) eqn:Hg; [|done]. intros [= <-]. apply find_elem in Hb as [Hb Hf].
  rewrite !andb_true_iff, !Z.eqb_eq in Hf. destruct Hf as [Hslot Hid]. rewrite andb_true_iff, bool_decide_eq_true, Z.eqb_eq in Hg.
  destruct Hg as [Ha Hr]. split_and!; simpl; try done; try congruence. apply claim_batch_receipt; [done|]. by eapply list_elem_of_lookup_2.
Qed.

Lemma put_completions D E q cs :
  sinv D (map (fun c => (cp_job_id c, cp_run_lease c)) cs ++ E) q ->
  keeps D (map (fun c => (cp_job_id c, cp_run_lease c)) cs ++ E) q D E (set_completions (completions q ++ cs) q).
Proof.
  intros Hs. pose proof Hs as [Hl _ H1 H2]. apply (keeps_intro _ _ _ []); try done.
  - by apply (ledger_view D q).
  - unfold places. unfold completed_places at 1. cbn [completions set_completions]. rewrite map_app.
    change (map _ (completions q)) with (completed_places q). simpl. solve_Permutation.
  - by intros a ?%elem_of_nil.
Qed.

(** The receipts of claims, found one by one. *)
Lemma omap_refs (f : ClaimedRuntimeJob -> option (ClaimBatch * ClaimItem)) claimed :
  (forall e x, f e = Some x -> attempt_of x = cj_attempt e) -> NoDup (map cj_attempt claimed) ->
  NoDup (map attempt_of (omap f claimed))
  /\ (forall a, a ∈ map attempt_of (omap f claimed) -> exists e, e ∈ claimed /\ cj_attempt e = a).
Proof.
  intros Hf. induction claimed as [|e claimed IH]; simpl; [split; [constructor|by intros ? ?%elem_of_nil]|].
  intros [He Hn]%NoDup_cons. destruct (IH Hn) as [IH1 IH2]. destruct (f e) as [x|] eqn:Hx; simpl.
  - split.
    + constructor; [|done]. intros (e' & Hin & E')%IH2. apply He. rewrite <- (Hf e x Hx), <- E'. by apply list_elem_of_fmap_2.
    + intros a [->|(e' & ? & ?)%IH2]%elem_of_cons; [exists e; split; [left|by rewrite (Hf e x Hx)]|exists e'; split; [by right|done]].
  - split; [done|]. intros a (e' & ? & ?)%IH2. exists e'. split; [by right|done].
Qed.

Lemma complete_fast_resolves D E env claimed q updated q' :
  complete_receipt_runtime_batch_fast env claimed q = Ok (updated, q') -> sinv D E q ->
  NoDup (map cj_attempt claimed) -> Forall (claim_faithful q) claimed -> finishes D E q updated q'.
Proof.
  unfold complete_receipt_runtime_batch_fast. destruct (sv_claim_ring env) as [[? ?] n].
  intros (u & _ & [= <- <-])%rbind_Ok Hs Hn Hfaith. set (completed := List.filter (fast_completable q) claimed).
  set (xs := omap (receipt_ref q) completed).
  assert (Forall (fun e => exists x, receipt_ref q e = Some x /\ unclosed q x = true
            /\ (forall l, l ∈ leases q -> lease_attempt l <> attempt_of x) /\ completed_closure e = [closure_of "completed" x]) completed) as Hc.
  { apply Forall_forall. intros e [He Hin]%elem_of_filter_b. unfold fast_completable in He.
    destruct (receipt_ref q e) as [x|] eqn:Hx; [|done]. apply andb_true_iff in He as [Hu Hl%negb_true_iff]. exists x. split_and!; try done.
    - by apply has_lease_spec.
    - destruct (receipt_ref_spec _ _ _ Hx) as (_ & _ & Hslot & Hid & Hrid & Hb). rewrite Forall_forall in Hfaith.
      specialize (Hfaith e Hin x.1 Hb Hid). unfold completed_closure, closure_of. by rewrite Hrid, Hslot, Hfaith. }
  assert (map attempt_of xs = map cj_attempt completed /\ concat (map completed_closure completed) = map (closure_of "completed") xs
          /\ forall x, x ∈ xs -> x ∈ running q /\ forall l, l ∈ leases q -> lease_attempt l <> attempt_of x) as (Ea & Ec & Hxs).
  { unfold xs. clearbody completed. clear xs. induction Hc as [|e es (x & Hx & Hu & Hl & Ee) _ IH]; [by split_and!; [..|intros ? ?%elem_of_nil]|].
    change (omap (receipt_ref q) (e :: es)) with (match receipt_ref q e with Some y => y :: omap (receipt_ref q) es | None => omap (receipt_ref q) es end).
    rewrite Hx, !map_cons. destruct IH as (-> & IH2 & IH). simpl. rewrite IH2. destruct (receipt_ref_spec _ _ _ Hx) as (Hin & Ha & _).
    rewrite Ee, Ha. split_and!; [done|done|]. intros y [->|Hy]%elem_of_cons; [|by apply IH]. split; [|done]. by apply elem_of_filter_b. }
  assert (keeps D E q (map attempt_of xs ++ D) (map attempt_of xs ++ E) (close_receipts "completed" xs q)) as K.
  { apply close_keeps; [done|by intros x Hx; apply Hxs|rewrite Ea; by apply NoDup_map_filter|].
    intros l Hl (x & E' & Hx)%list_elem_of_fmap. by apply (proj2 (Hxs x Hx) l). }
  rewrite <- Ea. apply finishes_running; [done|intros a (x & -> & Hx)%list_elem_of_fmap; exists x; split; [by apply Hxs|done]|].
  eapply keeps_trans; [exact K|].
  assert (map (fun c => (cp_job_id c, cp_run_lease c)) (map (completion_of env) completed) = map attempt_of xs) as Ep by by rewrite Ea, map_map.
  rewrite <- Ep at 2. eapply keeps_trans; [apply put_completions; rewrite Ep; apply K|].
  apply keeps_view; [unfold view; simpl; by rewrite Ec|]. eapply kp_inv, put_completions. rewrite Ep. apply K.
Qed.

Lemma remembered_spec claimed a :
  (exists e, e ∈ claimed /\ cj_attempt e = a) -> exists e, remembered claimed a = Some e /\ cj_attempt e = a.
Proof.
  intros (e & He & Ha). destruct (find_exists (fun e => bool_decide (cj_attempt e = a)) (rev claimed) e) as (y & Hy & E').
  - apply list_elem_of_In, in_rev. rewrite rev_involutive. by apply list_elem_of_In.
  - by apply bool_decide_eq_true.
  - exists y. split; [done|]. by apply bool_decide_eq_true in E'.
Qed.
Lemma done_rows_places env claimed attempts :
  (forall a, a ∈ attempts -> exists e, e ∈ claimed /\ cj_attempt e = a) ->
  map (fun r => place_of (dn_columns r)) (done_rows_for env claimed attempts) = attempts.
Proof.
  unfold done_rows_for. induction attempts as [|a attempts IH]; intros H; [done|].
  destruct (remembered_spec claimed a (H a ltac:(left))) as (e & He & Ha).
  change (omap ?f (a :: attempts)) with (match f a with Some y => y :: omap f attempts | None => omap f attempts end).
  simpl. rewrite He. simpl. rewrite IH by (intros; apply H; by right). f_equal. exact Ha.
Qed.

Lemma complete_receipts_resolves D E env claimed entries q updated q' :
  complete_receipts env claimed entries q = Ok (updated, q') -> sinv D E q ->
  NoDup (map cj_attempt entries) -> (forall e, e ∈ entries -> e ∈ claimed) -> finishes D E q updated q'.
Proof.
  unfold complete_receipts. destruct (existsb _ entries); [done|]. cbv zeta. intros (q1 & Hi & [= <- <-])%rbind_Ok Hs Hn Hsub.
  set (xs := omap (slow_completable q) entries) in *.
  assert (forall e x, slow_completable q e = Some x -> attempt_of x = cj_attempt e) as Hat.
  { intros e x. unfold slow_completable. destruct (receipt_ref q e) as [y|] eqn:Hy; [|done].
    destruct (open_receipt q y); [|done]. intros [= <-]. by apply receipt_ref_spec in Hy as (_ & ? & _). }
  destruct (omap_refs (slow_completable q) entries Hat Hn) as [Hnd Hin]. fold xs in Hnd, Hin.
  assert (forall x, x ∈ xs -> x ∈ receipts q /\ open_receipt q x = true) as Hxs.
  { intros x (e & _ & Hx)%list_elem_of_omap. unfold slow_completable in Hx. destruct (receipt_ref q e) as [y|] eqn:Hy; [|done].
    destruct (open_receipt q y) eqn:Ho; [|done]. injection Hx as ->. by apply receipt_ref_spec in Hy as (? & _). }
  set (q0 := set_attempts _ q) in Hi. assert (sinv D E q0) as Hs0 by by apply (sinv_view _ _ q).
  assert (keeps D E q0 (map attempt_of xs ++ D) (map attempt_of xs ++ E) (close_receipts "completed" xs q0)) as K.
  { apply close_keeps; [done|..|done|].
    - intros x Hx. destruct (Hxs x Hx) as [Hr Ho%open_receipt_spec]. apply elem_of_filter_b. split; [apply Ho|done].
    - intros l Hl (x & E' & Hx)%list_elem_of_fmap. destruct (Hxs x Hx) as [_ Ho%open_receipt_spec]. by apply (proj1 (proj2 Ho) l). }
  apply finishes_running; [done| |].
  { intros a (x & -> & Hx)%list_elem_of_fmap. exists x. split; [|done]. destruct (Hxs x Hx) as [Hr Ho%open_receipt_spec].
    apply elem_of_filter_b. split; [apply Ho|done]. }
  eapply keeps_trans; [by apply (keeps_view D E q q0)|]. eapply keeps_trans; [exact K|].
  pose proof (done_rows_places env claimed (map attempt_of xs)) as Ep.
  rewrite <- Ep at 2; [eapply insert_done_keeps; [exact Hi|rewrite Ep; [apply K|]]|];
    intros a (e & ? & ?)%Hin; exists e; auto.
Qed.

Lemma complete_leases_resolves D E env claimed entries q updated q' :
  complete_leases env claimed entries q = Ok (updated, q') -> sinv D E q ->
  (forall e, e ∈ entries -> e ∈ claimed) -> finishes D E q updated q'.
Proof.
  unfold complete_leases. destruct (delete_leases _ q) as [deleted q1] eqn:Hd. cbv zeta.
  intros (q2 & Hi & [= <- <-])%rbind_Ok Hs Hsub.
  destruct (deleted_leases _ _ _ _ _ Hd (si_ledger _ _ _ Hs)) as (Hn & Hx & Hl).
  pose proof (delete_leases_keeps _ _ _ _ _ _ Hd Hs) as K1.
  set (q1' := set_attempts _ q1) in Hi. assert (sinv D E q1') as Hs1 by (apply (sinv_view _ _ q1); [done|apply K1]).
  assert (keeps D E q1' (map dl_attempt_of deleted ++ D) (map dl_attempt_of deleted ++ E)
            (close_receipt_pairs_tx (map dl_attempt_of deleted) "completed" q1')) as K2.
  { apply close_pairs_keeps; [done|done| |done]. intros a (d & -> & Hin)%list_elem_of_fmap. by apply Hx. }
  assert (forall a, a ∈ map dl_attempt_of deleted -> exists e, e ∈ claimed /\ cj_attempt e = a) as Hrem.
  { unfold delete_leases in Hd. injection Hd as <- _. rewrite map_map.
    intros a (l & -> & [Hm _]%elem_of_filter_b)%list_elem_of_fmap. apply existsb_elem in Hm as (e & He & Hm). exists e. split; [auto|].
    unfold lease_matches in Hm. rewrite !andb_true_iff, !bool_decide_eq_true in Hm. symmetry. apply Hm. }
  pose proof (done_rows_places env claimed _ Hrem) as Ep.
  exists (map dl_attempt_of deleted ++ D). split.
  2: { intros a [_ Ha]%elem_of_filter_b. split; [apply elem_of_app; by left|]. apply list_elem_of_fmap in Ha as (d & -> & Hd').
       by eapply deleted_open; [exact Hd|apply Hs|]. }
  eapply keeps_trans; [exact K1|]. eapply keeps_trans; [apply (keeps_view D E q1 q1'); [done|apply K1]|]. eapply keeps_trans; [exact K2|].
  rewrite <- Ep at 2. eapply insert_done_keeps; [exact Hi|]. rewrite Ep. apply K2.
Qed.

Lemma resolves_trans D E q q1 q2 : (resolves D E q q1) -> (forall D', sinv D' E q1 -> resolves D' E q1 q2) -> resolves D E q q2.
Proof. intros (D1 & K1) H. destruct (H D1) as (D2 & K2); [apply K1|]. exists D2. by eapply keeps_trans. Qed.

Lemma complete_slow_resolves D E env claimed q updated q' :
  complete_runtime_batch_slow env claimed q = Ok (updated, q') -> sinv D E q -> NoDup (map cj_attempt claimed) -> finishes D E q updated q'.
Proof.
  unfold complete_runtime_batch_slow. cbv zeta. intros ([u1 q1] & H1 & H)%rbind_Ok Hs Hn.
  apply rbind_Ok in H as ([u2 q2] & H2 & [= <- <-]). apply (finishes_app D E q u1 q1).
  - eapply complete_receipts_resolves; [exact H1|done|by apply NoDup_map_filter|by intros e [_ ?]%elem_of_filter_b].
  - intros D' Hs1. eapply complete_leases_resolves; [exact H2|done|].
    intros e [[_ He]%elem_of_filter_b|[_ [_ He]%elem_of_filter_b]%elem_of_filter_b]%elem_of_app; done.
Qed.

Lemma complete_runtime_resolves D E env claimed q r q' :
  complete_runtime_batch env claimed q = (r, q') -> sinv D E q -> NoDup (map cj_attempt claimed) ->
  Forall (claim_faithful q) claimed -> finishes D E q (match r with Ok u => u | Err _ => [] end) q'.
Proof.
  intros H Hs Hn Hf.
  assert (forall D entries q r q', match complete_runtime_batch_slow env entries q with Ok (u, q) => (Ok u, q) | Err e => (Err e, q) end
            = (r : result AwaError _, q') -> sinv D E q -> NoDup (map cj_attempt entries) ->
            finishes D E q (match r with Ok u => u | Err _ => [] end) q') as Hslow.
  { clear. intros D entries q r q' H Hs Hn. destruct (complete_runtime_batch_slow env entries q) as [[u q1]|e] eqn:Hc; injection H as <- <-.
    - by eapply complete_slow_resolves.
    - by apply finishes_none. }
  unfold complete_runtime_batch in H. cbv zeta in H. destruct claimed as [|e es]; [injection H as <- <-; by apply finishes_none|].
  set (claimed := e :: es) in *. destruct (forallb _ claimed); [|by eapply Hslow].
  destruct (complete_receipt_runtime_batch_fast env claimed q) as [[u q1]|e1] eqn:Hfast; [|injection H as <- <-; by apply finishes_none].
  apply (complete_fast_resolves D E) in Hfast; [|done..].
  set (missed := List.filter _ claimed) in H. assert (NoDup (map cj_attempt missed)) as Hm by by apply NoDup_map_filter.
  destruct missed as [|m ms]; [by injection H as <- <-|].
  destruct (match complete_runtime_batch_slow env (m :: ms) q1 with Ok (u, q) => _ | Err e => _ end) as [r2 q2] eqn:H2.
  assert (q2 = q') as -> by (destruct r2; by injection H as _ <-).
  assert (finishes D E q (u ++ match r2 with Ok u => u | Err _ => [] end) q') as (D' & K & Hd).
  { apply (finishes_app D E q u q1); [done|]. intros D' Hs1. by eapply Hslow. }
  exists D'. split; [done|]. destruct r2; injection H as <-; [done|by intros a ?%elem_of_nil].
Qed.

Lemma completed_rows_places env rows done :
  completed_rows env rows = Ok done -> map (fun r => place_of (dn_columns r)) done = map (fun r => place_of (lt_columns r)) rows.
Proof.
  revert done. induction rows as [|r rows IH]; intros done; simpl; [by intros [= <-]|].
  intros (p & _ & (p' & _ & (rest & Hr & [= <-])%rbind_Ok)%rbind_Ok)%rbind_Ok. simpl. by rewrite (IH _ Hr).
Qed.

Lemma complete_deleted_resolves D E env target q out q' :
  complete_deleted_leases env target q = Ok (out, q') -> sinv D E q -> finishes D E q out q'.
Proof.
  unfold complete_deleted_leases. destruct (delete_leases _ q) as [deleted q1] eqn:Hd. cbv zeta.
  intros ([moved q2] & Hh & H)%rbind_Ok Hs. apply rbind_Ok in H as (rows & Hrows & H). apply rbind_Ok in H as (q3 & Hi & [= <- <-]).
  destruct (end_leases_keeps _ _ _ _ _ _ _ _ _ Hd Hh Hs) as [Hp K]. apply completed_rows_places in Hrows.
  change (map _ moved) with (map (fun r => place_of (lt_columns r)) moved). rewrite Hp.
  assert (forall a, a ∈ map dl_attempt_of deleted -> a ∉ D) as Hn.
  { intros a (d & -> & Hin)%list_elem_of_fmap. by eapply deleted_open; [exact Hd|apply Hs|]. }
  rewrite <- Hp, <- Hrows in K, Hn |- *. eexists. split; [eapply keeps_trans; [exact K|]; by eapply insert_done_keeps, K|].
  intros a Ha. split; [apply elem_of_app; by left|by apply Hn].
Qed.

(** * Jobs at rest *)

Section Rows.
Context {V : Type} (id : V -> Z) (m : gmap Z V).
Hypothesis Hk : forall j r, m !! j = Some r -> id r = j.
Lemma table_rows (rows : list V) :
  rows ⊆+ map snd (map_to_list m) -> NoDup (map id rows) /\ forall r, r ∈ rows -> m !! id r = Some r.
Proof.
  intros Hsub. assert (map id (map snd (map_to_list m)) = map fst (map_to_list m)) as E.
  { rewrite map_map. apply map_ext_in. intros [j r] Hin%list_elem_of_In%elem_of_map_to_list. by apply Hk. }
  split.
  - apply submseteq_Permutation in Hsub as (k & Hp). pose proof (NoDup_fst_map_to_list m) as Hn.
    change (fst <$> map_to_list m) with (map fst (map_to_list m)) in Hn. rewrite <- E, Hp, map_app in Hn. by apply NoDup_app in Hn as [? _].
  - intros r Hr. apply (elem_of_submseteq _ _ _ Hr) in Hsub. apply list_elem_of_fmap in Hsub as ([j r'] & -> & Hin%elem_of_map_to_list).
    simpl. by rewrite (Hk j r' Hin).
Qed.
End Rows.

Lemma promote_due_resolves D E env lockable state n q count q' :
  promote_due env lockable state n q = Ok (count, q') -> sinv D E q -> keeps D E q D E q'.
Proof.
  unfold promote_due. destruct (_ || _); [intros [= _ <-]; apply keeps_refl|]. cbv zeta.
  intros (q1 & Hi & [= _ <-])%rbind_Ok Hs. set (rows := due_rows env lockable state n q) in *.
  destruct (table_rows (fun r => c_job_id (df_columns r)) (deferred_jobs q) (si_deferred _ _ _ Hs) rows) as [Hn Hr].
  { unfold rows, due_rows. etransitivity; [apply sublist_submseteq, sublist_take|]. rewrite (merge_sort_Permutation due_le). apply filter_take_sub. }
  pose proof (take_deferred D E q rows Hs Hn Hr) as K. eapply keeps_trans; [exact K|].
  assert (map place_of (map (fun r => with_run_at (sv_now env) (df_columns r)) rows) = map (fun r => place_of (df_columns r)) rows) as Ep by by rewrite map_map.
  rewrite <- Ep in K |- *. by eapply insert_ready_keeps, K.
Qed.

(** The one terminal row of a job. *)
Lemma take_latest_keeps D E states job_id q r q' :
  take_latest_done states job_id q = (Some r, q') -> sinv D E q -> keeps D E q D (place_of (dn_columns r) :: E) q'.
Proof.
  unfold take_latest_done. destruct (latest_done states job_id q) as [[k d]|]; [|done].
  destruct (delete_done _ q) as [rows q1] eqn:Hd. intros [= Hh <-] Hs. pose proof (take_done _ _ _ _ _ _ Hd Hs) as K.
  assert (forall z, z ∈ rows -> c_job_id (dn_columns z) = job_id) as Hj.
  { unfold delete_done in Hd. injection Hd as <- _. intros z ([k' d'] & -> & [Hz _]%elem_of_filter_b)%list_elem_of_fmap.
    apply andb_true_iff in Hz as [Hz%Z.eqb_eq _]. simpl in *. by destruct k' as [[[[? ?] ?] ?] ?]. }
  pose proof (ac_one _ _ _ (si_places _ _ _ (kp_inv _ _ _ _ _ _ K))) as Hn. rewrite !map_app, map_map in Hn. rewrite <- app_assoc in Hn. apply NoDup_app in Hn as [Hn _].
  destruct rows as [|z [|z' rows]]; [done|by injection Hh as ->|]. exfalso. simpl in Hn. apply NoDup_cons in Hn as [Hn _]. apply Hn.
  rewrite (Hj z), <- (Hj z'); [left|right; left|left].
Qed.

Lemma retry_job_resolves D E env job_id q r q' :
  retry_job_tx env job_id q = Ok (r, q') -> sinv D E q -> resolves D E q q'.
Proof.
  unfold retry_job_tx. intros H Hs. destruct (delete_leases _ q) as [deleted q1] eqn:Hd. destruct deleted as [|d deleted].
  - destruct (take_latest_done _ job_id q) as [[t|] q2] eqn:Ht; [|injection H as _ <-; by apply resolves_refl].
    pose proof (take_latest_keeps _ _ _ _ _ _ _ Ht Hs) as K. apply resolves_keeps. eapply keeps_trans; [exact K|].
    set (q3 := decrement_live_terminal_counters_tx env [t] q2) in *. open_binds. subst.
    eapply keeps_trans; [apply (keeps_view _ _ q2 q3); [done|apply K]|].
    assert (sinv D (place_of (dn_columns t) :: E) q3) as Hs3 by (apply (sinv_view _ _ q2); [done|apply K]). put_row Hs3.
  - assert (deleted = []) as ->.
    { apply (deleted_one_job D E q _ d deleted q1 job_id Hd Hs). intros l [Hl%Z.eqb_eq _]%andb_true_iff. done. }
    apply rbind_Ok in H as ([rows q2] & Hh & H). destruct (take_leases_keeps _ _ _ _ _ _ _ _ Hd Hh Hs) as [Hp K].
    destruct rows as [|w [|? ?]]; try done. open_binds. subst. simpl in Hp, K.
    assert (place_of (lt_columns w) = dl_attempt_of d) as Ew by congruence. rewrite <- Ew in K.
    exists (place_of (lt_columns w) :: D). eapply keeps_trans; [exact K|]. pose proof (kp_inv _ _ _ _ _ _ K) as Hs2. put_row Hs2.
Qed.

Lemma insert_done_frame env rows old q q' :
  insert_done_rows_tx env rows old q = Ok q' -> lanes q' = lanes q /\ closures q' = closures q /\ leases q' = leases q.
Proof.
  unfold insert_done_rows_tx. intros (q1 & H1 & H)%rbind_Ok. cbv zeta in H. apply rbind_Ok in H as (m & _ & [= <-]).
  unfold sync_unique_claims in H1. by apply rbind_Ok in H1 as (u & _ & [= <-]).
Qed.

(** Closing receipts and writing terminal rows commute. *)
Lemma insert_done_close env rows old q q' outcome xs :
  insert_done_rows_tx env rows old q = Ok q' ->
  insert_done_rows_tx env rows old (close_receipts outcome xs q) = Ok (close_receipts outcome xs q').
Proof.
  unfold insert_done_rows_tx, sync_unique_claims. intros (q1 & (u & Hu & [= <-])%rbind_Ok & H)%rbind_Ok. cbv zeta in *.
  apply rbind_Ok in H as (m & Hm & [= <-]). simpl. rewrite Hu. simpl.
  assert (forall rows m, execute_done_inserts (set_unique u (close_receipts outcome xs q)) (bool_decide (old = Some Running \/ old = Some WaitingExternal)) rows m
          = execute_done_inserts (set_unique u q) (bool_decide (old = Some Running \/ old = Some WaitingExternal)) rows m) as E.
  { clear. induction rows as [|r rows IH]; intros m; [done|]. simpl. destruct (m !! done_key r); [done|]. apply IH. }
  rewrite E. simpl in Hm |- *. by rewrite Hm.
Qed.

Lemma unclaimed_target_live s job_id r : unclaimed_target s job_id = Some r -> r ∈ live s /\ c_job_id (rt_columns r) = job_id.
Proof.
  unfold unclaimed_target. intros H%head_elem. rewrite (merge_sort_Permutation seq_ge) in H.
  apply elem_of_filter_b in H as [[Hj%Z.eqb_eq Hu]%andb_true_iff Hin]. split; [|done]. by apply elem_of_filter_b.
Qed.

Lemma cancel_materialized_resolves D E env job_id run_lease q r q' :
  cancel_materialized_lease_tx env job_id run_lease q = Ok (r, q') -> sinv D E q -> resolves D E q q'.
Proof.
  unfold cancel_materialized_lease_tx. intros H Hs. destruct (delete_leases _ q) as [deleted q1] eqn:Hd.
  pose proof (delete_leases_keeps _ _ _ _ _ _ Hd Hs) as K0. destruct deleted as [|d deleted]; [injection H as _ <-; by exists D|].
  assert (deleted = []) as ->.
  { apply (deleted_one_job D E q _ d deleted q1 job_id Hd Hs). intros l. rewrite !andb_true_iff, Z.eqb_eq. tauto. }
  apply rbind_Ok in H as ([rows q2] & Hh & H). destruct (take_leases_keeps _ _ _ _ _ _ _ _ Hd Hh Hs) as [Hp K].
  destruct rows as [|w [|? ?]]; try done. simpl in Hp, K.
  assert (place_of (lt_columns w) = dl_attempt_of d) as Ew by congruence. rewrite <- Ew in K. pose proof (kp_inv _ _ _ _ _ _ K) as Hs2.
  apply rbind_Ok in H as (p & _ & H). cbv zeta in H. apply rbind_Ok in H as (q3 & Hi & H). apply rbind_Ok in H as (row & _ & [= _ <-]).
  exists (place_of (lt_columns w) :: D). eapply keeps_trans; [exact K|].
  assert (keeps (place_of (lt_columns w) :: D) (place_of (lt_columns w) :: E) q2 (place_of (lt_columns w) :: D) E q3) as K3 by put_row Hs2.
  eapply keeps_trans; [exact K3|]. apply keeps_view; [|apply K3]. apply close_pairs_none.
  intros a x ->%list_elem_of_singleton Hx Ea. apply not_true_iff_false. intros Hu%unclosed_spec.
  apply (lg_open _ _ (si_ledger _ _ _ (kp_inv _ _ _ _ _ _ K3)) x); [by apply running_elem|]. rewrite Ea. left.
Qed.

Lemma try_cancel_resolves D E env job_id q r q' :
  try_cancel_running_attempt_tx env job_id q = Ok (r, q') -> sinv D E q -> resolves D E q q'.
Proof.
  unfold try_cancel_running_attempt_tx. intros H Hs. destruct (merge_sort _ _) as [|l ?].
  - destruct (open_receipt_of job_id q) as [x|] eqn:Hx; [|injection H as _ <-; by apply resolves_refl].
    destruct (ready_of_receipt q x) as [row|]; [|injection H as _ <-; by apply resolves_refl]. cbv zeta in H.
    apply rbind_Ok in H as (q1 & Hi & H). apply rbind_Ok in H as (j & _ & [= _ <-]).
    unfold open_receipt_of in Hx. apply head_elem in Hx. rewrite (merge_sort_Permutation item_ge) in Hx.
    apply elem_of_filter_b in Hx as [[_ Ho%open_receipt_spec]%andb_true_iff Hx].
    assert (keeps D E q (attempt_of x :: D) (attempt_of x :: E) (close_receipts "cancelled" [x] q)) as K.
    { apply (close_keeps D E q "cancelled" [x]); [done|..].
      - intros y ->%list_elem_of_singleton. apply elem_of_filter_b. split; [apply Ho|done].
      - by apply NoDup_singleton.
      - intros l Hl ?%list_elem_of_singleton. by apply (proj1 (proj2 Ho) l). }
    apply (insert_done_close _ _ _ _ _ "cancelled" [x]) in Hi. exists (attempt_of x :: D). eapply keeps_trans; [exact K|].
    pose proof (kp_inv _ _ _ _ _ _ K) as Hs1. destruct x as [b i]. put_row Hs1.
  - apply rbind_Ok in H as ([o q1] & H & [= _ <-]). by eapply cancel_materialized_resolves.
Qed.

Lemma ensure_lane_keeps D E lane q : sinv D E q -> keeps D E q D E (ensure_lane_tx lane q).
Proof.
  intros Hs. unfold ensure_lane_tx, ensure_lane. pose proof (lg_calm _ _ (si_ledger _ _ _ Hs)) as Hc.
  case_bool_decide; [apply keeps_view; [done|done]|]. apply lanes_keeps; try done.
  - apply (calm_frame (lanes q)); try done. intros l Hl. apply elem_of_app. by left.
Qed.

Lemma cancel_deferred_keeps D E env job_id q r q' :
  cancel_deferred env job_id q = Ok (r, q') -> sinv D E q -> keeps D E q D E q'.
Proof.
  unfold cancel_deferred. destruct (deferred_jobs q !! job_id) as [row|] eqn:Hr; [|intros [= _ <-]; apply keeps_refl].
  cbv zeta. intros H Hs. pose proof (si_deferred _ _ _ Hs job_id row Hr) as Ej.
  assert (keeps D E q D (place_of (df_columns row) :: E) (delete_deferred [job_id] q)) as K.
  { rewrite <- Ej. apply (take_deferred D E q [row]); [done|by apply NoDup_singleton|]. intros r' ->%list_elem_of_singleton. by rewrite Ej. }
  eapply keeps_trans; [exact K|]. pose proof (ensure_lane_keeps _ _ (c_queue (df_columns row), c_priority (df_columns row), 0) _ (kp_inv _ _ _ _ _ _ K)) as K2.
  eapply keeps_trans; [exact K2|]. open_binds. subst. pose proof (kp_inv _ _ _ _ _ _ K2) as Hs2. put_row Hs2.
Qed.

Lemma cancel_job_resolves D E env job_id q r q' :
  cancel_job env job_id q = Ok (r, q') -> sinv D E q -> resolves D E q q'.
Proof.
  unfold cancel_job. intros H Hs. destruct (cancel_ready_tx _ job_id (lanes q)) as [[[t done] adv]|] eqn:Hc.
  - unfold cancel_ready_tx in Hc. destruct (unclaimed_target (lanes q) job_id) as [row|] eqn:Hu; [|done]. injection Hc as <- <- <-.
    apply unclaimed_target_live in Hu as [Hlive _]. destruct (take_ready D E q row Hs Hlive) as [K Hsound].
    apply rbind_Ok in H as (q1 & Hi & H). apply rbind_Ok in H as (j & _ & [= _ <-]). pose proof (kp_inv _ _ _ _ _ _ K) as Hs1.
    set (q0 := set_lanes _ q) in *.
    assert (keeps D (place_of (rt_columns row) :: E) q0 D E q1) as K1 by put_row Hs1.
    apply resolves_keeps. eapply keeps_trans; [exact K|]. eapply keeps_trans; [exact K1|].
    apply insert_done_frame in Hi as (El & _). apply (advance_keeps D E q1 [cancel_advance (tombstone_of row)]); [apply K1|]. rewrite El. constructor; [exact Hsound|constructor].
  - apply rbind_Ok in H as ([o q1] & Ht & H). pose proof (try_cancel_resolves _ _ _ _ _ _ _ Ht Hs) as Hr.
    destruct o; [injection H as _ <-; done|injection H as _ <-; done|]. apply (resolves_trans D E q q1); [done|].
    intros D' Hs1. apply resolves_keeps. by eapply cancel_deferred_keeps.
Qed.

(** * Moves *)

Lemma update_deferred_keeps D E logical stripe job_id queue priority q b q' :
  update_deferred_batch_fields_tx logical stripe job_id queue priority q = Ok (b, q') -> sinv D E q -> keeps D E q D E q'.
Proof.
  unfold update_deferred_batch_fields_tx. destruct (deferred_jobs q !! job_id) as [r|] eqn:Hr; [|intros [= _ <-]; apply keeps_refl].
  destruct (negb _); [intros [= _ <-]; apply keeps_refl|]. cbv zeta. destruct (_ && _); [intros [= _ <-]; apply keeps_refl|].
  intros H Hs. open_binds. subst. set (r' := mkDeferred _ _ _). pose proof Hs as [Hl _ Hk1 Hk2]. pose proof (Hk1 job_id r Hr) as Ej.
  apply (keeps_intro _ _ _ []); try done.
  - by apply (ledger_view D q).
  - f_equiv. unfold places. assert (deferred_places (set_deferred (<[job_id := r']> (deferred_jobs q)) q) ≡ₚ deferred_places q) as ->; [|done].
    unfold deferred_places. cbn [deferred_jobs set_deferred]. rewrite <- insert_delete_eq.
    rewrite (rows_insert (fun r => place_of (df_columns r))) by apply lookup_delete_eq.
    rewrite (rows_delete (fun r => place_of (df_columns r)) (deferred_jobs q) job_id r Hr). done.
  - by intros a ?%elem_of_nil.
  - simpl. intros j r0 [[<- <-]|[_ ?]]%lookup_insert_Some; [exact Ej|by apply Hk1].
Qed.

Lemma move_ready_keeps D E env logical stripe job_id queue priority q b q' :
  move_ready env logical stripe job_id queue priority q = Ok (b, q') -> sinv D E q -> keeps D E q D E q'.
Proof.
  unfold move_ready. destruct (unclaimed_target (lanes q) job_id) as [row|] eqn:Hu; [|intros [= _ <-]; apply keeps_refl].
  destruct (moved_route _ _ _ _ _) as [new_queue new_priority]. cbv zeta. destruct (_ && _); [intros [= _ <-]; apply keeps_refl|].
  intros H Hs. apply unclaimed_target_live in Hu as [Hlive _]. destruct (take_ready D E q row Hs Hlive) as [K _].
  open_binds. subst. eapply keeps_trans; [exact K|]. pose proof (kp_inv _ _ _ _ _ _ K) as Hs1. put_row Hs1.
Qed.

(** Ready rows taken together. *)
Lemma take_ready_rows D E q rows :
  sinv D E q -> NoDup rows -> (forall r, r ∈ rows -> r ∈ live (lanes q)) ->
  keeps D E q D (map (fun r => place_of (rt_columns r)) rows ++ E) (foldr tombstone_row q rows)
  /\ live (lanes q) ≡ₚ rows ++ live (lanes (foldr tombstone_row q rows)).
Proof.
  intros Hs. induction rows as [|r rows IH]; simpl; intros Hn Hl; [split; [by apply keeps_refl|done]|].
  apply NoDup_cons in Hn as [Hr Hn]. destruct IH as [K Hp]; [done|by intros; apply Hl; right|].
  set (q1 := foldr tombstone_row q rows) in *. assert (r ∈ live (lanes q1)) as Hin.
  { specialize (Hl r ltac:(left)). rewrite Hp in Hl. by apply elem_of_app in Hl as [?|?]. }
  destruct (take_ready _ _ q1 r (kp_inv _ _ _ _ _ _ K) Hin) as [K2 _].
  destruct (calm_tombstone (lanes q1) r (lg_calm _ _ (si_ledger _ _ _ (kp_inv _ _ _ _ _ _ K))) Hin) as (_ & Hp2 & _).
  split; [by eapply keeps_trans|]. rewrite Hp, Hp2. by rewrite <- Permutation_middle.
Qed.

Lemma aged_rows_places rows out :
  all_ok aged_row rows = Ok out -> map place_of out = map (fun r => place_of (rt_columns r)) rows.
Proof.
  revert out. induction rows as [|r rows IH]; intros out; simpl; [by intros [= <-]|].
  intros (c & Hc & (cs & Hcs & [= <-])%rbind_Ok)%rbind_Ok. simpl. rewrite (IH _ Hcs). f_equal.
  unfold aged_row in Hc. by apply rbind_Ok in Hc as (p & _ & (p' & _ & [= <-])%rbind_Ok).
Qed.

Lemma age_waiting_keeps D E env lockable interval limit q ids q' :
  age_waiting_priorities env lockable interval limit q = Ok (ids, q') -> sinv D E q -> keeps D E q D E q'.
Proof.
  unfold age_waiting_priorities. destruct (limit <=? 0); [intros [= _ <-]; apply keeps_refl|].
  intros (cutoff & _ & H)%rbind_Ok Hs. cbv zeta in H. set (rows := waiting_rows _ _ _ _) in H.
  assert (rows ⊆+ live (lanes q)) as Hsub.
  { unfold rows, waiting_rows, live. etransitivity; [apply sublist_submseteq, sublist_take|]. rewrite (merge_sort_Permutation waiting_le).
    rewrite (filter_filter_weaker _ (unclaimed (lanes q))); [apply filter_take_sub|]. intros r _. rewrite !andb_true_iff. tauto. }
  pose proof (live_NoDup _ (lg_calm _ _ (si_ledger _ _ _ Hs))) as Hn.
  assert (NoDup rows) as Hnr by (apply submseteq_Permutation in Hsub as (k & Hk); rewrite Hk in Hn; by apply NoDup_app in Hn as [? _]).
  destruct (take_ready_rows D E q rows Hs Hnr) as [K _]; [intros r Hr; by eapply elem_of_submseteq|].
  destruct rows as [|r0 rows]; [injection H as _ <-; by apply keeps_refl|].
  apply rbind_Ok in H as (out & Ho & (q1 & Hi & [= _ <-])%rbind_Ok). eapply keeps_trans; [exact K|].
  rewrite <- (aged_rows_places _ _ Ho) in K |- *. by eapply insert_ready_keeps, K.
Qed.

Lemma move_either_keeps D E env logical stripe job_id queue priority q b q' :
  move_either env logical stripe job_id queue priority q = Ok (b, q') -> sinv D E q -> keeps D E q D E q'.
Proof.
  unfold move_either. intros ([moved q1] & H1 & H)%rbind_Ok Hs. pose proof (update_deferred_keeps _ _ _ _ _ _ _ _ _ _ H1 Hs) as K.
  destruct moved; [injection H as _ <-; done|]. eapply keeps_trans; [exact K|]. by eapply move_ready_keeps, K.
Qed.

Lemma set_priority_keeps D E env logical stripe job_id priority q b q' :
  set_priority_tx env logical stripe job_id priority q = Ok (b, q') -> sinv D E q -> keeps D E q D E q'.
Proof. unfold set_priority_tx. destruct (_ && _); [|done]. apply move_either_keeps. Qed.
Lemma move_queue_keeps D E env logical stripe job_id queue priority q b q' :
  move_queue_tx env logical stripe job_id queue priority q = Ok (b, q') -> sinv D E q -> keeps D E q D E q'.
Proof. unfold move_queue_tx. destruct (_ || _); [done|]. destruct (match priority with Some _ => _ | None => _ end); [|done]. apply move_either_keeps. Qed.

(** * The dead-letter queue *)

Lemma move_failed_keeps D E env job_id reason q r q' :
  move_failed_to_dlq env job_id reason q = Ok (r, q') -> sinv D E q -> keeps D E q D E q'.
Proof.
  unfold move_failed_to_dlq. destruct (take_latest_done _ job_id q) as [[t|] q2] eqn:Ht; intros H Hs; [|injection H as _ <-; by apply keeps_refl].
  pose proof (take_latest_keeps _ _ _ _ _ _ _ Ht Hs) as K. eapply keeps_trans; [exact K|].
  set (q3 := decrement_live_terminal_counters_tx env [t] q2) in *. open_binds. subst.
  eapply keeps_trans; [apply (keeps_view _ _ q2 q3); [done|apply K]|].
  assert (sinv D (place_of (dn_columns t) :: E) q3) as Hs3 by (apply (sinv_view _ _ q2); [done|apply K]). put_row Hs3.
Qed.

Lemma bulk_move_keeps D E env kind queue reason q n q' :
  bulk_move_failed_to_dlq env kind queue reason q = Ok (n, q') -> sinv D E q -> keeps D E q D E q'.
Proof.
  unfold bulk_move_failed_to_dlq. destruct (delete_done _ q) as [rows q1] eqn:Hd. cbv zeta.
  intros (q2 & Hi & [= _ <-])%rbind_Ok Hs. pose proof (take_done _ _ _ _ _ _ Hd Hs) as K. eapply keeps_trans; [exact K|].
  set (q3 := decrement_live_terminal_counters_tx env rows q1) in *.
  eapply keeps_trans; [apply (keeps_view _ _ q1 q3); [done|apply K]|].
  assert (map (fun r => place_of (dq_columns r)) (map (done_into_dlq_row reason (sv_now env)) rows) = map (fun r => place_of (dn_columns r)) rows) as Ep by by rewrite map_map.
  rewrite <- Ep. eapply insert_dlq_keeps; [exact Hi|]. rewrite Ep. apply (sinv_view _ _ q1); [done|apply K].
Qed.

Lemma retry_from_dlq_keeps D E env job_id opts q r q' :
  retry_from_dlq env job_id opts q = Ok (r, q') -> sinv D E q -> keeps D E q D E q'.
Proof.
  unfold retry_from_dlq. destruct (dlq_entries q !! job_id) as [row|] eqn:Hr; [|intros [= _ <-]; apply keeps_refl]. cbv zeta.
  intros H Hs. pose proof (si_dlq _ _ _ Hs job_id row Hr) as Ej.
  assert (keeps D E q D (place_of (dq_columns row) :: E) (delete_dlq [job_id] q)) as K.
  { rewrite <- Ej. apply (take_dlq D E q [row]); [done|by apply NoDup_singleton|]. intros r' ->%list_elem_of_singleton. by rewrite Ej. }
  eapply keeps_trans; [exact K|]. pose proof (kp_inv _ _ _ _ _ _ K) as Hs1. apply rbind_Ok in H as (p & _ & H).
  destruct (ro_run_at opts) as [t|]; [destruct (_ <? t)|]; open_binds; subst; put_row Hs1.
Qed.

Lemma revive_rows_places env rows out :
  all_ok (revive_dlq_row env) rows = Ok out -> map place_of out = map (fun r => place_of (dq_columns r)) rows.
Proof.
  revert out. induction rows as [|r rows IH]; intros out; simpl; [by intros [= <-]|].
  intros (c & Hc & (cs & Hcs & [= <-])%rbind_Ok)%rbind_Ok. simpl. rewrite (IH _ Hcs). f_equal.
  unfold revive_dlq_row in Hc. by apply rbind_Ok in Hc as (p & _ & [= <-]).
Qed.

Lemma bulk_retry_keeps D E env f q n q' :
  bulk_retry_from_dlq env f q = Ok (n, q') -> sinv D E q -> keeps D E q D E q'.
Proof.
  unfold bulk_retry_from_dlq. cbv zeta. set (rows := List.filter _ _). intros (out & Ho & (q1 & Hi & [= _ <-])%rbind_Ok)%rbind_Ok Hs.
  destruct (table_rows (fun r => c_job_id (dq_columns r)) (dlq_entries q) (si_dlq _ _ _ Hs) rows (filter_take_sub _ _)) as [Hn Hr].
  pose proof (take_dlq D E q rows Hs Hn Hr) as K. eapply keeps_trans; [exact K|].
  rewrite <- (revive_rows_places _ _ _ Ho) in K |- *. by eapply insert_ready_keeps, K.
Qed.

(** * Enqueue *)

Definition new_places (ids : list Z) : list (Z * Z) := map (fun i => (i, 0)) ids.

Lemma next_ids_elem n q i : i ∈ fst (next_job_ids n q) <-> job_id_seq q <= i < job_id_seq q + Z.of_nat n.
Proof.
  unfold next_job_ids. simpl. rewrite elem_of_imap_iff. split.
  - intros (k & u & Hk & ->). apply lookup_lt_Some in Hk. rewrite length_replicate in Hk. lia.
  - intros H. exists (Z.to_nat (i - job_id_seq q)), tt. split; [apply lookup_replicate_2; lia|lia].
Qed.
Lemma next_ids_NoDup n q : NoDup (fst (next_job_ids n q)).
Proof. apply NoDup_numbers. Qed.

Lemma draw_sinv D E n q :
  sinv D E q -> sinv D (new_places (fst (next_job_ids n q)) ++ E) (snd (next_job_ids n q)).
Proof.
  intros [Hl [A1 A2 A3 A4] H1 H2]. split; [by apply (ledger_view D q)| |done|done].
  change (places (next_job_ids n q).2) with (places q). change (job_id_seq (next_job_ids n q).2) with (job_id_seq q + Z.of_nat n).
  rewrite <- app_assoc. pose proof (next_ids_elem n q) as Hids. pose proof (next_ids_NoDup n q) as Hn.
  set (ids := (next_job_ids n q).1) in *. clearbody ids.
  assert (map fst (new_places ids) = ids) as Ef by (unfold new_places; rewrite map_map; apply map_id).
  split.
  - rewrite map_app, Ef. apply NoDup_app. split; [done|]. split; [|done].
    intros i Hi%Hids (a & -> & Ha)%list_elem_of_fmap. specialize (A2 a Ha). lia.
  - intros a [(i & -> & Hi%Hids)%list_elem_of_fmap|Ha%A2]%elem_of_app; simpl; lia.
  - intros a Ha%A3. lia.
  - intros j l l' Hj [(i & E' & Hi%Hids)%list_elem_of_fmap|Ha]%elem_of_app; [|by eapply A4].
    injection E' as -> ->. specialize (A3 _ Hj). simpl in A3. lia.
Qed.

Lemma assign_known grouped ids :
  (forall r, r ∈ jobs_of grouped -> rr_job_id r = Some (c_job_id (rr_columns r))) ->
  assign_lane_ids grouped ids = Ok (map (fun lr => (lr.1, map rr_columns lr.2)) grouped).
Proof.
  assert (forall rows ids, (forall r, r ∈ rows -> rr_job_id r = Some (c_job_id (rr_columns r))) ->
    assign_ids rows ids = Ok (map rr_columns rows, ids)) as Hrows.
  { induction rows as [|r rows IH]; intros ids' H; [done|]. simpl. rewrite (H r) by left. simpl.
    rewrite IH by (intros; apply H; by right). simpl. by destruct (rr_columns r). }
  unfold jobs_of. induction grouped as [|[lane rows] grouped IH]; intros H; [done|]. simpl in *.
  rewrite Hrows by (intros; apply H, elem_of_app; by left). simpl. rewrite IH by (intros; apply H, elem_of_app; by right). done.
Qed.

Lemma insert_new_keeps D E env rows q q' :
  insert_ready_rows_tx env rows true q = Ok q' ->
  (forall r, r ∈ rows -> rr_job_id r = Some (c_job_id (rr_columns r))) ->
  sinv D (map (fun r => place_of (rr_columns r)) rows ++ E) q ->
  keeps D (map (fun r => place_of (rr_columns r)) rows ++ E) q D E q'.
Proof.
  unfold insert_ready_rows_tx. destruct rows as [|r0 rows']; [intros [= <-] _; apply keeps_refl|].
  set (rows := r0 :: rows'). clearbody rows. clear r0 rows'. intros H Hid Hs.
  destruct (group_ready_rows_by_shard (sv_shards_of env) (sv_rotor env) rows) as [grouped rotor] eqn:Hg.
  destruct (group_ready_rows_spec (sv_shards_of env) (sv_rotor env) rows) as [Hp He]. rewrite Hg in Hp, He. simpl in Hp, He.
  assert (forall r, r ∈ jobs_of grouped -> rr_job_id r = Some (c_job_id (rr_columns r))) as Hid' by (intros r; rewrite Hp; apply Hid).
  change (concat (map snd grouped)) with (jobs_of grouped) in H.
  rewrite filter_none in H by (intros r Hr; by rewrite (Hid' r Hr)). simpl in H. rewrite assign_known in H by done. simpl in H.
  injection H as <-. set (q1 := set_job_id_seq _ q). assert (view q1 = view q) as Hv by (unfold view; simpl; by rewrite Z.add_0_r).
  set (out := map _ grouped). eapply keeps_trans; [by apply (keeps_view _ _ q q1)|].
  assert (jobs_of out = map rr_columns (jobs_of grouped)) as Ej.
  { unfold jobs_of, out. clear. induction grouped as [|[l rs] g IH]; [done|]. simpl. by rewrite map_app, IH. }
  assert (map place_of (jobs_of out) ≡ₚ map (fun r => place_of (rr_columns r)) rows) as Eo by (rewrite Ej, map_map; by rewrite Hp).
  apply (keeps_perm (map place_of (jobs_of out) ++ E)); [by rewrite Eo|]. apply add_ready_keeps.
  - intros lane cs c ([lane' rs] & [= -> ->] & Hin)%list_elem_of_fmap (r & -> & Hr)%list_elem_of_fmap. symmetry. apply (He lane' rs r Hin Hr).
  - apply (sinv_perm (map (fun r => place_of (rr_columns r)) rows ++ E)); [by rewrite Eo|]. by eapply sinv_view.
Qed.

Section EnqueueFacts.
Context (hash : list Z -> Z) (stripe_count : nat) (blake3 : list Z -> list Z) (to_vec : json -> list Z) (ambient : option string).

Lemma prepare_rows_leases env idx jobs ready deferred :
  prepare_rows hash stripe_count blake3 to_vec ambient env idx jobs = Ok (ready, deferred) ->
  Forall (fun r => c_run_lease (rr_columns r) = 0) ready /\ Forall (fun r => c_run_lease (df_columns r) = 0) deferred.
Proof.
  revert idx ready deferred. induction jobs as [|[[kind args] opts] jobs IH]; intros idx ready deferred; simpl; [by intros [= <- <-]|].
  intros (p & _ & (row & Hrow & ([rs ds] & Hrest & [= E])%rbind_Ok)%rbind_Ok)%rbind_Ok.
  destruct (IH _ _ _ Hrest) as [H1 H2]. destruct (pi_state p); try done; injection Hrow as <-; injection E as <- <-; split; try done; by constructor.
Qed.

Lemma with_ids_places (ready : list RuntimeReadyRow) (deferred : list DeferredJobRow) ids :
  length ids = (length ready + length deferred)%nat ->
  Forall (fun r => c_run_lease (rr_columns r) = 0) ready -> Forall (fun r => c_run_lease (df_columns r) = 0) deferred ->
  map (fun r => place_of (rr_columns r)) (zip_with with_ready_id ready (take (length ready) ids))
  ++ map (fun r => place_of (df_columns r)) (zip_with with_deferred_id deferred (drop (length ready) ids)) = new_places ids.
Proof.
  intros Hlen Hr Hd. revert ids Hlen. induction Hr as [|r ready Hr0 _ IH]; intros ids Hlen; simpl in *.
  - rewrite drop_0. clear -Hlen Hd. revert ids Hlen. induction Hd as [|d ds Hd0 _ IH]; intros [|i ids] Hlen; try done.
    simpl in *. rewrite IH by lia. unfold place_of. simpl. by rewrite Hd0.
  - destruct ids as [|i ids]; [done|]. simpl in *. rewrite IH by lia. unfold place_of. simpl. by rewrite Hr0.
Qed.

(** New jobs, each with an id of its own. *)
Record adds (D E : list (Z * Z)) (q : QStore) (ids : list Z) (q' : QStore) : Prop := {
  ad_inv : sinv D E q';
  ad_places : E ++ places q' ≡ₚ new_places ids ++ E ++ places q;
  ad_ids : forall i, i ∈ ids -> job_id_seq q <= i < job_id_seq q';
  ad_handed : forall e, handed q e -> handed q' e;
  ad_receipts : forall x, x ∈ receipts q -> x ∈ receipts q'
}.

Lemma prepare_rows_length env idx jobs ready deferred :
  prepare_rows hash stripe_count blake3 to_vec ambient env idx jobs = Ok (ready, deferred) ->
  (length ready + length deferred)%nat = length jobs.
Proof.
  revert idx ready deferred. induction jobs as [|[[kind args] opts] jobs IH]; intros idx ready deferred; simpl; [by intros [= <- <-]|].
  intros (p & _ & (row & _ & ([rs ds] & Hrest & [= E])%rbind_Ok)%rbind_Ok)%rbind_Ok. apply IH in Hrest.
  destruct row; injection E as <- <-; simpl; lia.
Qed.

Lemma enqueue_adds D E env jobs q n q' :
  enqueue_params_batch hash stripe_count blake3 to_vec ambient env jobs q = Ok (n, q') -> sinv D E q ->
  exists ids, adds D E q ids q' /\ length ids = length jobs.
Proof.
  unfold enqueue_params_batch. destruct jobs as [|j jobs]; [intros [= _ <-] Hs; exists []; split; [split|]; try done; by intros ? ?%elem_of_nil|].
  intros ([ready deferred] & Hp & H)%rbind_Ok Hs. set (k := (length ready + length deferred)%nat) in H.
  destruct (next_job_ids k q) as [ids q1] eqn:Hn. pose proof (draw_sinv D E k q Hs) as Hs1. pose proof (next_ids_elem k q) as Hids.
  rewrite Hn in Hs1, Hids. simpl in Hs1, Hids.
  assert (length ids = k) as Hlen by (injection Hn as <- _; by rewrite length_imap, length_replicate).
  pose proof (prepare_rows_length _ _ _ _ _ Hp) as Hk. apply prepare_rows_leases in Hp as [Hr Hd]. cbv zeta in H.
  set (ready' := zip_with with_ready_id ready (take (length ready) ids)) in *.
  assert (length ready' = length ready) as Er by (unfold ready'; rewrite length_zip_with, length_take; lia).
  rewrite Er in H. set (deferred' := zip_with with_deferred_id deferred (drop (length ready) ids)) in *.
  pose proof (with_ids_places ready deferred ids Hlen Hr Hd) as Ep. fold ready' deferred' in Ep. rewrite <- Ep in Hs1.
  apply rbind_Ok in H as (q2 & H2 & H). apply rbind_Ok in H as (q3 & H3 & H). apply rbind_Ok in H as (m & Hm & [= _ <-]).
  apply sync_enqueue_view in H2. rewrite <- app_assoc in Hs1.
  assert (keeps D (map (fun r => place_of (rr_columns r)) ready' ++ map (fun r => place_of (df_columns r)) deferred' ++ E) q1
            D (map (fun r => place_of (df_columns r)) deferred' ++ E) q3) as K.
  { eapply keeps_trans; [by apply (keeps_view _ _ q1 q2)|]. eapply insert_new_keeps; [exact H3| |by eapply sinv_view].
    unfold ready'. intros r Hin. apply list_elem_of_lookup in Hin as (i & Hi). rewrite lookup_zip_with_Some in Hi. by destruct Hi as (? & ? & -> & _). }
  pose proof (put_deferred D E q3 deferred' m (kp_inv _ _ _ _ _ _ K) Hm) as K2. pose proof (keeps_trans _ _ _ _ _ _ _ _ _ K K2) as K3.
  exists ids. split; [|by rewrite Hlen]. split; [apply K3| | | |].
  - rewrite (kp_places _ _ _ _ _ _ K3). rewrite <- Ep, <- !app_assoc.
    assert (places q1 = places q) as -> by (by injection Hn as _ <-). done.
  - intros i Hi%Hids. rewrite (kp_seq _ _ _ _ _ _ K3). injection Hn as _ <-. simpl. lia.
  - intros e He. apply (kp_handed _ _ _ _ _ _ K3). by injection Hn as _ <-.
  - intros x Hx. apply (kp_receipts _ _ _ _ _ _ K3). by injection Hn as _ <-.
Qed.
End EnqueueFacts.
