(* ===== verification/ClaimFacts.v ===== *)
(** Claims and prunes of queue storage: a claim turns ready jobs into running
    ones, each with a receipt of its own; a prune drops what its gates let it
    drop, and no ready row of a running job is among it. *)

From S2P Require Import Prelude.
From S2P Require Import Error.
From S2P Require Import Json.
From S2P Require Import Job.
From S2P Require Import Ring.
From S2P Require Import Rows.
From S2P Require Import Lanes.
From S2P Require Import LanesFacts.
From S2P Require Import Enqueue.
From S2P Require Import LaneGuarantees.
From S2P Require Import AtomicLanes.
From S2P Require Import QueueStore.
From S2P Require Import Attempts.
From S2P Require Import Callbacks.
From S2P Require Import Completion.
From S2P Require Import StoreAdmin.
From S2P Require Import QueueOps.
From S2P Require Import StoreFacts.
From S2P Require Import AttemptFacts.
From S2P Require Import OperationFacts.

(** * What a claim writes *)

Definition receipts_of (batches : list ClaimBatch) : list (ClaimBatch * ClaimItem) :=
  concat (map (fun b => map (fun i => (b, i)) (cb_items b)) batches).

Lemma receipts_of_elem batches x : x ∈ receipts_of batches <-> x.1 ∈ batches /\ x.2 ∈ cb_items x.1.
Proof.
  unfold receipts_of. rewrite list_elem_of_In, in_concat. split.
  - intros (l & Hl & Hx). apply list_elem_of_In, list_elem_of_fmap in Hl as (b & -> & Hb).
    by apply list_elem_of_In, list_elem_of_fmap in Hx as (i & -> & Hi).
  - destruct x as [b i]. simpl. intros [Hb Hi]. exists (map (fun i => (b, i)) (cb_items b)). split; apply list_elem_of_In.
    + by apply (list_elem_of_fmap_2 (fun b => map (fun i => (b, i)) (cb_items b))).
    + by apply (list_elem_of_fmap_2 (fun i => (b, i))).
Qed.

(** A list taken apart by a key. *)
Lemma filter_groups {A} (f : A -> Z) (l : list A) ps :
  NoDup ps -> (forall x, x ∈ l -> f x ∈ ps) -> concat (map (fun p => List.filter (fun x => f x =? p) l) ps) ≡ₚ l.
Proof.
  intros Hn. revert l. induction Hn as [|p ps Hp Hn IH]; intros l Hl; simpl.
  { destruct l as [|x l]; [done|]. by specialize (Hl x ltac:(left)) as ?%elem_of_nil. }
  rewrite <- (filter_split (fun x => f x =? p) l) at 2. f_equiv.
  rewrite <- (IH (List.filter (fun x => negb (f x =? p)) l)).
  - apply reflexive_eq. f_equal. apply map_ext_in. intros p' Hin%list_elem_of_In. symmetry.
    rewrite <- (filter_filter_weaker (fun x => f x =? p') (fun x => negb (f x =? p)) l); [done|].
    intros x _ E%Z.eqb_eq. apply negb_true_iff, Z.eqb_neq. congruence.
  - intros x [Hx%negb_true_iff%Z.eqb_neq Hin]%elem_of_filter_b. specialize (Hl x Hin). by apply elem_of_cons in Hl as [?|?].
Qed.

Section Took.
Context (env : ClaimEnv) (s : Store) (lane : string * Z * Z) (rows : list (ReadyEntry * Z)) (c : Claimed).
Hypothesis Ht : took env s lane rows c.
Let items := with_receipts (next_receipt s) rows.

Lemma took_items : map snd (receipts_of (cl_batches c)) ≡ₚ map (fun x => fst (fst x)) items.
Proof.
  rewrite (tk_batches _ _ _ _ _ Ht). fold items. set (f := fun i p => claim_batch_of _ _ _ _ _ _).
  transitivity (map (fun x : ClaimItem * ReadyEntry * Z => fst (fst x))
                  (concat (map (fun p => List.filter (fun x => snd x =? p) items) (claim_groups items)))).
  - apply reflexive_eq. assert (forall k ps, map snd (receipts_of (imap (fun i => f (k + i)%nat) ps))
      = map (fun x : ClaimItem * ReadyEntry * Z => fst (fst x)) (concat (map (fun p => List.filter (fun x => snd x =? p) items) ps))) as H.
    { intros k ps. revert k. induction ps as [|p ps IH]; intros k; [done|]. unfold receipts_of in *. simpl. rewrite !map_app, !map_map. f_equal.
      rewrite <- (IH (S k)). do 3 f_equal. apply imap_ext. intros. unfold compose. by rewrite Nat.add_succ_r. }
    apply (H O).
  - apply fmap_Permutation, filter_groups; [apply NoDup_remove_dups|]. intros x Hx. apply elem_of_remove_dups. by apply (list_elem_of_fmap_2 snd).
Qed.

Lemma took_attempts :
  map attempt_of (receipts_of (cl_batches c)) ≡ₚ map (fun rp => (c_job_id (rt_columns rp.1), c_run_lease (rt_columns rp.1) + 1)) rows.
Proof.
  change (map attempt_of (receipts_of (cl_batches c)))
    with (map (fun x => (ci_job_id (snd x), ci_run_lease (snd x))) (receipts_of (cl_batches c))).
  rewrite <- (map_map snd (fun i => (ci_job_id i, ci_run_lease i))), took_items, map_map. apply reflexive_eq.
  unfold items, with_receipts. etransitivity; [apply (fmap_imap _ (fun x => (ci_job_id (fst (fst x)), ci_run_lease (fst (fst x)))))|].
  etransitivity; [|exact (imap_const _ rows)]. by apply imap_ext.
Qed.

Lemma took_ids : map receipt_id (receipts_of (cl_batches c)) ≡ₚ imap (fun i _ => next_receipt s + Z.of_nat i) rows.
Proof.
  change (map receipt_id (receipts_of (cl_batches c))) with (map (fun x => ci_receipt_id (snd x)) (receipts_of (cl_batches c))).
  rewrite <- (map_map snd ci_receipt_id), took_items, map_map. apply reflexive_eq.
  unfold items, with_receipts. etransitivity; [apply (fmap_imap _ (fun x => ci_receipt_id (fst (fst x))))|]. by apply imap_ext.
Qed.

Lemma took_batch b : b ∈ cl_batches c ->
  cb_ring b = ab_ring (cl_attempts c) /\ cb_queue b = fst (fst lane) /\ cb_shard b = snd lane
  /\ next_batch s <= cb_batch_id b < next_batch s + Z.of_nat (length (cl_batches c)).
Proof.
  rewrite (tk_batches _ _ _ _ _ Ht), length_imap. intros (i & p & Hi & ->)%elem_of_imap_iff. apply lookup_lt_Some in Hi. simpl. split_and!; try done; lia.
Qed.

Lemma took_batch_ids : NoDup (map cb_batch_id (cl_batches c)).
Proof.
  rewrite (tk_batches _ _ _ _ _ Ht).
  assert (forall (g : nat -> Z -> ClaimBatch) ps, (forall i p, cb_batch_id (g i p) = next_batch s + Z.of_nat i) ->
    map cb_batch_id (imap g ps) = imap (fun i _ => next_batch s + Z.of_nat i) ps) as E.
  { intros g ps Hg. etransitivity; [apply (fmap_imap _ cb_batch_id)|]. apply imap_ext. intros. apply Hg. }
  rewrite E by done. apply NoDup_numbers.
Qed.

Lemma took_backs x : x ∈ receipts_of (cl_batches c) -> exists r, r ∈ ready_entries (tables s) /\ backs r x.
Proof.
  intros Hx. pose proof Hx as [Hb _]%receipts_of_elem. destruct (took_batch _ Hb) as (Er & Eq & Es & _).
  assert (snd x ∈ map (fun x => fst (fst x)) items) as Hi.
  { rewrite <- took_items. by apply list_elem_of_fmap_2. }
  apply list_elem_of_fmap in Hi as (it & Hi & (i & rp & Hrp & ->)%elem_of_imap_iff). apply list_elem_of_lookup_2 in Hrp.
  destruct (tk_ring _ _ _ _ _ Ht rp Hrp) as (Hin & Hl & Hr & _). exists rp.1. split; [done|]. destruct x as [b it]. simpl in *.
  unfold backs. simpl. rewrite Hi, Er, Eq, Es. simpl. rewrite <- Hl, <- Hr. unfold ring_of, seq_of, lane_of. simpl.
  split; [by destruct (rt_pos rp.1)|done].
Qed.
End Took.

(** * The claim *)

Definition bump (a : Z * Z) : Z * Z := (fst a, snd a + 1).

Lemma accounting_bump D P R next : accounting D (P ++ R) next -> accounting D (map bump P ++ R) next.
Proof.
  intros [H1 H2 H3 H4]. split; [|..|done|].
  - rewrite map_app, map_map. by rewrite map_app in H1.
  - intros a [(b & -> & Hb)%list_elem_of_fmap|Ha]%elem_of_app; [apply (H2 b)|apply H2]; apply elem_of_app; auto.
  - intros j l l' Hd [(b & E & Hb)%list_elem_of_fmap|Ha]%elem_of_app; [|eapply H4; [done|apply elem_of_app; auto]].
    destruct b as [j' l'']. injection E as -> ->. assert (l <= l''); [|lia]. eapply H4; [done|apply elem_of_app; auto].
Qed.

(** After a call: the same jobs, those it returned now running. *)
Record claims_ok (D E : list (Z * Z)) (q q' : QStore) (handed_out : list ClaimedRuntimeJob) : Prop := {
  cq_inv : sinv D E q';
  cq_jobs : map fst (E ++ places q') ≡ₚ map fst (E ++ places q);
  cq_seq : job_id_seq q' = job_id_seq q;
  cq_handed : forall e, handed q e \/ e ∈ handed_out -> handed q' e;
  cq_receipts : forall x, x ∈ receipts q -> x ∈ receipts q'
}.
Lemma keeps_claims D E q q' : keeps D E q D E q' -> claims_ok D E q q' [].
Proof.
  intros [H1 H2 H3 H4 H5 H6]. split; [done|by rewrite H2|done| |done]. intros e [He| ?%elem_of_nil]; [by apply H5|done].
Qed.

Section Claim.
Context (D E : list (Z * Z)) (q : QStore) (env : ClaimEnv) (lane : string * Z * Z) (rows : list (ReadyEntry * Z)) (c : Claimed) (s : Store).
Hypothesis Hs : sinv D E q.
Hypothesis Ht : took env (lanes q) lane rows c.
Hypothesis Hcalm : calm s.
Hypothesis Hlive : live (lanes q) ≡ₚ map fst rows ++ live s.
Hypothesis Htables : tables s = tables_app (tables (lanes q)) (commit_claim c).
Hypothesis Hreceipt : next_receipt s = next_receipt (lanes q) + Z.of_nat (length rows).
Hypothesis Hbatch : next_batch s = next_batch (lanes q) + Z.of_nat (length (cl_batches c)).
Let new := receipts_of (cl_batches c).
Let taken_places := map (fun rp => place_of (rt_columns rp.1)) rows.
Let HL := si_ledger _ _ _ Hs.

Lemma claim_receipts : receipts (set_lanes s q) = receipts q ++ new.
Proof. unfold receipts, new, receipts_of. simpl. rewrite Htables. simpl. by rewrite map_app, concat_app. Qed.

Lemma claim_new_ids x : x ∈ new -> next_receipt (lanes q) <= receipt_id x < next_receipt (lanes q) + Z.of_nat (length rows).
Proof.
  intros Hx. apply (list_elem_of_fmap_2 receipt_id) in Hx. change (receipt_id <$> new) with (map receipt_id new) in Hx.
  unfold new in Hx. rewrite (took_ids _ _ _ _ _ Ht), elem_of_imap_iff in Hx. destruct Hx as (i & rp & Hi & ->). apply lookup_lt_Some in Hi. lia.
Qed.

Lemma claim_running : running (set_lanes s q) = running q ++ new.
Proof.
  unfold running. rewrite claim_receipts, List.filter_app. f_equal. apply filter_all. intros x Hx%claim_new_ids.
  apply unclosed_spec. intros (k & E' & Hk)%list_elem_of_fmap. destruct (lg_closed _ _ HL k Hk) as (y & Hy & Ek).
  apply (lg_receipt_ids _ _ HL) in Hy. rewrite Ek in E'. injection E' as _ E'. unfold receipt_id in *. lia.
Qed.

Lemma claim_attempts : map attempt_of new ≡ₚ map bump taken_places.
Proof. unfold new, taken_places. rewrite (took_attempts _ _ _ _ _ Ht), map_map. done. Qed.

Lemma claim_ready : ready_places q ≡ₚ taken_places ++ ready_places (set_lanes s q).
Proof. unfold ready_places, taken_places. simpl. rewrite Hlive, map_app, map_map. done. Qed.

(** What the claim leaves where it was. *)
Let others := E ++ ready_places (set_lanes s q) ++ running_places q ++ deferred_places q ++ done_places q ++ completed_places q ++ dlq_places q.
Lemma claim_before : E ++ places q ≡ₚ taken_places ++ others.
Proof. unfold places, others. rewrite claim_ready. solve_Permutation. Qed.
Lemma claim_after : E ++ places (set_lanes s q) ≡ₚ map bump taken_places ++ others.
Proof.
  unfold places, others. unfold running_places at 1. rewrite claim_running, map_app, claim_attempts.
  change (map attempt_of (running q)) with (running_places q).
  change (deferred_places (set_lanes s q)) with (deferred_places q). change (done_places (set_lanes s q)) with (done_places q).
  change (completed_places (set_lanes s q)) with (completed_places q). change (dlq_places (set_lanes s q)) with (dlq_places q). solve_Permutation.
Qed.

(** A taken job has no receipt yet for the attempt it starts, and the attempt
    has not ended. *)
Lemma claim_fresh a : a ∈ taken_places -> (bump a ∉ D) /\ forall x, x ∈ receipts q -> attempt_of x <> bump a.
Proof.
  intros Ha. destruct a as [j l]. pose proof (si_places _ _ _ Hs) as [A1 _ _ A4]. rewrite claim_before in A1.
  assert ((j, l) ∈ E ++ places q) as Hin by (rewrite claim_before; apply elem_of_app; by left).
  assert (bump (j, l) ∉ D) as HD by (intros Hd; specialize (A4 _ _ _ Hd Hin); simpl in A4; lia).
  split; [done|]. intros x Hx E'. destruct (unclosed q x) eqn:Hu.
  - apply (NoDup_fst_app taken_places others j l (l + 1) A1 Ha). unfold others. rewrite !elem_of_app. right. right. left.
    change (bump (j, l)) with ((j, l + 1)) in E'. rewrite <- E'. apply list_elem_of_fmap_2. by apply elem_of_filter_b.
  - apply HD. rewrite <- E'. by apply (lg_ended _ _ HL).
Qed.

Lemma claim_ledger : ledger D (set_lanes s q).
Proof.
  pose proof (took_batch _ _ _ _ _ Ht) as Hb. pose proof (took_batch_ids _ _ _ _ _ Ht) as Hbn.
  assert (forall x, x ∈ new -> exists a, a ∈ taken_places /\ attempt_of x = bump a) as Hnew.
  { intros x Hx. apply (list_elem_of_fmap_2 attempt_of) in Hx. change (attempt_of <$> new) with (map attempt_of new) in Hx.
    rewrite claim_attempts in Hx. apply list_elem_of_fmap in Hx as (a & ? & ?). eauto. }
  assert (claim_batches (tables s) = claim_batches (tables (lanes q)) ++ cl_batches c) as Ecb by (rewrite Htables; done).
  pose proof HL as []. split; rewrite ?claim_receipts, ?claim_running; try done.
  - rewrite map_app. apply NoDup_app. split; [done|]. split.
    + intros i (x & -> & Hx%lg_receipt_ids)%list_elem_of_fmap (y & E' & Hy%claim_new_ids)%list_elem_of_fmap. lia.
    + unfold new. rewrite (took_ids _ _ _ _ _ Ht). apply NoDup_numbers.
  - simpl. rewrite Hreceipt. intros x [Hx%lg_receipt_ids|Hx%claim_new_ids]%elem_of_app; lia.
  - simpl. rewrite Ecb, map_app. apply NoDup_app. split; [done|]. split; [|done].
    intros i (x & -> & Hx%lg_batch_ids)%list_elem_of_fmap (y & E' & Hy%Hb)%list_elem_of_fmap. lia.
  - simpl. rewrite Ecb, Hbatch. intros b [Hx%lg_batch_ids|Hx%Hb]%elem_of_app; lia.
  - rewrite map_app. apply NoDup_app. split; [done|]. split.
    + intros a (x & -> & Hx)%list_elem_of_fmap (y & E' & Hy)%list_elem_of_fmap. destruct (Hnew y Hy) as (b & Hb' & Eb).
      apply (proj2 (claim_fresh b Hb') x Hx). congruence.
    + rewrite claim_attempts. apply (NoDup_fmap_1 fst). change (fst <$> ?l) with (map fst l). rewrite map_map. simpl.
      pose proof (ac_one _ _ _ (si_places _ _ _ Hs)) as A1. rewrite claim_before, map_app in A1. by apply NoDup_app in A1 as [? _].
  - intros k Hk. destruct (lg_closed k Hk) as (x & Hx & E'). exists x. split; [|done]. apply elem_of_app. by left.
  - intros l Hl. destruct (lg_leased l Hl) as (x & Hx & E'). exists x. split; [|done]. apply elem_of_app. by left.
  - unfold ready_rows. simpl. rewrite Htables. simpl. rewrite app_nil_r.
    intros x [Hx|Hx]%elem_of_app; [by apply lg_backed|]. by apply (took_backs _ _ _ _ _ Ht).
  - intros x [Hx|Hx]%elem_of_app; [by apply lg_open|]. destruct (Hnew x Hx) as (a & Ha & ->). by apply claim_fresh.
  - intros x [Hx|Hx]%elem_of_app Hu; [by apply lg_ended|].
    assert (x ∈ running (set_lanes s q)) as Hr by (rewrite claim_running; apply elem_of_app; by right).
    apply elem_of_filter_b in Hr as [Hr _]. congruence.
Qed.

Lemma claim_sinv : sinv D E (set_lanes s q).
Proof.
  split; [apply claim_ledger| |apply (si_deferred _ _ _ Hs)|apply (si_dlq _ _ _ Hs)].
  rewrite claim_after. apply accounting_bump. rewrite <- claim_before. apply Hs.
Qed.

Lemma claim_handed e : handed q e -> handed (set_lanes s q) e.
Proof.
  intros [He Hid]. split; [|intros id Hi%Hid; simpl; rewrite Hbatch; lia]. intros b Hb Hi. simpl in Hb. rewrite Htables in Hb. simpl in Hb.
  apply elem_of_app in Hb as [Hb|Hb%(took_batch _ _ _ _ _ Ht)]; [by apply He|]. apply Hid in Hi. lia.
Qed.

Lemma claim_handed_new x e : x ∈ cl_rows c -> into_claimed_runtime_job true x = Ok e -> handed (set_lanes s q) e.
Proof.
  intros Hx (j & _ & [= <-])%rbind_Ok. rewrite (tk_rows _ _ _ _ _ Ht) in Hx. apply list_elem_of_fmap in Hx as ([[item r] p] & -> & Hx).
  apply elem_of_imap_iff in Hx as (i & rp & Hrp & [= -> -> ->]). apply list_elem_of_lookup_2 in Hrp.
  destruct (tk_ring _ _ _ _ _ Ht rp Hrp) as (_ & _ & Hr & _). unfold handed, claim_faithful. cbn.
  destruct (List.find _ (cl_batches c)) as [b0|] eqn:Hf; [|done]. apply find_elem in Hf as [Hb0 _].
  pose proof (took_batch _ _ _ _ _ Ht b0 Hb0) as (Er & _ & _ & Hlt). split.
  - intros b Hb [= Eid]. assert (b0 = b) as <-; [|by rewrite Er, <- Hr].
    apply (NoDup_map_inj cb_batch_id (claim_batches (tables s))); [apply claim_ledger| |done|done].
    rewrite Htables. apply elem_of_app. by right.
  - intros id [= <-]. rewrite Hbatch. lia.
Qed.
End Claim.

Lemma claim_runtime_ok D E env locked queue q r q' :
  claim_runtime_batch env locked queue q = (r, q') -> sinv D E q ->
  claims_ok D E q q' (match r with Ok l => l | Err _ => [] end).
Proof.
  unfold claim_runtime_batch. destruct (p_max_batch env <=? 0); [intros [= <- <-] Hs; by apply keeps_claims, keeps_refl|].
  destruct (claim_ready_runtime env locked queue (lanes q)) as [res s] eqn:Hc. intros H Hs.
  pose proof (lg_calm _ _ (si_ledger _ _ _ Hs)) as Hcalm.
  assert (forall s, calm s -> tables s = tables (lanes q) -> live s = live (lanes q) ->
            next_receipt (lanes q) <= next_receipt s -> next_batch (lanes q) <= next_batch s -> claims_ok D E q (set_lanes s q) []) as Hsame.
  { intros s' Hc' Et El Hn Hnb. apply keeps_claims, lanes_keeps; try done; rewrite ?Et; try done. by rewrite El. }
  assert ((forall c, res <> Ok (Some c)) -> claims_ok D E q (set_lanes s q) []) as Hnone.
  { intros Hno. destruct (calm_claim_none _ _ _ _ _ _ Hcalm Hc Hno) as (H1 & H2 & H3 & H4 & H5). apply Hsame; try done; lia. }
  destruct res as [[c|]|e]; [|injection H as <- <-; by apply Hnone..].
  destruct (sync_each _ _ _) as [m|e].
  - change (advance_claim_cursors_strict _ _) with (after_claim c s) in H.
    destruct (calm_claim _ _ _ _ _ _ Hcalm Hc) as (lane & rows & Ht & Hne & Hl & Hc' & Hlive & Et & En & Enb).
    set (s3 := after_claim c s) in *. clearbody s3. injection H as Er Eq. subst q'.
    assert (view (set_unique m (set_lanes s3 q)) = view (set_lanes s3 q)) as Hv by done. split.
    + apply (sinv_view _ _ (set_lanes s3 q)); [done|]. by eapply claim_sinv.
    + change (places (set_unique m (set_lanes s3 q))) with (places (set_lanes s3 q)).
      rewrite (claim_after D E q env lane rows c s3 Hs Ht Et), (claim_before E q rows s3 Hlive), !map_app, map_map. done.
    + done.
    + change (handed (set_unique m (set_lanes s3 q))) with (handed (set_lanes s3 q)). intros e [He|He].
      * by eapply claim_handed.
      * destruct r as [l|]; [|by apply elem_of_nil in He]. destruct (all_ok_elem _ _ _ _ Er He) as (x & Hx & Ee). by eapply claim_handed_new.
    + intros x. unfold receipts. cbn [lanes set_unique set_lanes]. rewrite Et. cbn [claim_batches tables_app].
      rewrite map_app, concat_app. intros Hx. apply elem_of_app. by left.
  - injection H as <- <-. destruct (claim_calls _ _ _ _ _ _ Hcalm Hc) as [[Hn _]|(lane & sq & Hle & Hcov & -> & _)]; [by destruct (Hn c)|].
    destruct (calm_cursor (lanes q) lane sq Hcalm Hle Hcov) as [H1 H2]. apply Hsame; simpl; try lia; [|done|].
    + by apply (calm_frame (set_claim_seq lane sq (lanes q))).
    + by rewrite <- H2.
Qed.

(** A claim of one queue leaves the ready rows of the others ready. *)
Lemma claim_other_queue D E env locked queue q res q' r :
  claim_runtime_batch env locked queue q = (res, q') -> sinv D E q ->
  r ∈ live (lanes q) -> c_queue (rt_columns r) <> queue -> r ∈ live (lanes q').
Proof.
  unfold claim_runtime_batch. destruct (p_max_batch env <=? 0); [by intros [= <- <-]|].
  destruct (claim_ready_runtime env locked queue (lanes q)) as [res' s] eqn:Hc. intros H Hs Hr Hq.
  pose proof (lg_calm _ _ (si_ledger _ _ _ Hs)) as Hcalm.
  assert ((forall c, res' <> Ok (Some c)) -> r ∈ live s) as Hnone.
  { intros Hno. by destruct (calm_claim_none _ _ _ _ _ _ Hcalm Hc Hno) as (_ & -> & _). }
  destruct res' as [[c|]|e]; [|injection H as <- <-; by apply Hnone..].
  destruct (sync_each _ _ _) as [m|e].
  - change (advance_claim_cursors_strict _ _) with (after_claim c s) in H.
    destruct (calm_claim _ _ _ _ _ _ Hcalm Hc) as (lane & rows & Ht & _ & Hl & _ & Hlive & _).
    injection H as _ <-. cbn [lanes set_unique set_lanes]. rewrite Hlive in Hr. apply elem_of_app in Hr as [Hr|?]; [|done].
    apply list_elem_of_fmap in Hr as (rp & -> & Hin). destruct (tk_ring _ _ _ _ _ Ht rp Hin) as (_ & Hrl & _).
    exfalso. apply Hq. rewrite <- (claim_lane_queue _ _ _ _ _ _ Hc), Hl, <- Hrl. done.
  - injection H as <- <-. destruct (claim_calls _ _ _ _ _ _ Hcalm Hc) as [[Hn _]|(lane & sq & Hle & Hcov & -> & _)]; [by destruct (Hn c)|].
    destruct (calm_cursor (lanes q) lane sq Hcalm Hle Hcov) as [_ H2]. cbn [lanes set_lanes]. by rewrite <- H2 in Hr.
Qed.

(** * What drops jobs *)

(** The jobs that leave are terminal ones; nothing else moves. *)
Record drops (D E : list (Z * Z)) (q q' : QStore) : Prop := {
  dr_inv : sinv D E q';
  dr_places : places q' ⊆+ places q;
  dr_ready : ready_places q' = ready_places q;
  dr_running : running q' = running q;
  dr_deferred : deferred_jobs q' = deferred_jobs q;
  dr_seq : job_id_seq q' = job_id_seq q;
  dr_handed : forall e, handed q e -> handed q' e
}.

Lemma drops_refl D E q : sinv D E q -> drops D E q q.
Proof. by split. Qed.

Lemma drops_intro D E q q' :
  sinv D E q -> ledger D q' -> places q' ⊆+ places q -> ready_places q' = ready_places q -> running q' = running q -> deferred_jobs q' = deferred_jobs q ->
  (forall j r, dlq_entries q' !! j = Some r -> dlq_entries q !! j = Some r) -> job_id_seq q' = job_id_seq q ->
  (forall e, handed q e -> handed q' e) -> drops D E q q'.
Proof.
  intros [Hl Ha H1 H2] Hl' Hp Hy Hr Hd Hq Hs Hh. split; try done. split; [done| |by rewrite Hd|by intros j r ?%Hq%H2].
  rewrite Hs. eapply accounting_sub; [|exact Ha]. by apply submseteq_skips_l.
Qed.

Lemma discard_drops D E env kind q n q' :
  discard_failed_by_kind env kind q = Ok (n, q') -> sinv D E q -> drops D E q q'.
Proof.
  unfold discard_failed_by_kind. destruct (delete_done _ q) as [rows q1] eqn:Hd. cbv zeta. set (dlq := List.filter _ _).
  intros (m & _ & [= _ <-])%rbind_Ok Hs. pose proof (take_done _ _ _ _ _ _ Hd Hs) as K. pose proof (kp_inv _ _ _ _ _ _ K) as Hs1.
  destruct (table_rows (fun r => c_job_id (dq_columns r)) (dlq_entries q1) (si_dlq _ _ _ Hs1) dlq (filter_take_sub _ _)) as [Hn Hr].
  pose proof (take_dlq _ _ q1 dlq Hs1 Hn Hr) as K2. set (q2 := delete_dlq _ q1) in *.
  pose proof (keeps_trans _ _ _ _ _ _ _ _ _ K K2) as [I P _ S Hh].
  assert (running q1 = running q) as Hr1 by (unfold delete_done in Hd; by injection Hd as _ <-).
  assert (places q2 ⊆+ places q) as Hp.
  { assert (E ++ places q2 ⊆+ E ++ places q) as Hp; [|by apply submseteq_app_inv_l in Hp]. rewrite <- P.
    by apply submseteq_skips_r, submseteq_inserts_l, submseteq_inserts_l. }
  apply (drops_intro D E q); try done.
  - by apply (ledger_view D q2), I.
  - unfold delete_done in Hd. by injection Hd as _ <-.
  - unfold delete_done in Hd. by injection Hd as _ <-.
  - unfold delete_done in Hd. injection Hd as _ <-. intros j r Hj. by apply lookup_delete_all in Hj.
Qed.

(** As many closures as claims: every claim is closed. *)
Lemma counted_closed D q (f : ClaimBatch * ClaimItem -> bool) (g : Closure -> bool) :
  ledger D q -> (forall o x, g (closure_of o x) = f x) ->
  length (List.filter f (receipts q)) = length (List.filter g (closures q)) ->
  forall x, x ∈ receipts q -> f x = true -> unclosed q x = false.
Proof.
  intros Hl Hg Hlen x Hx Hf.
  assert (map closure_key (List.filter g (closures q)) ⊆+ map receipt_key (List.filter f (receipts q))) as Hsub.
  { apply NoDup_submseteq; [apply NoDup_map_filter, Hl|]. intros k (c & -> & [Hc Hin]%elem_of_filter_b)%list_elem_of_fmap.
    destruct (lg_closed _ _ Hl c Hin) as (y & Hy & E). rewrite E, Hg in Hc. rewrite E. apply (list_elem_of_fmap_2 receipt_key _ y).
    by apply elem_of_filter_b. }
  apply submseteq_length_Permutation in Hsub; [|rewrite !length_map; lia].
  apply not_true_iff_false. rewrite unclosed_spec. intros Hn. apply Hn.
  assert (receipt_key x ∈ map closure_key (List.filter g (closures q))) as (c & -> & [_ Hc]%elem_of_filter_b)%list_elem_of_fmap.
  { rewrite Hsub. apply list_elem_of_fmap_2. by apply elem_of_filter_b. }
  by apply list_elem_of_fmap_2.
Qed.

Section QueuePrune.
Context (D E : list (Z * Z)) (q : QStore) (ring : RingCursor).
Hypothesis Hs : sinv D E q.
Hypothesis Hready : queue_prune_has_pending_ready (lanes q) ring = false.
Hypothesis Hclaims : queue_prune_has_unclosed_claim_refs q ring = false.

(** The ready rows of running attempts lie elsewhere. *)
Lemma prune_spares x : x ∈ running q -> cb_ring (fst x) <> ring.
Proof.
  intros [Hu Hx]%elem_of_filter_b Hr. apply negb_false_iff, Nat.eqb_eq in Hclaims.
  rewrite (counted_closed D q _ _ (si_ledger _ _ _ Hs)
             (fun _ _ => eq_refl : (fun c => bool_decide (co_ring c = ring)) (closure_of _ _) = (fun x => bool_decide (cb_ring (fst x) = ring)) _)
             Hclaims x Hx) in Hu; [done|]. by apply bool_decide_eq_true.
Qed.

Let pruned := set_lanes (set_tables (truncate_slot ring (tables (lanes q))) (lanes q)) q.

Lemma prune_ledger : ledger D pruned.
Proof.
  destruct (calm_prune (lanes q) ring (lg_calm _ _ (si_ledger _ _ _ Hs)) Hready) as [Hc _].
  pose proof (si_ledger _ _ _ Hs) as []. split; try done. intros x Hx. destruct (lg_backed x Hx) as (r & Hr & Hb).
  exists r. split; [|done]. unfold ready_rows. apply elem_of_filter_b. split; [|done]. apply negb_true_iff, bool_decide_eq_false.
  apply prune_spares in Hx. intros <-. apply Hx. destruct Hb as [Hp _]. unfold ring_of. rewrite Hp. destruct x as [b i]. simpl. apply surjective_pairing.
Qed.

Lemma prune_ready : ready_places pruned = ready_places q.
Proof.
  unfold ready_places. destruct (calm_prune (lanes q) ring (lg_calm _ _ (si_ledger _ _ _ Hs)) Hready) as [_ Hl]. simpl. by rewrite Hl.
Qed.
End QueuePrune.

Lemma map_filter_perm `{Countable K} {V} (P : K * V -> Prop) `{!forall x, Decision (P x)} (m : gmap K V) :
  map_to_list (filter P m) ≡ₚ filter P (map_to_list m).
Proof.
  apply NoDup_Permutation; [apply NoDup_map_to_list|apply NoDup_filter, NoDup_map_to_list|].
  intros [k v]. rewrite list_elem_of_filter, !elem_of_map_to_list, map_lookup_filter_Some. tauto.
Qed.

Lemma filter_apart {A} (P : A -> Prop) `{!forall x, Decision (P x)} (f : A -> bool) l :
  (forall x, P x -> f x = false) -> filter P l ++ List.filter f l ⊆+ l.
Proof.
  intros Hf. induction l as [|x l IH]; [done|]. rewrite filter_cons. simpl. destruct (decide (P x)) as [Hp|_].
  - rewrite (Hf x Hp). by apply submseteq_skip.
  - destruct (f x); [|by apply submseteq_cons]. rewrite <- Permutation_middle. by apply submseteq_skip.
Qed.

Lemma carry_rows_spec q ring rows m m' :
  carry_rows q ring rows m = Ok m' ->
  map_to_list m' ≡ₚ map (fun kd => (carry_key (fst ring) (fst kd), carried (snd ring) (done_row q (fst kd) (snd kd)))) rows ++ map_to_list m.
Proof.
  revert m. induction rows as [|[k d] rows IH]; intros m; [intros [= ->]; done|]. simpl.
  destruct (m !! _) eqn:Hk; [done|]. intros H%IH. rewrite H, map_to_list_insert by done. by rewrite Permutation_middle.
Qed.

(** A carried row leaves its slot and stays the row of its job. *)
Lemma prune_done q ring slot kept m :
  carry_rows q ring kept (done_entries q) = Ok m -> (exists f, kept = List.filter f (slot_done slot q)) ->
  map (fun kv => done_place (snd kv)) (map_to_list (filter (fun kd => key_slot (fst kd) <> slot) m)) ⊆+ done_places q.
Proof.
  intros Hm%carry_rows_spec [f ->]. rewrite map_filter_perm, Hm, filter_app, map_app.
  change (done_places q) with (map (fun kv => done_place (snd kv)) (map_to_list (done_entries q))).
  set (place := fun kv : DoneKey * DoneEntry => done_place (snd kv)). set (kept := List.filter f _).
  transitivity (map place kept ++ map place (filter (fun kd => key_slot kd.1 <> slot) (map_to_list (done_entries q)))).
  - apply submseteq_skips_r. etrans; [apply (fmap_submseteq place), sublist_submseteq, sublist_filter|].
    change (place <$> ?l) with (map place l). rewrite map_map. rewrite (map_ext _ place); [done|]. intros [k d].
    exact (done_row_place q k d).
  - rewrite Permutation_app_comm, <- map_app. apply (fmap_submseteq place). unfold kept. etrans; [apply submseteq_skips_l, filter_take_sub|].
    apply filter_apart. intros [k d] H. by apply Z.eqb_neq.
Qed.

Lemma prune_oldest_drops D E env slot_count retention_secs q out q' :
  prune_oldest env slot_count retention_secs q = Ok (out, q') -> sinv D E q -> drops D E q q'.
Proof.
  unfold prune_oldest. destruct (oldest_initialized_ring_slot _ _ _) as [[slot generation]|]; [|intros [= _ <-]; apply drops_refl].
  destruct (queue_prune_has_active_leases _ _); [intros [= _ <-]; apply drops_refl|].
  destruct (queue_prune_has_pending_ready _ _) eqn:Hready; [intros [= _ <-]; apply drops_refl|].
  destruct (queue_prune_has_unclosed_claim_refs _ _) eqn:Hclaims; [intros [= _ <-]; apply drops_refl|]. cbv zeta.
  intros (m & Hm & [= _ <-])%rbind_Ok Hs. pose proof (prune_ledger D E q _ Hs Hready Hclaims) as Hl.
  pose proof (prune_ready D E q _ Hs Hready) as Hp. apply (drops_intro D E q); try done.
  - by eapply ledger_view; [..|exact Hl].
  - unfold places. apply submseteq_app; [by rewrite <- Hp|]. apply submseteq_skips_l, submseteq_skips_l, submseteq_app.
    + eapply prune_done; [exact Hm|]. destruct (0 <? retention_secs); [by eexists|]. exists (fun _ => false). by rewrite filter_none.
    + apply submseteq_skips_r. apply (fmap_submseteq (fun c => (cp_job_id c, cp_run_lease c))), filter_take_sub.
Qed.

Section ClaimPrune.
Context (D E : list (Z * Z)) (q : QStore) (slot : Z).
Hypothesis Hs : sinv D E q.
Hypothesis Hclaims : claim_prune_has_open_claims q slot = false.
Let pruned := truncate_claim_slot slot q.

Lemma claim_prune_receipts : receipts pruned = List.filter (fun x => negb (cb_claim_slot (fst x) =? slot)) (receipts q).
Proof.
  unfold receipts. simpl. induction (claim_batches _) as [|b bs IH]; [done|]. simpl. rewrite List.filter_app, <- IH.
  destruct (cb_claim_slot b =? slot) eqn:Hb; simpl.
  - rewrite (filter_none _ (map _ _)); [done|]. intros x (i & -> & _)%list_elem_of_fmap. simpl. by rewrite Hb.
  - f_equal. symmetry. apply filter_all. intros x (i & -> & _)%list_elem_of_fmap. simpl. by rewrite Hb.
Qed.

Lemma claim_prune_unclosed x : cb_claim_slot (fst x) <> slot -> unclosed pruned x = unclosed q x.
Proof.
  intros Hx. apply eq_true_iff_eq. rewrite !unclosed_spec. apply not_iff_compat. rewrite !list_elem_of_fmap. simpl.
  split; intros (c & Hk & Hc); exists c; (split; [done|]); [by apply elem_of_filter_b in Hc as [_ ?]|].
  apply elem_of_filter_b. split; [|done]. apply negb_true_iff, Z.eqb_neq. injection Hk as <- _. done.
Qed.

Lemma claim_prune_running : running pruned = running q.
Proof.
  unfold running. rewrite claim_prune_receipts, (filter_filter_weaker (unclosed q) (fun x => negb (cb_claim_slot (fst x) =? slot)) (receipts q)).
  - apply List.filter_ext_in. intros x [_ Hx]%filter_In. apply claim_prune_unclosed. by apply Z.eqb_neq, negb_true_iff.
  - intros x Hx Hu. destruct (cb_claim_slot x.1 =? slot) eqn:Hc; [|done].
    apply negb_false_iff, Nat.eqb_eq in Hclaims.
    rewrite (counted_closed D q _ _ (si_ledger _ _ _ Hs)
               (fun _ _ => eq_refl : (fun c => co_claim_slot c =? slot) (closure_of _ _) = (fun x => cb_claim_slot (fst x) =? slot) _)
               Hclaims x Hx Hc) in Hu. done.
Qed.

Lemma claim_prune_batches b : b ∈ claim_batches (tables (lanes pruned)) -> b ∈ claim_batches (tables (lanes q)).
Proof. simpl. by intros [_ ?]%elem_of_filter_b. Qed.

Lemma claim_prune_ledger : ledger D pruned.
Proof.
  pose proof (si_ledger _ _ _ Hs) as [].
  assert (forall x, x ∈ receipts pruned -> x ∈ receipts q /\ cb_claim_slot (fst x) <> slot) as Hrec.
  { intros x. rewrite claim_prune_receipts, elem_of_filter_b, negb_true_iff, Z.eqb_neq. tauto. }
  split; rewrite ?claim_prune_running; try done.
  - by apply (calm_frame (lanes q)).
  - rewrite claim_prune_receipts. by apply NoDup_map_filter.
  - intros x [? _]%Hrec. by apply lg_receipt_ids.
  - simpl. by apply NoDup_map_filter.
  - intros b ?%claim_prune_batches. by apply lg_batch_ids.
  - rewrite claim_prune_receipts. by apply NoDup_map_filter.
  - simpl. by apply NoDup_map_filter.
  - intros c [Hn Hc]%elem_of_filter_b. destruct (lg_closed c Hc) as (x & Hx & Ec). exists x. split; [|done].
    rewrite claim_prune_receipts. apply elem_of_filter_b. split; [|done]. by rewrite Ec in Hn.
  - intros x [Hx Hn]%Hrec. rewrite claim_prune_unclosed by done. by apply lg_ended.
Qed.

Lemma claim_prune_drops : drops D E q pruned.
Proof.
  assert (ready_places pruned = ready_places q) as Hp by (unfold ready_places; by rewrite (live_frame (lanes q))).
  apply (drops_intro D E q); try done; [apply claim_prune_ledger| |apply claim_prune_running|].
  - unfold places, running_places. by rewrite claim_prune_running, Hp.
  - intros e [He Hid]. split; [|done]. intros b Hb%claim_prune_batches. by apply He.
Qed.
End ClaimPrune.

Lemma prune_oldest_claims_drops D E env q b q' :
  prune_oldest_claims env q = (b, q') -> sinv D E q -> drops D E q q'.
Proof.
  unfold prune_oldest_claims. destruct (sv_claim_ring env) as [[current generation] slot_count].
  destruct (oldest_initialized_ring_slot _ _ _) as [[slot g]|]; [|intros [= _ <-]; apply drops_refl].
  destruct (claim_prune_has_open_claims q slot) eqn:Hc; [intros [= _ <-]; apply drops_refl|].
  destruct (current =? slot); intros [= _ <-] Hs; [by apply drops_refl|by apply claim_prune_drops].
Qed.

(** * Rotation and pause *)

Definition rotate_queue (slot : Z) (q : QStore) : QStore := set_lanes (set_queue_ring (slot, snd (queue_ring (lanes q)) + 1) (lanes q)) q.
Lemma rotate_queue_keeps D E slot q : sinv D E q -> keeps D E q D E (rotate_queue slot q).
Proof. intros Hs. apply lanes_keeps; try done. apply calm_rotate, Hs. Qed.

Definition pause_queues (p : string -> bool) (q : QStore) : QStore :=
  let s := lanes q in
  set_lanes (mkStore (tables s) (enqueue_seqs s) (claim_seqs s) (claim_heads s) (queue_ring s) p (next_receipt s) (next_batch s)) q.
Lemma pause_queues_keeps D E p q : sinv D E q -> keeps D E q D E (pause_queues p q).
Proof. intros Hs. apply lanes_keeps; try done. by eapply calm_frame; [apply Hs|..]. Qed.
