(* ===== verification/Canonical.v ===== *)
(** The canonical storage plane.

    State: [awa.jobs_hot], [awa.scheduled_jobs] and [awa.job_unique_claims]
    (awa-model/migrations/v001_canonical_schema.sql), with the
    unique-claim trigger.  Operations: every statement the worker and the
    admin API run against those tables, one definition per statement or
    handler, in explicit state passing.  A statement that raises leaves the
    database unchanged (its transaction rolls back), so operations return
    [result AwaError (_ * Db)].

    [Env] carries what a statement reads from outside the tables: the
    transaction's [now()], its renderings as text, and the value drawn by
    [awa.backoff_duration]. *)

From S2P Require Import Prelude.
From S2P Require Import Error.
From S2P Require Import Json.
From S2P Require Import Job.

Record Db : Type := mkDb {
  hot : gmap Z JobRow;
  scheduled : gmap Z JobRow;
  unique_claims : gmap (list Z) Z;
  paused_queues : gset string;
  jobs_id_seq : Z
}.

Record Env : Type := mkEnv {
  now : time;
  clock : time;        (** [clock_timestamp()] *)
  at_sql : json;       (** [now()] inside [jsonb_build_object] *)
  at_rust : string;    (** [chrono::Utc::now().to_rfc3339()] of the caller *)
  backoff : Z -> Z -> Z (** [awa.backoff_duration(attempt, max_attempts)], microseconds *)
}.

Definition set_hot (h : gmap Z JobRow) (db : Db) : Db :=
  mkDb h (scheduled db) (unique_claims db) (paused_queues db) (jobs_id_seq db).
Definition set_scheduled (s : gmap Z JobRow) (db : Db) : Db :=
  mkDb (hot db) s (unique_claims db) (paused_queues db) (jobs_id_seq db).
Definition set_claims (c : gmap (list Z) Z) (db : Db) : Db :=
  mkDb (hot db) (scheduled db) c (paused_queues db) (jobs_id_seq db).
Definition set_paused (p : gset string) (db : Db) : Db :=
  mkDb (hot db) (scheduled db) (unique_claims db) p (jobs_id_seq db).
Definition set_seq (n : Z) (db : Db) : Db :=
  mkDb (hot db) (scheduled db) (unique_claims db) (paused_queues db) n.

(** The [awa.jobs] view: both tables. *)
Definition lookup_job (id : Z) (db : Db) : option JobRow :=
  match hot db !! id with
  | Some r => Some r
  | None => scheduled db !! id
  end.

(** * The unique-claim trigger *)

Definition unique_violation : AwaError :=
  Database (SqlxDatabase (Some "23505") (Some "idx_awa_jobs_unique")).
Definition pkey_violation (table_pkey : string) : AwaError :=
  Database (SqlxDatabase (Some "23505") (Some table_pkey)).

(** [unique_key IS NOT NULL AND unique_states IS NOT NULL AND
    job_state_in_bitmask(unique_states, state)]: the key the row claims. *)
Definition claimed_key (r : JobRow) : option (list Z) :=
  match j_unique_key r, j_unique_states r with
  | Some key, Some mask => if job_state_in_bitmask mask (j_state r) then Some key else None
  | _, _ => None
  end.

(** [DELETE FROM job_unique_claims WHERE unique_key = key AND job_id = id]. *)
Definition release_claim (key : list Z) (id : Z) (claims : gmap (list Z) Z) : gmap (list Z) Z :=
  match claims !! key with
  | Some holder => if holder =? id then delete key claims else claims
  | None => claims
  end.

(** [INSERT INTO job_unique_claims], tolerating a claim of the same job. *)
Definition acquire_claim (key : list Z) (id : Z) (claims : gmap (list Z) Z)
    : result AwaError (gmap (list Z) Z) :=
  match claims !! key with
  | None => Ok (<[key := id]> claims)
  | Some holder => if holder =? id then Ok claims else Err unique_violation
  end.

(** [awa.sync_job_unique_claims()]; [old]/[new] are absent on INSERT/DELETE. *)
Definition sync_job_unique_claims (old new : option JobRow) (claims : gmap (list Z) Z)
    : result AwaError (gmap (list Z) Z) :=
  let old_claim := old ≫= claimed_key in
  let new_claim := new ≫= claimed_key in
  let changed :=
    match old, new with
    | Some o, Some n =>
        negb (bool_decide (j_unique_key o = j_unique_key n)) || negb (j_id o =? j_id n)
    | _, _ => true
    end in
  let claims :=
    match old_claim, old with
    | Some key, Some o =>
        if (match new_claim with Some _ => false | None => true end) || changed
        then release_claim key (j_id o) claims else claims
    | _, _ => claims
    end in
  match new_claim, new with
  | Some key, Some n =>
      if (match old_claim with Some _ => false | None => true end) || changed
      then acquire_claim key (j_id n) claims else Ok claims
  | _, _ => Ok claims
  end.

(** * Row writes, each firing the trigger *)

(** [UPDATE awa.jobs_hot SET f ... RETURNING *] of one row. *)
Definition update_hot (f : JobRow -> JobRow) (r : JobRow) (db : Db) : result AwaError (JobRow * Db) :=
  let r' := f r in
  let? claims := sync_job_unique_claims (Some r) (Some r') (unique_claims db) in
  Ok (r', db |> set_hot (<[j_id r := r']> (hot db)) |> set_claims claims).

Definition delete_hot (r : JobRow) (db : Db) : result AwaError Db :=
  let? claims := sync_job_unique_claims (Some r) None (unique_claims db) in
  Ok (db |> set_hot (delete (j_id r) (hot db)) |> set_claims claims).

Definition delete_scheduled (r : JobRow) (db : Db) : result AwaError Db :=
  let? claims := sync_job_unique_claims (Some r) None (unique_claims db) in
  Ok (db |> set_scheduled (delete (j_id r) (scheduled db)) |> set_claims claims).

Definition insert_hot (r : JobRow) (db : Db) : result AwaError Db :=
  match hot db !! j_id r with
  | Some _ => Err (pkey_violation "jobs_hot_pkey")
  | None =>
      let? claims := sync_job_unique_claims None (Some r) (unique_claims db) in
      Ok (db |> set_hot (<[j_id r := r]> (hot db)) |> set_claims claims)
  end.

Definition insert_scheduled (r : JobRow) (db : Db) : result AwaError Db :=
  match scheduled db !! j_id r with
  | Some _ => Err (pkey_violation "scheduled_jobs_pkey")
  | None =>
      let? claims := sync_job_unique_claims None (Some r) (unique_claims db) in
      Ok (db |> set_scheduled (<[j_id r := r]> (scheduled db)) |> set_claims claims)
  end.

(** [UPDATE awa.jobs_hot SET f WHERE id = $1 AND guard RETURNING *]. *)
Definition update_hot_where (id : Z) (guard : JobRow -> bool) (f : JobRow -> JobRow) (db : Db)
    : result AwaError (option JobRow * Db) :=
  match hot db !! id with
  | Some r =>
      if guard r
      then let? (r', db) := update_hot f r db in Ok (Some r', db)
      else Ok (None, db)
  | None => Ok (None, db)
  end.

(** [WITH deleted AS (DELETE FROM jobs_hot WHERE id = $1 AND guard ...)
    INSERT INTO scheduled_jobs SELECT f ... FROM deleted]. *)
Definition move_to_scheduled_where (id : Z) (guard : JobRow -> bool) (f : JobRow -> JobRow) (db : Db)
    : result AwaError (option JobRow * Db) :=
  match hot db !! id with
  | Some r =>
      if guard r
      then
        let? db := delete_hot r db in
        let? db := insert_scheduled (f r) db in
        Ok (Some (f r), db)
      else Ok (None, db)
  | None => Ok (None, db)
  end.

(** Which table a state lives in. *)
Definition in_scheduled (st : JobState) : bool :=
  match st with Scheduled | Retryable => true | _ => false end.

(** [UPDATE awa.jobs SET f] through the view: [write_jobs_view] deletes the
    old row and inserts the new one in the table of its state. *)
Definition update_view (f : JobRow -> JobRow) (r : JobRow) (db : Db) : result AwaError (JobRow * Db) :=
  let? db := if in_scheduled (j_state r) then delete_scheduled r db else delete_hot r db in
  let? db := if in_scheduled (j_state (f r)) then insert_scheduled (f r) db else insert_hot (f r) db in
  Ok (f r, db).

(** * Guards and column expressions shared by the statements *)

Definition state_is (st : JobState) (r : JobRow) : bool := bool_decide (j_state r = st).
(** [state = 'running' AND run_lease = lease]. *)
Definition running_lease (lease : Z) (r : JobRow) : bool := state_is Running r && (j_run_lease r =? lease).
(** [x < y] on nullable columns: NULL is not less. *)
Definition lt_opt (x : option time) (y : time) : bool :=
  match x with Some t => t <? y | None => false end.
(** [errors || entry]. *)
Definition append_error (entry : json) (r : JobRow) : JobRow :=
  set_errors (Some (default [] (j_errors r) ++ [entry])) r.
(** [jsonb_build_object('error', msg, 'attempt', attempt, 'at', now())]. *)
Definition sql_error (env : Env) (msg : string) (r : JobRow) : json :=
  JObject [("at", at_sql env); ("attempt", i64_number (j_attempt r)); ("error", JString msg)].

(** One row of a multi-row UPDATE. *)
Definition update_step (f : JobRow -> JobRow) (r : JobRow) (db : Db) : result AwaError (list JobRow * Db) :=
  let? (r', db) := update_hot f r db in Ok ([r'], db).

Fixpoint fold_rows {A} (step : A -> Db -> result AwaError (list JobRow * Db)) (l : list A) (db : Db)
    : result AwaError (list JobRow * Db) :=
  match l with
  | [] => Ok ([], db)
  | a :: l =>
      let? (rows, db) := step a db in
      let? (rest, db) := fold_rows step l db in
      Ok (rows ++ rest, db)
  end.

(** * Insert ([awa.insert_job_compat], canonical branch) *)

Definition check_violation : AwaError := Database (SqlxDatabase (Some "23514") None).
Definition nul_violation : AwaError := Database (SqlxDatabase (Some "22021") None).

Definition new_row (env : Env) (id : Z) (p : PreparedJobInsert) : JobRow :=
  {| j_id := id; j_kind := pi_kind p; j_queue := pi_queue p; j_args := pi_args p;
     j_state := pi_state p; j_priority := pi_priority p; j_attempt := 0; j_run_lease := 0;
     j_max_attempts := pi_max_attempts p; j_run_at := default (clock env) (pi_run_at p);
     j_heartbeat_at := None; j_deadline_at := None; j_attempted_at := None;
     j_finalized_at := None; j_created_at := now env; j_errors := Some [];
     j_metadata := pi_metadata p; j_tags := pi_tags p; j_unique_key := pi_unique_key p;
     j_unique_states := pi_unique_states p; j_callback_id := None;
     j_callback_timeout_at := None; j_callback_filter := None; j_callback_on_complete := None;
     j_callback_on_fail := None; j_callback_transform := None; j_progress := None;
     j_output := None |}.

(** The table constraints; [length] counts characters. *)
Definition checks_hold (p : PreparedJobInsert) : bool :=
  (char_count (pi_kind p) <=? 200) && (char_count (pi_queue p) <=? 200)
  && (1 <=? pi_priority p) && (pi_priority p <=? 4)
  && (1 <=? pi_max_attempts p) && (pi_max_attempts p <=? 1000)
  && (Z.of_nat (length (pi_tags p)) <=? 20).
(** Postgres text holds no NUL byte. *)
Definition text_valid (p : PreparedJobInsert) : bool :=
  negb (contains_char nul (pi_kind p) || contains_char nul (pi_queue p)
        || existsb (contains_char nul) (pi_tags p)).
Definition insert_valid (p : PreparedJobInsert) : bool := text_valid p && checks_hold p.

Definition insert_job_compat (env : Env) (p : PreparedJobInsert) (db : Db) : result AwaError (JobRow * Db) :=
  if negb (insert_valid p) then Err (if text_valid p then check_violation else nul_violation)
  else
    let id := jobs_id_seq db in
    let db := set_seq (id + 1) db in
    let r := new_row env id p in
    let? db := if in_scheduled (pi_state p) then insert_scheduled r db else insert_hot r db in
    Ok (r, db).

(** * Claiming (dispatcher.rs, [poll_once]) *)

(** [ORDER BY priority ASC, run_at ASC, id ASC]. *)
Definition claim_le (a b : JobRow) : Prop :=
  j_priority a < j_priority b \/
  (j_priority a = j_priority b /\
   (j_run_at a < j_run_at b \/ (j_run_at a = j_run_at b /\ j_id a <= j_id b))).
#[export] Instance claim_le_dec (a b : JobRow) : Decision (claim_le a b).
Proof. unfold claim_le. apply _. Defined.

Definition rows_of (m : gmap Z JobRow) : list JobRow := map snd (map_to_list m).

Definition claimable (env : Env) (queue : string) (locked : gset Z) (db : Db) (r : JobRow) : bool :=
  state_is Available r && String.eqb (j_queue r) queue && (j_run_at r <=? now env)
  && negb (bool_decide (queue ∈ paused_queues db)) && negb (bool_decide (j_id r ∈ locked)).

Definition claim_row (env : Env) (deadline : Z) (r : JobRow) : JobRow :=
  r |> set_state Running |> set_attempt (j_attempt r + 1) |> set_run_lease (j_run_lease r + 1)
    |> set_attempted_at (Some (now env)) |> set_heartbeat_at (Some (now env))
    |> set_deadline_at (Some (now env + deadline)).

(** The [claimed] CTE; [locked] holds the rows [SKIP LOCKED] passes over. *)
Definition claim_candidates (env : Env) (queue : string) (limit : nat) (locked : gset Z) (db : Db) : list JobRow :=
  take limit (merge_sort claim_le (List.filter (claimable env queue locked db) (rows_of (hot db)))).

(** [deadline] is [deadline_duration] in microseconds. *)
Definition claim_batch (env : Env) (queue : string) (limit : nat) (deadline : Z) (locked : gset Z) (db : Db)
    : result AwaError (list JobRow * Db) :=
  fold_rows (update_step (claim_row env deadline)) (claim_candidates env queue limit locked db) db.

(** * Completion (executor.rs, completion.rs) *)

Definition complete_row (env : Env) (r : JobRow) : JobRow :=
  r |> set_state Completed |> set_finalized_at (Some (now env)) |> set_progress None.

Definition direct_complete_job (env : Env) (id lease : Z) (db : Db) : result AwaError (option JobRow * Db) :=
  update_hot_where id (running_lease lease) (complete_row env) db.

Definition id_le (a b : JobRow) : Prop := j_id a <= j_id b.
#[export] Instance id_le_dec (a b : JobRow) : Decision (id_le a b).
Proof. unfold id_le. apply _. Defined.

(** Rows of [jobs_hot] joined with [(id, run_lease)] pairs, by id. *)
Definition join_running (pairs : list (Z * Z)) (db : Db) : list JobRow :=
  merge_sort id_le
    (List.filter (fun r => state_is Running r && bool_decide ((j_id r, j_run_lease r) ∈ pairs))
                 (rows_of (hot db))).

(** [COMPLETE_BATCH_SQL]. *)
Definition complete_batch (env : Env) (pairs : list (Z * Z)) (db : Db) : result AwaError (list JobRow * Db) :=
  fold_rows (update_step (complete_row env)) (join_running pairs db) db.

(** [exhaust_canonical] and the terminal-error branch: fail the attempt. *)
Definition fail_running (env : Env) (id lease : Z) (entry : json) (progress : option json) (db : Db)
    : result AwaError (option JobRow * Db) :=
  update_hot_where id (running_lease lease)
    (fun r => r |> set_state Failed |> set_finalized_at (Some (now env))
                |> append_error entry |> set_progress progress) db.

(** [JobResult::Cancel]. *)
Definition cancel_running (env : Env) (id lease : Z) (entry : json) (progress : option json) (db : Db)
    : result AwaError (option JobRow * Db) :=
  update_hot_where id (running_lease lease)
    (fun r => r |> set_state Cancelled |> set_finalized_at (Some (now env))
                |> append_error entry |> set_progress progress) db.

(** [JobResult::WaitForCallback]. *)
Definition park_running (id lease : Z) (progress : option json) (db : Db)
    : result AwaError (option JobRow * Db) :=
  update_hot_where id
    (fun r => running_lease lease r && match j_callback_id r with Some _ => true | None => false end)
    (fun r => r |> set_state WaitingExternal |> set_heartbeat_at None |> set_deadline_at None
                |> set_progress progress) db.

(** [WaitForCallback] without a registered callback. *)
Definition fail_unregistered (env : Env) (id lease : Z) (entry : json) (db : Db)
    : result AwaError (option JobRow * Db) :=
  update_hot_where id (running_lease lease)
    (fun r => r |> set_state Failed |> set_finalized_at (Some (now env)) |> append_error entry) db.

(** * Heartbeats (heartbeat.rs, [heartbeat_once_canonical]) *)

Definition heartbeat_batch (env : Env) (pairs : list (Z * Z)) (db : Db) : result AwaError (list JobRow * Db) :=
  fold_rows (update_step (set_heartbeat_at (Some (now env)))) (join_running pairs db) db.

(** The progress of the joined [(id, run_lease, progress)] triple. *)
Definition progress_for (triples : list (Z * Z * json)) (r : JobRow) : option json :=
  find_map (fun '(id, lease, p) =>
    if (id =? j_id r) && (lease =? j_run_lease r) then Some p else None) triples.

Definition heartbeat_progress_batch (env : Env) (triples : list (Z * Z * json)) (db : Db)
    : result AwaError (list JobRow * Db) :=
  fold_rows
    (update_step (fun r => r |> set_heartbeat_at (Some (now env)) |> set_progress (progress_for triples r)))
    (join_running (map (fun '(id, lease, _) => (id, lease)) triples) db) db.

(** * Re-scheduling a running attempt (reschedule.rs) *)

(** Delays in microseconds. *)
Inductive Reschedule : Type :=
  | Snooze (delay : Z)
  | RetryAfter (delay : Z)
  | RetryBackoff.

Definition next_state (k : Reschedule) : JobState :=
  match k with Snooze _ => Scheduled | RetryAfter _ | RetryBackoff => Retryable end.
Definition decrements_attempt (k : Reschedule) : bool :=
  match k with Snooze _ => true | _ => false end.
Definition delay_parameters (k : Reschedule) : Z * bool :=
  match k with
  | Snooze delay | RetryAfter delay => (delay, false)
  | RetryBackoff => (0, true)
  end.

Inductive RescheduleOutcome : Type :=
  | Rescheduled (job_id : Z) (run_at : time) (attempt : Z)
  | Migrated (job_id : Z) (run_at : time) (attempt : Z)
  | CancelledDuplicate (job_id : Z)
  | Stale.

Definition reschedule_row (env : Env) (k : Reschedule) (error progress : option json) (r : JobRow) : JobRow :=
  let '(delay, use_backoff) := delay_parameters k in
  r |> set_state (next_state k)
    |> set_attempt (if decrements_attempt k then j_attempt r - 1 else j_attempt r)
    |> set_run_at (now env + if use_backoff then backoff env (j_attempt r) (j_max_attempts r) else delay)
    |> set_heartbeat_at None |> set_deadline_at None
    |> set_finalized_at (if bool_decide (next_state k = Retryable) then Some (now env) else j_finalized_at r)
    |> (fun r => match error with Some e => append_error e r | None => r end)
    |> set_progress progress.

Definition reschedule_canonical (env : Env) (id lease : Z) (k : Reschedule) (error progress : option json)
    (db : Db) : result AwaError (RescheduleOutcome * Db) :=
  let? (row, db) := move_to_scheduled_where id (running_lease lease) (reschedule_row env k error progress) db in
  Ok (match row with
      | Some r => Rescheduled (j_id r) (j_run_at r) (j_attempt r)
      | None => Stale
      end, db).

(** A row carries no callback wiring. *)
Definition callback_free (r : JobRow) : bool :=
  match j_callback_id r, j_callback_timeout_at r, j_callback_filter r,
        j_callback_on_complete r, j_callback_on_fail r, j_callback_transform r with
  | None, None, None, None, None, None => true
  | _, _, _, _, _, _ => false
  end.

(** The queue-storage successor [migrate_to_queue_storage] builds. *)
Definition migrated_successor (env : Env) (new_id : Z) (k : Reschedule) (error progress : option json)
    (job : JobRow) : JobRow :=
  let '(delay, use_backoff) := delay_parameters k in
  let errors := default [] (j_errors job) ++ option_list error in
  {| j_id := new_id; j_kind := j_kind job; j_queue := j_queue job; j_args := j_args job;
     j_state := next_state k; j_priority := j_priority job;
     j_attempt := if decrements_attempt k then Z.max (- 2 ^ 15) (j_attempt job - 1) else j_attempt job;
     j_run_lease := j_run_lease job; j_max_attempts := j_max_attempts job;
     j_run_at := now env + (if use_backoff then backoff env (j_attempt job) (j_max_attempts job) else delay);
     j_heartbeat_at := None; j_deadline_at := None; j_attempted_at := j_attempted_at job;
     j_finalized_at := if bool_decide (next_state k = Retryable) then Some (now env) else None;
     j_created_at := j_created_at job;
     j_errors := match errors with [] => None | _ => Some errors end;
     j_metadata := j_metadata job; j_tags := j_tags job; j_unique_key := j_unique_key job;
     j_unique_states := None; j_callback_id := None; j_callback_timeout_at := None;
     j_callback_filter := None; j_callback_on_complete := None; j_callback_on_fail := None;
     j_callback_transform := None; j_progress := progress; j_output := None |}.

Section Migrate.
  (** The queue-storage side of a migration: the next id of its sequence, and
      the insert that returns the row it stored (deferred, or cancelled when
      a newer job holds the unique claim). *)
  Variable next_queue_storage_id : Z.
  Variable insert_migrated : JobRow -> option string -> Db -> result AwaError (JobRow * Db).

Definition migrate_to_queue_storage (env : Env) (id lease : Z) (k : Reschedule) (error progress : option json)
    (db : Db) : result AwaError (RescheduleOutcome * Db) :=
  match hot db !! id with
  | Some job =>
      if running_lease lease job && callback_free job
      then
        let? db := delete_hot job db in
        let successor := migrated_successor env next_queue_storage_id k error progress job in
        let? (inserted, db) := insert_migrated successor (j_unique_states job) db in
        Ok (if bool_decide (j_state inserted = Cancelled)
            then CancelledDuplicate (j_id inserted)
            else Migrated (j_id inserted) (j_run_at inserted) (j_attempt inserted), db)
      else reschedule_canonical env id lease k error progress db
  | None => reschedule_canonical env id lease k error progress db
  end.

(** [reschedule_canonical_attempt_tx]; [active] tells whether a queue-storage
    schema is active. *)
Definition reschedule_canonical_attempt (active : bool) (env : Env) (id lease : Z) (k : Reschedule)
    (error progress : option json) (db : Db) : result AwaError (RescheduleOutcome * Db) :=
  if active
  then migrate_to_queue_storage env id lease k error progress db
  else reschedule_canonical env id lease k error progress db.
End Migrate.

(** * Rescue (maintenance.rs) *)

Inductive RescueKind : Type :=
  | StaleHeartbeat (staleness_ms : Z)
  | ExpiredDeadline
  | ExpiredCallback.

Definition rescue_candidate (env : Env) (k : RescueKind) (r : JobRow) : bool :=
  match k with
  | StaleHeartbeat ms => state_is Running r && lt_opt (j_heartbeat_at r) (now env - ms * 1000)
  | ExpiredDeadline => state_is Running r && lt_opt (j_deadline_at r) (now env)
  | ExpiredCallback => state_is WaitingExternal r && lt_opt (j_callback_timeout_at r) (now env)
  end.

Definition rescue_message (k : RescueKind) : string :=
  match k with
  | StaleHeartbeat _ => "heartbeat stale: worker presumed dead"
  | ExpiredDeadline => "hard deadline exceeded"
  | ExpiredCallback => "callback timed out"
  end.

(** The [failed] branch: [attempt >= max_attempts]. *)
Definition rescue_failed_row (env : Env) (k : RescueKind) (r : JobRow) : JobRow :=
  let r' := r |> set_state Failed |> set_finalized_at (Some (now env))
              |> append_error (sql_error env (rescue_message k) r) in
  match k with
  | ExpiredCallback => clear_callback r'
  | _ => r' |> set_heartbeat_at None |> set_deadline_at None
  end.

(** The [moved] branch: to [scheduled_jobs] as [retryable]. *)
Definition rescue_moved_row (env : Env) (k : RescueKind) (r : JobRow) : JobRow :=
  let r' := r |> set_state Retryable |> set_finalized_at (Some (now env))
              |> append_error (sql_error env (rescue_message k) r) |> clear_callback in
  match k with
  | ExpiredCallback => r' |> set_run_at (now env + backoff env (j_attempt r) (j_max_attempts r))
  | _ => r' |> set_heartbeat_at None |> set_deadline_at None
  end.

Definition exhausted (r : JobRow) : bool := j_max_attempts r <=? j_attempt r.

(** One candidate row, in the branch its attempt count selects. *)
Definition rescue_one (env : Env) (k : RescueKind) (r : JobRow) (db : Db) : result AwaError (JobRow * Db) :=
  if exhausted r
  then update_hot (rescue_failed_row env k) r db
  else
    let? db := delete_hot r db in
    let? db := insert_scheduled (rescue_moved_row env k r) db in
    Ok (rescue_moved_row env k r, db).

Definition rescue_step (env : Env) (k : RescueKind) (r : JobRow) (db : Db)
    : result AwaError (list JobRow * Db) :=
  let? (r', db) := rescue_one env k r db in Ok ([r'], db).

Definition RESCUE_LIMIT : nat := 500.

(** The rows the candidate scan returns: [scan] is the order in which it meets
    the rows of [jobs_hot] it can lock. *)
Definition rescue_candidates (env : Env) (k : RescueKind) (scan : list Z) (db : Db) : list JobRow :=
  take RESCUE_LIMIT
    (List.filter (rescue_candidate env k) (omap (fun id => hot db !! id) (remove_dups scan))).

(** The batched statement: exhausted candidates fail in place, the rest move. *)
Definition rescue_batch (env : Env) (k : RescueKind) (scan : list Z) (db : Db)
    : result AwaError (list JobRow * Db) :=
  let rows := rescue_candidates env k scan db in
  fold_rows (rescue_step env k)
    (List.filter exhausted rows ++ List.filter (fun r => negb (exhausted r)) rows) db.

(** The single-row variants ([*_RESCUE_PER_ROW_SQL]). *)
Definition rescue_row (env : Env) (k : RescueKind) (id : Z) (db : Db) : result AwaError (option JobRow * Db) :=
  match hot db !! id with
  | Some r =>
      if rescue_candidate env k r
      then let? (r', db) := rescue_one env k r db in Ok (Some r', db)
      else Ok (None, db)
  | None => Ok (None, db)
  end.

Definition rescue_from_state (k : RescueKind) : JobState :=
  match k with ExpiredCallback => WaitingExternal | _ => Running end.
Definition duplicate_message (k : RescueKind) : string :=
  match k with
  | StaleHeartbeat _ => "rescued as duplicate: heartbeat stale and unique claim held by a newer job"
  | ExpiredDeadline => "rescued as duplicate: deadline expired and unique claim held by a newer job"
  | ExpiredCallback => "rescued as duplicate: callback timed out and unique claim held by a newer job"
  end.

Definition cancel_unique_conflicted_job (env : Env) (id : Z) (from_state : JobState) (error_message : string)
    (db : Db) : result AwaError (option JobRow * Db) :=
  update_hot_where id (state_is from_state)
    (fun r => r |> set_state Cancelled |> set_finalized_at (Some (now env))
                |> append_error (sql_error env error_message r)
                |> set_heartbeat_at None |> set_deadline_at None |> clear_callback) db.

(** [rescue_canonical_per_row]: each row in its own transaction; a conflicted
    row is cancelled, or skipped when even that conflicts. *)
Definition rescue_per_row_step (env : Env) (k : RescueKind) (id : Z) (db : Db) : list JobRow * Db :=
  match rescue_row env k id db with
  | Ok (row, db') => (option_list row, db')
  | Err err =>
      if is_unique_claim_conflict err
      then match cancel_unique_conflicted_job env id (rescue_from_state k) (duplicate_message k) db with
           | Ok (row, db') => (option_list row, db')
           | Err _ => ([], db)
           end
      else ([], db)
  end.
Fixpoint rescue_canonical_per_row (env : Env) (k : RescueKind) (ids : list Z) (db : Db) : list JobRow * Db :=
  match ids with
  | [] => ([], db)
  | id :: ids =>
      let '(rescued, db) := rescue_per_row_step env k id db in
      let '(rest, db) := rescue_canonical_per_row env k ids db in
      (rescued ++ rest, db)
  end.

(** [rescue_canonical_stale_heartbeats], [_expired_deadlines] and
    [_expired_callbacks]: the batch, with the row-at-a-time fallback. [scan]
    and [rescan] are the orders of the two candidate scans. *)
Definition rescue_canonical (env : Env) (k : RescueKind) (scan rescan : list Z) (db : Db)
    : result AwaError (list JobRow * Db) :=
  match rescue_batch env k scan db with
  | Err err =>
      if is_unique_claim_conflict err
      then Ok (rescue_canonical_per_row env k (map j_id (rescue_candidates env k rescan db)) db)
      else Err err
  | ok => ok
  end.

(** * Promotion (maintenance.rs) *)

Definition PROMOTE_BATCH_SIZE : nat := Z.to_nat 4096.
Definition PROMOTE_MAX_BATCHES_PER_TICK : nat := 32.

(** [ORDER BY run_at ASC, id ASC]. *)
Definition due_le (a b : JobRow) : Prop :=
  j_run_at a < j_run_at b \/ (j_run_at a = j_run_at b /\ j_id a <= j_id b).
#[export] Instance due_le_dec (a b : JobRow) : Decision (due_le a b).
Proof. unfold due_le. apply _. Defined.

Definition is_due (env : Env) (st : JobState) (locked : gset Z) (r : JobRow) : bool :=
  state_is st r && (j_run_at r <=? now env) && negb (bool_decide (j_id r ∈ locked)).

Definition promote_row (env : Env) (r : JobRow) : JobRow :=
  r |> set_state Available |> set_run_at (now env) |> set_heartbeat_at None |> set_deadline_at None
    |> clear_callback.

Definition due_candidates (env : Env) (st : JobState) (limit : nat) (locked : gset Z) (db : Db) : list JobRow :=
  take limit (merge_sort due_le (List.filter (is_due env st locked) (rows_of (scheduled db)))).

Definition promote_step (env : Env) (r : JobRow) (db : Db) : result AwaError (list JobRow * Db) :=
  let? db := delete_scheduled r db in
  let? db := insert_hot (promote_row env r) db in
  Ok ([promote_row env r], db).

(** [promote_sql] / [promote_due_batch] with batch size [limit]. *)
Definition promote_due_batch (env : Env) (st : JobState) (limit : nat) (locked : gset Z) (db : Db)
    : result AwaError (list JobRow * Db) :=
  fold_rows (promote_step env) (due_candidates env st limit locked db) db.

(** The canonical loop of [promote_due_state]: at most [batches] batches,
    stopping at a short one. [Err] leaves the batches already committed. *)
Fixpoint promote_due_state (env : Env) (st : JobState) (limit : nat) (locked : gset Z) (batches : nat) (db : Db)
    : result AwaError nat * Db :=
  match batches with
  | O => (Ok O, db)
  | S batches =>
      match promote_due_batch env st limit locked db with
      | Err e => (Err e, db)
      | Ok (rows, db) =>
          if (length rows <? limit)%nat then (Ok (length rows), db)
          else
            let '(n, db) := promote_due_state env st limit locked batches db in
            (let? n := n in Ok (length rows + n)%nat, db)
      end
  end.

(** * Priority aging (maintenance.rs) *)

(** jsonb [||], [?] and [-]. *)
Definition jsonb_concat (a b : json) : json :=
  match a, b with
  | JObject m, JObject m' => JObject (fold_left (fun m '(k, v) => map_insert k v m) m' m)
  | _, _ =>
      JArray ((match a with JArray l => l | _ => [a] end) ++ (match b with JArray l => l | _ => [b] end))
  end.
Definition jsonb_exists (v : json) (k : string) : bool :=
  match v with
  | JObject m => map_contains_key k m
  | JArray l => existsb (fun x => match x with JString s => String.eqb s k | _ => false end) l
  | JString s => String.eqb s k
  | _ => false
  end.
Definition jsonb_delete (v : json) (k : string) : option json :=
  match v with
  | JObject m => Some (JObject (map_remove k m))
  | JArray l =>
      Some (JArray (List.filter (fun x => match x with JString s => negb (String.eqb s k) | _ => true end) l))
  | _ => None
  end.

Definition ORIGINAL_PRIORITY_KEY : string := "_awa_original_priority".

Definition age_row (r : JobRow) : JobRow :=
  r |> set_priority (j_priority r - 1)
    |> set_metadata
         (if negb (jsonb_exists (j_metadata r) ORIGINAL_PRIORITY_KEY)
          then jsonb_concat (j_metadata r) (JObject [(ORIGINAL_PRIORITY_KEY, i64_number (j_priority r))])
          else j_metadata r).

Definition age_eligible (env : Env) (aging : Z) (r : JobRow) : bool :=
  state_is Available r && (1 <? j_priority r) && (j_run_at r <=? now env - aging).

Definition age_candidates (env : Env) (aging : Z) (scan : list Z) (db : Db) : list JobRow :=
  take 1000 (List.filter (age_eligible env aging) (omap (fun id => hot db !! id) (remove_dups scan))).

(** [aging] in microseconds; a non-positive interval turns the pass off. *)
Definition age_waiting_priorities (env : Env) (aging : Z) (scan : list Z) (db : Db)
    : result AwaError (list JobRow * Db) :=
  if aging <=? 0 then Ok ([], db)
  else fold_rows (update_step age_row) (age_candidates env aging scan db) db.

(** * Retention (maintenance.rs, [cleanup_completed]) *)

(** Seconds of retention for completed and for failed/cancelled rows. *)
Record RetentionPolicy : Type := { completed_secs : Z; failed_secs : Z }.

Definition past_retention (env : Env) (p : RetentionPolicy) (r : JobRow) : bool :=
  (state_is Completed r && lt_opt (j_finalized_at r) (now env - completed_secs p * us_per_sec))
  || ((state_is Failed r || state_is Cancelled r)
      && lt_opt (j_finalized_at r) (now env - failed_secs p * us_per_sec)).

Definition delete_step (r : JobRow) (db : Db) : result AwaError (list JobRow * Db) :=
  let? db := delete_hot r db in Ok ([r], db).

Definition cleanup_pass (env : Env) (p : RetentionPolicy) (in_scope : string -> bool) (limit : nat)
    (scan : list Z) (db : Db) : result AwaError (list JobRow * Db) :=
  fold_rows delete_step
    (take limit (List.filter (fun r => in_scope (j_queue r) && past_retention env p r)
                   (omap (fun id => hot db !! id) (remove_dups scan)))) db.

(** The global pass skips queues with an override; each override has its own
    pass. A failing pass is logged and the next one runs. *)
Definition cleanup_completed (env : Env) (global : RetentionPolicy)
    (overrides : list (string * RetentionPolicy)) (limit : nat) (scan : list Z) (db : Db) : Db :=
  let run pass db := match pass db with Ok (_, db') => db' | Err _ => db end in
  let db := run (cleanup_pass env global
                   (fun q => negb (existsb (fun o => String.eqb (fst o) q) overrides)) limit scan) db in
  fold_left (fun db '(q, p) => run (cleanup_pass env p (String.eqb q) limit scan) db) overrides db.

(** * Admin operations (admin.rs) *)

(** [retry]: back to [available] with a fresh attempt budget. *)
Definition retryable_by_admin (r : JobRow) : bool :=
  state_is Failed r || state_is Cancelled r || state_is WaitingExternal r.
Definition retry_row (env : Env) (r : JobRow) : JobRow :=
  r |> set_state Available |> set_attempt 0 |> set_run_at (now env) |> set_finalized_at None
    |> set_heartbeat_at None |> set_deadline_at None |> clear_callback.

Definition retry (env : Env) (id : Z) (db : Db) : result AwaError (JobRow * Db) :=
  match lookup_job id db with
  | Some r => if retryable_by_admin r then update_view (retry_row env) r db else Err (JobNotFound id)
  | None => Err (JobNotFound id)
  end.

(** [cancel]: also tells whether a worker is notified. *)
Definition cancel_row (env : Env) (r : JobRow) : JobRow :=
  r |> set_state Cancelled |> set_finalized_at (Some (now env)) |> clear_callback.

Definition cancel (env : Env) (id : Z) (db : Db) : result AwaError (JobRow * bool * Db) :=
  match lookup_job id db with
  | None => Err (JobNotFound id)
  | Some r =>
      if is_terminal (j_state r) then Err (JobNotFound id)
      else
        let? (r', db) := update_view (cancel_row env) r db in
        Ok (r', state_is Running r || state_is WaitingExternal r, db)
  end.

Definition pause_queue (queue : string) (db : Db) : Db := set_paused ({[queue]} ∪ paused_queues db) db.
Definition resume_queue (queue : string) (db : Db) : Db := set_paused (paused_queues db ∖ {[queue]}) db.

(** * Callbacks (admin.rs) *)

Definition has_callback (cb : Z) (r : JobRow) : bool := bool_decide (j_callback_id r = Some cb).
Definition lease_matches (lease : option Z) (r : JobRow) : bool :=
  match lease with Some l => j_run_lease r =? l | None => true end.

(** The row of [jobs_hot] with this callback that passes the guard. *)
Definition find_callback (cb : Z) (guard : JobRow -> bool) (db : Db) : option JobRow :=
  List.find (fun r => has_callback cb r && guard r) (rows_of (hot db)).

Definition update_callback (cb : Z) (guard : JobRow -> bool) (f : JobRow -> JobRow) (db : Db)
    : result AwaError (JobRow * Db) :=
  match find_callback cb guard db with
  | Some r => update_hot f r db
  | None => Err (CallbackNotFound cb)
  end.

Definition waiting_or_running (r : JobRow) : bool := state_is WaitingExternal r || state_is Running r.

(** [cb] is the fresh UUID, [timeout] in microseconds. *)
Definition register_callback (env : Env) (id lease cb timeout : Z) (db : Db) : result AwaError (Z * Db) :=
  let? (row, db) :=
    update_hot_where id (running_lease lease) (set_callback (Some cb) (Some (now env + timeout))) db in
  match row with
  | Some _ => Ok (cb, db)
  | None => Err (Validation "job is not in running state")
  end.

Definition CALLBACK_RESULT_KEY : string := "_awa_callback_result".

Definition resume_row (env : Env) (payload : option json) (r : JobRow) : JobRow :=
  r |> set_state Running |> clear_callback |> set_heartbeat_at (Some (now env))
    |> set_metadata (jsonb_concat (j_metadata r) (JObject [(CALLBACK_RESULT_KEY, default JNull payload)])).
Definition complete_external_row (env : Env) (r : JobRow) : JobRow :=
  r |> set_state Completed |> set_finalized_at (Some (now env)) |> clear_callback
    |> set_heartbeat_at None |> set_deadline_at None |> set_progress None.

Definition complete_external (env : Env) (cb : Z) (payload : option json) (lease : option Z) (resume : bool)
    (db : Db) : result AwaError (JobRow * Db) :=
  update_callback cb (fun r => waiting_or_running r && lease_matches lease r)
    (if resume then resume_row env payload else complete_external_row env) db.

Definition fail_external (env : Env) (cb : Z) (error : string) (lease : option Z) (db : Db)
    : result AwaError (JobRow * Db) :=
  update_callback cb (fun r => waiting_or_running r && lease_matches lease r)
    (fun r => r |> set_state Failed |> set_finalized_at (Some (now env)) |> clear_callback
                |> set_heartbeat_at None |> set_deadline_at None
                |> append_error (sql_error env error r)) db.

Definition retry_external (env : Env) (cb : Z) (lease : option Z) (db : Db) : result AwaError (JobRow * Db) :=
  update_callback cb (fun r => state_is WaitingExternal r && lease_matches lease r) (retry_row env) db.

Definition heartbeat_callback (env : Env) (cb timeout : Z) (db : Db) : result AwaError (JobRow * Db) :=
  update_callback cb (state_is WaitingExternal)
    (set_callback_timeout_at (Some (now env + timeout))) db.

Definition cancel_callback (id lease : Z) (db : Db) : result AwaError (option JobRow * Db) :=
  update_hot_where id
    (fun r => match j_callback_id r with Some _ => true | None => false end && running_lease lease r)
    clear_callback db.

Definition enter_callback_wait (id lease cb : Z) (db : Db) : result AwaError (option JobRow * Db) :=
  update_hot_where id (fun r => running_lease lease r && has_callback cb r)
    (fun r => r |> set_state WaitingExternal |> set_heartbeat_at None |> set_deadline_at None) db.

Inductive CallbackPollResult : Type :=
  | Resolved (payload : json)
  | Pending
  | StaleToken (token current : Z) (state : JobState)
  | UnexpectedState (token : Z) (state : JobState)
  | NotFound.

Definition check_callback_state (id cb : Z) (db : Db) : result AwaError (CallbackPollResult * Db) :=
  match hot db !! id with
  | None => Ok (NotFound, db)
  | Some r =>
      match j_state r, j_callback_id r, get CALLBACK_RESULT_KEY (j_metadata r) with
      | Running, None, Some payload =>
          let md := match j_metadata r with JObject m => JObject (map_remove CALLBACK_RESULT_KEY m) | v => v end in
          let? (_, db) := update_hot (set_metadata md) r db in
          Ok (Resolved payload, db)
      | st, Some current, _ =>
          if negb (current =? cb) then Ok (StaleToken cb current st, db)
          else match st with
               | WaitingExternal => Ok (Pending, db)
               | st => Ok (UnexpectedState cb st, db)
               end
      | st, None, _ => Ok (UnexpectedState cb st, db)
      end
  end.

(** [take_callback_payload]: the write is not conditional on the row's state. *)
Definition take_callback_payload (id : Z) (metadata : json) (db : Db) : result AwaError (json * Db) :=
  let payload := default JNull (get CALLBACK_RESULT_KEY metadata) in
  match hot db !! id with
  | None => Ok (payload, db)
  | Some r =>
      match jsonb_delete (j_metadata r) CALLBACK_RESULT_KEY with
      | None => Err (Database (SqlxDatabase (Some "22023") None))
      | Some md =>
          let? (_, db) := update_hot (set_metadata md) r db in
          Ok (payload, db)
      end
  end.
