(* ===== verification/SqlInsert.v ===== *)
(** The SQL producer on queue storage: the branch of [awa.insert_job_compat] for
    an active queue-storage schema (v018 migration), which every insert that is
    not a Rust batch goes through: [insert], [insert_many], the bindings, cron
    and the follow-ups of a finalization. *)

From S2P Require Import Prelude.
From S2P Require Import Error.
From S2P Require Import Json.
From S2P Require Import Job.
From S2P Require Import Routing.
From S2P Require Import Rows.
From S2P Require Import Lanes.
From S2P Require Import QueueStore.
From S2P Require Import StoreFacts.
From S2P Require Import LanesFacts.
From S2P Require Import AtomicLanes.
From S2P Require Import OperationFacts.
From S2P Require Import Canonical.

(** * The insert *)

(** [jsonb_build_object('metadata', ..., 'progress', NULL)]. *)
Definition compat_payload (metadata : json) (tags : list string) : json :=
  JObject [("metadata", metadata); ("tags", JArray (map JString tags)); ("errors", JArray []); ("progress", JNull)].
Definition compat_columns (env : StoreEnv) (id : Z) (p : PreparedJobInsert) : Columns :=
  mkColumns id (pi_kind p) (pi_queue p) (pi_args p) (pi_priority p) 0 0 (pi_max_attempts p)
    (default (sv_now env) (pi_run_at p)) None (sv_now env) (pi_unique_key p) (pi_unique_states p)
    (compat_payload (pi_metadata p) (pi_tags p)).
(** The row the function returns. *)
Definition compat_row (env : StoreEnv) (id : Z) (p : PreparedJobInsert) : JobRow :=
  new_row (mkEnv (sv_now env) (sv_now env) JNull (sv_at_text env) (sv_backoff env)) id p.

Definition UNSUPPORTED_STATE : AwaError := Database (SqlxDatabase (Some "22023") None).
(** The bare INSERT into [job_unique_claims]. *)
Definition claim_new_key (id : Z) (p : PreparedJobInsert) (q : QStore) : result AwaError QStore :=
  match pi_unique_key p, pi_unique_states p with
  | Some key, Some mask =>
      if job_state_in_bitmask mask (pi_state p)
      then match claims q !! key with
           | Some _ => Err unique_violation
           | None => Ok (set_unique (<[key := id]> (claims q)) q)
           end
      else Ok q
  | _, _ => Ok q
  end.

Section Insert.
(** [pg_backend_pid()]. *)
Context (backend_pid : Z).
Definition compat_lane (env : StoreEnv) (p : PreparedJobInsert) : LaneKey :=
  (pi_queue p, pi_priority p, sql_enqueue_shard (pi_ordering_key p) backend_pid (sv_shards_of env (pi_queue p))).
Definition insert_job_compat_queue (env : StoreEnv) (p : PreparedJobInsert) (q : QStore) : result AwaError (JobRow * QStore) :=
  if negb (insert_valid p) then Err (if text_valid p then check_violation else nul_violation)
  else
    let id := job_id_seq q in
    let c := compat_columns env id p in
    let drawn := set_job_id_seq (id + 1) q in
    match pi_state p with
    | Available =>
        let? q := claim_new_key id p drawn in
        Ok (compat_row env id p, place_ready [(compat_lane env p, [c])] q)
    | Scheduled | Retryable =>
        let? q := claim_new_key id p drawn in
        match deferred_jobs q !! id with
        | Some _ => Err (Database (SqlxDatabase (Some "23505") None))
        | None => Ok (compat_row env id p, set_deferred (<[id := mkDeferred c (pi_state p) None]> (deferred_jobs q)) q)
        end
    | _ => Err UNSUPPORTED_STATE
    end.
(** [insert_prepared] of Rust, over it. *)
Definition insert_prepared_queue (env : StoreEnv) (p : PreparedJobInsert) (q : QStore) : result AwaError (JobRow * QStore) :=
  match insert_job_compat_queue env p q with
  | Err (Database e) => Err (map_sqlx_error e)
  | other => other
  end.
End Insert.

(** * What it does *)

Lemma claim_new_key_view id p q q' : claim_new_key id p q = Ok q' -> view q' = view q.
Proof. unfold claim_new_key. repeat case_match; intros [= <-]; done. Qed.
Lemma put_new_deferred D E q d :
  deferred_jobs q !! c_job_id (df_columns d) = None -> sinv D (place_of (df_columns d) :: E) q ->
  keeps D (place_of (df_columns d) :: E) q D E (set_deferred (<[c_job_id (df_columns d) := d]> (deferred_jobs q)) q).
Proof.
  intros Hn Hs. pose proof Hs as [Hl _ H1 H2]. apply (keeps_intro _ _ _ []); try done.
  - by apply (ledger_view D q).
  - unfold places, deferred_places. cbn [deferred_jobs set_deferred]. rewrite (rows_insert (fun r => place_of (df_columns r))) by done.
    simpl. solve_Permutation.
  - by intros a ?%elem_of_nil.
  - cbn [deferred_jobs set_deferred]. intros j r [[<- <-]|[_ Hr]]%lookup_insert_Some; [done|by eapply H1].
Qed.
Lemma compat_adds pid D E env p q row q' :
  insert_job_compat_queue pid env p q = Ok (row, q') -> sinv D E q ->
  adds D E q [job_id_seq q] q' /\ row = compat_row env (job_id_seq q) p /\ job_id_seq q' = job_id_seq q + 1.
Proof.
  unfold insert_job_compat_queue. destruct (negb (insert_valid p)); [done|]. cbv zeta. intros H Hs.
  pose proof (draw_sinv D E 1 q Hs) as Hd. change (snd (next_job_ids 1 q)) with (set_job_id_seq (job_id_seq q + 1) q) in Hd.
  simpl in Hd. rewrite Z.add_0_r in Hd. set (drawn := set_job_id_seq (job_id_seq q + 1) q) in *.
  set (c := compat_columns env (job_id_seq q) p) in *. change (job_id_seq q, 0) with (place_of c) in Hd.
  assert (forall q1, claim_new_key (job_id_seq q) p drawn = Ok q1 ->
    sinv D (place_of c :: E) q1 /\ keeps D (place_of c :: E) drawn D (place_of c :: E) q1) as Hk.
  { intros q1 Hv%claim_new_key_view. split; [by eapply sinv_view|by apply keeps_view]. }
  assert (forall q2, keeps D (place_of c :: E) drawn D E q2 -> adds D E q [job_id_seq q] q2 /\ job_id_seq q2 = job_id_seq q + 1) as Hfin.
  { intros q2 K. split; [|by rewrite (kp_seq _ _ _ _ _ _ K)]. split; [apply K|apply (kp_places _ _ _ _ _ _ K)| | |].
    - intros i ->%list_elem_of_singleton. rewrite (kp_seq _ _ _ _ _ _ K). simpl. lia.
    - intros e He. by apply (kp_handed _ _ _ _ _ _ K).
    - intros x Hx. by apply (kp_receipts _ _ _ _ _ _ K). }
  destruct (pi_state p); try done; apply rbind_Ok in H as (q1 & H1 & H); destruct (Hk q1 H1) as [Hs1 K1].
  - destruct (deferred_jobs q1 !! job_id_seq q) eqn:Hn; [done|]. injection H as <- <-.
    destruct (Hfin (set_deferred (<[job_id_seq q := mkDeferred c Scheduled None]> (deferred_jobs q1)) q1)) as [? ?]; [|done].
    eapply keeps_trans; [exact K1|]. by apply (put_new_deferred D E q1 (mkDeferred c Scheduled None)).
  - injection H as <- <-. destruct (Hfin (place_ready [(compat_lane pid env p, [c])] q1)) as [? ?]; [|done].
    eapply keeps_trans; [exact K1|]. apply (place_ready_keeps D E q1 [(compat_lane pid env p, [c])]); [|done].
    intros lane cs c' [= -> ->]%list_elem_of_singleton ->%list_elem_of_singleton. done.
  - destruct (deferred_jobs q1 !! job_id_seq q) eqn:Hn; [done|]. injection H as <- <-.
    destruct (Hfin (set_deferred (<[job_id_seq q := mkDeferred c Retryable None]> (deferred_jobs q1)) q1)) as [? ?]; [|done].
    eapply keeps_trans; [exact K1|]. by apply (put_new_deferred D E q1 (mkDeferred c Retryable None)).
Qed.
Lemma compat_payload_decodes metadata tags :
  is_object metadata = true -> from_json (compat_payload metadata tags) = Ok (Build_RuntimePayload metadata tags [] None).
Proof.
  intros Hm. unfold from_json, compat_payload. simpl. unfold de_payload. simpl. rewrite strings_of_map. simpl. by rewrite Hm.
Qed.
