(* ===== verification/StoreGuarantees.v ===== *)
(** What queue storage promises over runs of its operations: enqueues,
    claims, outcomes, completions, heartbeats, callbacks, rescues, promotions,
    admin calls, moves, rotations and prunes, in any order and from any number
    of workers.

    The operations run one after another, each whole: a claim and the advance
    of its lane's cursor, which the code commits separately, are one step here
    (LaneGuarantees.v interleaves them).  A rescue can take one attempt twice, as
    a lease and as a receipt; the runs considered are those in which none does
    ([step] takes only moves with the label [false]).  StoreEdges.v shows one
    that does. *)

From stdpp Require Import relations.
From S2P Require Import Prelude.
From S2P Require Import Error.
From S2P Require Import F64.
From S2P Require Import Json.
From S2P Require Import Job.
From S2P Require Import Routing.
From S2P Require Import Rows.
From S2P Require Import Lanes.
From S2P Require Import LanesFacts.
From S2P Require Import AtomicLanes.
From S2P Require Import QueueStore.
From S2P Require Import Attempts.
From S2P Require Import Callbacks.
From S2P Require Import AttemptRescue.
From S2P Require Import Completion.
From S2P Require Import StoreAdmin.
From S2P Require Import QueueOps.
From S2P Require Import StoreFacts.
From S2P Require Import AttemptFacts.
From S2P Require Import OperationFacts.
From S2P Require Import ClaimFacts.
From S2P Require Import SqlInsert.

Section Run.
Context (hash : list Z -> Z) (stripe_count : nat) (blake3 : list Z -> list Z) (to_vec : json -> list Z) (ambient : option string).

(** * Steps *)

Definition reported (a : Z * Z) (r : option JobRow) : list (Z * Z) := match r with Some _ => [a] | None => [] end.

(** What ends attempts at their worker's word, and the attempts it reports. *)
Inductive finish_step (handed_out : list ClaimedRuntimeJob) (q : QStore) : list (Z * Z) -> QStore -> Prop :=
  | FinishRetryAfter env j l delay secs progress claim output r q' :
      retry_after env j l delay secs progress claim output q = Ok (r, q') -> finish_step handed_out q (reported (j, l) r) q'
  | FinishSnooze env j l for_ progress claim r q' :
      snooze env j l for_ progress claim q = Ok (r, q') -> finish_step handed_out q (reported (j, l) r) q'
  | FinishCancel env j l reason progress claim r q' :
      cancel_running env j l reason progress claim q = Ok (r, q') -> finish_step handed_out q (reported (j, l) r) q'
  | FinishTerminal env j l error progress claim r q' :
      fail_terminal env j l error progress claim q = Ok (r, q') -> finish_step handed_out q (reported (j, l) r) q'
  | FinishDlq env j l reason error progress claim r q' :
      fail_to_dlq env j l reason error progress claim q = Ok (r, q') -> finish_step handed_out q (reported (j, l) r) q'
  | FinishRetryable env j l error progress claim delay r q' :
      fail_retryable env j l error progress claim delay q = Ok (r, q') -> finish_step handed_out q (reported (j, l) r) q'
  | FinishCompleted env claimed r q' :
      NoDup (map cj_attempt claimed) -> (forall e, e ∈ claimed -> exists h, h ∈ handed_out /\ cj_claim e = cj_claim h) ->
      complete_runtime_batch env claimed q = (r, q') -> finish_step handed_out q (match r with Ok u => u | Err _ => [] end) q'
  | FinishById env pairs out q' :
      complete_job_batch_by_id env pairs q = Ok (out, q') -> finish_step handed_out q out q'
  | FinishSlow env claimed out q' :
      NoDup (map cj_attempt claimed) ->
      complete_runtime_batch_slow env claimed q = Ok (out, q') -> finish_step handed_out q out q'
  | FinishClaimed env claimed out q' :
      complete_claimed_batch env claimed q = Ok (out, q') -> finish_step handed_out q out q'.

(** What else moves jobs, or none: heartbeats, callbacks, rescues, promotion,
    admin calls, rotation.  The label says whether the step took an attempt
    twice, as a rescue can. *)
Inductive move_step (q : QStore) : bool -> QStore -> Prop :=
  | MoveHeartbeat env jobs : move_step q false (heartbeat_batch env jobs q)
  | MoveHeartbeatProgress env jobs : move_step q false (heartbeat_progress_batch env jobs q)
  | MoveHeartbeatClaims env refs : move_step q false (heartbeat_claims_batch env refs q)
  | MoveFlushProgress env j l progress : move_step q false (flush_progress env j l progress q)
  | MoveRegister env j l c timeout q' :
      fresh_callback q c -> register_callback env j l c timeout q = Ok q' -> move_step q false q'
  | MoveRegisterConfig compile env j l c timeout config q' :
      fresh_callback q c -> register_callback_with_config compile env j l c timeout config q = Ok q' -> move_step q false q'
  | MoveCancelCallback j l b q' : cancel_callback j l q = (b, q') -> move_step q false q'
  | MoveEnterWait j l c b q' : enter_callback_wait j l c q = (b, q') -> move_step q false q'
  | MoveHeartbeatCallback env c timeout q' : heartbeat_callback env c timeout q = Ok q' -> move_step q false q'
  | MoveCheckCallback loaded j c r q' : check_callback_state loaded j c q = (r, q') -> move_step q false q'
  | MoveCompleteExternal env c payload l resume row q' :
      complete_external env c payload l resume q = Ok (row, q') -> move_step q false q'
  | MoveFailExternal env c error l row q' : fail_external env c error l q = Ok (row, q') -> move_step q false q'
  | MoveRetryExternal env c l row q' : retry_external env c l q = Ok (row, q') -> move_step q false q'
  | MoveRescueHeartbeats lease_lockable lockable env staleness dlq js q' :
      rescue_stale_heartbeats lease_lockable lockable env staleness dlq q = Ok (js, q') ->
      move_step q (takes_twice (heartbeat_pass lease_lockable lockable env staleness q)) q'
  | MoveRescueDeadlines lease_lockable lockable env dlq js q' :
      rescue_expired_deadlines lease_lockable lockable env dlq q = Ok (js, q') ->
      move_step q (takes_twice (deadline_pass lease_lockable lockable env q)) q'
  | MoveRescueCallbacks lease_lockable env dlq js q' :
      rescue_expired_callbacks lease_lockable env dlq q = Ok (js, q') -> move_step q false q'
  | MovePromote env lockable st n count q' : promote_due env lockable st n q = Ok (count, q') -> move_step q false q'
  | MoveRetryJob env j r q' : retry_job_tx env j q = Ok (r, q') -> move_step q false q'
  | MoveCancelJob env j r q' : cancel_job env j q = Ok (r, q') -> move_step q false q'
  | MoveSetPriority env logical stripe j p b q' : set_priority_tx env logical stripe j p q = Ok (b, q') -> move_step q false q'
  | MoveQueue env logical stripe j queue p b q' : move_queue_tx env logical stripe j queue p q = Ok (b, q') -> move_step q false q'
  | MoveAge env lockable interval limit ids q' :
      age_waiting_priorities env lockable interval limit q = Ok (ids, q') -> move_step q false q'
  | MoveToDlq env j reason r q' : move_failed_to_dlq env j reason q = Ok (r, q') -> move_step q false q'
  | MoveBulkToDlq env kind queue reason n q' : bulk_move_failed_to_dlq env kind queue reason q = Ok (n, q') -> move_step q false q'
  | MoveFromDlq env j opts r q' : retry_from_dlq env j opts q = Ok (r, q') -> move_step q false q'
  | MoveBulkFromDlq env f n q' : bulk_retry_from_dlq env f q = Ok (n, q') -> move_step q false q'
  | MoveRotate slot : move_step q false (rotate_queue slot q)
  | MovePause p : move_step q false (pause_queues p q).

(** What drops jobs. *)
Inductive drop_step (q : QStore) : QStore -> Prop :=
  | DropSlot env slot_count retention out q' : prune_oldest env slot_count retention q = Ok (out, q') -> drop_step q q'
  | DropClaims env b q' : prune_oldest_claims env q = (b, q') -> drop_step q q'
  | DropFailed env kind n q' : discard_failed_by_kind env kind q = Ok (n, q') -> drop_step q q'.

(** A store and the claims it has handed out. *)
Abbreviation config := (list ClaimedRuntimeJob * QStore)%type.
Inductive step : config -> config -> Prop :=
  | StepEnqueue out env jobs q n q' :
      enqueue_params_batch hash stripe_count blake3 to_vec ambient env jobs q = Ok (n, q') -> step (out, q) (out, q')
  | StepInsert out pid env p q row q' : insert_job_compat_queue pid env p q = Ok (row, q') -> step (out, q) (out, q')
  | StepClaimed out env locked queue q r q' :
      claim_runtime_batch env locked queue q = (r, q') -> step (out, q) (out ++ match r with Ok l => l | Err _ => [] end, q')
  | StepFinish out q xs q' : finish_step out q xs q' -> step (out, q) (out, q')
  | StepMove out q q' : move_step q false q' -> step (out, q) (out, q')
  | StepDrop out q q' : drop_step q q' -> step (out, q) (out, q').

Definition empty_storage (ring : RingCursor) : QStore := mkQStore (empty_store ring) ∅ [] [] ∅ ∅ ∅ [] ∅ [] 1 ∅ ∅.
Definition reachable (c : config) : Prop := exists ring, rtc step ([], empty_storage ring) c.
(** * The invariant of a run *)

(** [D] are the attempts that have ended. *)
Definition config_ok (D : list (Z * Z)) (c : config) : Prop := sinv D [] (snd c) /\ forall e, e ∈ fst c -> handed (snd c) e.

Lemma empty_ok ring : config_ok [] ([], empty_storage ring).
Proof.
  assert (places (empty_storage ring) = []) as Ep by reflexivity.
  split; [|by intros e ?%elem_of_nil]. split; [split| | |]; simpl; try done; try (by intros ? ?%elem_of_nil); try constructor.
  all: rewrite ?Ep; first [apply calm_empty | constructor | by intros ? ?%elem_of_nil | by intros ? ? ? ?%elem_of_nil].
Qed.

(** * Steps keep it *)

Lemma finish_ok D out q xs q' :
  finish_step out q xs q' -> config_ok D (out, q) -> finishes D [] q xs q'.
Proof.
  intros H [Hs Hh]. simpl in *.
  assert (forall a r q', settles D [] q a r q' -> finishes D [] q (reported a r) q') as Hsettle.
  { clear. intros a r q' (D' & K & Ha). exists D'. split; [done|]. destruct r; simpl; [|by intros ? ?%elem_of_nil].
    intros b ->%list_elem_of_singleton. by apply Ha. }
  destruct H; try apply Hsettle.
  - by eapply retry_after_settles.
  - by eapply snooze_settles.
  - by eapply cancel_running_settles.
  - by eapply fail_terminal_settles.
  - by eapply fail_to_dlq_settles.
  - by eapply fail_retryable_settles.
  - eapply complete_runtime_resolves; [done..|]. apply Forall_forall. intros e He. destruct (H0 e He) as (h & Hin & Ec).
    destruct (Hh h Hin) as [Hf _]. unfold claim_faithful in *. by rewrite Ec.
  - by eapply complete_deleted_resolves.
  - by eapply complete_slow_resolves.
  - by eapply complete_deleted_resolves.
Qed.

Lemma move_ok D q q' : move_step q false q' -> sinv D [] q -> resolves D [] q q'.
Proof.
  intros H Hs. inversion H; subst.
  all: first
    [ apply resolves_keeps;
      eauto using heartbeat_keeps, heartbeat_progress_keeps, heartbeat_claims_keeps, flush_progress_keeps, register_callback_keeps,
        register_with_config_keeps, cancel_callback_keeps, enter_callback_wait_keeps, heartbeat_callback_keeps, check_callback_keeps,
        promote_due_resolves, set_priority_keeps, move_queue_keeps, age_waiting_keeps, move_failed_keeps, bulk_move_keeps,
        retry_from_dlq_keeps, bulk_retry_keeps, rotate_queue_keeps, pause_queues_keeps; fail
    | eauto using complete_external_resolves, fail_external_resolves, retry_external_resolves, rescue_heartbeats_resolves,
        rescue_deadlines_resolves, rescue_callbacks_resolves, retry_job_resolves, cancel_job_resolves; fail ].
Qed.

Lemma drop_ok D q q' : drop_step q q' -> sinv D [] q -> drops D [] q q'.
Proof. intros [] Hs; eauto using prune_oldest_drops, prune_oldest_claims_drops, discard_drops. Qed.

Lemma step_ok D c c' : step c c' -> config_ok D c -> exists D', config_ok D' c' /\ forall a, a ∈ D -> a ∈ D'.
Proof.
  intros H [Hs Hh]. destruct H; simpl in *.
  - destruct (enqueue_adds _ _ _ _ _ D [] _ _ _ _ _ H Hs) as (ids & [] & _). exists D. split; [split; simpl; auto|done].
  - destruct (compat_adds _ D [] _ _ _ _ _ H Hs) as ([] & _). exists D. split; [split; simpl; auto|done].
  - destruct (claim_runtime_ok D [] _ _ _ _ _ _ H Hs). exists D. split; [split; [done|]|done].
    intros e [He|He]%elem_of_app; auto.
  - destruct (finish_ok D out q xs q' H) as (D' & [] & _); [by split|]. exists D'. split; [split; simpl; auto|done].
  - destruct (move_ok D q q' H Hs) as (D' & []). exists D'. split; [split; simpl; auto|done].
  - destruct (drop_ok D q q' H Hs). exists D. split; [split; simpl; auto|done].
Qed.

(** New jobs have ids of their own. *)
Lemma adds_new D q ids q' :
  adds D [] q ids q' -> sinv D [] q ->
  NoDup ids /\ (forall i, i ∈ ids -> i ∉ map fst (places q)) /\ map fst (places q') ≡ₚ ids ++ map fst (places q).
Proof.
  intros [Hi Hp Hid _] Hs. simpl in Hp.
  assert (map fst (places q') ≡ₚ ids ++ map fst (places q)) as Hp' by (rewrite Hp, map_app; unfold new_places; by rewrite map_map, map_id).
  split_and!; [|intros i Hin (a & -> & Hin')%list_elem_of_fmap|done].
  - pose proof (ac_one _ _ _ (si_places _ _ _ Hi)) as Hn. simpl in Hn. rewrite Hp' in Hn. by apply NoDup_app in Hn as [? _].
  - specialize (Hid _ Hin). pose proof (ac_ids _ _ _ (si_places _ _ _ Hs) a Hin'). lia.
Qed.

Lemma steps_ok D c c' : rtc step c c' -> config_ok D c -> exists D', config_ok D' c' /\ forall a, a ∈ D -> a ∈ D'.
Proof.
  intros H. revert D. induction H as [c|c c1 c' H1 _ IH]; intros D Hok; [by exists D|].
  destruct (step_ok D c c1 H1 Hok) as (D1 & Hok1 & Hd1). destruct (IH D1 Hok1) as (D2 & ? & Hd2). exists D2. split; [done|auto].
Qed.
Lemma reachable_ok c : reachable c -> exists D, config_ok D c.
Proof. intros (ring & H). destruct (steps_ok [] _ _ H (empty_ok ring)) as (D & ? & _). by exists D. Qed.
(** * One place each *)

(** C11. A job is in one place at a time: ready, running, deferred, terminal or
    dead-lettered, once.  This holds along every run whose operations follow one
    another whole (a claim together with the advance of its cursor), in which
    callback ids are fresh, batches complete claims that were handed out, and no
    rescue takes an attempt twice.  No enqueue, claim, outcome, rescue, retry,
    cancel, move or prune of such a run leaves a copy behind. *)
Theorem job_in_one_place out q : reachable (out, q) -> NoDup (map fst (places q)).
Proof. intros (D & [Hs _])%reachable_ok. apply (ac_one _ _ _ (si_places _ _ _ Hs)). Qed.


(** Receipts stay, but for a prune, which leaves what is running. *)
Lemma step_receipts D out q out' q' :
  step (out, q) (out', q') -> config_ok D (out, q) -> (forall x, x ∈ receipts q -> x ∈ receipts q') \/ running q' = running q.
Proof.
  intros H Hok. pose proof Hok as [Hs _]. simpl in Hs.
  inversion H as [o e js q0 n q0' He|o pid e p q0 row q0' He|o e l qu q0 r q0' Hc|o q0 xs q0' Hf|o q0 q0' Hm|o q0 q0' Hd]; subst.
  - left. destruct (enqueue_adds _ _ _ _ _ D [] _ _ _ _ _ He Hs) as (ids & Had & _). apply Had.
  - left. destruct (compat_adds _ D [] _ _ _ _ _ He Hs) as (Had & _). apply Had.
  - left. apply (claim_runtime_ok D [] _ _ _ _ _ _ Hc Hs).
  - left. destruct (finish_ok D _ _ _ _ Hf Hok) as (D' & K & _). apply K.
  - left. destruct (move_ok D _ _ Hm Hs) as (D' & K). apply K.
  - right. apply (drop_ok D _ _ Hd Hs).
Qed.
(** An attempt that ran and no longer does has ended. *)
Lemma stopped_ended D D1 out q out1 q1 a :
  step (out, q) (out1, q1) -> config_ok D (out, q) -> config_ok D1 (out1, q1) ->
  a ∈ running_places q -> a ∉ running_places q1 -> a ∈ D1.
Proof.
  intros H Hok [Hs1 _] (x & -> & Hx)%list_elem_of_fmap Hn. destruct (step_receipts D _ _ _ _ H Hok) as [Hr|Hr].
  - apply (lg_ended _ _ (si_ledger _ _ _ Hs1)); [apply Hr; by apply running_elem in Hx as [? _]|].
    apply not_true_iff_false. intros Hu. apply Hn, list_elem_of_fmap_2. apply elem_of_filter_b. split; [done|].
    apply Hr. by apply running_elem in Hx as [? _].
  - destruct Hn. apply list_elem_of_fmap_2. by rewrite Hr.
Qed.

(** C13. An attempt ends once.  When a step of such a run ends an attempt, that
    is, when a completion, failure, retry, snooze or cancellation reports it as
    ended, or when it ran before the step and does not after it (whether a
    worker, a callback, an admin or a rescue ended it), then at no later point of
    the run does that attempt run, and no completion, failure, retry, snooze or
    cancellation reports it: a worker that comes late, or twice, finds nothing
    to do. *)
Theorem attempt_ends_once out q out1 q1 out2 q2 a :
  reachable (out, q) -> step (out, q) (out1, q1) ->
  (exists xs, finish_step out q xs q1 /\ a ∈ xs) \/ a ∈ running_places q /\ a ∉ running_places q1 ->
  rtc step (out1, q1) (out2, q2) ->
  (a ∉ running_places q2) /\ forall ys q3, finish_step out2 q2 ys q3 -> a ∉ ys.
Proof.
  intros (D & Hok)%reachable_ok H1 Ha Hrun.
  assert (exists D1, config_ok D1 (out1, q1) /\ a ∈ D1) as (D1 & Hok1 & Hd1).
  { destruct (step_ok D _ _ H1 Hok) as (D1 & Hok1 & _). destruct Ha as [(xs & Hf & Ha)|[Hr Hn]].
    - destruct (finish_ok _ _ _ _ _ Hf Hok) as (D' & K & Hx). exists D'. split; [split; [apply K|apply Hok1]|by apply Hx].
    - exists D1. split; [done|]. by eapply stopped_ended. }
  destruct (steps_ok D1 _ _ Hrun Hok1) as (D2 & Hok2 & Hd). split.
  - intros (x & -> & Hx)%list_elem_of_fmap. apply (lg_open _ _ (si_ledger _ _ _ (proj1 Hok2)) x Hx). by apply Hd.
  - intros ys q3 H2 Hy. destruct (finish_ok _ _ _ _ _ H2 Hok2) as (D3 & _ & Hn). by apply (Hn a Hy), Hd.
Qed.
(** C14. A running attempt can be taken.  In every store of such a run, an
    attempt with an open receipt, leased or not, unless its lease waits for a
    callback, is found by the statement that ends it: no prune, rotation or other
    operation has removed the ready row it needs.  What is taken is the attempt
    as it was claimed (number, budget, priority, time) and the job as that ready
    row has it (kind, queue, arguments, payload, run time, creation time, unique
    key and mask). *)
Theorem running_attempt_taken out q x outcome :
  reachable (out, q) -> x ∈ running q ->
  (forall l, l ∈ leases q -> lease_attempt l = attempt_of x -> dl_state (ls_row l) = Running) ->
  exists m q' r, take_running_attempt_tx (ci_job_id (snd x)) (ci_run_lease (snd x)) outcome None q = Ok (Some m, q')
    /\ r ∈ ready_rows q /\ gives x r m.
Proof.
  intros (D & [Hs _])%reachable_ok Hx Hst. destruct (take_total D [] q x outcome Hs Hx Hst) as (m & q' & H).
  destruct (take_gives D [] q x outcome m q' H Hs Hx) as (r & Hr & Hg). by exists m, q', r.
Qed.
End Run.

(** * A small run *)

Module StoreDemo.
(** Two jobs enqueued on one queue, both claimed, the first snoozed. *)
Definition at_second (t : Z) : StoreEnv := mkStoreEnv (t * us_per_sec) "t" (fun _ _ => us_per_sec) (fun _ => 1) 0 0 (0, 1, 8) false.
Definition claim_at (t : Z) : ClaimEnv := mkClaimEnv (t * us_per_sec) 10 0 (as_f64 60) (0, 1) 0.
Definition no_hash (_ : list Z) : Z := 0.
Definition opts : InsertOpts :=
  {| o_queue := "mail"; o_priority := 2; o_max_attempts := 25; o_run_at := None; o_deadline_duration := None;
     o_metadata := JObject []; o_tags := []; o_unique := None; o_ordering_key := None |}.
Definition jobs : list (string * json * InsertOpts) := [("send", JObject [("to", JString "a")], opts); ("send", JObject [("to", JString "b")], opts)].
Definition enqueue (q : QStore) : result AwaError (nat * QStore) :=
  enqueue_params_batch no_hash 1 id (fun _ => []) None (at_second 0) jobs q.
Definition q0 : QStore := empty_storage (0, 0).
Definition q1 : QStore := match enqueue q0 with Ok (_, q) => q | Err _ => q0 end.
Definition claimed : result AwaError (list ClaimedRuntimeJob) * QStore := claim_runtime_batch (claim_at 1) (fun _ => false) "mail" q1.
Definition out : list ClaimedRuntimeJob := match fst claimed with Ok l => l | Err _ => [] end.
Definition q2 : QStore := snd claimed.
Definition snoozed : result AwaError (option JobRow * QStore) := snooze (at_second 2) 1 1 (60 * us_per_sec) None None q2.
Definition q3 : QStore := match snoozed with Ok (_, q) => q | Err _ => q2 end.

Definition reaches : list ClaimedRuntimeJob * QStore -> Prop := reachable no_hash 1 id (fun _ => []) None.
Lemma enqueued : enqueue q0 = Ok (2%nat, q1).
Proof. vm_compute. reflexivity. Qed.
Lemma claimed_two : map cj_attempt out = [(1, 1); (2, 1)].
Proof. vm_compute. reflexivity. Qed.
Lemma reaches_claimed : reaches (out, q2).
Proof.
  exists (0, 0). eapply rtc_l; [eapply StepEnqueue, enqueued|]. eapply rtc_l; [|apply rtc_refl].
  apply (StepClaimed _ _ _ _ _ [] (claim_at 1) (fun _ => false) "mail" q1 (fst claimed) q2). apply surjective_pairing.
Qed.
Lemma no_leases : leases q2 = [].
Proof. vm_compute. reflexivity. Qed.
Lemma reaches_empty : reaches ([], q0).
Proof. exists (0, 0). apply rtc_refl. Qed.
Definition error : AttemptError := {| ae_message := "boom"; ae_output := None |}.
End StoreDemo.

Lemma job_in_one_place_witness :
  map fst (places StoreDemo.q2) = [1; 2] /\ NoDup (map fst (places StoreDemo.q2)).
Proof.
  split; [vm_compute; reflexivity|].
  exact (job_in_one_place StoreDemo.no_hash 1 id (fun _ => []) None StoreDemo.out StoreDemo.q2 StoreDemo.reaches_claimed).
Defined.


(** A retry, then a late failure. *)
Lemma attempt_ends_once_witness :
  ((1, 1) ∉ running_places StoreDemo.q3)
  /\ exists r q4, fail_terminal (StoreDemo.at_second 3) 1 1 StoreDemo.error None None StoreDemo.q3 = Ok (r, q4)
     /\ (1, 1) ∉ reported (1, 1) r.
Proof.
  destruct StoreDemo.snoozed as [[[j|] q]|e] eqn:Hs; try (exfalso; vm_compute in Hs; discriminate Hs).
  assert (StoreDemo.q3 = q) as Eq by (unfold StoreDemo.q3; by rewrite Hs).
  destruct (attempt_ends_once StoreDemo.no_hash 1 id (fun _ => []) None StoreDemo.out StoreDemo.q2 StoreDemo.out StoreDemo.q3
              StoreDemo.out StoreDemo.q3 (1, 1)) as [Hn Hy].
  - exact StoreDemo.reaches_claimed.
  - rewrite Eq. eapply StepFinish, FinishSnooze. exact Hs.
  - left. exists (reported (1, 1) (Some j)). split; [|left]. rewrite Eq. eapply FinishSnooze. exact Hs.
  - apply rtc_refl.
  - split; [exact Hn|].
    destruct (fail_terminal (StoreDemo.at_second 3) 1 1 StoreDemo.error None None StoreDemo.q3) as [[r q4]|e] eqn:H;
      [|exfalso; vm_compute in H; discriminate H].
    exists r, q4. split; [reflexivity|]. apply (Hy (reported (1, 1) r) q4). eapply FinishTerminal. exact H.
Defined.

Lemma running_attempt_taken_witness :
  exists x m q' r, x ∈ running StoreDemo.q2
    /\ take_running_attempt_tx (ci_job_id (snd x)) (ci_run_lease (snd x)) "failed" None StoreDemo.q2 = Ok (Some m, q')
    /\ r ∈ ready_rows StoreDemo.q2 /\ gives x r m.
Proof.
  destruct (running StoreDemo.q2) as [|x xs] eqn:E; [exfalso; vm_compute in E; discriminate E|]. exists x.
  assert (x ∈ running StoreDemo.q2) as Hx by (rewrite E; left).
  destruct (running_attempt_taken StoreDemo.no_hash 1 id (fun _ => []) None StoreDemo.out StoreDemo.q2 x "failed"
              StoreDemo.reaches_claimed Hx) as (m & q' & r & H).
  - intros l Hl. rewrite StoreDemo.no_leases in Hl. exfalso. exact (proj1 (elem_of_nil l) Hl).
  - exists m, q', r. rewrite E in Hx. split; [exact Hx|exact H].
Defined.
