(* ===== verification/Stripes.v ===== *)
(** Claims over the stripes of a logical queue
    ([claim_runtime_batch_with_aging], awa-model/src/queue_storage.rs): what a
    call hands out, and the jobs it cannot see. *)

From stdpp Require Import relations pretty.
From S2P Require Import Prelude.
From S2P Require Import Error.
From S2P Require Import F64.
From S2P Require Import Json.
From S2P Require Import Job.
From S2P Require Import Routing.
From S2P Require Import Rows.
From S2P Require Import Lanes.
From S2P Require Import LanesFacts.
From S2P Require Import Enqueue.
From S2P Require Import LaneGuarantees.
From S2P Require Import AtomicLanes.
From S2P Require Import QueueStore.
From S2P Require Import Completion.
From S2P Require Import QueueOps.
From S2P Require Import StoreFacts.
From S2P Require Import ClaimFacts.
From S2P Require Import Canonical.
From S2P Require Import SqlInsert.
From S2P Require Import StoreGuarantees.

(** * Names *)

Lemma stripe_not_logical n queue s :
  uses_queue_striping n = true -> is_physical_stripe_queue n queue = false -> s ∈ physical_queues_for_logical n queue -> s <> queue.
Proof.
  unfold physical_queues_for_logical. intros -> -> (i & -> & _)%list_elem_of_fmap. simpl. unfold physical_queue_for_stripe. intros E.
  revert E. induction queue as [|a queue IH]; [done|]. by intros [= E%IH].
Qed.
Lemma rotate_from_perm {A} k (l : list A) : rotate_from k l ≡ₚ l.
Proof. unfold rotate_from. rewrite Permutation_app_comm. by rewrite take_drop. Qed.

(** * One call on one stripe *)

Lemma all_ok_length {A B} (f : A -> result AwaError B) l ys : all_ok f l = Ok ys -> length ys = length l.
Proof.
  revert ys. induction l as [|x l IH]; simpl; intros ys; [by intros [= <-]|].
  intros (y & _ & (zs & H%IH & [= <-])%rbind_Ok)%rbind_Ok. simpl. by rewrite H.
Qed.

(** No more than asked. *)
Lemma claim_runtime_bound env locked queue q l q' :
  claim_runtime_batch env locked queue q = (Ok l, q') -> Z.of_nat (length l) <= Z.max (p_max_batch env) 0.
Proof.
  unfold claim_runtime_batch. destruct (p_max_batch env <=? 0) eqn:Hm; [intros [= <- _]; simpl; lia|].
  unfold claim_ready_runtime. destruct (route env locked queue (lanes q)) as [[lane|]|e]; [|by intros [= <- _]; simpl; lia|done].
  destruct (claim_ready_lane _ _ _ _ _ _ _) as [n r] eqn:Hl. destruct r as [[c|]|e]; [|by intros [= <- _]; simpl; lia|done].
  destruct (claim_lane_slot _ _ _ _ _ _ _ _ _ Hl ltac:(done)) as (ring & cursor & k & Hk & E). symmetry in E.
  destruct (claim_slot_rows _ _ _ _ _ _ _ _ E) as (rows & Hrows & _ & _ & _ & Hc).
  destruct (sync_each _ _ _) as [m|e]; [|done]. intros [= H _]. apply all_ok_length in H. rewrite H, Hc, length_map.
  unfold with_receipts. rewrite length_imap, <- (length_map fst rows), Hrows. unfold live_rows.
  pose proof (List.filter_length_le (fun r => negb (tombstoned (tables (lanes q)) r)) (take k (rows_from (tables (lanes q)) lane ring cursor))).
  rewrite length_take in *. lia.
Qed.

Section Striped.
Context (hash : list Z -> Z) (stripe_count : nat) (blake3 : list Z -> list Z) (to_vec : json -> list Z) (ambient : option string).
Abbreviation run := (rtc (step hash stripe_count blake3 to_vec ambient)).
Abbreviation handed_by r := (match r with Ok l => l | Err _ => [] end).

Lemma claim_stripes_run max_batch calls claimed out q r q' :
  claim_stripes max_batch calls claimed q = (r, q') ->
  run (out ++ claimed, q) (out ++ handed_by r, q')
  /\ (Z.of_nat (length claimed) <= Z.max max_batch 0 -> Z.of_nat (length (handed_by r)) <= Z.max max_batch 0).
Proof.
  revert claimed q. induction calls as [|[[env locked] s] calls IH]; intros claimed q; simpl; [intros [= <- <-]; split; [apply rtc_refl|done]|].
  destruct (_ <=? 0) eqn:Hm; [intros [= <- <-]; split; [apply rtc_refl|done]|].
  destruct (claim_runtime_batch _ locked s q) as [res q1] eqn:Hc. intros H.
  assert (run (out ++ claimed, q) ((out ++ claimed) ++ handed_by res, q1)) as Hrun by by eapply rtc_once, StepClaimed.
  destruct res as [l|e].
  - rewrite <- app_assoc in Hrun. destruct (IH _ _ H) as [H1 H2]. split; [by etrans|]. intros _. apply H2.
    pose proof (claim_runtime_bound _ _ _ _ _ _ Hc) as Hb. cbn [with_max_batch p_max_batch] in Hb. rewrite length_app. lia.
  - injection H as <- <-. rewrite app_nil_r in Hrun. by destruct claimed.
Qed.

(** A job of another queue stays ready. *)
Lemma claim_stripes_skip D E max_batch calls claimed q r q' x :
  claim_stripes max_batch calls claimed q = (r, q') -> sinv D E q -> x ∈ live (lanes q) ->
  (forall c, c ∈ calls -> snd c <> c_queue (rt_columns x)) -> sinv D E q' /\ x ∈ live (lanes q').
Proof.
  intros H Hs Hx Hq. revert claimed q H Hs Hx. induction calls as [|[[env locked] s] calls IH]; intros claimed q; simpl; [by intros [= <- <-]|].
  destruct (_ <=? 0); [by intros [= <- <-]|]. destruct (claim_runtime_batch _ locked s q) as [res q1] eqn:Hc. intros H Hs Hx.
  assert (sinv D E q1) as Hs1 by apply (claim_runtime_ok D E _ _ _ _ _ _ Hc Hs).
  assert (x ∈ live (lanes q1)) as Hx1.
  { eapply claim_other_queue; [exact Hc|done|done|]. intros E1. by apply (Hq (env, locked, s)); [left|]. }
  destruct res as [l|e]; [|by injection H as <- <-]. eapply IH; eauto. intros c Hin. apply Hq. by right.
Qed.

(** A claim of a logical queue is a run of claims of single stripes: what it
    returns is what they handed out, none is lost to a stripe that errs after
    others gave jobs, and it returns no more jobs than were asked for. *)
Theorem striped_claim_runs probe at_stripe max_batch queue out q r q' :
  claim_runtime_batch_with_aging stripe_count probe at_stripe max_batch queue q = (r, q') ->
  run (out, q) (out ++ handed_by r, q') /\ Z.of_nat (length (handed_by r)) <= Z.max max_batch 0.
Proof.
  unfold claim_runtime_batch_with_aging. destruct (max_batch <=? 0) eqn:Hm; [intros [= <- <-]; rewrite app_nil_r; split; [apply rtc_refl|simpl; lia]|].
  cbv zeta. destruct (1 <? _)%nat; intros H.
  - apply (claim_stripes_run _ _ _ out) in H as [H1 H2]. rewrite app_nil_r in H1. split; [done|]. apply H2. simpl. lia.
  - split; [by eapply rtc_once, StepClaimed|]. destruct r; [|simpl; lia]. by apply claim_runtime_bound in H.
Qed.

Lemma striped_claim_skips D E probe at_stripe max_batch queue q r q' x :
  uses_queue_striping stripe_count = true -> is_physical_stripe_queue stripe_count queue = false ->
  claim_runtime_batch_with_aging stripe_count probe at_stripe max_batch queue q = (r, q') -> sinv D E q ->
  x ∈ live (lanes q) -> c_queue (rt_columns x) = queue -> sinv D E q' /\ x ∈ live (lanes q').
Proof.
  intros Hu Hp H Hs Hx Hq. unfold claim_runtime_batch_with_aging in H. destruct (max_batch <=? 0); [by injection H as <- <-|].
  cbv zeta in H. assert ((1 <? length (physical_queues_for_logical stripe_count queue))%nat = true) as Hlen.
  { unfold physical_queues_for_logical. rewrite Hu, Hp. simpl. rewrite length_map, length_seq. done. }
  rewrite Hlen in H. eapply (claim_stripes_skip D E); [exact H|exact Hs|exact Hx|]. intros c (s & -> & Hin)%list_elem_of_fmap. simpl. rewrite Hq.
  apply (stripe_not_logical stripe_count); [exact Hu|exact Hp|]. by rewrite rotate_from_perm in Hin.
Qed.

(** A claim of the logical queue, whenever and by whoever. *)
Definition claims_of (queue : string) (q q' : QStore) : Prop :=
  exists probe at_stripe max_batch r, claim_runtime_batch_with_aging stripe_count probe at_stripe max_batch queue q = (r, q').

Lemma compat_ready D pid env p q row q' :
  insert_job_compat_queue pid env p q = Ok (row, q') -> sinv D [] q -> pi_state p = Available ->
  exists x, x ∈ live (lanes q') /\ rt_columns x = compat_columns env (j_id row) p.
Proof.
  unfold insert_job_compat_queue. destruct (negb (insert_valid p)); [done|]. intros H Hs Hst. rewrite Hst in H. cbv zeta in H.
  apply rbind_Ok in H as (q1 & H1%claim_new_key_view & [= <- <-]). set (c := compat_columns env (job_id_seq q) p).
  set (grouped := [(compat_lane pid env p, [c])]). unfold place_ready.
  assert (lanes q1 = lanes q) as El by exact (f_equal (fun v => v.1.1.1) H1). rewrite El.
  pose proof (insert_grouped_columns grouped (lanes q)) as Hcols. destruct (insert_grouped_rows grouped (lanes q)) as [t s] eqn:Hins.
  assert (grouped_ok grouped) as Hok by (intros lane cs c' [= -> ->]%list_elem_of_singleton ->%list_elem_of_singleton; done).
  destruct (calm_insert _ _ _ _ Hok Hins (lg_calm _ _ (si_ledger _ _ _ Hs))) as (_ & Hlive & _). cbn [lanes set_lanes].
  rewrite Hlive. simpl in Hcols. destruct (ready_entries t) as [|x l]; [done|]. injection Hcols as Hx _.
  exists x. split; [apply elem_of_app; right; by left|done].
Qed.

(** With stripes, a job inserted through [awa.insert_job_compat] is never
    claimed: the function puts it on the lane of the logical queue's own name,
    and the claims of that queue look at its stripes only.  After any number of
    them it is ready still, at its first run lease. *)
Theorem sql_insert_misses_stripes pid env p out q row q1 q2 :
  reachable hash stripe_count blake3 to_vec ambient (out, q) ->
  uses_queue_striping stripe_count = true -> is_physical_stripe_queue stripe_count (pi_queue p) = false ->
  pi_state p = Available -> insert_job_compat_queue pid env p q = Ok (row, q1) ->
  rtc (claims_of (pi_queue p)) q1 q2 -> (j_id row, 0) ∈ ready_places q2.
Proof.
  intros (D & [Hs _])%reachable_ok Hu Hp Hst Hi Hrun. destruct (compat_ready D _ _ _ _ _ _ Hi Hs Hst) as (x & Hx & Hc).
  assert (sinv D [] q1) as Hs1 by apply (compat_adds _ D [] _ _ _ _ _ Hi Hs).
  assert (x ∈ live (lanes q2)) as Hx2.
  { clear Hi Hs. induction Hrun as [|q1 q3 q2 (probe & at_stripe & n & r & H) _ IH]; [done|].
    destruct (striped_claim_skips D [] _ _ _ _ _ _ _ x Hu Hp H Hs1 Hx) as [? ?]; [by rewrite Hc|auto]. }
  apply list_elem_of_fmap. exists x. split; [|done]. by rewrite Hc.
Qed.
End Striped.

(** * Four stripes *)

Module StripeDemo.
Import StoreDemo.
Definition four : list ClaimedRuntimeJob * QStore -> Prop := reachable no_hash 4 Datatypes.id (fun _ => []) None.
Lemma four_empty : four ([], q0).
Proof. exists (0, 0). apply rtc_refl. Qed.
Definition at_stripe (_ : string) : ClaimEnv * (LaneKey -> bool) := (claim_at 1, fun _ => false).
Definition prepared : PreparedJobInsert := match prepare_raw_job_insert Datatypes.id (fun _ => []) None "send" (JObject []) opts with
                                           | Ok p => p
                                           | Err _ => Build_PreparedJobInsert EmptyString EmptyString JNull Available 0 0 None JNull [] None None None
                                           end.
Definition inserted : result AwaError (JobRow * QStore) := insert_job_compat_queue 7 (at_second 0) prepared q0.
Definition spread : QStore :=
  match enqueue_params_batch no_hash 4 Datatypes.id (fun _ => []) None (at_second 0) jobs q0 with Ok (_, q) => q | Err _ => q0 end.

Lemma striped_claim_runs_witness :
  let '(r, q') := claim_runtime_batch_with_aging 4 6 at_stripe 1 "mail" spread in
  rtc (step no_hash 4 Datatypes.id (fun _ => []) None) ([], spread) ([] ++ match r with Ok l => l | Err _ => [] end, q')
  /\ match r with Ok l => map cj_attempt l | Err _ => [] end = [(1, 1)].
Proof.
  destruct (claim_runtime_batch_with_aging 4 6 at_stripe 1 "mail" spread) as [r q'] eqn:H.
  split; [by apply (striped_claim_runs no_hash 4 Datatypes.id (fun _ => []) None 6 at_stripe 1 "mail" [] spread r q' H)|].
  replace r with (fst (claim_runtime_batch_with_aging 4 6 at_stripe 1 "mail" spread)) by by rewrite H. clear H. vm_compute. reflexivity.
Defined.
Lemma sql_insert_misses_stripes_witness :
  exists row q, inserted = Ok (row, q) /\ (j_id row, 0) ∈ ready_places (snd (claim_runtime_batch_with_aging 4 0 at_stripe 10 "mail" q)).
Proof.
  destruct inserted as [[row q]|e] eqn:H; [|vm_compute in H; discriminate H]. exists row, q. split; [reflexivity|].
  apply (sql_insert_misses_stripes no_hash 4 Datatypes.id (fun _ => []) None 7 (at_second 0) prepared [] q0 row q
           _ four_empty eq_refl eq_refl eq_refl H).
  apply rtc_once. exists 0%nat, at_stripe, 10, (fst (claim_runtime_batch_with_aging 4 0 at_stripe 10 "mail" q)). apply surjective_pairing.
Defined.
End StripeDemo.
