(* ===== verification/StoreEdges.v ===== *)
(** Runs of queue storage whose end is not what the operation's caller was told
    to expect: jobs whose priority aged before their claim, jobs with a
    materialized lease, jobs with a unique key.  Each run starts from an empty
    storage and is computed. *)

From stdpp Require Import relations.
From S2P Require Import Prelude.
From S2P Require Import Error.
From S2P Require Import F64.
From S2P Require Import Json.
From S2P Require Import Job.
From S2P Require Import Routing.
From S2P Require Import Rows.
From S2P Require Import Lanes.
From S2P Require Import QueueStore.
From S2P Require Import Attempts.
From S2P Require Import Callbacks.
From S2P Require Import AttemptRescue.
From S2P Require Import Completion.
From S2P Require Import StoreAdmin.
From S2P Require Import QueueOps.
From S2P Require Import StoreFacts.
From S2P Require Import AttemptFacts.
From S2P Require Import OperationFacts.
From S2P Require Import ClaimFacts.
From S2P Require Import StoreGuarantees.
Import StoreDemo.

(** * One job, claimed *)

Definition options (priority max_attempts : Z) (metadata : json) (unique : option UniqueOpts) : InsertOpts :=
  {| o_queue := "mail"; o_priority := priority; o_max_attempts := max_attempts; o_run_at := None; o_deadline_duration := None;
     o_metadata := metadata; o_tags := []; o_unique := unique; o_ordering_key := None |}.
Definition args : json := JObject [("to", JString "a")].
Definition submit (o : InsertOpts) (t : Z) (q : QStore) : result AwaError (nat * QStore) :=
  enqueue_params_batch no_hash 1 id (fun _ => []) None (at_second t) [("send", args, o)] q.
(** Enqueued at 0, claimed at [t]. *)
Definition claimed_at (t : Z) (o : InsertOpts) : result AwaError (list ClaimedRuntimeJob * QStore) :=
  let? (_, q) := submit o 0 q0 in
  let '(r, q) := claim_runtime_batch (claim_at t) (fun _ => false) "mail" q in
  let? out := r in Ok (out, q).

Lemma claimed_reaches t o out q : claimed_at t o = Ok (out, q) -> reaches (out, q).
Proof.
  unfold claimed_at. intros ([n q1] & H1 & H)%rbind_Ok. destruct (claim_runtime_batch _ _ _ q1) as [r q2] eqn:H2.
  apply rbind_Ok in H as (l & -> & [= <- <-]). exists (0, 0). eapply rtc_l; [exact (StepEnqueue no_hash 1 id (fun _ => []) None [] _ _ _ _ _ H1)|]. apply rtc_once.
  exact (StepClaimed no_hash 1 id (fun _ => []) None [] _ _ _ _ _ _ H2).
Qed.
(** A step of a run by one of its operations. *)
Lemma reaches_move out q q' : reaches (out, q) -> move_step q false q' -> reaches (out, q').
Proof. intros (ring & H) Hm. exists ring. eapply rtc_r; [exact H|]. by apply StepMove. Qed.

(** The lane of a claim ages by one priority per minute waited, the job of it
    keeps its own. *)
Definition aged_options : InsertOpts := options 4 7 (JObject []) (Some default_unique_opts).
Definition aged : result AwaError (list ClaimedRuntimeJob * QStore) := claimed_at 300 aged_options.
(** The worker registered a callback and thought better of it: the attempt now
    has a lease. *)
Definition materialize (q : QStore) : result AwaError QStore :=
  let? q := register_callback (at_second 301) 1 1 77 us_per_sec q in Ok (snd (cancel_callback 1 1 q)).

Definition rescue_at (t : Z) : QStore -> result AwaError (list JobRow * QStore) :=
  rescue_stale_heartbeats (fun _ => true) (fun _ => true) (at_second t) (90 * us_per_sec) (fun _ => false).

Lemma materialize_reaches out q q' : reaches (out, q) -> leases q = [] -> materialize q = Ok q' -> reaches (out, q').
Proof.
  unfold materialize. intros H Hl (q1 & H1 & [= <-])%rbind_Ok. eapply reaches_move; [eapply reaches_move; [exact H|]|].
  - eapply MoveRegister; [|exact H1]. unfold fresh_callback. rewrite Hl. by intros l ?%elem_of_nil.
  - eapply MoveCancelCallback. apply surjective_pairing.
Qed.

Definition result_or {A} (d : A) (r : result AwaError A) : A := match r with Ok a => a | Err _ => d end.

(** * Rescue *)

Definition stale (max_attempts : Z) : list ClaimedRuntimeJob * QStore :=
  result_or ([], q0) (claimed_at 1 (options 2 max_attempts (JObject []) None)).
Definition stale_lease (max_attempts : Z) : QStore := result_or q0 (materialize (snd (stale max_attempts))).
Lemma stale_lease_reaches n : n = 25 \/ n = 1 -> reaches (fst (stale n), stale_lease n).
Proof.
  intros Hn. apply (materialize_reaches _ (snd (stale n))).
  - apply (claimed_reaches 1 (options 2 n (JObject []) None)). destruct Hn as [-> | ->]; vm_compute; reflexivity.
  - destruct Hn as [-> | ->]; vm_compute; reflexivity.
  - destruct Hn as [-> | ->]; vm_compute; reflexivity.
Qed.

(** C31. A stale attempt with a lease is settled twice by one rescue.  The rescue
    deletes the lease, scans the receipts, which now show an attempt without a
    lease, and settles both: a job of a run that is in one place is deferred for
    its retry and terminal as a duplicate of itself after it.  On its last
    attempt the two terminal rows collide instead, and the rescue fails. *)
Theorem stale_lease_settled_twice :
  (reaches (fst (stale 25), stale_lease 25) /\ places (stale_lease 25) = [(1, 1)]
   /\ exists js q', rescue_at 1000 (stale_lease 25) = Ok (js, q') /\ map j_state js = [Retryable; Cancelled]
        /\ deferred_places q' = [(1, 1)] /\ done_places q' = [(1, 1)])
  /\ (reaches (fst (stale 1), stale_lease 1) /\ rescue_at 1000 (stale_lease 1) = Err (UniqueConflict None)).
Proof.
  split; split; [apply stale_lease_reaches; by left| |apply stale_lease_reaches; by right|vm_compute; reflexivity].
  split; [vm_compute; reflexivity|].
  exists (fst (result_or ([], q0) (rescue_at 1000 (stale_lease 25)))), (snd (result_or ([], q0) (rescue_at 1000 (stale_lease 25)))).
  split_and!; vm_compute; reflexivity.
Qed.

(** A heartbeat 10 seconds before the rescue, and a callback registered again
    since. *)
Definition beaten : QStore := heartbeat_batch (at_second 1000) [(1, 1)] (stale_lease 25).
Definition registered_again : QStore := result_or q0 (register_callback (at_second 1005) 1 1 78 us_per_sec beaten).

(** Registering a callback forgets the heartbeat.  A rescue leaves an
    attempt alone that beat ten seconds ago; when the worker registers a callback
    in between, which deletes the attempt's row with its heartbeat, the same
    rescue takes the attempt for stale. *)
Theorem registration_forgets_heartbeat :
  (exists q', rescue_at 1010 beaten = Ok ([], q'))
  /\ register_callback (at_second 1005) 1 1 78 us_per_sec beaten = Ok registered_again
  /\ (exists js q', rescue_at 1010 registered_again = Ok (js, q') /\ map j_id js = [1; 1]).
Proof.
  split_and!.
  - exists (snd (result_or ([], q0) (rescue_at 1010 beaten))). vm_compute. reflexivity.
  - vm_compute. reflexivity.
  - exists (fst (result_or ([], q0) (rescue_at 1010 registered_again))), (snd (result_or ([], q0) (rescue_at 1010 registered_again))).
    split; vm_compute; reflexivity.
Qed.

(** * Metadata that is not an object *)

(** One job whose metadata is not an object stops the rescue of all: it is
    accepted and claimed, no worker is handed it or what was claimed with it,
    since the rows cannot be read, and every rescue that reaches it fails. *)
Theorem metadata_poisons_rescue :
  exists q1 q2, submit (options 2 25 (JArray []) None) 0 q1 = Ok (1%nat, q2)
    /\ fst (claim_runtime_batch (claim_at 1) (fun _ => false) "mail" q2) = Err METADATA_MUST_BE_OBJECT
    /\ map snd (running_places (snd (claim_runtime_batch (claim_at 1) (fun _ => false) "mail" q2))) = [1; 1]
    /\ rescue_at 1000 (snd (claim_runtime_batch (claim_at 1) (fun _ => false) "mail" q2)) = Err METADATA_MUST_BE_OBJECT.
Proof.
  exists (snd (result_or (0%nat, q0) (submit (options 2 25 (JObject []) None) 0 q0))).
  eexists. split; [vm_compute; reflexivity|]. split_and!; vm_compute; reflexivity.
Qed.

(** * Aged priorities *)

Definition aged_out : list ClaimedRuntimeJob := fst (result_or ([], q0) aged).
Definition aged_q : QStore := snd (result_or ([], q0) aged).
Definition aged_lease : QStore := result_or q0 (materialize aged_q).
Lemma aged_reaches : reaches (aged_out, aged_q).
Proof. apply (claimed_reaches 300 aged_options). vm_compute. reflexivity. Qed.
Lemma aged_lease_reaches : reaches (aged_out, aged_lease).
Proof. apply (materialize_reaches _ aged_q); [apply aged_reaches|vm_compute; reflexivity|vm_compute; reflexivity]. Qed.

(** The completion of an aged job that has a lease is lost: the worker's
    claim names the lane's priority and the lease the aged one, so the completion
    matches nothing, reports nothing and leaves the attempt running. *)
Theorem aged_completion_lost :
  reaches (aged_out, aged_lease) /\ running_places aged_lease = [(1, 1)] /\ map cj_attempt aged_out = [(1, 1)]
  /\ fst (complete_runtime_batch (at_second 302) aged_out aged_lease) = Ok []
  /\ running_places (snd (complete_runtime_batch (at_second 302) aged_out aged_lease)) = [(1, 1)].
Proof. split; [apply aged_lease_reaches|]. split_and!; vm_compute; reflexivity. Qed.

Definition aged_failed : QStore :=
  snd (result_or (None, q0) (fail_terminal (at_second 301) 1 1 error None (cj_claim <$> head aged_out) aged_q)).
(** C30. An aged job that failed has lost its arguments.  In a run, a job of
    priority 4 with arguments, a unique key and seven attempts waits until it is
    claimed at an aged priority.  The terminal row of its failure, which returns
    the job with all of these, is stored under the aged priority; the join with
    the ready row, stored under 4, finds nothing, and a retry of the job runs it
    with no arguments, no unique key and the default of 25 attempts. *)
Theorem aged_failure_loses_arguments :
  reaches (aged_out, aged_q)
  /\ map (fun r => j_priority (cj_job r)) aged_out = [1] /\ map (fun r => c_priority (rt_columns r)) (ready_rows aged_q) = [4]
  /\ (exists r, fail_terminal (at_second 301) 1 1 error None (cj_claim <$> head aged_out) aged_q = Ok (Some r, aged_failed)
        /\ j_args r = args /\ is_Some (j_unique_key r) /\ j_max_attempts r = 7)
  /\ map (fun kd => snd (fst (fst (fst kd)))) (map_to_list (done_entries aged_failed)) = [1]
  /\ (exists r q', retry_job_tx (at_second 302) 1 aged_failed = Ok (Some r, q')
        /\ j_args r = JObject [] /\ j_unique_key r = None /\ j_max_attempts r = 25).
Proof.
  split; [apply aged_reaches|]. split_and!; try (vm_compute; reflexivity).
  - eexists. split; [vm_compute; reflexivity|]. split_and!; [reflexivity|by eexists|reflexivity].
  - eexists _, _. split; [vm_compute; reflexivity|]. split_and!; reflexivity.
Qed.

(** Two jobs of a queue on their only attempt, the first in their lanes, and
    claimed when the waiting one has aged to the other's priority. *)
Definition two_lanes : QStore :=
  snd (result_or (0%nat, q0) (let? (_, q) := submit (options 2 1 (JObject []) None) 0 q0 in submit (options 1 1 (JObject []) None) 0 q)).
Definition first_lane : result AwaError (list ClaimedRuntimeJob) * QStore := claim_runtime_batch (claim_at 90) (fun _ => false) "mail" two_lanes.
Definition both_lanes : result AwaError (list ClaimedRuntimeJob) * QStore :=
  claim_runtime_batch (claim_at 90) (fun _ => false) "mail" (snd first_lane).
Definition handed_by (r : result AwaError (list ClaimedRuntimeJob)) : list ClaimedRuntimeJob := match r with Ok l => l | Err _ => [] end.
Definition claimed_both : list ClaimedRuntimeJob := ([] ++ handed_by (fst first_lane)) ++ handed_by (fst both_lanes).
Definition fails (j : Z) (q : QStore) : result AwaError (option JobRow * QStore) :=
  fail_terminal (at_second 91) j 1 error None (cj_claim <$> List.find (fun e => j_id (cj_job e) =? j) claimed_both) q.
Definition failed_first (j : Z) : QStore := snd (result_or (None, q0) (fails j (snd both_lanes))).
Lemma reaches_submit out o t q n q' : reaches (out, q) -> submit o t q = Ok (n, q') -> reaches (out, q').
Proof. intros (ring & H) Hs. exists ring. eapply rtc_r; [exact H|]. exact (StepEnqueue no_hash 1 id (fun _ => []) None out _ _ _ _ _ Hs). Qed.
Lemma reaches_claim out env locked queue q r q' :
  reaches (out, q) -> claim_runtime_batch env locked queue q = (r, q') -> reaches (out ++ handed_by r, q').
Proof. intros (ring & H) Hc. exists ring. eapply rtc_r; [exact H|]. by eapply StepClaimed. Qed.
Definition one_lane : QStore := snd (result_or (0%nat, q0) (submit (options 2 1 (JObject []) None) 0 q0)).
Lemma both_reach : reaches (claimed_both, snd both_lanes).
Proof.
  unfold claimed_both.
  apply (reaches_claim ([] ++ handed_by (fst first_lane)) (claim_at 90) (fun _ => false) "mail" (snd first_lane) (fst both_lanes) (snd both_lanes));
    [|vm_compute; reflexivity].
  apply (reaches_claim [] (claim_at 90) (fun _ => false) "mail" two_lanes (fst first_lane) (snd first_lane)); [|vm_compute; reflexivity].
  apply (reaches_submit _ (options 1 1 (JObject []) None) 0 one_lane 1); [|vm_compute; reflexivity].
  apply (reaches_submit _ (options 2 1 (JObject []) None) 0 q0 1); [apply reaches_empty|vm_compute; reflexivity].
Qed.

(** Terminal rows of two jobs can collide.  They are keyed by the priority an
    attempt was claimed at, aged or not, together with a number that counts
    within the lane of the stored priority; of two jobs first in their lanes,
    one aged to the priority of the other, only one can fail, whichever does so
    first.  When both die with their worker, the rescue that finds them on their
    last attempt fails, and with it the rescue of every other attempt. *)
Theorem aged_failures_collide :
  reaches (claimed_both, snd both_lanes) /\ map cj_attempt claimed_both = [(2, 1); (1, 1)]
  /\ ((exists r, fails 1 (snd both_lanes) = Ok (r, failed_first 1)) /\ done_places (failed_first 1) = [(1, 1)]
      /\ fails 2 (failed_first 1) = Err PKEY_VIOLATION)
  /\ ((exists r, fails 2 (snd both_lanes) = Ok (r, failed_first 2)) /\ done_places (failed_first 2) = [(2, 1)]
      /\ fails 1 (failed_first 2) = Err PKEY_VIOLATION)
  /\ rescue_at 1000 (snd both_lanes) = Err PKEY_VIOLATION.
Proof.
  split; [apply both_reach|]. split; [vm_compute; reflexivity|].
  assert (forall j, j = 1 \/ j = 2 -> exists r, fails j (snd both_lanes) = Ok (r, failed_first j)) as Hf.
  { intros j Hj. exists (fst (result_or (None, q0) (fails j (snd both_lanes)))). destruct Hj as [-> | ->]; vm_compute; reflexivity. }
  split_and!; first [apply Hf; by left|apply Hf; by right|vm_compute; reflexivity].
Qed.

(** * Unique keys *)

Definition keyed : InsertOpts := options 2 25 (JObject []) (Some default_unique_opts).
Definition keyed_q : list ClaimedRuntimeJob * QStore := result_or ([], q0) (claimed_at 1 keyed).
Definition parked : QStore := snd (enter_callback_wait 1 1 77 (result_or q0 (register_callback (at_second 2) 1 1 77 us_per_sec (snd keyed_q)))).
Definition parked_failed : QStore := snd (result_or (None, q0) (let? (r, q) := fail_external (at_second 3) 77 JNull None parked in Ok (Some r, q))).
Definition completed_q : QStore := snd (complete_runtime_batch (at_second 2) (fst keyed_q) (snd keyed_q)).
Definition pruned_q : QStore := snd (result_or (Noop, q0) (prune_oldest (at_second 9) 4 0 (rotate_queue 1 completed_q))).

(** A job that asks for a key. *)
Definition asks_for blake3 to_vec ambient (key : list Z) (job : string * json * InsertOpts) : Prop :=
  let '(kind, args, opts) := job in
  exists p, prepare_raw_job_insert blake3 to_vec ambient kind args opts = Ok p /\ pi_unique_key p = Some key
    /\ unique_state_claims (pi_unique_states p) (pi_state p) = true.

Lemma prepare_rows_asks hash stripe_count blake3 to_vec ambient env key jobs idx ready deferred :
  prepare_rows hash stripe_count blake3 to_vec ambient env idx jobs = Ok (ready, deferred) ->
  Exists (asks_for blake3 to_vec ambient key) jobs ->
  Exists (fun cs => c_unique_key (fst cs) = Some key /\ unique_state_claims (c_unique_states (fst cs)) (snd cs) = true)
    (map (fun r => (rr_columns r, Available)) ready ++ map (fun r => (df_columns r, df_state r)) deferred).
Proof.
  revert idx ready deferred. induction jobs as [|[[kind args] opts] jobs IH]; intros idx ready deferred; simpl; [by intros _ ?%Exists_nil|].
  intros (p & Hp & (row & Hrow & ([rs ds] & Hrest & [= E])%rbind_Ok)%rbind_Ok)%rbind_Ok [(p' & Hp' & Hk & Hu)|H]%Exists_cons.
  - rewrite Hp in Hp'. injection Hp' as <-. rewrite Exists_app.
    destruct (pi_state p); try done; injection Hrow as <-; injection E as <- <-; [right|left]; apply Exists_cons; by left.
  - pose proof (IH _ _ _ Hrest H) as Hx. rewrite Exists_app in Hx.
    destruct row as [r|d]; injection E as <- <-; simpl; rewrite ?Exists_cons, ?Exists_app, ?Exists_cons; tauto.
Qed.
(** A key another job has makes every batch with it fail. *)
Lemma take_keys_held l m key owner :
  m !! key = Some owner -> Exists (fun kj => fst kj = key /\ snd kj <> owner) l -> exists e, take_keys l m = Err e.
Proof.
  intros Hm Hl. revert m Hm. induction l as [|[k j] l IH]; intros m Hm; [by apply Exists_nil in Hl|]. simpl.
  destruct (take_key j k m) as [m'|e] eqn:H; [|by exists e]. cbn [rbind]. unfold take_key in H.
  apply Exists_cons in Hl as [[Hk Hj]|Hl]; simpl in *.
  - subst k. rewrite Hm in H. case_match; [|done]. by apply Z.eqb_eq in H0.
  - apply IH; [done|]. destruct (m !! k) as [o|] eqn:Hk; [case_match; by simplify_eq|]. injection H as <-.
    rewrite lookup_insert_ne; [done|]. congruence.
Qed.
(** The ids a batch draws are new. *)
Lemma claims_with_ids (ready : list RuntimeReadyRow) (deferred : list DeferredJobRow) ids key owner :
  length ids = (length ready + length deferred)%nat -> owner ∉ ids ->
  Exists (fun cs => c_unique_key (fst cs) = Some key /\ unique_state_claims (c_unique_states (fst cs)) (snd cs) = true)
    (map (fun r => (rr_columns r, Available)) ready ++ map (fun r => (df_columns r, df_state r)) deferred) ->
  Exists (fun kj => fst kj = key /\ snd kj <> owner)
    (batch_enqueue_unique_claims (zip_with with_ready_id ready (take (length ready) ids))
       (zip_with with_deferred_id deferred (drop (length ready) ids))).
Proof.
  intros Hlen Ho. rewrite Exists_exists. intros (cs & Hin & Hk & Hu). apply elem_of_app in Hin.
  apply Exists_exists. unfold batch_enqueue_unique_claims, enqueue_claims.
  destruct Hin as [(r & -> & (i & Hi)%list_elem_of_lookup)%list_elem_of_fmap|(d & -> & (i & Hi)%list_elem_of_lookup)%list_elem_of_fmap]; simpl in *.
  - destruct (lookup_lt_is_Some_2 ids i) as [id Hid]; [apply lookup_lt_Some in Hi; lia|].
    exists (key, id). split; [|split; [done|]; simpl; intros ->; apply Ho; by eapply list_elem_of_lookup_2].
    apply list_elem_of_omap. exists (rr_columns (with_ready_id r id), Available). split; [|simpl; by rewrite Hu, Hk].
    apply elem_of_app. left. apply list_elem_of_fmap. exists (with_ready_id r id). split; [done|].
    apply (list_elem_of_lookup_2 _ i). rewrite lookup_zip_with, Hi, lookup_take_lt by (by eapply lookup_lt_Some). simpl. by rewrite Hid.
  - destruct (lookup_lt_is_Some_2 ids (length ready + i)) as [id Hid]; [apply lookup_lt_Some in Hi; lia|].
    exists (key, id). split; [|split; [done|]; simpl; intros ->; apply Ho; by eapply list_elem_of_lookup_2].
    apply list_elem_of_omap. exists (df_columns (with_deferred_id d id), df_state (with_deferred_id d id)). split; [|simpl; by rewrite Hu, Hk].
    apply elem_of_app. right. apply list_elem_of_fmap. exists (with_deferred_id d id). split; [done|].
    apply (list_elem_of_lookup_2 _ i). rewrite lookup_zip_with, Hi, lookup_drop. simpl. by rewrite Hid.
Qed.
Lemma held_key_blocks hash stripe_count blake3 to_vec ambient env jobs key owner q :
  claims q !! key = Some owner -> owner < job_id_seq q -> Exists (asks_for blake3 to_vec ambient key) jobs ->
  exists e, enqueue_params_batch hash stripe_count blake3 to_vec ambient env jobs q = Err e.
Proof.
  intros Hc Ho Hj. destruct (enqueue_params_batch _ _ _ _ _ _ _ _) as [[n q']|e] eqn:H; [|by exists e]. exfalso.
  unfold enqueue_params_batch in H. destruct jobs as [|j jobs]; [by apply Exists_nil in Hj|].
  apply rbind_Ok in H as ([ready deferred] & Hp & H). set (k := (length ready + length deferred)%nat) in H.
  pose proof (next_ids_elem k q) as Hids. pose proof (prepare_rows_asks _ _ _ _ _ _ key _ _ _ _ Hp Hj) as Hx.
  destruct (next_job_ids k q) as [ids q1] eqn:Hn. cbv zeta in H.
  assert (length ids = k /\ claims q1 = claims q) as [Hlen Eq] by (injection Hn as <- <-; by rewrite length_imap, length_replicate).
  apply rbind_Ok in H as (q2 & H & _). rewrite length_zip_with, length_take, Hlen in H.
  replace (length ready `min` (length ready `min` k))%nat with (length ready) in H by (unfold k; lia).
  unfold sync_enqueue_unique_claims in H. case_bool_decide; [|done]. apply rbind_Ok in H as (m & H & _).
  assert (owner ∉ ids) as Hn' by (simpl in Hids; rewrite Hids; lia).
  pose proof (claims_with_ids ready deferred ids key owner Hlen Hn' Hx) as He.
  apply (take_keys_held _ (claims q1)) in He as [e He]; [|by rewrite Eq]. by rewrite He in H.
Qed.

(** The key of the job. *)
Definition held_key : list Z :=
  match prepare_raw_job_insert id (fun _ => []) None "send" args keyed with Ok p => default [] (pi_unique_key p) | Err _ => [] end.
Lemma keyed_reaches : reaches keyed_q.
Proof.
  rewrite (surjective_pairing keyed_q). apply (claimed_reaches 1 keyed). vm_compute. reflexivity.
Qed.
Lemma parked_failed_reaches : reaches (fst keyed_q, parked_failed).
Proof.
  pose proof keyed_reaches as H. rewrite (surjective_pairing keyed_q) in H.
  apply (reaches_move _ parked).
  - eapply reaches_move; [eapply reaches_move; [exact H|]|eapply MoveEnterWait; apply surjective_pairing].
    eapply (MoveRegister _ (at_second 2) 1 1 77 us_per_sec); [|vm_compute; reflexivity].
    unfold fresh_callback. assert (leases (snd keyed_q) = []) as -> by (vm_compute; reflexivity). by intros l ?%elem_of_nil.
  - eapply (MoveFailExternal _ (at_second 3) 77 JNull None). vm_compute. reflexivity.
Qed.
Lemma pruned_reaches : reaches (fst keyed_q, pruned_q).
Proof.
  pose proof keyed_reaches as (ring & H). rewrite (surjective_pairing keyed_q) in H. exists ring.
  eapply rtc_r; [eapply rtc_r; [eapply rtc_r; [exact H|]|]|].
  - eapply StepFinish, (FinishCompleted _ _ (at_second 2) (fst keyed_q)); [| |apply surjective_pairing].
    + apply (bool_decide_unpack _). vm_compute. exact I.
    + intros e He. by exists e.
  - apply StepMove, (MoveRotate _ 1).
  - apply StepDrop. eapply (DropSlot _ (at_second 9) 4 0). vm_compute. reflexivity.
Qed.

(** A unique key can outlive its job's hold on it.  Two runs with a job under
    the default mask, which releases the key of a job that failed: in one the job
    waits for a callback and fails, and keeps the key, since entering the wait
    does not release it and the failure takes the wait for a state without it;
    in the other the job completes, which keeps the key, and its terminal row is
    pruned, after which no job is left at all.  In both stores the key is still
    claimed, and no batch that contains a job asking for it, whatever else it
    contains, whenever and however it is prepared, can be enqueued. *)
Theorem unique_key_outlives_job :
  (reaches (fst keyed_q, parked_failed) /\ places parked_failed = [(1, 1)]
   /\ map (fun kd => de_state (snd kd)) (map_to_list (done_entries parked_failed)) = [Failed]
   /\ map (fun r => unique_state_claims (c_unique_states (rt_columns r)) Failed) (ready_rows parked_failed) = [false])
  /\ (reaches (fst keyed_q, pruned_q) /\ completed_places completed_q ++ done_places completed_q = [(1, 1)] /\ places pruned_q = [])
  /\ submit keyed 4 parked_failed = Err UNIQUE_CONFLICT /\ submit keyed 9 pruned_q = Err UNIQUE_CONFLICT
  /\ (forall q, q = parked_failed \/ q = pruned_q ->
        claims q !! held_key = Some 1
        /\ forall hash stripe_count blake3 to_vec ambient env jobs, Exists (asks_for blake3 to_vec ambient held_key) jobs ->
             exists e, enqueue_params_batch hash stripe_count blake3 to_vec ambient env jobs q = Err e).
Proof.
  split; [split; [exact parked_failed_reaches|split_and!; vm_compute; reflexivity]|].
  split; [split; [exact pruned_reaches|split; vm_compute; reflexivity]|].
  split; [vm_compute; reflexivity|]. split; [vm_compute; reflexivity|]. intros q Hq. assert (claims q !! held_key = Some 1 /\ 1 < job_id_seq q) as [Hc Hid]
    by (destruct Hq as [-> | ->]; split; vm_compute; reflexivity).
  split; [done|]. intros. by eapply held_key_blocks.
Qed.
