(* ===== verification/CanonicalFacts.v ===== *)
(** Facts about the canonical tables: the table invariant, exactness of the
    unique claims, and the effect of every row write on them. *)

From S2P Require Import Prelude.
From S2P Require Import Error.
From S2P Require Import Json.
From S2P Require Import Job.
From S2P Require Import Canonical.

(** * Exactness of unique claims

    [T] is the content of both tables by id. *)
Definition claims_exact (T : Z -> option JobRow) (c : gmap (list Z) Z) : Prop :=
  forall k j, c !! k = Some j <-> exists r, T j = Some r /\ claimed_key r = Some k.

Definition upd (T : Z -> option JobRow) (id : Z) (v : option JobRow) : Z -> option JobRow :=
  fun j => if decide (j = id) then v else T j.

Lemma upd_eq T id v : upd T id v id = v.
Proof. unfold upd. rewrite decide_True by reflexivity. reflexivity. Qed.
Lemma upd_ne T id v j : j <> id -> upd T id v j = T j.
Proof. intros H. unfold upd. rewrite decide_False by exact H. reflexivity. Qed.

Lemma claims_exact_ext T T' c :
  (forall j, T j = T' j) -> claims_exact T c -> claims_exact T' c.
Proof. intros HT HE k j. rewrite (HE k j). setoid_rewrite HT. reflexivity. Qed.

Lemma claimed_key_key r k : claimed_key r = Some k -> j_unique_key r = Some k.
Proof. unfold claimed_key. repeat case_match_goal; naive_solver. Qed.

Lemma release_exact T c id r k :
  claims_exact T c -> T id = Some r -> claimed_key r = Some k ->
  claims_exact (upd T id None) (release_claim k id c).
Proof.
  intros HE HT Hk. assert (c !! k = Some id) as Hc by (apply HE; eauto).
  unfold release_claim. rewrite Hc, Z.eqb_refl. intros k' j.
  destruct (decide (k' = k)) as [->|Hne].
  - rewrite lookup_delete_eq. split; [discriminate|]. intros (r' & HT' & Hk').
    destruct (decide (j = id)) as [->|Hj]; [rewrite upd_eq in HT'; discriminate|].
    rewrite upd_ne in HT' by exact Hj. exfalso. apply Hj.
    assert (c !! k = Some j) by (apply HE; eauto). congruence.
  - rewrite lookup_delete_ne by congruence. rewrite (HE k' j).
    destruct (decide (j = id)) as [->|Hj]; [|rewrite upd_ne by exact Hj; reflexivity].
    rewrite upd_eq, HT. split; [|naive_solver]. intros (r' & [= <-] & Hk'). congruence.
Qed.

Lemma no_claim_exact T c id r :
  claims_exact T c -> T id = Some r -> claimed_key r = None -> claims_exact (upd T id None) c.
Proof.
  intros HE HT Hk k j. rewrite (HE k j).
  destruct (decide (j = id)) as [->|Hj]; [|rewrite upd_ne by exact Hj; reflexivity].
  rewrite upd_eq, HT. naive_solver.
Qed.

Lemma acquire_exact T c id r k :
  claims_exact T c -> T id = None -> claimed_key r = Some k ->
  match acquire_claim k id c with
  | Ok c' => c !! k = None /\ claims_exact (upd T id (Some r)) c'
  | Err e => e = unique_violation /\ exists j, c !! k = Some j /\ j <> id
  end.
Proof.
  intros HE HT Hk. unfold acquire_claim. destruct (c !! k) as [h|] eqn:Hc.
  - destruct (Z.eqb_spec h id) as [->|Hne]; [|eauto].
    apply HE in Hc as (r' & Hr' & _). congruence.
  - split; [reflexivity|]. intros k' j. destruct (decide (k' = k)) as [->|Hkne].
    + rewrite lookup_insert_eq. destruct (decide (j = id)) as [->|Hj].
      * rewrite upd_eq. naive_solver.
      * rewrite upd_ne by exact Hj. split; [congruence|]. rewrite <- (HE k j). congruence.
    + rewrite lookup_insert_ne by congruence. rewrite (HE k' j).
      destruct (decide (j = id)) as [->|Hj]; [|rewrite upd_ne by exact Hj; reflexivity].
      rewrite upd_eq, HT. naive_solver.
Qed.

Lemma insert_unclaimed_exact T c id r :
  claims_exact T c -> T id = None -> claimed_key r = None -> claims_exact (upd T id (Some r)) c.
Proof.
  intros HE HT Hk k j. rewrite (HE k j).
  destruct (decide (j = id)) as [->|Hj]; [|rewrite upd_ne by exact Hj; reflexivity].
  rewrite upd_eq, HT. naive_solver.
Qed.

(** The DELETE trigger. *)
Lemma sync_delete T c r :
  claims_exact T c -> T (j_id r) = Some r ->
  exists c', sync_job_unique_claims (Some r) None c = Ok c' /\ claims_exact (upd T (j_id r) None) c'.
Proof.
  intros HE HT. unfold sync_job_unique_claims. simpl. destruct (claimed_key r) as [k|] eqn:Hk; simpl.
  - eexists. split; [reflexivity|]. eapply release_exact; eassumption.
  - eexists. split; [reflexivity|]. eapply no_claim_exact; eassumption.
Qed.

(** Whether another row of the tables claims the key [r] wants. *)
Definition conflicts (T : Z -> option JobRow) (r : JobRow) : Prop :=
  exists j r0 k, j <> j_id r /\ T j = Some r0 /\ claimed_key r0 = Some k /\ claimed_key r = Some k.

(** The INSERT trigger. *)
Lemma sync_insert T c r :
  claims_exact T c -> T (j_id r) = None ->
  match sync_job_unique_claims None (Some r) c with
  | Ok c' => ~ conflicts T r /\ claims_exact (upd T (j_id r) (Some r)) c'
  | Err e => e = unique_violation /\ conflicts T r
  end.
Proof.
  intros HE HT. unfold sync_job_unique_claims. simpl. destruct (claimed_key r) as [k|] eqn:Hk; simpl.
  - pose proof (acquire_exact T c (j_id r) r k HE HT Hk) as H.
    destruct (acquire_claim k (j_id r) c) as [c'|e]; destruct H as [H1 H2].
    + split; [|exact H2]. intros (j & r0 & k' & Hj & HTj & Hk0 & Hk').
      assert (c !! k = Some j) by (apply HE; exists r0; split; congruence). congruence.
    + split; [exact H1|]. destruct H2 as (j & Hc & Hj). apply HE in Hc as (r0 & HT0 & Hk0).
      exists j, r0, k. auto.
  - split; [|apply insert_unclaimed_exact; assumption].
    intros (j & r0 & k' & _ & _ & _ & H). congruence.
Qed.

Lemma conflicts_upd T r r0 v :
  j_id r0 = j_id r -> conflicts (upd T (j_id r0) v) r <-> conflicts T r.
Proof.
  intros Hid. unfold conflicts. split; intros (j & q & k & Hj & HT & Hk); exists j, q, k.
  - rewrite upd_ne in HT by congruence. auto.
  - rewrite upd_ne by congruence. auto.
Qed.

Lemma upd_upd T id v w j : upd (upd T id v) id w j = upd T id w j.
Proof. unfold upd. destruct (decide (j = id)); reflexivity. Qed.

Lemma no_conflict_same T c r r' k :
  claims_exact T c -> T (j_id r) = Some r -> claimed_key r = Some k -> claimed_key r' = Some k ->
  j_id r' = j_id r -> ~ conflicts T r'.
Proof.
  intros HE HT Hk Hk' Hid (j & r0 & k0 & Hj & HT0 & Hk0 & Hk0').
  assert (c !! k = Some (j_id r)) by (apply HE; eauto).
  assert (c !! k = Some j) by (apply HE; exists r0; split; congruence). congruence.
Qed.

(** The UPDATE trigger, for an update that keeps the id and the key. *)
Lemma sync_update T c r r' :
  claims_exact T c -> T (j_id r) = Some r -> j_id r' = j_id r -> j_unique_key r' = j_unique_key r ->
  match sync_job_unique_claims (Some r) (Some r') c with
  | Ok c' => ~ conflicts T r' /\ claims_exact (upd T (j_id r) (Some r')) c'
  | Err e => e = unique_violation /\ conflicts T r'
  end.
Proof.
  intros HE HT Hid Hkey. unfold sync_job_unique_claims. simpl.
  rewrite bool_decide_eq_true_2 by congruence. rewrite Hid, Z.eqb_refl. simpl.
  destruct (claimed_key r) as [k|] eqn:Hk, (claimed_key r') as [k'|] eqn:Hk'; simpl.
  - assert (k' = k) as ->.
    { apply claimed_key_key in Hk, Hk'. congruence. }
    split; [eapply no_conflict_same; eauto|]. intros q j. rewrite (HE q j).
    destruct (decide (j = j_id r)) as [->|Hj]; [|rewrite upd_ne by exact Hj; reflexivity].
    rewrite upd_eq, HT. split; intros (r0 & [= <-] & H0); eexists; (split; [reflexivity|congruence]).
  - split; [intros (j & r0 & q & _ & _ & _ & H); congruence|].
    eapply claims_exact_ext; [intros j; apply (upd_upd T (j_id r) None (Some r'))|].
    apply insert_unclaimed_exact; [|apply upd_eq|exact Hk'].
    eapply release_exact; eassumption.
  - pose proof (acquire_exact (upd T (j_id r) None) c (j_id r) r' k'
      (no_claim_exact _ _ _ _ HE HT Hk) (upd_eq _ _ _) Hk') as H.
    destruct (acquire_claim k' (j_id r) c) as [c'|e]; destruct H as [H1 H2].
    + split; [|eapply claims_exact_ext; [intros j; apply upd_upd|exact H2]].
      intros (j & r0 & q & Hj & HT0 & Hk0 & Hq).
      assert (c !! k' = Some j) by (apply HE; exists r0; split; congruence). congruence.
    + split; [exact H1|]. destruct H2 as (j & Hc & Hj). apply HE in Hc as (r0 & HT0 & Hk0).
      exists j, r0, k'. rewrite Hid. auto.
  - split; [intros (j & r0 & q & _ & _ & _ & H); congruence|].
    eapply claims_exact_ext; [intros j; apply (upd_upd T (j_id r) None (Some r'))|].
    apply insert_unclaimed_exact; [|apply upd_eq|exact Hk'].
    eapply no_claim_exact; eassumption.
Qed.

(** * The table invariant *)

Definition rows (db : Db) : Z -> option JobRow := fun id => lookup_job id db.

Record wf (db : Db) : Prop := {
  wf_hot : forall id r, hot db !! id = Some r -> j_id r = id /\ in_scheduled (j_state r) = false;
  wf_scheduled : forall id r, scheduled db !! id = Some r -> j_id r = id /\ in_scheduled (j_state r) = true;
  wf_disjoint : forall id, hot db !! id = None \/ scheduled db !! id = None;
  wf_seq : forall id r, lookup_job id db = Some r -> id < jobs_id_seq db;
  wf_claims : claims_exact (rows db) (unique_claims db)
}.

(** [db'] is [db] with the row of [id] replaced (or inserted, or deleted). *)
Record replaces (db db' : Db) (id : Z) (v : option JobRow) : Prop := {
  rep_wf : wf db';
  rep_rows : forall j, lookup_job j db' = upd (rows db) id v j;
  rep_seq : jobs_id_seq db' = jobs_id_seq db;
  rep_paused : paused_queues db' = paused_queues db
}.

Definition same_ident (r r' : JobRow) : Prop :=
  j_id r' = j_id r /\ j_unique_key r' = j_unique_key r /\ j_unique_states r' = j_unique_states r
  /\ j_max_attempts r' = j_max_attempts r /\ j_kind r' = j_kind r /\ j_queue r' = j_queue r.

Lemma wf_lookup_id db id r : wf db -> lookup_job id db = Some r -> j_id r = id.
Proof.
  intros Hwf. unfold lookup_job. destruct (hot db !! id) as [r0|] eqn:Hh.
  - intros [= <-]. apply (wf_hot _ Hwf _ _ Hh).
  - intros Hs. apply (wf_scheduled _ Hwf _ _ Hs).
Qed.

Lemma lookup_hot db id r : hot db !! id = Some r -> lookup_job id db = Some r.
Proof. unfold lookup_job. intros ->. reflexivity. Qed.

Lemma lookup_scheduled db id r : wf db -> scheduled db !! id = Some r -> lookup_job id db = Some r.
Proof.
  intros Hwf Hs. unfold lookup_job. destruct (wf_disjoint _ Hwf id) as [->|]; congruence.
Qed.

Lemma lookup_table db id r :
  wf db -> lookup_job id db = Some r ->
  if in_scheduled (j_state r) then scheduled db !! id = Some r /\ hot db !! id = None
  else hot db !! id = Some r /\ scheduled db !! id = None.
Proof.
  intros Hwf. unfold lookup_job. destruct (hot db !! id) as [r0|] eqn:Hh.
  - intros [= <-]. destruct (wf_hot _ Hwf _ _ Hh) as [_ ->]. split; [reflexivity|].
    destruct (wf_disjoint _ Hwf id); [congruence|assumption].
  - intros Hs. destruct (wf_scheduled _ Hwf _ _ Hs) as [_ ->]. auto.
Qed.

(** Where a row version belongs. *)
Definition hot_part (v : option JobRow) : option JobRow :=
  v ≫= fun r => if in_scheduled (j_state r) then None else Some r.
Definition scheduled_part (v : option JobRow) : option JobRow :=
  v ≫= fun r => if in_scheduled (j_state r) then Some r else None.

Lemma mk_replaces db db' id v :
  wf db ->
  (forall j, hot db' !! j = if decide (j = id) then hot_part v else hot db !! j) ->
  (forall j, scheduled db' !! j = if decide (j = id) then scheduled_part v else scheduled db !! j) ->
  (forall r, v = Some r -> j_id r = id /\ id < jobs_id_seq db) ->
  claims_exact (upd (rows db) id v) (unique_claims db') ->
  jobs_id_seq db' = jobs_id_seq db -> paused_queues db' = paused_queues db ->
  replaces db db' id v.
Proof.
  intros Hwf Hh Hs Hid Hc Hseq Hp.
  assert (forall j, lookup_job j db' = upd (rows db) id v j) as Hrows.
  { intros j. unfold lookup_job, upd, rows. rewrite Hh, Hs. destruct (decide (j = id)); [|reflexivity].
    unfold hot_part, scheduled_part. destruct v as [r|]; [|reflexivity]. simpl.
    destruct (in_scheduled (j_state r)); reflexivity. }
  split; [split| | |]; try assumption.
  - intros j r. rewrite Hh. destruct (decide (j = id)) as [->|]; [|apply (wf_hot _ Hwf)].
    unfold hot_part. destruct v as [q|]; [|discriminate]. simpl.
    destruct (in_scheduled (j_state q)) eqn:Hq; [discriminate|]. intros [= <-].
    split; [apply Hid, eq_refl|exact Hq].
  - intros j r. rewrite Hs. destruct (decide (j = id)) as [->|]; [|apply (wf_scheduled _ Hwf)].
    unfold scheduled_part. destruct v as [q|]; [|discriminate]. simpl.
    destruct (in_scheduled (j_state q)) eqn:Hq; [|discriminate]. intros [= <-].
    split; [apply Hid, eq_refl|exact Hq].
  - intros j. rewrite Hh, Hs. destruct (decide (j = id)); [|apply (wf_disjoint _ Hwf)].
    unfold hot_part, scheduled_part. destruct v as [q|]; [|auto]. simpl.
    destruct (in_scheduled (j_state q)); auto.
  - intros j r. rewrite Hrows, Hseq. unfold upd. destruct (decide (j = id)) as [->|].
    + intros Hv. apply (Hid r), Hv.
    + apply (wf_seq _ Hwf).
  - eapply claims_exact_ext; [|exact Hc]. intros j. symmetry. apply Hrows.
Qed.

Lemma update_hot_spec f r db :
  wf db -> hot db !! j_id r = Some r -> j_id (f r) = j_id r -> j_unique_key (f r) = j_unique_key r ->
  in_scheduled (j_state (f r)) = false ->
  match update_hot f r db with
  | Ok (r', db') => r' = f r /\ replaces db db' (j_id r) (Some (f r)) /\ ~ conflicts (rows db) (f r)
  | Err e => e = unique_violation /\ conflicts (rows db) (f r)
  end.
Proof.
  intros Hwf Hr Hid Hkey Hst. unfold update_hot.
  pose proof (sync_update (rows db) (unique_claims db) r (f r) (wf_claims _ Hwf)
    (lookup_hot _ _ _ Hr) Hid Hkey) as Hsync.
  destruct (sync_job_unique_claims _ _ _) as [c|e]; cbn [rbind]; [|exact Hsync].
  destruct Hsync as [Hnc Hc]. split; [reflexivity|]. split; [|exact Hnc].
  apply mk_replaces; simpl; try reflexivity; try assumption.
  - intros j. unfold hot_part. simpl. rewrite Hst.
    destruct (decide (j = j_id r)) as [->|]; [apply lookup_insert_eq|apply lookup_insert_ne; congruence].
  - intros j. unfold scheduled_part. simpl. rewrite Hst.
    destruct (decide (j = j_id r)) as [->|]; [|reflexivity].
    destruct (wf_disjoint _ Hwf (j_id r)); [congruence|assumption].
  - intros q [= <-]. split; [exact Hid|]. eapply (wf_seq _ Hwf), lookup_hot, Hr.
Qed.

Lemma delete_row_replaces db db' r :
  wf db -> lookup_job (j_id r) db = Some r ->
  (forall j, hot db' !! j = if decide (j = j_id r) then None else hot db !! j) ->
  (forall j, scheduled db' !! j = if decide (j = j_id r) then None else scheduled db !! j) ->
  claims_exact (upd (rows db) (j_id r) None) (unique_claims db') ->
  jobs_id_seq db' = jobs_id_seq db -> paused_queues db' = paused_queues db ->
  replaces db db' (j_id r) None.
Proof. intros. apply mk_replaces; try assumption. discriminate. Qed.

Lemma delete_hot_spec r db :
  wf db -> hot db !! j_id r = Some r ->
  exists db', delete_hot r db = Ok db' /\ replaces db db' (j_id r) None.
Proof.
  intros Hwf Hr. unfold delete_hot.
  destruct (sync_delete (rows db) (unique_claims db) r (wf_claims _ Hwf) (lookup_hot _ _ _ Hr)) as (c & -> & Hc).
  eexists. split; [reflexivity|].
  apply delete_row_replaces; simpl; try reflexivity; try assumption.
  - apply lookup_hot, Hr.
  - intros j. destruct (decide (j = j_id r)) as [->|]; [apply lookup_delete_eq|apply lookup_delete_ne; congruence].
  - intros j. destruct (decide (j = j_id r)) as [->|]; [|reflexivity].
    destruct (wf_disjoint _ Hwf (j_id r)); [congruence|assumption].
Qed.

Lemma delete_scheduled_spec r db :
  wf db -> scheduled db !! j_id r = Some r ->
  exists db', delete_scheduled r db = Ok db' /\ replaces db db' (j_id r) None.
Proof.
  intros Hwf Hr. unfold delete_scheduled. pose proof (lookup_scheduled _ _ _ Hwf Hr) as Hl.
  destruct (sync_delete (rows db) (unique_claims db) r (wf_claims _ Hwf) Hl) as (c & -> & Hc).
  eexists. split; [reflexivity|].
  apply delete_row_replaces; simpl; try reflexivity; try assumption.
  - intros j. destruct (decide (j = j_id r)) as [->|]; [|reflexivity].
    destruct (wf_disjoint _ Hwf (j_id r)); [assumption|congruence].
  - intros j. destruct (decide (j = j_id r)) as [->|]; [apply lookup_delete_eq|apply lookup_delete_ne; congruence].
Qed.

(** Insertion into the table of the row's state. *)
Definition insert_row (r : JobRow) (db : Db) : result AwaError Db :=
  if in_scheduled (j_state r) then insert_scheduled r db else insert_hot r db.
Definition delete_row (r : JobRow) (db : Db) : result AwaError Db :=
  if in_scheduled (j_state r) then delete_scheduled r db else delete_hot r db.

Lemma insert_row_spec r db :
  wf db -> lookup_job (j_id r) db = None -> j_id r < jobs_id_seq db ->
  match insert_row r db with
  | Ok db' => replaces db db' (j_id r) (Some r) /\ ~ conflicts (rows db) r
  | Err e => e = unique_violation /\ conflicts (rows db) r
  end.
Proof.
  intros Hwf Hnone Hseq. assert (hot db !! j_id r = None /\ scheduled db !! j_id r = None) as [Hh Hs].
  { unfold lookup_job in Hnone. destruct (hot db !! j_id r); [discriminate|auto]. }
  pose proof (sync_insert (rows db) (unique_claims db) r (wf_claims _ Hwf) Hnone) as Hsync.
  unfold insert_row, insert_scheduled, insert_hot. rewrite Hh, Hs.
  destruct (in_scheduled (j_state r)) eqn:Hst;
    (destruct (sync_job_unique_claims None (Some r) (unique_claims db)) as [c|e]; cbn [rbind]; [|exact Hsync]);
    destruct Hsync as [Hnc Hc]; (split; [|exact Hnc]);
    (apply mk_replaces; simpl; try reflexivity; try assumption; [| |intros q [= <-]; auto]);
    intros j; unfold hot_part, scheduled_part; simpl; rewrite Hst;
    (destruct (decide (j = j_id r)) as [->|];
     [solve [apply lookup_insert_eq | assumption]|solve [apply lookup_insert_ne; congruence | reflexivity]]).
Qed.

Lemma delete_row_spec r db :
  wf db -> lookup_job (j_id r) db = Some r ->
  exists db', delete_row r db = Ok db' /\ replaces db db' (j_id r) None.
Proof.
  intros Hwf Hl. pose proof (lookup_table _ _ _ Hwf Hl) as Ht. unfold delete_row.
  destruct (in_scheduled (j_state r)); destruct Ht as [Ht _].
  - apply delete_scheduled_spec; assumption.
  - apply delete_hot_spec; assumption.
Qed.

Lemma replaces_trans db db1 db2 id v w :
  replaces db db1 id v -> replaces db1 db2 id w -> replaces db db2 id w.
Proof.
  intros [W1 R1 S1 P1] [W2 R2 S2 P2]. split; [exact W2| |congruence|congruence].
  intros j. rewrite R2. unfold upd, rows. destruct (decide (j = id)) as [->|Hj]; [reflexivity|].
  rewrite R1. apply upd_ne, Hj.
Qed.

Lemma conflicts_ext T T' r : (forall j, T j = T' j) -> conflicts T r <-> conflicts T' r.
Proof. intros H. unfold conflicts. setoid_rewrite H. reflexivity. Qed.

(** Delete a row and insert its successor: the net effect. *)
Lemma move_row_spec r r' db :
  wf db -> lookup_job (j_id r) db = Some r -> j_id r' = j_id r ->
  match rbind (delete_row r db) (insert_row r') with
  | Ok db' => replaces db db' (j_id r) (Some r') /\ ~ conflicts (rows db) r'
  | Err e => e = unique_violation /\ conflicts (rows db) r'
  end.
Proof.
  intros Hwf Hl Hid. destruct (delete_row_spec r db Hwf Hl) as (db1 & -> & Hrep). cbn [rbind].
  pose proof (rep_wf _ _ _ _ Hrep) as W1. pose proof (rep_rows _ _ _ _ Hrep) as R1.
  pose proof (rep_seq _ _ _ _ Hrep) as S1.
  assert (conflicts (rows db1) r' <-> conflicts (rows db) r') as Hconf.
  { rewrite <- (conflicts_upd (rows db) r' r None) by congruence. apply conflicts_ext, R1. }
  pose proof (insert_row_spec r' db1 W1) as Hins. rewrite Hid in Hins.
  specialize (Hins ltac:(rewrite R1; apply upd_eq) ltac:(rewrite S1; apply (wf_seq _ Hwf _ _ Hl))).
  destruct (insert_row r' db1) as [db2|e]; rewrite Hconf in Hins; [|exact Hins].
  destruct Hins as [Hrep2 Hnc]. split; [|exact Hnc].
  eapply replaces_trans; eassumption.
Qed.

Lemma update_view_spec f r db :
  wf db -> lookup_job (j_id r) db = Some r -> j_id (f r) = j_id r ->
  match update_view f r db with
  | Ok (r', db') => r' = f r /\ replaces db db' (j_id r) (Some (f r)) /\ ~ conflicts (rows db) (f r)
  | Err e => e = unique_violation /\ conflicts (rows db) (f r)
  end.
Proof.
  intros Hwf Hl Hid. pose proof (move_row_spec r (f r) db Hwf Hl Hid) as H.
  unfold update_view. change (if in_scheduled (j_state r) then _ else _) with (delete_row r db).
  destruct (delete_row r db) as [db1|e]; cbn [rbind] in *; [|exact H].
  change (if in_scheduled (j_state (f r)) then _ else _) with (insert_row (f r) db1).
  destruct (insert_row (f r) db1) as [db2|e]; cbn [rbind]; [tauto|exact H].
Qed.

Lemma move_to_scheduled_spec id guard f db :
  wf db ->
  (forall r, hot db !! id = Some r -> guard r = true -> j_id (f r) = id /\ in_scheduled (j_state (f r)) = true) ->
  match move_to_scheduled_where id guard f db with
  | Ok (Some r', db') =>
      exists r, hot db !! id = Some r /\ guard r = true /\ r' = f r
                /\ replaces db db' id (Some (f r)) /\ ~ conflicts (rows db) (f r)
  | Ok (None, db') => db' = db /\ (forall r, hot db !! id = Some r -> guard r = false)
  | Err e => e = unique_violation /\ exists r, hot db !! id = Some r /\ guard r = true /\ conflicts (rows db) (f r)
  end.
Proof.
  intros Hwf Hf. unfold move_to_scheduled_where. destruct (hot db !! id) as [r|] eqn:Hr.
  2: split; [reflexivity|discriminate].
  destruct (guard r) eqn:Hg; [|split; [reflexivity|naive_solver]].
  destruct (wf_hot _ Hwf _ _ Hr) as [Hid Hst]. subst id. destruct (Hf r eq_refl Hg) as [Hid' Hst'].
  pose proof (move_row_spec r (f r) db Hwf (lookup_hot _ _ _ Hr) Hid') as H.
  unfold delete_row, insert_row in H. rewrite Hst, Hst' in H.
  destruct (delete_hot r db) as [db1|e]; cbn [rbind] in *; [|naive_solver].
  destruct (insert_scheduled (f r) db1) as [db2|e]; cbn [rbind]; naive_solver.
Qed.

Lemma update_hot_where_spec id guard f db :
  wf db ->
  (forall r, hot db !! id = Some r -> guard r = true ->
    j_id (f r) = id /\ j_unique_key (f r) = j_unique_key r /\ in_scheduled (j_state (f r)) = false) ->
  match update_hot_where id guard f db with
  | Ok (Some r', db') =>
      exists r, hot db !! id = Some r /\ guard r = true /\ r' = f r
                /\ replaces db db' id (Some (f r)) /\ ~ conflicts (rows db) (f r)
  | Ok (None, db') => db' = db /\ (forall r, hot db !! id = Some r -> guard r = false)
  | Err e => e = unique_violation /\ exists r, hot db !! id = Some r /\ guard r = true /\ conflicts (rows db) (f r)
  end.
Proof.
  intros Hwf Hf. unfold update_hot_where. destruct (hot db !! id) as [r|] eqn:Hr.
  2: split; [reflexivity|discriminate].
  destruct (guard r) eqn:Hg; [|split; [reflexivity|naive_solver]].
  destruct (wf_hot _ Hwf _ _ Hr) as [Hid Hst]. subst id. destruct (Hf r eq_refl Hg) as (Hid' & Hk & Hst').
  pose proof (update_hot_spec f r db Hwf Hr Hid' Hk Hst') as H.
  destruct (update_hot f r db) as [[r' db']|e]; cbn [rbind]; naive_solver.
Qed.

(** * Batches

    A statement that writes several rows: the list of rows it selected is
    processed row by row, and each write touches its own row only. *)

Lemma NoDup_map_take {A B} (f : A -> B) (n : nat) (l : list A) :
  NoDup (map f l) -> NoDup (map f (take n l)).
Proof.
  intros H. rewrite <- (take_drop n l), map_app in H. apply NoDup_app in H as [H _]. exact H.
Qed.

Lemma NoDup_map_Permutation {A B} (f : A -> B) (l l' : list A) :
  l ≡ₚ l' -> NoDup (map f l) -> NoDup (map f l').
Proof. intros Hp H. rewrite <- Hp. exact H. Qed.

Lemma elem_of_filter_list {A} (p : A -> bool) (l : list A) (x : A) :
  x ∈ List.filter p l <-> x ∈ l /\ p x = true.
Proof. rewrite !list_elem_of_In. apply filter_In. Qed.

Lemma elem_of_take_list {A} (n : nat) (l : list A) (x : A) : x ∈ take n l -> x ∈ l.
Proof. intros H. rewrite <- (take_drop n l). apply elem_of_app. auto. Qed.

Definition keyed (m : gmap Z JobRow) : Prop := forall id r, m !! id = Some r -> j_id r = id.

Lemma rows_of_keyed (m : gmap Z JobRow) (r : JobRow) : keyed m -> r ∈ rows_of m -> m !! j_id r = Some r.
Proof.
  intros Hk Hin. unfold rows_of in Hin. apply list_elem_of_In, in_map_iff in Hin as ([id q] & Hq & Hin).
  simpl in Hq. subst q. apply list_elem_of_In, elem_of_map_to_list in Hin.
  rewrite (Hk _ _ Hin). exact Hin.
Qed.

Lemma rows_of_elem (m : gmap Z JobRow) (id : Z) (r : JobRow) : m !! id = Some r -> r ∈ rows_of m.
Proof.
  intros H. unfold rows_of. apply list_elem_of_In, in_map_iff. exists (id, r). split; [reflexivity|].
  apply list_elem_of_In, elem_of_map_to_list, H.
Qed.

Lemma rows_of_NoDup (m : gmap Z JobRow) : keyed m -> NoDup (map j_id (rows_of m)).
Proof.
  intros Hk. unfold rows_of. rewrite map_map.
  replace (map (fun x => j_id (snd x)) (map_to_list m)) with (map fst (map_to_list m)).
  - apply NoDup_fst_map_to_list.
  - apply map_ext_in. intros [id r] Hin. simpl. symmetry. apply Hk.
    apply elem_of_map_to_list, list_elem_of_In, Hin.
Qed.

Lemma omap_scan_elem (m : gmap Z JobRow) (scan : list Z) (r : JobRow) :
  keyed m -> r ∈ omap (fun id => m !! id) scan -> m !! j_id r = Some r.
Proof. intros Hk (id & _ & H)%list_elem_of_omap. rewrite (Hk _ _ H). exact H. Qed.

Lemma omap_scan_NoDup (m : gmap Z JobRow) (scan : list Z) :
  keyed m -> NoDup scan -> NoDup (map j_id (omap (fun id => m !! id) scan)).
Proof.
  intros Hk. induction 1 as [|id scan Hid Hnd IH]; [constructor|]. cbn [omap list_omap].
  destruct (m !! id) as [r|] eqn:Hr; [|exact IH]. simpl. apply NoDup_cons. split; [|exact IH].
  rewrite (Hk _ _ Hr). intros Hin. apply Hid. apply list_elem_of_In, in_map_iff in Hin as (q & Hq & Hin).
  apply list_elem_of_In, list_elem_of_omap in Hin as (id' & Hid' & Hm).
  rewrite (Hk _ _ Hm) in Hq. congruence.
Qed.

Lemma wf_hot_keyed db : wf db -> keyed (hot db).
Proof. intros Hwf id r H. apply (wf_hot _ Hwf _ _ H). Qed.
Lemma wf_scheduled_keyed db : wf db -> keyed (scheduled db).
Proof. intros Hwf id r H. apply (wf_scheduled _ Hwf _ _ H). Qed.

(** One row write of a batch. *)
Definition row_write (l : list JobRow) (v : JobRow -> option JobRow) (a b : Db) : Prop :=
  exists r, r ∈ l /\ lookup_job (j_id r) a = Some r /\ replaces a b (j_id r) (v r).

Lemma fold_rows_spec step (out : JobRow -> JobRow) (v : JobRow -> option JobRow) l :
  forall db, wf db -> NoDup (map j_id l) ->
  (forall r, r ∈ l -> lookup_job (j_id r) db = Some r) ->
  (forall r db, r ∈ l -> wf db -> lookup_job (j_id r) db = Some r ->
     match step r db with
     | Ok (rs, db') => rs = [out r] /\ replaces db db' (j_id r) (v r)
     | Err e => e = unique_violation
     end) ->
  match fold_rows step l db with
  | Ok (rs, db') => rs = map out l /\ wf db' /\ rtc (row_write l v) db db'
      /\ (forall r, r ∈ l -> lookup_job (j_id r) db' = v r)
      /\ (forall j, j ∉ map j_id l -> lookup_job j db' = lookup_job j db)
  | Err e => e = unique_violation
  end.
Proof.
  induction l as [|r l IH]; intros db Hwf Hnd Hin Hstep; simpl.
  { split; [reflexivity|]. split; [exact Hwf|]. split; [reflexivity|]. split; [|reflexivity].
    intros r Hr. apply not_elem_of_nil in Hr. contradiction. }
  apply NoDup_cons in Hnd as [Hr Hnd].
  pose proof (Hstep r db ltac:(left) Hwf (Hin r ltac:(left))) as Hs.
  destruct (step r db) as [[rs db1]|e]; cbn [rbind]; [|exact Hs]. destruct Hs as [-> Hrep].
  assert (forall q, q ∈ l -> lookup_job (j_id q) db1 = lookup_job (j_id q) db) as Hfr.
  { intros q Hq. rewrite (rep_rows _ _ _ _ Hrep). apply upd_ne. intros He. apply Hr.
    rewrite <- He. apply list_elem_of_In, in_map, list_elem_of_In, Hq. }
  specialize (IH db1 (rep_wf _ _ _ _ Hrep) Hnd
    ltac:(intros q Hq; rewrite Hfr by exact Hq; apply Hin; right; exact Hq)
    ltac:(intros q db' Hq; apply Hstep; right; exact Hq)).
  destruct (fold_rows step l db1) as [[rest db2]|e]; cbn [rbind]; [|exact IH].
  destruct IH as (-> & Hwf2 & Hrtc & Hv & Hne). split; [reflexivity|]. split; [exact Hwf2|]. split; [|split].
  - eapply rtc_l; [exists r; split; [left|split; [apply Hin; left|exact Hrep]]|].
    eapply rtc_subrel; [|exact Hrtc]. intros a b (q & Hq & Hrest). exists q. split; [right; exact Hq|exact Hrest].
  - intros q [->|Hq]%elem_of_cons; [|apply Hv, Hq].
    rewrite Hne by exact Hr. rewrite (rep_rows _ _ _ _ Hrep). apply upd_eq.
  - intros j Hj. simpl in Hj. apply not_elem_of_cons in Hj as [Hj1 Hj2].
    rewrite Hne by exact Hj2. rewrite (rep_rows _ _ _ _ Hrep). apply upd_ne, Hj1.
Qed.
