(* ===== verification/Lifecycle.v ===== *)
(** The job lifecycle as an abstract state machine, and the refinement of it
    by every statement of the canonical plane.

    [row_step] is the lifecycle contract on one row; [db_step] applies it to
    the tables together with inserts and retention deletes.  The refinement
    lemmas show that each operation of [Canonical] is a sequence of
    [db_step]s; the invariants are then proved once, on the machine. *)

From S2P Require Import Prelude.
From S2P Require Import Error.
From S2P Require Import Json.
From S2P Require Import Job.
From S2P Require Import Canonical.
From S2P Require Import CanonicalFacts.

(** An attempt is open while its row is running or waiting on a callback. *)
Definition is_open (st : JobState) : bool :=
  match st with Running | WaitingExternal => true | _ => false end.

(** What no lifecycle step changes, and the common case of the counters. *)
Definition same_counters (r r' : JobRow) : Prop :=
  j_attempt r' = j_attempt r /\ j_run_lease r' = j_run_lease r.

Inductive row_step (r r' : JobRow) : Prop :=
  | rs_touch (H : j_state r' = j_state r) (C : same_counters r r')
  | rs_claim (H : j_state r = Available) (H' : j_state r' = Running)
      (A : j_attempt r' = j_attempt r + 1) (L : j_run_lease r' = j_run_lease r + 1)
  | rs_finish (H : is_open (j_state r) = true) (H' : is_terminal (j_state r') = true)
      (C : same_counters r r')
  | rs_retry (H : is_open (j_state r) = true) (H' : j_state r' = Retryable)
      (B : j_attempt r < j_max_attempts r) (C : same_counters r r')
  | rs_snooze (H : j_state r = Running) (H' : j_state r' = Scheduled)
      (A : j_attempt r' = j_attempt r - 1) (L : j_run_lease r' = j_run_lease r)
  | rs_park (H : j_state r = Running) (H' : j_state r' = WaitingExternal) (C : same_counters r r')
  | rs_resume (H : is_open (j_state r) = true) (H' : j_state r' = Running) (C : same_counters r r')
  | rs_promote (H : in_scheduled (j_state r) = true) (H' : j_state r' = Available)
      (C : same_counters r r')
  | rs_reset (H : retryable_by_admin r = true) (H' : j_state r' = Available)
      (A : j_attempt r' = 0) (L : j_run_lease r' = j_run_lease r)
  | rs_cancel (H : is_terminal (j_state r) = false) (H' : j_state r' = Cancelled)
      (C : same_counters r r').

Inductive db_step : Db -> Db -> Prop :=
  | ds_row (db db' : Db) (id : Z) (r r' : JobRow) (Hr : lookup_job id db = Some r)
      (Hi : same_ident r r') (Hs : row_step r r') (Hrep : replaces db db' id (Some r')) : db_step db db'
  | ds_insert (db db' : Db) (r : JobRow) (Hid : j_id r = jobs_id_seq db)
      (Hst : j_state r = Scheduled \/ j_state r = Available)
      (Ha : j_attempt r = 0) (Hl : j_run_lease r = 0) (Hm : 1 <= j_max_attempts r)
      (Hrep : replaces (set_seq (jobs_id_seq db + 1) db) db' (j_id r) (Some r)) : db_step db db'
  | ds_delete (db db' : Db) (id : Z) (r : JobRow) (Hr : lookup_job id db = Some r)
      (Ht : is_terminal (j_state r) = true) (Hrep : replaces db db' id None) : db_step db db'
  | ds_pause (db : Db) (p : gset string) : db_step db (set_paused p db).

(** Outcome of an operation: on success a run of the machine, otherwise the
    unique-claim violation (the only way a statement on well-formed tables
    can fail, validation and not-found errors apart). *)
Definition refines {A} (db : Db) (out : result AwaError (A * Db)) : Prop :=
  match out with
  | Ok (_, db') => wf db' /\ rtc db_step db db'
  | Err e => e = unique_violation
  end.

Lemma refines_bind {A B} db (m : result AwaError (A * Db)) (f : A * Db -> result AwaError (B * Db)) :
  refines db m ->
  (forall a db', wf db' -> rtc db_step db db' ->
     match f (a, db') with
     | Ok (_, db'') => db'' = db'
     | Err e => e = unique_violation
     end) ->
  refines db (rbind m f).
Proof.
  destruct m as [[a db']|e]; simpl; [|auto]. intros [Hwf Hrtc] Hf.
  specialize (Hf a db' Hwf Hrtc). unfold refines. destruct (f (a, db')) as [[b db'']|e]; [|exact Hf].
  subst. auto.
Qed.

Lemma refines_refl {A} db (a : A) : wf db -> refines db (Ok (a, db)).
Proof. intros Hwf. split; [exact Hwf|reflexivity]. Qed.

Lemma wf_set_seq db n : wf db -> jobs_id_seq db <= n -> wf (set_seq n db).
Proof.
  intros [H1 H2 H3 H4 H5] Hn. split; try assumption. intros id r Hl.
  specialize (H4 id r Hl). simpl. lia.
Qed.

Lemma wf_set_paused db p : wf db -> wf (set_paused p db).
Proof. intros [H1 H2 H3 H4 H5]. split; assumption. Qed.

(** Updates that keep the identity columns refine the machine. *)
Lemma update_hot_where_refines id guard f db :
  wf db ->
  (forall r, guard r = true -> in_scheduled (j_state r) = false ->
     same_ident r (f r) /\ row_step r (f r) /\ in_scheduled (j_state (f r)) = false) ->
  refines db (update_hot_where id guard f db).
Proof.
  intros Hwf Hf.
  pose proof (update_hot_where_spec id guard f db Hwf) as H.
  assert (forall r, hot db !! id = Some r -> guard r = true ->
    j_id (f r) = id /\ j_unique_key (f r) = j_unique_key r /\ in_scheduled (j_state (f r)) = false) as Hpre.
  { intros r Hr Hg. destruct (wf_hot _ Hwf _ _ Hr) as [Hid Hst].
    destruct (Hf r Hg Hst) as ((Hi & Hk & _) & _ & Hs). split; [congruence|auto]. }
  specialize (H Hpre). unfold refines.
  destruct (update_hot_where id guard f db) as [[[r'|] db']|e].
  - destruct H as (r & Hr & Hg & -> & Hrep & _). split; [apply Hrep|]. apply rtc_once.
    destruct (wf_hot _ Hwf _ _ Hr) as [Hid Hst]. destruct (Hf r Hg Hst) as (Hi & Hs & _).
    eapply ds_row; eauto using lookup_hot.
  - destruct H as [-> _]. apply (refines_refl db tt Hwf).
  - apply H.
Qed.

Lemma move_to_scheduled_refines id guard f db :
  wf db ->
  (forall r, hot db !! id = Some r -> guard r = true ->
     same_ident r (f r) /\ row_step r (f r) /\ in_scheduled (j_state (f r)) = true) ->
  refines db (move_to_scheduled_where id guard f db).
Proof.
  intros Hwf Hf.
  pose proof (move_to_scheduled_spec id guard f db Hwf) as H.
  assert (forall r, hot db !! id = Some r -> guard r = true ->
    j_id (f r) = id /\ in_scheduled (j_state (f r)) = true) as Hpre.
  { intros r Hr Hg. destruct (wf_hot _ Hwf _ _ Hr) as [Hid Hst].
    destruct (Hf r Hr Hg) as ((Hi & _) & _ & Hs). split; [congruence|auto]. }
  specialize (H Hpre). unfold refines.
  destruct (move_to_scheduled_where id guard f db) as [[[r'|] db']|e].
  - destruct H as (r & Hr & Hg & -> & Hrep & _). split; [apply Hrep|]. apply rtc_once.
    destruct (Hf r Hr Hg) as (Hi & Hs & _). eapply ds_row; eauto using lookup_hot.
  - destruct H as [-> _]. apply (refines_refl db tt Hwf).
  - apply H.
Qed.

(** * Guards *)

Lemma state_is_true st r : state_is st r = true <-> j_state r = st.
Proof. unfold state_is. apply bool_decide_eq_true. Qed.

Lemma running_lease_true lease r :
  running_lease lease r = true <-> j_state r = Running /\ j_run_lease r = lease.
Proof. unfold running_lease. rewrite andb_true_iff, state_is_true, Z.eqb_eq. reflexivity. Qed.

Lemma running_open r : j_state r = Running -> is_open (j_state r) = true.
Proof. intros ->. reflexivity. Qed.
Lemma waiting_open r : j_state r = WaitingExternal -> is_open (j_state r) = true.
Proof. intros ->. reflexivity. Qed.

(** Setter chains keep the identity columns by computation. *)
Ltac ident := solve [repeat split; reflexivity].
(** Reads the facts a guard [H] gives. *)
Ltac read_guard H :=
  repeat first
    [ rewrite andb_true_iff in H | rewrite orb_true_iff in H | rewrite running_lease_true in H
    | rewrite state_is_true in H ].
Ltac step_with c := split; [ident|split; [apply c; first [reflexivity | ident | assumption | idtac]|try reflexivity]].

(** * Batches *)

Lemma batch_refines step out v l db :
  wf db -> NoDup (map j_id l) -> (forall r, r ∈ l -> lookup_job (j_id r) db = Some r) ->
  (forall r db, r ∈ l -> wf db -> lookup_job (j_id r) db = Some r ->
     match step r db with
     | Ok (rs, db') => rs = [out r] /\ replaces db db' (j_id r) (v r)
     | Err e => e = unique_violation
     end) ->
  (forall r a b, r ∈ l -> wf a -> lookup_job (j_id r) a = Some r -> replaces a b (j_id r) (v r) -> db_step a b) ->
  refines db (fold_rows step l db).
Proof.
  intros Hwf Hnd Hin Hstep Hds. pose proof (fold_rows_spec step out v l db Hwf Hnd Hin Hstep) as H.
  unfold refines. destruct (fold_rows step l db) as [[rs db']|e]; [|exact H].
  destruct H as (_ & Hwf' & Hrtc & _). split; [exact Hwf'|].
  clear Hin Hstep Hnd. revert Hwf. induction Hrtc as [|a b c (r & Hr & Hl & Hrep) Hbc IH]; intros Hwf; [reflexivity|].
  eapply rtc_l; [eapply Hds; eassumption|]. apply IH; [exact Hwf'|apply Hrep].
Qed.

(** A batch of in-place updates of rows of [jobs_hot]. *)
Lemma update_step_spec f r db :
  wf db -> lookup_job (j_id r) db = Some r -> in_scheduled (j_state r) = false ->
  same_ident r (f r) -> in_scheduled (j_state (f r)) = false ->
  match update_step f r db with
  | Ok (rs, db') => rs = [f r] /\ replaces db db' (j_id r) (Some (f r))
  | Err e => e = unique_violation
  end.
Proof.
  intros Hwf Hl Hst (Hid & Hk & _) Hst'. pose proof (lookup_table _ _ _ Hwf Hl) as Ht.
  rewrite Hst in Ht. destruct Ht as [Hh _].
  pose proof (update_hot_spec f r db Hwf Hh Hid Hk Hst') as H. unfold update_step.
  destruct (update_hot f r db) as [[r' db']|e]; cbn [rbind]; [|apply H].
  destruct H as (-> & Hrep & _). auto.
Qed.

Lemma update_batch_refines f l db :
  wf db -> NoDup (map j_id l) -> (forall r, r ∈ l -> hot db !! j_id r = Some r) ->
  (forall r, r ∈ l -> in_scheduled (j_state r) = false ->
     same_ident r (f r) /\ row_step r (f r) /\ in_scheduled (j_state (f r)) = false) ->
  refines db (fold_rows (update_step f) l db).
Proof.
  intros Hwf Hnd Hin Hf.
  assert (forall r, r ∈ l -> in_scheduled (j_state r) = false) as Hns.
  { intros r Hr. apply (wf_hot _ Hwf _ _ (Hin r Hr)). }
  apply (batch_refines _ f (fun r => Some (f r))); try assumption.
  - intros r Hr. apply lookup_hot, Hin, Hr.
  - intros r a Hr Ha Hl. destruct (Hf r Hr (Hns r Hr)) as (Hi & _ & Hs').
    apply update_step_spec; auto.
  - intros r a b Hr Ha Hl Hrep. destruct (Hf r Hr (Hns r Hr)) as (Hi & Hs & _). eapply ds_row; eauto.
Qed.

(** What such a batch leaves behind. *)
Lemma update_batch_rows f l db rs db' :
  wf db -> NoDup (map j_id l) -> (forall r, r ∈ l -> hot db !! j_id r = Some r) ->
  (forall r, r ∈ l -> same_ident r (f r) /\ in_scheduled (j_state (f r)) = false) ->
  fold_rows (update_step f) l db = Ok (rs, db') ->
  rs = map f l /\ wf db' /\ (forall r, r ∈ l -> lookup_job (j_id r) db' = Some (f r))
  /\ (forall j, j ∉ map j_id l -> lookup_job j db' = lookup_job j db).
Proof.
  intros Hwf Hnd Hin Hf H.
  pose proof (fold_rows_spec (update_step f) f (fun r => Some (f r)) l db Hwf Hnd) as Hs. rewrite H in Hs.
  destruct Hs as (Hr & Hwf' & _ & Hv & Hfr); [| |auto].
  - intros r Hr. apply lookup_hot, Hin, Hr.
  - intros r a Hr Ha Hl. destruct (Hf r Hr). apply update_step_spec; try assumption.
    apply (wf_hot _ Hwf _ _ (Hin r Hr)).
Qed.

(** Rows selected by a filter of [jobs_hot], in any order, with a limit. *)
Lemma selected_hot db p le `{!forall x y, Decision (le x y)} n :
  wf db ->
  NoDup (map j_id (take n (merge_sort le (List.filter p (rows_of (hot db))))))
  /\ (forall r, r ∈ take n (merge_sort le (List.filter p (rows_of (hot db)))) ->
        hot db !! j_id r = Some r /\ p r = true).
Proof.
  intros Hwf. pose proof (merge_sort_Permutation le (List.filter p (rows_of (hot db)))) as Hp. split.
  - apply NoDup_map_take. eapply NoDup_map_Permutation; [symmetry; exact Hp|].
    apply NoDup_map_filter, rows_of_NoDup, wf_hot_keyed, Hwf.
  - intros r Hr%elem_of_take_list. rewrite Hp in Hr. apply elem_of_filter_list in Hr as [Hr Hpr].
    split; [|exact Hpr]. apply rows_of_keyed; [apply wf_hot_keyed, Hwf|exact Hr].
Qed.

(** Rows met by a scan, filtered, with a limit. *)
Lemma scanned_hot db p scan n :
  wf db ->
  NoDup (map j_id (take n (List.filter p (omap (fun id => hot db !! id) (remove_dups scan)))))
  /\ (forall r, r ∈ take n (List.filter p (omap (fun id => hot db !! id) (remove_dups scan))) ->
        hot db !! j_id r = Some r /\ p r = true).
Proof.
  intros Hwf. split.
  - apply NoDup_map_take, NoDup_map_filter, omap_scan_NoDup; [apply wf_hot_keyed, Hwf|apply NoDup_remove_dups].
  - intros r Hr%elem_of_take_list. apply elem_of_filter_list in Hr as [Hr Hpr].
    split; [|exact Hpr]. eapply omap_scan_elem; [apply wf_hot_keyed, Hwf|exact Hr].
Qed.

(** * Refinement of each operation *)

Lemma insert_job_compat_spec env p db :
  wf db -> insert_valid p = true ->
  match insert_job_compat env p db with
  | Ok (r, db') => r = new_row env (jobs_id_seq db) p
                   /\ replaces (set_seq (jobs_id_seq db + 1) db) db' (j_id r) (Some r) /\ ~ conflicts (rows db) r
  | Err e => e = unique_violation /\ conflicts (rows db) (new_row env (jobs_id_seq db) p)
  end.
Proof.
  intros Hwf Hv. unfold insert_job_compat. rewrite Hv. simpl negb. cbv iota.
  set (r := new_row env (jobs_id_seq db) p).
  change (if in_scheduled (pi_state p) then _ else _) with (insert_row r (set_seq (jobs_id_seq db + 1) db)).
  pose proof (insert_row_spec r (set_seq (jobs_id_seq db + 1) db) (wf_set_seq db (jobs_id_seq db + 1) Hwf ltac:(lia))) as H.
  assert (lookup_job (j_id r) (set_seq (jobs_id_seq db + 1) db) = None) as Hnone.
  { destruct (lookup_job _ _) as [q|] eqn:Hq; [|reflexivity].
    pose proof (wf_seq _ Hwf (jobs_id_seq db) q Hq). lia. }
  specialize (H Hnone (Z.lt_succ_diag_r (jobs_id_seq db))).
  destruct (insert_row r _) as [db'|e]; cbn [rbind]; [|exact H]. destruct H as [Hrep Hc]. auto.
Qed.

Lemma insert_job_compat_refines env p db :
  wf db -> pi_state p = Scheduled \/ pi_state p = Available -> insert_valid p = true ->
  refines db (insert_job_compat env p db).
Proof.
  intros Hwf Hst Hv. pose proof (insert_job_compat_spec env p db Hwf Hv) as H.
  destruct (insert_job_compat env p db) as [[r db']|e]; [|apply H].
  destruct H as (-> & Hrep & _). split; [apply Hrep|]. apply rtc_once.
  eapply (ds_insert db db' (new_row env (jobs_id_seq db) p)); try reflexivity; try assumption.
  unfold insert_valid, checks_hold in Hv. rewrite !andb_true_iff, !Z.leb_le in Hv. simpl. lia.
Qed.

Lemma claim_batch_refines env queue limit deadline locked db :
  wf db -> refines db (claim_batch env queue limit deadline locked db).
Proof.
  intros Hwf. destruct (selected_hot db (claimable env queue locked db) claim_le limit Hwf) as [Hnd Hin].
  unfold claim_batch. apply (update_batch_refines (claim_row env deadline)); try assumption.
  - intros r Hr. apply Hin, Hr.
  - intros r Hr _. destruct (Hin r Hr) as [_ Hp]. unfold claimable in Hp.
    rewrite !andb_true_iff, state_is_true in Hp. destruct Hp as [[[[Hs _] _] _] _].
    split; [ident|]. split; [apply rs_claim; [exact Hs|reflexivity..]|reflexivity].
Qed.

Lemma finish_where_refines id lease guard f db :
  wf db ->
  (forall r, guard r = true -> running_lease lease r = true) ->
  (forall r, same_ident r (f r) /\ is_terminal (j_state (f r)) = true /\ same_counters r (f r)) ->
  refines db (update_hot_where id guard f db).
Proof.
  intros Hwf Hg Hf. apply update_hot_where_refines; [exact Hwf|]. intros r Hr _.
  apply Hg, running_lease_true in Hr as [Hs _]. destruct (Hf r) as (Hi & Ht & Hc).
  split; [exact Hi|]. split.
  - apply rs_finish; [apply running_open, Hs|exact Ht|exact Hc].
  - destruct (j_state (f r)); try reflexivity; discriminate.
Qed.

Lemma direct_complete_refines env id lease db : wf db -> refines db (direct_complete_job env id lease db).
Proof.
  intros Hwf. apply (finish_where_refines id lease); [exact Hwf|auto|].
  intros r. split; [ident|]. split; [reflexivity|ident].
Qed.

Lemma fail_running_refines env id lease entry progress db :
  wf db -> refines db (fail_running env id lease entry progress db).
Proof.
  intros Hwf. apply (finish_where_refines id lease); [exact Hwf|auto|].
  intros r. split; [ident|]. split; [reflexivity|ident].
Qed.

Lemma cancel_running_refines env id lease entry progress db :
  wf db -> refines db (cancel_running env id lease entry progress db).
Proof.
  intros Hwf. apply (finish_where_refines id lease); [exact Hwf|auto|].
  intros r. split; [ident|]. split; [reflexivity|ident].
Qed.

Lemma fail_unregistered_refines env id lease entry db :
  wf db -> refines db (fail_unregistered env id lease entry db).
Proof.
  intros Hwf. apply (finish_where_refines id lease); [exact Hwf|auto|].
  intros r. split; [ident|]. split; [reflexivity|ident].
Qed.

Lemma park_running_refines id lease progress db :
  wf db -> refines db (park_running id lease progress db).
Proof.
  intros Hwf. apply update_hot_where_refines; [exact Hwf|]. intros r Hg _. read_guard Hg.
  split; [ident|]. split; [apply rs_park; [apply Hg|reflexivity|ident]|reflexivity].
Qed.

Lemma enter_callback_wait_refines id lease cb db :
  wf db -> refines db (enter_callback_wait id lease cb db).
Proof.
  intros Hwf. apply update_hot_where_refines; [exact Hwf|]. intros r Hg _. read_guard Hg.
  split; [ident|]. split; [apply rs_park; [apply Hg|reflexivity|ident]|reflexivity].
Qed.

(** Writes that leave the state and the counters alone. *)
Lemma touch_where_refines id guard f db :
  wf db -> (forall r, same_ident r (f r) /\ j_state (f r) = j_state r /\ same_counters r (f r)) ->
  refines db (update_hot_where id guard f db).
Proof.
  intros Hwf Hf. apply update_hot_where_refines; [exact Hwf|]. intros r _ Hs.
  destruct (Hf r) as (Hi & Hst & Hc). split; [exact Hi|]. split; [apply rs_touch; assumption|].
  rewrite Hst. exact Hs.
Qed.

Lemma touch_batch_refines f l db :
  wf db -> NoDup (map j_id l) -> (forall r, r ∈ l -> hot db !! j_id r = Some r) ->
  (forall r, same_ident r (f r) /\ j_state (f r) = j_state r /\ same_counters r (f r)) ->
  refines db (fold_rows (update_step f) l db).
Proof.
  intros Hwf Hnd Hin Hf. apply update_batch_refines; try assumption. intros r Hr Hs.
  destruct (Hf r) as (Hi & Hst & Hc). split; [exact Hi|]. split; [apply rs_touch; assumption|].
  rewrite Hst. exact Hs.
Qed.

Lemma cancel_callback_refines id lease db : wf db -> refines db (cancel_callback id lease db).
Proof. intros Hwf. apply touch_where_refines; [exact Hwf|]. intros r. repeat split; reflexivity. Qed.

Lemma join_running_spec pairs db :
  wf db ->
  NoDup (map j_id (join_running pairs db))
  /\ (forall r, r ∈ join_running pairs db ->
        hot db !! j_id r = Some r /\ j_state r = Running /\ (j_id r, j_run_lease r) ∈ pairs).
Proof.
  intros Hwf. pose proof (merge_sort_Permutation id_le
    (List.filter (fun r => state_is Running r && bool_decide ((j_id r, j_run_lease r) ∈ pairs)) (rows_of (hot db)))) as Hp.
  split.
  - eapply NoDup_map_Permutation; [symmetry; exact Hp|].
    apply NoDup_map_filter, rows_of_NoDup, wf_hot_keyed, Hwf.
  - intros r Hr. unfold join_running in Hr. rewrite Hp in Hr. apply elem_of_filter_list in Hr as [Hr Hg].
    rewrite andb_true_iff, state_is_true, bool_decide_eq_true in Hg.
    split; [|exact Hg]. apply rows_of_keyed; [apply wf_hot_keyed, Hwf|exact Hr].
Qed.

Lemma join_running_complete pairs db r :
  hot db !! j_id r = Some r -> j_state r = Running -> (j_id r, j_run_lease r) ∈ pairs -> r ∈ join_running pairs db.
Proof.
  intros Hr Hs Hp. unfold join_running. rewrite merge_sort_Permutation. apply elem_of_filter_list.
  split; [|rewrite andb_true_iff, state_is_true, bool_decide_eq_true; auto].
  unfold rows_of. apply list_elem_of_In, in_map_iff. exists (j_id r, r). split; [reflexivity|].
  apply list_elem_of_In, elem_of_map_to_list, Hr.
Qed.

Lemma complete_batch_refines env pairs db : wf db -> refines db (complete_batch env pairs db).
Proof.
  intros Hwf. destruct (join_running_spec pairs db Hwf) as [Hnd Hin].
  unfold complete_batch. apply (update_batch_refines (complete_row env)); try assumption.
  - intros r Hr. apply Hin, Hr.
  - intros r Hr _. destruct (Hin r Hr) as (_ & Hs & _). split; [ident|].
    split; [apply rs_finish; [apply running_open, Hs|reflexivity|ident]|reflexivity].
Qed.

Lemma heartbeat_batch_refines env pairs db : wf db -> refines db (heartbeat_batch env pairs db).
Proof.
  intros Hwf. destruct (join_running_spec pairs db Hwf) as [Hnd Hin].
  unfold heartbeat_batch. apply (touch_batch_refines (set_heartbeat_at (Some (now env)))); try assumption.
  - intros r Hr. apply Hin, Hr.
  - intros r. repeat split; reflexivity.
Qed.

Lemma heartbeat_progress_refines env triples db : wf db -> refines db (heartbeat_progress_batch env triples db).
Proof.
  intros Hwf. destruct (join_running_spec (map (fun '(id, lease, _) => (id, lease)) triples) db Hwf) as [Hnd Hin].
  unfold heartbeat_progress_batch. apply touch_batch_refines.
  - exact Hwf.
  - exact Hnd.
  - intros r Hr. apply Hin, Hr.
  - intros r. repeat split; reflexivity.
Qed.

Lemma age_refines env aging scan db : wf db -> refines db (age_waiting_priorities env aging scan db).
Proof.
  intros Hwf. unfold age_waiting_priorities. destruct (aging <=? 0); [apply refines_refl, Hwf|].
  destruct (scanned_hot db (age_eligible env aging) scan 1000 Hwf) as [Hnd Hin].
  apply touch_batch_refines; try assumption.
  - intros r Hr. apply Hin, Hr.
  - intros r. repeat split; reflexivity.
Qed.

(** A retry (not a snooze) must come from an attempt within its budget. *)
Definition reschedule_in_budget (id lease : Z) (k : Reschedule) (db : Db) : Prop :=
  match k with
  | Snooze _ => True
  | _ => forall r, hot db !! id = Some r -> running_lease lease r = true -> j_attempt r < j_max_attempts r
  end.

Lemma reschedule_row_ident env k error progress r : same_ident r (reschedule_row env k error progress r).
Proof. destruct k, error; ident. Qed.

Lemma reschedule_refines env id lease k error progress db :
  wf db -> reschedule_in_budget id lease k db ->
  refines db (reschedule_canonical env id lease k error progress db).
Proof.
  intros Hwf Hb. unfold reschedule_canonical.
  eapply refines_bind; [|intros [r|] db' _ _; reflexivity].
  apply move_to_scheduled_refines; [exact Hwf|]. intros r Hr Hg. split; [apply reschedule_row_ident|].
  pose proof Hg as Hg'. apply running_lease_true in Hg as [Hs _].
  destruct k as [d|d|]; simpl in Hb.
  - split; [|destruct error; reflexivity]. apply rs_snooze; destruct error; first [exact Hs|reflexivity].
  - split; [|destruct error; reflexivity].
    apply rs_retry; [apply running_open, Hs|destruct error; reflexivity|eauto|destruct error; ident].
  - split; [|destruct error; reflexivity].
    apply rs_retry; [apply running_open, Hs|destruct error; reflexivity|eauto|destruct error; ident].
Qed.

Lemma rescue_candidate_open env k r : rescue_candidate env k r = true -> is_open (j_state r) = true.
Proof.
  destruct k; simpl; rewrite andb_true_iff, state_is_true; intros [H _];
    first [apply running_open, H|apply waiting_open, H].
Qed.

Definition rescued_row (env : Env) (k : RescueKind) (r : JobRow) : JobRow :=
  if exhausted r then rescue_failed_row env k r else rescue_moved_row env k r.

Lemma rescued_row_ident env k r : same_ident r (rescued_row env k r).
Proof. unfold rescued_row. destruct (exhausted r), k; ident. Qed.

Lemma rescued_row_step env k r : is_open (j_state r) = true -> row_step r (rescued_row env k r).
Proof.
  intros Ho. unfold rescued_row. destruct (exhausted r) eqn:He.
  - apply rs_finish; [exact Ho|destruct k; reflexivity|destruct k; ident].
  - apply rs_retry; [exact Ho|destruct k; reflexivity| |destruct k; ident].
    unfold exhausted in He. apply Z.leb_gt in He. exact He.
Qed.

Lemma rescue_one_spec env k r db :
  wf db -> lookup_job (j_id r) db = Some r -> is_open (j_state r) = true ->
  match rescue_one env k r db with
  | Ok (r', db') => r' = rescued_row env k r /\ replaces db db' (j_id r) (Some (rescued_row env k r))
                    /\ ~ conflicts (rows db) (rescued_row env k r)
  | Err e => e = unique_violation /\ conflicts (rows db) (rescued_row env k r)
  end.
Proof.
  intros Hwf Hl Ho. assert (in_scheduled (j_state r) = false) as Hns by (destruct (j_state r); easy).
  pose proof (lookup_table _ _ _ Hwf Hl) as Ht. rewrite Hns in Ht. destruct Ht as [Hh _].
  unfold rescue_one, rescued_row. destruct (exhausted r).
  - apply update_hot_spec; try assumption; destruct k; reflexivity.
  - pose proof (move_row_spec r (rescue_moved_row env k r) db Hwf Hl ltac:(destruct k; reflexivity)) as H.
    unfold delete_row, insert_row in H. rewrite Hns in H.
    replace (in_scheduled (j_state (rescue_moved_row env k r))) with true in H by (destruct k; reflexivity).
    destruct (delete_hot r db) as [db1|e]; cbn [rbind] in *; [|exact H].
    destruct (insert_scheduled (rescue_moved_row env k r) db1) as [db2|e]; cbn [rbind]; [|exact H].
    split; [reflexivity|exact H].
Qed.

Lemma rescue_split_spec env k scan db :
  wf db ->
  let l := List.filter exhausted (rescue_candidates env k scan db)
           ++ List.filter (fun r => negb (exhausted r)) (rescue_candidates env k scan db) in
  NoDup (map j_id l) /\ forall r, r ∈ l <-> r ∈ rescue_candidates env k scan db.
Proof.
  intros Hwf l. destruct (scanned_hot db (rescue_candidate env k) scan RESCUE_LIMIT Hwf) as [Hnd _].
  assert (l ≡ₚ rescue_candidates env k scan db) as Hp.
  { unfold l. induction (rescue_candidates env k scan db) as [|r rs IH]; [reflexivity|]. simpl.
    destruct (exhausted r); simpl; [rewrite IH; reflexivity|]. rewrite <- Permutation_middle, IH. reflexivity. }
  split; [eapply NoDup_map_Permutation; [symmetry; exact Hp|exact Hnd]|]. intros r. rewrite Hp. reflexivity.
Qed.

Lemma rescue_batch_refines env k scan db : wf db -> refines db (rescue_batch env k scan db).
Proof.
  intros Hwf. destruct (rescue_split_spec env k scan db Hwf) as [Hnd Hl].
  destruct (scanned_hot db (rescue_candidate env k) scan RESCUE_LIMIT Hwf) as [_ Hin].
  unfold rescue_batch. cbv zeta.
  apply (batch_refines _ (rescued_row env k) (fun r => Some (rescued_row env k r))); try assumption.
  - intros r Hr%Hl. apply lookup_hot, Hin, Hr.
  - intros r a Hr%Hl Ha Hlk. destruct (Hin r Hr) as [_ Hc]. unfold rescue_step.
    pose proof (rescue_one_spec env k r a Ha Hlk (rescue_candidate_open _ _ _ Hc)) as H.
    destruct (rescue_one env k r a) as [[r' b]|e]; cbn [rbind]; [|apply H].
    destruct H as (-> & Hrep & _). auto.
  - intros r a b Hr%Hl Ha Hlk Hrep. destruct (Hin r Hr) as [_ Hc].
    eapply ds_row; [exact Hlk|apply rescued_row_ident| |exact Hrep].
    apply rescued_row_step, (rescue_candidate_open _ _ _ Hc).
Qed.

Lemma rescue_row_refines env k id db : wf db -> refines db (rescue_row env k id db).
Proof.
  intros Hwf. unfold rescue_row. destruct (hot db !! id) as [r|] eqn:Hr; [|apply refines_refl, Hwf].
  destruct (rescue_candidate env k r) eqn:Hc; [|apply refines_refl, Hwf].
  destruct (wf_hot _ Hwf _ _ Hr) as [<- _]. pose proof (lookup_hot _ _ _ Hr) as Hl.
  pose proof (rescue_one_spec env k r db Hwf Hl (rescue_candidate_open _ _ _ Hc)) as H.
  destruct (rescue_one env k r db) as [[r' db']|e]; cbn [rbind]; [|apply H].
  destruct H as (-> & Hrep & _). split; [apply Hrep|]. apply rtc_once.
  eapply ds_row; [exact Hl|apply rescued_row_ident| |exact Hrep].
  apply rescued_row_step, (rescue_candidate_open _ _ _ Hc).
Qed.

Lemma cancel_conflicted_refines env id k msg db :
  wf db -> refines db (cancel_unique_conflicted_job env id (rescue_from_state k) msg db).
Proof.
  intros Hwf. apply update_hot_where_refines; [exact Hwf|]. intros r Hg _. apply state_is_true in Hg.
  split; [ident|]. split; [|reflexivity]. apply rs_cancel; [|reflexivity|ident].
  rewrite Hg. destruct k; reflexivity.
Qed.

Lemma per_row_step_refines env k id db :
  wf db -> wf (rescue_per_row_step env k id db).2 /\ rtc db_step db (rescue_per_row_step env k id db).2.
Proof.
  intros Hwf. unfold rescue_per_row_step. pose proof (rescue_row_refines env k id db Hwf) as H1.
  destruct (rescue_row env k id db) as [[row db1]|e]; simpl in H1; [exact H1|]. subst e. simpl.
  pose proof (cancel_conflicted_refines env id k (duplicate_message k) db Hwf) as H2.
  destruct (cancel_unique_conflicted_job _ _ _ _ _) as [[row db1]|e]; simpl in H2; [exact H2|].
  split; [exact Hwf|reflexivity].
Qed.

Lemma per_row_refines env k ids db :
  wf db -> let '(_, db') := rescue_canonical_per_row env k ids db in wf db' /\ rtc db_step db db'.
Proof.
  revert db. induction ids as [|id ids IH]; intros db Hwf; simpl; [split; [exact Hwf|reflexivity]|].
  pose proof (per_row_step_refines env k id db Hwf) as [Hwf1 Hrtc1].
  destruct (rescue_per_row_step env k id db) as [rs db1]. specialize (IH db1 Hwf1).
  destruct (rescue_canonical_per_row env k ids db1) as [rest db2]. destruct IH as [Hwf2 Hrtc2].
  split; [exact Hwf2|]. etrans; eassumption.
Qed.

Lemma rescue_canonical_refines env k scan rescan db :
  wf db -> exists rs db', rescue_canonical env k scan rescan db = Ok (rs, db') /\ wf db' /\ rtc db_step db db'.
Proof.
  intros Hwf. unfold rescue_canonical. pose proof (rescue_batch_refines env k scan db Hwf) as H.
  destruct (rescue_batch env k scan db) as [[rs db']|e]; simpl in H; [eauto|]. subst e.
  change (is_unique_claim_conflict unique_violation) with true. cbv iota.
  pose proof (per_row_refines env k (map j_id (rescue_candidates env k rescan db)) db Hwf) as Hp.
  destruct (rescue_canonical_per_row _ _ _ _) as [rs db']. eauto.
Qed.

Lemma selected_scheduled db p le `{!forall x y, Decision (le x y)} n :
  wf db ->
  NoDup (map j_id (take n (merge_sort le (List.filter p (rows_of (scheduled db))))))
  /\ (forall r, r ∈ take n (merge_sort le (List.filter p (rows_of (scheduled db)))) ->
        scheduled db !! j_id r = Some r /\ p r = true).
Proof.
  intros Hwf. pose proof (merge_sort_Permutation le (List.filter p (rows_of (scheduled db)))) as Hp. split.
  - apply NoDup_map_take. eapply NoDup_map_Permutation; [symmetry; exact Hp|].
    apply NoDup_map_filter, rows_of_NoDup, wf_scheduled_keyed, Hwf.
  - intros r Hr%elem_of_take_list. rewrite Hp in Hr. apply elem_of_filter_list in Hr as [Hr Hpr].
    split; [|exact Hpr]. apply rows_of_keyed; [apply wf_scheduled_keyed, Hwf|exact Hr].
Qed.

Lemma promote_step_spec env r db :
  wf db -> lookup_job (j_id r) db = Some r -> in_scheduled (j_state r) = true ->
  match promote_step env r db with
  | Ok (rs, db') => rs = [promote_row env r] /\ replaces db db' (j_id r) (Some (promote_row env r))
                    /\ ~ conflicts (rows db) (promote_row env r)
  | Err e => e = unique_violation /\ conflicts (rows db) (promote_row env r)
  end.
Proof.
  intros Hwf Hl Hs. assert (j_id (promote_row env r) = j_id r) as Hid by reflexivity.
  assert (in_scheduled (j_state (promote_row env r)) = false) as Hp by reflexivity.
  unfold promote_step. generalize dependent (promote_row env r). intros r' Hid Hp.
  pose proof (move_row_spec r r' db Hwf Hl Hid) as H. unfold delete_row, insert_row in H. rewrite Hs, Hp in H.
  destruct (delete_scheduled r db) as [db1|e]; cbn [rbind] in *; [|exact H].
  destruct (insert_hot r' db1) as [db2|e]; cbn [rbind]; [|exact H].
  split; [reflexivity|exact H].
Qed.

Lemma promote_due_batch_refines env st limit locked db :
  wf db -> refines db (promote_due_batch env st limit locked db).
Proof.
  intros Hwf. destruct (selected_scheduled db (is_due env st locked) due_le limit Hwf) as [Hnd Hin].
  unfold promote_due_batch.
  assert (forall r, r ∈ due_candidates env st limit locked db -> in_scheduled (j_state r) = true) as Hsch.
  { intros r Hr. apply (wf_scheduled _ Hwf (j_id r)), Hin, Hr. }
  apply (batch_refines _ (promote_row env) (fun r => Some (promote_row env r))); try assumption.
  - intros r Hr. apply lookup_scheduled; [exact Hwf|]. apply Hin, Hr.
  - intros r a Hr Ha Hl. pose proof (promote_step_spec env r a Ha Hl (Hsch r Hr)) as H.
    destruct (promote_step env r a) as [[rs b]|e]; [|apply H]. split; apply H.
  - intros r a b Hr Ha Hl Hrep. apply (ds_row a b (j_id r) r (promote_row env r)); [exact Hl|ident| |exact Hrep].
    apply rs_promote; [apply Hsch, Hr|reflexivity|ident].
Qed.

Lemma promote_due_state_refines env st limit locked batches db :
  wf db -> let '(_, db') := promote_due_state env st limit locked batches db in wf db' /\ rtc db_step db db'.
Proof.
  revert db. induction batches as [|n IH]; intros db Hwf; simpl; [split; [exact Hwf|reflexivity]|].
  pose proof (promote_due_batch_refines env st limit locked db Hwf) as H.
  destruct (promote_due_batch env st limit locked db) as [[rs db1]|e]; simpl in H; [|split; [exact Hwf|reflexivity]].
  destruct H as [Hwf1 Hrtc1]. destruct (length rs <? limit)%nat; [auto|].
  specialize (IH db1 Hwf1). destruct (promote_due_state env st limit locked n db1) as [m db2].
  destruct IH as [Hwf2 Hrtc2]. split; [exact Hwf2|]. etrans; eassumption.
Qed.

Lemma cleanup_pass_refines env p scope limit scan db :
  wf db -> refines db (cleanup_pass env p scope limit scan db).
Proof.
  intros Hwf. unfold cleanup_pass.
  destruct (scanned_hot db (fun r => scope (j_queue r) && past_retention env p r) scan limit Hwf) as [Hnd Hin].
  apply (batch_refines _ (fun r => r) (fun _ => None)); try assumption.
  - intros r Hr. apply lookup_hot, Hin, Hr.
  - intros r a Hr Ha Hl. assert (in_scheduled (j_state r) = false) as Hns.
    { apply (wf_hot _ Hwf (j_id r)), Hin, Hr. }
    destruct (delete_row_spec r a Ha Hl) as (b & Hd & Hrep). unfold delete_row in Hd. rewrite Hns in Hd.
    unfold delete_step. rewrite Hd. cbn [rbind]. auto.
  - intros r a b Hr Ha Hl Hrep. eapply ds_delete; [exact Hl| |exact Hrep].
    destruct (Hin r Hr) as [_ Hg]. rewrite andb_true_iff in Hg. destruct Hg as [_ Hg]. unfold past_retention in Hg.
    rewrite orb_true_iff, !andb_true_iff, orb_true_iff, !state_is_true in Hg.
    destruct Hg as [[-> _]|[[->| ->] _]]; reflexivity.
Qed.

Lemma update_view_refines f r db :
  wf db -> lookup_job (j_id r) db = Some r -> same_ident r (f r) -> row_step r (f r) ->
  refines db (update_view f r db).
Proof.
  intros Hwf Hl Hi Hs. pose proof (update_view_spec f r db Hwf Hl ltac:(apply Hi)) as H.
  destruct (update_view f r db) as [[r' db']|e]; [|apply H].
  destruct H as (-> & Hrep & _). split; [apply Hrep|]. apply rtc_once. eapply ds_row; eauto.
Qed.

(** [retry] and [cancel] find the job or report it missing. *)
Lemma retry_refines env id db :
  wf db -> refines db (retry env id db) \/ retry env id db = Err (JobNotFound id).
Proof.
  intros Hwf. unfold retry. destruct (lookup_job id db) as [r|] eqn:Hl; [|auto].
  destruct (retryable_by_admin r) eqn:Hg; [|auto]. left.
  pose proof (wf_lookup_id _ _ _ Hwf Hl) as <-.
  apply update_view_refines; [exact Hwf|exact Hl|ident|].
  apply rs_reset; first [exact Hg|reflexivity].
Qed.

Lemma cancel_refines env id db :
  wf db -> refines db (cancel env id db) \/ cancel env id db = Err (JobNotFound id).
Proof.
  intros Hwf. unfold cancel. destruct (lookup_job id db) as [r|] eqn:Hl; [|auto].
  destruct (is_terminal (j_state r)) eqn:Hg; [auto|]. left.
  pose proof (wf_lookup_id _ _ _ Hwf Hl) as <-.
  eapply refines_bind; [|intros a db' _ _; reflexivity].
  apply update_view_refines; [exact Hwf|exact Hl|ident|]. apply rs_cancel; [exact Hg|reflexivity|ident].
Qed.

(** * Callbacks *)

Lemma find_callback_spec cb guard db r :
  wf db -> find_callback cb guard db = Some r ->
  hot db !! j_id r = Some r /\ j_callback_id r = Some cb /\ guard r = true.
Proof.
  intros Hwf H. apply find_some in H as [Hin Hg]. apply list_elem_of_In in Hin.
  apply andb_true_iff in Hg as [Hc Hg]. apply bool_decide_eq_true in Hc.
  split; [apply rows_of_keyed; [apply wf_hot_keyed, Hwf|exact Hin]|auto].
Qed.

Lemma update_callback_refines cb guard f db :
  wf db ->
  (forall r, guard r = true -> in_scheduled (j_state r) = false ->
     same_ident r (f r) /\ row_step r (f r) /\ in_scheduled (j_state (f r)) = false) ->
  refines db (update_callback cb guard f db) \/ update_callback cb guard f db = Err (CallbackNotFound cb).
Proof.
  intros Hwf Hf. unfold update_callback. destruct (find_callback cb guard db) as [r|] eqn:Hr; [left|auto].
  apply find_callback_spec in Hr as (Hh & _ & Hg); [|exact Hwf]. destruct (wf_hot _ Hwf _ _ Hh) as [_ Hst].
  destruct (Hf r Hg Hst) as (Hi & Hs & Hst').
  pose proof (update_hot_spec f r db Hwf Hh ltac:(apply Hi) ltac:(apply Hi) Hst') as H.
  destruct (update_hot f r db) as [[r' db']|e]; [|apply H]. destruct H as (-> & Hrep & _).
  split; [apply Hrep|]. apply rtc_once. eapply ds_row; eauto using lookup_hot.
Qed.

Lemma waiting_or_running_open r : waiting_or_running r = true -> is_open (j_state r) = true.
Proof.
  unfold waiting_or_running. rewrite orb_true_iff, !state_is_true. intros [->| ->]; reflexivity.
Qed.

Lemma complete_external_refines env cb payload lease resume db :
  wf db -> refines db (complete_external env cb payload lease resume db)
           \/ complete_external env cb payload lease resume db = Err (CallbackNotFound cb).
Proof.
  intros Hwf. apply update_callback_refines; [exact Hwf|]. intros r Hg _. apply andb_true_iff in Hg as [Ho _].
  apply waiting_or_running_open in Ho. destruct resume.
  - split; [ident|]. split; [apply rs_resume; [exact Ho|reflexivity|ident]|reflexivity].
  - split; [ident|]. split; [apply rs_finish; [exact Ho|reflexivity|ident]|reflexivity].
Qed.

Lemma fail_external_refines env cb error lease db :
  wf db -> refines db (fail_external env cb error lease db)
           \/ fail_external env cb error lease db = Err (CallbackNotFound cb).
Proof.
  intros Hwf. apply update_callback_refines; [exact Hwf|]. intros r Hg _. apply andb_true_iff in Hg as [Ho _].
  apply waiting_or_running_open in Ho.
  split; [ident|]. split; [apply rs_finish; [exact Ho|reflexivity|ident]|reflexivity].
Qed.

Lemma retry_external_refines env cb lease db :
  wf db -> refines db (retry_external env cb lease db)
           \/ retry_external env cb lease db = Err (CallbackNotFound cb).
Proof.
  intros Hwf. apply update_callback_refines; [exact Hwf|]. intros r Hg _. apply andb_true_iff in Hg as [Ho _].
  split; [ident|]. split; [|reflexivity]. apply rs_reset; [|reflexivity..].
  unfold retryable_by_admin. rewrite Ho. apply orb_true_r.
Qed.

Lemma heartbeat_callback_refines env cb timeout db :
  wf db -> refines db (heartbeat_callback env cb timeout db)
           \/ heartbeat_callback env cb timeout db = Err (CallbackNotFound cb).
Proof.
  intros Hwf. apply update_callback_refines; [exact Hwf|]. intros r _ Hs.
  split; [ident|]. split; [apply rs_touch; [reflexivity|ident]|exact Hs].
Qed.

Lemma register_callback_refines env id lease cb timeout db :
  wf db -> refines db (register_callback env id lease cb timeout db)
           \/ register_callback env id lease cb timeout db = Err (Validation "job is not in running state").
Proof.
  intros Hwf. pose proof (touch_where_refines id (running_lease lease)
    (set_callback (Some cb) (Some (now env + timeout))) db Hwf ltac:(intros r; repeat split; reflexivity)) as H.
  unfold register_callback. destruct (update_hot_where _ _ _ _) as [[[r|] db']|e]; cbn [rbind]; auto.
Qed.

Lemma set_metadata_refines md r db :
  wf db -> hot db !! j_id r = Some r -> refines db (update_hot (set_metadata md) r db).
Proof.
  intros Hwf Hh. destruct (wf_hot _ Hwf _ _ Hh) as [_ Hst].
  pose proof (update_hot_spec (set_metadata md) r db Hwf Hh eq_refl eq_refl Hst) as H.
  destruct (update_hot _ _ _) as [[r' db']|e]; [|apply H]. destruct H as (-> & Hrep & _).
  split; [apply Hrep|]. apply rtc_once.
  apply (ds_row db db' (j_id r) r (set_metadata md r)); [apply lookup_hot, Hh|ident| |exact Hrep].
  apply rs_touch; [reflexivity|ident].
Qed.

Lemma check_callback_state_refines id cb db : wf db -> refines db (check_callback_state id cb db).
Proof.
  intros Hwf. unfold check_callback_state. destruct (hot db !! id) as [r|] eqn:Hr; [|apply refines_refl, Hwf].
  destruct (wf_hot _ Hwf _ _ Hr) as [<- _].
  assert (forall md p, refines db (rbind (update_hot (set_metadata md) r db) (fun '(_, db) => Ok (Resolved p, db)))) as Hm.
  { intros md p. eapply refines_bind; [apply set_metadata_refines; [exact Hwf|exact Hr]|].
    intros a db' _ _. reflexivity. }
  destruct (j_state r), (j_callback_id r), (get CALLBACK_RESULT_KEY (j_metadata r));
    repeat case_match_goal; first [apply Hm|apply refines_refl, Hwf].
Qed.

Lemma take_callback_payload_refines id metadata db :
  wf db -> refines db (take_callback_payload id metadata db)
           \/ exists e, take_callback_payload id metadata db = Err e.
Proof.
  intros Hwf. unfold take_callback_payload. destruct (hot db !! id) as [r|] eqn:Hr; [|left; apply refines_refl, Hwf].
  destruct (wf_hot _ Hwf _ _ Hr) as [<- _]. destruct (jsonb_delete _ _); [left|eauto].
  eapply refines_bind; [apply set_metadata_refines; [exact Hwf|exact Hr]|]. intros a db' _ _. reflexivity.
Qed.
