(* ===== verification/Executor.v ===== *)
(** The executor's finalization logic on the canonical plane
    (awa-worker/src/executor.rs) with the follow-up enqueues that ride in its
    transactions (awa-worker/src/enqueue_specs.rs).

    [complete_job_canonical] is the whole handler: every outcome of a job
    handler, with and without registered follow-ups, errors and stale
    attempts included.  A transaction that fails returns [Err] and commits
    nothing.  Handler code, registered closures, [blake3] and
    [serde_json::to_vec] are parameters. *)

From S2P Require Import Prelude.
From S2P Require Import Error.
From S2P Require Import Json.
From S2P Require Import Job.
From S2P Require Import Canonical.

(** Durations of handler results, in nanoseconds. *)
Definition as_secs (d : Z) : Z := d / 1000000000.

Inductive JobResult : Type :=
  | JCompleted
  | JRetryAfter (d : Z)
  | JSnooze (d : Z)
  | JCancel (reason : string)
  | JWaitForCallback.
Inductive JobError : Type :=
  | JRetryable (msg : string)
  | JTerminal (msg : string).
(** [Result<JobResult, JobError>]. *)
Definition HandlerResult : Type := result JobError JobResult.

Inductive Outcome : Type :=
  | OCompleted | ORetried | OExhausted | OCancelled | OWaitingForCallback | ORescued.
#[export] Instance Outcome_eq_dec : EqDecision Outcome.
Proof. solve_decision. Defined.

Inductive OutcomeContext : Type :=
  | CtxRetried (error : string) (attempt : Z) (next_run_at : time)
  | CtxExhausted (error : string) (attempt : Z)
  | CtxCancelled (reason : string)
  | CtxWaitingForCallback
  | CtxRescued (reason : string).

Inductive RescueReason : Type := ReasonExpiredCallback | ReasonStaleHeartbeat | ReasonDeadlineExceeded.
Inductive UntypedJobEvent : Type :=
  | EvStarted (job : JobRow)
  | EvCompleted (job : JobRow) (duration : Z)
  | EvRetried (job : JobRow) (error : string) (attempt : Z) (next_run_at : time)
  | EvExhausted (job : JobRow) (error : string) (attempt : Z)
  | EvCancelled (job : JobRow) (reason : string)
  | EvWaitingForCallback (job : JobRow)
  | EvRescued (job : JobRow) (reason : RescueReason).

Inductive CompletionOutcome : Type :=
  | Applied (event : option UntypedJobEvent) (terminal : bool)
  | IgnoredStale.

Inductive CompletionPath : Type := Batched | Direct.

(** [without_outputs] (awa-worker/src/output.rs). *)
Definition without_outputs (job : JobRow) : JobRow :=
  let has_error_output := existsb has_output (default [] (j_errors job)) in
  match j_output job with
  | None => if has_error_output
            then set_errors (option_map strip_error_outputs (j_errors job)) job
            else job
  | Some _ => job |> set_output None |> set_errors (option_map strip_error_outputs (j_errors job))
  end.

(** A registered closure: what to enqueue for a trigger row, nothing, or the
    error of its argument decoding, its panic or a context mismatch. *)
Definition EnqueueSpec : Type :=
  JobRow -> option OutcomeContext -> result AwaError (option (string * json * InsertOpts)).

Definition JOB_UNIQUE_KEY_CONSTRAINT : string := "idx_awa_jobs_unique".
Definition is_duplicate_follow_up (constraint_name : option string) : bool :=
  match constraint_name with
  | Some c => String.eqb c JOB_UNIQUE_KEY_CONSTRAINT
  | None => false
  end.

Definition rescheduled_event_row (now : time) (job : JobRow) (state : JobState) (job_id : Z) (run_at : time)
    (attempt : Z) (error : option json) (progress : option json) : JobRow :=
  job |> set_id job_id |> set_state state |> set_run_at run_at |> set_attempt attempt
      |> set_heartbeat_at None |> set_deadline_at None |> set_progress progress
      |> (fun r => match error with Some e => append_error e r | None => r end)
      |> (fun r => if bool_decide (state = Retryable) then set_finalized_at (Some now) r else r).

(** * Follow-ups in a transaction *)

Section FollowUps.
  Variable blake3 : list Z -> list Z.
  Variable to_vec : json -> list Z.
  Variable ambient : option string.
  (** The storage engine the trigger's transaction runs on: its data and its
      insert. *)
  Context {D : Type} (insert : PreparedJobInsert -> D -> result AwaError (JobRow * D)).

(** One follow-up inside the trigger's transaction: keyed rows go under a
    savepoint, and a duplicate is skipped. Tells whether it was inserted. *)
Definition insert_staged_follow_up (p : PreparedJobInsert) (db : D) : result AwaError (bool * D) :=
  match pi_unique_key p with
  | None => let? (_, db) := insert p db in Ok (true, db)
  | Some _ =>
      match insert p db with
      | Ok (_, db') => Ok (true, db')
      | Err (UniqueConflict constraint_name) =>
          if is_duplicate_follow_up constraint_name then Ok (false, db) else Err (UniqueConflict constraint_name)
      | Err err => Err err
      end
  end.

Definition run_spec (job : JobRow) (ctx : option OutcomeContext) (spec : EnqueueSpec) (db : D)
    : result AwaError D :=
  let? request := spec job ctx in
  match request with
  | None => Ok db
  | Some (kind, args, opts) =>
      let? p := prepare_raw_job_insert blake3 to_vec ambient kind args opts in
      let? (_, db) := insert_staged_follow_up p db in
      Ok db
  end.

Fixpoint dispatch_specs (job : JobRow) (ctx : option OutcomeContext) (specs : list EnqueueSpec) (db : D)
    : result AwaError D :=
  match specs with
  | [] => Ok db
  | spec :: specs =>
      let? db := run_spec job ctx spec db in
      dispatch_specs job ctx specs db
  end.
Definition dispatch_specs_in_tx (job : JobRow) (specs : list EnqueueSpec) (ctx : option OutcomeContext)
    (db : D) : result AwaError D :=
  match specs with
  | [] => Ok db
  | _ => dispatch_specs (without_outputs job) ctx specs db
  end.

(** [(inserted, duplicates)]. *)
Fixpoint insert_staged_in_tx (staged : list PreparedJobInsert) (db : D)
    : result AwaError (Z * Z * D) :=
  match staged with
  | [] => Ok (0, 0, db)
  | row :: staged =>
      let? (inserted, db) := insert_staged_follow_up row db in
      let? (counts, db) := insert_staged_in_tx staged db in
      let '(i, d) := counts in
      Ok (if inserted then (i + 1, d) else (i, d + 1), db)
  end.

(** A transaction that applies [tx], and on a row emits the follow-ups. *)
Definition with_followups (tx : result AwaError (option JobRow * D)) (specs : list EnqueueSpec)
    (ctx : option OutcomeContext) : result AwaError (option (JobRow * D)) :=
  let? (row, db) := tx in
  match row with
  | None => Ok None
  | Some updated_job =>
      let? db := dispatch_specs_in_tx updated_job specs ctx db in
      Ok (Some (updated_job, db))
  end.
End FollowUps.

(** Inserts map a driver error with [map_sqlx_error]. *)
Definition insert_prepared (env : Env) (p : PreparedJobInsert) (db : Db) : result AwaError (JobRow * Db) :=
  match insert_job_compat env p db with
  | Err (Database e) => Err (map_sqlx_error e)
  | other => other
  end.

Section Executor.
  Variable blake3 : list Z -> list Z.
  Variable to_vec : json -> list Z.
  Variable ambient : option string.
  (** [format!("{:?}")] of a duration. *)
  Variable debug_duration : Z -> string.
  (** The registered follow-ups of an outcome and kind. *)
  Variable enqueue_specs : Outcome -> string -> list EnqueueSpec.
  (** [awa.active_queue_storage_schema()] is set; the queue-storage side. *)
  Variable active : bool.
  Variable next_queue_storage_id : Z.
  Variable insert_migrated : JobRow -> option string -> Db -> result AwaError (JobRow * Db).
Definition complete_canonical_with_followups (env : Env) (job : JobRow) (specs : list EnqueueSpec)
    (staged : list PreparedJobInsert) (db : Db) : result AwaError (option (JobRow * Db)) :=
  let? updated := with_followups blake3 to_vec ambient (insert_prepared env) (direct_complete_job env (j_id job) (j_run_lease job) db) specs None in
  match updated with
  | None => Ok None
  | Some (updated_job, db) =>
      let? (_, db) := insert_staged_in_tx (insert_prepared env) staged db in
      Ok (Some (updated_job, db))
  end.

Definition cancel_canonical_with_followups (env : Env) (job : JobRow) (reason : string) (progress : option json)
    (specs : list EnqueueSpec) (db : Db) : result AwaError (option (JobRow * Db)) :=
  with_followups blake3 to_vec ambient (insert_prepared env)
    (cancel_running env (j_id job) (j_run_lease job)
       (lifecycle_error (at_rust env) (String.append "cancelled: " reason) (j_attempt job) false) progress db)
    specs (Some (CtxCancelled reason)).

Definition park_canonical_with_followups (env : Env) (job : JobRow) (progress : option json)
    (specs : list EnqueueSpec) (db : Db) : result AwaError (option (JobRow * Db)) :=
  with_followups blake3 to_vec ambient (insert_prepared env) (park_running (j_id job) (j_run_lease job) progress db) specs (Some CtxWaitingForCallback).

Definition terminal_canonical_with_followups (env : Env) (job : JobRow) (msg : string) (progress : option json)
    (specs : list EnqueueSpec) (db : Db) : result AwaError (option (JobRow * Db)) :=
  with_followups blake3 to_vec ambient (insert_prepared env)
    (fail_running env (j_id job) (j_run_lease job)
       (lifecycle_error (at_rust env) msg (j_attempt job) true) progress db)
    specs (Some (CtxExhausted msg (j_attempt job))).

Definition exhaust_canonical_with_followups (env : Env) (job : JobRow) (msg : string) (progress : option json)
    (specs : list EnqueueSpec) (db : Db) : result AwaError (option (JobRow * Db)) :=
  with_followups blake3 to_vec ambient (insert_prepared env)
    (fail_running env (j_id job) (j_run_lease job)
       (lifecycle_error (at_rust env) msg (j_attempt job) false) progress db)
    specs (Some (CtxExhausted msg (j_attempt job))).

Definition reschedule_attempt (env : Env) (job : JobRow) (k : Reschedule) (error progress : option json) (db : Db)
    : result AwaError (RescheduleOutcome * Db) :=
  reschedule_canonical_attempt next_queue_storage_id insert_migrated active env
    (j_id job) (j_run_lease job) k error progress db.

(** Shared by [retry_after_] and [retry_backoff_canonical_with_followups];
    [ctx] builds the [Retried] context from the synthesized row. A duplicate
    cancellation commits without follow-ups. *)
Definition retry_canonical_with_followups (env : Env) (job : JobRow) (k : Reschedule) (error progress : option json)
    (ctx : JobRow -> OutcomeContext) (specs : list EnqueueSpec) (db : Db)
    : result AwaError (option JobRow * Db) :=
  let? (outcome, db') := reschedule_attempt env job k error progress db in
  match outcome with
  | Rescheduled job_id run_at attempt | Migrated job_id run_at attempt =>
      let updated_job := rescheduled_event_row (now env) job Retryable job_id run_at attempt error progress in
      let? db' := dispatch_specs_in_tx blake3 to_vec ambient (insert_prepared env) updated_job specs (Some (ctx updated_job)) db' in
      Ok (Some updated_job, db')
  | CancelledDuplicate _ => Ok (None, db')
  | Stale => Ok (None, db)
  end.

(** The row an event carries when the fast path re-reads it. *)
Definition read_back (id : Z) (db : Db) : result AwaError JobRow :=
  match hot db !! id with
  | Some r => Ok r
  | None => Err (Database SqlxRowNotFound)
  end.

(** A fast-path statement followed by its optional event. *)
Definition settle_row (needs_event : bool) (job : JobRow) (event : JobRow -> UntypedJobEvent) (terminal : bool)
    (row : option JobRow) (db : Db) : result AwaError (CompletionOutcome * Db) :=
  match row with
  | None => Ok (IgnoredStale, db)
  | Some _ =>
      if needs_event
      then let? updated_job := read_back (j_id job) db in
           Ok (Applied (Some (event updated_job)) terminal, db)
      else Ok (Applied None terminal, db)
  end.

(** The outcome of a follow-up transaction. *)
Definition settle_tx (needs_event : bool) (event : JobRow -> UntypedJobEvent) (terminal : bool) (db : Db)
    (out : option (JobRow * Db)) : result AwaError (CompletionOutcome * Db) :=
  match out with
  | None => Ok (IgnoredStale, db)
  | Some (updated_job, db') => Ok (Applied (if needs_event then Some (event updated_job) else None) terminal, db')
  end.

Definition exhaust_canonical (env : Env) (job : JobRow) (error_msg : string) (progress : option json)
    (needs_event : bool) (db : Db) : result AwaError (CompletionOutcome * Db) :=
  let event updated_job := EvExhausted updated_job error_msg (j_attempt job) in
  match enqueue_specs OExhausted (j_kind job) with
  | [] =>
      let? (row, db) :=
        fail_running env (j_id job) (j_run_lease job)
          (lifecycle_error (at_rust env) error_msg (j_attempt job) false) progress db in
      settle_row needs_event job event true row db
  | specs =>
      let? out := exhaust_canonical_with_followups env job error_msg progress specs db in
      settle_tx needs_event event true db out
  end.

(** The retry branches after the budget check. *)
Definition retry_canonical (env : Env) (job : JobRow) (k : Reschedule) (error : option json) (progress : option json)
    (error_msg : string) (event_attempt : JobRow -> Z) (needs_event : bool) (db : Db)
    : result AwaError (CompletionOutcome * Db) :=
  let event r := EvRetried r error_msg (event_attempt r) (j_run_at r) in
  match enqueue_specs ORetried (j_kind job) with
  | [] =>
      let? (outcome, db') := reschedule_attempt env job k error progress db in
      match outcome with
      | Rescheduled job_id run_at attempt | Migrated job_id run_at attempt =>
          let updated_job := rescheduled_event_row (now env) job Retryable job_id run_at attempt error progress in
          Ok (Applied (if needs_event then Some (event updated_job) else None) false, db')
      | CancelledDuplicate _ | Stale => Ok (IgnoredStale, db')
      end
  | specs =>
      let? (row, db') :=
        retry_canonical_with_followups env job k error progress
          (fun r => CtxRetried error_msg (event_attempt r) (j_run_at r)) specs db in
      match row with
      | None => Ok (IgnoredStale, db')
      | Some updated_job => Ok (Applied (if needs_event then Some (event updated_job) else None) false, db')
      end
  end.

(** The completion branch; [batch] are the other requests the batcher flushes
    together with this one. *)
Definition complete_completed (env : Env) (job : JobRow) (staged : list PreparedJobInsert) (path : CompletionPath)
    (batch : list (Z * Z)) (duration : Z) (needs_event : bool) (db : Db)
    : result AwaError (CompletionOutcome * Db) :=
  let specs := enqueue_specs OCompleted (j_kind job) in
  let event updated_job := EvCompleted updated_job duration in
  match specs, staged with
  | [], [] =>
      let direct := direct_complete_job env (j_id job) (j_run_lease job) db in
      let? (row, db) :=
        match path with
        | Direct => direct
        | Batched =>
            match complete_batch env ((j_id job, j_run_lease job) :: batch) db with
            | Ok (done, db') =>
                Ok (List.find (fun r => (j_id r =? j_id job) && (j_run_lease r =? j_run_lease job)) done, db')
            | Err _ => direct
            end
        end in
      settle_row needs_event job event false row db
  | _, _ =>
      let? out := complete_canonical_with_followups env job specs staged db in
      settle_tx needs_event event false db out
  end.

(** [WaitForCallback] when the parking UPDATE matched no row. *)
Definition park_missed (env : Env) (job : JobRow) (db : Db) : result AwaError (CompletionOutcome * Db) :=
  match lookup_job (j_id job) db with
  | None => Ok (IgnoredStale, db)
  | Some current =>
      if is_terminal (j_state current) then Ok (Applied None false, db)
      else
        match j_callback_id current with
        | None =>
            let? (row, db) :=
              fail_unregistered env (j_id job) (j_run_lease job)
                (lifecycle_error (at_rust env) "WaitForCallback returned without calling register_callback"
                   (j_attempt job) true) db in
            match row with
            | None => Ok (IgnoredStale, db)
            | Some _ => Ok (Applied None true, db)
            end
        | Some _ => Ok (IgnoredStale, db)
        end
  end.

Definition complete_waiting (env : Env) (job : JobRow) (progress : option json) (needs_event : bool) (db : Db)
    : result AwaError (CompletionOutcome * Db) :=
  let fast db :=
    let? (row, db) := park_running (j_id job) (j_run_lease job) progress db in
    match row with
    | None => park_missed env job db
    | Some _ => settle_row needs_event job EvWaitingForCallback false row db
    end in
  match enqueue_specs OWaitingForCallback (j_kind job) with
  | [] => fast db
  | specs =>
      let? parked := park_canonical_with_followups env job progress specs db in
      match parked with
      | Some _ => settle_tx needs_event EvWaitingForCallback false db parked
      | None => fast db
      end
  end.

Definition complete_cancelled (env : Env) (job : JobRow) (reason : string) (progress : option json)
    (needs_event : bool) (db : Db) : result AwaError (CompletionOutcome * Db) :=
  let event updated_job := EvCancelled updated_job reason in
  match enqueue_specs OCancelled (j_kind job) with
  | [] =>
      let? (row, db) :=
        cancel_running env (j_id job) (j_run_lease job)
          (lifecycle_error (at_rust env) (String.append "cancelled: " reason) (j_attempt job) false) progress db in
      settle_row needs_event job event false row db
  | specs =>
      let? out := cancel_canonical_with_followups env job reason progress specs db in
      settle_tx needs_event event false db out
  end.

Definition complete_terminal (env : Env) (job : JobRow) (msg : string) (progress : option json)
    (needs_event : bool) (db : Db) : result AwaError (CompletionOutcome * Db) :=
  let event updated_job := EvExhausted updated_job msg (j_attempt job) in
  match enqueue_specs OExhausted (j_kind job) with
  | [] =>
      let? (row, db) :=
        fail_running env (j_id job) (j_run_lease job)
          (lifecycle_error (at_rust env) msg (j_attempt job) true) progress db in
      settle_row needs_event job event true row db
  | specs =>
      let? out := terminal_canonical_with_followups env job msg progress specs db in
      settle_tx needs_event event true db out
  end.

Definition complete_job_canonical (env : Env) (job : JobRow) (res : HandlerResult)
    (staged : list PreparedJobInsert) (path : CompletionPath) (batch : list (Z * Z)) (progress : option json)
    (duration : Z) (needs_event : bool) (db : Db) : result AwaError (CompletionOutcome * Db) :=
  match res with
  | Ok JCompleted => complete_completed env job staged path batch duration needs_event db
  | Ok (JRetryAfter d) =>
      if j_max_attempts job <=? j_attempt job
      then
        exhaust_canonical env job
          (String.append "max_attempts exhausted (handler requested retry after "
             (String.append (debug_duration d) ")"))
          progress needs_event db
      else
        retry_canonical env job (RetryAfter (as_secs d * us_per_sec)) None progress EmptyString j_attempt
          needs_event db
  | Ok (JSnooze d) =>
      let? (outcome, db) :=
        reschedule_attempt env job (Snooze (as_secs d * us_per_sec)) None progress db in
      match outcome with
      | Stale | CancelledDuplicate _ => Ok (IgnoredStale, db)
      | Rescheduled _ _ _ | Migrated _ _ _ => Ok (Applied None false, db)
      end
  | Ok (JCancel reason) => complete_cancelled env job reason progress needs_event db
  | Ok JWaitForCallback => complete_waiting env job progress needs_event db
  | Err (JTerminal msg) => complete_terminal env job msg progress needs_event db
  | Err (JRetryable msg) =>
      if j_max_attempts job <=? j_attempt job
      then exhaust_canonical env job msg progress needs_event db
      else
        retry_canonical env job RetryBackoff
          (Some (lifecycle_error (at_rust env) msg (j_attempt job) false)) progress msg
          (fun _ => j_attempt job) needs_event db
  end.

End Executor.
