(* ===== verification/ExecutorFacts.v ===== *)
(** Finalization refines the lifecycle machine: whatever a handler returns,
    [complete_job_canonical] performs a run of [db_step]s or commits nothing. *)

From S2P Require Import Prelude.
From S2P Require Import Error.
From S2P Require Import Json.
From S2P Require Import Job.
From S2P Require Import Canonical.
From S2P Require Import CanonicalFacts.
From S2P Require Import Lifecycle.
From S2P Require Import Executor.

(** A committed database is reached by the machine. *)
Definition reaches (db db' : Db) : Prop := wf db' /\ rtc db_step db db'.

Definition commits {A} (db : Db) (out : result AwaError (A * Db)) : Prop :=
  forall a db', out = Ok (a, db') -> reaches db db'.

Lemma refines_commits {A} db (out : result AwaError (A * Db)) : refines db out -> commits db out.
Proof. intros H a db' ->. exact H. Qed.

Lemma reaches_refl db : wf db -> reaches db db.
Proof. intros Hwf. split; [exact Hwf|reflexivity]. Qed.

Lemma reaches_trans db db1 db2 : reaches db db1 -> reaches db1 db2 -> reaches db db2.
Proof. intros [_ H1] [Hwf H2]. split; [exact Hwf|]. etrans; eassumption. Qed.

Lemma commits_trans {A} db db1 (out : result AwaError (A * Db)) :
  reaches db db1 -> commits db1 out -> commits db out.
Proof. intros Hr Hc a db' H. eapply reaches_trans; [exact Hr|]. eapply Hc, H. Qed.

Lemma commits_bind {A B} db (m : result AwaError (A * Db)) (f : A * Db -> result AwaError (B * Db)) :
  commits db m -> (forall a db', reaches db db' -> commits db (f (a, db'))) -> commits db (rbind m f).
Proof.
  intros Hm Hf b db' H. apply rbind_Ok in H as ([a db1] & H1 & H2).
  eapply Hf; [eapply Hm, H1|exact H2].
Qed.

Lemma commits_Ok {A} db db' (a : A) : reaches db db' -> commits db (Ok (a, db')).
Proof. intros H b db'' [= _ <-]. exact H. Qed.

Lemma commits_Err {A} db e : commits db (Err e : result AwaError (A * Db)).
Proof. intros b db' H. discriminate. Qed.

#[export] Hint Resolve reaches_refl commits_Ok commits_Err : awa.

(** A prepared insert starts as [scheduled] or [available]. *)
Definition prepared_state (p : PreparedJobInsert) : Prop := pi_state p = Scheduled \/ pi_state p = Available.

Lemma prepare_state blake3 to_vec ambient kind args opts p :
  prepare_raw_job_insert blake3 to_vec ambient kind args opts = Ok p -> prepared_state p.
Proof.
  unfold prepare_raw_job_insert. rewrite rbind_Ok. intros ([] & _ & H). rewrite rbind_Ok in H.
  destruct H as ([] & _ & H). simpl in H. injection H as <-. unfold prepared_state. simpl.
  destruct (o_run_at opts); auto.
Qed.

Lemma insert_job_compat_commits env p db : wf db -> prepared_state p -> commits db (insert_job_compat env p db).
Proof.
  intros Hwf Hp. destruct (insert_valid p) eqn:Hv.
  - apply refines_commits, insert_job_compat_refines; assumption.
  - unfold insert_job_compat. rewrite Hv. apply commits_Err.
Qed.

Lemma insert_prepared_commits env p db : wf db -> prepared_state p -> commits db (insert_prepared env p db).
Proof.
  intros Hwf Hp. pose proof (insert_job_compat_commits env p db Hwf Hp) as H. unfold insert_prepared.
  destruct (insert_job_compat env p db) as [[r db']|e]; [exact H|]. destruct e; apply commits_Err.
Qed.

Lemma staged_follow_up_commits env p db :
  wf db -> prepared_state p -> commits db (insert_staged_follow_up (insert_prepared env) p db).
Proof.
  intros Hwf Hp. pose proof (insert_prepared_commits env p db Hwf Hp) as H. unfold insert_staged_follow_up.
  destruct (pi_unique_key p).
  - destruct (insert_prepared env p db) as [[r db']|e]; [apply commits_Ok; eapply H; reflexivity|].
    destruct e; try apply commits_Err. case_match_goal; auto with awa.
  - apply commits_bind; [exact H|]. intros a db' Hr. apply commits_Ok, Hr.
Qed.

Section Refinement.
  Context (blake3 : list Z -> list Z) (to_vec : json -> list Z) (ambient : option string)
    (debug_duration : Z -> string) (enqueue_specs : Outcome -> string -> list EnqueueSpec)
    (next_queue_storage_id : Z) (insert_migrated : JobRow -> option string -> Db -> result AwaError (JobRow * Db)).

Lemma run_spec_reaches env job ctx spec db db' :
  wf db -> run_spec blake3 to_vec ambient (insert_prepared env) job ctx spec db = Ok db' -> reaches db db'.
Proof.
  intros Hwf H. unfold run_spec in H. apply rbind_Ok in H as ([[[kind args] opts]|] & _ & H).
  - apply rbind_Ok in H as (p & Hp & H). apply rbind_Ok in H as ([b db1] & H1 & H2). injection H2 as <-.
    eapply staged_follow_up_commits; [exact Hwf|eapply prepare_state, Hp|exact H1].
  - injection H as <-. apply reaches_refl, Hwf.
Qed.

Lemma dispatch_specs_reaches env job ctx specs db db' :
  wf db -> dispatch_specs blake3 to_vec ambient (insert_prepared env) job ctx specs db = Ok db' -> reaches db db'.
Proof.
  revert db. induction specs as [|spec specs IH]; intros db Hwf H; simpl in H.
  - injection H as <-. apply reaches_refl, Hwf.
  - apply rbind_Ok in H as (db1 & H1 & H2). apply run_spec_reaches in H1; [|exact Hwf].
    eapply reaches_trans; [exact H1|]. apply IH; [apply H1|exact H2].
Qed.

Lemma dispatch_in_tx_reaches env job specs ctx db db' :
  wf db -> dispatch_specs_in_tx blake3 to_vec ambient (insert_prepared env) job specs ctx db = Ok db' -> reaches db db'.
Proof.
  intros Hwf H. destruct specs; [injection H as <-; apply reaches_refl, Hwf|].
  eapply dispatch_specs_reaches; [exact Hwf|exact H].
Qed.

Lemma staged_in_tx_commits env staged db :
  wf db -> Forall prepared_state staged -> commits db (insert_staged_in_tx (insert_prepared env) staged db).
Proof.
  intros Hwf Hs. revert db Hwf. induction Hs as [|p staged Hp Hs IH]; intros db Hwf; simpl.
  { apply commits_Ok, reaches_refl, Hwf. }
  apply commits_bind; [apply staged_follow_up_commits; assumption|]. intros b db1 H1.
  apply commits_bind; [eapply commits_trans; [exact H1|apply IH, H1]|]. intros [i d] db2 H2.
  apply commits_Ok, H2.
Qed.

(** The database a follow-up transaction commits. *)
Definition tx_reaches (db : Db) (out : result AwaError (option (JobRow * Db))) : Prop :=
  forall r db', out = Ok (Some (r, db')) -> reaches db db'.

Lemma with_followups_reaches env tx specs ctx db :
  commits db tx -> tx_reaches db (with_followups blake3 to_vec ambient (insert_prepared env) tx specs ctx).
Proof.
  intros Htx r db' H. unfold with_followups in H. apply rbind_Ok in H as ([[q|] db1] & H1 & H2); [|discriminate].
  apply rbind_Ok in H2 as (db2 & H2 & H3). injection H3 as <- <-. apply Htx in H1.
  eapply reaches_trans; [exact H1|]. eapply dispatch_in_tx_reaches; [apply H1|exact H2].
Qed.

Lemma settle_tx_commits needs_event event terminal db (out : result AwaError (option (JobRow * Db))) :
  wf db -> tx_reaches db out ->
  commits db (rbind out (settle_tx needs_event event terminal db)).
Proof.
  intros Hwf Ht a db' H. apply rbind_Ok in H as ([[r db1]|] & H1 & H2); simpl in H2; injection H2 as <- <-.
  - eapply Ht, H1.
  - apply reaches_refl, Hwf.
Qed.

Lemma settle_row_commits needs_event job event terminal row db db' :
  reaches db db' -> commits db (settle_row needs_event job event terminal row db').
Proof.
  intros Hr. unfold settle_row. destruct row; [|auto with awa]. destruct needs_event; [|auto with awa].
  intros a db1 H. apply rbind_Ok in H as (r & _ & H). injection H as <- <-. exact Hr.
Qed.

(** The executor's snapshot of a job agrees with the row while its attempt is
    open. *)
Definition agrees (job : JobRow) (db : Db) : Prop :=
  forall r, lookup_job (j_id job) db = Some r -> is_open (j_state r) = true ->
    j_run_lease r = j_run_lease job ->
    j_attempt r = j_attempt job /\ j_max_attempts r = j_max_attempts job.

Lemma reschedule_attempt_commits env job k error progress db :
  wf db -> agrees job db ->
  match k with Snooze _ => True | _ => j_attempt job < j_max_attempts job end ->
  commits db (reschedule_attempt false next_queue_storage_id insert_migrated env job k error progress db).
Proof.
  intros Hwf Ha Hk. unfold reschedule_attempt, reschedule_canonical_attempt.
  apply refines_commits, reschedule_refines; [exact Hwf|]. unfold reschedule_in_budget.
  destruct k; [exact I|..]; intros r Hr Hg; apply running_lease_true in Hg as [Hs Hl];
    destruct (Ha r (lookup_hot _ _ _ Hr) (running_open _ Hs) Hl); lia.
Qed.

Lemma retry_canonical_commits env job k error progress msg event_attempt needs_event db :
  wf db -> agrees job db -> j_attempt job < j_max_attempts job ->
  commits db (retry_canonical blake3 to_vec ambient enqueue_specs false next_queue_storage_id insert_migrated
                env job k error progress msg event_attempt needs_event db).
Proof.
  intros Hwf Ha Hb. assert (commits db (reschedule_attempt false next_queue_storage_id insert_migrated
    env job k error progress db)) as Hr.
  { apply reschedule_attempt_commits; [assumption..|]. destruct k; auto. }
  unfold retry_canonical. destruct (enqueue_specs ORetried (j_kind job)) as [|spec specs].
  - apply commits_bind; [exact Hr|]. intros o db1 H1. destruct o; apply commits_Ok, H1.
  - apply commits_bind; [|intros [q|] db1 H1; apply commits_Ok, H1].
    unfold retry_canonical_with_followups. apply commits_bind; [exact Hr|]. intros o db1 H1.
    destruct o; try (apply commits_Ok; first [exact H1|apply reaches_refl, Hwf]);
      (intros a db2 H2; apply rbind_Ok in H2 as (db3 & H2 & H3); injection H3 as <- <-;
       eapply reaches_trans; [exact H1|]; eapply dispatch_in_tx_reaches; [apply H1|exact H2]).
Qed.

Lemma exhaust_canonical_commits env job msg progress needs_event db :
  wf db -> commits db (exhaust_canonical blake3 to_vec ambient enqueue_specs env job msg progress needs_event db).
Proof.
  intros Hwf. unfold exhaust_canonical.
  destruct (enqueue_specs OExhausted (j_kind job)) as [|spec specs].
  - apply commits_bind; [apply refines_commits, fail_running_refines, Hwf|].
    intros row db1 H1. apply settle_row_commits, H1.
  - apply settle_tx_commits; [exact Hwf|]. apply with_followups_reaches, refines_commits, fail_running_refines, Hwf.
Qed.

Lemma complete_completed_commits env job staged path batch duration needs_event db :
  wf db -> Forall prepared_state staged ->
  commits db (complete_completed blake3 to_vec ambient enqueue_specs env job staged path batch duration needs_event db).
Proof.
  intros Hwf Hs. pose proof (refines_commits _ _ (direct_complete_refines env (j_id job) (j_run_lease job) db Hwf)) as Hd.
  assert (commits db (rbind (complete_canonical_with_followups blake3 to_vec ambient env job
    (enqueue_specs OCompleted (j_kind job)) staged db)
    (settle_tx needs_event (fun u => EvCompleted u duration) false db))) as Hf.
  { apply settle_tx_commits; [exact Hwf|]. intros r db' H. unfold complete_canonical_with_followups in H.
    apply rbind_Ok in H as ([[q db1]|] & H1 & H2); [|discriminate].
    apply (with_followups_reaches _ _ _ _ _ Hd) in H1. apply rbind_Ok in H2 as ([c db2] & H2 & H3).
    injection H3 as <- <-. eapply reaches_trans; [exact H1|]. eapply staged_in_tx_commits; [apply H1|exact Hs|exact H2]. }
  unfold complete_completed. destruct (enqueue_specs OCompleted (j_kind job)), staged; try exact Hf.
  apply commits_bind; [|intros row db1 H1; apply settle_row_commits, H1].
  destruct path; [|exact Hd].
  pose proof (refines_commits _ _ (complete_batch_refines env ((j_id job, j_run_lease job) :: batch) db Hwf)) as Hb.
  destruct (complete_batch _ _ _) as [[done db1]|e]; [|exact Hd]. apply commits_Ok. eapply Hb. reflexivity.
Qed.

Lemma park_missed_commits env job db db' :
  reaches db db' -> commits db (park_missed env job db').
Proof.
  intros Hr. unfold park_missed. destruct (lookup_job (j_id job) db') as [cur|]; [|apply commits_Ok, Hr].
  destruct (is_terminal (j_state cur)); [apply commits_Ok, Hr|].
  destruct (j_callback_id cur); [apply commits_Ok, Hr|]. eapply commits_trans; [exact Hr|].
  apply commits_bind; [apply refines_commits, fail_unregistered_refines, Hr|].
  intros [q|] db1 H1; apply commits_Ok, H1.
Qed.

Lemma complete_waiting_commits env job progress needs_event db :
  wf db -> commits db (complete_waiting blake3 to_vec ambient enqueue_specs env job progress needs_event db).
Proof.
  intros Hwf. pose proof (refines_commits _ _ (park_running_refines (j_id job) (j_run_lease job) progress db Hwf)) as Hp.
  assert (commits db (rbind (park_running (j_id job) (j_run_lease job) progress db)
    (fun '(row, db) => match row with
       | None => park_missed env job db
       | Some _ => settle_row needs_event job EvWaitingForCallback false row db end))) as Hfast.
  { apply commits_bind; [exact Hp|]. intros [q|] db1 H1; [apply settle_row_commits, H1|apply park_missed_commits, H1]. }
  unfold complete_waiting. destruct (enqueue_specs OWaitingForCallback (j_kind job)) as [|spec specs]; [exact Hfast|].
  intros a db' H. apply rbind_Ok in H as (parked & H1 & H2). destruct parked as [[q db1]|].
  - simpl in H2. injection H2 as <- <-. apply (with_followups_reaches _ _ _ _ _ Hp) in H1. exact H1.
  - eapply Hfast, H2.
Qed.

Lemma complete_job_commits env job res staged path batch progress duration needs_event db :
  wf db -> agrees job db -> Forall prepared_state staged ->
  commits db (complete_job_canonical blake3 to_vec ambient debug_duration enqueue_specs false
    next_queue_storage_id insert_migrated env job res staged path batch progress duration needs_event db).
Proof.
  intros Hwf Ha Hs. destruct res as [[|d|d|reason|]|[msg|msg]]; cbn [complete_job_canonical].
  - apply complete_completed_commits; assumption.
  - destruct (Z.leb_spec (j_max_attempts job) (j_attempt job)).
    + apply exhaust_canonical_commits, Hwf.
    + apply retry_canonical_commits; assumption.
  - apply commits_bind; [apply reschedule_attempt_commits; auto|]. intros o db1 H1. destruct o; apply commits_Ok, H1.
  - unfold complete_cancelled. destruct (enqueue_specs OCancelled (j_kind job)) as [|spec specs].
    + apply commits_bind; [apply refines_commits, cancel_running_refines, Hwf|].
      intros row db1 H1. apply settle_row_commits, H1.
    + apply settle_tx_commits; [exact Hwf|]. apply with_followups_reaches, refines_commits, cancel_running_refines, Hwf.
  - apply complete_waiting_commits, Hwf.
  - destruct (Z.leb_spec (j_max_attempts job) (j_attempt job)).
    + apply exhaust_canonical_commits, Hwf.
    + apply retry_canonical_commits; assumption.
  - unfold complete_terminal. destruct (enqueue_specs OExhausted (j_kind job)) as [|spec specs].
    + apply commits_bind; [apply refines_commits, fail_running_refines, Hwf|].
      intros row db1 H1. apply settle_row_commits, H1.
    + apply settle_tx_commits; [exact Hwf|]. apply with_followups_reaches, refines_commits, fail_running_refines, Hwf.
Qed.
End Refinement.
