(* ===== verification/Batcher.v ===== *)
(** The completion batcher (awa-worker/src/completion.rs): how a shard collects
    requests, what one flush does on either storage engine, and the answer each
    request gets. *)

From stdpp Require Import relations.
From S2P Require Import Prelude.
From S2P Require Import Error.
From S2P Require Import Json.
From S2P Require Import Job.
From S2P Require Import Canonical.
From S2P Require Import Rows.
From S2P Require Import Lanes.
From S2P Require Import QueueStore.
From S2P Require Import Completion.
From S2P Require Import StoreFacts.
From S2P Require Import StoreGuarantees.

(** * Requests *)

Record CompletionRequest : Type := mkRequest {
  rq_job_id : Z;
  rq_run_lease : Z;
  rq_claim : option ClaimedEntry;
  rq_runtime_job : option ClaimedRuntimeJob
}.
Definition rq_attempt (r : CompletionRequest) : Z * Z := (rq_job_id r, rq_run_lease r).
(** [complete] and [complete_runtime_job]. *)
Definition request_of_id (job_id run_lease : Z) : CompletionRequest := mkRequest job_id run_lease None None.
Definition request_of_job (e : ClaimedRuntimeJob) : CompletionRequest :=
  mkRequest (j_id (cj_job e)) (j_run_lease (cj_job e)) (Some (cj_claim e)) (Some e).
Definition completion_shard (shards job_id : Z) : Z := rem_euclid job_id shards.

Definition i32_max : Z := 2 ^ 31 - 1.
Definition completion_sort_key (r : CompletionRequest) : Z * Z * Z :=
  (match rq_runtime_job r with
   | Some e => ce_claim_slot (cj_claim e)
   | None => match rq_claim r with Some c => ce_claim_slot c | None => i32_max end
   end, rq_job_id r, rq_run_lease r).
Definition request_le (a b : CompletionRequest) : Prop :=
  let '(a1, a2, a3) := completion_sort_key a in let '(b1, b2, b3) := completion_sort_key b in
  (a1 <? b1) || (a1 =? b1) && ((a2 <? b2) || (a2 =? b2) && (a3 <=? b3)) = true.
#[global] Instance request_le_dec : RelDecision request_le.
Proof.
  intros a b. unfold request_le. destruct (completion_sort_key a) as [[? ?] ?]. destruct (completion_sort_key b) as [[? ?] ?].
  apply bool_eq_dec.
Defined.

(** * One shard *)

(** What a shard's loop is woken by; the timer runs only over pending requests. *)
Inductive Signal : Type := Request (r : CompletionRequest) | Timer.
Section Worker.
  Variable batch_size : nat.

(** The flushes so far in order, and what is pending. *)
Definition push_request (r : CompletionRequest) (pending : list CompletionRequest)
    : list (list CompletionRequest) * list CompletionRequest :=
  let pending := pending ++ [r] in
  if (batch_size <=? length pending)%nat then ([pending], []) else ([], pending).
Fixpoint worker_loop (signals : list Signal) (pending : list CompletionRequest)
    : list (list CompletionRequest) * list CompletionRequest :=
  match signals with
  | [] => ([], pending)
  | Request r :: signals =>
      let '(flushed, pending) := match pending with [] => ([], [r]) | _ => push_request r pending end in
      let '(more, pending) := worker_loop signals pending in (flushed ++ more, pending)
  | Timer :: signals =>
      let flushed := match pending with [] => [] | _ => [pending] end in
      let '(more, pending) := worker_loop signals [] in (flushed ++ more, pending)
  end.
(** After the cancellation: what the channel still holds. *)
Fixpoint worker_drain (queued pending : list CompletionRequest) : list (list CompletionRequest) :=
  match queued with
  | [] => match pending with [] => [] | _ => [pending] end
  | r :: queued => let '(flushed, pending) := push_request r pending in flushed ++ worker_drain queued pending
  end.
Definition worker_run (signals : list Signal) (queued : list CompletionRequest) : list (list CompletionRequest) :=
  let '(flushed, pending) := worker_loop signals [] in flushed ++ worker_drain queued pending.

Definition requests (signals : list Signal) : list CompletionRequest :=
  omap (fun s => match s with Request r => Some r | Timer => None end) signals.
End Worker.

(** * One flush *)

(** The rows the storage reports, and of a flush that failed those whose own
    transaction had committed. *)
Record Flushed : Type := mkFlushed {
  fl_updated : result AwaError (list (Z * Z));
  fl_committed_job_ids : list Z;
  fl_committed_pairs : list (Z * Z)
}.
Definition flush_canonical (env : Env) (pending : list CompletionRequest) (db : Db) : Flushed * Db :=
  match complete_batch env (map rq_attempt (merge_sort request_le pending)) db with
  | Ok (rows, db) => (mkFlushed (Ok (map (fun r => (j_id r, j_run_lease r)) rows)) [] [], db)
  | Err e => (mkFlushed (Err e) [] [], db)
  end.

Definition has_job (r : CompletionRequest) : bool := match rq_runtime_job r with Some _ => true | None => false end.
(** [collect::<Option<Vec<_>>>]. *)
Fixpoint all_some {A} (l : list (option A)) : option (list A) :=
  match l with
  | [] => Some []
  | Some x :: l => cons x <$> all_some l
  | None :: _ => None
  end.
Definition flush_rest (env : StoreEnv) (rest : list CompletionRequest) (q : QStore) : result AwaError (list (Z * Z) * QStore) :=
  match all_some (map rq_claim rest) with
  | Some claimed => complete_claimed_batch env claimed q
  | None => complete_job_batch_by_id env (map rq_attempt rest) q
  end.
Definition flush_queue_storage (env : StoreEnv) (pending : list CompletionRequest) (q : QStore) : Flushed * QStore :=
  let batch := merge_sort request_le pending in
  let with_job := List.filter has_job batch in
  let rest := List.filter (fun r => negb (has_job r)) batch in
  let '(first, q) := match omap rq_runtime_job with_job with
                     | [] => (Ok [], q)
                     | runtime_jobs => complete_runtime_batch env runtime_jobs q
                     end in
  match first, rest with
  | Err e, _ => (mkFlushed (Err e) [] [], q)
  | Ok updated, [] => (mkFlushed (Ok updated) [] [], q)
  | Ok updated, _ =>
      match flush_rest env rest q with
      | Ok (more, q) => (mkFlushed (Ok (updated ++ more)) [] [], q)
      | Err e => (mkFlushed (Err e) (map rq_job_id with_job) updated, q)
      end
  end.

Section Response.
  (** [Display] of an error. *)
  Variable display : AwaError -> string.
Definition response (f : Flushed) (r : CompletionRequest) : result AwaError bool :=
  match fl_updated f with
  | Ok updated => Ok (bool_decide (rq_attempt r ∈ updated))
  | Err e =>
      if bool_decide (rq_job_id r ∈ fl_committed_job_ids f) then Ok (bool_decide (rq_attempt r ∈ fl_committed_pairs f))
      else Err (Validation ("completion batch flush failed: " +:+ display e))
  end.
End Response.

(** * Every request is flushed once *)

Section WorkerFacts.
  Variable batch_size : nat.
Definition sized (b : list CompletionRequest) : Prop := b <> [] /\ (length b <= Nat.max 2 batch_size)%nat.
(** What is pending never fills a batch, but for a first request. *)
Definition room (pending : list CompletionRequest) : Prop := (length pending < Nat.max 2 batch_size)%nat.

Lemma push_spec r pending flushed pending' :
  push_request batch_size r pending = (flushed, pending') -> room pending ->
  concat flushed ++ pending' = pending ++ [r] /\ Forall sized flushed /\ room pending'.
Proof.
  unfold push_request, room, sized. destruct (Nat.leb_spec batch_size (length (pending ++ [r]))) as [Hl|Hl]; rewrite length_app in Hl; simpl in Hl;
    intros [= <- <-] Hr; simpl; rewrite ?app_nil_r; split_and!; try done; try lia.
  - apply Forall_singleton. split; [by destruct pending|rewrite length_app; simpl; lia].
  - rewrite length_app. simpl. lia.
Qed.
Lemma loop_spec signals pending flushed pending' :
  worker_loop batch_size signals pending = (flushed, pending') -> room pending ->
  concat flushed ++ pending' = pending ++ requests signals /\ Forall sized flushed /\ room pending'.
Proof.
  revert pending flushed. induction signals as [|[r|] signals IH]; intros pending flushed; simpl.
  - intros [= <- <-] Hr. rewrite app_nil_r. split_and!; [done|constructor|done].
  - destruct (match pending with [] => _ | _ => _ end) as [f1 p1] eqn:H1. destruct (worker_loop _ signals p1) as [more p2] eqn:H2.
    intros [= <- <-] Hr.
    assert (concat f1 ++ p1 = pending ++ [r] /\ Forall sized f1 /\ room p1) as (E1 & F1 & R1).
    { destruct pending as [|x pending]; [injection H1 as <- <-; split_and!; [done|constructor|unfold room; simpl; lia]|by apply push_spec]. }
    destruct (IH _ _ H2 R1) as (E2 & F2 & R2). rewrite concat_app, <- app_assoc, E2, app_assoc, E1, <- app_assoc. split_and!; [done|by apply Forall_app|done].
  - destruct (worker_loop _ signals []) as [more p2] eqn:H2. intros [= <- <-] Hr.
    destruct (IH _ _ H2) as (E2 & F2 & R2); [unfold room; simpl; lia|]. rewrite concat_app, <- app_assoc, E2. simpl. split_and!; [|apply Forall_app; split|done].
    + destruct pending; [done|]. simpl. by rewrite app_nil_r.
    + destruct pending; [constructor|]. apply Forall_singleton. unfold room in Hr. split; [done|lia].
    + done.
Qed.
Lemma drain_spec queued pending :
  room pending -> concat (worker_drain batch_size queued pending) = pending ++ queued /\ Forall sized (worker_drain batch_size queued pending).
Proof.
  revert pending. induction queued as [|r queued IH]; intros pending Hr; simpl.
  - rewrite app_nil_r. destruct pending; [split; [done|constructor]|]. simpl. rewrite app_nil_r. split; [done|].
    apply Forall_singleton. unfold room in Hr. split; [done|lia].
  - destruct (push_request _ r pending) as [f p] eqn:Hp. destruct (push_spec _ _ _ _ Hp Hr) as (E1 & F1 & R1). destruct (IH p R1) as (E2 & F2).
    rewrite concat_app, E2, app_assoc, E1, <- app_assoc. split; [done|by apply Forall_app].
Qed.
End WorkerFacts.

(** A shard of the batcher loses no request and takes none twice: whenever
    its timer fires and wherever the cancellation falls, what it flushes is what
    it was sent, in the order sent, those that were queued when it stopped
    included; no flush is empty and none exceeds the batch size, or two when
    that is one. *)
Theorem worker_flushes_each_once batch_size signals queued :
  let flushes := worker_run batch_size signals queued in
  concat flushes = requests signals ++ queued
  /\ Forall (fun b => b <> [] /\ (length b <= Nat.max 2 batch_size)%nat) flushes.
Proof.
  unfold worker_run. destruct (worker_loop batch_size signals []) as [f p] eqn:Hl.
  destruct (loop_spec batch_size _ _ _ _ Hl) as (E1 & F1 & R1); [unfold room; simpl; lia|].
  destruct (drain_spec batch_size queued p R1) as (E2 & F2). simpl in *.
  rewrite concat_app, E2, app_assoc, E1. split; [done|by apply Forall_app].
Qed.

(** * Answers *)

(** Operations that end attempts, one after the other, and all they report. *)
Inductive finish_run (out : list ClaimedRuntimeJob) : QStore -> list (Z * Z) -> QStore -> Prop :=
  | finish_none q : finish_run out q [] q
  | finish_more q xs q1 ys q2 : finish_step out q xs q1 -> finish_run out q1 ys q2 -> finish_run out q (xs ++ ys) q2.
Lemma finish_once out q xs q' : finish_step out q xs q' -> finish_run out q xs q'.
Proof. intros H. rewrite <- (app_nil_r xs). by eapply finish_more, finish_none. Qed.
Lemma finish_run_app out q xs q1 ys q2 : finish_run out q xs q1 -> finish_run out q1 ys q2 -> finish_run out q (xs ++ ys) q2.
Proof. induction 1 as [|q xs q1 zs q3 H1 H2 IH]; [done|]. intros H. rewrite <- app_assoc. eapply finish_more; [exact H1|by apply IH]. Qed.
Lemma finish_run_steps hash n blake3 to_vec ambient out q xs q' :
  finish_run out q xs q' -> rtc (step hash n blake3 to_vec ambient) (out, q) (out, q').
Proof. induction 1; [apply rtc_refl|]. eapply rtc_l; [by eapply StepFinish|done]. Qed.

(** A request as a caller makes it, for a claim it was handed or by id. *)
Definition made (out : list ClaimedRuntimeJob) (r : CompletionRequest) : Prop :=
  (exists e h, r = request_of_job e /\ h ∈ out /\ cj_claim e = cj_claim h) \/ exists j l, r = request_of_id j l.

Lemma runtime_jobs_of out batch :
  Forall (made out) batch ->
  let jobs := omap rq_runtime_job (List.filter has_job batch) in
  map cj_attempt jobs = map rq_attempt (List.filter has_job batch)
  /\ forall e, e ∈ jobs -> exists h, h ∈ out /\ cj_claim e = cj_claim h.
Proof.
  induction 1 as [|r batch Hr _ [IH1 IH2]]; simpl; [split; [done|by intros e ?%elem_of_nil]|].
  destruct Hr as [(e & h & -> & Hh & Ec)|(j & l & ->)]; simpl; [|done].
  split; [by f_equal|]. intros e' [-> |Hin]%elem_of_cons; eauto.
Qed.
Lemma flush_rest_finishes env out rest q xs q' : flush_rest env rest q = Ok (xs, q') -> finish_run out q xs q'.
Proof.
  unfold flush_rest. destruct (all_some _); intros H; apply finish_once; [by eapply FinishClaimed|by eapply FinishById].
Qed.

Lemma flush_spec env pending out q f q' :
  Forall (made out) pending -> NoDup (map rq_attempt pending) -> flush_queue_storage env pending q = (f, q') ->
  exists xs, finish_run out q xs q' /\ forall display r b, response display f r = Ok b -> b = bool_decide (rq_attempt r ∈ xs).
Proof.
  intros Hm Hn Hf. unfold flush_queue_storage in Hf. cbv zeta in Hf.
  assert (merge_sort request_le pending ≡ₚ pending) as Hp by apply merge_sort_Permutation. set (batch := merge_sort request_le pending) in *.
  rewrite <- Hp in Hm. rewrite <- Hp in Hn. clearbody batch.
  destruct (runtime_jobs_of out batch Hm) as [Ea Hh]. set (jobs := omap _ _) in *.
  assert (NoDup (map cj_attempt jobs)) as Hnd by (rewrite Ea; by apply NoDup_map_filter).
  assert (exists first q1, match jobs with [] => (Ok [], q) | e :: l => complete_runtime_batch env (e :: l) q end = (first, q1)
            /\ finish_run out q (match first with Ok xs => xs | Err _ => [] end) q1) as (first & q1 & E1 & H1).
  { destruct jobs as [|e jobs]; [exists (Ok []), q; split; [done|apply finish_none]|].
    destruct (complete_runtime_batch env (e :: jobs) q) as [first q1] eqn:Hc. exists first, q1. split; [done|].
    apply finish_once. by apply FinishCompleted with env (e :: jobs). }
  rewrite E1 in Hf. unfold response.
  destruct first as [updated|e]; [|injection Hf as <- <-; exists []; split; [done|by intros display r b ?]].
  destruct (List.filter (fun r => negb (has_job r)) batch) as [|x rest];
    [injection Hf as <- <-; exists updated; split; [done|by intros display r b [= <-]]|].
  destruct (flush_rest env (x :: rest) q1) as [[more q2]|e] eqn:Hrest; injection Hf as <- <-; cbn [fl_updated fl_committed_job_ids fl_committed_pairs].
  - exists (updated ++ more). split; [|by intros display r b [= <-]]. eapply finish_run_app; [exact H1|by eapply flush_rest_finishes].
  - exists updated. split; [done|]. intros display r b. case_bool_decide; [by intros [= <-]|done].
Qed.

(** An answer of the batcher is the truth: a flush ends attempts of claims
    the store handed out, and a request that is answered is told exactly whether
    its attempt is among those the flush reported ended; a flush that fails
    midway still answers the requests whose transaction had committed. *)
Theorem flush_answers_truth display env pending out q f q' :
  Forall (made out) pending -> NoDup (map rq_attempt pending) -> flush_queue_storage env pending q = (f, q') ->
  exists xs, finish_run out q xs q'
    /\ forall r b, r ∈ pending -> response display f r = Ok b -> b = bool_decide (rq_attempt r ∈ xs).
Proof.
  intros Hm Hn Hf. destruct (flush_spec env pending out q f q' Hm Hn Hf) as (xs & Hrun & Hx). exists xs. split; [done|].
  intros r b _. apply Hx.
Qed.

Module BatcherDemo.
Import StoreDemo.
Definition pending : list CompletionRequest := map request_of_job out.
Definition flushed : Flushed * QStore := flush_queue_storage (at_second 2) pending q2.
Lemma flush_answers_truth_witness :
  exists xs, finish_run out q2 xs (snd flushed)
    /\ forall r b, r ∈ pending -> response (fun _ => EmptyString) (fst flushed) r = Ok b -> b = bool_decide (rq_attempt r ∈ xs).
Proof.
  apply (flush_answers_truth (fun _ => EmptyString) (at_second 2) pending out q2 (fst flushed) (snd flushed)).
  - apply Forall_forall. intros r (e & -> & He)%list_elem_of_fmap. left. exists e, e. done.
  - change (NoDup (map rq_attempt (map request_of_job out))). rewrite map_map. change (NoDup (map cj_attempt out)). rewrite claimed_two.
    constructor; [by intros [=]%list_elem_of_singleton|apply NoDup_singleton].
  - apply surjective_pairing.
Defined.
End BatcherDemo.
