(* ===== verification/QueueRead.v ===== *)
(** Reading a job of queue storage by its id ([load_job],
    awa-model/src/queue_storage.rs): every table it may have a row in, and the
    row that is the most recent. *)

From S2P Require Import Prelude.
From S2P Require Import Error.
From S2P Require Import Json.
From S2P Require Import Job.
From S2P Require Import Rows.
From S2P Require Import Lanes.
From S2P Require Import QueueStore.
From S2P Require Import Attempts.
From S2P Require Import Callbacks.

(** * Candidates *)

(** [run_lease DESC, attempted_at DESC NULLS LAST, run_at DESC]; rows equal in
    all three are left in the order they are stored. *)
Definition ready_recency (c : Columns) : Z * (Z * Z) * Z :=
  (c_run_lease c, match c_attempted_at c with Some t => (1, t) | None => (0, 0) end, c_run_at c).
Definition triple_le (a b : Z * (Z * Z) * Z) : bool :=
  let '(a1, (a2, a3), a4) := a in let '(b1, (b2, b3), b4) := b in
  (a1 <? b1) || (a1 =? b1) && ((a2 <? b2) || (a2 =? b2) && ((a3 <? b3) || (a3 =? b3) && (a4 <=? b4))).
Definition ready_recent_first (a b : ReadyEntry) : Prop :=
  triple_le (ready_recency (rt_columns b)) (ready_recency (rt_columns a)) = true.
#[global] Instance ready_recent_first_dec : RelDecision ready_recent_first := fun a b => bool_eq_dec _ _.
Definition ready_rows_of (q : QStore) (job_id : Z) : list ReadyEntry :=
  merge_sort ready_recent_first (List.filter (fun r => c_job_id (rt_columns r) =? job_id) (ready_rows q)).

Definition lease_rows_of (q : QStore) (job_id : Z) : list LeaseJobRow :=
  omap (lease_job_row q) (merge_sort lease_ge (List.filter (fun l => dl_job_id (ls_row l) =? job_id) (leases q))).

(** An open receipt joined with its ready row, whatever its priority, and its
    attempt. *)
Definition receipt_ready (q : QStore) (x : ClaimBatch * ClaimItem) : option ReadyEntry :=
  let d := receipt_row x in
  List.find (fun r => bool_decide (rt_pos r = dl_pos d) && String.eqb (c_queue (rt_columns r)) (dl_queue d)
                      && (c_job_id (rt_columns r) =? dl_job_id d)) (ready_rows q).
Definition receipt_job_row (q : QStore) (x : ClaimBatch * ClaimItem) : option LeaseJobRow :=
  let '(b, i) := x in
  (fun r =>
     let c := rt_columns r in
     let a := attempt_state q !! attempt_of x in
     mkLeaseJob
       (mkColumns (ci_job_id i) (c_kind c) (c_queue c) (c_args c) (cb_priority b) (ci_attempt i) (ci_run_lease i)
          (ci_max_attempts i) (c_run_at c) (Some (cb_claimed_at b)) (c_created_at c) (c_unique_key c) (c_unique_states c)
          (c_payload c))
       Running (a ≫= at_heartbeat_at) (cb_deadline_at b) None None None
       (a ≫= fun s => as_callback_filter (at_row s)) (a ≫= fun s => as_callback_on_complete (at_row s))
       (a ≫= fun s => as_callback_on_fail (at_row s)) (a ≫= fun s => as_callback_transform (at_row s))
       (a ≫= fun s => as_progress (at_row s)) (a ≫= fun s => as_callback_result (at_row s)))
  <$> receipt_ready q x.
Definition receipt_ge (a b : ClaimBatch * ClaimItem) : Prop := ci_run_lease (snd b) <= ci_run_lease (snd a).
#[global] Instance receipt_ge_dec : RelDecision receipt_ge := fun a b => Z_le_dec _ _.
Definition receipt_rows_of (q : QStore) (job_id : Z) : list LeaseJobRow :=
  omap (receipt_job_row q)
    (merge_sort receipt_ge (List.filter (fun x => (ci_job_id (snd x) =? job_id) && open_receipt q x) (receipts q))).

(** [terminal_jobs]: the done rows and the compact completions with their ready
    rows. *)
Definition completion_row (q : QStore) (c : Completion) : option DoneJobRow :=
  (fun r =>
     let k := rt_columns r in
     mkDone (cp_pos c)
       (mkColumns (cp_job_id c) (c_kind k) (cp_queue c) (c_args k) (cp_priority c) (cp_attempt c) (cp_run_lease c)
          (c_max_attempts k) (c_run_at k) (cp_attempted_at c) (c_created_at k) (c_unique_key k) (c_unique_states k)
          (c_payload k))
       Completed (cp_finalized_at c) (cp_output c))
  <$> List.find (fun r => bool_decide (rt_pos r = cp_pos c) && String.eqb (c_queue (rt_columns r)) (cp_queue c)
                          && (c_priority (rt_columns r) =? cp_priority c) && (c_job_id (rt_columns r) =? cp_job_id c))
        (ready_rows q).
Definition with_output (output : option json) (r : DoneJobRow) : DoneJobRow :=
  mkDone (dn_pos r) (dn_columns r) (dn_state r) (dn_finalized_at r) output.
Definition terminal_jobs (q : QStore) : list DoneJobRow :=
  map (fun kd => with_output (de_output (snd kd)) (done_row q (fst kd) (snd kd))) (map_to_list (done_entries q))
  ++ omap (completion_row q) (completions q).
Definition terminal_recent_first (a b : DoneJobRow) : Prop :=
  let key r := (c_run_lease (dn_columns r), (0, dn_finalized_at r), 0) in triple_le (key b) (key a) = true.
#[global] Instance terminal_recent_first_dec : RelDecision terminal_recent_first := fun a b => bool_eq_dec _ _.
Definition done_rows_of (q : QStore) (include_output : bool) (job_id : Z) : list DoneJobRow :=
  map (fun r => if include_output then r else with_output None r)
    (merge_sort terminal_recent_first (List.filter (fun r => c_job_id (dn_columns r) =? job_id) (terminal_jobs q))).

(** * The read *)

(** [max_by_key]: of equal maxima the last. *)
Definition recency (job : JobRow) : Z * (Z * Z) * Z := (j_run_lease job, (transition_timestamp job, state_rank (j_state job)), 0).
Definition most_recent (candidates : list JobRow) : option JobRow :=
  fold_left (fun best job => match best with
                             | Some b => if triple_le (recency b) (recency job) then Some job else Some b
                             | None => Some job
                             end) candidates None.
Definition load_job_inner (include_output : bool) (job_id : Z) (q : QStore) : result AwaError (option JobRow) :=
  let? ready := all_ok (fun r => ready_into_job_row (rt_columns r)) (ready_rows_of q job_id) in
  let? deferred := all_ok deferred_into_job_row (option_list (deferred_jobs q !! job_id)) in
  let? leased := all_ok lease_into_job_row (lease_rows_of q job_id) in
  let? open := all_ok lease_into_job_row (receipt_rows_of q job_id) in
  let? done := all_ok done_into_job_row (done_rows_of q include_output job_id) in
  let? dead := all_ok dlq_into_job_row (option_list (dlq_entries q !! job_id)) in
  Ok (most_recent (ready ++ deferred ++ leased ++ open ++ done ++ dead)).
Definition load_job : Z -> QStore -> result AwaError (option JobRow) := load_job_inner true.
Definition load_job_without_output : Z -> QStore -> result AwaError (option JobRow) := load_job_inner false.
