(* ===== verification/QueueExecutor.v ===== *)
(** The executor's finalization logic on queue storage
    ([complete_job_queue_storage], awa-worker/src/executor.rs), with the
    follow-ups that ride in its transactions.

    [complete_job_queue_storage] is the whole handler.  A transaction that fails
    returns [Err]; the store then is the one before it, and the call's error
    leaves what earlier transactions of the call committed.  The clock is read
    once per call. *)

From S2P Require Import Prelude.
From S2P Require Import Error.
From S2P Require Import Json.
From S2P Require Import Job.
From S2P Require Import Canonical.
From S2P Require Import Executor.
From S2P Require Import Rows.
From S2P Require Import Lanes.
From S2P Require Import QueueStore.
From S2P Require Import Attempts.
From S2P Require Import Callbacks.
From S2P Require Import Completion.
From S2P Require Import QueueRead.
From S2P Require Import SqlInsert.
From S2P Require Import Batcher.

(** * Handler results *)

(** Durations are in nanoseconds, the store's in microseconds. *)
Definition micros (d : Z) : Z := d / 1000.
Definition attempt_error (message : string) (job : JobRow) : AttemptError :=
  {| ae_message := message; ae_output := j_output job |}.
Definition NO_CALLBACK : string := "WaitForCallback returned without calling register_callback".

(** What a call leaves: its answer, and the store. *)
Abbreviation Settled := (result AwaError CompletionOutcome * QStore)%type (only parsing).

Section QueueExecutor.
  Variable blake3 : list Z -> list Z.
  Variable to_vec : json -> list Z.
  Variable ambient : option string.
  (** [format!("{:?}")] of a duration, and its seconds as [f64] displays them. *)
  Variable debug_duration : Z -> string.
  Variable secs_text : Z -> string.
  (** [Display] of an error. *)
  Variable display : AwaError -> string.
  (** The registered follow-ups of an outcome and kind. *)
  Variable enqueue_specs : Outcome -> string -> list EnqueueSpec.
  (** [pg_backend_pid()] of the connection. *)
  Variable backend_pid : Z.
  Variable dlq_enabled : bool.

(** * One transaction *)

(** A transaction over the store: on an error the store is as before. *)
Definition in_tx {A} (tx : QStore -> result AwaError (A * QStore)) (q : QStore) : result AwaError A * QStore :=
  match tx q with
  | Ok (a, q) => (Ok a, q)
  | Err e => (Err e, q)
  end.
(** A transaction that ends an attempt and emits follow-ups; without a row it is
    rolled back. *)
Definition followed (env : StoreEnv) (specs : list EnqueueSpec) (ctx : JobRow -> option OutcomeContext)
    (tx : QStore -> result AwaError (option JobRow * QStore)) (q : QStore) : result AwaError (option JobRow) * QStore :=
  in_tx (fun q0 =>
    let? (row, q) := tx q0 in
    match row with
    | None => Ok (None, q0)
    | Some updated_job =>
        let? q := dispatch_specs_in_tx blake3 to_vec ambient (insert_prepared_queue backend_pid env) updated_job specs (ctx updated_job) q in
        Ok (Some updated_job, q)
    end) q.

(** The answer for a row or none. *)
Definition settle (needs_event : bool) (event : JobRow -> UntypedJobEvent) (terminal : bool)
    (r : result AwaError (option JobRow) * QStore) : Settled :=
  (match fst r with
   | Ok None => Ok IgnoredStale
   | Ok (Some updated_job) => Ok (Applied (if needs_event then Some (event updated_job) else None) terminal)
   | Err e => Err e
   end, snd r).

(** With registered follow-ups in their transaction, without them alone. *)
Definition finish_with (env : StoreEnv) (outcome : Outcome) (kind : string) (ctx : JobRow -> option OutcomeContext)
    (tx : QStore -> result AwaError (option JobRow * QStore)) (q : QStore) : result AwaError (option JobRow) * QStore :=
  match enqueue_specs outcome kind with
  | [] => in_tx tx q
  | specs => followed env specs ctx tx q
  end.

(** * Failure *)

(** The failure itself: to the dead-letter queue when it is enabled. *)
Definition fail_attempt (env : StoreEnv) (job : JobRow) (claim : option ClaimedEntry) (dlq_reason msg : string)
    (progress : option json) (q : QStore) : result AwaError (option JobRow * QStore) :=
  if dlq_enabled then fail_to_dlq env (j_id job) (j_run_lease job) dlq_reason (attempt_error msg job) progress claim q
  else fail_terminal env (j_id job) (j_run_lease job) (attempt_error msg job) progress claim q.
(** [exhaust_queue_storage], and the terminal error with its own reason. *)
Definition fail_queue_storage (env : StoreEnv) (job : JobRow) (claim : option ClaimedEntry) (dlq_reason msg : string)
    (progress : option json) (needs_event : bool) (q : QStore) : Settled :=
  settle needs_event (fun updated_job => EvExhausted updated_job msg (j_attempt job)) true
    (finish_with env OExhausted (j_kind job) (fun _ => Some (CtxExhausted msg (j_attempt job)))
       (fail_attempt env job claim dlq_reason msg progress) q).
Definition exhaust_queue_storage (env : StoreEnv) (job : JobRow) (claim : option ClaimedEntry) (error_msg : string) :=
  fail_queue_storage env job claim "max_attempts_exhausted" error_msg.

(** * Completion *)

Definition completed_row (env : StoreEnv) (job : JobRow) : JobRow :=
  job |> set_state Completed |> set_finalized_at (Some (sv_now env)) |> Job.set_progress None.
Definition complete_queue_storage_with_followups (env : StoreEnv) (job : JobRow) (claim : option ClaimedEntry)
    (unique_states : option string) (specs : list EnqueueSpec) (staged : list PreparedJobInsert) (q : QStore)
    : result AwaError (option JobRow) * QStore :=
  match claim with
  | None => (Ok None, q)
  | Some claim =>
      in_tx (fun q0 =>
        let? (updated, q) := complete_runtime_batch_slow env [mkClaimedJob claim job unique_states] q0 in
        match updated with
        | [] => Ok (None, q0)
        | _ =>
            let insert := insert_prepared_queue backend_pid env in
            let updated_job := completed_row env job in
            let? q := dispatch_specs_in_tx blake3 to_vec ambient insert updated_job specs None q in
            let? (_, q) := insert_staged_in_tx insert staged q in
            Ok (Some updated_job, q)
        end) q
  end.
Definition direct_complete_job_queue_storage (env : StoreEnv) (job : JobRow) (claim : option ClaimedEntry)
    (unique_states : option string) (q : QStore) : result AwaError bool * QStore :=
  let '(r, q) := match claim with
                 | Some claim => complete_runtime_batch env [mkClaimedJob claim job unique_states] q
                 | None => in_tx (complete_job_batch_by_id env [(j_id job, j_run_lease job)]) q
                 end in
  (let? updated := r in Ok (match updated with [] => false | _ => true end), q).
(** Through the batcher, whose flush carries [others] too; [None] when it has
    stopped.  When it does not answer, directly. *)
Definition batched_complete_job (env : StoreEnv) (job : JobRow) (claim : option ClaimedEntry) (unique_states : option string)
    (others : option (list CompletionRequest)) (q : QStore) : result AwaError bool * QStore :=
  let own := match claim with
             | Some claim => request_of_job (mkClaimedJob claim job unique_states)
             | None => request_of_id (j_id job) (j_run_lease job)
             end in
  match others with
  | None => direct_complete_job_queue_storage env job claim unique_states q
  | Some others =>
      let '(f, q) := flush_queue_storage env (others ++ [own]) q in
      match response display f own with
      | Ok updated => (Ok updated, q)
      | Err _ => direct_complete_job_queue_storage env job claim unique_states q
      end
  end.
Definition complete_completed_queue (env : StoreEnv) (job : JobRow) (claim : option ClaimedEntry) (unique_states : option string)
    (staged : list PreparedJobInsert) (path : CompletionPath) (others : option (list CompletionRequest)) (duration : Z)
    (needs_event : bool) (q : QStore) : Settled :=
  let event updated_job := EvCompleted updated_job duration in
  match enqueue_specs OCompleted (j_kind job), staged with
  | [], [] =>
      match match path with
            | Direct => direct_complete_job_queue_storage env job claim unique_states q
            | Batched => batched_complete_job env job claim unique_states others q
            end with
      | (Err e, q) => (Err e, q)
      | (Ok false, q) => (Ok IgnoredStale, q)
      | (Ok true, q) =>
          if needs_event then
            (let? loaded := load_job_without_output (j_id job) q in
             let updated_job := set_output (j_output job) (default (completed_row env job) loaded) in
             Ok (Applied (Some (event updated_job)) false), q)
          else (Ok (Applied None false), q)
      end
  | specs, staged =>
      settle needs_event event false (complete_queue_storage_with_followups env job claim unique_states specs staged q)
  end.

(** * Retry and snooze *)

Definition retry_after_queue_storage (env : StoreEnv) (job : JobRow) (claim : option ClaimedEntry) (d : Z)
    (progress : option json) (needs_event : bool) (q : QStore) : Settled :=
  settle needs_event (fun r => EvRetried r EmptyString (j_attempt r) (j_run_at r)) false
    (finish_with env ORetried (j_kind job) (fun r => Some (CtxRetried EmptyString (j_attempt r) (j_run_at r)))
       (retry_after env (j_id job) (j_run_lease job) (micros d) (secs_text d) progress claim (j_output job)) q).
Definition retry_backoff_queue_storage (env : StoreEnv) (job : JobRow) (claim : option ClaimedEntry) (error_msg : string)
    (progress : option json) (needs_event : bool) (q : QStore) : Settled :=
  settle needs_event (fun r => EvRetried r error_msg (j_attempt job) (j_run_at r)) false
    (finish_with env ORetried (j_kind job) (fun r => Some (CtxRetried error_msg (j_attempt job) (j_run_at r)))
       (fail_retryable env (j_id job) (j_run_lease job) (attempt_error error_msg job) progress claim None) q).
Definition snooze_queue_storage (env : StoreEnv) (job : JobRow) (claim : option ClaimedEntry) (d : Z) (progress : option json)
    (q : QStore) : Settled :=
  settle false EvStarted false (in_tx (snooze env (j_id job) (j_run_lease job) (micros d) progress claim) q).

(** * Cancellation *)

Definition cancel_queue_storage (env : StoreEnv) (job : JobRow) (reason : string) (progress : option json) (needs_event : bool)
    (q : QStore) : Settled :=
  settle needs_event (fun r => EvCancelled r reason) false
    (finish_with env OCancelled (j_kind job) (fun _ => Some (CtxCancelled reason))
       (Attempts.cancel_running env (j_id job) (j_run_lease job) (attempt_error reason job) progress None) q).

(** * Waiting for a callback *)

Definition parked_row (job : JobRow) (callback_id : Z) : JobRow :=
  job |> set_state WaitingExternal |> set_heartbeat_at None |> set_deadline_at None
      |> Job.set_callback (Some callback_id) (j_callback_timeout_at job).
Definition park_queue_storage_with_followups (env : StoreEnv) (job : JobRow) (callback_id : Z) (specs : list EnqueueSpec) (q : QStore)
    : result AwaError (option JobRow) * QStore :=
  followed env specs (fun _ => Some CtxWaitingForCallback)
    (fun q =>
       let '(entered, q) := enter_callback_wait (j_id job) (j_run_lease job) callback_id q in
       if (entered : bool) then
         let? row := load_active_lease_in_tx (j_id job) (j_run_lease job) q in
         Ok (Some (default (parked_row job callback_id) row), q)
       else Ok (None, q)) q.
(** The attempt did not park: it was resolved meanwhile, it never registered a
    callback, or it is no longer the worker's. *)
Definition park_missed_queue (env : StoreEnv) (job : JobRow) (claim : option ClaimedEntry) (progress : option json) (q : QStore)
    : Settled :=
  match load_job (j_id job) q with
  | Err e => (Err e, q)
  | Ok None => (Ok IgnoredStale, q)
  | Ok (Some current) =>
      if is_terminal (j_state current) then (Ok (Applied None false), q)
      else if bool_decide (j_state current = Running) && match j_callback_id current with None => true | Some _ => false end
      then settle false EvStarted true
             (in_tx (fail_attempt env job claim "wait_for_callback_contract_violation" NO_CALLBACK progress) q)
      else (Ok IgnoredStale, q)
  end.
Definition park_queue_storage (env : StoreEnv) (job : JobRow) (claim : option ClaimedEntry) (callback_id : Z) (progress : option json)
    (needs_event : bool) (q : QStore) : Settled :=
  match enter_callback_wait (j_id job) (j_run_lease job) callback_id q with
  | (false, q) => park_missed_queue env job claim progress q
  | (true, q) =>
      if needs_event then
        (let? loaded := load_job (j_id job) q in
         Ok (Applied (Some (EvWaitingForCallback (default (set_state WaitingExternal job) loaded))) false), q)
      else (Ok (Applied None false), q)
  end.
Definition complete_waiting_queue (env : StoreEnv) (job : JobRow) (claim : option ClaimedEntry) (callback_id : Z)
    (progress : option json) (needs_event : bool) (q : QStore) : Settled :=
  match enqueue_specs OWaitingForCallback (j_kind job) with
  | [] => park_queue_storage env job claim callback_id progress needs_event q
  | specs =>
      match park_queue_storage_with_followups env job callback_id specs q with
      | (Ok None, q) => park_queue_storage env job claim callback_id progress needs_event q
      | parked => settle needs_event EvWaitingForCallback false parked
      end
  end.

(** * The handler *)

(** [callback_id] is the guard's, of a result that waits for one. *)
Definition complete_job_queue_storage (env : StoreEnv) (job : JobRow) (claim : option ClaimedEntry) (unique_states : option string)
    (res : HandlerResult) (callback_id : Z) (staged : list PreparedJobInsert) (path : CompletionPath)
    (others : option (list CompletionRequest)) (progress : option json) (duration : Z) (needs_event : bool) (q : QStore) : Settled :=
  match res with
  | Ok JCompleted => complete_completed_queue env job claim unique_states staged path others duration needs_event q
  | Ok (JRetryAfter d) =>
      if j_max_attempts job <=? j_attempt job
      then exhaust_queue_storage env job claim
             ("max_attempts exhausted (handler requested retry after " +:+ debug_duration d +:+ ")") progress needs_event q
      else retry_after_queue_storage env job claim d progress needs_event q
  | Ok (JSnooze d) => snooze_queue_storage env job claim d progress q
  | Ok (JCancel reason) => cancel_queue_storage env job reason progress needs_event q
  | Ok JWaitForCallback => complete_waiting_queue env job claim callback_id progress needs_event q
  | Err (JTerminal msg) => fail_queue_storage env job claim "terminal_error" msg progress needs_event q
  | Err (JRetryable msg) =>
      if j_max_attempts job <=? j_attempt job
      then exhaust_queue_storage env job claim msg progress needs_event q
      else retry_backoff_queue_storage env job claim msg progress needs_event q
  end.
End QueueExecutor.
