(* ===== verification/QueueFinish.v ===== *)
(** What the executor's finalization does on queue storage: it is a run of the
    store's own operations, it leaves the job where the handler's result means,
    and it leaves a job alone that is no longer the worker's. *)

From stdpp Require Import relations.
From S2P Require Import Prelude.
From S2P Require Import Error.
From S2P Require Import Json.
From S2P Require Import Job.
From S2P Require Import Canonical.
From S2P Require Import Executor.
From S2P Require Import Rows.
From S2P Require Import Lanes.
From S2P Require Import LanesFacts.
From S2P Require Import QueueStore.
From S2P Require Import Attempts.
From S2P Require Import Callbacks.
From S2P Require Import Completion.
From S2P Require Import StoreFacts.
From S2P Require Import AttemptFacts.
From S2P Require Import OperationFacts.
From S2P Require Import SqlInsert.
From S2P Require Import QueueOps.
From S2P Require Import StoreGuarantees.
From S2P Require Import StoreEdges.
From S2P Require Import Batcher.
From S2P Require Import QueueRead.
From S2P Require Import QueueExecutor.

(** * Follow-ups are inserts *)

Section FollowUpRuns.
Context (blake3 : list Z -> list Z) (to_vec : json -> list Z) (ambient : option string).
Context {D : Type} (insert : PreparedJobInsert -> D -> result AwaError (JobRow * D)) (R : D -> D -> Prop).
Hypothesis Hins : forall p d row d', insert p d = Ok (row, d') -> R d d'.

Lemma staged_follow_up_run p d b d' : insert_staged_follow_up insert p d = Ok (b, d') -> rtc R d d'.
Proof.
  unfold insert_staged_follow_up. destruct (pi_unique_key p).
  - destruct (insert p d) as [[row d1]|e] eqn:Hi; [intros [= _ <-]; by eapply rtc_once, Hins|].
    destruct e; try done. destruct (is_duplicate_follow_up _); [intros [= _ <-]; apply rtc_refl|done].
  - intros ([row d1] & Hi & [= _ <-])%rbind_Ok. by eapply rtc_once, Hins.
Qed.
Lemma dispatch_specs_run job ctx specs d d' : dispatch_specs blake3 to_vec ambient insert job ctx specs d = Ok d' -> rtc R d d'.
Proof.
  revert d. induction specs as [|spec specs IH]; intros d; simpl; [intros [= <-]; apply rtc_refl|].
  intros (d1 & H1 & H)%rbind_Ok. etrans; [|by apply IH]. unfold run_spec in H1. apply rbind_Ok in H1 as (request & _ & H1).
  destruct request as [[[kind args] opts]|]; [|injection H1 as <-; apply rtc_refl].
  apply rbind_Ok in H1 as (p & _ & H1). apply rbind_Ok in H1 as ([b d2] & H2 & [= <-]). by eapply staged_follow_up_run.
Qed.
Lemma dispatch_in_tx_run job specs ctx d d' :
  dispatch_specs_in_tx blake3 to_vec ambient insert job specs ctx d = Ok d' -> rtc R d d'.
Proof. unfold dispatch_specs_in_tx. destruct specs; [intros [= <-]; apply rtc_refl|apply dispatch_specs_run]. Qed.
Lemma staged_in_tx_run staged d c d' : insert_staged_in_tx insert staged d = Ok (c, d') -> rtc R d d'.
Proof.
  revert d c. induction staged as [|p staged IH]; intros d c; simpl; [intros [= _ <-]; apply rtc_refl|].
  intros ([b d1] & H1 & H)%rbind_Ok. apply rbind_Ok in H as ([[i n] d2] & H2 & H). injection H as _ <-.
  etrans; [by eapply staged_follow_up_run|by eapply IH].
Qed.
End FollowUpRuns.

(** On queue storage. *)
Definition inserted (q q' : QStore) : Prop := exists pid env p row, insert_job_compat_queue pid env p q = Ok (row, q').
Lemma insert_prepared_inserted pid env p q row q' : insert_prepared_queue pid env p q = Ok (row, q') -> inserted q q'.
Proof. unfold insert_prepared_queue. destruct (insert_job_compat_queue pid env p q) as [[r q1]|[]] eqn:H; intros [= <- <-]; by exists pid, env, p, r. Qed.
Lemma inserted_steps hash n blake3 to_vec ambient out q q' :
  rtc inserted q q' -> rtc (step hash n blake3 to_vec ambient) (out, q) (out, q').
Proof. induction 1 as [|q q1 q' (pid & env & p & row & H) _ IH]; [apply rtc_refl|]. eapply rtc_l; [by eapply StepInsert|done]. Qed.

(** An insert leaves the rows of other jobs. *)
Record spares (q q' : QStore) : Prop := {
  sp_done : done_entries q' = done_entries q;
  sp_completions : completions q' = completions q;
  sp_dlq : dlq_entries q' = dlq_entries q;
  sp_leases : leases q' = leases q;
  sp_seq : job_id_seq q <= job_id_seq q';
  sp_deferred : forall j, j < job_id_seq q -> deferred_jobs q' !! j = deferred_jobs q !! j
}.
Lemma spares_refl q : spares q q.
Proof. by split. Qed.
Lemma spares_trans q q1 q2 : spares q q1 -> spares q1 q2 -> spares q q2.
Proof. intros [] []. split; try congruence; [lia|]. intros j Hj. rewrite sp_deferred1 by lia. auto. Qed.
Lemma place_ready_spares grouped q : spares q (place_ready grouped q).
Proof. unfold place_ready. destruct (insert_grouped_rows grouped (lanes q)). by split. Qed.
Lemma inserted_spares q q' : inserted q q' -> spares q q'.
Proof.
  intros (pid & env & p & row & H). unfold insert_job_compat_queue in H. destruct (negb _); [done|]. cbv zeta in H.
  assert (forall q1, claim_new_key (job_id_seq q) p (set_job_id_seq (job_id_seq q + 1) q) = Ok q1 -> spares q q1) as Hk.
  { intros q1. unfold claim_new_key. repeat case_match; intros [= <-]; split; simpl; done || lia. }
  destruct (pi_state p); try done; apply rbind_Ok in H as (q1 & H1%Hk & H).
  - destruct (deferred_jobs q1 !! job_id_seq q); [done|]. injection H as _ <-. destruct H1. split; simpl; try done.
    intros j Hj. rewrite lookup_insert_ne by lia. auto.
  - injection H as _ <-. eapply spares_trans; [exact H1|apply place_ready_spares].
  - destruct (deferred_jobs q1 !! job_id_seq q); [done|]. injection H as _ <-. destruct H1. split; simpl; try done.
    intros j Hj. rewrite lookup_insert_ne by lia. auto.
Qed.
Lemma inserted_run_spares q q' : rtc inserted q q' -> spares q q'.
Proof. induction 1; [apply spares_refl|]. eapply spares_trans; [by apply inserted_spares|done]. Qed.

(** * Terminal rows *)

(** The attempt [a] ended in [st]. *)
Definition done_as (st : JobState) (a : Z * Z) (q : QStore) : Prop :=
  exists k d, done_entries q !! k = Some d /\ (de_job_id d, de_run_lease d) = a /\ de_state d = st.
Definition completed_at (a : Z * Z) (q : QStore) : Prop := done_as Completed a q \/ a ∈ completed_places q.
(** Nothing terminal is taken back. *)
Definition ends_more (q q' : QStore) : Prop := done_entries q ⊆ done_entries q' /\ exists l, completions q' = completions q ++ l.

Lemma ends_more_refl q : ends_more q q.
Proof. split; [done|]. exists []. by rewrite app_nil_r. Qed.
Lemma ends_more_trans q q1 q2 : ends_more q q1 -> ends_more q1 q2 -> ends_more q q2.
Proof. intros [H1 (l1 & E1)] [H2 (l2 & E2)]. split; [by etrans|]. exists (l1 ++ l2). by rewrite E2, E1, app_assoc. Qed.
Lemma ends_more_same q q' : done_entries q' = done_entries q -> completions q' = completions q -> ends_more q q'.
Proof. intros E1 E2. split; [by rewrite E1|]. exists []. by rewrite E2, app_nil_r. Qed.
Lemma done_as_more st a q q' : done_as st a q -> done_entries q ⊆ done_entries q' -> done_as st a q'.
Proof. intros (k & d & Hd & ?) Hs. exists k, d. split; [|done]. by eapply lookup_weaken. Qed.
Lemma completed_at_more a q q' : completed_at a q -> ends_more q q' -> completed_at a q'.
Proof.
  intros [H|H] [Hd (l & Hc)]; [left; by eapply done_as_more|right]. unfold completed_places in *. rewrite Hc, map_app. apply elem_of_app. by left.
Qed.
Lemma spares_ends_more q q' : spares q q' -> ends_more q q'.
Proof. intros []. by apply ends_more_same. Qed.

Lemma execute_done_puts q keep rows m m' :
  execute_done_inserts q keep rows m = Ok m' -> m ⊆ m' /\ forall r, r ∈ rows -> m' !! done_key r = Some (done_entry q keep r).
Proof.
  revert m. induction rows as [|r rows IH]; intros m; simpl; [intros [= <-]; split; [done|by intros r ?%elem_of_nil]|].
  destruct (m !! done_key r) eqn:Hn; [done|]. intros [Hsub Hin]%IH. split; [etrans; [by apply insert_subseteq|done]|].
  intros r' [-> |Hr]%elem_of_cons; [|by apply Hin]. eapply lookup_weaken; [|exact Hsub]. apply lookup_insert_eq.
Qed.
Lemma insert_done_puts env rows old q q' :
  insert_done_rows_tx env rows old q = Ok q' ->
  ends_more q q' /\ (forall r, r ∈ rows -> done_as (dn_state r) (place_of (dn_columns r)) q').
Proof.
  unfold insert_done_rows_tx. intros (q1 & H1%sync_unique_view & H)%rbind_Ok. cbv zeta in H. apply rbind_Ok in H as (m & Hm & [= <-]).
  apply execute_done_puts in Hm as [Hsub Hin]. injection H1 as _ _ _ _ Ed Ec _ _. split.
  - split; [cbn; by rewrite <- Ed|]. exists []. cbn. by rewrite Ec, app_nil_r.
  - intros r Hr%Hin. exists (done_key r), (done_entry q1 (bool_decide (old = Some Running \/ old = Some WaitingExternal)) r). split; [done|].
    unfold done_entry. by destruct (_ && _).
Qed.
Lemma remembered_row env claimed a e attempts :
  a ∈ attempts -> remembered claimed a = Some e -> claimed_into_done_row (sv_now env) e ∈ done_rows_for env claimed attempts.
Proof. intros Ha He. apply list_elem_of_omap. exists a. by rewrite He. Qed.
Lemma remembered_done env claimed a attempts old q q' :
  insert_done_rows_tx env (done_rows_for env claimed attempts) old q = Ok q' -> a ∈ attempts ->
  is_Some (remembered claimed a) -> done_as Completed a q'.
Proof.
  intros [_ Hp]%insert_done_puts Ha [e He]. pose proof (Hp _ (remembered_row env claimed a e attempts Ha He)) as H.
  apply find_elem in He as [_ He%bool_decide_eq_true]. by rewrite <- He.
Qed.

Lemma slow_completes env claimed q updated q' :
  complete_runtime_batch_slow env claimed q = Ok (updated, q') ->
  ends_more q q' /\ forall a, a ∈ updated -> done_as Completed a q'.
Proof.
  unfold complete_runtime_batch_slow. cbv zeta. intros ([u1 q1] & H1 & H)%rbind_Ok. apply rbind_Ok in H as ([u2 q2] & H2 & [= <- <-]).
  unfold complete_receipts in H1. destruct (existsb _ _); [done|]. cbv zeta in H1. apply rbind_Ok in H1 as (q1' & Hi1 & [= <- <-]).
  unfold complete_leases in H2. destruct (delete_leases _ q1') as [deleted q3] eqn:Hd. cbv zeta in H2. apply rbind_Ok in H2 as (q2' & Hi2 & [= <- <-]).
  assert (ends_more q q1') as E1 by (eapply ends_more_trans; [|by apply insert_done_puts in Hi1 as [? _]]; by apply ends_more_same).
  assert (ends_more q1' q2') as E2.
  { eapply ends_more_trans; [|by apply insert_done_puts in Hi2 as [? _]]. unfold delete_leases in Hd. injection Hd as _ <-. by apply ends_more_same. }
  split; [by eapply ends_more_trans|]. intros a [Ha|Ha]%elem_of_app.
  - eapply done_as_more; [|apply E2]. eapply remembered_done; [exact Hi1|done|].
    apply list_elem_of_fmap in Ha as (x & -> & Hx). apply list_elem_of_omap in Hx as (e & [_ He]%elem_of_filter_b & Hx).
    unfold slow_completable in Hx. destruct (receipt_ref q e) as [y|] eqn:Hy; [|done]. destruct (open_receipt q y); [|done]. injection Hx as ->.
    apply receipt_ref_spec in Hy as (_ & -> & _). destruct (remembered_spec claimed (cj_attempt e)) as (z & -> & _); eauto.
  - apply elem_of_filter_b in Ha as [Hr Ha]. eapply remembered_done; [exact Hi2|done|]. destruct (remembered claimed a); [eauto|done].
Qed.

Lemma fast_completes env claimed q updated q' :
  complete_receipt_runtime_batch_fast env claimed q = Ok (updated, q') ->
  ends_more q q' /\ forall a, a ∈ updated -> completed_at a q'.
Proof.
  unfold complete_receipt_runtime_batch_fast. destruct (sv_claim_ring env) as [[? ?] n]. intros (? & _ & H)%rbind_Ok. cbv zeta in H.
  injection H as <- <-. split; [split; [done|by eexists]|]. intros a (e & -> & He)%list_elem_of_fmap. right. unfold completed_places. cbn.
  rewrite map_app. apply elem_of_app. right. rewrite map_map. apply list_elem_of_fmap. by exists e.
Qed.
Lemma runtime_batch_completes env claimed q r q' :
  complete_runtime_batch env claimed q = (r, q') ->
  ends_more q q' /\ forall updated a, r = Ok updated -> a ∈ updated -> completed_at a q'.
Proof.
  assert (forall entries q r q', (match complete_runtime_batch_slow env entries q with
                                  | Ok (updated, q) => (Ok updated, q) | Err e => (Err e, q) end) = (r, q') ->
            ends_more q q' /\ forall updated a, r = Ok updated -> a ∈ updated -> completed_at a q') as Hslow.
  { clear. intros entries q r q'. destruct (complete_runtime_batch_slow env entries q) as [[u q1]|e] eqn:H.
    - intros [= <- <-]. apply slow_completes in H as [? H]. split; [done|]. intros u' a [= <-] Ha. left. auto.
    - intros [= <- <-]. split; [apply ends_more_refl|done]. }
  unfold complete_runtime_batch. destruct claimed as [|e0 claimed]; [intros [= <- <-]; split; [apply ends_more_refl|by intros u a [= <-] ?%elem_of_nil]|].
  cbv zeta. set (cs := e0 :: claimed). destruct (forallb _ cs); [|apply Hslow].
  destruct (complete_receipt_runtime_batch_fast env cs q) as [[u q1]|e] eqn:Hf; [|intros [= <- <-]; split; [apply ends_more_refl|done]].
  apply fast_completes in Hf as [E1 H1]. destruct (List.filter _ cs) as [|m ms]; [intros [= <- <-]; split; [done|by intros u' a [= <-] ?%H1]|].
  destruct (match complete_runtime_batch_slow env (m :: ms) q1 with Ok (u, q) => _ | Err e => _ end) as [r2 q2] eqn:H2.
  apply Hslow in H2 as [E2 H2]. destruct r2 as [more|e]; intros [= <- <-]; (split; [by eapply ends_more_trans|]); [|done].
  intros u' a [= <-] [Ha|Ha]%elem_of_app; [eapply completed_at_more; [by apply H1|done]|by eapply H2].
Qed.
Lemma deleted_completes env target q out q' :
  complete_deleted_leases env target q = Ok (out, q') -> ends_more q q' /\ forall a, a ∈ out -> completed_at a q'.
Proof.
  unfold complete_deleted_leases. destruct (delete_leases target q) as [deleted q1] eqn:Hd. cbv zeta.
  intros ([moved q2] & Hh & H)%rbind_Ok. apply rbind_Ok in H as (rows & Hrows & H). apply rbind_Ok in H as (q3 & Hi & [= <- <-]).
  apply insert_done_puts in Hi as [E1 Hp].
  assert (ends_more q q2) as E0.
  { unfold delete_leases in Hd. injection Hd as _ <-. unfold hydrate_deleted_leases_tx in Hh. apply rbind_Ok in Hh as (? & _ & [= _ <-]). by apply ends_more_same. }
  split; [by eapply ends_more_trans|]. intros a Ha. left. revert rows Hrows Hp. clear - Ha.
  induction moved as [|m moved IH]; intros rows Hrows Hp; [by apply elem_of_nil in Ha|]. simpl in Hrows.
  apply rbind_Ok in Hrows as (p & _ & Hrows). apply rbind_Ok in Hrows as (p' & _ & Hrows). apply rbind_Ok in Hrows as (rest & Hr & [= <-]).
  apply elem_of_cons in Ha as [-> |Ha]; [exact (Hp _ ltac:(left))|]. apply (IH Ha rest Hr). intros r Hin. apply Hp. by right.
Qed.
Lemma flush_completes env pending q f q' :
  flush_queue_storage env pending q = (f, q') ->
  ends_more q q' /\ forall display r, response display f r = Ok true -> completed_at (rq_attempt r) q'.
Proof.
  unfold flush_queue_storage. cbv zeta. set (batch := merge_sort request_le pending). set (jobs := omap _ _).
  destruct (match jobs with [] => _ | _ :: _ => _ end) as [first q1] eqn:H1.
  assert (ends_more q q1 /\ forall updated a, first = Ok updated -> a ∈ updated -> completed_at a q1) as [E1 C1].
  { destruct jobs; [injection H1 as <- <-; split; [apply ends_more_refl|by intros u a [= <-] ?%elem_of_nil]|by eapply runtime_batch_completes]. }
  unfold response. destruct first as [updated|e]; [|intros [= <- <-]; split; [done|by intros display r ?]].
  assert (forall r, Ok (bool_decide (rq_attempt r ∈ updated)) = Ok true :> result AwaError bool -> completed_at (rq_attempt r) q1) as C1'.
  { intros r [= Hb%bool_decide_eq_true]. by eapply C1. }
  destruct (List.filter (fun r => negb (has_job r)) batch) as [|x rest]; [intros [= <- <-]; by split|].
  destruct (flush_rest env (x :: rest) q1) as [[more q2]|e] eqn:H2; intros [= <- <-]; cbn [fl_updated fl_committed_job_ids fl_committed_pairs].
  - assert (ends_more q1 q2 /\ forall a, a ∈ more -> completed_at a q2) as [E2 C2].
    { unfold flush_rest in H2. destruct (all_some _); by eapply deleted_completes. }
    split; [by eapply ends_more_trans|]. intros display r [= Hb%bool_decide_eq_true]. apply elem_of_app in Hb as [Hb|Hb]; [|by apply C2].
    eapply completed_at_more; [by eapply C1|done].
  - split; [done|]. intros display r. case_bool_decide; [apply C1'|done].
Qed.

(** * Where an attempt ends *)

Definition deferred_as (st : JobState) (run_at : time) (a : Z * Z) (q : QStore) : Prop :=
  exists r, deferred_jobs q !! fst a = Some r /\ df_state r = st /\ c_run_lease (df_columns r) = snd a /\ c_run_at (df_columns r) = run_at.
Definition dead_as (reason : string) (a : Z * Z) (q : QStore) : Prop :=
  exists r, dlq_entries q !! fst a = Some r /\ dq_state r = Failed /\ dlq_reason r = reason /\ c_run_lease (dq_columns r) = snd a.

Lemma insert_deferred_puts row old q q' :
  insert_deferred_rows_tx [row] old q = Ok q' -> deferred_as (df_state row) (c_run_at (df_columns row)) (place_of (df_columns row)) q'.
Proof.
  unfold insert_deferred_rows_tx. intros (q1 & _ & (m & Hm & [= <-])%rbind_Ok)%rbind_Ok. simpl in Hm.
  destruct (negb _); [done|]. destruct (deferred_jobs q1 !! _); [done|]. injection Hm as <-. eexists. split; [apply lookup_insert_eq|done].
Qed.
Lemma insert_dlq_puts row old q q' :
  insert_dlq_rows_tx [row] old q = Ok q' -> dq_state row = Failed -> dead_as (dlq_reason row) (place_of (dq_columns row)) q'.
Proof.
  unfold insert_dlq_rows_tx. intros (q1 & _ & (m & Hm & [= <-])%rbind_Ok)%rbind_Ok Hst. simpl in Hm.
  destruct (dlq_entries q1 !! _); [done|]. injection Hm as <-. eexists. split; [apply lookup_insert_eq|done].
Qed.

(** An attempt that cannot be taken leaves the store as it is. *)
Lemma hydrate_head_some deleted write q rows q' :
  hydrate_deleted_leases_tx deleted write q = Ok (rows, q') -> deleted <> [] -> head rows <> None.
Proof.
  unfold hydrate_deleted_leases_tx. intros (rows' & Hr & [= <- _])%rbind_Ok Hd. destruct deleted as [|d ds]; [done|].
  simpl in Hr. apply rbind_Ok in Hr as (y & _ & (ys & _ & [= <-])%rbind_Ok). done.
Qed.
Lemma take_none job_id run_lease outcome claim q q' :
  take_running_attempt_tx job_id run_lease outcome claim q = Ok (None, q') -> q' = q.
Proof.
  unfold take_running_attempt_tx. intros ([m q1] & Hc & H)%rbind_Ok.
  assert (m = None -> q1 = q) as Hq.
  { intros ->. unfold close_open_receipt_claim_tx in Hc. set (by_attempt := match List.filter _ _ with [] => _ | _ => _ end) in Hc.
    assert (by_attempt = Ok (None, q1) -> q1 = q) as Hby.
    { unfold by_attempt. destruct (List.filter _ _) as [|x xs]; [by intros [= <-]|].
      intros ([rows q2] & Hh & [= Hm _])%rbind_Ok. by apply hydrate_head_some in Hh. }
    destruct claim as [claim|]; [|by apply Hby].
    destruct (ce_lease_claim_receipt claim), (ce_claim_batch_id claim), (ce_claim_batch_index claim), (ce_receipt_id claim); try by apply Hby.
    apply rbind_Ok in Hc as ([deleted q2] & Hc & H'). destruct deleted as [|d ds].
    - injection H' as <-. unfold close_compact_receipt_claim_tx in Hc. destruct (_ <? 0); [done|]. cbv zeta in Hc.
      destruct (_ ≫= _) as [x|]; [destruct (_ && _)|]; first [discriminate Hc|by injection Hc as <-].
    - apply rbind_Ok in H' as ([rows q3] & Hh & [= Hm _]). by apply hydrate_head_some in Hh. }
  destruct m as [m|]; [done|]. rewrite Hq in H by done. destruct (delete_leases _ q) as [deleted q2] eqn:Hd. destruct deleted as [|d ds].
  - injection H as <-. unfold delete_leases in Hd. injection Hd as He <-. apply map_eq_nil in He.
    assert (List.filter (fun l => negb (running_lease_of job_id run_lease l)) (leases q) = leases q) as ->; [|by destruct q].
    clear - He. induction (leases q) as [|l ls IH]; [done|]. simpl in *. destruct (running_lease_of job_id run_lease l); [done|]. simpl. by rewrite IH.
  - apply rbind_Ok in H as ([rows q3] & Hh & [= Hm _]). by apply hydrate_head_some in Hh.
Qed.

(** An operation that ended its attempt there, or left the store as it is. *)
Definition ends_at (landed : QStore -> Prop) (q : QStore) (r : result AwaError (option JobRow * QStore)) : Prop :=
  match r with
  | Ok (Some _, q') => landed q'
  | Ok (None, q') => q' = q
  | Err _ => True
  end.

Section Ends.
Context (D E : list (Z * Z)) (env : StoreEnv) (j l : Z) (claim : option ClaimedEntry) (progress : option json) (q : QStore).
Hypothesis Hs : sinv D E q.

Lemma take_place outcome m q1 : take_running_attempt_tx j l outcome claim q = Ok (Some m, q1) -> place_of (lt_columns m) = (j, l).
Proof. intros (H & _)%(take_running_taken D E); done. Qed.

(** What an operation does with the row it took. *)
Lemma ends_by_taking outcome landed (k : LeaseTransitionRow -> QStore -> result AwaError (option JobRow * QStore)) :
  (forall m q1 r q', take_running_attempt_tx j l outcome claim q = Ok (Some m, q1) -> k m q1 = Ok (r, q') ->
     place_of (lt_columns m) = (j, l) -> r <> None /\ landed q') ->
  ends_at landed q (let? (moved, q) := take_running_attempt_tx j l outcome claim q in
                    match moved with None => Ok (None, q) | Some m => k m q end).
Proof.
  intros Hk. destruct (take_running_attempt_tx j l outcome claim q) as [[[m|] q1]|e] eqn:Ht; simpl; [|by apply take_none in Ht|done].
  destruct (k m q1) as [[r q']|e] eqn:Hr; [|done]. destruct (Hk m q1 r q' eq_refl Hr) as [Hn Hl]; [by eapply take_place|].
  simpl. by destruct r.
Qed.
Lemma retry_after_ends delay secs output :
  ends_at (deferred_as Retryable (sv_now env + delay) (j, l)) q (retry_after env j l delay secs progress claim output q).
Proof.
  apply ends_by_taking. intros m q1 r q' _ H Hp. apply rbind_Ok in H as (p & _ & H). apply rbind_Ok in H as (p' & _ & H).
  apply rbind_Ok in H as (d & Hd & H). apply rbind_Ok in H as (q2 & Hi%insert_deferred_puts & H). apply rbind_Ok in H as (row & _ & [= <- <-]).
  split; [done|]. rewrite <- Hp. unfold from_std in Hd. destruct (_ <=? _); [|done]. by injection Hd as ->.
Qed.
Lemma snooze_ends snooze_for :
  ends_at (deferred_as Scheduled (sv_now env + snooze_for) (j, l)) q (snooze env j l snooze_for progress claim q).
Proof.
  apply ends_by_taking. intros m q1 r q' _ H Hp. apply rbind_Ok in H as (p & _ & H). apply rbind_Ok in H as (d & Hd & H). cbv zeta in H.
  apply rbind_Ok in H as (q2 & Hi%insert_deferred_puts & H). apply rbind_Ok in H as (row & _ & [= <- <-]).
  split; [done|]. rewrite <- Hp. unfold from_std in Hd. destruct (_ <=? _); [|done]. by injection Hd as ->.
Qed.
Lemma done_row_lands row old q1 q' st :
  insert_done_rows_tx env [row] old q1 = Ok q' -> dn_state row = st -> place_of (dn_columns row) = (j, l) -> done_as st (j, l) q'.
Proof. intros [_ H]%insert_done_puts <- <-. apply H. by left. Qed.
Lemma cancel_running_ends reason : ends_at (done_as Cancelled (j, l)) q (Attempts.cancel_running env j l reason progress claim q).
Proof.
  apply ends_by_taking. intros m q1 r q' _ H Hp. apply rbind_Ok in H as (p & _ & H). apply rbind_Ok in H as (p' & _ & H).
  apply rbind_Ok in H as (q2 & Hi & H). apply rbind_Ok in H as (row & _ & [= <- <-]). split; [done|]. by eapply done_row_lands.
Qed.
Lemma fail_terminal_ends error : ends_at (done_as Failed (j, l)) q (fail_terminal env j l error progress claim q).
Proof.
  apply ends_by_taking. intros m q1 r q' _ H Hp. apply rbind_Ok in H as (p & _ & H). apply rbind_Ok in H as (p' & _ & H).
  apply rbind_Ok in H as (q2 & Hi & H). apply rbind_Ok in H as (row & _ & [= <- <-]). split; [done|]. by eapply done_row_lands.
Qed.
Lemma fail_to_dlq_ends reason error : ends_at (dead_as reason (j, l)) q (fail_to_dlq env j l reason error progress claim q).
Proof.
  apply ends_by_taking. intros m q1 r q' _ H Hp. apply rbind_Ok in H as (p & _ & H). apply rbind_Ok in H as (p' & _ & H).
  apply rbind_Ok in H as (q2 & Hi & H). apply rbind_Ok in H as (row & _ & [= <- <-]). split; [done|]. rewrite <- Hp. by apply insert_dlq_puts in Hi.
Qed.
(** The budget is the stored row's. *)
Definition backs_off (q' : QStore) : Prop :=
  (exists attempt max_attempts, attempt < max_attempts /\ deferred_as Retryable (backoff_at env attempt max_attempts) (j, l) q')
  \/ done_as Failed (j, l) q'.
Lemma fail_retryable_ends error : ends_at backs_off q (fail_retryable env j l error progress claim None q).
Proof.
  apply ends_by_taking. intros m q1 r q' _ H Hp. cbv zeta in H. apply rbind_Ok in H as (p & _ & H). apply rbind_Ok in H as (p' & _ & H).
  destruct (Z.leb_spec (c_max_attempts (lt_columns m)) (c_attempt (lt_columns m))).
  - apply rbind_Ok in H as (q2 & Hi & H). apply rbind_Ok in H as (row & _ & [= <- <-]). split; [done|]. right. by eapply done_row_lands.
  - apply rbind_Ok in H as (run_at & [= <-] & H). apply rbind_Ok in H as (q2 & Hi%insert_deferred_puts & H).
    apply rbind_Ok in H as (row & _ & [= <- <-]). split; [done|]. left. eexists _, _. split; [done|]. rewrite <- Hp. exact Hi.
Qed.
End Ends.

(** * Completions that find nothing *)

Lemma insert_no_done env old q q' : insert_done_rows_tx env [] old q = Ok q' -> q' = q.
Proof.
  unfold insert_done_rows_tx. cbn. unfold sync_unique_claims. cbn. intros [= <-].
  unfold increment_live_terminal_counters_tx, append_terminal_count_deltas_tx, set_done, set_unique, set_deltas. cbn.
  unfold tally. cbn. rewrite map_to_list_empty. cbn. rewrite app_nil_r. by destruct q.
Qed.
Lemma lease_match_remembered claimed entries l :
  (forall e, e ∈ entries -> e ∈ claimed) -> existsb (fun e => lease_matches e l) entries = true -> is_Some (remembered claimed (lease_attempt l)).
Proof.
  intros Hsub (e & He & Hm)%existsb_elem. unfold lease_matches in Hm. rewrite !andb_true_iff, bool_decide_eq_true, bool_decide_eq_true in Hm.
  destruct (remembered_spec claimed (lease_attempt l)) as (z & -> & _); [|eauto]. exists e. split; [auto|]. symmetry. tauto.
Qed.
Lemma delete_nothing target q deleted q' : delete_leases target q = (deleted, q') -> deleted = [] -> q' = q.
Proof.
  unfold delete_leases. intros [= <- <-] He%map_eq_nil.
  assert (List.filter (fun l => negb (target l)) (leases q) = leases q) as ->; [|by destruct q].
  induction (leases q) as [|l ls IH]; [done|]. simpl in *. destruct (target l); [done|]. simpl. by rewrite IH.
Qed.
Lemma slow_stale env claimed q q' : complete_runtime_batch_slow env claimed q = Ok ([], q') -> q' = q.
Proof.
  unfold complete_runtime_batch_slow. cbv zeta. intros ([u1 q1] & H1 & H)%rbind_Ok. apply rbind_Ok in H as ([u2 q2] & H2 & H).
  injection H as Eu <-. apply app_eq_nil in Eu as [-> ->].
  unfold complete_receipts in H1. destruct (existsb _ _); [done|]. cbv zeta in H1. apply rbind_Ok in H1 as (q1' & Hi1 & [= Eu <-]).
  rewrite Eu in Hi1. apply map_eq_nil in Eu. rewrite Eu in Hi1. apply insert_no_done in Hi1.
  assert (q1' = q) as ->. { rewrite Hi1. unfold close_receipts, set_closures, set_attempts. cbn. rewrite app_nil_r. by destruct q. }
  unfold complete_leases in H2. destruct (delete_leases _ q) as [deleted q3] eqn:Hd. cbv zeta in H2. apply rbind_Ok in H2 as (q2' & Hi2 & [= Ef <-]).
  assert (deleted = []) as ->.
  { pose proof Hd as Hd'. unfold delete_leases in Hd'. injection Hd' as <- _.
    destruct (List.filter _ (leases q)) as [|l ls] eqn:Hl; [done|]. exfalso.
    assert (l ∈ l :: ls) as Hin by left. rewrite <- Hl in Hin. apply elem_of_filter_b in Hin as [Hm _].
    apply (lease_match_remembered claimed) in Hm as [e He].
    - simpl in Ef. change (dl_attempt_of (ls_row l)) with (lease_attempt l) in Ef. by rewrite He in Ef.
    - intros e [[_ He]%elem_of_filter_b|[_ [_ He]%elem_of_filter_b]%elem_of_filter_b]%elem_of_app; done. }
  apply delete_nothing in Hd as ->; [|done]. apply insert_no_done in Hi2. rewrite Hi2.
  unfold close_receipt_pairs_tx, close_receipts, set_closures, set_attempts. cbn. rewrite app_nil_r. by destruct q.
Qed.
Lemma single_stale env e q r q' : complete_runtime_batch env [e] q = (r, q') -> r = Ok [] \/ (exists err, r = Err err) -> q' = q.
Proof.
  assert (forall r q1, (match complete_runtime_batch_slow env [e] q with Ok (u, q) => (Ok u, q) | Err e => (Err e, q) end) = (r, q1) ->
            r = Ok [] \/ (exists err, r = Err err) -> q1 = q) as Hslow.
  { intros r' q1. destruct (complete_runtime_batch_slow env [e] q) as [[u q2]|err] eqn:H; intros [= <- <-] Hr; [|done].
    destruct Hr as [[= ->]|[? [=]]]. by apply slow_stale in H. }
  unfold complete_runtime_batch. cbv zeta. destruct (forallb _ [e]); [|apply Hslow].
  unfold complete_receipt_runtime_batch_fast. destruct (sv_claim_ring env) as [[? ?] n].
  destruct (all_ok _ _) as [slots|err]; cbn [rbind]; [|intros [= <- <-] _; done]. cbv zeta. simpl.
  destruct (fast_completable q e).
  - rewrite bool_decide_true by left. simpl. intros [= <- <-] [[=]|[? [=]]].
  - rewrite bool_decide_false by apply not_elem_of_nil. simpl. rewrite !app_nil_r.
    replace (q |> set_attempts (attempt_state q) |> set_closures (closures q) |> set_completions (completions q)) with q by by destruct q.
    destruct (match complete_runtime_batch_slow env [e] q with Ok (u, q) => _ | Err e => _ end) as [r2 q2] eqn:H2.
    destruct r2; intros [= <- <-] Hr; by eapply Hslow.
Qed.
Lemma deleted_stale env target q q' : complete_deleted_leases env target q = Ok ([], q') -> q' = q.
Proof.
  unfold complete_deleted_leases. destruct (delete_leases target q) as [deleted q1] eqn:Hd. cbv zeta.
  intros ([moved q2] & Hh & H)%rbind_Ok. apply rbind_Ok in H as (rows & Hrows & H). apply rbind_Ok in H as (q3 & Hi & [= Em <-]).
  apply map_eq_nil in Em as ->. injection Hrows as <-. apply insert_no_done in Hi as ->. destruct deleted as [|d ds].
  - apply delete_nothing in Hd as ->; [|done]. unfold hydrate_deleted_leases_tx in Hh. simpl in Hh. injection Hh as <-.
    unfold close_receipts, receipts_to_close, set_closures, delete_attempts, close_receipt_pairs_tx, close_receipts, set_closures, set_attempts. cbn.
    rewrite !app_nil_r. by destruct q.
  - by apply hydrate_head_some in Hh.
Qed.

(** * The handler *)

Section Finish.
Context (blake3 : list Z -> list Z) (to_vec : json -> list Z) (ambient : option string) (debug_duration secs_text : Z -> string).
Context (display : AwaError -> string) (enqueue_specs : Outcome -> string -> list EnqueueSpec) (pid : Z) (dlq_enabled : bool).
Abbreviation finish_with := (finish_with blake3 to_vec ambient enqueue_specs pid).
Abbreviation direct := direct_complete_job_queue_storage.
Abbreviation batched := (batched_complete_job display).

(** What stays when new jobs come in. *)
Definition lasting (landed : QStore -> Prop) : Prop :=
  forall D q q', sinv D [] q -> landed q -> rtc inserted q q' -> landed q'.
Lemma done_as_lasting st a : lasting (done_as st a).
Proof. intros D q q' _ H Hi%inserted_run_spares. eapply done_as_more; [exact H|]. by rewrite (sp_done _ _ Hi). Qed.
Lemma dead_as_lasting reason a : lasting (dead_as reason a).
Proof. intros D q q' _ H Hi%inserted_run_spares. unfold dead_as in *. by rewrite (sp_dlq _ _ Hi). Qed.
Lemma deferred_as_lasting st t a : lasting (deferred_as st t a).
Proof.
  intros D q q' Hs (r & Hr & ?) Hi%inserted_run_spares. exists r. split; [|done]. rewrite (sp_deferred _ _ Hi); [done|].
  rewrite <- (si_deferred _ _ _ Hs _ _ Hr). change (c_job_id (df_columns r)) with (fst (place_of (df_columns r))).
  apply (ac_ids _ _ _ (si_places _ _ _ Hs)). apply elem_of_app. right. unfold places. rewrite !elem_of_app. right. right. left.
  apply list_elem_of_fmap. exists (fst a, r). split; [done|]. by apply elem_of_map_to_list.
Qed.
Lemma backs_off_lasting env j l : lasting (backs_off env j l).
Proof.
  intros D q q' Hs [(n & m & Hlt & H)|H] Hi; [left; exists n, m; split; [done|]; by eapply deferred_as_lasting|right; by eapply done_as_lasting].
Qed.
#[local] Hint Resolve done_as_lasting dead_as_lasting deferred_as_lasting backs_off_lasting : core.

(** A transaction with or without follow-ups. *)
Lemma finish_with_ends env outcome kind ctx tx q landed r q' :
  finish_with env outcome kind ctx tx q = (r, q') -> ends_at landed q (tx q) ->
  (forall row q1, tx q = Ok (row, q1) -> exists D, sinv D [] q1) -> lasting landed ->
  match r with Ok (Some _) => landed q' | _ => q' = q end.
Proof.
  intros H Ht Hs Hl. unfold QueueExecutor.finish_with in H. destruct (enqueue_specs outcome kind) as [|spec specs].
  - unfold in_tx in H. destruct (tx q) as [[[row|] q1]|e]; injection H as <- <-; done.
  - unfold followed, in_tx in H. destruct (tx q) as [[[row|] q1]|e] eqn:Hq; cbn [rbind] in H; [|by injection H as <- <-..].
    destruct (dispatch_specs_in_tx _ _ _ _ _ _ _ q1) as [q2|e] eqn:Hd; cbn [rbind] in H; injection H as <- <-; [|done].
    destruct (Hs _ _ eq_refl) as (D & Hs1). eapply Hl; [exact Hs1|exact Ht|]. eapply dispatch_in_tx_run; [|exact Hd].
    intros p d row' d'. apply insert_prepared_inserted.
Qed.
Definition fails_to (reason : string) (a : Z * Z) : QStore -> Prop := if dlq_enabled then dead_as reason a else done_as Failed a.
Lemma fails_to_lasting reason a : lasting (fails_to reason a).
Proof. unfold fails_to. destruct dlq_enabled; auto. Qed.
Lemma fail_attempt_ends D env job claim reason msg progress q :
  sinv D [] q -> ends_at (fails_to reason (j_id job, j_run_lease job)) q (fail_attempt dlq_enabled env job claim reason msg progress q).
Proof. intros Hs. unfold fail_attempt, fails_to. destruct dlq_enabled; [by eapply fail_to_dlq_ends|by eapply fail_terminal_ends]. Qed.

(** ** Completion *)

Lemma slow_updated env claimed q u q' a :
  complete_runtime_batch_slow env claimed q = Ok (u, q') -> a ∈ u -> exists e, e ∈ claimed /\ a = cj_attempt e.
Proof.
  unfold complete_runtime_batch_slow. cbv zeta. intros ([u1 q1] & H1 & H)%rbind_Ok. apply rbind_Ok in H as ([u2 q2] & H2 & [= <- <-]).
  intros [Ha|Ha]%elem_of_app.
  - unfold complete_receipts in H1. destruct (existsb _ _); [done|]. cbv zeta in H1. apply rbind_Ok in H1 as (q1' & _ & [= <- <-]).
    apply list_elem_of_fmap in Ha as (x & -> & Hx). apply list_elem_of_omap in Hx as (e & [_ He]%elem_of_filter_b & Hx). exists e. split; [done|].
    unfold slow_completable in Hx. destruct (receipt_ref q e) as [y|] eqn:Hy; [|done]. destruct (open_receipt q y); [|done]. injection Hx as ->.
    by apply receipt_ref_spec in Hy as (_ & ? & _).
  - unfold complete_leases in H2. destruct (delete_leases _ q1) as [deleted q3]. cbv zeta in H2. apply rbind_Ok in H2 as (q2' & _ & [= <- <-]).
    apply elem_of_filter_b in Ha as [Hr _]. destruct (remembered claimed a) as [e|] eqn:He; [|done]. apply find_elem in He as [He Hb%bool_decide_eq_true].
    exists e. split; [by apply list_elem_of_In, in_rev, list_elem_of_In|done].
Qed.
Lemma runtime_updated env claimed q u q' a :
  complete_runtime_batch env claimed q = (Ok u, q') -> a ∈ u -> exists e, e ∈ claimed /\ a = cj_attempt e.
Proof.
  unfold complete_runtime_batch. destruct claimed as [|e0 claimed]; [by intros [= <- _] ?%elem_of_nil|]. cbv zeta. set (cs := e0 :: claimed).
  assert (forall entries q u q', (match complete_runtime_batch_slow env entries q with
            | Ok (updated, q) => (Ok updated, q) | Err e => (Err e, q) end) = (Ok u, q') -> a ∈ u -> exists e, e ∈ entries /\ a = cj_attempt e) as Hslow.
  { clear. intros entries q u q'. destruct (complete_runtime_batch_slow env entries q) as [[u1 q1]|e] eqn:H; [|done]. intros [= <- <-]. by apply slow_updated with (1 := H). }
  destruct (forallb _ cs); [|apply Hslow]. unfold complete_receipt_runtime_batch_fast. destruct (sv_claim_ring env) as [[? ?] n].
  destruct (all_ok _ _) as [slots|err]; cbn [rbind]; [|done]. cbv zeta. set (updated := map cj_attempt _).
  assert (forall a, a ∈ updated -> exists e, e ∈ cs /\ a = cj_attempt e) as Hfast.
  { intros a' (e & -> & Hin)%list_elem_of_fmap. apply elem_of_filter_b in Hin as [_ He]. eauto. }
  set (q1 := _ |> set_completions _).
  destruct (List.filter (fun e => negb (bool_decide (cj_attempt e ∈ updated))) cs) as [|m ms] eqn:Hm; [intros [= <- _]; by apply Hfast|].
  destruct (match complete_runtime_batch_slow env (m :: ms) q1 with Ok (u, q) => _ | Err e => _ end) as [[more|e] q2] eqn:H2; [|done].
  intros [= <- <-] [Ha|Ha]%elem_of_app; [by apply Hfast|]. destruct (Hslow _ _ _ _ H2 Ha) as (e & He & ->). exists e. split; [|done].
  rewrite <- Hm in He. by apply elem_of_filter_b in He as [_ ?].
Qed.
Lemma deleted_updated env target q u q' a :
  complete_deleted_leases env target q = Ok (u, q') -> a ∈ u -> exists l, l ∈ leases q /\ target l = true /\ a = lease_attempt l.
Proof.
  unfold complete_deleted_leases. destruct (delete_leases target q) as [deleted q1] eqn:Hd. cbv zeta.
  intros ([moved q2] & Hh & H)%rbind_Ok. apply rbind_Ok in H as (rows & _ & H). apply rbind_Ok in H as (q3 & _ & [= <- <-]).
  unfold hydrate_deleted_leases_tx in Hh. apply rbind_Ok in Hh as (moved' & Hh & [= <- _]). apply hydrate_rows_places in Hh.
  change (map _ moved') with (map (fun r => place_of (lt_columns r)) moved'). rewrite Hh. unfold delete_leases in Hd. injection Hd as <- _.
  rewrite map_map. intros (l & -> & [Ht Hl]%elem_of_filter_b)%list_elem_of_fmap. by exists l.
Qed.

Abbreviation attempt job := (j_id job, j_run_lease job).
Lemma direct_spec env job claim us q r q' :
  direct env job claim us q = (r, q') ->
  (r = Ok true -> completed_at (attempt job) q') /\ (r <> Ok true -> q' = q).
Proof.
  unfold direct_complete_job_queue_storage. destruct claim as [c|].
  - destruct (complete_runtime_batch env [mkClaimedJob c job us] q) as [r1 q1] eqn:H1. intros [= <- <-].
    destruct r1 as [[|a u]|e]; simpl.
    + split; [done|]. intros _. eapply single_stale; [exact H1|by left].
    + split; [|done]. intros _. destruct (runtime_batch_completes _ _ _ _ _ H1) as [_ Hc]. apply (Hc (a :: u)); [done|].
      destruct (runtime_updated _ _ _ _ _ a H1) as (e & ->%list_elem_of_singleton & ->); left.
    + split; [done|]. intros _. eapply single_stale; [exact H1|right; by eexists].
  - unfold in_tx. destruct (complete_job_batch_by_id env _ q) as [[[|a u] q1]|e] eqn:H1; intros [= <- <-]; simpl; (split; [try done|try done]).
    + intros _. by eapply deleted_stale.
    + intros _. destruct (deleted_completes _ _ _ _ _ H1) as [_ Hc]. apply Hc.
      destruct (deleted_updated _ _ _ _ _ a H1) as (l & _ & Hl%bool_decide_eq_true & ->); [left|]. apply list_elem_of_singleton in Hl as ->. left.
Qed.
Definition own_request (job : JobRow) (claim : option ClaimedEntry) (us : option string) : CompletionRequest :=
  match claim with
  | Some claim => request_of_job (mkClaimedJob claim job us)
  | None => request_of_id (j_id job) (j_run_lease job)
  end.
Lemma own_attempt job claim us : rq_attempt (own_request job claim us) = attempt job.
Proof. by destruct claim. Qed.
Lemma only_in (a : Z * Z) u : (forall b, b ∈ u -> b = a) -> a ∉ u -> u = [].
Proof. destruct u as [|b u]; [done|]. intros Hu Hn. destruct Hn. rewrite <- (Hu b); left. Qed.
Lemma flush_alone env job claim us q f q' :
  flush_queue_storage env [own_request job claim us] q = (f, q') -> response display f (own_request job claim us) <> Ok true -> q' = q.
Proof.
  unfold flush_queue_storage. change (merge_sort request_le [?x]) with [x]. destruct claim as [c|]; cbv zeta; cbn [own_request List.filter has_job request_of_job
    request_of_id rq_runtime_job omap list_omap negb].
  - set (e := mkClaimedJob c job us). destruct (complete_runtime_batch env [e] q) as [r1 q1] eqn:H1. destruct r1 as [u|err]; intros [= <- <-] Hr.
    + apply (single_stale _ _ _ _ _ H1). left. f_equal. unfold response in Hr. cbn [fl_updated] in Hr. apply (only_in (attempt job)).
      * intros b Hb. by destruct (runtime_updated _ _ _ _ _ b H1 Hb) as (e' & ->%list_elem_of_singleton & ->).
      * intros Ha. by rewrite bool_decide_true in Hr.
    + apply (single_stale _ _ _ _ _ H1). right. by eexists.
  - unfold flush_rest. cbn [map all_some rq_claim]. destruct (complete_job_batch_by_id env _ q) as [[u q1]|err] eqn:H1; intros [= <- <-] Hr; [|done].
    apply (deleted_stale env (fun l => bool_decide (lease_attempt l ∈ [attempt job])) q q1).
    assert (u = []) as ->; [|exact H1]. unfold response in Hr. cbn [fl_updated] in Hr. apply (only_in (attempt job)).
    + intros b Hb. destruct (deleted_updated _ _ _ _ _ b H1 Hb) as (l & _ & Hl%bool_decide_eq_true & ->). by apply list_elem_of_singleton in Hl.
    + intros Ha. by rewrite bool_decide_true in Hr.
Qed.
Lemma batched_spec env job claim us others q r q' :
  batched env job claim us others q = (r, q') ->
  (r = Ok true -> completed_at (attempt job) q') /\ (r <> Ok true -> others = None \/ others = Some [] -> q' = q).
Proof.
  unfold batched_complete_job. fold (own_request job claim us). destruct others as [others|].
  - destruct (flush_queue_storage env (others ++ [own_request job claim us]) q) as [f q1] eqn:Hf.
    destruct (response display f (own_request job claim us)) as [b|e] eqn:Hr.
    + intros [= <- <-]. split.
      * intros [= ->]. destruct (flush_completes _ _ _ _ _ Hf) as [_ Hc]. rewrite <- (own_attempt job claim us). by apply (Hc display).
      * intros Hb [|[= ->]]; [done|]. by apply (flush_alone _ _ _ _ _ _ _ Hf); rewrite Hr.
    + intros [H1 H2]%direct_spec. split; [done|]. intros Hb [|[= ->]]; [done|]. rewrite (H2 Hb). by apply (flush_alone _ _ _ _ _ _ _ Hf); rewrite Hr.
  - intros [H1 H2]%direct_spec. split; auto.
Qed.

(** An answer, against what an applied one means and a stale one leaves. *)
Definition answers (means : QStore -> Prop) (quiet : Prop) (q : QStore) (s : result AwaError CompletionOutcome * QStore) : Prop :=
  match fst s with
  | Ok (Applied _ _) => means (snd s)
  | Ok IgnoredStale => quiet -> snd s = q
  | Err _ => True
  end.
Lemma settle_answers needs_event event terminal means quiet q r q' :
  match r with Ok (Some _) => means q' | _ => q' = q end -> answers means quiet q (settle needs_event event terminal (r, q')).
Proof. unfold answers, settle. cbn [fst snd]. destruct r as [[row|]|e]; done. Qed.
Lemma settled_sinv D q a r q' : settles D [] q a r q' -> exists D', sinv D' [] q'.
Proof. intros (D' & K & _). exists D'. apply K. Qed.

Lemma completed_answers D env job claim us staged path others duration needs_event q :
  sinv D [] q ->
  answers (completed_at (attempt job)) (path = Direct \/ others = None \/ others = Some []) q
    (complete_completed_queue blake3 to_vec ambient display enqueue_specs pid env job claim us staged path others duration needs_event q).
Proof.
  intros Hs. unfold complete_completed_queue. set (specs := enqueue_specs OCompleted (j_kind job)).
  assert (answers (completed_at (attempt job)) (path = Direct \/ others = None \/ others = Some []) q
            (settle needs_event (fun r => EvCompleted r duration) false
               (complete_queue_storage_with_followups blake3 to_vec ambient pid env job claim us specs staged q))) as Hfollow.
  { destruct (complete_queue_storage_with_followups _ _ _ _ _ _ _ _ _ _ q) as [r q'] eqn:Hf. apply settle_answers.
    unfold complete_queue_storage_with_followups in Hf. destruct claim as [c|]; [|by injection Hf as <- <-]. unfold in_tx in Hf.
    destruct (complete_runtime_batch_slow env [mkClaimedJob c job us] q) as [[[|a u] q1]|e] eqn:H1; cbn [rbind] in Hf; [by injection Hf as <- <-| |by injection Hf as <- <-].
    destruct (dispatch_specs_in_tx _ _ _ _ _ _ _ q1) as [q2|e] eqn:H2; cbn [rbind] in Hf; [|by injection Hf as <- <-].
    destruct (insert_staged_in_tx _ staged q2) as [[c3 q3]|e] eqn:H3; cbn [rbind] in Hf; injection Hf as <- <-; [|done].
    destruct (slow_updated _ _ _ _ _ a H1) as (e & ->%list_elem_of_singleton & ->); [left|].
    destruct (slow_completes _ _ _ _ _ H1) as [_ Hd]. left. apply (done_as_more _ _ q1); [apply Hd; left|].
    assert (forall p d row d', insert_prepared_queue pid env p d = Ok (row, d') -> inserted d d') as Hins by (intros *; apply insert_prepared_inserted).
    apply (dispatch_in_tx_run _ _ _ _ _ Hins), inserted_run_spares, sp_done in H2. apply (staged_in_tx_run _ _ Hins), inserted_run_spares, sp_done in H3.
    by rewrite H3, H2. }
  destruct specs as [|spec specs]; [destruct staged as [|p staged]; [|exact Hfollow]|exact Hfollow]. clear Hfollow.
  set (done := match path with Batched => _ | Direct => _ end).
  assert ((fst done = Ok true -> completed_at (attempt job) (snd done))
          /\ (fst done <> Ok true -> path = Direct \/ others = None \/ others = Some [] -> snd done = q)) as [H1 H2].
  { unfold done. destruct path.
    - destruct (batched_complete_job display env job claim us others q) as [r q'] eqn:Hb. destruct (batched_spec _ _ _ _ _ _ _ _ Hb) as [Ha Hn].
      split; [done|]. intros Hr [|?]; [done|]. by apply Hn.
    - destruct (direct_complete_job_queue_storage env job claim us q) as [r q'] eqn:Hb. destruct (direct_spec _ _ _ _ _ _ _ Hb) as [Ha Hn]. split; auto. }
  clearbody done. destruct done as [[[]|e] q']; cbn [fst snd] in *; unfold answers; [|simpl; auto|done].
  destruct needs_event; cbn [fst snd]; [|by apply H1]. destruct (load_job_without_output (j_id job) q'); cbn [rbind]; [by apply H1|done].
Qed.

(** ** Waiting for a callback *)

Definition parked_as (callback_id : Z) (a : Z * Z) (q : QStore) : Prop :=
  exists l, l ∈ leases q /\ lease_attempt l = a /\ dl_state (ls_row l) = WaitingExternal /\ ls_callback_id l = Some callback_id.
Lemma enter_wait_spec j l c q b q' :
  enter_callback_wait j l c q = (b, q') -> if b then parked_as c (j, l) q' else q' = q.
Proof.
  unfold enter_callback_wait. cbv zeta. set (target := fun x : LeaseRow => running_lease_of j l x && bool_decide (ls_callback_id x = Some c)).
  intros [= <- <-]. destruct (existsb target (leases q)) eqn:He.
  - apply existsb_elem in He as (x & Hx & Ht). pose proof Ht as Ht'. unfold target, running_lease_of in Ht'.
    rewrite !andb_true_iff, !bool_decide_eq_true in Ht'. destruct Ht' as [[Ha _] Hc]. eexists. split; [|split; [|split]].
    + unfold update_leases. cbn [leases set_leases]. apply list_elem_of_fmap. exists x. rewrite Ht. split; [reflexivity|done].
    + exact Ha.
    + done.
    + exact Hc.
  - unfold update_leases. assert (map (fun x => if target x then mkLeaseRow (ls_lease_slot x) (dl_set_state WaitingExternal (ls_row x)) None None
                                     (ls_callback_id x) (ls_callback_timeout_at x) else x) (leases q) = leases q) as ->; [|by destruct q].
    rewrite <- (map_id (leases q)) at 2. apply map_ext_in. intros x Hx%list_elem_of_In. destruct (target x) eqn:Ht; [|done].
    assert (existsb target (leases q) = true); [|congruence]. apply existsb_elem. eauto.
Qed.
(** The job had been settled, or it never registered a callback. *)
Definition resolved_early (job : JobRow) (q q' : QStore) : Prop :=
  q' = q /\ exists current, load_job (j_id job) q = Ok (Some current) /\ is_terminal (j_state current) = true.
Definition waits (job : JobRow) (callback_id : Z) (q q' : QStore) : Prop :=
  parked_as callback_id (attempt job) q' \/ fails_to "wait_for_callback_contract_violation" (attempt job) q' \/ resolved_early job q q'.
Lemma park_answers D env job claim callback_id progress needs_event q :
  sinv D [] q ->
  answers (waits job callback_id q) True q (park_queue_storage dlq_enabled env job claim callback_id progress needs_event q).
Proof.
  intros Hs. unfold park_queue_storage. destruct (enter_callback_wait _ _ callback_id q) as [b q1] eqn:He. apply enter_wait_spec in He. destruct b.
  - unfold answers. destruct needs_event; [|by left]. cbn [fst snd]. destruct (load_job _ q1); [by left|done].
  - subst q1. unfold park_missed_queue. destruct (load_job (j_id job) q) as [[current|]|e] eqn:Hl; [|done..].
    destruct (is_terminal (j_state current)) eqn:Ht; [right; right; split; [done|]; by exists current|].
    destruct (_ && _); [|done]. unfold in_tx. pose proof (fail_attempt_ends D env job claim "wait_for_callback_contract_violation" NO_CALLBACK progress q Hs) as Hf.
    destruct (fail_attempt _ _ _ _ _ _ _ q) as [[[row|] q1]|e]; apply settle_answers; [|done|done]. right. by left.
Qed.
Lemma waiting_answers D env job claim callback_id progress needs_event q :
  sinv D [] q ->
  answers (waits job callback_id q) True q
    (complete_waiting_queue blake3 to_vec ambient enqueue_specs pid dlq_enabled env job claim callback_id progress needs_event q).
Proof.
  intros Hs. unfold complete_waiting_queue. pose proof (park_answers D env job claim callback_id progress needs_event q Hs) as Hpark.
  destruct (enqueue_specs OWaitingForCallback (j_kind job)) as [|spec specs]; [done|].
  destruct (park_queue_storage_with_followups _ _ _ _ _ _ _ _ q) as [r q'] eqn:Hf.
  unfold park_queue_storage_with_followups, followed, in_tx in Hf.
  destruct (enter_callback_wait _ _ callback_id q) as [b q1] eqn:He. apply enter_wait_spec in He.
  destruct b; [|injection Hf as <- <-; done].
  destruct (load_active_lease_in_tx _ _ q1) as [row|e]; cbn [rbind] in Hf; [|injection Hf as <- <-; done].
  destruct (dispatch_specs_in_tx _ _ _ _ _ _ _ q1) as [q2|e] eqn:Hd; cbn [rbind] in Hf; injection Hf as <- <-; [|done].
  apply settle_answers. left. eapply dispatch_in_tx_run in Hd; [|intros *; apply insert_prepared_inserted].
  apply inserted_run_spares, sp_leases in Hd. unfold parked_as in *. by rewrite Hd.
Qed.

(** ** Every result *)

(** Where a result puts the job of an attempt. *)
Definition means (env : StoreEnv) (job : JobRow) (res : HandlerResult) (callback_id : Z) (q q' : QStore) : Prop :=
  let exhausted := j_max_attempts job <=? j_attempt job in
  match res with
  | Ok JCompleted => completed_at (attempt job) q'
  | Ok (JRetryAfter d) =>
      if exhausted then fails_to "max_attempts_exhausted" (attempt job) q'
      else deferred_as Retryable (sv_now env + micros d) (attempt job) q'
  | Ok (JSnooze d) => deferred_as Scheduled (sv_now env + micros d) (attempt job) q'
  | Ok (JCancel _) => done_as Cancelled (attempt job) q'
  | Ok JWaitForCallback => waits job callback_id q q'
  | Err (JTerminal _) => fails_to "terminal_error" (attempt job) q'
  | Err (JRetryable _) =>
      if exhausted then fails_to "max_attempts_exhausted" (attempt job) q' else backs_off env (j_id job) (j_run_lease job) q'
  end.
Lemma finish_with_answers D env outcome kind ctx tx a landed needs_event event terminal quiet q :
  ends_at landed q (tx q) -> (forall r q1, tx q = Ok (r, q1) -> settles D [] q a r q1) -> lasting landed ->
  answers landed quiet q (settle needs_event event terminal (finish_with env outcome kind ctx tx q)).
Proof.
  intros He Hs Hl. destruct (finish_with env outcome kind ctx tx q) as [r q'] eqn:Hf. apply settle_answers.
  eapply finish_with_ends; [exact Hf|done| |done]. intros row q1 H%Hs. by eapply settled_sinv.
Qed.
Lemma fail_answers D env job claim reason msg progress needs_event quiet q :
  sinv D [] q ->
  answers (fails_to reason (attempt job)) quiet q
    (fail_queue_storage blake3 to_vec ambient enqueue_specs pid dlq_enabled env job claim reason msg progress needs_event q).
Proof.
  intros Hs. eapply (finish_with_answers D); [by eapply fail_attempt_ends| |apply fails_to_lasting].
  intros r q1. unfold fail_attempt. destruct dlq_enabled; [by apply fail_to_dlq_settles|by apply fail_terminal_settles].
Qed.

Context (hash : list Z -> Z) (stripe_count : nat).
(** A finalization on queue storage does what the handler's result means, or
    nothing.  When it answers that the outcome was applied, the attempt of the
    worker's job and run lease is where the result puts it: completed, deferred
    for its retry or snooze, cancelled, failed or dead-lettered with the reason,
    or parked for its callback, with whatever follow-ups were enqueued in the
    same transaction.  When it answers that the attempt was stale, the store is
    as it was. *)
Theorem queue_finish_lands env job claim us res callback_id staged path others progress duration needs_event out q r q' :
  reachable hash stripe_count blake3 to_vec ambient (out, q) ->
  complete_job_queue_storage blake3 to_vec ambient debug_duration secs_text display enqueue_specs pid dlq_enabled env job claim us res
    callback_id staged path others progress duration needs_event q = (r, q') ->
  match r with
  | Ok (Applied _ _) => means env job res callback_id q q'
  | Ok IgnoredStale => path = Direct \/ others = None \/ others = Some [] -> q' = q
  | Err _ => True
  end.
Proof.
  intros (D & [Hs _])%reachable_ok H. simpl in Hs.
  change (answers (means env job res callback_id q) (path = Direct \/ others = None \/ others = Some []) q (r, q')). rewrite <- H. clear H.
  unfold complete_job_queue_storage, means. destruct res as [[|d|d|reason|]|[msg|msg]].
  - by eapply completed_answers.
  - destruct (_ <=? _); [by eapply fail_answers|]. eapply (finish_with_answers D); [by eapply retry_after_ends|intros *; by apply retry_after_settles|auto].
  - unfold snooze_queue_storage, in_tx. pose proof (snooze_ends D [] env (j_id job) (j_run_lease job) claim progress q Hs (micros d)) as He.
    destruct (snooze _ _ _ _ _ _ q) as [[[row|] q1]|e]; by apply settle_answers.
  - eapply (finish_with_answers D); [by eapply cancel_running_ends|intros *; by apply cancel_running_settles|auto].
  - pose proof (waiting_answers D env job claim callback_id progress needs_event q Hs) as Hw. unfold answers in *.
    destruct (fst _) as [[]|]; auto.
  - destruct (_ <=? _); [by eapply fail_answers|]. eapply (finish_with_answers D); [by eapply fail_retryable_ends|intros *; by apply fail_retryable_settles|auto].
  - by eapply fail_answers.
Qed.

(** ** As a run of the store *)

Section Runs.
Context (out : list ClaimedRuntimeJob).
Abbreviation runs q q' := (rtc (step hash stripe_count blake3 to_vec ambient) (out, q) (out, q')).
(** The claim the worker holds is one it was handed. *)
Context (claim : option ClaimedEntry).
Hypothesis Hclaim : forall c, claim = Some c -> exists h, h ∈ out /\ c = cj_claim h.

Lemma finish_runs q xs q' : finish_step out q xs q' -> runs q q'.
Proof. intros H. by eapply rtc_once, StepFinish. Qed.
Lemma finish_with_runs env outcome kind ctx tx q :
  (forall row q1, tx q = Ok (row, q1) -> runs q q1) -> runs q (snd (finish_with env outcome kind ctx tx q)).
Proof.
  intros Ht. unfold QueueExecutor.finish_with. destruct (enqueue_specs outcome kind) as [|spec specs].
  - unfold in_tx. destruct (tx q) as [[row q1]|e]; [by eapply Ht|apply rtc_refl].
  - unfold followed, in_tx. destruct (tx q) as [[[row|] q1]|e]; cbn [rbind]; [|apply rtc_refl..].
    destruct (dispatch_specs_in_tx _ _ _ _ _ _ _ q1) as [q2|e] eqn:Hd; cbn [rbind snd]; [|apply rtc_refl].
    etrans; [by eapply Ht|]. apply inserted_steps. eapply dispatch_in_tx_run; [|exact Hd]. intros *. apply insert_prepared_inserted.
Qed.
Lemma settle_runs needs_event event terminal q r : runs q (snd r) -> runs q (snd (settle needs_event event terminal r)).
Proof. done. Qed.
Lemma fail_attempt_runs env job reason msg progress q row q1 :
  fail_attempt dlq_enabled env job claim reason msg progress q = Ok (row, q1) -> runs q q1.
Proof. unfold fail_attempt. destruct dlq_enabled; intros H; eapply finish_runs; [by eapply FinishDlq|by eapply FinishTerminal]. Qed.
Lemma direct_runs env job us q : runs q (snd (direct env job claim us q)).
Proof.
  unfold direct_complete_job_queue_storage. destruct claim as [c|].
  - destruct (complete_runtime_batch env _ q) as [r q'] eqn:H. eapply finish_runs. eapply FinishCompleted; [| |exact H]; [apply NoDup_singleton|].
    intros e ->%list_elem_of_singleton. by apply Hclaim.
  - unfold in_tx. destruct (complete_job_batch_by_id env _ q) as [[u q']|e] eqn:H; cbn [snd]; [|apply rtc_refl]. by eapply finish_runs, FinishById.
Qed.
Lemma own_made job us : made out (own_request job claim us).
Proof.
  destruct claim as [c|]; [left|right; by eexists _, _]. destruct (Hclaim c eq_refl) as (h & Hh & ->). by eexists _, h.
Qed.
(** The flush carries requests of other tasks, each for its own attempt. *)
Definition fair (job : JobRow) (us : option string) (others : option (list CompletionRequest)) : Prop :=
  forall l, others = Some l -> Forall (made out) l /\ NoDup (map rq_attempt (l ++ [own_request job claim us])).
Lemma batched_runs env job us others q : fair job us others -> runs q (snd (batched env job claim us others q)).
Proof.
  intros Hfair. unfold batched_complete_job. fold (own_request job claim us). destruct others as [others|]; [|apply direct_runs].
  destruct (Hfair others eq_refl) as [Hm Hn]. destruct (flush_queue_storage env _ q) as [f q1] eqn:Hf.
  assert (runs q q1) as Hr.
  { destruct (flush_spec env _ out _ _ _ ltac:(apply Forall_app; split; [exact Hm|apply Forall_singleton, own_made]) Hn Hf) as (xs & Hrun & _).
    by eapply finish_run_steps. }
  destruct (response display f _); [done|]. etrans; [exact Hr|apply direct_runs].
Qed.

Lemma completed_runs env job us staged path others duration needs_event q :
  fair job us others ->
  runs q (snd (complete_completed_queue blake3 to_vec ambient display enqueue_specs pid env job claim us staged path others duration needs_event q)).
Proof.
  intros Hfair. unfold complete_completed_queue. set (specs := enqueue_specs OCompleted (j_kind job)).
  assert (runs q (snd (complete_queue_storage_with_followups blake3 to_vec ambient pid env job claim us specs staged q))) as Hfollow.
  { unfold complete_queue_storage_with_followups. destruct claim as [c|]; [|apply rtc_refl]. unfold in_tx.
    destruct (complete_runtime_batch_slow env _ q) as [[[|a u] q1]|e] eqn:H1; cbn [rbind]; [apply rtc_refl| |apply rtc_refl].
    destruct (dispatch_specs_in_tx _ _ _ _ _ _ _ q1) as [q2|e] eqn:H2; cbn [rbind]; [|apply rtc_refl].
    destruct (insert_staged_in_tx _ staged q2) as [[c3 q3]|e] eqn:H3; cbn [rbind snd]; [|apply rtc_refl].
    assert (forall p d row d', insert_prepared_queue pid env p d = Ok (row, d') -> inserted d d') as Hins by (intros *; apply insert_prepared_inserted).
    etrans; [eapply finish_runs, FinishSlow; [|exact H1]; apply NoDup_singleton|]. etrans; apply inserted_steps;
      [exact (dispatch_in_tx_run _ _ _ _ _ Hins _ _ _ _ _ H2)|exact (staged_in_tx_run _ _ Hins _ _ _ _ H3)]. }
  destruct specs as [|spec specs]; [destruct staged as [|p staged]; [|exact Hfollow]|exact Hfollow].
  set (done := match path with Batched => _ | Direct => _ end).
  assert (runs q (snd done)) as Hd by (unfold done; destruct path; [by apply batched_runs|apply direct_runs]).
  clearbody done. destruct done as [[[]|e] q']; [destruct needs_event|..]; exact Hd.
Qed.
Lemma waiting_runs env job callback_id progress needs_event q :
  runs q (snd (complete_waiting_queue blake3 to_vec ambient enqueue_specs pid dlq_enabled env job claim callback_id progress needs_event q)).
Proof.
  assert (forall q b q1, enter_callback_wait (j_id job) (j_run_lease job) callback_id q = (b, q1) -> runs q q1) as Henter.
  { intros q0 b q1 H. by eapply rtc_once, StepMove, MoveEnterWait. }
  assert (runs q (snd (park_queue_storage dlq_enabled env job claim callback_id progress needs_event q))) as Hpark.
  { unfold park_queue_storage. destruct (enter_callback_wait _ _ _ q) as [b q1] eqn:He. apply Henter in He. destruct b; [by destruct needs_event|].
    etrans; [exact He|]. unfold park_missed_queue. destruct (load_job _ q1) as [[current|]|e]; [|apply rtc_refl..].
    destruct (is_terminal _); [apply rtc_refl|]. destruct (_ && _); [|apply rtc_refl]. apply settle_runs. unfold in_tx.
    destruct (fail_attempt _ _ _ _ _ _ _ q1) as [[row q2]|e] eqn:Hf; [by eapply fail_attempt_runs|apply rtc_refl]. }
  unfold complete_waiting_queue. destruct (enqueue_specs OWaitingForCallback (j_kind job)) as [|spec specs]; [done|].
  destruct (park_queue_storage_with_followups _ _ _ _ _ _ _ _ q) as [r q'] eqn:Hf.
  unfold park_queue_storage_with_followups, followed, in_tx in Hf.
  destruct (enter_callback_wait _ _ callback_id q) as [b q1] eqn:He. destruct b; [|injection Hf as <- <-; exact Hpark].
  destruct (load_active_lease_in_tx _ _ q1) as [row|e]; cbn [rbind] in Hf; [|injection Hf as <- <-; apply rtc_refl].
  destruct (dispatch_specs_in_tx _ _ _ _ _ _ _ q1) as [q2|e] eqn:Hd; cbn [rbind] in Hf; injection Hf as <- <-; [|apply rtc_refl].
  etrans; [by eapply Henter|]. apply inserted_steps. eapply dispatch_in_tx_run; [|exact Hd]. intros *. apply insert_prepared_inserted.
Qed.

(** Whatever a handler returns, its finalization on queue storage is a run of
    the store's operations: claims, completions, failures, retries, parking and
    inserts, those of the follow-ups and of the other requests of its batch
    included.  So the executor keeps every guarantee of the store. *)
Theorem queue_finish_runs env job us res callback_id staged path others progress duration needs_event q r q' :
  fair job us others ->
  complete_job_queue_storage blake3 to_vec ambient debug_duration secs_text display enqueue_specs pid dlq_enabled env job claim us res
    callback_id staged path others progress duration needs_event q = (r, q') ->
  rtc (step hash stripe_count blake3 to_vec ambient) (out, q) (out, q').
Proof.
  intros Hfair H. change q' with (snd (r, q')). rewrite <- H. clear H.
  assert (forall reason msg, runs q (snd (fail_queue_storage blake3 to_vec ambient enqueue_specs pid dlq_enabled env job claim reason msg progress needs_event q))) as Hfail.
  { intros reason msg. apply settle_runs, finish_with_runs. intros *. apply fail_attempt_runs. }
  unfold complete_job_queue_storage. destruct res as [[|d|d|reason|]|[msg|msg]].
  - by apply completed_runs.
  - destruct (_ <=? _); [apply Hfail|]. apply settle_runs, finish_with_runs. intros row q1 H. by eapply finish_runs, FinishRetryAfter.
  - apply settle_runs. unfold in_tx. destruct (snooze _ _ _ _ _ _ q) as [[row q1]|e] eqn:H; [by eapply finish_runs, FinishSnooze|apply rtc_refl].
  - apply settle_runs, finish_with_runs. intros row q1 H. by eapply finish_runs, FinishCancel.
  - apply waiting_runs.
  - destruct (_ <=? _); [apply Hfail|]. apply settle_runs, finish_with_runs. intros row q1 H. by eapply finish_runs, FinishRetryable.
  - apply Hfail.
Qed.
End Runs.
End Finish.

(** * Runs *)

Module FinishDemo.
Import StoreDemo.
Definition no_text (_ : Z) : string := EmptyString.
Definition finish (job : ClaimedRuntimeJob) (res : HandlerResult) (others : option (list CompletionRequest)) (t : Z) (q : QStore)
    : result AwaError CompletionOutcome * QStore :=
  complete_job_queue_storage id (fun _ => []) None no_text no_text (fun _ => EmptyString) (fun _ _ => []) 7 false
    (at_second t) (cj_job job) (Some (cj_claim job)) (cj_unique_states job) res 0 [] Batched others None 0 true q.

(** Two claimed jobs; the handler of the first asks for a retry. *)
Definition first_out : ClaimedRuntimeJob := List.hd (mkClaimedJob (mkClaimedEntry (mkPosition 0 0 0 0) EmptyString 0 0 0 0 None None None false)
  (mkJobRow 0 EmptyString EmptyString JNull Running 0 0 0 0 0 None None None None 0 None JNull [] None None None None None None None None None None) None) out.
Definition retried : result AwaError CompletionOutcome * QStore := finish first_out (Ok (JRetryAfter 5000000000)) None 2 q2.

Lemma queue_finish_lands_witness : deferred_as Retryable (7 * us_per_sec) (1, 1) (snd retried).
Proof.
  assert (exists ev t, fst retried = Ok (Applied ev t)) as (ev & t & E) by (eexists _, _; vm_compute; reflexivity).
  assert (deferred_as Retryable (sv_now (at_second 2) + micros 5000000000) (j_id (cj_job first_out), j_run_lease (cj_job first_out)) (snd retried)) as H.
  { pose proof (queue_finish_lands id (fun _ => []) None no_text no_text (fun _ => EmptyString) (fun _ _ => []) 7 false no_hash 1 (at_second 2)
      (cj_job first_out) (Some (cj_claim first_out)) (cj_unique_states first_out) (Ok (JRetryAfter 5000000000)) 0 [] Batched None None 0 true out q2
      (fst retried) (snd retried) reaches_claimed (surjective_pairing _)) as H. rewrite E in H. cbv beta iota zeta delta [means] in H.
    assert ((j_max_attempts (cj_job first_out) <=? j_attempt (cj_job first_out)) = false) as C by (vm_compute; reflexivity). rewrite C in H. exact H. }
  destruct H as (r & Hr). exists r. vm_compute in Hr |- *. exact Hr.
Defined.
Lemma queue_finish_runs_witness : rtc (step no_hash 1 id (fun _ => []) None) (out, q2) (out, snd retried).
Proof.
  apply (queue_finish_runs id (fun _ => []) None no_text no_text (fun _ => EmptyString) (fun _ _ => []) 7 false no_hash 1 out
    (Some (cj_claim first_out))) with (env := at_second 2) (job := cj_job first_out) (us := cj_unique_states first_out)
    (res := Ok (JRetryAfter 5000000000)) (callback_id := 0) (staged := []) (path := Batched) (others := None) (progress := None)
    (duration := 0) (needs_event := true) (r := fst retried).
  - intros c Hc. exists first_out. split; [vm_compute; left|]. by apply (inj Some) in Hc.
  - intros l [=].
  - apply surjective_pairing.
Defined.

(** Three jobs: one of the second lane, aged, that fails, and two of the first
    lane, of which one has a lease. *)
Definition submitted (priority : Z) (q : QStore) : QStore := snd (result_or (0%nat, q0) (submit (options priority 25 (JObject []) None) 0 q)).
Definition one_job : QStore := submitted 2 q0.
Definition two_jobs : QStore := submitted 1 one_job.
Definition three_jobs : QStore := submitted 1 two_jobs.
Definition claim_a : result AwaError (list ClaimedRuntimeJob) * QStore := claim_runtime_batch (claim_at 90) (fun _ => false) "mail" three_jobs.
Definition claim_b : result AwaError (list ClaimedRuntimeJob) * QStore := claim_runtime_batch (claim_at 90) (fun _ => false) "mail" (snd claim_a).
Definition held : list ClaimedRuntimeJob := ([] ++ handed_by (fst claim_a)) ++ handed_by (fst claim_b).
Definition one_failed : QStore := snd (result_or (None, q0) (fail_terminal (at_second 91) 1 1 error None None (snd claim_b))).
Definition called_back : QStore := result_or q0 (register_callback (at_second 92) 2 1 77 us_per_sec one_failed).
Definition one_leased : QStore := snd (cancel_callback 2 1 called_back).
Definition held_as (j : Z) : ClaimedRuntimeJob := default first_out (List.find (fun e => j_id (cj_job e) =? j) held).
Definition third : result AwaError CompletionOutcome * QStore := finish (held_as 3) (Ok JCompleted) (Some [request_of_job (held_as 2)]) 93 one_leased.

Lemma three_reach : reaches (held, one_leased).
Proof.
  apply (reaches_move _ called_back).
  2: { apply (MoveCancelCallback called_back 2 1 (fst (cancel_callback 2 1 called_back)) one_leased). vm_compute. reflexivity. }
  apply (reaches_move _ one_failed).
  2: { apply (MoveRegister one_failed (at_second 92) 2 1 77 us_per_sec called_back); [|vm_compute; reflexivity].
       assert (leases one_failed = []) as E by (vm_compute; reflexivity). unfold fresh_callback. rewrite E. intros l Hl. exfalso. exact (proj1 (elem_of_nil l) Hl). }
  assert (reaches (held, snd claim_b)) as (ring & H).
  { unfold held.
    apply (reaches_claim ([] ++ handed_by (fst claim_a)) (claim_at 90) (fun _ => false) "mail" (snd claim_a) (fst claim_b) (snd claim_b)); [|vm_compute; reflexivity].
    apply (reaches_claim [] (claim_at 90) (fun _ => false) "mail" three_jobs (fst claim_a) (snd claim_a)); [|vm_compute; reflexivity].
    apply (reaches_submit [] (options 1 25 (JObject []) None) 0 two_jobs 1 three_jobs); [|vm_compute; reflexivity].
    apply (reaches_submit [] (options 1 25 (JObject []) None) 0 one_job 1 two_jobs); [|vm_compute; reflexivity].
    apply (reaches_submit [] (options 2 25 (JObject []) None) 0 q0 1 one_job); [apply reaches_empty|vm_compute; reflexivity]. }
  set (row := fst (result_or (None, q0) (fail_terminal (at_second 91) 1 1 error None None (snd claim_b)))).
  assert (fail_terminal (at_second 91) 1 1 error None None (snd claim_b) = Ok (row, one_failed)) as Hf by (vm_compute; reflexivity).
  exists ring. eapply rtc_r; [exact H|]. clearbody row. by eapply StepFinish, FinishTerminal, Hf.
Qed.

(** A completion that committed can be reported stale.  The batch of a flush
    is completed in two transactions, receipts first; when the second fails, here
    because a terminal row of another lane has the key the leased job needs, the
    batcher tells every request of the batch that it failed.  The job completed
    by the first is then completed again, directly, finds itself gone, and its
    finalization answers that it was stale: no event of its completion is
    dispatched. *)
Theorem committed_completion_reported_stale :
  reaches (held, one_leased) /\ running_places one_leased = [(2, 1); (3, 1)] /\ cj_attempt (held_as 3) = (3, 1)
  /\ fst third = Ok IgnoredStale /\ completed_places (snd third) = [(3, 1)].
Proof. split; [apply three_reach|]. split_and!; vm_compute; reflexivity. Qed.
End FinishDemo.
