(* ===== verification/Finish.v ===== *)
(** What finalization does to the job it finishes: on a live attempt every
    handler result lands in its state, on a stale attempt nothing changes.
    Follow-ups that ride in the transaction insert new rows only. *)

From S2P Require Import Prelude.
From S2P Require Import Error.
From S2P Require Import Json.
From S2P Require Import Job.
From S2P Require Import Canonical.
From S2P Require Import CanonicalFacts.
From S2P Require Import Lifecycle.
From S2P Require Import Executor.
From S2P Require Import ExecutorFacts.

(** The state a handler result means, for an attempt with or without a
    registered callback. *)
Definition final_state (registered : bool) (job : JobRow) (res : HandlerResult) : JobState :=
  match res with
  | Ok JCompleted => Completed
  | Ok (JRetryAfter _) | Err (JRetryable _) =>
      if j_max_attempts job <=? j_attempt job then Failed else Retryable
  | Ok (JSnooze _) => Scheduled
  | Ok (JCancel _) => Cancelled
  | Ok JWaitForCallback => if registered then WaitingExternal else Failed
  | Err (JTerminal _) => Failed
  end.

Definition registered (r : JobRow) : bool :=
  match j_callback_id r with Some _ => true | None => false end.

(** The finished row: its state, its lease, and the attempt counter, which a
    snooze hands back. *)
Definition settled (env : Env) (job : JobRow) (res : HandlerResult) (r q : JobRow) : Prop :=
  j_state q = final_state (registered r) job res
  /\ j_run_lease q = j_run_lease r
  /\ j_attempt q = (match res with Ok (JSnooze _) => j_attempt r - 1 | _ => j_attempt r end)
  /\ (is_terminal (j_state q) = true -> j_finalized_at q = Some (now env)).

Definition is_applied (out : CompletionOutcome) : Prop :=
  match out with Applied _ _ => True | IgnoredStale => False end.

(** [d'] adds rows to [d]. *)
Definition inserts (d d' : Db) : Prop :=
  wf d' /\ jobs_id_seq d <= jobs_id_seq d'
  /\ forall id, id < jobs_id_seq d -> lookup_job id d' = lookup_job id d.

Lemma inserts_refl d : wf d -> inserts d d.
Proof. intros H. split; [exact H|]. split; [lia|]. auto. Qed.

Lemma inserts_trans a b c : inserts a b -> inserts b c -> inserts a c.
Proof.
  intros (_ & Hs & Hl) (Hwf & Hs' & Hl'). split; [exact Hwf|]. split; [lia|].
  intros id Hid. rewrite Hl' by lia. apply Hl, Hid.
Qed.

Lemma insert_prepared_inserts env p d r d' : wf d -> insert_prepared env p d = Ok (r, d') -> inserts d d'.
Proof.
  intros Hwf H. unfold insert_prepared in H. destruct (insert_job_compat env p d) as [[r0 d0]|e] eqn:Hi.
  2: destruct e; discriminate.
  injection H as <- <-. destruct (insert_valid p) eqn:Hv; [|unfold insert_job_compat in Hi; rewrite Hv in Hi; discriminate].
  pose proof (insert_job_compat_spec env p d Hwf Hv) as Hs. rewrite Hi in Hs. destruct Hs as (-> & Hrep & _).
  split; [apply Hrep|]. rewrite (rep_seq _ _ _ _ Hrep). split; [simpl; lia|].
  intros id Hid. rewrite (rep_rows _ _ _ _ Hrep). apply upd_ne. intros ->. simpl in Hid. lia.
Qed.

Lemma staged_follow_up_inserts env p d b d' : wf d -> insert_staged_follow_up (insert_prepared env) p d = Ok (b, d') -> inserts d d'.
Proof.
  intros Hwf H. unfold insert_staged_follow_up in H. destruct (pi_unique_key p).
  - destruct (insert_prepared env p d) as [[r d1]|e] eqn:Hi.
    + injection H as <- <-. eapply insert_prepared_inserts; eassumption.
    + destruct e; try discriminate. destruct (is_duplicate_follow_up _); [|discriminate].
      injection H as <- <-. apply inserts_refl, Hwf.
  - apply rbind_Ok in H as ([r d1] & Hi & H). injection H as <- <-. eapply insert_prepared_inserts; eassumption.
Qed.

Lemma staged_in_tx_inserts env staged d c d' : wf d -> insert_staged_in_tx (insert_prepared env) staged d = Ok (c, d') -> inserts d d'.
Proof.
  revert d c. induction staged as [|p staged IH]; intros d c Hwf H; simpl in H.
  { injection H as <- <-. apply inserts_refl, Hwf. }
  apply rbind_Ok in H as ([b d1] & H1 & H). apply rbind_Ok in H as ([[i n] d2] & H2 & H).
  injection H as <- <-. apply (staged_follow_up_inserts _ _ _ _ _ Hwf) in H1.
  eapply inserts_trans; [exact H1|]. eapply IH; [apply H1|exact H2].
Qed.

Section Finish.
  Context (blake3 : list Z -> list Z) (to_vec : json -> list Z) (ambient : option string)
    (debug_duration : Z -> string) (enqueue_specs : Outcome -> string -> list EnqueueSpec)
    (next_queue_storage_id : Z) (insert_migrated : JobRow -> option string -> Db -> result AwaError (JobRow * Db)).

Lemma dispatch_specs_inserts env job ctx specs d d' :
  wf d -> dispatch_specs blake3 to_vec ambient (insert_prepared env) job ctx specs d = Ok d' -> inserts d d'.
Proof.
  revert d. induction specs as [|spec specs IH]; intros d Hwf H; simpl in H.
  { injection H as <-. apply inserts_refl, Hwf. }
  apply rbind_Ok in H as (d1 & H1 & H2). assert (inserts d d1) as Hi.
  { unfold run_spec in H1. apply rbind_Ok in H1 as ([[[kind args] opts]|] & _ & H1).
    - apply rbind_Ok in H1 as (p & _ & H1). apply rbind_Ok in H1 as ([b d2] & H1 & H3). injection H3 as <-.
      eapply staged_follow_up_inserts; eassumption.
    - injection H1 as <-. apply inserts_refl, Hwf. }
  eapply inserts_trans; [exact Hi|]. apply IH; [apply Hi|exact H2].
Qed.

Lemma dispatch_in_tx_inserts env job specs ctx d d' :
  wf d -> dispatch_specs_in_tx blake3 to_vec ambient (insert_prepared env) job specs ctx d = Ok d' -> inserts d d'.
Proof.
  intros Hwf H. destruct specs; [injection H as <-; apply inserts_refl, Hwf|].
  eapply dispatch_specs_inserts; [exact Hwf|exact H].
Qed.

(** A job row lands with property [Q]. *)
Definition lands (id : Z) (Q : JobRow -> Prop) (d : Db) : Prop :=
  wf d /\ exists q, lookup_job id d = Some q /\ Q q.

Lemma lands_inserts id Q a b : lands id Q a -> inserts a b -> lands id Q b.
Proof.
  intros (Hwf & q & Hq & HQ) (Hwf' & _ & Hl). split; [exact Hwf'|]. exists q. split; [|exact HQ].
  rewrite Hl by (eapply wf_seq; eassumption). exact Hq.
Qed.

Lemma replaces_lands d d' id (Q : JobRow -> Prop) q : replaces d d' id (Some q) -> Q q -> lands id Q d'.
Proof.
  intros Hrep HQ. split; [apply Hrep|]. exists q. split; [|exact HQ].
  rewrite (rep_rows _ _ _ _ Hrep). apply upd_eq.
Qed.

Lemma where_lands id guard f d r (Q : JobRow -> Prop) :
  wf d -> hot d !! id = Some r -> guard r = true -> same_ident r (f r) ->
  in_scheduled (j_state (f r)) = false -> Q (f r) ->
  forall row d', update_hot_where id guard f d = Ok (row, d') -> row = Some (f r) /\ lands id Q d'.
Proof.
  intros Hwf Hr Hg (Hi & Hk & _) Hst HQ row d' H. destruct (wf_hot _ Hwf _ _ Hr) as [Hid _].
  assert (forall r0, hot d !! id = Some r0 -> guard r0 = true -> j_id (f r0) = id /\ j_unique_key (f r0) = j_unique_key r0 /\ in_scheduled (j_state (f r0)) = false) as Hf.
  { intros r0 Hr0 _. rewrite Hr in Hr0. injection Hr0 as <-. repeat split; congruence. }
  pose proof (update_hot_where_spec id guard f d Hwf Hf) as Hs. rewrite H in Hs. destruct row as [q|].
  - destruct Hs as (r0 & Hr0 & _ & -> & Hrep & _).
    rewrite Hr in Hr0. injection Hr0 as <-. split; [reflexivity|]. eapply replaces_lands; eassumption.
  - destruct Hs as [_ Hs]. rewrite (Hs r Hr) in Hg. discriminate.
Qed.

Lemma move_lands id guard f d r (Q : JobRow -> Prop) :
  wf d -> hot d !! id = Some r -> guard r = true -> same_ident r (f r) ->
  in_scheduled (j_state (f r)) = true -> Q (f r) ->
  forall row d', move_to_scheduled_where id guard f d = Ok (row, d') -> row = Some (f r) /\ lands id Q d'.
Proof.
  intros Hwf Hr Hg (Hi & Hk & _) Hst HQ row d' H. destruct (wf_hot _ Hwf _ _ Hr) as [Hid _].
  assert (forall r0, hot d !! id = Some r0 -> guard r0 = true -> j_id (f r0) = id /\ in_scheduled (j_state (f r0)) = true) as Hf.
  { intros r0 Hr0 _. rewrite Hr in Hr0. injection Hr0 as <-. repeat split; congruence. }
  pose proof (move_to_scheduled_spec id guard f d Hwf Hf) as Hs. rewrite H in Hs. destruct row as [q|].
  - destruct Hs as (r0 & Hr0 & _ & -> & Hrep & _).
    rewrite Hr in Hr0. injection Hr0 as <-. split; [reflexivity|]. eapply replaces_lands; eassumption.
  - destruct Hs as [_ Hs]. rewrite (Hs r Hr) in Hg. discriminate.
Qed.

(** The statement of a finalization hits the row. *)
Definition hits (id : Z) (Q : JobRow -> Prop) (tx : result AwaError (option JobRow * Db)) : Prop :=
  forall row d', tx = Ok (row, d') -> is_Some row /\ lands id Q d'.

Lemma where_hits id guard f d r (Q : JobRow -> Prop) :
  wf d -> hot d !! id = Some r -> guard r = true -> same_ident r (f r) ->
  in_scheduled (j_state (f r)) = false -> Q (f r) -> hits id Q (update_hot_where id guard f d).
Proof.
  intros Hwf Hr Hg Hi Hs HQ row d' H.
  destruct (where_lands id guard f d r Q Hwf Hr Hg Hi Hs HQ _ _ H) as [-> Hl]. eauto.
Qed.

(** The applied outcome of a finalization, and where its job landed. *)
Definition applied_at (id : Z) (Q : JobRow -> Prop) (out : result AwaError (CompletionOutcome * Db)) : Prop :=
  forall o d', out = Ok (o, d') -> is_applied o /\ lands id Q d'.

Lemma settle_row_applied needs_event job event terminal id Q tx :
  hits id Q tx ->
  applied_at id Q (rbind tx (fun '(row, d) => settle_row needs_event job event terminal row d)).
Proof.
  intros Hh o d' H. apply rbind_Ok in H as ([row d1] & H1 & H2). destruct (Hh _ _ H1) as [[q ->] Hl].
  unfold settle_row in H2. destruct needs_event.
  - apply rbind_Ok in H2 as (x & _ & H2). injection H2 as <- <-. split; [exact I|exact Hl].
  - injection H2 as <- <-. split; [exact I|exact Hl].
Qed.

Lemma with_followups_lands env tx specs ctx id Q out :
  hits id Q tx -> with_followups blake3 to_vec ambient (insert_prepared env) tx specs ctx = Ok out ->
  exists q d', out = Some (q, d') /\ lands id Q d'.
Proof.
  intros Hh H. unfold with_followups in H. apply rbind_Ok in H as ([row d1] & H1 & H2).
  destruct (Hh _ _ H1) as [[q ->] Hl]. apply rbind_Ok in H2 as (d2 & H2 & H3). injection H3 as <-.
  exists q, d2. split; [reflexivity|]. eapply lands_inserts; [exact Hl|].
  eapply dispatch_in_tx_inserts; [apply Hl|exact H2].
Qed.

Lemma settle_tx_applied needs_event event terminal d env tx specs ctx id Q :
  hits id Q tx ->
  applied_at id Q (rbind (with_followups blake3 to_vec ambient (insert_prepared env) tx specs ctx)
                     (settle_tx needs_event event terminal d)).
Proof.
  intros Hh o d' H. apply rbind_Ok in H as (out & H1 & H2).
  destruct (with_followups_lands _ _ _ _ _ _ _ Hh H1) as (q & d1 & -> & Hl). injection H2 as <- <-. split; [exact I|exact Hl].
Qed.

(** * A live attempt *)

Section Live.
  Context (env : Env) (job : JobRow) (d : Db) (r : JobRow).
  Hypothesis Hwf : wf d.
  Hypothesis Hr : hot d !! j_id job = Some r.
  Hypothesis Hrun : running_lease (j_run_lease job) r = true.
  Abbreviation id := (j_id job).

Lemma fail_running_hits entry progress res :
  final_state (registered r) job res = Failed -> (match res with Ok (JSnooze _) => False | _ => True end) ->
  hits id (settled env job res r) (fail_running env id (j_run_lease job) entry progress d).
Proof.
  intros Hst Hns. apply (where_hits _ _ _ _ r); try assumption; [ident|reflexivity|].
  unfold settled. rewrite Hst. repeat split. destruct res as [[]|]; (reflexivity || contradiction).
Qed.

Lemma cancel_running_hits entry progress reason :
  hits id (settled env job (Ok (JCancel reason)) r) (cancel_running env id (j_run_lease job) entry progress d).
Proof. apply (where_hits _ _ _ _ r); try assumption; [ident|reflexivity|]. repeat split. Qed.

Lemma direct_complete_hits :
  hits id (settled env job (Ok JCompleted) r) (direct_complete_job env id (j_run_lease job) d).
Proof. apply (where_hits _ _ _ _ r); try assumption; [ident|reflexivity|]. repeat split. Qed.

Lemma park_running_hits progress :
  registered r = true ->
  hits id (settled env job (Ok JWaitForCallback) r) (park_running id (j_run_lease job) progress d).
Proof.
  intros Hreg. apply (where_hits _ _ _ _ r); try assumption; [|ident|reflexivity|].
  - rewrite Hrun. exact Hreg.
  - unfold settled. simpl. rewrite Hreg. repeat split. discriminate.
Qed.

Lemma exhaust_applied msg progress needs_event res :
  final_state (registered r) job res = Failed -> (match res with Ok (JSnooze _) => False | _ => True end) ->
  applied_at id (settled env job res r)
    (exhaust_canonical blake3 to_vec ambient enqueue_specs env job msg progress needs_event d).
Proof.
  intros Hst Hns. unfold exhaust_canonical. destruct (enqueue_specs OExhausted (j_kind job)).
  - apply settle_row_applied, fail_running_hits; assumption.
  - apply settle_tx_applied, fail_running_hits; assumption.
Qed.

Lemma terminal_applied msg progress needs_event :
  applied_at id (settled env job (Err (JTerminal msg)) r)
    (complete_terminal blake3 to_vec ambient enqueue_specs env job msg progress needs_event d).
Proof.
  unfold complete_terminal. destruct (enqueue_specs OExhausted (j_kind job)).
  - apply settle_row_applied, fail_running_hits; [reflexivity|exact I].
  - apply settle_tx_applied, fail_running_hits; [reflexivity|exact I].
Qed.

Lemma cancelled_applied reason progress needs_event :
  applied_at id (settled env job (Ok (JCancel reason)) r)
    (complete_cancelled blake3 to_vec ambient enqueue_specs env job reason progress needs_event d).
Proof.
  unfold complete_cancelled. destruct (enqueue_specs OCancelled (j_kind job)).
  - apply settle_row_applied, cancel_running_hits.
  - apply settle_tx_applied, cancel_running_hits.
Qed.

(** Rescheduling moves the row. *)
Lemma reschedule_attempt_lands k error progress o d' :
  reschedule_attempt false next_queue_storage_id insert_migrated env job k error progress d = Ok (o, d') ->
  (exists run_at attempt, o = Rescheduled id run_at attempt)
  /\ lands id (fun q => q = reschedule_row env k error progress r) d'.
Proof.
  intros H. unfold reschedule_attempt, reschedule_canonical_attempt, reschedule_canonical in H.
  apply rbind_Ok in H as ([row d1] & H1 & H2). injection H2 as <- <-.
  assert (in_scheduled (j_state (reschedule_row env k error progress r)) = true) as Hs by (destruct k, error; reflexivity).
  destruct (move_lands _ _ _ d r (fun q => q = reschedule_row env k error progress r) Hwf Hr Hrun
    (reschedule_row_ident env k error progress r) Hs eq_refl _ _ H1) as [-> Hl].
  split; [|exact Hl]. eexists _, _. f_equal. destruct (wf_hot _ Hwf _ _ Hr) as [Hid _].
  destruct (reschedule_row_ident env k error progress r) as [Hi _]. congruence.
Qed.

Lemma retry_applied k error progress msg event_attempt needs_event (Q : JobRow -> Prop) :
  Q (reschedule_row env k error progress r) ->
  applied_at id Q (retry_canonical blake3 to_vec ambient enqueue_specs false next_queue_storage_id insert_migrated
                     env job k error progress msg event_attempt needs_event d).
Proof.
  intros HQ o d' H. assert (forall a, lands id (fun q => q = reschedule_row env k error progress r) a -> lands id Q a) as HQ'.
  { intros a (Ha & q & Hq & ->). split; [exact Ha|]. eauto. }
  unfold retry_canonical in H. destruct (enqueue_specs ORetried (j_kind job)) as [|spec specs].
  - apply rbind_Ok in H as ([oc d1] & H1 & H2).
    destruct (reschedule_attempt_lands _ _ _ _ _ H1) as [(ra & at' & ->) Hl]. injection H2 as <- <-. split; [exact I|auto].
  - apply rbind_Ok in H as ([row d1] & H1 & H2). unfold retry_canonical_with_followups in H1.
    apply rbind_Ok in H1 as ([oc d2] & H1 & H3).
    destruct (reschedule_attempt_lands _ _ _ _ _ H1) as [(ra & at' & ->) Hl].
    apply rbind_Ok in H3 as (d3 & H3 & H4). injection H4 as <- <-. injection H2 as <- <-. split; [exact I|].
    eapply lands_inserts; [apply HQ', Hl|]. eapply dispatch_in_tx_inserts; [apply Hl|exact H3].
Qed.

Lemma waiting_applied progress needs_event :
  applied_at id (settled env job (Ok JWaitForCallback) r)
    (complete_waiting blake3 to_vec ambient enqueue_specs env job progress needs_event d).
Proof.
  unfold complete_waiting. destruct (registered r) eqn:Hreg.
  - pose proof (park_running_hits progress Hreg) as Hh.
    destruct (enqueue_specs OWaitingForCallback (j_kind job)) as [|spec specs].
    + intros o d' H. apply rbind_Ok in H as ([row d1] & H1 & H2). destruct (Hh _ _ H1) as [[q ->] Hl].
      eapply (settle_row_applied needs_event job EvWaitingForCallback false id _
        (Ok (Some q, d1))); [|exact H2]. intros row d2 [= <- <-]. eauto.
    + intros o d' H. apply rbind_Ok in H as (out & H1 & H2). unfold park_canonical_with_followups in H1.
      destruct (with_followups_lands _ _ _ _ _ _ _ Hh H1) as (q & d1 & -> & Hl). injection H2 as <- <-.
      split; [exact I|exact Hl].
  - assert (forall p, park_running id (j_run_lease job) p d = Ok (None, d)) as Hmiss.
    { intros p. unfold park_running, update_hot_where. rewrite Hr, Hrun. simpl.
      unfold registered in Hreg. destruct (j_callback_id r); [discriminate|reflexivity]. }
    assert (applied_at id (settled env job (Ok JWaitForCallback) r) (park_missed env job d)) as Hm.
    { unfold park_missed. rewrite (lookup_hot _ _ _ Hr). unfold registered in Hreg.
      pose proof (proj1 (proj1 (running_lease_true _ _) Hrun)) as Hst. rewrite Hst. simpl.
      destruct (j_callback_id r) eqn:Hcb; [discriminate|]. clear Hreg. intros o d' H. apply rbind_Ok in H as ([row d1] & H1 & H2).
      assert (hits id (settled env job (Ok JWaitForCallback) r) (fail_unregistered env (j_id job) (j_run_lease job)
        (lifecycle_error (at_rust env) "WaitForCallback returned without calling register_callback" (j_attempt job) true) d))
        as Hh.
      { apply (where_hits _ _ _ _ r); try assumption; [ident|reflexivity|].
        unfold settled, registered. rewrite Hcb. repeat split. }
      destruct (Hh _ _ H1) as [[q ->] Hl]. injection H2 as <- <-. split; [exact I|exact Hl]. }
    destruct (enqueue_specs OWaitingForCallback (j_kind job)) as [|spec specs].
    + rewrite Hmiss. exact Hm.
    + unfold park_canonical_with_followups, with_followups. rewrite Hmiss. exact Hm.
Qed.

(** The batched completion: whatever else the flush carries, the row is
    completed and its result is delivered. *)
Lemma complete_batch_hits batch :
  hits id (settled env job (Ok JCompleted) r)
    match complete_batch env ((j_id job, j_run_lease job) :: batch) d with
    | Ok (done, d') =>
        Ok (List.find (fun q => (j_id q =? j_id job) && (j_run_lease q =? j_run_lease job)) done, d')
    | Err _ => direct_complete_job env (j_id job) (j_run_lease job) d
    end.
Proof.
  destruct (complete_batch _ _ _) as [[done d1]|e] eqn:Hb; [|exact direct_complete_hits].
  intros row d' [= <- <-]. destruct (join_running_spec ((j_id job, j_run_lease job) :: batch) d Hwf) as [Hnd Hin].
  destruct (wf_hot _ Hwf _ _ Hr) as [Hid _]. pose proof (proj1 (running_lease_true _ _) Hrun) as [Hst Hl].
  assert (r ∈ join_running ((j_id job, j_run_lease job) :: batch) d) as Hj.
  { apply join_running_complete; [rewrite Hid; exact Hr|exact Hst|]. rewrite Hid, Hl. left. }
  destruct (update_batch_rows (complete_row env) _ _ _ _ Hwf Hnd ltac:(intros q Hq; apply Hin, Hq)
    ltac:(intros q Hq; split; [ident|reflexivity]) Hb) as (-> & Hwf' & Hv & _).
  split.
  - destruct (List.find _ _) as [q|] eqn:Hf; [eauto|]. exfalso.
    pose proof (List.find_none _ _ Hf (complete_row env r) ltac:(apply in_map, list_elem_of_In, Hj)) as Hn.
    simpl in Hn. rewrite Hid, Hl, !Z.eqb_refl in Hn. discriminate.
  - split; [exact Hwf'|]. exists (complete_row env r). split; [rewrite <- (Hv r Hj), Hid; reflexivity|]. repeat split.
Qed.

Lemma completed_applied staged path batch duration needs_event :
  applied_at id (settled env job (Ok JCompleted) r)
    (complete_completed blake3 to_vec ambient enqueue_specs env job staged path batch duration needs_event d).
Proof.
  assert (applied_at id (settled env job (Ok JCompleted) r)
    (rbind (complete_canonical_with_followups blake3 to_vec ambient env job
      (enqueue_specs OCompleted (j_kind job)) staged d)
      (settle_tx needs_event (fun u => EvCompleted u duration) false d))) as Hf.
  { intros o d' H. apply rbind_Ok in H as (out & H1 & H2). unfold complete_canonical_with_followups in H1.
    apply rbind_Ok in H1 as (up & H1 & H3).
    destruct (with_followups_lands _ _ _ _ _ _ _ direct_complete_hits H1) as (q & d1 & -> & Hl).
    apply rbind_Ok in H3 as ([c d2] & H3 & H4). injection H4 as <-. injection H2 as <- <-. split; [exact I|].
    eapply lands_inserts; [exact Hl|]. eapply staged_in_tx_inserts; [apply Hl|exact H3]. }
  unfold complete_completed. destruct (enqueue_specs OCompleted (j_kind job)), staged; try exact Hf.
  apply settle_row_applied. destruct path; [apply complete_batch_hits|apply direct_complete_hits].
Qed.

Lemma finish_applied res staged path batch progress duration needs_event :
  applied_at id (settled env job res r)
    (complete_job_canonical blake3 to_vec ambient debug_duration enqueue_specs false
       next_queue_storage_id insert_migrated env job res staged path batch progress duration needs_event d).
Proof.
  pose proof (proj1 (running_lease_true _ _) Hrun) as [Hst Hl].
  destruct res as [[|t|t|reason|]|[msg|msg]]; cbn [complete_job_canonical].
  - apply completed_applied.
  - destruct (j_max_attempts job <=? j_attempt job) eqn:Hb.
    + apply exhaust_applied; [simpl; rewrite Hb; reflexivity|exact I].
    + apply retry_applied. unfold settled. simpl. rewrite Hb. repeat split.
  - intros o d' H. apply rbind_Ok in H as ([oc d1] & H1 & H2).
    destruct (reschedule_attempt_lands _ _ _ _ _ H1) as [(ra & at' & ->) (Hwf1 & q & Hq & ->)]. injection H2 as <- <-.
    split; [exact I|]. split; [exact Hwf1|]. eexists. split; [exact Hq|]. repeat split. discriminate.
  - apply cancelled_applied.
  - apply waiting_applied.
  - destruct (j_max_attempts job <=? j_attempt job) eqn:Hb.
    + apply exhaust_applied; [simpl; rewrite Hb; reflexivity|exact I].
    + apply retry_applied. unfold settled. simpl. rewrite Hb. repeat split.
  - apply terminal_applied.
Qed.
End Live.

(** * A stale attempt *)

(** No running row carries the lease. *)
Definition stale (job : JobRow) (d : Db) : Prop :=
  forall r, hot d !! j_id job = Some r -> running_lease (j_run_lease job) r = false.

(** A stale attempt is ignored; a [WaitForCallback] on a row that is already
    terminal counts as an early callback completion. *)
Definition stale_outcome (job : JobRow) (res : HandlerResult) (d : Db) : CompletionOutcome :=
  match res, lookup_job (j_id job) d with
  | Ok JWaitForCallback, Some current => if is_terminal (j_state current) then Applied None false else IgnoredStale
  | _, _ => IgnoredStale
  end.

(** What is left of a finalization without its own attempt: the rest of the
    batch it is flushed with. *)
Definition rest_of_batch (env : Env) (specs : list EnqueueSpec) (staged : list PreparedJobInsert) (res : HandlerResult)
    (path : CompletionPath) (batch : list (Z * Z)) (d : Db) : Db :=
  match res, specs, staged, path with
  | Ok JCompleted, [], [], Batched => match complete_batch env batch d with Ok (_, d') => d' | Err _ => d end
  | _, _, _, _ => d
  end.

Section Stale.
  Context (env : Env) (job : JobRow) (d : Db).
  Hypothesis Hst : stale job d.

Lemma where_misses guard f :
  (forall r, running_lease (j_run_lease job) r = false -> guard r = false) ->
  update_hot_where (j_id job) guard f d = Ok (None, d).
Proof.
  intros Hg. unfold update_hot_where. destruct (hot d !! j_id job) as [r|] eqn:Hr; [|reflexivity].
  rewrite Hg by (apply Hst, Hr). reflexivity.
Qed.

Lemma fail_running_misses entry progress :
  fail_running env (j_id job) (j_run_lease job) entry progress d = Ok (None, d).
Proof. apply where_misses. auto. Qed.
Lemma cancel_running_misses entry progress :
  cancel_running env (j_id job) (j_run_lease job) entry progress d = Ok (None, d).
Proof. apply where_misses. auto. Qed.
Lemma complete_misses : direct_complete_job env (j_id job) (j_run_lease job) d = Ok (None, d).
Proof. apply where_misses. auto. Qed.
Lemma park_misses progress : park_running (j_id job) (j_run_lease job) progress d = Ok (None, d).
Proof. apply where_misses. intros r ->. reflexivity. Qed.
Lemma fail_unregistered_misses entry : fail_unregistered env (j_id job) (j_run_lease job) entry d = Ok (None, d).
Proof. apply where_misses. auto. Qed.

Lemma reschedule_misses k error progress :
  reschedule_attempt false next_queue_storage_id insert_migrated env job k error progress d = Ok (Stale, d).
Proof.
  unfold reschedule_attempt, reschedule_canonical_attempt, reschedule_canonical, move_to_scheduled_where.
  destruct (hot d !! j_id job) as [r|] eqn:Hr; [|reflexivity]. rewrite (Hst r Hr). reflexivity.
Qed.

(** A batch with a stale request does what it does without it. *)
Lemma join_running_stale batch : wf d -> join_running ((j_id job, j_run_lease job) :: batch) d = join_running batch d.
Proof.
  intros Hwf. unfold join_running. f_equal. apply List.filter_ext_in. intros r Hr%list_elem_of_In.
  destruct (state_is Running r) eqn:Hs; [|reflexivity]. simpl. apply bool_decide_ext. rewrite elem_of_cons.
  split; [|by right]. intros [[= Hi Hl]|]; [|done]. exfalso.
  apply rows_of_keyed in Hr; [|apply wf_hot_keyed, Hwf]. rewrite Hi in Hr. specialize (Hst r Hr).
  unfold running_lease in Hst. by rewrite Hs, Hl, Z.eqb_refl in Hst.
Qed.
Lemma complete_batch_misses batch :
  wf d ->
  match complete_batch env ((j_id job, j_run_lease job) :: batch) d with
  | Ok (done, d') => List.find (fun r => (j_id r =? j_id job) && (j_run_lease r =? j_run_lease job)) done = None
      /\ exists done', complete_batch env batch d = Ok (done', d')
  | Err e => complete_batch env batch d = Err e
  end.
Proof.
  intros Hwf. unfold complete_batch. rewrite join_running_stale by exact Hwf.
  destruct (join_running_spec batch d Hwf) as [Hnd Hin].
  destruct (fold_rows _ _ d) as [[done d']|e] eqn:Hb; [|reflexivity]. split; [|by exists done].
  destruct (update_batch_rows (complete_row env) _ _ _ _ Hwf Hnd ltac:(intros q Hq; apply Hin, Hq)
    ltac:(intros q Hq; split; [ident|reflexivity]) Hb) as (-> & _).
  destruct (List.find _ _) as [q|] eqn:Hf; [|reflexivity]. apply List.find_some in Hf as [Hq Hm].
  apply in_map_iff in Hq as (r & <- & Hr%list_elem_of_In). destruct (Hin r Hr) as (Hl & Hs & _). simpl in Hm.
  apply andb_true_iff in Hm as [Hi%Z.eqb_eq Hlease%Z.eqb_eq]. rewrite Hi in Hl. specialize (Hst r Hl).
  by rewrite (proj2 (running_lease_true _ _) (conj Hs Hlease)) in Hst.
Qed.

Lemma park_missed_stale : park_missed env job d = Ok (stale_outcome job (Ok JWaitForCallback) d, d).
Proof.
  unfold park_missed, stale_outcome. destruct (lookup_job (j_id job) d) as [cur|]; [|reflexivity].
  destruct (is_terminal (j_state cur)); [reflexivity|]. destruct (j_callback_id cur); [reflexivity|].
  rewrite fail_unregistered_misses. reflexivity.
Qed.

Lemma stale_finish res staged path batch progress duration needs_event :
  wf d ->
  complete_job_canonical blake3 to_vec ambient debug_duration enqueue_specs false
    next_queue_storage_id insert_migrated env job res staged path batch progress duration needs_event d
  = Ok (stale_outcome job res d, rest_of_batch env (enqueue_specs OCompleted (j_kind job)) staged res path batch d).
Proof.
  intros Hwf.
  assert (forall msg progress, exhaust_canonical blake3 to_vec ambient enqueue_specs env job msg progress needs_event d
    = Ok (IgnoredStale, d)) as Hex.
  { intros msg p. unfold exhaust_canonical, exhaust_canonical_with_followups, with_followups.
    destruct (enqueue_specs OExhausted (j_kind job)); rewrite fail_running_misses; reflexivity. }
  assert (forall k error msg ea, retry_canonical blake3 to_vec ambient enqueue_specs false next_queue_storage_id
    insert_migrated env job k error progress msg ea needs_event d = Ok (IgnoredStale, d)) as Hre.
  { intros k error msg ea. unfold retry_canonical, retry_canonical_with_followups.
    destruct (enqueue_specs ORetried (j_kind job)); rewrite reschedule_misses; reflexivity. }
  destruct res as [[|t|t|reason|]|[msg|msg]]; cbn [complete_job_canonical].
  - unfold complete_completed, complete_canonical_with_followups, with_followups.
    destruct (enqueue_specs OCompleted (j_kind job)), staged, path;
      try (rewrite complete_misses; reflexivity).
    pose proof (complete_batch_misses batch Hwf) as H. cbn [rest_of_batch].
    destruct (complete_batch env (_ :: _) d) as [[done d']|e]; [destruct H as [-> [done' ->]]; reflexivity|].
    rewrite H, complete_misses. reflexivity.
  - destruct (_ <=? _); auto.
  - rewrite reschedule_misses. reflexivity.
  - unfold complete_cancelled, cancel_canonical_with_followups, with_followups.
    destruct (enqueue_specs OCancelled (j_kind job)); rewrite cancel_running_misses; reflexivity.
  - unfold complete_waiting, park_canonical_with_followups, with_followups.
    destruct (enqueue_specs OWaitingForCallback (j_kind job)); rewrite !park_misses; apply park_missed_stale.
  - destruct (_ <=? _); auto.
  - unfold complete_terminal, terminal_canonical_with_followups, with_followups.
    destruct (enqueue_specs OExhausted (j_kind job)); rewrite fail_running_misses; reflexivity.
Qed.
End Stale.
End Finish.
