(* ===== verification/Buffers.v ===== *)
(** What a handler leaves behind besides its result: the retained output
    ([OutputSlot], awa-worker/src/output.rs) and the staged follow-ups
    ([FollowUps], awa-worker/src/follow_ups.rs), and what the executor makes
    of both when the handler returns (awa-worker/src/executor.rs,
    [settle_output] and [settle_staged_follow_ups]).

    Both buffers sit behind a mutex; a call is one step on their state.  The
    length [serde_json::to_vec] gives a value (or its error) and the texts of
    errors and timestamps are parameters. *)

From stdpp Require Import pretty.
From S2P Require Import Prelude.
From S2P Require Import Error.
From S2P Require Import Json.
From S2P Require Import Job.
From S2P Require Import Canonical.
From S2P Require Import CanonicalFacts.
From S2P Require Import Lifecycle.
From S2P Require Import Executor.
From S2P Require Import ExecutorFacts.

(** * The output slot *)

Record Slot : Type := mkSlot {
  slot_sealed : bool;
  slot_value : option json;
  rejected_too_large : Z;
  rejected_invalid : Z
}.
Definition slot_new : Slot := mkSlot false None 0 0.

Section OutputSlot.
  Variable json_len : json -> result string Z.

Definition store (value : result OutputError (option json)) (s : Slot) : result OutputError unit * Slot :=
  if slot_sealed s then (Err Sealed, s)
  else
    match value with
    | Ok value => (Ok tt, mkSlot false value (rejected_too_large s) (rejected_invalid s))
    | Err err =>
        (Err err,
         match err with
         | TooLarge _ _ => mkSlot false None (rejected_too_large s + 1) (rejected_invalid s)
         | _ => mkSlot false None (rejected_too_large s) (rejected_invalid s + 1)
         end)
    end.

(** [to_value] is what serializing the handler's value gave. *)
Definition slot_set (to_value : result string json) (s : Slot) : result OutputError unit * Slot :=
  store (match to_value with
         | Ok v => validate_output json_len v
         | Err msg => Err (Invalid msg)
         end) s.
Definition set_json (output : json) (s : Slot) : result OutputError unit * Slot :=
  store (validate_output json_len output) s.
Definition slot_fail (err : OutputError) (s : Slot) : OutputError * Slot :=
  let '(r, s) := store (Err err) s in
  (match r with Err stored => stored | Ok _ => err end, s).
Definition slot_clear (s : Slot) : Slot :=
  if slot_sealed s then s else mkSlot false None (rejected_too_large s) (rejected_invalid s).
Definition slot_seal (s : Slot) : option json * Slot :=
  (slot_value s, mkSlot true (slot_value s) (rejected_too_large s) (rejected_invalid s)).

(** [TypedOutputSlot::set]. *)
Definition typed_set (kind_mismatch : option string) (to_value : result string json) (s : Slot)
    : result OutputError unit * Slot :=
  match kind_mismatch with
  | Some message => let '(e, s) := slot_fail (Invalid message) s in (Err e, s)
  | None => slot_set to_value s
  end.

Inductive slot_op : Type :=
  | SlotSet (to_value : result string json)
  | SlotSetJson (output : json)
  | SlotTypedSet (kind_mismatch : option string) (to_value : result string json)
  | SlotFail (err : OutputError)
  | SlotClear
  | SlotSeal.
Definition slot_exec (s : Slot) (o : slot_op) : Slot :=
  match o with
  | SlotSet v => snd (slot_set v s)
  | SlotSetJson v => snd (set_json v s)
  | SlotTypedSet k v => snd (typed_set k v s)
  | SlotFail e => snd (slot_fail e s)
  | SlotClear => slot_clear s
  | SlotSeal => snd (slot_seal s)
  end.
Definition slot_run (ops : list slot_op) (s : Slot) : Slot := fold_left slot_exec ops s.
End OutputSlot.

(** [settle_output]: the output an outcome carries. [None] is an abandoned
    handler. *)
Definition settle_output (res : option HandlerResult) (sealed : option json) : option json :=
  match sealed, res with
  | None, _ => None
  | Some _, None => None
  | Some _, Some (Ok (JSnooze _)) => None
  | Some output, Some _ => Some output
  end.

(** * Staged follow-ups *)

Definition MAX_STAGED_FOLLOW_UPS : Z := 16.
Definition MAX_STAGED_BYTES : Z := 64 * 1024.
Definition MAX_NAME_CHARS : Z := 200.
Definition MAX_TAGS : Z := 20.

Inductive StageError : Type :=
  | StageInvalid (msg : string)
  | StageTooMany (limit : Z)
  | StageTooLarge (limit_bytes : Z)
  | StageSealed.

Record Staging : Type := mkStaging {
  stg_sealed : bool;
  stg_rows : list PreparedJobInsert;
  stg_bytes : Z;
  stg_poisoned : option StageError
}.
Definition staging_new : Staging := mkStaging false [] 0 None.

(** [RUN_AT_YEARS.contains(&run_at.year())]: years 1 to 9999. *)
Definition year_in_range (t : time) : bool :=
  (-62135596800 * us_per_sec <=? t) && (t <? 253402300800 * us_per_sec).

Section FollowUps.
  Variable blake3 : list Z -> list Z.
  Variable to_vec : json -> list Z.
  Variable ambient : option string.
  Variable json_len : json -> result string Z.
  Variable err_to_string : AwaError -> string.
  Variable show_time : time -> string.

Definition in_range (lo hi x : Z) : bool := (lo <=? x) && (x <=? hi).

Definition validate_row (row : PreparedJobInsert) : result StageError unit :=
  if negb (in_range 1 4 (pi_priority row))
  then Err (StageInvalid ("priority " +:+ pretty (pi_priority row) +:+ " is outside 1..=4"))
  else if negb (in_range 1 1000 (pi_max_attempts row))
  then Err (StageInvalid ("max_attempts " +:+ pretty (pi_max_attempts row) +:+ " is outside 1..=1000"))
  else if MAX_NAME_CHARS <? char_count (pi_kind row)
  then Err (StageInvalid "kind is longer than 200 characters")
  else if MAX_NAME_CHARS <? char_count (pi_queue row)
  then Err (StageInvalid "queue is longer than 200 characters")
  else if match pi_run_at row with Some t => negb (year_in_range t) | None => false end
  then Err (StageInvalid ("run_at " +:+ default EmptyString (show_time <$> pi_run_at row) +:+ " is outside the years 1..=9999"))
  else if MAX_TAGS <? Z.of_nat (length (pi_tags row))
  then Err (StageInvalid "more than 20 tags")
  else if contains_char nul (pi_kind row) || contains_char nul (pi_queue row)
          || existsb (contains_char nul) (pi_tags row)
  then Err (StageInvalid "kind, queue and tags must not contain NUL bytes")
  else Ok tt.

Definition stage_json_len (v : json) : result StageError Z :=
  match json_len v with Ok n => Ok n | Err msg => Err (StageInvalid msg) end.
Definition byte_len (s : string) : Z := Z.of_nat (String.length s).
Definition serialized_len (row : PreparedJobInsert) : result StageError Z :=
  let? args := stage_json_len (pi_args row) in
  let? metadata := stage_json_len (pi_metadata row) in
  Ok (byte_len (pi_kind row) + byte_len (pi_queue row) + args + metadata
      + fold_right Z.add 0 (map byte_len (pi_tags row))
      + match pi_ordering_key row with Some k => Z.of_nat (length k) | None => 0 end).

Definition stage_row (st : Staging) (request : result StageError (string * json * InsertOpts))
    : result StageError (PreparedJobInsert * Z) :=
  let? (ka, opts) := request in
  let '(kind, args) := ka in
  if MAX_STAGED_FOLLOW_UPS <=? Z.of_nat (length (stg_rows st))
  then Err (StageTooMany MAX_STAGED_FOLLOW_UPS)
  else
    let? row := match prepare_raw_job_insert blake3 to_vec ambient kind args opts with
                | Ok row => Ok row
                | Err err => Err (StageInvalid (err_to_string err))
                end in
    check? validate_row row;
    let? bytes := serialized_len row in
    if MAX_STAGED_BYTES <? stg_bytes st + bytes
    then Err (StageTooLarge MAX_STAGED_BYTES)
    else Ok (row, bytes).

Definition stage (request : result StageError (string * json * InsertOpts)) (st : Staging)
    : result StageError unit * Staging :=
  if stg_sealed st then (Err StageSealed, st)
  else
    match stage_row st request with
    | Ok (row, bytes) =>
        (Ok tt, mkStaging false (stg_rows st ++ [row]) (stg_bytes st + bytes) (stg_poisoned st))
    | Err err =>
        (Err err,
         mkStaging false (stg_rows st) (stg_bytes st)
           (match stg_poisoned st with Some e => Some e | None => Some err end))
    end.

Definition stage_seal (st : Staging) : list PreparedJobInsert * option StageError * Staging :=
  (stg_rows st, stg_poisoned st, mkStaging true [] 0 None).

Definition stage_run (requests : list (result StageError (string * json * InsertOpts))) (st : Staging) : Staging :=
  fold_left (fun st r => snd (stage r st)) requests st.

Variable stage_error_to_string : StageError -> string.

Definition settle_staged_follow_ups (res : option HandlerResult)
    (rows : list PreparedJobInsert) (poisoned : option StageError)
    : option HandlerResult * list PreparedJobInsert :=
  match res with
  | Some (Ok JCompleted) =>
      match poisoned with
      | Some err =>
          (Some (Err (JTerminal ("a follow-up failed to stage: " +:+ stage_error_to_string err))), [])
      | None => (Some (Ok JCompleted), rows)
      end
  | other => (other, [])
  end.
End FollowUps.

(** * The output slot: lemmas *)

(** A value the slot may hold. *)
Definition storable (json_len : json -> result string Z) (v : json) : Prop :=
  is_null v = false /\ contains_nul v = false /\ exists n, json_len v = Ok n /\ n <= MAX_OUTPUT_BYTES.

Lemma validate_output_storable json_len v w : validate_output json_len v = Ok (Some w) -> storable json_len w.
Proof.
  unfold validate_output. destruct (is_null v) eqn:Hn; [discriminate|].
  destruct (contains_nul v) eqn:Hc; [discriminate|]. destruct (json_len v) as [n|] eqn:Hl; [|discriminate].
  destruct (Z.ltb_spec MAX_OUTPUT_BYTES n); [discriminate|]. intros [= <-]. repeat split; eauto.
Qed.

Definition slot_ok (json_len : json -> result string Z) (s : Slot) : Prop :=
  forall v, slot_value s = Some v -> storable json_len v.

Lemma store_ok json_len value s :
  (forall v, value = Ok (Some v) -> storable json_len v) -> slot_ok json_len s -> slot_ok json_len (snd (store value s)).
Proof.
  intros Hv Hs w Hw. unfold store in Hw. destruct (slot_sealed s); [apply Hs, Hw|].
  destruct value as [[v|]|e]; simpl in Hw; [injection Hw as <-; auto|discriminate|]. destruct e; discriminate.
Qed.

Lemma slot_set_ok json_len v s : slot_ok json_len s -> slot_ok json_len (snd (slot_set json_len v s)).
Proof. apply store_ok. intros w H. destruct v; [eapply validate_output_storable, H|discriminate]. Qed.

Lemma slot_fail_ok json_len e s : slot_ok json_len s -> slot_ok json_len (snd (slot_fail e s)).
Proof.
  intros H. pose proof (store_ok json_len (Err e) s ltac:(discriminate) H) as Hs. unfold slot_fail.
  destruct (store (Err e) s). exact Hs.
Qed.

Lemma slot_exec_ok json_len s o : slot_ok json_len s -> slot_ok json_len (slot_exec json_len s o).
Proof.
  intros H. destruct o as [v|v|k v|e| |]; simpl.
  - apply slot_set_ok, H.
  - apply store_ok; [|exact H]. intros w Hw. eapply validate_output_storable, Hw.
  - unfold typed_set. destruct k as [m|]; [|apply slot_set_ok, H].
    pose proof (slot_fail_ok json_len (Invalid m) s H) as Hf. destruct (slot_fail (Invalid m) s). exact Hf.
  - apply slot_fail_ok, H.
  - unfold slot_clear. destruct (slot_sealed s); [exact H|]. intros v. discriminate.
  - exact H.
Qed.

Lemma slot_run_ok json_len ops s : slot_ok json_len s -> slot_ok json_len (slot_run json_len ops s).
Proof. revert s. induction ops as [|o ops IH]; intros s H; [exact H|]. apply IH, slot_exec_ok, H. Qed.

Lemma slot_exec_sealed json_len s o : slot_sealed s = true -> slot_exec json_len s o = s.
Proof.
  intros H. destruct s as [b v n m]. simpl in H. subst b. destruct o as [x|x|[k|] x|e| |]; reflexivity.
Qed.

(** The output an attempt publishes is the slot's value when the handler
    returned, is never JSON null, holds no NUL and fits the size limit; calls
    made after the handler returned (by clones of the slot) change neither the
    value nor the rejection counts. *)
Theorem sealed_output_final json_len before after :
  let '(published, sealed) := slot_seal (slot_run json_len before slot_new) in
  slot_run json_len after sealed = sealed
  /\ slot_value sealed = published
  /\ forall v, published = Some v -> storable json_len v.
Proof.
  simpl. split; [|split; [reflexivity|]].
  - set (s := mkSlot true _ _ _). assert (slot_sealed s = true) as Hs by reflexivity. clearbody s.
    induction after as [|o ops IH]; [reflexivity|]. unfold slot_run. simpl. rewrite slot_exec_sealed by exact Hs. exact IH.
  - apply (slot_run_ok json_len before slot_new). discriminate.
Qed.

(** * Staged follow-ups: lemmas *)

Section StagedFacts.
  Context (blake3 : list Z -> list Z) (to_vec : json -> list Z) (ambient : option string)
    (json_len : json -> result string Z) (err_to_string : AwaError -> string) (show_time : time -> string).
  Abbreviation stage := (stage blake3 to_vec ambient json_len err_to_string show_time).
  Abbreviation stage_row := (stage_row blake3 to_vec ambient json_len err_to_string show_time).
  Abbreviation stage_run := (stage_run blake3 to_vec ambient json_len err_to_string show_time).
  Hypothesis Hlen : forall v n, json_len v = Ok n -> 0 <= n.

Definition rows_bytes (rows : list PreparedJobInsert) (n : Z) : Prop :=
  exists ns, Forall2 (fun row k => serialized_len json_len row = Ok k /\ 0 <= k) rows ns /\ n = fold_right Z.add 0 ns.

(** Within the limits, and every row one the insert accepts. *)
Record staging_ok (st : Staging) : Prop := {
  so_count : Z.of_nat (length (stg_rows st)) <= MAX_STAGED_FOLLOW_UPS;
  so_bytes : stg_bytes st <= MAX_STAGED_BYTES;
  so_sum : rows_bytes (stg_rows st) (stg_bytes st);
  so_rows : Forall (fun row => insert_valid row = true /\ prepared_state row) (stg_rows st)
}.

Lemma validate_row_valid row : validate_row show_time row = Ok tt -> insert_valid row = true.
Proof.
  unfold validate_row, insert_valid, text_valid, checks_hold, in_range, MAX_NAME_CHARS, MAX_TAGS. intros H.
  repeat match type of H with (if ?b then _ else _) = _ => destruct b eqn:?; [discriminate|] end.
  repeat match goal with H : negb _ = false |- _ => apply negb_false_iff, andb_true_iff in H as [? ?] end.
  repeat match goal with H : (_ <? _) = false |- _ => apply Z.ltb_ge in H end.
  repeat match goal with H : _ || _ = false |- _ => apply orb_false_iff in H as [? ?] end.
  rewrite !andb_true_iff. repeat split; try assumption; apply Z.leb_le; assumption.
Qed.

Lemma serialized_len_nonneg row n : serialized_len json_len row = Ok n -> 0 <= n.
Proof.
  unfold serialized_len, stage_json_len. intros H. apply rbind_Ok in H as (a & Ha & H). apply rbind_Ok in H as (m & Hm & H).
  injection H as <-. destruct (json_len (pi_args row)) eqn:H1; [|discriminate]. injection Ha as <-.
  destruct (json_len (pi_metadata row)) eqn:H2; [|discriminate]. injection Hm as <-.
  apply Hlen in H1, H2. unfold byte_len.
  assert (0 <= fold_right Z.add 0 (map (fun s => Z.of_nat (String.length s)) (pi_tags row))) as Ht.
  { induction (pi_tags row); simpl; lia. }
  destruct (pi_ordering_key row); lia.
Qed.

Lemma stage_row_spec st request row bytes :
  stage_row st request = Ok (row, bytes) ->
  Z.of_nat (length (stg_rows st)) < MAX_STAGED_FOLLOW_UPS /\ stg_bytes st + bytes <= MAX_STAGED_BYTES
  /\ insert_valid row = true /\ prepared_state row /\ serialized_len json_len row = Ok bytes.
Proof.
  unfold Buffers.stage_row. intros H. apply rbind_Ok in H as ([[kind args] opts] & _ & H).
  destruct (Z.leb_spec MAX_STAGED_FOLLOW_UPS (Z.of_nat (length (stg_rows st)))); [discriminate|].
  apply rbind_Ok in H as (row' & Hp & H). apply rbind_Ok in H as ([] & Hv & H). apply rbind_Ok in H as (n & Hn & H).
  destruct (Z.ltb_spec MAX_STAGED_BYTES (stg_bytes st + n)); [discriminate|]. injection H as <- <-.
  destruct (prepare_raw_job_insert blake3 to_vec ambient kind args opts) as [p|e] eqn:Hprep; [|discriminate].
  injection Hp as <-. repeat split; try assumption; [|eapply prepare_state, Hprep].
  apply validate_row_valid, Hv.
Qed.

Lemma rows_bytes_snoc rows n row k :
  rows_bytes rows n -> serialized_len json_len row = Ok k -> 0 <= k -> rows_bytes (rows ++ [row]) (n + k).
Proof.
  intros (ns & Hf & ->) Hk Hpos. exists (ns ++ [k]). split; [apply Forall2_app; [exact Hf|repeat constructor; assumption]|].
  rewrite fold_right_app. simpl. clear -ns. induction ns; simpl in *; lia.
Qed.

Lemma stage_ok request st : staging_ok st -> staging_ok (snd (stage request st)).
Proof.
  intros [Hc Hb Hs Hr]. unfold Buffers.stage. destruct (stg_sealed st); [split; assumption|].
  destruct (stage_row st request) as [[row bytes]|e] eqn:Hst; [|split; assumption].
  destruct (stage_row_spec _ _ _ _ Hst) as (H1 & H2 & H3 & H4 & H5). split; simpl.
  - rewrite length_app. simpl. lia.
  - exact H2.
  - apply rows_bytes_snoc; [exact Hs|exact H5|]. apply (serialized_len_nonneg row), H5.
  - apply Forall_app. split; [exact Hr|]. constructor; [split; assumption|constructor].
Qed.

Lemma stage_run_ok requests st : staging_ok st -> staging_ok (stage_run requests st).
Proof. revert st. induction requests as [|r l IH]; intros st H; [exact H|]. apply IH, stage_ok, H. Qed.

Lemma staging_new_ok : staging_ok staging_new.
Proof. split; simpl; try (vm_compute; discriminate); [|constructor]. exists []. split; [constructor|reflexivity]. Qed.

(** A staging error sticks until the buffer is sealed. *)
Lemma stage_run_poison requests st e :
  stg_poisoned st = Some e -> stg_poisoned (stage_run requests st) = Some e.
Proof.
  revert st. induction requests as [|r l IH]; intros st H; [exact H|]. apply IH. unfold Buffers.stage.
  destruct (stg_sealed st); [exact H|]. destruct (stage_row st r) as [[row n]|e']; simpl; rewrite H; reflexivity.
Qed.

(** The rows are exactly the requests staged without error, in order. *)
Lemma stage_run_spec requests st :
  stg_sealed st = false ->
  stg_sealed (stage_run requests st) = false
  /\ (stg_poisoned (stage_run requests st) = None ->
      stg_poisoned st = None
      /\ length (stg_rows (stage_run requests st)) = (length (stg_rows st) + length requests)%nat
      /\ exists more, stg_rows (stage_run requests st) = stg_rows st ++ more).
Proof.
  revert st. induction requests as [|r l IH]; intros st Hs.
  { split; [exact Hs|]. intros H. split; [exact H|]. split; [simpl; lia|]. exists []. rewrite app_nil_r. reflexivity. }
  change (stage_run (r :: l) st) with (stage_run l (snd (stage r st))).
  assert (stg_sealed (snd (stage r st)) = false) as Hs'.
  { unfold Buffers.stage. rewrite Hs. destruct (stage_row st r) as [[row n]|e]; reflexivity. }
  destruct (IH _ Hs') as [H1 H2]. split; [exact H1|]. intros Hp. destruct (H2 Hp) as (Hp' & Hl & more & Hm).
  unfold Buffers.stage in Hp', Hl, Hm |- *. rewrite Hs in Hp', Hl, Hm |- *.
  destruct (stage_row st r) as [[row n]|e]; cbn [snd stg_rows stg_poisoned] in Hp', Hl, Hm |- *.
  - split; [exact Hp'|]. split; [rewrite Hl, length_app; simpl; lia|]. exists (row :: more). rewrite Hm, <- app_assoc. reflexivity.
  - destruct (stg_poisoned st); discriminate.
Qed.
End StagedFacts.

(** A row the staging checks accepted never fails the insert: it goes in, or
    its key is taken and it is skipped. *)
Lemma staged_follow_up_total env row d :
  wf d -> insert_valid row = true -> exists b d', insert_staged_follow_up (insert_prepared env) row d = Ok (b, d') /\ wf d'.
Proof.
  intros Hwf Hv. pose proof (insert_job_compat_spec env row d Hwf Hv) as H.
  unfold insert_staged_follow_up, insert_prepared. destruct (insert_job_compat env row d) as [[r d']|e].
  - destruct H as (_ & Hrep & _). exists true, d'. split; [|apply Hrep]. destruct (pi_unique_key row); reflexivity.
  - destruct H as (-> & j & q & key & _ & _ & _ & Hk). unfold claimed_key in Hk. simpl in Hk.
    destruct (pi_unique_key row); [|discriminate]. exists false, d. split; [reflexivity|exact Hwf].
Qed.

Lemma staged_in_tx_total env rows d :
  wf d -> Forall (fun row => insert_valid row = true /\ prepared_state row) rows ->
  exists i n d', insert_staged_in_tx (insert_prepared env) rows d = Ok (i, n, d') /\ wf d' /\ i + n = Z.of_nat (length rows).
Proof.
  intros Hwf H. revert d Hwf. induction H as [|row rows [Hv Hp] _ IH]; intros d Hwf.
  { exists 0, 0, d. auto. }
  destruct (staged_follow_up_total env row d Hwf Hv) as (b & d1 & H1 & Hwf1).
  destruct (IH d1 Hwf1) as (i & n & d2 & H2 & Hwf2 & Hsum). cbn [insert_staged_in_tx]. rewrite H1. cbn [rbind]. rewrite H2.
  cbn [rbind]. destruct b; [exists (i + 1), n, d2|exists i, (n + 1), d2]; (split; [reflexivity|]); split;
    [exact Hwf2|simpl; lia|exact Hwf2|simpl; lia].
Qed.

(** Staged follow-ups ride on the completion, all or nothing. When every
    request staged cleanly, a [Completed] attempt carries all of them, at most
    sixteen rows and 64 KiB, and inserting them in the completion transaction
    cannot fail on any database: each row goes in or is skipped as an existing
    duplicate. When any request failed to stage, the attempt fails terminally
    and carries none. *)
Theorem staged_follow_ups_all_or_nothing blake3 to_vec ambient json_len err_to_string show_time show_error requests :
  (forall v n, json_len v = Ok n -> 0 <= n) ->
  let st := stage_run blake3 to_vec ambient json_len err_to_string show_time requests staging_new in
  let '(rows, poisoned, _) := stage_seal st in
  let '(res, staged) := settle_staged_follow_ups show_error (Some (Ok JCompleted)) rows poisoned in
  (res = Some (Ok JCompleted) /\ length staged = length requests
   /\ Z.of_nat (length staged) <= MAX_STAGED_FOLLOW_UPS /\ stg_bytes st <= MAX_STAGED_BYTES
   /\ forall env d, wf d ->
        exists i n d', insert_staged_in_tx (insert_prepared env) staged d = Ok (i, n, d') /\ i + n = Z.of_nat (length requests))
  \/ (exists e msg, poisoned = Some e /\ res = Some (Err (JTerminal msg)) /\ staged = []).
Proof.
  intros Hlen st. pose proof (stage_run_ok blake3 to_vec ambient json_len err_to_string show_time Hlen requests _
    (staging_new_ok json_len)) as [Hc Hb _ Hr]. fold st in Hc, Hb, Hr.
  destruct (stage_run_spec blake3 to_vec ambient json_len err_to_string show_time requests staging_new eq_refl) as [_ Hs].
  fold st in Hs. unfold stage_seal, settle_staged_follow_ups. destruct (stg_poisoned st) as [e|] eqn:Hp; [right; eauto|left].
  destruct (Hs eq_refl) as (_ & Hl & _). simpl in Hl. repeat split; try assumption. intros env d Hwf.
  destruct (staged_in_tx_total env _ d Hwf Hr) as (i & n & d' & H1 & _ & H2). exists i, n, d'. split; [exact H1|]. lia.
Qed.

Lemma staged_follow_ups_all_or_nothing_witness :
  let st := stage_run (fun l => l) (fun _ => []) None (fun _ => Ok 2) (fun _ => EmptyString) (fun _ => EmptyString)
              [Ok ("next", JObject [], default_insert_opts); Ok ("next", JObject [], default_insert_opts)] staging_new in
  exists rows, stage_seal st = (rows, None, mkStaging true [] 0 None) /\ length rows = 2%nat
    /\ settle_staged_follow_ups (fun _ => EmptyString) (Some (Ok JCompleted)) rows None = (Some (Ok JCompleted), rows).
Proof.
  intros st. pose proof (staged_follow_ups_all_or_nothing (fun l => l) (fun _ => []) None (fun _ => Ok 2)
    (fun _ => EmptyString) (fun _ => EmptyString) (fun _ => EmptyString)
    [Ok ("next", JObject [], default_insert_opts); Ok ("next", JObject [], default_insert_opts)]
    ltac:(intros v n [= <-]; lia)) as [H|(e & msg & H & _)].
  - exists (stg_rows st). split; [reflexivity|]. split; [apply H|reflexivity].
  - vm_compute in H. discriminate.
Defined.
