(* ===== verification/System.v ===== *)
(** The canonical system as a whole: the database together with what workers
    remember of the jobs they were handed, every operation as one labelled
    step, and the guarantees that hold along any interleaving of them.

    A worker keeps the row its claim returned ([dispatched], keyed like the
    in-flight registry by job id and run lease) and may finish it any number
    of times, at any later point: finalization is retried after a lost
    connection, and a presumed-dead worker may come back after its job was
    rescued.  Nothing orders the operations of different workers, of the
    maintenance leader and of the admin API. *)

From S2P Require Import Prelude.
From S2P Require Import Error.
From S2P Require Import Json.
From S2P Require Import Job.
From S2P Require Import Canonical.
From S2P Require Import CanonicalFacts.
From S2P Require Import Lifecycle.
From S2P Require Import Executor.
From S2P Require Import ExecutorFacts.

Record Sys : Type := mkSys {
  db : Db;
  dispatched : gmap (Z * Z) JobRow
}.

Definition empty_db : Db := mkDb ∅ ∅ ∅ ∅ 1.
Definition empty_sys : Sys := mkSys empty_db ∅.

Inductive op : Type :=
  | OpInsert (kind : string) (args : json) (opts : InsertOpts)
  | OpClaim (queue : string) (limit : nat) (deadline : Z) (locked : gset Z)
  | OpFinish (id lease : Z) (res : HandlerResult) (staged : list (string * json * InsertOpts))
      (path : CompletionPath) (batch : list (Z * Z)) (progress : option json) (needs_event : bool)
  | OpHeartbeat (pairs : list (Z * Z))
  | OpHeartbeatProgress (triples : list (Z * Z * json))
  | OpRescue (k : RescueKind) (scan rescan : list Z)
  | OpPromote (st : JobState) (locked : gset Z)
  | OpAge (aging : Z) (scan : list Z)
  | OpCleanup (global : RetentionPolicy) (overrides : list (string * RetentionPolicy)) (limit : nat) (scan : list Z)
  | OpRetry (id : Z)
  | OpCancel (id : Z)
  | OpPause (queue : string)
  | OpResume (queue : string)
  | OpRegisterCallback (id lease cb timeout : Z)
  | OpCompleteExternal (cb : Z) (payload : option json) (lease : option Z) (resume : bool)
  | OpFailExternal (cb : Z) (error : string) (lease : option Z)
  | OpRetryExternal (cb : Z) (lease : option Z)
  | OpHeartbeatCallback (cb timeout : Z)
  | OpCancelCallback (id lease : Z)
  | OpEnterWait (id lease cb : Z)
  | OpPollCallback (id cb : Z)
  | OpTakePayload (id : Z) (metadata : json).

(** A failed operation leaves the database as it was. *)
Definition keep {A} (db : Db) (out : result AwaError (A * Db)) : Db :=
  match out with Ok (_, db') => db' | Err _ => db end.

Definition remember (rows : list JobRow) (m : gmap (Z * Z) JobRow) : gmap (Z * Z) JobRow :=
  fold_left (fun m r => <[(j_id r, j_run_lease r) := r]> m) rows m.

Section System.
  Variable blake3 : list Z -> list Z.
  Variable to_vec : json -> list Z.
  Variable ambient : option string.
  Variable debug_duration : Z -> string.
  Variable enqueue_specs : Outcome -> string -> list EnqueueSpec.

(** Follow-ups a handler staged, prepared when they were staged. *)
Fixpoint prepare_all (l : list (string * json * InsertOpts)) : list PreparedJobInsert :=
  match l with
  | [] => []
  | (kind, args, opts) :: l =>
      match prepare_raw_job_insert blake3 to_vec ambient kind args opts with
      | Ok p => p :: prepare_all l
      | Err _ => prepare_all l
      end
  end.

Definition finish (env : Env) (job : JobRow) (res : HandlerResult) (staged : list PreparedJobInsert)
    (path : CompletionPath) (batch : list (Z * Z)) (progress : option json) (needs_event : bool) (d : Db)
    : result AwaError (CompletionOutcome * Db) :=
  complete_job_canonical blake3 to_vec ambient debug_duration enqueue_specs false 0
    (fun r _ d => Ok (r, d)) env job res staged path batch progress 0 needs_event d.

Definition exec (env : Env) (o : op) (s : Sys) : Sys :=
  let d := db s in
  let put d := mkSys d (dispatched s) in
  match o with
  | OpInsert kind args opts =>
      match prepare_raw_job_insert blake3 to_vec ambient kind args opts with
      | Ok p => put (keep d (insert_prepared env p d))
      | Err _ => s
      end
  | OpClaim queue limit deadline locked =>
      match claim_batch env queue limit deadline locked d with
      | Ok (rows, d') => mkSys d' (remember rows (dispatched s))
      | Err _ => s
      end
  | OpFinish id lease res staged path batch progress needs_event =>
      match dispatched s !! (id, lease) with
      | Some job => put (keep d (finish env job res (prepare_all staged) path batch progress needs_event d))
      | None => s
      end
  | OpHeartbeat pairs => put (keep d (heartbeat_batch env pairs d))
  | OpHeartbeatProgress triples => put (keep d (heartbeat_progress_batch env triples d))
  | OpRescue k scan rescan => put (keep d (rescue_canonical env k scan rescan d))
  | OpPromote st locked =>
      put (snd (promote_due_state env st PROMOTE_BATCH_SIZE locked PROMOTE_MAX_BATCHES_PER_TICK d))
  | OpAge aging scan => put (keep d (age_waiting_priorities env aging scan d))
  | OpCleanup global overrides limit scan => put (cleanup_completed env global overrides limit scan d)
  | OpRetry id => put (keep d (retry env id d))
  | OpCancel id => put (keep d (cancel env id d))
  | OpPause queue => put (pause_queue queue d)
  | OpResume queue => put (resume_queue queue d)
  | OpRegisterCallback id lease cb timeout => put (keep d (register_callback env id lease cb timeout d))
  | OpCompleteExternal cb payload lease resume => put (keep d (complete_external env cb payload lease resume d))
  | OpFailExternal cb error lease => put (keep d (fail_external env cb error lease d))
  | OpRetryExternal cb lease => put (keep d (retry_external env cb lease d))
  | OpHeartbeatCallback cb timeout => put (keep d (heartbeat_callback env cb timeout d))
  | OpCancelCallback id lease => put (keep d (cancel_callback id lease d))
  | OpEnterWait id lease cb => put (keep d (enter_callback_wait id lease cb d))
  | OpPollCallback id cb => put (keep d (check_callback_state id cb d))
  | OpTakePayload id metadata => put (keep d (take_callback_payload id metadata d))
  end.

(** Runs, and the states they pass through. *)
Definition run (tr : list (Env * op)) (s : Sys) : Sys :=
  fold_left (fun s '(env, o) => exec env o s) tr s.
Fixpoint states_of (tr : list (Env * op)) (s : Sys) : list Sys :=
  match tr with
  | [] => [s]
  | (env, o) :: tr => s :: states_of tr (exec env o s)
  end.

End System.

(** The attempt [(id, lease)] is open in a database. *)
Definition open_at (id lease : Z) (d : Db) : bool :=
  match lookup_job id d with
  | Some r => is_open (j_state r) && (j_run_lease r =? lease)
  | None => false
  end.

(** How often an attempt closes along a run. *)
Fixpoint closings (id lease : Z) (ss : list Sys) : nat :=
  match ss with
  | s :: ((s' :: _) as rest) =>
      (if open_at id lease (db s) && negb (open_at id lease (db s')) then 1 else 0) + closings id lease rest
  | _ => 0
  end%nat.

(** * Invariants of the machine *)

Definition counters_ok (r : JobRow) : Prop :=
  1 <= j_max_attempts r /\ 0 <= j_attempt r /\ 0 <= j_run_lease r
  /\ match j_state r with
     | Available | Scheduled | Retryable => j_attempt r < j_max_attempts r
     | Running | WaitingExternal => 1 <= j_attempt r <= j_max_attempts r
     | Completed | Failed | Cancelled => j_attempt r <= j_max_attempts r
     end.

Definition rows_ok (d : Db) : Prop := forall id r, lookup_job id d = Some r -> counters_ok r.

(** A dispatched snapshot: its lease is not ahead of the row's, and while its
    attempt is open the counters agree. *)
Definition snapshot_ok (job : JobRow) (d : Db) : Prop :=
  j_id job < jobs_id_seq d
  /\ forall r, lookup_job (j_id job) d = Some r ->
       j_run_lease job <= j_run_lease r
       /\ (is_open (j_state r) = true -> j_run_lease r = j_run_lease job ->
           j_attempt r = j_attempt job /\ j_max_attempts r = j_max_attempts job).

(** The attempt is over, for good. *)
Definition closed (id lease : Z) (d : Db) : Prop :=
  id < jobs_id_seq d
  /\ forall r, lookup_job id d = Some r ->
       lease <= j_run_lease r /\ (is_open (j_state r) = true -> lease < j_run_lease r).

(** * The machine preserves the invariants *)

Lemma db_step_seq d d' : db_step d d' -> jobs_id_seq d <= jobs_id_seq d'.
Proof. intros []; try rewrite (rep_seq _ _ _ _ Hrep); simpl; lia. Qed.

(** A row the step leaves behind was there before, up to one lifecycle step;
    ids are never reused. *)
Lemma db_step_row d d' id r' :
  db_step d d' -> id < jobs_id_seq d -> lookup_job id d' = Some r' ->
  exists r, lookup_job id d = Some r
    /\ (r' = r \/ (j_max_attempts r' = j_max_attempts r /\ row_step r r')).
Proof.
  intros Hs Hid Hl.
  assert (forall a b i v, replaces a b i v -> lookup_job id b = Some r' -> upd (rows a) i v id = Some r') as Hrow.
  { intros a b i v H Hb. rewrite <- (rep_rows _ _ _ _ H). exact Hb. }
  destruct Hs as [d d' i r q Hr Hi Hs Hrep|d d' r Hi _ _ _ _ Hrep|d d' i r Hr _ Hrep|d p]; [..|eauto];
    apply (Hrow _ _ _ _ Hrep) in Hl; destruct (decide (id = i)) as [->|Hne] || destruct (decide (id = j_id r)) as [->|Hne];
    rewrite ?upd_eq, ?upd_ne in Hl by assumption; try discriminate; eauto.
  - injection Hl as ->. exists r. split; [exact Hr|]. right. split; [apply Hi|exact Hs].
  - lia.
Qed.

Lemma row_step_lease r r' :
  row_step r r' ->
  j_run_lease r <= j_run_lease r'
  /\ (is_open (j_state r') = true -> j_run_lease r' = j_run_lease r ->
      is_open (j_state r) = true /\ j_attempt r' = j_attempt r).
Proof.
  intros [H [? ?]|H H' ? ?|H H' [? ?]|H H' ? [? ?]|H H' ? ?|H H' [? ?]|H H' [? ?]|H H' [? ?]|H H' ? ?|H H' [? ?]];
    (split; [lia|]); try rewrite H'; try discriminate; intros Ho He; try lia.
  - rewrite H in Ho. auto.
  - destruct (j_state r'); discriminate.
  - rewrite H. auto.
  - auto.
Qed.

Lemma row_step_counters r r' :
  counters_ok r -> j_max_attempts r' = j_max_attempts r -> row_step r r' -> counters_ok r'.
Proof.
  intros (Hm & Ha & Hl & Hst) Hmax Hs. unfold counters_ok. rewrite Hmax.
  destruct Hs as [H [? ?]|H H' ? ?|H H' [? ?]|H H' ? [? ?]|H H' ? ?|H H' [? ?]|H H' [? ?]|H H' [? ?]|H H' ? ?|H H' [? ?]];
    try rewrite H'; try rewrite H in *; (do 3 (split; [lia|])); try lia;
    destruct (j_state r); try discriminate; try destruct (j_state r'); try discriminate; lia.
Qed.

Lemma db_step_rows_ok d d' : wf d -> db_step d d' -> rows_ok d -> rows_ok d'.
Proof.
  intros Hwf Hs Hok id r' Hl. destruct (Z.lt_ge_cases id (jobs_id_seq d)) as [Hid|Hid].
  - destruct (db_step_row _ _ _ _ Hs Hid Hl) as (r & Hr & [->|[Hm Hrs]]); [eapply Hok, Hr|].
    eapply row_step_counters; [eapply Hok, Hr|exact Hm|exact Hrs].
  - assert (lookup_job id d = None) as Hnone.
    { destruct (lookup_job id d) as [r|] eqn:H; [|reflexivity]. pose proof (wf_seq _ Hwf _ _ H). lia. }
    destruct Hs as [d d' i r q Hr Hi Hs Hrep|d d' r Hi Hst Ha Hle Hm Hrep|d d' i r Hr _ Hrep|d p]; [| | |change (lookup_job id d = Some r') in Hl; congruence];
      rewrite (rep_rows _ _ _ _ Hrep) in Hl.
    + rewrite upd_ne in Hl by congruence. unfold rows in Hl. congruence.
    + destruct (decide (id = j_id r)) as [->|Hne].
      * rewrite upd_eq in Hl. injection Hl as ->. unfold counters_ok. destruct Hst as [-> | ->]; lia.
      * rewrite upd_ne in Hl by exact Hne. change (lookup_job id d = Some r') in Hl. congruence.
    + unfold upd in Hl. destruct (decide (id = i)); [discriminate|]. unfold rows in Hl. congruence.
Qed.

Lemma db_step_snapshot d d' job : db_step d d' -> snapshot_ok job d -> snapshot_ok job d'.
Proof.
  intros Hs [Hid H]. split; [pose proof (db_step_seq _ _ Hs); lia|]. intros r' Hr'.
  destruct (db_step_row _ _ _ _ Hs Hid Hr') as (r & Hr & Hev). destruct (H r Hr) as [Hl Ho].
  destruct Hev as [->|[Hm Hrs]]; [auto|]. destruct (row_step_lease _ _ Hrs) as [Hl' Ho'].
  split; [lia|]. intros Hop He. destruct (Ho' Hop ltac:(lia)) as [Hopr ->]. rewrite Hm. apply Ho; [exact Hopr|lia].
Qed.

Lemma db_step_closed d d' id lease : db_step d d' -> closed id lease d -> closed id lease d'.
Proof.
  intros Hs [Hid H]. split; [pose proof (db_step_seq _ _ Hs); lia|]. intros r' Hr'.
  destruct (db_step_row _ _ _ _ Hs Hid Hr') as (r & Hr & Hev). destruct (H r Hr) as [Hl Ho].
  destruct Hev as [->|[Hm Hrs]]; [auto|]. destruct (row_step_lease _ _ Hrs) as [Hl' Ho'].
  split; [lia|]. intros Hop. destruct (Z.eq_dec (j_run_lease r') (j_run_lease r)) as [He|]; [|lia].
  destruct (Ho' Hop He) as [Hopr _]. specialize (Ho Hopr). lia.
Qed.

Lemma db_step_wf d d' : wf d -> db_step d d' -> wf d'.
Proof. intros Hwf Hs. destruct Hs; try apply Hrep. apply wf_set_paused, Hwf. Qed.

Lemma rtc_inv (P : Db -> Prop) d d' :
  (forall a b, wf a -> db_step a b -> P a -> P b) -> wf d -> rtc db_step d d' -> P d -> P d'.
Proof.
  intros HP Hwf H. induction H as [|a b c Hab Hbc IH]; [auto|]. intros Ha.
  apply IH; [eapply db_step_wf; eassumption|]. eapply HP; eassumption.
Qed.

(** Closing an attempt closes it for good. *)
Lemma closes_for_good d d' id lease :
  wf d -> rtc db_step d d' -> open_at id lease d = true -> open_at id lease d' = false -> closed id lease d'.
Proof.
  unfold open_at. intros Hwf Hs Ho Hc. destruct (lookup_job id d) as [r|] eqn:Hr; [|discriminate].
  rewrite andb_true_iff, Z.eqb_eq in Ho. destruct Ho as [Ho Hl].
  assert (id < jobs_id_seq d' /\ forall r', lookup_job id d' = Some r' -> lease <= j_run_lease r') as [Hid Hmono].
  { refine (rtc_inv (fun d => id < jobs_id_seq d /\ forall r', lookup_job id d = Some r' -> lease <= j_run_lease r')
              d d' _ Hwf Hs _).
    - intros a b _ Hab [Hi H]. split; [pose proof (db_step_seq _ _ Hab); lia|]. intros r' Hr'.
      destruct (db_step_row _ _ _ _ Hab Hi Hr') as (q & Hq & [->|[_ Hrs]]); [auto|].
      specialize (H q Hq). pose proof (proj1 (row_step_lease _ _ Hrs)). lia.
    - split; [eapply wf_seq; eassumption|]. intros r' Hr'. rewrite Hr in Hr'. injection Hr' as <-. lia. }
  split; [exact Hid|]. intros r' Hr'. split; [auto|]. intros Hop. rewrite Hr', Hop in Hc. simpl in Hc.
  apply Z.eqb_neq in Hc. specialize (Hmono r' Hr'). lia.
Qed.

Lemma closed_not_open id lease d : closed id lease d -> open_at id lease d = false.
Proof.
  intros [_ H]. unfold open_at. destruct (lookup_job id d) as [r|] eqn:Hr; [|reflexivity].
  destruct (H r eq_refl) as [_ Ho]. destruct (is_open (j_state r)); [|reflexivity]. simpl. apply Z.eqb_neq.
  specialize (Ho eq_refl). lia.
Qed.

(** * Every operation is a run of the machine *)

Definition sys_inv (s : Sys) : Prop :=
  wf (db s) /\ rows_ok (db s)
  /\ forall k job, dispatched s !! k = Some job -> k = (j_id job, j_run_lease job) /\ snapshot_ok job (db s).

Lemma reaches_keep {A} d (out : result AwaError (A * Db)) : wf d -> commits d out -> reaches d (keep d out).
Proof.
  intros Hwf H. destruct out as [[a d']|e]; simpl; [eapply H; reflexivity|apply reaches_refl, Hwf].
Qed.

Lemma refines_keep {A} d (out : result AwaError (A * Db)) : wf d -> refines d out -> reaches d (keep d out).
Proof. intros Hwf H. apply reaches_keep; [exact Hwf|]. apply refines_commits, H. Qed.

Lemma refines_or_keep {A} d (out : result AwaError (A * Db)) e :
  wf d -> refines d out \/ out = Err e -> reaches d (keep d out).
Proof. intros Hwf [H| ->]; [apply refines_keep; assumption|apply reaches_refl, Hwf]. Qed.

Lemma cleanup_reaches env global overrides limit scan d :
  wf d -> reaches d (cleanup_completed env global overrides limit scan d).
Proof.
  intros Hwf. unfold cleanup_completed. cbv zeta.
  assert (forall l a, reaches d a ->
    reaches d (fold_left (fun db '(q, p) => match cleanup_pass env p (String.eqb q) limit scan db with
                                            | Ok (_, db') => db' | Err _ => db end) l a)) as Hf.
  { intros l. induction l as [|[q p] l IH]; intros a Ha; [exact Ha|]. cbn [fold_left]. apply IH.
    eapply reaches_trans; [exact Ha|]. apply (refines_keep a); [apply Ha|]. apply cleanup_pass_refines, Ha. }
  apply Hf. apply (refines_keep d); [exact Hwf|]. apply cleanup_pass_refines, Hwf.
Qed.

Lemma claim_batch_rows env queue limit deadline locked d rows d' :
  wf d -> claim_batch env queue limit deadline locked d = Ok (rows, d') ->
  rows = map (claim_row env deadline) (claim_candidates env queue limit locked d)
  /\ (forall r, r ∈ claim_candidates env queue limit locked d ->
       hot d !! j_id r = Some r /\ claimable env queue locked d r = true
       /\ lookup_job (j_id r) d' = Some (claim_row env deadline r))
  /\ (forall j, j ∉ map j_id (claim_candidates env queue limit locked d) -> lookup_job j d' = lookup_job j d).
Proof.
  intros Hwf H. destruct (selected_hot d (claimable env queue locked d) claim_le limit Hwf) as [Hnd Hin].
  destruct (update_batch_rows (claim_row env deadline) _ _ _ _ Hwf Hnd ltac:(intros r Hr; apply Hin, Hr)
    ltac:(intros r Hr; split; [ident|reflexivity]) H) as (Hr & _ & Hv & Hfr).
  split; [exact Hr|]. split; [|exact Hfr]. intros r Hc. destruct (Hin r Hc). auto.
Qed.

Lemma prepare_all_state blake3 to_vec ambient l : Forall prepared_state (prepare_all blake3 to_vec ambient l).
Proof.
  induction l as [|[[kind args] opts] l IH]; simpl; [constructor|].
  destruct (prepare_raw_job_insert _ _ _ _ _ _) as [p|e] eqn:Hp; [|exact IH].
  constructor; [eapply prepare_state, Hp|exact IH].
Qed.

Section Runs.
  Context (blake3 : list Z -> list Z) (to_vec : json -> list Z) (ambient : option string)
    (debug_duration : Z -> string) (enqueue_specs : Outcome -> string -> list EnqueueSpec).
  Abbreviation exec := (exec blake3 to_vec ambient debug_duration enqueue_specs).
  Abbreviation run := (run blake3 to_vec ambient debug_duration enqueue_specs).
  Abbreviation states_of := (states_of blake3 to_vec ambient debug_duration enqueue_specs).

Lemma exec_reaches env o s : sys_inv s -> reaches (db s) (db (exec env o s)).
Proof.
  intros (Hwf & _ & Hd). destruct o; cbn [System.exec db].
  - destruct (prepare_raw_job_insert _ _ _ _ _ _) as [p|e] eqn:Hp; [|apply reaches_refl, Hwf].
    apply reaches_keep; [exact Hwf|]. apply insert_prepared_commits; [exact Hwf|]. eapply prepare_state, Hp.
  - pose proof (claim_batch_refines env queue limit deadline locked (db s) Hwf) as H.
    destruct (claim_batch _ _ _ _ _ _) as [[rows d']|e]; [exact H|apply reaches_refl, Hwf].
  - destruct (dispatched s !! (id, lease)) as [job|] eqn:Hj; [|apply reaches_refl, Hwf].
    apply reaches_keep; [exact Hwf|]. destruct (Hd _ _ Hj) as [_ [_ Hs]].
    apply complete_job_commits; [exact Hwf| |apply prepare_all_state]. intros r Hr. apply Hs, Hr.
  - apply refines_keep, heartbeat_batch_refines; exact Hwf.
  - apply refines_keep, heartbeat_progress_refines; exact Hwf.
  - destruct (rescue_canonical_refines env k scan rescan (db s) Hwf) as (rs & d' & -> & H). exact H.
  - pose proof (promote_due_state_refines env st PROMOTE_BATCH_SIZE locked PROMOTE_MAX_BATCHES_PER_TICK (db s) Hwf) as H.
    destruct (promote_due_state _ _ _ _ _ _) as [n d']. exact H.
  - apply refines_keep, age_refines; exact Hwf.
  - apply cleanup_reaches, Hwf.
  - eapply refines_or_keep, retry_refines; exact Hwf.
  - eapply refines_or_keep, cancel_refines; exact Hwf.
  - split; [apply wf_set_paused, Hwf|]. apply rtc_once, ds_pause.
  - split; [apply wf_set_paused, Hwf|]. apply rtc_once, ds_pause.
  - eapply refines_or_keep, register_callback_refines; exact Hwf.
  - eapply refines_or_keep, complete_external_refines; exact Hwf.
  - eapply refines_or_keep, fail_external_refines; exact Hwf.
  - eapply refines_or_keep, retry_external_refines; exact Hwf.
  - eapply refines_or_keep, heartbeat_callback_refines; exact Hwf.
  - apply refines_keep, cancel_callback_refines; exact Hwf.
  - apply refines_keep, enter_callback_wait_refines; exact Hwf.
  - apply refines_keep, check_callback_state_refines; exact Hwf.
  - destruct (take_callback_payload_refines id metadata (db s) Hwf) as [H|[e ->]];
      [apply refines_keep; assumption|apply reaches_refl, Hwf].
Qed.

Lemma remember_lookup rows m k job :
  remember rows m !! k = Some job ->
  m !! k = Some job \/ (job ∈ rows /\ k = (j_id job, j_run_lease job)).
Proof.
  unfold remember. revert m. induction rows as [|r rows IH]; intros m H; simpl in H; [auto|].
  apply IH in H as [H|[Hin Hk]].
  - destruct (decide (k = (j_id r, j_run_lease r))) as [->|Hne].
    + rewrite lookup_insert_eq in H. injection H as <-. right. split; [left|reflexivity].
    + rewrite lookup_insert_ne in H by congruence. auto.
  - right. split; [right; exact Hin|exact Hk].
Qed.

Lemma claimed_snapshot env queue limit deadline locked d rows d' job :
  wf d -> wf d' -> claim_batch env queue limit deadline locked d = Ok (rows, d') -> job ∈ rows ->
  snapshot_ok job d'.
Proof.
  intros Hwf Hwf' H Hj. destruct (claim_batch_rows _ _ _ _ _ _ _ _ Hwf H) as (-> & Hc & _).
  apply list_elem_of_In, in_map_iff in Hj as (r & <- & Hr). apply list_elem_of_In in Hr.
  destruct (Hc r Hr) as (_ & _ & Hl). split; [eapply (wf_seq _ Hwf' _ _ Hl)|].
  intros q Hq. change (j_id (claim_row env deadline r)) with (j_id r) in Hq. rewrite Hl in Hq.
  injection Hq as <-. split; [reflexivity|]. auto.
Qed.

Lemma dispatched_exec env o s k job :
  sys_inv s -> dispatched (exec env o s) !! k = Some job ->
  dispatched s !! k = Some job
  \/ (k = (j_id job, j_run_lease job) /\ snapshot_ok job (db (exec env o s))).
Proof.
  intros Hinv. pose proof (exec_reaches env o s Hinv) as [Hwf' _]. destruct Hinv as (Hwf & _ & _).
  revert Hwf'. destruct o; cbn [System.exec dispatched];
    repeat match goal with |- context [match ?x with _ => _ end] => destruct x eqn:? end; auto.
  cbn [dispatched db]. intros Hwf' H. apply remember_lookup in H as [H|[Hin ->]]; [auto|]. right. split; [reflexivity|].
  eapply claimed_snapshot; [exact Hwf|exact Hwf'|eassumption|exact Hin].
Qed.

Lemma exec_inv env o s : sys_inv s -> sys_inv (exec env o s).
Proof.
  intros Hinv. pose proof (exec_reaches env o s Hinv) as [Hwf' Hrtc].
  pose proof Hinv as (Hwf & Hrows & Hd). split; [exact Hwf'|]. split.
  - exact (rtc_inv rows_ok _ _ db_step_rows_ok Hwf Hrtc Hrows).
  - intros k job Hk. apply (dispatched_exec env o s k job Hinv) in Hk as [Hk|Hk]; [|exact Hk].
    destruct (Hd k job Hk) as [He Hs]. split; [exact He|].
    exact (rtc_inv (snapshot_ok job) _ _ (fun a b _ => db_step_snapshot a b job) Hwf Hrtc Hs).
Qed.

Lemma empty_inv : sys_inv empty_sys.
Proof.
  assert (forall id : Z, (∅ : gmap Z JobRow) !! id = None) as He by (intros; apply lookup_empty).
  split; [split|split].
  - intros id r H. discriminate.
  - intros id r H. discriminate.
  - auto.
  - intros id r H. discriminate.
  - intros k j. split; [discriminate|]. intros (r & H & _). discriminate.
  - intros id r H. discriminate.
  - intros k job H. discriminate.
Qed.

Lemma run_inv tr s : sys_inv s -> sys_inv (run tr s).
Proof.
  revert s. induction tr as [|[env o] tr IH]; intros s H; [exact H|]. apply (IH (exec env o s)), exec_inv, H.
Qed.

Lemma closings_closed id lease tr s : sys_inv s -> closed id lease (db s) -> closings id lease (states_of tr s) = 0%nat.
Proof.
  revert s. induction tr as [|[env o] tr IH]; intros s Hinv Hc; [reflexivity|].
  pose proof (exec_reaches env o s Hinv) as [_ Hrtc].
  pose proof (rtc_inv (closed id lease) _ _ (fun a b _ Hs => db_step_closed a b id lease Hs) (proj1 Hinv) Hrtc Hc) as Hc'.
  specialize (IH _ (exec_inv env o s Hinv) Hc'). cbn [System.states_of].
  destruct tr as [|[env' o'] tr]; cbn [System.states_of closings] in *;
    rewrite (closed_not_open _ _ _ Hc); simpl; [reflexivity|exact IH].
Qed.

Lemma closings_step id lease env o tr s :
  closings id lease (states_of ((env, o) :: tr) s)
  = ((if open_at id lease (db s) && negb (open_at id lease (db (exec env o s))) then 1 else 0)
     + closings id lease (states_of tr (exec env o s)))%nat.
Proof. destruct tr as [|[env' o'] tr]; reflexivity. Qed.

Lemma closings_le_one id lease tr s : sys_inv s -> (closings id lease (states_of tr s) <= 1)%nat.
Proof.
  revert s. induction tr as [|[env o] tr IH]; intros s Hinv; [simpl; lia|].
  rewrite closings_step. specialize (IH _ (exec_inv env o s Hinv)).
  destruct (open_at id lease (db s)) eqn:Ho; [|exact IH].
  destruct (open_at id lease (db (exec env o s))) eqn:Hc; [exact IH|].
  rewrite closings_closed; [simpl; lia|apply exec_inv, Hinv|].
  eapply closes_for_good; [apply Hinv|apply exec_reaches, Hinv|exact Ho|exact Hc].
Qed.
End Runs.
