(* ===== verification/Finalize.v ===== *)
(** Durable finalization with retries (awa-worker/src/executor.rs,
    [finalize_with_retry]).

    Times are in microseconds since the first call.  What the awaited calls do
    is a parameter: the [i]-th call to [finalize] takes [fst (finalize i path)]
    and then yields [snd (finalize i path)]; [random i] is the hash the [i]-th
    jitter draws.  [timeout_at] is tokio's: the inner future wins when it is
    ready by the deadline.  The loop has no bound of its own in the source;
    [finalize_loop] takes fuel and [finalize_terminates] shows that
    [FINALIZE_FUEL] is enough for every behaviour of the calls. *)

From S2P Require Import Prelude.
From S2P Require Import Error.
From S2P Require Import Json.
From S2P Require Import Job.
From S2P Require Import Canonical.
From S2P Require Import Executor.

Definition COMPLETION_DEADLOCK_RETRIES : Z := 3.
Definition COMPLETION_RECONNECT_WINDOW : Z := 120 * us_per_sec.

Definition from_millis (ms : Z) : Z := ms * 1000.

Definition completion_deadlock_backoff (retry : Z) : Z :=
  from_millis (Z.shiftl 10 (Z.min (sat_sub retry 1) 4)).

(** Equal jitter; [random] is a [u64]. *)
Definition completion_reconnect_backoff (random retry : Z) : Z :=
  let ceiling_ms := Z.shiftl 500 (Z.min (sat_sub retry 1) 3) in
  let half_ms := ceiling_ms / 2 in
  from_millis (half_ms + random mod (half_ms + 1)).

Inductive FinalizeResult (T : Type) : Type :=
  | FinalizeAck (outcome : T) (reconnect_retries elapsed : Z)
  | FinalizeOperation (e : AwaError)
  | FinalizeDeadline.
Arguments FinalizeAck {T}.
Arguments FinalizeOperation {T}.
Arguments FinalizeDeadline {T}.

(** The mutable locals of the loop, with the clock. *)
Record RetryState : Type := mkRetry {
  clock_us : Z;
  deadlock_retries : Z;
  reconnect_retries : Z;
  schema_retried : bool;
  completion_path : CompletionPath
}.
Definition retry_init : RetryState := mkRetry 0 0 0 false Batched.

(** The [if]/[else if] chain: the delay before the next call and the updated
    counters, or [None] when the error is returned. *)
Definition retry_delay (random : Z) (error : AwaError) (st : RetryState) : option (Z * RetryState) :=
  if is_deadlock error && (deadlock_retries st <? COMPLETION_DEADLOCK_RETRIES)
  then Some (completion_deadlock_backoff (deadlock_retries st + 1),
             mkRetry (clock_us st) (deadlock_retries st + 1) (reconnect_retries st) (schema_retried st) (completion_path st))
  else if is_connection_lost error
  then Some (completion_reconnect_backoff random (reconnect_retries st + 1),
             mkRetry (clock_us st) (deadlock_retries st) (reconnect_retries st + 1) (schema_retried st) (completion_path st))
  else if is_undefined_column error && negb (schema_retried st)
  then Some (0, mkRetry (clock_us st) (deadlock_retries st) (reconnect_retries st) true (completion_path st))
  else None.

Definition timeout_at (deadline start duration : Z) : option Z :=
  if start + duration <=? deadline then Some (start + duration) else None.

Section Finalize.
  Context {T : Type}.
  Variable finalize : nat -> CompletionPath -> Z * result AwaError T.
  Variable random : nat -> Z.
  Variable window : Z.

(** One turn of the loop: a result, or the state of the next turn. *)
Definition finalize_turn (i : nat) (st : RetryState) : FinalizeResult T + RetryState :=
  let '(duration, outcome) := finalize i (completion_path st) in
  match timeout_at window (clock_us st) duration with
  | None => inl FinalizeDeadline
  | Some t =>
      match outcome with
      | Ok outcome => inl (FinalizeAck outcome (reconnect_retries st) t)
      | Err error =>
          match retry_delay (random i) error st with
          | None => inl (FinalizeOperation error)
          | Some (delay, st') =>
              match timeout_at window t delay with
              | None => inl FinalizeDeadline
              | Some t' =>
                  inr (mkRetry t' (deadlock_retries st') (reconnect_retries st') (schema_retried st') Direct)
              end
          end
      end
  end.

(** The loop, from turn [i]; the list holds the path of each call it made. *)
Fixpoint finalize_loop (fuel : nat) (i : nat) (st : RetryState) : option (FinalizeResult T * list CompletionPath) :=
  match fuel with
  | O => None
  | S fuel =>
      match finalize_turn i st with
      | inl r => Some (r, [completion_path st])
      | inr st' =>
          match finalize_loop fuel (S i) st' with
          | Some (r, paths) => Some (r, completion_path st :: paths)
          | None => None
          end
      end
  end.
Definition finalize_with_retry (fuel : nat) : option (FinalizeResult T * list CompletionPath) :=
  finalize_loop fuel 0 retry_init.
End Finalize.

(** Calls within the window: three deadlock retries, one schema retry, sixty-two
    reconnects, and the first call. *)
Definition FINALIZE_FUEL : nat := 67.

(** * Backoff bounds *)

(** The least delay of the [n]-th reconnect, in milliseconds. *)
Definition reconnect_floor_ms (n : Z) : Z :=
  if n <=? 1 then 250 else if n <=? 2 then 500 else if n <=? 3 then 1000 else 2000.

Lemma reconnect_backoff_bounds random retry :
  from_millis (reconnect_floor_ms retry) <= completion_reconnect_backoff random retry
  <= from_millis (2 * reconnect_floor_ms retry).
Proof.
  unfold completion_reconnect_backoff, from_millis, reconnect_floor_ms, sat_sub.
  assert (forall c h, Z.shiftl 500 (Z.min (Z.max 0 (retry - 1)) 3) = c -> c / 2 = h -> 0 < h -> 
    h * 1000 <= (Z.shiftl 500 (Z.min (Z.max 0 (retry - 1)) 3) / 2
      + random mod (Z.shiftl 500 (Z.min (Z.max 0 (retry - 1)) 3) / 2 + 1)) * 1000 <= (2 * h) * 1000) as H.
  { intros c h -> -> Hh. pose proof (Z.mod_pos_bound random (h + 1) ltac:(lia)). lia. }
  destruct (Z.leb_spec retry 1); [replace (Z.max 0 (retry - 1)) with 0 in * by lia; eapply H; reflexivity|].
  destruct (Z.leb_spec retry 2); [replace retry with 2 in * by lia; eapply H; reflexivity|].
  destruct (Z.leb_spec retry 3); [replace retry with 3 in * by lia; eapply H; reflexivity|].
  replace (Z.min (Z.max 0 (retry - 1)) 3) with 3 in * by lia. eapply H; reflexivity.
Qed.

Lemma deadlock_backoff_pos retry : 0 <= completion_deadlock_backoff retry.
Proof.
  unfold completion_deadlock_backoff, from_millis. enough (0 <= Z.shiftl 10 (Z.min (sat_sub retry 1) 4)) by lia.
  apply Z.shiftl_nonneg. lia.
Qed.

(** * Termination *)

(** The time that [n] reconnects take at least, in microseconds. *)
Definition reconnect_time (n : Z) : Z :=
  from_millis (if n <=? 0 then 0 else if n <=? 1 then 250 else if n <=? 2 then 750 else 2000 * n - 4250).

Lemma reconnect_time_step random n :
  0 <= n -> reconnect_time (n + 1) <= reconnect_time n + completion_reconnect_backoff random (n + 1).
Proof.
  intros Hn. pose proof (reconnect_backoff_bounds random (n + 1)) as [H _]. revert H.
  unfold reconnect_time, reconnect_floor_ms, from_millis.
  repeat match goal with |- context [?a <=? ?b] => destruct (Z.leb_spec a b) end; lia.
Qed.

Definition retries (st : RetryState) : Z :=
  deadlock_retries st + reconnect_retries st + (if schema_retried st then 1 else 0).

(** Loop invariant: the clock is within the window and has paid for the
    reconnects. *)
Record retry_inv (window : Z) (st : RetryState) : Prop := {
  ri_clock : reconnect_time (reconnect_retries st) <= clock_us st <= window;
  ri_deadlock : 0 <= deadlock_retries st <= COMPLETION_DEADLOCK_RETRIES;
  ri_reconnect : 0 <= reconnect_retries st
}.

Section Terminates.
  Context {T : Type} (finalize : nat -> CompletionPath -> Z * result AwaError T) (random : nat -> Z) (window : Z).
  Hypothesis Hdur : forall i p, 0 <= fst (finalize i p).

Lemma retry_delay_spec rnd e st delay st' :
  retry_inv window st -> retry_delay rnd e st = Some (delay, st') ->
  0 <= delay /\ clock_us st' = clock_us st /\ retries st' = retries st + 1
  /\ 0 <= deadlock_retries st' <= COMPLETION_DEADLOCK_RETRIES /\ 0 <= reconnect_retries st'
  /\ reconnect_time (reconnect_retries st') <= reconnect_time (reconnect_retries st) + delay.
Proof.
  intros [Hc Hd Hr] H. unfold retry_delay in H.
  destruct (is_deadlock e && (deadlock_retries st <? COMPLETION_DEADLOCK_RETRIES)) eqn:Hdl;
    [|destruct (is_connection_lost e); [|destruct (is_undefined_column e && negb (schema_retried st)) eqn:Hs; [|discriminate]]];
    injection H as <- <-; unfold retries; simpl.
  - apply andb_true_iff in Hdl as [_ Hdl]. apply Z.ltb_lt in Hdl.
    pose proof (deadlock_backoff_pos (deadlock_retries st + 1)). lia.
  - pose proof (reconnect_time_step rnd (reconnect_retries st) Hr).
    pose proof (reconnect_backoff_bounds rnd (reconnect_retries st + 1)) as [Hb _].
    unfold reconnect_floor_ms, from_millis in Hb.
    repeat match type of Hb with context [?a <=? ?b] => destruct (Z.leb_spec a b) end; lia.
  - apply andb_true_iff in Hs as [_ Hs]. destruct (schema_retried st); [discriminate|]. lia.
Qed.

Lemma finalize_turn_spec i st :
  retry_inv window st ->
  match finalize_turn finalize random window i st with
  | inr st' => retry_inv window st' /\ retries st' = retries st + 1 /\ completion_path st' = Direct
  | inl (FinalizeAck o n t) => n = reconnect_retries st /\ t <= window /\ snd (finalize i (completion_path st)) = Ok o
  | inl (FinalizeOperation e) => snd (finalize i (completion_path st)) = Err e /\ retry_delay (random i) e st = None
  | inl FinalizeDeadline => True
  end.
Proof.
  intros Hinv. unfold finalize_turn. pose proof (Hdur i (completion_path st)) as Hd.
  destruct (finalize i (completion_path st)) as [duration outcome]. simpl in Hd. unfold timeout_at.
  destruct (Z.leb_spec (clock_us st + duration) window); [|exact I].
  destruct outcome as [o|e]; [auto|]. destruct (retry_delay (random i) e st) as [[delay st']|] eqn:Hrd; [|auto].
  destruct (retry_delay_spec _ _ _ _ _ Hinv Hrd) as (Hdl & Hcl & Hret & Hdr & Hrr & Hrt).
  destruct (Z.leb_spec (clock_us st + duration + delay) window); [|exact I].
  destruct Hinv as [Hc _ _]. split; [split; simpl; lia|]. split; [exact Hret|reflexivity].
Qed.

(** The window bounds the number of retries. *)
Lemma retry_budget st :
  window <= COMPLETION_RECONNECT_WINDOW -> retry_inv window st -> retries st < Z.of_nat FINALIZE_FUEL.
Proof.
  intros Hw [Hc Hd Hr]. unfold retries, COMPLETION_DEADLOCK_RETRIES, COMPLETION_RECONNECT_WINDOW, us_per_sec,
    reconnect_time, from_millis, FINALIZE_FUEL in *.
  repeat match type of Hc with context [?a <=? ?b] => destruct (Z.leb_spec a b) end; destruct (schema_retried st); lia.
Qed.

(** What the loop's result says of the last error. *)
Lemma retry_refused rnd e st :
  retry_inv window st -> retry_delay rnd e st = None ->
  is_connection_lost e = false /\ (is_deadlock e = true -> 3 <= retries st) /\ (is_undefined_column e = true -> 1 <= retries st).
Proof.
  intros [_ Hd Hr] H. unfold retry_delay, COMPLETION_DEADLOCK_RETRIES, retries in *.
  destruct (is_deadlock e) eqn:Hdl; simpl in H.
  - destruct (Z.ltb_spec (deadlock_retries st) 3); [discriminate|].
    destruct (is_connection_lost e); [discriminate|]. destruct (schema_retried st); split; auto; split; lia.
  - destruct (is_connection_lost e); [discriminate|]. split; [reflexivity|]. split; [discriminate|]. intros Hu.
    rewrite Hu in H. destruct (schema_retried st); [lia|discriminate].
Qed.

Lemma finalize_loop_terminates fuel i st :
  window <= COMPLETION_RECONNECT_WINDOW -> retry_inv window st -> retries st = Z.of_nat i ->
  (FINALIZE_FUEL <= fuel + i)%nat ->
  exists r paths, finalize_loop finalize random window fuel i st = Some (r, completion_path st :: paths)
    /\ Forall (eq Direct) paths /\ (length paths + i < FINALIZE_FUEL)%nat
    /\ match r with
       | FinalizeAck o n t => t <= window /\ exists p, snd (finalize (length paths + i) p) = Ok o
       | FinalizeOperation e =>
           is_connection_lost e = false /\ (is_deadlock e = true -> 3 <= length paths + i)%nat
           /\ (is_undefined_column e = true -> 1 <= length paths + i)%nat
       | FinalizeDeadline => True
       end.
Proof.
  intros Hw. revert i st. induction fuel as [|fuel IH]; intros i st Hinv Hi Hf;
    pose proof (retry_budget st Hw Hinv) as Hb; [lia|].
  pose proof (finalize_turn_spec i st Hinv) as Ht. simpl.
  destruct (finalize_turn finalize random window i st) as [r|st'].
  - exists r, []. split; [reflexivity|]. split; [constructor|]. split; [simpl; lia|].
    destruct r as [o n t|e|]; [| |exact I].
    + destruct Ht as (_ & Hle & Ho). eauto.
    + destruct Ht as [_ Hn]. destruct (retry_refused _ _ _ Hinv Hn) as (Hc & Hd & Hu).
      split; [exact Hc|]. simpl. split; intros H; [specialize (Hd H)|specialize (Hu H)]; lia.
  - destruct Ht as (Hinv' & Hret & Hp). destruct (IH (S i) st' Hinv' ltac:(lia) ltac:(lia)) as (r & paths & He & Hall & Hlen & Hr).
    rewrite He. exists r, (completion_path st' :: paths). split; [reflexivity|].
    split; [constructor; [symmetry; exact Hp|exact Hall]|]. simpl. rewrite <- Nat.add_succ_r. split; [exact Hlen|exact Hr].
Qed.
End Terminates.

(** C38. Finalization always ends: however long the calls take and whatever
    they return, the retry loop stops within the two-minute window after at
    most 67 calls. The first call may batch, every retry goes direct. An
    acknowledgement is the result of the last call; an error is surfaced only
    when it is not a lost connection, a deadlock only after three retries and
    a missing column only after one. *)
Theorem finalize_terminates {T : Type} (finalize : nat -> CompletionPath -> Z * result AwaError T) (random : nat -> Z) :
  (forall i p, 0 <= fst (finalize i p)) ->
  exists r paths,
    finalize_with_retry finalize random COMPLETION_RECONNECT_WINDOW FINALIZE_FUEL = Some (r, Batched :: paths)
    /\ Forall (eq Direct) paths /\ (length paths < FINALIZE_FUEL)%nat
    /\ match r with
       | FinalizeAck o n t => t <= COMPLETION_RECONNECT_WINDOW /\ exists p, snd (finalize (length paths) p) = Ok o
       | FinalizeOperation e =>
           is_connection_lost e = false /\ (is_deadlock e = true -> 3 <= length paths)%nat
           /\ (is_undefined_column e = true -> 1 <= length paths)%nat
       | FinalizeDeadline => True
       end.
Proof.
  intros Hd. destruct (finalize_loop_terminates finalize random COMPLETION_RECONNECT_WINDOW Hd FINALIZE_FUEL 0 retry_init)
    as (r & paths & He & Hp & Hl & Hr); [reflexivity| |reflexivity|rewrite Nat.add_0_r; reflexivity|].
  - split; [split; vm_compute; discriminate|split; vm_compute; discriminate|vm_compute; discriminate].
  - rewrite Nat.add_0_r in *. exists r, paths. auto.
Qed.

(** A server that drops the connection twice, then answers. *)
Definition flaky (i : nat) (p : CompletionPath) : Z * result AwaError bool :=
  if (i <? 2)%nat then (1000, Err (Database SqlxIo)) else (2000, Ok true).

Lemma finalize_terminates_witness :
  exists n t paths, finalize_with_retry flaky (fun _ => 7) COMPLETION_RECONNECT_WINDOW FINALIZE_FUEL
                    = Some (FinalizeAck true n t, Batched :: paths) /\ (length paths < FINALIZE_FUEL)%nat.
Proof.
  destruct (finalize_terminates flaky (fun _ => 7)) as (r & paths & He & _ & Hl & _).
  - intros i p. unfold flaky. destruct (i <? 2)%nat; simpl; lia.
  - vm_compute in He. injection He as <- <-. eexists _, _, _. split; [reflexivity|exact Hl].
Defined.
