(* ===== verification/Rescue.v ===== *)
(** Recovery of abandoned attempts: the rescue scans close every attempt they
    pick up, and one row whose unique key is taken never keeps the others
    from being rescued. *)

From S2P Require Import Prelude.
From S2P Require Import Error.
From S2P Require Import Json.
From S2P Require Import Job.
From S2P Require Import Canonical.
From S2P Require Import CanonicalFacts.
From S2P Require Import Lifecycle.
From S2P Require Import ExecutorFacts.
From S2P Require Import System.

Lemma replaces_closes d d' id lease q :
  replaces d d' id (Some q) -> is_open (j_state q) = false -> open_at id lease d' = false.
Proof.
  intros Hrep Hq. unfold open_at. rewrite (rep_rows _ _ _ _ Hrep), upd_eq, Hq. reflexivity.
Qed.

Lemma rescued_row_closed env k r : is_open (j_state (rescued_row env k r)) = false.
Proof. unfold rescued_row. destruct (exhausted r), k; reflexivity. Qed.

(** The row [cancel_unique_conflicted_job] writes takes no unique claim. *)
Definition releases_when_cancelled (r : JobRow) : Prop := claimed_key (set_state Cancelled r) = None.

Lemma rescue_row_spec env k id d r :
  wf d -> hot d !! id = Some r -> rescue_candidate env k r = true ->
  match rescue_row env k id d with
  | Ok (row, d') => row = Some (rescued_row env k r) /\ replaces d d' id (Some (rescued_row env k r))
  | Err e => e = unique_violation
  end.
Proof.
  intros Hwf Hr Hc. unfold rescue_row. rewrite Hr, Hc. destruct (wf_hot _ Hwf _ _ Hr) as [<- _].
  pose proof (rescue_one_spec env k r d Hwf (lookup_hot _ _ _ Hr) (rescue_candidate_open _ _ _ Hc)) as H.
  destruct (rescue_one env k r d) as [[r' d']|e]; cbn [rbind]; [|apply H]. destruct H as (-> & H & _). auto.
Qed.

(** One row of the fallback writes that row only. *)
Lemma per_row_step_frame env k id d j :
  wf d -> j <> id -> lookup_job j (rescue_per_row_step env k id d).2 = lookup_job j d.
Proof.
  intros Hwf Hj. unfold rescue_per_row_step.
  destruct (rescue_row env k id d) as [[row d1]|e] eqn:Hrow.
  - simpl. destruct (hot d !! id) as [r|] eqn:Hr;
      [destruct (rescue_candidate env k r) eqn:Hc|]; [|unfold rescue_row in Hrow; rewrite Hr in Hrow; try rewrite Hc in Hrow; congruence..].
    pose proof (rescue_row_spec env k id d r Hwf Hr Hc) as Hs. rewrite Hrow in Hs. destruct Hs as [_ Hs].
    rewrite (rep_rows _ _ _ _ Hs). apply upd_ne, Hj.
  - destruct (is_unique_claim_conflict e); [|reflexivity].
    pose proof (update_hot_where_spec id (state_is (rescue_from_state k))
      (fun r => r |> set_state Cancelled |> set_finalized_at (Some (now env))
                  |> append_error (sql_error env (duplicate_message k) r)
                  |> set_heartbeat_at None |> set_deadline_at None |> clear_callback) d Hwf) as Hs.
    unfold cancel_unique_conflicted_job. destruct (update_hot_where _ _ _ _) as [[[q|] d1]|e']; simpl; [| |reflexivity].
    + destruct Hs as (r & _ & _ & _ & Hrep & _); [|rewrite (rep_rows _ _ _ _ Hrep); apply upd_ne, Hj].
      intros r Hr _. split; [apply (wf_hot _ Hwf _ _ Hr)|]. split; reflexivity.
    + destruct Hs as [-> _]; [|reflexivity].
      intros r Hr _. split; [apply (wf_hot _ Hwf _ _ Hr)|]. split; reflexivity.
Qed.

(** ... and closes its attempt. *)
Lemma per_row_step_closes env k id d r :
  wf d -> hot d !! id = Some r -> rescue_candidate env k r = true -> releases_when_cancelled r ->
  open_at id (j_run_lease r) (rescue_per_row_step env k id d).2 = false.
Proof.
  intros Hwf Hr Hc Hm. unfold rescue_per_row_step.
  pose proof (rescue_row_spec env k id d r Hwf Hr Hc) as Hs.
  destruct (rescue_row env k id d) as [[row d1]|e].
  - destruct Hs as [_ Hs]. eapply replaces_closes; [exact Hs|apply rescued_row_closed].
  - subst e. simpl. unfold cancel_unique_conflicted_job.
    set (f := fun r => r |> set_state Cancelled |> set_finalized_at (Some (now env))
                         |> append_error (sql_error env (duplicate_message k) r)
                         |> set_heartbeat_at None |> set_deadline_at None |> clear_callback).
    assert (forall r, hot d !! id = Some r -> state_is (rescue_from_state k) r = true ->
      j_id (f r) = id /\ j_unique_key (f r) = j_unique_key r /\ in_scheduled (j_state (f r)) = false) as Hf.
    { intros q Hq _. split; [apply (wf_hot _ Hwf _ _ Hq)|]. split; reflexivity. }
    pose proof (update_hot_where_spec id (state_is (rescue_from_state k)) f d Hwf Hf) as Hu.
    destruct (update_hot_where _ _ _ _) as [[[q|] d1]|e']; simpl.
    + destruct Hu as (q' & _ & _ & _ & Hrep & _). eapply replaces_closes; [exact Hrep|reflexivity].
    + destruct Hu as [_ Hg]. specialize (Hg r Hr). exfalso.
      destruct k; simpl in Hc; apply andb_true_iff in Hc as [Hc _]; simpl in Hg; congruence.
    + destruct Hu as [_ (q & Hq & _ & Hcf)]. rewrite Hr in Hq. injection Hq as <-. exfalso.
      destruct Hcf as (j & r0 & key & _ & _ & _ & Hk). unfold releases_when_cancelled in Hm.
      change (claimed_key (set_state Cancelled r) = Some key) in Hk. congruence.
Qed.

Lemma rtc_closed id lease d d' : wf d -> rtc db_step d d' -> closed id lease d -> closed id lease d'.
Proof. intros Hwf H. exact (rtc_inv (closed id lease) d d' (fun a b _ Hs => db_step_closed a b id lease Hs) Hwf H). Qed.

Lemma candidate_open_at env k id d r :
  hot d !! id = Some r -> rescue_candidate env k r = true -> open_at id (j_run_lease r) d = true.
Proof.
  intros Hr Hc. unfold open_at. rewrite (lookup_hot _ _ _ Hr), (rescue_candidate_open _ _ _ Hc), Z.eqb_refl. reflexivity.
Qed.

Lemma per_row_closes env k ids d id r :
  wf d -> hot d !! id = Some r -> rescue_candidate env k r = true -> releases_when_cancelled r -> id ∈ ids ->
  closed id (j_run_lease r) (rescue_canonical_per_row env k ids d).2.
Proof.
  intros Hwf Hr Hc Hm Hin. revert d Hwf Hr. induction Hin as [id ids|id id' ids Hin IH]; intros d Hwf Hr; simpl.
  - pose proof (per_row_step_refines env k id d Hwf) as [Hwf1 Hrtc1].
    pose proof (per_row_step_closes env k id d r Hwf Hr Hc Hm) as Hcl.
    pose proof (closes_for_good _ _ _ _ Hwf Hrtc1 (candidate_open_at _ _ _ _ _ Hr Hc) Hcl) as Hcd.
    destruct (rescue_per_row_step env k id d) as [rs d1]. simpl in *.
    pose proof (per_row_refines env k ids d1 Hwf1) as Hp.
    destruct (rescue_canonical_per_row env k ids d1) as [rest d2]. apply (rtc_closed _ _ d1); tauto.
  - pose proof (per_row_step_refines env k id' d Hwf) as [Hwf1 Hrtc1].
    destruct (decide (id = id')) as [<-|Hne].
    + pose proof (per_row_step_closes env k id d r Hwf Hr Hc Hm) as Hcl.
      pose proof (closes_for_good _ _ _ _ Hwf Hrtc1 (candidate_open_at _ _ _ _ _ Hr Hc) Hcl) as Hcd.
      destruct (rescue_per_row_step env k id d) as [rs d1]. simpl in *.
      pose proof (per_row_refines env k ids d1 Hwf1) as Hp.
      destruct (rescue_canonical_per_row env k ids d1) as [rest d2]. apply (rtc_closed _ _ d1); tauto.
    + pose proof (per_row_step_frame env k id' d id Hwf Hne) as Hfr.
      destruct (rescue_per_row_step env k id' d) as [rs d1]. simpl in *. rewrite (lookup_hot _ _ _ Hr) in Hfr.
      pose proof (lookup_table _ _ _ Hwf1 Hfr) as Ht.
      replace (in_scheduled (j_state r)) with false in Ht
        by (symmetry; apply (wf_hot _ Hwf _ _ Hr)).
      specialize (IH d1 Hwf1 (proj1 Ht)). destruct (rescue_canonical_per_row env k ids d1). exact IH.
Qed.

(** A batch that commits writes the rescued row of each candidate. *)
Lemma rescue_batch_rows env k scan d r rs d' :
  wf d -> r ∈ rescue_candidates env k scan d -> rescue_batch env k scan d = Ok (rs, d') ->
  lookup_job (j_id r) d' = Some (rescued_row env k r).
Proof.
  intros Hwf Hr H. destruct (rescue_split_spec env k scan d Hwf) as [Hnd Hl].
  destruct (scanned_hot d (rescue_candidate env k) scan RESCUE_LIMIT Hwf) as [_ Hin].
  unfold rescue_batch in H. cbv zeta in H.
  pose proof (fold_rows_spec (rescue_step env k) (rescued_row env k) (fun r => Some (rescued_row env k r)) _ d Hwf Hnd) as Hs.
  rewrite H in Hs. destruct Hs as (_ & _ & _ & Hv & _); [| |apply Hv, Hl, Hr].
  - intros q Hq%Hl. apply lookup_hot, Hin, Hq.
  - intros q a Hq%Hl Ha Hlk. destruct (Hin q Hq) as [_ Hc]. unfold rescue_step.
    pose proof (rescue_one_spec env k q a Ha Hlk (rescue_candidate_open _ _ _ Hc)) as H1.
    destruct (rescue_one env k q a) as [[q' b]|e]; cbn [rbind]; [|apply H1]. destruct H1 as (-> & Hrep & _). auto.
Qed.
