(* ===== verification/Guarantees.v ===== *)
(** The guarantees of the canonical plane, for every interleaving of workers,
    maintenance and admin calls, with concrete runs that exercise them. *)

From S2P Require Import Prelude.
From S2P Require Import Error.
From S2P Require Import Json.
From S2P Require Import Job.
From S2P Require Import Canonical.
From S2P Require Import CanonicalFacts.
From S2P Require Import Lifecycle.
From S2P Require Import Executor.
From S2P Require Import ExecutorFacts.
From S2P Require Import Finish.
From S2P Require Import System.
From S2P Require Import Rescue.

(** * A concrete installation *)

Module Demo.
Definition env_at (t : Z) : Env := mkEnv t t JNull "1970-01-01T00:00:00+00:00" (fun _ _ => us_per_sec).
Definition blake3 (l : list Z) : list Z := l.
Definition to_vec (v : json) : list Z := [123; 125].
Definition no_specs (o : Outcome) (kind : string) : list EnqueueSpec := [].
Definition debug_duration (d : Z) : string := "1s".
Definition run := System.run blake3 to_vec None debug_duration no_specs.
Definition exec := System.exec blake3 to_vec None debug_duration no_specs.
Definition states_of := System.states_of blake3 to_vec None debug_duration no_specs.

Definition unique_opts (max_attempts : Z) : InsertOpts :=
  {| o_queue := "default"; o_priority := 2; o_max_attempts := max_attempts; o_run_at := None;
     o_deadline_duration := None; o_metadata := JObject []; o_tags := [];
     o_unique := Some default_unique_opts; o_ordering_key := None |}.

(** One unique job, inserted and claimed. *)
Definition insert_one (t : Z) : Env * op := (env_at t, OpInsert "send_email" (JObject []) (unique_opts 2)).
Definition claim_one (t : Z) : Env * op := (env_at t, OpClaim "default" 10 (300 * us_per_sec) ∅).
Definition finish_one (t lease : Z) (res : HandlerResult) : Env * op :=
  (env_at t, OpFinish 1 lease res [] Direct [] None false).
Definition running : Sys := run [insert_one 0; claim_one 1] empty_sys.

Definition row_of (id : Z) (s : Sys) : JobRow :=
  default (new_row (env_at 0) 0 {| pi_kind := "k"; pi_queue := "q"; pi_args := JNull; pi_state := Available;
    pi_priority := 1; pi_max_attempts := 1; pi_run_at := None; pi_metadata := JNull; pi_tags := [];
    pi_unique_key := None; pi_unique_states := None; pi_ordering_key := None |}) (lookup_job id (db s)).
End Demo.

Lemma demo_inv tr : sys_inv (Demo.run tr empty_sys).
Proof. apply run_inv, empty_inv. Qed.
Lemma demo_wf tr : wf (db (Demo.run tr empty_sys)).
Proof. apply demo_inv. Qed.

(** * Guarantees of every run *)

(** C1. Each attempt of a job, identified by the job id and the run lease its
    claim handed out, is closed at most once along any run of the system:
    whatever the interleaving of repeated or late finalizations, rescues,
    cancellations and callback resolutions, no attempt is finished twice and
    no closed attempt is reopened. *)
Theorem attempt_closes_at_most_once blake3 to_vec ambient debug_duration enqueue_specs tr id lease :
  (closings id lease (states_of blake3 to_vec ambient debug_duration enqueue_specs tr empty_sys) <= 1)%nat.
Proof. apply closings_le_one, empty_inv. Qed.

(** C2. Every reachable database is well formed: each row sits in the table
    its state belongs to and in no other, ids stay below the sequence, and the
    unique-claim table holds exactly the claims of the rows. *)
Theorem reachable_well_formed blake3 to_vec ambient debug_duration enqueue_specs tr :
  wf (db (run blake3 to_vec ambient debug_duration enqueue_specs tr empty_sys)).
Proof. apply run_inv, empty_inv. Qed.

(** C3. At no point of any run do two different jobs hold the same unique key
    in states their masks cover. *)
Theorem unique_key_exclusive blake3 to_vec ambient debug_duration enqueue_specs tr id1 id2 r1 r2 key :
  let d := db (run blake3 to_vec ambient debug_duration enqueue_specs tr empty_sys) in
  lookup_job id1 d = Some r1 -> lookup_job id2 d = Some r2 ->
  claimed_key r1 = Some key -> claimed_key r2 = Some key -> id1 = id2.
Proof.
  intros d H1 H2 K1 K2. pose proof (wf_claims _ (proj1 (run_inv blake3 to_vec ambient debug_duration enqueue_specs tr _ empty_inv))) as Hc.
  pose proof (proj2 (Hc key id1) ltac:(eauto)) as C1. pose proof (proj2 (Hc key id2) ltac:(eauto)) as C2. congruence.
Qed.

Lemma unique_key_exclusive_witness :
  let d := db (Demo.run [Demo.insert_one 0; Demo.insert_one 1] empty_sys) in
  exists key, claimed_key (Demo.row_of 1 (mkSys d ∅)) = Some key /\ lookup_job 2 d = None
    /\ (lookup_job 1 d = Some (Demo.row_of 1 (mkSys d ∅)) -> 1 = 1).
Proof.
  intros d. eexists. split; [vm_compute; reflexivity|]. split; [vm_compute; reflexivity|]. intros H.
  eapply (unique_key_exclusive Demo.blake3 Demo.to_vec None Demo.debug_duration Demo.no_specs
    [Demo.insert_one 0; Demo.insert_one 1] 1 1 _ _ _ H H); vm_compute; reflexivity.
Defined.

(** C4. The attempt counter stays within its budget along every run: it is
    never negative, a job waiting to run has budget left, and an open attempt
    is one of [1 .. max_attempts]. *)
Theorem attempts_within_budget blake3 to_vec ambient debug_duration enqueue_specs tr id r :
  lookup_job id (db (run blake3 to_vec ambient debug_duration enqueue_specs tr empty_sys)) = Some r ->
  0 <= j_attempt r <= j_max_attempts r
  /\ (is_open (j_state r) = true -> 1 <= j_attempt r)
  /\ (j_state r = Available \/ in_scheduled (j_state r) = true -> j_attempt r < j_max_attempts r).
Proof.
  intros H. destruct (run_inv blake3 to_vec ambient debug_duration enqueue_specs tr _ empty_inv) as (_ & Hok & _).
  destruct (Hok id r H) as (Hm & Ha & _ & Hs). destruct (j_state r); simpl;
    (split; [lia|]; split; [intros; try discriminate; lia|]; intros [?|?]; try discriminate; lia).
Qed.

Lemma attempts_within_budget_witness :
  0 <= j_attempt (Demo.row_of 1 Demo.running) <= 2 /\ (j_state (Demo.row_of 1 Demo.running) = Running).
Proof.
  split; [|vm_compute; reflexivity].
  apply (attempts_within_budget Demo.blake3 Demo.to_vec None Demo.debug_duration Demo.no_specs
    [Demo.insert_one 0; Demo.claim_one 1] 1 (Demo.row_of 1 Demo.running)). vm_compute. reflexivity.
Defined.

(** C5. Every operation, from every reachable state, is a finite run of the
    abstract lifecycle machine: whatever the code does to the tables is a
    sequence of legal job transitions, inserts and retention deletes. *)
Theorem operations_refine_lifecycle blake3 to_vec ambient debug_duration enqueue_specs tr env o :
  let s := run blake3 to_vec ambient debug_duration enqueue_specs tr empty_sys in
  rtc db_step (db s) (db (exec blake3 to_vec ambient debug_duration enqueue_specs env o s)).
Proof. intros s. apply exec_reaches, run_inv, empty_inv. Qed.

(** * Finalization *)

(** C6. Finishing a live attempt: when the row still runs under the worker's
    lease and the finalization commits, the outcome is applied and the row is
    in the state the handler's result means (with the retry budget deciding
    between retry and failure), keeps its lease, hands the attempt back
    exactly on a snooze, and is stamped when terminal. This holds for both
    completion paths, whatever else the batch carries, and for every set of
    follow-ups. *)
Theorem finish_lands blake3 to_vec ambient debug_duration enqueue_specs next_id insert_migrated
    env job res staged path batch progress duration needs_event d r out d' :
  wf d -> hot d !! j_id job = Some r -> running_lease (j_run_lease job) r = true ->
  complete_job_canonical blake3 to_vec ambient debug_duration enqueue_specs false next_id insert_migrated
    env job res staged path batch progress duration needs_event d = Ok (out, d') ->
  is_applied out /\ exists q, lookup_job (j_id job) d' = Some q /\ settled env job res r q.
Proof.
  intros Hwf Hr Hrun H. destruct (finish_applied blake3 to_vec ambient debug_duration enqueue_specs next_id
    insert_migrated env job d r Hwf Hr Hrun _ _ _ _ _ _ _ _ _ H) as [Ha [_ Hq]]. auto.
Qed.

(** The demo job after its only retryable failure with budget left. *)
Definition demo_retry :=
  complete_job_canonical Demo.blake3 Demo.to_vec None Demo.debug_duration Demo.no_specs false 0 (fun r _ d => Ok (r, d))
    (Demo.env_at 5) (Demo.row_of 1 Demo.running) (Err (JRetryable "boom")) [] Batched [(7, 1)] None 0 true (db Demo.running).

Lemma finish_lands_witness :
  match demo_retry with
  | Ok (out, d') => is_applied out /\ exists q, lookup_job 1 d' = Some q
      /\ settled (Demo.env_at 5) (Demo.row_of 1 Demo.running) (Err (JRetryable "boom")) (Demo.row_of 1 Demo.running) q
  | Err _ => False
  end.
Proof.
  destruct demo_retry as [[out d']|e] eqn:H; [|vm_compute in H; discriminate].
  refine (finish_lands Demo.blake3 Demo.to_vec None Demo.debug_duration Demo.no_specs 0 (fun r _ d => Ok (r, d))
    (Demo.env_at 5) (Demo.row_of 1 Demo.running) (Err (JRetryable "boom")) [] Batched [(7, 1)] None 0 true
    (db Demo.running) (Demo.row_of 1 Demo.running) out d' _ _ _ H).
  - apply (demo_wf [Demo.insert_one 0; Demo.claim_one 1]).
  - vm_compute. reflexivity.
  - vm_compute. reflexivity.
Defined.

(** C7. Finishing a stale attempt changes nothing of its own.  In a well-formed
    canonical database, when no running row carries the worker's lease (the job
    was rescued, cancelled, claimed again or deleted), finalization succeeds,
    whatever the result and the follow-ups, and reports the attempt as stale; the
    one exception is a [WaitForCallback] on a job that is already terminal,
    reported as an applied early completion.  The database stays as it was, or,
    for a completion flushed in a batch, is what the rest of the batch makes of
    it ([rest_of_batch]): the stale request neither fails nor changes it. *)
Theorem stale_finish_is_noop blake3 to_vec ambient debug_duration enqueue_specs next_id insert_migrated
    env job res staged path batch progress duration needs_event d :
  wf d -> (forall r, hot d !! j_id job = Some r -> running_lease (j_run_lease job) r = false) ->
  complete_job_canonical blake3 to_vec ambient debug_duration enqueue_specs false next_id insert_migrated
    env job res staged path batch progress duration needs_event d
  = Ok (stale_outcome job res d, rest_of_batch env (enqueue_specs OCompleted (j_kind job)) staged res path batch d).
Proof. intros Hwf Hst. apply stale_finish; assumption. Qed.

(** The demo job rescued behind the worker's back, then finished by it. *)
Definition demo_rescued : Sys :=
  Demo.run [Demo.insert_one 0; Demo.claim_one 1;
            (Demo.env_at (100 * us_per_sec), OpRescue (StaleHeartbeat 90000) [1] [1])] empty_sys.

Lemma stale_finish_is_noop_witness :
  lookup_job 1 (db demo_rescued) <> None /\
  complete_job_canonical Demo.blake3 Demo.to_vec None Demo.debug_duration Demo.no_specs false 0 (fun r _ d => Ok (r, d))
    (Demo.env_at 5) (Demo.row_of 1 Demo.running) (Ok JCompleted) [] Batched [(7, 1)] None 0 true (db demo_rescued)
  = Ok (IgnoredStale, db demo_rescued).
Proof.
  split; [vm_compute; discriminate|].
  etransitivity.
  - refine (stale_finish_is_noop Demo.blake3 Demo.to_vec None Demo.debug_duration Demo.no_specs 0 (fun r _ d => Ok (r, d))
      (Demo.env_at 5) (Demo.row_of 1 Demo.running) (Ok JCompleted) [] Batched [(7, 1)] None 0 true (db demo_rescued) _ _).
    + apply demo_wf.
    + intros r H. vm_compute in H. discriminate.
  - vm_compute. reflexivity.
Defined.

(** A finalization whose acknowledgement was lost can be retried: once a
    live attempt's finalization committed, running it again (with any result,
    at any later time, before anything else happens) changes nothing, so no
    follow-up is enqueued twice. *)
Theorem replayed_finish_is_noop blake3 to_vec ambient debug_duration enqueue_specs next_id insert_migrated
    env job res staged path batch progress duration needs_event d r out d' env' res' batch' needs_event' :
  wf d -> hot d !! j_id job = Some r -> running_lease (j_run_lease job) r = true ->
  complete_job_canonical blake3 to_vec ambient debug_duration enqueue_specs false next_id insert_migrated
    env job res staged path batch progress duration needs_event d = Ok (out, d') ->
  complete_job_canonical blake3 to_vec ambient debug_duration enqueue_specs false next_id insert_migrated
    env' job res' staged Direct batch' progress duration needs_event' d' = Ok (stale_outcome job res' d', d').
Proof.
  intros Hwf Hr Hrun H. destruct (finish_applied blake3 to_vec ambient debug_duration enqueue_specs next_id
    insert_migrated env job d r Hwf Hr Hrun _ _ _ _ _ _ _ _ _ H) as [_ (Hwf' & q & Hq & Hst & _)].
  rewrite stale_finish; [by destruct res' as [[]|], (enqueue_specs OCompleted (j_kind job)), staged| |exact Hwf']. intros x Hx. rewrite (lookup_hot _ _ _ Hx) in Hq. injection Hq as ->.
  unfold running_lease, state_is. rewrite Hst.
  destruct res as [[| | | |]|[|]]; simpl; try reflexivity; try (destruct (_ <=? _); reflexivity).
  destruct (registered r); reflexivity.
Qed.

Lemma replayed_finish_is_noop_witness :
  match demo_retry with
  | Ok (out, d') =>
      complete_job_canonical Demo.blake3 Demo.to_vec None Demo.debug_duration Demo.no_specs false 0 (fun r _ d => Ok (r, d))
        (Demo.env_at 6) (Demo.row_of 1 Demo.running) (Err (JRetryable "boom")) [] Direct [] None 0 true d'
      = Ok (IgnoredStale, d')
  | Err _ => False
  end.
Proof.
  destruct demo_retry as [[out d']|e] eqn:H; [|vm_compute in H; discriminate].
  refine (replayed_finish_is_noop Demo.blake3 Demo.to_vec None Demo.debug_duration Demo.no_specs 0 (fun r _ d => Ok (r, d))
    (Demo.env_at 5) (Demo.row_of 1 Demo.running) (Err (JRetryable "boom")) [] Batched [(7, 1)] None 0 true
    (db Demo.running) (Demo.row_of 1 Demo.running) out d' (Demo.env_at 6) (Err (JRetryable "boom")) [] true _ _ _ H).
  - apply (demo_wf [Demo.insert_one 0; Demo.claim_one 1]).
  - vm_compute. reflexivity.
  - vm_compute. reflexivity.
Defined.

(** * Claiming *)

Lemma claim_le_trans : Transitive claim_le.
Proof. intros a b c. unfold claim_le. lia. Qed.
Lemma claim_le_total : Total claim_le.
Proof. intros a b. unfold claim_le. lia. Qed.

Lemma take_smallest (le : JobRow -> JobRow -> Prop) (l : list JobRow) n x y :
  StronglySorted le l -> x ∈ take n l -> y ∈ l -> y ∉ take n l -> le x y /\ length (take n l) = n.
Proof.
  intros Hs Hx Hy Hny. rewrite <- (take_drop n l) in Hs, Hy. apply elem_of_app in Hy as [Hy|Hy]; [contradiction|].
  split; [eapply StronglySorted_app_1_elem_of; eassumption|]. rewrite length_take.
  destruct (Nat.le_gt_cases (length l) n) as [Hl|Hl]; [|lia]. rewrite drop_ge in Hy by exact Hl. inversion Hy.
Qed.



(** * Inserting *)

(** C9. Inserting a valid prepared job: it is stored under a fresh id exactly
    as prepared and leaves every other row alone, unless another job holds its
    unique key in a state its mask covers; then the insert reports a unique
    conflict on the job-key constraint. A keyless job always goes in. *)
Theorem insert_stores_or_conflicts env p d :
  wf d -> insert_valid p = true ->
  match insert_prepared env p d with
  | Ok (r, d') =>
      r = new_row env (jobs_id_seq d) p /\ lookup_job (j_id r) d' = Some r
      /\ lookup_job (j_id r) d = None /\ (forall j, j <> j_id r -> lookup_job j d' = lookup_job j d)
  | Err e =>
      e = UniqueConflict (Some JOB_UNIQUE_KEY_CONSTRAINT)
      /\ exists j q key, lookup_job j d = Some q /\ claimed_key q = Some key /\ pi_unique_key p = Some key
  end.
Proof.
  intros Hwf Hv. pose proof (insert_job_compat_spec env p d Hwf Hv) as H. unfold insert_prepared.
  destruct (insert_job_compat env p d) as [[r d']|e].
  - destruct H as (-> & Hrep & _). split; [reflexivity|].
    rewrite (rep_rows _ _ _ _ Hrep), upd_eq. split; [reflexivity|]. split.
    + destruct (lookup_job _ d) as [q|] eqn:Hq; [|reflexivity]. pose proof (wf_seq _ Hwf _ _ Hq) as Hlt. simpl in Hlt. lia.
    + intros j Hj. rewrite (rep_rows _ _ _ _ Hrep). apply upd_ne, Hj.
  - destruct H as (-> & j & q & key & _ & Hq & Hk & Hk'). split; [reflexivity|]. exists j, q, key.
    split; [exact Hq|]. split; [exact Hk|]. unfold claimed_key in Hk'. simpl in Hk'.
    destruct (pi_unique_key p); [|discriminate]. destruct (pi_unique_states p); [|discriminate].
    destruct (job_state_in_bitmask _ _); congruence.
Qed.

Definition demo_prepared : PreparedJobInsert :=
  match prepare_raw_job_insert Demo.blake3 Demo.to_vec None "send_email" (JObject []) (Demo.unique_opts 2) with
  | Ok p => p
  | Err _ => {| pi_kind := "k"; pi_queue := "q"; pi_args := JNull; pi_state := Available; pi_priority := 1;
                pi_max_attempts := 1; pi_run_at := None; pi_metadata := JNull; pi_tags := []; pi_unique_key := None;
                pi_unique_states := None; pi_ordering_key := None |}
  end.

Lemma insert_stores_or_conflicts_witness :
  match insert_prepared (Demo.env_at 3) demo_prepared (db Demo.running) with
  | Ok _ => False
  | Err e => e = UniqueConflict (Some JOB_UNIQUE_KEY_CONSTRAINT)
  end.
Proof.
  pose proof (insert_stores_or_conflicts (Demo.env_at 3) demo_prepared (db Demo.running)
    (demo_wf [Demo.insert_one 0; Demo.claim_one 1]) ltac:(vm_compute; reflexivity)) as H.
  destruct (insert_prepared _ _ _) as [[r d']|e] eqn:He; [vm_compute in He; discriminate|]. apply H.
Defined.

(** * Rescue *)

(** C10. A rescue pass always succeeds and closes every attempt its scans pick
    up: an abandoned row whose mask does not cover [cancelled] is never left
    open, even when other rows of the batch, or the row itself, lost their
    unique key to a newer job. *)
Theorem rescue_closes_attempts env k scan rescan d r :
  wf d -> r ∈ rescue_candidates env k scan d -> r ∈ rescue_candidates env k rescan d ->
  releases_when_cancelled r ->
  exists rs d', rescue_canonical env k scan rescan d = Ok (rs, d') /\ closed (j_id r) (j_run_lease r) d'.
Proof.
  intros Hwf Hs Hrs Hm. destruct (scanned_hot d (rescue_candidate env k) scan RESCUE_LIMIT Hwf) as [_ Hin].
  destruct (Hin r Hs) as [Hr Hc]. clear Hin. unfold rescue_canonical.
  pose proof (rescue_batch_refines env k scan d Hwf) as Hb. pose proof (fun rs d' => rescue_batch_rows env k scan d r rs d' Hwf Hs) as Hrow.
  destruct (rescue_batch env k scan d) as [[rs d']|e].
  - exists rs, d'. split; [reflexivity|]. destruct Hb as [_ Hrtc].
    apply (closes_for_good d d'); [exact Hwf|exact Hrtc|eapply candidate_open_at; eassumption|].
    unfold open_at. rewrite (Hrow _ _ eq_refl), rescued_row_closed. reflexivity.
  - simpl in Hb. subst e. change (is_unique_claim_conflict unique_violation) with true. cbv iota.
    eexists _, _. split; [apply f_equal, surjective_pairing|].
    apply (per_row_closes env k); try assumption. apply list_elem_of_In, in_map, list_elem_of_In, Hrs.
Qed.

Lemma rescue_closes_attempts_witness :
  exists rs d', rescue_canonical (Demo.env_at (100 * us_per_sec)) (StaleHeartbeat 90000) [1] [1] (db Demo.running) = Ok (rs, d')
    /\ closed 1 1 d'.
Proof.
  apply (rescue_closes_attempts (Demo.env_at (100 * us_per_sec)) (StaleHeartbeat 90000) [1] [1] (db Demo.running)
    (Demo.row_of 1 Demo.running)).
  - apply (demo_wf [Demo.insert_one 0; Demo.claim_one 1]).
  - vm_compute. left.
  - vm_compute. left.
  - vm_compute. reflexivity.
Defined.

(** * Where unique masks bite *)

(** A job keyed by its kind and args, claiming the states of [mask]. *)
Definition masked_insert (t mask : Z) (run_at : option Z) : Env * op :=
  (Demo.env_at t, OpInsert "send_email" (JObject [])
    {| o_queue := "default"; o_priority := 2; o_max_attempts := 2; o_run_at := run_at; o_deadline_duration := None;
       o_metadata := JObject []; o_tags := [];
       o_unique := Some {| by_queue := false; by_args := true; by_period := None; states := mask |};
       o_ordering_key := None |}).
Definition plain_insert (t run_at : Z) : Env * op :=
  (Demo.env_at t, OpInsert "other" (JObject [])
    {| o_queue := "default"; o_priority := 2; o_max_attempts := 2; o_run_at := Some run_at; o_deadline_duration := None;
       o_metadata := JObject []; o_tags := []; o_unique := None; o_ordering_key := None |}).

(** Under the default unique mask a job that waits for a callback holds no
    claim on its key: there is a run in which a second job with the same key is
    accepted meanwhile, and from then on the callback can neither complete the
    first job nor resume it; both calls fail on the key and leave it parked. *)
Theorem parked_job_loses_unique_key :
  exists tr, let d := db (Demo.run tr empty_sys) in
    (exists r q key, lookup_job 1 d = Some r /\ j_state r = WaitingExternal /\ j_unique_key r = Some key
       /\ lookup_job 2 d = Some q /\ claimed_key q = Some key)
    /\ forall lease, lease = None \/ lease = Some 1 ->
         complete_external (Demo.env_at 9) 7 None lease false d = Err unique_violation
         /\ complete_external (Demo.env_at 9) 7 None lease true d = Err unique_violation.
Proof.
  exists [masked_insert 0 (states default_unique_opts) None; Demo.claim_one 1;
          (Demo.env_at 2, OpRegisterCallback 1 1 7 (60 * us_per_sec)); Demo.finish_one 3 1 (Ok JWaitForCallback);
          masked_insert 4 (states default_unique_opts) None].
  split; [do 3 eexists; vm_compute; split_and!; reflexivity|].
  intros lease [->| ->]; vm_compute; split; reflexivity.
Qed.

(** Promotion has no row-at-a-time fallback: there is a run after which a
    due job without any unique key could be promoted, yet every promotion tick
    fails as a whole and changes nothing, because another due row of the batch
    lost its key to a newer job. *)
Theorem promotion_blocked_by_conflict :
  exists tr, let s := Demo.run tr empty_sys in
    (exists r, lookup_job 3 (db s) = Some r /\ j_unique_key r = None /\ is_due (Demo.env_at 50) Scheduled ∅ r = true)
    /\ (exists rows d', promote_due_batch (Demo.env_at 50) Scheduled PROMOTE_BATCH_SIZE {[1]} (db s) = Ok (rows, d')
          /\ map j_id rows = [3])
    /\ promote_due_batch (Demo.env_at 50) Scheduled PROMOTE_BATCH_SIZE ∅ (db s) = Err unique_violation
    /\ Demo.exec (Demo.env_at 50) (OpPromote Scheduled ∅) s = s.
Proof.
  exists [masked_insert 0 (Z.shiftl 1 (bit_position Available)) (Some 10);
          masked_insert 1 (Z.shiftl 1 (bit_position Available)) None; plain_insert 2 20].
  split_and!; [eexists; vm_compute; split_and!; reflexivity| |vm_compute; reflexivity|vm_compute; reflexivity].
  eexists _, _. split; [vm_compute; reflexivity|reflexivity].
Qed.
