(* ===== verification/Batch.v ===== *)
(** Batch operations (awa-model/src/batch_operations.rs, migration v029): an
    administrator submits a change of priority or queue for all waiting jobs a
    filter matches, and a runner carries it out in chunks.

    The tables are [awa.batch_operations] and [awa.batch_operation_items].  The
    runner works through one operation at a time, under an advisory lock, as a
    sequence of transactions; each is one step of [runner_step], so that
    submissions, cancellations, purges and everything else that happens to the
    jobs may come between any two.  What the runner does to jobs it does through
    [JobEngine], which both storage engines implement. *)

From stdpp Require Import pretty.
From S2P Require Import Prelude.
From S2P Require Import Error.
From S2P Require Import Json.
From S2P Require Import Job.

(** * Operations *)

(** A UUID, as its text. *)
Abbreviation uuid := string (only parsing).

Inductive BatchOperationKind : Type := SetPriorityKind | MoveQueueKind.
Definition kind_as_str (k : BatchOperationKind) : string :=
  match k with SetPriorityKind => "set_priority" | MoveQueueKind => "move_queue" end.
Definition kind_try_from (s : string) : result AwaError BatchOperationKind :=
  if String.eqb s "set_priority" then Ok SetPriorityKind
  else if String.eqb s "move_queue" then Ok MoveQueueKind
  else Err (Validation ("unknown batch operation kind: " +:+ s)).

Inductive BatchOperationState : Type :=
  | OpPending
  | OpScanning
  | OpRunning
  | OpCancelling
  | OpCompleted
  | OpCancelled
  | OpFailed.
#[global] Instance BatchOperationState_eq_dec : EqDecision BatchOperationState.
Proof. solve_decision. Defined.

Definition op_state_as_str (s : BatchOperationState) : string :=
  match s with
  | OpPending => "pending"
  | OpScanning => "scanning"
  | OpRunning => "running"
  | OpCancelling => "cancelling"
  | OpCompleted => "completed"
  | OpCancelled => "cancelled"
  | OpFailed => "failed"
  end.
Definition op_state_try_from (s : string) : result AwaError BatchOperationState :=
  if String.eqb s "pending" then Ok OpPending
  else if String.eqb s "scanning" then Ok OpScanning
  else if String.eqb s "running" then Ok OpRunning
  else if String.eqb s "cancelling" then Ok OpCancelling
  else if String.eqb s "completed" then Ok OpCompleted
  else if String.eqb s "cancelled" then Ok OpCancelled
  else if String.eqb s "failed" then Ok OpFailed
  else Err (Validation ("unknown batch operation state: " +:+ s)).
(** [state IN ('completed', 'cancelled', 'failed')]. *)
Definition op_final (s : BatchOperationState) : bool :=
  match s with OpCompleted | OpCancelled | OpFailed => true | _ => false end.

Record BatchOperationFilter : Type := mkBatchFilter {
  bf_kind : option string;
  bf_queue : option string;
  bf_ids : option (list Z);
  bf_tag : option string;
  bf_state : option JobState;
  bf_created_at_gte : option time;
  bf_created_at_lt : option time
}.
Definition no_filter : BatchOperationFilter := mkBatchFilter None None None None None None None.
Definition is_none {A} (x : option A) : bool := match x with None => true | Some _ => false end.
Definition filter_is_empty (f : BatchOperationFilter) : bool :=
  is_none (bf_kind f) && is_none (bf_queue f)
  && match bf_ids f with None | Some [] => true | Some _ => false end
  && is_none (bf_tag f) && is_none (bf_state f) && is_none (bf_created_at_gte f) && is_none (bf_created_at_lt f).

Inductive BatchOperationSpec : Type :=
  | SetPriority (priority : Z)
  | MoveQueue (queue : string) (priority : option Z).
Definition spec_kind (s : BatchOperationSpec) : BatchOperationKind :=
  match s with SetPriority _ => SetPriorityKind | MoveQueue _ _ => MoveQueueKind end.

Definition validate_priority (priority : Z) : result AwaError unit :=
  if (1 <=? priority) && (priority <=? 4) then Ok tt else Err (Validation "priority must be between 1 and 4").
(** [queue.len()] counts bytes. *)
Definition validate_spec (s : BatchOperationSpec) : result AwaError unit :=
  match s with
  | SetPriority priority => validate_priority priority
  | MoveQueue queue priority =>
      if (String.length queue =? 0)%nat || (200 <? String.length queue)%nat
      then Err (Validation "destination queue must be 1..=200 characters")
      else match priority with Some p => validate_priority p | None => Ok tt end
  end.
Definition validate_filter_for_spec (s : BatchOperationSpec) (f : BatchOperationFilter) : result AwaError unit :=
  match bf_state f with
  | Some Scheduled | Some Available | None => Ok tt
  | Some _ => Err (Validation (kind_as_str (spec_kind s) +:+ " only supports available or scheduled state filters"))
  end.

Record BatchOperationCursor : Type := mkBatchCursor { bc_after_job_id : Z; bc_max_job_id : Z }.
Record BatchOperation : Type := mkBatchOperation {
  bo_id : uuid;
  bo_op_kind : BatchOperationKind;
  bo_filter : BatchOperationFilter;
  bo_spec : BatchOperationSpec;
  bo_state : BatchOperationState;
  bo_submitted_by : option string;
  bo_submitted_at : time;
  bo_started_at : option time;
  bo_finalized_at : option time;
  bo_cursor : option BatchOperationCursor;
  bo_total_matched : option Z;
  bo_processed : Z;
  bo_skipped : Z;
  bo_errored : Z;
  bo_last_error : option string;
  bo_runner_instance : option uuid;
  bo_retention_until : option time;
  bo_updated_at : time
}.

Inductive ItemState : Type := ItemPending | ItemProcessed | ItemSkipped | ItemErrored.
#[global] Instance ItemState_eq_dec : EqDecision ItemState.
Proof. solve_decision. Defined.
Record BatchItem : Type := mkBatchItem { bi_state : ItemState; bi_error : option string; bi_processed_at : option time }.

(** The two tables, by their primary keys. *)
Record Batches : Type := mkBatches {
  operations : gmap uuid BatchOperation;
  items : gmap (uuid * Z) BatchItem
}.
Definition set_operations (o : gmap uuid BatchOperation) (b : Batches) : Batches := mkBatches o (items b).
Definition set_items (i : gmap (uuid * Z) BatchItem) (b : Batches) : Batches := mkBatches (operations b) i.
(** [UPDATE awa.batch_operations SET f WHERE id = id]. *)
Definition update_operation (id : uuid) (f : BatchOperation -> BatchOperation) (b : Batches) : Batches :=
  set_operations (alter f id (operations b)) b.

(** * Requests *)

Record SubmitBatchOperation : Type := mkSubmit {
  sb_spec : BatchOperationSpec;
  sb_filter : BatchOperationFilter;
  sb_submitted_by : option string;
  sb_allow_all : bool
}.
(** Text that Postgres refuses to store: the filter and the spec are JSONB. *)
Definition JSONB_NUL : AwaError := Database (SqlxDatabase (Some "22P05") None).
Definition TEXT_NUL : AwaError := Database (SqlxDatabase (Some "22021") None).
Definition opt_texts (l : list (option string)) : list string := omap id l.
Definition request_texts (r : SubmitBatchOperation) : list string :=
  match sb_spec r with SetPriority _ => [] | MoveQueue queue _ => [queue] end
  ++ opt_texts [bf_kind (sb_filter r); bf_queue (sb_filter r); bf_tag (sb_filter r)].
Definition OP_PKEY : AwaError := UniqueConflict (Some "batch_operations_pkey").
(** [id] is the [Uuid::new_v4()]. *)
Definition submit_batch_operation (now : time) (id : uuid) (r : SubmitBatchOperation) (b : Batches)
    : result AwaError (BatchOperation * Batches) :=
  check? validate_spec (sb_spec r);
  check? validate_filter_for_spec (sb_spec r) (sb_filter r);
  if filter_is_empty (sb_filter r) && negb (sb_allow_all r)
  then Err (Validation "batch operation requires a filter or allow_all=true")
  else if existsb (contains_char nul) (request_texts r) then Err JSONB_NUL
  else if existsb (contains_char nul) (opt_texts [sb_submitted_by r]) then Err TEXT_NUL
  else
    let op := mkBatchOperation id (spec_kind (sb_spec r)) (sb_filter r) (sb_spec r) OpPending (sb_submitted_by r) now
                None None None None 0 0 0 None None None now in
    match operations b !! id with
    | Some _ => Err OP_PKEY
    | None => Ok (op, set_operations (<[id := op]> (operations b)) b)
    end.

Definition op_with_state (now : time) (st : BatchOperationState) (o : BatchOperation) : BatchOperation :=
  mkBatchOperation (bo_id o) (bo_op_kind o) (bo_filter o) (bo_spec o) st (bo_submitted_by o) (bo_submitted_at o)
    (bo_started_at o) (bo_finalized_at o) (bo_cursor o) (bo_total_matched o) (bo_processed o) (bo_skipped o)
    (bo_errored o) (bo_last_error o) (bo_runner_instance o) (bo_retention_until o) now.
Definition CANNOT_BE_CANCELLED (id : uuid) : AwaError := Validation ("batch operation cannot be cancelled: " +:+ id).
Definition request_batch_operation_cancellation (now : time) (id : uuid) (b : Batches)
    : result AwaError (BatchOperation * Batches) :=
  match operations b !! id with
  | Some o =>
      match bo_state o with
      | OpPending | OpScanning | OpRunning =>
          let o := op_with_state now OpCancelling o in
          Ok (o, set_operations (<[id := o]> (operations b)) b)
      | _ => Err (CANNOT_BE_CANCELLED id)
      end
  | None => Err (CANNOT_BE_CANCELLED id)
  end.

Definition get_batch_operation (id : uuid) (b : Batches) : result AwaError BatchOperation :=
  match operations b !! id with
  | Some o => Ok o
  | None => Err (Validation ("batch operation not found: " +:+ id))
  end.

(** Listings by submission, the latest first. *)
Definition clamp (lo hi x : Z) : Z := Z.max lo (Z.min hi x).
Definition submitted_ge (a b : BatchOperation) : Prop := bo_submitted_at b <= bo_submitted_at a.
#[global] Instance submitted_ge_dec : RelDecision submitted_ge := fun a b => Z_le_dec _ _.
Definition all_operations (b : Batches) : list BatchOperation := map snd (map_to_list (operations b)).
Definition list_batch_operations (state : option BatchOperationState) (limit : option Z) (b : Batches)
    : list BatchOperation :=
  take (Z.to_nat (clamp 1 1000 (default 100 limit)))
    (merge_sort submitted_ge
       (List.filter (fun o => match state with Some s => bool_decide (bo_state o = s) | None => true end) (all_operations b))).

(** Deleting operations; their items go with them ([ON DELETE CASCADE]). *)
Definition delete_operations (ids : list uuid) (b : Batches) : Batches :=
  mkBatches (filter (fun kv => kv.1 ∉ ids) (operations b)) (filter (fun kv => kv.1.1 ∉ ids) (items b)).
Definition before_opt (t : option time) (now : time) : bool := match t with Some t => t <? now | None => false end.
Definition time_le (key : BatchOperation -> option time) (a b : BatchOperation) : Prop := default 0 (key a) <= default 0 (key b).
#[global] Instance time_le_dec key : RelDecision (time_le key) := fun a b => Z_le_dec _ _.
(** The final operations whose [key] is before [cutoff], the oldest [limit]. *)
Definition expired_operations (key : BatchOperation -> option time) (cutoff : time) (limit : Z) (b : Batches) : list uuid :=
  map bo_id
    (take (Z.to_nat (Z.max limit 1))
       (merge_sort (time_le key)
          (List.filter (fun o => before_opt (key o) cutoff && op_final (bo_state o)) (all_operations b)))).
Definition cleanup_expired_batch_operations (now : time) (limit : Z) (b : Batches) : nat * Batches :=
  let ids := expired_operations bo_retention_until now limit b in
  (length ids, delete_operations ids b).
Definition purge_batch_operations_before (before : time) (limit : Z) (b : Batches) : nat * Batches :=
  let ids := expired_operations bo_finalized_at before limit b in
  (length ids, delete_operations ids b).

(** * Jobs an operation can match *)

(** A waiting job as the matching queries read it. *)
Record WaitingJob : Type := mkWaitingJob {
  wj_id : Z;
  wj_kind : string;
  wj_queue : string;
  wj_priority : Z;
  wj_state : JobState;
  wj_tags : list string;
  wj_created_at : time
}.

(** What the runner needs of a storage engine: its waiting jobs, and the change
    of one job in a transaction of its own, with what that reads from outside. *)
Class JobEngine (E J : Type) : Type := {
  waiting_jobs : J -> list WaitingJob;
  apply_to_job : E -> BatchOperationSpec -> Z -> J -> result AwaError (bool * J)
}.

Definition opt_matches {A} (x : option A) (p : A -> bool) : bool := match x with Some a => p a | None => true end.
(** The predicate of every matching query; [after] and [max] bound the id. *)
Definition matches_filter (f : BatchOperationFilter) (after max : option Z) (j : WaitingJob) : bool :=
  opt_matches (bf_state f) (fun s => bool_decide (wj_state j = s))
  && opt_matches (bf_kind f) (String.eqb (wj_kind j))
  && opt_matches (bf_queue f) (String.eqb (wj_queue j))
  && opt_matches (bf_tag f) (fun t => existsb (String.eqb t) (wj_tags j))
  && opt_matches (bf_ids f) (fun ids => existsb (Z.eqb (wj_id j)) ids)
  && opt_matches (bf_created_at_gte f) (fun t => t <=? wj_created_at j)
  && opt_matches (bf_created_at_lt f) (fun t => wj_created_at j <? t)
  && opt_matches after (fun n => n <? wj_id j)
  && opt_matches max (fun n => wj_id j <=? n).

Section Queries.
Context {E J : Type} `{JobEngine E J}.

Definition matching_jobs (f : BatchOperationFilter) (after max : option Z) (s : J) : list WaitingJob :=
  List.filter (matches_filter f after max) (waiting_jobs s).
Definition count_matching_jobs (f : BatchOperationFilter) (after max : option Z) (s : J) : Z :=
  Z.of_nat (length (matching_jobs f after max s)).
(** [max(id)], NULL when nothing matches. *)
Definition max_matching_job_id (f : BatchOperationFilter) (s : J) : option Z :=
  max_of (map wj_id (matching_jobs f None None s)).
Definition load_matching_job_ids (f : BatchOperationFilter) (after max limit : Z) (s : J) : list Z :=
  take (Z.to_nat (Z.max limit 1)) (merge_sort Z.le (map wj_id (matching_jobs f (Some after) (Some max) s))).
End Queries.

(** * The runner's statements *)

Definition DEFAULT_CHUNK_SIZE : Z := 100.
Definition SCAN_PAGE_SIZE : Z := 10000.

(** What a statement of the runner reads from outside the tables. *)
Record BatchEnv : Type := mkBatchEnv {
  be_now : time;                 (** [clock_timestamp()] *)
  be_retention_days : option Z;  (** [AWA_BATCH_OP_RETENTION_DAYS], parsed *)
  be_locked : uuid -> bool;      (** operation rows locked by other transactions *)
  be_display : AwaError -> string; (** [Display] of an error *)
  be_lost : bool                 (** the connection fails before the item's transaction commits *)
}.
Definition default_retention_days (env : BatchEnv) : Z :=
  match be_retention_days env with Some days => if 0 <? days then days else 90 | None => 90 end.
Definition us_per_day : Z := 86400 * us_per_sec.
Definition ROW_NOT_FOUND : AwaError := Database SqlxRowNotFound.

Definition submitted_le (a b : BatchOperation) : Prop := bo_submitted_at a <= bo_submitted_at b.
#[global] Instance submitted_le_dec : RelDecision submitted_le := fun a b => Z_le_dec _ _.
Definition op_active (o : BatchOperation) : bool := negb (op_final (bo_state o)).
Definition claimed_operation (now : time) (runner : uuid) (o : BatchOperation) : BatchOperation :=
  mkBatchOperation (bo_id o) (bo_op_kind o) (bo_filter o) (bo_spec o)
    (match bo_state o with OpPending => OpScanning | st => st end) (bo_submitted_by o) (bo_submitted_at o)
    (match bo_started_at o with Some t => Some t | None => Some now end) (bo_finalized_at o) (bo_cursor o)
    (bo_total_matched o) (bo_processed o) (bo_skipped o) (bo_errored o) (bo_last_error o) (Some runner)
    (bo_retention_until o) now.
Definition claim_next_operation (env : BatchEnv) (runner : uuid) (b : Batches) : option BatchOperation * Batches :=
  match head (merge_sort submitted_le (List.filter (fun o => op_active o && negb (be_locked env (bo_id o))) (all_operations b))) with
  | None => (None, b)
  | Some o =>
      let o := claimed_operation (be_now env) runner o in
      (Some o, set_operations (<[bo_id o := o]> (operations b)) b)
  end.

(** [ON CONFLICT DO NOTHING] over a foreign key: without its operation an item
    is refused. *)
Definition FKEY_VIOLATION : AwaError := Database (SqlxDatabase (Some "23503") (Some "batch_operation_items_operation_id_fkey")).
Definition new_item : BatchItem := mkBatchItem ItemPending None None.
Definition insert_operation_items (id : uuid) (ids : list Z) (b : Batches) : result AwaError Batches :=
  match ids, operations b !! id with
  | [], _ => Ok b
  | _, None => Err FKEY_VIOLATION
  | _, Some _ =>
      Ok (set_items (foldr (fun j m => match m !! (id, j) with Some _ => m | None => <[(id, j) := new_item]> m end) (items b) ids) b)
  end.

Definition pending_items (id : uuid) (b : Batches) : list Z :=
  map (fun kv => kv.1.2) (List.filter (fun kv : uuid * Z * BatchItem => String.eqb kv.1.1 id && bool_decide (bi_state kv.2 = ItemPending))
                            (map_to_list (items b))).
Definition claim_pending_items (id : uuid) (limit : Z) (b : Batches) : list Z :=
  take (Z.to_nat (Z.max limit 1)) (merge_sort Z.le (pending_items id b)).

Definition add_counts (now : time) (processed skipped errored : Z) (error : option string) (o : BatchOperation) : BatchOperation :=
  mkBatchOperation (bo_id o) (bo_op_kind o) (bo_filter o) (bo_spec o) (bo_state o) (bo_submitted_by o) (bo_submitted_at o)
    (bo_started_at o) (bo_finalized_at o) (bo_cursor o) (bo_total_matched o) (bo_processed o + processed)
    (bo_skipped o + skipped) (bo_errored o + errored) (match error with Some e => Some e | None => bo_last_error o end)
    (bo_runner_instance o) (bo_retention_until o) now.
Definition skip_pending_items (env : BatchEnv) (id : uuid) (b : Batches) : result AwaError Batches :=
  match operations b !! id with
  | None => Err ROW_NOT_FOUND
  | Some _ =>
      let skipped := pending_items id b in
      Ok (set_items (foldr (fun j m => alter (fun i => mkBatchItem ItemSkipped (bi_error i) (Some (be_now env))) (id, j) m) (items b) skipped) b
          |> update_operation id (add_counts (be_now env) 0 (Z.of_nat (length skipped)) 0 None))
  end.

Inductive ItemOutcome : Type := Processed | Skipped | Errored (error : string).
Definition outcome_state (o : ItemOutcome) : ItemState :=
  match o with Processed => ItemProcessed | Skipped => ItemSkipped | Errored _ => ItemErrored end.
Definition outcome_error (o : ItemOutcome) : option string := match o with Errored e => Some e | _ => None end.
Definition outcome_counts (o : ItemOutcome) : Z * Z * Z :=
  match o with Processed => (1, 0, 0) | Skipped => (0, 1, 0) | Errored _ => (0, 0, 1) end.
Definition record_item_outcome_tx (now : time) (id : uuid) (job_id : Z) (o : ItemOutcome) (b : Batches) : Batches :=
  let '(processed, skipped, errored) := outcome_counts o in
  set_items
    (match items b !! (id, job_id) with
     | Some i => if bool_decide (bi_state i = ItemPending)
                 then <[(id, job_id) := mkBatchItem (outcome_state o) (outcome_error o) (Some now)]> (items b)
                 else items b
     | None => items b
     end) b
  |> update_operation id (add_counts now processed skipped errored (outcome_error o)).

(** The statement of both finalizations. *)
Definition finalized_operation (now : time) (st : BatchOperationState) (days : Z) (error : option string) (o : BatchOperation)
    : BatchOperation :=
  mkBatchOperation (bo_id o) (bo_op_kind o) (bo_filter o) (bo_spec o) st (bo_submitted_by o) (bo_submitted_at o)
    (bo_started_at o) (match bo_finalized_at o with Some t => Some t | None => Some now end) (bo_cursor o)
    (bo_total_matched o) (bo_processed o) (bo_skipped o) (bo_errored o)
    (match error with Some e => Some e | None => bo_last_error o end) (bo_runner_instance o)
    (match bo_retention_until o with Some t => Some t | None => Some (now + days * us_per_day) end) now.
Definition finalize_operation (env : BatchEnv) (id : uuid) (st : BatchOperationState) (error : option string) (b : Batches) : Batches :=
  update_operation id (finalized_operation (be_now env) st (default_retention_days env) error) b.
(** Nothing in the repository calls this one. *)
Definition finalize_expired_batch_operation_retention (now : time) (id : uuid) (st : BatchOperationState) (retention_days : Z)
    (error : option string) (b : Batches) : Batches :=
  update_operation id (finalized_operation now st (Z.max retention_days 1) error) b.

(** The end of a scan: the operation runs, unless it was cancelled meanwhile. *)
Definition scanned_operation (now : time) (total max : Z) (o : BatchOperation) : BatchOperation :=
  mkBatchOperation (bo_id o) (bo_op_kind o) (bo_filter o) (bo_spec o) OpRunning (bo_submitted_by o) (bo_submitted_at o)
    (bo_started_at o) (bo_finalized_at o) (Some (mkBatchCursor 0 max)) (Some total) (bo_processed o) (bo_skipped o)
    (bo_errored o) (bo_last_error o) (bo_runner_instance o) (bo_retention_until o) now.
Definition start_running (now : time) (id : uuid) (total max : Z) (b : Batches) : option BatchOperation * Batches :=
  match operations b !! id with
  | Some o =>
      if bool_decide (bo_state o = OpScanning)
      then let o := scanned_operation now total max o in (Some o, set_operations (<[id := o]> (operations b)) b)
      else (None, b)
  | None => (None, b)
  end.

(** * The runner *)

Record BatchOperationRunOutcome : Type := mkRunOutcome {
  ro_claimed : bool;
  ro_finalized : bool;
  ro_processed : Z;
  ro_skipped : Z;
  ro_errored : Z
}.
Definition default_outcome : BatchOperationRunOutcome := mkRunOutcome false false 0 0 0.
Definition claimed_outcome (finalized : bool) : BatchOperationRunOutcome := mkRunOutcome true finalized 0 0 0.

(** Where a call of [run_one_batch_operation_chunk_locked] is between two of its
    transactions.  An operation is held as the row the runner last read. *)
Inductive Phase : Type :=
  | PIdle                                                        (** the lock was just taken *)
  | PCancel (id : uuid)                                          (** a cancelled operation: skip its items *)
  | PFinalize (id : uuid) (st : BatchOperationState) (o : BatchOperationRunOutcome)
  | PScanMax (op : BatchOperation)                               (** [scan_operation] *)
  | PScanCount (op : BatchOperation) (max : Z)
  | PScan (op : BatchOperation) (max total after : Z)            (** its loop head *)
  | PScanInsert (op : BatchOperation) (max total : Z) (ids : list Z)
  | PScanPoll (op : BatchOperation) (max total after : Z)
  | PScanned (op : BatchOperation) (max total : Z)
  | PReload (id : uuid)
  | PItems (op : BatchOperation)
  | PApply (op : BatchOperation) (ids : list Z) (o : BatchOperationRunOutcome)
  | PRecord (op : BatchOperation) (job_id : Z) (error : string) (ids : list Z) (o : BatchOperationRunOutcome)
  | PCount (op : BatchOperation) (o : BatchOperationRunOutcome)
  | PState (op : BatchOperation) (pending : Z) (o : BatchOperationRunOutcome)
  | PSkip (id : uuid) (o : BatchOperationRunOutcome)
  | PDone (r : result AwaError BatchOperationRunOutcome).

Definition count_outcome (i : ItemOutcome) (o : BatchOperationRunOutcome) : BatchOperationRunOutcome :=
  let '(p, s, e) := outcome_counts i in
  mkRunOutcome (ro_claimed o) (ro_finalized o) (ro_processed o + p) (ro_skipped o + s) (ro_errored o + e).
Definition finalized_outcome (o : BatchOperationRunOutcome) : BatchOperationRunOutcome :=
  mkRunOutcome (ro_claimed o) true (ro_processed o) (ro_skipped o) (ro_errored o).

(** An item whose transaction failed is counted by the call and stays pending. *)
Definition lost_outcome (o : BatchOperationRunOutcome) : BatchOperationRunOutcome :=
  mkRunOutcome (ro_claimed o) (ro_finalized o) (ro_processed o) (ro_skipped o) (ro_errored o + 1).

(** After the scan: only a running operation has items to work on. *)
Definition resume (op : BatchOperation) : Phase :=
  match bo_state op with
  | OpRunning => PItems op
  | st => PDone (Ok (claimed_outcome (op_final st)))
  end.
Definition dispatch (op : BatchOperation) : Phase :=
  match bo_state op with
  | OpCancelling => PCancel (bo_id op)
  | OpScanning => PScanMax op
  | _ => resume op
  end.

Section Runner.
Context {E J : Type} `{JobEngine E J}.
Context (runner : uuid) (chunk_size : Z).

(** One transaction of the call, or one of its reads. *)
Definition runner_step (env : BatchEnv) (e : E) (jobs : J) (b : Batches) (p : Phase) : J * Batches * Phase :=
  match p with
  | PIdle =>
      match claim_next_operation env runner b with
      | (None, b) => (jobs, b, PDone (Ok default_outcome))
      | (Some op, b) => (jobs, b, dispatch op)
      end
  | PCancel id =>
      match skip_pending_items env id b with
      | Ok b => (jobs, b, PFinalize id OpCancelled (claimed_outcome true))
      | Err err => (jobs, b, PDone (Err err))
      end
  | PFinalize id st o => (jobs, finalize_operation env id st None b, PDone (Ok o))
  | PScanMax op =>
      match validate_filter_for_spec (bo_spec op) (bo_filter op) with
      | Ok _ => (jobs, b, PScanCount op (default 0 (max_matching_job_id (bo_filter op) jobs)))
      | Err err => (jobs, b, PDone (Err err))
      end
  | PScanCount op max =>
      (jobs, b, PScan op max (if max =? 0 then 0 else count_matching_jobs (bo_filter op) (Some 0) (Some max) jobs) 0)
  | PScan op max total after =>
      if after <? max
      then match load_matching_job_ids (bo_filter op) after max SCAN_PAGE_SIZE jobs with
           | [] => (jobs, b, PScanned op max total)
           | ids => (jobs, b, PScanInsert op max total ids)
           end
      else (jobs, b, PScanned op max total)
  | PScanInsert op max total ids =>
      match insert_operation_items (bo_id op) ids b with
      | Ok b => (jobs, b, PScanPoll op max total (List.last ids 0))
      | Err err => (jobs, b, PDone (Err err))
      end
  | PScanPoll op max total after =>
      match operations b !! bo_id op with
      | None => (jobs, b, PDone (Err ROW_NOT_FOUND))
      | Some o => (jobs, b, if bool_decide (bo_state o = OpCancelling) then PReload (bo_id op) else PScan op max total after)
      end
  | PScanned op max total =>
      match start_running (be_now env) (bo_id op) total max b with
      | (Some o, b) => (jobs, b, resume o)
      | (None, b) => (jobs, b, PReload (bo_id op))
      end
  | PReload id =>
      match get_batch_operation id b with
      | Ok o => (jobs, b, resume o)
      | Err err => (jobs, b, PDone (Err err))
      end
  | PItems op =>
      match claim_pending_items (bo_id op) (Z.max chunk_size 1) b with
      | [] => (jobs, b, PFinalize (bo_id op) OpCompleted (claimed_outcome true))
      | ids => (jobs, b, PApply op ids (claimed_outcome false))
      end
  | PApply op [] o => (jobs, b, PCount op o)
  | PApply op (job_id :: ids) o =>
      if be_lost env then (jobs, b, PApply op ids (lost_outcome o))
      else match apply_to_job e (bo_spec op) job_id jobs with
      | Ok (moved, jobs) =>
          let i := if (moved : bool) then Processed else Skipped in
          (jobs, record_item_outcome_tx (be_now env) (bo_id op) job_id i b, PApply op ids (count_outcome i o))
      | Err err => (jobs, b, PRecord op job_id ("job_id=" +:+ pretty job_id +:+ ": " +:+ be_display env err) ids o)
      end
  | PRecord op job_id error ids o =>
      if be_lost env then (jobs, b, PApply op ids (lost_outcome o))
      else (jobs, record_item_outcome_tx (be_now env) (bo_id op) job_id (Errored error) b,
       PApply op ids (count_outcome (Errored error) o))
  | PCount op o => (jobs, b, PState op (Z.of_nat (length (pending_items (bo_id op) b))) o)
  | PState op pending o =>
      match operations b !! bo_id op with
      | None => (jobs, b, PDone (Err ROW_NOT_FOUND))
      | Some op' =>
          (jobs, b,
           if pending =? 0
           then if bool_decide (bo_state op' = OpCancelling) then PSkip (bo_id op) (finalized_outcome o)
                else PFinalize (bo_id op) OpCompleted (finalized_outcome o)
           else PDone (Ok o))
      end
  | PSkip id o =>
      match skip_pending_items env id b with
      | Ok b => (jobs, b, PFinalize id OpCancelled o)
      | Err err => (jobs, b, PDone (Err err))
      end
  | PDone r => (jobs, b, PDone r)
  end.

(** A whole call with nothing in between, for as many transactions as it takes. *)
Fixpoint run_call (fuel : nat) (env : BatchEnv) (e : E) (jobs : J) (b : Batches) (p : Phase)
    : option (result AwaError BatchOperationRunOutcome * J * Batches) :=
  match p, fuel with
  | PDone r, _ => Some (r, jobs, b)
  | _, O => None
  | _, S fuel => let '(jobs, b, p) := runner_step env e jobs b p in run_call fuel env e jobs b p
  end.
End Runner.
