(* ===== verification/BatchFacts.v ===== *)
(** What batch operations guarantee whatever happens between two transactions of
    the runner: the counters of an operation are those of its items, no job is
    changed twice by one operation, an operation is final exactly when its items
    are, and every call of the runner ends. *)

From stdpp Require Import relations pretty.
From S2P Require Import Prelude.
From S2P Require Import Error.
From S2P Require Import Json.
From S2P Require Import Job.
From S2P Require Import Batch.

(** * Counting items *)

Definition of_op (id : string) (st : ItemState) (kv : string * Z * BatchItem) : Prop := kv.1.1 = id /\ bi_state kv.2 = st.
#[global] Instance of_op_dec id st kv : Decision (of_op id st kv).
Proof. unfold of_op. apply _. Defined.
Definition item_count (id : string) (st : ItemState) (b : Batches) : Z := cnt (of_op id st) (items b).

Lemma pending_elem id b j :
  j ∈ pending_items id b <-> exists i, items b !! (id, j) = Some i /\ bi_state i = ItemPending.
Proof.
  unfold pending_items. rewrite list_elem_of_fmap. split.
  - intros (((id', j') & i) & -> & Hin). apply elem_of_filter_b in Hin as [Hb Hin]. simpl in *.
    apply andb_true_iff in Hb as [<-%String.eqb_eq Hb%bool_decide_eq_true]. apply elem_of_map_to_list in Hin. eauto.
  - intros (i & Hi & Hs). exists (id, j, i). split; [done|]. apply elem_of_filter_b. simpl.
    split; [|by apply elem_of_map_to_list]. by rewrite String.eqb_refl, bool_decide_true.
Qed.
Lemma pending_NoDup id b : NoDup (pending_items id b).
Proof.
  unfold pending_items. generalize (NoDup_fst_map_to_list (items b)). generalize (map_to_list (items b)). clear.
  induction l as [|[[id' j] i] l IH]; simpl; [constructor|]. intros [Hn Hl]%NoDup_cons.
  destruct (String.eqb id' id && _) eqn:Hb; simpl; [|auto]. apply andb_true_iff in Hb as [->%String.eqb_eq _].
  apply NoDup_cons. split; [|auto]. intros ([[k j'] i'] & Hj & Hin)%list_elem_of_fmap. simpl in Hj. subst j'.
  apply elem_of_filter_b in Hin as [Hb Hin]. simpl in Hb. apply andb_true_iff in Hb as [->%String.eqb_eq _].
  apply Hn. apply list_elem_of_fmap. by exists (id, j, i').
Qed.

Lemma pending_length id b : Z.of_nat (length (pending_items id b)) = item_count id ItemPending b.
Proof.
  unfold item_count, cnt, pending_items. f_equal. rewrite length_map, <- length_map_to_list. apply Permutation_length.
  apply NoDup_Permutation.
  - rewrite <- (map_id (List.filter _ _)). apply NoDup_map_filter. rewrite map_id. apply NoDup_map_to_list.
  - apply NoDup_map_to_list.
  - intros [[id' j] i]. rewrite elem_of_filter_b, !elem_of_map_to_list, map_lookup_filter_Some. unfold of_op. simpl.
    rewrite andb_true_iff, String.eqb_eq, bool_decide_eq_true. tauto.
Qed.
(** The items of an operation are its pending, processed, skipped and failed ones. *)
Lemma item_count_split id b :
  cnt (fun kv => kv.1.1 = id) (items b)
  = item_count id ItemPending b + item_count id ItemProcessed b + item_count id ItemSkipped b + item_count id ItemErrored b.
Proof.
  unfold item_count. induction (items b) as [|[id' j] i m Hk IH] using map_ind; [done|].
  rewrite !cnt_insert_new, IH by done. unfold holds.
  repeat destruct (decide _); unfold of_op in *; simpl in *; destruct (bi_state i); try lia; exfalso; naive_solver.
Qed.
Lemma item_count_total id b (M : list Z) :
  NoDup M -> (forall j, is_Some (items b !! (id, j)) <-> j ∈ M) -> cnt (fun kv => kv.1.1 = id) (items b) = Z.of_nat (length M).
Proof.
  intros Hn HM. unfold cnt. f_equal. rewrite <- length_map_to_list. rewrite <- (length_map (fun kv => kv.1)), <- (length_map (pair id) M).
  apply Permutation_length, NoDup_Permutation.
  - apply NoDup_fst_map_to_list.
  - by apply (NoDup_fmap_2 (pair id)).
  - intros [id' j]. rewrite !list_elem_of_fmap. split.
    + intros ([k i] & Ek & Hin%elem_of_map_to_list%map_lookup_filter_Some). simpl in Ek, Hin. subst k. destruct Hin as [Hi <-].
      exists j. split; [done|]. apply HM. by exists i.
    + intros (j' & [= -> ->] & Hj). apply HM in Hj as (i & Hi). exists (id, j', i). split; [done|].
      apply elem_of_map_to_list, map_lookup_filter_Some. done.
Qed.

(** An item leaves the pending ones for [new]. *)
Definition moved (id id' : string) (st new : ItemState) : Z :=
  if decide (id = id') then (if decide (new = st) then 1 else 0) - (if decide (ItemPending = st) then 1 else 0) else 0.
Lemma mark_count id j i v m id' st :
  m !! (id, j) = Some i -> bi_state i = ItemPending ->
  cnt (of_op id' st) (<[(id, j) := v]> m) = cnt (of_op id' st) m + moved id id' st (bi_state v).
Proof.
  intros Hi Hs. rewrite (cnt_insert _ _ i) by done. unfold holds, moved.
  repeat destruct (decide _); unfold of_op in *; simpl in *; rewrite Hs in *; try lia; exfalso; naive_solver.
Qed.
Lemma alter_is_insert {K V} `{Countable K} (f : V -> V) (k : K) (v : V) (m : gmap K V) :
  m !! k = Some v -> alter f k m = <[k := f v]> m.
Proof.
  intros Hk. apply map_eq. intros k'. destruct (decide (k = k')) as [<-|Hne].
  - by rewrite lookup_alter_eq, lookup_insert_eq, Hk.
  - by rewrite lookup_alter_ne, lookup_insert_ne.
Qed.

Definition mark_skipped (now : time) (id : string) (j : Z) (m : gmap (string * Z) BatchItem) : gmap (string * Z) BatchItem :=
  alter (fun i => mkBatchItem ItemSkipped (bi_error i) (Some now)) (id, j) m.
Lemma mark_lookup now id js m k :
  foldr (mark_skipped now id) m js !! k
  = if decide (k.1 = id /\ k.2 ∈ js) then (fun i => mkBatchItem ItemSkipped (bi_error i) (Some now)) <$> m !! k else m !! k.
Proof.
  destruct k as [id' j']. simpl. induction js as [|j js IH]; simpl.
  - destruct (decide _) as [[_ ?%elem_of_nil]|]; done.
  - unfold mark_skipped at 1. destruct (decide ((id, j) = (id', j'))) as [[= <- <-]|Hne].
    + rewrite lookup_alter_eq, IH. rewrite (decide_True (P := id = id /\ j ∈ j :: js)) by (split; [done|left]).
      destruct (decide _); [|done]. by destruct (m !! (id, j)).
    + rewrite lookup_alter_ne by done. rewrite IH. repeat destruct (decide _); try done; exfalso; set_solver.
Qed.
Lemma mark_all_count now id js m id' st :
  NoDup js -> (forall j, j ∈ js -> exists i, m !! (id, j) = Some i /\ bi_state i = ItemPending) ->
  cnt (of_op id' st) (foldr (mark_skipped now id) m js)
  = cnt (of_op id' st) m + Z.of_nat (length js) * moved id id' st ItemSkipped.
Proof.
  induction js as [|j js IH]; intros Hn Hp; [simpl; lia|]. apply NoDup_cons in Hn as [Hj Hn].
  destruct (Hp j) as (i & Hi & Hs); [left|]. cbn [foldr]. unfold mark_skipped at 1.
  rewrite (alter_is_insert _ _ i).
  - rewrite (mark_count _ _ i) by first [done | rewrite mark_lookup, decide_False; [done|simpl; tauto]].
    rewrite IH by first [done | intros; apply Hp; by right]. simpl. lia.
  - rewrite mark_lookup, decide_False; [done|simpl; tauto].
Qed.

(** * The tables *)

Record op_ok (b : Batches) (id : string) (o : BatchOperation) : Prop := {
  oo_id : bo_id o = id;
  oo_kind : bo_op_kind o = spec_kind (bo_spec o);
  oo_spec : validate_spec (bo_spec o) = Ok tt;
  oo_filter : validate_filter_for_spec (bo_spec o) (bo_filter o) = Ok tt;
  oo_processed : bo_processed o = item_count id ItemProcessed b;
  oo_skipped : bo_skipped o = item_count id ItemSkipped b;
  oo_errored : bo_errored o = item_count id ItemErrored b;
  oo_stamped : op_final (bo_state o) = true <-> is_Some (bo_finalized_at o);
  oo_done : op_final (bo_state o) = true -> item_count id ItemPending b = 0;
  oo_new : bo_state o = OpPending -> bo_started_at o = None /\ forall j, items b !! (id, j) = None;
  oo_total : bo_state o = OpRunning -> is_Some (bo_total_matched o);
  oo_not_failed : bo_state o <> OpFailed
}.
Record tables_ok (b : Batches) : Prop := {
  to_ops : forall id o, operations b !! id = Some o -> op_ok b id o;
  to_items : forall id j i, items b !! (id, j) = Some i -> is_Some (operations b !! id)
}.

Lemma cnt_ext {K V} `{Countable K} (P : K * V -> Prop) `{!∀ x, Decision (P x)} (m m' : gmap K V) :
  (forall k v, P (k, v) -> m !! k = Some v <-> m' !! k = Some v) -> cnt P m = cnt P m'.
Proof. intros Hm. unfold cnt. do 2 f_equal. apply map_filter_strong_ext. intros k v. split; intros [Hp Hk]; split; auto; by apply (Hm k v Hp). Qed.

(** Only what concerns the operation matters for it. *)
Lemma op_ok_frame b b' id o : (forall j, items b' !! (id, j) = items b !! (id, j)) -> op_ok b id o -> op_ok b' id o.
Proof.
  intros Hi. assert (forall st, item_count id st b' = item_count id st b) as Hc.
  { intros st. apply cnt_ext. intros [id' j] i [Hid _]. simpl in Hid. subst id'. by rewrite Hi. }
  intros []. split; rewrite ?Hc; auto. intros Hs. split; [by apply oo_new0|]. intros j. rewrite Hi. by apply oo_new0.
Qed.

Lemma tables_write b id o' m' :
  tables_ok b -> (forall k, k.1 <> id -> m' !! k = items b !! k) ->
  op_ok (mkBatches (<[id := o']> (operations b)) m') id o' ->
  tables_ok (mkBatches (<[id := o']> (operations b)) m').
Proof.
  intros [Ho Hi] Hm Hok. split; simpl.
  - intros id' o. destruct (decide (id = id')) as [<-|Hne]; [rewrite lookup_insert_eq; by intros [= <-]|].
    rewrite lookup_insert_ne by done. intros Hl. eapply op_ok_frame; [|by apply Ho]. intros j. simpl. by apply Hm.
  - intros id' j i. destruct (decide (id = id')) as [<-|Hne]; [intros _; rewrite lookup_insert_eq; by eexists|].
    rewrite lookup_insert_ne by done. rewrite Hm by done. apply Hi.
Qed.
Lemma tables_update b id f m' :
  tables_ok b -> (forall k, k.1 <> id -> m' !! k = items b !! k) ->
  (forall o, operations b !! id = Some o -> op_ok (mkBatches (<[id := f o]> (operations b)) m') id (f o)) ->
  (operations b !! id = None -> m' = items b) ->
  tables_ok (mkBatches (alter f id (operations b)) m').
Proof.
  intros Hb Hm Hok Hno. destruct (operations b !! id) as [o|] eqn:Hid.
  - rewrite (alter_is_insert _ _ o) by done. apply tables_write; auto.
  - rewrite Hno by done. assert (alter f id (operations b) = operations b) as ->.
    { apply map_eq. intros k. destruct (decide (id = k)) as [<-|]; [rewrite lookup_alter_eq; by rewrite Hid|by rewrite lookup_alter_ne]. }
    by destruct b.
Qed.
(** A row's bookkeeping columns. *)
Lemma tables_touch b id o o' :
  tables_ok b -> operations b !! id = Some o ->
  (op_ok b id o -> op_ok b id o') -> tables_ok (set_operations (<[id := o']> (operations b)) b).
Proof.
  intros Hb Ho Hok. apply tables_write; [done|done|]. eapply op_ok_frame; [|by apply Hok, Hb]. done.
Qed.

(** * Each statement keeps them *)

Lemma submit_ok now id r b o b' :
  tables_ok b -> submit_batch_operation now id r b = Ok (o, b') -> tables_ok b' /\ operations b !! id = None.
Proof.
  unfold submit_batch_operation. intros Hb ([] & Hs & ([] & Hf & H)%rbind_Ok)%rbind_Ok.
  destruct (_ && _); [done|]. do 2 (destruct (existsb _ _); [done|]). destruct (operations b !! id) eqn:Hid; [done|]. injection H as <- <-. split; [|done].
  assert (forall j, items b !! (id, j) = None) as Hnone.
  { intros j. destruct (items b !! (id, j)) eqn:Hi; [|done]. apply (to_items _ Hb) in Hi. rewrite Hid in Hi. by destruct Hi. }
  assert (forall st, item_count id st b = 0) as Hc.
  { intros st. apply cnt_zero. intros [id' j] i Hi [Hx _]. simpl in Hx. subst id'. by rewrite Hnone in Hi. }
  apply tables_write; [done|done|]. split; simpl; try done; try (symmetry; apply Hc); try (by intros []).
Qed.

Lemma cancel_ok now id b o b' :
  tables_ok b -> request_batch_operation_cancellation now id b = Ok (o, b') ->
  tables_ok b' /\ exists o0, operations b !! id = Some o0 /\ op_final (bo_state o0) = false /\ b' = set_operations (<[id := op_with_state now OpCancelling o0]> (operations b)) b.
Proof.
  unfold request_batch_operation_cancellation. intros Hb. destruct (operations b !! id) as [o0|] eqn:Hid; [|done].
  destruct (bo_state o0) eqn:Hst; try done; intros [= <- <-].
  all: split; [|exists o0; rewrite Hst; done].
  all: apply (tables_touch _ _ o0); [done|done|]; intros []; split; simpl; try done.
  all: rewrite Hst in *; done.
Qed.

Lemma claim_ok env runner b o b' :
  tables_ok b -> claim_next_operation env runner b = (Some o, b') ->
  tables_ok b' /\ operations b' !! bo_id o = Some o /\ op_final (bo_state o) = false /\ bo_state o <> OpPending.
Proof.
  unfold claim_next_operation. intros Hb. destruct (head _) as [o0|] eqn:Hh; [|done]. intros [= <- <-].
  apply head_elem in Hh. rewrite (merge_sort_Permutation submitted_le), elem_of_filter_b, andb_true_iff in Hh.
  destruct Hh as [[Ha _] Hin]. unfold op_active in Ha. apply negb_true_iff in Ha.
  apply list_elem_of_fmap in Hin as ([id o1] & -> & Hin%elem_of_map_to_list). simpl in *.
  pose proof (to_ops _ Hb _ _ Hin) as Hok. pose proof (oo_id _ _ _ Hok) as Eid. subst id. split_and!.
  - apply (tables_touch _ _ o1); [done|done|]. intros []. split; simpl; try done; destruct (bo_state o1) eqn:Hst; simpl in *; try done.
  - by rewrite lookup_insert_eq.
  - by destruct (bo_state o1).
  - by destruct (bo_state o1).
Qed.

Definition add_item (id : string) (j : Z) (m : gmap (string * Z) BatchItem) : gmap (string * Z) BatchItem :=
  match m !! (id, j) with Some _ => m | None => <[(id, j) := new_item]> m end.
Lemma add_lookup id ids m k :
  foldr (add_item id) m ids !! k
  = match m !! k with Some i => Some i | None => if decide (k.1 = id /\ k.2 ∈ ids) then Some new_item else None end.
Proof.
  destruct k as [id' j']. simpl. induction ids as [|j ids IH]; simpl.
  - destruct (m !! (id', j')); [done|]. destruct (decide _) as [[_ ?%elem_of_nil]|]; done.
  - unfold add_item at 1. destruct (foldr _ _ _ !! (id, j)) eqn:Hj.
    + rewrite IH. destruct (m !! (id', j')) eqn:Hm; [done|]. destruct (decide ((id, j) = (id', j'))) as [[= <- <-]|Hne].
      * rewrite IH in Hj. rewrite (decide_True (P := id = id /\ j ∈ j :: ids)) by (split; [done|left]).
        by destruct (decide _).
      * repeat destruct (decide _); try done; exfalso; set_solver.
    + destruct (decide ((id, j) = (id', j'))) as [[= <- <-]|Hne].
      * rewrite lookup_insert_eq. rewrite IH in Hj. destruct (m !! (id, j)); [done|]. rewrite decide_True by (split; [done|left]). done.
      * rewrite lookup_insert_ne by done. rewrite IH. destruct (m !! (id', j')); [done|].
        repeat destruct (decide _); try done; exfalso; set_solver.
Qed.
Lemma add_count id ids m id' st : st <> ItemPending -> cnt (of_op id' st) (foldr (add_item id) m ids) = cnt (of_op id' st) m.
Proof.
  intros Hst. apply cnt_ext. intros k v [_ Hv]. rewrite add_lookup. destruct (m !! k); [done|].
  destruct (decide _); [|done]. split; [|done]. intros [= <-]. done.
Qed.
Lemma insert_ok id ids b b' o :
  tables_ok b -> insert_operation_items id ids b = Ok b' -> operations b !! id = Some o ->
  op_final (bo_state o) = false -> bo_state o <> OpPending ->
  tables_ok b' /\ operations b' = operations b /\ items b' = foldr (add_item id) (items b) ids.
Proof.
  unfold insert_operation_items. intros Hb Hi Ho Hf Hp. rewrite Ho in Hi.
  destruct ids as [|j ids]; [by injection Hi as <-|].
  assert (b' = set_items (foldr (add_item id) (items b) (j :: ids)) b) as -> by by injection Hi as <-. split; [|done].
  unfold set_items. rewrite <- (insert_id (operations b) id o Ho). apply tables_write; [done| |].
  - intros k Hk. rewrite add_lookup, decide_False by tauto. by destruct (items b !! k).
  - pose proof (fun st => add_count id (j :: ids) (items b) id st) as Hc.
    destruct (to_ops _ Hb _ _ Ho). split; try done; unfold item_count in *; cbn [items]; try (rewrite Hc; done).
    all: intros; congruence.
Qed.

Lemma skip_ok env id b b' o :
  tables_ok b -> skip_pending_items env id b = Ok b' -> operations b !! id = Some o -> op_final (bo_state o) = false ->
  tables_ok b' /\ item_count id ItemPending b' = 0
  /\ exists o', operations b' = <[id := o']> (operations b) /\ bo_state o' = bo_state o.
Proof.
  unfold skip_pending_items. intros Hb Hs Ho Hf. rewrite Ho in Hs.
  set (js := pending_items id b) in *. set (o' := add_counts (be_now env) 0 (Z.of_nat (length js)) 0 None o).
  assert (b' = mkBatches (<[id := o']> (operations b)) (foldr (mark_skipped (be_now env) id) (items b) js)) as ->.
  { injection Hs as <-. unfold update_operation, set_operations. simpl. by rewrite (alter_is_insert _ _ o). }
  assert (forall st, cnt (of_op id st) (foldr (mark_skipped (be_now env) id) (items b) js)
                     = item_count id st b + item_count id ItemPending b * moved id id st ItemSkipped) as Hc.
  { intros st. rewrite mark_all_count, <- pending_length; [done|apply pending_NoDup|]. intros j. apply pending_elem. }
  unfold item_count in *. assert (cnt (of_op id ItemPending) (foldr (mark_skipped (be_now env) id) (items b) js) = 0) as H0.
  { rewrite Hc. unfold moved. repeat destruct (decide _); try done. lia. }
  split; [|split; [done|by exists o']]. apply tables_write; [done| |].
  - intros k Hk. rewrite mark_lookup, decide_False by tauto. done.
  - destruct (to_ops _ Hb _ _ Ho). split; try done; unfold item_count in *; simpl items; rewrite ?H0, ?Hc; try done;
      unfold moved; simpl bo_processed; simpl bo_skipped; simpl bo_errored; repeat destruct (decide _); try done; try lia.
    + unfold js. rewrite pending_length. unfold item_count. lia.
    + intros Hs'. split; [by apply oo_new0|]. intros j. rewrite mark_lookup, (proj2 (oo_new0 Hs')). by destruct (decide _).
Qed.

Lemma record_ok now id j out b i o :
  tables_ok b -> operations b !! id = Some o -> items b !! (id, j) = Some i -> bi_state i = ItemPending ->
  let b' := record_item_outcome_tx now id j out b in
  tables_ok b' /\ (exists o', operations b' = <[id := o']> (operations b) /\ bo_state o' = bo_state o /\ bo_spec o' = bo_spec o)
  /\ items b' = <[(id, j) := mkBatchItem (outcome_state out) (outcome_error out) (Some now)]> (items b).
Proof.
  intros Hb Ho Hi Hs. set (v := mkBatchItem (outcome_state out) (outcome_error out) (Some now)).
  set (c := outcome_counts out). set (o' := add_counts now (fst (fst c)) (snd (fst c)) (snd c) (outcome_error out) o).
  assert (record_item_outcome_tx now id j out b = mkBatches (<[id := o']> (operations b)) (<[(id, j) := v]> (items b))) as ->.
  { unfold record_item_outcome_tx, o'. fold c. destruct c as [[p s] e]. rewrite Hi, bool_decide_true by done.
    unfold update_operation, set_operations. simpl. by rewrite (alter_is_insert _ _ o). }
  split; [|split; [by exists o'|done]]. apply tables_write; [done| |].
  - intros [id' j'] Hk. rewrite lookup_insert_ne; [done|]. simpl in Hk. congruence.
  - assert (op_final (bo_state o) = false) as Hf.
    { destruct (op_final (bo_state o)) eqn:Hf; [|done]. exfalso.
      apply (oo_done _ _ _ (to_ops _ Hb _ _ Ho)) in Hf. eapply cnt_zero in Hf; [|exact Hi]. by apply Hf. }
    destruct (to_ops _ Hb _ _ Ho). split; try done; unfold item_count in *; simpl items; rewrite ?(mark_count _ _ i) by done.
    1-3: unfold moved; subst c; destruct out; simpl; repeat destruct (decide _); try done; lia.
    + simpl. by rewrite Hf.
    + intros Hp. exfalso. rewrite (proj2 (oo_new0 Hp)) in Hi. done.
Qed.

Lemma finalize_ok env id st b o :
  tables_ok b -> operations b !! id = Some o -> op_final (bo_state o) = false -> item_count id ItemPending b = 0 ->
  st = OpCompleted \/ st = OpCancelled -> tables_ok (finalize_operation env id st None b).
Proof.
  intros Hb Ho Hf Hp Hst. unfold finalize_operation, update_operation. rewrite (alter_is_insert _ _ o) by done.
  apply (tables_touch _ _ o); [done|done|]. intros []. split; simpl; try done.
  - split; [|by destruct Hst as [-> | ->]]. intros _. destruct (bo_finalized_at o); by eexists.
  - by destruct Hst as [-> | ->].
  - by destruct Hst as [-> | ->].
  - by destruct Hst as [-> | ->].
Qed.
Lemma start_ok now id total max b r b' :
  tables_ok b -> start_running now id total max b = (r, b') ->
  tables_ok b' /\ items b' = items b
  /\ match r with
     | Some o => operations b' = <[id := o]> (operations b) /\ bo_state o = OpRunning
                 /\ exists o0, operations b !! id = Some o0 /\ bo_state o0 = OpScanning /\ bo_spec o = bo_spec o0 /\ bo_id o = bo_id o0
     | None => b' = b /\ forall o, operations b !! id = Some o -> bo_state o <> OpScanning
     end.
Proof.
  unfold start_running. intros Hb. destruct (operations b !! id) as [o|] eqn:Ho; [|by intros [= <- <-]].
  destruct (bool_decide _) eqn:Hs; [apply bool_decide_eq_true in Hs|apply bool_decide_eq_false in Hs; intros [= <- <-]; split_and!; try done; by intros ? [= <-]].
  intros [= <- <-]. split_and!; try done; [|by exists o]. apply (tables_touch _ _ o); [done|done|].
  intros []. rewrite Hs in *. split; simpl; done.
Qed.
Lemma delete_ok ids b : tables_ok b -> tables_ok (delete_operations ids b).
Proof.
  intros [Ho Hi]. split; simpl.
  - intros id o [Hl Hn]%map_lookup_filter_Some. eapply op_ok_frame; [|by apply Ho]. intros j. simpl.
    destruct (items b !! (id, j)) as [i|] eqn:E.
    + by apply map_lookup_filter_Some.
    + apply map_lookup_filter_None. by left.
  - intros id j i [Hl Hn]%map_lookup_filter_Some. destruct (Hi _ _ _ Hl) as [o Hl']. exists o. by apply map_lookup_filter_Some.
Qed.
Lemma expired_final b key cutoff limit id o :
  tables_ok b -> id ∈ expired_operations key cutoff limit b -> operations b !! id = Some o -> op_final (bo_state o) = true.
Proof.
  unfold expired_operations. intros Hb (o' & -> & Hin)%list_elem_of_fmap Ho. apply elem_of_take in Hin as (n & Hn & _).
  apply list_elem_of_lookup_2 in Hn. rewrite (merge_sort_Permutation (time_le key)), elem_of_filter_b, andb_true_iff in Hn.
  destruct Hn as [[_ Hf] Hin]. apply list_elem_of_fmap in Hin as ([id o1] & -> & Hin%elem_of_map_to_list). simpl in *.
  pose proof (oo_id _ _ _ (to_ops _ Hb _ _ Hin)) as E. rewrite E in Ho. congruence.
Qed.

(** * The runner's place *)

Definition scanning (st : BatchOperationState) : Prop := st = OpScanning \/ st = OpCancelling.
Definition working (st : BatchOperationState) : Prop := st = OpRunning \/ st = OpCancelling.
Definition active (st : BatchOperationState) : Prop := scanning st \/ working st.
(** The operation is there, in one of these states. *)
Definition held (b : Batches) (id : string) (P : BatchOperationState -> Prop) : Prop :=
  exists o, operations b !! id = Some o /\ P (bo_state o).
Definition pending_item (b : Batches) (id : string) (j : Z) : Prop :=
  exists i, items b !! (id, j) = Some i /\ bi_state i = ItemPending.

Definition phase_ok (b : Batches) (p : Phase) : Prop :=
  match p with
  | PIdle | PDone _ => True
  | PCancel id | PSkip id _ => held b id (eq OpCancelling)
  | PFinalize id st _ => held b id active /\ (st = OpCompleted \/ st = OpCancelled) /\ item_count id ItemPending b = 0
  | PScanMax op | PScanCount op _ | PScan op _ _ _ | PScanInsert op _ _ _ | PScanPoll op _ _ _ | PScanned op _ _ =>
      held b (bo_id op) scanning
  | PReload id => held b id active
  | PItems op | PCount op _ => held b (bo_id op) working
  | PState op n _ => held b (bo_id op) working /\ n = item_count (bo_id op) ItemPending b
  | PApply op ids _ => held b (bo_id op) working /\ NoDup ids /\ forall j, j ∈ ids -> pending_item b (bo_id op) j
  | PRecord op j _ ids _ => held b (bo_id op) working /\ NoDup (j :: ids) /\ forall i, i ∈ j :: ids -> pending_item b (bo_id op) i
  end.

(** What others do to an operation that is not final: they can cancel it. *)
Definition evolves (b b' : Batches) : Prop :=
  forall id o, operations b !! id = Some o -> op_final (bo_state o) = false ->
    (exists o', operations b' !! id = Some o' /\ (bo_state o' = bo_state o \/ bo_state o' = OpCancelling))
    /\ forall j, items b' !! (id, j) = items b !! (id, j).

Lemma active_not_final st : active st -> op_final st = false.
Proof. by intros [[-> | ->]|[-> | ->]]. Qed.
Lemma held_active b id P : (forall st, P st -> active st) -> held b id P -> exists o, operations b !! id = Some o /\ P (bo_state o) /\ op_final (bo_state o) = false.
Proof. intros Hp (o & Ho & Hs). exists o. split_and!; try done. by apply active_not_final, Hp. Qed.
Lemma evolves_count b b' id st :
  (forall j, items b' !! (id, j) = items b !! (id, j)) -> item_count id st b' = item_count id st b.
Proof. intros Hi. apply cnt_ext. intros [id' j] i [Hid _]. simpl in Hid. subst id'. by rewrite Hi. Qed.
(** The states a cancellation keeps among themselves. *)
Definition cancellable (P : BatchOperationState -> Prop) : Prop := (forall st, P st -> active st) /\ P OpCancelling.
Lemma cancellable_cancelling : cancellable (eq OpCancelling).
Proof. split; [|done]. intros ? <-. left. by right. Qed.
Lemma cancellable_scanning : cancellable scanning.
Proof. split; [by left|by right]. Qed.
Lemma cancellable_working : cancellable working.
Proof. split; [by right|by right]. Qed.
Lemma cancellable_active : cancellable active.
Proof. split; [done|by left; right]. Qed.
Create HintDb batch.
#[local] Hint Resolve cancellable_cancelling cancellable_scanning cancellable_working cancellable_active : batch.

Lemma held_evolves b b' id P :
  evolves b b' -> cancellable P -> held b id P -> held b' id P /\ forall j, items b' !! (id, j) = items b !! (id, j).
Proof.
  intros He [Ha Hc] (o & Ho & Hp & Hf)%held_active; [|done]. destruct (He id o Ho Hf) as [(o' & Ho' & Hs) Hi].
  split; [|done]. exists o'. split; [done|]. by destruct Hs as [-> | ->].
Qed.
Lemma phase_evolves b b' p : evolves b b' -> phase_ok b p -> phase_ok b' p.
Proof.
  intros He. destruct p; simpl; try done.
  all: try (intros Hh; eapply held_evolves in Hh as [? _]; eauto with batch; fail).
  - intros (Hh & Hst & Hp). eapply held_evolves in Hh as [Hh Hi]; eauto with batch. split_and!; try done.
    by rewrite (evolves_count b b').
  - intros (Hh & Hn & Hj). eapply held_evolves in Hh as [Hh Hi]; eauto with batch. split_and!; try done.
    intros j Hin. unfold pending_item. rewrite Hi. by apply Hj.
  - intros (Hh & Hn & Hj). eapply held_evolves in Hh as [Hh Hi]; eauto with batch. split_and!; try done.
    intros j Hin. unfold pending_item. rewrite Hi. by apply Hj.
  - intros (Hh & ->). eapply held_evolves in Hh as [Hh Hi]; eauto with batch. split; [done|]. by rewrite (evolves_count b b').
Qed.

Lemma resume_ok b o : operations b !! bo_id o = Some o -> phase_ok b (resume o).
Proof. intros Ho. unfold resume. destruct (bo_state o) eqn:Hs; try done. exists o. split; [done|by left]. Qed.
Lemma dispatch_ok b o : operations b !! bo_id o = Some o -> phase_ok b (dispatch o).
Proof.
  intros Ho. unfold dispatch. destruct (bo_state o) eqn:Hs; try by apply resume_ok.
  - exists o. split; [done|by left].
  - exists o. split; [done|]. by rewrite Hs.
Qed.
Lemma claimed_items id n b j : j ∈ claim_pending_items id n b -> pending_item b id j.
Proof.
  unfold claim_pending_items. intros (k & Hk & _)%elem_of_take. apply list_elem_of_lookup_2 in Hk.
  rewrite (merge_sort_Permutation Z.le) in Hk. by apply pending_elem.
Qed.
Lemma claimed_NoDup id n b : NoDup (claim_pending_items id n b).
Proof.
  unfold claim_pending_items. eapply sublist_NoDup; [|apply sublist_take]. rewrite (merge_sort_Permutation Z.le). apply pending_NoDup.
Qed.
Lemma claimed_none id n b : claim_pending_items id n b = [] -> item_count id ItemPending b = 0.
Proof.
  unfold claim_pending_items. rewrite <- pending_length, <- (Permutation_length (merge_sort_Permutation Z.le (pending_items id b))).
  destruct (merge_sort Z.le _); [done|]. destruct (Z.to_nat _) eqn:Hn; [lia|done].
Qed.
(** Recording an item leaves the others pending. *)
Lemma record_rest now id j ids out b :
  tables_ok b -> held b id working -> NoDup (j :: ids) -> (forall i, i ∈ j :: ids -> pending_item b id i) ->
  let b' := record_item_outcome_tx now id j out b in
  tables_ok b' /\ held b' id working /\ NoDup ids /\ forall i, i ∈ ids -> pending_item b' id i.
Proof.
  intros Hb (o & Ho & Hs) [Hj Hn]%NoDup_cons Hp. destruct (Hp j) as (i & Hi & Hst); [left|].
  destruct (record_ok now id j out b i o Hb Ho Hi Hst) as (Hb' & (o' & Ho' & Es & _) & Ei). split_and!; try done.
  - exists o'. rewrite Ho', lookup_insert_eq. split; [done|by rewrite Es].
  - intros k Hk. unfold pending_item. rewrite Ei, lookup_insert_ne by (intros [= ->]; done). apply Hp. by right.
Qed.

Lemma skip_held env id b b' :
  tables_ok b -> held b id (eq OpCancelling) -> skip_pending_items env id b = Ok b' ->
  tables_ok b' /\ held b' id active /\ item_count id ItemPending b' = 0.
Proof.
  intros Hb (o & Ho & Hs & Hf)%held_active Hk; [|apply cancellable_cancelling].
  destruct (skip_ok _ _ _ _ _ Hb Hk Ho Hf) as (? & ? & o' & E1 & E2). split_and!; try done.
  exists o'. rewrite E1, lookup_insert_eq. split; [done|]. rewrite E2, <- Hs. left. by right.
Qed.
Lemma insert_held op ids b b' :
  tables_ok b -> held b (bo_id op) scanning -> insert_operation_items (bo_id op) ids b = Ok b' ->
  tables_ok b' /\ held b' (bo_id op) scanning.
Proof.
  intros Hb (o & Ho & Hs & Hf)%held_active Hi; [|apply cancellable_scanning].
  assert (bo_state o <> OpPending) as Hnp by (by destruct Hs as [-> | ->]).
  destruct (insert_ok _ _ _ _ _ Hb Hi Ho Hf Hnp) as (? & E1 & _). split; [done|]. exists o. by rewrite E1.
Qed.
Lemma start_held now op total max b r b' :
  tables_ok b -> held b (bo_id op) scanning -> start_running now (bo_id op) total max b = (r, b') ->
  tables_ok b' /\ phase_ok b' (match r with Some o => resume o | None => PReload (bo_id op) end).
Proof.
  intros Hb (o & Ho & Hs') Hs. destruct (start_ok _ _ _ _ _ _ _ Hb Hs) as (? & _ & Hm). split; [done|]. destruct r as [o1|].
  - destruct Hm as (E1 & Est & o0 & Ho0 & _ & _ & Eid). rewrite (oo_id _ _ _ (to_ops _ Hb _ _ Ho0)) in Eid.
    apply resume_ok. by rewrite E1, Eid, lookup_insert_eq.
  - destruct Hm as [-> _]. exists o. split; [done|by left].
Qed.

Section Runs.
Context {E J : Type} `{JobEngine E J}.

Lemma runner_ok runner chunk env e jobs b p jobs' b' p' :
  tables_ok b -> phase_ok b p -> runner_step runner chunk env e jobs b p = (jobs', b', p') -> tables_ok b' /\ phase_ok b' p'.
Proof.
  intros Hb Hp Hr. destruct p; simpl in *.
  - destruct (claim_next_operation env runner b) as [[op|] b1] eqn:Hc; injection Hr as <- <- <-.
    + destruct (claim_ok _ _ _ _ _ Hb Hc) as (? & ? & _). split; [done|by apply dispatch_ok].
    + unfold claim_next_operation in Hc. destruct (head _); [done|]. by injection Hc as <-.
  - destruct (skip_pending_items env id b) as [b1|] eqn:Hk; injection Hr as <- <- <-; [|done].
    destruct (skip_held _ _ _ _ Hb Hp Hk) as (? & ? & ?). split; [done|]. simpl. split_and!; try done. by right.
  - destruct Hp as (Hh & Hst & H0). apply held_active in Hh as (op & Ho & Hs & Hf); [|done].
    injection Hr as <- <- <-. split; [by eapply finalize_ok|done].
  - destruct (validate_filter_for_spec _ _); by injection Hr as <- <- <-.
  - by injection Hr as <- <- <-.
  - destruct (after <? max); [|by injection Hr as <- <- <-].
    destruct (load_matching_job_ids _ _ _ _ _); by injection Hr as <- <- <-.
  - destruct (insert_operation_items _ _ _) as [b1|] eqn:Hi; injection Hr as <- <- <-; [|done]. by eapply insert_held.
  - destruct Hp as (o & Ho & Hs). rewrite Ho in Hr. injection Hr as <- <- <-. split; [done|].
    destruct (bool_decide _); simpl; exists o; split; try done. by left.
  - destruct (start_running _ _ _ _ _) as [r b1] eqn:Hs. apply (start_held _ _ _ _ _ _ _ Hb Hp) in Hs.
    destruct r as [o|]; by injection Hr as <- <- <-.
  - destruct Hp as (o & Ho & Hs). unfold get_batch_operation in Hr. rewrite Ho in Hr. injection Hr as <- <- <-.
    split; [done|]. apply resume_ok. by rewrite (oo_id _ _ _ (to_ops _ Hb _ _ Ho)).
  - destruct (claim_pending_items _ _ _) as [|j ids] eqn:Hc; injection Hr as <- <- <-; (split; [done|]).
    + simpl. split_and!; [|by left|by eapply claimed_none]. destruct Hp as (o & Ho & Hs). exists o. split; [done|by right].
    + simpl. rewrite <- Hc. split_and!; [done|apply claimed_NoDup|]. intros j'. apply claimed_items.
  - destruct Hp as (Hh & Hn & Hj). destruct ids as [|j ids]; [by injection Hr as <- <- <-|].
    destruct (be_lost env).
    { injection Hr as <- <- <-. split; [done|]. apply NoDup_cons in Hn as [_ Hn]. split_and!; [done|done|]. intros k Hk. apply Hj. by right. }
    destruct (apply_to_job _ _ _ _) as [[mv jobs1]|err]; injection Hr as <- <- <-.
    + by apply record_rest.
    + done.
  - destruct Hp as (Hh & Hn & Hj). destruct (be_lost env); injection Hr as <- <- <-; [|by apply record_rest].
    split; [done|]. apply NoDup_cons in Hn as [_ Hn]. split_and!; [done|done|]. intros k Hk. apply Hj. by right.
  - injection Hr as <- <- <-. split; [done|]. split; [done|apply pending_length].
  - destruct Hp as ((op' & Ho & Hs) & ->). rewrite Ho in Hr. injection Hr as <- <- <-. split; [done|].
    destruct (_ =? 0) eqn:H0; [|done]. apply Z.eqb_eq in H0. destruct (bool_decide _) eqn:Hc; simpl.
    + apply bool_decide_eq_true in Hc. exists op'. done.
    + split_and!; [|by left|done]. exists op'. split; [done|by right].
  - destruct (skip_pending_items env id b) as [b1|] eqn:Hk; injection Hr as <- <- <-; [|done].
    destruct (skip_held _ _ _ _ Hb Hp Hk) as (? & ? & ?). split; [done|]. simpl. split_and!; try done. by right.
  - by injection Hr as <- <- <-.
Qed.

(** * Runs *)

(** The jobs, the tables, the call that holds the lock and, for the record, the
    changes of jobs committed so far, by operation. *)
Record BatchSys : Type := mkBatchSys {
  bs_jobs : J;
  bs_batches : Batches;
  bs_call : option (string * Z * Phase);
  bs_applied : list (string * Z)
}.
Definition applied_by (env : BatchEnv) (e : E) (jobs : J) (p : Phase) : list (string * Z) :=
  match p with
  | PApply op (j :: _) _ => if be_lost env then [] else match apply_to_job e (bo_spec op) j jobs with Ok _ => [(bo_id op, j)] | Err _ => [] end
  | _ => []
  end.
Inductive batch_step (y : BatchSys) : BatchSys -> Prop :=
  (** a fresh id *)
  | BatchSubmit now id r o b' :
      id ∉ map fst (bs_applied y) -> submit_batch_operation now id r (bs_batches y) = Ok (o, b') ->
      batch_step y (mkBatchSys (bs_jobs y) b' (bs_call y) (bs_applied y))
  | BatchCancel now id o b' :
      request_batch_operation_cancellation now id (bs_batches y) = Ok (o, b') ->
      batch_step y (mkBatchSys (bs_jobs y) b' (bs_call y) (bs_applied y))
  | BatchCleanup now limit n b' :
      cleanup_expired_batch_operations now limit (bs_batches y) = (n, b') ->
      batch_step y (mkBatchSys (bs_jobs y) b' (bs_call y) (bs_applied y))
  | BatchPurge before limit n b' :
      purge_batch_operations_before before limit (bs_batches y) = (n, b') ->
      batch_step y (mkBatchSys (bs_jobs y) b' (bs_call y) (bs_applied y))
  (** whatever else happens to the jobs *)
  | BatchJobs jobs' : batch_step y (mkBatchSys jobs' (bs_batches y) (bs_call y) (bs_applied y))
  (** a runner gets the lock, works, returns or loses its connection *)
  | BatchCall runner chunk :
      bs_call y = None -> batch_step y (mkBatchSys (bs_jobs y) (bs_batches y) (Some (runner, chunk, PIdle)) (bs_applied y))
  | BatchRunner runner chunk p env e jobs' b' p' :
      bs_call y = Some (runner, chunk, p) -> runner_step runner chunk env e (bs_jobs y) (bs_batches y) p = (jobs', b', p') ->
      batch_step y (mkBatchSys jobs' b' (Some (runner, chunk, p')) (bs_applied y ++ applied_by env e (bs_jobs y) p))
  | BatchReturn : batch_step y (mkBatchSys (bs_jobs y) (bs_batches y) None (bs_applied y)).

Definition no_batches : Batches := mkBatches ∅ ∅.
Definition batch_reachable (y : BatchSys) : Prop := exists jobs, rtc batch_step (mkBatchSys jobs no_batches None []) y.

(** A committed change is on its item for as long as the operation is kept. *)
Definition settled_item (b : Batches) (id : string) (j : Z) : Prop :=
  exists i, items b !! (id, j) = Some i /\ (bi_state i = ItemProcessed \/ bi_state i = ItemSkipped).
Record batch_inv (y : BatchSys) : Prop := {
  bv_tables : tables_ok (bs_batches y);
  bv_phase : forall r c p, bs_call y = Some (r, c, p) -> phase_ok (bs_batches y) p;
  bv_once : NoDup (bs_applied y);
  bv_settled : forall id j, (id, j) ∈ bs_applied y -> is_Some (operations (bs_batches y) !! id) -> settled_item (bs_batches y) id j
}.

(** The operations stay the same ones and settled items stay settled. *)
Definition keeps_items (b b' : Batches) : Prop :=
  (forall id, is_Some (operations b' !! id) -> is_Some (operations b !! id)) /\ forall id j, settled_item b id j -> settled_item b' id j.

Lemma keeps_items_refl b : keeps_items b b.
Proof. done. Qed.
Lemma keeps_write b id o o' m' :
  operations b !! id = Some o -> (forall i j, settled_item b i j -> settled_item (mkBatches (<[id := o']> (operations b)) m') i j) ->
  keeps_items b (mkBatches (<[id := o']> (operations b)) m').
Proof.
  intros Ho Hi. split; [|done]. intros id'. simpl. destruct (decide (id = id')) as [<-|]; [intros _; by exists o|].
  by rewrite lookup_insert_ne.
Qed.
Lemma keeps_update b id f : keeps_items b (update_operation id f b).
Proof.
  split; [|done]. intros id'. unfold update_operation. simpl. destruct (decide (id = id')) as [<-|].
  - rewrite lookup_alter_eq. by destruct (operations b !! id).
  - by rewrite lookup_alter_ne.
Qed.
Lemma keeps_items_trans b b1 b2 : keeps_items b b1 -> keeps_items b1 b2 -> keeps_items b b2.
Proof. intros [H1 H2] [H3 H4]. split; auto. Qed.
Lemma claim_keeps env runner b o b' : tables_ok b -> claim_next_operation env runner b = (o, b') -> keeps_items b b'.
Proof.
  unfold claim_next_operation. intros Hb. destruct (head _) as [o0|] eqn:Hh; intros [= <- <-]; [|done].
  apply head_elem in Hh. rewrite (merge_sort_Permutation submitted_le), elem_of_filter_b in Hh. destruct Hh as [_ Hin].
  apply list_elem_of_fmap in Hin as ([id o1] & -> & Hin%elem_of_map_to_list). simpl in *.
  pose proof (oo_id _ _ _ (to_ops _ Hb _ _ Hin)) as <-. eapply keeps_write; [exact Hin|done].
Qed.
Lemma skip_keeps env id b b' : skip_pending_items env id b = Ok b' -> keeps_items b b'.
Proof.
  unfold skip_pending_items. destruct (operations b !! id); [|done]. intros [= <-].
  eapply keeps_items_trans; [|apply keeps_update]. split; [done|]. intros id' j (i & Hi & Hs).
  change (settled_item (set_items (foldr (mark_skipped (be_now env) id) (items b) (pending_items id b)) b) id' j).
  unfold settled_item, set_items. cbn [items]. rewrite mark_lookup, Hi. simpl. destruct (decide _); eexists; (split; [done|]); [by right|done].
Qed.
Lemma insert_keeps id ids b b' : insert_operation_items id ids b = Ok b' -> keeps_items b b'.
Proof.
  unfold insert_operation_items. intros H0. destruct ids as [|j0 ids]; [by injection H0 as <-|].
  destruct (operations b !! id); [|done].
  assert (b' = set_items (foldr (add_item id) (items b) (j0 :: ids)) b) as -> by by injection H0 as <-. split; [done|].
  intros id' j (i & Hi & Hs). unfold settled_item, set_items. cbn [items]. rewrite add_lookup, Hi. by exists i.
Qed.
Lemma start_keeps now id total max b r b' : start_running now id total max b = (r, b') -> keeps_items b b'.
Proof.
  unfold start_running. destruct (operations b !! id) as [o|] eqn:Ho; [|by intros [= _ <-]].
  destruct (bool_decide _); intros [= <- <-]; [|done]. eapply keeps_write; [exact Ho|done].
Qed.
Lemma record_keeps now id j out b :
  tables_ok b -> held b id working -> pending_item b id j ->
  keeps_items b (record_item_outcome_tx now id j out b)
  /\ ~ settled_item b id j /\ (outcome_state out <> ItemErrored -> settled_item (record_item_outcome_tx now id j out b) id j).
Proof.
  intros Hb (o & Ho & _) (i & Hi & Hs). destruct (record_ok now id j out b i o Hb Ho Hi Hs) as (_ & (o' & Eo & _) & Ei).
  split_and!.
  - destruct (record_item_outcome_tx now id j out b) as [ops its]. simpl in *. subst. eapply keeps_write; [exact Ho|].
    intros id' j' (i' & Hi' & Hs'). unfold settled_item. cbn [items]. rewrite lookup_insert_ne; [by exists i'|].
    intros [= <- <-]. rewrite Hi in Hi'. injection Hi' as <-. rewrite Hs in Hs'. by destruct Hs'.
  - intros (i' & Hi' & Hs'). rewrite Hi in Hi'. injection Hi' as <-. rewrite Hs in Hs'. by destruct Hs'.
  - intros Hne. unfold settled_item. rewrite Ei, lookup_insert_eq. eexists. split; [done|]. simpl. destruct out; simpl in *; auto. done.
Qed.

Lemma runner_keeps runner chunk env e jobs b p jobs' b' p' :
  tables_ok b -> phase_ok b p -> runner_step runner chunk env e jobs b p = (jobs', b', p') ->
  keeps_items b b' /\ forall id j, (id, j) ∈ applied_by env e jobs p -> ~ settled_item b id j /\ settled_item b' id j /\ is_Some (operations b !! id).
Proof.
  intros Hb Hp Hr. assert (forall id j, (id, j) ∈ ([] : list (string * Z)) -> False) as Hno by (by intros ? ? ?%elem_of_nil).
  destruct p; simpl in *.
  all: try (split; [|intros ? ? Hin; by apply Hno in Hin]).
  - destruct (claim_next_operation env runner b) as [o b1] eqn:Hc. apply claim_keeps in Hc; [|done]. destruct o; by injection Hr as <- <- <-.
  - destruct (skip_pending_items env id b) as [b1|] eqn:Hk; injection Hr as <- <- <-; [by eapply skip_keeps|done].
  - injection Hr as <- <- <-. apply keeps_update.
  - destruct (validate_filter_for_spec _ _); by injection Hr as <- <- <-.
  - by injection Hr as <- <- <-.
  - destruct (after <? max); [|by injection Hr as <- <- <-]. destruct (load_matching_job_ids _ _ _ _ _); by injection Hr as <- <- <-.
  - destruct (insert_operation_items _ _ _) as [b1|] eqn:Hi; injection Hr as <- <- <-; [by eapply insert_keeps|done].
  - destruct (operations b !! bo_id op); by injection Hr as <- <- <-.
  - destruct (start_running _ _ _ _ _) as [r b1] eqn:Hs. apply start_keeps in Hs. destruct r; by injection Hr as <- <- <-.
  - destruct (get_batch_operation _ _); by injection Hr as <- <- <-.
  - destruct (claim_pending_items _ _ _); by injection Hr as <- <- <-.
  - destruct Hp as (Hh & Hn & Hj). destruct ids as [|j ids]; [injection Hr as <- <- <-; split; [done|intros ? ? Hin; by apply Hno in Hin]|].
    destruct (be_lost env); [injection Hr as <- <- <-; split; [done|intros ? ? Hin; by apply Hno in Hin]|].
    destruct (apply_to_job _ _ _ _) as [[mv jobs1]|err] eqn:Ha; injection Hr as <- <- <-.
    + destruct (record_keeps (be_now env) (bo_id op) j (if mv then Processed else Skipped) b Hb Hh) as (Hk & Hn1 & Hs1); [apply Hj; left|].
      split; [done|]. intros id' j' [= -> ->]%list_elem_of_singleton. split_and!; [done|apply Hs1; by destruct mv|].
      destruct Hh as (o' & Ho' & _). by exists o'.
    + split; [done|]. intros ? ? Hin. by apply Hno in Hin.
  - destruct Hp as (Hh & Hn & Hj). destruct (be_lost env); injection Hr as <- <- <-; [done|].
    apply record_keeps; [done|done|]. apply Hj. left.
  - by injection Hr as <- <- <-.
  - destruct (operations b !! bo_id op); by injection Hr as <- <- <-.
  - destruct (skip_pending_items env id b) as [b1|] eqn:Hk; injection Hr as <- <- <-; [by eapply skip_keeps|done].
  - by injection Hr as <- <- <-.
Qed.

Lemma evolves_refl b : evolves b b.
Proof. intros id o Ho Hf. split; [by exists o; auto|done]. Qed.
Lemma submit_evolves now id r b o b' : submit_batch_operation now id r b = Ok (o, b') -> tables_ok b -> evolves b b'.
Proof.
  intros Hs Hb id' o' Ho Hf. destruct (submit_ok _ _ _ _ _ _ Hb Hs) as [_ Hid].
  unfold submit_batch_operation in Hs. apply rbind_Ok in Hs as ([] & _ & ([] & _ & Hs)%rbind_Ok).
  destruct (_ && _); [done|]. do 2 (destruct (existsb _ _); [done|]). rewrite Hid in Hs. injection Hs as <- <-. split; [|done].
  exists o'. simpl. rewrite lookup_insert_ne by congruence. auto.
Qed.
Lemma cancel_evolves now id b o b' : request_batch_operation_cancellation now id b = Ok (o, b') -> tables_ok b -> evolves b b'.
Proof.
  intros Hs Hb id' o' Ho Hf. destruct (cancel_ok _ _ _ _ _ Hb Hs) as (_ & o0 & Ho0 & _ & ->). split; [|done]. simpl.
  destruct (decide (id = id')) as [<-|]; [rewrite lookup_insert_eq; eexists; split; [done|by right]|].
  rewrite lookup_insert_ne by done. exists o'. auto.
Qed.
Lemma delete_evolves ids b :
  (forall id o, id ∈ ids -> operations b !! id = Some o -> op_final (bo_state o) = true) -> evolves b (delete_operations ids b).
Proof.
  intros Hd id o Ho Hf. assert (id ∉ ids) as Hn by (intros Hin; specialize (Hd _ _ Hin Ho); congruence). simpl. split.
  - exists o. split; [by apply map_lookup_filter_Some|by left].
  - intros j. destruct (items b !! (id, j)) eqn:E0; [by apply map_lookup_filter_Some|]. apply map_lookup_filter_None. by left.
Qed.

(** A change of the tables by another session. *)
Lemma inv_evolves y b' :
  batch_inv y -> tables_ok b' -> evolves (bs_batches y) b' ->
  (forall id j, (id, j) ∈ bs_applied y -> is_Some (operations b' !! id) ->
     is_Some (operations (bs_batches y) !! id) /\ items b' !! (id, j) = items (bs_batches y) !! (id, j)) ->
  batch_inv (mkBatchSys (bs_jobs y) b' (bs_call y) (bs_applied y)).
Proof.
  intros [] Hb He Hs. split; simpl; try done.
  - intros r c p Hc. eapply phase_evolves; eauto.
  - intros id j Hin Hop. destruct (Hs id j Hin Hop) as [Hop' Hi]. unfold settled_item. rewrite Hi. by apply bv_settled0.
Qed.
Lemma delete_inv y ids :
  batch_inv y -> (forall id o, id ∈ ids -> operations (bs_batches y) !! id = Some o -> op_final (bo_state o) = true) ->
  batch_inv (mkBatchSys (bs_jobs y) (delete_operations ids (bs_batches y)) (bs_call y) (bs_applied y)).
Proof.
  intros Hy Hd. apply inv_evolves; [done|apply delete_ok, Hy|by apply delete_evolves|].
  intros id j _ [o [Ho Hn]%map_lookup_filter_Some]. split; [by exists o|]. simpl.
  destruct (items (bs_batches y) !! (id, j)) eqn:E0; [by apply map_lookup_filter_Some|]. apply map_lookup_filter_None. by left.
Qed.

Lemma batch_step_inv y y' : batch_step y y' -> batch_inv y -> batch_inv y'.
Proof.
  intros Hst Hy. pose proof Hy as [Hb Hph Hone Hset]. destruct Hst as [? ? ? ? ? Hf Hr|? ? ? ? Hr|? ? ? ? Hr|? ? ? ? Hr| | |? ? ? ? ? ? ? ? Hc Hr|].
  - destruct (submit_ok _ _ _ _ _ _ Hb Hr) as [Hb' Hid]. apply inv_evolves; [done|done|by eapply submit_evolves|].
    unfold submit_batch_operation in Hr. apply rbind_Ok in Hr as ([] & _ & ([] & _ & Hr)%rbind_Ok).
    destruct (_ && _); [done|]. do 2 (destruct (existsb _ _); [done|]). rewrite Hid in Hr. injection Hr as <- <-. simpl. intros id' j Hin.
    rewrite lookup_insert_ne; [done|]. intros ->. apply Hf. apply list_elem_of_fmap. by exists (id', j).
  - destruct (cancel_ok _ _ _ _ _ Hb Hr) as (Hb' & o0 & Ho0 & _ & E0). apply inv_evolves; [done|done|by eapply cancel_evolves|].
    subst. simpl. intros id' j _ Hop. split; [|done]. destruct (decide (id = id')) as [<-|]; [by exists o0|]. by rewrite lookup_insert_ne in Hop.
  - unfold cleanup_expired_batch_operations in Hr. injection Hr as <- <-. apply delete_inv; [done|]. intros. by eapply expired_final.
  - unfold purge_batch_operations_before in Hr. injection Hr as <- <-. apply delete_inv; [done|]. intros. by eapply expired_final.
  - split; simpl; try done.
  - split; simpl; try done. by intros ? ? ? [= <- <- <-].
  - destruct (runner_ok _ _ _ _ _ _ _ _ _ _ Hb (Hph _ _ _ Hc) Hr) as [Hb' Hp'].
    destruct (runner_keeps _ _ _ _ _ _ _ _ _ _ Hb (Hph _ _ _ Hc) Hr) as ([Hk1 Hk2] & Ha). split; simpl.
    + done.
    + by intros ? ? ? [= <- <- <-].
    + apply NoDup_app. split_and!; [done| |].
      * intros [id j] Hin Hin'. destruct (Ha id j Hin') as (Hns & _ & Hop). apply Hns. by apply Hset.
      * destruct p; simpl; try constructor. destruct ids; [constructor|]. destruct (be_lost env); [constructor|]. destruct (apply_to_job _ _ _ _); [apply NoDup_singleton|constructor].
    + intros id j [Hin|Hin]%elem_of_app Hop; [by apply Hk2, Hset, Hk1|]. by apply Ha.
  - split; simpl; try done.
Qed.

Lemma batch_reachable_inv y : batch_reachable y -> batch_inv y.
Proof.
  intros (jobs & Hr). assert (batch_inv (mkBatchSys jobs no_batches None [])) as H0.
  { split; simpl; [|done|constructor|by intros ? ? ?%elem_of_nil]. split; simpl; [intros ? ? Hl|intros ? ? ? Hl]; by rewrite lookup_empty in Hl. }
  revert H0. induction Hr as [|y y1 y2 H1 _ IH]; [done|]. intros H0. by apply IH, (batch_step_inv y).
Qed.

(** * Every call ends *)

(** A later phase of the call, or further in the same one. *)
Definition phase_stage (p : Phase) : nat :=
  match p with
  | PDone _ => 0 | PFinalize _ _ _ => 1 | PSkip _ _ | PCancel _ => 2 | PState _ _ _ => 3 | PCount _ _ => 4
  | PApply _ _ _ | PRecord _ _ _ _ _ => 5 | PItems _ => 6 | PReload _ => 7 | PScanned _ _ _ => 8
  | PScan _ _ _ _ | PScanInsert _ _ _ _ | PScanPoll _ _ _ _ => 9 | PScanCount _ _ => 10 | PScanMax _ => 11 | PIdle => 12
  end.
Definition phase_left (p : Phase) : nat :=
  match p with
  | PScan _ max _ after => 3 * Z.to_nat (max - after) + 1
  | PScanInsert _ max _ ids => 3 * Z.to_nat (max - List.last ids 0) + 3
  | PScanPoll _ max _ after => 3 * Z.to_nat (max - after) + 2
  | PApply _ ids _ => 2 * length ids
  | PRecord _ _ _ ids _ => 2 * length ids + 1
  | _ => 0
  end.
Definition phase_lt (p' p : Phase) : Prop :=
  (phase_stage p' < phase_stage p)%nat \/ phase_stage p' = phase_stage p /\ (phase_left p' < phase_left p)%nat.
Lemma phase_lt_wf : well_founded phase_lt.
Proof.
  assert (forall n m p, (phase_stage p = n)%nat -> (phase_left p = m)%nat -> Acc phase_lt p) as Ha; [|intros p; by eapply Ha].
  induction n as [n IHn] using lt_wf_ind. induction m as [m IHm] using lt_wf_ind. intros p En Em.
  constructor. intros p' [Hs|[Hs Hl]]; [by eapply IHn; [|done|done]; lia|]. eapply IHm; [|congruence|done]. lia.
Qed.

Lemma page_ids (f : BatchOperationFilter) after max limit (jobs : J) j :
  j ∈ load_matching_job_ids f after max limit jobs -> after < j <= max.
Proof.
  unfold load_matching_job_ids, matching_jobs. intros (k & Hk & _)%elem_of_take. apply list_elem_of_lookup_2 in Hk.
  rewrite (merge_sort_Permutation Z.le) in Hk. apply list_elem_of_fmap in Hk as (w & -> & Hw).
  apply elem_of_filter_b in Hw as [Hw _]. unfold matches_filter in Hw. rewrite !andb_true_iff in Hw. simpl in Hw.
  rewrite Z.ltb_lt, Z.leb_le in Hw. lia.
Qed.
Lemma last_elem (l : list Z) j d : List.last (j :: l) d ∈ j :: l.
Proof.
  revert j. induction l as [|k l IH]; intros j; [left|]. right. apply (IH k).
Qed.
Lemma resume_stage o : (phase_stage (resume o) <= 6)%nat.
Proof. unfold resume. destruct (bo_state o); simpl; lia. Qed.
Lemma dispatch_stage o : (phase_stage (dispatch o) < 12)%nat.
Proof. unfold dispatch. pose proof (resume_stage o). destruct (bo_state o); simpl; lia. Qed.

Lemma runner_progress runner chunk env e jobs b p jobs' b' p' :
  runner_step runner chunk env e jobs b p = (jobs', b', p') -> phase_stage p <> 0%nat -> phase_lt p' p.
Proof.
  intros Hr Hp. unfold phase_lt. destruct p; simpl in *.
  all: repeat match type of Hr with context [match ?x with _ => _ end] => destruct x eqn:?; simpl in Hr end.
  all: try (injection Hr as <- <- <-); simpl; try lia.
  all: try (match goal with |- context [resume ?o] => pose proof (resume_stage o); lia end).
  all: try (match goal with |- context [dispatch ?o] => pose proof (dispatch_stage o); lia end).
  right. split; [done|]. match goal with H : load_matching_job_ids _ _ _ _ _ = _ :: _ |- _ => rename H into Hl end.
  change (match l with [] => z | _ => List.last l 0 end) with (List.last (z :: l) 0).
  pose proof (last_elem l z 0) as Hin. rewrite <- Hl in Hin. apply page_ids in Hin. rewrite Hl in Hin.
  apply Z.ltb_lt in Heqb0. lia.
Qed.

Lemma run_call_step runner chunk fuel env e jobs b p :
  phase_stage p <> 0%nat ->
  run_call runner chunk (S fuel) env e jobs b p
  = let '(jobs, b, p) := runner_step runner chunk env e jobs b p in run_call runner chunk fuel env e jobs b p.
Proof. by destruct p. Qed.
Lemma run_call_ends runner chunk env e jobs b p : exists fuel out, run_call runner chunk fuel env e jobs b p = Some out.
Proof.
  revert jobs b. induction p as [p IH] using (well_founded_induction phase_lt_wf). intros jobs b.
  destruct (decide (phase_stage p = 0)%nat) as [H0|H0].
  - destruct p; try discriminate H0. by exists 0%nat, (r, jobs, b).
  - destruct (runner_step runner chunk env e jobs b p) as [[jobs' b'] p'] eqn:Hr.
    destruct (IH p' (runner_progress _ _ _ _ _ _ _ _ _ _ Hr H0) jobs' b') as (fuel & out & Hf).
    exists (S fuel), out. by rewrite run_call_step, Hr.
Qed.
End Runs.
