(* ===== verification/BatchRuns.v ===== *)
(** What a batch operation has done when it is completed.  The engine promises
    what one change does to its waiting jobs ([JobEngineLaws]); from that, an
    operation that is first in line and is left alone is completed after one
    call of the runner per chunk, every job that matched has its item, and the
    waiting jobs are those of before with the changed ones at their target. *)

From stdpp Require Import relations pretty.
From S2P Require Import Prelude.
From S2P Require Import Error.
From S2P Require Import Json.
From S2P Require Import Job.
From S2P Require Import Batch.
From S2P Require Import BatchFacts.

(** What a storage engine promises: [target] is where a change puts a job. *)
Class JobEngineLaws (E J : Type) `{JobEngine E J} (env_ok : E -> Prop) (wf : J -> Prop)
    (target : BatchOperationSpec -> WaitingJob -> WaitingJob) : Prop := {
  el_ids : forall s, wf s -> NoDup (map wj_id (waiting_jobs s));
  el_positive : forall s w, wf s -> w ∈ waiting_jobs s -> 0 < wj_id w;
  el_wf : forall e spec j s m s', env_ok e -> wf s -> apply_to_job e spec j s = Ok (m, s') -> wf s';
  el_moved : forall e spec j s s', env_ok e -> wf s -> apply_to_job e spec j s = Ok (true, s') ->
    waiting_jobs s' ≡ₚ map (fun w => if wj_id w =? j then target spec w else w) (waiting_jobs s);
  el_unmoved : forall e spec j s s', env_ok e -> wf s -> apply_to_job e spec j s = Ok (false, s') ->
    s' = s /\ forall w, w ∈ waiting_jobs s -> wj_id w = j -> target spec w = w;
  el_target_id : forall spec w, wj_id (target spec w) = wj_id w;
  el_total : forall e spec j s, env_ok e -> validate_spec spec = Ok tt -> wf s -> exists m s', apply_to_job e spec j s = Ok (m, s')
}.

Section Calls.
Context {E J : Type} `{JobEngine E J} (env_ok : E -> Prop) (wf : J -> Prop) (target : BatchOperationSpec -> WaitingJob -> WaitingJob).
Context `{!JobEngineLaws E J env_ok wf target}.
Context (runner : string) (chunk : Z).

(** * Calls without interference *)

(** No row is locked and no connection fails. *)
Definition quiet_env (env : BatchEnv) : Prop := be_lost env = false /\ forall id, be_locked env id = false.
(** A call from a phase on, nothing happening in between; the clock and what an
    engine reads may differ from step to step. *)
Inductive call_runs : J -> Batches -> Phase -> result AwaError BatchOperationRunOutcome -> J -> Batches -> Prop :=
  | CallDone jobs b r : call_runs jobs b (PDone r) r jobs b
  | CallStep env e jobs b p jobs1 b1 p1 r jobs' b' :
      phase_stage p <> 0%nat -> env_ok e -> quiet_env env ->
      runner_step runner chunk env e jobs b p = (jobs1, b1, p1) -> call_runs jobs1 b1 p1 r jobs' b' ->
      call_runs jobs b p r jobs' b'.

Lemma call_step jobs b p r jobs' b' :
  call_runs jobs b p r jobs' b' -> phase_stage p <> 0%nat ->
  exists env e jobs1 b1 p1, env_ok e /\ quiet_env env
    /\ runner_step runner chunk env e jobs b p = (jobs1, b1, p1) /\ call_runs jobs1 b1 p1 r jobs' b'.
Proof. intros []; [done|]. intros _. by exists env, e, jobs1, b1, p1. Qed.

(** * Changing the items of a chunk *)

(** The waiting jobs of [s0], each where its item says, and no item failed. *)
Definition lands (spec : BatchOperationSpec) (id : string) (s0 : J) (b : Batches) (s : J) : Prop :=
  (forall j, bi_state <$> items b !! (id, j) <> Some ItemErrored)
  /\ map wj_id (waiting_jobs s) ≡ₚ map wj_id (waiting_jobs s0)
  /\ forall w0, w0 ∈ waiting_jobs s0 ->
       match bi_state <$> items b !! (id, wj_id w0) with
       | Some ItemProcessed => target spec w0 ∈ waiting_jobs s
       | Some ItemSkipped => w0 ∈ waiting_jobs s /\ target spec w0 = w0
       | _ => w0 ∈ waiting_jobs s
       end.
Lemma lands_refl spec id s0 b : (forall j, items b !! (id, j) = None) -> lands spec id s0 b s0.
Proof. intros Hn. split_and!; [intros j; by rewrite Hn|done|]. intros w0 Hw. by rewrite Hn. Qed.
Lemma lands_items spec id s0 b b' s :
  (forall j, (bi_state <$> items b' !! (id, j)) = (bi_state <$> items b !! (id, j))
             \/ items b !! (id, j) = None /\ (bi_state <$> items b' !! (id, j)) = Some ItemPending) ->
  lands spec id s0 b s -> lands spec id s0 b' s.
Proof.
  intros Hi (He & Hp & Hw). split_and!; [intros j; destruct (Hi j) as [-> |[_ ->]]; done|done|]. intros w0 Hin. specialize (Hw w0 Hin). destruct (Hi (wj_id w0)) as [-> |[E1 ->]]; [done|].
  by rewrite E1 in Hw.
Qed.

Lemma lands_record e now spec id s0 b s j m s' :
  env_ok e -> wf s -> lands spec id s0 b s -> tables_ok b -> held b id working -> pending_item b id j ->
  apply_to_job e spec j s = Ok (m, s') ->
  lands spec id s0 (record_item_outcome_tx now id j (if m then Processed else Skipped) b) s'.
Proof.
  intros He Hwf (Hne & Hp & Hw) Hb (o & Ho & _) (i & Hi & Hs) Ha.
  destruct (record_ok now id j (if m then Processed else Skipped) b i o Hb Ho Hi Hs) as (_ & _ & Ei).
  assert (forall k, k <> j -> bi_state <$> items (record_item_outcome_tx now id j (if m then Processed else Skipped) b) !! (id, k) = bi_state <$> items b !! (id, k)) as Hk.
  { intros k Hk. rewrite Ei, lookup_insert_ne; [done|congruence]. }
  assert (bi_state <$> items (record_item_outcome_tx now id j (if m then Processed else Skipped) b) !! (id, j) = Some (if m then ItemProcessed else ItemSkipped)) as Hj.
  { rewrite Ei, lookup_insert_eq. by destruct m. }
  split; [intros k; destruct (decide (k = j)) as [->|Hkj]; [rewrite Hj; by destruct m|by rewrite (Hk k Hkj)]|]. clear Hne.
  destruct m.
  - pose proof (el_moved _ _ _ _ _ He Hwf Ha) as Hm. split.
    + rewrite Hm, map_map, <- Hp. erewrite map_ext; [done|]. intros w. simpl. destruct (_ =? _); [apply el_target_id|done].
    + intros w0 Hin. specialize (Hw w0 Hin). destruct (decide (wj_id w0 = j)) as [<-|Hne].
      * rewrite Hj. rewrite Hi in Hw. simpl in Hw. rewrite Hs in Hw. rewrite Hm. apply list_elem_of_fmap. exists w0.
        by rewrite Z.eqb_refl.
      * rewrite (Hk _ Hne). revert Hw. assert (forall w, wj_id w = wj_id w0 -> w ∈ waiting_jobs s -> w ∈ waiting_jobs s') as Hkeep.
        { intros w Ew Hw. rewrite Hm. apply list_elem_of_fmap. exists w. split; [|done]. by rewrite (proj2 (Z.eqb_neq _ _)) by congruence. }
        destruct (bi_state <$> items b !! (id, wj_id w0)) as [[]|]; try (by apply Hkeep).
        { apply Hkeep. apply el_target_id. }
        intros [? ?]. split; [by apply Hkeep|done].
  - destruct (el_unmoved _ _ _ _ _ He Hwf Ha) as [-> Ht]. split; [done|]. intros w0 Hin. specialize (Hw w0 Hin).
    destruct (decide (wj_id w0 = j)) as [<-|Hne]; [|by rewrite (Hk _ Hne)].
    rewrite Hj. rewrite Hi in Hw. simpl in Hw. rewrite Hs in Hw. split; [done|by apply Ht].
Qed.
(** * An operation under way *)

(** First in line among the operations that are not final. *)
Definition first_in_line (b : Batches) (id : string) (t : time) : Prop :=
  forall id' o, id' <> id -> operations b !! id' = Some o -> op_final (bo_state o) = false -> t < bo_submitted_at o.
(** The columns of the request. *)
Definition same_request (o o0 : BatchOperation) : Prop :=
  bo_spec o = bo_spec o0 /\ bo_filter o = bo_filter o0 /\ bo_submitted_at o = bo_submitted_at o0.
Record under_way (id : string) (o0 : BatchOperation) (s0 : J) (M : list Z) (b : Batches) (s : J) : Prop := {
  uw_tables : tables_ok b;
  uw_wf : wf s;
  uw_lands : lands (bo_spec o0) id s0 b s;
  uw_op : exists o, operations b !! id = Some o /\ bo_state o = OpRunning /\ same_request o o0
            /\ bo_total_matched o = Some (Z.of_nat (length M));
  uw_items : forall j, is_Some (items b !! (id, j)) <-> j ∈ M;
  uw_first : first_in_line b id (bo_submitted_at o0)
}.

Lemma uw_record id o0 s0 M b s now j out s' :
  under_way id o0 s0 M b s -> pending_item b id j -> wf s' ->
  lands (bo_spec o0) id s0 (record_item_outcome_tx now id j out b) s' ->
  under_way id o0 s0 M (record_item_outcome_tx now id j out b) s'
  /\ item_count id ItemPending (record_item_outcome_tx now id j out b) = item_count id ItemPending b - 1.
Proof.
  intros [] (i & Hi & Hs) Hwf Hl. destruct uw_op0 as (o & Ho & Hst & Hr & Ht).
  destruct (record_ok now id j out b i o uw_tables0 Ho Hi Hs) as (Hb' & (o' & Eo & Est & Esp) & Ei). split; [split; try done|].
  - unfold record_item_outcome_tx in Eo |- *. destruct (outcome_counts out) as [[p k] q]. unfold update_operation in *. simpl in *.
    rewrite (alter_is_insert _ _ o) in * by done. exists (add_counts now p k q (outcome_error out) o). rewrite lookup_insert_eq. done.
  - intros k. rewrite Ei. destruct (decide (j = k)) as [<-|]; [|rewrite lookup_insert_ne by congruence; apply uw_items0].
    rewrite lookup_insert_eq. split; [intros _; apply uw_items0; by eexists|by eexists].
  - intros id' o1 Hne. rewrite Eo, lookup_insert_ne by done. by apply uw_first0.
  - unfold item_count. rewrite Ei, (mark_count _ _ i) by done. unfold moved. destruct out; simpl; repeat destruct (decide _); try done; lia.
Qed.
Lemma uw_held id o0 s0 M b s : under_way id o0 s0 M b s -> held b id working.
Proof. intros []. destruct uw_op0 as (o & Ho & Hs & _). exists o. split; [done|by left]. Qed.
Lemma uw_spec id o0 s0 M b s : under_way id o0 s0 M b s -> validate_spec (bo_spec o0) = Ok tt.
Proof. intros []. destruct uw_op0 as (o & Ho & _ & (<- & _) & _). apply (oo_spec _ _ _ (to_ops _ uw_tables0 _ _ Ho)). Qed.

Lemma chunk_runs id o0 s0 M op ids out jobs b r jobs' b' :
  call_runs jobs b (PApply op ids out) r jobs' b' -> under_way id o0 s0 M b jobs -> bo_id op = id -> bo_spec op = bo_spec o0 ->
  NoDup ids -> (forall j, j ∈ ids -> pending_item b id j) ->
  exists jobs1 b1 out1, call_runs jobs1 b1 (PCount op out1) r jobs' b' /\ under_way id o0 s0 M b1 jobs1
    /\ item_count id ItemPending b1 = item_count id ItemPending b - Z.of_nat (length ids).
Proof.
  revert jobs b out. induction ids as [|j ids IH]; intros jobs b out Hc Hu Eid Esp Hn Hp.
  - apply call_step in Hc as (env & e & jobs1 & b1 & p1 & _ & _ & [= <- <- <-] & Hc); [|done].
    exists jobs, b, out. split_and!; [done|done|simpl; lia].
  - pose proof Hu as [Hb Hwf Hl _ _ _]. pose proof (uw_held _ _ _ _ _ _ Hu) as Hh.
    assert (pending_item b id j) as Hj by (apply Hp; left).
    apply call_step in Hc as (env & e & jobs1 & b1 & p1 & He & [Hlost _] & Hr & Hc); [|done]. simpl in Hr. rewrite Hlost, Eid, Esp in Hr.
    assert (exists now res jobs2 out2, call_runs jobs2 (record_item_outcome_tx now id j res b) (PApply op ids out2) r jobs' b'
              /\ wf jobs2 /\ lands (bo_spec o0) id s0 (record_item_outcome_tx now id j res b) jobs2) as (now & res & jobs2 & out2 & Hc2 & Hwf2 & Hl2).
    { destruct (el_total e (bo_spec o0) j jobs He (uw_spec _ _ _ _ _ _ Hu) Hwf) as (m & jobs2 & Ha). rewrite Ha in Hr. injection Hr as <- <- <-.
      do 4 eexists. split; [exact Hc|]. split; [by eapply el_wf|by eapply lands_record]. }
    destruct (uw_record _ _ _ _ _ _ now j res jobs2 Hu Hj Hwf2 Hl2) as [Hu2 Hcnt]. apply NoDup_cons in Hn as [Hnj Hn].
    destruct (IH _ _ _ Hc2 Hu2 Eid Esp Hn) as (jobs3 & b3 & out3 & ? & ? & E3).
    + intros k Hk. destruct Hh as (o & Ho & Hst). destruct Hj as (i & Hi & Hsi).
      destruct (record_ok now id j res b i o Hb Ho Hi Hsi) as (_ & _ & Ei). unfold pending_item.
      rewrite Ei, lookup_insert_ne by (intros [= ->]; done). apply Hp. by right.
    + exists jobs3, b3, out3. split_and!; [done|done|]. rewrite E3, Hcnt. simpl length. lia.
Qed.

(** * A completed operation *)

Record completed (id : string) (o0 : BatchOperation) (s0 : J) (M : list Z) (b : Batches) (s : J) : Prop := {
  cd_tables : tables_ok b;
  cd_op : exists o, operations b !! id = Some o /\ bo_state o = OpCompleted /\ bo_total_matched o = Some (Z.of_nat (length M));
  cd_items : forall j, is_Some (items b !! (id, j)) <-> j ∈ M;
  cd_lands : lands (bo_spec o0) id s0 b s
}.
Lemma finalize_runs id o0 s0 M out jobs b r jobs' b' :
  call_runs jobs b (PFinalize id OpCompleted out) r jobs' b' -> under_way id o0 s0 M b jobs -> item_count id ItemPending b = 0 ->
  r = Ok out /\ completed id o0 s0 M b' jobs'.
Proof.
  intros Hc [] H0. apply call_step in Hc as (env & e & jobs1 & b1 & p1 & _ & _ & [= <- <- <-] & Hc); [|done].
  inversion Hc; subst; [|done]. split; [done|]. destruct uw_op0 as (o & Ho & Hs & _ & Ht).
  assert (op_final (bo_state o) = false) as Hf by (by rewrite Hs). split; try done.
  - apply (finalize_ok _ _ _ _ o); try done. by left.
  - unfold finalize_operation, update_operation. simpl. rewrite lookup_alter_eq, Ho. simpl. by eexists.
Qed.
Lemma items_runs id o0 s0 M op jobs b r jobs' b' :
  call_runs jobs b (PItems op) r jobs' b' -> under_way id o0 s0 M b jobs -> bo_id op = id -> bo_spec op = bo_spec o0 -> 1 <= chunk ->
  completed id o0 s0 M b' jobs'
  \/ under_way id o0 s0 M b' jobs' /\ 0 < item_count id ItemPending b' <= item_count id ItemPending b - chunk.
Proof.
  intros Hc Hu Eid Esp Hch. apply call_step in Hc as (env & e & jobs1 & b1 & p1 & He & _ & Hr & Hc); [|done]. simpl in Hr. rewrite Eid in Hr.
  destruct (claim_pending_items id (chunk `max` 1) b) as [|j ids] eqn:Hcl; injection Hr as <- <- <-.
  - left. rewrite Z.max_l in * by lia. apply claimed_none in Hcl. by eapply finalize_runs.
  - rewrite <- Hcl in Hc. eapply chunk_runs in Hc as (jobs1 & b1 & out1 & Hc & Hu1 & Hcnt);
      [|done|done|done|apply claimed_NoDup|intros; by eapply claimed_items].
    apply call_step in Hc as (env1 & e1 & jobs2 & b2 & p2 & _ & _ & [= <- <- <-] & Hc); [|done].
    apply call_step in Hc as (env2 & e2 & jobs3 & b3 & p3 & _ & _ & Hr & Hc); [|done]. simpl in Hr. rewrite Eid, pending_length in Hr.
    destruct (uw_op _ _ _ _ _ _ Hu1) as (o & Ho & Hs & _). rewrite Ho, Hs in Hr. rewrite bool_decide_false in Hr by done.
    destruct (Z.eqb_spec (item_count id ItemPending b1) 0) as [H0|H0]; injection Hr as <- <- <-.
    + left. by eapply finalize_runs.
    + right. assert (Z.of_nat (length (claim_pending_items id (chunk `max` 1) b)) = Z.min chunk (item_count id ItemPending b)) as Hlen.
      { unfold claim_pending_items. rewrite <- pending_length, length_take, (Permutation_length (merge_sort_Permutation Z.le _)). lia. }
      pose proof (cnt_nonneg (of_op id ItemPending) (items b1)) as H1. fold (item_count id ItemPending b1) in H1.
      inversion Hc; subst; [|done]. split; [done|]. lia.
Qed.

(** * Taking the first in line *)

#[local] Instance submitted_le_total : Total submitted_le.
Proof. intros a b. unfold submitted_le. lia. Qed.
#[local] Instance submitted_le_trans : Transitive submitted_le.
Proof. intros a b c. unfold submitted_le. lia. Qed.

Lemma first_claimed env b id o :
  tables_ok b -> operations b !! id = Some o -> op_final (bo_state o) = false -> first_in_line b id (bo_submitted_at o) ->
  quiet_env env ->
  claim_next_operation env runner b
  = (Some (claimed_operation (be_now env) runner o), set_operations (<[id := claimed_operation (be_now env) runner o]> (operations b)) b).
Proof.
  intros Hb Ho Hf Hfirst [_ Hl]. unfold claim_next_operation. set (L := List.filter _ _).
  assert (forall x, x ∈ L <-> operations b !! bo_id x = Some x /\ op_final (bo_state x) = false) as HL.
  { intros x. unfold L. rewrite elem_of_filter_b, andb_true_iff, Hl. unfold op_active. rewrite negb_true_iff. split.
    - intros [[Hx _] Hin]. apply list_elem_of_fmap in Hin as ([k x'] & -> & Hin%elem_of_map_to_list). simpl.
      by rewrite (oo_id _ _ _ (to_ops _ Hb _ _ Hin)).
    - intros [Hx Hfx]. split; [done|]. apply list_elem_of_fmap. exists (bo_id x, x). split; [done|]. by apply elem_of_map_to_list. }
  pose proof (oo_id _ _ _ (to_ops _ Hb _ _ Ho)) as Eid.
  destruct (head (merge_sort submitted_le L)) as [x|] eqn:Hh.
  - assert (x = o) as ->.
    { assert (o ∈ L) as Hol by (apply HL; rewrite Eid; done). pose proof (head_sorted submitted_le L x o Hh Hol) as Hle.
      apply head_elem in Hh. rewrite (merge_sort_Permutation submitted_le) in Hh. apply HL in Hh as [Hx Hfx].
      destruct (decide (bo_id x = id)) as [E1|Hne]; [rewrite E1 in Hx; congruence|].
      specialize (Hfirst _ _ Hne Hx Hfx). unfold submitted_le in Hle. lia. }
    simpl. by rewrite Eid.
  - exfalso. assert (o ∈ merge_sort submitted_le L) as Hin by (rewrite (merge_sort_Permutation submitted_le); apply HL; rewrite Eid; done).
    destruct (merge_sort submitted_le L); [by apply elem_of_nil in Hin|done].
Qed.

Lemma uw_claim now id o0 s0 M b s o :
  under_way id o0 s0 M b s -> operations b !! id = Some o ->
  under_way id o0 s0 M (set_operations (<[id := claimed_operation now runner o]> (operations b)) b) s.
Proof.
  intros [] Ho. destruct uw_op0 as (o1 & Ho1 & Hs & Hr & Ht). rewrite Ho in Ho1. injection Ho1 as <-. split; simpl; try done.
  - apply (tables_touch _ _ o); [done|done|]. intros []. split; simpl; rewrite ?Hs in *; done.
  - exists (claimed_operation now runner o). rewrite lookup_insert_eq. unfold claimed_operation, same_request. simpl. by rewrite Hs.
  - intros id' o1 Hne. simpl. rewrite lookup_insert_ne by done. by apply uw_first0.
Qed.
Lemma idle_runs id o0 s0 M jobs b r jobs' b' :
  call_runs jobs b PIdle r jobs' b' -> under_way id o0 s0 M b jobs -> 1 <= chunk ->
  completed id o0 s0 M b' jobs'
  \/ under_way id o0 s0 M b' jobs' /\ 0 < item_count id ItemPending b' <= item_count id ItemPending b - chunk.
Proof.
  intros Hc Hu Hch. pose proof Hu as [Hb _ _ (o & Ho & Hs & (Esp & Efi & Esub) & Ht) _ Hfirst].
  apply call_step in Hc as (env & e & jobs1 & b1 & p1 & _ & Hl & Hr & Hc); [|done]. simpl in Hr.
  rewrite (first_claimed _ _ id o) in Hr by first [done | by rewrite Hs | by rewrite Esub]. injection Hr as <- <- <-.
  unfold dispatch, resume in Hc. simpl in Hc. rewrite Hs in Hc.
  eapply items_runs in Hc; [exact Hc|by apply uw_claim|simpl|done|done]. by apply (to_ops _ Hb).
Qed.

(** * The scan *)

Definition matched (f : BatchOperationFilter) (s : J) : list Z := map wj_id (matching_jobs f None None s).

Lemma matching_window f s after max w :
  w ∈ matching_jobs f (Some after) (Some max) s <-> w ∈ matching_jobs f None None s /\ after < wj_id w <= max.
Proof.
  unfold matching_jobs. rewrite !elem_of_filter_b. unfold matches_filter. simpl.
  rewrite !andb_true_r, !andb_true_iff, Z.ltb_lt, Z.leb_le. tauto.
Qed.
Lemma matched_window f s after max j :
  j ∈ map wj_id (matching_jobs f (Some after) (Some max) s) <-> j ∈ matched f s /\ after < j <= max.
Proof.
  unfold matched. rewrite !list_elem_of_fmap. setoid_rewrite matching_window. naive_solver.
Qed.
Lemma matched_NoDup f s : wf s -> NoDup (matched f s).
Proof. intros Hwf. unfold matched, matching_jobs. apply NoDup_map_filter. by eapply el_ids. Qed.
Lemma max_matching f s m : max_matching_job_id f s = Some m -> m ∈ matched f s /\ forall j, j ∈ matched f s -> j <= m.
Proof. apply max_of_spec. Qed.

(** A page holds every match up to its last id. *)
Lemma sorted_prefix (l : list Z) n x y : StronglySorted Z.le l -> x ∈ take n l -> y ∈ l -> y < x -> y ∈ take n l.
Proof.
  revert n. induction l as [|a l IH]; intros n Hs Hx Hy Hlt; [by apply elem_of_nil in Hy|].
  apply StronglySorted_inv in Hs as [Hs Ha]. destruct n as [|n]; [by apply elem_of_nil in Hx|]. simpl in *.
  apply elem_of_cons in Hy as [->|Hy]; [left|]. right. apply elem_of_cons in Hx as [->|Hx].
  - rewrite Forall_forall in Ha. specialize (Ha y Hy). lia.
  - by apply IH.
Qed.
Lemma page_complete f s after max limit j x :
  x ∈ load_matching_job_ids f after max limit s -> j ∈ matched f s -> after < j <= x -> j ∈ load_matching_job_ids f after max limit s.
Proof.
  intros Hx Hj Hjx. pose proof (page_ids _ _ _ _ _ _ Hx) as Hxm. destruct (decide (j = x)) as [->|Hne]; [done|].
  unfold load_matching_job_ids in *. eapply sorted_prefix; [apply StronglySorted_merge_sort; [|intros ? ?; lia]|exact Hx| |lia].
  - intros a b c. lia.
  - rewrite (merge_sort_Permutation Z.le). apply matched_window. split; [done|lia].
Qed.
Lemma page_matched f s after max limit j : j ∈ load_matching_job_ids f after max limit s -> j ∈ matched f s /\ after < j <= max.
Proof.
  unfold load_matching_job_ids. intros (k & Hk & _)%elem_of_take. apply list_elem_of_lookup_2 in Hk.
  rewrite (merge_sort_Permutation Z.le) in Hk. by apply matched_window.
Qed.
Lemma page_empty f s after max limit j :
  load_matching_job_ids f after max limit s = [] -> j ∈ matched f s -> j <= max -> j <= after.
Proof.
  unfold load_matching_job_ids. intros Hl Hj Hm. destruct (decide (j <= after)) as [|Hlt]; [done|]. exfalso.
  assert (j ∈ merge_sort Z.le (map wj_id (matching_jobs f (Some after) (Some max) s))) as Hin
    by (rewrite (merge_sort_Permutation Z.le); apply matched_window; split; [done|lia]).
  destruct (merge_sort Z.le _); [by apply elem_of_nil in Hin|]. destruct (Z.to_nat _) eqn:Hn; [lia|done].
Qed.

(** The items of the matches up to [after] are there, pending, and no others. *)
Record scanned (id : string) (o0 : BatchOperation) (s : J) (after : Z) (b : Batches) : Prop := {
  sd_tables : tables_ok b;
  sd_op : exists o, operations b !! id = Some o /\ bo_state o = OpScanning /\ same_request o o0;
  sd_items : forall j, items b !! (id, j) = if decide (j ∈ matched (bo_filter o0) s /\ j <= after) then Some new_item else None;
  sd_first : first_in_line b id (bo_submitted_at o0)
}.
Lemma scanned_page id o0 s after max limit x b b' :
  scanned id o0 s after b -> x ∈ load_matching_job_ids (bo_filter o0) after max limit s ->
  (forall j, j ∈ load_matching_job_ids (bo_filter o0) after max limit s -> j <= x) ->
  insert_operation_items id (load_matching_job_ids (bo_filter o0) after max limit s) b = Ok b' ->
  scanned id o0 s x b'.
Proof.
  intros [Hb (o & Ho & Hs & Hr) Hi Hf] Hx Hle Hins.
  assert (op_final (bo_state o) = false /\ bo_state o <> OpPending) as [Hnf Hnp] by (by rewrite Hs).
  destruct (insert_ok _ _ _ _ _ Hb Hins Ho Hnf Hnp) as (Hb' & Eo & Ei). split; [done| | |].
  - exists o. by rewrite Eo.
  - intros j. rewrite Ei, add_lookup, Hi. pose proof (page_ids _ _ _ _ _ _ Hx) as Hxa. simpl.
    destruct (decide (j ∈ matched (bo_filter o0) s /\ j <= after)) as [[Hm Hja]|Hno].
    + rewrite decide_True; [done|]. split; [done|lia].
    + destruct (decide (_ /\ j ∈ _)) as [[_ Hin]|Hnin].
      * rewrite decide_True; [done|]. split; [by apply (page_matched _ _ _ _ _ _ Hin)|by apply Hle].
      * rewrite decide_False; [done|]. intros [Hm Hjx]. apply Hnin. split; [done|]. eapply page_complete; [done|done|].
        destruct (decide (j <= after)); [exfalso; tauto|lia].
  - intros id' o'. rewrite Eo. apply Hf.
Qed.
Lemma last_greatest (l : list Z) j d x : StronglySorted Z.le (j :: l) -> x ∈ j :: l -> x <= List.last (j :: l) d.
Proof.
  revert j x. induction l as [|k l IH]; intros j x Hs Hx.
  - apply list_elem_of_singleton in Hx. simpl. lia.
  - apply StronglySorted_inv in Hs as [Hs Hj]. change (List.last (j :: k :: l) d) with (List.last (k :: l) d).
    apply elem_of_cons in Hx as [->|Hx]; [|by apply IH]. rewrite Forall_forall in Hj.
    etransitivity; [apply (Hj k); left|]. apply IH; [done|left].
Qed.
Lemma page_sorted f after max limit (s : J) : StronglySorted Z.le (load_matching_job_ids f after max limit s).
Proof.
  unfold load_matching_job_ids. apply (StronglySorted_app_1_l _ _ (drop (Z.to_nat (limit `max` 1)) (merge_sort Z.le (map wj_id (matching_jobs f (Some after) (Some max) s))))).
  rewrite take_drop. apply StronglySorted_merge_sort; [intros ? ? ?; lia|intros ? ?; lia].
Qed.

Lemma scan_runs id o0 op max total after jobs b r jobs' b' :
  call_runs jobs b (PScan op max total after) r jobs' b' -> scanned id o0 jobs after b -> bo_id op = id -> bo_filter op = bo_filter o0 ->
  (forall j, j ∈ matched (bo_filter o0) jobs -> j <= max) ->
  exists b1 after1, call_runs jobs b1 (PScanned op max total) r jobs' b' /\ scanned id o0 jobs after1 b1
    /\ forall j, j ∈ matched (bo_filter o0) jobs -> j <= after1.
Proof.
  intros Hc Hs Eid Ef Hm. remember (Z.to_nat (max - after)) as n eqn:Hn. revert after b Hn Hc Hs.
  induction n as [n IH] using lt_wf_ind. intros after b Hn Hc Hs.
  apply call_step in Hc as (env & e & jobs1 & b1 & p1 & _ & _ & Hr & Hc); [|done]. simpl in Hr. rewrite Ef in Hr.
  destruct (Z.ltb_spec after max) as [Hlt|Hge]; [|injection Hr as <- <- <-; exists b, after; split_and!; try done; intros j Hj; specialize (Hm j Hj); lia].
  destruct (load_matching_job_ids (bo_filter o0) after max SCAN_PAGE_SIZE jobs) as [|j0 ids] eqn:Hl; injection Hr as <- <- <-.
  - exists b, after. split_and!; try done. intros j Hj. eapply page_empty; [exact Hl|done|by apply Hm].
  - pose proof (last_elem ids j0 0) as Hlast. pose proof (page_sorted (bo_filter o0) after max SCAN_PAGE_SIZE jobs) as Hsort. rewrite Hl in Hsort.
    assert (List.last (j0 :: ids) 0 ∈ load_matching_job_ids (bo_filter o0) after max SCAN_PAGE_SIZE jobs) as Hx by (by rewrite Hl).
    apply call_step in Hc as (env1 & e1 & jobs2 & b2 & p2 & _ & _ & Hr & Hc); [|done]. cbn [runner_step] in Hr. rewrite Eid, <- Hl in Hr.
    destruct (insert_operation_items _ _ b) as [b3|] eqn:Hins.
    2:{ exfalso. destruct (sd_op _ _ _ _ _ Hs) as (o & Ho & _). unfold insert_operation_items in Hins. rewrite Ho in Hins.
        by destruct (load_matching_job_ids _ _ _ _ _). }
    rewrite Hl in Hr. injection Hr as <- <- <-.
    assert (scanned id o0 jobs (List.last (j0 :: ids) 0) b3) as Hs3.
    { eapply scanned_page; [exact Hs|exact Hx| |exact Hins]. rewrite Hl. intros j. by apply last_greatest. }
    apply call_step in Hc as (env2 & e2 & jobs4 & b4 & p4 & _ & _ & Hr & Hc); [|done]. cbn [runner_step] in Hr. rewrite Eid in Hr.
    destruct (sd_op _ _ _ _ _ Hs3) as (o & Ho & Hst & _). rewrite Ho, Hst, bool_decide_false in Hr by done. injection Hr as <- <- <-.
    pose proof (page_ids _ _ _ _ _ _ Hx) as Hpx. apply (IH (Z.to_nat (max - List.last (j0 :: ids) 0)) ltac:(lia) _ _ eq_refl Hc Hs3).
Qed.

Definition max_or_zero (f : BatchOperationFilter) (s : J) : Z := default 0 (max_matching_job_id f s).
Lemma max_bounds f s j : wf s -> j ∈ matched f s -> 0 < j <= max_or_zero f s.
Proof.
  intros Hwf Hj. unfold max_or_zero. destruct (max_matching_job_id f s) as [m|] eqn:Hm.
  - apply max_matching in Hm as [_ Hm]. split; [|by apply Hm]. apply list_elem_of_fmap in Hj as (w & -> & Hw).
    apply elem_of_filter_b in Hw as [_ Hw]. by eapply el_positive.
  - apply max_of_None in Hm. unfold matched in Hj. rewrite Hm in Hj. by apply elem_of_nil in Hj.
Qed.
Lemma total_is_matched f s :
  wf s -> (if max_or_zero f s =? 0 then 0 else count_matching_jobs f (Some 0) (Some (max_or_zero f s)) s) = Z.of_nat (length (matched f s)).
Proof.
  intros Hwf. destruct (Z.eqb_spec (max_or_zero f s) 0) as [H0|H0].
  - destruct (matched f s) as [|j l] eqn:E0; [done|]. pose proof (max_bounds f s j Hwf ltac:(rewrite E0; left)). lia.
  - unfold count_matching_jobs, matched. rewrite length_map. do 2 f_equal. unfold matching_jobs. apply filter_ext_in. intros w Hw.
    unfold matches_filter. simpl. rewrite !andb_true_r.
    match goal with |- (?x && _ && _) = _ => destruct x eqn:Hx end; [|done]. simpl.
    assert (wj_id w ∈ matched f s) as Hm.
    { apply list_elem_of_fmap. exists w. split; [done|]. apply elem_of_filter_b. split; [|by apply list_elem_of_In].
      unfold matches_filter. simpl. by rewrite !andb_true_r. }
    pose proof (max_bounds f s _ Hwf Hm). apply andb_true_iff. rewrite Z.ltb_lt, Z.leb_le. lia.
Qed.

Lemma scanned_start id o0 s after total max b op r b' now :
  scanned id o0 s after b -> wf s -> (forall j, j ∈ matched (bo_filter o0) s -> j <= after) -> total = Z.of_nat (length (matched (bo_filter o0) s)) ->
  bo_id op = id -> start_running now (bo_id op) total max b = (r, b') ->
  exists o, r = Some o /\ bo_state o = OpRunning /\ bo_id o = id /\ bo_spec o = bo_spec o0 /\ under_way id o0 s (matched (bo_filter o0) s) b' s.
Proof.
  intros [Hb (o & Ho & Hs & Hreq) Hi Hf] Hwf Hall -> Eid Hst. unfold start_running in Hst. rewrite Eid, Ho, bool_decide_true in Hst by done.
  injection Hst as <- <-. eexists. split; [done|]. destruct Hreq as (Esp & Efi & Esub). pose proof (oo_id _ _ _ (to_ops _ Hb _ _ Ho)) as E1.
  split_and!; simpl; try done. split; simpl; try done.
  - apply (tables_touch _ _ o); [done|done|]. intros []. rewrite Hs in *. split; simpl; done.
  - split_and!; [|done|]; intros; simpl; rewrite Hi; by destruct (decide _).
  - eexists. rewrite lookup_insert_eq. split; [done|]. done.
  - intros j. rewrite Hi. destruct (decide _) as [[? ?]|Hn]; [by split; [|by eexists]|]. split; [by intros []|]. intros Hj. exfalso. apply Hn. auto.
  - intros id' o' Hne. simpl. rewrite lookup_insert_ne by done. by apply Hf.
Qed.

(** The first call of a pending operation scans and works on the first chunk. *)
Lemma first_call id o0 jobs b r jobs' b' :
  call_runs jobs b PIdle r jobs' b' -> tables_ok b -> wf jobs -> operations b !! id = Some o0 -> bo_state o0 = OpPending ->
  first_in_line b id (bo_submitted_at o0) -> 1 <= chunk ->
  let M := matched (bo_filter o0) jobs in
  completed id o0 jobs M b' jobs'
  \/ under_way id o0 jobs M b' jobs' /\ 0 < item_count id ItemPending b' <= Z.of_nat (length M) - chunk.
Proof.
  intros Hc Hb Hwf Ho Hs Hf Hch M. pose proof (to_ops _ Hb _ _ Ho) as Hok. pose proof (oo_id _ _ _ Hok) as Eid.
  apply call_step in Hc as (env & e & jobs1 & b1 & p1 & _ & Hl & Hr & Hc); [|done]. cbn [runner_step] in Hr.
  rewrite (first_claimed _ _ id o0) in Hr by first [done | by rewrite Hs]. injection Hr as <- <- <-.
  set (op := claimed_operation (be_now env) runner o0) in *. set (b0 := set_operations _ _) in *.
  assert (dispatch op = PScanMax op) as Ed by (unfold dispatch, op, claimed_operation; simpl; by rewrite Hs). rewrite Ed in Hc.
  assert (tables_ok b0) as Hb0.
  { apply (tables_touch _ _ o0); [done|done|]. intros []. split; simpl; rewrite ?Hs in *; try done. }
  apply call_step in Hc as (env1 & e1 & jobs2 & b2 & p2 & _ & _ & Hr & Hc); [|done]. cbn [runner_step] in Hr.
  change (bo_spec op) with (bo_spec o0) in Hr. change (bo_filter op) with (bo_filter o0) in Hr. rewrite (oo_filter _ _ _ Hok) in Hr.
  injection Hr as <- <- <-. apply call_step in Hc as (env2 & e2 & jobs3 & b3 & p3 & _ & _ & Hr & Hc); [|done]. cbn [runner_step] in Hr.
  change (bo_filter op) with (bo_filter o0) in Hr. fold (max_or_zero (bo_filter o0) jobs) in Hr. rewrite total_is_matched in Hr by done.
  injection Hr as <- <- <-.
  assert (scanned id o0 jobs 0 b0) as Hsc.
  { split; [done| | |].
    - exists op. unfold b0. simpl. rewrite lookup_insert_eq. split; [done|]. unfold op, claimed_operation, same_request. simpl. by rewrite Hs.
    - intros j. change (items b0) with (items b). rewrite (proj2 (oo_new _ _ _ Hok Hs)). rewrite decide_False; [done|].
      intros [Hj Hj0]. pose proof (max_bounds _ _ _ Hwf Hj). lia.
    - intros id' o' Hne. unfold b0. simpl. rewrite lookup_insert_ne by done. apply (Hf id' o' Hne). }
  eapply scan_runs in Hc as (b4 & after & Hc & Hsc4 & Hall); [|exact Hsc|done|done|intros j Hj; by apply max_bounds].
  apply call_step in Hc as (env3 & e3 & jobs5 & b5 & p5 & _ & _ & Hr & Hc); [|done]. cbn [runner_step] in Hr.
  destruct (start_running _ _ _ _ _) as [st b6] eqn:Hst.
  eapply scanned_start in Hst as (o & -> & Hso & Eido & Espo & Hu); [|exact Hsc4|done|done|done|done]. injection Hr as <- <- <-.
  unfold resume in Hc. rewrite Hso in Hc. eapply items_runs in Hc; [|exact Hu|done|done|done].
  destruct Hc as [?|[Hu' Hcnt]]; [by left|]. right. split; [done|]. split; [lia|].
  enough (item_count id ItemPending b6 <= Z.of_nat (length M)) by lia. rewrite <- pending_length. apply inj_le.
  apply submseteq_length, NoDup_submseteq; [apply pending_NoDup|]. intros j (i & Hi & _)%pending_elem. apply (uw_items _ _ _ _ _ _ Hu). by eexists.
Qed.

(** * Whole operations *)

(** What a completed operation has done: the jobs it matched are where it was to
    take them, the others where they were, and the counters say so. *)
Definition carried_out (id : string) (o0 : BatchOperation) (s0 : J) (b : Batches) (s : J) : Prop :=
  waiting_jobs s ≡ₚ map (fun w => if matches_filter (bo_filter o0) None None w then target (bo_spec o0) w else w) (waiting_jobs s0)
  /\ exists o, operations b !! id = Some o /\ bo_state o = OpCompleted /\ bo_errored o = 0
       /\ bo_total_matched o = Some (Z.of_nat (length (matched (bo_filter o0) s0)))
       /\ bo_processed o + bo_skipped o = Z.of_nat (length (matched (bo_filter o0) s0)).
Lemma completed_at id o0 s0 b s w :
  wf s0 -> completed id o0 s0 (matched (bo_filter o0) s0) b s -> w ∈ waiting_jobs s0 ->
  (if matches_filter (bo_filter o0) None None w then target (bo_spec o0) w else w) ∈ waiting_jobs s.
Proof.
  intros Hwf [Hb (o & Ho & Hs & _) Hi (Hne & _ & Hl)] Hw. specialize (Hl w Hw).
  assert (item_count id ItemPending b = 0) as H0 by (apply (oo_done _ _ _ (to_ops _ Hb _ _ Ho)); by rewrite Hs).
  destruct (matches_filter _ _ _ w) eqn:Hm.
  - assert (wj_id w ∈ matched (bo_filter o0) s0) as HM by (apply list_elem_of_fmap; exists w; split; [done|]; by apply elem_of_filter_b).
    apply Hi in HM as (i & HM). specialize (Hne (wj_id w)). rewrite HM in Hl, Hne. simpl in Hl, Hne.
    destruct (bi_state i) eqn:Hst; [|done|by destruct Hl as [? ->]|done].
    exfalso. by eapply (proj1 (cnt_zero _ _) H0).
  - destruct (items b !! (id, wj_id w)) as [i|] eqn:HM; [|done]. exfalso.
    assert (wj_id w ∈ matched (bo_filter o0) s0) as Hin by (apply Hi; by eexists).
    apply list_elem_of_fmap in Hin as (w' & E' & Hin). apply elem_of_filter_b in Hin as [Hm' Hin].
    assert (w = w') as <- by (by apply (NoDup_map_inj wj_id (waiting_jobs s0)); [by eapply el_ids|..]). congruence.
Qed.
Lemma completed_exact id o0 s0 b s :
  wf s0 -> completed id o0 s0 (matched (bo_filter o0) s0) b s -> carried_out id o0 s0 b s.
Proof.
  intros Hwf Hd. pose proof Hd as [Hb (o & Ho & Hs & Ht) Hi (Hne & Hids & _)]. split.
  - symmetry. assert (NoDup (map wj_id (waiting_jobs s0))) as Hn by by eapply el_ids.
    set (f := fun w => if matches_filter _ _ _ w then _ else w). assert (map wj_id (map f (waiting_jobs s0)) = map wj_id (waiting_jobs s0)) as Ef.
    { rewrite map_map. apply map_ext. intros w. unfold f. destruct (matches_filter _ _ _ w); [apply el_target_id|done]. }
    apply submseteq_length_Permutation.
    + apply NoDup_submseteq; [apply (NoDup_fmap_1 wj_id); rewrite <- Ef in Hn; exact Hn|]. intros w (w0 & -> & Hw0)%list_elem_of_fmap. by eapply completed_at.
    + apply Permutation_length in Hids. rewrite !length_map in Hids. rewrite length_map. lia.
  - exists o. pose proof (to_ops _ Hb _ _ Ho) as Hok. assert (item_count id ItemErrored b = 0) as He.
    { apply cnt_zero. intros [id' j] i Hij [E1 E2]. simpl in E1, E2. subst id'. apply (Hne j). rewrite Hij. simpl. by rewrite E2. }
    assert (item_count id ItemPending b = 0) as H0 by (apply (oo_done _ _ _ Hok); by rewrite Hs).
    pose proof (item_count_split id b) as Hsum. rewrite (item_count_total id b (matched (bo_filter o0) s0)) in Hsum by first [done | by apply matched_NoDup].
    split_and!; [done|done| |done|]; rewrite ?(oo_processed _ _ _ Hok), ?(oo_skipped _ _ _ Hok), ?(oo_errored _ _ _ Hok); lia.
Qed.

Inductive calls : nat -> J -> Batches -> J -> Batches -> Prop :=
  | CallsNone jobs b : calls 0 jobs b jobs b
  | CallsMore n r jobs b jobs1 b1 jobs' b' :
      call_runs jobs b PIdle r jobs1 b1 -> calls n jobs1 b1 jobs' b' -> calls (S n) jobs b jobs' b'.

Lemma under_way_completes n id o0 s0 M jobs b jobs' b' :
  calls n jobs b jobs' b' -> under_way id o0 s0 M b jobs -> 1 <= chunk -> item_count id ItemPending b < Z.of_nat n * chunk + 1 -> (0 < n)%nat ->
  exists k jobs1 b1, (k <= n)%nat /\ calls k jobs b jobs1 b1 /\ completed id o0 s0 M b1 jobs1 /\ calls (n - k) jobs1 b1 jobs' b'.
Proof.
  intros Hc Hu Hch. revert Hu. induction Hc as [|n r jobs b jobs1 b1 jobs' b' H1 Hc IH]; intros Hu Hcnt Hn; [lia|].
  destruct (idle_runs _ _ _ _ _ _ _ _ _ H1 Hu Hch) as [Hd|[Hu' Hcnt']].
  - exists 1%nat, jobs1, b1. split_and!; [lia|by econstructor; [|constructor]|done|]. replace (S n - 1)%nat with n by lia. done.
  - destruct IH as (k & jobs2 & b2 & Hk & Hc2 & Hd & Hc3); [done|nia|destruct n; nia|].
    exists (S k), jobs2, b2. split_and!; [lia|by econstructor|done|done].
Qed.
Lemma pending_completes id o0 jobs b n jobs' b' :
  calls n jobs b jobs' b' -> tables_ok b -> wf jobs -> operations b !! id = Some o0 -> bo_state o0 = OpPending ->
  first_in_line b id (bo_submitted_at o0) -> 1 <= chunk -> Z.of_nat (length (matched (bo_filter o0) jobs)) < Z.of_nat n * chunk + 1 -> (0 < n)%nat ->
  exists k jobs1 b1, (k <= n)%nat /\ calls k jobs b jobs1 b1
    /\ completed id o0 jobs (matched (bo_filter o0) jobs) b1 jobs1 /\ calls (n - k) jobs1 b1 jobs' b'.
Proof.
  intros Hc Hb Hwf Ho Hs Hf Hch Hlen Hn. inversion Hc as [|m r ? ? jobs1 b1 ? ? H1 Hc1]; subst; [lia|].
  destruct (first_call _ _ _ _ _ _ _ H1 Hb Hwf Ho Hs Hf Hch) as [Hd|[Hu Hcnt]].
  - exists 1%nat, jobs1, b1. split_and!; [lia|by econstructor; [|constructor]|done|]. replace (S m - 1)%nat with m by lia. done.
  - eapply under_way_completes in Hc1 as (k & jobs2 & b2 & Hk & Hc2 & Hd & Hc3); [|exact Hu|done|nia|destruct m; nia].
    exists (S k), jobs2, b2. split_and!; [lia|by econstructor|done|done].
Qed.
Lemma calls_exist n env e jobs b : env_ok e -> quiet_env env -> exists jobs' b', calls n jobs b jobs' b'.
Proof.
  intros He Hl. assert (forall p jobs b fuel out, run_call runner chunk fuel env e jobs b p = Some out ->
    call_runs jobs b p (fst (fst out)) (snd (fst out)) (snd out)) as Hrun.
  { intros p0 j0 b0 fuel. revert p0 j0 b0. induction fuel as [|fuel IH]; intros p0 j0 b0 out Ho.
    - destruct p0; try done. injection Ho as <-. constructor.
    - destruct (decide (phase_stage p0 = 0)%nat) as [H0|H0].
      + destruct p0; try done. injection Ho as <-. constructor.
      + rewrite run_call_step in Ho by done. destruct (runner_step _ _ _ _ _ _ _) as [[j1 b1] p1] eqn:Hr.
        eapply CallStep; [done|done|done|exact Hr|by apply IH]. }
  revert jobs b. induction n as [|n IH]; intros jobs b; [by exists jobs, b; constructor|].
  destruct (run_call_ends runner chunk env e jobs b PIdle) as (fuel & [[r j1] b1] & Hf). apply Hrun in Hf. simpl in Hf.
  destruct (IH j1 b1) as (jobs' & b' & Hc). exists jobs', b'. by econstructor.
Qed.
End Calls.
