(* ===== verification/BatchCanonical.v ===== *)
(** Batch operations on canonical storage: the statements of
    batch_operations.rs against [awa.jobs], the engine they form, and that it
    keeps what the runner counts on. *)

From stdpp Require Import relations.
From S2P Require Import Prelude.
From S2P Require Import Error.
From S2P Require Import Json.
From S2P Require Import Job.
From S2P Require Import Canonical.
From S2P Require Import CanonicalFacts.
From S2P Require Import Batch.
From S2P Require Import BatchFacts.
From S2P Require Import BatchRuns.

(** * The statements *)

(** [jsonb_set(v, '{k}', x, true)]. *)
Definition jsonb_set (v : json) (k : string) (x : json) : result AwaError json :=
  match v with
  | JObject m => Ok (JObject (map_insert k x m))
  | JArray _ => Err (Database (SqlxDatabase (Some "22P02") None))
  | _ => Err (Database (SqlxDatabase (Some "22023") None))
  end.
Definition ORIGINAL_QUEUE_KEY : string := "_awa_original_queue".
Definition stamp_once (k : string) (x : json) (metadata : json) : result AwaError json :=
  if jsonb_exists metadata k then Ok metadata else jsonb_set metadata k x.

(** [state IN ('available', 'scheduled')]. *)
Definition is_waiting (r : JobRow) : bool := state_is Available r || state_is Scheduled r.
Definition canonical_set_priority_tx (id priority : Z) (db : Db) : result AwaError (bool * Db) :=
  match lookup_job id db with
  | Some r =>
      if is_waiting r && negb (j_priority r =? priority)
      then
        let? metadata := stamp_once ORIGINAL_PRIORITY_KEY (i64_number (j_priority r)) (j_metadata r) in
        let? (_, db) := update_view (fun r => r |> set_priority priority |> set_metadata metadata) r db in
        Ok (true, db)
      else Ok (false, db)
  | None => Ok (false, db)
  end.
Definition set_queue (queue : string) (r : JobRow) : JobRow :=
  {| j_id := j_id r; j_kind := j_kind r; j_queue := queue; j_args := j_args r; j_state := j_state r; j_priority := j_priority r;
     j_attempt := j_attempt r; j_run_lease := j_run_lease r; j_max_attempts := j_max_attempts r; j_run_at := j_run_at r;
     j_heartbeat_at := j_heartbeat_at r; j_deadline_at := j_deadline_at r; j_attempted_at := j_attempted_at r;
     j_finalized_at := j_finalized_at r; j_created_at := j_created_at r; j_errors := j_errors r; j_metadata := j_metadata r;
     j_tags := j_tags r; j_unique_key := j_unique_key r; j_unique_states := j_unique_states r; j_callback_id := j_callback_id r;
     j_callback_timeout_at := j_callback_timeout_at r; j_callback_filter := j_callback_filter r;
     j_callback_on_complete := j_callback_on_complete r; j_callback_on_fail := j_callback_on_fail r;
     j_callback_transform := j_callback_transform r; j_progress := j_progress r; j_output := j_output r |}.
Definition canonical_move_queue_tx (id : Z) (queue : string) (priority : option Z) (db : Db) : result AwaError (bool * Db) :=
  match lookup_job id db with
  | Some r =>
      if is_waiting r && (negb (String.eqb (j_queue r) queue) || match priority with Some p => negb (j_priority r =? p) | None => false end)
      then
        let? metadata := match priority with
                         | None => Ok (j_metadata r)
                         | Some _ => stamp_once ORIGINAL_PRIORITY_KEY (i64_number (j_priority r)) (j_metadata r)
                         end in
        let? metadata := stamp_once ORIGINAL_QUEUE_KEY (JString (j_queue r)) metadata in
        let? (_, db) := update_view (fun r => r |> set_queue queue |> set_priority (default (j_priority r) priority)
                                                |> set_metadata metadata) r db in
        Ok (true, db)
      else Ok (false, db)
  | None => Ok (false, db)
  end.
(** [apply_to_job_tx] without queue storage. *)
Definition canonical_apply (spec : BatchOperationSpec) (id : Z) (db : Db) : result AwaError (bool * Db) :=
  match spec with
  | SetPriority priority => canonical_set_priority_tx id priority db
  | MoveQueue queue priority => canonical_move_queue_tx id queue priority db
  end.

Definition waiting_of (r : JobRow) : WaitingJob :=
  mkWaitingJob (j_id r) (j_kind r) (j_queue r) (j_priority r) (j_state r) (j_tags r) (j_created_at r).
Definition all_rows (db : Db) : list JobRow := rows_of (hot db) ++ rows_of (scheduled db).
#[global] Instance canonical_engine : JobEngine unit Db := {
  waiting_jobs db := map waiting_of (List.filter is_waiting (all_rows db));
  apply_to_job _ := canonical_apply
}.

(** * The engine's promises *)

Definition canonical_target (spec : BatchOperationSpec) (w : WaitingJob) : WaitingJob :=
  let at_ queue priority := mkWaitingJob (wj_id w) (wj_kind w) queue priority (wj_state w) (wj_tags w) (wj_created_at w) in
  match spec with
  | SetPriority p => at_ (wj_queue w) p
  | MoveQueue q p => at_ q (default (wj_priority w) p)
  end.
Record canonical_ok (db : Db) : Prop := {
  co_wf : wf db;
  co_positive : forall id r, lookup_job id db = Some r -> 0 < id;
  co_metadata : forall id r, lookup_job id db = Some r -> is_object (j_metadata r) = true
}.

Lemma all_rows_elem db r : wf db -> r ∈ all_rows db <-> lookup_job (j_id r) db = Some r.
Proof.
  intros Hwf. unfold all_rows. rewrite elem_of_app. split.
  - intros [Hr%rows_of_keyed|Hr%rows_of_keyed]; [by apply lookup_hot|by apply wf_hot_keyed|by apply lookup_scheduled|by apply wf_scheduled_keyed].
  - unfold lookup_job. destruct (hot db !! j_id r) eqn:Hh; [intros [= ->]; left|right]; by eapply rows_of_elem.
Qed.
Lemma all_rows_NoDup db : wf db -> NoDup (map j_id (all_rows db)).
Proof.
  intros Hwf. unfold all_rows. rewrite map_app. apply NoDup_app. split_and!; [by apply rows_of_NoDup, wf_hot_keyed| |by apply rows_of_NoDup, wf_scheduled_keyed].
  intros id (r & -> & Hr)%list_elem_of_fmap (r' & E & Hr')%list_elem_of_fmap.
  apply rows_of_keyed in Hr; [|by apply wf_hot_keyed]. apply rows_of_keyed in Hr'; [|by apply wf_scheduled_keyed].
  rewrite E in Hr. destruct (wf_disjoint _ Hwf (j_id r')); congruence.
Qed.
Lemma waiting_elem db w :
  wf db -> w ∈ waiting_jobs db <-> exists r, lookup_job (wj_id w) db = Some r /\ is_waiting r = true /\ w = waiting_of r.
Proof.
  intros Hwf. simpl. rewrite list_elem_of_fmap. setoid_rewrite elem_of_filter_b. split.
  - intros (r & -> & Hr & Hin). exists r. simpl. split; [by apply all_rows_elem|done].
  - intros (r & Hl & Hr & ->). exists r. split; [done|]. split; [done|]. by apply all_rows_elem.
Qed.
Lemma waiting_NoDup db : wf db -> NoDup (map wj_id (waiting_jobs db)).
Proof.
  intros Hwf. simpl. rewrite map_map. apply (NoDup_map_filter (fun r => wj_id (waiting_of r))). by apply all_rows_NoDup.
Qed.

(** Replacing a waiting row by another of the same job. *)
Lemma waiting_replace db db' r r' (g : WaitingJob -> WaitingJob) :
  wf db -> lookup_job (j_id r) db = Some r -> is_waiting r = true -> is_waiting r' = true -> j_id r' = j_id r ->
  waiting_of r' = g (waiting_of r) -> replaces db db' (j_id r) (Some r') ->
  waiting_jobs db' ≡ₚ map (fun w => if wj_id w =? j_id r then g w else w) (waiting_jobs db).
Proof.
  intros Hwf Hl Hw Hw' Hid Hg [Hwf' Hrows _ _]. apply NoDup_Permutation.
  - apply (NoDup_fmap_1 wj_id). by apply waiting_NoDup.
  - apply (NoDup_fmap_1 wj_id). rewrite <- list_fmap_compose. erewrite (map_ext_in _ wj_id); [by apply waiting_NoDup|].
    intros w Hin%list_elem_of_In. simpl. destruct (Z.eqb_spec (wj_id w) (j_id r)) as [E|]; [|done].
    apply waiting_elem in Hin as (r1 & Hl1 & _ & ->); [|done]. rewrite E in Hl1. rewrite Hl in Hl1. injection Hl1 as <-.
    rewrite <- Hg. by simpl.
  - intros w. rewrite list_elem_of_fmap, waiting_elem by done. setoid_rewrite (waiting_elem db); [|done]. rewrite Hrows. unfold upd, rows. split.
    + intros (r1 & Hl1 & Hw1 & ->). simpl in *. destruct (decide _) as [E|Hne].
      * injection Hl1 as <-. exists (waiting_of r). simpl. rewrite Z.eqb_refl. split; [done|]. by exists r.
      * exists (waiting_of r1). simpl. rewrite (proj2 (Z.eqb_neq _ _)) by done. split; [done|]. by exists r1.
    + intros (w0 & -> & r1 & Hl1 & Hw1 & ->). simpl in *. destruct (Z.eqb_spec (j_id r1) (j_id r)) as [E|Hne].
      * rewrite E, Hl in Hl1. injection Hl1 as <-. rewrite <- Hg. simpl. rewrite decide_True by done. by exists r'.
      * simpl. rewrite decide_False by done. by exists r1.
Qed.
Lemma replaces_ok db db' r r' :
  canonical_ok db -> lookup_job (j_id r) db = Some r -> is_object (j_metadata r') = true -> replaces db db' (j_id r) (Some r') -> canonical_ok db'.
Proof.
  intros [Hwf Hp Hm] Hl Hm' [Hwf' Hrows _ _]. split; [done| |]; intros id r1; rewrite Hrows; unfold upd; destruct (decide _) as [->|].
  - intros _. by eapply Hp.
  - apply Hp.
  - by intros [= <-].
  - apply Hm.
Qed.

Lemma stamp_once_object k x md : is_object md = true -> exists md', stamp_once k x md = Ok md' /\ is_object md' = true.
Proof. intros Hm. unfold stamp_once, jsonb_set. destruct md; try done. destruct (jsonb_exists _ _); eauto. Qed.
(** A job keeps its claim when nothing of its claim changes. *)
Lemma update_view_total f r db :
  wf db -> lookup_job (j_id r) db = Some r -> j_id (f r) = j_id r -> claimed_key (f r) = claimed_key r ->
  exists db', update_view f r db = Ok (f r, db').
Proof.
  intros Hwf Hl Hid Hk. pose proof (update_view_spec f r db Hwf Hl Hid) as Hs. destruct (update_view f r db) as [[r1 db1]|e].
  - destruct Hs as [-> _]. eauto.
  - exfalso. destruct Hs as (_ & j & r0 & k & Hj & Hr0 & Hk0 & Hkr). rewrite Hk in Hkr. apply Hj. rewrite Hid.
    assert (unique_claims db !! k = Some j) as E1 by (apply (wf_claims _ Hwf); by exists r0).
    assert (unique_claims db !! k = Some (j_id r)) as E2 by (apply (wf_claims _ Hwf); by exists r). congruence.
Qed.
Lemma canonical_total spec id db : canonical_ok db -> exists m db', canonical_apply spec id db = Ok (m, db').
Proof.
  intros [Hwf _ Hm]. destruct spec as [p|queue p]; simpl; unfold canonical_set_priority_tx, canonical_move_queue_tx.
  all: destruct (lookup_job id db) as [r|] eqn:Hl; [|eauto]; specialize (Hm _ _ Hl); pose proof (wf_lookup_id _ _ _ Hwf Hl) as Eid;
         destruct (is_waiting r && _); [|eauto].
  - destruct (stamp_once_object ORIGINAL_PRIORITY_KEY (i64_number (j_priority r)) _ Hm) as (md & -> & _). cbn [rbind].
    match goal with |- context [update_view ?f r db] => destruct (update_view_total f r db) as (db1 & ->) end; try done; [by rewrite Eid|]. simpl. eauto.
  - assert (exists md, match p with None => Ok (j_metadata r) | Some _ => stamp_once ORIGINAL_PRIORITY_KEY (i64_number (j_priority r)) (j_metadata r) end = Ok md
              /\ is_object md = true) as (md & -> & Hmd) by (destruct p; [by apply stamp_once_object|eauto]).
    cbn [rbind]. destruct (stamp_once_object ORIGINAL_QUEUE_KEY (JString (j_queue r)) md Hmd) as (md' & -> & _). cbn [rbind].
    match goal with |- context [update_view ?f r db] => destruct (update_view_total f r db) as (db1 & ->) end; try done; [by rewrite Eid|]. simpl. eauto.
Qed.

Lemma canonical_changed spec id db m db' :
  wf db -> canonical_apply spec id db = Ok (m, db') ->
  if m then exists r r', lookup_job id db = Some r /\ is_waiting r = true /\ is_waiting r' = true /\ j_id r' = j_id r
              /\ waiting_of r' = canonical_target spec (waiting_of r) /\ (is_object (j_metadata r) = true -> is_object (j_metadata r') = true) /\ replaces db db' (j_id r) (Some r')
  else db' = db /\ forall r, lookup_job id db = Some r -> is_waiting r = true -> canonical_target spec (waiting_of r) = waiting_of r.
Proof.
  intros Hwf. destruct spec as [p|queue p]; simpl; unfold canonical_set_priority_tx, canonical_move_queue_tx.
  all: destruct (lookup_job id db) as [r|] eqn:Hl; [|by intros [= <- <-]].
  all: pose proof (wf_lookup_id _ _ _ Hwf Hl) as Eid; destruct (is_waiting r) eqn:Hw; simpl;
         [|intros [= <- <-]; split; [done|]; intros ? [= <-]; by rewrite Hw].
  - destruct (Z.eqb_spec (j_priority r) p) as [<-|Hne]; simpl.
    { intros [= <- <-]. split; [done|]. by intros ? [= <-] _. }
    intros (md & Hmd & ([r1 db1] & Hu & [= <- <-])%rbind_Ok)%rbind_Ok.
    pose proof (update_view_spec (fun r => set_metadata md (set_priority p r)) r db Hwf ltac:(by rewrite Eid) eq_refl) as Hs.
    rewrite Hu in Hs. destruct Hs as (-> & Hrep & _). exists r, (set_metadata md (set_priority p r)). split_and!; try done.
    intros Hm. eapply stamp_once_object in Hm as (x & E & Hx). simpl. rewrite Hmd in E. by injection E as ->.
  - destruct (_ || _) eqn:Hc.
    + intros (md & Hmd & (md' & Hmd' & ([r1 db1] & Hu & [= <- <-])%rbind_Ok)%rbind_Ok)%rbind_Ok.
      pose proof (update_view_spec (fun r => set_metadata md' (set_priority (default (j_priority r) p) (set_queue queue r))) r db Hwf
                    ltac:(by rewrite Eid) eq_refl) as Hs.
      rewrite Hu in Hs. destruct Hs as (-> & Hrep & _). exists r, (set_metadata md' (set_priority (default (j_priority r) p) (set_queue queue r))).
      split_and!; try done. intros Hm. simpl. assert (is_object md = true) as Hm1.
      { destruct p; [|by injection Hmd as <-]. eapply stamp_once_object in Hm as (x & E & Hx). rewrite Hmd in E. by injection E as ->. }
      eapply stamp_once_object in Hm1 as (x & E & Hx). rewrite Hmd' in E. by injection E as ->.
    + intros [= <- <-]. split; [done|]. intros ? [= <-] _. apply orb_false_iff in Hc as [Hq Hp].
      apply negb_false_iff, String.eqb_eq in Hq. subst queue. destruct p as [p|]; [|done].
      by apply negb_false_iff, Z.eqb_eq in Hp as <-.
Qed.

#[global] Instance canonical_laws : JobEngineLaws unit Db (fun _ => True) canonical_ok canonical_target.
Proof.
  split.
  - intros s [Hwf _ _]. by apply waiting_NoDup.
  - intros s w [Hwf Hp _] Hw. apply waiting_elem in Hw as (r & Hl & _); [|done]. by eapply Hp.
  - intros e spec j s m s' _ Hok Ha. pose proof Hok as [Hwf _ Hm]. apply (canonical_changed spec j s m s' Hwf) in Ha.
    destruct m; [|by destruct Ha as [-> _]]. destruct Ha as (r & r' & Hl & _ & _ & _ & _ & Hmd & Hrep).
    eapply replaces_ok; [done| |by eapply Hmd, Hm|exact Hrep]. by rewrite (wf_lookup_id _ _ _ Hwf Hl).
  - intros e spec j s s' _ [Hwf _ _] Ha. apply (canonical_changed spec j s true s' Hwf) in Ha as (r & r' & Hl & Hw & Hw' & Hid & Hg & _ & Hrep).
    pose proof (wf_lookup_id _ _ _ Hwf Hl) as <-. by eapply waiting_replace.
  - intros e spec j s s' _ [Hwf _ _] Ha. apply (canonical_changed spec j s false s' Hwf) in Ha as [-> Ha]. split; [done|].
    intros w Hw <-. apply waiting_elem in Hw as (r & Hl & Hr & ->); [|done]. by apply Ha.
  - by intros [] w.
  - intros e spec j s _ _ Hok. by apply canonical_total.
Qed.
