(* ===== verification/BatchQueue.v ===== *)
(** Batch operations on queue storage: the waiting jobs of a store as the
    matching queries of batch_operations.rs read them, [set_priority_tx] and
    [move_queue_tx] as the engine's changes, and that the engine keeps what the
    runner counts on. *)

From stdpp Require Import relations.
From S2P Require Import Prelude.
From S2P Require Import Error.
From S2P Require Import Json.
From S2P Require Import Job.
From S2P Require Import Rows.
From S2P Require Import Lanes.
From S2P Require Import LanesFacts.
From S2P Require Import Enqueue.
From S2P Require Import AtomicLanes.
From S2P Require Import QueueStore.
From S2P Require Import StoreAdmin.
From S2P Require Import QueueOps.
From S2P Require Import StoreFacts.
From S2P Require Import AttemptFacts.
From S2P Require Import OperationFacts.
From S2P Require Import Batch.
From S2P Require Import BatchFacts.
From S2P Require Import BatchRuns.

(** * The engine *)

(** [ARRAY(SELECT jsonb_array_elements_text(payload->'tags'))]; the payloads the
    store writes hold an array of strings, or none. *)
Definition payload_tags (payload : json) : list string :=
  match get "tags" payload with
  | Some (JArray l) => omap (fun v => match v with JString s => Some s | _ => None end) l
  | _ => []
  end.
Definition waiting_columns (state : JobState) (c : Columns) : WaitingJob :=
  mkWaitingJob (c_job_id c) (c_kind c) (c_queue c) (c_priority c) state (payload_tags (c_payload c)) (c_created_at c).
(** Ready rows neither claimed nor cancelled, and scheduled rows. *)
Definition scheduled_rows (q : QStore) : list DeferredJobRow :=
  List.filter (fun r => bool_decide (df_state r = Scheduled)) (map snd (map_to_list (deferred_jobs q))).
Definition queue_waiting_jobs (q : QStore) : list WaitingJob :=
  map (fun r => waiting_columns Available (rt_columns r)) (List.filter (unclaimed (lanes q)) (ready_entries (tables (lanes q))))
  ++ map (fun r => waiting_columns Scheduled (df_columns r)) (scheduled_rows q).

(** What a change reads from outside the store. *)
Record QueueEnv : Type := mkQueueEnv { qe_store : StoreEnv; qe_logical : string -> string; qe_stripe : string -> string }.
(** [apply_to_job_tx] with queue storage. *)
Definition queue_apply (e : QueueEnv) (spec : BatchOperationSpec) (id : Z) (q : QStore) : result AwaError (bool * QStore) :=
  match spec with
  | SetPriority priority => set_priority_tx (qe_store e) (qe_logical e) (qe_stripe e) id priority q
  | MoveQueue queue priority => move_queue_tx (qe_store e) (qe_logical e) (qe_stripe e) id queue priority q
  end.
#[global] Instance queue_engine : JobEngine QueueEnv QStore := { waiting_jobs := queue_waiting_jobs; apply_to_job := queue_apply }.

(** * The engine's promises *)

(** A payload that decodes keeps its tags when it is written back. *)
Lemma strings_tags l ss : strings_of l = Ok ss -> omap (fun v => match v with JString s => Some s | _ => None end) l = ss.
Proof.
  revert ss. induction l as [|v l IH]; intros ss; simpl; [by intros [= <-]|]. destruct v; try done.
  intros (ss' & Hs & [= <-])%rbind_Ok. by rewrite <- (IH _ Hs).
Qed.
Lemma payload_tags_read v p : is_object v = true -> from_json v = Ok p -> payload_tags v = p_tags p.
Proof.
  destruct v as [| | | | |m]; try done. intros _. unfold from_json, payload_tags. simpl.
  intros (p1 & Hp & H)%rbind_Ok. destruct (negb _); [done|]. injection H as <-. unfold de_payload in Hp.
  apply rbind_Ok in Hp as (tags & Ht & (errors & _ & [= <-])%rbind_Ok). simpl.
  destruct (map_get "tags" m) as [t|]; [|by injection Ht as <-]. unfold de_tags in Ht. destruct t; try done. by apply strings_tags.
Qed.
Lemma storage_payload_object m : default (JObject []) (storage_payload (JObject m)) = JObject m.
Proof. by destruct m. Qed.
Lemma payload_tags_written p : payload_tags (default (JObject []) (storage_payload (into_json p))) = p_tags p.
Proof.
  unfold into_json. rewrite storage_payload_object. unfold payload_tags. simpl.
  destruct p as [md tags errors progress]. simpl.
  assert (map_get "tags" (match progress with None => _ | Some v => map_insert "progress" v _ end)
          = match tags with [] => None | _ => Some (JArray (map JString tags)) end) as ->.
  { destruct tags, errors, progress, (is_empty_json_object md); autorewrite with awa_simpl; try done. }
  destruct tags as [|t tags]; [done|]. apply strings_tags, strings_of_map.
Qed.

Definition is_target (logical stripe : string -> string) (queue : option string) (priority : option Z) (w : WaitingJob) : WaitingJob :=
  let requested := default (wj_queue w) queue in
  let moves := (match queue with Some _ => true | None => false end)
               && negb (String.eqb requested (wj_queue w)) && negb (String.eqb requested (logical (wj_queue w))) in
  mkWaitingJob (wj_id w) (wj_kind w) (if moves then stripe requested else wj_queue w) (default (wj_priority w) priority)
    (wj_state w) (wj_tags w) (wj_created_at w).
Definition queue_target (logical stripe : string -> string) (spec : BatchOperationSpec) : WaitingJob -> WaitingJob :=
  match spec with
  | SetPriority p => is_target logical stripe None (Some p)
  | MoveQueue q p => is_target logical stripe (Some q) p
  end.

(** A payload that decodes. *)
Definition payload_ok (v : json) : Prop := is_object v = true /\ exists p, from_json v = Ok p.
Lemma payload_metadata v p : from_json v = Ok p -> is_object (p_metadata p) = true.
Proof.
  unfold from_json. destruct (is_null v); [by intros [= <-]|]. intros (p1 & _ & H)%rbind_Ok.
  destruct (is_object (p_metadata p1)) eqn:E; [|done]. by injection H as <-.
Qed.
Lemma payload_written_ok p : is_object (p_metadata p) = true -> payload_ok (default (JObject []) (storage_payload (into_json p))).
Proof.
  intros Hm. unfold into_json. rewrite storage_payload_object. split; [done|].
  destruct p as [md tags errors progress]. simpl in *. destruct md as [| | | | |[|kv m]]; try done;
    destruct tags, errors, progress as [v|]; unfold from_json; simpl; unfold de_payload; simpl; rewrite ?strings_of_map; simpl; eauto.
Qed.
Lemma stamped_metadata queue priority old_queue old_priority p :
  is_object (p_metadata p) = true -> exists p', stamp_original queue priority old_queue old_priority p = Ok p' /\ is_object (p_metadata p') = true.
Proof.
  intros Hm. unfold stamp_original, entry_or_insert. destruct p as [md tags errors progress]. simpl in *. destruct md; try done.
  destruct queue, priority; simpl; eauto.
Qed.

Record queue_ok (q : QStore) : Prop := {
  qo_inv : exists D, sinv D [] q;
  qo_positive : forall a, a ∈ places q -> 0 < fst a;
  qo_ready : forall r, r ∈ live (lanes q) -> payload_ok (c_payload (rt_columns r));
  qo_deferred : forall j r, deferred_jobs q !! j = Some r -> payload_ok (c_payload (df_columns r))
}.

Lemma queue_waiting_NoDup q : queue_ok q -> NoDup (map wj_id (queue_waiting_jobs q)).
Proof.
  intros [(D & Hs) _ _ _]. pose proof (ac_one _ _ _ (si_places _ _ _ Hs)) as Hn. unfold places in Hn. simpl in Hn.
  rewrite !map_app in Hn. apply NoDup_app in Hn as (Hr & Hd & Hn). apply NoDup_app in Hn as (_ & _ & Hn). apply NoDup_app in Hn as (Hn & _ & _).
  unfold queue_waiting_jobs. rewrite map_app, !map_map. simpl. apply NoDup_app. unfold ready_places in Hr. rewrite map_map in Hr. split_and!.
  - exact Hr.
  - intros j Hj (r & -> & Hin)%list_elem_of_fmap. apply elem_of_filter_b in Hin as [_ Hin].
    apply list_elem_of_fmap in Hin as ([k r'] & -> & Hin). simpl in *.
    apply (Hd (c_job_id (df_columns r'))); [unfold ready_places; by rewrite map_map|]. rewrite elem_of_app. right.
    rewrite elem_of_app. left. unfold deferred_places. rewrite map_map. apply list_elem_of_fmap. by exists (k, r').
  - unfold scheduled_rows. apply NoDup_map_filter. rewrite map_map. unfold deferred_places in Hn. by rewrite map_map in Hn.
Qed.
Lemma insert_existing_live env row old q q' :
  insert_existing_ready_rows_tx env [row] old q = Ok q' -> calm (lanes q) ->
  deferred_jobs q' = deferred_jobs q /\ exists r, live (lanes q') = live (lanes q) ++ [r] /\ rt_columns r = stored row.
Proof.
  unfold insert_existing_ready_rows_tx. intros (q1 & H1 & [= <-])%rbind_Ok Hc.
  destruct (group_existing_spec (sv_shards_of env) (sv_rotor env) [row]) as [Hp Hok].
  assert (lanes q1 = lanes q /\ deferred_jobs q1 = deferred_jobs q) as [El Ed].
  { unfold sync_unique_claims in H1. apply rbind_Ok in H1 as (m & _ & [= <-]). done. }
  set (grouped := fst (group_existing (sv_shards_of env) (sv_rotor env) [row])) in *. unfold add_ready, place_ready.
  set (stored_rows := map _ grouped). destruct (insert_grouped_rows stored_rows (lanes q1)) as [t s] eqn:Hins.
  assert (grouped_ok stored_rows) as Hok'.
  { intros lane cs c ([lane' cs'] & [= -> ->] & Hin)%list_elem_of_fmap (c' & -> & Hc')%list_elem_of_fmap. by apply (Hok lane' cs' c'). }
  rewrite <- El in Hc. destruct (calm_insert stored_rows (lanes q1) t s Hok' Hins Hc) as (_ & Hl & _).
  pose proof (insert_grouped_columns stored_rows (lanes q1)) as Hcols. rewrite Hins in Hcols. simpl in Hcols.
  assert (jobs_of stored_rows = map stored (jobs_of grouped)) as Ej.
  { unfold jobs_of, stored_rows. clear. induction grouped as [|[l cs] g IH]; [done|]. simpl. by rewrite !map_app, IH. }
  split; [done|]. simpl. rewrite Hl, El. rewrite Ej in Hcols.
  assert (jobs_of grouped = [row]) as Eg by (apply Permutation_length_1_inv; by rewrite Hp).
  rewrite Eg in Hcols. destruct (ready_entries t) as [|r [|]]; try done. exists r. split; [done|]. by injection Hcols.
Qed.

Lemma map_one (g : WaitingJob -> WaitingJob) j w l :
  NoDup (map wj_id (w :: l)) -> wj_id w = j -> map (fun w => if wj_id w =? j then g w else w) (w :: l) = g w :: l.
Proof.
  simpl. intros [Hn _]%NoDup_cons <-. rewrite Z.eqb_refl. f_equal. rewrite <- (map_id l) at 2. apply map_ext_in.
  intros x Hx%list_elem_of_In. rewrite (proj2 (Z.eqb_neq _ _)); [done|]. intros E. apply Hn. rewrite <- E. apply list_elem_of_fmap. by exists x.
Qed.
(** A waiting job replaced by its target. *)
Lemma waiting_swap (g : WaitingJob -> WaitingJob) j w l l0 l1 :
  l0 ≡ₚ w :: l -> l1 ≡ₚ g w :: l -> NoDup (map wj_id l0) -> wj_id w = j ->
  l1 ≡ₚ map (fun w => if wj_id w =? j then g w else w) l0.
Proof. intros H0 -> Hn Hw. rewrite H0 in Hn |- *. by rewrite map_one. Qed.

Lemma stamped_tags queue priority old_queue old_priority p p' : stamp_original queue priority old_queue old_priority p = Ok p' -> p_tags p' = p_tags p.
Proof.
  unfold stamp_original, entry_or_insert. intros (p1 & H1 & H2)%rbind_Ok.
  assert (p_tags p1 = p_tags p) as <- by (destruct queue; [destruct (p_metadata p); try done; by injection H1 as <-|by injection H1 as <-]).
  destruct priority; [|by injection H2 as <-]. destruct (p_metadata p1); try done. by injection H2 as <-.
Qed.
(** The columns a move writes are those of the job at its target. *)
Lemma moved_columns logical stripe queue priority st c p p' :
  payload_ok (c_payload c) -> from_json (c_payload c) = Ok p ->
  stamp_original queue priority (logical (c_queue c)) (c_priority c) p = Ok p' ->
  let w := is_target logical stripe queue priority (waiting_columns st c) in
  let c' := stored (with_payload (into_json p') (with_route (wj_queue w) (wj_priority w) c)) in
  waiting_columns st c' = w /\ payload_ok (c_payload c').
Proof.
  intros [Ho _] Hp Hs w c'. split.
  - unfold waiting_columns, c', stored. simpl. rewrite payload_tags_written, (stamped_tags _ _ _ _ _ _ Hs), <- (payload_tags_read _ _ Ho Hp). done.
  - unfold c', stored. simpl. apply payload_written_ok.
    destruct (stamped_metadata queue priority (logical (c_queue c)) (c_priority c) p (payload_metadata _ _ Hp)) as (p1 & E & Hm). congruence.
Qed.

Lemma live_ids_NoDup q : queue_ok q -> NoDup (map (fun r => c_job_id (rt_columns r)) (live (lanes q))).
Proof.
  intros [(D & Hs) _ _ _]. pose proof (ac_one _ _ _ (si_places _ _ _ Hs)) as Hn. unfold places in Hn. simpl in Hn.
  rewrite !map_app in Hn. apply NoDup_app in Hn as (Hr & _). unfold ready_places in Hr. by rewrite map_map in Hr.
Qed.
Lemma move_ready_changed env logical stripe j queue priority q m q' :
  queue_ok q -> move_ready env logical stripe j queue priority q = Ok (m, q') ->
  let at_ r := waiting_columns Available (rt_columns r) in
  let target := is_target logical stripe queue priority in
  if m then exists r r' rest, live (lanes q) ≡ₚ r :: rest /\ live (lanes q') ≡ₚ r' :: rest /\ c_job_id (rt_columns r) = j
              /\ at_ r' = target (at_ r) /\ payload_ok (c_payload (rt_columns r')) /\ deferred_jobs q' = deferred_jobs q
  else q' = q /\ forall r, r ∈ live (lanes q) -> c_job_id (rt_columns r) = j -> target (at_ r) = at_ r.
Proof.
  intros Hq Hm at_ target. unfold move_ready in Hm. destruct (unclaimed_target (lanes q) j) as [row|] eqn:Hu.
  - apply unclaimed_target_live in Hu as [Hlive Hj]. destruct (moved_route logical stripe queue priority row) as [nq np] eqn:Hroute.
    unfold moved_route in Hroute. injection Hroute as Eq Ep.
    assert (target (at_ row) = mkWaitingJob j (c_kind (rt_columns row)) nq np Available (payload_tags (c_payload (rt_columns row))) (c_created_at (rt_columns row))) as Et.
    { unfold target, is_target, at_. simpl. by rewrite Hj, Eq, Ep. }
    destruct (String.eqb nq (c_queue (rt_columns row)) && _) eqn:Hsame.
    + injection Hm as <- <-. split; [done|]. intros r Hr Ej. apply andb_true_iff in Hsame as [->%String.eqb_eq ->%Z.eqb_eq].
      assert (r = row) as ->; [|by rewrite Et; unfold at_, waiting_columns; rewrite Hj].
      apply (NoDup_map_inj _ _ _ _ (live_ids_NoDup q Hq)); [done|done|congruence].
    + apply rbind_Ok in Hm as (p & Hp & Hm). apply rbind_Ok in Hm as (p' & Hp' & Hm). apply rbind_Ok in Hm as (q1 & Hins & [= <- <-]).
      destruct Hq as [(D & Hs) _ Hro _]. pose proof (lg_calm _ _ (si_ledger _ _ _ Hs)) as Hc.
      destruct (calm_tombstone (lanes q) row Hc Hlive) as (Hc1 & Hperm & _).
      apply insert_existing_live in Hins as (Ed & r' & Hl & Ecol); [|exact Hc1]. simpl in Hl.
      destruct (moved_columns logical stripe queue priority Available (rt_columns row) p p' (Hro row Hlive) Hp Hp') as [Ew Eo].
      fold (at_ row) in Ew, Eo. fold target in Ew, Eo. rewrite Et in Ew, Eo. cbv zeta in Ew, Eo. cbn [wj_queue wj_priority] in Ew, Eo. unfold into_existing_ready_row in Ecol.
      rewrite <- Ecol in Ew, Eo. exists row, r', (live (set_tables (tables_app (tables (lanes q)) (only_tombstone row)) (lanes q))).
      split_and!; try done; [rewrite Hl; by rewrite Permutation_app_comm|]. rewrite Et. exact Ew.
  - injection Hm as <- <-. split; [done|]. intros r Hr Ej. exfalso. unfold unclaimed_target in Hu. apply elem_of_filter_b in Hr as [Hun Hr].
    assert (r ∈ merge_sort seq_ge (List.filter (fun r => (c_job_id (rt_columns r) =? j) && unclaimed (lanes q) r) (ready_entries (tables (lanes q))))) as Hin.
    { rewrite (merge_sort_Permutation seq_ge). apply elem_of_filter_b. by rewrite Ej, Z.eqb_refl, Hun. }
    destruct (merge_sort seq_ge _); [by apply elem_of_nil in Hin|done].
Qed.

Lemma scheduled_put q j r :
  scheduled_rows (set_deferred (<[j := r]> (deferred_jobs q)) q)
  ≡ₚ (if bool_decide (df_state r = Scheduled) then [r] else []) ++ scheduled_rows (set_deferred (delete j (deferred_jobs q)) q).
Proof.
  unfold scheduled_rows. simpl. rewrite <- insert_delete_eq. rewrite filter_perm; [|apply (fmap_Permutation snd), map_to_list_insert, lookup_delete_eq].
  simpl. by destruct (bool_decide _).
Qed.
Lemma scheduled_take q j r :
  deferred_jobs q !! j = Some r ->
  scheduled_rows q ≡ₚ (if bool_decide (df_state r = Scheduled) then [r] else []) ++ scheduled_rows (set_deferred (delete j (deferred_jobs q)) q).
Proof. intros Hr. rewrite <- scheduled_put. unfold scheduled_rows. simpl. by rewrite insert_id. Qed.

Lemma update_deferred_changed logical stripe j queue priority q m q' :
  queue_ok q -> update_deferred_batch_fields_tx logical stripe j queue priority q = Ok (m, q') ->
  let at_ r := waiting_columns Scheduled (df_columns r) in
  let target := is_target logical stripe queue priority in
  if m then exists r r', deferred_jobs q !! j = Some r /\ q' = set_deferred (<[j := r']> (deferred_jobs q)) q /\ df_state r = Scheduled /\ df_state r' = Scheduled
              /\ at_ r' = target (at_ r) /\ payload_ok (c_payload (df_columns r'))
  else q' = q /\ forall r, deferred_jobs q !! j = Some r -> df_state r = Scheduled -> target (at_ r) = at_ r.
Proof.
  intros Hq Hm at_ target. unfold update_deferred_batch_fields_tx in Hm. destruct (deferred_jobs q !! j) as [r|] eqn:Hr; [|by injection Hm as <- <-].
  case_bool_decide as Hst; simpl in Hm; [|injection Hm as <- <-; split; [done|]; by intros ? [= <-]].
  destruct (String.eqb _ (c_queue (df_columns r)) && _) eqn:Hsame.
  - injection Hm as <- <-. split; [done|]. intros ? [= <-] _. apply andb_true_iff in Hsame as [Eq%String.eqb_eq Ep%Z.eqb_eq].
    unfold target, is_target, at_, waiting_columns. simpl. by rewrite Eq, Ep.
  - apply rbind_Ok in Hm as (p & Hp & Hm). apply rbind_Ok in Hm as (p' & Hp' & [= <- <-]).
    destruct (moved_columns logical stripe queue priority Scheduled (df_columns r) p p' (qo_deferred q Hq j r Hr) Hp Hp') as [Ew Eo].
    eexists r, _. by split_and!.
Qed.

Lemma is_target_id logical stripe queue priority w : wj_id (is_target logical stripe queue priority w) = wj_id w.
Proof. done. Qed.
Lemma set_deferred_ok q m q' :
  queue_ok q -> (forall D E, sinv D E q -> keeps D E q D E q') -> lanes q' = lanes q -> deferred_jobs q' = m ->
  (forall j r, m !! j = Some r -> payload_ok (c_payload (df_columns r))) -> queue_ok q'.
Proof.
  intros [(D & Hs) Hp Hr Hd] HK El <- Hm. pose proof (HK D [] Hs) as K. split; [by exists D; apply K| |by rewrite El|done].
  intros a Ha. apply Hp. pose proof (kp_places _ _ _ _ _ _ K) as P. simpl in P. by rewrite <- P.
Qed.

Section Either.
Context (env : StoreEnv) (logical stripe : string -> string) (j : Z) (queue : option string) (priority : option Z).
Abbreviation target := (is_target logical stripe queue priority).

Lemma queue_deferred_swap q r r' :
  queue_ok q -> deferred_jobs q !! j = Some r -> df_state r = Scheduled -> df_state r' = Scheduled ->
  waiting_columns Scheduled (df_columns r') = target (waiting_columns Scheduled (df_columns r)) ->
  queue_waiting_jobs (set_deferred (<[j := r']> (deferred_jobs q)) q)
  ≡ₚ map (fun w => if wj_id w =? j then target w else w) (queue_waiting_jobs q).
Proof.
  intros Hq Hr Hs Hs' Hw. destruct (qo_inv q Hq) as (D & Hinv).
  eapply (waiting_swap target j (waiting_columns Scheduled (df_columns r))); [| |by apply queue_waiting_NoDup|exact (si_deferred _ _ _ Hinv _ _ Hr)].
  - unfold queue_waiting_jobs. rewrite (scheduled_take q j r Hr), bool_decide_eq_true_2 by done. simpl. by rewrite <- Permutation_middle.
  - unfold queue_waiting_jobs. rewrite (scheduled_put q j r'), bool_decide_eq_true_2 by done. simpl. rewrite <- Permutation_middle. by rewrite Hw.
Qed.
Lemma queue_ready_swap q q' r r' rest :
  queue_ok q -> live (lanes q) ≡ₚ r :: rest -> live (lanes q') ≡ₚ r' :: rest -> c_job_id (rt_columns r) = j ->
  waiting_columns Available (rt_columns r') = target (waiting_columns Available (rt_columns r)) -> deferred_jobs q' = deferred_jobs q ->
  queue_waiting_jobs q' ≡ₚ map (fun w => if wj_id w =? j then target w else w) (queue_waiting_jobs q).
Proof.
  intros Hq Hl Hl' Hj Hw Hd. eapply (waiting_swap target j (waiting_columns Available (rt_columns r))); [| |by apply queue_waiting_NoDup|exact Hj].
  - unfold queue_waiting_jobs. fold (live (lanes q)). rewrite Hl. simpl. reflexivity.
  - unfold queue_waiting_jobs. fold (live (lanes q')). rewrite Hl'. unfold scheduled_rows. rewrite Hd. simpl. rewrite Hw. reflexivity.
Qed.

(** A move replaces a waiting job by its target, or finds it there already. *)
Lemma move_either_changed q m q' :
  queue_ok q -> move_either env logical stripe j queue priority q = Ok (m, q') ->
  queue_ok q'
  /\ if m then queue_waiting_jobs q' ≡ₚ map (fun w => if wj_id w =? j then target w else w) (queue_waiting_jobs q)
     else q' = q /\ forall w, w ∈ queue_waiting_jobs q -> wj_id w = j -> target w = w.
Proof.
  intros Hq Hm. pose proof Hm as HK. unfold move_either in Hm. apply rbind_Ok in Hm as ([m1 q1] & H1 & H2).
  pose proof (update_deferred_changed _ _ _ _ _ _ _ _ Hq H1) as Hc. destruct m1.
  - injection H2 as <- <-. destruct Hc as (r & r' & Hr & -> & Hs & Hs' & Hw & Ho). split; [|by eapply queue_deferred_swap].
    eapply set_deferred_ok; [done|by intros ? ? ?; eapply move_either_keeps|done|done|].
    simpl. intros i x [[<- <-]|[_ Hx]]%lookup_insert_Some; [done|by eapply qo_deferred].
  - destruct Hc as [-> Hdef]. pose proof (move_ready_changed _ _ _ _ _ _ _ _ _ Hq H2) as Hc. destruct m.
    + destruct Hc as (r & r' & rest & Hl & Hl' & Hj & Hw & Ho & Hd). split; [|by eapply queue_ready_swap].
      destruct Hq as [(D & Hs) Hp Hro Hdo]. pose proof (move_either_keeps _ _ _ _ _ _ _ _ _ _ _ HK Hs) as K. split.
      * exists D. apply K.
      * intros a Ha. apply Hp. pose proof (kp_places _ _ _ _ _ _ K) as P. simpl in P. by rewrite <- P.
      * intros x Hx. rewrite Hl' in Hx. apply elem_of_cons in Hx as [->|Hx]; [done|]. apply Hro. rewrite Hl. by right.
      * by rewrite Hd.
    + destruct Hc as [-> Hready]. split; [done|]. split; [done|]. intros w Hw Hid.
      apply elem_of_app in Hw as [(r & -> & Hin)%list_elem_of_fmap|(r & -> & Hin)%list_elem_of_fmap]; [exact (Hready r Hin Hid)|].
      apply elem_of_filter_b in Hin as [Hst%bool_decide_eq_true Hin]. apply list_elem_of_fmap in Hin as ([i x] & -> & Hin%elem_of_map_to_list).
      destruct (qo_inv q Hq) as (D & Hinv). pose proof (si_deferred _ _ _ Hinv _ _ Hin) as Ei. simpl in *. rewrite Hid in Ei. subst i. exact (Hdef x Hin Hst).
Qed.
(** A move of a job whose payload decodes does not fail. *)
Lemma payload_stamps v old_queue old_priority : payload_ok v -> exists p p', from_json v = Ok p /\ stamp_original queue priority old_queue old_priority p = Ok p'.
Proof. intros [_ (p & Hp)]. destruct (stamped_metadata queue priority old_queue old_priority p (payload_metadata _ _ Hp)) as (p' & ? & _). eauto. Qed.
Lemma existing_available_total c q : exists q', insert_existing_ready_rows_tx env [c] (Some Available) q = Ok q'.
Proof.
  unfold insert_existing_ready_rows_tx, sync_unique_claims. simpl. unfold sync_unique_claim, claims_in.
  destruct (c_unique_key c); simpl; [|eauto]. destruct (unique_state_claims _ _); simpl; eauto.
Qed.
Lemma update_deferred_total q : queue_ok q -> exists m q', update_deferred_batch_fields_tx logical stripe j queue priority q = Ok (m, q').
Proof.
  intros Hq. unfold update_deferred_batch_fields_tx. destruct (deferred_jobs q !! j) as [r|] eqn:Hr; [|eauto].
  destruct (negb _); [eauto|]. cbv zeta. destruct (_ && _); [eauto|].
  destruct (payload_stamps (c_payload (df_columns r)) (logical (c_queue (df_columns r))) (c_priority (df_columns r))) as (p & p' & -> & Hs); [by eapply qo_deferred|].
  simpl. rewrite Hs. simpl. eauto.
Qed.
Lemma move_either_total q : queue_ok q -> exists m q', move_either env logical stripe j queue priority q = Ok (m, q').
Proof.
  intros Hq. unfold move_either. destruct (update_deferred_total q Hq) as (m & q1 & H1). rewrite H1. simpl. destruct m; [eauto|].
  apply update_deferred_changed in H1 as [-> _]; [|done]. unfold move_ready. destruct (unclaimed_target (lanes q) j) as [row|] eqn:Hu; [|eauto].
  apply unclaimed_target_live in Hu as [Hlive _]. destruct (moved_route _ _ _ _ _) as [nq np]. destruct (_ && _); [eauto|].
  destruct (payload_stamps (c_payload (rt_columns row)) (logical (c_queue (rt_columns row))) (c_priority (rt_columns row))) as (p & p' & -> & Hs); [by eapply qo_ready|].
  cbn [rbind]. rewrite Hs. cbn [rbind].
  match goal with |- context [insert_existing_ready_rows_tx env [?c] _ ?q0] => destruct (existing_available_total c q0) as (q2 & ->) end. simpl. eauto.
Qed.
End Either.

#[global] Instance queue_laws logical stripe :
  JobEngineLaws QueueEnv QStore (fun e => qe_logical e = logical /\ qe_stripe e = stripe) queue_ok (queue_target logical stripe).
Proof.
  assert (forall e spec j q m q', qe_logical e = logical /\ qe_stripe e = stripe -> queue_apply e spec j q = Ok (m, q') ->
    exists queue priority, queue_target logical stripe spec = is_target logical stripe queue priority
      /\ move_either (qe_store e) logical stripe j queue priority q = Ok (m, q')) as Happ.
  { intros e spec j q m q' [<- <-] Ha. destruct spec as [p|d p]; simpl in Ha.
    - unfold set_priority_tx in Ha. destruct (_ && _); [|done]. by exists None, (Some p).
    - unfold move_queue_tx in Ha. destruct (_ || _); [done|]. destruct (match p with Some _ => _ | None => _ end); [|done]. by exists (Some d), p. }
  split.
  - apply queue_waiting_NoDup.
  - intros q w Hq Hw. enough (exists a, a ∈ places q /\ fst a = wj_id w) as (a & Ha & <-) by by apply Hq. unfold places.
    setoid_rewrite elem_of_app. setoid_rewrite elem_of_app. setoid_rewrite elem_of_app.
    apply elem_of_app in Hw as [(r & -> & Hin)%list_elem_of_fmap|(r & -> & Hin)%list_elem_of_fmap].
    + exists (place_of (rt_columns r)). split; [|done]. left. apply list_elem_of_fmap. by exists r.
    + apply elem_of_filter_b in Hin as [_ (kv & -> & Hin)%list_elem_of_fmap]. exists (place_of (df_columns kv.2)). split; [|done].
      do 2 right. left. apply list_elem_of_fmap. by exists kv.
  - intros e spec j q m q' He Hq (queue & priority & _ & Ha)%(Happ _ _ _ _ _ _ He). by eapply move_either_changed.
  - intros e spec j q q' He Hq (queue & priority & -> & Ha)%(Happ _ _ _ _ _ _ He). by apply (move_either_changed _ _ _ _ _ _ _ true _ Hq Ha).
  - intros e spec j q q' He Hq (queue & priority & -> & Ha)%(Happ _ _ _ _ _ _ He). by apply (move_either_changed _ _ _ _ _ _ _ false _ Hq Ha).
  - by intros [] w.
  - intros e spec j q [<- <-] Hspec Hq. destruct spec as [p|d p]; simpl in *.
    + unfold validate_priority in Hspec. unfold set_priority_tx. destruct (_ && _); [by apply move_either_total|done].
    + unfold move_queue_tx. destruct (_ || _); [done|]. unfold validate_priority in Hspec.
      destruct p; [destruct (_ && _); [|done]|]; by apply move_either_total.
Qed.
