(* ===== verification/BatchGuarantees.v ===== *)
(** What batch operations guarantee: the rows of the two tables are well formed,
    an operation changes no job twice and its counters are those of its items,
    every call of the runner ends, and on either storage engine an operation
    that is first in line moves exactly the jobs it matches. *)

From stdpp Require Import relations.
From S2P Require Import Prelude.
From S2P Require Import Error.
From S2P Require Import F64.
From S2P Require Import Json.
From S2P Require Import Job.
From S2P Require Import Rows.
From S2P Require Import Lanes.
From S2P Require Import AtomicLanes.
From S2P Require Import QueueStore.
From S2P Require Import QueueOps.
From S2P Require Import StoreFacts.
From S2P Require Import StoreGuarantees.
From S2P Require Import Canonical.
From S2P Require Import CanonicalFacts.
From S2P Require Import Lifecycle.
From S2P Require Import System.
From S2P Require Import Guarantees.
From S2P Require Import Batch.
From S2P Require Import BatchFacts.
From S2P Require Import BatchRuns.
From S2P Require Import BatchCanonical.
From S2P Require Import BatchQueue.

Section Any.
Context {E J : Type} `{JobEngine E J}.


(** C21. Whatever is submitted, cancelled, purged, run or interrupted in whatever
    order: no operation changes a job twice, a change that was committed is on
    its item for as long as the operation is kept, the counters of an operation
    are the numbers of its processed, skipped and failed items, and an operation
    is final only when none of its items is pending. *)
Theorem batch_changes_each_job_once (y : BatchSys) :
  batch_reachable y ->
  NoDup (bs_applied y)
  /\ (forall id j, (id, j) ∈ bs_applied y -> is_Some (operations (bs_batches y) !! id) -> settled_item (bs_batches y) id j)
  /\ forall id o, operations (bs_batches y) !! id = Some o ->
       bo_processed o = item_count id ItemProcessed (bs_batches y)
       /\ bo_skipped o = item_count id ItemSkipped (bs_batches y)
       /\ bo_errored o = item_count id ItemErrored (bs_batches y)
       /\ (op_final (bo_state o) = true -> item_count id ItemPending (bs_batches y) = 0).
Proof.
  intros [[Hops _] _ Hn Hs]%batch_reachable_inv. split_and!; [done|done|]. intros id o Ho. by destruct (Hops id o Ho).
Qed.

(** C23. Every call of the runner ends: whatever the tables and the jobs are
    before a step, however they changed since the last one, the step brings the
    call to a later phase in a well-founded order, until the call returns; left
    alone, it returns. *)
Theorem batch_call_ends :
  well_founded phase_lt
  /\ (forall runner chunk env (e : E) (jobs : J) b p jobs' b' p',
        runner_step runner chunk env e jobs b p = (jobs', b', p') -> (exists r, p = PDone r) \/ phase_lt p' p)
  /\ (forall runner chunk env (e : E) (jobs : J) b, exists fuel r jobs' b',
        run_call runner chunk fuel env e jobs b PIdle = Some (r, jobs', b')).
Proof.
  split_and!; [apply phase_lt_wf| |].
  - intros runner chunk env e jobs b p jobs' b' p' Hr. destruct (decide (phase_stage p = 0)%nat) as [H0|H0].
    + left. destruct p; try discriminate H0. by eexists.
    + right. by eapply runner_progress.
  - intros runner chunk env e jobs b. destruct (run_call_ends runner chunk env e jobs b PIdle) as (fuel & [[r jobs'] b'] & Hf). eauto.
Qed.

(** What a run of calls does with an operation that is first in line. *)
Section Completes.
Context (env_ok : E -> Prop) (wf_jobs : J -> Prop) (target : BatchOperationSpec -> WaitingJob -> WaitingJob) `{!JobEngineLaws E J env_ok wf_jobs target}.
Definition completes (runner : string) (chunk : Z) (id : string) (o : BatchOperation) (n : nat) (jobs : J) (b : Batches) : Prop :=
  (exists jobs' b', calls env_ok runner chunk n jobs b jobs' b')
  /\ forall jobs' b', calls env_ok runner chunk n jobs b jobs' b' ->
       exists k jobs1 b1, (k <= n)%nat /\ calls env_ok runner chunk k jobs b jobs1 b1 /\ carried_out target id o jobs b1 jobs1
         /\ calls env_ok runner chunk (n - k) jobs1 b1 jobs' b'.
Lemma first_in_line_completes runner chunk id o n jobs b A e :
  env_ok e -> wf_jobs jobs -> batch_reachable (mkBatchSys jobs b None A) -> operations b !! id = Some o -> bo_state o = OpPending ->
  first_in_line b id (bo_submitted_at o) -> 1 <= chunk ->
  Z.of_nat (length (matched (bo_filter o) jobs)) <= Z.of_nat n * chunk -> (0 < n)%nat ->
  completes runner chunk id o n jobs b.
Proof.
  intros He Hwf [Hb _ _ _]%batch_reachable_inv Ho Hs Hf Hch Hlen Hn. simpl in Hb. split.
  - apply (calls_exist env_ok runner chunk n (mkBatchEnv 0 None (fun _ => false) (fun _ => EmptyString) false) e); done.
  - intros jobs' b' Hc. eapply (pending_completes env_ok wf_jobs target) in Hc as (k & jobs1 & b1 & Hk & H1 & Hd & H2); [|done|done|done|done|done|done|lia|done].
    exists k, jobs1, b1. split_and!; [done|done|by eapply completed_exact|done].
Qed.
End Completes.
End Any.

(** C20. On queue storage, a pending operation that is first in line is carried
    out: as many calls as its matching jobs fill chunks (of at least one job, and
    at least one call), made without interference, locked rows or lost
    connections, end it as completed; the jobs its filter matched when it was
    scanned are at the queue and priority it asked for, every other waiting job is as it was, and its counters say so.  The batch
    tables are those of a run, the store satisfies its invariant with positive
    ids, and the payload of every ready and deferred job is an object that decodes,
    with metadata that is an object ([queue_ok]). *)
Theorem queue_batch_completes (logical stripe : string -> string) (se : StoreEnv) runner chunk id o n q b A :
  queue_ok q -> batch_reachable (mkBatchSys q b None A) -> operations b !! id = Some o -> bo_state o = OpPending ->
  first_in_line b id (bo_submitted_at o) -> 1 <= chunk ->
  Z.of_nat (length (matched (bo_filter o) q)) <= Z.of_nat n * chunk -> (0 < n)%nat ->
  completes (fun e => qe_logical e = logical /\ qe_stripe e = stripe) (queue_target logical stripe) runner chunk id o n q b.
Proof. intros. by eapply (first_in_line_completes _ queue_ok _ _ _ _ _ _ _ _ _ (mkQueueEnv se logical stripe)). Qed.

(** The same on canonical storage, for a well-formed database with positive ids
    whose jobs' metadata are objects ([canonical_ok]). *)
Theorem canonical_batch_completes runner chunk id o n db b A :
  canonical_ok db -> batch_reachable (mkBatchSys db b None A) -> operations b !! id = Some o -> bo_state o = OpPending ->
  first_in_line b id (bo_submitted_at o) -> 1 <= chunk ->
  Z.of_nat (length (matched (bo_filter o) db)) <= Z.of_nat n * chunk -> (0 < n)%nat ->
  completes (fun _ => True) canonical_target runner chunk id o n db b.
Proof. intros. by eapply (first_in_line_completes _ canonical_ok _ _ _ _ _ _ _ _ _ tt). Qed.

(** * Witnesses *)

Module BatchDemo.
Definition request : SubmitBatchOperation :=
  mkSubmit (MoveQueue "bulk" (Some 4)) (mkBatchFilter None None None None (Some Available) None None) (Some "ops") false.
Definition submitted : result AwaError (BatchOperation * Batches) := submit_batch_operation 5 "op" request no_batches.
Definition b1 : Batches := match submitted with Ok (_, b) => b | Err _ => no_batches end.
Definition o1 : BatchOperation :=
  mkBatchOperation "op" MoveQueueKind (sb_filter request) (sb_spec request) OpPending (Some "ops") 5 None None None None 0 0 0 None None None 5.
Lemma submitted_ok : submitted = Ok (o1, b1).
Proof. vm_compute. reflexivity. Qed.
Lemma operation : operations b1 !! "op" = Some o1.
Proof. vm_compute. reflexivity. Qed.
Lemma only_one : first_in_line b1 "op" (bo_submitted_at o1).
Proof.
  intros id o Hne Ho _. assert (operations b1 = {["op" := o1]}) as E by (vm_compute; reflexivity).
  rewrite E, lookup_singleton_ne in Ho; [done|congruence].
Qed.
Section Reach.
Context {E J : Type} `{JobEngine E J}.
Lemma reachable_jobs (jobs : J) : batch_reachable (mkBatchSys jobs b1 None []).
Proof.
  exists jobs. apply rtc_once. by eapply (BatchSubmit (mkBatchSys jobs no_batches None []) 5 "op" request o1 b1); [apply not_elem_of_nil|].
Qed.
End Reach.

(** The two jobs enqueued in [StoreDemo]. *)
Lemma queue_jobs_ok : queue_ok StoreDemo.q1.
Proof.
  assert (StoreDemo.reaches ([], StoreDemo.q1)) as Hr by (exists (0, 0); eapply rtc_l; [eapply StepEnqueue, StoreDemo.enqueued|apply rtc_refl]).
  apply reachable_ok in Hr as (D & [Hs _]). split; [by exists D| | |].
  - assert (forall l : list (Z * Z), forallb (fun a => 0 <? a.1) l = true -> forall a, a ∈ l -> 0 < a.1) as Hall.
    { intros l Hl a Ha%list_elem_of_In. eapply forallb_forall in Hl; [|exact Ha]. by apply Z.ltb_lt. }
    apply Hall. vm_compute. reflexivity.
  - assert (forall l : list ReadyEntry, forallb (fun r => match c_payload (rt_columns r) with JObject [] => true | _ => false end) l = true ->
              forall r, r ∈ l -> payload_ok (c_payload (rt_columns r))) as Hall.
    { intros l Hl a Ha%list_elem_of_In. eapply forallb_forall in Hl; [|exact Ha]. destruct (c_payload (rt_columns a)) as [| | | | |[|]]; try discriminate Hl. split; [done|by eexists]. }
    apply Hall. vm_compute. reflexivity.
  - assert (deferred_jobs StoreDemo.q1 = ∅) as -> by (vm_compute; reflexivity). intros j r. by rewrite lookup_empty.
Qed.
(** The job inserted in [Demo]. *)
Definition db1 : Db := db (Demo.run [Demo.insert_one 0] empty_sys).
Lemma canonical_jobs_ok : canonical_ok db1.
Proof.
  assert (wf db1) as Hwf by apply demo_wf.
  assert (forall id r, lookup_job id db1 = Some r -> (0 <? j_id r) && is_object (j_metadata r) = true) as Hall.
  { intros id r Hl. pose proof (wf_lookup_id _ _ _ Hwf Hl) as <-. apply all_rows_elem, list_elem_of_In in Hl; [|done].
    revert r Hl. apply forallb_forall. vm_compute. reflexivity. }
  split; [done| |]; intros id r Hl; pose proof (wf_lookup_id _ _ _ Hwf Hl) as <-; apply Hall in Hl; apply andb_true_iff in Hl as [H1 H2]; [by apply Z.ltb_lt|done].
Qed.

(** The operation run to its end on queue storage, in one call. *)
Definition env : BatchEnv := mkBatchEnv 9 None (fun _ => false) (fun _ => EmptyString) false.
Definition qenv : QueueEnv := mkQueueEnv (StoreDemo.at_second 9) id id.
Lemma ran : exists out q b, run_call "r" 100 20 env qenv StoreDemo.q1 b1 PIdle = Some (Ok out, q, b) /\ ro_processed out = 2
  /\ map wj_queue (queue_waiting_jobs q) = ["bulk"; "bulk"].
Proof. do 3 eexists. split; [vm_compute; reflexivity|]. split; vm_compute; reflexivity. Qed.
End BatchDemo.

Lemma batch_changes_each_job_once_witness :
  operations BatchDemo.b1 !! "op" = Some BatchDemo.o1 /\ bo_processed BatchDemo.o1 = item_count "op" ItemProcessed BatchDemo.b1.
Proof.
  split; [exact BatchDemo.operation|].
  exact (proj1 (proj2 (proj2 (batch_changes_each_job_once _ (BatchDemo.reachable_jobs StoreDemo.q1))) _ _ BatchDemo.operation)).
Defined.
Lemma queue_batch_completes_witness :
  map wj_queue (queue_waiting_jobs StoreDemo.q1) = ["mail"; "mail"]
  /\ completes (fun e => qe_logical e = id /\ qe_stripe e = id) (queue_target id id) "r" 1 "op" BatchDemo.o1 2 StoreDemo.q1 BatchDemo.b1.
Proof.
  split; [vm_compute; reflexivity|].
  apply (queue_batch_completes id id (StoreDemo.at_second 9) "r" 1 "op" BatchDemo.o1 2 StoreDemo.q1 BatchDemo.b1 []).
  - exact BatchDemo.queue_jobs_ok.
  - exact (BatchDemo.reachable_jobs StoreDemo.q1).
  - exact BatchDemo.operation.
  - reflexivity.
  - exact BatchDemo.only_one.
  - lia.
  - vm_compute. discriminate.
  - lia.
Defined.
Lemma canonical_batch_completes_witness :
  map wj_queue (waiting_jobs BatchDemo.db1) = ["default"]
  /\ completes (fun _ => True) canonical_target "r" 100 "op" BatchDemo.o1 1 BatchDemo.db1 BatchDemo.b1.
Proof.
  split; [vm_compute; reflexivity|].
  apply (canonical_batch_completes "r" 100 "op" BatchDemo.o1 1 BatchDemo.db1 BatchDemo.b1 []).
  - exact BatchDemo.canonical_jobs_ok.
  - exact (BatchDemo.reachable_jobs BatchDemo.db1).
  - exact BatchDemo.operation.
  - reflexivity.
  - exact BatchDemo.only_one.
  - lia.
  - vm_compute. discriminate.
  - lia.
Defined.
