(* ===== verification/Transition.v ===== *)
(** The storage transition (storage.rs, migrations v010-v014, v020, v037, v040;
    the worker's side in client.rs): a cluster starts on the canonical tables and
    is taken to queue storage by an operator, in steps that can be undone until
    the last one, or at once when it is fresh.

    A cluster holds the singleton row of the transition, the marker row of
    [runtime_storage_backends], the snapshots workers report, the canonical
    tables and the queue-storage schemas installed.  A schema is installed whole;
    whether it has every object this release asks for is a flag of it. *)

From stdpp Require Import pretty.
From S2P Require Import Prelude.
From S2P Require Import Error.
From S2P Require Import Json.
From S2P Require Import Job.
From S2P Require Import Rows.
From S2P Require Import Lanes.
From S2P Require Import QueueStore.
From S2P Require Import Canonical.

(** * State *)

Inductive TransitionState : Type := TCanonical | TPrepared | TMixed | TActive.
#[global] Instance TransitionState_eq_dec : EqDecision TransitionState.
Proof. solve_decision. Defined.
Definition transition_state_text (s : TransitionState) : string :=
  match s with TCanonical => "canonical" | TPrepared => "prepared" | TMixed => "mixed_transition" | TActive => "active" end.
Definition routing_flipped (s : TransitionState) : bool := match s with TMixed | TActive => true | _ => false end.

Record Singleton : Type := mkSingleton {
  current_engine : string;
  prepared_engine : option string;
  ts_state : TransitionState;
  transition_epoch : Z;
  ts_details : json;
  entered_at : time;
  updated_at : time;
  ts_finalized_at : option time
}.

Inductive StorageCapability : Type := CapCanonical | CapDrainOnly | CapQueueStorage.
#[global] Instance StorageCapability_eq_dec : EqDecision StorageCapability.
Proof. solve_decision. Defined.
Definition capability_as_str (c : StorageCapability) : string :=
  match c with CapCanonical => "canonical" | CapDrainOnly => "canonical_drain_only" | CapQueueStorage => "queue_storage" end.
Definition capability_from_str (s : string) : option StorageCapability :=
  if String.eqb s "canonical" then Some CapCanonical
  else if String.eqb s "canonical_drain_only" then Some CapDrainOnly
  else if String.eqb s "queue_storage" then Some CapQueueStorage
  else None.
Inductive TransitionRole : Type := RoleAuto | RoleCanonicalDrain | RoleQueueStorageTarget.
#[global] Instance TransitionRole_eq_dec : EqDecision TransitionRole.
Proof. solve_decision. Defined.
Definition role_as_str (r : TransitionRole) : string :=
  match r with RoleAuto => "auto" | RoleCanonicalDrain => "canonical_drain" | RoleQueueStorageTarget => "queue_storage_target" end.
Definition role_from_str (s : string) : option TransitionRole :=
  if String.eqb s "auto" then Some RoleAuto
  else if String.eqb s "canonical_drain" then Some RoleCanonicalDrain
  else if String.eqb s "queue_storage_target" then Some RoleQueueStorageTarget
  else None.

(** A row of [runtime_instances]. *)
Record RuntimeInstance : Type := mkRuntime {
  storage_capability : StorageCapability;
  transition_role : TransitionRole;
  last_seen_at : time;
  snapshot_interval_ms : Z
}.

Record Substrate : Type := mkSubstrate { su_ready : bool; su_store : QStore }.
Record Cluster : Type := mkCluster {
  singleton : option Singleton;
  marker : option string;
  runtimes : list RuntimeInstance;
  canonical : Db;
  schemas : gmap string Substrate
}.
Definition set_singleton (t : Singleton) (w : Cluster) : Cluster := mkCluster (Some t) (marker w) (runtimes w) (canonical w) (schemas w).
Definition set_marker (m : option string) (w : Cluster) : Cluster := mkCluster (singleton w) m (runtimes w) (canonical w) (schemas w).

(** What v010 seeds. *)
Definition first_singleton (now : time) : Singleton := mkSingleton "canonical" None TCanonical 0 (JObject []) now now None.

(** * Text *)

Fixpoint ltrim (s : string) : string :=
  match s with String c s' => if Ascii.eqb c " "%char then ltrim s' else s | EmptyString => s end.
Fixpoint rtrim (s : string) : string :=
  match s with
  | EmptyString => EmptyString
  | String c s' => match rtrim s' with
                   | EmptyString => if Ascii.eqb c " "%char then EmptyString else String c EmptyString
                   | t => String c t
                   end
  end.
Definition btrim (s : string) : string := rtrim (ltrim s).
Definition nullif_empty (s : option string) : option string := match s with Some EmptyString => None | _ => s end.
(** [{:?}] of a name; escapes are not modelled. *)
Definition quoted (s : string) : string := String "034"%char s +:+ String "034"%char EmptyString.
Definition raise (code : string) : AwaError := Database (SqlxDatabase (Some code) None).

Section Sql.
(** The text of a JSON value that is neither a string nor null. *)
Context (jsonb_text : json -> string).
(** [v ->> k]. *)
Definition arrow_text (v : json) (k : string) : option string :=
  match get k v with
  | Some (JString s) => Some s
  | Some JNull | None => None
  | Some x => Some (jsonb_text x)
  end.
Definition details_schema (details : json) : option string := nullif_empty (arrow_text details "schema").

(** * Routing *)

Definition active_storage_engine (w : Cluster) : string :=
  match singleton w with
  | Some t =>
      match btrim (if routing_flipped (ts_state t) then default (current_engine t) (prepared_engine t) else current_engine t) with
      | EmptyString => "canonical"
      | s => s
      end
  | None => "canonical"
  end.
(** Where SQL producers and re-scheduled attempts go; [None] is canonical. *)
Definition active_queue_storage_schema (w : Cluster) : option string :=
  match singleton w with
  | Some t =>
      if String.eqb (active_storage_engine w) "queue_storage"
      then Some (match details_schema (ts_details t) with Some s => s | None => default "awa" (marker w) end)
      else None
  | None => None
  end.
(** [QueueStorage::active_schema], which admin calls and batch operations ask. *)
Definition active_schema (validate_ident : string -> bool) (w : Cluster) : result AwaError (option string) :=
  match marker w with
  | Some s => if validate_ident s then Ok (Some s) else Err (Validation "active queue-storage schema name is not a valid SQL identifier")
  | None => Ok None
  end.

(** [awa.canonical_live_backlog()]: rows of [jobs_hot] not final, and [scheduled_jobs]. *)
Definition canonical_live_backlog (db : Db) : Z :=
  Z.of_nat (length (List.filter (fun r => negb (is_terminal (j_state r))) (rows_of (hot db)))) + Z.of_nat (size (scheduled db)).
Definition canonical_jobs (db : Db) : Z := Z.of_nat (size (hot db)) + Z.of_nat (size (scheduled db)).

(** * Liveness of a runtime *)

Definition interval_secs (ms : Z) : Z := Z.max (Z.max ms 1000 / 1000 * 3) 30.
Definition seen_live (now : time) (r : RuntimeInstance) : bool :=
  now <=? last_seen_at r + interval_secs (snapshot_interval_ms r) * us_per_sec.
Definition live_count (now : time) (p : RuntimeInstance -> bool) (w : Cluster) : nat :=
  length (List.filter (fun r => p r && seen_live now r) (runtimes w)).
Definition has_capability (c : StorageCapability) (r : RuntimeInstance) : bool := bool_decide (storage_capability r = c).
Definition queue_target_runtime (r : RuntimeInstance) : bool :=
  bool_decide (transition_role r = RoleQueueStorageTarget) && has_capability CapQueueStorage r.
(** The window of [storage_auto_finalize_if_fresh] and of the migration gate. *)
Definition seen_recently (now : time) (r : RuntimeInstance) : bool := now <=? last_seen_at r + 90 * us_per_sec.
(** The one of [enter_mixed_transition_quiesced]. *)
Definition snapshot_fresh (now : time) (r : RuntimeInstance) : bool :=
  now <=? last_seen_at r + Z.max (snapshot_interval_ms r * 3 * 1000) (30 * us_per_sec).

(** * The commands *)

Definition ROW_MISSING : AwaError := raise "55000".

Definition storage_prepare (now : time) (engine : string) (details : option json) (w : Cluster) : result AwaError Cluster :=
  let details := default (JObject []) details in
  match btrim engine with
  | EmptyString => Err (raise "22023")
  | target =>
      match singleton w with
      | None => Err ROW_MISSING
      | Some t =>
          if String.eqb (current_engine t) target then Err (raise "22023")
          else
            match ts_state t with
            | TCanonical | TPrepared =>
                let same := bool_decide (ts_state t = TPrepared) && bool_decide (prepared_engine t = Some target)
                            && json_eqb (ts_details t) details in
                Ok (set_singleton
                      (mkSingleton (current_engine t) (Some target) TPrepared
                         (if same then transition_epoch t else transition_epoch t + 1) details
                         (if same then entered_at t else now) now None) w)
            | _ => Err (raise "55000")
            end
      end
  end.

(** The rows [storage_abort] counts, of the tables [QStore] has: nothing of it is
    in [lease_claims], [lease_claim_closures] or [receipt_completion_tombstones]. *)
Definition queue_storage_rows (q : QStore) : Z :=
  Z.of_nat (length (ready_entries (tables (lanes q))) + length (attempt_batches (tables (lanes q)))
            + length (ready_tombstones (tables (lanes q))) + length (ready_segments (tables (lanes q)))
            + size (deferred_jobs q) + length (leases q) + length (closures q) + size (attempt_state q)
            + size (done_entries q) + length (completions q) + size (dlq_entries q)).
Definition storage_abort (now : time) (w : Cluster) : result AwaError Cluster :=
  match singleton w with
  | None => Err ROW_MISSING
  | Some t =>
      let schema := default "awa_exp" (details_schema (ts_details t)) in
      let rows := match schemas w !! schema with Some u => queue_storage_rows (su_store u) | None => 0 end in
      if bool_decide (ts_state t = TMixed) && (0 <? live_count now (has_capability CapQueueStorage) w)%nat then Err (raise "55000")
      else if bool_decide (ts_state t = TMixed) && (0 <? rows) then Err (raise "55000")
      else
        let w := set_marker None w in
        Ok (match ts_state t with
            | TActive => w
            | st =>
                set_singleton
                  (mkSingleton (current_engine t) None TCanonical
                     (if bool_decide (st = TCanonical) then transition_epoch t else transition_epoch t + 1) (JObject [])
                     (if bool_decide (st = TCanonical) then entered_at t else now) now None) w
            end)
  end.

(** The routing flip both ways of entering share. *)
Definition flip_routing (now : time) (schema : string) (t : Singleton) (w : Cluster) : Cluster :=
  set_marker (Some schema) w
  |> set_singleton (mkSingleton (current_engine t) (prepared_engine t) TMixed (transition_epoch t + 1) (ts_details t) now now None).
Definition storage_enter_mixed_transition (now : time) (w : Cluster) : result AwaError Cluster :=
  match singleton w with
  | None => Err ROW_MISSING
  | Some t =>
      if negb (bool_decide (ts_state t = TPrepared)) then Err (raise "55000")
      else if negb (bool_decide (prepared_engine t = Some "queue_storage")) then Err (raise "22023")
      else
        let schema := default "awa" (details_schema (ts_details t)) in
        match schemas w !! schema with
        | None => Err (raise "55000")
        | Some _ =>
            if (0 <? live_count now (has_capability CapCanonical) w)%nat then Err (raise "55000")
            else if (live_count now queue_target_runtime w =? 0)%nat then Err (raise "55000")
            else Ok (flip_routing now schema t w)
        end
  end.

(** [as_str()] of a member of the details. *)
Definition member_str (details : json) (k : string) : option string :=
  match get k details with Some (JString s) => Some s | _ => None end.
Definition queue_storage_schema_ready (schema : string) (w : Cluster) : bool :=
  match schemas w !! schema with Some u => su_ready u | None => false end.
Definition enter_mixed_transition_quiesced (now : time) (w : Cluster) : result AwaError Cluster :=
  match singleton w with
  | None => Err (Database SqlxRowNotFound)
  | Some t =>
      if negb (bool_decide (ts_state t = TPrepared)) || negb (bool_decide (prepared_engine t = Some "queue_storage"))
      then Err (Validation "quiesced transition requires prepared queue storage")
      else
        let schema := default "awa" (nullif_empty (member_str (ts_details t) "schema")) in
        if negb (queue_storage_schema_ready schema w) then Err (Validation ("queue storage schema " +:+ quoted schema +:+ " is not prepared"))
        else
          let live := length (List.filter (snapshot_fresh now) (runtimes w)) in
          if negb (live =? 0)%nat
          then Err (Validation ("cannot enter quiesced transition while " +:+ pretty live
                                +:+ " fresh runtime snapshot(s) exist; stop all workers and wait for their heartbeats to expire"))
          else Ok (flip_routing now schema t w)
  end.

Definition storage_finalize (now : time) (w : Cluster) : result AwaError Cluster :=
  match singleton w with
  | None => Err ROW_MISSING
  | Some t =>
      if negb (bool_decide (ts_state t = TMixed)) then Err (raise "55000")
      else if negb (bool_decide (prepared_engine t = Some "queue_storage")) then Err (raise "22023")
      else if 0 <? canonical_live_backlog (canonical w) then Err (raise "55000")
      else if (0 <? live_count now (has_capability CapCanonical) w)%nat then Err (raise "55000")
      else Ok (set_singleton
                 (mkSingleton (default (current_engine t) (prepared_engine t)) None TActive (transition_epoch t + 1) (ts_details t)
                    now now (Some now)) w)
  end.

Definition storage_auto_finalize_if_fresh (now : time) (p_schema : string) (w : Cluster) : result AwaError (bool * Cluster) :=
  match singleton w with
  | None => Err ROW_MISSING
  | Some t =>
      if negb (bool_decide (ts_state t = TCanonical)) then Ok (false, w)
      else if match prepared_engine t with Some _ => true | None => false end then Ok (false, w)
      else if 0 <? canonical_jobs (canonical w) then Ok (false, w)
      else if existsb (seen_recently now) (runtimes w) then Ok (false, w)
      else
        let schema := match btrim p_schema with EmptyString => "awa" | s => s end in
        Ok (true,
            set_marker (Some schema) w
            |> set_singleton
                 (mkSingleton "queue_storage" None TActive (transition_epoch t + 1)
                    (JObject [("auto_finalized", JBool true); ("schema", JString schema)]) now now (Some now)))
  end.

(** [QueueStorage::activate_backend], for set-ups that never had canonical jobs. *)
Definition activate_backend (now : time) (schema : string) (w : Cluster) : result AwaError Cluster :=
  let details := JObject [("schema", JString schema)] in
  let w := set_marker (Some schema) w in
  match singleton w with
  | None => Err (Validation "queue storage activation requires the storage transition state row")
  | Some t =>
      let same := String.eqb (current_engine t) "queue_storage" && bool_decide (prepared_engine t = None)
                  && bool_decide (ts_state t = TActive) && json_eqb (ts_details t) details in
      Ok (set_singleton
            (mkSingleton "queue_storage" None TActive (if same then transition_epoch t else transition_epoch t + 1) details
               (if same then entered_at t else now) now (if same then Some (default now (ts_finalized_at t)) else Some now)) w)
  end.
End Sql.

(** * Status *)

Record StorageStatus : Type := mkStatus { st_row : Singleton; active_engine : string }.
Definition storage_status (w : Cluster) : result AwaError StorageStatus :=
  match singleton w with Some t => Ok (mkStatus t (active_storage_engine w)) | None => Err (Database SqlxRowNotFound) end.

Definition queue_storage_schema_from_status (s : StorageStatus) : option string :=
  if bool_decide (prepared_engine (st_row s) = Some "queue_storage") || String.eqb (active_engine s) "queue_storage"
  then Some (default "awa" (member_str (ts_details (st_row s)) "schema"))
  else None.

(** [RuntimeInstance::stale_cutoff], in milliseconds, and the [stale] it gives. *)
Definition stale_cutoff (interval_ms : Z) : Z := Z.max (Z.min (Z.max interval_ms 1000 * 3) (2 ^ 63 - 1)) 30000.
Definition stale (now : time) (r : RuntimeInstance) : bool := last_seen_at r + stale_cutoff (snapshot_interval_ms r) * 1000 <? now.

Record StorageStatusReport : Type := mkReport {
  sr_status : StorageStatus;
  sr_canonical_live_backlog : Z;
  prepared_queue_storage_schema : option string;
  prepared_schema_ready : bool;
  live_runtime_capability_counts : gmap string nat;
  enter_mixed_transition_blockers : list string;
  finalize_blockers : list string
}.
Definition is_empty {A} (l : list A) : bool := match l with [] => true | _ => false end.
Definition can_enter_mixed_transition (r : StorageStatusReport) : bool := is_empty (enter_mixed_transition_blockers r).
Definition can_finalize (r : StorageStatusReport) : bool := is_empty (finalize_blockers r).

Definition debug_option (s : option string) : string :=
  match s with Some s => "Some(" +:+ quoted s +:+ ")" | None => "None" end.
Definition state_blocker (expected : TransitionState) (t : Singleton) : list string :=
  if negb (bool_decide (ts_state t = expected))
  then ["state is '" +:+ transition_state_text (ts_state t) +:+ "' (expected '" +:+ transition_state_text expected +:+ "')"] else [].
Definition engine_blocker (t : Singleton) : list string :=
  if negb (bool_decide (prepared_engine t = Some "queue_storage"))
  then ["prepared_engine is " +:+ debug_option (prepared_engine t) +:+ " (expected " +:+ debug_option (Some "queue_storage") +:+ ")"] else [].
Definition canonical_blocker (live_canonical : nat) : list string :=
  if (0 <? live_canonical)%nat then [pretty live_canonical +:+ " canonical-only runtime(s) are still live"] else [].
Definition count_capability (m : gmap string nat) (r : RuntimeInstance) : gmap string nat :=
  let k := capability_as_str (storage_capability r) in <[k := S (default 0%nat (m !! k))]> m.
Definition status_report (now : time) (w : Cluster) : result AwaError StorageStatusReport :=
  let? status := storage_status w in
  let t := st_row status in
  let backlog := canonical_live_backlog (canonical w) in
  let schema := queue_storage_schema_from_status status in
  let ready := match schema with Some schema => queue_storage_schema_ready schema w | None => false end in
  let live := List.filter (fun r => negb (stale now r)) (runtimes w) in
  let counts := fold_left count_capability live ∅ in
  let targets := length (List.filter queue_target_runtime live) in
  let live_canonical := default 0%nat (counts !! "canonical") in
  Ok (mkReport status backlog schema ready counts
        (state_blocker TPrepared t ++ engine_blocker t
         ++ (if (match schema with Some _ => true | None => false end) && negb ready
             then ["prepared queue-storage schema is missing required tables"] else [])
         ++ canonical_blocker live_canonical
         ++ (if (targets =? 0)%nat
             then ["no live runtimes with transition_role=queue_storage_target are reporting; auto-role runtimes downgrade to drain-only after the routing flip"]
             else []))
        (state_blocker TMixed t ++ engine_blocker t
         ++ (if 0 <? backlog then ["canonical live backlog is " +:+ pretty backlog] else [])
         ++ canonical_blocker live_canonical)).

(** * The gate of the migration runner (migrations.rs) *)

Definition check_storage_finalized_gate (now : time) (w : Cluster) : result AwaError unit :=
  let '(st, prepared) := match singleton w with Some t => (ts_state t, prepared_engine t) | None => (TCanonical, None) end in
  if bool_decide (st = TActive) then Ok tt
  else
    let effectively_fresh := bool_decide (st = TCanonical) && bool_decide (prepared = None)
                             && negb (0 <? canonical_jobs (canonical w)) && negb (existsb (seen_recently now) (runtimes w)) in
    if effectively_fresh then Ok tt else Err (StorageNotFinalized (transition_state_text st)).

(** * The worker's side (client.rs) *)

Inductive RuntimeStorage : Type := RunCanonical | RunQueueStorage (schema : string).

Definition expected_queue_storage_schema (s : StorageStatus) : result AwaError (option string) :=
  let t := st_row s in
  let prepared_schema := default "awa" (member_str (ts_details t) "schema") in
  let prepared := bool_decide (prepared_engine t = Some "queue_storage") in
  match ts_state t with
  | TPrepared | TCanonical => Ok (if prepared then Some prepared_schema else None)
  | TMixed | TActive =>
      if String.eqb (active_engine s) "queue_storage" then Ok (Some prepared_schema)
      else Err (Validation ("unsupported active storage engine '" +:+ active_engine s +:+ "'"))
  end.
Definition routes_to_queue_storage (s : StorageStatus) : bool :=
  routing_flipped (ts_state (st_row s)) && String.eqb (active_engine s) "queue_storage".

(** [QueueStorage::prepare_schema]: installs a schema, or completes it. *)
Definition prepare_schema (fresh : QStore) (schema : string) (w : Cluster) : Cluster :=
  let store := match schemas w !! schema with Some u => su_store u | None => fresh end in
  mkCluster (singleton w) (marker w) (runtimes w) (canonical w) (<[schema := mkSubstrate true store]> (schemas w)).

Section Resolve.
(** The schema version in the database and the one of the binary, and an empty
    store. *)
Context (schema_version binary_version : Z) (fresh : QStore).
Definition queue_storage_not_ready_error (schema role_hint : string) (observed : Z) : AwaError :=
  if (0 <? observed) && (observed <? binary_version)
  then Validation ("queue storage schema '" +:+ schema +:+ "' is missing relations this runtime requires: schema version "
                   +:+ pretty observed +:+ " is older than this binary's version " +:+ pretty binary_version
                   +:+ "; run `awa migrate` before starting this runtime")
  else Validation ("queue storage schema '" +:+ schema +:+ "' is not prepared; run schema preparation before starting "
                   +:+ role_hint +:+ " runtimes").
(** [configured] is the schema of a runtime built for queue storage.  Nothing
    else happens to the cluster meanwhile. *)
Definition resolve_effective_storage (now : time) (configured : option string) (role : TransitionRole) (w : Cluster)
    : result AwaError (RuntimeStorage * Cluster) :=
  match configured with
  | None => Ok (RunCanonical, w)
  | Some configured =>
      let? status := storage_status w in
      let? expected := expected_queue_storage_schema status in
      if match expected with Some schema => negb (String.eqb configured schema) | None => false end
      then Err (Validation ("queue storage runtime configured for schema '" +:+ configured +:+ "' but transition state requires '"
                            +:+ default EmptyString expected +:+ "'"))
      else
        let ready := match expected with Some schema => queue_storage_schema_ready schema w | None => false end in
        let observed := match expected with Some _ => if ready then 0 else schema_version | None => 0 end in
        let by_status := if routes_to_queue_storage status then RunQueueStorage configured else RunCanonical in
        match role with
        | RoleCanonicalDrain => Ok (RunCanonical, w)
        | RoleQueueStorageTarget =>
            match expected with
            | None => Err (Validation "queue_storage_target requires a prepared queue-storage schema")
            | Some schema =>
                if ready then Ok (RunQueueStorage configured, w)
                else Err (queue_storage_not_ready_error schema "queue-storage-target" observed)
            end
        | RoleAuto =>
            match expected with
            | Some schema =>
                if negb ready then Err (queue_storage_not_ready_error schema "0.6" observed) else Ok (by_status, w)
            | None =>
                if bool_decide (ts_state (st_row status) = TCanonical) && bool_decide (prepared_engine (st_row status) = None)
                then
                  let w := if queue_storage_schema_ready configured w then w else prepare_schema fresh configured w in
                  let? (promoted, w) := storage_auto_finalize_if_fresh now configured w in
                  if (promoted : bool) then Ok (RunQueueStorage configured, w)
                  else
                    let? refetched := storage_status w in
                    Ok (if routes_to_queue_storage refetched then RunQueueStorage configured else by_status, w)
                else Ok (by_status, w)
            end
        end
  end.
End Resolve.

(** What a runtime reports of itself. *)
Definition reported_capability (queue_storage_capable : bool) (effective : RuntimeStorage) (w : Cluster) : StorageCapability :=
  if negb queue_storage_capable then CapCanonical
  else match effective with
       | RunQueueStorage _ => CapQueueStorage
       | RunCanonical =>
           match storage_status w with
           | Ok s => if routes_to_queue_storage s then CapDrainOnly else CapQueueStorage
           | Err _ => CapQueueStorage
           end
       end.
