(* ===== verification/Crossing.v ===== *)
(** An attempt that crosses engines: while routing points to queue storage, a
    canonical attempt that re-schedules leaves the canonical tables and goes on
    as a queue-storage job under a fresh id ([migrate_to_queue_storage] of
    reschedule.rs, [insert_migrated_deferred_or_cancel_duplicate_tx] of
    queue_storage.rs), and what the move does to both engines. *)

From S2P Require Import Prelude.
From S2P Require Import Error.
From S2P Require Import Json.
From S2P Require Import Job.
From S2P Require Import Rows.
From S2P Require Import Lanes.
From S2P Require Import LanesFacts.
From S2P Require Import AtomicLanes.
From S2P Require Import QueueStore.
From S2P Require Import AttemptRescue.
From S2P Require Import StoreAdmin.
From S2P Require Import StoreFacts.
From S2P Require Import AttemptFacts.
From S2P Require Import OperationFacts.
From S2P Require Import Canonical.
From S2P Require Import CanonicalFacts.
From S2P Require Import Transition.

(** * The move *)

Definition MIGRATED_DUPLICATE : string := "rescheduled as duplicate: unique claim held by a newer job".
Definition migrated_columns (row : JobRow) (unique_states : option string) : Columns :=
  mkColumns (j_id row) (j_kind row) (j_queue row) (j_args row) (j_priority row) (j_attempt row) (j_run_lease row)
    (j_max_attempts row) (j_run_at row) (j_attempted_at row) (j_created_at row) (j_unique_key row) unique_states
    (payload_from_parts (j_metadata row) (j_tags row) (j_errors row) (j_progress row)).
Definition insert_done_new (env : StoreEnv) (done : DoneJobRow) (q : QStore) : result AwaError (JobRow * QStore) :=
  let? q := insert_done_rows_tx env [done] None q in
  let? row := done_into_job_row done in
  Ok (row, q).
Definition insert_migrated_deferred_or_cancel_duplicate_tx (env : StoreEnv) (row : JobRow) (unique_states : option string)
    (q : QStore) : result AwaError (JobRow * QStore) :=
  let c := migrated_columns row unique_states in
  let deferred := mkDeferred c (j_state row) (j_finalized_at row) in
  or_on_conflict
    (let? q := insert_deferred_rows_tx [deferred] None q in
     let? j := deferred_into_job_row deferred in
     Ok (j, q))
    (let? payload := from_json (c_payload c) in
     let payload := push_error (lifecycle_error (sv_at_text env) MIGRATED_DUPLICATE (c_attempt c) true) payload in
     let ring := queue_ring (lanes q) in
     let q := ensure_lane_tx (c_queue c, c_priority c, 0) q in
     let done := mkDone (mkPosition (fst ring) (snd ring) (- c_job_id c) 0) (with_payload (into_json payload) c) Cancelled
                   (sv_now env) None in
     or_on_conflict (insert_done_new env done q) (insert_done_new env (strip_unique done) q)).

(** Both engines claim unique keys in one table, [awa.job_unique_claims]; each
    of the two models holds the rows of its own jobs. *)
Definition migrate_attempt (env : Env) (senv : StoreEnv) (id lease : Z) (k : Reschedule) (error progress : option json)
    (db : Db) (q : QStore) : result AwaError (RescheduleOutcome * (Db * QStore)) :=
  let stay := let? (o, db) := reschedule_canonical env id lease k error progress db in Ok (o, (db, q)) in
  match hot db !! id with
  | Some job =>
      if running_lease lease job && callback_free job
      then
        let? db := delete_hot job db in
        let successor := migrated_successor env (job_id_seq q) k error progress job in
        let q := set_job_id_seq (job_id_seq q + 1) q in
        let? (inserted, q) := insert_migrated_deferred_or_cancel_duplicate_tx senv successor (j_unique_states job)
                                (set_unique (claims q ∪ unique_claims db) q) in
        let q := set_unique (claims q ∖ unique_claims db) q in
        Ok (if bool_decide (j_state inserted = Cancelled)
            then CancelledDuplicate (j_id inserted)
            else Migrated (j_id inserted) (j_run_at inserted) (j_attempt inserted), (db, q))
      else stay
  | None => stay
  end.

(** [reschedule_canonical_attempt_tx]: the singleton is locked, so that routing
    does not change meanwhile. *)
Definition set_plane (db : Db) (schema : string) (u : Substrate) (w : Cluster) : Cluster :=
  mkCluster (singleton w) (marker w) (runtimes w) db (<[schema := u]> (schemas w)).
Definition set_canonical (db : Db) (w : Cluster) : Cluster := mkCluster (singleton w) (marker w) (runtimes w) db (schemas w).
Definition UNDEFINED_TABLE : AwaError := Database (SqlxDatabase (Some "42P01") None).
Definition reschedule_routed (jsonb_text : json -> string) (env : Env) (senv : StoreEnv) (id lease : Z) (k : Reschedule)
    (error progress : option json) (w : Cluster) : result AwaError (RescheduleOutcome * Cluster) :=
  match active_queue_storage_schema jsonb_text w with
  | None =>
      let? (o, db) := reschedule_canonical env id lease k error progress (canonical w) in Ok (o, set_canonical db w)
  | Some schema =>
      match schemas w !! schema with
      | None => Err UNDEFINED_TABLE
      | Some u =>
          let? (o, (db, q)) := migrate_attempt env senv id lease k error progress (canonical w) (su_store u) in
          Ok (o, set_plane db schema (mkSubstrate (su_ready u) q) w)
      end
  end.

(** * What it does *)

Lemma set_unique_sinv D E m q : sinv D E q -> sinv D E (set_unique m q).
Proof. intros [Hl Ha H1 H2]. split; [by apply (ledger_view D q)|done..]. Qed.
Lemma set_unique_keeps D E m q : sinv D E q -> keeps D E q D E (set_unique m q).
Proof. intros Hs. split; [by apply set_unique_sinv|done..]. Qed.

(** A fresh id in transit, under any run lease. *)
Lemma draw_lease_sinv D E l q : sinv D E q -> sinv D ((job_id_seq q, l) :: E) (set_job_id_seq (job_id_seq q + 1) q).
Proof.
  intros [Hl [A1 A2 A3 A4] H1 H2]. split; [by apply (ledger_view D q)| |done|done].
  change (places (set_job_id_seq (job_id_seq q + 1) q)) with (places q). cbn [job_id_seq set_job_id_seq]. split.
  - simpl. constructor; [|done]. intros (a & Ea & Ha)%list_elem_of_fmap. specialize (A2 a Ha). lia.
  - intros a [->|Ha]%elem_of_cons; simpl; [lia|]. specialize (A2 a Ha). lia.
  - intros a Ha. specialize (A3 a Ha). lia.
  - intros j l0 l' Hd [[= -> ->]|Ha]%elem_of_cons; [|by eapply A4]. specialize (A3 _ Hd). simpl in A3. lia.
Qed.

Lemma on_conflict_cases {A} (m k : result AwaError A) a : or_on_conflict m k = Ok a -> m = Ok a \/ k = Ok a.
Proof. unfold or_on_conflict. destruct m as [?|[]]; auto. Qed.

Lemma insert_migrated_keeps D E env row us q j q' :
  insert_migrated_deferred_or_cancel_duplicate_tx env row us q = Ok (j, q') -> sinv D ((j_id row, j_run_lease row) :: E) q ->
  keeps D ((j_id row, j_run_lease row) :: E) q D E q'.
Proof.
  unfold insert_migrated_deferred_or_cancel_duplicate_tx. intros [H|H]%on_conflict_cases Hs.
  - open_binds. subst. put_row Hs.
  - apply rbind_Ok in H as (p & _ & H). cbv zeta in H. set (q1 := ensure_lane_tx _ q) in *.
    assert (keeps D ((j_id row, j_run_lease row) :: E) q D ((j_id row, j_run_lease row) :: E) q1) as K1.
    { apply ensure_lane_keeps, Hs. }
    eapply keeps_trans; [exact K1|]. pose proof (kp_inv _ _ _ _ _ _ K1) as Hs1.
    apply on_conflict_cases in H as [H|H]; unfold insert_done_new in H; open_binds; subst; put_row Hs1.
Qed.

Lemma deferred_row_id d j : deferred_into_job_row d = Ok j -> j_id j = c_job_id (df_columns d).
Proof. unfold deferred_into_job_row. by intros (p & _ & [= <-])%rbind_Ok. Qed.
Lemma done_row_id d j : done_into_job_row d = Ok j -> j_id j = c_job_id (dn_columns d).
Proof. unfold done_into_job_row. by intros (p & _ & [= <-])%rbind_Ok. Qed.
Lemma insert_migrated_id env row us q j q' :
  insert_migrated_deferred_or_cancel_duplicate_tx env row us q = Ok (j, q') -> j_id j = j_id row.
Proof.
  unfold insert_migrated_deferred_or_cancel_duplicate_tx. intros [H|H]%on_conflict_cases.
  - open_binds. subst. by match goal with Hj : deferred_into_job_row _ = Ok _ |- _ => rewrite (deferred_row_id _ _ Hj) end.
  - apply rbind_Ok in H as (p & _ & H). cbv zeta in H. apply on_conflict_cases in H as [H|H]; unfold insert_done_new in H; open_binds; subst;
      by match goal with Hj : done_into_job_row _ = Ok _ |- _ => rewrite (done_row_id _ _ Hj) end.
Qed.
(** What the store's columns keep of a canonical row. *)
Definition same_work (r : JobRow) (c : Columns) : Prop :=
  c_kind c = j_kind r /\ c_queue c = j_queue r /\ c_args c = j_args r /\ c_priority c = j_priority r
  /\ c_max_attempts c = j_max_attempts r /\ c_created_at c = j_created_at r /\ c_unique_key c = j_unique_key r
  /\ c_unique_states c = j_unique_states r /\ c_run_lease c = j_run_lease r.
Lemma insert_migrated_stored env row us q j q' :
  insert_migrated_deferred_or_cancel_duplicate_tx env row us q = Ok (j, q') -> j_state j <> Cancelled ->
  deferred_jobs q' !! j_id row = Some (mkDeferred (stored (migrated_columns row us)) (j_state row) (j_finalized_at row))
  /\ j_run_at j = j_run_at row /\ j_attempt j = j_attempt row.
Proof.
  unfold insert_migrated_deferred_or_cancel_duplicate_tx. intros [H|H]%on_conflict_cases Hst.
  - apply rbind_Ok in H as (q1 & Hq & (j1 & Hj & [= <- <-])%rbind_Ok).
    unfold deferred_into_job_row in Hj. apply rbind_Ok in Hj as (p & _ & [= <-]). split; [|done].
    unfold insert_deferred_rows_tx in Hq. apply rbind_Ok in Hq as (q2 & _ & (m & Hm & [= <-])%rbind_Ok). simpl in Hm.
    destruct (negb _); [done|]. destruct (deferred_jobs q2 !! _) in Hm; [done|]. injection Hm as <-. apply lookup_insert_eq.
  - exfalso. apply rbind_Ok in H as (p & _ & H). cbv zeta in H.
    apply on_conflict_cases in H as [H|H]; unfold insert_done_new, done_into_job_row in H; open_binds; subst; by apply Hst.
Qed.
Lemma delete_hot_tables job db db' :
  delete_hot job db = Ok db' -> hot db' = delete (j_id job) (hot db) /\ scheduled db' = scheduled db.
Proof. unfold delete_hot. by intros (c & _ & [= <-])%rbind_Ok. Qed.

(** The attempt is in the store under the store's next id, and nowhere else. *)
Record crossed (id lease : Z) (db : Db) (q : QStore) (o : RescheduleOutcome) (db' : Db) (q' : QStore) : Prop := {
  cr_job : exists job, hot db !! id = Some job /\ j_state job = Running /\ j_run_lease job = lease;
  cr_outcome : (exists run_at attempt, o = Migrated (job_id_seq q) run_at attempt) \/ o = CancelledDuplicate (job_id_seq q);
  cr_stored : forall j run_at attempt, o = Migrated j run_at attempt ->
    exists job d, hot db !! id = Some job /\ deferred_jobs q' !! j = Some d /\ same_work job (df_columns d)
      /\ c_run_at (df_columns d) = run_at /\ c_attempt (df_columns d) = attempt;
  cr_hot : hot db' = delete id (hot db);
  cr_scheduled : scheduled db' = scheduled db;
  cr_wf : wf db';
  cr_places : places q' ≡ₚ ((job_id_seq q, lease) :: places q);
  cr_seq : job_id_seq q' = job_id_seq q + 1
}.
Lemma migrate_moves D env senv id lease k error progress db q o db' q' :
  wf db -> sinv D [] q -> migrate_attempt env senv id lease k error progress db q = Ok (o, (db', q')) ->
  sinv D [] q' /\ (forall e, handed q e -> handed q' e)
  /\ (crossed id lease db q o db' q' \/ q' = q /\ reschedule_canonical env id lease k error progress db = Ok (o, db')).
Proof.
  intros Hwf Hs. unfold migrate_attempt. cbv zeta.
  assert (forall r : result AwaError (RescheduleOutcome * Db), (let? (o, db) := r in Ok (o, (db, q))) = Ok (o, (db', q')) -> q' = q /\ r = Ok (o, db')) as Hstay.
  { intros [[o1 db1]|e]; [|done]. simpl. by intros [= -> -> ->]. }
  destruct (hot db !! id) as [job|] eqn:Hj; [|intros [-> ?]%Hstay; split_and!; auto].
  destruct (running_lease lease job && callback_free job) eqn:Hg; [|intros [-> ?]%Hstay; split_and!; auto].
  apply andb_true_iff in Hg as [Hg _]. unfold running_lease in Hg. apply andb_true_iff in Hg as [Hst%bool_decide_eq_true Hle%Z.eqb_eq].
  intros (db1 & Hd & ([j q2] & Hi & [= <- <- <-])%rbind_Ok)%rbind_Ok. pose proof (insert_migrated_id _ _ _ _ _ _ Hi) as Eid.
  pose proof (wf_hot _ Hwf _ _ Hj) as [Ej _].
  assert (wf db1) as Hwf1.
  { destruct (delete_hot_spec job db Hwf) as (db2 & Hd2 & Hrep); [by rewrite Ej|]. rewrite Hd in Hd2. injection Hd2 as <-. apply Hrep. }
  apply delete_hot_tables in Hd as [Eh Es]. rewrite Ej in Eh.
  assert (j_run_lease (migrated_successor env (job_id_seq q) k error progress job) = lease /\ j_id (migrated_successor env (job_id_seq q) k error progress job) = job_id_seq q)
    as [El Ei] by (unfold migrated_successor; destruct (delay_parameters k); simpl; done).
  pose proof (draw_lease_sinv D [] lease q Hs) as H1. set (q1 := set_job_id_seq (job_id_seq q + 1) q) in *.
  pose proof (set_unique_sinv D _ (claims q1 ∪ unique_claims db1) q1 H1) as H1'.
  assert (keeps D [(job_id_seq q, lease)] (set_unique (claims q1 ∪ unique_claims db1) q1) D [] q2) as K.
  { rewrite <- Ei, <- El in H1' |- *. by eapply insert_migrated_keeps. }
  pose proof (set_unique_keeps D [] (claims q2 ∖ unique_claims db1) q2 (kp_inv _ _ _ _ _ _ K)) as K2.
  split_and!; [apply K2|intros e He; apply (kp_handed _ _ _ _ _ _ K2), (kp_handed _ _ _ _ _ _ K), He|]. left. split; try done.
  - by exists job.
  - rewrite Eid, Ei. case_bool_decide; [by right|left; eauto].
  - intros i t a. case_bool_decide as Hc; [done|]. intros [= <- <- <-].
    apply (insert_migrated_stored _ _ _ _ _ _ Hi) in Hc as (Hd & Et & Ea). rewrite Eid.
    exists job. eexists. split; [done|]. split; [exact Hd|]. rewrite Et, Ea.
    clear. unfold migrated_successor. by destruct (delay_parameters k).
  - rewrite (kp_places _ _ _ _ _ _ K2 : places _ ≡ₚ places _). exact (kp_places _ _ _ _ _ _ K).
  - rewrite (kp_seq _ _ _ _ _ _ K2), (kp_seq _ _ _ _ _ _ K). done.
Qed.
