(* ===== verification/TransitionRuns.v ===== *)
(** The runs of a cluster in transition: the operator's commands, the workers'
    start-ups and snapshots, producers, workers and admin calls of both engines,
    in any order; and the invariant of those runs in which every preparation
    names its schema, nobody aborts a finished transition and queue storage is
    activated outright only where that leaves no job behind.

    Producers route and write in one step here, which the code does not ensure
    (TransitionGuarantees.v shows what comes of a late write).  Unique keys of the two engines
    are kept apart: a key held by the other engine makes an insert fail, which
    leaves out a step. *)

From stdpp Require Import relations.
From S2P Require Import Prelude.
From S2P Require Import Error.
From S2P Require Import Json.
From S2P Require Import Job.
From S2P Require Import Rows.
From S2P Require Import Lanes.
From S2P Require Import LanesFacts.
From S2P Require Import AtomicLanes.
From S2P Require Import QueueStore.
From S2P Require Import QueueOps.
From S2P Require Import StoreFacts.
From S2P Require Import AttemptFacts.
From S2P Require Import OperationFacts.
From S2P Require Import ClaimFacts.
From S2P Require Import SqlInsert.
From S2P Require Import StoreGuarantees.
From S2P Require Import Canonical.
From S2P Require Import CanonicalFacts.
From S2P Require Import Lifecycle.
From S2P Require Import System.
From S2P Require Import Transition.
From S2P Require Import Crossing.

(** * Steps *)

(** A final job made live again, by an admin's retry. *)
Definition revives (db db' : Db) : Prop :=
  exists id r r', lookup_job id db = Some r /\ lookup_job id db' = Some r'
    /\ is_terminal (j_state r) = true /\ is_terminal (j_state r') = false.

Section Runs.
Context (jsonb_text : json -> string).
Context (hash : list Z -> Z) (stripe_count : nat) (blake3 : list Z -> list Z) (to_vec : json -> list Z) (ambient : option string).

(** [QueueStorage::install] is meant for set-ups without canonical jobs, and on one
    schema. *)
Definition set_up_for (schema : string) (w : Cluster) : Prop :=
  (forall id r, lookup_job id (canonical w) = Some r -> is_terminal (j_state r) = true)
  /\ (marker w = None \/ marker w = Some schema) /\ schema <> EmptyString.
Definition set_runtimes (rs : list RuntimeInstance) (w : Cluster) : Cluster := mkCluster (singleton w) (marker w) rs (canonical w) (schemas w).
Inductive cluster_step (w : Cluster) : Cluster -> Prop :=
  | CPrepare now engine details w' : storage_prepare now engine details w = Ok w' -> cluster_step w w'
  | CAbort now w' : storage_abort jsonb_text now w = Ok w' -> cluster_step w w'
  | CEnter now w' : storage_enter_mixed_transition jsonb_text now w = Ok w' -> cluster_step w w'
  | CQuiesced now w' : enter_mixed_transition_quiesced now w = Ok w' -> cluster_step w w'
  | CFinalize now w' : storage_finalize now w = Ok w' -> cluster_step w w'
  | CActivate now schema w' : set_up_for schema w -> activate_backend now schema w = Ok w' -> cluster_step w w'
  (** a worker starts, which may promote a fresh cluster, or reports *)
  | CStart version binary ring now configured role r w' :
      resolve_effective_storage version binary (empty_storage ring) now configured role w = Ok (r, w') -> cluster_step w w'
  | CReport rs : cluster_step w (set_runtimes rs w)
  | CInstall ring schema : cluster_step w (prepare_schema (empty_storage ring) schema w)
  (** a statement on the canonical tables; inserts are routed by SQL, retries by the marker *)
  | CCanonical db' :
      db_step (canonical w) db' ->
      (jobs_id_seq db' <> jobs_id_seq (canonical w) -> active_queue_storage_schema jsonb_text w = None) ->
      (revives (canonical w) db' -> marker w = None) -> cluster_step w (set_canonical db' w)
  (** an operation on a store, with claims it handed out; enqueues are routed *)
  | CQueue schema u out out' q' :
      schemas w !! schema = Some u -> (forall e, e ∈ out -> handed (su_store u) e) ->
      step hash stripe_count blake3 to_vec ambient (out, su_store u) (out', q') ->
      (job_id_seq q' <> job_id_seq (su_store u) -> active_queue_storage_schema jsonb_text w = Some schema) ->
      cluster_step w (set_plane (canonical w) schema (mkSubstrate (su_ready u) q') w)
  | CReschedule env senv id lease k error progress o w' :
      reschedule_routed jsonb_text env senv id lease k error progress w = Ok (o, w') -> cluster_step w w'.

Definition names_schema (details : json) (s : string) : Prop := get "schema" details = Some (JString s) /\ s <> EmptyString.
(** The steps of an operator who names the schema and never aborts at the end. *)
Definition careful_step (w w' : Cluster) : Prop :=
  cluster_step w w'
  /\ (forall t', singleton w' = Some t' -> ts_state t' = TPrepared -> exists s, names_schema (ts_details t') s)
  /\ (forall t now, singleton w = Some t -> ts_state t = TActive -> storage_abort jsonb_text now w <> Ok w').

Definition fresh_cluster (now : time) : Cluster := mkCluster (Some (first_singleton now)) None [] empty_db ∅.
Definition cluster_reachable (w : Cluster) : Prop := exists now, rtc careful_step (fresh_cluster now) w.

(** * The canonical side *)

Definition no_live (db : Db) : Prop := forall id r, lookup_job id db = Some r -> is_terminal (j_state r) = true.
Lemma in_scheduled_live st : in_scheduled st = true -> is_terminal st = false.
Proof. by destruct st. Qed.
Lemma backlog_zero db : wf db -> canonical_live_backlog db <= 0 <-> no_live db.
Proof.
  intros Hwf. unfold canonical_live_backlog, no_live. set (L := List.filter _ _). split.
  - intros H0. assert (L = []) as HL by (apply nil_length_inv; lia). assert (scheduled db = ∅) as Es by (apply map_size_empty_inv; lia).
    intros id r Hl. unfold lookup_job in Hl. rewrite Es, lookup_empty in Hl. destruct (hot db !! id) as [r1|] eqn:Hh; [|done].
    injection Hl as <-. destruct (is_terminal (j_state r1)) eqn:Ht; [done|]. exfalso.
    assert (r1 ∈ L) as Hin by (apply elem_of_filter_b; split; [by rewrite Ht|by eapply rows_of_elem]). rewrite HL in Hin. by apply elem_of_nil in Hin.
  - intros Hn. assert (L = []) as ->.
    { destruct L as [|r l] eqn:HL; [done|]. exfalso. assert (r ∈ L) as Hin by (rewrite HL; left).
      apply elem_of_filter_b in Hin as [Ht Hin]. apply rows_of_keyed in Hin; [|by apply wf_hot_keyed].
      rewrite (Hn (j_id r) r) in Ht; [done|]. by apply lookup_hot. }
    assert (scheduled db = ∅) as ->; [|done]. apply map_empty. intros id. destruct (scheduled db !! id) as [r|] eqn:Hs; [|done]. exfalso.
    pose proof (wf_scheduled _ Hwf _ _ Hs) as [_ Hst]. apply in_scheduled_live in Hst. rewrite (Hn id r) in Hst; [done|].
    unfold lookup_job. destruct (wf_disjoint _ Hwf id) as [-> |E]; [done|congruence].
Qed.

(** The backlog counts the live rows of [awa.jobs]. *)
Definition live_job (kv : Z * JobRow) : Prop := is_terminal (j_state kv.2) = false.
#[global] Instance live_job_dec kv : Decision (live_job kv).
Proof. unfold live_job. apply _. Defined.
Lemma rows_count (f : JobRow -> bool) m : Z.of_nat (length (List.filter f (rows_of m))) = cnt (fun kv => f kv.2 = true) m.
Proof.
  unfold rows_of. induction m as [|id r m Hn IH] using map_ind; [by rewrite map_to_list_empty|].
  rewrite cnt_insert_new by done. rewrite <- IH. unfold holds. simpl.
  rewrite (Permutation_length (filter_perm f _ _ (fmap_Permutation snd _ _ (map_to_list_insert m id r Hn)))). simpl.
  destruct (f r) eqn:E; simpl; change (list_fmap _ _ snd (map_to_list m)) with (map snd (map_to_list m)); lia.
Qed.
Lemma lookup_jobs db id : (hot db ∪ scheduled db) !! id = lookup_job id db.
Proof. unfold lookup_job. rewrite lookup_union. by destruct (hot db !! id), (scheduled db !! id). Qed.
Lemma backlog_cnt db : wf db -> canonical_live_backlog db = cnt live_job (hot db ∪ scheduled db).
Proof.
  intros Hwf. unfold canonical_live_backlog. rewrite rows_count. unfold cnt. rewrite map_filter_union, map_size_disj_union.
  - rewrite Nat2Z.inj_add. f_equal.
    + do 2 f_equal. apply map_filter_ext. intros id r _. unfold live_job. simpl. by rewrite negb_true_iff.
    + do 2 f_equal. symmetry. apply map_filter_id. intros id r Hs. apply in_scheduled_live. apply (wf_scheduled _ Hwf _ _ Hs).
  - apply map_disjoint_filter. apply map_disjoint_alt, (wf_disjoint _ Hwf).
  - apply map_disjoint_alt, (wf_disjoint _ Hwf).
Qed.
Lemma backlog_delete db db' id r :
  wf db -> wf db' -> hot db !! id = Some r -> is_terminal (j_state r) = false -> hot db' = delete id (hot db) -> scheduled db' = scheduled db ->
  canonical_live_backlog db' = canonical_live_backlog db - 1.
Proof.
  intros Hwf Hwf' Hr Ht Eh Es. rewrite !backlog_cnt by done.
  assert (hot db' ∪ scheduled db' = delete id (hot db ∪ scheduled db)) as ->.
  { rewrite Eh, Es, delete_union. f_equal. symmetry. apply delete_id. destruct (wf_disjoint _ Hwf id) as [?|?]; [congruence|done]. }
  rewrite (cnt_lookup live_job id r (hot db ∪ scheduled db)) by (by rewrite lookup_jobs; unfold lookup_job; rewrite Hr).
  unfold holds. rewrite decide_True by done. lia.
Qed.
Lemma backlog_replace db db' id r r' :
  wf db -> lookup_job id db = Some r -> replaces db db' id (Some r') -> is_terminal (j_state r) = is_terminal (j_state r') ->
  canonical_live_backlog db' = canonical_live_backlog db.
Proof.
  intros Hwf Hr Hrep Ht. rewrite !backlog_cnt by (done || apply Hrep).
  assert (hot db' ∪ scheduled db' = <[id := r']> (hot db ∪ scheduled db)) as ->.
  { apply map_eq. intros j. rewrite lookup_jobs, (rep_rows _ _ _ _ Hrep). unfold upd. destruct (decide (j = id)) as [->|Hne].
    - by rewrite lookup_insert_eq.
    - by rewrite lookup_insert_ne, lookup_jobs. }
  rewrite (cnt_insert live_job id r r') by (by rewrite lookup_jobs). unfold holds.
  destruct (decide (live_job (id, r))) as [L|L], (decide (live_job (id, r'))) as [L'|L']; unfold live_job in L, L'; simpl in L, L'; try lia; exfalso; congruence.
Qed.
Lemma db_step_no_live db db' :
  db_step db db' -> wf db -> jobs_id_seq db' = jobs_id_seq db -> ~ revives db db' -> no_live db -> no_live db'.
Proof.
  intros Hst Hwf Hseq Hrev Hn id r Hl. destruct (is_terminal (j_state r)) eqn:Ht; [done|]. exfalso.
  destruct Hst as [db db' i r0 r' Hr Hi Hs Hrep|db db' r' Hid _ _ _ _ Hrep|db db' i r0 Hr _ Hrep|db p].
  - rewrite (rep_rows _ _ _ _ Hrep) in Hl. unfold upd in Hl. destruct (decide (id = i)) as [->|]; [|rewrite (Hn _ _ Hl) in Ht; done].
    injection Hl as <-. apply Hrev. exists i, r0, r'. split_and!; try done; [|by eapply Hn].
    rewrite (rep_rows _ _ _ _ Hrep). unfold upd. by rewrite decide_True.
  - pose proof (rep_seq _ _ _ _ Hrep) as E. simpl in E. lia.
  - rewrite (rep_rows _ _ _ _ Hrep) in Hl. unfold upd in Hl. destruct (decide (id = i)); [done|]. rewrite (Hn _ _ Hl) in Ht. done.
  - change (lookup_job id (set_paused p db)) with (lookup_job id db) in Hl. rewrite (Hn _ _ Hl) in Ht. done.
Qed.
Lemma reschedule_stays_keyed env id lease k error progress db :
  wf db -> forall r, hot db !! id = Some r -> running_lease lease r = true ->
  j_id (reschedule_row env k error progress r) = id /\ in_scheduled (j_state (reschedule_row env k error progress r)) = true.
Proof.
  intros Hwf r Hr _. destruct (reschedule_row_ident env k error progress r) as (Hi & _).
  split; [rewrite Hi; by apply (wf_hot _ Hwf)|by destruct k, error].
Qed.
Lemma reschedule_wf env id lease k error progress db o db' :
  reschedule_canonical env id lease k error progress db = Ok (o, db') -> wf db -> wf db' /\ (no_live db -> db' = db).
Proof.
  unfold reschedule_canonical. intros ([row db1] & Hm & [= _ <-])%rbind_Ok Hwf.
  pose proof (move_to_scheduled_spec id (running_lease lease) (reschedule_row env k error progress) db Hwf (reschedule_stays_keyed _ _ _ _ _ _ _ Hwf)) as Hs.
  rewrite Hm in Hs. destruct row as [r'|]; [|by destruct Hs as [-> _]].
  destruct Hs as (r & Hr & Hg & _ & Hrep & _). split; [apply Hrep|]. intros Hn. exfalso. apply andb_true_iff in Hg as [Hg%bool_decide_eq_true _].
  assert (lookup_job id db = Some r) as Hl by (unfold lookup_job; by rewrite Hr). apply Hn in Hl. by rewrite Hg in Hl.
Qed.
Lemma reschedule_backlog env id lease k error progress db o db' :
  reschedule_canonical env id lease k error progress db = Ok (o, db') -> wf db ->
  canonical_live_backlog db' = canonical_live_backlog db /\ (o = Stale \/ exists j t a, o = Rescheduled j t a).
Proof.
  unfold reschedule_canonical. intros ([row db1] & Hm & [= <- <-])%rbind_Ok Hwf.
  pose proof (move_to_scheduled_spec id (running_lease lease) (reschedule_row env k error progress) db Hwf (reschedule_stays_keyed _ _ _ _ _ _ _ Hwf)) as Hs.
  rewrite Hm in Hs. destruct row as [r'|]; [|destruct Hs as [-> _]; auto].
  destruct Hs as (r & Hr & Hg & _ & Hrep & _). split; [|eauto 6]. apply andb_true_iff in Hg as [Hg%bool_decide_eq_true _].
  apply (backlog_replace db db1 id r (reschedule_row env k error progress r)); [done| |done|].
  - unfold lookup_job. by rewrite Hr.
  - rewrite Hg. by destruct k, error.
Qed.

(** * The store side *)

Lemma rows_zero_places D q : sinv D [] q -> queue_storage_rows q <= 0 -> places q = [].
Proof.
  intros Hs H0. unfold queue_storage_rows in H0.
  assert (ready_entries (tables (lanes q)) = []) as Er by (apply nil_length_inv; lia).
  assert (completions q = []) as Ec by (apply nil_length_inv; lia).
  assert (deferred_jobs q = ∅ /\ done_entries q = ∅ /\ dlq_entries q = ∅) as (Ed & En & Eq)
    by (split_and!; apply map_size_empty_inv; lia).
  assert (running q = []) as Eu.
  { destruct (running q) as [|x l] eqn:E; [done|]. exfalso.
    destruct (lg_backed _ _ (si_ledger _ _ _ Hs) x) as (r & Hr & _); [rewrite E; left|].
    unfold ready_rows in Hr. rewrite Er in Hr. by apply elem_of_nil in Hr. }
  unfold places, ready_places, running_places, deferred_places, done_places, completed_places, dlq_places, live.
  by rewrite Er, Eu, Ed, En, Ec, Eq, !map_to_list_empty.
Qed.
Lemma step_empty D out q out' q' :
  config_ok D (out, q) -> step hash stripe_count blake3 to_vec ambient (out, q) (out', q') ->
  job_id_seq q' = job_id_seq q -> places q = [] -> places q' = [].
Proof.
  intros Hok H Hseq Hp. pose proof Hok as [Hs _]. simpl in Hs.
  inversion H as [o e js q0 n q0' He|o pid e p q0 row q0' He|o e l qu q0 r q0' Hc|o q0 xs q0' Hf|o q0 q0' Hm|o q0 q0' Hd]; subst.
  - destruct (enqueue_adds _ _ _ _ _ D [] _ _ _ _ _ He Hs) as (ids & [_ Hp' Hid _] & _). simpl in Hp'. rewrite Hp, app_nil_r in Hp'.
    destruct ids as [|i ids]; [by apply Permutation_nil_r in Hp'|]. specialize (Hid i ltac:(left)). lia.
  - destruct (compat_adds _ D [] _ _ _ _ _ He Hs) as (_ & _ & E). lia.
  - destruct (claim_runtime_ok D [] _ _ _ _ _ _ Hc Hs) as [_ Hj _ _]. simpl in Hj. rewrite Hp in Hj. simpl in Hj.
    apply Permutation_nil_r in Hj. by destruct (places q').
  - destruct (finish_ok D _ _ _ _ Hf Hok) as (D' & [_ Hp' _ _ _] & _). simpl in Hp'. rewrite Hp in Hp'. by apply Permutation_nil_r in Hp'.
  - destruct (move_ok D _ _ Hm Hs) as (D' & [_ Hp' _ _ _]). simpl in Hp'. rewrite Hp in Hp'. by apply Permutation_nil_r in Hp'.
  - destruct (drop_ok D _ _ Hd Hs) as [_ Hp' _ _ _ _ _]. rewrite Hp in Hp'. by apply submseteq_nil_r in Hp'.
Qed.

(** * The invariant *)

(** What the singleton says and what the rest of the cluster is agree. *)
Inductive phase_ok (w : Cluster) (t : Singleton) : Prop :=
  | PhaseCanonical : ts_state t = TCanonical -> current_engine t = "canonical" -> prepared_engine t = None -> marker w = None -> phase_ok w t
  | PhasePrepared : ts_state t = TPrepared -> current_engine t = "canonical" -> marker w = None -> phase_ok w t
  | PhaseMixed s :
      ts_state t = TMixed -> current_engine t = "canonical" -> prepared_engine t = Some "queue_storage" ->
      names_schema (ts_details t) s -> marker w = Some s -> phase_ok w t
  | PhaseActive s :
      ts_state t = TActive -> current_engine t = "queue_storage" -> prepared_engine t = None ->
      names_schema (ts_details t) s -> marker w = Some s -> no_live (canonical w) -> phase_ok w t.

(** A store the marker does not name has no job in it. *)
Record cluster_ok (w : Cluster) : Prop := {
  ck_phase : exists t, singleton w = Some t /\ phase_ok w t
               /\ (ts_state t = TPrepared -> exists s, names_schema (ts_details t) s);
  ck_wf : wf (canonical w);
  ck_stores : forall s u, schemas w !! s = Some u -> exists D, sinv D [] (su_store u);
  ck_empty : forall s u, schemas w !! s = Some u -> marker w <> Some s -> places (su_store u) = []
}.

Lemma details_named d s : names_schema d s -> details_schema jsonb_text d = Some s.
Proof. intros [E N]. unfold details_schema, arrow_text. rewrite E. simpl. by destruct s. Qed.
Lemma member_named d s : names_schema d s -> member_str d "schema" = Some s.
Proof. intros [E N]. unfold member_str. by rewrite E. Qed.
Lemma routed_marker w : cluster_ok w -> active_queue_storage_schema jsonb_text w = marker w.
Proof.
  intros [(t & Et & Hph & _) _ _ _]. unfold active_queue_storage_schema, active_storage_engine. rewrite Et.
  destruct Hph as [-> -> -> -> | -> -> -> | s -> -> -> Hn -> | s -> -> -> Hn -> _]; try done; simpl; by rewrite (details_named _ _ Hn).
Qed.

(** * Each command keeps it *)

Lemma prepare_ok now engine details w w' :
  storage_prepare now engine details w = Ok w' -> cluster_ok w ->
  (forall t', singleton w' = Some t' -> ts_state t' = TPrepared -> exists s, names_schema (ts_details t') s) -> cluster_ok w'.
Proof.
  intros H [(t & Et & Hph & Hn) Hwf Hst He] Hnamed. unfold storage_prepare in H. rewrite Et in H. cbv zeta in H.
  destruct (btrim engine) as [|c s]; [done|]. destruct (String.eqb _ _); [done|].
  destruct Hph as [Es Ec Ep Em|Es Ec Em|s0 Es|s0 Es]; rewrite Es in H; try done; injection H as <-;
    (split; [|exact Hwf|exact Hst|exact He]); eexists; (split; [reflexivity|]);
    (split; [by apply PhasePrepared|intros Hs; by eapply Hnamed]).
Qed.
Lemma abort_ok now w w' :
  storage_abort jsonb_text now w = Ok w' -> cluster_ok w -> (forall t, singleton w = Some t -> ts_state t <> TActive) -> cluster_ok w'.
Proof.
  intros H [(t & Et & Hph & Hn) Hwf Hst He] Hna. specialize (Hna t Et). unfold storage_abort in H. rewrite Et in H. cbv zeta in H.
  destruct (bool_decide (ts_state t = TMixed) && (0 <? live_count now (has_capability CapQueueStorage) w)%nat) eqn:Hl; [done|].
  destruct (bool_decide (ts_state t = TMixed) && (0 <? _)) eqn:Hr in H; [done|]. injection H as <-.
  assert (current_engine t = "canonical") as Ecur by (destruct Hph; done).
  assert (forall s u, schemas w !! s = Some u -> places (su_store u) = []) as Hall.
  { intros s u Hs. destruct Hph as [Es Ec Ep Em|Es Ec Em|s0 Es Ec Ep Hnm Em|]; [apply (He s); [done|congruence]..| |done].
    destruct (decide (s = s0)) as [->|Hne]; [|apply (He s); [done|congruence]].
    rewrite (details_named _ _ Hnm) in Hr. simpl in Hr. rewrite Hs in Hr. rewrite Es in Hr.
    apply Z.ltb_ge in Hr. destruct (Hst s0 u Hs) as (D & HD). by eapply rows_zero_places. }
  split.
  - destruct (ts_state t) eqn:Es; try done; (eexists; split; [reflexivity|]; split; [by apply PhaseCanonical|done]).
  - by destruct (ts_state t).
  - destruct (ts_state t); exact Hst.
  - intros s u Hs _. apply (Hall s u). by destruct (ts_state t).
Qed.
Lemma flip_ok now s t w :
  cluster_ok w -> singleton w = Some t -> ts_state t = TPrepared -> prepared_engine t = Some "queue_storage" ->
  names_schema (ts_details t) s -> cluster_ok (flip_routing now s t w).
Proof.
  intros [(t0 & Et & Hph & Hn) Hwf Hst He] Et' Es Ep Hnm. rewrite Et in Et'. injection Et' as ->.
  assert (current_engine t = "canonical" /\ marker w = None) as [Ec Em] by (destruct Hph; try congruence; done).
  split; [|exact Hwf|exact Hst|].
  - eexists. split; [reflexivity|]. split; [by eapply PhaseMixed|done].
  - intros s0 u Hs _. apply (He s0 u Hs). congruence.
Qed.
Lemma enter_effect now w w' :
  storage_enter_mixed_transition jsonb_text now w = Ok w' ->
  exists s t, singleton w = Some t /\ ts_state t = TPrepared /\ w' = flip_routing now s t w.
Proof.
  unfold storage_enter_mixed_transition. destruct (singleton w) as [t|]; [|done]. case_bool_decide as Es; [|done].
  case_bool_decide as Ep; [|done]. simpl. destruct (schemas w !! _); [|done]. destruct (_ <? _)%nat; [done|]. destruct (_ =? _)%nat; [done|].
  intros [= <-]. eauto.
Qed.
Lemma quiesced_effect now w w' :
  enter_mixed_transition_quiesced now w = Ok w' -> exists s t, singleton w = Some t /\ ts_state t = TPrepared /\ w' = flip_routing now s t w.
Proof.
  unfold enter_mixed_transition_quiesced. destruct (singleton w) as [t|]; [|done]. case_bool_decide as Es; [|done].
  case_bool_decide as Ep; [|done]. simpl. destruct (negb _); [done|]. destruct (negb _); [done|]. intros [= <-]. eauto.
Qed.
Lemma enter_ok now w w' : storage_enter_mixed_transition jsonb_text now w = Ok w' -> cluster_ok w -> cluster_ok w'.
Proof.
  intros H Hok. pose proof Hok as [(t & Et & Hph & Hn) _ _ _]. unfold storage_enter_mixed_transition in H. rewrite Et in H.
  case_bool_decide as Es; [|done]. case_bool_decide as Ep; [|done]. simpl in H. destruct (Hn Es) as (s & Hnm).
  rewrite (details_named _ _ Hnm) in H. simpl in H. destruct (schemas w !! s); [|done].
  destruct (_ <? _)%nat; [done|]. destruct (_ =? _)%nat; [done|]. injection H as <-. by apply flip_ok.
Qed.
Lemma quiesced_ok now w w' : enter_mixed_transition_quiesced now w = Ok w' -> cluster_ok w -> cluster_ok w'.
Proof.
  intros H Hok. pose proof Hok as [(t & Et & Hph & Hn) _ _ _]. unfold enter_mixed_transition_quiesced in H. rewrite Et in H.
  case_bool_decide as Es; [|done]. case_bool_decide as Ep; [|done]. simpl in H. destruct (Hn Es) as (s & Hnm).
  rewrite (member_named _ _ Hnm) in H. assert (nullif_empty (Some s) = Some s) as E by (destruct Hnm as [_ ?]; by destruct s).
  rewrite E in H. simpl in H. destruct (negb _); [done|]. destruct (negb _); [done|]. injection H as <-. by apply flip_ok.
Qed.
Lemma finalize_keeps_ok now w w' : storage_finalize now w = Ok w' -> cluster_ok w -> cluster_ok w'.
Proof.
  intros H [(t & Et & Hph & Hn) Hwf Hst He]. unfold storage_finalize in H. rewrite Et in H.
  case_bool_decide as Es; [|done]. case_bool_decide as Ep; [|done]. simpl in H.
  destruct (0 <? canonical_live_backlog (canonical w)) eqn:Hb; [done|]. destruct (_ <? _)%nat; [done|]. injection H as <-.
  apply Z.ltb_ge, backlog_zero in Hb; [|done]. destruct Hph as [|?|s ? Ec _ Hnm Em|]; try congruence.
  split; [|exact Hwf|exact Hst|exact He]. eexists. split; [reflexivity|]. split; [|done].
  eapply PhaseActive; simpl; try done. by rewrite Ep.
Qed.

Lemma jobs_zero db : canonical_jobs db <= 0 -> no_live db.
Proof.
  intros H0 id r Hl. unfold canonical_jobs in H0. unfold lookup_job in Hl.
  assert (hot db = ∅ /\ scheduled db = ∅) as [Eh Es] by (split; apply map_size_empty_inv; lia).
  by rewrite Eh, Es, !lookup_empty in Hl.
Qed.
Lemma auto_finalize_ok now schema w b w' : storage_auto_finalize_if_fresh now schema w = Ok (b, w') -> cluster_ok w -> cluster_ok w'.
Proof.
  intros H Hok. pose proof Hok as [(t & Et & Hph & Hn) Hwf Hst He]. unfold storage_auto_finalize_if_fresh in H. rewrite Et in H.
  case_bool_decide as Es; [|by injection H as _ <-]. cbn [negb] in H. destruct (prepared_engine t); [by injection H as _ <-|].
  destruct (0 <? canonical_jobs (canonical w)) eqn:Hj; [by injection H as _ <-|]. destruct (existsb _ _); [by injection H as _ <-|].
  cbv zeta in H. set (s := match btrim schema with EmptyString => "awa" | String a s => String a s end).
  injection H as _ <-. apply Z.ltb_ge, jobs_zero in Hj. destruct Hph as [_ _ _ Em| | |]; try congruence.
  assert (s <> EmptyString) as Hs by (unfold s; by destruct (btrim schema)).
  split; [|exact Hwf|exact Hst|intros s0 u Hs0 _; apply (He s0 u Hs0); congruence].
  eexists. split; [reflexivity|]. split; [|done]. by apply (PhaseActive _ _ s).
Qed.
Lemma activate_ok now s w w' : activate_backend now s w = Ok w' -> set_up_for s w -> cluster_ok w -> cluster_ok w'.
Proof.
  intros H (Hl & Hm & Hs) [(t & Et & _) Hwf Hst He]. unfold activate_backend in H. cbn [singleton set_marker] in H. rewrite Et in H.
  injection H as <-. split; [|exact Hwf|exact Hst|].
  - eexists. split; [reflexivity|]. split; [|done]. by apply (PhaseActive _ _ s).
  - cbn [schemas marker set_singleton set_marker]. intros s0 u Hs0 Hne. apply (He s0 u Hs0). intros E. destruct Hm; congruence.
Qed.
Lemma install_ok ring s w : cluster_ok w -> cluster_ok (prepare_schema (empty_storage ring) s w).
Proof.
  intros [(t & Et & Hph & Hn) Hwf Hst He]. unfold prepare_schema. cbv zeta. split; [|exact Hwf| |].
  - exists t. split; [exact Et|]. split; [|exact Hn]. destruct Hph; [by apply PhaseCanonical|by apply PhasePrepared|by eapply PhaseMixed|by eapply PhaseActive].
  - cbn [schemas]. intros s' u [[<- <-]|[Hne Hs]]%lookup_insert_Some; [|by eapply Hst].
    simpl. destruct (schemas w !! s) as [u|] eqn:E; [by eapply Hst|]. exists []. apply (empty_ok ring).
  - cbn [schemas marker]. intros s' u [[<- <-]|[Hne Hs]]%lookup_insert_Some Hm; [|by eapply He].
    simpl. destruct (schemas w !! s) as [u|] eqn:E; [by eapply He|reflexivity].
Qed.
Lemma start_effect version binary ring now configured role r w w' :
  resolve_effective_storage version binary (empty_storage ring) now configured role w = Ok (r, w') ->
  exists w1, (w1 = w \/ exists c, w1 = prepare_schema (empty_storage ring) c w)
    /\ (w' = w1 \/ exists c b, storage_auto_finalize_if_fresh now c w1 = Ok (b, w')).
Proof.
  assert (forall v, v = w' -> v = w -> exists w1, (w1 = w \/ exists c, w1 = prepare_schema (empty_storage ring) c w)
    /\ (w' = w1 \/ exists c b, storage_auto_finalize_if_fresh now c w1 = Ok (b, w'))) as Hsame by (intros v <- ->; eauto).
  unfold resolve_effective_storage. destruct configured as [c|]; [|by intros [= _ ?]; eapply Hsame].
  intros (st & _ & (expected & _ & H)%rbind_Ok)%rbind_Ok.
  destruct (match expected with Some _ => _ | None => _ end) in H; [done|]. cbv zeta in H.
  destruct role; [|by injection H as _ ?; eapply Hsame|destruct expected; [|done]; destruct (queue_storage_schema_ready _ _); [|done]; by injection H as _ ?; eapply Hsame].
  destruct expected; [destruct (negb _); [done|]; by injection H as _ ?; eapply Hsame|].
  destruct (_ && _); [|by injection H as _ ?; eapply Hsame].
  apply rbind_Ok in H as ([b w1] & Ha & H). eexists. split; [|right; do 2 eexists; rewrite Ha; do 2 f_equal].
  - destruct (queue_storage_schema_ready c w); eauto.
  - destruct b; [by injection H as _ <-|]. apply rbind_Ok in H as (st' & _ & [= _ <-]). done.
Qed.
Lemma start_keeps_ok version binary ring now configured role r w w' :
  resolve_effective_storage version binary (empty_storage ring) now configured role w = Ok (r, w') -> cluster_ok w -> cluster_ok w'.
Proof.
  intros (w1 & Hw1 & Hw')%start_effect Hok. assert (cluster_ok w1) as Hok1 by (destruct Hw1 as [->|(c & ->)]; [done|by apply install_ok]).
  destruct Hw' as [->|(c & b & Ha)]; [done|by eapply auto_finalize_ok].
Qed.
Lemma phase_view w w' t : phase_ok w t -> marker w' = marker w -> (no_live (canonical w) -> ts_state t = TActive -> no_live (canonical w')) -> phase_ok w' t.
Proof.
  intros Hph Em Hl. destruct Hph; rewrite <- Em in *;
    [by apply PhaseCanonical|by apply PhasePrepared|by eapply PhaseMixed|eapply PhaseActive; eauto].
Qed.
Lemma active_marked w t : phase_ok w t -> ts_state t = TActive -> marker w <> None.
Proof. intros [] ?; congruence. Qed.
Lemma canonical_step_ok db' w :
  db_step (canonical w) db' -> (jobs_id_seq db' <> jobs_id_seq (canonical w) -> active_queue_storage_schema jsonb_text w = None) ->
  (revives (canonical w) db' -> marker w = None) -> cluster_ok w -> cluster_ok (set_canonical db' w).
Proof.
  intros Hst Hins Hrev Hok. rewrite (routed_marker w Hok) in Hins. pose proof Hok as [(t & Et & Hph & Hn) Hwf Hss He].
  split; [|by eapply System.db_step_wf|exact Hss|exact He]. exists t. split; [exact Et|]. split; [|exact Hn].
  apply (phase_view w); [done|done|]. intros Hl Ha. apply (active_marked _ _ Hph) in Ha. eapply db_step_no_live; [exact Hst|done| | |done].
  - destruct (decide (jobs_id_seq db' = jobs_id_seq (canonical w))); [done|tauto].
  - tauto.
Qed.

Lemma plane_ok s q' u w db' :
  cluster_ok w -> schemas w !! s = Some u -> wf db' -> (no_live (canonical w) -> db' = canonical w) ->
  (exists D, sinv D [] q') -> (marker w <> Some s -> places q' = []) ->
  cluster_ok (set_plane db' s (mkSubstrate (su_ready u) q') w).
Proof.
  intros [(t & Et & Hph & Hn) Hwf Hst He] Hs Hwf' Hdb Hq Hm. split; [|exact Hwf'| |].
  - exists t. split; [exact Et|]. split; [|exact Hn]. apply (phase_view w); [done|done|]. intros Hl _. simpl. by rewrite (Hdb Hl).
  - cbn [schemas set_plane]. intros s' u' [[<- <-]|[_ H]]%lookup_insert_Some; [done|by eapply Hst].
  - cbn [schemas marker set_plane]. intros s' u' [[<- <-]|[_ H]]%lookup_insert_Some; [done|by apply He].
Qed.
Lemma queue_op_ok s u out out' q' w :
  schemas w !! s = Some u -> (forall e, e ∈ out -> handed (su_store u) e) ->
  step hash stripe_count blake3 to_vec ambient (out, su_store u) (out', q') ->
  (job_id_seq q' <> job_id_seq (su_store u) -> active_queue_storage_schema jsonb_text w = Some s) ->
  cluster_ok w -> cluster_ok (set_plane (canonical w) s (mkSubstrate (su_ready u) q') w).
Proof.
  intros Hs Hh Hstep Hroute Hok. rewrite (routed_marker w Hok) in Hroute. destruct (ck_stores w Hok s u Hs) as (D & HD).
  assert (config_ok D (out, su_store u)) as Hc by done.
  apply plane_ok; try done; [apply (ck_wf w Hok)| |].
  - destruct (step_ok _ _ _ _ _ D _ _ Hstep Hc) as (D' & [? _] & _). by exists D'.
  - intros Hm. eapply step_empty; [exact Hc|exact Hstep| |by apply (ck_empty w Hok s)].
    destruct (decide (job_id_seq q' = job_id_seq (su_store u))); [done|tauto].
Qed.
Lemma reschedule_ok env senv id lease k error progress o w w' :
  reschedule_routed jsonb_text env senv id lease k error progress w = Ok (o, w') -> cluster_ok w -> cluster_ok w'.
Proof.
  intros H Hok. unfold reschedule_routed in H. rewrite (routed_marker w Hok) in H. destruct (marker w) as [s|] eqn:Em.
  - destruct (schemas w !! s) as [u|] eqn:Hs; [|done]. apply rbind_Ok in H as ([o1 [db' q']] & Hm & [= _ <-]).
    destruct (ck_stores w Hok s u Hs) as (D & HD).
    destruct (migrate_moves D _ _ _ _ _ _ _ _ _ _ _ _ (ck_wf w Hok) HD Hm) as (Hq & _ & Hc).
    assert (wf db' /\ (no_live (canonical w) -> db' = canonical w)) as [Hwf' Hdb].
    { destruct Hc as [[(job & Hj & Hr & _) _ _ _ _ Hw _ _]|[_ Hc]].
      - split; [done|]. intros Hl. exfalso. assert (lookup_job id (canonical w) = Some job) as E by (unfold lookup_job; by rewrite Hj).
        apply Hl in E. by rewrite Hr in E.
      - eapply reschedule_wf; [exact Hc|apply (ck_wf w Hok)]. }
    apply plane_ok; try done; by exists D.
  - apply rbind_Ok in H as ([o1 db'] & Hr & [= _ <-]). apply reschedule_wf in Hr as [Hwf' Hdb]; [|apply (ck_wf w Hok)].
    destruct Hok as [(t & Et & Hph & Hn) Hwf Hst He]. split; [|exact Hwf'|exact Hst|exact He].
    exists t. split; [exact Et|]. split; [|exact Hn]. apply (phase_view w); [done|done|]. intros Hl _. simpl. by rewrite (Hdb Hl).
Qed.
Lemma cluster_step_ok w w' : careful_step w w' -> cluster_ok w -> cluster_ok w'.
Proof.
  intros (H & Hnamed & Hab) Hok. destruct H; eauto using enter_ok, quiesced_ok, finalize_keeps_ok, activate_ok, start_keeps_ok, install_ok, canonical_step_ok, queue_op_ok, reschedule_ok.
  - by eapply prepare_ok.
  - eapply abort_ok; [exact H|done|]. intros t Et Es. by apply (Hab t now Et Es).
  - destruct Hok as [(t & Et & Hph & Hn) Hwf Hst He]. split; [|exact Hwf|exact Hst|exact He].
    exists t. split; [exact Et|]. split; [|exact Hn]. by apply (phase_view w).
Qed.
Lemma fresh_ok now : cluster_ok (fresh_cluster now).
Proof.
  split; [|apply (proj1 empty_inv)|done..]. eexists. split; [reflexivity|]. split; [by apply PhaseCanonical|done].
Qed.
Lemma cluster_reachable_ok w : cluster_reachable w -> cluster_ok w.
Proof. intros (now & H). assert (cluster_ok (fresh_cluster now)) as H0 by apply fresh_ok. induction H as [|w w1 w2 H1 _ IH]; [done|]. apply IH. by eapply cluster_step_ok. Qed.
End Runs.
