(* ===== verification/TransitionGuarantees.v ===== *)
(** What the storage transition promises over every run of a cluster whose
    operator names the schema at preparation and does not abort a finished
    transition; and what happens otherwise. *)

From stdpp Require Import relations.
From S2P Require Import Prelude.
From S2P Require Import Error.
From S2P Require Import Json.
From S2P Require Import Job.
From S2P Require Import Rows.
From S2P Require Import Lanes.
From S2P Require Import LanesFacts.
From S2P Require Import AtomicLanes.
From S2P Require Import QueueStore.
From S2P Require Import QueueOps.
From S2P Require Import StoreFacts.
From S2P Require Import AttemptFacts.
From S2P Require Import StoreGuarantees.
From S2P Require Import Canonical.
From S2P Require Import CanonicalFacts.
From S2P Require Import Lifecycle.
From S2P Require Import System.
From S2P Require Import Guarantees.
From S2P Require Import Transition.
From S2P Require Import Crossing.
From S2P Require Import TransitionRuns.

Section Promises.
Context (jsonb_text : json -> string).
Context (hash : list Z -> Z) (stripe_count : nat) (blake3 : list Z -> list Z) (to_vec : json -> list Z) (ambient : option string).
Abbreviation cluster_reachable := (cluster_reachable jsonb_text hash stripe_count blake3 to_vec ambient).
Abbreviation careful_step := (careful_step jsonb_text hash stripe_count blake3 to_vec ambient).
Abbreviation reachable_is_ok := (cluster_reachable_ok jsonb_text hash stripe_count blake3 to_vec ambient).
Abbreviation routed := (active_queue_storage_schema jsonb_text).

(** * Routing *)

(** C25. The three places that decide where a job goes agree.  At every point of
    a run the schema SQL routes inserts and re-scheduled attempts to (from the
    singleton row) is the one the Rust calls read (from the marker row), and the
    engine the status reports is queue storage just when there is one. *)
Theorem routing_agrees validate_ident w status :
  cluster_reachable w -> storage_status w = Ok status ->
  active_queue_storage_schema jsonb_text w = marker w
  /\ (forall s, active_schema validate_ident w = Ok s -> s = active_queue_storage_schema jsonb_text w)
  /\ routes_to_queue_storage status = bool_decide (is_Some (marker w)).
Proof.
  intros Hok%reachable_is_ok Hst. pose proof (routed_marker jsonb_text w Hok) as Hr. split_and!; [done| |].
  - intros s. rewrite Hr. unfold active_schema. destruct (marker w) as [m|]; [destruct (validate_ident m)|]; congruence.
  - destruct Hok as [(t & Et & Hph & _) _ _ _]. unfold storage_status, routes_to_queue_storage, active_storage_engine in *. rewrite Et in *.
    injection Hst as <-. simpl. by destruct Hph as [-> -> -> -> | -> -> -> |s -> -> -> Hn -> |s -> -> -> Hn -> _].
Qed.

(** C24. No job is left where nobody looks.  In every cluster a careful operator
    and workers, producers and admins of both engines bring about, a schema that
    routing does not point to holds no job at all, and once the transition is
    finished every job left in the canonical tables is final.  Careful means: a
    preparation names its schema, a finished transition is not aborted, and queue
    storage is activated outright only without live canonical jobs and on one
    schema.  Each producer's look at the routing and its write are one step, and
    operations on a store are those of [step]. *)
Theorem no_job_left_behind w :
  cluster_reachable w ->
  (forall s u, schemas w !! s = Some u -> active_queue_storage_schema jsonb_text w <> Some s -> places (su_store u) = [])
  /\ (forall t id r, singleton w = Some t -> ts_state t = TActive -> lookup_job id (canonical w) = Some r -> is_terminal (j_state r) = true).
Proof.
  intros Hok%reachable_is_ok. rewrite (routed_marker jsonb_text w Hok). split; [apply Hok|].
  intros t id r Et Es. destruct Hok as [(t0 & Et0 & Hph & _) _ _ _]. rewrite Et in Et0. injection Et0 as <-.
  destruct Hph as [?|?|s ?|s _ _ _ _ _ Hl]; try congruence. apply Hl.
Qed.
(** A producer that is late leaves its job behind.  [awa.insert_job_compat]
    looks at the routing without a lock, and nothing a finalization waits for
    shows an insert that is not committed: when the producer was sent to the
    canonical tables and writes after a careful operator finished the
    transition, its insert, if it is one the tables accept, succeeds there, and
    leaves in a cluster that is active on queue storage a canonical job that is
    not final. *)
Theorem late_insert_left_behind env p w w' t r db' :
  cluster_reachable w -> active_queue_storage_schema jsonb_text w = None ->
  rtc careful_step w w' -> singleton w' = Some t -> ts_state t = TActive ->
  pi_state p = Available \/ pi_state p = Scheduled -> insert_job_compat env p (canonical w') = Ok (r, db') ->
  is_Some (active_queue_storage_schema jsonb_text (set_canonical db' w'))
  /\ lookup_job (j_id r) (canonical (set_canonical db' w')) = Some r /\ is_terminal (j_state r) = false.
Proof.
  intros (now & Hw) _ Hrun Et Ha Hp Hi. assert (cluster_reachable w') as Hok%reachable_is_ok by (exists now; by etrans).
  destruct (insert_valid p) eqn:Hv; [|by unfold insert_job_compat in Hi; rewrite Hv in Hi].
  pose proof (insert_job_compat_spec env p (canonical w') (ck_wf w' Hok) Hv) as H. rewrite Hi in H. destruct H as (-> & Hrep & _).
  split; [|split].
  - change (active_queue_storage_schema jsonb_text (set_canonical db' w')) with (active_queue_storage_schema jsonb_text w').
    rewrite (routed_marker jsonb_text w' Hok). destruct Hok as [(t0 & Et0 & Hph & _) _ _ _]. rewrite Et in Et0. injection Et0 as <-.
    destruct Hph; try congruence. by eexists.
  - simpl. rewrite (rep_rows _ _ _ _ Hrep). unfold upd. by rewrite decide_True.
  - simpl. by destruct Hp as [-> | ->].
Qed.

(** * Attempts that cross *)

Definition moved_to (o : RescheduleOutcome) : option Z :=
  match o with Migrated j _ _ | CancelledDuplicate j => Some j | _ => None end.

(** C26. A canonical attempt that re-schedules while routing points to queue
    storage crosses whole.  Its row leaves the canonical tables, the store gets
    one job under an id no other job of it has, with the run lease the attempt
    had, and the canonical backlog goes down by one; a job that goes on keeps
    its kind, queue, arguments, priority, limits and unique key, and is due when
    the outcome says.  An outcome that reports no move changes no store and not
    the backlog. *)
Theorem attempt_crosses_whole env senv id lease k error progress w s o w' :
  cluster_reachable w -> active_queue_storage_schema jsonb_text w = Some s ->
  reschedule_routed jsonb_text env senv id lease k error progress w = Ok (o, w') ->
  exists u u', schemas w !! s = Some u /\ schemas w' = <[s := u']> (schemas w)
    /\ match moved_to o with
       | Some j =>
           lookup_job id (canonical w') = None /\ (j ∉ map fst (places (su_store u)))
           /\ places (su_store u') ≡ₚ ((j, lease) :: places (su_store u))
           /\ canonical_live_backlog (canonical w') = canonical_live_backlog (canonical w) - 1
           /\ exists r, lookup_job id (canonical w) = Some r /\ j_state r = Running /\ j_run_lease r = lease
                /\ forall i t a, o = Migrated i t a -> exists d, deferred_jobs (su_store u') !! j = Some d
                     /\ same_work r (df_columns d) /\ c_run_at (df_columns d) = t /\ c_attempt (df_columns d) = a
       | None =>
           su_store u' = su_store u /\ canonical_live_backlog (canonical w') = canonical_live_backlog (canonical w)
       end.
Proof.
  intros Hok%reachable_is_ok Hr H. unfold reschedule_routed in H. rewrite Hr in H. destruct (schemas w !! s) as [u|] eqn:Hs; [|done].
  apply rbind_Ok in H as ([o1 [db' q']] & Hm & [= <- <-]). destruct (ck_stores w Hok s u Hs) as (D & HD).
  destruct (migrate_moves D _ _ _ _ _ _ _ _ _ _ _ _ (ck_wf w Hok) HD Hm) as (_ & _ & Hc).
  exists u, (mkSubstrate (su_ready u) q'). split; [done|]. split; [done|]. cbn [su_store canonical set_plane].
  destruct Hc as [[(r & Hj & Hrun & Hle) Ho Hst Eh Es Hw Hp Eseq]|[-> Hc]].
  - assert (moved_to o1 = Some (job_id_seq (su_store u))) as -> by (destruct Ho as [(t & a & ->)| ->]; done).
    assert (lookup_job id (canonical w) = Some r) as Hl by (unfold lookup_job; by rewrite Hj).
    split_and!; [| |done| |].
    + unfold lookup_job. rewrite Eh, lookup_delete_eq, Es. destruct (wf_disjoint _ (ck_wf w Hok) id) as [?|?]; [congruence|done].
    + intros (a & Ea & Ha)%list_elem_of_fmap. pose proof (ac_ids _ _ _ (si_places _ _ _ HD) a Ha). simpl in *. lia.
    + apply (backlog_delete (canonical w) db' id r); try done; [apply Hok|by rewrite Hrun].
    + exists r. split_and!; try done. intros i t a E. destruct (Hst i t a E) as (r1 & d & Hr1 & Hd & Hrest). rewrite Hj in Hr1.
      injection Hr1 as <-. exists d. destruct Ho as [(t1 & a1 & Eo)|Eo]; rewrite Eo in E; [|done]. injection E as <- <- <-. done.
  - apply reschedule_backlog in Hc as [Hb [->|(j & t & a & ->)]]; [done..|apply Hok].
Qed.

(** * Status and gate *)

(** SQL truncates a runtime's interval to seconds; these give the same window. *)
Definition same_window (r : RuntimeInstance) : Prop :=
  (snapshot_interval_ms r mod 1000 = 0 \/ snapshot_interval_ms r <= 10000) /\ snapshot_interval_ms r * 3 < 2 ^ 63.
Lemma same_window_live now r : same_window r -> seen_live now r = negb (stale now r).
Proof.
  intros [Hw Hb]. unfold seen_live, stale. rewrite Z.leb_antisym.
  assert (interval_secs (snapshot_interval_ms r) * us_per_sec = stale_cutoff (snapshot_interval_ms r) * 1000) as ->; [|done].
  unfold interval_secs, stale_cutoff, us_per_sec. set (ms := snapshot_interval_ms r) in *. clearbody ms.
  rewrite (Z.min_l (Z.max ms 1000 * 3)) by lia. destruct Hw as [Hm|Hle].
  - destruct (Z.max_spec ms 1000) as [[_ ->]|[_ ->]]; [reflexivity|]. pose proof (Z.div_mod ms 1000). lia.
  - assert (Z.max ms 1000 / 1000 <= 10) by (apply Z.div_le_upper_bound; lia). lia.
Qed.
Lemma live_filter now p w :
  (forall r, r ∈ runtimes w -> same_window r) ->
  length (List.filter p (List.filter (fun r => negb (stale now r)) (runtimes w))) = live_count now p w.
Proof.
  intros Hw. unfold live_count. induction (runtimes w) as [|r l IH]; [done|]. simpl.
  rewrite (same_window_live now r) by (apply Hw; left). specialize (IH (fun x Hx => Hw x ltac:(by right))).
  destruct (stale now r); simpl; [by rewrite andb_false_r|]. rewrite andb_true_r. destruct (p r); simpl; by rewrite IH.
Qed.
Lemma counted l m :
  default 0%nat (fold_left count_capability l m !! "canonical")
  = (default 0 (m !! "canonical") + length (List.filter (has_capability CapCanonical) l))%nat.
Proof.
  revert m. induction l as [|r l IH]; intros m; simpl; [lia|]. rewrite IH. unfold has_capability, count_capability.
  destruct (storage_capability r); simpl; [rewrite lookup_insert_eq; simpl; lia|rewrite lookup_insert_ne by done; done..].
Qed.
Lemma is_empty_app {A} (l k : list A) : is_empty (l ++ k) = is_empty l && is_empty k.
Proof. by destruct l. Qed.
Lemma is_empty_if {A} (b : bool) (x : A) : is_empty (if b then [x] else []) = negb b.
Proof. by destruct b. Qed.

(** C27. The status report tells what the commands will do.  On one clock, with
    snapshot intervals of whole seconds or at most ten, the report lists no
    blocker of finalization just when [storage_finalize] succeeds, and none of
    the transition only when [storage_enter_mixed_transition] does; and the
    migration runner's gate opens just when the transition is finished or
    [storage_auto_finalize_if_fresh] would finish it at once. *)
Theorem reports_match_commands now schema w r :
  (forall i, i ∈ runtimes w -> same_window i) -> cluster_reachable w -> status_report now w = Ok r ->
  (can_finalize r = true <-> exists w', storage_finalize now w = Ok w')
  /\ (can_enter_mixed_transition r = true -> exists w', storage_enter_mixed_transition jsonb_text now w = Ok w')
  /\ (check_storage_finalized_gate now w = Ok tt <->
      (exists t, singleton w = Some t /\ ts_state t = TActive)
      \/ exists w', storage_auto_finalize_if_fresh now schema w = Ok (true, w')).
Proof.
  intros Hw Hok%reachable_is_ok H. destruct Hok as [(t & Et & _ & Hn) _ _ _].
  unfold status_report, storage_status in H. rewrite Et in H. cbn [rbind st_row] in H.
  rewrite counted, lookup_empty, (live_filter now _ w Hw), (live_filter now _ w Hw) in H. cbn [default] in H. injection H as <-.
  unfold can_finalize, can_enter_mixed_transition, state_blocker, engine_blocker, canonical_blocker.
  cbn [finalize_blockers enter_mixed_transition_blockers]. rewrite !is_empty_app, !is_empty_if, !negb_involutive. split_and!.
  - unfold storage_finalize. rewrite Et. simpl.
    case_bool_decide; simpl; [|by split; [|intros (? & ?)]]. case_bool_decide; simpl; [|by split; [|intros (? & ?)]].
    destruct (0 <? canonical_live_backlog _); simpl; [by split; [|intros (? & ?)]|].
    destruct (0 <? _)%nat; simpl; [by split; [|intros (? & ?)]|]. split; [eauto|done].
  - unfold storage_enter_mixed_transition. rewrite Et. case_bool_decide as Es; [|done]. case_bool_decide as Ep; [|done]. simpl.
    destruct (Hn Es) as (s & Hnm). rewrite (details_named jsonb_text _ _ Hnm). unfold queue_storage_schema_from_status. simpl. rewrite Ep. simpl.
    rewrite (member_named _ _ Hnm). simpl. unfold queue_storage_schema_ready. destruct (schemas w !! s); [|done].
    intros H. apply andb_true_iff in H as [_ [H1 H2]%andb_true_iff]. apply negb_true_iff in H1, H2. rewrite H1, H2. eauto.
  - unfold check_storage_finalized_gate, storage_auto_finalize_if_fresh. rewrite Et.
    case_bool_decide as Ea; [split; [eauto|done]|]. assert (~ exists t0, Some t = Some t0 /\ ts_state t0 = TActive) as Hna by (intros (? & [= <-] & ?); done).
    case_bool_decide as Es; simpl; [|split; [done|intros [?|(? & ?)]; done]].
    destruct (prepared_engine t); simpl; [split; [done|intros [?|(? & ?)]; done]|].
    destruct (0 <? canonical_jobs _); simpl; [split; [done|intros [?|(? & ?)]; done]|].
    destruct (existsb _ _); simpl; [split; [done|intros [?|(? & ?)]; done]|]. split; [eauto|done].
Qed.

Lemma auto_finalize_cases now c w b w' :
  storage_auto_finalize_if_fresh now c w = Ok (b, w') ->
  if b then marker w' = Some (match btrim c with EmptyString => "awa" | String a s => String a s end) /\ schemas w' = schemas w else w' = w.
Proof.
  unfold storage_auto_finalize_if_fresh. destruct (singleton w) as [t|]; [|done].
  destruct (negb _); [by intros [= <- <-]|]. destruct (prepared_engine t); [by intros [= <- <-]|].
  destruct (0 <? _); [by intros [= <- <-]|]. destruct (existsb _ _); by intros [= <- <-].
Qed.
Lemma installed_ready fresh c w : queue_storage_schema_ready c (if queue_storage_schema_ready c w then w else prepare_schema fresh c w) = true.
Proof. destruct (queue_storage_schema_ready c w) eqn:E; [done|]. unfold queue_storage_schema_ready, prepare_schema. cbn. by rewrite lookup_insert_eq. Qed.

(** C28. A worker that starts in the automatic role runs the engine jobs are
    routed to.  If it comes up on queue storage its schema is installed and is
    the one routing points to afterwards; if it comes up on the canonical
    tables, so is routing. *)
Theorem worker_follows_routing version binary ring now c w r w' :
  cluster_reachable w -> btrim c = c -> c <> EmptyString ->
  resolve_effective_storage version binary (empty_storage ring) now (Some c) RoleAuto w = Ok (r, w') ->
  match r with
  | RunQueueStorage s => s = c /\ active_queue_storage_schema jsonb_text w' = Some s /\ queue_storage_schema_ready s w' = true
  | RunCanonical => active_queue_storage_schema jsonb_text w' = None
  end.
Proof.
  intros Hok%reachable_is_ok Hb Hc H.
  rewrite (routed_marker jsonb_text w' (start_keeps_ok _ _ _ _ _ _ _ _ _ H Hok)).
  destruct Hok as [(t & Et & Hph & _) _ _ _]. unfold resolve_effective_storage in H.
  unfold storage_status at 1, expected_queue_storage_schema, active_storage_engine in H. rewrite Et in H. cbn [rbind st_row active_engine] in H.
  unfold routes_to_queue_storage at 1 2 3 in H. cbn [st_row active_engine] in H.
  destruct Hph as [Es Ec Ep Em|Es Ec Em|s Es Ec Ep Hn Em|s Es Ec Ep Hn Em _]; rewrite Es, Ec, ?Ep in H.
  - cbn in H. set (w1 := if queue_storage_schema_ready c w then w else prepare_schema (empty_storage ring) c w) in H.
    assert (marker w1 = None /\ singleton w1 = Some t) as [Em1 Et1] by (unfold w1; destruct (queue_storage_schema_ready c w); done).
    apply rbind_Ok in H as ([b w2] & Ha%auto_finalize_cases & H). rewrite Hb in Ha. destruct b.
    + injection H as <- <-. destruct Ha as [-> E2]. split_and!; [done|by destruct c|]. unfold queue_storage_schema_ready. rewrite E2.
      apply installed_ready.
    + subst w2. unfold storage_status, routes_to_queue_storage in H. rewrite Et1 in H. cbn [rbind st_row] in H. rewrite Es in H. by injection H as <- <-.
  - cbn in H. case_bool_decide; cbn in H.
    + destruct (negb _) in H; [done|]. destruct (negb _) in H; [done|]. by injection H as <- <-.
    + unfold routes_to_queue_storage in H. cbn in H. rewrite Es in H. by injection H as <- <-.
  - cbn in H. rewrite (member_named _ _ Hn) in H. cbn in H. destruct (String.eqb_spec c s) as [->|]; [|done]. cbn in H.
    destruct (queue_storage_schema_ready s w) eqn:Er; [|done]. by injection H as <- <-.
  - cbn in H. rewrite (member_named _ _ Hn) in H. cbn in H. destruct (String.eqb_spec c s) as [->|]; [|done]. cbn in H.
    destruct (queue_storage_schema_ready s w) eqn:Er; [|done]. by injection H as <- <-.
Qed.

(** * Careless aborts *)

(** C32. What the two rules keep out.  An abort in the mixed state counts the rows
    of [awa_exp] when the details name no schema, while routing went to the
    marker's schema or [awa]: it succeeds, whatever jobs are there, and routing
    goes back to the canonical tables.  An abort in the active state succeeds
    too: it leaves the singleton row as it is and deletes the marker, so that SQL
    goes on routing to queue storage and the Rust calls go to the canonical
    tables. *)
Theorem careless_abort validate_ident now w t :
  singleton w = Some t -> live_count now (has_capability CapQueueStorage) w = 0%nat ->
  (ts_state t = TMixed -> current_engine t = "canonical" -> prepared_engine t = Some "queue_storage" ->
   details_schema jsonb_text (ts_details t) = None -> schemas w !! "awa_exp" = None ->
   exists w', storage_abort jsonb_text now w = Ok w' /\ schemas w' = schemas w
     /\ active_queue_storage_schema jsonb_text w = Some (default "awa" (marker w)) /\ active_queue_storage_schema jsonb_text w' = None)
  /\ (ts_state t = TActive ->
      exists w', storage_abort jsonb_text now w = Ok w' /\ schemas w' = schemas w /\ singleton w' = Some t
        /\ (forall s, details_schema jsonb_text (ts_details t) = Some s -> active_queue_storage_schema jsonb_text w = Some s ->
           active_queue_storage_schema jsonb_text w' = Some s)
        /\ active_schema validate_ident w' = Ok None).
Proof.
  intros Et Hl. unfold storage_abort. rewrite Et, Hl, andb_false_r. split.
  - intros Es Ec Ep Hd Hx. rewrite Hd. simpl. rewrite Hx, andb_false_r, Es. eexists. split; [reflexivity|]. split; [done|].
    unfold active_queue_storage_schema, active_storage_engine. rewrite Et, Es, Ep, Hd. simpl. by rewrite Ec.
  - intros Es. rewrite Es. simpl. eexists. split; [reflexivity|]. split; [done|]. split; [done|]. split; [|done].
    intros s Hd. unfold active_queue_storage_schema, active_storage_engine. cbn [singleton set_marker marker]. rewrite Et, Hd.
    by destruct (String.eqb _ _).
Qed.

(** * Reaching clusters *)

Lemma canonical_run w db' :
  (forall t, singleton w = Some t -> ts_state t = TCanonical) -> active_queue_storage_schema jsonb_text w = None -> marker w = None ->
  rtc db_step (canonical w) db' -> rtc careful_step w (set_canonical db' w).
Proof.
  intros Hc Hr Hm H. remember (canonical w) as db eqn:E. revert w Hc Hr Hm E. induction H as [db|db db1 db2 H1 _ IH]; intros w Hc Hr Hm ->.
  - destruct w. apply rtc_refl.
  - apply (rtc_l _ _ (set_canonical db1 w)).
    + split; [by apply CCanonical|]. split; intros t; [intros Et Es|intros now Et Es]; apply Hc in Et; congruence.
    + by apply (IH (set_canonical db1 w)).
Qed.
End Promises.

(** * A transition *)

Module TransitionDemo.
(** A running canonical job, a prepared schema, a target runtime, routing
    flipped; then the job snoozes. *)
Definition text (_ : json) : string := EmptyString.
Abbreviation reach := (cluster_reachable text StoreDemo.no_hash 1 id (fun _ => []) None).
Abbreviation next := (careful_step text StoreDemo.no_hash 1 id (fun _ => []) None).
Definition or_else (r : result AwaError Cluster) (w : Cluster) : Cluster := match r with Ok w' => w' | Err _ => w end.
Definition w_fresh : Cluster := fresh_cluster 0.
Definition w_installed : Cluster := prepare_schema (empty_storage (0, 0)) "awa" w_fresh.
Definition w_job : Cluster := set_canonical (db Demo.running) w_installed.
Definition named : json := JObject [("schema", JString "awa")].
Definition prepared (details : json) (w : Cluster) : Cluster := or_else (storage_prepare 10 "queue_storage" (Some details) w) w.
Definition target : RuntimeInstance := mkRuntime CapQueueStorage RoleQueueStorageTarget (20 * us_per_sec) 1000.
Definition reported (w : Cluster) : Cluster := set_runtimes [target] w.
Definition entered (w : Cluster) : Cluster := or_else (storage_enter_mixed_transition text (20 * us_per_sec) w) w.
Definition w_prepared : Cluster := reported (prepared named w_job).
Definition w_mixed : Cluster := entered w_prepared.
Definition snoozed : result AwaError (RescheduleOutcome * Cluster) :=
  reschedule_routed text (Demo.env_at 30) (StoreDemo.at_second 30) 1 1 (Snooze us_per_sec) None None w_mixed.
Definition w_crossed : Cluster := match snoozed with Ok (_, w) => w | Err _ => w_mixed end.
Definition w_active : Cluster := or_else (storage_finalize (40 * us_per_sec) w_crossed) w_crossed.

Lemma step_of w w' t' s :
  cluster_step text StoreDemo.no_hash 1 id (fun _ => []) None w w' -> singleton w' = Some t' -> names_schema (ts_details t') s ->
  (forall t, singleton w = Some t -> ts_state t <> TActive) -> next w w'.
Proof.
  intros H Et' Hn Ha. split; [done|]. split.
  - intros t Et _. rewrite Et' in Et. injection Et as <-. eauto.
  - intros t now Et Es. by apply Ha in Et.
Qed.
Lemma reaches_step w w' : reach w -> next w w' -> reach w'.
Proof. intros (now & H) H1. exists now. by eapply rtc_r. Qed.
Lemma canonical_step w w' :
  cluster_step text StoreDemo.no_hash 1 id (fun _ => []) None w w' -> (forall t, singleton w' = Some t -> ts_state t <> TPrepared) ->
  (forall t, singleton w = Some t -> ts_state t <> TActive) -> next w w'.
Proof. intros H Hp Ha. split; [done|]. split; [intros t Et Es; by apply Hp in Et|intros t now Et Es; by apply Ha in Et]. Qed.

Lemma reaches_installed : reach w_installed.
Proof.
  apply (reaches_step w_fresh); [exists 0; apply rtc_refl|].
  apply canonical_step; [apply CInstall|by intros t [= <-]..].
Qed.
Lemma demo_steps tr s : sys_inv s -> rtc db_step (db s) (db (Demo.run tr s)).
Proof.
  revert s. induction tr as [|[env o] tr IH]; intros s Hs; [apply rtc_refl|].
  etrans; [|apply (IH (Demo.exec env o s))]; [apply (exec_reaches _ _ _ _ _ env o s Hs)|by apply exec_inv].
Qed.
Lemma reaches_job : reach w_job.
Proof.
  destruct reaches_installed as (now & H). exists now. etrans; [exact H|]. apply canonical_run; try done.
  - by intros t [= <-].
  - apply (demo_steps [Demo.insert_one 0; Demo.claim_one 1] empty_sys), empty_inv.
Qed.
Lemma reaches_prepared : reach w_prepared.
Proof.
  apply (reaches_step (prepared named w_job)); [apply (reaches_step w_job); [exact reaches_job|]|].
  - by eapply (step_of _ _ _ "awa"); [apply (CPrepare _ _ _ _ _ _ _ 10 "queue_storage" (Some named)); reflexivity|reflexivity| |intros t [= <-]].
  - by eapply (step_of _ _ _ "awa"); [apply CReport|reflexivity| |intros t [= <-]].
Qed.
Lemma reaches_mixed : reach w_mixed.
Proof.
  apply (reaches_step w_prepared); [exact reaches_prepared|].
  by eapply (step_of _ _ _ "awa"); [apply (CEnter _ _ _ _ _ _ _ (20 * us_per_sec)); reflexivity|reflexivity| |intros t [= <-]].
Qed.
Lemma crosses : exists t a, snoozed = Ok (Migrated 1 t a, w_crossed).
Proof.
  unfold w_crossed. destruct snoozed as [[o w]|e] eqn:H; [|exfalso; vm_compute in H; discriminate H].
  assert (match snoozed with Ok (Migrated 1 _ _, _) => True | _ => False end) as Ho by (vm_compute; exact I).
  rewrite H in Ho. destruct o as [|[|[]|] t a| |]; try contradiction. exists t, a. reflexivity.
Qed.
Lemma enters : next w_prepared w_mixed.
Proof. by eapply (step_of _ _ _ "awa"); [apply (CEnter _ _ _ _ _ _ _ (20 * us_per_sec)); reflexivity|reflexivity| |intros t [= <-]]. Qed.
(** A job to insert. *)
Definition late : PreparedJobInsert :=
  {| pi_kind := "send"; pi_queue := "mail"; pi_args := JObject []; pi_state := Available; pi_priority := 2; pi_max_attempts := 25;
     pi_run_at := None; pi_metadata := JObject []; pi_tags := []; pi_unique_key := None; pi_unique_states := None; pi_ordering_key := None |}.
(** Two jobs enqueued under a schema the details do not name, and the same
    cluster finished. *)
Definition with_jobs (w : Cluster) : Cluster := set_plane (canonical w) "awa" (mkSubstrate true StoreDemo.q1) w.
Definition w_unnamed : Cluster := with_jobs (entered (reported (prepared (JObject []) w_installed))).
Definition w_finished : Cluster := or_else (storage_finalize (1000 * us_per_sec) w_unnamed) w_unnamed.
Definition row (w : Cluster) : Singleton := default (first_singleton 0) (singleton w).
Lemma windows : forall i, i ∈ runtimes w_prepared -> same_window i.
Proof. intros i ->%list_elem_of_singleton. split; [by left|done]. Qed.
Definition status (w : Cluster) : StorageStatus := mkStatus (row w) (active_storage_engine w).
Definition substrate (w : Cluster) : Substrate := default (mkSubstrate false (empty_storage (0, 0))) (schemas w !! "awa").
Lemma finalizes : storage_finalize (40 * us_per_sec) w_crossed = Ok w_active.
Proof.
  unfold w_active. destruct (storage_finalize _ w_crossed) as [w|e] eqn:H; [reflexivity|].
  exfalso. vm_compute in H. discriminate H.
Qed.
Lemma state_of w st : ts_state (row w) = st -> st <> TActive -> forall t, singleton w = Some t -> ts_state t <> TActive.
Proof. intros E Hn t Ht. unfold row in E. rewrite Ht in E. simpl in E. congruence. Qed.
Lemma finishes : rtc next w_prepared w_active.
Proof.
  eapply rtc_l; [exact enters|]. apply (rtc_l _ _ w_crossed); [|apply rtc_once].
  - destruct crosses as (t & a & H).
    apply (step_of _ _ (row w_crossed) "awa");
      [exact (CReschedule text StoreDemo.no_hash 1 id (fun _ => []) None w_mixed _ _ _ _ _ _ _ _ _ H)|vm_compute; reflexivity| |].
    + split; [vm_compute; reflexivity|discriminate].
    + apply (state_of _ TMixed); [vm_compute; reflexivity|discriminate].
  - apply (step_of _ _ (row w_active) "awa");
      [exact (CFinalize text StoreDemo.no_hash 1 id (fun _ => []) None w_crossed _ _ finalizes)|vm_compute; reflexivity| |].
    + split; [vm_compute; reflexivity|discriminate].
    + apply (state_of _ TMixed); [vm_compute; reflexivity|discriminate].
Qed.
Lemma active_row : singleton w_active = Some (row w_active).
Proof. vm_compute. reflexivity. Qed.
Lemma active_state : ts_state (row w_active) = TActive.
Proof. vm_compute. reflexivity. Qed.
End TransitionDemo.

Lemma routing_agrees_witness :
  active_queue_storage_schema TransitionDemo.text TransitionDemo.w_mixed = Some "awa"
  /\ active_schema (fun _ => true) TransitionDemo.w_mixed = Ok (Some "awa")
  /\ active_queue_storage_schema TransitionDemo.text TransitionDemo.w_mixed = marker TransitionDemo.w_mixed.
Proof.
  split; [vm_compute; reflexivity|]. split; [vm_compute; reflexivity|].
  exact (proj1 (routing_agrees TransitionDemo.text StoreDemo.no_hash 1 id (fun _ => []) None (fun _ => true) TransitionDemo.w_mixed
                  (TransitionDemo.status TransitionDemo.w_mixed) TransitionDemo.reaches_mixed eq_refl)).
Defined.
Lemma no_job_left_behind_witness :
  places (su_store (TransitionDemo.substrate TransitionDemo.w_prepared)) = [].
Proof.
  apply (proj1 (no_job_left_behind TransitionDemo.text StoreDemo.no_hash 1 id (fun _ => []) None TransitionDemo.w_prepared
                  TransitionDemo.reaches_prepared) "awa"); [reflexivity|]. vm_compute. discriminate.
Defined.
Lemma late_insert_left_behind_witness :
  active_queue_storage_schema TransitionDemo.text TransitionDemo.w_prepared = None
  /\ ts_state (TransitionDemo.row TransitionDemo.w_active) = TActive
  /\ exists r db', insert_job_compat (Demo.env_at 50) TransitionDemo.late (canonical TransitionDemo.w_active) = Ok (r, db')
    /\ lookup_job (j_id r) db' = Some r /\ is_terminal (j_state r) = false.
Proof.
  split; [vm_compute; reflexivity|]. split; [vm_compute; reflexivity|].
  destruct (insert_job_compat (Demo.env_at 50) TransitionDemo.late (canonical TransitionDemo.w_active)) as [[r db']|e] eqn:H;
    [|exfalso; vm_compute in H; discriminate H].
  exists r, db'. split; [reflexivity|].
  exact (proj2 (late_insert_left_behind TransitionDemo.text StoreDemo.no_hash 1 id (fun _ => []) None (Demo.env_at 50) TransitionDemo.late
                  TransitionDemo.w_prepared TransitionDemo.w_active (TransitionDemo.row TransitionDemo.w_active) r db'
                  TransitionDemo.reaches_prepared eq_refl TransitionDemo.finishes TransitionDemo.active_row TransitionDemo.active_state
                  (or_introl eq_refl) H)).
Defined.
Lemma attempt_crosses_whole_witness :
  canonical_live_backlog (canonical TransitionDemo.w_mixed) = 1
  /\ exists u u', schemas TransitionDemo.w_mixed !! "awa" = Some u
    /\ schemas TransitionDemo.w_crossed = <["awa" := u']> (schemas TransitionDemo.w_mixed)
    /\ places (su_store u') ≡ₚ ((1, 1) :: places (su_store u))
    /\ canonical_live_backlog (canonical TransitionDemo.w_crossed) = canonical_live_backlog (canonical TransitionDemo.w_mixed) - 1.
Proof.
  split; [vm_compute; reflexivity|]. destruct TransitionDemo.crosses as (t & a & H).
  destruct (attempt_crosses_whole TransitionDemo.text StoreDemo.no_hash 1 id (fun _ => []) None (Demo.env_at 30) (StoreDemo.at_second 30)
              1 1 (Snooze us_per_sec) None None TransitionDemo.w_mixed "awa" _ _ TransitionDemo.reaches_mixed eq_refl H)
    as (u & u' & Hu & Hu' & _ & _ & Hp & Hb & _).
  exists u, u'. split; [exact Hu|]. split; [exact Hu'|]. split; [exact Hp|exact Hb].
Defined.
Lemma reports_match_commands_witness :
  exists r, status_report (20 * us_per_sec) TransitionDemo.w_prepared = Ok r /\ can_enter_mixed_transition r = true
    /\ exists w', storage_enter_mixed_transition TransitionDemo.text (20 * us_per_sec) TransitionDemo.w_prepared = Ok w'.
Proof.
  eexists. split; [reflexivity|]. split; [vm_compute; reflexivity|].
  apply (proj1 (proj2 (reports_match_commands TransitionDemo.text StoreDemo.no_hash 1 id (fun _ => []) None (20 * us_per_sec) "awa"
           TransitionDemo.w_prepared _
           TransitionDemo.windows
           TransitionDemo.reaches_prepared eq_refl))).
  vm_compute. reflexivity.
Defined.
Lemma worker_follows_routing_witness :
  exists w', resolve_effective_storage 1 1 (empty_storage (0, 0)) 5 (Some "awa") RoleAuto TransitionDemo.w_installed = Ok (RunQueueStorage "awa", w')
    /\ active_queue_storage_schema TransitionDemo.text w' = Some "awa".
Proof.
  eexists. split; [reflexivity|].
  apply (worker_follows_routing TransitionDemo.text StoreDemo.no_hash 1 id (fun _ => []) None 1 1 (0, 0) 5 "awa" TransitionDemo.w_installed
           (RunQueueStorage "awa") _ TransitionDemo.reaches_installed eq_refl); [discriminate|reflexivity].
Defined.
Lemma careless_abort_witness :
  places (su_store (TransitionDemo.substrate TransitionDemo.w_unnamed)) = [(1, 0); (2, 0)]
  /\ (exists w', storage_abort TransitionDemo.text (1000 * us_per_sec) TransitionDemo.w_unnamed = Ok w'
        /\ schemas w' = schemas TransitionDemo.w_unnamed
        /\ active_queue_storage_schema TransitionDemo.text TransitionDemo.w_unnamed = Some "awa"
        /\ active_queue_storage_schema TransitionDemo.text w' = None)
  /\ ts_state (TransitionDemo.row TransitionDemo.w_finished) = TActive
  /\ exists w', storage_abort TransitionDemo.text (1000 * us_per_sec) TransitionDemo.w_finished = Ok w'
        /\ schemas w' = schemas TransitionDemo.w_finished /\ active_schema (fun _ => true) w' = Ok None.
Proof.
  split; [vm_compute; reflexivity|]. split.
  - exact (proj1 (careless_abort TransitionDemo.text (fun _ => true) (1000 * us_per_sec) TransitionDemo.w_unnamed
                    (TransitionDemo.row TransitionDemo.w_unnamed) eq_refl eq_refl) eq_refl eq_refl eq_refl eq_refl eq_refl).
  - split; [vm_compute; reflexivity|].
    destruct (proj2 (careless_abort TransitionDemo.text (fun _ => true) (1000 * us_per_sec) TransitionDemo.w_finished
                       (TransitionDemo.row TransitionDemo.w_finished) eq_refl eq_refl) eq_refl) as (w' & Ha & Hs & _ & _ & Hm).
    exists w'. split; [exact Ha|]. split; [exact Hs|exact Hm].
Defined.
