(* ===== verification/Cron.v ===== *)
(** Periodic jobs (awa-model/src/cron.rs, the cron part of
    awa-worker/src/maintenance.rs, and the trigger [cron_schedule_fence] of the
    v045 migration).

    A schedule is a row of [awa.cron_jobs].  The leader evaluates the rows,
    computes the fires that are due and enqueues each with one statement that
    moves [last_enqueued_at] and inserts the job.  Cron expressions and time
    zones are croner's and chrono-tz's: they are parameters here. *)

From S2P Require Import Prelude.
From S2P Require Import Error.
From S2P Require Import Json.
From S2P Require Import Job.
From S2P Require Import Canonical.

(** * Text *)

(** [char::is_whitespace], on the UTF-8 bytes of a character. *)
Definition ascii_space (a : ascii) : bool := (9 <=? ascii_code a) && (ascii_code a <=? 13) || (ascii_code a =? 32).
Definition space2 (a b : ascii) : bool :=
  (ascii_code a =? 194) && ((ascii_code b =? 133) || (ascii_code b =? 160)).
Definition space3 (a b c : ascii) : bool :=
  let x := ascii_code c in
  ((ascii_code a =? 225) && (ascii_code b =? 154) && (x =? 128))
  || ((ascii_code a =? 226) && (ascii_code b =? 128)
      && ((128 <=? x) && (x <=? 138) || (x =? 168) || (x =? 169) || (x =? 175)))
  || ((ascii_code a =? 226) && (ascii_code b =? 129) && (x =? 159))
  || ((ascii_code a =? 227) && (ascii_code b =? 128) && (x =? 128)).
(** [s.trim().is_empty()]. *)
Fixpoint blank (s : string) : bool :=
  match s with
  | EmptyString => true
  | String a s1 =>
      if ascii_space a then blank s1
      else match s1 with
           | EmptyString => false
           | String b s2 =>
               if space2 a b then blank s2
               else match s2 with
                    | EmptyString => false
                    | String c s3 => space3 a b c && blank s3
                    end
           end
  end.

(** * Definitions *)

Inductive CronMissedFirePolicy : Type := Coalesce | CatchUp.
#[export] Instance policy_eq_dec : EqDecision CronMissedFirePolicy.
Proof. solve_decision. Defined.
Definition policy_as_str (p : CronMissedFirePolicy) : string :=
  match p with Coalesce => "coalesce" | CatchUp => "catch_up" end.
Definition policy_parse (value : string) : result AwaError CronMissedFirePolicy :=
  if String.eqb value "coalesce" then Ok Coalesce
  else if String.eqb value "catch_up" then Ok CatchUp
  else Err (Validation ("invalid cron missed fire policy '" +:+ value +:+ "'")).

Record PeriodicJob : Type := mkPeriodic {
  pj_name : string;
  pj_cron_expr : string;
  pj_timezone : string;
  pj_kind : string;
  pj_queue : string;
  pj_args : json;
  pj_priority : Z;
  pj_max_attempts : Z;
  pj_tags : list string;
  pj_metadata : json;
  pj_missed_fire_policy : CronMissedFirePolicy
}.

(** [PeriodicJobBuilder]: the defaults of [PeriodicJob::builder]. *)
Record PeriodicJobBuilder : Type := mkBuilder {
  b_name : string;
  b_cron_expr : string;
  b_timezone : string;
  b_queue : string;
  b_priority : Z;
  b_max_attempts : Z;
  b_tags : list string;
  b_metadata : json;
  b_missed_fire_policy : CronMissedFirePolicy
}.
Definition builder (name cron_expr : string) : PeriodicJobBuilder :=
  mkBuilder name cron_expr "UTC" "default" 2 25 [] (JObject []) Coalesce.

(** A row of [awa.cron_jobs]. *)
Record CronJobRow : Type := mkCronRow {
  cr_owner_id : option string;
  cr_retired_at : option time;
  cr_retired_by : option string;
  cr_retired_revision : option string;
  cr_name : string;
  cr_cron_expr : string;
  cr_timezone : string;
  cr_kind : string;
  cr_queue : string;
  cr_args : json;
  cr_priority : Z;
  cr_max_attempts : Z;
  cr_tags : list string;
  cr_metadata : json;
  cr_missed_fire_policy : string;
  cr_last_enqueued_at : option time;
  cr_created_at : time;
  cr_updated_at : time;
  cr_paused_at : option time;
  cr_paused_by : option string
}.
Definition is_paused (r : CronJobRow) : bool := bool_decide (is_Some (cr_paused_at r)).
Definition is_retired (r : CronJobRow) : bool := bool_decide (is_Some (cr_retired_at r)).

(** [INSERT INTO awa.cron_jobs] of a definition, at [now()]. *)
Definition new_cron_row (now : time) (owner : option string) (p : PeriodicJob) : CronJobRow :=
  mkCronRow owner None None None (pj_name p) (pj_cron_expr p) (pj_timezone p) (pj_kind p) (pj_queue p) (pj_args p)
    (pj_priority p) (pj_max_attempts p) (pj_tags p) (pj_metadata p) (policy_as_str (pj_missed_fire_policy p))
    None now now None None.
(** [SET cron_expr = EXCLUDED.cron_expr, ..., updated_at = now]. *)
Definition set_definition (now : time) (p : PeriodicJob) (r : CronJobRow) : CronJobRow :=
  mkCronRow (cr_owner_id r) (cr_retired_at r) (cr_retired_by r) (cr_retired_revision r) (cr_name r)
    (pj_cron_expr p) (pj_timezone p) (pj_kind p) (pj_queue p) (pj_args p)
    (pj_priority p) (pj_max_attempts p) (pj_tags p) (pj_metadata p) (policy_as_str (pj_missed_fire_policy p))
    (cr_last_enqueued_at r) (cr_created_at r) now (cr_paused_at r) (cr_paused_by r).
Definition set_owner (now : time) (owner : option string) (r : CronJobRow) : CronJobRow :=
  mkCronRow owner (cr_retired_at r) (cr_retired_by r) (cr_retired_revision r) (cr_name r)
    (cr_cron_expr r) (cr_timezone r) (cr_kind r) (cr_queue r) (cr_args r)
    (cr_priority r) (cr_max_attempts r) (cr_tags r) (cr_metadata r) (cr_missed_fire_policy r)
    (cr_last_enqueued_at r) (cr_created_at r) now (cr_paused_at r) (cr_paused_by r).
Definition set_retired (now : time) (at_ : option time) (by_ revision : option string) (r : CronJobRow) : CronJobRow :=
  mkCronRow (cr_owner_id r) at_ by_ revision (cr_name r)
    (cr_cron_expr r) (cr_timezone r) (cr_kind r) (cr_queue r) (cr_args r)
    (cr_priority r) (cr_max_attempts r) (cr_tags r) (cr_metadata r) (cr_missed_fire_policy r)
    (cr_last_enqueued_at r) (cr_created_at r) now (cr_paused_at r) (cr_paused_by r).
Definition set_enqueued (now : time) (last : option time) (r : CronJobRow) : CronJobRow :=
  mkCronRow (cr_owner_id r) (cr_retired_at r) (cr_retired_by r) (cr_retired_revision r) (cr_name r)
    (cr_cron_expr r) (cr_timezone r) (cr_kind r) (cr_queue r) (cr_args r)
    (cr_priority r) (cr_max_attempts r) (cr_tags r) (cr_metadata r) (cr_missed_fire_policy r)
    last (cr_created_at r) now (cr_paused_at r) (cr_paused_by r).
Definition set_pause (now : time) (at_ : option time) (by_ : option string) (r : CronJobRow) : CronJobRow :=
  mkCronRow (cr_owner_id r) (cr_retired_at r) (cr_retired_by r) (cr_retired_revision r) (cr_name r)
    (cr_cron_expr r) (cr_timezone r) (cr_kind r) (cr_queue r) (cr_args r)
    (cr_priority r) (cr_max_attempts r) (cr_tags r) (cr_metadata r) (cr_missed_fire_policy r)
    (cr_last_enqueued_at r) (cr_created_at r) now at_ by_.

(** * The table *)

Abbreviation CronJobs := (gmap string CronJobRow).

(** The session settings the trigger reads: [awa.cron_admin] is on, and
    [awa.cron_owner]. *)
Record Session : Type := mkSession { cron_admin : bool; cron_owner : option string }.
Definition plain : Session := mkSession false None.

Definition OBJECT_NOT_IN_STATE : AwaError := Database (SqlxDatabase (Some "55000") None).
Definition UNTRANSLATABLE : AwaError := Database (SqlxDatabase (Some "22P05") None).

Section Table.
  (** Equality of jsonb values. *)
  Variable jsonb_eqb : json -> json -> bool.

(** [ROW(cron_expr, ..., missed_fire_policy)] of two rows are not distinct. *)
Definition same_definition (a b : CronJobRow) : bool :=
  String.eqb (cr_cron_expr a) (cr_cron_expr b) && String.eqb (cr_timezone a) (cr_timezone b)
  && String.eqb (cr_kind a) (cr_kind b) && String.eqb (cr_queue a) (cr_queue b)
  && jsonb_eqb (cr_args a) (cr_args b) && (cr_priority a =? cr_priority b)
  && (cr_max_attempts a =? cr_max_attempts b) && bool_decide (cr_tags a = cr_tags b)
  && jsonb_eqb (cr_metadata a) (cr_metadata b) && String.eqb (cr_missed_fire_policy a) (cr_missed_fire_policy b).

(** [cron_schedule_fence] on UPDATE: the row to write, none when it returns
    NULL. *)
Definition fence_update (s : Session) (old new : CronJobRow) : result AwaError (option CronJobRow) :=
  if cron_admin s then Ok (Some new)
  else if negb (bool_decide (cr_owner_id new = cr_owner_id old))
          || negb (bool_decide (cr_retired_at new = cr_retired_at old))
          || negb (bool_decide (cr_retired_by new = cr_retired_by old))
          || negb (bool_decide (cr_retired_revision new = cr_retired_revision old))
  then Err OBJECT_NOT_IN_STATE
  else if is_retired old then Ok None
  else if bool_decide (is_Some (cr_owner_id old)) && negb (bool_decide (cron_owner s = cr_owner_id old))
          && negb (same_definition new old && String.eqb (cr_name new) (cr_name old) && (cr_created_at new =? cr_created_at old))
  then Ok None
  else Ok (Some new).
(** ... and on DELETE. *)
Definition fence_delete (old : CronJobRow) : result AwaError unit :=
  if is_retired old then Err OBJECT_NOT_IN_STATE
  else if bool_decide (is_Some (cr_owner_id old)) then Err OBJECT_NOT_IN_STATE
  else Ok tt.

(** [UPDATE awa.cron_jobs SET f WHERE name = $1 AND guard RETURNING *]. *)
Definition update_cron (s : Session) (name : string) (guard : CronJobRow -> bool) (f : CronJobRow -> CronJobRow)
    (jobs : CronJobs) : result AwaError (option CronJobRow * CronJobs) :=
  match jobs !! name with
  | Some r =>
      if guard r
      then let? w := fence_update s r (f r) in
           Ok (match w with Some r' => (Some r', <[name := r']> jobs) | None => (None, jobs) end)
      else Ok (None, jobs)
  | None => Ok (None, jobs)
  end.
(** [... WHERE name = ANY($1) AND guard]. *)
Fixpoint update_crons (s : Session) (names : list string) (guard : CronJobRow -> bool) (f : CronJobRow -> CronJobRow)
    (jobs : CronJobs) : result AwaError CronJobs :=
  match names with
  | [] => Ok jobs
  | n :: names => let? (_, jobs) := update_cron s n guard f jobs in update_crons s names guard f jobs
  end.

(** What the columns of a definition reject: NUL in text or in jsonb. *)
Definition storable (p : PeriodicJob) : result AwaError unit :=
  if existsb (contains_char nul) (pj_name p :: pj_cron_expr p :: pj_timezone p :: pj_kind p :: pj_queue p :: pj_tags p)
  then Err nul_violation
  else if contains_nul (pj_args p) || contains_nul (pj_metadata p) then Err UNTRANSLATABLE
  else Ok tt.

(** [upsert_cron_job]: whether a row of that name is there unowned, active or
    not, is what it answers. *)
Definition upsert_cron_job (now : time) (p : PeriodicJob) (jobs : CronJobs) : result AwaError CronJobs :=
  check? storable p;
  match jobs !! pj_name p with
  | None => Ok (<[pj_name p := new_cron_row now None p]> jobs)
  | Some r =>
      let unowned r := bool_decide (cr_owner_id r = None) in
      let? (written, jobs') := update_cron plain (pj_name p) (fun r => unowned r && negb (is_retired r)) (set_definition now p) jobs in
      if bool_decide (is_Some written) || (unowned r && is_retired r)
      then Ok jobs'
      else Err (Validation ("cron schedule " +:+ pj_name p +:+ " is owned by another manager; explicit adoption or matching owner required"))
  end.
Definition delete_cron_job (name : string) (jobs : CronJobs) : result AwaError (bool * CronJobs) :=
  match jobs !! name with
  | None => Ok (false, jobs)
  | Some r => check? fence_delete r; Ok (true, delete name jobs)
  end.
Definition pause_cron_job (now : time) (name : string) (paused_by : option string) (jobs : CronJobs)
    : result AwaError (bool * CronJobs) :=
  let? (written, jobs) := update_cron plain name (fun _ => true) (set_pause now (Some now) paused_by) jobs in
  Ok (bool_decide (is_Some written), jobs).
Definition resume_cron_job (now : time) (name : string) (jobs : CronJobs) : result AwaError (bool * CronJobs) :=
  let? (written, jobs) := update_cron plain name (fun _ => true) (set_pause now None None) jobs in
  Ok (bool_decide (is_Some written), jobs).
(** [ORDER BY name]. *)
Definition name_le (a b : CronJobRow) : Prop := String.leb (cr_name a) (cr_name b) = true.
#[export] Instance name_le_dec (a b : CronJobRow) : Decision (name_le a b).
Proof. unfold name_le. apply _. Defined.
Definition list_cron_jobs (jobs : CronJobs) : list CronJobRow := merge_sort name_le (map snd (map_to_list jobs)).

(** * Enqueuing *)

Section Enqueue.
  (** The storage engine's [awa.insert_job_compat], and [timestamptz::text]. *)
  Context {D : Type} (insert : PreparedJobInsert -> D -> result AwaError (JobRow * D)) (time_text : time -> string).

Definition cron_insert (r : CronJobRow) (extra : list (string * json)) : PreparedJobInsert :=
  {| pi_kind := cr_kind r; pi_queue := cr_queue r; pi_args := cr_args r; pi_state := Available;
     pi_priority := cr_priority r; pi_max_attempts := cr_max_attempts r; pi_run_at := None;
     pi_metadata := jsonb_concat (cr_metadata r) (JObject extra); pi_tags := cr_tags r;
     pi_unique_key := None; pi_unique_states := None; pi_ordering_key := None |}.
Definition fired_insert (r : CronJobRow) (fire_time : time) : PreparedJobInsert :=
  cron_insert r [("cron_fire_time", JString (time_text fire_time)); ("cron_name", JString (cr_name r))].

Definition atomic_enqueue (now : time) (cron_name : string) (fire_time : time) (previous : option time)
    (jobs : CronJobs) (d : D) : result AwaError (option JobRow * (CronJobs * D)) :=
  let? (mark, jobs) :=
    update_cron plain cron_name
      (fun r => bool_decide (cr_last_enqueued_at r = previous) && negb (is_paused r) && negb (is_retired r))
      (set_enqueued now (Some fire_time)) jobs in
  match mark with
  | None => Ok (None, (jobs, d))
  | Some r => let? (row, d) := insert (fired_insert r fire_time) d in Ok (Some row, (jobs, d))
  end.

Definition trigger_cron_job (name : string) (jobs : CronJobs) (d : D) : result AwaError (JobRow * D) :=
  match jobs !! name with
  | Some r =>
      if is_retired r then Err (Validation ("cron job not found: " +:+ name))
      else insert (cron_insert r [("cron_name", JString (cr_name r)); ("triggered_manually", JBool true)]) d
  | None => Err (Validation ("cron job not found: " +:+ name))
  end.
End Enqueue.
End Table.

(** * Fires *)

Definition usec (seconds : Z) : Z := seconds * us_per_sec.
(** [num_seconds] of a duration: towards zero. *)
Definition num_seconds (d : Z) : Z := Z.quot d us_per_sec.
Definition CRON_CATCH_UP_LIMIT : Z := 1000.

(** The elements of an iterator up to the first one after [now].  The fires of
    an expression are a second apart at least, so that the seconds from the first
    one to [now] bound how many there are. *)
Fixpoint run_until (it : nat -> option time) (now : time) (fuel : nat) (i : nat) : list time :=
  match fuel with
  | O => []
  | S fuel =>
      match it i with
      | None => []
      | Some t => if now <? t then [] else t :: run_until it now fuel (S i)
      end
  end.
Definition until (it : nat -> option time) (now : time) : list time :=
  match it 0%nat with
  | None => []
  | Some t => run_until it now (Z.to_nat ((now - t) / us_per_sec + 1)) 0
  end.
Definition is_after (last : option time) (t : time) : bool :=
  match last with Some l => l <? t | None => true end.

Section Fires.
  (** croner and chrono-tz: [Cron::new(expr).with_seconds_optional().parse()],
      [parse::<Tz>()], and the [i]-th element of [cron.iter_from(start)] in the
      zone, in UTC. *)
  Context {Cron Tz : Type} (parse_cron : string -> option Cron) (parse_tz : string -> option Tz).
  Context (iter_from : Cron -> Tz -> time -> nat -> option time).

Definition build_raw (b : PeriodicJobBuilder) (kind : string) (args : json) (cron_err tz_err number : string)
    : result AwaError PeriodicJob :=
  match parse_cron (b_cron_expr b) with
  | None => Err (Validation ("invalid cron expression: " +:+ cron_err))
  | Some _ =>
      match parse_tz (b_timezone b) with
      | None => Err (Validation ("invalid timezone: " +:+ tz_err))
      | Some _ =>
          if negb ((1 <=? b_priority b) && (b_priority b <=? 4))
          then Err (Validation ("priority must be between 1 and 4, got " +:+ number))
          else if negb ((1 <=? b_max_attempts b) && (b_max_attempts b <=? 1000))
          then Err (Validation ("max_attempts must be between 1 and 1000, got " +:+ number))
          else Ok (mkPeriodic (b_name b) (b_cron_expr b) (b_timezone b) kind (b_queue b) args (b_priority b)
                     (b_max_attempts b) (b_tags b) (b_metadata b) (b_missed_fire_policy b))
      end
  end.

(** [PeriodicJob::latest_fire_time]; none also stands for its [expect]s. *)
Definition latest_fire_time (p : PeriodicJob) (now : time) (after : option time) : option time :=
  match parse_cron (pj_cron_expr p), parse_tz (pj_timezone p) with
  | Some cron, Some tz =>
      let search_start := match after with Some t => t | None => now - usec (24 * 3600) end in
      last (List.filter (is_after after) (until (iter_from cron tz search_start) now))
  | _, _ => None
  end.
Definition next_fire_time_after (cron_expr timezone : string) (after : time) : option time :=
  match parse_cron cron_expr, parse_tz timezone with
  | Some cron, Some tz => iter_from cron tz after 0%nat
  | _, _ => None
  end.

Definition first_due_fire (cron : Cron) (tz : Tz) (search_start : time) (last_enqueued_at : option time) (now : time)
    : option time :=
  head (List.filter (is_after last_enqueued_at) (until (iter_from cron tz search_start) now)).
Definition latest_due_fire_in_window (cron : Cron) (tz : Tz) (window_start : time) (last_enqueued_at : option time)
    (now : time) : option time :=
  last (List.filter (is_after last_enqueued_at) (until (iter_from cron tz window_start) now)).

(** The loop of [latest_due_fire]; [None] is running out of fuel. *)
Fixpoint look_back (cron : Cron) (tz : Tz) (first_due : time) (last_enqueued_at : option time) (now total : Z)
    (fuel : nat) (lookback_seconds : Z) : option time :=
  match fuel with
  | O => None
  | S fuel =>
      let window_start := Z.max (now - usec lookback_seconds) first_due in
      let hit :=
        match iter_from cron tz window_start 0%nat with
        | Some t => (t <=? now) && is_after last_enqueued_at t
        | None => false
        end in
      if hit
      then match latest_due_fire_in_window cron tz window_start last_enqueued_at now with
           | Some t => Some t
           | None => Some first_due
           end
      else if total <=? lookback_seconds then Some first_due
      else look_back cron tz first_due last_enqueued_at now total fuel (Z.min (Z.min i64_max (lookback_seconds * 2)) total)
  end.
(** Doubling from one second passes any span of an [i64] in 64 rounds. *)
Definition LOOK_BACK_FUEL : nat := 64.
Definition latest_due_fire (cron : Cron) (tz : Tz) (search_start : time) (last_enqueued_at : option time) (now : time)
    : option time :=
  match first_due_fire cron tz search_start last_enqueued_at now with
  | None => None
  | Some first_due =>
      look_back cron tz first_due last_enqueued_at now (Z.max (num_seconds (now - first_due)) 1) LOOK_BACK_FUEL 1
  end.

Definition search_start (r : CronJobRow) : time :=
  match cr_last_enqueued_at r with Some t => t | None => cr_created_at r - usec 60 end.
(** The loop that pushes fires until [limit] of them are there; it pushes
    before it looks at the limit. *)
Definition compute_fire_times (r : CronJobRow) (now : time) (limit : Z) : list time :=
  match parse_cron (cr_cron_expr r), parse_tz (cr_timezone r), policy_parse (cr_missed_fire_policy r) with
  | Some cron, Some tz, Ok policy =>
      if negb (bool_decide (is_Some (cr_last_enqueued_at r)) && bool_decide (policy = CatchUp))
      then option_list (latest_due_fire cron tz (search_start r) (cr_last_enqueued_at r) now)
      else take (Z.to_nat (Z.max 1 limit))
             (List.filter (is_after (cr_last_enqueued_at r)) (until (iter_from cron tz (search_start r)) now))
  | _, _, _ => []
  end.

(** * Evaluation *)

Section Evaluate.
  Context (jsonb_eqb : json -> json -> bool).
  Context {D : Type} (insert : PreparedJobInsert -> D -> result AwaError (JobRow * D)) (time_text : time -> string).

(** The fires of one row, stopping at the first that is already claimed or
    fails; each is its own transaction, at [now()]. *)
Fixpoint enqueue_fires (now : time) (name : string) (fires : list time) (previous : option time) (jobs : CronJobs) (d : D)
    : CronJobs * D :=
  match fires with
  | [] => (jobs, d)
  | t :: fires =>
      match atomic_enqueue jsonb_eqb insert time_text now name t previous jobs d with
      | Ok (Some _, (jobs, d)) => enqueue_fires now name fires (Some t) jobs d
      | Ok (None, (jobs, d)) => (jobs, d)
      | Err _ => (jobs, d)
      end
  end.
(** What one evaluation does with a row it listed. *)
Definition fires_of (now : time) (r : CronJobRow) : list time :=
  if is_paused r || is_retired r then [] else compute_fire_times r now CRON_CATCH_UP_LIMIT.
Definition evaluate_row (now : time) (r : CronJobRow) (w : CronJobs * D) : CronJobs * D :=
  enqueue_fires now (cr_name r) (fires_of now r) (cr_last_enqueued_at r) (fst w) (snd w).
Definition evaluate_cron_schedules (now : time) (jobs : CronJobs) (d : D) : CronJobs * D :=
  foldl (fun w r => evaluate_row now r w) (jobs, d) (list_cron_jobs jobs).
End Evaluate.
End Fires.
