(* ===== verification/CronFires.v ===== *)
(** Which fires an evaluation finds due: the search of
    [latest_due_fire] (awa-worker/src/maintenance.rs) finds the latest one
    without walking through all of them, and a catching-up schedule gets the
    earliest ones, in order and without a gap. *)

From S2P Require Import Prelude.
From S2P Require Import Error.
From S2P Require Import Json.
From S2P Require Import Job.
From S2P Require Import Canonical.
From S2P Require Import Cron.

(** * Iterators *)

Definition apart (a b : time) : Prop := a + us_per_sec <= b.
(** Each element comes a second at least after the one before it. *)
Definition increasing (it : nat -> option time) : Prop :=
  forall i t', it (S i) = Some t' -> exists t, it i = Some t /\ apart t t'.

Section Iterator.
  Context (it : nat -> option time) (Hinc : increasing it) (now : time).

Lemma it_before i j t' : (i < j)%nat -> it j = Some t' -> exists t, it i = Some t /\ apart t t'.
Proof.
  intros Hij. revert t'. induction Hij as [|j Hij IH]; intros t' H; [by apply Hinc|].
  apply Hinc in H as (u & Hu & Ha). destruct (IH u Hu) as (t & Ht & Hb). exists t. split; [done|].
  unfold apart, us_per_sec in *. lia.
Qed.
Lemma it_le i j t t' : (i <= j)%nat -> it i = Some t -> it j = Some t' -> t + us_per_sec * Z.of_nat (j - i) <= t'.
Proof.
  intros Hij. revert t'. induction Hij as [|j Hij IH]; intros t' Hi Hj; [rewrite Hi in Hj; injection Hj as <-; lia|].
  apply Hinc in Hj as (u & Hu & Ha). specialize (IH u Hi Hu). unfold apart, us_per_sec in *. lia.
Qed.

Lemma run_until_elem fuel i t :
  t ∈ run_until it now fuel i <-> t <= now /\ exists j, (i <= j < i + fuel)%nat /\ it j = Some t.
Proof.
  revert i. induction fuel as [|fuel IH]; intros i; simpl.
  { split; [by intros ?%elem_of_nil|]. intros (_ & j & Hj & _). lia. }
  destruct (it i) as [u|] eqn:Hi.
  - destruct (Z.ltb_spec now u) as [Hu|Hu].
    + split; [by intros ?%elem_of_nil|]. intros (Ht & j & Hj & Hjt).
      assert (u + us_per_sec * Z.of_nat (j - i) <= t) by (apply (it_le i j); [lia|done..]). unfold us_per_sec in *. lia.
    + rewrite elem_of_cons, IH. split.
      * intros [->|(Ht & j & Hj & Hjt)]; [split; [done|]; exists i; split; [lia|done]|].
        split; [done|]. exists j. split; [lia|done].
      * intros (Ht & j & Hj & Hjt). destruct (decide (i = j)) as [->|]; [left; congruence|].
        right. split; [done|]. exists j. split; [lia|done].
  - split; [by intros ?%elem_of_nil|]. intros (_ & j & Hj & Hjt). destruct (decide (i = j)) as [->|]; [congruence|].
    destruct (it_before i j t) as (u & Hu & _); [lia|done|congruence].
Qed.
Lemma run_until_sorted fuel i : StronglySorted apart (run_until it now fuel i).
Proof.
  revert i. induction fuel as [|fuel IH]; intros i; simpl; [constructor|].
  destruct (it i) as [u|] eqn:Hi; [|constructor]. destruct (now <? u); constructor; [done|].
  apply Forall_forall. intros t (_ & j & Hj & Hjt)%run_until_elem.
  destruct (it_before i j t) as (u' & Hu' & Ha); [lia|done|]. congruence.
Qed.

Lemma until_elem t : t ∈ until it now <-> t <= now /\ exists j, it j = Some t.
Proof.
  unfold until. destruct (it 0%nat) as [t0|] eqn:H0.
  - rewrite run_until_elem. split; [naive_solver|]. intros (Ht & j & Hj). split; [done|]. exists j. split; [|done].
    assert (t0 + us_per_sec * Z.of_nat (j - 0) <= t) by (apply (it_le 0 j); [lia|done..]).
    enough (Z.of_nat j <= (now - t0) / us_per_sec) by lia. apply Z.div_le_lower_bound; unfold us_per_sec in *; lia.
  - split; [by intros ?%elem_of_nil|]. intros (_ & j & Hj). destruct j as [|j]; [congruence|].
    destruct (it_before 0 (S j) t) as (u & Hu & _); [lia|done|congruence].
Qed.
Lemma until_sorted : StronglySorted apart (until it now).
Proof. unfold until. destruct (it 0%nat); [apply run_until_sorted|constructor]. Qed.
End Iterator.

Lemma filter_sorted {A} (R : A -> A -> Prop) (f : A -> bool) l : StronglySorted R l -> StronglySorted R (List.filter f l).
Proof.
  induction 1 as [|a l _ IH Ha]; simpl; [constructor|]. destruct (f a); [|done]. constructor; [done|].
  apply Forall_forall. intros x [_ Hx]%elem_of_filter_b. by apply (proj1 (Forall_forall _ _) Ha).
Qed.
Lemma take_sorted {A} (R : A -> A -> Prop) n l : StronglySorted R l -> StronglySorted R (take n l).
Proof.
  intros H. revert n. induction H as [|a l _ IH Ha]; intros [|n]; simpl; try constructor; [done|].
  by apply Forall_take.
Qed.
Lemma apart_lt l : StronglySorted apart l -> StronglySorted Z.lt l.
Proof.
  induction 1 as [|a l _ IH Ha]; constructor; [done|]. eapply Forall_impl; [exact Ha|]. unfold apart, us_per_sec. lia.
Qed.
Lemma sorted_head_le (l : list time) t u : StronglySorted apart l -> head l = Some t -> u ∈ l -> u = t \/ apart t u.
Proof.
  intros [|a l' _ Ha]; [done|]. intros [= ->] [->|Hu]%elem_of_cons; [by left|]. right. by apply (proj1 (Forall_forall _ _) Ha).
Qed.
Lemma sorted_last_le (l : list time) t u : StronglySorted apart l -> last l = Some t -> u ∈ l -> u <= t.
Proof.
  induction 1 as [|a l Hl IH Ha]; [done|]. rewrite last_cons. intros Ht [->|Hu]%elem_of_cons.
  - destruct (last l) as [x|] eqn:Hx; [|injection Ht as ->; done]. injection Ht as ->.
    apply last_Some_elem_of in Hx. apply (proj1 (Forall_forall _ _) Ha) in Hx. unfold apart, us_per_sec in Hx. lia.
  - destruct (last l) as [x|] eqn:Hx; [by apply IH|]. apply last_None in Hx as ->. by apply elem_of_nil in Hu.
Qed.
(** What a cut of an ordered list leaves out comes after it. *)
Lemma sorted_take_rest (l : list time) n t u :
  StronglySorted apart l -> t ∈ take n l -> u ∈ l -> u ∉ take n l -> t < u.
Proof.
  intros H. revert n. induction H as [|a l _ IH Ha]; intros [|n]; simpl; try by intros ?%elem_of_nil.
  intros Ht Hu Hn. apply not_elem_of_cons in Hn as [Hna Hn]. apply elem_of_cons in Hu as [->|Hu]; [done|].
  apply elem_of_cons in Ht as [->|Ht]; [|by apply (IH n)].
  apply (proj1 (Forall_forall _ _) Ha) in Hu. unfold apart, us_per_sec in Hu. lia.
Qed.

(** * The fires that are due *)

Section Due.
  Context {Cron Tz : Type} (parse_cron : string -> option Cron) (parse_tz : string -> option Tz).
  Context (iter_from : Cron -> Tz -> time -> nat -> option time) (occurs : Cron -> Tz -> time -> Prop).
  (** croner's iterator: the occurrences at or after its start, each once and in
      order; an expression names whole seconds. *)
  Hypothesis iter_occurs : forall c z s t, (exists i, iter_from c z s i = Some t) <-> s <= t /\ occurs c z t.
  Hypothesis iter_increasing : forall c z s, increasing (iter_from c z s).

Definition due (c : Cron) (z : Tz) (start : time) (prev : option time) (now t : time) : Prop :=
  occurs c z t /\ start <= t <= now /\ is_after prev t = true.

Lemma due_elem c z start prev now t :
  t ∈ List.filter (is_after prev) (until (iter_from c z start) now) <-> due c z start prev now t.
Proof.
  rewrite elem_of_filter_b, until_elem by apply iter_increasing. rewrite iter_occurs. unfold due. naive_solver lia.
Qed.
Lemma due_sorted c z start prev now : StronglySorted apart (List.filter (is_after prev) (until (iter_from c z start) now)).
Proof. apply filter_sorted, until_sorted, iter_increasing. Qed.

Lemma first_due_fire_Some c z start prev now t :
  first_due_fire iter_from c z start prev now = Some t ->
  due c z start prev now t /\ forall u, due c z start prev now u -> u = t \/ apart t u.
Proof.
  intros H. unfold first_due_fire in H. split.
  - apply due_elem. destruct (List.filter _ _); [done|]. injection H as ->. constructor.
  - intros u Hu. eapply sorted_head_le; [apply due_sorted|exact H|by apply due_elem].
Qed.
Lemma first_due_fire_None c z start prev now u :
  first_due_fire iter_from c z start prev now = None -> ~ due c z start prev now u.
Proof.
  unfold first_due_fire. intros H Hu%due_elem. destruct (List.filter _ _); [by apply elem_of_nil in Hu|done].
Qed.

(** The latest of the fires that are due. *)
Definition latest c z start prev now t : Prop :=
  due c z start prev now t /\ forall u, due c z start prev now u -> u <= t.

Lemma is_after_mono prev t u : is_after prev t = true -> t <= u -> is_after prev u = true.
Proof. destruct prev; simpl; rewrite ?Z.ltb_lt; [lia|done]. Qed.

(** A window with a fire in it holds the latest one. *)
Lemma window_latest c z start prev now first ws t :
  first_due_fire iter_from c z start prev now = Some first -> first <= ws -> iter_from c z ws 0%nat = Some t -> t <= now ->
  exists u, latest_due_fire_in_window iter_from c z ws prev now = Some u /\ latest c z start prev now u.
Proof.
  intros [Hf Hfu]%first_due_fire_Some Hws Ht Hn. unfold latest_due_fire_in_window.
  assert (ws <= t /\ occurs c z t) as [Hwt Hot] by (apply iter_occurs; eauto).
  assert (due c z ws prev now t) as Hd.
  { split; [done|]. split; [lia|]. eapply is_after_mono; [apply Hf|]. lia. }
  destruct (last (List.filter (is_after prev) (until (iter_from c z ws) now))) as [u|] eqn:Hu.
  - exists u. split; [done|]. assert (due c z ws prev now u) as (Ho & Hr & Ha) by (apply due_elem, last_Some_elem_of, Hu).
    split; [split; [done|]; split; [|done]; destruct Hf as (_ & ? & _); lia|].
    intros v Hv. destruct (decide (v < ws)); [lia|]. eapply sorted_last_le; [apply due_sorted|exact Hu|].
    apply due_elem. destruct Hv as (? & ? & ?). split; [done|]. split; [lia|done].
  - apply last_None in Hu. apply due_elem in Hd. rewrite Hu in Hd. by apply elem_of_nil in Hd.
Qed.

(** A window without one, as long as the whole span: the first is the latest. *)
Lemma whole_latest c z start prev now first lookback :
  first_due_fire iter_from c z start prev now = Some first ->
  num_seconds (now - first) <= lookback ->
  (forall t, iter_from c z (Z.max (now - usec lookback) first) 0%nat = Some t -> now < t \/ is_after prev t = false) ->
  latest c z start prev now first.
Proof.
  intros [Hf Hfu]%first_due_fire_Some Hlb Hmiss. split; [done|]. intros u Hu.
  destruct (Hfu u Hu) as [->|Ha]; [done|]. exfalso. destruct Hf as (Hof & Hrf & Haf), Hu as (Hou & Hru & Hau).
  set (ws := Z.max (now - usec lookback) first) in *. assert (ws <= u) as Hwu.
  { unfold ws, usec, num_seconds, apart, us_per_sec in *. pose proof (Z.quot_rem' (now - first) 1000000).
    pose proof (Z.rem_bound_pos (now - first) 1000000). lia. }
  assert (exists i, iter_from c z ws i = Some u) as (i & Hi) by (apply iter_occurs; done).
  assert (exists t, iter_from c z ws 0%nat = Some t /\ t <= u) as (t & Ht & Htu).
  { destruct i as [|i]; [eauto with lia|]. destruct (it_before _ (iter_increasing c z ws) 0 (S i) u) as (t & Ht & Hta); [lia|done|].
    exists t. split; [done|]. unfold apart, us_per_sec in Hta. lia. }
  assert (ws <= t) by (apply (iter_occurs c z ws t); eauto).
  destruct (Hmiss t Ht) as [?|Hb]; [lia|]. rewrite (is_after_mono prev first t) in Hb; [done|done|lia].
Qed.

Lemma look_back_latest c z start prev now first fuel lookback :
  first_due_fire iter_from c z start prev now = Some first ->
  let total := Z.max (num_seconds (now - first)) 1 in
  total <= i64_max -> 1 <= lookback -> (0 < fuel)%nat -> total <= lookback * 2 ^ (Z.of_nat fuel - 1) ->
  exists t, look_back iter_from c z first prev now total fuel lookback = Some t /\ latest c z start prev now t.
Proof.
  intros Hfirst total Hmax. revert lookback. induction fuel as [|fuel IH]; intros lookback Hlb Hfuel Htot; [lia|].
  cbn [look_back]. cbv zeta. set (ws := Z.max (now - usec lookback) first).
  assert ((forall t, iter_from c z ws 0%nat = Some t -> now < t \/ is_after prev t = false) \/
          exists t, iter_from c z ws 0%nat = Some t /\ t <= now /\ is_after prev t = true) as [Hmiss|(t & Ht & Hn & Ha)].
  { destruct (iter_from c z ws 0%nat) as [t|]; [|by left]. destruct (Z.ltb_spec now t); [left; intros ? [= <-]; by left|].
    destruct (is_after prev t) eqn:?; [right; eauto|left; intros ? [= <-]; by right]. }
  - assert (match iter_from c z ws 0%nat with Some t => (t <=? now) && is_after prev t | None => false end = false) as ->.
    { destruct (iter_from c z ws 0%nat) as [t|]; [|done]. destruct (Hmiss t eq_refl) as [?|E];
        [by rewrite (proj2 (Z.leb_gt t now)) by lia|by rewrite E, andb_false_r]. }
    destruct (Z.leb_spec total lookback) as [Hdone|Hmore].
    + exists first. split; [done|]. eapply whole_latest; [done| |exact Hmiss]. lia.
    + destruct fuel as [|fuel]; [simpl in Htot; lia|].
      replace (Z.min (Z.min i64_max (lookback * 2)) total) with (Z.min (lookback * 2) total) by lia.
      apply IH; [lia|lia|]. destruct (Z.min_spec (lookback * 2) total) as [[_ ->]|[_ ->]].
      * assert (2 ^ (Z.of_nat (S (S fuel)) - 1) = 2 * 2 ^ (Z.of_nat (S fuel) - 1)) as E.
        { rewrite <- Z.pow_succ_r by lia. f_equal. lia. }
        assert (1 <= 2 ^ (Z.of_nat (S fuel) - 1)) by (assert (0 < 2 ^ (Z.of_nat (S fuel) - 1)) by (apply Z.pow_pos_nonneg; lia); lia).
        nia.
      * assert (0 < 2 ^ (Z.of_nat (S fuel) - 1)) by (apply Z.pow_pos_nonneg; lia). nia.
  - rewrite Ht. rewrite (proj2 (Z.leb_le t now) Hn), Ha. simpl.
    destruct (window_latest c z start prev now first ws t) as (u & -> & Hu); [done|lia|done|done|]. by exists u.
Qed.

Lemma latest_due_fire_finds c z start prev now :
  num_seconds (now - start) <= i64_max ->
  match latest_due_fire iter_from c z start prev now with
  | Some t => latest c z start prev now t
  | None => forall t, ~ due c z start prev now t
  end.
Proof.
  intros Hspan. unfold latest_due_fire. destruct (first_due_fire iter_from c z start prev now) as [first|] eqn:Hf.
  - destruct (look_back_latest c z start prev now first LOOK_BACK_FUEL 1) as (t & -> & Ht); [done| |lia|unfold LOOK_BACK_FUEL; lia| |done].
    + apply first_due_fire_Some in Hf as [(_ & Hr & _) _]. apply Z.max_lub; [|done].
      etrans; [|exact Hspan]. unfold num_seconds, us_per_sec. apply Z.quot_le_mono; lia.
    + apply first_due_fire_Some in Hf as [(_ & Hr & _) _]. change (2 ^ (Z.of_nat LOOK_BACK_FUEL - 1)) with (i64_max + 1).
      enough (num_seconds (now - first) <= i64_max) by (unfold i64_max in *; lia).
      etrans; [|exact Hspan]. unfold num_seconds, us_per_sec. apply Z.quot_le_mono; lia.
  - intros t. by apply first_due_fire_None.
Qed.
Lemma walk_finds c z start prev now :
  match latest_due_fire_in_window iter_from c z start prev now with
  | Some t => latest c z start prev now t
  | None => forall t, ~ due c z start prev now t
  end.
Proof.
  unfold latest_due_fire_in_window. destruct (last _) as [t|] eqn:Ht.
  - split; [apply due_elem, last_Some_elem_of, Ht|]. intros u Hu. eapply sorted_last_le; [apply due_sorted|exact Ht|by apply due_elem].
  - intros t Hd%due_elem. apply last_None in Ht. rewrite Ht in Hd. by apply elem_of_nil in Hd.
Qed.

(** The backward search of [latest_due_fire] is the walk through every fire
    since the last one: looking only at windows before [now] that double in
    length, it returns the same fire, and nothing exactly when none is due.  Its
    loop ends within the rounds a span of an [i64] of seconds allows. *)
Theorem latest_due_fire_is_walk c z start prev now :
  num_seconds (now - start) <= i64_max ->
  latest_due_fire iter_from c z start prev now = latest_due_fire_in_window iter_from c z start prev now.
Proof.
  intros Hspan. pose proof (latest_due_fire_finds c z start prev now Hspan) as Hf. pose proof (walk_finds c z start prev now) as Hw.
  destruct (latest_due_fire _ _ _ _ _ _) as [t|], (latest_due_fire_in_window _ _ _ _ _ _) as [u|]; try done.
  - destruct Hf as [Hdt Ht], Hw as [Hdu Hu]. f_equal. specialize (Ht u Hdu). specialize (Hu t Hdt). lia.
  - by destruct (Hw t (proj1 Hf)).
  - by destruct (Hf u (proj1 Hw)).
Qed.

(** The schedule of a row, when its columns parse. *)
Definition schedule_of (r : CronJobRow) : option (Cron * Tz * CronMissedFirePolicy) :=
  match parse_cron (cr_cron_expr r), parse_tz (cr_timezone r), policy_parse (cr_missed_fire_policy r) with
  | Some c, Some z, Ok p => Some (c, z, p)
  | _, _, _ => None
  end.
Definition catches_up (r : CronJobRow) (p : CronMissedFirePolicy) : bool :=
  bool_decide (is_Some (cr_last_enqueued_at r)) && bool_decide (p = CatchUp).

Lemma compute_due r now limit c z p :
  schedule_of r = Some (c, z, p) -> num_seconds (now - search_start r) <= i64_max ->
  StronglySorted apart (compute_fire_times parse_cron parse_tz iter_from r now limit)
  /\ forall t, t ∈ compute_fire_times parse_cron parse_tz iter_from r now limit -> due c z (search_start r) (cr_last_enqueued_at r) now t.
Proof.
  unfold schedule_of, compute_fire_times. destruct (parse_cron (cr_cron_expr r)), (parse_tz (cr_timezone r)), (policy_parse (cr_missed_fire_policy r)); try done.
  intros [= -> -> ->] Hspan. destruct (negb _).
  - pose proof (latest_due_fire_finds c z (search_start r) (cr_last_enqueued_at r) now Hspan) as Hf.
    destruct (latest_due_fire _ _ _ _ _ _) as [t|]; simpl; [|split; [constructor|by intros ? ?%elem_of_nil]].
    split; [by repeat constructor|]. intros ? ->%list_elem_of_singleton. apply Hf.
  - split; [apply take_sorted, due_sorted|]. intros t Ht%elem_of_take. apply due_elem.
    destruct Ht as (i & Ht & _). by apply list_elem_of_lookup_2 in Ht.
Qed.

(** What an evaluation enqueues for a row: only fires that are due, in order.
    A schedule that has fired before and catches up gets its earliest due fires,
    and misses one only when it comes after all of a full batch of [limit]; any
    other gets one fire, the latest, whenever one is due. *)
Theorem compute_fire_times_due r now limit c z p :
  schedule_of r = Some (c, z, p) -> num_seconds (now - search_start r) <= i64_max -> 1 <= limit ->
  let fires := compute_fire_times parse_cron parse_tz iter_from r now limit in
  let is_due := due c z (search_start r) (cr_last_enqueued_at r) now in
  StronglySorted Z.lt fires
  /\ (forall t, t ∈ fires -> is_due t)
  /\ (if catches_up r p
      then forall t, is_due t -> t ∉ fires -> Z.of_nat (length fires) = limit /\ forall f, f ∈ fires -> f < t
      else forall t, is_due t -> exists f, fires = [f] /\ t <= f).
Proof.
  intros Hs Hspan Hlim fires is_due. destruct (compute_due r now limit c z p Hs Hspan) as [Hsort Hdue].
  split; [by apply apart_lt|split; [done|]].
  clear Hsort Hdue. unfold fires, compute_fire_times, schedule_of, catches_up in *. clear fires.
  destruct (parse_cron (cr_cron_expr r)), (parse_tz (cr_timezone r)), (policy_parse (cr_missed_fire_policy r)); try done. injection Hs as -> -> ->.
  destruct (bool_decide (is_Some (cr_last_enqueued_at r)) && bool_decide (p = CatchUp)); cbn [negb].
  - rewrite Z.max_r by done. intros t Ht Hn. apply due_elem in Ht.
    set (l := List.filter _ _) in *. split.
    + destruct (decide (length l <= Z.to_nat limit)%nat) as [Hle|].
      { rewrite take_ge in Hn by done. done. }
      rewrite length_take. lia.
    + intros f Hf. eapply sorted_take_rest; [apply due_sorted|exact Hf|exact Ht|exact Hn].
  - intros t Ht. pose proof (latest_due_fire_finds c z (search_start r) (cr_last_enqueued_at r) now Hspan) as Hf.
    destruct (latest_due_fire _ _ _ _ _ _) as [f|]; [|by destruct (Hf t)]. exists f. split; [done|]. by apply Hf.
Qed.
End Due.

(** Whatever the iterator yields in order, fires come after the last one. *)
Section After.
  Context {Cron Tz : Type} (parse_cron : string -> option Cron) (parse_tz : string -> option Tz).
  Context (iter_from : Cron -> Tz -> time -> nat -> option time).

Lemma look_back_after c z first prev now total fuel lookback t :
  is_after prev first = true -> look_back iter_from c z first prev now total fuel lookback = Some t -> is_after prev t = true.
Proof.
  intros Hf. revert lookback. induction fuel as [|fuel IH]; intros lookback; [done|]. cbn [look_back]. cbv zeta.
  destruct (match iter_from _ _ _ _ with Some _ => _ | None => _ end).
  - destruct (latest_due_fire_in_window _ _ _ _ _ _) as [u|] eqn:Hu; intros [= <-]; [|done].
    by apply last_Some_elem_of, elem_of_filter_b in Hu as [? _].
  - destruct (total <=? lookback); [by intros [= <-]|apply IH].
Qed.
Lemma latest_due_fire_after c z start prev now t : latest_due_fire iter_from c z start prev now = Some t -> is_after prev t = true.
Proof.
  unfold latest_due_fire. destruct (first_due_fire _ _ _ _ _ _) as [first|] eqn:Hf; [|done]. apply look_back_after.
  by apply head_elem, elem_of_filter_b in Hf as [? _].
Qed.
Lemma compute_fire_times_after (Hinc : forall c z s, increasing (iter_from c z s)) r now limit :
  StronglySorted Z.lt (compute_fire_times parse_cron parse_tz iter_from r now limit)
  /\ forall t, t ∈ compute_fire_times parse_cron parse_tz iter_from r now limit -> is_after (cr_last_enqueued_at r) t = true.
Proof.
  unfold compute_fire_times.
  destruct (parse_cron (cr_cron_expr r)) as [c|], (parse_tz (cr_timezone r)) as [z|], (policy_parse (cr_missed_fire_policy r));
    try (split; [constructor|by intros ? ?%elem_of_nil]).
  destruct (negb _).
  - destruct (latest_due_fire _ _ _ _ _ _) as [t|] eqn:Ht; simpl; [|split; [constructor|by intros ? ?%elem_of_nil]].
    split; [by repeat constructor|]. intros ? ->%list_elem_of_singleton. by eapply latest_due_fire_after.
  - split; [apply apart_lt, take_sorted, filter_sorted, until_sorted, Hinc|]. intros t (i & Ht & _)%elem_of_take.
    apply list_elem_of_lookup_2, elem_of_filter_b in Ht as [? _]. done.
Qed.
End After.

(** * A schedule that fires every minute *)

Module CronDemo.
Definition minute : Z := usec 60.
(** The first whole minute at or after [s], and each one after it. *)
Definition minutely (_ _ : unit) (s : time) (i : nat) : option time := Some ((- (- s / minute) + Z.of_nat i) * minute).
Definition on_minute (_ _ : unit) (t : time) : Prop := t mod minute = 0.
Lemma minutely_occurs c z s t : (exists i, minutely c z s i = Some t) <-> s <= t /\ on_minute c z t.
Proof.
  unfold minutely, on_minute, minute, usec, us_per_sec. split.
  - intros (i & [= <-]). split; [|apply Z.mod_mul; done]. Z.div_mod_to_equations. lia.
  - intros [Hs Ht]. exists (Z.to_nat (t / (60 * 1000000) + - s / (60 * 1000000))). f_equal.
    Z.div_mod_to_equations. lia.
Qed.
Lemma minutely_increasing c z s : increasing (minutely c z s).
Proof.
  intros i t' [= <-]. eexists. split; [done|]. unfold apart, minute, usec, us_per_sec. lia.
Qed.
Definition any (_ : string) : option unit := Some tt.
Definition nightly : PeriodicJob :=
  mkPeriodic "report" "* * * * *" "UTC" "report_job" "default" (JObject []) 2 25 [] (JObject []) CatchUp.
(** Created at the epoch; fired last at the tenth minute. *)
Definition fired_row : CronJobRow := set_enqueued 0 (Some (10 * minute)) (new_cron_row 0 None nightly).

Lemma latest_due_fire_is_walk_witness :
  latest_due_fire minutely tt tt 0 (Some (5 * minute)) (60 * minute + 17) = Some (60 * minute).
Proof.
  rewrite (latest_due_fire_is_walk minutely on_minute minutely_occurs minutely_increasing) by (vm_compute; discriminate).
  vm_compute. reflexivity.
Defined.
Lemma compute_fire_times_due_witness :
  let fires := compute_fire_times any any minutely fired_row (15 * minute) 3 in
  fires = [11 * minute; 12 * minute; 13 * minute] /\ forall f, f ∈ fires -> f < 14 * minute.
Proof.
  split; [vm_compute; reflexivity|].
  destruct (compute_fire_times_due any any minutely on_minute minutely_occurs minutely_increasing fired_row (15 * minute) 3 tt tt CatchUp)
    as (_ & _ & H); [reflexivity|vm_compute; discriminate|lia|].
  apply (H (14 * minute)).
  - split; [reflexivity|]. split; [vm_compute; split; discriminate|reflexivity].
  - apply (bool_decide_unpack (_ ∉ _)). vm_compute. exact I.
Defined.
End CronDemo.
