(* ===== verification/Reconcile.v ===== *)
(** Owner-scoped reconciliation of periodic jobs
    (awa-model/src/cron_reconciliation.rs, the v045 migration, and the runtime
    evidence of awa-worker/src/client.rs and awa-model/src/admin.rs).

    Every client of an owner declares the complete set of its schedules.  While
    all live declarations agree on one manifest, its definitions are written;
    when they have agreed for the grace period, the owner's other schedules are
    retired.  Operators move, retire and restore schedules explicitly. *)

From S2P Require Import Prelude.
From S2P Require Import Error.
From S2P Require Import Json.
From S2P Require Import Job.
From S2P Require Import Canonical.
From S2P Require Import Cron.

(** * Declarations *)

Definition CRON_PROTOCOL_VERSION : Z := 1.
Record PeriodicReconciliation : Type := mkReconciliation { owner_id : string; revision : string; grace_ms : Z }.
Definition bytes_len (s : string) : Z := Z.of_nat (String.length s).
Definition validate (c : PeriodicReconciliation) : result AwaError unit :=
  if blank (owner_id c) || (200 <? bytes_len (owner_id c)) || contains_char nul (owner_id c)
     || blank (revision c) || (200 <? bytes_len (revision c)) || contains_char nul (revision c) || (grace_ms c <? 0)
  then Err (Validation "cron owner and revision must be non-empty, at most 200 bytes, without NUL; grace must be nonnegative")
  else Ok tt.
(** [grace] in milliseconds, a [u128]. *)
Definition authoritative (owner rev : string) (grace : Z) : result AwaError PeriodicReconciliation :=
  if i64_max <? grace then Err (Validation "cron grace period is too large")
  else let value := mkReconciliation owner rev grace in check? validate value; Ok value.

(** The derived [Serialize] and [Deserialize] of [PeriodicJob]. *)
Definition periodic_to_value (p : PeriodicJob) : json :=
  JObject [("args", pj_args p); ("cron_expr", JString (pj_cron_expr p)); ("kind", JString (pj_kind p));
           ("max_attempts", i64_number (pj_max_attempts p)); ("metadata", pj_metadata p);
           ("missed_fire_policy", JString (policy_as_str (pj_missed_fire_policy p))); ("name", JString (pj_name p));
           ("priority", i64_number (pj_priority p)); ("queue", JString (pj_queue p));
           ("tags", JArray (map JString (pj_tags p))); ("timezone", JString (pj_timezone p))].
Definition de_field {A} (k : string) (de : json -> result AwaError A) (v : json) : result AwaError A :=
  match get k v with Some x => de x | None => Err Serialization end.
Definition de_string (v : json) : result AwaError string := match v with JString s => Ok s | _ => Err Serialization end.
Definition de_i16 (v : json) : result AwaError Z :=
  match v with
  | JNumber (PosInt n) | JNumber (NegInt n) => if (- 2 ^ 15 <=? n) && (n <=? i16_max) then Ok n else Err Serialization
  | _ => Err Serialization
  end.
Definition de_policy (v : json) : result AwaError CronMissedFirePolicy :=
  match v with
  | JString s => if String.eqb s "coalesce" then Ok Coalesce else if String.eqb s "catch_up" then Ok CatchUp else Err Serialization
  | _ => Err Serialization
  end.
Definition periodic_from_value (v : json) : result AwaError PeriodicJob :=
  let? name := de_field "name" de_string v in
  let? cron_expr := de_field "cron_expr" de_string v in
  let? timezone := de_field "timezone" de_string v in
  let? kind := de_field "kind" de_string v in
  let? queue := de_field "queue" de_string v in
  let? args := de_field "args" Ok v in
  let? priority := de_field "priority" de_i16 v in
  let? max_attempts := de_field "max_attempts" de_i16 v in
  let? tags := de_field "tags" de_tags v in
  let? metadata := de_field "metadata" Ok v in
  let? policy := de_field "missed_fire_policy" de_policy v in
  Ok (mkPeriodic name cron_expr timezone kind queue args priority max_attempts tags metadata policy).
Fixpoint rmap {A B} (f : A -> result AwaError B) (l : list A) : result AwaError (list B) :=
  match l with
  | [] => Ok []
  | a :: l => let? b := f a in let? bs := rmap f l in Ok (b :: bs)
  end.
(** [from_value::<Vec<PeriodicJob>>], and what [jsonb_to_recordset] reads of a
    stored manifest. *)
Definition manifest_from_value (v : json) : result AwaError (list PeriodicJob) :=
  match v with JArray l => rmap periodic_from_value l | _ => Err Serialization end.

Definition by_name (a b : PeriodicJob) : Prop := String.leb (pj_name a) (pj_name b) = true.
#[export] Instance by_name_dec (a b : PeriodicJob) : Decision (by_name a b).
Proof. unfold by_name. apply _. Defined.
Fixpoint names_valid (seen : list string) (jobs : list PeriodicJob) : result AwaError unit :=
  match jobs with
  | [] => Ok tt
  | j :: jobs =>
      if blank (pj_name j) || (200 <? bytes_len (pj_name j)) || bool_decide (pj_name j ∈ seen)
      then Err (Validation ("cron schedule name must be non-empty, unique, and at most 200 bytes: " +:+ pj_name j))
      else names_valid (pj_name j :: seen) jobs
  end.
Record PeriodicManifest : Type := mkManifest { mf_value : json; mf_hash : string }.

Section Manifest.
  (** The hex BLAKE3 digest of [serde_json::to_vec]. *)
  Variable manifest_hash : json -> string.
(** Objects are kept sorted by key, so that [sort_all_objects] changes nothing. *)
Definition canonical_manifest (jobs : list PeriodicJob) : result AwaError PeriodicManifest :=
  let ordered := merge_sort by_name jobs in
  check? names_valid [] ordered;
  let value := JArray (map periodic_to_value ordered) in
  Ok (mkManifest value (manifest_hash value)).
End Manifest.

(** * The tables *)

Record OwnerAgreement : Type := mkAgreement {
  synced_hash : option string;
  agreed_hash : option string;
  agreed_since : option time;
  evidence_until : option time
}.
Definition no_agreement : OwnerAgreement := mkAgreement None None None None.
Record DeclarationRow : Type := mkDeclared {
  dr_owner_id : string;
  dr_revision : string;
  dr_desired_hash : string;
  dr_grace_ms : Z;
  dr_last_seen_at : time
}.
(** The columns of [runtime_instances] that are evidence here. *)
Record Runtime : Type := mkRuntimeRow {
  rt_last_seen_at : time;
  rt_snapshot_interval_ms : Z;
  rt_shutting_down : bool;
  rt_cron_protocol : option Z
}.
Record CronDb : Type := mkCronDb {
  cron_jobs : CronJobs;
  cron_owners : gmap string OwnerAgreement;
  cron_manifests : gmap (string * string) json;
  cron_declarations : gmap Z DeclarationRow;
  runtime_instances : gmap Z Runtime
}.
Definition set_jobs (j : CronJobs) (db : CronDb) : CronDb :=
  mkCronDb j (cron_owners db) (cron_manifests db) (cron_declarations db) (runtime_instances db).
Definition set_owners (o : gmap string OwnerAgreement) (db : CronDb) : CronDb :=
  mkCronDb (cron_jobs db) o (cron_manifests db) (cron_declarations db) (runtime_instances db).
Definition set_manifests (m : gmap (string * string) json) (db : CronDb) : CronDb :=
  mkCronDb (cron_jobs db) (cron_owners db) m (cron_declarations db) (runtime_instances db).
Definition set_declarations (d : gmap Z DeclarationRow) (db : CronDb) : CronDb :=
  mkCronDb (cron_jobs db) (cron_owners db) (cron_manifests db) d (runtime_instances db).
Definition set_runtimes (r : gmap Z Runtime) (db : CronDb) : CronDb :=
  mkCronDb (cron_jobs db) (cron_owners db) (cron_manifests db) (cron_declarations db) r.

(** The clocks of one transaction: [now()], and [clock_timestamp()] where the
    declaration is written, where it is evaluated and where rows are. *)
Record Clocks : Type := mkClocks { tx_now : time; seen_clock : time; eval_clock : time; write_clock : time }.

(** [INSERT INTO cron_owners ... ON CONFLICT DO NOTHING]. *)
Definition ensure_owner (owner : string) (db : CronDb) : CronDb :=
  match cron_owners db !! owner with
  | Some _ => db
  | None => set_owners (<[owner := no_agreement]> (cron_owners db)) db
  end.
(** [UPDATE cron_owners SET f WHERE owner_id = $1]. *)
Definition update_owner (owner : string) (f : OwnerAgreement -> OwnerAgreement) (db : CronDb) : CronDb :=
  set_owners (alter f owner (cron_owners db)) db.

(** * Evidence *)

(** [GREATEST(30.0, snapshot_interval_ms * 0.003)] seconds. *)
Definition evidence_ttl (rt : Runtime) : Z := Z.max (usec 30) (rt_snapshot_interval_ms rt * 3000).
Record CronDeclaration : Type := mkDeclaration {
  cd_instance_id : Z;
  cd_revision : string;
  cd_desired_hash : string;
  cd_grace_ms : Z;
  cd_expires_at : time
}.
Definition unsupported (now : time) (rt : Runtime) : bool :=
  (now <? rt_last_seen_at rt + evidence_ttl rt) && negb (bool_decide (rt_cron_protocol rt = Some CRON_PROTOCOL_VERSION)).
Definition blocking_of (now : time) (db : CronDb) : list Z :=
  merge_sort Z.le (map fst (List.filter (fun kv => unsupported now (snd kv)) (map_to_list (runtime_instances db)))).
(** The declarations of an owner joined with their runtimes, where still alive. *)
Definition live_declaration (owner : string) (now : time) (db : CronDb) (kv : Z * DeclarationRow) : option CronDeclaration :=
  let '(id, d) := kv in
  match runtime_instances db !! id with
  | None => None
  | Some rt =>
      let expires := Z.min (dr_last_seen_at d) (rt_last_seen_at rt) + evidence_ttl rt in
      if String.eqb (dr_owner_id d) owner && (now <? expires) && negb (rt_shutting_down rt)
      then Some (mkDeclaration id (dr_revision d) (dr_desired_hash d) (dr_grace_ms d) expires)
      else None
  end.
Definition instance_le (a b : CronDeclaration) : Prop := cd_instance_id a <= cd_instance_id b.
#[export] Instance instance_le_dec (a b : CronDeclaration) : Decision (instance_le a b).
Proof. unfold instance_le. apply _. Defined.
Definition declarations_of (owner : string) (now : time) (db : CronDb) : list CronDeclaration :=
  merge_sort instance_le (omap (live_declaration owner now db) (map_to_list (cron_declarations db))).

(** [upsert_runtime_snapshot] under the trigger [cron_unknown_runtime]. *)
Definition cron_unknown_runtime (rt : Runtime) (db : CronDb) : CronDb :=
  if bool_decide (rt_cron_protocol rt = Some CRON_PROTOCOL_VERSION) then db
  else set_owners (fmap (fun o => mkAgreement (synced_hash o) (agreed_hash o) None None) (cron_owners db)) db.
Definition write_runtime (id : Z) (rt : Runtime) (db : CronDb) : CronDb :=
  cron_unknown_runtime rt db |> (fun db => set_runtimes (<[id := rt]> (runtime_instances db)) db).
Definition upsert_runtime_snapshot (now : time) (id : Z) (interval_ms : Z) (shutting_down : bool) (db : CronDb) : CronDb :=
  write_runtime id (mkRuntimeRow now interval_ms shutting_down (Some CRON_PROTOCOL_VERSION)) db.
(** [max_age] in seconds; declarations go with their runtime. *)
Definition cleanup_runtime_snapshots (now : time) (max_age : Z) (db : CronDb) : CronDb :=
  let kept : gmap Z Runtime := filter (fun kv => ~ rt_last_seen_at (snd kv) < now - usec (Z.max max_age 1)) (runtime_instances db) in
  db |> set_runtimes kept
     |> set_declarations (filter (fun kv => is_Some (kept !! fst kv)) (cron_declarations db)).

(** * Plans *)

Record CronReconciliationPlan : Type := mkPlan {
  rp_owner_id : string;
  rp_desired_hash : option string;
  rp_declarations : list CronDeclaration;
  rp_blocking_instances : list Z;
  rp_blockers : list string;
  rp_additions : list string;
  rp_updates : list string;
  rp_retirements : list string;
  rp_conflicts : list string;
  rp_agreed_since : option time;
  rp_grace_remaining_ms : Z;
  rp_evaluated_at : time;
  rp_applied : bool
}.
Definition unowned_text : string := "<unowned>".
Definition conflict_description (r : CronJobRow) (owner : string) : string :=
  if negb (bool_decide (cr_owner_id r = Some owner))
  then cr_name r +:+ ": owned by " +:+ default unowned_text (cr_owner_id r) +:+ "; explicit adoption/transfer required"
  else cr_name r +:+ ": retired; explicit restore required".
Definition conflicting (owner : string) (r : CronJobRow) : bool :=
  negb (bool_decide (cr_owner_id r = Some owner)) || is_retired r.
Definition definition (r : CronJobRow) : result AwaError PeriodicJob :=
  let? policy := policy_parse (cr_missed_fire_policy r) in
  Ok (mkPeriodic (cr_name r) (cr_cron_expr r) (cr_timezone r) (cr_kind r) (cr_queue r) (cr_args r) (cr_priority r)
        (cr_max_attempts r) (cr_tags r) (cr_metadata r) policy).

(** What a manifest would change. *)
Record Changes : Type := mkChanges { ch_additions : list string; ch_updates : list string; ch_conflicts : list string; ch_retirements : list string }.
Fixpoint describe_jobs (owner : string) (rows : CronJobs) (jobs : list PeriodicJob) : result AwaError (list string * list string * list string) :=
  match jobs with
  | [] => Ok ([], [], [])
  | job :: jobs =>
      let? here :=
        match rows !! pj_name job with
        | None => Ok ([pj_name job], [], [])
        | Some r =>
            if conflicting owner r then Ok ([], [], [conflict_description r owner])
            else let? d := definition r in
                 Ok ([], if json_eqb (periodic_to_value d) (periodic_to_value job) then [] else [pj_name job], [])
        end in
      let? rest := describe_jobs owner rows jobs in
      let '(a, u, c) := here in let '(a', u', c') := rest in
      Ok (a ++ a', u ++ u', c ++ c')
  end.
Definition retired_by_manifest (owner : string) (jobs : list PeriodicJob) (r : CronJobRow) : bool :=
  bool_decide (cr_owner_id r = Some owner) && negb (is_retired r) && negb (bool_decide (cr_name r ∈ map pj_name jobs)).
Definition describe_changes (owner : string) (jobs : list PeriodicJob) (rows : CronJobs) : result AwaError Changes :=
  let? (parts, conflicts) := describe_jobs owner rows jobs in
  Ok (mkChanges (fst parts) (snd parts) conflicts
        (map cr_name (List.filter (retired_by_manifest owner jobs) (list_cron_jobs rows)))).

Definition ROW_NOT_FOUND : AwaError := Database SqlxRowNotFound.
Definition fetch_manifest (owner hash : string) (db : CronDb) : result AwaError json :=
  match cron_manifests db !! (owner, hash) with Some m => Ok m | None => Err ROW_NOT_FOUND end.

(** * Writing definitions *)

Section Reconcile.
  Context (jsonb_eqb : json -> json -> bool).

(** [INSERT ... ON CONFLICT(name) DO NOTHING], with the owner. *)
Definition add_definitions (now : time) (owner : string) (jobs : list PeriodicJob) (rows : CronJobs) : CronJobs :=
  foldl (fun rows j => match rows !! pj_name j with
                       | Some _ => rows
                       | None => <[pj_name j := new_cron_row now (Some owner) j]> rows
                       end) rows jobs.
(** [INSERT ... ON CONFLICT(name) DO UPDATE ... WHERE ...] of one definition. *)
Definition sync_definition (clk : Clocks) (owner : string) (j : PeriodicJob) (rows : CronJobs) : result AwaError CronJobs :=
  match rows !! pj_name j with
  | None => Ok (<[pj_name j := new_cron_row (tx_now clk) (Some owner) j]> rows)
  | Some _ =>
      let? (_, rows) :=
        update_cron jsonb_eqb (mkSession false (Some owner)) (pj_name j)
          (fun r => bool_decide (cr_owner_id r = Some owner) && negb (is_retired r)
                    && negb (same_definition jsonb_eqb r (set_definition (write_clock clk) j r)))
          (set_definition (write_clock clk) j) rows in
      Ok rows
  end.
Fixpoint sync_rows (clk : Clocks) (owner : string) (jobs : list PeriodicJob) (rows : CronJobs) : result AwaError CronJobs :=
  match jobs with
  | [] => Ok rows
  | j :: jobs => let? rows := sync_definition clk owner j rows in sync_rows clk owner jobs rows
  end.
Definition sync_definitions (clk : Clocks) (owner hash : string) (db : CronDb) : result AwaError CronDb :=
  let? manifest := fetch_manifest owner hash db in
  let? jobs := manifest_from_value manifest in
  let? rows := sync_rows clk owner jobs (cron_jobs db) in
  Ok (db |> set_jobs rows
         |> update_owner owner (fun o => mkAgreement (Some hash) (agreed_hash o) (agreed_since o) (evidence_until o))).

(** * The decision *)

(** The hash all live declarations share. *)
Definition consensus (ds : list CronDeclaration) : option string :=
  match remove_dups (map cd_desired_hash ds) with [h] => Some h | _ => None end.
Definition evidence_blockers (blocking : list Z) (ds : list CronDeclaration) : list string :=
  match blocking with [] => [] | _ => ["unsupported_runtime_protocol"] end
  ++ match ds with [] => ["zero_live_declarations"] | _ => [] end
  ++ (if (1 <? Z.of_nat (length (remove_dups (map cd_desired_hash ds)))) then ["mixed_desired_manifests"] else []).
(** The conflicts the heartbeat looks for, in name order. *)
Definition manifest_conflicts (owner hash : string) (db : CronDb) : result AwaError (list string) :=
  match cron_manifests db !! (owner, hash) with
  | None => Ok []
  | Some m =>
      let? jobs := manifest_from_value m in
      Ok (map (fun r => conflict_description r owner)
            (List.filter (fun r => bool_decide (cr_name r ∈ map pj_name jobs) && conflicting owner r) (list_cron_jobs (cron_jobs db))))
  end.
Definition found_changes (owner : string) (persist apply : bool) (state : option OwnerAgreement) (hash : option string) (db : CronDb)
    : result AwaError Changes :=
  match hash with
  | None => Ok (mkChanges [] [] [] [])
  | Some h =>
      if negb persist || apply
      then let? m := fetch_manifest owner h db in
           let? jobs := manifest_from_value m in
           describe_changes owner jobs (cron_jobs db)
      else if bool_decide ((state ≫= synced_hash) = Some h) then Ok (mkChanges [] [] [] [])
      else let? conflicts := manifest_conflicts owner h db in Ok (mkChanges [] [] conflicts [])
  end.
(** [agreed_since], carried over while the stored evidence still holds. *)
Definition since_of (state : OwnerAgreement) (hash : option string) (now : time) : time :=
  if bool_decide (agreed_hash state = hash) && match evidence_until state with Some t => now <? t | None => false end
  then default now (agreed_since state) else now.
Definition num_milliseconds (d : Z) : Z := Z.quot d 1000.
Definition max_grace (ds : list CronDeclaration) : Z := default 0 (max_of (map cd_grace_ms ds)).
Definition min_expiry (ds : list CronDeclaration) : option time :=
  match map cd_expires_at ds with [] => None | t :: l => Some (foldr Z.min t l) end.
(** [saturating_sub] of [i64]s, then [max(0)]. *)
Definition grace_left (grace now since : Z) : Z := Z.max 0 (Z.min i64_max (grace - num_milliseconds (now - since))).

Fixpoint join_text (sep : string) (l : list string) : string :=
  match l with [] => EmptyString | [x] => x | x :: l => x +:+ sep +:+ join_text sep l end.
Definition text_le (a b : string) : Prop := String.leb a b = true.
#[export] Instance text_le_dec (a b : string) : Decision (text_le a b).
Proof. unfold text_le. apply _. Defined.
Definition revisions (ds : list CronDeclaration) : string := join_text ", " (merge_sort text_le (remove_dups (map cd_revision ds))).

(** The owner's row when nothing but the grace period stands in the way. *)
Definition persist_agreement (clk : Clocks) (owner : string) (hash : option string) (since : time) (until : option time)
    (synced : option string) (db : CronDb) : result AwaError CronDb :=
  let? db := match hash with
             | Some h => if bool_decide (synced = hash) then Ok db else sync_definitions clk owner h db
             | None => Ok db
             end in
  Ok (update_owner owner (fun o => mkAgreement (synced_hash o) hash (Some since) until) db).
Definition retire_all (now : time) (owner : string) (revs : string) (names : list string) (db : CronDb) : result AwaError CronDb :=
  let? rows := update_crons jsonb_eqb (mkSession true None) names
                 (fun r => bool_decide (cr_owner_id r = Some owner) && negb (is_retired r))
                 (set_retired now (Some now) (Some owner) (Some revs)) (cron_jobs db) in
  Ok (set_jobs rows db).

Definition evaluate_locked (clk : Clocks) (owner : string) (persist apply : bool) (db : CronDb)
    : result AwaError (CronReconciliationPlan * CronDb) :=
  let now := eval_clock clk in
  let state := cron_owners db !! owner in
  let blocking := blocking_of now db in
  let ds := declarations_of owner now db in
  let hash := consensus ds in
  let? ch := found_changes owner persist apply state hash db in
  let blockers := evidence_blockers blocking ds
                  ++ match ch_conflicts ch with [] => [] | _ => ["ownership_or_retirement_conflict"] end in
  match blockers with
  | [] =>
      let old := default no_agreement state in
      let since := since_of old hash now in
      let left := grace_left (max_grace ds) now since in
      let? db := if persist then persist_agreement clk owner hash since (min_expiry ds) (synced_hash old) db else Ok db in
      let? db := if apply && (left =? 0) then retire_all now owner (revisions ds) (ch_retirements ch) db else Ok db in
      Ok (mkPlan owner hash ds blocking (if 0 <? left then ["grace_period"] else []) (ch_additions ch) (ch_updates ch)
            (ch_retirements ch) (ch_conflicts ch) (Some since) left now (apply && (left =? 0)), db)
  | _ =>
      let db := if persist then update_owner owner (fun o => mkAgreement (synced_hash o) None None None) db else db in
      Ok (mkPlan owner hash ds blocking blockers (ch_additions ch) (ch_updates ch)
            (ch_retirements ch) (ch_conflicts ch) None 0 now false, db)
  end.

(** [reconcile] applies; [plan] only reads. *)
Definition reconcile (clk : Clocks) (owner : string) (db : CronDb) : result AwaError (CronReconciliationPlan * CronDb) :=
  evaluate_locked clk owner true true db.
Definition plan (clk : Clocks) (owner : string) (db : CronDb) : result AwaError CronReconciliationPlan :=
  let? (p, _) := evaluate_locked clk owner false false db in Ok p.

(** * Publication *)

Definition FOREIGN_KEY : AwaError := Database (SqlxDatabase (Some "23503") None).
Definition publish (clk : Clocks) (instance : Z) (config : PeriodicReconciliation) (prepared : PeriodicManifest) (db : CronDb)
    : result AwaError CronDb :=
  check? validate config;
  let owner := owner_id config in
  let hash := mf_hash prepared in
  let db := ensure_owner owner db in
  let known := bool_decide (is_Some (cron_manifests db !! (owner, hash))) in
  let? db := if known then Ok db
             else if contains_nul (mf_value prepared) then Err UNTRANSLATABLE
             else Ok (set_manifests (<[(owner, hash) := mf_value prepared]> (cron_manifests db)) db) in
  let? db := match runtime_instances db !! instance with
             | None => Err FOREIGN_KEY
             | Some _ => Ok (set_declarations (<[instance := mkDeclared owner (revision config) hash (grace_ms config) (seen_clock clk)]>
                                                 (cron_declarations db)) db)
             end in
  let? db := if known then Ok db
             else let? jobs := manifest_from_value (mf_value prepared) in
                  Ok (set_jobs (add_definitions (tx_now clk) owner jobs (cron_jobs db)) db) in
  let? (_, db) := evaluate_locked clk owner true false db in
  Ok db.
Definition check_registration (config : PeriodicReconciliation) (jobs : list PeriodicJob) (db : CronDb) : result AwaError unit :=
  let conflicts :=
    List.filter (fun r => bool_decide (cr_name r ∈ map pj_name jobs) && negb (bool_decide (cr_owner_id r = Some (owner_id config))))
      (list_cron_jobs (cron_jobs db)) in
  match conflicts with
  | [] => Ok tt
  | _ => Err (Validation ("cron schedules " +:+ join_text ", " (map cr_name conflicts)
                          +:+ " are owned by another manager; explicit adoption/transfer required"))
  end.
(** [publish_evidence_checked] (client.rs), of a client with or without a
    reconciliation; the [jobs] it registered are those of its manifest. *)
Definition publish_evidence_checked (clk : Clocks) (instance interval_ms : Z) (shutting_down : bool)
    (config : option (PeriodicReconciliation * PeriodicManifest * list PeriodicJob)) (check : bool) (db : CronDb)
    : result AwaError CronDb :=
  let db := upsert_runtime_snapshot (tx_now clk) instance interval_ms shutting_down db in
  match config with
  | None => Ok db
  | Some (c, m, jobs) =>
      let? db := publish clk instance c m db in
      if check then check? check_registration c jobs db; Ok db else Ok db
  end.

(** * Previews *)

Section Preview.
  Variable manifest_hash : json -> string.
Definition preview (clk : Clocks) (owner : string) (jobs : list PeriodicJob) (db : CronDb) : result AwaError CronReconciliationPlan :=
  let? _ := authoritative owner "preview" 0 in
  let? m := canonical_manifest manifest_hash jobs in
  let? (p, _) := evaluate_locked clk owner false false db in
  let? ch := describe_changes owner jobs (cron_jobs db) in
  let blockers := rp_blockers p ++ (if bool_decide (rp_desired_hash p = Some (mf_hash m)) then [] else ["manifest_not_published"]) in
  let conflict := "ownership_or_retirement_conflict" in
  let blockers := match ch_conflicts ch with
                  | [] => blockers
                  | _ => if bool_decide (conflict ∈ blockers) then blockers else blockers ++ [conflict]
                  end in
  Ok (mkPlan (rp_owner_id p) (Some (mf_hash m)) (rp_declarations p) (rp_blocking_instances p) blockers (ch_additions ch)
        (ch_updates ch) (ch_retirements ch) (ch_conflicts ch) (rp_agreed_since p) (rp_grace_remaining_ms p) (rp_evaluated_at p)
        (rp_applied p)).
End Preview.

(** * Operator actions *)

Inductive CronOwnerAction : Type :=
  | Adopt (name : string) (owner_id : string) (expected_owner : option string)
  | Retire (name : string)
  | RetireOwner (owner_id : string)
  | Restore (name : string)
  | RestoreOwner (owner_id : string).
Record CronActionPlan : Type := mkActionPlan { ap_action : CronOwnerAction; ap_schedules : list string; ap_applied : bool }.

Definition action_name (a : CronOwnerAction) : option string :=
  match a with Adopt n _ _ | Retire n | Restore n => Some n | RetireOwner _ | RestoreOwner _ => None end.
Definition selects (a : CronOwnerAction) (r : CronJobRow) : bool :=
  match a with
  | Adopt n _ _ | Retire n | Restore n => String.eqb (cr_name r) n
  | RetireOwner o => bool_decide (cr_owner_id r = Some o) && negb (is_retired r)
  | RestoreOwner o => bool_decide (cr_owner_id r = Some o) && is_retired r
  end.
Definition selected (a : CronOwnerAction) (db : CronDb) : list CronJobRow := List.filter (selects a) (list_cron_jobs (cron_jobs db)).
Definition admin_session : Session := mkSession true None.
Definition apply_action (clk : Clocks) (a : CronOwnerAction) (actor : string) (names : list string) (db : CronDb) : result AwaError CronDb :=
  match a with
  | Adopt _ owner _ =>
      let db := ensure_owner owner db in
      let? rows := update_crons jsonb_eqb admin_session names (fun _ => true) (set_owner (write_clock clk) (Some owner)) (cron_jobs db) in
      Ok (set_jobs rows db)
  | Restore _ | RestoreOwner _ =>
      let? rows := update_crons jsonb_eqb admin_session names is_retired
                     (fun r => set_enqueued (write_clock clk) (Some (write_clock clk)) (set_retired (write_clock clk) None None None r))
                     (cron_jobs db) in
      Ok (set_jobs rows db)
  | Retire _ | RetireOwner _ =>
      let? rows := update_crons jsonb_eqb admin_session names (fun r => negb (is_retired r))
                     (set_retired (write_clock clk) (Some (write_clock clk)) (Some actor) (Some "operator")) (cron_jobs db) in
      Ok (set_jobs rows db)
  end.
Definition affected (a : CronOwnerAction) (rows : list CronJobRow) : list string :=
  omap cr_owner_id rows ++ match a with Adopt _ owner _ => [owner] | _ => [] end.
Definition invalidate (owners : list string) (db : CronDb) : CronDb :=
  foldl (fun db o => update_owner o (fun _ => no_agreement) db) db owners.
(** [{:?}] of an owner; escapes are not modelled. *)
Definition debug_owner (o : option string) : string :=
  match o with
  | None => "None"
  | Some s => "Some(" +:+ String "034"%char (s +:+ String "034"%char ")")
  end.
Definition adoptable (a : CronOwnerAction) (rows : list CronJobRow) : result AwaError unit :=
  match a with
  | Adopt _ owner expected =>
      let? _ := authoritative owner "operator" 0 in
      let found := default None (head (map cr_owner_id rows)) in
      if bool_decide (found = expected) then Ok tt
      else Err (Validation ("cron ownership conflict: expected " +:+ debug_owner expected +:+ ", found " +:+ debug_owner found))
  | _ => Ok tt
  end.
Definition operate (clk : Clocks) (a : CronOwnerAction) (actor : string) (apply : bool) (db : CronDb)
    : result AwaError (CronActionPlan * CronDb) :=
  if blank actor then Err (Validation "cron operator actor must be non-empty")
  else
    let rows := selected a db in
    if bool_decide (map cr_name rows = []) && bool_decide (is_Some (action_name a)) then Err (Validation "cron schedule not found")
    else
      check? adoptable a rows;
      let? db := if apply
                 then let? db := apply_action clk a actor (map cr_name rows) db in Ok (invalidate (affected a rows) db)
                 else Ok db in
      Ok (mkActionPlan a (map cr_name rows) apply, db).

(** [sync_periodic_jobs_to_db] (maintenance.rs): every owner, then the
    additive registrations; what fails is logged. *)
Definition sync_owner (clk : Clocks) (db : CronDb) (owner : string) : CronDb :=
  match reconcile clk owner db with Ok (_, db) => db | Err _ => db end.
Definition sync_job (clk : Clocks) (db : CronDb) (p : PeriodicJob) : CronDb :=
  match upsert_cron_job jsonb_eqb (tx_now clk) p (cron_jobs db) with Ok rows => set_jobs rows db | Err _ => db end.
Definition sync_periodic_jobs_to_db (clk : Clocks) (periodic_jobs : list PeriodicJob) (db : CronDb) : CronDb :=
  let owners := merge_sort text_le (map fst (map_to_list (cron_owners db))) in
  foldl (sync_job clk) (foldl (sync_owner clk) db owners) periodic_jobs.
End Reconcile.
