(* ===== verification/ReconcileFacts.v ===== *)
(** Facts about schedules and their reconciliation: what a manifest encodes, and
    what each statement does to the rows. *)

From S2P Require Import Prelude.
From S2P Require Import Error.
From S2P Require Import Json.
From S2P Require Import Job.
From S2P Require Import Canonical.
From S2P Require Import Cron.
From S2P Require Import Reconcile.

(** * Manifests *)

(** The [i16] fields are in range. *)
Definition i16 (n : Z) : Prop := - 2 ^ 15 <= n <= i16_max.
Definition i16_job (p : PeriodicJob) : Prop := i16 (pj_priority p) /\ i16 (pj_max_attempts p).

Lemma de_i16_number n : i16 n -> de_i16 (i64_number n) = Ok n.
Proof.
  intros [H1 H2]. unfold de_i16, i64_number. destruct (n <? 0);
    rewrite (proj2 (Z.leb_le _ _) H1), (proj2 (Z.leb_le _ _) H2); done.
Qed.
Lemma periodic_decodes p : i16_job p -> periodic_from_value (periodic_to_value p) = Ok p.
Proof.
  intros [H1 H2]. unfold periodic_from_value, de_field. cbn -[de_i16 i64_number de_policy].
  rewrite !de_i16_number by done. cbn -[de_policy]. rewrite strings_of_map. by destruct p as [? ? ? ? ? ? ? ? ? ? []].
Qed.
Lemma manifest_decodes jobs : Forall i16_job jobs -> manifest_from_value (JArray (map periodic_to_value jobs)) = Ok jobs.
Proof. induction 1 as [|p jobs Hp _ IH]; [done|]. simpl in *. by rewrite periodic_decodes, IH. Qed.

Lemma names_valid_ok seen jobs :
  names_valid seen jobs = Ok tt -> NoDup (map pj_name jobs) /\ forall j, j ∈ jobs -> pj_name j ∉ seen.
Proof.
  revert seen. induction jobs as [|j jobs IH]; intros seen; simpl; [intros _; split; [constructor|by intros ? ?%elem_of_nil]|].
  destruct (blank _ || _) eqn:E; [done|]. simpl. case_bool_decide as Hs; [done|].
  intros [Hn Hd]%IH. split.
  - constructor; [|done]. intros (k & Hk & Hin)%list_elem_of_fmap. apply (Hd k Hin). rewrite <- Hk. constructor.
  - intros k [->|Hk]%elem_of_cons; [done|]. intros Hin. apply (Hd k Hk). by constructor.
Qed.
Lemma names_valid_names seen jobs jobs' :
  map pj_name jobs = map pj_name jobs' -> names_valid seen jobs = names_valid seen jobs'.
Proof.
  revert seen jobs'. induction jobs as [|j jobs IH]; intros seen [|j' jobs'] H; try done.
  injection H as E H. simpl. rewrite E. destruct (_ || _); [done|]. by apply IH.
Qed.

#[export] Instance leb_total : Total text_le.
Proof.
  intros a b. unfold text_le, String.leb. rewrite (String.compare_antisym a b). by destruct (String.compare b a); simpl; auto.
Qed.
Lemma compare_cons x y a b :
  String.compare (String x a) (String y b) = match Ascii.compare x y with Eq => String.compare a b | c => c end.
Proof. simpl. by destruct (Ascii.compare x y). Qed.
#[export] Instance leb_trans : Transitive text_le.
Proof.
  unfold text_le, String.leb. intros a. induction a as [|x a IH]; intros [|y b] [|z c]; try done.
  rewrite !compare_cons. unfold Ascii.compare.
  destruct (N.compare_spec (N_of_ascii x) (N_of_ascii y)) as [E|E|E], (N.compare_spec (N_of_ascii y) (N_of_ascii z)) as [F|F|F];
    try done; destruct (N.compare_spec (N_of_ascii x) (N_of_ascii z)) as [G|G|G]; try done; try lia.
  apply IH.
Qed.
#[export] Instance leb_anti : AntiSymm (=) text_le.
Proof.
  intros a b. unfold text_le, String.leb. rewrite (String.compare_antisym b a).
  destruct (String.compare a b) eqn:E; simpl; try done. intros _ _. by apply String.compare_eq_iff.
Qed.
Lemma sorted_names l : Sorted by_name l -> Sorted text_le (map pj_name l).
Proof.
  induction 1 as [|j l _ IH Hd]; simpl; constructor; [done|]. by destruct Hd; constructor.
Qed.
#[export] Instance by_name_total : Total by_name.
Proof. intros a b. apply leb_total. Qed.
#[export] Instance by_name_trans : Transitive by_name.
Proof. intros a b c. apply leb_trans. Qed.
Lemma sorted_names_perm jobs jobs' :
  jobs ≡ₚ jobs' -> map pj_name (merge_sort by_name jobs) = map pj_name (merge_sort by_name jobs').
Proof.
  intros H. apply (StronglySorted_unique text_le).
  - apply Sorted_StronglySorted; [apply _|]. apply sorted_names, Sorted_merge_sort. apply _.
  - apply Sorted_StronglySorted; [apply _|]. apply sorted_names, Sorted_merge_sort. apply _.
  - by rewrite !merge_sort_Permutation, H.
Qed.
(** Lists with the same members and, in order, the same unique names. *)
Lemma same_by_names (l l' : list PeriodicJob) : map pj_name l = map pj_name l' -> NoDup (map pj_name l) -> l ≡ₚ l' -> l = l'.
Proof.
  intros Hm Hn Hp. apply list_eq. intros i. destruct (l !! i) as [j|] eqn:Hj.
  - assert (exists j', l' !! i = Some j' /\ pj_name j' = pj_name j) as (j' & Hj' & E).
    { assert (map pj_name l' !! i = Some (pj_name j)) as H by (rewrite <- Hm; by apply list_lookup_fmap_Some_2 || rewrite list_lookup_fmap, Hj).
      apply list_lookup_fmap_Some in H as (j' & ? & ?). by exists j'. }
    rewrite Hj'. f_equal. apply (NoDup_map_inj pj_name l); [done|by apply list_elem_of_lookup_2 in Hj| |done].
    rewrite Hp. by apply list_elem_of_lookup_2 in Hj'.
  - symmetry. apply lookup_ge_None in Hj. apply lookup_ge_None. by rewrite <- (Permutation_length Hp).
Qed.

Section ManifestFacts.
  Variable manifest_hash : json -> string.
Lemma manifest_parts jobs m :
  canonical_manifest manifest_hash jobs = Ok m ->
  names_valid [] (merge_sort by_name jobs) = Ok tt /\ mf_value m = JArray (map periodic_to_value (merge_sort by_name jobs))
  /\ mf_hash m = manifest_hash (mf_value m).
Proof. unfold canonical_manifest. intros ([] & H & [= <-])%rbind_Ok. done. Qed.
Lemma manifest_reads jobs m :
  canonical_manifest manifest_hash jobs = Ok m -> Forall i16_job jobs ->
  manifest_from_value (mf_value m) = Ok (merge_sort by_name jobs) /\ NoDup (map pj_name (merge_sort by_name jobs)).
Proof.
  intros (Hv & -> & _)%manifest_parts Hi. split; [|by apply names_valid_ok in Hv as [? _]].
  apply manifest_decodes. by rewrite merge_sort_Permutation.
Qed.
Lemma canonical_perm jobs jobs' :
  jobs ≡ₚ jobs' -> canonical_manifest manifest_hash jobs = canonical_manifest manifest_hash jobs'.
Proof.
  intros Hp. unfold canonical_manifest. pose proof (sorted_names_perm jobs jobs' Hp) as Hn.
  rewrite (names_valid_names [] _ _ Hn). destruct (names_valid [] (merge_sort by_name jobs')) as [[]|e] eqn:Hv; [|done].
  simpl. rewrite (same_by_names (merge_sort by_name jobs) (merge_sort by_name jobs')); [done|done| |by rewrite !merge_sort_Permutation].
  rewrite Hn. by apply names_valid_ok in Hv as [? _].
Qed.

(** What a client publishes is the set of its schedules: the manifest
    decodes to exactly the registered definitions, in name order, and neither
    its text nor its hash depends on the order of registration, so that the
    clients of one release always agree. *)
Theorem manifest_roundtrip jobs m :
  canonical_manifest manifest_hash jobs = Ok m -> Forall i16_job jobs ->
  (exists ordered, manifest_from_value (mf_value m) = Ok ordered /\ ordered ≡ₚ jobs /\ NoDup (map pj_name ordered))
  /\ forall jobs', jobs' ≡ₚ jobs -> canonical_manifest manifest_hash jobs' = Ok m.
Proof.
  intros Hm Hi. split; [|intros jobs' Hp; by rewrite (canonical_perm jobs' jobs)].
  exists (merge_sort by_name jobs). destruct (manifest_reads jobs m Hm Hi). split; [done|]. split; [apply merge_sort_Permutation|done].
Qed.
End ManifestFacts.

(** * Rows *)

(** Rows are under their names. *)
Definition keyed (rows : CronJobs) : Prop := forall n r, rows !! n = Some r -> cr_name r = n.
Definition active_of (o : string) (r : CronJobRow) : Prop := cr_owner_id r = Some o /\ cr_retired_at r = None.

Lemma is_retired_spec r : is_retired r = false <-> cr_retired_at r = None.
Proof. unfold is_retired. rewrite bool_decide_eq_false, <- eq_None_not_Some. done. Qed.
Lemma conflicting_spec o r : conflicting o r = false <-> active_of o r.
Proof.
  unfold conflicting, active_of. rewrite orb_false_iff, is_retired_spec, negb_false_iff, bool_decide_eq_true. done.
Qed.
Lemma list_cron_jobs_elem rows r : r ∈ list_cron_jobs rows <-> exists n, rows !! n = Some r.
Proof.
  unfold list_cron_jobs. rewrite merge_sort_Permutation, list_elem_of_fmap. split.
  - intros ([n r'] & -> & H%elem_of_map_to_list). by exists n.
  - intros (n & H). exists (n, r). split; [done|]. by apply elem_of_map_to_list.
Qed.
Lemma list_cron_jobs_names rows : keyed rows -> NoDup (map cr_name (list_cron_jobs rows)).
Proof.
  intros Hk. unfold list_cron_jobs. rewrite merge_sort_Permutation.
  assert (map cr_name (map snd (map_to_list rows)) = map fst (map_to_list rows)) as ->.
  { rewrite map_map. apply map_ext_in. intros [n r] H. apply list_elem_of_In, elem_of_map_to_list in H. by apply Hk. }
  apply NoDup_fst_map_to_list.
Qed.
Lemma filter_names_NoDup f rows : keyed rows -> NoDup (map cr_name (List.filter f (list_cron_jobs rows))).
Proof. intros Hk. by apply NoDup_map_filter, list_cron_jobs_names. Qed.
Lemma keyed_insert rows n r : keyed rows -> cr_name r = n -> keyed (<[n := r]> rows).
Proof. intros Hk Hn m r'. rewrite lookup_insert_Some. intros [[<- <-]|[_ H]]; [done|by apply Hk]. Qed.

Section Rows.
  Context (jsonb_eqb : json -> json -> bool).

Lemma fence_keeps s r r' w : fence_update jsonb_eqb s r r' = Ok w -> w = None \/ w = Some r'.
Proof. unfold fence_update. repeat case_match; intros [= <-]; auto. Qed.
(** An UPDATE writes what it says, or nothing. *)
Lemma update_cron_cases s n guard f rows w rows' :
  update_cron jsonb_eqb s n guard f rows = Ok (w, rows') ->
  (w = None /\ rows' = rows)
  \/ exists r, rows !! n = Some r /\ guard r = true /\ fence_update jsonb_eqb s r (f r) = Ok (Some (f r))
               /\ w = Some (f r) /\ rows' = <[n := f r]> rows.
Proof.
  unfold update_cron. destruct (rows !! n) as [r|] eqn:Hr; [|intros [= <- <-]; auto].
  destruct (guard r) eqn:Hg; [|intros [= <- <-]; auto]. intros (v & Hv & H)%rbind_Ok.
  destruct (fence_keeps s r (f r) v Hv) as [-> | ->]; injection H as <- <-; [auto|]. right. by exists r.
Qed.
Lemma update_cron_keyed s n guard f rows w rows' :
  (forall r, cr_name (f r) = cr_name r) -> update_cron jsonb_eqb s n guard f rows = Ok (w, rows') -> keyed rows -> keyed rows'.
Proof.
  intros Hf H Hk. apply update_cron_cases in H as [[_ ->]|(r & Hr & _ & _ & _ & ->)]; [done|].
  apply keyed_insert; [done|]. rewrite Hf. by apply Hk.
Qed.
(** An operator's UPDATE of several rows. *)
Lemma update_crons_admin s names guard f rows :
  cron_admin s = true -> NoDup names ->
  exists rows', update_crons jsonb_eqb s names guard f rows = Ok rows' /\
    forall n, rows' !! n = if decide (n ∈ names) then (fun r => if guard r then f r else r) <$> rows !! n else rows !! n.
Proof.
  intros Hs Hn. revert rows. induction Hn as [|a names Ha Hn IH]; intros rows; simpl; [by exists rows|].
  assert (exists w rows1, update_cron jsonb_eqb s a guard f rows = Ok (w, rows1) /\
    (forall n, rows1 !! n = if decide (n = a) then (fun r => if guard r then f r else r) <$> rows !! n else rows !! n)) as (w & rows1 & -> & H1).
  { unfold update_cron, fence_update. rewrite Hs. destruct (rows !! a) as [r|] eqn:Hr; [destruct (guard r) eqn:Hg|].
    - eexists _, _. split; [done|]. intros n. destruct (decide (n = a)) as [->|].
      + by rewrite lookup_insert_eq, Hr; simpl; rewrite Hg.
      + by rewrite lookup_insert_ne.
    - eexists _, _. split; [done|]. intros n. destruct (decide (n = a)) as [->|]; [|done]. by rewrite Hr; simpl; rewrite Hg.
    - eexists _, _. split; [done|]. intros n. destruct (decide (n = a)) as [->|]; [|done]. by rewrite Hr. }
  simpl. destruct (IH rows1) as (rows' & -> & H'). exists rows'. split; [done|]. intros n. rewrite H', H1.
  destruct (decide (n = a)) as [->|].
  - rewrite (decide_False (P := a ∈ names)), (decide_True (P := a ∈ a :: names)) by (done || constructor). done.
  - destruct (decide (n ∈ names)) as [Hi|Hi].
    + by rewrite decide_True by (by constructor).
    + rewrite decide_False; [done|]. by intros [?|?]%elem_of_cons.
Qed.

(** * Definitions *)

  Hypothesis jsonb_refl : forall v, jsonb_eqb v v = true.

(** The row carries the definition, as far as the database tells. *)
Definition agrees (j : PeriodicJob) (r : CronJobRow) : Prop := same_definition jsonb_eqb r (set_definition 0 j r) = true.
(** The owner's schedules of a manifest: active, and as it defines them. *)
Definition held (o : string) (jobs : list PeriodicJob) (rows : CronJobs) : Prop :=
  forall j, j ∈ jobs -> exists r, rows !! pj_name j = Some r /\ active_of o r /\ agrees j r.

Lemma same_definition_refl r r' :
  cr_cron_expr r = cr_cron_expr r' -> cr_timezone r = cr_timezone r' -> cr_kind r = cr_kind r' -> cr_queue r = cr_queue r' ->
  cr_args r = cr_args r' -> cr_priority r = cr_priority r' -> cr_max_attempts r = cr_max_attempts r' -> cr_tags r = cr_tags r' ->
  cr_metadata r = cr_metadata r' -> cr_missed_fire_policy r = cr_missed_fire_policy r' -> same_definition jsonb_eqb r r' = true.
Proof.
  unfold same_definition. intros -> -> -> -> -> -> -> -> -> ->. by rewrite !String.eqb_refl, !jsonb_refl, !Z.eqb_refl, bool_decide_true.
Qed.
Lemma agrees_new now o j : agrees j (new_cron_row now o j).
Proof. by apply same_definition_refl. Qed.
Lemma agrees_set now j r : agrees j (set_definition now j r).
Proof. by apply same_definition_refl. Qed.

(** What synchronizing one definition leaves under its name. *)
Definition synced (clk : Clocks) (o : string) (j : PeriodicJob) (old : option CronJobRow) : CronJobRow :=
  match old with
  | None => new_cron_row (tx_now clk) (Some o) j
  | Some r => if negb (conflicting o r) && negb (same_definition jsonb_eqb r (set_definition (write_clock clk) j r))
              then set_definition (write_clock clk) j r else r
  end.
Lemma sync_definition_lookup clk o j rows :
  sync_definition jsonb_eqb clk o j rows = Ok (<[pj_name j := synced clk o j (rows !! pj_name j)]> rows).
Proof.
  unfold sync_definition, synced. destruct (rows !! pj_name j) as [r|] eqn:Hr; [|done]. unfold update_cron. rewrite Hr.
  unfold conflicting. rewrite negb_orb, negb_involutive.
  destruct (bool_decide (cr_owner_id r = Some o) && negb (is_retired r)) eqn:E; simpl;
    [|by rewrite insert_id by done].
  destruct (same_definition _ _ _); simpl; [by rewrite insert_id by done|].
  apply andb_prop in E as [Ho%bool_decide_eq_true Hn%negb_true_iff].
  unfold fence_update. simpl. rewrite !(bool_decide_true (_ = _)) by done. simpl. rewrite Hn, Ho. by rewrite andb_false_r.
Qed.
Lemma synced_name clk o j r : (forall x, r = Some x -> cr_name x = pj_name j) -> cr_name (synced clk o j r) = pj_name j.
Proof. intros H. unfold synced. destruct r as [x|]; [|done]. destruct (_ && _); exact (H x eq_refl). Qed.
Lemma sync_rows_lookup clk o jobs rows :
  NoDup (map pj_name jobs) ->
  exists rows', sync_rows jsonb_eqb clk o jobs rows = Ok rows'
    /\ (forall n, n ∉ map pj_name jobs -> rows' !! n = rows !! n)
    /\ (forall j, j ∈ jobs -> rows' !! pj_name j = Some (synced clk o j (rows !! pj_name j))).
Proof.
  revert rows. induction jobs as [|j jobs IH]; intros rows Hn; simpl.
  { exists rows. split; [done|]. split; [done|by intros ? ?%elem_of_nil]. }
  apply NoDup_cons in Hn as [Hj Hn]. rewrite sync_definition_lookup. simpl.
  destruct (IH (<[pj_name j := synced clk o j (rows !! pj_name j)]> rows) Hn) as (rows' & -> & Hout & Hin).
  exists rows'. split; [done|]. split.
  - intros n Hni. apply not_elem_of_cons in Hni as [Hne Hni]. rewrite Hout, lookup_insert_ne by done. done.
  - intros k [->|Hk]%elem_of_cons; [by rewrite Hout, lookup_insert_eq by done|].
    rewrite Hin by done. do 2 f_equal. apply lookup_insert_ne. intros E. apply Hj. rewrite E. by apply list_elem_of_fmap_2.
Qed.
(** Without a conflict, every definition of the manifest is in force. *)
Lemma sync_rows_held clk o jobs rows rows' :
  NoDup (map pj_name jobs) -> sync_rows jsonb_eqb clk o jobs rows = Ok rows' ->
  (forall j r, j ∈ jobs -> rows !! pj_name j = Some r -> conflicting o r = false) -> held o jobs rows'.
Proof.
  intros Hn Hs Hc j Hj. destruct (sync_rows_lookup clk o jobs rows Hn) as (rows1 & H1 & _ & Hin). rewrite Hs in H1. injection H1 as <-.
  exists (synced clk o j (rows !! pj_name j)). split; [by apply Hin|]. unfold synced.
  destruct (rows !! pj_name j) as [r|] eqn:Hr; [|split; [done|apply agrees_new]].
  pose proof (Hc j r Hj Hr) as Hcr. rewrite Hcr. apply conflicting_spec in Hcr. simpl.
  destruct (same_definition jsonb_eqb r (set_definition (write_clock clk) j r)) eqn:E; simpl; [done|].
  split; [exact Hcr|apply agrees_set].
Qed.
(** Rows of other owners, and rows that are retired, stay as they are. *)
Lemma sync_rows_others clk o jobs rows rows' n r :
  NoDup (map pj_name jobs) -> sync_rows jsonb_eqb clk o jobs rows = Ok rows' ->
  rows !! n = Some r -> conflicting o r = true -> rows' !! n = Some r.
Proof.
  intros Hn Hs Hr Hc. destruct (sync_rows_lookup clk o jobs rows Hn) as (rows1 & H1 & Hout & Hin). rewrite Hs in H1. injection H1 as <-.
  destruct (decide (n ∈ map pj_name jobs)) as [(j & -> & Hj)%list_elem_of_fmap|Hni]; [|by rewrite Hout].
  rewrite Hin by done. f_equal. unfold synced. rewrite Hr, Hc. done.
Qed.
Lemma sync_rows_owned clk o jobs rows rows' n r :
  NoDup (map pj_name jobs) -> sync_rows jsonb_eqb clk o jobs rows = Ok rows' ->
  rows' !! n = Some r -> n ∈ map pj_name jobs \/ rows !! n = Some r.
Proof.
  intros Hn Hs Hr. destruct (sync_rows_lookup clk o jobs rows Hn) as (rows1 & H1 & Hout & _). rewrite Hs in H1. injection H1 as <-.
  destruct (decide (n ∈ map pj_name jobs)); [by left|right]. by rewrite <- Hout.
Qed.
Lemma sync_rows_keyed clk o jobs rows rows' :
  sync_rows jsonb_eqb clk o jobs rows = Ok rows' -> keyed rows -> keyed rows'.
Proof.
  revert rows. induction jobs as [|j jobs IH]; intros rows; simpl; [by intros [= <-]|].
  rewrite sync_definition_lookup. simpl. intros H Hk. eapply IH; [exact H|]. apply keyed_insert; [done|].
  apply synced_name. intros x. apply Hk.
Qed.
Lemma add_definitions_lookup now o jobs rows n r : rows !! n = Some r -> add_definitions now o jobs rows !! n = Some r.
Proof.
  revert rows. unfold add_definitions. induction jobs as [|j jobs IH]; intros rows Hr; simpl; [done|]. apply IH.
  destruct (rows !! pj_name j) eqn:Hj; [done|]. rewrite lookup_insert_ne; [done|]. congruence.
Qed.
Lemma add_definitions_keyed now o jobs rows : keyed rows -> keyed (add_definitions now o jobs rows).
Proof.
  revert rows. unfold add_definitions. induction jobs as [|j jobs IH]; intros rows Hk; simpl; [done|]. apply IH.
  destruct (rows !! pj_name j) eqn:Hj; [done|]. by apply keyed_insert.
Qed.
End Rows.
