(* ===== verification/CronTables.v ===== *)
(** Well-formed schedule tables, and that every operation on them keeps them so:
    in particular the certificate a synchronized manifest stands for.  An
    evaluation of an owner never fails on them, and ends in one of two ways. *)

From S2P Require Import Prelude.
From S2P Require Import Error.
From S2P Require Import Json.
From S2P Require Import Job.
From S2P Require Import Canonical.
From S2P Require Import Cron.
From S2P Require Import Reconcile.
From S2P Require Import ReconcileFacts.

(** * Well-formed tables *)

Definition parses (r : CronJobRow) : Prop := exists p, policy_parse (cr_missed_fire_policy r) = Ok p.
Definition rows_parse (rows : CronJobs) : Prop := forall n r, rows !! n = Some r -> parses r.
Definition manifest_jobs (o h : string) (db : CronDb) (jobs : list PeriodicJob) : Prop :=
  exists m, cron_manifests db !! (o, h) = Some m /\ manifest_from_value m = Ok jobs /\ NoDup (map pj_name jobs).

Lemma parses_def now j r : parses (set_definition now j r).
Proof. unfold parses. simpl. by destruct (pj_missed_fire_policy j); eexists. Qed.
Lemma parses_new now o j : parses (new_cron_row now o j).
Proof. unfold parses. simpl. by destruct (pj_missed_fire_policy j); eexists. Qed.
Lemma rows_parse_insert rows n r : rows_parse rows -> parses r -> rows_parse (<[n := r]> rows).
Proof. intros Hp Hr m r'. rewrite lookup_insert_Some. intros [[_ <-]|[_ H]]; [done|by eapply Hp]. Qed.

Section Guarantees.
  Context (jsonb_eqb : json -> json -> bool) (jsonb_refl : forall v, jsonb_eqb v v = true).

(** A synchronized hash certifies that the owner's schedules of that manifest
    are active and defined by it. *)
Definition certified (db : CronDb) : Prop :=
  forall o ag h, cron_owners db !! o = Some ag -> synced_hash ag = Some h ->
  exists jobs, manifest_jobs o h db jobs /\ held jsonb_eqb o jobs (cron_jobs db).
Record cron_ok (db : CronDb) : Prop := {
  ok_keyed : keyed (cron_jobs db);
  ok_parse : rows_parse (cron_jobs db);
  ok_manifests : forall o h m, cron_manifests db !! (o, h) = Some m -> exists jobs, manifest_jobs o h db jobs;
  ok_declared : forall i d, cron_declarations db !! i = Some d -> is_Some (cron_manifests db !! (dr_owner_id d, dr_desired_hash d));
  ok_certified : certified db
}.

(** Rows of the owners in [P] stay active, with their definitions. *)
Definition calm (P : string -> Prop) (rows rows' : CronJobs) : Prop :=
  forall n r o, P o -> rows !! n = Some r -> active_of o r ->
  exists r', rows' !! n = Some r' /\ active_of o r' /\ forall j, agrees jsonb_eqb j r -> agrees jsonb_eqb j r'.
Lemma held_calm (P : string -> Prop) o jobs rows rows' :
  P o -> calm P rows rows' -> held jsonb_eqb o jobs rows -> held jsonb_eqb o jobs rows'.
Proof.
  intros Ho Hc Hh j Hj. destruct (Hh j Hj) as (r & Hr & Ha & Hg). destruct (Hc _ r o Ho Hr Ha) as (r' & Hr' & Ha' & Hg').
  exists r'. auto.
Qed.
Lemma calm_same (P : string -> Prop) rows rows' :
  (forall n r o, P o -> rows !! n = Some r -> active_of o r -> rows' !! n = Some r) -> calm P rows rows'.
Proof. intros H n r o Ho Hr Ha. exists r. eauto. Qed.

(** An owner's certificate is kept, or given up. *)
Definition fewer_synced (db db' : CronDb) : Prop :=
  forall o ag' h, cron_owners db' !! o = Some ag' -> synced_hash ag' = Some h ->
  exists ag, cron_owners db !! o = Some ag /\ synced_hash ag = Some h.
Lemma manifest_jobs_same o h db db' jobs :
  cron_manifests db' = cron_manifests db -> manifest_jobs o h db jobs -> manifest_jobs o h db' jobs.
Proof. unfold manifest_jobs. by intros ->. Qed.
Lemma cron_ok_calm db db' :
  cron_ok db -> keyed (cron_jobs db') -> rows_parse (cron_jobs db') -> calm (fun _ => True) (cron_jobs db) (cron_jobs db') ->
  cron_manifests db' = cron_manifests db -> fewer_synced db db' ->
  (forall i d, cron_declarations db' !! i = Some d -> cron_declarations db !! i = Some d) -> cron_ok db'.
Proof.
  intros [Hk Hp Hm Hd Hc] Hk' Hp' Hcalm Em Hs Hdec. split; [done|done| | |].
  - intros o h m H. rewrite Em in H. destruct (Hm o h m H) as (jobs & Hj). exists jobs. by eapply manifest_jobs_same.
  - intros i d H%Hdec. rewrite Em. by eapply Hd.
  - intros o ag h Ho Hh. destruct (Hs o ag h Ho Hh) as (ag0 & Ho0 & Hh0). destruct (Hc o ag0 h Ho0 Hh0) as (jobs & Hj & Hheld).
    exists jobs. split; [by eapply manifest_jobs_same|]. by eapply (held_calm (fun _ => True)).
Qed.

(** * What one evaluation decides *)

Lemma consensus_agree ds h : consensus ds = Some h -> ds <> [] /\ forall d, d ∈ ds -> cd_desired_hash d = h.
Proof.
  unfold consensus. destruct (remove_dups (map cd_desired_hash ds)) as [|x [|]] eqn:E; try done. intros [= ->]. split; [by intros ->|].
  intros d Hd. apply list_elem_of_singleton. rewrite <- E. apply elem_of_remove_dups. by apply list_elem_of_fmap_2.
Qed.
Lemma no_blockers blocking ds : evidence_blockers blocking ds = [] -> blocking = [] /\ exists h, consensus ds = Some h.
Proof.
  unfold evidence_blockers, consensus. destruct blocking; [|done]. intros [Hd Hm]%app_eq_nil.
  destruct ds as [|d ds]; [done|]. split; [done|]. simpl in *.
  destruct (decide_rel elem_of (cd_desired_hash d) (map cd_desired_hash ds)) as [Hin|].
  - destruct (remove_dups (map cd_desired_hash ds)) as [|h [|h' l]] eqn:E; [|by eexists|].
    + apply elem_of_remove_dups in Hin. rewrite E in Hin. by apply elem_of_nil in Hin.
    + exfalso. simpl in Hm. destruct (Z.ltb_spec 1 (Z.of_nat (S (S (length l))))); [done|lia].
  - destruct (remove_dups (map cd_desired_hash ds)) as [|h l] eqn:E; [by eexists|]. exfalso. simpl in Hm.
    destruct (Z.ltb_spec 1 (Z.of_nat (S (S (length l))))); [done|lia].
Qed.

Lemma describe_jobs_ok o rows jobs :
  rows_parse rows ->
  exists a u c, describe_jobs o rows jobs = Ok (a, u, c) /\
    (c = [] -> forall j r, j ∈ jobs -> rows !! pj_name j = Some r -> conflicting o r = false).
Proof.
  intros Hp. induction jobs as [|j jobs (a & u & c & H & Hc)]; cbn [describe_jobs].
  { exists [], [], []. split; [done|]. by intros _ ? ? ?%elem_of_nil. }
  assert (exists x y w, match rows !! pj_name j with
        | None => Ok ([pj_name j], [], [])
        | Some r =>
            if conflicting o r then Ok ([], [], [conflict_description r o])
            else let? d := definition r in
                 Ok ([], if json_eqb (periodic_to_value d) (periodic_to_value j) then [] else [pj_name j], [])
        end = Ok (x, y, w) :> result AwaError _ /\ (w = [] -> forall r, rows !! pj_name j = Some r -> conflicting o r = false)) as (x & y & w & -> & Hw).
  { destruct (rows !! pj_name j) as [r|] eqn:Hr; [|by eexists _, _, _].
    destruct (conflicting o r) eqn:Hcr; [by eexists _, _, _|]. destruct (Hp _ r Hr) as (p & Hpp). unfold definition. rewrite Hpp. cbn [rbind].
    eexists _, _, _. split; [done|]. by intros _ ? [= <-]. }
  cbn [rbind]. rewrite H. cbn [rbind]. eexists _, _, _. split; [done|]. intros [Ew Ec]%app_eq_nil k r [->|Hk]%elem_of_cons; [by apply Hw|].
  by apply (Hc Ec).
Qed.
Lemma manifest_conflicts_none o jobs rows :
  keyed rows ->
  map (fun r => conflict_description r o)
    (List.filter (fun r => bool_decide (cr_name r ∈ map pj_name jobs) && conflicting o r) (list_cron_jobs rows)) = [] ->
  forall j r, j ∈ jobs -> rows !! pj_name j = Some r -> conflicting o r = false.
Proof.
  intros Hk H%fmap_nil_inv j r Hj Hr. destruct (conflicting o r) eqn:E; [|done]. exfalso.
  apply (not_elem_of_nil r). rewrite <- H. apply elem_of_filter_b. rewrite E, (Hk _ _ Hr), bool_decide_true by by apply list_elem_of_fmap_2.
  split; [done|]. apply list_cron_jobs_elem. eauto.
Qed.

(** No row of the manifest is another owner's, or retired. *)
Definition conflict_free (o : string) (jobs : list PeriodicJob) (rows : CronJobs) : Prop :=
  forall j r, j ∈ jobs -> rows !! pj_name j = Some r -> conflicting o r = false.
Lemma held_conflict_free o jobs rows : held jsonb_eqb o jobs rows -> conflict_free o jobs rows.
Proof. intros H j r Hj Hr. destruct (H j Hj) as (r' & Hr' & Ha & _). apply conflicting_spec. congruence. Qed.

Lemma found_changes_ok o apply h db jobs :
  cron_ok db -> manifest_jobs o h db jobs ->
  exists ch, found_changes o true apply (cron_owners db !! o) (Some h) db = Ok ch
    /\ (ch_conflicts ch = [] -> conflict_free o jobs (cron_jobs db))
    /\ (apply = true -> ch_retirements ch = map cr_name (List.filter (retired_by_manifest o jobs) (list_cron_jobs (cron_jobs db)))).
Proof.
  intros Hok (m & Hm & Hd & Hn). unfold found_changes, fetch_manifest. simpl. destruct apply.
  - rewrite Hm. cbn [rbind]. rewrite Hd. cbn [rbind]. unfold describe_changes.
    destruct (describe_jobs_ok o (cron_jobs db) jobs (ok_parse _ Hok)) as (a & u & c & -> & Hc). cbn [rbind]. eexists. split; [done|]. by split.
  - case_bool_decide as Hs.
    + eexists. split; [done|]. split; [|done]. intros _. apply held_conflict_free.
      destruct (cron_owners db !! o) as [ag|] eqn:Ho; [|done].
      destruct (ok_certified _ Hok o ag h Ho Hs) as (jobs' & (m' & Hm' & Hd' & _) & Hh). by assert (jobs' = jobs) as <- by congruence.
    + unfold manifest_conflicts. rewrite Hm, Hd. cbn [rbind]. eexists. split; [done|]. split; [|done].
      intros Hnil. exact (manifest_conflicts_none o jobs _ (ok_keyed _ Hok) Hnil).
Qed.

(** Every schedule is still there, and was last enqueued when it was. *)
Definition keeps_last (rows rows' : CronJobs) : Prop :=
  forall n r, rows !! n = Some r -> exists r', rows' !! n = Some r' /\ cr_last_enqueued_at r' = cr_last_enqueued_at r.
Lemma keeps_last_refl rows : keeps_last rows rows.
Proof. intros n r H. eauto. Qed.
Lemma keeps_last_insert rows n r' :
  (forall r, rows !! n = Some r -> cr_last_enqueued_at r' = cr_last_enqueued_at r) -> keeps_last rows (<[n := r']> rows).
Proof.
  intros H m r Hr. destruct (decide (m = n)) as [->|Hne]; [exists r'; rewrite lookup_insert_eq; auto|]. exists r. by rewrite lookup_insert_ne.
Qed.
Lemma keeps_last_trans a b c : keeps_last a b -> keeps_last b c -> keeps_last a c.
Proof. intros H1 H2 n r (r1 & Hr1 & E1)%H1. destruct (H2 n r1 Hr1) as (r2 & Hr2 & E2). exists r2. by rewrite E2. Qed.
Lemma sync_rows_last clk o jobs rows rows' : sync_rows jsonb_eqb clk o jobs rows = Ok rows' -> keeps_last rows rows'.
Proof.
  revert rows. induction jobs as [|j jobs IH]; intros rows; simpl; [intros [= <-]; apply keeps_last_refl|].
  rewrite sync_definition_lookup. simpl. intros H. eapply keeps_last_trans; [|by apply IH]. apply keeps_last_insert. intros r Hr.
  rewrite Hr. simpl. by destruct (_ && _).
Qed.
(** What a persisted agreement on [h] leaves, its schedules being [jobs]. *)
Record agreed (o h : string) (since : time) (until_ : option time) (jobs : list PeriodicJob) (db db' : CronDb) : Prop := {
  ag_held : held jsonb_eqb o jobs (cron_jobs db');
  ag_keyed : keyed (cron_jobs db');
  ag_parse : rows_parse (cron_jobs db');
  ag_others : forall n r, cron_jobs db !! n = Some r -> conflicting o r = true -> cron_jobs db' !! n = Some r;
  ag_outside : forall n, n ∉ map pj_name jobs -> cron_jobs db' !! n = cron_jobs db !! n;
  ag_last : keeps_last (cron_jobs db) (cron_jobs db');
  ag_manifests : cron_manifests db' = cron_manifests db;
  ag_declarations : cron_declarations db' = cron_declarations db;
  ag_owner : forall ag, cron_owners db' !! o = Some ag -> ag = mkAgreement (Some h) (Some h) (Some since) until_;
  ag_rest : forall o', o' <> o -> cron_owners db' !! o' = cron_owners db !! o'
}.
Lemma synced_parses clk o j x : (forall r, x = Some r -> parses r) -> parses (synced jsonb_eqb clk o j x).
Proof.
  intros H. unfold synced. destruct x as [r|]; [|apply parses_new]. destruct (_ && _); [apply parses_def|by apply H].
Qed.
Lemma sync_rows_parse clk o jobs rows rows' : sync_rows jsonb_eqb clk o jobs rows = Ok rows' -> rows_parse rows -> rows_parse rows'.
Proof.
  revert rows. induction jobs as [|j jobs IH]; intros rows; simpl; [by intros [= <-]|].
  rewrite sync_definition_lookup. simpl. intros H Hp. eapply IH; [exact H|]. apply rows_parse_insert; [done|].
  apply synced_parses. intros r. apply Hp.
Qed.
Lemma persist_agreement_ok clk o h since until_ db jobs :
  cron_ok db -> manifest_jobs o h db jobs -> conflict_free o jobs (cron_jobs db) ->
  exists db', persist_agreement jsonb_eqb clk o (Some h) since until_ (synced_hash (default no_agreement (cron_owners db !! o))) db = Ok db'
    /\ agreed o h since until_ jobs db db'.
Proof.
  intros Hok Hj Hc. destruct Hj as (m & Hm & Hd & Hn). unfold persist_agreement. case_bool_decide as Hs; cbn [rbind].
  - eexists. split; [done|]. destruct (cron_owners db !! o) as [ag|] eqn:Ho; [|done]. simpl in Hs.
    destruct (ok_certified _ Hok o ag h Ho Hs) as (jobs' & (m' & Hm' & Hd' & _) & Hh). assert (jobs' = jobs) as -> by congruence.
    split; try done; [apply Hok|apply Hok|apply keeps_last_refl|..]; simpl.
    + intros ag'. rewrite lookup_alter_eq, Ho. intros [= <-]. by rewrite Hs.
    + intros o' Hne. by rewrite lookup_alter_ne.
  - unfold sync_definitions, fetch_manifest. rewrite Hm. cbn [rbind]. rewrite Hd. cbn [rbind].
    destruct (sync_rows_lookup jsonb_eqb clk o jobs (cron_jobs db) Hn) as (rows & Hr & Hout & _). rewrite Hr. cbn [rbind]. eexists. split; [done|].
    split; simpl; try done.
    + by eapply sync_rows_held.
    + eapply sync_rows_keyed; [exact Hr|apply Hok].
    + eapply sync_rows_parse; [exact Hr|apply Hok].
    + intros n r. by eapply sync_rows_others.
    + by eapply sync_rows_last.
    + intros ag. rewrite !lookup_alter_eq. destruct (cron_owners db !! o); simpl; [by intros [= <-]|done].
    + intros o' Hne. by rewrite !lookup_alter_ne.
Qed.
Lemma agreed_ok o h since until_ jobs db db' :
  cron_ok db -> manifest_jobs o h db jobs -> agreed o h since until_ jobs db db' -> cron_ok db'.
Proof.
  intros Hok Hj Ha. pose proof (ag_manifests _ _ _ _ _ _ _ Ha) as Em. split; [apply Ha|apply Ha| | |].
  - intros o1 h1 m1 H. rewrite Em in H. destruct (ok_manifests _ Hok o1 h1 m1 H) as (jobs1 & H1). exists jobs1. by eapply manifest_jobs_same.
  - intros i d H. rewrite (ag_declarations _ _ _ _ _ _ _ Ha) in H. rewrite Em. by eapply ok_declared.
  - intros o1 ag h1 Ho Hs. destruct (decide (o1 = o)) as [->|Hne].
    + apply (ag_owner _ _ _ _ _ _ _ Ha) in Ho as ->. injection Hs as <-. exists jobs. split; [by eapply manifest_jobs_same|apply Ha].
    + rewrite (ag_rest _ _ _ _ _ _ _ Ha) in Ho by done. destruct (ok_certified _ Hok o1 ag h1 Ho Hs) as (jobs1 & H1 & Hh1).
      exists jobs1. split; [by eapply manifest_jobs_same|]. eapply (held_calm (fun x => x <> o)); [done| |exact Hh1].
      apply calm_same. intros n r x Hx Hr [Hx1 _]. apply (ag_others _ _ _ _ _ _ _ Ha); [done|]. unfold conflicting.
      rewrite bool_decide_false; [done|]. congruence.
Qed.

(** What retiring leaves of each row. *)
Definition retired_row (now : time) (o revs : string) (names : list string) (n : string) (r : CronJobRow) : CronJobRow :=
  if decide (n ∈ names)
  then if bool_decide (cr_owner_id r = Some o) && negb (is_retired r) then set_retired now (Some now) (Some o) (Some revs) r else r
  else r.
Lemma retire_all_ok now o revs names db :
  NoDup names ->
  exists rows, retire_all jsonb_eqb now o revs names db = Ok (set_jobs rows db)
    /\ forall n, rows !! n = retired_row now o revs names n <$> cron_jobs db !! n.
Proof.
  intros Hn. unfold retire_all.
  destruct (update_crons_admin jsonb_eqb (mkSession true None) names (fun r => bool_decide (cr_owner_id r = Some o) && negb (is_retired r))
              (set_retired now (Some now) (Some o) (Some revs)) (cron_jobs db) eq_refl Hn) as (rows & -> & Hr).
  exists rows. split; [done|]. intros n. rewrite Hr. unfold retired_row. destruct (decide (n ∈ names)); [done|]. by destruct (cron_jobs db !! n).
Qed.

Definition retirements_of (o : string) (jobs : list PeriodicJob) (rows : CronJobs) : list string :=
  map cr_name (List.filter (retired_by_manifest o jobs) (list_cron_jobs rows)).
(** The two ways an evaluation of an owner that may write ends. *)
Inductive outcome (clk : Clocks) (o : string) (apply : bool) (db : CronDb) (p : CronReconciliationPlan) (db' : CronDb) : Prop :=
  | Blocked :
      rp_applied p = false -> db' = update_owner o (fun ag => mkAgreement (synced_hash ag) None None None) db ->
      outcome clk o apply db p db'
  | Agreed h jobs db1 :
      let ds := declarations_of o (eval_clock clk) db in
      let since := since_of (default no_agreement (cron_owners db !! o)) (Some h) (eval_clock clk) in
      blocking_of (eval_clock clk) db = [] -> consensus ds = Some h -> manifest_jobs o h db jobs ->
      agreed o h since (min_expiry ds) jobs db db1 ->
      rp_applied p = apply && (grace_left (max_grace ds) (eval_clock clk) since =? 0) ->
      (if rp_applied p
       then exists rows, db' = set_jobs rows db1 /\
              (forall n, rows !! n = retired_row (eval_clock clk) o (revisions ds) (retirements_of o jobs (cron_jobs db)) n <$> cron_jobs db1 !! n)
       else db' = db1) ->
      outcome clk o apply db p db'.

Lemma declarations_elem o now db d : d ∈ declarations_of o now db -> exists row, cron_declarations db !! cd_instance_id d = Some row
  /\ dr_owner_id row = o /\ dr_desired_hash row = cd_desired_hash d.
Proof.
  unfold declarations_of. rewrite merge_sort_Permutation, list_elem_of_omap. intros ([i row] & Hin%elem_of_map_to_list & H).
  unfold live_declaration in H. destruct (runtime_instances db !! i); [|done]. case_match eqn:E; [|done]. injection H as <-. simpl.
  exists row. apply andb_prop in E as [[E _]%andb_prop _]. split; [done|]. split; [by apply String.eqb_eq|done].
Qed.
Lemma consensus_manifest o now db h :
  cron_ok db -> consensus (declarations_of o now db) = Some h -> exists jobs, manifest_jobs o h db jobs.
Proof.
  intros Hok [Hne Hd]%consensus_agree. destruct (declarations_of o now db) as [|d ds] eqn:E; [done|].
  assert (d ∈ declarations_of o now db) as Hin by (rewrite E; constructor).
  apply declarations_elem in Hin as (row & Hrow & Ho & Hh). destruct (ok_declared _ Hok _ _ Hrow) as (m & Hm).
  apply (ok_manifests _ Hok o h m). rewrite <- Hm. f_equal. rewrite Ho, Hh. f_equal. symmetry. apply Hd. constructor.
Qed.
Lemma no_consensus blocking ds : consensus ds = None -> exists b bs, evidence_blockers blocking ds = b :: bs.
Proof.
  intros H. destruct (evidence_blockers blocking ds) as [|b bs] eqn:E; [|eauto]. apply no_blockers in E as (_ & h & Hh). congruence.
Qed.
Lemma evaluate_outcome clk o apply db :
  cron_ok db -> exists p db', evaluate_locked jsonb_eqb clk o true apply db = Ok (p, db') /\ outcome clk o apply db p db'.
Proof.
  intros Hok. unfold evaluate_locked. set (ds := declarations_of o (eval_clock clk) db).
  destruct (consensus ds) as [h|] eqn:Hcons; cbv zeta.
  - destruct (consensus_manifest o _ db h Hok Hcons) as (jobs & Hj).
    destruct (found_changes_ok o apply h db jobs Hok Hj) as (ch & -> & Hcf & Hret). cbn [rbind].
    destruct (evidence_blockers _ ds ++ _) as [|b bs] eqn:Hb.
    + apply app_eq_nil in Hb as [[Hbl _]%no_blockers Hc]. assert (ch_conflicts ch = []) as Hc' by (by destruct (ch_conflicts ch)).
      set (since := since_of (default no_agreement (cron_owners db !! o)) (Some h) (eval_clock clk)).
      destruct (persist_agreement_ok clk o h since (min_expiry ds) db jobs Hok Hj (Hcf Hc')) as (db1 & -> & Ha). cbn [rbind].
      destruct (apply && (grace_left (max_grace ds) (eval_clock clk) since =? 0)) eqn:Hleft.
      * assert (apply = true) as Happ by (by destruct apply). rewrite (Hret Happ).
        destruct (retire_all_ok (eval_clock clk) o (revisions ds) (retirements_of o jobs (cron_jobs db)) db1) as (rows & Hr & Hl).
        { apply filter_names_NoDup, Hok. }
        unfold retirements_of in Hr. rewrite Hr. cbn [rbind]. eexists _, _. split; [done|]. eapply (Agreed clk o apply db _ _ h jobs db1); try done.
        by exists rows.
      * cbn [rbind]. eexists _, _. split; [done|]. by eapply (Agreed clk o apply db _ _ h jobs db1).
    + eexists _, _. split; [done|]. by apply Blocked.
  - assert (found_changes o true apply (cron_owners db !! o) None db = Ok (mkChanges [] [] [] [])) as -> by done. cbn [rbind].
    destruct (no_consensus (blocking_of (eval_clock clk) db) ds Hcons) as (b & bs & ->). eexists _, _. split; [done|]. by apply Blocked.
Qed.

(** The owner's active schedules are those of the manifest. *)
Definition converged (o : string) (jobs : list PeriodicJob) (rows : CronJobs) : Prop :=
  held jsonb_eqb o jobs rows /\ forall n r, rows !! n = Some r -> active_of o r -> n ∈ map pj_name jobs.

Lemma retired_row_name now o revs names n r : cr_name (retired_row now o revs names n r) = cr_name r.
Proof. unfold retired_row. by repeat case_match. Qed.
Lemma retired_row_parses now o revs names n r : parses r -> parses (retired_row now o revs names n r).
Proof. unfold retired_row. by repeat case_match. Qed.
Lemma retirements_elem o jobs rows n :
  keyed rows -> (n ∈ retirements_of o jobs rows) <-> n ∉ map pj_name jobs /\ exists r, rows !! n = Some r /\ active_of o r.
Proof.
  intros Hk. unfold retirements_of. rewrite list_elem_of_fmap. unfold retired_by_manifest. split.
  - intros (r & -> & Hr). apply elem_of_filter_b in Hr as [Hb (m & Hm)%list_cron_jobs_elem].
    apply andb_prop in Hb as [[Ho%bool_decide_eq_true Hn%negb_true_iff%is_retired_spec]%andb_prop Hni%negb_true_iff%bool_decide_eq_false].
    split; [done|]. exists r. by rewrite (Hk m r Hm).
  - intros (Hni & r & Hr & [Ho Hn]). exists r. rewrite (Hk n r Hr). split; [done|]. apply elem_of_filter_b.
    rewrite bool_decide_true, (proj2 (is_retired_spec r) Hn), (Hk n r Hr), bool_decide_false by done.
    split; [done|]. apply list_cron_jobs_elem. eauto.
Qed.
Lemma retired_converged now o revs jobs rows rows1 rows2 :
  keyed rows -> held jsonb_eqb o jobs rows1 -> (forall n, n ∉ map pj_name jobs -> rows1 !! n = rows !! n) ->
  (forall n, rows2 !! n = retired_row now o revs (retirements_of o jobs rows) n <$> rows1 !! n) -> converged o jobs rows2.
Proof.
  intros Hk Hh Hout H2. split.
  - intros j Hj. destruct (Hh j Hj) as (r & Hr & Hr'). exists r. rewrite H2, Hr. simpl. split; [|done].
    unfold retired_row. rewrite decide_False; [done|]. rewrite retirements_elem by done. intros [Hni _]. apply Hni. by apply list_elem_of_fmap_2.
  - intros n r Hr Ha. destruct (decide (n ∈ map pj_name jobs)) as [|Hni]; [done|]. exfalso.
    rewrite H2, (Hout n Hni) in Hr. apply fmap_Some in Hr as (r0 & Hr0 & ->). unfold retired_row in Ha.
    destruct (decide (n ∈ retirements_of o jobs rows)) as [Hin|Hnin].
    + destruct (bool_decide _ && _) eqn:E; [by destruct Ha|]. apply retirements_elem in Hin as (_ & r1 & Hr1 & [Ho Hre]); [|done].
      assert (r1 = r0) as -> by congruence. rewrite bool_decide_true, (proj2 (is_retired_spec r0) Hre) in E by done. done.
    + apply Hnin, retirements_elem; [done|]. eauto.
Qed.

Section Outcome.
  Context (clk : Clocks) (o : string) (apply : bool) (db : CronDb) (p : CronReconciliationPlan) (db' : CronDb).
  Context (Hok : cron_ok db) (Hout : outcome clk o apply db p db').

Lemma outcome_converged :
  rp_applied p = true -> exists h jobs, consensus (declarations_of o (eval_clock clk) db) = Some h /\ manifest_jobs o h db jobs
    /\ blocking_of (eval_clock clk) db = [] /\ converged o jobs (cron_jobs db').
Proof.
  intros Happ. destruct Hout as [? _|h jobs db1 ds since Hb Hc Hj Ha _ Hdb]; [congruence|]. rewrite Happ in Hdb. destruct Hdb as (rows & -> & Hr).
  exists h, jobs. split; [done|]. split; [done|]. split; [done|]. eapply retired_converged; [apply Hok|apply Ha|apply Ha|exact Hr].
Qed.
Lemma outcome_ok : cron_ok db'.
Proof.
  destruct Hout as [_ ->|h jobs db1 ds since Hb Hc Hj Ha _ Hdb].
  - apply (cron_ok_calm db); try done; [apply Hok|apply Hok|by apply calm_same|].
    intros o1 ag h Ho Hh. simpl in Ho. destruct (decide (o1 = o)) as [->|Hne].
    + rewrite lookup_alter_eq in Ho. apply fmap_Some in Ho as (ag0 & Ho & ->). eauto.
    + rewrite lookup_alter_ne in Ho by done. eauto.
  - pose proof (agreed_ok _ _ _ _ _ _ _ Hok Hj Ha) as Hok1. destruct (rp_applied p); [|by subst]. destruct Hdb as (rows & -> & Hr).
    assert (converged o jobs rows) as [Hheld _] by (eapply retired_converged; [apply Hok|apply Ha|apply Ha|exact Hr]).
    split; simpl.
    + intros n r Hn. rewrite Hr in Hn. apply fmap_Some in Hn as (r0 & H0 & ->). rewrite retired_row_name. by apply Hok1.
    + intros n r Hn. rewrite Hr in Hn. apply fmap_Some in Hn as (r0 & H0 & ->). apply retired_row_parses. by eapply Hok1.
    + apply Hok1.
    + apply Hok1.
    + intros o1 ag h1 Ho Hs. simpl in *. destruct (decide (o1 = o)) as [->|Hne].
      * apply (ag_owner _ _ _ _ _ _ _ Ha) in Ho as ->. injection Hs as <-. exists jobs. split; [|done].
        eapply manifest_jobs_same; [|exact Hj]. apply Ha.
      * destruct (ok_certified _ Hok1 o1 ag h1 Ho Hs) as (jobs1 & H1 & Hh1). exists jobs1. split; [done|].
        eapply (held_calm (fun x => x <> o)); [done| |exact Hh1]. apply calm_same. intros n r x Hx Hn [Hx1 _]. rewrite Hr, Hn. simpl. f_equal.
        unfold retired_row. rewrite (bool_decide_false (cr_owner_id r = Some o)) by congruence. by case_match.
Qed.
(** Schedules the owner does not own are not its business. *)
Lemma outcome_others n r : cron_jobs db !! n = Some r -> cr_owner_id r <> Some o -> cron_jobs db' !! n = Some r.
Proof.
  intros Hr Hne. destruct Hout as [_ ->|h jobs db1 ds since Hb Hc Hj Ha _ Hdb]; [done|].
  assert (cron_jobs db1 !! n = Some r) as H1.
  { apply (ag_others _ _ _ _ _ _ _ Ha); [done|]. unfold conflicting. by rewrite bool_decide_false. }
  destruct (rp_applied p); [|by subst]. destruct Hdb as (rows & -> & Hl). simpl. rewrite Hl, H1. simpl. f_equal.
  unfold retired_row. rewrite (bool_decide_false (cr_owner_id r = Some o)) by done. by case_match.
Qed.
Lemma outcome_last : keeps_last (cron_jobs db) (cron_jobs db').
Proof.
  destruct Hout as [_ ->|h jobs db1 ds since Hb Hc Hj Ha _ Hdb]; [apply keeps_last_refl|].
  pose proof (ag_last _ _ _ _ _ _ _ Ha) as Hl. destruct (rp_applied p); [|by subst]. destruct Hdb as (rows & -> & Hr).
  eapply keeps_last_trans; [exact Hl|]. intros n r H. simpl. rewrite Hr, H. eexists. split; [done|]. unfold retired_row. by repeat case_match.
Qed.
End Outcome.

(** * The other operations keep the tables well-formed *)

Lemma calm_all_same P rows : calm P rows rows.
Proof. by apply calm_same. Qed.
Lemma ok_rows db rows :
  cron_ok db -> keyed rows -> rows_parse rows -> calm (fun _ => True) (cron_jobs db) rows -> cron_ok (set_jobs rows db).
Proof. intros Hok Hk Hp Hc. apply (cron_ok_calm db); try done. intros o ag h Ho Hh. eauto. Qed.
(** Updates of columns that are neither definition nor ownership. *)
Definition mild (f : CronJobRow -> CronJobRow) : Prop :=
  forall r, cr_name (f r) = cr_name r /\ (forall o, active_of o r -> active_of o (f r)) /\ (parses r -> parses (f r))
            /\ forall j, agrees jsonb_eqb j r -> agrees jsonb_eqb j (f r).
Lemma mild_enqueued now t : mild (set_enqueued now t).
Proof. intros r. split; [done|]. split; [by intros o [? ?]|]. by split. Qed.
Lemma mild_pause now t by_ : mild (set_pause now t by_).
Proof. intros r. split; [done|]. split; [by intros o [? ?]|]. by split. Qed.
Lemma calm_rows_insert rows n r r' :
  rows !! n = Some r -> (forall o, active_of o r -> active_of o r' /\ forall j, agrees jsonb_eqb j r -> agrees jsonb_eqb j r') ->
  calm (fun _ => True) rows (<[n := r']> rows).
Proof.
  intros Hr H m x o _ Hx Ha. destruct (decide (m = n)) as [->|Hne].
  - assert (x = r) as -> by congruence. exists r'. rewrite lookup_insert_eq. split; [done|]. by apply H.
  - exists x. by rewrite lookup_insert_ne.
Qed.
Lemma ok_update_mild s n guard f w rows db :
  mild f -> update_cron jsonb_eqb s n guard f (cron_jobs db) = Ok (w, rows) -> cron_ok db -> cron_ok (set_jobs rows db).
Proof.
  intros Hf Hu Hok. pose proof Hu as [[_ ->]|(r & Hr & _ & _ & _ & ->)]%update_cron_cases; [by destruct db|].
  destruct (Hf r) as (Hn & Ha & Hp & Hg). apply ok_rows; [done|..].
  - eapply update_cron_keyed; [|exact Hu|apply Hok]. intros x. apply Hf.
  - apply rows_parse_insert; [apply Hok|]. apply Hp. by eapply Hok.
  - eapply calm_rows_insert; [done|]. auto.
Qed.
Lemma ok_upsert now p rows db : upsert_cron_job jsonb_eqb now p (cron_jobs db) = Ok rows -> cron_ok db -> cron_ok (set_jobs rows db).
Proof.
  unfold upsert_cron_job. intros ([] & _ & H)%rbind_Ok Hok. destruct (cron_jobs db !! pj_name p) as [r|] eqn:Hr.
  - apply rbind_Ok in H as ([w rows1] & Hu & H). assert (rows1 = rows) as -> by (destruct (_ || _); congruence).
    pose proof Hu as [[_ ->]|(x & Hx & Hg & _ & _ & ->)]%update_cron_cases; [by destruct db|].
    apply andb_prop in Hg as [Hno%bool_decide_eq_true _]. apply ok_rows; [done|..].
    + eapply update_cron_keyed; [|exact Hu|apply Hok]. done.
    + apply rows_parse_insert; [apply Hok|]. apply parses_def.
    + eapply calm_rows_insert; [done|]. intros o [Ho _]. congruence.
  - injection H as <-. apply ok_rows; [done|..].
    + apply keyed_insert; [apply Hok|done].
    + apply rows_parse_insert; [apply Hok|apply parses_new].
    + apply calm_same. intros n x o _ Hx _. rewrite lookup_insert_ne; [done|]. congruence.
Qed.
Lemma ok_delete n b rows db : delete_cron_job n (cron_jobs db) = Ok (b, rows) -> cron_ok db -> cron_ok (set_jobs rows db).
Proof.
  unfold delete_cron_job. destruct (cron_jobs db !! n) as [r|] eqn:Hr; [|intros [= _ <-]; by destruct db].
  unfold fence_delete. destruct (is_retired r); [done|]. case_bool_decide as Ho; [done|]. intros [= _ <-] Hok. apply ok_rows; [done|..].
  - intros m x [_ Hx]%lookup_delete_Some. by apply Hok.
  - intros m x [_ Hx]%lookup_delete_Some. by eapply Hok.
  - apply calm_same. intros m x o _ Hx [Hox _]. rewrite lookup_delete_ne; [done|]. intros <-. apply Ho. rewrite Hr in Hx. injection Hx as ->. eauto.
Qed.

(** Runtimes and their cleanup. *)
Lemma ok_write_runtime i rt db : cron_ok db -> cron_ok (write_runtime i rt db).
Proof.
  intros Hok. unfold write_runtime, cron_unknown_runtime. case_bool_decide; (apply (cron_ok_calm db); try done; try apply Hok; [apply calm_all_same|]).
  - intros o ag h Ho Hh. eauto.
  - intros o ag h Ho Hh. simpl in Ho. rewrite lookup_fmap in Ho. apply fmap_Some in Ho as (ag0 & Ho & ->). eauto.
Qed.
Lemma ok_cleanup now age db : cron_ok db -> cron_ok (cleanup_runtime_snapshots now age db).
Proof.
  intros Hok. apply (cron_ok_calm db); try done; try apply Hok; [apply calm_all_same| |].
  - intros o ag h Ho Hh. eauto.
  - intros i d H. simpl in H. by apply map_lookup_filter_Some in H as [H _].
Qed.
Lemma ok_ensure_owner o db : cron_ok db -> cron_ok (ensure_owner o db).
Proof.
  intros Hok. unfold ensure_owner. destruct (cron_owners db !! o) eqn:Ho; [done|]. apply (cron_ok_calm db); try done; try apply Hok; [apply calm_all_same|].
  intros o1 ag h H Hh. simpl in H. rewrite lookup_insert_Some in H. destruct H as [[_ <-]|[_ H]]; [done|]. eauto.
Qed.

(** ** Publication *)

Definition from_client (m : PeriodicManifest) : Prop := exists jobs, manifest_from_value (mf_value m) = Ok jobs /\ NoDup (map pj_name jobs).
Lemma ok_new_manifest o m db :
  from_client m -> cron_manifests db !! (o, mf_hash m) = None -> cron_ok db ->
  cron_ok (set_manifests (<[(o, mf_hash m) := mf_value m]> (cron_manifests db)) db).
Proof.
  intros (jobs & Hd & Hn) Hnew Hok. assert (forall o1 h1 jobs1, manifest_jobs o1 h1 db jobs1 ->
    manifest_jobs o1 h1 (set_manifests (<[(o, mf_hash m) := mf_value m]> (cron_manifests db)) db) jobs1) as Hmono.
  { intros o1 h1 jobs1 (m1 & H1 & H1'). exists m1. split; [|done]. simpl. rewrite lookup_insert_ne; [done|]. intros E. rewrite E in Hnew. congruence. }
  split; [apply Hok|apply Hok| | |].
  - intros o1 h1 m1 H1. simpl in H1. rewrite lookup_insert_Some in H1. destruct H1 as [[[= <- <-] <-]|[_ H1]].
    + exists jobs, (mf_value m). simpl. by rewrite lookup_insert_eq.
    + destruct (ok_manifests _ Hok o1 h1 m1 H1) as (jobs1 & Hj1). eauto.
  - intros i d Hi. simpl. destruct (decide ((o, mf_hash m) = (dr_owner_id d, dr_desired_hash d))) as [<-|Hne].
    + rewrite lookup_insert_eq. eauto.
    + rewrite lookup_insert_ne by done. by eapply ok_declared.
  - intros o1 ag h1 Ho Hs. destruct (ok_certified _ Hok o1 ag h1 Ho Hs) as (jobs1 & Hj1 & Hh1). eauto.
Qed.
Lemma ok_declare i d db :
  is_Some (cron_manifests db !! (dr_owner_id d, dr_desired_hash d)) -> cron_ok db ->
  cron_ok (set_declarations (<[i := d]> (cron_declarations db)) db).
Proof.
  intros Hd Hok. split; [apply Hok|apply Hok|apply Hok| |apply Hok].
  intros j e. simpl. rewrite lookup_insert_Some. intros [[_ <-]|[_ H]]; [done|by eapply Hok].
Qed.
Lemma ok_add_definitions now o jobs db : cron_ok db -> cron_ok (set_jobs (add_definitions now o jobs (cron_jobs db)) db).
Proof.
  intros Hok. apply ok_rows; [done|apply add_definitions_keyed, Hok| |].
  - pose proof (ok_parse _ Hok) as Hp. revert Hp. generalize (cron_jobs db). unfold add_definitions. induction jobs as [|j jobs IH]; intros rows Hp; simpl; [done|].
    apply IH. destruct (rows !! pj_name j); [done|]. apply rows_parse_insert; [done|apply parses_new].
  - apply calm_same. intros n r o1 _ Hr _. by apply add_definitions_lookup.
Qed.
Lemma add_definitions_new now o jobs rows n r :
  add_definitions now o jobs rows !! n = Some r -> rows !! n = None -> cr_last_enqueued_at r = None.
Proof.
  revert rows. unfold add_definitions. induction jobs as [|j jobs IH]; intros rows Hr Hn; simpl in Hr; [congruence|].
  destruct (rows !! pj_name j) eqn:Hj; [by eapply IH|]. destruct (decide (n = pj_name j)) as [->|Hne].
  - pose proof (add_definitions_lookup now o jobs (<[pj_name j := new_cron_row now (Some o) j]> rows) (pj_name j) _ (lookup_insert_eq _ _ _)) as H.
    unfold add_definitions in H. rewrite H in Hr. by injection Hr as <-.
  - eapply IH; [exact Hr|]. by rewrite lookup_insert_ne.
Qed.
(** A publication is an evaluation of well-formed tables that have at least
    the rows there were. *)
Lemma publish_evaluates clk i c m db db' :
  from_client m -> publish jsonb_eqb clk i c m db = Ok db' -> cron_ok db ->
  exists db0 p, cron_ok db0 /\ evaluate_locked jsonb_eqb clk (owner_id c) true false db0 = Ok (p, db')
    /\ (forall n r, cron_jobs db !! n = Some r -> cron_jobs db0 !! n = Some r)
    /\ cron_owners db0 = cron_owners (ensure_owner (owner_id c) db)
    /\ forall n r, cron_jobs db0 !! n = Some r -> cron_jobs db !! n = None -> cr_last_enqueued_at r = None.
Proof.
  intros Hm Hp Hok. unfold publish in Hp. apply rbind_Ok in Hp as ([] & _ & Hp). set (o := owner_id c) in *.
  pose proof (ok_ensure_owner o db Hok) as Hok1. set (db1 := ensure_owner o db) in *.
  assert (cron_jobs db1 = cron_jobs db) as Ej1 by (unfold db1, ensure_owner; by destruct (cron_owners db !! o)).
  set (known := bool_decide (is_Some (cron_manifests db1 !! (o, mf_hash m)))) in *.
  apply rbind_Ok in Hp as (db2 & H2 & Hp). assert (cron_ok db2 /\ is_Some (cron_manifests db2 !! (o, mf_hash m))
    /\ cron_jobs db2 = cron_jobs db1 /\ cron_owners db2 = cron_owners db1) as (Hok2 & Hs2 & Ej2 & Eo2).
  { destruct known eqn:Hknown.
    - injection H2 as <-. split; [done|]. split; [by apply bool_decide_eq_true in Hknown|done].
    - destruct (contains_nul _); [done|]. injection H2 as <-. apply bool_decide_eq_false in Hknown. rewrite <- eq_None_not_Some in Hknown.
      split; [by apply ok_new_manifest|]. simpl. by rewrite lookup_insert_eq. }
  apply rbind_Ok in Hp as (db3 & H3 & Hp). destruct (runtime_instances db2 !! i); [|done]. injection H3 as <-.
  set (d := mkDeclared _ _ _ _ _) in *. pose proof (ok_declare i d db2 Hs2 Hok2) as Hok3.
  apply rbind_Ok in Hp as (db4 & H4 & Hp). apply rbind_Ok in Hp as ([p db5] & H5 & [= <-]).
  exists db4, p. destruct known.
  - injection H4 as <-. split; [done|]. split; [done|]. simpl. rewrite Ej2, Ej1. split; [done|]. split; [done|]. congruence.
  - apply rbind_Ok in H4 as (jobs & _ & [= <-]). split; [exact (ok_add_definitions _ _ _ _ Hok3)|]. split; [done|]. simpl. rewrite Ej2, Ej1.
    split; [intros ? ?; apply add_definitions_lookup|]. split; [done|]. intros ? ?. apply add_definitions_new.
Qed.

(** ** Operator actions *)

Lemma invalidate_owners owners db o :
  cron_owners (invalidate owners db) !! o
  = if decide (o ∈ owners) then (fun _ => no_agreement) <$> cron_owners db !! o else cron_owners db !! o.
Proof.
  revert db. unfold invalidate. induction owners as [|a owners IH]; intros db; simpl; [done|]. rewrite IH. simpl.
  destruct (decide (o = a)) as [->|Hne].
  - rewrite lookup_alter_eq, (decide_True (P := a ∈ a :: owners)) by constructor. destruct (decide _), (cron_owners db !! a); done.
  - rewrite lookup_alter_ne by done. destruct (decide (o ∈ owners)) as [Hi|Hi].
    + by rewrite decide_True by (by constructor).
    + rewrite decide_False; [done|]. by intros [?|?]%elem_of_cons.
Qed.
Lemma invalidate_rest owners db :
  cron_jobs (invalidate owners db) = cron_jobs db /\ cron_manifests (invalidate owners db) = cron_manifests db
  /\ cron_declarations (invalidate owners db) = cron_declarations db.
Proof. revert db. unfold invalidate. induction owners as [|a owners IH]; intros db; simpl; [done|].
  exact (IH (update_owner a (fun _ => no_agreement) db)). Qed.
Lemma ensure_owner_rest o db :
  cron_jobs (ensure_owner o db) = cron_jobs db /\ cron_manifests (ensure_owner o db) = cron_manifests db
  /\ cron_declarations (ensure_owner o db) = cron_declarations db.
Proof. unfold ensure_owner. by case_match. Qed.

(** What an action does to a row it selected. *)
Definition acted (clk : Clocks) (a : CronOwnerAction) (actor : string) (r : CronJobRow) : CronJobRow :=
  let t := write_clock clk in
  match a with
  | Adopt _ owner _ => set_owner t (Some owner) r
  | Restore _ | RestoreOwner _ => if is_retired r then set_enqueued t (Some t) (set_retired t None None None r) else r
  | Retire _ | RetireOwner _ => if is_retired r then r else set_retired t (Some t) (Some actor) (Some "operator") r
  end.
Lemma acted_name clk a actor r : cr_name (acted clk a actor r) = cr_name r.
Proof. destruct a; simpl; by repeat case_match. Qed.
Lemma acted_parses clk a actor r : parses r -> parses (acted clk a actor r).
Proof. destruct a; simpl; by repeat case_match. Qed.
Lemma apply_action_ok clk a actor names db :
  NoDup names ->
  exists db', apply_action jsonb_eqb clk a actor names db = Ok db'
    /\ (forall n, cron_jobs db' !! n = if decide (n ∈ names) then acted clk a actor <$> cron_jobs db !! n else cron_jobs db !! n)
    /\ cron_owners db' = cron_owners (match a with Adopt _ o _ => ensure_owner o db | _ => db end)
    /\ cron_manifests db' = cron_manifests db /\ cron_declarations db' = cron_declarations db.
Proof.
  intros Hn. unfold apply_action.
  assert (forall (guard : CronJobRow -> bool) f rows, (forall r, acted clk a actor r = if guard r then f r else r) ->
    exists rows', update_crons jsonb_eqb admin_session names guard f rows = Ok rows' /\
      forall n, rows' !! n = if decide (n ∈ names) then acted clk a actor <$> rows !! n else rows !! n) as Hu.
  { intros guard f rows Ha. destruct (update_crons_admin jsonb_eqb admin_session names guard f rows eq_refl Hn) as (rows' & -> & Hr).
    exists rows'. split; [done|]. intros n. rewrite Hr. destruct (decide _), (rows !! n) as [r|]; try done. simpl. by rewrite Ha. }
  destruct a as [n o e|n|o|n|o]; cbv zeta; [destruct (ensure_owner_rest o db) as (Ej & Em & Ed); rewrite <- Em, <- Ed, <- Ej|..];
    (edestruct Hu as (rows & -> & Hr); [intros r; simpl; by destruct (is_retired r)|]); eexists; done.
Qed.
Lemma action_selected a db n r :
  keyed (cron_jobs db) -> cron_jobs db !! n = Some r -> n ∈ map cr_name (selected a db) -> r ∈ selected a db.
Proof.
  intros Hk Hr (x & -> & Hx)%list_elem_of_fmap. unfold selected in *. apply elem_of_filter_b in Hx as [Hs Hx].
  apply list_cron_jobs_elem in Hx as Hx'. destruct Hx' as (m & Hm). pose proof (Hk m x Hm) as E. subst m. assert (x = r) as -> by congruence.
  by apply elem_of_filter_b.
Qed.
(** An applied action acts on the rows it selected and gives up the certificates
    of their owners. *)
Lemma operate_cases clk a actor apply db p db' :
  operate jsonb_eqb clk a actor apply db = Ok (p, db') -> keyed (cron_jobs db) ->
  (apply = false /\ db' = db)
  \/ (exists db1, db' = invalidate (affected a (selected a db)) db1
      /\ (forall n, cron_jobs db1 !! n = if decide (n ∈ map cr_name (selected a db)) then acted clk a actor <$> cron_jobs db !! n else cron_jobs db !! n)
      /\ cron_owners db1 = cron_owners (match a with Adopt _ o _ => ensure_owner o db | _ => db end)
      /\ cron_manifests db1 = cron_manifests db /\ cron_declarations db1 = cron_declarations db).
Proof.
  unfold operate. destruct (blank actor); [done|]. cbv zeta. destruct (_ && _); [done|]. intros ([] & _ & H)%rbind_Ok Hk.
  apply rbind_Ok in H as (db2 & H & [= _ <-]). destruct apply; [right|left; by injection H as <-].
  destruct (apply_action_ok clk a actor (map cr_name (selected a db)) db) as (db1 & H1 & H2); [by apply filter_names_NoDup|].
  rewrite H1 in H. injection H as <-. by exists db1.
Qed.
Lemma ok_operate clk a actor apply db p db' : operate jsonb_eqb clk a actor apply db = Ok (p, db') -> cron_ok db -> cron_ok db'.
Proof.
  intros H Hok. apply operate_cases in H as [[_ ->]|(db1 & -> & Hr & Eo & Em & Ed)]; [done| |apply Hok].
  destruct (invalidate_rest (affected a (selected a db)) db1) as (Ij & Im & Id).
  split; rewrite ?Ij, ?Im, ?Id, ?Em, ?Ed.
  - intros n r. rewrite Hr. destruct (decide _); [|apply Hok]. intros (x & Hx & ->)%fmap_Some. rewrite acted_name. by apply Hok.
  - intros n r. rewrite Hr. destruct (decide _); [|apply Hok]. intros (x & Hx & ->)%fmap_Some. apply acted_parses. by eapply Hok.
  - intros o h m Hm. destruct (ok_manifests _ Hok o h m Hm) as (jobs & Hj). exists jobs. eapply manifest_jobs_same; [|exact Hj]. by rewrite Im.
  - apply Hok.
  - intros o ag h Ho Hs. rewrite invalidate_owners in Ho. destruct (decide (o ∈ affected a (selected a db))) as [|Hn].
    { apply fmap_Some in Ho as (? & _ & ->). done. }
    assert (cron_owners db !! o = Some ag) as Ho'.
    { rewrite Eo in Ho. destruct a as [? o1 ?| | | |]; try done. unfold ensure_owner in Ho. destruct (cron_owners db !! o1); [done|].
      simpl in Ho. rewrite lookup_insert_ne in Ho; [done|]. intros <-. apply Hn. unfold affected. apply elem_of_app. right. constructor. }
    destruct (ok_certified _ Hok o ag h Ho' Hs) as (jobs & Hj & Hh). exists jobs. split; [eapply manifest_jobs_same; [|exact Hj]; by rewrite Im|].
    rewrite Ij. eapply (held_calm (fun x => x = o)); [done| |exact Hh]. apply calm_same. intros n r x -> Hx [Hox _]. rewrite Hr.
    rewrite decide_False; [done|]. intros Hsel%(action_selected a db n r); [|apply Hok|done]. apply Hn. unfold affected. apply elem_of_app. left.
    apply list_elem_of_omap. eauto.
Qed.
End Guarantees.
