(* ===== verification/CronGuarantees.v ===== *)
(** What holds of periodic jobs in every run: leaders that evaluate the same
    rows at once, clients that publish and reconcile, operators who act, and
    workers of older releases, in any order.  No fire is enqueued twice; a
    manifest that is applied is in force, and nothing else of its owner; and it
    is applied only after it has been agreed on for the grace period. *)

From S2P Require Import Prelude.
From S2P Require Import Error.
From S2P Require Import Json.
From S2P Require Import Job.
From S2P Require Import Canonical.
From S2P Require Import Cron.
From S2P Require Import CronFires.
From S2P Require Import Reconcile.
From S2P Require Import ReconcileFacts.
From S2P Require Import CronTables.

(** * The system *)

(** What a leader still means to enqueue: of a schedule, the last fire it knows
    of, and the fires to come. *)
Abbreviation Pending := (string * option time * list time)%type.
(** An evaluation of an owner that wrote: when, and the hash it agreed on with
    the end of its evidence. *)
Record Evaluation : Type := mkEvaluation { ev_owner : string; ev_at : time; ev_agreed : option (string * option time) }.

(** The tables, the jobs, and the leaders; and, for the record, every fire that
    was enqueued, the restarts of a schedule, and the evaluations, newest first. *)
Record World (D : Type) : Type := mkWorld {
  w_db : CronDb;
  w_data : D;
  w_pending : list Pending;
  w_fired : list (string * option time);
  w_evals : list Evaluation
}.
Arguments mkWorld {D}. Arguments w_db {D}. Arguments w_data {D}. Arguments w_pending {D}. Arguments w_fired {D}. Arguments w_evals {D}.

Definition evaluated (o : string) (t : time) (db : CronDb) : Evaluation :=
  mkEvaluation o t (cron_owners db !! o ≫= fun ag => h ← agreed_hash ag; Some (h, evidence_until ag)).
(** The fires of a schedule since it was created or restored, newest first. *)
Fixpoint fired_since (n : string) (log : list (string * option time)) : list time :=
  match log with
  | [] => []
  | (m, x) :: log => if String.eqb m n then match x with Some t => t :: fired_since n log | None => [] end else fired_since n log
  end.
Definition evals_of (o : string) (l : list Evaluation) : list Evaluation := List.filter (fun e => String.eqb (ev_owner e) o) l.
Definition restarts (names : list string) : list (string * option time) := map (fun n => (n, None)) names.
Definition restores (a : CronOwnerAction) : bool := match a with Restore _ | RestoreOwner _ => true | _ => false end.

Section System.
  Context (jsonb_eqb : json -> json -> bool) (jsonb_refl : forall v, jsonb_eqb v v = true).
  Context (manifest_hash : json -> string).
  Context {Cron Tz : Type} (parse_cron : string -> option Cron) (parse_tz : string -> option Tz).
  Context (iter_from : Cron -> Tz -> time -> nat -> option time) (iter_increasing : forall c z s, increasing (iter_from c z s)).
  Context {D : Type} (insert : PreparedJobInsert -> D -> result AwaError (JobRow * D)) (time_text : time -> string).

(** A client's configuration: its manifest is that of its jobs. *)
Definition client_ok (cfg : option (PeriodicReconciliation * PeriodicManifest * list PeriodicJob)) : Prop :=
  match cfg with
  | None => True
  | Some (_, m, jobs) => canonical_manifest manifest_hash jobs = Ok m /\ Forall i16_job jobs
  end.
Definition published (cfg : option (PeriodicReconciliation * PeriodicManifest * list PeriodicJob)) (t : time) (db : CronDb) : list Evaluation :=
  match cfg with None => [] | Some (c, _, _) => [evaluated (owner_id c) t db] end.

Inductive cron_step : World D -> World D -> Prop :=
  | StepPublish clk i iv sd cfg check db d ps log evs db' :
      client_ok cfg -> publish_evidence_checked jsonb_eqb clk i iv sd cfg check db = Ok db' ->
      cron_step (mkWorld db d ps log evs) (mkWorld db' d ps log (published cfg (eval_clock clk) db' ++ evs))
  | StepOlderRuntime i rt db d ps log evs :
      cron_step (mkWorld db d ps log evs) (mkWorld (write_runtime i rt db) d ps log evs)
  | StepCleanup now age db d ps log evs :
      cron_step (mkWorld db d ps log evs) (mkWorld (cleanup_runtime_snapshots now age db) d ps log evs)
  | StepReconcile clk o db d ps log evs p db' :
      reconcile jsonb_eqb clk o db = Ok (p, db') ->
      cron_step (mkWorld db d ps log evs) (mkWorld db' d ps log (evaluated o (eval_clock clk) db' :: evs))
  | StepOperate clk a actor apply db d ps log evs p db' :
      operate jsonb_eqb clk a actor apply db = Ok (p, db') ->
      cron_step (mkWorld db d ps log evs)
        (mkWorld db' d ps (restarts (if restores a then map cr_name (selected a db) else []) ++ log) evs)
  | StepUpsert now p db d ps log evs rows :
      upsert_cron_job jsonb_eqb now p (cron_jobs db) = Ok rows ->
      cron_step (mkWorld db d ps log evs) (mkWorld (set_jobs rows db) d ps log evs)
  | StepDelete n db d ps log evs b rows :
      delete_cron_job n (cron_jobs db) = Ok (b, rows) ->
      cron_step (mkWorld db d ps log evs) (mkWorld (set_jobs rows db) d ps (restarts [n] ++ log) evs)
  | StepPause now n by_ db d ps log evs b rows :
      pause_cron_job jsonb_eqb now n by_ (cron_jobs db) = Ok (b, rows) ->
      cron_step (mkWorld db d ps log evs) (mkWorld (set_jobs rows db) d ps log evs)
  | StepResume now n db d ps log evs b rows :
      resume_cron_job jsonb_eqb now n (cron_jobs db) = Ok (b, rows) ->
      cron_step (mkWorld db d ps log evs) (mkWorld (set_jobs rows db) d ps log evs)
  | StepTrigger n db d ps log evs row d' :
      trigger_cron_job insert n (cron_jobs db) d = Ok (row, d') ->
      cron_step (mkWorld db d ps log evs) (mkWorld db d' ps log evs)
  (** A leader reads a row and works out its fires ... *)
  | StepList now r db d ps log evs :
      r ∈ list_cron_jobs (cron_jobs db) ->
      cron_step (mkWorld db d ps log evs)
        (mkWorld db d ((cr_name r, cr_last_enqueued_at r, fires_of parse_cron parse_tz iter_from now r) :: ps) log evs)
  (** ... enqueues the next one ... *)
  | StepFire now n prev t ts db d ps1 ps2 log evs job rows d' :
      atomic_enqueue jsonb_eqb insert time_text now n t prev (cron_jobs db) d = Ok (Some job, (rows, d')) ->
      cron_step (mkWorld db d (ps1 ++ (n, prev, t :: ts) :: ps2) log evs)
        (mkWorld (set_jobs rows db) d' (ps1 ++ (n, Some t, ts) :: ps2) ((n, Some t) :: log) evs)
  (** ... or stops, having lost the race, failed, or crashed. *)
  | StepStop x db d ps1 ps2 log evs :
      cron_step (mkWorld db d (ps1 ++ x :: ps2) log evs) (mkWorld db d (ps1 ++ ps2) log evs).

Definition no_tables : CronDb := mkCronDb ∅ ∅ ∅ ∅ ∅.
Definition cron_start (w : World D) : Prop := exists d, w = mkWorld no_tables d [] [] [].
Definition cron_reachable (w : World D) : Prop := exists w0, cron_start w0 /\ rtc cron_step w0 w.

(** * Invariants *)

Definition pending_ok (x : Pending) : Prop :=
  let '(_, prev, ts) := x in StronglySorted Z.lt ts /\ forall t, t ∈ ts -> is_after prev t = true.
(** The fires of a schedule grow, up to the one its row remembers. *)
Definition log_ok (rows : CronJobs) (log : list (string * option time)) : Prop :=
  forall n, StronglySorted Z.gt (fired_since n log) /\
    forall t, head (fired_since n log) = Some t -> exists r, rows !! n = Some r /\ cr_last_enqueued_at r = Some t.
(** An unbroken agreement on [h] since [s]: evaluations of an owner, newest
    first, each before the evidence of the one before it ran out. *)
Inductive unbroken (h : string) (s : time) : option time -> list Evaluation -> Prop :=
  | UnbrokenFirst e u rest : ev_at e = s -> ev_agreed e = Some (h, u) -> unbroken h s u (e :: rest)
  | UnbrokenNext e u u' rest : unbroken h s (Some u) rest -> ev_at e < u -> ev_agreed e = Some (h, u') -> unbroken h s u' (e :: rest).
Definition evals_ok (db : CronDb) (evs : list Evaluation) : Prop :=
  forall o ag h s, cron_owners db !! o = Some ag -> agreed_hash ag = Some h -> agreed_since ag = Some s ->
  unbroken h s (evidence_until ag) (evals_of o evs).
Record world_ok (w : World D) : Prop := {
  wo_tables : cron_ok jsonb_eqb (w_db w);
  wo_pending : Forall pending_ok (w_pending w);
  wo_log : log_ok (cron_jobs (w_db w)) (w_fired w);
  wo_evals : evals_ok (w_db w) (w_evals w)
}.

Lemma log_ok_keeps rows rows' log : keeps_last rows rows' -> log_ok rows log -> log_ok rows' log.
Proof.
  intros Hk Hl n. destruct (Hl n) as [Hs Hh]. split; [done|]. intros t Ht. destruct (Hh t Ht) as (r & Hr & E).
  destruct (Hk n r Hr) as (r' & Hr' & E'). exists r'. split; [done|]. congruence.
Qed.
Lemma fired_since_restarts n names log : fired_since n (restarts names ++ log) = if decide (n ∈ names) then [] else fired_since n log.
Proof.
  induction names as [|m names IH]; simpl; [done|]. destruct (String.eqb_spec m n) as [->|Hne].
  - by rewrite decide_True by constructor.
  - rewrite IH. destruct (decide (n ∈ names)); [by rewrite decide_True by (by constructor)|].
    rewrite decide_False; [done|]. by intros [?|?]%elem_of_cons.
Qed.
(** A restart of the schedules that do not keep their last fire. *)
Lemma log_ok_restarts rows rows' names log :
  (forall n r, n ∉ names -> rows !! n = Some r -> exists r', rows' !! n = Some r' /\ cr_last_enqueued_at r' = cr_last_enqueued_at r) ->
  log_ok rows log -> log_ok rows' (restarts names ++ log).
Proof.
  intros Hk Hl n. rewrite fired_since_restarts. destruct (decide (n ∈ names)) as [|Hn]; [split; [constructor|done]|].
  destruct (Hl n) as [Hs Hh]. split; [done|]. intros t Ht. destruct (Hh t Ht) as (r & Hr & E).
  destruct (Hk n r Hn Hr) as (r' & Hr' & E'). exists r'. split; [done|]. congruence.
Qed.
(** The fire that is enqueued comes after the last one. *)
Lemma log_ok_fire rows n r prev t log now :
  rows !! n = Some r -> cr_last_enqueued_at r = prev -> is_after prev t = true -> log_ok rows log ->
  log_ok (<[n := set_enqueued now (Some t) r]> rows) ((n, Some t) :: log).
Proof.
  intros Hr Hp Ha Hl m. simpl. destruct (String.eqb_spec n m) as [<-|Hne].
  - destruct (Hl n) as [Hs Hh]. split.
    + constructor; [done|]. destruct (fired_since n log) as [|u l]; [constructor|]. destruct (Hh u eq_refl) as (r1 & Hr1 & E).
      assert (prev = Some u) as -> by congruence. simpl in Ha. apply Z.ltb_lt in Ha. apply StronglySorted_inv in Hs as [_ Hs].
      constructor; [lia|]. eapply Forall_impl; [exact Hs|]. simpl. lia.
    + intros u [= <-]. eexists. by rewrite lookup_insert_eq.
  - destruct (Hl m) as [Hs Hh]. split; [done|]. intros u Hu. destruct (Hh u Hu) as (r1 & Hr1 & E). exists r1. by rewrite lookup_insert_ne.
Qed.

Lemma evals_ok_same db db' evs : cron_owners db' = cron_owners db -> evals_ok db evs -> evals_ok db' evs.
Proof. unfold evals_ok. by intros ->. Qed.
(** Agreements that are kept, or given up. *)
Lemma evals_ok_fewer db db' evs :
  (forall o ag h s, cron_owners db' !! o = Some ag -> agreed_hash ag = Some h -> agreed_since ag = Some s -> cron_owners db !! o = Some ag) ->
  evals_ok db evs -> evals_ok db' evs.
Proof. intros H He o ag h s Ho Hh Hs. eapply He; eauto. Qed.

(** The agreement an evaluation carries on, or begins. *)
Lemma since_unbroken db evs o h now u :
  evals_ok db evs ->
  unbroken h (since_of (default no_agreement (cron_owners db !! o)) (Some h) now) u (mkEvaluation o now (Some (h, u)) :: evals_of o evs).
Proof.
  intros He. unfold since_of. destruct (cron_owners db !! o) as [ag|] eqn:Ho; simpl; [|by apply UnbrokenFirst].
  case_bool_decide as Hh; simpl; [|by apply UnbrokenFirst]. destruct (evidence_until ag) as [v|] eqn:Hv; [|by apply UnbrokenFirst].
  destruct (Z.ltb_spec now v); [|by apply UnbrokenFirst]. destruct (agreed_since ag) as [s|] eqn:Hs; simpl; [|by apply UnbrokenFirst].
  eapply UnbrokenNext; [|done|done]. rewrite <- Hv. by eapply He.
Qed.
Lemma evals_of_cons e o l : evals_of o (e :: l) = if String.eqb (ev_owner e) o then e :: evals_of o l else evals_of o l.
Proof. done. Qed.
Lemma outcome_evals clk o apply db p db' evs :
  outcome jsonb_eqb clk o apply db p db' -> evals_ok db evs -> evals_ok db' (evaluated o (eval_clock clk) db' :: evs).
Proof.
  intros Hout He o1 ag h1 s Ho Hh Hs. rewrite evals_of_cons. cbn [evaluated ev_owner].
  destruct (String.eqb_spec o o1) as [<-|Hne].
  - destruct Hout as [_ ->|h jobs db1 ds since _ _ _ Ha _ Hdb].
    + simpl in Ho. rewrite lookup_alter_eq in Ho. apply fmap_Some in Ho as (? & _ & ->). done.
    + assert (cron_owners db' = cron_owners db1) as E by (destruct (rp_applied p); [by destruct Hdb as (rows & -> & _)|by subst]).
      unfold evaluated. rewrite E in *. pose proof (ag_owner _ _ _ _ _ _ _ _ Ha ag Ho) as ->. rewrite Ho. simpl in *.
      injection Hh as <-. injection Hs as <-. apply (since_unbroken db evs o h (eval_clock clk) (min_expiry ds) He).
  - eapply He; [|exact Hh|exact Hs]. destruct Hout as [_ ->|h jobs db1 ds since _ _ _ Ha _ Hdb].
    + simpl in Ho. by rewrite lookup_alter_ne in Ho.
    + assert (cron_owners db' = cron_owners db1) as E by (destruct (rp_applied p); [by destruct Hdb as (rows & -> & _)|by subst]).
      rewrite E, (ag_rest _ _ _ _ _ _ _ _ Ha) in Ho by done. done.
Qed.

(** * Every step keeps them *)

Lemma client_manifest c m jobs : client_ok (Some (c, m, jobs)) -> from_client m.
Proof. intros [Hm Hi]. destruct (manifest_reads manifest_hash jobs m Hm Hi) as [Hd Hn]. by exists (merge_sort by_name jobs). Qed.
Lemma ensure_owner_agreements o db o1 ag h :
  cron_owners (ensure_owner o db) !! o1 = Some ag -> agreed_hash ag = Some h -> cron_owners db !! o1 = Some ag.
Proof.
  unfold ensure_owner. destruct (cron_owners db !! o); [done|]. simpl. rewrite lookup_insert_Some. by intros [[_ <-]|[_ H]].
Qed.
Lemma write_runtime_agreements i rt db o ag h s :
  cron_owners (write_runtime i rt db) !! o = Some ag -> agreed_hash ag = Some h -> agreed_since ag = Some s -> cron_owners db !! o = Some ag.
Proof.
  unfold write_runtime, cron_unknown_runtime. case_bool_decide; simpl; [done|]. rewrite lookup_fmap. by intros (? & _ & ->)%fmap_Some.
Qed.
Lemma publish_ok clk i c m db db' evs log :
  from_client m -> publish jsonb_eqb clk i c m db = Ok db' -> cron_ok jsonb_eqb db -> log_ok (cron_jobs db) log -> evals_ok db evs ->
  cron_ok jsonb_eqb db' /\ log_ok (cron_jobs db') log /\ evals_ok db' (evaluated (owner_id c) (eval_clock clk) db' :: evs).
Proof.
  intros Hm Hp Hok Hl He. destruct (publish_evaluates _ _ _ _ _ _ _ Hm Hp Hok) as (db0 & p & Hok0 & Hev & Hrows & Eo & _).
  destruct (evaluate_outcome jsonb_eqb jsonb_refl clk (owner_id c) false db0 Hok0) as (p' & db1 & H1 & Hout). rewrite Hev in H1. injection H1 as <- <-.
  split; [by eapply outcome_ok|]. split.
  - eapply log_ok_keeps; [by eapply outcome_last|]. eapply log_ok_keeps; [|exact Hl]. intros n r Hr. exists r. auto.
  - eapply outcome_evals; [exact Hout|]. eapply evals_ok_fewer; [|exact He]. intros o ag h s Ho Hh _. rewrite Eo in Ho. by eapply ensure_owner_agreements.
Qed.
Lemma mild_last s n guard f rows w rows' :
  (forall r, cr_last_enqueued_at (f r) = cr_last_enqueued_at r) -> update_cron jsonb_eqb s n guard f rows = Ok (w, rows') -> keeps_last rows rows'.
Proof.
  intros Hf [[_ ->]|(r & Hr & _ & _ & _ & ->)]%update_cron_cases; [apply keeps_last_refl|].
  apply keeps_last_insert. intros x Hx. rewrite Hf. congruence.
Qed.
Lemma upsert_last now p rows rows' : upsert_cron_job jsonb_eqb now p rows = Ok rows' -> keeps_last rows rows'.
Proof.
  unfold upsert_cron_job. intros ([] & _ & H)%rbind_Ok. destruct (rows !! pj_name p) as [r|] eqn:Hr.
  - apply rbind_Ok in H as ([w rows1] & Hu & H). assert (rows1 = rows') as -> by (destruct (_ || _); congruence). by eapply mild_last in Hu.
  - injection H as <-. apply keeps_last_insert. congruence.
Qed.
Lemma operate_log clk a actor apply db p db' log :
  operate jsonb_eqb clk a actor apply db = Ok (p, db') -> keyed (cron_jobs db) -> log_ok (cron_jobs db) log ->
  log_ok (cron_jobs db') (restarts (if restores a then map cr_name (selected a db) else []) ++ log).
Proof.
  intros H Hk Hl. eapply log_ok_restarts; [|exact Hl]. intros n r Hn Hr.
  apply operate_cases in H as [[_ ->]|(db1 & -> & Hrows & _)]; [by eauto| |done].
  rewrite (proj1 (invalidate_rest _ _)), Hrows, Hr. destruct (decide (n ∈ map cr_name (selected a db))); [|by eauto].
  eexists. split; [done|]. destruct a; simpl in *; try done; by destruct (is_retired r).
Qed.
Lemma operate_evals clk a actor apply db p db' evs :
  operate jsonb_eqb clk a actor apply db = Ok (p, db') -> keyed (cron_jobs db) -> evals_ok db evs -> evals_ok db' evs.
Proof.
  intros H Hk He. apply operate_cases in H as [[_ ->]|(db1 & -> & _ & Eo & _)]; [done| |done].
  eapply evals_ok_fewer; [|exact He]. intros o ag h s Ho Hh _. rewrite invalidate_owners in Ho.
  destruct (decide (o ∈ affected a (selected a db))); [by apply fmap_Some in Ho as (? & _ & ->)|]. rewrite Eo in Ho.
  destruct a; try done. by eapply ensure_owner_agreements.
Qed.
Lemma delete_log n b rows rows' log : delete_cron_job n rows = Ok (b, rows') -> log_ok rows log -> log_ok rows' (restarts [n] ++ log).
Proof.
  intros H Hl. eapply log_ok_restarts; [|exact Hl]. intros m r Hm Hr. unfold delete_cron_job in H.
  assert (m <> n) by (intros ->; apply Hm; constructor).
  destruct (rows !! n); [|injection H as _ <-; eauto]. apply rbind_Ok in H as ([] & _ & [= _ <-]). exists r. by rewrite lookup_delete_ne.
Qed.
Lemma enqueue_cases now n t prev rows d job rows' d' :
  atomic_enqueue jsonb_eqb insert time_text now n t prev rows d = Ok (Some job, (rows', d')) ->
  exists r, rows !! n = Some r /\ cr_last_enqueued_at r = prev /\ cr_paused_at r = None /\ cr_retired_at r = None
    /\ rows' = <[n := set_enqueued now (Some t) r]> rows /\ insert (fired_insert time_text (set_enqueued now (Some t) r) t) d = Ok (job, d').
Proof.
  unfold atomic_enqueue. intros ([w rows1] & Hu & H)%rbind_Ok.
  apply update_cron_cases in Hu as [[-> ->]|(r & Hr & Hg & _ & -> & ->)]; [done|]. apply rbind_Ok in H as ([job1 d1] & Hi & [= <- <- <-]).
  exists r. apply andb_prop in Hg as [[Hp%bool_decide_eq_true Hpa%negb_true_iff]%andb_prop Hre%negb_true_iff%is_retired_spec].
  unfold is_paused in Hpa. apply bool_decide_eq_false in Hpa. rewrite <- eq_None_not_Some in Hpa. done.
Qed.
Lemma enqueue_ok now n t prev db d job rows' d' :
  atomic_enqueue jsonb_eqb insert time_text now n t prev (cron_jobs db) d = Ok (Some job, (rows', d')) ->
  cron_ok jsonb_eqb db -> cron_ok jsonb_eqb (set_jobs rows' db).
Proof.
  intros H Hok. unfold atomic_enqueue in H. apply rbind_Ok in H as ([w rows1] & Hu & H).
  assert (rows1 = rows') as -> by (destruct w; [by apply rbind_Ok in H as ([? ?] & _ & [= _ <- _])|done]).
  by eapply ok_update_mild; [apply mild_enqueued|exact Hu|].
Qed.

Lemma cron_step_ok w w' : cron_step w w' -> world_ok w -> world_ok w'.
Proof.
  intros Hs [Ht Hp Hl He]. destruct Hs; simpl in *.
  - destruct cfg as [[[c m] jobs]|]; simpl in *.
    + apply rbind_Ok in H0 as (db1 & H1 & H2). assert (db1 = db') as ->.
      { destruct check; [|congruence]. apply rbind_Ok in H2 as ([] & _ & H2). congruence. }
      pose proof (client_manifest c m jobs H) as Hm.
      pose proof (ok_write_runtime jsonb_eqb i (mkRuntimeRow (tx_now clk) iv sd (Some CRON_PROTOCOL_VERSION)) db Ht) as Ht1.
      destruct (publish_ok clk i c m _ db' evs log Hm H1 Ht1) as (? & ? & ?); [done| |by split].
      eapply evals_ok_fewer; [|exact He]. apply write_runtime_agreements.
    + injection H0 as <-. split; simpl; [by apply ok_write_runtime|done|done|]. eapply evals_ok_fewer; [|exact He]. apply write_runtime_agreements.
  - split; simpl; [by apply ok_write_runtime|done| |eapply evals_ok_fewer; [|exact He]; apply write_runtime_agreements].
    unfold write_runtime, cron_unknown_runtime. by case_bool_decide.
  - split; simpl; [by apply ok_cleanup|done|done|done].
  - destruct (evaluate_outcome jsonb_eqb jsonb_refl clk o true db Ht) as (p' & db1 & H1 & Hout). unfold reconcile in H. rewrite H in H1. injection H1 as <- <-.
    split; simpl; [by eapply outcome_ok|done| |by eapply outcome_evals]. eapply log_ok_keeps; [by eapply outcome_last|done].
  - split; simpl; [by eapply ok_operate|done|eapply operate_log; [exact H|apply Ht|done]|eapply operate_evals; [exact H|apply Ht|done]].
  - split; simpl; [by eapply ok_upsert|done| |done]. eapply log_ok_keeps; [by eapply upsert_last|done].
  - split; simpl; [by eapply ok_delete|done|by eapply delete_log|done].
  - unfold pause_cron_job in H. apply rbind_Ok in H as ([wr rows1] & Hu & [= _ <-]).
    split; simpl; [eapply ok_update_mild; [|exact Hu|done]; apply mild_pause|done| |done]. eapply log_ok_keeps; [by eapply mild_last in Hu|done].
  - unfold resume_cron_job in H. apply rbind_Ok in H as ([wr rows1] & Hu & [= _ <-]).
    split; simpl; [eapply ok_update_mild; [|exact Hu|done]; apply mild_pause|done| |done]. eapply log_ok_keeps; [by eapply mild_last in Hu|done].
  - done.
  - split; simpl; [done| |done|done]. constructor; [|done]. unfold pending_ok, fires_of. destruct (_ || _); [split; [constructor|by intros ? ?%elem_of_nil]|].
    by apply compute_fire_times_after.
  - pose proof (enqueue_cases _ _ _ _ _ _ _ _ _ H) as (r & Hr & Hpr & _ & _ & -> & _). apply Forall_app in Hp as [Hp1 [[Hsort Haft] Hp2]%Forall_cons].
    apply StronglySorted_inv in Hsort as [Hsort Hlt]. split; simpl; [by eapply enqueue_ok| | |done].
    + apply Forall_app. split; [done|]. constructor; [|done]. split; [done|]. intros u Hu. simpl. apply Z.ltb_lt. by apply (proj1 (Forall_forall _ _) Hlt).
    + eapply log_ok_fire; [done|exact Hpr| |done]. apply Haft. constructor.
  - split; simpl; try done. apply Forall_app in Hp as [Hp1 [_ Hp2]%Forall_cons]. by apply Forall_app.
Qed.
Lemma reachable_world_ok w : cron_reachable w -> world_ok w.
Proof.
  intros (w0 & (d & ->) & Hr). assert (world_ok (mkWorld no_tables d [] [] [])) as H0.
  { split; simpl; [split|constructor| |]; try (intros ? *; simpl; by rewrite ?lookup_empty).
    intros n. split; [constructor|done]. }
  revert H0. induction Hr as [|w1 w2 w3 Hs _ IH]; [done|]. intros H. apply IH. by eapply cron_step_ok.
Qed.

(** * What holds in every run *)

(** C33. However many leaders evaluate the same schedule at once, each of its fires
    is enqueued at most once: in every state a run of publications,
    reconciliations, operators' and admins' calls and evaluations reaches, the
    fires enqueued since the schedule was created, deleted or restored are
    strictly increasing, so no fire is enqueued twice, and the schedule's row
    remembers the newest.  A leader's read of a row, its computation of fires and
    each of its enqueues are separate steps.  The iterator over a cron expression
    must yield increasing times, [jsonb] equality must be reflexive, and a
    client's manifest is that of its jobs. *)
Theorem fires_enqueued_once w n :
  cron_reachable w ->
  StronglySorted Z.gt (fired_since n (w_fired w))
  /\ NoDup (fired_since n (w_fired w))
  /\ forall t, head (fired_since n (w_fired w)) = Some t ->
     exists r, cron_jobs (w_db w) !! n = Some r /\ cr_last_enqueued_at r = Some t.
Proof.
  intros Hr%reachable_world_ok. destruct (wo_log _ Hr n) as [Hs Hh]. split; [done|]. split; [|done].
  clear Hh. induction Hs as [|t l _ IH Ht]; constructor; [|done]. intros Hin. apply (proj1 (Forall_forall _ _) Ht) in Hin. lia.
Qed.

(** A synchronized hash certifies what the heartbeat takes it for: in every
    state that is reached, each schedule of that manifest is there, active, owned
    by the owner, and defined as the manifest says. *)
Theorem synced_hash_certifies w o ag h :
  cron_reachable w -> cron_owners (w_db w) !! o = Some ag -> synced_hash ag = Some h ->
  exists jobs, manifest_jobs o h (w_db w) jobs
    /\ forall j, j ∈ jobs -> exists r, cron_jobs (w_db w) !! pj_name j = Some r /\ active_of o r /\ agrees jsonb_eqb j r.
Proof. intros Hr%reachable_world_ok Ho Hh. by eapply (ok_certified _ _ (wo_tables _ Hr)). Qed.

(** C34. Reconciling an owner never fails, in any state such a run reaches.  When it
    applies, all live declarations share one manifest, and afterwards the owner's
    active schedules are exactly the ones of that manifest, with its definitions.
    A schedule of another owner, or of none, is never touched. *)
Theorem reconcile_converges w clk o :
  cron_reachable w ->
  exists p db', reconcile jsonb_eqb clk o (w_db w) = Ok (p, db')
    /\ (rp_applied p = true ->
        exists h jobs, (forall d, d ∈ declarations_of o (eval_clock clk) (w_db w) -> cd_desired_hash d = h)
          /\ manifest_jobs o h (w_db w) jobs /\ converged jsonb_eqb o jobs (cron_jobs db'))
    /\ forall n r, cron_jobs (w_db w) !! n = Some r -> cr_owner_id r <> Some o -> cron_jobs db' !! n = Some r.
Proof.
  intros Hr%reachable_world_ok. pose proof (wo_tables _ Hr) as Hok.
  destruct (evaluate_outcome jsonb_eqb jsonb_refl clk o true (w_db w) Hok) as (p & db' & He & Hout).
  exists p, db'. split; [done|]. split; [|by eapply outcome_others].
  intros Ha. destruct (outcome_converged _ _ _ _ _ _ _ Hok Hout Ha) as (h & jobs & Hc & Hj & _ & Hconv).
  exists h, jobs. by apply consensus_agree in Hc as [_ Hc].
Qed.

(** Reconciliation retires a schedule only after the grace period: no live
    runtime speaks another protocol, every evaluation of the owner since some
    instant has agreed on the manifest, each before the evidence of the one
    before it ran out, that instant lies at least every live declaration's grace
    period back, and the manifest does not name the schedule. *)
Theorem retired_after_grace w clk o p db' :
  cron_reachable w -> reconcile jsonb_eqb clk o (w_db w) = Ok (p, db') -> rp_applied p = true ->
  let now := eval_clock clk in
  let ds := declarations_of o now (w_db w) in
  exists h s jobs,
    blocking_of now (w_db w) = []
    /\ unbroken h s (min_expiry ds) (mkEvaluation o now (Some (h, min_expiry ds)) :: evals_of o (w_evals w))
    /\ (forall d, d ∈ ds -> cd_desired_hash d = h /\ cd_grace_ms d <= num_milliseconds (now - s))
    /\ manifest_jobs o h (w_db w) jobs
    /\ forall n r r', cron_jobs (w_db w) !! n = Some r -> cr_retired_at r = None ->
       cron_jobs db' !! n = Some r' -> cr_retired_at r' <> None -> cr_owner_id r = Some o /\ n ∉ map pj_name jobs.
Proof.
  intros Hr%reachable_world_ok Hrec Happ now ds. pose proof (wo_tables _ Hr) as Hok.
  destruct (evaluate_outcome jsonb_eqb jsonb_refl clk o true (w_db w) Hok) as (p' & db1 & H1 & Hout).
  unfold reconcile in Hrec. rewrite Hrec in H1. injection H1 as <- <-.
  destruct (outcome_converged _ _ _ _ _ _ _ Hok Hout Happ) as (h & jobs & Hc & Hj & Hb & [Hheld _]).
  pose proof (outcome_others _ _ _ _ _ _ _ Hout) as Hothers.
  destruct Hout as [?|h' jobs' db2 ds' since _ Hc' _ _ Hleft _]; [congruence|].
  assert (h' = h) as -> by (unfold ds' in Hc'; congruence). exists h, since, jobs. split; [done|]. split; [by apply since_unbroken, Hr|].
  split; [|split; [done|]].
  - intros d Hd. split; [by apply (proj2 (consensus_agree _ _ Hc))|]. rewrite Happ in Hleft. symmetry in Hleft.
    apply andb_prop in Hleft as [_ Hleft%Z.eqb_eq]. unfold grace_left, max_grace in Hleft.
    destruct (max_of (map cd_grace_ms ds')) as [g|] eqn:Hg.
    + apply max_of_spec in Hg as [_ Hg]. specialize (Hg (cd_grace_ms d) (list_elem_of_fmap_2 _ _ _ Hd)). simpl in Hleft. unfold i64_max in Hleft.
      change (eval_clock clk) with now in Hleft. lia.
    + apply max_of_None in Hg. apply fmap_nil_inv in Hg. unfold ds' in Hg. change (ds = []) in Hg. rewrite Hg in Hd. by apply elem_of_nil in Hd.
  - intros n r r' Hn Hre Hn' Hre'. split.
    + destruct (decide (cr_owner_id r = Some o)) as [|Hne]; [done|]. pose proof (Hothers n r Hn Hne). congruence.
    + intros (j & -> & Hjin)%list_elem_of_fmap. destruct (Hheld j Hjin) as (x & Hx & [_ Hxr] & _). congruence.
Qed.

(** * Evaluations *)

Lemma fence_enqueued now t r : is_retired r = false -> fence_update jsonb_eqb plain r (set_enqueued now t r) = Ok (Some (set_enqueued now t r)).
Proof.
  intros Hre. unfold fence_update. simpl. rewrite !(bool_decide_true (_ = _)) by done. simpl. rewrite Hre.
  rewrite (same_definition_refl jsonb_eqb jsonb_refl) by done. by rewrite String.eqb_refl, Z.eqb_refl, andb_false_r.
Qed.
Lemma enqueue_fresh now r t rows d job d' :
  rows !! cr_name r = Some r -> cr_paused_at r = None -> cr_retired_at r = None -> insert (fired_insert time_text r t) d = Ok (job, d') ->
  atomic_enqueue jsonb_eqb insert time_text now (cr_name r) t (cr_last_enqueued_at r) rows d
  = Ok (Some job, (<[cr_name r := set_enqueued now (Some t) r]> rows, d')).
Proof.
  intros Hr Hp Hre Hi. unfold atomic_enqueue, update_cron. rewrite Hr, bool_decide_true by done.
  unfold is_paused. rewrite Hp, bool_decide_false by (by intros [? ?]). pose proof (proj2 (is_retired_spec r) Hre) as Hir. rewrite Hir. simpl.
  rewrite fence_enqueued by done. simpl. change (fired_insert time_text (set_enqueued now (Some t) r) t) with (fired_insert time_text r t).
  by rewrite Hi.
Qed.
Lemma enqueue_fires_all (after : PreparedJobInsert -> D -> D) now r rows d ts :
  (forall t d, exists job, insert (fired_insert time_text r t) d = Ok (job, after (fired_insert time_text r t) d)) ->
  rows !! cr_name r = Some r -> cr_paused_at r = None -> cr_retired_at r = None ->
  enqueue_fires jsonb_eqb insert time_text now (cr_name r) ts (cr_last_enqueued_at r) rows d
  = (match last ts with Some t => <[cr_name r := set_enqueued now (Some t) r]> rows | None => rows end,
     foldl (fun d t => after (fired_insert time_text r t) d) d ts).
Proof.
  intros Hi. revert r rows d Hi. induction ts as [|t ts IH]; intros r rows d Hi Hr Hp Hre; [done|].
  cbn [enqueue_fires]. destruct (Hi t d) as (job & Hj). rewrite (enqueue_fresh now r t rows d job _ Hr Hp Hre Hj).
  set (r1 := set_enqueued now (Some t) r). specialize (IH r1 (<[cr_name r := r1]> rows) (after (fired_insert time_text r t) d) Hi).
  rewrite lookup_insert_eq in IH. specialize (IH eq_refl Hp Hre). change (cr_name r) with (cr_name r1) at 1.
  change (Some t) with (cr_last_enqueued_at r1) at 1. rewrite IH. rewrite last_cons. f_equal. destruct (last ts) as [u|]; [|done].
  rewrite insert_insert_eq. done.
Qed.

(** An evaluation that is not raced enqueues what is due: for an active
    schedule whose jobs can be inserted, one job per fire it computed, in order,
    and the row remembers the last of them. *)
Theorem evaluation_enqueues_due (after : PreparedJobInsert -> D -> D) now r rows d :
  (forall t d, exists job, insert (fired_insert time_text r t) d = Ok (job, after (fired_insert time_text r t) d)) ->
  rows !! cr_name r = Some r -> cr_paused_at r = None -> cr_retired_at r = None ->
  let fires := compute_fire_times parse_cron parse_tz iter_from r now CRON_CATCH_UP_LIMIT in
  evaluate_row parse_cron parse_tz iter_from jsonb_eqb insert time_text now r (rows, d)
  = (match last fires with Some t => <[cr_name r := set_enqueued now (Some t) r]> rows | None => rows end,
     foldl (fun d t => after (fired_insert time_text r t) d) d fires).
Proof.
  intros Hi Hr Hp Hre fires. unfold evaluate_row, fires_of. rewrite (proj2 (is_retired_spec r) Hre).
  unfold is_paused. rewrite Hp, bool_decide_false by (by intros [? ?]). simpl. by apply enqueue_fires_all.
Qed.

(** A leader's loop over the fires of a row, as steps. *)
Lemma enqueue_fires_runs now n ts prev db d ps1 ps2 log evs :
  exists log', let '(rows, d') := enqueue_fires jsonb_eqb insert time_text now n ts prev (cron_jobs db) d in
    rtc cron_step (mkWorld db d (ps1 ++ (n, prev, ts) :: ps2) log evs) (mkWorld (set_jobs rows db) d' (ps1 ++ ps2) log' evs).
Proof.
  revert prev db d log. induction ts as [|t ts IH]; intros prev db d log; cbn [enqueue_fires].
  - exists log. replace (set_jobs (cron_jobs db) db) with db by (by destruct db). apply rtc_once, StepStop.
  - destruct (atomic_enqueue jsonb_eqb insert time_text now n t prev (cron_jobs db) d) as [[[job|] [rows1 d1]]|e] eqn:He.
    + destruct (IH (Some t) (set_jobs rows1 db) d1 ((n, Some t) :: log)) as (log' & H). exists log'. change (cron_jobs (set_jobs rows1 db)) with rows1 in H.
      destruct (enqueue_fires _ _ _ _ _ _ _ _ _) as [rows d']. eapply rtc_l; [by eapply StepFire|]. exact H.
    + exists log. assert (rows1 = cron_jobs db /\ d1 = d) as [-> ->].
      { unfold atomic_enqueue in He. apply rbind_Ok in He as ([w rows2] & Hu & He).
        apply update_cron_cases in Hu as [[-> ->]|(r & _ & _ & _ & -> & _)]; [by injection He|]. by apply rbind_Ok in He as ([? ?] & _ & ?). }
      replace (set_jobs (cron_jobs db) db) with db by (by destruct db). apply rtc_once, StepStop.
    + exists log. replace (set_jobs (cron_jobs db) db) with db by (by destruct db). apply rtc_once, StepStop.
Qed.

Definition pend (now : time) (r : CronJobRow) : Pending :=
  (cr_name r, cr_last_enqueued_at r, fires_of parse_cron parse_tz iter_from now r).
Lemma list_rows_runs now rs db d ps log evs :
  (forall r, r ∈ rs -> r ∈ list_cron_jobs (cron_jobs db)) ->
  rtc cron_step (mkWorld db d ps log evs) (mkWorld db d (rev (map (pend now) rs) ++ ps) log evs).
Proof.
  revert ps. induction rs as [|r rs IH]; intros ps Hr; simpl; [done|]. rewrite <- app_assoc. eapply rtc_l.
  - apply (StepList now r). apply Hr. constructor.
  - apply IH. intros x Hx. apply Hr. by constructor.
Qed.
Lemma rows_fire_runs now rs db d ps log evs :
  exists log', let '(rows, d') := foldl (fun w r => evaluate_row parse_cron parse_tz iter_from jsonb_eqb insert time_text now r w) (cron_jobs db, d) rs in
    rtc cron_step (mkWorld db d (rev (map (pend now) rs) ++ ps) log evs) (mkWorld (set_jobs rows db) d' ps log' evs).
Proof.
  revert db d log. induction rs as [|r rs IH]; intros db d log; simpl.
  - exists log. by replace (set_jobs (cron_jobs db) db) with db by (by destruct db).
  - destruct (enqueue_fires_runs now (cr_name r) (fires_of parse_cron parse_tz iter_from now r) (cr_last_enqueued_at r) db d
                (rev (map (pend now) rs)) ps log evs) as (log1 & H1).
    change (evaluate_row parse_cron parse_tz iter_from jsonb_eqb insert time_text now r (cron_jobs db, d))
      with (enqueue_fires jsonb_eqb insert time_text now (cr_name r) (fires_of parse_cron parse_tz iter_from now r) (cr_last_enqueued_at r) (cron_jobs db) d).
    destruct (enqueue_fires _ _ _ _ _ _ _ _ _) as [rows1 d1]. destruct (IH (set_jobs rows1 db) d1 log1) as (log' & H2).
    exists log'. change (cron_jobs (set_jobs rows1 db)) with rows1 in H2. destruct (foldl _ _ _) as [rows d'].
    rewrite <- app_assoc. etrans; [exact H1|exact H2].
Qed.
Lemma sync_owners_run clk owners db d ps log evs :
  exists evs', rtc cron_step (mkWorld db d ps log evs) (mkWorld (foldl (sync_owner jsonb_eqb clk) db owners) d ps log evs').
Proof.
  revert db evs. induction owners as [|o owners IH]; intros db evs; simpl; [by exists evs|].
  unfold sync_owner at 2. destruct (reconcile jsonb_eqb clk o db) as [[p db1]|e] eqn:Hr; [|apply IH].
  destruct (IH db1 (evaluated o (eval_clock clk) db1 :: evs)) as (evs' & H). exists evs'. eapply rtc_l; [by eapply StepReconcile|exact H].
Qed.
Lemma sync_jobs_run clk jobs db d ps log evs :
  rtc cron_step (mkWorld db d ps log evs) (mkWorld (foldl (sync_job jsonb_eqb clk) db jobs) d ps log evs).
Proof.
  revert db. induction jobs as [|j jobs IH]; intros db; simpl; [done|]. unfold sync_job at 2.
  destruct (upsert_cron_job jsonb_eqb (tx_now clk) j (cron_jobs db)) as [rows|e] eqn:Hu; [|apply IH].
  eapply rtc_l; [by eapply StepUpsert|apply IH].
Qed.

(** The leader's two cron tasks are runs of the system, so that what holds of
    every run holds of them: an evaluation of all schedules, whose jobs and rows
    are those its steps leave, and a synchronization of the owners and of the
    schedules the leader registers itself. *)
Theorem leader_tasks_run now clk periodic_jobs db d ps log evs :
  (exists log', let '(rows, d') := evaluate_cron_schedules parse_cron parse_tz iter_from jsonb_eqb insert time_text now (cron_jobs db) d in
     rtc cron_step (mkWorld db d ps log evs) (mkWorld (set_jobs rows db) d' ps log' evs))
  /\ (exists evs', rtc cron_step (mkWorld db d ps log evs) (mkWorld (sync_periodic_jobs_to_db jsonb_eqb clk periodic_jobs db) d ps log evs')).
Proof.
  split.
  - unfold evaluate_cron_schedules. destruct (rows_fire_runs now (list_cron_jobs (cron_jobs db)) db d ps log evs) as (log' & H).
    exists log'. destruct (foldl _ _ _) as [rows d']. etrans; [|exact H]. by apply list_rows_runs.
  - unfold sync_periodic_jobs_to_db. cbv zeta.
    destruct (sync_owners_run clk (merge_sort text_le (map fst (map_to_list (cron_owners db)))) db d ps log evs) as (evs' & H).
    exists evs'. etrans; [exact H|]. apply sync_jobs_run.
Qed.
End System.

(** * A small deployment *)

Module CronRunDemo.
Import CronDemo.
Lemma jsonb_refl v : json_eqb v v = true.
Proof. apply json_eqb_refl. Qed.
(** As many marks as schedules, in place of a digest. *)
Definition marks (v : json) : string := match v with JArray l => foldr (fun _ s => String "h"%char s) EmptyString l | _ => EmptyString end.
Definition at_time (t : time) : Clocks := mkClocks t t t t.
Definition billing : PeriodicReconciliation := mkReconciliation "billing" "r1" 0.
Definition hourly : PeriodicJob :=
  mkPeriodic "sweep" "* * * * *" "UTC" "sweep_job" "default" (JObject []) 2 25 [] (JObject []) Coalesce.
Definition manifest (jobs : list PeriodicJob) : PeriodicManifest :=
  match canonical_manifest marks jobs with Ok m => m | Err _ => mkManifest JNull EmptyString end.
Definition client (jobs : list PeriodicJob) := Some (billing, manifest jobs, jobs).
Definition publishes (t : time) (jobs : list PeriodicJob) (db : CronDb) : CronDb :=
  match publish_evidence_checked json_eqb (at_time t) 7 1000 false (client jobs) true db with Ok db => db | Err _ => db end.
(** One worker declares two schedules, then, a release later, one. *)
Definition db1 : CronDb := Eval vm_compute in publishes 0 [nightly; hourly] no_tables.
Definition db2 : CronDb := Eval vm_compute in publishes 1000 [nightly] db1.

Definition Jobs := list PreparedJobInsert.
Definition a_row (p : PreparedJobInsert) : JobRow := new_row (mkEnv 0 0 JNull EmptyString (fun _ _ => 0)) 1 p.
Definition insert (p : PreparedJobInsert) (d : Jobs) : result AwaError (JobRow * Jobs) := Ok (a_row p, d ++ [p]).
Definition no_text (_ : time) : string := EmptyString.
Abbreviation steps := (cron_step json_eqb marks any any minutely insert no_text).
Abbreviation reaches := (cron_reachable json_eqb marks any any minutely insert no_text).

Definition w2 : World Jobs := mkWorld db2 [] [] [] (evaluated "billing" 1000 db2 :: [evaluated "billing" 0 db1]).
Lemma reaches_w2 : reaches w2.
Proof.
  exists (mkWorld no_tables [] [] [] []). split; [by exists []|].
  eapply rtc_l; [apply (StepPublish _ _ _ _ _ _ _ (at_time 0) 7 1000 false (client [nightly; hourly]) true no_tables [] [] [] [] db1)|].
  - split; [vm_compute; reflexivity|]. repeat constructor; vm_compute; discriminate.
  - vm_compute. reflexivity.
  - apply rtc_once.
    apply (StepPublish _ _ _ _ _ _ _ (at_time 1000) 7 1000 false (client [nightly]) true db1 [] [] [] _ db2).
    + split; [vm_compute; reflexivity|]. repeat constructor; vm_compute; discriminate.
    + vm_compute. reflexivity.
Qed.
Lemma manifest_roundtrip_witness : canonical_manifest marks [hourly; nightly] = Ok (manifest [nightly; hourly]).
Proof.
  apply (manifest_roundtrip marks [nightly; hourly] (manifest [nightly; hourly])).
  - vm_compute. reflexivity.
  - repeat constructor; vm_compute; discriminate.
  - apply perm_swap.
Defined.

(** The release that dropped [sweep] is applied: it alone is retired. *)
Definition reconciled : CronReconciliationPlan * CronDb :=
  match reconcile json_eqb (at_time 2000) "billing" db2 with Ok x => x | Err _ => (mkPlan EmptyString None [] [] [] [] [] [] [] None 0 0 false, db2) end.
Definition applied_plan : CronReconciliationPlan := Eval vm_compute in fst reconciled.
Definition db3 : CronDb := Eval vm_compute in snd reconciled.
Lemma reconcile_converges_witness :
  exists h jobs, manifest_jobs "billing" h db2 jobs /\ converged json_eqb "billing" jobs (cron_jobs db3).
Proof.
  destruct (reconcile_converges json_eqb jsonb_refl marks any any minutely minutely_increasing insert no_text w2 (at_time 2000) "billing" reaches_w2)
    as (p & db' & Hr & Ha & _).
  assert (reconcile json_eqb (at_time 2000) "billing" db2 = Ok (applied_plan, db3)) as E by (vm_compute; reflexivity).
  change (w_db w2) with db2 in Hr. rewrite E in Hr. injection Hr as <- <-. destruct (Ha eq_refl) as (h & jobs & _ & Hj & Hc).
  exact (ex_intro _ h (ex_intro _ jobs (conj Hj Hc))).
Defined.
Lemma retired_after_grace_witness :
  exists h s, unbroken h s (Some 30001000)
    (mkEvaluation "billing" 2000 (Some (h, Some 30001000)) :: evals_of "billing" (w_evals w2)).
Proof.
  destruct (retired_after_grace json_eqb jsonb_refl marks any any minutely minutely_increasing insert no_text w2 (at_time 2000) "billing" applied_plan db3)
    as (h & s & _ & _ & Hu & _); [exact reaches_w2|vm_compute; reflexivity|reflexivity|].
  exists h, s. assert (min_expiry (declarations_of "billing" 2000 db2) = Some 30001000) as E by (vm_compute; reflexivity).
  change (w_db w2) with db2 in Hu. change (eval_clock (at_time 2000)) with 2000 in Hu. rewrite E in Hu. exact Hu.
Defined.
Lemma synced_hash_certifies_witness :
  exists jobs, manifest_jobs "billing" "h" db2 jobs /\
    forall j, j ∈ jobs -> exists r, cron_jobs db2 !! pj_name j = Some r /\ active_of "billing" r /\ agrees json_eqb j r.
Proof.
  apply (synced_hash_certifies json_eqb jsonb_refl marks any any minutely minutely_increasing insert no_text w2 "billing"
           (mkAgreement (Some "h") (Some "h") (Some 1000) (Some 30001000)) "h" reaches_w2).
  - vm_compute. reflexivity.
  - reflexivity.
Defined.

(** Two leaders read the same row; one enqueues the fire, the other finds it
    taken. *)
Definition report : CronJobRow := default (new_cron_row 0 None nightly) (cron_jobs db2 !! "report").
Definition todo : Pending := (cr_name report, cr_last_enqueued_at report, fires_of any any minutely (10 * minute) report).
Definition rows3 : CronJobs := <["report" := set_enqueued (10 * minute) (Some (10 * minute)) report]> (cron_jobs db2).
Definition fired : Jobs := [fired_insert no_text report (10 * minute)].
Definition w3 : World Jobs :=
  mkWorld (set_jobs rows3 db2) fired [("report", Some (10 * minute), []); todo] [("report", Some (10 * minute))] (w_evals w2).
Lemma reaches_w3 : reaches w3.
Proof.
  destruct reaches_w2 as (w0 & H0 & Hr). exists w0. split; [done|]. etrans; [exact Hr|].
  eapply rtc_l; [apply (StepList _ _ _ _ _ _ _ (10 * minute) report)|].
  { apply list_cron_jobs_elem. exists "report". vm_compute. reflexivity. }
  eapply rtc_l; [apply (StepList _ _ _ _ _ _ _ (10 * minute) report)|].
  { apply list_cron_jobs_elem. exists "report". vm_compute. reflexivity. }
  apply rtc_once.
  apply (StepFire json_eqb marks any any minutely insert no_text (10 * minute) "report" None (10 * minute) [] db2 [] [] [todo] [] _
           (a_row (fired_insert no_text report (10 * minute))) rows3 fired).
  vm_compute. reflexivity.
Qed.
Lemma fires_enqueued_once_witness :
  fired_since "report" (w_fired w3) = [10 * minute] /\ NoDup (fired_since "report" (w_fired w3))
  /\ atomic_enqueue json_eqb insert no_text (10 * minute) "report" (10 * minute) None rows3 fired = Ok (None, (rows3, fired)).
Proof.
  split; [reflexivity|]. split; [|vm_compute; reflexivity].
  apply (fires_enqueued_once json_eqb jsonb_refl marks any any minutely minutely_increasing insert no_text w3 "report" reaches_w3).
Defined.
Lemma evaluation_enqueues_due_witness :
  evaluate_row any any minutely json_eqb insert no_text (12 * minute) fired_row ({[ "report" := fired_row ]}, [])
  = ({[ "report" := set_enqueued (12 * minute) (Some (12 * minute)) fired_row ]},
     [fired_insert no_text fired_row (11 * minute); fired_insert no_text fired_row (12 * minute)]).
Proof.
  rewrite (evaluation_enqueues_due json_eqb jsonb_refl any any minutely insert no_text (fun p d => d ++ [p]) (12 * minute) fired_row);
    [vm_compute; reflexivity|intros t d; by eexists|reflexivity..].
Defined.
End CronRunDemo.
