(* ===== verification/Migrations.v ===== *)
(** The migration runner (awa-model/src/migrations.rs).

    A database is seen by the runner through the rows of [awa.schema_version]
    and the relations that exist.  What exists is what the scripts that ran
    created, so the state keeps the scripts that ran, in order; every script
    that has a version of its own records it.  A run is one transaction. *)

From stdpp Require Import pretty.
From S2P Require Import Prelude.
From S2P Require Import Error.
From S2P Require Import Json.
From S2P Require Import Job.
From S2P Require Import Canonical.
From S2P Require Import QueueStore.
From S2P Require Import Transition.

Definition CURRENT_VERSION : Z := 52.
Definition EXCLUSIVE_WINDOW_MIGRATIONS : list Z := [].
Definition MIGRATION_RUNTIME_VERSION_FLOORS : list (Z * string) := [(43, "0.6.2")].
Definition LIVE_RUNTIME_WINDOW_SECS : Z := 90.
Definition MIGRATION_DEADLOCK_RETRIES : Z := 5.
Record MigrateOptions : Type := mkOptions { allow_live_runtimes : bool }.

(** The scripts: [Up v] is the one of version [v]; v023 has two, the helper that
    installs a substrate and the installation of the default one. *)
Inductive Script : Type := Up (v : Z) | SchemaDiscovery | SubstrateHelper.
#[export] Instance script_eq_dec : EqDecision Script.
Proof. solve_decision. Defined.
Definition V23_UP : list Script := [SchemaDiscovery; SubstrateHelper].
Definition only (v : Z) : list Script := [Up v].
Definition discovered (v : Z) : list Script := [SchemaDiscovery; Up v].
Definition reinstalled (v : Z) : list Script := V23_UP ++ [Up 23; Up v].

Definition MIGRATIONS : list (Z * string * list Script) :=
  [(1, "Canonical schema with UI indexes", only 1);
   (2, "Runtime observability snapshots", only 2);
   (3, "Maintenance loop health in runtime snapshots", only 3);
   (4, "Admin metadata cache tables", only 4);
   (5, "Statement-level admin metadata triggers", only 5);
   (6, "Dirty-key statement triggers for deadlock-free admin metadata", only 6);
   (7, "Backoff interval creation avoids scientific-notation parse failures", only 7);
   (9, "Queue and job-kind descriptor catalogs", only 9);
   (10, "Storage transition metadata and canonical compat routing", only 10);
   (11, "Storage transition self-heal: NULL-safe engine resolution and singleton re-seed", only 11);
   (12, "Queue storage compatibility layer and active backend selection", only 12);
   (13, "Storage auto-finalize and queue-storage count maintenance", only 13);
   (14, "Storage transition role tracking and tightened mixed-transition gate", only 14);
   (15, "Cron missed-fire policy", only 15);
   (16, "Drop redundant queue_lanes.available_count cache; reader derives from heads", only 16);
   (17, "Shard queue_enqueue_heads/queue_claim_heads/ready_entries by enqueue_shard", only 17);
   (18, "Thread ordering_key through insert_job_compat for queue-storage producers", only 18);
   (19, "Make queue-storage jobs compatibility view shard-aware", only 19);
   (20, "Derive active queue-storage schema from transition state", only 20);
   (21, "Shard-aware lane indexes on ready_entries/done_entries/leases", only 21);
   (22, "delete_job_compat decrements queue_terminal_live_counts for done_entries deletes", only 22);
   (23, "Install default awa queue-storage substrate via SQL helper", V23_UP ++ [Up 23]);
   (24, "Lower fillfactor to 50 on leases and lease_claims partitions", discovered 24);
   (25, "Drop idx_<schema>_leases_<slot>_state_hb on all AWA substrates", discovered 25);
   (26, "Add paused_at + paused_by to cron_jobs for per-schedule pause", only 26);
   (27, "Move lane cursors to sequences and stripe terminal counters", V23_UP ++ [Up 23; Up 22; Up 27]);
   (28, "Add ready_tombstones ledger and compatibility filters (#295)", V23_UP ++ [Up 23; Up 22; Up 28]);
   (29, "Add durable batch operations control table", only 29);
   (30, "Add terminal-count delta ledger and async rollup", reinstalled 30);
   (31, "Backfill failed done-entry metric indexes for queue storage", discovered 31);
   (32, "Add pruned_failed_count to queue_terminal_rollups for the failed terminal retention floor", discovered 32);
   (33, "Add per-slot receipt-rescue cursors for queue storage", reinstalled 33);
   (34, "Materialize receipt closures before terminal compatibility deletes", only 34);
   (35, "Add per-slot receipt deadline-rescue cursors for queue storage", discovered 35);
   (36, "Compact successful receipt completions into batch terminal history", Up 18 :: reinstalled 36);
   (37, "Add ready_segments claim-routing ledger for queue storage", Up 18 :: reinstalled 37);
   (38, "Add compact receipt claim batch ledger for queue storage", reinstalled 38);
   (39, "Refresh claim_ready_runtime to cache-free ready-segment routing", reinstalled 39);
   (40, "Allow queue-storage finalization with live canonical drain-only runtimes", only 40);
   (41, "Per-queue runtime overrides on queue_meta", only 41);
   (42, "Compact deadline receipt claims and batch deadline-rescue cursors (#246)", reinstalled 42);
   (43, "Append-only ring-rotation ledgers and terminal-rollup deltas (#371)", Up 18 :: reinstalled 43);
   (44, "Refresh jobs_compat(): materialized claim cursors and receipt-plane running rows (#422)", only 44);
   (45, "Owner-scoped periodic reconciliation (#481)", only 45);
   (46, "Wait-free admin dirty-key marks", only 46);
   (47, "Replica identity for tables without a primary key", reinstalled 47);
   (48, "Claim cursor catch-up inside the claim", reinstalled 48);
   (49, "Use provisioned lane sequences without runtime DDL", V23_UP ++ [Up 49]);
   (50, "Drop the redundant lane index on ready_entries partitions", V23_UP ++ [Up 50]);
   (51, "Per-slot claim functions", V23_UP ++ [Up 51]);
   (52, "Retained job output", V23_UP ++ [Up 52])].
Definition version_of (m : Z * string * list Script) : Z := fst (fst m).
Definition description_of (m : Z * string * list Script) : string := snd (fst m).
Definition steps_of (m : Z * string * list Script) : list Script := snd m.

(** * The database *)

Record Instance : Type := mkInstance {
  in_id : string;
  in_hostname : option string;
  in_pid : Z;
  in_version : string;
  in_last_seen_at : time
}.
Record MigDb : Type := mkMigDb {
  md_schema : bool;                     (** the schema [awa] *)
  md_version_table : bool;              (** [awa.schema_version] *)
  md_versions : gmap Z string;
  md_ran : list Script;
  md_instances : list Instance;         (** newest heartbeat first *)
  md_transition : option (TransitionState * option string);
  md_jobs : bool                        (** [awa.jobs] has a row *)
}.
Definition set_versions (v : gmap Z string) (db : MigDb) : MigDb :=
  mkMigDb (md_schema db) (md_version_table db) v (md_ran db) (md_instances db) (md_transition db) (md_jobs db).
(** The relations the runner probes for, by the script that creates them. *)
Definition ran (v : Z) (db : MigDb) : bool := bool_decide (Up v ∈ md_ran db).
Definition has_runtime_instances (db : MigDb) : bool := ran 2 db.
Definition has_queue_state_counts (db : MigDb) : bool := ran 4 db.
Definition has_transition_state (db : MigDb) : bool := ran 10 db.
Definition has_jobs (db : MigDb) : bool := ran 1 db.

(** [INSERT INTO awa.schema_version ... ON CONFLICT (version) DO NOTHING]. *)
Definition record_version (v : Z) (description : string) (rows : gmap Z string) : gmap Z string :=
  match rows !! v with Some _ => rows | None => <[v := description]> rows end.

Section Runner.
  (** What a script writes beside its row: the text it describes itself with.
      [script_error] tells the error it raises, if any. *)
  Context (own_text : Z -> string) (script_error : Script -> MigDb -> option AwaError).
  (** [reported.cmp(&minimum).is_lt()] of two semantic versions; none where the
      reported one is not a version. *)
  Context (version_lt : string -> string -> option bool).

Definition run_script (s : Script) (db : MigDb) : result AwaError MigDb :=
  match script_error s db with
  | Some e => Err e
  | None =>
      Ok match s with
         | Up v => mkMigDb (md_schema db || (v =? 1)) (md_version_table db || (v =? 1)) (record_version v (own_text v) (md_versions db)) (md_ran db ++ [s]) (md_instances db)
                     (if bool_decide (v = 10) then Some (default (TCanonical, None) (md_transition db)) else md_transition db) (md_jobs db)
         | _ => mkMigDb (md_schema db) (md_version_table db) (md_versions db) (md_ran db ++ [s]) (md_instances db) (md_transition db) (md_jobs db)
         end
  end.
Fixpoint run_scripts (l : list Script) (db : MigDb) : result AwaError MigDb :=
  match l with
  | [] => Ok db
  | s :: l => let? db := run_script s db in run_scripts l db
  end.

(** * Versions *)

Definition max_version (db : MigDb) : Z := default 0 (max_of (map fst (map_to_list (md_versions db)))).
Definition normalize_legacy_version (old_version : Z) : Z :=
  if 6 <=? old_version then 4
  else if old_version =? 5 then 3
  else if old_version =? 4 then 2
  else if old_version =? 3 then 1
  else 0.
Definition schema_newer_than_binary (db : MigDb) : option AwaError :=
  if negb (md_version_table db) then None
  else if CURRENT_VERSION <? max_version db then Some (SchemaNewerThanBinary (max_version db) CURRENT_VERSION) else None.
Definition current_version_readonly (db : MigDb) : Z :=
  if negb (md_schema db) then 0 else if negb (md_version_table db) then 0 else max_version db.

(** The version is one of the current numbering. *)
Definition is_current_install (raw : Z) (db : MigDb) : bool :=
  (1 <=? raw) && (raw <=? CURRENT_VERSION)
  && ((4 <=? raw) && has_queue_state_counts db
      || (raw <=? 3) && ((2 <=? raw) && has_runtime_instances db || (raw =? 1))).
Definition is_legacy_install (raw : Z) (db : MigDb) : bool :=
  let has_legacy_high := existsb (fun v => 6 <=? v) (map fst (map_to_list (md_versions db))) in
  has_legacy_high
  || (raw =? 5) && negb has_legacy_high && negb (has_queue_state_counts db)
  || (raw =? 4) && negb has_legacy_high && negb (has_queue_state_counts db)
  || (raw =? 3) && negb has_legacy_high && negb (has_runtime_instances db).
(** [DELETE ... WHERE version >= 3], then the rows of the new numbering. *)
Definition renumbered (normalized : Z) (rows : gmap Z string) : gmap Z string :=
  foldl (fun rows m => if version_of m <=? normalized then record_version (version_of m) (description_of m) rows else rows)
    (filter (fun kv => fst kv < 3) rows) MIGRATIONS.
Definition current_version_conn (db : MigDb) : Z * MigDb :=
  if negb (md_schema db) then (0, db)
  else if negb (md_version_table db) then (0, db)
  else
    let raw := max_version db in
    if CURRENT_VERSION <? raw then (raw, db)
    else if is_current_install raw db then (raw, db)
    else if is_legacy_install raw db
    then let normalized := normalize_legacy_version raw in (normalized, set_versions (renumbered normalized (md_versions db)) db)
    else (raw, db).

(** * Gates *)

Definition is_live (now : time) (i : Instance) : bool := now <=? in_last_seen_at i + LIVE_RUNTIME_WINDOW_SECS * us_per_sec.
Definition check_storage_finalized (now : time) (db : MigDb) : result AwaError unit :=
  let '(state, prepared_engine) := if has_transition_state db then default (TCanonical, None) (md_transition db) else (TCanonical, None) in
  if bool_decide (state = TActive) then Ok tt
  else if bool_decide (state = TCanonical) && bool_decide (prepared_engine = None)
          && negb (has_jobs db && md_jobs db) && negb (has_runtime_instances db && existsb (is_live now) (md_instances db))
  then Ok tt
  else Err (StorageNotFinalized (transition_state_text state)).
Definition exclusive_window_in_range (exclusive : list Z) (current : Z) : option Z :=
  match List.filter (fun v => (current <? v) && (v <=? CURRENT_VERSION)) exclusive with
  | [] => None
  | v :: l => Some (foldr Z.min v l)
  end.
Definition runtime_version_floors_in_range (current : Z) : list (Z * string) :=
  List.filter (fun vf => (current <? fst vf) && (fst vf <=? CURRENT_VERSION)) MIGRATION_RUNTIME_VERSION_FLOORS.
Definition age_secs (now : time) (i : Instance) : Z := (now - in_last_seen_at i) / us_per_sec.
Definition join_list (l : list string) : string :=
  match l with [] => EmptyString | x :: l => foldl (fun acc s => acc +:+ ", " +:+ s) x l end.
Definition SHOWN : nat := 5.
(** The instances an error names. *)
Definition listed (render : Instance -> string) (l : list Instance) : string :=
  join_list (map render (take SHOWN l)
             ++ if Nat.ltb SHOWN (length l) then ["… and " +:+ pretty (Z.of_nat (length l - SHOWN)) +:+ " more"] else []).
Definition place_of_instance (i : Instance) : string :=
  in_id i +:+ " @ " +:+ default "?" (in_hostname i) +:+ " pid " +:+ pretty (in_pid i).
Definition check_live_runtimes_gate (now : time) (migration_version : Z) (db : MigDb) : result AwaError unit :=
  if negb (has_runtime_instances db) then Ok tt
  else match List.filter (is_live now) (md_instances db) with
       | [] => Ok tt
       | i :: l =>
           Err (LiveRuntimesRequireExclusiveWindow migration_version (Z.of_nat (length (i :: l))) (age_secs now i)
                  (" Live runtimes: " +:+ listed (fun i => place_of_instance i +:+ " (" +:+ pretty (age_secs now i) +:+ "s ago)") (i :: l) +:+ "."))
       end.
Definition below_floor (minimum : string) (i : Instance) : bool := default true (version_lt (in_version i) minimum).
Definition check_runtime_version_floor (now : time) (migration_version : Z) (minimum : string) (db : MigDb) : result AwaError unit :=
  if negb (has_runtime_instances db) then Ok tt
  else match List.filter (fun i => is_live now i && below_floor minimum i) (md_instances db) with
       | [] => Ok tt
       | l =>
           Err (RuntimeVersionFloorNotMet migration_version minimum (Z.of_nat (length l))
                  (" Incompatible runtimes: "
                   +:+ listed (fun i => place_of_instance i +:+ ": " +:+ quoted (in_version i) +:+ " (" +:+ pretty (age_secs now i) +:+ "s ago)") l +:+ "."))
       end.
Fixpoint check_floors (now : time) (floors : list (Z * string)) (db : MigDb) : result AwaError unit :=
  match floors with
  | [] => Ok tt
  | (v, minimum) :: floors => check? check_runtime_version_floor now v minimum db; check_floors now floors db
  end.
Definition live_gates (now : time) (options : MigrateOptions) (current : Z) (db : MigDb) : result AwaError unit :=
  if allow_live_runtimes options then Ok tt
  else
    check? match exclusive_window_in_range EXCLUSIVE_WINDOW_MIGRATIONS current with
           | Some v => check_live_runtimes_gate now v db
           | None => Ok tt
           end;
    check_floors now (runtime_version_floors_in_range current) db.

(** * The run *)

Definition pending (current : Z) : list (Z * string * list Script) := List.filter (fun m => negb (version_of m <=? current)) MIGRATIONS.
Definition pending_scripts (current : Z) : list Script := concat (map steps_of (pending current)).
#[global] Arguments pending_scripts : simpl never.
Definition apply_migrations (now : time) (options : MigrateOptions) (db : MigDb) : result AwaError MigDb :=
  let has_schema := md_schema db in
  match (if has_schema then schema_newer_than_binary db else None) with
  | Some newer => Err newer
  | None =>
      let '(current, db) := if has_schema then current_version_conn db else (0, db) in
      check? (if has_schema && (current <? CURRENT_VERSION) then check_storage_finalized now db else Ok tt);
      check? (if has_schema then live_gates now options current db else Ok tt);
      if negb (has_schema && (current =? CURRENT_VERSION))
      then run_scripts (pending_scripts current) db
      else Ok db
  end.

(** [run_with_options]: the transaction is tried again when it deadlocks; [tx n]
    is what its [n]-th try gives. *)
Fixpoint retry_deadlocks {A} (tx : nat -> result AwaError A) (fuel : nat) (retry : Z) : result AwaError A :=
  match tx (Z.to_nat retry) with
  | Ok a => Ok a
  | Err e =>
      if is_deadlock e && (retry <? MIGRATION_DEADLOCK_RETRIES)
      then match fuel with O => Err e | S fuel => retry_deadlocks tx fuel (retry + 1) end
      else Err e
  end.
Definition run_with_options {A} (tx : nat -> result AwaError A) : result AwaError A :=
  retry_deadlocks tx (Z.to_nat MIGRATION_DEADLOCK_RETRIES) 0.
Definition retry_delay_ms (retry : Z) : Z := 50 * 2 ^ (retry - 1).

(** SQL for other tools: the versions of a range. *)
Definition migration_sql_range (from to : Z) : list (Z * string * list Script) :=
  List.filter (fun m => (from <? version_of m) && (version_of m <=? to)) MIGRATIONS.
End Runner.

(** * What a run does *)

Lemma max_version_is db c :
  is_Some (md_versions db !! c) -> (forall v, is_Some (md_versions db !! v) -> v <= c) -> max_version db = c.
Proof.
  intros [d Hc] Hle. unfold max_version. destruct (max_of (map fst (map_to_list (md_versions db)))) as [m|] eqn:Hm.
  - apply max_of_spec in Hm as [Hin Hmax]. simpl. apply list_elem_of_fmap in Hin as ([v x] & -> & Hv%elem_of_map_to_list). simpl in *.
    assert (v <= c) by (apply Hle; eauto). assert (c <= v); [|lia]. apply Hmax. apply list_elem_of_fmap. exists (c, d). split; [done|].
    by apply elem_of_map_to_list.
  - apply max_of_None, fmap_nil_inv in Hm. assert ((c, d) ∈ map_to_list (md_versions db)) as H by by apply elem_of_map_to_list.
    rewrite Hm in H. by apply elem_of_nil in H.
Qed.
Definition versions : list Z := map version_of MIGRATIONS.
Definition upto (c : Z) : list Z := List.filter (fun v => v <=? c) versions.
Definition rows_are (l : list Z) (db : MigDb) : Prop := forall v, is_Some (md_versions db !! v) <-> v ∈ l.

(** A database in which exactly the versions up to [c] are installed: a new one;
    one of the current numbering; one of a release that numbered them from 3. *)
Inductive installed : MigDb -> Z -> Prop :=
  | Fresh db : md_schema db = false -> md_version_table db = false -> rows_are [] db -> installed db 0
  | Current c db :
      md_schema db = true -> md_version_table db = true -> c ∈ versions -> rows_are (upto c) db ->
      has_runtime_instances db = (2 <=? c) -> has_queue_state_counts db = (4 <=? c) -> installed db c
  | Legacy k db :
      md_schema db = true -> md_version_table db = true -> k = 3 \/ k = 4 \/ k = 5 ->
      rows_are (List.filter (fun v => v <=? k) [3; 4; 5]) db ->
      has_runtime_instances db = (4 <=? k) -> has_queue_state_counts db = false -> installed db (k - 2).

Lemma record_version_rows v d (rows : gmap Z string) w : is_Some (record_version v d rows !! w) <-> w = v \/ is_Some (rows !! w).
Proof.
  unfold record_version. destruct (rows !! v) eqn:Hv.
  - split; [by right|]. intros [->|H]; [by rewrite Hv|done].
  - destruct (decide (w = v)) as [->|Hne]; [rewrite lookup_insert_eq; naive_solver|]. rewrite lookup_insert_ne by done. naive_solver.
Qed.
Lemma renumbered_rows n (rows : gmap Z string) w :
  is_Some (renumbered n rows !! w) <-> w ∈ upto n \/ (is_Some (rows !! w) /\ w < 3).
Proof.
  unfold renumbered, upto, versions. set (r0 := filter _ rows).
  assert (is_Some (r0 !! w) <-> is_Some (rows !! w) /\ w < 3) as <-.
  { unfold r0. split.
    - intros (d & [Hd Hw]%map_lookup_filter_Some). simpl in Hw. eauto.
    - intros ((d & Hd) & Hw). exists d. by apply map_lookup_filter_Some. }
  generalize r0. clear r0 rows. generalize MIGRATIONS. intros ms. induction ms as [|m ms IH]; intros rows; simpl; [naive_solver set_solver|].
  rewrite IH. destruct (version_of m <=? n); [|done]. rewrite record_version_rows. set_solver.
Qed.
Lemma upto_elem c v : v ∈ upto c <-> v ∈ versions /\ v <= c.
Proof. unfold upto. rewrite elem_of_filter_b, Z.leb_le. tauto. Qed.
Lemma rows_max l c db : rows_are l db -> c ∈ l -> (forall v, v ∈ l -> v <= c) -> max_version db = c.
Proof. intros Hr Hc Hl. apply max_version_is; [by apply Hr|]. intros v Hv. by apply Hl, Hr. Qed.
Lemma current_in_range c : c ∈ versions -> 1 <= c <= CURRENT_VERSION.
Proof.
  intros H. assert (Forall (fun v => 1 <= v <= CURRENT_VERSION) versions) as Hf by (apply (bool_decide_unpack _); vm_compute; exact I).
  by apply (proj1 (Forall_forall _ _) Hf).
Qed.

Lemma current_version_same c db :
  md_schema db = true -> md_version_table db = true -> c ∈ versions -> rows_are (upto c) db ->
  has_runtime_instances db = (2 <=? c) -> has_queue_state_counts db = (4 <=? c) ->
  current_version_conn db = (c, db) /\ schema_newer_than_binary db = None.
Proof.
  intros Hs Ht Hc Hr H2 H4. assert (max_version db = c) as Hm.
  { eapply rows_max; [exact Hr|by apply upto_elem|]. by intros v [_ ?]%upto_elem. }
  pose proof (current_in_range c Hc) as [H1 Hmax]. unfold current_version_conn, schema_newer_than_binary. rewrite Hs, Ht, Hm. simpl.
  rewrite (proj2 (Z.ltb_ge CURRENT_VERSION c)) by done. unfold is_current_install. rewrite H2, H4.
  rewrite (proj2 (Z.leb_le 1 c)), (proj2 (Z.leb_le c CURRENT_VERSION)) by done. simpl.
  assert ((4 <=? c) && (4 <=? c) || (c <=? 3) && ((2 <=? c) && (2 <=? c) || (c =? 1)) = true) as -> by lia. done.
Qed.
(** The runner finds the version such a database is at. *)
Lemma current_version_found db c :
  installed db c -> md_schema db = true ->
  exists rows, current_version_conn db = (c, set_versions rows db) /\ schema_newer_than_binary db = None
    /\ (forall v, is_Some (rows !! v) <-> v ∈ upto c) /\ c ∈ versions.
Proof.
  intros Hi Hs. destruct Hi as [db ? _ _|c db _ Ht Hc Hr H2 H4|k db _ Ht Hk Hr H2 H4]; [congruence| |].
  - exists (md_versions db). destruct (current_version_same c db Hs Ht Hc Hr H2 H4) as [-> ->]. split; [by destruct db|]. by split.
  - exists (renumbered (k - 2) (md_versions db)). assert (max_version db = k) as Hm.
    { eapply rows_max; [exact Hr| |]; [apply elem_of_filter_b; rewrite Z.leb_refl; destruct Hk as [->|[->| ->]]; split; try done; set_solver|].
      intros v Hv. apply elem_of_filter_b in Hv as [Hv _]. lia. }
    assert (existsb (fun v => 6 <=? v) (map fst (map_to_list (md_versions db))) = false) as Hh.
    { apply not_true_iff_false. rewrite existsb_elem. intros (v & Hv & H6). apply list_elem_of_fmap in Hv as ([w d] & -> & Hw%elem_of_map_to_list).
      assert (w ∈ List.filter (fun v => v <=? k) [3; 4; 5]) as [Hin _]%elem_of_filter_b by (apply Hr; eauto). simpl in H6. lia. }
    assert (k - 2 ∈ versions) as Hv by (destruct Hk as [->|[->| ->]]; apply (bool_decide_unpack (_ ∈ _)); vm_compute; exact I).
    unfold current_version_conn, schema_newer_than_binary, is_current_install, is_legacy_install. rewrite Hs, Ht, Hm, Hh, H2, H4. simpl.
    split; [destruct Hk as [->|[->| ->]]; done|]. split; [destruct Hk as [->|[->| ->]]; done|]. split; [|done].
    intros v. rewrite renumbered_rows. split; [|by left]. intros [H|[H Hlt]]; [done|]. apply Hr, elem_of_filter_b in H as [_ H]. set_solver by lia.
Qed.

Section Runs.
  Context (own_text : Z -> string) (script_error : Script -> MigDb -> option AwaError) (version_lt : string -> string -> option bool).

(** The scripts that run, when none fails. *)
Lemma run_scripts_ok l db :
  (forall s db, script_error s db = None) ->
  exists db', run_scripts own_text script_error l db = Ok db' /\ md_ran db' = md_ran db ++ l
    /\ (forall v, is_Some (md_versions db' !! v) <-> Up v ∈ l \/ is_Some (md_versions db !! v))
    /\ md_schema db' = md_schema db || bool_decide (Up 1 ∈ l) /\ md_version_table db' = md_version_table db || bool_decide (Up 1 ∈ l).
Proof.
  intros Hf. revert db. induction l as [|s l IH]; intros db; cbn [run_scripts].
  { exists db. rewrite app_nil_r, bool_decide_false, !orb_false_r by apply not_elem_of_nil. split; [done|]. split; [done|]. split; [|done].
    intros v. split; [by right|]. by intros [?%elem_of_nil|]. }
  unfold run_script. rewrite Hf. cbn [rbind]. match goal with |- context [run_scripts _ _ l ?d] => destruct (IH d) as (db' & -> & Hr & Hv & Hs & Ht) end.
  exists db'. split; [done|]. destruct s as [v| |]; cbn [md_ran md_versions md_schema md_version_table] in *.
  - split; [by rewrite Hr, <- app_assoc|]. split.
    + intros w. rewrite Hv, record_version_rows. set_solver.
    + assert (bool_decide (Up 1 ∈ Up v :: l) = (v =? 1) || bool_decide (Up 1 ∈ l)) as ->.
      { apply eq_true_iff_eq. rewrite orb_true_iff, !bool_decide_eq_true, elem_of_cons, Z.eqb_eq. naive_solver. }
      by rewrite Hs, Ht, !orb_assoc.
  - split; [by rewrite Hr, <- app_assoc|]. rewrite Hs, Ht. split; [intros w; rewrite Hv, elem_of_cons; naive_solver|].
    by rewrite (bool_decide_ext (Up 1 ∈ SchemaDiscovery :: l) (Up 1 ∈ l)) by (rewrite elem_of_cons; naive_solver).
  - split; [by rewrite Hr, <- app_assoc|]. rewrite Hs, Ht. split; [intros w; rewrite Hv, elem_of_cons; naive_solver|].
    by rewrite (bool_decide_ext (Up 1 ∈ SubstrateHelper :: l) (Up 1 ∈ l)) by (rewrite elem_of_cons; naive_solver).
Qed.

(** Each version records itself and no later one; a script of an earlier version
    that is run again records nothing new. *)
Definition step_ok (m : Z * string * list Script) : bool :=
  bool_decide (Up (version_of m) ∈ steps_of m)
  && forallb (fun s => match s with Up v => (v <=? version_of m) && bool_decide (v ∈ versions) | _ => true end) (steps_of m).
Lemma migration_steps_ok m : m ∈ MIGRATIONS ->
  Up (version_of m) ∈ steps_of m /\ forall v, Up v ∈ steps_of m -> v <= version_of m /\ v ∈ versions.
Proof.
  intros Hm. assert (forallb step_ok MIGRATIONS = true) as Hf by (vm_compute; reflexivity).
  rewrite forallb_forall in Hf. apply list_elem_of_In, Hf in Hm. unfold step_ok in Hm. apply andb_prop in Hm as [H1%bool_decide_eq_true H2].
  split; [done|]. intros v Hv. rewrite forallb_forall in H2. apply list_elem_of_In, H2, andb_prop in Hv as [? ?%bool_decide_eq_true]. split; [lia|done].
Qed.
Lemma concat_filter_elem {A B} (f : A -> list B) (p : A -> bool) l x :
  x ∈ concat (map f (List.filter p l)) <-> exists a, a ∈ l /\ p a = true /\ x ∈ f a.
Proof.
  rewrite list_elem_of_In, in_concat. split.
  - intros (y & (a & <- & Ha)%in_map_iff & Hx). apply list_elem_of_In, elem_of_filter_b in Ha as [Hp Ha]. apply list_elem_of_In in Hx. eauto.
  - intros (a & Ha & Hp & Hx). exists (f a). split; [|by apply list_elem_of_In]. apply in_map, list_elem_of_In. by apply elem_of_filter_b.
Qed.
Lemma pending_records c v : v ∈ versions -> c < v -> Up v ∈ pending_scripts c.
Proof.
  intros (m & -> & Hm)%list_elem_of_fmap Hc. apply concat_filter_elem. exists m. destruct (migration_steps_ok m Hm) as [Hup _]. split; [done|]. split; [lia|done].
Qed.
Lemma pending_only c v : Up v ∈ pending_scripts c -> v ∈ versions.
Proof.
  unfold pending_scripts, pending. intros H. apply (concat_filter_elem steps_of (fun m => negb (version_of m <=? c)) MIGRATIONS) in H.
  destruct H as (m & Hm & _ & Hv). destruct (migration_steps_ok m Hm) as [_ H]. exact (proj2 (H v Hv)).
Qed.
(** After the pending scripts, all versions are installed. *)
Lemma run_installs c db (rows : gmap Z string) db' :
  (forall v, is_Some (rows !! v) <-> v ∈ upto c) -> (c = 0 \/ md_schema db = true /\ md_version_table db = true) ->
  (has_runtime_instances db = (2 <=? c)) -> (has_queue_state_counts db = (4 <=? c)) ->
  md_ran db' = md_ran db ++ pending_scripts c ->
  (forall v, is_Some (md_versions db' !! v) <-> Up v ∈ pending_scripts c \/ is_Some (rows !! v)) ->
  md_schema db' = md_schema db || bool_decide (Up 1 ∈ pending_scripts c) ->
  md_version_table db' = md_version_table db || bool_decide (Up 1 ∈ pending_scripts c) -> installed db' CURRENT_VERSION.
Proof.
  intros Hrows Hsch H2 H4 Hran Hv Hs Ht. assert (forall w, w ∈ versions -> w <= c \/ Up w ∈ pending_scripts c) as Hall.
  { intros w Hw. destruct (decide (w <= c)); [by left|right]. apply pending_records; [done|lia]. }
  assert (forall w, w ∈ versions -> ran w db = (w <=? c) -> ran w db' = true) as Hran'.
  { intros w Hw Hwc. unfold ran in *. rewrite Hran. apply bool_decide_eq_true, elem_of_app. destruct (Hall w Hw) as [Hle|]; [left|by right].
    apply (proj1 (bool_decide_eq_true _)). rewrite Hwc. by apply Z.leb_le. }
  apply Current.
  - rewrite Hs. destruct Hsch as [->|[-> _]]; [|done]. rewrite bool_decide_true, orb_true_r; [done|]. apply (bool_decide_unpack _). vm_compute. exact I.
  - rewrite Ht. destruct Hsch as [->|[_ ->]]; [|done]. rewrite bool_decide_true, orb_true_r; [done|]. apply (bool_decide_unpack _). vm_compute. exact I.
  - apply (bool_decide_unpack _). vm_compute. exact I.
  - intros v. rewrite Hv, Hrows, !upto_elem. split.
    + intros [Hp%pending_only|[Hin _]]; (split; [done|by apply current_in_range]).
    + intros [Hin _]. destruct (Hall v Hin); [by right|by left].
  - apply Hran'; [|done]. apply (bool_decide_unpack _). vm_compute. exact I.
  - apply Hran'; [|done]. apply (bool_decide_unpack _). vm_compute. exact I.
Qed.

Lemma live_gates_versions now options c rows db :
  live_gates version_lt now options c (set_versions rows db) = live_gates version_lt now options c db.
Proof.
  unfold live_gates. destruct (allow_live_runtimes options); [done|].
  assert (forall floors, check_floors version_lt now floors (set_versions rows db) = check_floors version_lt now floors db) as ->; [|done].
  intros floors. induction floors as [|[v m] floors IH]; [done|]. simpl. by rewrite IH.
Qed.
Lemma up_to_date now options db :
  installed db CURRENT_VERSION -> apply_migrations own_text script_error version_lt now options db = Ok db.
Proof.
  intros Hi. inversion Hi as [| c db0 Hs Ht Hc Hr H2 H4 | k db0 Hs Ht Hk]; subst; [|unfold CURRENT_VERSION in *; lia].
  unfold apply_migrations. destruct (current_version_same CURRENT_VERSION db Hs Ht Hc Hr H2 H4) as [Ec En]. rewrite Hs, En, Ec. simpl.
  unfold live_gates. by destruct (allow_live_runtimes options).
Qed.
(** What the runner starts from, and the relations there are. *)
Lemma installed_start db c :
  installed db c ->
  exists rows : gmap Z string,
    (md_schema db = true -> current_version_conn db = (c, set_versions rows db) /\ schema_newer_than_binary db = None)
    /\ (md_schema db = false -> rows = md_versions db /\ c = 0)
    /\ (forall v, is_Some (rows !! v) <-> v ∈ upto c) /\ (c = 0 \/ md_schema db = true /\ md_version_table db = true).
Proof.
  intros Hi. destruct (md_schema db) eqn:Hs.
  - destruct (current_version_found db c Hi Hs) as (rows & Hc & Hn & Hr & Hv). exists rows. split; [done|]. split; [done|]. split; [done|].
    right. split; [done|]. by inversion Hi; congruence.
  - exists (md_versions db). inversion Hi as [db0 _ _ Hr| |]; subst; try congruence. split; [done|]. split; [done|]. split; [|by left].
    intros v. rewrite (Hr v). replace (upto 0) with (@nil Z) by (vm_compute; reflexivity). done.
Qed.
Lemma installed_relations db c :
  installed db c -> (md_schema db = false -> md_ran db = []) ->
  has_runtime_instances db = (2 <=? c) /\ has_queue_state_counts db = (4 <=? c).
Proof.
  intros Hi Hf. inversion Hi as [db0 Hs _ _|c0 db0 _ _ _ _ H2 H4|k db0 _ _ Hk _ H2 H4]; subst.
  - unfold has_runtime_instances, has_queue_state_counts, ran. rewrite (Hf Hs). by rewrite !bool_decide_false by apply not_elem_of_nil.
  - done.
  - rewrite H2, H4. destruct Hk as [->|[->| ->]]; done.
Qed.

(** A run brings every database up to date: from a new one, from any version
    of the current numbering and from the releases that numbered versions from 3,
    it runs exactly the scripts of the versions that are missing, in order, after
    which every version is recorded and a second run changes nothing. *)
Theorem migrate_completes now options db c :
  installed db c -> (md_schema db = false -> md_ran db = []) ->
  (md_schema db = true -> c < CURRENT_VERSION -> check_storage_finalized now db = Ok tt) ->
  (md_schema db = true -> live_gates version_lt now options c db = Ok tt) ->
  (forall s db, script_error s db = None) ->
  exists db', apply_migrations own_text script_error version_lt now options db = Ok db'
    /\ md_ran db' = md_ran db ++ pending_scripts c
    /\ installed db' CURRENT_VERSION
    /\ forall now' options', apply_migrations own_text script_error version_lt now' options' db' = Ok db'.
Proof.
  intros Hi Hfresh Hgate Hlive Hscripts. destruct (installed_start db c Hi) as (rows & Hstart & Hnew & Hrows & Hsch).
  destruct (installed_relations db c Hi Hfresh) as [H2 H4].
  destruct (run_scripts_ok (pending_scripts c) (set_versions rows db) Hscripts) as (db' & Hrun & Hran & Hv & Hs & Ht).
  assert (installed db' CURRENT_VERSION) as Hi' by (eapply (run_installs c db rows db'); eauto).
  assert (exists db1, apply_migrations own_text script_error version_lt now options db = Ok db1 /\ (db1 = db' \/ c = CURRENT_VERSION /\ db1 = set_versions rows db)) as (db1 & Happ & Hdb1).
  { unfold apply_migrations. destruct (md_schema db) eqn:Hschema.
    - destruct (Hstart eq_refl) as [-> ->]. simpl. specialize (Hlive eq_refl). specialize (Hgate eq_refl).
      change (check_storage_finalized now (set_versions rows db)) with (check_storage_finalized now db).
      rewrite live_gates_versions.
      assert ((if c <? CURRENT_VERSION then check_storage_finalized now db else Ok tt) = Ok tt) as ->
        by (destruct (Z.ltb_spec c CURRENT_VERSION); [by apply Hgate|done]).
      simpl. rewrite Hlive. simpl. destruct (Z.eqb_spec c CURRENT_VERSION); simpl; [by eauto|]. exists db'. split; [exact Hrun|by left].
    - destruct (Hnew eq_refl) as [-> ->]. simpl. replace (set_versions (md_versions db) db) with db in Hrun by (by destruct db).
      exists db'. split; [exact Hrun|by left]. }
  exists db1. split; [done|]. destruct Hdb1 as [->|[-> ->]].
  - split; [done|]. split; [done|]. intros now' options'. by apply up_to_date.
  - assert (pending_scripts CURRENT_VERSION = []) as E by (vm_compute; reflexivity). rewrite E in *. simpl in Hrun. injection Hrun as <-.
    split; [by rewrite app_nil_r|]. split; [done|]. intros now' options'. by apply up_to_date.
Qed.

Lemma current_version_le db : schema_newer_than_binary db = None -> md_schema db = true -> fst (current_version_conn db) <= CURRENT_VERSION.
Proof.
  unfold schema_newer_than_binary, current_version_conn. intros Hn ->. simpl. destruct (md_version_table db); simpl in *; [|unfold CURRENT_VERSION; lia].
  destruct (Z.ltb_spec CURRENT_VERSION (max_version db)); [done|]. destruct (is_current_install _ _); [done|].
  destruct (is_legacy_install _ _); [|done]. simpl. unfold normalize_legacy_version, CURRENT_VERSION. repeat case_match; lia.
Qed.
Lemma current_version_ran db : md_ran (snd (current_version_conn db)) = md_ran db.
Proof. unfold current_version_conn. by repeat case_match. Qed.
Lemma current_version_gate now db : check_storage_finalized now (snd (current_version_conn db)) = check_storage_finalized now db.
Proof. unfold current_version_conn. by repeat case_match. Qed.
Lemma current_version_live now options c db :
  live_gates version_lt now options c (snd (current_version_conn db)) = live_gates version_lt now options c db.
Proof. unfold current_version_conn. repeat case_match; try done. apply live_gates_versions. Qed.

(** A run changes an existing schema only where that is safe: the schema is
    not newer than the binary, the storage transition is finalized or the
    installation unused, and, unless the operator waives it, no live runtime is
    older than the version the ring-rotation ledgers need. *)
Theorem migrate_gated now options db db' :
  md_schema db = true -> apply_migrations own_text script_error version_lt now options db = Ok db' -> md_ran db' <> md_ran db ->
  (md_version_table db = true -> max_version db <= CURRENT_VERSION)
  /\ check_storage_finalized now db = Ok tt
  /\ (allow_live_runtimes options = false -> fst (current_version_conn db) < 43 -> has_runtime_instances db = true ->
      forall i, i ∈ md_instances db -> is_live now i = true -> version_lt (in_version i) "0.6.2" = Some false).
Proof.
  intros Hs Happ Hran. unfold apply_migrations in Happ. rewrite Hs in Happ. destruct (schema_newer_than_binary db) eqn:Hn; [done|].
  split.
  { intros Ht. unfold schema_newer_than_binary in Hn. rewrite Ht in Hn. simpl in Hn. destruct (Z.ltb_spec CURRENT_VERSION (max_version db)); [done|lia]. }
  pose proof (current_version_le db Hn Hs) as Hle. pose proof (current_version_ran db) as Hr0. pose proof (current_version_gate now db) as Hg0.
  pose proof (fun o c => current_version_live now o c db) as Hl0. destruct (current_version_conn db) as [c db0]. simpl fst in *. simpl snd in *.
  apply rbind_Ok in Happ as ([] & Hgate & Happ). apply rbind_Ok in Happ as ([] & Hlive & Happ). simpl andb in *. cbv iota in Hlive.
  destruct (Z.eqb_spec c CURRENT_VERSION) as [->|Hne]; [simpl in Happ; congruence|].
  rewrite (proj2 (Z.ltb_lt c CURRENT_VERSION)) in Hgate by lia. rewrite Hg0 in Hgate. split; [done|].
  intros Hallow Hc Hrt i Hi Hli. rewrite Hl0 in Hlive. unfold live_gates in Hlive. rewrite Hallow in Hlive. simpl in Hlive.
  unfold runtime_version_floors_in_range in Hlive. simpl in Hlive. rewrite (proj2 (Z.ltb_lt c 43) Hc) in Hlive. simpl in Hlive.
  apply rbind_Ok in Hlive as ([] & Hfl & _). unfold check_runtime_version_floor in Hfl. rewrite Hrt in Hfl. simpl in Hfl.
  destruct (List.filter _ (md_instances db)) as [|x l] eqn:Hf; [|done].
  assert (is_live now i && below_floor version_lt "0.6.2" i = false) as Hb.
  { apply not_true_iff_false. intros Hb. apply (not_elem_of_nil i). rewrite <- Hf. by apply elem_of_filter_b. }
  rewrite Hli in Hb. simpl in Hb. unfold below_floor in Hb. destruct (version_lt (in_version i) "0.6.2") as [[]|]; done.
Qed.
End Runs.

(** A migration that deadlocks is tried again, five times at most, and only
    then: the answer is that of its last try, and every earlier try deadlocked. *)
Theorem deadlock_retries_bounded {A} (tx : nat -> result AwaError A) :
  exists n, (n <= 5)%nat /\ run_with_options tx = tx n
    /\ (forall k, (k < n)%nat -> exists e, tx k = Err e /\ is_deadlock e = true)
    /\ (n = 5%nat \/ match tx n with Ok _ => True | Err e => is_deadlock e = false end).
Proof.
  unfold run_with_options, MIGRATION_DEADLOCK_RETRIES. simpl.
  assert (forall fuel r, 0 <= r -> Z.of_nat fuel + r = 5 ->
    exists n, (Z.to_nat r <= n <= 5)%nat /\ retry_deadlocks tx fuel r = tx n
      /\ (forall k, (Z.to_nat r <= k < n)%nat -> exists e, tx k = Err e /\ is_deadlock e = true)
      /\ (n = 5%nat \/ match tx n with Ok _ => True | Err e => is_deadlock e = false end)) as H.
  { induction fuel as [|fuel IH]; intros r Hr Hf; cbn [retry_deadlocks]; unfold MIGRATION_DEADLOCK_RETRIES.
    - exists (Z.to_nat r). split; [lia|]. split; [|split; [intros; lia|left; lia]].
      destruct (tx (Z.to_nat r)) as [a|e]; [done|]. by destruct (_ && _).
    - destruct (tx (Z.to_nat r)) as [a|e] eqn:Ht.
      + exists (Z.to_nat r). rewrite Ht. split; [lia|]. split; [done|]. split; [intros; lia|by right].
      + destruct (is_deadlock e) eqn:Hd; simpl.
        * rewrite (proj2 (Z.ltb_lt r 5)) by lia. destruct (IH (r + 1)) as (n & Hn & -> & Hk & Hl); [lia|lia|].
          exists n. split; [lia|]. split; [done|]. split; [|done]. intros k Hkn. destruct (decide (k = Z.to_nat r)) as [->|]; [eauto|]. apply Hk. lia.
        * exists (Z.to_nat r). rewrite Ht. split; [lia|]. split; [done|]. split; [intros; lia|by right]. }
  destruct (H 5%nat 0) as (n & Hn & He & Hk & Hl); [lia|lia|]. exists n. split; [lia|]. split; [done|]. split; [|done]. intros k Hkn. apply Hk. lia.
Qed.

(** * Databases *)

Module MigrationDemo.
Definition no_text (_ : Z) : string := EmptyString.
Definition no_error (_ : Script) (_ : MigDb) : option AwaError := None.
Definition no_version (_ _ : string) : option bool := None.
Definition described (l : list Z) : gmap Z string := list_to_map (map (fun v => (v, EmptyString)) l).
(** A 0.3 installation: rows 3 to 5, for what are now versions 1 to 3. *)
Definition legacy : MigDb := mkMigDb true true (described [3; 4; 5]) [Up 1; Up 2; Up 3] [] None false.
Definition strict : MigrateOptions := mkOptions false.
Lemma legacy_installed : installed legacy 3.
Proof.
  apply (Legacy 5); try done; [lia|]. intros v. split.
  - intros [d Hd]. apply elem_of_list_to_map_2 in Hd. simpl in Hd. set_solver.
  - intros Hv. assert (v = 3 \/ v = 4 \/ v = 5) as [->|[->| ->]] by set_solver; vm_compute; eauto.
Qed.
Lemma migrate_completes_witness :
  exists db', apply_migrations no_text no_error no_version 0 strict legacy = Ok db' /\ md_ran db' = [Up 1; Up 2; Up 3] ++ pending_scripts 3
    /\ installed db' CURRENT_VERSION.
Proof.
  destruct (migrate_completes no_text no_error no_version 0 strict legacy 3 legacy_installed) as (db' & H & Hr & Hi & _);
    [discriminate|intros _ _; vm_compute; reflexivity|intros _; vm_compute; reflexivity|reflexivity|].
  exact (ex_intro _ db' (conj H (conj Hr Hi))).
Defined.
Definition after_legacy : MigDb := Eval vm_compute in match apply_migrations no_text no_error no_version 0 strict legacy with Ok db => db | Err _ => legacy end.
Lemma migrate_gated_witness : check_storage_finalized 0 legacy = Ok tt.
Proof.
  apply (migrate_gated no_text no_error no_version 0 strict legacy after_legacy); [reflexivity|vm_compute; reflexivity|vm_compute; discriminate].
Defined.

(** The review branch that numbered the admin metadata 6: versions 1 to 4. *)
Definition inline_v6 : MigDb := mkMigDb true true (described [3; 4; 5; 6]) [Up 1; Up 2; Up 3; Up 4] [] None false.
Definition after_v6 : MigDb :=
  Eval vm_compute in match apply_migrations no_text no_error no_version 0 strict inline_v6 with Ok db => db | Err _ => inline_v6 end.
(** A database of the branch that numbered the admin metadata 6, which
    [normalize_legacy_version] maps to version 4, is taken for one at version 6,
    because the table that marks a current installation is there: a run succeeds,
    records version 52, and never runs the scripts of versions 5 and 6. *)
Theorem inline_v6_skips_versions :
  normalize_legacy_version 6 = 4
  /\ current_version_conn inline_v6 = (6, inline_v6)
  /\ apply_migrations no_text no_error no_version 0 strict inline_v6 = Ok after_v6
  /\ max_version after_v6 = CURRENT_VERSION /\ Up 5 ∉ md_ran after_v6 /\ Up 6 ∉ md_ran after_v6.
Proof.
  split; [reflexivity|]. split; [vm_compute; reflexivity|]. split; [vm_compute; reflexivity|]. split; [vm_compute; reflexivity|].
  split; apply (bool_decide_unpack _); vm_compute; exact I.
Qed.
End MigrationDemo.
