(* ===== verification/CallbackRouting.v ===== *)
(** The callback operations of the admin API (awa-model/src/admin.rs) over a
    whole installation: which engine a callback belongs to, what each operation
    does there, and the callback policies written in CEL.

    The CEL interpreter, the JSON text length and the check of an SQL identifier
    are parameters.  An operation that the code runs in one transaction is one
    function; a UUID is an integer, fresh ones are arguments. *)

From stdpp Require Import strings.
From S2P Require Import Prelude.
From S2P Require Import Error.
From S2P Require Import Json.
From S2P Require Import Job.
From S2P Require Import Rows.
From S2P Require Import QueueStore.
From S2P Require Import Attempts.
From S2P Require Import Callbacks.
From S2P Require Import QueueRead.
From S2P Require Import Canonical.
From S2P Require Import Transition.
From S2P Require Import Crossing.

(** * Which engine *)

Definition on_queue {A} (schema : string) (f : QStore -> result AwaError (A * QStore)) (w : Cluster)
    : result AwaError (A * Cluster) :=
  match schemas w !! schema with
  | None => Err UNDEFINED_TABLE
  | Some u => let? (a, q) := f (su_store u) in Ok (a, set_plane (canonical w) schema (mkSubstrate (su_ready u) q) w)
  end.
Definition on_canonical {A} (f : Db -> result AwaError (A * Db)) (w : Cluster) : result AwaError (A * Cluster) :=
  let? (a, db) := f (canonical w) in Ok (a, set_canonical db w).
Definition routed {A} (engine : option string) (fq : QStore -> result AwaError (A * QStore)) (fc : Db -> result AwaError (A * Db))
    : Cluster -> result AwaError (A * Cluster) :=
  match engine with Some schema => on_queue schema fq | None => on_canonical fc end.

Definition mixed_transition (w : Cluster) : bool :=
  match singleton w with Some t => bool_decide (ts_state t = TMixed) | None => false end.

Section Admin.
Context (validate_ident : string -> bool).

(** By the callback: in mixed transition a callback that queue storage does not
    know stays canonical. *)
Definition callback_queue_storage_in_tx (callback_id : Z) (w : Cluster) : result AwaError (option string) :=
  let? active := active_schema validate_ident w in
  match active with
  | None => Ok None
  | Some schema =>
      if mixed_transition w then
        let? (job, _) := on_queue schema (fun q => let? job := callback_job_in_tx callback_id None q in Ok (job, q)) w in
        Ok (match job with Some _ => Some schema | None => None end)
      else Ok (Some schema)
  end.
(** By the job: in mixed transition a job with a row of [jobs_hot] is canonical. *)
Definition callback_job_queue_storage_in_tx (job_id : Z) (w : Cluster) : result AwaError (option string) :=
  let? active := active_schema validate_ident w in
  match active with
  | None => Ok None
  | Some schema =>
      if mixed_transition w && match hot (canonical w) !! job_id with Some _ => true | None => false end
      then Ok None else Ok (Some schema)
  end.

(** * Registration and waiting *)

Definition register_callback (env : Env) (senv : StoreEnv) (job_id run_lease callback_id timeout : Z) (w : Cluster)
    : result AwaError (Z * Cluster) :=
  let? engine := callback_job_queue_storage_in_tx job_id w in
  routed engine (fun q => let? q := Callbacks.register_callback senv job_id run_lease callback_id timeout q in Ok (callback_id, q))
    (Canonical.register_callback env job_id run_lease callback_id timeout) w.

Definition cancel_callback (job_id run_lease : Z) (w : Cluster) : result AwaError (bool * Cluster) :=
  let? engine := callback_job_queue_storage_in_tx job_id w in
  routed engine (fun q => Ok (Callbacks.cancel_callback job_id run_lease q))
    (fun db => let? (row, db) := Canonical.cancel_callback job_id run_lease db in Ok (bool_decide (is_Some row), db)) w.

Definition enter_callback_wait (job_id run_lease callback_id : Z) (w : Cluster) : result AwaError (bool * Cluster) :=
  let? engine := callback_job_queue_storage_in_tx job_id w in
  routed engine (fun q => Ok (Callbacks.enter_callback_wait job_id run_lease callback_id q))
    (fun db => let? (row, db) := Canonical.enter_callback_wait job_id run_lease callback_id db in
               Ok (bool_decide (is_Some row), db)) w.

Definition poll_result (r : Callbacks.CallbackPollResult) : Canonical.CallbackPollResult :=
  match r with
  | PollResolved v => Resolved v
  | PollStale token current st => StaleToken token current st
  | PollPending => Pending
  | PollUnexpectedState token st => UnexpectedState token st
  | PollNotFound => NotFound
  end.
Definition check_callback_state (job_id callback_id : Z) (w : Cluster)
    : result AwaError (Canonical.CallbackPollResult * Cluster) :=
  let? engine := callback_job_queue_storage_in_tx job_id w in
  routed engine
    (fun q => let? loaded := if existsb (fun l => dl_job_id (ls_row l) =? job_id) (leases q) then Ok None else load_job job_id q in
              let '(r, q) := Callbacks.check_callback_state (j_state <$> loaded) job_id callback_id q in
              Ok (poll_result r, q))
    (Canonical.check_callback_state job_id callback_id) w.

(** * Resolution *)

Definition complete_external_in_tx_inner (env : Env) (senv : StoreEnv) (callback_id : Z) (payload : option json)
    (run_lease : option Z) (resume : bool) (w : Cluster) : result AwaError (JobRow * Cluster) :=
  let? engine := callback_queue_storage_in_tx callback_id w in
  routed engine (Callbacks.complete_external senv callback_id payload run_lease resume)
    (Canonical.complete_external env callback_id payload run_lease resume) w.
Definition complete_external (env : Env) (senv : StoreEnv) (callback_id : Z) (payload : option json) (run_lease : option Z)
    : Cluster -> result AwaError (JobRow * Cluster) :=
  complete_external_in_tx_inner env senv callback_id payload run_lease false.
Definition resume_external (env : Env) (senv : StoreEnv) (callback_id : Z) (payload : option json) (run_lease : option Z)
    : Cluster -> result AwaError (JobRow * Cluster) :=
  complete_external_in_tx_inner env senv callback_id payload run_lease true.

Definition fail_external (env : Env) (senv : StoreEnv) (callback_id : Z) (error : string) (run_lease : option Z) (w : Cluster)
    : result AwaError (JobRow * Cluster) :=
  let? engine := callback_queue_storage_in_tx callback_id w in
  routed engine (Callbacks.fail_external senv callback_id (JObject [("error", JString error)]) run_lease)
    (Canonical.fail_external env callback_id error run_lease) w.
Definition retry_external (env : Env) (senv : StoreEnv) (callback_id : Z) (run_lease : option Z) (w : Cluster)
    : result AwaError (JobRow * Cluster) :=
  let? engine := callback_queue_storage_in_tx callback_id w in
  routed engine (Callbacks.retry_external senv callback_id run_lease) (Canonical.retry_external env callback_id run_lease) w.

(** The row queue storage answers a heartbeat with is read after the write has
    committed; the inner result is that read. *)
Definition waiting_target (callback_id : Z) (l : LeaseRow) : bool :=
  bool_decide (ls_callback_id l = Some callback_id) && bool_decide (dl_state (ls_row l) = WaitingExternal).
Definition heartbeat_answer (callback_id : Z) (q : QStore) : result AwaError JobRow :=
  match List.filter (waiting_target callback_id) (leases q) with
  | [] => Err (CallbackNotFound callback_id)
  | l :: _ => let? job := load_job (dl_job_id (ls_row l)) q in
              match job with Some job => Ok job | None => Err (CallbackNotFound callback_id) end
  end.
Definition heartbeat_callback (env : Env) (senv : StoreEnv) (callback_id timeout : Z) (w : Cluster)
    : result AwaError (result AwaError JobRow * Cluster) :=
  let? engine := callback_queue_storage_in_tx callback_id w in
  routed engine
    (fun q => let? q := Callbacks.heartbeat_callback senv callback_id timeout q in Ok (heartbeat_answer callback_id q, q))
    (fun db => let? (job, db) := Canonical.heartbeat_callback env callback_id timeout db in Ok (Ok job, db)) w.

(** * Completion with an output *)

Record ExternalCompletion : Type := mkExternalCompletion {
  ec_output : option json;
  ec_run_lease : option Z;
  ec_expected_kind : option string
}.
Definition external_completion : ExternalCompletion := mkExternalCompletion None None None.
Definition with_external_output (output : json) (e : ExternalCompletion) : ExternalCompletion :=
  mkExternalCompletion (Some output) (ec_run_lease e) None.
Definition with_run_lease (run_lease : Z) (e : ExternalCompletion) : ExternalCompletion :=
  mkExternalCompletion (ec_output e) (Some run_lease) (ec_expected_kind e).

(** [json_len] is [serialized_len], [error_text] the [Display] of an
    [OutputError], [kind_mismatch] the message of the kind check. *)
Context (json_len : json -> result string Z) (error_text : OutputError -> string) (kind_mismatch : Z -> string -> string -> string).

Definition external_target (run_lease : option Z) (r : JobRow) : bool := waiting_or_running r && lease_matches run_lease r.
Definition callback_kind (engine : option string) (callback_id : Z) (run_lease : option Z) (w : Cluster)
    : result AwaError (option (Z * string)) :=
  let id_kind (j : JobRow) := (j_id j, j_kind j) in
  let? (job, _) := routed engine
    (fun q => let? job := callback_job_in_tx callback_id run_lease q in Ok (id_kind <$> job, q))
    (fun db => Ok (id_kind <$> find_callback callback_id (external_target run_lease) db, db)) w in
  Ok job.
Definition check_kind (expected : option string) (job : option (Z * string)) : result AwaError unit :=
  match expected, job with
  | Some expected, Some (id, kind) =>
      if String.eqb kind expected then Ok tt else Err (Validation (kind_mismatch id kind expected))
  | _, _ => Ok tt
  end.
Definition validated_output (output : option json) : result AwaError (option json) :=
  match output with
  | Some output => match validate_output json_len output with
                   | Ok o => Ok o
                   | Err e => Err (Validation (error_text e))
                   end
  | None => Ok None
  end.
Definition complete_external_reporting_output (supports_job_output : bool) (env : Env) (senv : StoreEnv) (callback_id : Z)
    (opts : ExternalCompletion) (w : Cluster) : result AwaError (JobRow * option string * Cluster) :=
  let? output := validated_output (ec_output opts) in
  let? engine := callback_queue_storage_in_tx callback_id w in
  let? job := match ec_expected_kind opts with
              | Some _ => callback_kind engine callback_id (ec_run_lease opts) w
              | None => Ok None
              end in
  check? check_kind (ec_expected_kind opts) job;
  match engine with
  | Some schema =>
      let? (row, w) := on_queue schema
        (complete_external_with_output supports_job_output senv callback_id (ec_run_lease opts) output) w in
      Ok (row, if bool_decide (is_Some output) && bool_decide (j_output row = None) then Some "schema_missing" else None, w)
  | None =>
      let? (row, w) := complete_external_in_tx_inner env senv callback_id None (ec_run_lease opts) false w in
      Ok (row, if bool_decide (is_Some output) then Some "canonical" else None, w)
  end.

(** * Callback policies *)

(** The interpreter: [compile], the variables a program names, whether a payload
    can be bound, and [execute] with [payload] bound; a value may be a boolean
    and may have a JSON form. *)
Context {Program Value : Type} (compile : string -> result string Program) (variables : Program -> list string)
  (add_variable : json -> bool) (execute : Program -> json -> option Value) (as_bool : Value -> option bool)
  (value_json : Value -> option json) (cel : bool).

Definition CEL_REQUIRED : AwaError := Validation "CEL expressions require the 'cel' feature".
Definition CEL_MISSING : AwaError := Validation "CEL expressions present but 'cel' feature is not enabled".
Definition check_program (name src : string) : result AwaError unit :=
  match compile src with
  | Err e => Err (Validation ("invalid CEL expression for " +:+ name +:+ ": " +:+ e))
  | Ok program =>
      match List.filter (fun v => negb (String.eqb v "payload")) (variables program) with
      | [] => Ok tt
      | bad_vars => Err (Validation ("CEL expression for " +:+ name +:+ " references undeclared variable(s): "
                                     +:+ String.concat ", " bad_vars +:+ "; only 'payload' is available"))
      end
  end.
Definition check_config (config : CallbackConfig) : result AwaError unit :=
  if cel then
    check? check_expr check_program "filter" (cc_filter config);
    check? check_expr check_program "on_complete" (cc_on_complete config);
    check? check_expr check_program "on_fail" (cc_on_fail config);
    check_expr check_program "transform" (cc_transform config)
  else if config_is_empty config then Ok tt else Err CEL_REQUIRED.

Definition set_callback_config (config : CallbackConfig) (r : JobRow) : JobRow :=
  mkJobRow (j_id r) (j_kind r) (j_queue r) (j_args r) (j_state r) (j_priority r) (j_attempt r)
    (j_run_lease r) (j_max_attempts r) (j_run_at r) (j_heartbeat_at r) (j_deadline_at r)
    (j_attempted_at r) (j_finalized_at r) (j_created_at r) (j_errors r) (j_metadata r)
    (j_tags r) (j_unique_key r) (j_unique_states r) (j_callback_id r) (j_callback_timeout_at r)
    (cc_filter config) (cc_on_complete config) (cc_on_fail config) (cc_transform config) (j_progress r) (j_output r).
Definition register_canonical_config (env : Env) (job_id run_lease callback_id timeout : Z) (config : CallbackConfig) (db : Db)
    : result AwaError (Z * Db) :=
  let? (row, db) := update_hot_where job_id (running_lease run_lease)
    (fun r => r |> Job.set_callback (Some callback_id) (Some (now env + timeout)) |> set_callback_config config) db in
  match row with Some _ => Ok (callback_id, db) | None => Err NOT_RUNNING end.
Definition register_callback_with_config (env : Env) (senv : StoreEnv) (job_id run_lease callback_id timeout : Z)
    (config : CallbackConfig) (w : Cluster) : result AwaError (Z * Cluster) :=
  check? check_config config;
  let? engine := callback_job_queue_storage_in_tx job_id w in
  routed engine
    (fun q => let? q := Callbacks.register_callback_with_config
                          (fun name src => if cel then check_program name src else Err CEL_REQUIRED)
                          senv job_id run_lease callback_id timeout config q in
              Ok (callback_id, q))
    (register_canonical_config env job_id run_lease callback_id timeout config) w.

Inductive DefaultAction : Type := DefaultComplete | DefaultFail | DefaultIgnore.
Inductive ResolveAction : Type :=
  | ActComplete (payload : option json)
  | ActFail (error : string) (expression : option string)
  | ActIgnore (reason : string).
Inductive ResolveOutcome : Type :=
  | ResCompleted (payload : option json) (job : JobRow)
  | ResFailed (job : JobRow)
  | ResIgnored (reason : string).

Definition apply_default (default_action : DefaultAction) (payload : option json) : ResolveAction :=
  match default_action with
  | DefaultComplete => ActComplete payload
  | DefaultFail => ActFail "callback failed: default action" None
  | DefaultIgnore => ActIgnore "no expressions configured, default is ignore"
  end.

(** [eval_bool]; [None] is its [Err]. *)
Definition eval_bool (expression : string) (payload_value : json) : option bool :=
  match compile expression with
  | Err _ => None
  | Ok program =>
      if add_variable payload_value
      then match execute program payload_value with Some v => as_bool v | None => None end
      else None
  end.
Definition apply_transform (job : JobRow) (payload_value : json) : json :=
  match j_callback_transform job with
  | None => payload_value
  | Some expr =>
      match compile expr with
      | Err _ => payload_value
      | Ok program =>
          if add_variable payload_value
          then match execute program payload_value with
               | Some v => match value_json v with Some j => j | None => payload_value end
               | None => payload_value
               end
          else payload_value
      end
  end.

Definition evaluate_cel (job : JobRow) (payload : option json) (default_action : DefaultAction) : ResolveAction :=
  let payload_value := default JNull payload in
  let answer (expr : option string) := expr ≫= fun e => eval_bool e payload_value in
  match answer (j_callback_filter job) with
  | Some false => ActIgnore "filter expression returned false"
  | _ =>
      match answer (j_callback_on_fail job) with
      | Some true => ActFail "callback failed: on_fail expression matched" (j_callback_on_fail job)
      | _ =>
          match answer (j_callback_on_complete job) with
          | Some true => ActComplete (Some (apply_transform job payload_value))
          | _ => apply_default default_action payload
          end
      end
  end.
Definition has_expressions (job : JobRow) : bool :=
  match j_callback_filter job, j_callback_on_complete job, j_callback_on_fail job, j_callback_transform job with
  | None, None, None, None => false
  | _, _, _, _ => true
  end.
Definition evaluate_or_default (job : JobRow) (payload : option json) (default_action : DefaultAction)
    : result AwaError ResolveAction :=
  if negb (has_expressions job) then Ok (apply_default default_action payload)
  else if cel then Ok (evaluate_cel job payload default_action)
  else Err CEL_MISSING.

(** [json!({"error", "attempt", "at"})], with the expression that matched. *)
Definition resolve_error (env : Env) (attempt : Z) (error : string) (expression : option string) : json :=
  JObject ([("at", JString (at_rust env)); ("attempt", i64_number attempt); ("error", JString error)]
           ++ match expression with Some e => [("expression", JString e)] | None => [] end).

Definition resolve_queue (env : Env) (senv : StoreEnv) (callback_id : Z) (payload : option json) (default_action : DefaultAction)
    (run_lease : option Z) (q : QStore) : result AwaError (ResolveOutcome * QStore) :=
  let? job := callback_job_in_tx callback_id run_lease q in
  match job with
  | None => Err (CallbackNotFound callback_id)
  | Some job =>
      let? action := evaluate_or_default job payload default_action in
      match action with
      | ActComplete transformed =>
          let? (completed, q) := Callbacks.complete_external senv callback_id None run_lease false q in
          Ok (ResCompleted transformed completed, q)
      | ActFail error expression =>
          let? (failed, q) := Callbacks.fail_external senv callback_id (resolve_error env (j_attempt job) error expression)
                                run_lease q in
          Ok (ResFailed failed, q)
      | ActIgnore reason => Ok (ResIgnored reason, q)
      end
  end.
Definition fail_row (env : Env) (entry : json) (r : JobRow) : JobRow :=
  r |> set_state Failed |> set_finalized_at (Some (now env)) |> clear_callback
    |> set_heartbeat_at None |> set_deadline_at None |> append_error entry.
Definition resolve_canonical (env : Env) (callback_id : Z) (payload : option json) (default_action : DefaultAction)
    (run_lease : option Z) (db : Db) : result AwaError (ResolveOutcome * Db) :=
  match find_callback callback_id (external_target run_lease) db with
  | None => Err (CallbackNotFound callback_id)
  | Some job =>
      let? action := evaluate_or_default job payload default_action in
      match action with
      | ActComplete transformed =>
          let? (completed, db) := update_hot (complete_external_row env) job db in
          Ok (ResCompleted transformed completed, db)
      | ActFail error expression =>
          let? (failed, db) := update_hot (fail_row env (resolve_error env (j_attempt job) error expression)) job db in
          Ok (ResFailed failed, db)
      | ActIgnore reason => Ok (ResIgnored reason, db)
      end
  end.
Definition resolve_callback (env : Env) (senv : StoreEnv) (callback_id : Z) (payload : option json)
    (default_action : DefaultAction) (run_lease : option Z) (w : Cluster) : result AwaError (ResolveOutcome * Cluster) :=
  let? engine := callback_queue_storage_in_tx callback_id w in
  routed engine (resolve_queue env senv callback_id payload default_action run_lease)
    (resolve_canonical env callback_id payload default_action run_lease) w.
End Admin.
