(* ===== verification/CallbackGuarantees.v ===== *)
(** What the callback operations of the admin API promise over a whole
    installation: a callback is resolved by the engine its job lives in, before,
    during and after a storage transition, and resolving by policy does what the
    policy says. *)

From S2P Require Import Prelude.
From S2P Require Import Error.
From S2P Require Import Json.
From S2P Require Import Job.
From S2P Require Import QueueStore.
From S2P Require Import Attempts.
From S2P Require Import Callbacks.
From S2P Require Import StoreGuarantees.
From S2P Require Import Canonical.
From S2P Require Import CanonicalFacts.
From S2P Require Import Lifecycle.
From S2P Require Import System.
From S2P Require Import Guarantees.
From S2P Require Import Transition.
From S2P Require Import Crossing.
From S2P Require Import TransitionRuns.
From S2P Require Import TransitionGuarantees.
From S2P Require Import CallbackRouting.

(** * Ownership *)

Section Owner.
Context (jsonb_text : json -> string).
Context (hash : list Z -> Z) (stripe_count : nat) (blake3 : list Z -> list Z) (to_vec : json -> list Z) (ambient : option string).
Context (validate_ident : string -> bool).
Abbreviation cluster_reachable := (TransitionRuns.cluster_reachable jsonb_text hash stripe_count blake3 to_vec ambient).

(** The store routing points to can be read and has no live lease with this
    callback. *)
Definition unknown_to_store (cb : Z) (w : Cluster) : Prop :=
  forall s, marker w = Some s ->
    validate_ident s = true /\ exists u, schemas w !! s = Some u /\ callback_job_in_tx cb None (su_store u) = Ok None.

Lemma live_not_active w t id r :
  cluster_ok w -> singleton w = Some t -> hot (canonical w) !! id = Some r -> is_terminal (j_state r) = false ->
  marker w = None \/ exists s, marker w = Some s /\ mixed_transition w = true.
Proof.
  intros [(t0 & Et0 & Hph & _) _ _ _] Et Hr Hl. rewrite Et in Et0. injection Et0 as <-.
  destruct Hph as [_ _ _ Hm|_ _ Hm|s Es _ _ _ Hm|s _ _ _ _ _ Hn]; [by left|by left| |].
  - right. exists s. split; [done|]. unfold mixed_transition. by rewrite Et, bool_decide_eq_true_2.
  - rewrite (Hn id r) in Hl; [done|]. unfold lookup_job. by rewrite Hr.
Qed.

Lemma canonical_owner w id r cb :
  cluster_ok w -> hot (canonical w) !! id = Some r -> is_terminal (j_state r) = false -> unknown_to_store cb w ->
  callback_queue_storage_in_tx validate_ident cb w = Ok None /\ callback_job_queue_storage_in_tx validate_ident id w = Ok None.
Proof.
  intros Hok Hr Hl Hu. pose proof Hok as [(t & Et & _) _ _ _].
  unfold callback_queue_storage_in_tx, callback_job_queue_storage_in_tx, active_schema.
  destruct (live_not_active w t id r Hok Et Hr Hl) as [Hm|(s & Hm & Hx)]; rewrite Hm; [done|].
  destruct (Hu s Hm) as (Hv & u & Hs & Hj). rewrite Hv. cbn [rbind]. rewrite Hx, Hr. unfold on_queue. rewrite Hs, Hj. done.
Qed.

Lemma sync_error old new m e : sync_job_unique_claims old new m = Err e -> forall cb, e <> CallbackNotFound cb.
Proof.
  unfold sync_job_unique_claims. destruct (new ≫= claimed_key) as [key|]; [|done]. destruct new as [n|]; [|done].
  destruct (_ || _); [|done]. unfold acquire_claim. destruct (_ !! _); [|done].
  destruct (_ =? _); [done|]. by intros [= <-].
Qed.

Lemma find_callback_only cb guard id r db :
  hot db !! id = Some r -> j_callback_id r = Some cb -> guard r = true ->
  (forall i r', hot db !! i = Some r' -> j_callback_id r' = Some cb -> i = id) ->
  find_callback cb guard db = Some r.
Proof.
  intros Hr Hc Hg Hu. unfold find_callback. destruct (List.find _ _) as [r'|] eqn:E.
  - apply find_some in E as [Hin [Hc' _]%andb_true_iff]. apply bool_decide_eq_true in Hc'.
    apply list_elem_of_In, list_elem_of_fmap in Hin as ([i x] & -> & Hi%elem_of_map_to_list). simpl in *.
    rewrite (Hu i x Hi Hc') in Hi. congruence.
  - apply (find_none _ _) with (x := r) in E; [|apply list_elem_of_In; by eapply rows_of_elem].
    unfold has_callback in E. rewrite Hc, bool_decide_eq_true_2, Hg in E; done.
Qed.

(** A callback is resolved where its job lives.  At every point of a run of
    the cluster, before, during or after the move to queue storage, a canonical
    job that still waits on a callback is found there: an external completion
    for the attempt completes that very job and leaves every store alone, and it
    never answers that the callback does not exist.  A callback that a live lease
    of the active store carries is resolved by that store. *)
Theorem callback_owner w cb :
  cluster_reachable w ->
  (forall id r, hot (canonical w) !! id = Some r -> j_callback_id r = Some cb -> waiting_or_running r = true ->
     (forall i r', hot (canonical w) !! i = Some r' -> j_callback_id r' = Some cb -> i = id) -> unknown_to_store cb w ->
     forall env senv payload lease, lease_matches lease r = true ->
       match complete_external validate_ident env senv cb payload lease w with
       | Ok (row, w') => row = complete_external_row env r /\ hot (canonical w') = <[id := row]> (hot (canonical w))
                         /\ schemas w' = schemas w
       | Err e => e <> CallbackNotFound cb
       end)
  /\ (forall s u job, marker w = Some s -> validate_ident s = true -> schemas w !! s = Some u ->
       callback_job_in_tx cb None (su_store u) = Ok (Some job) ->
       forall env senv payload lease,
         complete_external validate_ident env senv cb payload lease w
         = on_queue s (Callbacks.complete_external senv cb payload lease false) w).
Proof.
  intros Hok%(cluster_reachable_ok jsonb_text hash stripe_count blake3 to_vec ambient). split.
  - intros id r Hr Hc Hl Hu Hun env senv payload lease Hm. unfold complete_external, complete_external_in_tx_inner.
    assert (is_terminal (j_state r) = false) as Ht.
    { apply orb_true_iff in Hl as [H|H]; apply bool_decide_eq_true in H; by rewrite H. }
    destruct (canonical_owner w id r cb Hok Hr Ht Hun) as [-> _]. cbn [rbind routed].
    unfold on_canonical, Canonical.complete_external, update_callback.
    rewrite (find_callback_only cb _ id r) by (done || by rewrite Hl, Hm). unfold update_hot.
    destruct (sync_job_unique_claims _ _ _) as [m|e] eqn:Es; cbn [rbind]; [|by eapply sync_error].
    split_and!; [done| |done]. cbn. pose proof (ck_wf _ Hok) as Hwf. by rewrite (proj1 (wf_hot _ Hwf _ _ Hr)).
  - intros s u job Hm Hv Hs Hj env senv payload lease. unfold complete_external, complete_external_in_tx_inner.
    unfold callback_queue_storage_in_tx, active_schema. rewrite Hm, Hv. cbn [rbind].
    destruct (mixed_transition w); [|done]. unfold on_queue at 1. rewrite Hs, Hj. done.
Qed.
End Owner.

(** * Policies *)

Section Policy.
Context (validate_ident : string -> bool).
Context {Program Value : Type} (compile : string -> result string Program)
  (add_variable : json -> bool) (execute : Program -> json -> option Value) (as_bool : Value -> option bool)
  (value_json : Value -> option json) (cel : bool).
Abbreviation eval_bool := (CallbackRouting.eval_bool compile add_variable execute as_bool).
Abbreviation apply_transform := (CallbackRouting.apply_transform compile add_variable execute value_json).
Abbreviation evaluate_or_default := (CallbackRouting.evaluate_or_default compile add_variable execute as_bool value_json cel).
Abbreviation resolve_callback := (CallbackRouting.resolve_callback validate_ident compile add_variable execute as_bool value_json cel).

(** What an expression answers for a payload; [None] when there is none or its
    evaluation fails. *)
Definition answer (expr : option string) (payload : option json) : option bool :=
  expr ≫= fun e => eval_bool e (default JNull payload).
(** What the expressions of a job allow as outcome. *)
Definition permits (job : JobRow) (payload : option json) (d : DefaultAction) (a : ResolveAction) : Prop :=
  let filter := answer (j_callback_filter job) payload in
  let on_fail := answer (j_callback_on_fail job) payload in
  let on_complete := answer (j_callback_on_complete job) payload in
  let undecided := filter <> Some false /\ on_fail <> Some true /\ on_complete <> Some true in
  match a with
  | ActIgnore _ => filter = Some false \/ undecided /\ d = DefaultIgnore
  | ActFail _ expr =>
      filter <> Some false /\ on_fail = Some true /\ expr = j_callback_on_fail job \/ undecided /\ d = DefaultFail /\ expr = None
  | ActComplete p =>
      filter <> Some false /\ on_fail <> Some true
      /\ (on_complete = Some true /\ p = Some (apply_transform job (default JNull payload))
          \/ on_complete <> Some true /\ d = DefaultComplete /\ p = payload)
  end.

Lemma default_permitted job payload d :
  answer (j_callback_filter job) payload <> Some false -> answer (j_callback_on_fail job) payload <> Some true ->
  answer (j_callback_on_complete job) payload <> Some true -> permits job payload d (apply_default d payload).
Proof. intros Hf Hn Hc. destruct d; simpl; tauto. Qed.
Lemma evaluated_permitted job payload d a : evaluate_or_default job payload d = Ok a -> permits job payload d a.
Proof.
  unfold CallbackRouting.evaluate_or_default. destruct (has_expressions job) eqn:He; cbn [negb].
  - destruct cel; [|done]. intros [= <-]. unfold evaluate_cel.
    destruct (j_callback_filter job ≫= _) as [[|]|] eqn:Ef; [| by left |];
      (destruct (j_callback_on_fail job ≫= _) as [[|]|] eqn:En;
        [left; unfold answer; rewrite Ef, En; done
        |destruct (j_callback_on_complete job ≫= _) as [[|]|] eqn:Ec..]);
      try (by apply default_permitted; unfold answer; rewrite ?Ef, ?En, ?Ec);
      simpl; unfold answer; rewrite Ef, En, Ec; (split; [done|]; split; [done|]; left; done).
  - intros [= <-]. unfold has_expressions in He.
    destruct (j_callback_filter job) eqn:Ef, (j_callback_on_complete job) eqn:Ec, (j_callback_on_fail job) eqn:En,
      (j_callback_transform job); try done. apply default_permitted; by rewrite ?Ef, ?Ec, ?En.
Qed.

(** The row a callback names, on the engine that owns it. *)
Definition callback_row (engine : option string) (cb : Z) (lease : option Z) : Cluster -> result AwaError (option JobRow * Cluster) :=
  routed engine (fun q => let? job := callback_job_in_tx cb lease q in Ok (job, q))
    (fun db => Ok (find_callback cb (external_target lease) db, db)).
(** What an action does to it. *)
Definition acts (env : Env) (senv : StoreEnv) (engine : option string) (cb : Z) (lease : option Z) (attempt : Z) (a : ResolveAction)
    (w : Cluster) (o : ResolveOutcome) (w' : Cluster) : Prop :=
  match a, o with
  | ActIgnore reason, ResIgnored reason' => reason' = reason /\ w' = w
  | ActComplete p, ResCompleted p' row => p' = p /\ complete_external validate_ident env senv cb None lease w = Ok (row, w')
  | ActFail error expr, ResFailed row =>
      let entry := resolve_error env attempt error expr in
      routed engine (Callbacks.fail_external senv cb entry lease)
        (update_callback cb (external_target lease) (fail_row env entry)) w = Ok (row, w')
  | _, _ => False
  end.

Lemma set_plane_same w s u : schemas w !! s = Some u -> set_plane (canonical w) s (mkSubstrate (su_ready u) (su_store u)) w = w.
Proof.
  intros Hs. destruct w as [t m rs db ss]. unfold set_plane. cbn in *. f_equal. destruct u. by apply insert_id.
Qed.
Lemma set_canonical_same w : set_canonical (canonical w) w = w.
Proof. by destruct w. Qed.

(** Resolving a callback by its policy does what the policy says and nothing
    else.  The outcome is one the job's expressions permit: a false filter
    ignores, a true [on_fail] outranks a true [on_complete], an expression that
    cannot be evaluated decides nothing and leaves the default action; and the
    effect is that of the chosen action alone: nothing for an ignored callback,
    the external completion for a completed one, a failure with the matching
    expression in its error entry for a failed one. *)
Theorem resolve_by_policy env senv cb payload d lease w o w' :
  resolve_callback env senv cb payload d lease w = Ok (o, w') ->
  exists engine job a,
    callback_queue_storage_in_tx validate_ident cb w = Ok engine
    /\ callback_row engine cb lease w = Ok (Some job, w)
    /\ permits job payload d a /\ acts env senv engine cb lease (j_attempt job) a w o w'.
Proof.
  unfold CallbackRouting.resolve_callback. intros (engine & He & H)%rbind_Ok. destruct engine as [s|]; cbn [routed] in H.
  - unfold on_queue in H. destruct (schemas w !! s) as [u|] eqn:Hs; [|done].
    apply rbind_Ok in H as ([o1 q'] & H & [= <- <-]). unfold resolve_queue in H.
    apply rbind_Ok in H as (job & Hj & H). destruct job as [job|]; [|done]. apply rbind_Ok in H as (a & Ha & H).
    exists (Some s), job, a. split; [done|]. split.
    { unfold callback_row. cbn [routed]. unfold on_queue. rewrite Hs, Hj. cbn [rbind]. by rewrite set_plane_same. }
    split; [by eapply evaluated_permitted|].
    destruct a as [p|error expr|reason]; [apply rbind_Ok in H as ([row q1] & H & [= <- <-])..|injection H as <- <-]; cbn [acts].
    + split; [done|]. unfold complete_external, complete_external_in_tx_inner. rewrite He. cbn [rbind routed]. unfold on_queue. by rewrite Hs, H.
    + cbn [routed]. unfold on_queue. by rewrite Hs, H.
    + split; [done|]. by apply set_plane_same.
  - unfold on_canonical in H. apply rbind_Ok in H as ([o1 db'] & H & [= <- <-]). unfold resolve_canonical in H.
    destruct (find_callback cb (external_target lease) (canonical w)) as [job|] eqn:Hj; [|done].
    apply rbind_Ok in H as (a & Ha & H). exists None, job, a. split; [done|]. split.
    { unfold callback_row. cbn [routed]. unfold on_canonical. rewrite Hj. cbn [rbind]. by rewrite set_canonical_same. }
    split; [by eapply evaluated_permitted|].
    destruct a as [p|error expr|reason]; [apply rbind_Ok in H as ([row q1] & H & [= <- <-])..|injection H as <- <-]; cbn [acts].
    + split; [done|]. unfold complete_external, complete_external_in_tx_inner. rewrite He. cbn [rbind routed]. unfold on_canonical.
      unfold Canonical.complete_external, update_callback. change (fun r => _ && _) with (external_target lease). by rewrite Hj, H.
    + cbn [routed]. unfold on_canonical, update_callback. by rewrite Hj, H.
    + split; [done|]. by apply set_canonical_same.
Qed.
End Policy.

(** * Examples *)

Module CallbackDemo.
Import TransitionDemo.
(** A canonical job parks on callback 77; then routing flips. *)
Definition parks : list (Env * op) :=
  [Demo.insert_one 0; Demo.claim_one 1; (Demo.env_at 2, OpRegisterCallback 1 1 77 us_per_sec); (Demo.env_at 3, OpEnterWait 1 1 77)].
Definition parked_db : Db := Eval vm_compute in db (Demo.run parks empty_sys).
Definition w_parked : Cluster := set_canonical parked_db w_installed.
Definition w_flipped : Cluster := entered (reported (prepared named w_parked)).
Definition parked_row : JobRow := Eval vm_compute in Demo.row_of 1 (Demo.run parks empty_sys).

Lemma reaches_parked : reach w_parked.
Proof.
  destruct reaches_installed as (now & H). exists now. etrans; [exact H|]. apply canonical_run; try done.
  - by intros t [= <-].
  - change parked_db with (db (Demo.run parks empty_sys)). apply (demo_steps parks empty_sys), empty_inv.
Qed.
Lemma reaches_flipped : reach w_flipped.
Proof.
  apply (reaches_step (reported (prepared named w_parked))); [apply (reaches_step (prepared named w_parked));
    [apply (reaches_step w_parked); [exact reaches_parked|]|]|].
  - by eapply (step_of _ _ _ "awa"); [apply (CPrepare _ _ _ _ _ _ _ 10 "queue_storage" (Some named)); reflexivity|reflexivity| |intros t [= <-]].
  - by eapply (step_of _ _ _ "awa"); [apply CReport|reflexivity| |intros t [= <-]].
  - by eapply (step_of _ _ _ "awa"); [apply (CEnter _ _ _ _ _ _ _ (20 * us_per_sec)); reflexivity|reflexivity| |intros t [= <-]].
Qed.

(** A toy interpreter: the program [yes] is true, [no] false, others fail. *)
Definition compile (e : string) : result string string := Ok e.
Definition execute (e : string) (_ : json) : option bool :=
  if String.eqb e "yes" then Some true else if String.eqb e "no" then Some false else None.
Definition resolve := resolve_callback (fun _ => true) compile (fun _ => true) execute Some (fun b => Some (JBool b)) true.
Definition policy : CallbackConfig := mkCallbackConfig (Some "broken") (Some "yes") (Some "no") None.
Definition registered : result AwaError (Z * Cluster) :=
  register_callback_with_config (fun _ => true) compile (fun _ => []) true (Demo.env_at 2) (StoreDemo.at_second 2) 1 1 77 us_per_sec
    policy w_job.
Definition w_policy : Cluster := match registered with Ok (_, w) => w | Err _ => w_job end.
End CallbackDemo.

Lemma callback_owner_witness :
  exists row w', complete_external (fun _ => true) (Demo.env_at 30) (StoreDemo.at_second 30) 77 None (Some 1) CallbackDemo.w_flipped
                 = Ok (row, w')
    /\ row = complete_external_row (Demo.env_at 30) CallbackDemo.parked_row /\ schemas w' = schemas CallbackDemo.w_flipped.
Proof.
  pose proof (proj1 (callback_owner TransitionDemo.text StoreDemo.no_hash 1 id (fun _ => []) None (fun _ => true) CallbackDemo.w_flipped 77
                       CallbackDemo.reaches_flipped) 1 CallbackDemo.parked_row) as H.
  specialize (H ltac:(vm_compute; reflexivity) ltac:(reflexivity) ltac:(vm_compute; reflexivity)).
  assert (forall i r', hot (canonical CallbackDemo.w_flipped) !! i = Some r' -> j_callback_id r' = Some 77 -> i = 1) as Hu.
  { intros i r' Hi _. change (hot (canonical CallbackDemo.w_flipped)) with (hot CallbackDemo.parked_db) in Hi.
    change (hot CallbackDemo.parked_db) with ({[1 := CallbackDemo.parked_row]} : gmap Z JobRow) in Hi.
    by apply lookup_singleton_Some in Hi as [<- _]. }
  specialize (H Hu).
  assert (unknown_to_store (fun _ => true) 77 CallbackDemo.w_flipped) as Hn.
  { intros s [= <-]. split; [done|]. eexists. split; vm_compute; reflexivity. }
  specialize (H Hn (Demo.env_at 30) (StoreDemo.at_second 30) None (Some 1) ltac:(vm_compute; reflexivity)).
  destruct (complete_external _ _ _ _ _ _ _) as [[row w']|e] eqn:E.
  - exists row, w'. split; [done|]. split; apply H.
  - exfalso. revert E. vm_compute. discriminate.
Defined.
Lemma resolve_by_policy_witness :
  exists o w' job,
    CallbackDemo.resolve (Demo.env_at 4) (StoreDemo.at_second 4) 77 None DefaultFail None CallbackDemo.w_policy = Ok (o, w')
    /\ callback_row None 77 None CallbackDemo.w_policy = Ok (Some job, CallbackDemo.w_policy)
    /\ match o with ResCompleted _ row => j_state row = Completed | _ => False end.
Proof.
  destruct (CallbackDemo.resolve (Demo.env_at 4) (StoreDemo.at_second 4) 77 None DefaultFail None CallbackDemo.w_policy) as [[o w']|e] eqn:E;
    [|exfalso; revert E; vm_compute; discriminate].
  pose proof (resolve_by_policy _ _ _ _ _ _ _ _ _ _ _ _ _ _ _ _ E) as (engine & job & a & He & Hj & _).
  exists o, w', job. split; [done|]. split.
  - assert (engine = None) as -> by (revert He; vm_compute; congruence). exact Hj.
  - revert E. vm_compute. by intros [= <- _].
Defined.
