(* ===== verification/HttpCallbacks.v ===== *)
(** Jobs done by HTTP functions: the callback contract
    (awa-model/src/callback_contract.rs), the worker that posts a job to a
    function (awa-worker/src/http_worker.rs), and the receiver the function
    calls back (awa-ui/src/handlers/callbacks.rs, awa-ui/src/callback_router.rs).

    BLAKE3, the text of a UUID and the path matching of the web framework are
    other code: the class [Wire] states what is used of them.  What the outside
    world does between the post and its response is a parameter of the worker. *)

From Stdlib Require Import SpecFloat.
From stdpp Require Import strings.
From S2P Require Import Prelude.
From S2P Require Import Error.
From S2P Require Import Json.
From S2P Require Import Job.
From S2P Require Import F64.
From S2P Require Import QueueStore.
From S2P Require Import Callbacks.
From S2P Require Import Canonical.
From S2P Require Import Executor.
From S2P Require Import QueueExecutor.
From S2P Require Import Transition.
From S2P Require Import Cron.
From S2P Require Import CallbackRouting.
From S2P Require Import StoreGuarantees.
From S2P Require Import Guarantees.
From S2P Require Import TransitionGuarantees.

(** * Text *)

(** [str::trim], on UTF-8 bytes. *)
Fixpoint trim_start (s : string) : string :=
  match s with
  | EmptyString => EmptyString
  | String a s1 =>
      if ascii_space a then trim_start s1
      else match s1 with
           | EmptyString => s
           | String b s2 =>
               if space2 a b then trim_start s2
               else match s2 with
                    | EmptyString => s
                    | String c s3 => if space3 a b c then trim_start s3 else s
                    end
           end
  end.
Fixpoint trim_end (s : string) : string :=
  match s with
  | EmptyString => EmptyString
  | String a s1 => if blank s then EmptyString else String a (trim_end s1)
  end.
Definition trim (s : string) : string := trim_end (trim_start s).
Definition slash : ascii := "/".
Definition is_slash (a : ascii) : bool := bool_decide (a = slash).
Fixpoint only_slashes (s : string) : bool :=
  match s with EmptyString => true | String a s' => is_slash a && only_slashes s' end.
(** [trim_end_matches('/')]. *)
Fixpoint trim_slashes (s : string) : string :=
  match s with
  | EmptyString => EmptyString
  | String a s' => if only_slashes s then EmptyString else String a (trim_slashes s')
  end.

(** * The contract *)

Definition SIGNATURE_HEADER : string := "X-Awa-Signature".
Definition DEFAULT_CALLBACK_PATH_PREFIX : string := "/api/callbacks".
Definition DEFAULT_HEARTBEAT_TIMEOUT_SECS : spec_float := as_f64 3600.

Definition normalize_prefix (prefix : string) : string :=
  match trim_slashes (trim prefix) with
  | EmptyString => EmptyString
  | String a s => if is_slash a then String a s else "/" +:+ String a s
  end.
Definition callback_path (prefix id action : string) : string := normalize_prefix prefix +:+ "/" +:+ id +:+ "/" +:+ action.
Definition callback_url (base prefix id action : string) : string :=
  trim_slashes base +:+ normalize_prefix prefix +:+ "/" +:+ id +:+ "/" +:+ action.

Fixpoint no_char (p : ascii -> bool) (s : string) : bool :=
  match s with EmptyString => true | String a s' => negb (p a) && no_char p s' end.
Definition is_brace (a : ascii) : bool := bool_decide (a = "{"%char \/ a = "}"%char).

(** [keyed_hash], hex and UUID text; [capture template path] is the segment a
    route template binds to its one parameter, if the path matches. *)
Class Wire : Type := {
  secret_key : Type;
  digest : Type;
  keyed_hash : secret_key -> string -> digest;
  digest_eqb : digest -> digest -> bool;
  to_hex : digest -> string;
  from_hex : string -> option digest;
  uuid_text : Z -> string;
  parse_uuid : string -> result string Z;
  capture : string -> string -> option string;
  (** their documented behaviour *)
  digest_eqb_spec : forall a b, digest_eqb a b = true <-> a = b;
  hex_digits : forall d, from_hex (to_hex d) = Some d;
  uuid_reads_back : forall u, parse_uuid (uuid_text u) = Ok u;
  uuid_one_segment : forall u, no_char is_slash (uuid_text u) = true /\ uuid_text u <> EmptyString;
  capture_segment : forall prefix id a b,
    no_char is_brace prefix = true -> no_char is_slash id = true -> id <> EmptyString ->
    no_char is_slash a = true -> no_char is_brace a = true -> no_char is_slash b = true ->
    capture (prefix +:+ "/{callback_id}/" +:+ a) (prefix +:+ "/" +:+ id +:+ "/" +:+ b)
    = if String.eqb a b then Some id else None
}.

Section Http.
Context {wire : Wire}.

Definition sign (secret : secret_key) (callback_id : string) : string := to_hex (keyed_hash secret callback_id).
Definition verify (secret : secret_key) (callback_id signature : string) : bool :=
  match from_hex signature with
  | Some h => digest_eqb (keyed_hash secret callback_id) h
  | None => false
  end.

(** The bodies; a heartbeat without a timeout gets the default. *)
Record CompletePayload : Type := mkComplete { cp_payload : option json; cp_body_output : option json }.
Record FailPayload : Type := mkFail { fp_error : string }.
Record HeartbeatPayload : Type := mkHeartbeat { timeout_seconds : spec_float }.
Definition read_heartbeat (timeout : option spec_float) : HeartbeatPayload :=
  mkHeartbeat (default DEFAULT_HEARTBEAT_TIMEOUT_SECS timeout).

(** * The worker *)

Inductive HttpWorkerMode : Type := Async | Sync (response_timeout : Z).
(** Durations in nanoseconds; [headers] in the order they are added. *)
Record HttpWorkerConfig : Type := mkHttpWorker {
  hw_url : string;
  hw_mode : HttpWorkerMode;
  hw_callback_timeout : Z;
  hw_headers : list (string * string);
  hw_secret : option secret_key;
  hw_callback_base_url : option string;
  hw_callback_path_prefix : option string;
  hw_request_timeout : Z
}.
Definition default_http_worker : HttpWorkerConfig :=
  mkHttpWorker EmptyString Async (3600 * 1000000000) [] None None None (30 * 1000000000).
(** The timeout of the client [HttpWorker::new] builds. *)
Definition client_timeout (config : HttpWorkerConfig) : Z :=
  match hw_mode config with Sync response_timeout => response_timeout | Async => hw_request_timeout config end.
Definition sign_callback_id (config : HttpWorkerConfig) (callback_id : string) : option string :=
  (fun key => sign key callback_id) <$> hw_secret config.

Record HttpWorkerRequest : Type := mkRequest {
  rq_job_id : Z;
  rq_kind : string;
  rq_args : json;
  rq_attempt : Z;
  rq_max_attempts : Z;
  rq_callback_id : option string;
  rq_callback_url : option string
}.
Record Post : Type := mkPost { post_url : string; post_headers : list (string * string); post_body : HttpWorkerRequest }.

Definition request_url (config : HttpWorkerConfig) (callback_id : string) : option string :=
  (fun base => callback_url base (default DEFAULT_CALLBACK_PATH_PREFIX (hw_callback_path_prefix config)) callback_id "complete")
  <$> hw_callback_base_url config.
Definition async_post (config : HttpWorkerConfig) (kind : string) (job : JobRow) (callback_id : Z) : Post :=
  let id := uuid_text callback_id in
  mkPost (hw_url config)
    (hw_headers config ++ match sign_callback_id config id with Some s => [(SIGNATURE_HEADER, s)] | None => [] end)
    (mkRequest (j_id job) kind (j_args job) (j_attempt job) (j_max_attempts job) (Some id) (request_url config id)).
Definition sync_post (config : HttpWorkerConfig) (kind : string) (job : JobRow) : Post :=
  mkPost (hw_url config) (hw_headers config)
    (mkRequest (j_id job) kind (j_args job) (j_attempt job) (j_max_attempts job) None None).

(** [status_text] is the [Display] of a status, [display] of an error. *)
Context (validate_ident : string -> bool) (status_text : Z -> string) (display : AwaError -> string).

Definition is_success (status : Z) : bool := (200 <=? status) && (status <? 300).
Definition is_server_error (status : Z) : bool := (500 <=? status) && (status <? 600).
(** A response is a status and the text of its body; [Err] is a failed send. *)
Definition map_response (accepted : JobResult) (response : result string (Z * string)) : HandlerResult :=
  match response with
  | Err e => Err (JRetryable e)
  | Ok (status, body) =>
      let message := "function returned " +:+ status_text status +:+ ": " +:+ body in
      if is_success status then Ok accepted
      else if is_server_error status then Err (JRetryable message)
      else Err (JTerminal message)
  end.

(** [JobContext::register_callback]; a runtime on queue storage names its schema. *)
Definition ctx_register_callback (storage : option string) (env : Env) (senv : StoreEnv) (job : JobRow) (callback_id timeout : Z)
    (w : Cluster) : result AwaError (Z * Cluster) :=
  match storage with
  | None => register_callback validate_ident env senv (j_id job) (j_run_lease job) callback_id (micros timeout) w
  | Some schema =>
      on_queue schema (fun q => let? q := Callbacks.register_callback senv (j_id job) (j_run_lease job) callback_id (micros timeout) q in
                                Ok (callback_id, q)) w
  end.
(** [world] is what happens from the post to its response, callbacks included. *)
Definition perform_async (config : HttpWorkerConfig) (kind : string) (storage : option string) (env : Env) (senv : StoreEnv)
    (job : JobRow) (fresh : Z) (world : Post -> Cluster -> result string (Z * string) * Cluster) (w : Cluster)
    : HandlerResult * Cluster :=
  match ctx_register_callback storage env senv job fresh (hw_callback_timeout config) w with
  | Err e => (Err (JRetryable (display e)), w)
  | Ok (callback_id, w) =>
      let '(response, w) := world (async_post config kind job callback_id) w in
      (map_response JWaitForCallback response, w)
  end.
Definition perform_sync (config : HttpWorkerConfig) (kind : string) (job : JobRow)
    (world : Post -> Cluster -> result string (Z * string) * Cluster) (w : Cluster) : HandlerResult * Cluster :=
  let '(response, w) := world (sync_post config kind job) w in
  (map_response JCompleted response, w).
Definition perform (config : HttpWorkerConfig) (kind : string) (storage : option string) (env : Env) (senv : StoreEnv)
    (job : JobRow) (fresh : Z) (world : Post -> Cluster -> result string (Z * string) * Cluster) (w : Cluster)
    : HandlerResult * Cluster :=
  match hw_mode config with
  | Async => perform_async config kind storage env senv job fresh world w
  | Sync _ => perform_sync config kind job world w
  end.

(** * The receiver *)

Inductive ApiError : Type :=
  | ApiAwa (e : AwaError)
  | ReadOnly
  | ApiNotFound (message : string)
  | Unauthorized (message : string).
(** The status of the response ([IntoResponse] of awa-ui/src/error.rs). *)
Definition error_status (e : ApiError) : Z :=
  match e with
  | ReadOnly => 503
  | ApiNotFound _ => 404
  | Unauthorized _ => 401
  | ApiAwa (JobNotFound _) | ApiAwa (CallbackNotFound _) => 404
  | ApiAwa (Validation _) => 400
  | ApiAwa (UniqueConflict _) => 409
  | ApiAwa _ => 500
  end.
Definition api {A} (r : result AwaError A) : result ApiError A := match r with Ok a => Ok a | Err e => Err (ApiAwa e) end.

Record AppState : Type := mkAppState { read_only : bool; callback_secret : option secret_key }.
Definition require_writable (st : AppState) : result ApiError unit := if read_only st then Err ReadOnly else Ok tt.
(** The header: absent, present and not text, or its text. *)
Definition verify_signature (header : option (option string)) (callback_id : string) (st : AppState) : result ApiError unit :=
  match callback_secret st with
  | None => Ok tt
  | Some secret =>
      match header with
      | None => Err (Unauthorized ("missing " +:+ SIGNATURE_HEADER +:+ " header"))
      | Some None => Err (Unauthorized ("invalid " +:+ SIGNATURE_HEADER +:+ " header"))
      | Some (Some provided) =>
          if verify secret callback_id provided then Ok tt else Err (Unauthorized "invalid callback signature")
      end
  end.
Definition parse_callback_id (callback_id : string) : result ApiError Z :=
  match parse_uuid callback_id with Ok u => Ok u | Err e => Err (ApiAwa (Validation e)) end.
(** What every handler does first. *)
Definition accept_callback (st : AppState) (header : option (option string)) (callback_id : string) : result ApiError Z :=
  check? require_writable st;
  check? verify_signature header callback_id st;
  parse_callback_id callback_id.

(** The JSON answer: the id, and the state as [Debug] prints it. *)
Definition state_debug (s : JobState) : string :=
  match s with
  | Scheduled => "Scheduled" | Available => "Available" | Running => "Running" | Completed => "Completed"
  | Retryable => "Retryable" | Failed => "Failed" | Cancelled => "Cancelled" | WaitingExternal => "WaitingExternal"
  end.
Definition answer_job (job : JobRow) : Z * string := (j_id job, state_debug (j_state job)).

Context (json_len : json -> result string Z) (error_text : OutputError -> string) (kind_mismatch : Z -> string -> string -> string)
  (supports_job_output : bool).

Definition complete_callback (st : AppState) (header : option (option string)) (callback_id : string) (body : CompletePayload)
    (env : Env) (senv : StoreEnv) (w : Cluster) : result ApiError ((Z * string) * Cluster) :=
  let? uuid := accept_callback st header callback_id in
  let? (job, w) :=
    match cp_body_output body with
    | Some output =>
        let? (reported, w) := api (complete_external_reporting_output validate_ident json_len error_text kind_mismatch
                                     supports_job_output env senv uuid (with_external_output output external_completion) w) in
        Ok (fst reported, w)
    | None => api (complete_external validate_ident env senv uuid (cp_payload body) None w)
    end in
  Ok (answer_job job, w).
Definition fail_callback (st : AppState) (header : option (option string)) (callback_id : string) (body : FailPayload)
    (env : Env) (senv : StoreEnv) (w : Cluster) : result ApiError ((Z * string) * Cluster) :=
  let? uuid := accept_callback st header callback_id in
  let? (job, w) := api (fail_external validate_ident env senv uuid (fp_error body) None w) in
  Ok (answer_job job, w).

(** [Duration::from_secs_f64], in nanoseconds rounded half to even; [None] is
    its panic, on a value a duration cannot hold. *)
Definition round_half_even (n d : Z) : Z :=
  let q := n / d in let r := n mod d in
  if 2 * r <? d then q else if d <? 2 * r then q + 1 else if Z.even q then q else q + 1.
Definition from_secs_f64 (x : spec_float) : option Z :=
  match x with
  | S754_zero _ => Some 0
  | S754_finite false m e =>
      if 0 <=? e then (if Zpos m * 2 ^ e <? 2 ^ 64 then Some (Zpos m * 2 ^ e * 1000000000) else None)
      else Some (round_half_even (Zpos m * 1000000000) (2 ^ (- e)))
  | _ => None
  end.
Definition sign_negative (x : spec_float) : bool :=
  match x with S754_zero s | S754_infinity s | S754_finite s _ _ => s | S754_nan => false end.
Definition finite (x : spec_float) : bool := match x with S754_zero _ | S754_finite _ _ _ => true | _ => false end.
(** A handler that panics gives no answer. *)
Inductive Reply (A : Type) : Type := Answered (r : result ApiError A) | Panicked.
Arguments Answered {A} r.
Arguments Panicked {A}.
Definition TIMEOUT_INVALID : ApiError := ApiAwa (Validation "timeout_seconds must be a finite, non-negative number").
Definition parse_timeout (x : spec_float) : Reply Z :=
  if negb (finite x) || sign_negative x then Answered (Err TIMEOUT_INVALID)
  else match from_secs_f64 x with Some d => Answered (Ok d) | None => Panicked end.
Definition heartbeat_endpoint (st : AppState) (header : option (option string)) (callback_id : string) (body : HeartbeatPayload)
    (env : Env) (senv : StoreEnv) (w : Cluster) : Reply (Z * string) * Cluster :=
  match accept_callback st header callback_id with
  | Err e => (Answered (Err e), w)
  | Ok uuid =>
      match parse_timeout (timeout_seconds body) with
      | Panicked => (Panicked, w)
      | Answered (Err e) => (Answered (Err e), w)
      | Answered (Ok timeout) =>
          match heartbeat_callback validate_ident env senv uuid (micros timeout) w with
          | Err e => (Answered (Err (ApiAwa e)), w)
          | Ok (job, w) => (Answered (let? job := api job in Ok (answer_job job)), w)
          end
      end
  end.

(** ** The callback-only router *)

Inductive CallbackAuth : Type := Signed (secret : secret_key) | Unsigned.
Record CallbackReceiverConfig : Type := mkReceiver { rc_auth : CallbackAuth; rc_path_prefix : string }.
Definition receiver (auth : CallbackAuth) : CallbackReceiverConfig := mkReceiver auth DEFAULT_CALLBACK_PATH_PREFIX.
Inductive CallbackAction : Type := DoComplete | DoFail | DoHeartbeat.
Definition action_name (a : CallbackAction) : string :=
  match a with DoComplete => "complete" | DoFail => "fail" | DoHeartbeat => "heartbeat" end.
Record Router : Type := mkRouter { ro_state : AppState; ro_routes : list (string * CallbackAction) }.
Definition READ_ONLY_DATABASE : string :=
  "callback receiver requires a writable database (pool reports transaction_read_only=on)".
Definition callback_router (db_read_only : bool) (config : CallbackReceiverConfig) : result string Router :=
  if db_read_only then Err READ_ONLY_DATABASE
  else
    let secret := match rc_auth config with Signed secret => Some secret | Unsigned => None end in
    let prefix := normalize_prefix (rc_path_prefix config) in
    Ok (mkRouter (mkAppState false secret)
          (map (fun a => (prefix +:+ "/{callback_id}/" +:+ action_name a, a)) [DoComplete; DoFail; DoHeartbeat])).
(** The route a path takes. *)
Definition dispatch (r : Router) (path : string) : option (CallbackAction * string) :=
  head (omap (fun '(template, a) => (fun id => (a, id)) <$> capture template path) (ro_routes r)).
End Http.
Arguments Answered {A} r.
Arguments Panicked {A}.

(** * The contract kept on both sides *)

Section Promises.
Context {wire : Wire}.
Context (validate_ident : string -> bool) (json_len : json -> result string Z) (error_text : OutputError -> string)
  (kind_mismatch : Z -> string -> string -> string) (supports_job_output : bool).
Abbreviation complete_callback := (HttpCallbacks.complete_callback validate_ident json_len error_text kind_mismatch supports_job_output).
Abbreviation fail_callback := (HttpCallbacks.fail_callback validate_ident).
Abbreviation heartbeat_endpoint := (HttpCallbacks.heartbeat_endpoint validate_ident).

(** A signature is accepted just when it is the hex of the keyed hash. *)
Lemma verify_iff secret id s : verify secret id s = true <-> from_hex s = Some (keyed_hash secret id).
Proof.
  unfold verify. destruct (from_hex s) as [h|]; [|done]. rewrite digest_eqb_spec. split; [by intros ->|by intros [= ->]].
Qed.
Lemma action_is_segment a : no_char is_slash (action_name a) = true /\ no_char is_brace (action_name a) = true.
Proof. by destruct a. Qed.
Lemma action_eqb a b : String.eqb (action_name a) (action_name b) = true <-> a = b.
Proof. by destruct a, b. Qed.

Lemma dispatches config router id a :
  callback_router false config = Ok router -> no_char is_brace (normalize_prefix (rc_path_prefix config)) = true ->
  no_char is_slash id = true -> id <> EmptyString ->
  dispatch router (callback_path (rc_path_prefix config) id (action_name a)) = Some (a, id).
Proof.
  intros [= <-] Hb Hs Hn. set (path := callback_path _ _ _).
  assert (forall b, capture (normalize_prefix (rc_path_prefix config) +:+ "/{callback_id}/" +:+ action_name b) path
                    = if String.eqb (action_name b) (action_name a) then Some id else None) as Hc.
  { intros b. unfold path, callback_path. apply capture_segment; try done; apply action_is_segment. }
  pose proof (Hc DoComplete) as H1. pose proof (Hc DoFail) as H2. pose proof (Hc DoHeartbeat) as H3.
  unfold dispatch. cbn [ro_routes map omap list_omap action_name] in *. rewrite H1, H2, H3. by destruct a.
Qed.
Lemma accepts st secret id u header :
  read_only st = false -> callback_secret st = Some secret -> header = Some (Some (sign secret id)) -> parse_uuid id = Ok u ->
  accept_callback st header id = Ok u.
Proof.
  intros Hr Hs -> Hu. unfold accept_callback, require_writable, verify_signature. rewrite Hr, Hs. cbn [rbind].
  assert (verify secret id (sign secret id) = true) as -> by (apply verify_iff, hex_digits).
  cbn [rbind]. unfold parse_callback_id. by rewrite Hu.
Qed.

(** C35. What the worker sends is what the receiver takes.  The worker has a base
    URL and a secret, the receiver checks signatures with the same secret, and the
    two have the same path prefix, in whatever spelling, without braces.  Then the
    callback URL of the asynchronous request posted to the function ends in a path
    that the receiver routes to the completion of that callback (and the sibling
    paths to its failure and its heartbeat), the posted signature is accepted for
    it, and the handlers then do exactly the external completion (without an
    output of its own) or failure of the registered callback.  Hex, UUIDs and path
    captures read back as their libraries document ([Wire]). *)
Theorem posted_callback_lands config receiver_config router secret base kind job cb :
  hw_secret config = Some secret -> hw_callback_base_url config = Some base ->
  rc_auth receiver_config = Signed secret -> callback_router false receiver_config = Ok router ->
  normalize_prefix (default DEFAULT_CALLBACK_PATH_PREFIX (hw_callback_path_prefix config))
    = normalize_prefix (rc_path_prefix receiver_config) ->
  no_char is_brace (normalize_prefix (rc_path_prefix receiver_config)) = true ->
  exists id signature,
    rq_callback_id (post_body (async_post config kind job cb)) = Some id
    /\ (SIGNATURE_HEADER, signature) ∈ post_headers (async_post config kind job cb)
    /\ rq_callback_url (post_body (async_post config kind job cb))
       = Some (trim_slashes base +:+ callback_path (rc_path_prefix receiver_config) id "complete")
    /\ (forall a, dispatch router (callback_path (rc_path_prefix receiver_config) id (action_name a)) = Some (a, id))
    /\ (forall payload env senv w,
          complete_callback (ro_state router) (Some (Some signature)) id (mkComplete payload None) env senv w
          = api (let? (row, w) := complete_external validate_ident env senv cb payload None w in Ok (answer_job row, w)))
    /\ (forall error env senv w,
          fail_callback (ro_state router) (Some (Some signature)) id (mkFail error) env senv w
          = api (let? (row, w) := fail_external validate_ident env senv cb error None w in Ok (answer_job row, w))).
Proof.
  intros Hs Hb Ha Hr Hp Hbr. destruct (uuid_one_segment cb) as [Hseg Hne].
  exists (uuid_text cb), (sign secret (uuid_text cb)).
  assert (accept_callback (ro_state router) (Some (Some (sign secret (uuid_text cb)))) (uuid_text cb) = Ok cb) as Hacc.
  { unfold callback_router in Hr. rewrite Ha in Hr. injection Hr as <-. by apply (accepts _ secret); [..|apply uuid_reads_back]. }
  split_and!.
  - done.
  - unfold async_post, sign_callback_id. rewrite Hs. cbn. apply elem_of_app. right. by apply list_elem_of_singleton.
  - cbn [async_post post_body rq_callback_url]. unfold request_url. rewrite Hb. cbn. unfold callback_url, callback_path. by rewrite Hp.
  - intros a. by apply dispatches.
  - intros payload env senv w. unfold HttpCallbacks.complete_callback. rewrite Hacc. cbn [rbind cp_body_output cp_payload].
    by destruct (complete_external _ _ _ _ _ _ _) as [[row w']|e].
  - intros error env senv w. unfold HttpCallbacks.fail_callback. rewrite Hacc. cbn [rbind fp_error].
    by destruct (fail_external _ _ _ _ _ _ _) as [[row w']|e].
Qed.

(** A receiver with a secret acts on nobody else's word.  A request whose
    signature header is missing, is not text, or is anything but the hex of the
    keyed hash of the callback id in its path is refused by every endpoint with
    401 (503 if the receiver is read-only), and changes nothing. *)
Theorem forged_callback_refused st secret header id :
  callback_secret st = Some secret ->
  (forall s, header = Some (Some s) -> from_hex s <> Some (keyed_hash secret id)) ->
  exists e, (error_status e = 401 \/ read_only st = true /\ error_status e = 503)
    /\ (forall body env senv w, complete_callback st header id body env senv w = Err e)
    /\ (forall body env senv w, fail_callback st header id body env senv w = Err e)
    /\ (forall body env senv w, heartbeat_endpoint st header id body env senv w = (Answered (Err e), w)).
Proof.
  intros Hs Hf.
  assert (exists e, accept_callback st header id = Err e /\ (error_status e = 401 \/ read_only st = true /\ error_status e = 503)) as (e & He & Hst).
  { unfold accept_callback, require_writable, verify_signature. destruct (read_only st); [exists ReadOnly; auto|]. rewrite Hs. cbn [rbind].
    destruct header as [[s|]|]; [|eexists; split; [done|by left]..].
    assert (verify secret id s = false) as ->; [|eexists; split; [done|by left]].
    apply not_true_is_false. intros Hv%verify_iff. by eapply Hf. }
  exists e. split; [done|]. split_and!; intros body env senv w.
  - unfold HttpCallbacks.complete_callback. by rewrite He.
  - unfold HttpCallbacks.fail_callback. by rewrite He.
  - unfold HttpCallbacks.heartbeat_endpoint. by rewrite He.
Qed.

(** A heartbeat can crash its handler.  The endpoint answers 400 unless the
    timeout is finite and not negative; but a finite timeout of 2^64 seconds or
    more passes that check and panics in the conversion to a duration. *)
Theorem heartbeat_timeout_panics st header id uuid m e env senv w :
  accept_callback st header id = Ok uuid -> 0 <= e -> 2 ^ 64 <= Zpos m * 2 ^ e ->
  finite (S754_finite false m e) = true /\ sign_negative (S754_finite false m e) = false
  /\ heartbeat_endpoint st header id (mkHeartbeat (S754_finite false m e)) env senv w = (Panicked, w).
Proof.
  intros Ha He Hm. split; [done|]. split; [done|]. unfold HttpCallbacks.heartbeat_endpoint. rewrite Ha.
  cbn [timeout_seconds]. unfold parse_timeout, from_secs_f64. cbn [finite sign_negative negb orb].
  rewrite (proj2 (Z.leb_le 0 e)) by done. by rewrite (proj2 (Z.ltb_ge _ _)).
Qed.
End Promises.

(** * A wire *)

Module WireDemo.
(** A digest is text, its hex two digits a character. *)
Definition nibble (b3 b2 b1 b0 : bool) : ascii :=
  match b3, b2, b1, b0 with
  | false, false, false, false => "0" | false, false, false, true => "1" | false, false, true, false => "2"
  | false, false, true, true => "3" | false, true, false, false => "4" | false, true, false, true => "5"
  | false, true, true, false => "6" | false, true, true, true => "7" | true, false, false, false => "8"
  | true, false, false, true => "9" | true, false, true, false => "a" | true, false, true, true => "b"
  | true, true, false, false => "c" | true, true, false, true => "d" | true, true, true, false => "e"
  | true, true, true, true => "f"
  end.
Definition digit (a : ascii) : option (bool * bool * bool * bool) :=
  match a with
  | Ascii b0 b1 b2 b3 true true false false =>
      if b3 && (b2 || b1) then None else Some (b3, b2, b1, b0)
  | Ascii true false false false false _ true false => Some (true, false, true, false)
  | Ascii false true false false false _ true false => Some (true, false, true, true)
  | Ascii true true false false false _ true false => Some (true, true, false, false)
  | Ascii false false true false false _ true false => Some (true, true, false, true)
  | Ascii true false true false false _ true false => Some (true, true, true, false)
  | Ascii false true true false false _ true false => Some (true, true, true, true)
  | _ => None
  end.
Fixpoint hex (s : string) : string :=
  match s with
  | EmptyString => EmptyString
  | String (Ascii b0 b1 b2 b3 b4 b5 b6 b7) s => String (nibble b7 b6 b5 b4) (String (nibble b3 b2 b1 b0) (hex s))
  end.
Fixpoint unhex (s : string) : option string :=
  match s with
  | EmptyString => Some EmptyString
  | String h (String l s) =>
      match digit h, digit l, unhex s with
      | Some (b7, b6, b5, b4), Some (b3, b2, b1, b0), Some s => Some (String (Ascii b0 b1 b2 b3 b4 b5 b6 b7) s)
      | _, _, _ => None
      end
  | String _ EmptyString => None
  end.
Lemma digit_nibble b3 b2 b1 b0 : digit (nibble b3 b2 b1 b0) = Some (b3, b2, b1, b0).
Proof. by destruct b3, b2, b1, b0. Qed.
Lemma unhex_hex s : unhex (hex s) = Some s.
Proof. induction s as [|[b0 b1 b2 b3 b4 b5 b6 b7] s IH]; [done|]. cbn [hex unhex]. by rewrite !digit_nibble, IH. Qed.

(** An id as its bits, the least significant first. *)
Fixpoint bits (p : positive) : string :=
  match p with xO p => String "0" (bits p) | xI p => String "1" (bits p) | xH => EmptyString end.
Fixpoint unbits (s : string) : positive :=
  match s with String a s => if bool_decide (a = "0"%char) then xO (unbits s) else xI (unbits s) | EmptyString => xH end.
Lemma unbits_bits p : unbits (bits p) = p.
Proof. induction p as [p IH|p IH|]; cbn; by rewrite ?IH. Qed.
Lemma bits_no_slash p : no_char is_slash (bits p) = true.
Proof. by induction p as [p IH|p IH|]. Qed.
Definition id_text (u : Z) : string :=
  match u with Z0 => "z" | Zpos p => String "p" (bits p) | Zneg p => String "n" (bits p) end.
Definition read_id (s : string) : result string Z :=
  match s with
  | String a s => if bool_decide (a = "z"%char) then Ok 0 else if bool_decide (a = "p"%char) then Ok (Zpos (unbits s))
                  else Ok (Zneg (unbits s))
  | EmptyString => Err "empty"
  end.
Lemma read_id_text u : read_id (id_text u) = Ok u.
Proof. destruct u; cbn; by rewrite ?unbits_bits. Qed.
Lemma id_text_segment u : no_char is_slash (id_text u) = true /\ id_text u <> EmptyString.
Proof. destruct u; cbn; by rewrite ?bits_no_slash. Qed.

(** Paths match segment by segment. *)
Fixpoint segments (s : string) : list string :=
  match s with
  | EmptyString => [EmptyString]
  | String a s =>
      if is_slash a then EmptyString :: segments s
      else match segments s with x :: l => String a x :: l | [] => [String a EmptyString] end
  end.
Fixpoint matches (template path : list string) (found : option string) : option string :=
  match template, path with
  | [], [] => found
  | x :: template, y :: path =>
      if String.eqb x "{callback_id}" then matches template path (Some y)
      else if String.eqb x y then matches template path found else None
  | _, _ => None
  end.
Definition capture_by_segments (template path : string) : option string := matches (segments template) (segments path) None.

Lemma segments_cons s : segments s <> [].
Proof. destruct s as [|a s]; [done|]. cbn. destruct (is_slash a); [done|]. by destruct (segments s). Qed.
Lemma segments_app a b : segments (a +:+ "/" +:+ b) = segments a ++ segments b.
Proof.
  induction a as [|c a IH]; [done|]. change (String c a +:+ "/" +:+ b) with (String c (a +:+ "/" +:+ b)). cbn [segments]. rewrite IH.
  destruct (is_slash c); [done|]. pose proof (segments_cons a) as Hn. by destruct (segments a).
Qed.
Lemma segments_one s : no_char is_slash s = true -> segments s = [s].
Proof. induction s as [|c s IH]; [done|]. cbn. intros [Hc%negb_true_iff Hs]%andb_true_iff. by rewrite Hc, IH. Qed.
Lemma segments_no_brace s : no_char is_brace s = true -> Forall (fun x => no_char is_brace x = true) (segments s).
Proof.
  induction s as [|c s IH]; [by repeat constructor|]. cbn. intros [Hc Hs]%andb_true_iff. specialize (IH Hs).
  destruct (is_slash c); [by constructor|]. destruct (segments s) as [|x l]; [constructor; [cbn; by rewrite Hc|constructor]|].
  inversion IH; subst. constructor; [cbn; by rewrite Hc|done].
Qed.
Lemma not_parameter x : no_char is_brace x = true -> String.eqb x "{callback_id}" = false.
Proof. intros H. apply String.eqb_neq. by intros ->. Qed.
Lemma matches_prefix l t p f : Forall (fun x => no_char is_brace x = true) l -> matches (l ++ t) (l ++ p) f = matches t p f.
Proof. induction 1 as [|x l Hx Hl IH]; [done|]. cbn. by rewrite not_parameter, String.eqb_refl. Qed.
Lemma captures prefix id a b :
  no_char is_brace prefix = true -> no_char is_slash id = true -> id <> EmptyString ->
  no_char is_slash a = true -> no_char is_brace a = true -> no_char is_slash b = true ->
  capture_by_segments (prefix +:+ "/{callback_id}/" +:+ a) (prefix +:+ "/" +:+ id +:+ "/" +:+ b)
  = if String.eqb a b then Some id else None.
Proof.
  intros Hp Hi Hn Ha Hab Hb. unfold capture_by_segments.
  change ("/{callback_id}/" +:+ a) with ("/" +:+ "{callback_id}" +:+ "/" +:+ a). rewrite !segments_app.
  rewrite matches_prefix by (by apply segments_no_brace). rewrite (segments_one id), (segments_one a), (segments_one b) by done.
  change (segments "{callback_id}") with ["{callback_id}"]. cbn [app matches]. rewrite String.eqb_refl, not_parameter by done.
  by destruct (String.eqb a b).
Qed.

#[local] Instance wire : Wire := {|
  secret_key := string;
  digest := string;
  keyed_hash := String.append;
  digest_eqb := String.eqb;
  to_hex := hex;
  from_hex := unhex;
  uuid_text := id_text;
  parse_uuid := read_id;
  capture := capture_by_segments;
  digest_eqb_spec := String.eqb_eq;
  hex_digits := unhex_hex;
  uuid_reads_back := read_id_text;
  uuid_one_segment := id_text_segment;
  capture_segment := captures
|}.
End WireDemo.

(** * A job done by a function *)

Module HttpDemo.
#[local] Existing Instance WireDemo.wire.
Abbreviation any := (fun _ : string => true).
Definition secret : secret_key := "key".
Definition config : HttpWorkerConfig :=
  mkHttpWorker "https://fn.example/run" Async 1000000000 [("Authorization", "t")] (Some secret) (Some "https://awa.example/")
    (Some " api/callbacks/") 0.
Definition receiver_config : CallbackReceiverConfig := receiver (Signed secret).
Definition router : Router := mkRouter (mkAppState false (Some secret))
  [("/api/callbacks/{callback_id}/complete", DoComplete); ("/api/callbacks/{callback_id}/fail", DoFail);
   ("/api/callbacks/{callback_id}/heartbeat", DoHeartbeat)].
Definition job : JobRow := Demo.row_of 1 Demo.running.
Definition no_len (_ : json) : result string Z := Ok 0.
Definition complete := complete_callback any no_len (fun _ => "bad output") (fun _ _ _ => "other kind") true.
(** The function calls back before it answers the post. *)
Definition strip (base url : string) : string := String.substring (String.length base) (String.length url - String.length base) url.
Definition eager (p : Post) (w : Cluster) : result string (Z * string) * Cluster :=
  match rq_callback_url (post_body p), last (post_headers p) with
  | Some url, Some (_, signature) =>
      match dispatch router (strip "https://awa.example" url) with
      | Some (DoComplete, id) =>
          match complete (ro_state router) (Some (Some signature)) id (mkComplete None None) (Demo.env_at 5) (StoreDemo.at_second 5) w with
          | Ok (_, w) => (Ok (202, EmptyString), w)
          | Err e => (Ok (error_status e, EmptyString), w)
          end
      | _ => (Ok (404, EmptyString), w)
      end
  | _, _ => (Ok (400, EmptyString), w)
  end.
Definition performed : HandlerResult * Cluster :=
  perform any (fun _ => "status") (fun _ => "error") config "send_email" None (Demo.env_at 2) (StoreDemo.at_second 2) job 77 eager
    TransitionDemo.w_job.
Lemma early_callback_completes :
  fst performed = Ok JWaitForCallback /\ j_state <$> hot (canonical (snd performed)) !! 1 = Some Completed.
Proof. split; vm_compute; reflexivity. Qed.
End HttpDemo.

Lemma posted_callback_lands_witness :
  exists id signature,
    @dispatch WireDemo.wire HttpDemo.router (callback_path DEFAULT_CALLBACK_PATH_PREFIX id "complete") = Some (DoComplete, id)
    /\ (SIGNATURE_HEADER, signature) ∈ post_headers (@async_post WireDemo.wire HttpDemo.config "send_email" HttpDemo.job 77).
Proof.
  pose proof (@posted_callback_lands WireDemo.wire HttpDemo.any HttpDemo.no_len (fun _ => "bad output") (fun _ _ _ => "other kind") true
    HttpDemo.config HttpDemo.receiver_config HttpDemo.router HttpDemo.secret "https://awa.example/" "send_email" HttpDemo.job 77
    eq_refl eq_refl eq_refl eq_refl eq_refl eq_refl) as (id & signature & _ & Hs & _ & Hd & _).
  exists id, signature. split; [exact (Hd DoComplete)|exact Hs].
Defined.
Lemma forged_callback_refused_witness :
  exists e, error_status e = 401
    /\ forall body env senv w,
         @fail_callback WireDemo.wire HttpDemo.any (ro_state HttpDemo.router) (Some (Some "00ff")) "z" body env senv w = Err e.
Proof.
  destruct (@forged_callback_refused WireDemo.wire HttpDemo.any HttpDemo.no_len (fun _ => "bad output") (fun _ _ _ => "other kind") true
    (ro_state HttpDemo.router) HttpDemo.secret (Some (Some "00ff")) "z" eq_refl) as (e & He & _ & Hf & _).
  - intros s [= <-]. vm_compute. discriminate.
  - exists e. split; [destruct He as [He|[He _]]; [exact He|discriminate He]|exact Hf].
Defined.
Lemma heartbeat_timeout_panics_witness :
  fst (@heartbeat_endpoint WireDemo.wire HttpDemo.any (mkAppState false None) None "z" (mkHeartbeat (as_f64 (2 ^ 64)))
         (Demo.env_at 5) (StoreDemo.at_second 5) TransitionDemo.w_job) = Panicked.
Proof.
  pose proof (@heartbeat_timeout_panics WireDemo.wire HttpDemo.any (mkAppState false None) None "z" 0 (2 ^ 52) 12 (Demo.env_at 5)
    (StoreDemo.at_second 5) TransitionDemo.w_job eq_refl) as (_ & _ & H); [lia|vm_compute; discriminate|].
  change (as_f64 (2 ^ 64)) with (S754_finite false (2 ^ 52) 12). by rewrite H.
Defined.
